(* ===== verification/_CoqProject ===== *)
-Q . S2P
Prelude.v
Common.v
Civil.v
Dates.v
Decimal.v
Value.v
KeyEnc.v
Tuple.v
WalRecord.v
WalReader.v
Wal.v
Engine.v
Mvcc.v
LockGraph.v
LockManager.v
TxnManager.v
Isolation.v
TxnEngine.v
Gc.v
Recovery.v
Database.v
SiModel.v
Snapshot.v
Anomalies.v
Bloom.v
Merge.v
SsTable.v
Manifest.v
LsmTree.v
LsmView.v
LsmCompact.v
LsmInv.v
LsmFlush.v
LsmEngine.v
Like.v
Expr.v
ExprSem.v
Table.v
TableSpec.v
Aggregate.v
Exec.v
Build.v
Streams.v
Joins.v
MergeJoin.v
Models.v
Dml.v
Page.v
BNode.v
BNodeSpec.v
BLayout.v
BPages.v
Pool.v
BTree.v
BShape.v
BHeap.v
BSlots.v
BWalk.v
BPath.v
BInsert.v
BLeafMoves.v
BDelete.v
BNodeMoves.v
BRebalance.v
BClose.v
BRemove.v
BErase.v
BScan.v
BRange.v
BEngine.v
