(* ===== verification/Prelude.v ===== *)
(** * InterchangeDB: a verification library

    InterchangeDB is a database with exchangeable parts: two storage engines
    behind one interface, transactions with versioned keys and two isolation
    levels over them, a write-ahead log with recovery, and SQL tables, plans and
    two execution models on top.  This library translates the parts that decide
    what is stored and what is read into executable definitions, and proves what
    each of them promises to the next.  Paths below are relative to the
    repository.

    ** Conventions

    A Rust call is an [outcome]: a value, an error, or a panic.  Panics are those
    of the development profile: failed assertions, [debug_assert!] included,
    slices out of range, and arithmetic that leaves its machine type ([arith]
    and the [in_u64]-like tests; integers are in [Z], casts wrap).  Code that
    changes state is in [M S A] (Common.v), which keeps the state also when the
    call fails.  Bytes are [list byte] and compare lexicographically ([blt],
    [ble]); strings are their UTF-8 bytes.  A mutex makes a call one step; where
    the code lets go of a lock inside a call and that can be observed, the call
    is split into steps of a relation ([wal_step], [lock_step], [world_step],
    [lsm_step]), and theorems quantify over all interleavings.  CRC-32 is the
    crc32fast crate: a parameter, any function to [u32].  Loops that are not
    structural have fuel.  The fuel is part of the definition where it is
    computed from the data (and proved sufficient), or an argument, and then the
    theorems say that some amount is enough and gives the result.

    ** Values, keys and rows (crates/idb-core/src/types, idb-sql/src/sql)

    Civil.v and Dates.v: the calendar, date literals and intervals.  Decimal.v:
    fixed-scale decimals, against rationals.  Value.v: typing, SQL comparison and
    coercion.  KeyEnc.v: composite keys whose bytes compare as their columns do,
    and the ranges that scans use.  Tuple.v: row blobs.  The theorems are round
    trips, order preservation, exactness of scan bounds and the absence of
    panics.

    ** The log (crates/idb-wal/src/wal)

    WalRecord.v: records and their codec.  WalReader.v: the segment iterator,
    proved equal to a one-pass scan.  Wal.v: the writer, rotation, reopening, the
    search for the last checkpoint, and group commit ([Wal::sync_to]) as steps of
    leaders and appenders: what is reported synced survives a crash, for a log
    opened on whole records and LSN 0 apart, and every committer is served when
    two group commits have completed.  Recovery.v: analysis and redo; with the
    log, that committed puts are in the recovered engine.

    ** Transactions (crates/idb-txn/src/txn, src/database.rs)

    Engine.v: the storage interface as a class with laws, and the reference
    engine.  The laws say that put and delete succeed, so its clients are proved
    for entries that the engine at hand accepts.  Mvcc.v: versioned keys,
    visibility, snapshot point reads and the streaming range scan.  LockGraph.v,
    LockManager.v: the deadlock search and the lock table.  TxnManager.v,
    Isolation.v, TxnEngine.v, Gc.v, Database.v: the manager, both isolation
    policies, transaction handles, garbage collection and the facade.  SiModel.v
    is snapshot isolation as an abstract machine; Snapshot.v shows that every
    step of the calls of transactions is one of its steps or none, and derives
    snapshot reads, stability and first-committer-wins for all interleavings.
    Checkpoint and garbage collection are not steps of that relation: Anomalies.v
    has runs in which they break it ([dirty_read_after_checkpoint],
    [gc_drops_snapshot_version]); Gc.v says under which condition a collection is
    not observed.

    ** The LSM engine (crates/idb-storage/src/engines/lsm)

    Bloom.v, Merge.v, SsTable.v, Manifest.v: filters, merging of runs, table files
    at the level of bytes, and the text log of levels.  LsmTree.v: memtables,
    levels, flush in phases and compaction.  LsmView.v, LsmCompact.v, LsmInv.v and
    LsmFlush.v prove that the operations keep the invariant and what the tree
    holds; LsmEngine.v has the engine and the theorems of a client: any calls in
    one thread, reads between the phases of a flush, and reopening.  They are for
    entries that fit a data block; reopening also needs non-empty keys.

    ** The B+tree engine (crates/idb-storage/src/engines/btree)

    Page.v, BNode.v, BLayout.v: pages, nodes and their bytes; BNodeSpec.v and
    BPages.v say what they do.  Pool.v: what the tree needs of the buffer pool, as
    a class, with an array of pages as an instance.  BTree.v, BScan.v: the tree with its
    latches, the range iterator and the engine.  BShape.v: the tree that the pages
    stand for and its invariant.  BHeap.v: rules about the pages a call works on,
    as a list of slots up to permutation, with tactics that bring the page a call
    needs to the front.  BSlots.v, BWalk.v, BPath.v: the pages along a path,
    reading, and the way down with write latches.  BInsert.v: insertion.
    BLeafMoves.v, BDelete.v, BNodeMoves.v, BRebalance.v, BClose.v, BRemove.v,
    BErase.v: deletion, from the leaf to the root.  BRange.v: scans.  BEngine.v:
    the engine is a map, its tree is balanced and low, and it can be reopened.
    These hold in a [setting]: node sizes and entries such that a full node fits
    its page, at most [MAX_TOMBSTONES] tombstones per leaf, and more than 28
    frames (a call holds at most one guard for each of the 20 levels, the header
    and a few neighbours).  A call adds at most 22 pages, one for each level, a
    root and a leaf; as long as the pages stay below twice the 19th power of half
    the node size, no tree reaches [MAX_TREE_HEIGHT] = 20.  Scans are exact up to
    [MAX_SCAN_PAGES] = 10,000 pages, where the code gives up.

    ** Tables, expressions and plans (crates/idb-sql/src)

    Like.v, Expr.v, ExprSem.v: LIKE, expressions and predicates compiled to
    closures, and that these compute the typed, three-valued meaning.  Table.v,
    TableSpec.v: schemas, constraints, tables with secondary indexes, and that a
    table behaves as a map from primary keys to rows with exact indexes, for calls
    that keep to [call_ok].  Aggregate.v, Exec.v, Build.v: aggregation, the
    operators of the pull model, the sinks of the push model, and the compilation
    of plans to both.  Streams.v, Joins.v, MergeJoin.v, Models.v: every operator
    streams the rows it stands for, the join strategies agree, and both models
    return what a plan means.  An executor has a bound on the rows still to come,
    which is the fuel of loops that pull from it.  Dml.v: UPDATE and DELETE change
    exactly the rows they select.

    ** Not modelled

    The buffer pool, its replacement policies and the disk manager: the tree is
    proved against their interface.  The calls of several threads on one B+tree.
    The SQL parser (a crate), the binder but for dates, the planner and optimizer
    (choices by floating-point costs), the session but for subquery results, and
    the catalog's system tables.  File-system errors, directory entries and file
    names; a table file appears as a whole.  Point reads and scans of the LSM tree
    are one step each.  The order in which a hash map iterates is the order of
    first insertion.  Sorting is by insertion, which agrees with the standard
    library's stable sort when comparisons do not panic.  Display, EXPLAIN, status
    accessors, statistics, benchmarks, tests and fuzzing. *)

From Stdlib Require Import ZArith Lia List Bool.
From coqutil Require Import Byte Word.LittleEndianList.
From stdpp Require Import base gmap list strings sorting.

#[global] Open Scope Z_scope.

(** ** Outcomes

    A Rust call returns a value, returns an error, or panics (a failed
    [assert!], an out-of-range slice, an overflow under overflow checks).  The
    three are kept apart so that "never panics" is a statement of its own. *)

Inductive outcome (E A : Type) : Type :=
| Ok (a : A)
| Err (e : E)
| Panic.
Arguments Ok {E A} a.
Arguments Err {E A} e.
Arguments Panic {E A}.

#[global] Instance outcome_ret E : MRet (outcome E) := fun A a => Ok a.
#[global] Instance outcome_bind E : MBind (outcome E) :=
  fun A B f m => match m with Ok a => f a | Err e => Err e | Panic => Panic end.
#[global] Instance outcome_fmap E : FMap (outcome E) :=
  fun A B f m => match m with Ok a => Ok (f a) | Err e => Err e | Panic => Panic end.

Definition no_panic {E A} (o : outcome E A) : Prop := o <> Panic.

Definition is_ok {E A} (o : outcome E A) : bool :=
  match o with Ok _ => true | _ => false end.

Section outcome_facts.
Context {E A B : Type}.
Implicit Types (m : outcome E A) (f : A -> outcome E B).

Lemma bind_Ok_inv f m b :
  m ≫= f = Ok b -> exists a, m = Ok a /\ f a = Ok b.
Proof. destruct m; simpl; intros; try discriminate; eauto. Qed.

Lemma bind_ret_r m : m ≫= (fun a => Ok a) = m.
Proof. destruct m; reflexivity. Qed.

Lemma bind_no_panic f m :
  no_panic m -> (forall a, m = Ok a -> no_panic (f a)) -> no_panic (m ≫= f).
Proof.
  unfold no_panic; destruct m; simpl; intros H1 H2; auto; discriminate.
Qed.

Lemma Ok_no_panic (a : A) : no_panic (@Ok E A a).
Proof. discriminate. Qed.

Lemma Err_no_panic (e : E) : no_panic (@Err E A e).
Proof. discriminate. Qed.
End outcome_facts.

Lemma bind_assoc {E A B C} (m : outcome E A) (f : A -> outcome E B) (g : B -> outcome E C) :
  (m ≫= f) ≫= g = m ≫= (fun a => f a ≫= g).
Proof. destruct m; reflexivity. Qed.

Create HintDb idb.
#[export] Hint Resolve Ok_no_panic Err_no_panic bind_no_panic : idb.

(** Peel the successful binds off a hypothesis [m ≫= f = Ok b]. *)
Ltac inv_ok :=
  repeat match goal with
  | H : (_ ≫= _) = Ok _ |- _ =>
      apply bind_Ok_inv in H; destruct H as [? [? H]]; simpl in H
  | H : Ok _ = Ok _ |- _ => injection H as H; subst
  | H : Err _ = Ok _ |- _ => discriminate H
  | H : Panic = Ok _ |- _ => discriminate H
  end.

(** Take one bind of a call that succeeded apart. *)
Tactic Notation "bind_ok" hyp(H) "as" ident(x) ident(E) :=
  apply bind_Ok_inv in H; destruct H as [x [E H]]; cbn beta in H.

(** Split on the guard of the first [if] of the goal or of a hypothesis. *)
Ltac split_if :=
  match goal with
  | |- context [if ?c then _ else _] => destruct c eqn:?
  | H : context [if ?c then _ else _] |- _ => destruct c eqn:?
  end.

(** Decide every boolean comparison in sight and finish by arithmetic. *)
Ltac zbool :=
  repeat match goal with
  | H : (_ && _) = true |- _ => apply andb_true_iff in H as [? ?]
  | H : (_ || _) = false |- _ => apply orb_false_iff in H as [? ?]
  | H : (_ <? _) = true |- _ => apply Z.ltb_lt in H
  | H : (_ <? _) = false |- _ => apply Z.ltb_ge in H
  | H : (_ <=? _) = true |- _ => apply Z.leb_le in H
  | H : (_ <=? _) = false |- _ => apply Z.leb_gt in H
  | H : (_ =? _) = true |- _ => apply Z.eqb_eq in H
  | H : (_ =? _) = false |- _ => apply Z.eqb_neq in H
  end.

(** Split on one boolean comparison, dropping the impossible side. *)
Ltac zcase :=
  match goal with
  | |- context [?a =? ?b] => destruct (Z.eqb_spec a b); try (exfalso; lia)
  | |- context [?a <? ?b] => destruct (Z.ltb_spec a b); try (exfalso; lia)
  | |- context [?a <=? ?b] => destruct (Z.leb_spec a b); try (exfalso; lia)
  end.

(** ** Machine integers

    A w-bit integer is a [Z]; the casts write the wrap-around out. *)

Definition in_i32 (z : Z) : bool := (- 2 ^ 31 <=? z) && (z <? 2 ^ 31).
Definition in_u32 (z : Z) : bool := (0 <=? z) && (z <? 2 ^ 32).
Definition in_i64 (z : Z) : bool := (- 2 ^ 63 <=? z) && (z <? 2 ^ 63).
Definition in_u64 (z : Z) : bool := (0 <=? z) && (z <? 2 ^ 64).
Definition in_i128 (z : Z) : bool := (- 2 ^ 127 <=? z) && (z <? 2 ^ 127).
Definition in_u16 (z : Z) : bool := (0 <=? z) && (z <? 2 ^ 16).
Definition in_u8 (z : Z) : bool := (0 <=? z) && (z <? 2 ^ 8).

(** [x as uW] and [x as iW]. *)
Definition as_unsigned (w : Z) (z : Z) : Z := z mod 2 ^ w.
Definition as_signed (w : Z) (z : Z) : Z :=
  let m := z mod 2 ^ w in if m <? 2 ^ (w - 1) then m else m - 2 ^ w.

(** Arithmetic under overflow checks: a value out of range panics. *)
Definition arith {E} (fits : Z -> bool) (z : Z) : outcome E Z :=
  if fits z then Ok z else Panic.

(** [checked_add] and its family: [None] out of range. *)
Definition checked (fits : Z -> bool) (z : Z) : option Z :=
  if fits z then Some z else None.

Lemma arith_Ok E fits z z' : @arith E fits z = Ok z' <-> fits z = true /\ z' = z.
Proof.
  unfold arith; destruct (fits z); split; intros H.
  - injection H; auto.
  - destruct H as [_ ->]; reflexivity.
  - discriminate.
  - destruct H; discriminate.
Qed.

Lemma arith_bind {E B} fits z (k : Z -> outcome E B) :
  fits z = true -> arith fits z ≫= k = k z.
Proof. unfold arith; intros ->; reflexivity. Qed.

(** Discharge an in-range side condition. *)
Ltac fits :=
  unfold in_i32, in_u32, in_i64, in_u64, in_i128, in_u16, in_u8;
  apply andb_true_iff; rewrite Z.leb_le, Z.ltb_lt;
  Z.to_euclidean_division_equations; lia.

(** Run checked operations that stay in range. *)
Ltac run_arith := repeat (rewrite arith_bind by fits; cbv beta).

Lemma as_unsigned_small w z : 0 <= z < 2 ^ w -> as_unsigned w z = z.
Proof. apply Z.mod_small. Qed.

Lemma as_unsigned_add w x y : as_unsigned w (as_unsigned w x + y) = as_unsigned w (x + y).
Proof. unfold as_unsigned. apply Zplus_mod_idemp_l. Qed.

Lemma as_signed_small w z : 0 < w -> 0 <= z < 2 ^ (w - 1) -> as_signed w z = z.
Proof.
  intros Hw Hz. unfold as_signed.
  assert (2 ^ (w - 1) <= 2 ^ w) by (apply Z.pow_le_mono_r; lia).
  rewrite Z.mod_small by lia. destruct (Z.ltb_spec z (2 ^ (w - 1))); lia.
Qed.

Lemma as_signed_unsigned w z :
  0 < w -> - 2 ^ (w - 1) <= z < 2 ^ (w - 1) -> as_signed w (as_unsigned w z) = z.
Proof.
  intros Hw Hz. unfold as_signed, as_unsigned.
  assert (Hp : 2 ^ w = 2 * 2 ^ (w - 1)).
  { replace w with (1 + (w - 1)) at 1 by lia. rewrite Z.pow_add_r; lia. }
  rewrite Z.mod_mod by lia.
  destruct (Z.ltb_spec z 0).
  - assert (Hm : z mod 2 ^ w = z + 2 ^ w).
    { symmetry; apply Z.mod_unique with (-1); lia. }
    rewrite Hm. destruct (Z.ltb_spec (z + 2 ^ w) (2 ^ (w - 1))); lia.
  - rewrite Z.mod_small by lia.
    destruct (Z.ltb_spec z (2 ^ (w - 1))); lia.
Qed.

(** ** Bytes

    Byte strings are lists of the Standard Library's [byte]; fixed-width
    integers go through coqutil's little-endian lists. *)

Abbreviation bytes := (list byte) (only parsing).

#[global] Instance byte_eq_dec : EqDecision byte := Byte.byte_eq_dec.
#[global] Program Instance byte_countable : Countable byte :=
  inj_countable Byte.to_N Byte.of_N _.
Next Obligation. intros b. apply Byte.of_to_N. Qed.

(** A byte as an [u8]. *)
Abbreviation u8 := byte.unsigned.

(** The length of a slice, an [usize]. *)
Definition len {A} (l : list A) : Z := Z.of_nat (length l).

Definition to_le_bytes (n : nat) (z : Z) : bytes := le_split n z.
Definition from_le_bytes (b : bytes) : Z := le_combine b.
Definition to_be_bytes (n : nat) (z : Z) : bytes := reverse (le_split n z).
Definition from_be_bytes (b : bytes) : Z := le_combine (reverse b).

(** [&b[lo..hi]], [&b[lo..]] and [b[i]]: out of range they panic. *)
Definition slice {E} (lo hi : Z) (b : bytes) : outcome E (list byte) :=
  if (0 <=? lo) && (lo <=? hi) && (hi <=? len b)
  then Ok (take (Z.to_nat (hi - lo)) (drop (Z.to_nat lo) b)) else Panic.
Definition slice_from {E} (lo : Z) (b : bytes) : outcome E (list byte) := slice lo (len b) b.
Definition index {E} (i : Z) (b : bytes) : outcome E byte :=
  if 0 <=? i then
    match b !! Z.to_nat i with Some x => Ok x | None => Panic end
  else Panic.

(** [Vec::resize] that only grows. *)
Definition pad_to (n : Z) (x : byte) (b : bytes) : bytes :=
  b ++ replicate (Z.to_nat (n - len b)) x.

(** *** Lengths *)

Lemma len_app {A} (a b : list A) : len (a ++ b) = len a + len b.
Proof. unfold len; rewrite length_app; lia. Qed.
Lemma len_cons {A} (x : A) (b : list A) : len (x :: b) = 1 + len b.
Proof. unfold len; simpl length; lia. Qed.
Lemma len_nil {A} : len (@nil A) = 0.
Proof. reflexivity. Qed.
Lemma len_nonneg {A} (a : list A) : 0 <= len a.
Proof. unfold len; lia. Qed.
Lemma len_to_le_bytes n z : len (to_le_bytes n z) = Z.of_nat n.
Proof. unfold len, to_le_bytes; rewrite length_le_split; reflexivity. Qed.
Lemma len_to_be_bytes n z : len (to_be_bytes n z) = Z.of_nat n.
Proof. unfold len, to_be_bytes; rewrite length_reverse, length_le_split; reflexivity. Qed.
Lemma len_replicate {A} n (x : A) : len (replicate n x) = Z.of_nat n.
Proof. unfold len; rewrite length_replicate; reflexivity. Qed.
Lemma len_pad_to n x b : len b <= n -> len (pad_to n x b) = n.
Proof.
  intros; unfold pad_to; rewrite len_app, len_replicate.
  pose proof (len_nonneg b); lia.
Qed.
Lemma len_take {A} (n : nat) (b : list A) : len (take n b) = Z.min (Z.of_nat n) (len b).
Proof. unfold len; rewrite length_take; lia. Qed.
Lemma len_drop {A} (n : nat) (b : list A) : len (drop n b) = Z.max 0 (len b - Z.of_nat n).
Proof. unfold len; rewrite length_drop; lia. Qed.
Lemma len_zero {A} (b : list A) : len b = 0 -> b = [].
Proof. destruct b; [reflexivity | rewrite len_cons; pose proof (len_nonneg b); lia]. Qed.

Create Rewrite HintDb len.
#[export] Hint Rewrite @len_app @len_cons @len_nil len_to_le_bytes len_to_be_bytes
  @len_replicate @len_take @len_drop : len.

(** Normalise every [len] and close by arithmetic. *)
Ltac solve_len :=
  autorewrite with len in *;
  repeat match goal with
  | |- context [len ?b] =>
      lazymatch goal with _ : 0 <= len b |- _ => fail
      | _ => pose proof (len_nonneg b) end
  | _ : context [len ?b] |- _ =>
      lazymatch goal with _ : 0 <= len b |- _ => fail
      | _ => pose proof (len_nonneg b) end
  end;
  lia.

(** *** Round trips of fixed-width integers *)

Lemma from_to_le_bytes n z :
  0 <= z < 2 ^ (8 * Z.of_nat n) -> from_le_bytes (to_le_bytes n z) = z.
Proof.
  intros Hz. unfold from_le_bytes, to_le_bytes. rewrite le_combine_split.
  replace (Z.of_nat n * 8) with (8 * Z.of_nat n) by lia. apply Z.mod_small; lia.
Qed.

Lemma from_to_le_bytes_mod n z :
  from_le_bytes (to_le_bytes n z) = z mod 2 ^ (8 * Z.of_nat n).
Proof.
  unfold from_le_bytes, to_le_bytes. rewrite le_combine_split.
  replace (Z.of_nat n * 8) with (8 * Z.of_nat n) by lia. reflexivity.
Qed.

Lemma from_to_be_bytes n z :
  0 <= z < 2 ^ (8 * Z.of_nat n) -> from_be_bytes (to_be_bytes n z) = z.
Proof.
  intros Hz. unfold from_be_bytes, to_be_bytes.
  rewrite reverse_involutive. apply from_to_le_bytes; assumption.
Qed.

Lemma from_le_bytes_bound b : 0 <= from_le_bytes b < 2 ^ (8 * len b).
Proof. apply le_combine_bound. Qed.

Lemma from_be_bytes_bound b : 0 <= from_be_bytes b < 2 ^ (8 * len b).
Proof.
  unfold from_be_bytes, len. rewrite <- (length_reverse b). apply le_combine_bound.
Qed.

Lemma to_from_be_bytes n b : length b = n -> to_be_bytes n (from_be_bytes b) = b.
Proof.
  intros <-. unfold to_be_bytes, from_be_bytes.
  rewrite <- (length_reverse b), split_le_combine, reverse_involutive. reflexivity.
Qed.

(** *** Fixed-width fields in a row *)

Definition fields (fs : list (nat * Z)) : bytes := concat (map (fun f => to_le_bytes f.1 f.2) fs).
Definition width (fs : list (nat * Z)) : Z := Z.of_nat (sum_list (map fst fs)).

Lemma len_fields fs : len (fields fs) = width fs.
Proof.
  induction fs as [|f fs IH]; [done|]. unfold fields, width in *. cbn [map concat sum_list sum_list_with].
  rewrite len_app, len_to_le_bytes, IH. cbn. lia.
Qed.

(** *** Slices of concatenations *)

Section slices.
Context {E : Type}.
Implicit Types a b c : list byte.

Lemma slice_mid a b c lo hi :
  lo = len a -> hi = len a + len b -> @slice E lo hi (a ++ b ++ c) = Ok b.
Proof.
  intros -> ->. unfold slice.
  replace ((0 <=? len a) && (len a <=? len a + len b)
           && (len a + len b <=? len (a ++ b ++ c))) with true.
  2: { symmetry. rewrite !andb_true_iff, !Z.leb_le. solve_len. }
  f_equal. replace (len a + len b - len a) with (len b) by lia.
  unfold len; rewrite !Nat2Z.id, drop_app_length, take_app_length. reflexivity.
Qed.

Lemma slice_mid_end a b lo hi :
  lo = len a -> hi = len a + len b -> @slice E lo hi (a ++ b) = Ok b.
Proof.
  intros. rewrite <- (app_nil_r b) at 1. apply slice_mid; assumption.
Qed.

Lemma slice_prefix b c hi : hi = len b -> @slice E 0 hi (b ++ c) = Ok b.
Proof. intros ->. apply (slice_mid [] b c); reflexivity. Qed.

Lemma slice_from_app a b lo : lo = len a -> @slice_from E lo (a ++ b) = Ok b.
Proof. intros ->. unfold slice_from. apply slice_mid_end; solve_len. Qed.

Lemma slice_len lo hi b c : @slice E lo hi b = Ok c -> len c = hi - lo.
Proof.
  unfold slice. destruct (_ && _) eqn:Hg; [|discriminate].
  intros H; injection H as <-. zbool. solve_len.
Qed.

Lemma slice_ok lo hi b :
  0 <= lo <= hi -> hi <= len b ->
  @slice E lo hi b = Ok (take (Z.to_nat (hi - lo)) (drop (Z.to_nat lo) b)).
Proof.
  intros. unfold slice.
  replace (_ && _) with true; [reflexivity|].
  symmetry. rewrite !andb_true_iff, !Z.leb_le. lia.
Qed.

Lemma slice_no_panic lo hi b :
  0 <= lo <= hi -> hi <= len b -> no_panic (@slice E lo hi b).
Proof. intros. rewrite slice_ok by lia. apply Ok_no_panic. Qed.

Lemma slice_from_no_panic lo b : 0 <= lo <= len b -> no_panic (@slice_from E lo b).
Proof. intros; apply slice_no_panic; lia. Qed.

Lemma index_no_panic i b : 0 <= i < len b -> no_panic (@index E i b).
Proof.
  intros [H0 Hi]. unfold index.
  replace (0 <=? i) with true by (symmetry; apply Z.leb_le; lia).
  destruct (lookup_lt_is_Some_2 b (Z.to_nat i)) as [x ->]; [unfold len in Hi; lia|].
  apply Ok_no_panic.
Qed.

Lemma index_app a x b i : i = len a -> @index E i (a ++ x :: b) = Ok x.
Proof.
  intros ->. unfold index.
  replace (0 <=? len a) with true by (symmetry; apply Z.leb_le; apply len_nonneg).
  unfold len; rewrite Nat2Z.id, list_lookup_middle; reflexivity.
Qed.
End slices.

#[export] Hint Resolve slice_no_panic slice_from_no_panic index_no_panic : idb.

(** ** Lexicographic order

    [bcmp] is [Ord for [u8]]: the order of keys in every storage engine. *)

Definition then_cmp (c d : comparison) : comparison :=
  match c with Eq => d | _ => c end.

Fixpoint bcmp (a b : bytes) : comparison :=
  match a, b with
  | [], [] => Eq
  | [], _ :: _ => Lt
  | _ :: _, [] => Gt
  | x :: a', y :: b' => then_cmp (u8 x ?= u8 y) (bcmp a' b')
  end.

Definition blt (a b : bytes) : Prop := bcmp a b = Lt.
Definition ble (a b : bytes) : Prop := bcmp a b <> Gt.

Lemma then_cmp_assoc c d e : then_cmp (then_cmp c d) e = then_cmp c (then_cmp d e).
Proof. destruct c; reflexivity. Qed.
Lemma then_cmp_opp c d : CompOpp (then_cmp c d) = then_cmp (CompOpp c) (CompOpp d).
Proof. destruct c; reflexivity. Qed.
Lemma then_cmp_Eq_r c : then_cmp c Eq = c.
Proof. destruct c; reflexivity. Qed.

Lemma bcmp_refl a : bcmp a a = Eq.
Proof. induction a as [|x a IH]; simpl; [done|]. by rewrite Z.compare_refl. Qed.

Lemma bcmp_eq a b : bcmp a b = Eq <-> a = b.
Proof.
  split; [|intros ->; apply bcmp_refl].
  revert b; induction a as [|x a IH]; intros [|y b]; simpl; try done.
  destruct (Z.compare_spec (u8 x) (u8 y)) as [Hxy| |]; simpl; try done.
  intros Hab. f_equal; [by apply byte.unsigned_inj | by apply IH].
Qed.

Lemma bcmp_antisym a b : bcmp b a = CompOpp (bcmp a b).
Proof.
  revert b; induction a as [|x a IH]; intros [|y b]; simpl; try done.
  by rewrite then_cmp_opp, <- IH, Z.compare_antisym.
Qed.

Lemma bcmp_app_l p a b : bcmp (p ++ a) (p ++ b) = bcmp a b.
Proof. induction p as [|x p IH]; simpl; [done|]. by rewrite Z.compare_refl. Qed.

Lemma bcmp_app a b x y :
  length a = length b -> bcmp (a ++ x) (b ++ y) = then_cmp (bcmp a b) (bcmp x y).
Proof.
  revert b; induction a as [|c a IH]; intros [|d b]; simpl; try done; intros [= Hl].
  by rewrite IH, then_cmp_assoc.
Qed.

Lemma blt_trans a b c : blt a b -> blt b c -> blt a c.
Proof.
  unfold blt. revert b c; induction a as [|x a IH]; intros [|y b] [|z c]; simpl; try done.
  destruct (Z.compare_spec (u8 x) (u8 y)) as [Hxy|Hxy|Hxy]; simpl; try done;
    destruct (Z.compare_spec (u8 y) (u8 z)) as [Hyz|Hyz|Hyz]; simpl; try done;
    intros H1 H2.
  - rewrite Hxy, Hyz, Z.compare_refl; simpl; eauto.
  - by rewrite Hxy, (proj2 (Z.compare_lt_iff _ _) Hyz).
  - by rewrite <- Hyz, (proj2 (Z.compare_lt_iff _ _) Hxy).
  - assert (Hxz : u8 x < u8 z) by lia. by rewrite (proj2 (Z.compare_lt_iff _ _) Hxz).
Qed.

Lemma blt_irrefl a : ~ blt a a.
Proof. unfold blt; by rewrite bcmp_refl. Qed.

Lemma bcmp_Gt a b : bcmp a b = Gt <-> blt b a.
Proof. unfold blt; rewrite (bcmp_antisym a b). destruct (bcmp a b); naive_solver. Qed.

Lemma ble_lt_or_eq a b : ble a b <-> blt a b \/ a = b.
Proof. unfold ble, blt. rewrite <- bcmp_eq. destruct (bcmp a b); naive_solver. Qed.

Lemma ble_not_lt a b : ble a b <-> ~ blt b a.
Proof. unfold ble. by rewrite bcmp_Gt. Qed.

#[global] Instance ble_dec : RelDecision ble.
Proof. intros a b. unfold ble. destruct (bcmp a b); [left|left|right]; naive_solver. Defined.
#[global] Instance blt_dec : RelDecision blt.
Proof. intros a b. unfold blt. destruct (bcmp a b); [right|left|right]; naive_solver. Defined.

#[global] Instance blt_Transitive : Transitive blt.
Proof. intros a b c; apply blt_trans. Qed.
#[global] Instance ble_Transitive : Transitive ble.
Proof.
  intros a b c. rewrite !ble_lt_or_eq.
  intros [H1| ->] [H2| ->]; eauto using blt_trans.
Qed.
#[global] Instance ble_Reflexive : Reflexive ble.
Proof. intros a. apply ble_lt_or_eq. by right. Qed.
#[global] Instance ble_Total : Total ble.
Proof.
  intros a b. unfold ble. rewrite (bcmp_antisym a b). destruct (bcmp a b); naive_solver.
Qed.
#[global] Instance ble_AntiSymm : AntiSymm (=) ble.
Proof.
  intros a b [H| ->]%ble_lt_or_eq Hba; [|done].
  apply ble_not_lt in Hba. contradiction.
Qed.

Lemma ble_blt_trans a b c : ble a b -> blt b c -> blt a c.
Proof. intros [H| ->]%ble_lt_or_eq; eauto using blt_trans. Qed.
Lemma blt_ble_trans a b c : blt a b -> ble b c -> blt a c.
Proof. intros H1 [H| ->]%ble_lt_or_eq; eauto using blt_trans. Qed.
Lemma blt_ble a b : blt a b -> ble a b.
Proof. intros; apply ble_lt_or_eq; by left. Qed.
Lemma blt_not_ble a b : blt a b <-> ~ ble b a.
Proof. rewrite ble_not_lt. destruct (decide (blt a b)); naive_solver. Qed.

#[export] Hint Resolve blt_ble ble_blt_trans blt_ble_trans : idb.

(** Big-endian integers of one width compare as numbers. *)
Lemma to_be_bytes_S n z :
  to_be_bytes (S n) z = to_be_bytes n (z / 256) ++ [byte.of_Z z].
Proof.
  unfold to_be_bytes.
  change (le_split (S n) z) with (byte.of_Z z :: le_split n (Z.shiftr z 8)).
  rewrite reverse_cons, Z.shiftr_div_pow2 by lia.
  reflexivity.
Qed.

Lemma bcmp_be n x y :
  0 <= x < 2 ^ (8 * Z.of_nat n) -> 0 <= y < 2 ^ (8 * Z.of_nat n) ->
  bcmp (to_be_bytes n x) (to_be_bytes n y) = (x ?= y).
Proof.
  revert x y; induction n as [|n IH]; intros x y Hx Hy.
  { change (2 ^ (8 * Z.of_nat 0)) with 1 in *.
    replace x with 0 by lia. by replace y with 0 by lia. }
  replace (8 * Z.of_nat (S n)) with (8 + 8 * Z.of_nat n) in * by lia.
  rewrite Z.pow_add_r in * by lia. change (2 ^ 8) with 256 in *.
  rewrite !to_be_bytes_S, bcmp_app.
  2: { unfold to_be_bytes. by rewrite !length_reverse, !length_le_split. }
  rewrite IH by (split; [apply Z.div_pos | apply Z.div_lt_upper_bound]; lia).
  simpl. rewrite !byte.unsigned_of_Z. unfold byte.wrap. change (2 ^ 8) with 256.
  rewrite then_cmp_Eq_r.
  pose proof (Z.div_mod x 256 ltac:(lia)). pose proof (Z.div_mod y 256 ltac:(lia)).
  pose proof (Z.mod_pos_bound x 256 ltac:(lia)). pose proof (Z.mod_pos_bound y 256 ltac:(lia)).
  destruct (Z.compare_spec (x / 256) (y / 256)); simpl;
    destruct (Z.compare_spec x y); try lia;
    destruct (Z.compare_spec (x mod 256) (y mod 256)); lia || done.
Qed.

Lemma to_be_bytes_inj n x y :
  0 <= x < 2 ^ (8 * Z.of_nat n) -> 0 <= y < 2 ^ (8 * Z.of_nat n) ->
  to_be_bytes n x = to_be_bytes n y -> x = y.
Proof.
  intros Hx Hy H. apply (f_equal from_be_bytes) in H. by rewrite !from_to_be_bytes in H.
Qed.

(** ** UTF-8

    [String::from_utf8] of the standard library: a Rust [String] is a byte
    string this accepts (Unicode Table 3-7, no surrogates, no overlongs). *)

Definition in_range (lo hi : Z) (b : byte) : bool := (lo <=? u8 b) && (u8 b <=? hi).

Fixpoint utf8_valid (s : bytes) : bool :=
  match s with
  | [] => true
  | a :: s1 =>
      if u8 a <? 128 then utf8_valid s1 else
      match s1 with
      | [] => false
      | b :: s2 =>
          if in_range 194 223 a then in_range 128 191 b && utf8_valid s2 else
          match s2 with
          | [] => false
          | c :: s3 =>
              if in_range 224 239 a then
                (if u8 a =? 224 then in_range 160 191 b
                 else if u8 a =? 237 then in_range 128 159 b
                 else in_range 128 191 b)
                && in_range 128 191 c && utf8_valid s3
              else
              match s3 with
              | [] => false
              | d :: s4 =>
                  in_range 240 244 a
                  && (if u8 a =? 240 then in_range 144 191 b
                      else if u8 a =? 244 then in_range 128 143 b
                      else in_range 128 191 b)
                  && in_range 128 191 c && in_range 128 191 d && utf8_valid s4
              end
          end
      end
  end.

Lemma forallb_take {A} (f : A -> bool) n l : forallb f l = true -> forallb f (take n l) = true.
Proof. rewrite <- (take_drop n l) at 1. rewrite forallb_app. by intros [? _]%andb_true_iff. Qed.
