(* ===== verification/Common.v ===== *)
(** Column types, constraint rules and the error enum every crate shares
    (crates/idb-core/src/common/error.rs, crates/idb-core/src/types/value.rs).
    Messages keep the static part of the source's [format!] string. *)

From S2P Require Import Prelude.
From stdpp Require Import base strings.

(** [ColumnType]; lengths are [u16], precision and scale [u8]. *)
Inductive ColumnType : Type :=
| TInt32
| TInt64
| TVarchar (n : Z)
| TChar (n : Z)
| TBytes (n : Z)
| TDecimal (precision scale : Z)
| TTimestamp
| TBoolean
| TDate.

#[global] Instance ColumnType_eq_dec : EqDecision ColumnType.
Proof. solve_decision. Defined.

Inductive ConstraintRule : Type :=
| NotNull
| TypeMismatch (expected : ColumnType) (actual : option ColumnType)
| VarcharTooLong (max : Z)
| CharTooLong (max : Z)
| BytesTooLong (max : Z)
| DecimalScaleMismatch (expected actual : Z)
| DecimalPrecisionExceeded (max : Z)
| PkNotNull
| Arity (expected actual : Z).

Inductive Error : Type :=
| Io
| PageNotFound (id : Z)
| NoFreeFrames
| InvalidPageId (id : Z)
| BufferPoolFull
| PageNotPinned (id : Z)
| KeyNotFound (key : bytes)
| StorageCorrupted (msg : string)
| KeyTooLarge (n : Z)
| ValueTooLarge (n : Z)
| TxnNotActive (id : Z)
| TxnLimit (n : Z)
| LockTimeout
| Deadlock (id : Z)
| TxnReadOnly (id : Z)
| TxnNotSupported
| WriteConflict (writer : Z)
| DecimalArithmetic (msg : string)
| NumericOverflow (msg : string)
| Internal (msg : string)
| RowNotFound (table : string)
| CatalogDrift (msg : string)
| ConstraintViolation (column : string) (rule : ConstraintRule)
| DuplicateKey (table : string)
| UniqueViolation (index : string)
| TableAlreadyExists (name : string)
| TableNotFound (name : string)
| IndexAlreadyExists (name : string)
| IndexNotFound (name : string)
| IndexLookupArity (index : string) (expected actual : Z)
| SqlParse (msg : string).

Abbreviation result := (outcome Error).

(** [opt.ok_or(e)?] *)
Definition ok_or {A} (o : option A) (e : Error) : result A :=
  match o with Some a => Ok a | None => Err e end.

(** [opt.unwrap()] *)
Definition unwrap {A} (o : option A) : result A :=
  match o with Some a => Ok a | None => Panic end.

(** ** Stateful code

    A call runs on the state and leaves one behind whatever it returns: what
    was changed before an error stays changed. *)

Definition M (S A : Type) : Type := S -> result A * S.

#[global] Instance M_ret S : MRet (M S) := fun A a s => (Ok a, s).
#[global] Instance M_bind S : MBind (M S) := fun A B k m s =>
  match m s with
  | (Ok a, s') => k a s'
  | (Err e, s') => (Err e, s')
  | (Panic, s') => (Panic, s')
  end.

Definition pure {S A} (r : result A) : M S A := fun s => (r, s).
Definition gets {S A} (f : S -> A) : M S A := fun s => (Ok (f s), s).
Definition modify {S} (f : S -> S) : M S unit := fun s => (Ok tt, f s).

(** Run a call on a part of the state. *)
Definition zoom {S T A} (get : S -> T) (set : T -> S -> S) (m : M T A) : M S A :=
  fun s => let '(r, t) := m (get s) in (r, set t s).
