(* ===== verification/Civil.v ===== *)
(** The proleptic Gregorian calendar (crates/idb-core/src/types/civil.rs) and
    the date arithmetic of the binder (crates/idb-sql/src/sql/binder.rs).

    [i32] and [u32] arithmetic is overflow-checked: every operation that could
    leave its width goes through [arith] and panics if it does, so a theorem
    whose conclusion is an [Ok] also says that nothing overflowed on the way. *)

From Stdlib Require Import ZArith Lia List Bool.
From stdpp Require Import base list strings.
From S2P Require Import Prelude Common.

Abbreviation i32 := (@arith Error in_i32).
Abbreviation u32 := (@arith Error in_u32).
Abbreviation i64 := (@arith Error in_i64).

Definition days_from_ymd (year month day : Z) : result Z :=
  year ← (if month <=? 2 then i32 (year - 1) else Ok year);
  shifted ← (if 0 <=? year then Ok year else i32 (year - 399));
  let era := Z.quot shifted 400 in
  era400 ← i32 (era * 400);
  diff ← i32 (year - era400);
  let year_of_era := as_unsigned 32 diff in
  m ← (if 2 <? month then u32 (month - 3) else u32 (month + 9));
  m153 ← u32 (153 * m);
  m2 ← u32 (m153 + 2);
  d ← u32 (m2 / 5 + day);
  day_of_year ← u32 (d - 1);
  y365 ← u32 (year_of_era * 365);
  y4 ← u32 (y365 + year_of_era / 4);
  y100 ← u32 (y4 - year_of_era / 100);
  day_of_era ← u32 (y100 + day_of_year);
  e ← i32 (era * 146097);
  s ← i32 (e + as_signed 32 day_of_era);
  i32 (s - 719468).

Definition ymd_from_days (days : Z) : result (Z * Z * Z) :=
  days ← i32 (days + 719468);
  shifted ← (if 0 <=? days then Ok days else i32 (days - 146096));
  let era := Z.quot shifted 146097 in
  e ← i32 (era * 146097);
  diff ← i32 (days - e);
  let day_of_era := as_unsigned 32 diff in
  a ← u32 (day_of_era - day_of_era / 1460);
  b ← u32 (a + day_of_era / 36524);
  c ← u32 (b - day_of_era / 146096);
  let year_of_era := c / 365 in
  e400 ← i32 (era * 400);
  year ← i32 (as_signed 32 year_of_era + e400);
  y365 ← u32 (365 * year_of_era);
  y4 ← u32 (y365 + year_of_era / 4);
  y100 ← u32 (y4 - year_of_era / 100);
  day_of_year ← u32 (day_of_era - y100);
  d5 ← u32 (5 * day_of_year);
  d2 ← u32 (d5 + 2);
  let month_prime := d2 / 153 in
  m153 ← u32 (153 * month_prime);
  m2 ← u32 (m153 + 2);
  dd ← u32 (day_of_year - m2 / 5);
  day ← u32 (dd + 1);
  month ← (if month_prime <? 10 then u32 (month_prime + 3) else u32 (month_prime - 9));
  year ← (if month <=? 2 then i32 (year + 1) else Ok year);
  Ok (year, month, day).

Example epoch_is_day_zero : days_from_ymd 1970 1 1 = Ok 0.
Proof. reflexivity. Qed.
Example day_before_epoch : ymd_from_days (-1) = Ok (1969, 12, 31).
Proof. reflexivity. Qed.
Example leap_1900_normalises : ymd_from_days (-25509) = Ok (1900, 2, 28) /\
  days_from_ymd 1900 2 29 = days_from_ymd 1900 3 1.
Proof. split; reflexivity. Qed.

(** ** The calendar the code implements

    [is_leap] and [days_in_month] are the Gregorian rules; [day_number] counts
    days through the March-based year, [year_start] being the days before it. *)

Definition is_leap (y : Z) : bool :=
  (y mod 4 =? 0) && (negb (y mod 100 =? 0) || (y mod 400 =? 0)).

Definition days_in_month (y m : Z) : Z :=
  if m =? 2 then (if is_leap y then 29 else 28)
  else if (m =? 4) || (m =? 6) || (m =? 9) || (m =? 11) then 30 else 31.

Definition valid_date (y m d : Z) : Prop :=
  1 <= m <= 12 /\ 1 <= d <= days_in_month y m.

Definition year_start (y : Z) : Z := 365 * y + y / 4 - y / 100 + y / 400.
Definition march_month (m : Z) : Z := if 2 <? m then m - 3 else m + 9.
Definition march_year (y m : Z) : Z := if m <=? 2 then y - 1 else y.
Definition day_of_year (m d : Z) : Z := (153 * march_month m + 2) / 5 + d - 1.
Definition day_number (y m d : Z) : Z :=
  year_start (march_year y m) + day_of_year m d - 719468.

(** The year of an era, as the code divides it out. *)
Definition era_year (doe : Z) : Z :=
  (doe - doe / 1460 + doe / 36524 - doe / 146096) / 365.
Definition civil_of_day (days : Z) : Z * Z * Z :=
  let z := days + 719468 in
  let era := z / 146097 in
  let doe := z mod 146097 in
  let yoe := era_year doe in
  let doy := doe - year_start yoe in
  let mp := (5 * doy + 2) / 153 in
  let m := if mp <? 10 then mp + 3 else mp - 9 in
  let y := yoe + era * 400 in
  (if m <=? 2 then y + 1 else y, m, doy - (153 * mp + 2) / 5 + 1).

(** *** Finite facts about one era *)

Fixpoint all_from (n : nat) (z : Z) (f : Z -> bool) : bool :=
  match n with O => true | S n => f z && all_from n (z + 1) f end.

Lemma all_from_spec n z f k :
  all_from n z f = true -> z <= k < z + Z.of_nat n -> f k = true.
Proof.
  revert z; induction n as [|n IH]; intros z; simpl all_from; [lia|].
  intros [Hz Hall]%andb_true_iff Hk.
  destruct (Z.eq_dec k z) as [->|]; [done|]. apply (IH (z + 1)); [done|lia].
Qed.

Lemma era_year_mono a b : 0 <= a <= b -> era_year a <= era_year b.
Proof.
  intros [Ha Hab]. unfold era_year. apply Z.div_le_mono; [lia|].
  generalize Hab. pattern b. apply (Zlt_lower_bound_ind _ a); [|lia].
  clear b Hab. intros x IH Hx _. destruct (Z.eq_dec x a) as [Hxa|]; [rewrite Hxa; reflexivity|].
  specialize (IH (x - 1) ltac:(lia) ltac:(lia)).
  enough (x - 1 - (x - 1) / 1460 + (x - 1) / 36524 - (x - 1) / 146096
          <= x - x / 1460 + x / 36524 - x / 146096) by lia.
  Z.to_euclidean_division_equations; lia.
Qed.

Lemma era_year_bounds yoe :
  0 <= yoe < 400 ->
  era_year (year_start yoe) = yoe /\ era_year (year_start (yoe + 1) - 1) = yoe.
Proof.
  intros Hy.
  assert (H : all_from 400 0 (fun y => (era_year (year_start y) =? y)
            && (era_year (year_start (y + 1) - 1 ) =? y)) = true).
  { vm_compute. reflexivity. }
  apply (all_from_spec _ _ _ yoe) in H; [|lia]. cbv beta in H. zbool. done.
Qed.

Lemma year_start_era y : year_start y = y / 400 * 146097 + year_start (y mod 400).
Proof. unfold year_start. Z.to_euclidean_division_equations; lia. Qed.

Lemma year_length y :
  year_start (y + 1) - year_start y = if is_leap (y + 1) then 366 else 365.
Proof.
  unfold year_start, is_leap.
  destruct (Z.eqb_spec ((y + 1) mod 4) 0), (Z.eqb_spec ((y + 1) mod 100) 0),
    (Z.eqb_spec ((y + 1) mod 400) 0); simpl;
    Z.to_euclidean_division_equations; lia.
Qed.

Lemma year_start_mono a b : a <= b -> year_start a <= year_start b.
Proof. intros H. unfold year_start. Z.to_euclidean_division_equations; lia. Qed.

(** Day [doe] of an era lies in the year the code computes for it. *)
Lemma era_year_spec doe :
  0 <= doe < 146097 ->
  0 <= era_year doe < 400 /\
  year_start (era_year doe) <= doe < year_start (era_year doe + 1).
Proof.
  intros Hd.
  assert (Hr : 0 <= era_year doe < 400).
  { change 0 with (era_year 0) at 1. change 400 with (era_year 146096 + 1).
    pose proof (era_year_mono 0 doe ltac:(lia)).
    pose proof (era_year_mono doe 146096 ltac:(lia)). lia. }
  split; [done|]. pose proof (era_year_bounds _ Hr) as [Hs He].
  split; apply Z.nlt_ge || apply Z.nle_gt; intros Hlt.
  - (* before the year starts *)
    destruct (Z.eq_dec (era_year doe) 0) as [E0|].
    { rewrite E0 in Hlt. change (year_start 0) with 0 in Hlt. lia. }
    pose proof (era_year_bounds (era_year doe - 1) ltac:(lia)) as [_ Hp].
    replace (era_year doe - 1 + 1) with (era_year doe) in Hp by lia.
    pose proof (era_year_mono doe (year_start (era_year doe) - 1) ltac:(lia)). lia.
  - destruct (Z.eq_dec (era_year doe) 399) as [E9|].
    { rewrite E9 in Hlt. change (year_start (399 + 1)) with 146097 in Hlt. lia. }
    pose proof (era_year_bounds (era_year doe + 1) ltac:(lia)) as [Hn _].
    assert (0 <= year_start (era_year doe + 1)) by (pose proof (year_start_mono 0 (era_year doe + 1)); change (year_start 0) with 0 in *; lia).
    pose proof (era_year_mono (year_start (era_year doe + 1)) doe ltac:(lia)). lia.
Qed.

(** A day number determines its March year. *)
Lemma march_year_unique y doy :
  0 <= doy < year_start (y + 1) - year_start y ->
  let z := year_start y + doy in
  era_year (z mod 146097) + z / 146097 * 400 = y /\
  z mod 146097 - year_start (era_year (z mod 146097)) = doy.
Proof.
  intros Hdoy z.
  pose proof (era_year_spec (z mod 146097) ltac:(apply Z.mod_pos_bound; lia)) as [Hy [Hl Hu]].
  set (w := era_year (z mod 146097)) in *.
  assert (Hw : year_start (w + z / 146097 * 400) <= z < year_start (w + z / 146097 * 400 + 1)).
  { assert (He : forall k, 0 <= k <= 400 ->
      year_start (k + z / 146097 * 400) = z / 146097 * 146097 + year_start k).
    { intros k Hk. unfold year_start. Z.to_euclidean_division_equations; lia. }
    replace (w + z / 146097 * 400 + 1) with ((w + 1) + z / 146097 * 400) by lia.
    rewrite !He by lia. pose proof (Z.div_mod z 146097 ltac:(lia)). lia. }
  assert (Hwy : w + z / 146097 * 400 = y).
  { destruct (Z.lt_trichotomy (w + z / 146097 * 400) y) as [Hlt|[Heq|Hgt]]; [|done|].
    - pose proof (year_start_mono (w + z / 146097 * 400 + 1) y ltac:(lia)). lia.
    - pose proof (year_start_mono (y + 1) (w + z / 146097 * 400) ltac:(lia)). lia. }
  split; [done|].
  assert (year_start y = z / 146097 * 146097 + year_start w).
  { rewrite <- Hwy. unfold year_start. Z.to_euclidean_division_equations; lia. }
  pose proof (Z.div_mod z 146097 ltac:(lia)). unfold z in *. lia.
Qed.

(** *** Months within the March-based year *)

Ltac each_month m :=
  let H := fresh in
  assert (H : m = 1 \/ m = 2 \/ m = 3 \/ m = 4 \/ m = 5 \/ m = 6 \/ m = 7 \/ m = 8 \/
              m = 9 \/ m = 10 \/ m = 11 \/ m = 12) by lia;
  destruct H as [->|[->|[->|[->|[->|[->|[->|[->|[->|[->|[->| ->]]]]]]]]]]].

Lemma valid_date_doy y m d :
  valid_date y m d ->
  0 <= day_of_year m d < year_start (march_year y m + 1) - year_start (march_year y m) /\
  (5 * day_of_year m d + 2) / 153 = march_month m.
Proof.
  intros [Hm Hd]. rewrite year_length. unfold day_of_year, march_year, march_month, days_in_month in *.
  each_month m; cbn [Z.ltb Z.leb Z.eqb Z.compare Pos.compare Pos.compare_cont Pos.eqb orb] in *;
    try replace (y - 1 + 1) with y in * by lia;
    repeat match goal with |- context [if is_leap ?a then _ else _] => destruct (is_leap a) end;
    split; Z.to_euclidean_division_equations; lia.
Qed.

Lemma march_month_inv m :
  1 <= m <= 12 ->
  (if march_month m <? 10 then march_month m + 3 else march_month m - 9) = m.
Proof. intros Hm. each_month m; reflexivity. Qed.

(** The reference functions invert each other on real dates. *)
Lemma civil_of_day_number y m d :
  valid_date y m d -> civil_of_day (day_number y m d) = (y, m, d).
Proof.
  intros Hv. pose proof Hv as [Hm _].
  pose proof (valid_date_doy y m d Hv) as [Hdoy Hmp].
  pose proof (march_year_unique (march_year y m) (day_of_year m d) Hdoy) as [Hy Hd].
  unfold civil_of_day, day_number.
  replace (year_start (march_year y m) + day_of_year m d - 719468 + 719468)
    with (year_start (march_year y m) + day_of_year m d) by lia.
  rewrite Hd, Hy, Hmp, march_month_inv by done.
  f_equal; [f_equal|].
  - unfold march_year. destruct (Z.leb_spec m 2); lia.
  - unfold day_of_year. lia.
Qed.

(** Month and day the code splits a day of the March year into. *)
Lemma split_day_of_year y doy :
  0 <= doy < (if is_leap (y + 1) then 366 else 365) ->
  let mp := (5 * doy + 2) / 153 in
  let m := if mp <? 10 then mp + 3 else mp - 9 in
  valid_date (if m <=? 2 then y + 1 else y) m (doy - (153 * mp + 2) / 5 + 1) /\
  march_month m = mp /\ march_year (if m <=? 2 then y + 1 else y) m = y.
Proof.
  intros Hdoy mp m.
  assert (Hd : 153 * mp <= 5 * doy + 2 < 153 * mp + 153)
    by (unfold mp; Z.to_euclidean_division_equations; lia).
  assert (Hs : mp = 0 \/ mp = 1 \/ mp = 2 \/ mp = 3 \/ mp = 4 \/ mp = 5 \/ mp = 6 \/ mp = 7
               \/ mp = 8 \/ mp = 9 \/ mp = 10 \/ mp = 11)
    by (destruct (is_leap (y + 1)); lia).
  unfold m, valid_date, days_in_month, march_month, march_year. clearbody mp.
  destruct Hs as [->|[->|[->|[->|[->|[->|[->|[->|[->|[->|[->| ->]]]]]]]]]]];
    repeat zcase; cbn [orb]; destruct (is_leap (y + 1));
    repeat split; Z.to_euclidean_division_equations; lia.
Qed.

Lemma civil_of_day_valid days :
  let '(y, m, d) := civil_of_day days in valid_date y m d /\ day_number y m d = days.
Proof.
  unfold civil_of_day. set (z := days + 719468).
  pose proof (era_year_spec (z mod 146097) ltac:(apply Z.mod_pos_bound; lia)) as [Hy [Hl Hu]].
  set (w := era_year (z mod 146097)) in *.
  set (doy := z mod 146097 - year_start w) in *.
  set (Y := w + z / 146097 * 400).
  assert (Hyl : year_start (w + 1) - year_start w = if is_leap (Y + 1) then 366 else 365).
  { rewrite <- year_length. unfold Y, year_start. Z.to_euclidean_division_equations; lia. }
  destruct (split_day_of_year Y doy ltac:(lia)) as (Hv & Hmm & Hmy).
  split; [done|].
  unfold day_number. rewrite Hmy. unfold day_of_year. rewrite Hmm.
  assert (year_start Y = z / 146097 * 146097 + year_start w).
  { unfold Y, year_start. Z.to_euclidean_division_equations; lia. }
  pose proof (Z.div_mod z 146097 ltac:(lia)). unfold doy, z in *. lia.
Qed.

(** *** The checked code computes the reference functions *)

Lemma days_from_ymd_correct y m d :
  1 <= m <= 12 -> 1 <= d <= 31 ->
  - 2 ^ 31 <= day_number y m d <= 2 ^ 31 - 1 - 719468 ->
  days_from_ymd y m d = Ok (day_number y m d).
Proof.
  intros Hm Hd Hn. unfold days_from_ymd.
  set (Y := march_year y m).
  assert (HY : (if m <=? 2 then i32 (y - 1) else Ok y) = Ok Y /\ -5900000 <= Y <= 5900000).
  { unfold day_number in Hn. fold Y in Hn.
    assert (Hb : -5900000 <= Y <= 5900000).
    { unfold day_of_year, march_month, year_start in Hn.
      destruct (Z.ltb_spec 2 m); Z.to_euclidean_division_equations; lia. }
    split; [|done]. unfold Y, march_year in *. destruct (m <=? 2); [|done].
    apply arith_Ok. split; [fits|done]. }
  destruct HY as [-> HY]. cbn [mbind outcome_bind].
  assert (Hera : (if 0 <=? Y then Ok Y else i32 (Y - 399)) ≫=
     (fun s => Ok (Z.quot s 400)) = (Ok (Y / 400) : result Z)).
  { destruct (Z.leb_spec 0 Y); [|rewrite arith_bind by fits]; cbn; f_equal;
      Z.to_euclidean_division_equations; lia. }
  destruct (if 0 <=? Y then Ok Y else i32 (Y - 399)) as [s| |]; try discriminate Hera.
  injection Hera as Hera. cbn [mbind outcome_bind]. rewrite Hera.
  assert (Hm9 : (if 2 <? m then u32 (m - 3) else u32 (m + 9)) = Ok (march_month m)
                /\ 0 <= march_month m <= 11).
  { unfold march_month. destruct (Z.ltb_spec 2 m); (split; [apply arith_Ok; split; [fits|done]|lia]). }
  destruct Hm9 as [-> Hmm]. run_arith. cbn [mbind outcome_bind]. run_arith.
  rewrite as_unsigned_small by (Z.to_euclidean_division_equations; lia). run_arith.
  set (doe := (Y - Y / 400 * 400) * 365 + (Y - Y / 400 * 400) / 4
              - (Y - Y / 400 * 400) / 100 + ((153 * march_month m + 2) / 5 + d - 1)).
  assert (HN : day_number y m d = Y / 400 * 146097 + doe - 719468).
  { unfold day_number, year_start, day_of_year, doe. fold Y.
    Z.to_euclidean_division_equations; lia. }
  assert (Hdoe : 0 <= doe <= 146130) by (unfold doe; Z.to_euclidean_division_equations; lia).
  rewrite HN in *. clearbody doe. rewrite as_signed_small by lia.
  run_arith. apply arith_Ok. split; [fits|done].
Qed.

Lemma ymd_from_days_correct days :
  - 2 ^ 31 <= days <= 2 ^ 31 - 1 - 719468 ->
  ymd_from_days days = Ok (civil_of_day days).
Proof.
  intros Hb. unfold ymd_from_days. run_arith.
  unfold civil_of_day. set (z := days + 719468).
  assert (Hz : - 2 ^ 31 + 719468 <= z <= 2 ^ 31 - 1) by lia.
  assert (Hera : (if 0 <=? z then Ok z else i32 (z - 146096)) ≫=
     (fun s => Ok (Z.quot s 146097)) = (Ok (z / 146097) : result Z)).
  { destruct (Z.leb_spec 0 z); [|rewrite arith_bind by fits]; cbn; f_equal;
      Z.to_euclidean_division_equations; lia. }
  destruct (if 0 <=? z then Ok z else i32 (z - 146096)) as [s| |]; try discriminate Hera.
  injection Hera as Hera. cbn [mbind outcome_bind]. rewrite Hera. clear Hera s.
  pose proof (era_year_spec (z mod 146097) ltac:(apply Z.mod_pos_bound; lia)) as [Hy [Hl Hu]].
  run_arith.
  replace (z - z / 146097 * 146097) with (z mod 146097) by (Z.to_euclidean_division_equations; lia).
  rewrite as_unsigned_small by (Z.to_euclidean_division_equations; lia).
  run_arith. unfold era_year in *. fold (era_year (z mod 146097)) in *.
  set (doe := z mod 146097) in *.
  rewrite as_signed_small by lia. run_arith.
  replace (365 * era_year doe + era_year doe / 4 - era_year doe / 100)
    with (year_start (era_year doe))
    by (unfold year_start; Z.to_euclidean_division_equations; lia).
  set (doy := doe - year_start (era_year doe)) in *.
  assert (Hdoy : 0 <= doy <= 365).
  { pose proof (year_length (era_year doe)). destruct (is_leap _); lia. }
  set (w := era_year doe) in *.
  assert (Hera : -20000 <= z / 146097 <= 20000) by (Z.to_euclidean_division_equations; lia).
  clearbody doy w. run_arith.
  set (mp := (5 * doy + 2) / 153) in *.
  assert (Hmp : 0 <= mp <= 11) by (unfold mp; Z.to_euclidean_division_equations; lia).
  replace (if mp <? 10 then u32 (mp + 3) else u32 (mp - 9))
    with (Ok (if mp <? 10 then mp + 3 else mp - 9) : result Z).
  2: { destruct (Z.ltb_spec mp 10); symmetry; apply arith_Ok; (split; [fits|done]). }
  cbn [mbind outcome_bind]. set (m := if mp <? 10 then mp + 3 else mp - 9).
  destruct (m <=? 2); [rewrite arith_bind by fits|]; reflexivity.
Qed.

(** ** Theorems *)

(** On every [i32] day count for which the epoch shift does
    not overflow, [ymd_from_days] succeeds without overflow, returns a real
    Gregorian date, and [days_from_ymd] maps that date back to the same day. *)
Theorem civil_round_trip days :
  - 2 ^ 31 <= days <= 2 ^ 31 - 1 - 719468 ->
  exists y m d, ymd_from_days days = Ok (y, m, d) /\ valid_date y m d /\
                days_from_ymd y m d = Ok days.
Proof.
  intros Hb. rewrite ymd_from_days_correct by done.
  pose proof (civil_of_day_valid days) as Hv.
  destruct (civil_of_day days) as [[y m] d] eqn:Ec. destruct Hv as [Hv Hn].
  exists y, m, d. split; [done|]. split; [done|].
  rewrite days_from_ymd_correct; rewrite ?Hn; auto; destruct Hv as [Hm Hd]; [lia|].
  unfold days_in_month in Hd. repeat split_if; lia.
Qed.

Lemma civil_round_trip_witness :
  exists y m d, ymd_from_days 10957 = Ok (y, m, d) /\ valid_date y m d /\
                days_from_ymd y m d = Ok 10957.
Proof. apply (civil_round_trip 10957). lia. Defined.

(** A date the calendar range can hold: the first and last year whose every
    day fits an [i32] after the epoch shift are far outside SQL's 0001-9999. *)
Definition year_in_range (y : Z) : Prop := -5000000 <= y <= 5000000.

Lemma day_number_in_range y m d :
  year_in_range y -> 1 <= m <= 12 -> 1 <= d <= 31 ->
  - 2 ^ 31 <= day_number y m d <= 2 ^ 31 - 1 - 719468.
Proof.
  unfold year_in_range, day_number, year_start, march_year, day_of_year, march_month.
  intros Hy Hm Hd.
  destruct (Z.ltb_spec 2 m), (Z.leb_spec m 2); Z.to_euclidean_division_equations; lia.
Qed.

(** The round trip the parser uses as its validity check
    accepts exactly the real Gregorian dates. *)
Theorem round_trip_iff_valid y m d :
  year_in_range y -> 1 <= m <= 12 -> 1 <= d <= 31 ->
  (days_from_ymd y m d ≫= ymd_from_days) = Ok (y, m, d) <-> valid_date y m d.
Proof.
  intros Hy Hm Hd. pose proof (day_number_in_range y m d Hy Hm Hd) as Hn.
  rewrite days_from_ymd_correct by done. cbn [mbind outcome_bind].
  rewrite ymd_from_days_correct by done. split.
  - intros H. assert (Hc : civil_of_day (day_number y m d) = (y, m, d)) by congruence.
    pose proof (civil_of_day_valid (day_number y m d)) as Hv. rewrite Hc in Hv. apply Hv.
  - intros Hv. by rewrite civil_of_day_number.
Qed.

Lemma round_trip_iff_valid_witness :
  (days_from_ymd 1900 2 29 ≫= ymd_from_days) <> Ok (1900, 2, 29) /\
  (days_from_ymd 2000 2 29 ≫= ymd_from_days) = Ok (2000, 2, 29).
Proof.
  split.
  - intros H. apply round_trip_iff_valid in H; [|unfold year_in_range; lia|lia|lia].
    destruct H as [_ [_ H]]. vm_compute in H. by apply H.
  - apply round_trip_iff_valid; [unfold year_in_range; lia|lia|lia|].
    split; [lia|]. vm_compute. split; discriminate.
Defined.

(** *** Calendar order is day order *)

Definition date_cmp (a b : Z * Z * Z) : comparison :=
  let '(y, m, d) := a in let '(y', m', d') := b in
  then_cmp (y ?= y') (then_cmp (m ?= m') (d ?= d')).

Lemma day_number_lt y m d y' m' d' :
  valid_date y m d -> valid_date y' m' d' ->
  date_cmp (y, m, d) (y', m', d') = Lt -> day_number y m d < day_number y' m' d'.
Proof.
  intros Hv Hv' Hlt. pose proof Hv as [Hm Hd]. pose proof Hv' as [Hm' Hd'].
  pose proof (valid_date_doy y m d Hv) as [Hdoy Hmp].
  pose proof (valid_date_doy y' m' d' Hv') as [Hdoy' Hmp'].
  unfold day_number.
  assert (Hcase : march_year y m < march_year y' m' \/
    march_year y m = march_year y' m' /\
    (march_month m < march_month m' \/ march_month m = march_month m' /\ d < d')).
  { unfold date_cmp in Hlt. unfold march_year, march_month.
    destruct (Z.compare_spec y y'), (Z.compare_spec m m'), (Z.compare_spec d d');
      cbn in Hlt; try discriminate; repeat zcase; lia. }
  destruct Hcase as [H|[H Hr]].
  - pose proof (year_start_mono (march_year y m + 1) (march_year y' m') ltac:(lia)). lia.
  - rewrite H in *. destruct Hr as [Hr|[Hr Hdd]].
    + enough (day_of_year m d < day_of_year m' d') by lia.
      rewrite <- Hmp, <- Hmp' in Hr. apply Z.nle_gt. intros Hge.
      pose proof (Z.div_le_mono (5 * day_of_year m' d' + 2) (5 * day_of_year m d + 2) 153).
      lia.
    + unfold day_of_year. rewrite Hr. lia.
Qed.

(** Comparing the stored day counts of two real dates is
    comparing the dates by year, then month, then day. *)
Theorem day_order_is_calendar_order y m d y' m' d' n n' :
  valid_date y m d -> valid_date y' m' d' ->
  year_in_range y -> year_in_range y' ->
  days_from_ymd y m d = Ok n -> days_from_ymd y' m' d' = Ok n' ->
  (n ?= n') = date_cmp (y, m, d) (y', m', d').
Proof.
  intros Hv Hv' Hy Hy' Hn Hn'.
  rewrite days_from_ymd_correct in Hn, Hn'
    by (destruct Hv as [? Hd], Hv' as [? Hd']; try apply day_number_in_range; auto;
        unfold days_in_month in *; repeat split_if; lia).
  injection Hn as <-. injection Hn' as <-.
  destruct (date_cmp (y, m, d) (y', m', d')) eqn:Ec.
  - unfold date_cmp in Ec.
    destruct (Z.compare_spec y y'), (Z.compare_spec m m'), (Z.compare_spec d d');
      try discriminate Ec; subst. apply Z.compare_refl.
  - by apply Z.compare_lt_iff, day_number_lt.
  - apply Z.compare_gt_iff, day_number_lt; try done.
    unfold date_cmp in *.
    rewrite (Z.compare_antisym y), (Z.compare_antisym m), (Z.compare_antisym d).
    rewrite <- !then_cmp_opp, Ec. reflexivity.
Qed.

Lemma day_order_is_calendar_order_witness :
  (-1 ?= 8766) = date_cmp (1969, 12, 31) (1994, 1, 1).
Proof.
  apply (day_order_is_calendar_order 1969 12 31 1994 1 1);
    try reflexivity; unfold valid_date, year_in_range; vm_compute; repeat split; discriminate.
Defined.
