(* ===== verification/Dates.v ===== *)
(** Date literals and INTERVAL arithmetic as the SQL binder folds them
    (crates/idb-sql/src/sql/binder.rs, [parse_date_literal] to
    [last_day_of_month]), and the date display of
    crates/idb-sql/src/sql/ir/expr.rs. *)

From Stdlib Require Import ZArith Lia List Bool.
From coqutil Require Import Byte.
From stdpp Require Import base list strings.
From S2P Require Import Prelude Common Civil.

(** ASCII characters the literals are made of. *)
Definition dash : byte := Byte.x2d.
Definition is_ascii_digit (b : byte) : bool := in_range 48 57 b.

(** [str::parse] of a non-empty run of ASCII digits. *)
Definition parse_digits (b : bytes) : Z :=
  fold_left (fun acc c => acc * 10 + (u8 c - 48)) b 0.

Definition date_well_formed (value : bytes) : bool :=
  (len value =? 10) &&
  forallb (fun ib : nat * byte =>
             let '(i, b) := ib in
             if (i =? 4)%nat || (i =? 7)%nat then bool_decide (b = dash) else is_ascii_digit b)
          (combine (seq 0 (length value)) value).

Definition parse_date_literal (value : bytes) : result Z :=
  if negb (date_well_formed value) then Err (SqlParse "expected strict YYYY-MM-DD") else
  ys ← slice 0 4 value;
  ms ← slice 5 7 value;
  ds ← slice 8 10 value;
  let year := parse_digits ys in
  let month := parse_digits ms in
  let day := parse_digits ds in
  if negb ((1 <=? month) && (month <=? 12)) || negb ((1 <=? day) && (day <=? 31))
  then Err (SqlParse "month/day out of range") else
  days ← days_from_ymd year month day;
  back ← ymd_from_days days;
  if bool_decide (back = (year, month, day)) then Ok days
  else Err (SqlParse "not a real calendar date").

Inductive IntervalUnit := Day | Month | Year.

Definition interval_overflow : Error :=
  SqlParse "INTERVAL arithmetic overflowed the DATE range".

Definition last_day_of_month (year month : Z) : result Z :=
  '(next_year, next_month) ←
    (if month =? 12 then y ← i32 (year + 1); Ok (y, 1)
     else m ← u32 (month + 1); Ok (year, m));
  first_of_next ← days_from_ymd next_year next_month 1;
  prev ← i32 (first_of_next - 1);
  ymd ← ymd_from_days prev;
  Ok (snd ymd).

Definition add_months (base_days delta_months : Z) : result Z :=
  '(year, month, day) ← ymd_from_days base_days;
  y12 ← i64 (year * 12);
  m0 ← i64 (month - 1);
  idx ← i64 (y12 + m0);
  total ← i64 (idx + delta_months);
  new_year ← ok_or (checked in_i32 (total / 12)) interval_overflow;
  new_month ← u32 (as_unsigned 32 (total mod 12) + 1);
  last ← last_day_of_month new_year new_month;
  days_from_ymd new_year new_month (Z.min day last).

Definition apply_interval (base_days signed_amount : Z) (unit : IntervalUnit) : result Z :=
  match unit with
  | Day =>
      delta ← ok_or (checked in_i32 signed_amount) interval_overflow;
      ok_or (checked in_i32 (base_days + delta)) interval_overflow
  | Month => add_months base_days signed_amount
  | Year =>
      months ← ok_or (checked in_i64 (signed_amount * 12)) interval_overflow;
      add_months base_days months
  end.

(** [{y:04}-{m:02}-{d:02}] for a non-negative year of at most four digits. *)
Definition digit (n : Z) : byte := byte.of_Z (48 + n mod 10).
Definition display_date (days : Z) : result (list byte) :=
  '(y, m, d) ← ymd_from_days days;
  Ok [digit (y / 1000); digit (y / 100); digit (y / 10); digit y; dash;
      digit (m / 10); digit m; dash; digit (d / 10); digit d].

Example jan31_plus_month : (* 1996-01-31 + 1 MONTH = 1996-02-29 *)
  (base ← days_from_ymd 1996 1 31; apply_interval base 1 Month) = days_from_ymd 1996 2 29.
Proof. reflexivity. Qed.

(** ** The last day of a month *)

Lemma next_month_day_number y m :
  1 <= m <= 12 ->
  (if m =? 12 then day_number (y + 1) 1 1 else day_number y (m + 1) 1) - 1
  = day_number y m (days_in_month y m).
Proof.
  intros Hm. unfold day_number, day_of_year, march_year, march_month, days_in_month.
  pose proof (year_length (y - 1)) as Hl. replace (y - 1 + 1) with y in Hl by lia.
  each_month m; repeat zcase; cbn [orb];
    replace (y + 1 - 1) with y by lia;
    try (destruct (is_leap y); Z.to_euclidean_division_equations; lia).
Qed.

Lemma valid_last_day y m : 1 <= m <= 12 -> valid_date y m (days_in_month y m).
Proof.
  intros Hm. split; [done|]. unfold days_in_month. repeat split_if; lia.
Qed.

Lemma days_in_month_bounds y m : 28 <= days_in_month y m <= 31.
Proof. unfold days_in_month. repeat split_if; lia. Qed.

Lemma last_day_of_month_correct y m :
  year_in_range y -> year_in_range (y + 1) -> 1 <= m <= 12 ->
  last_day_of_month y m = Ok (days_in_month y m).
Proof.
  intros Hy Hy1 Hm. unfold last_day_of_month.
  pose proof (next_month_day_number y m Hm) as Hn.
  pose proof (days_in_month_bounds y m) as Hdim.
  pose proof (day_number_in_range y m (days_in_month y m) Hy Hm ltac:(lia)) as Hr.
  assert (Hnext : exists y' m', (if m =? 12 then y ← i32 (y + 1); Ok (y, 1)
     else m ← u32 (m + 1); Ok (y, m)) = (Ok (y', m') : result (Z * Z)) /\
     1 <= m' <= 12 /\ year_in_range y' /\
     day_number y' m' 1 = day_number y m (days_in_month y m) + 1).
  { destruct (Z.eqb_spec m 12).
    - exists (y + 1), 1. rewrite arith_bind by (unfold year_in_range in *; fits).
      repeat split; try done; try lia; unfold year_in_range in *; lia.
    - exists y, (m + 1). rewrite arith_bind by fits.
      repeat split; try done; try lia; unfold year_in_range in *; lia. }
  destruct Hnext as (y' & m' & -> & Hm' & Hy' & Hd). cbn [mbind outcome_bind].
  rewrite days_from_ymd_correct by (lia || (apply day_number_in_range; lia || done)).
  cbn [mbind outcome_bind]. rewrite Hd, arith_bind by fits.
  replace (_ + 1 - 1) with (day_number y m (days_in_month y m)) by lia.
  rewrite ymd_from_days_correct by lia. cbn [mbind outcome_bind].
  by rewrite civil_of_day_number by (by apply valid_last_day).
Qed.

(** ** INTERVAL arithmetic *)

(** Adding months to a date moves the absolute month index
    and clamps the day of the month to the target month's last day, whenever
    the target year is in range; nothing overflows on the way. *)
Theorem add_months_clamps base delta y m d :
  - 2 ^ 31 <= base <= 2 ^ 31 - 1 - 719468 ->
  - 2 ^ 40 <= delta <= 2 ^ 40 ->
  ymd_from_days base = Ok (y, m, d) ->
  let total := y * 12 + (m - 1) + delta in
  let y' := total / 12 in
  let m' := total mod 12 + 1 in
  year_in_range y' -> year_in_range (y' + 1) ->
  add_months base delta = Ok (day_number y' m' (Z.min d (days_in_month y' m'))) /\
  valid_date y' m' (Z.min d (days_in_month y' m')).
Proof.
  intros Hb Hdelta Hymd total y' m' Hy' Hy1'.
  assert (Hc : civil_of_day base = (y, m, d))
    by (rewrite ymd_from_days_correct in Hymd by done; congruence).
  pose proof (civil_of_day_valid base) as Hv. rewrite Hc in Hv. destruct Hv as [[Hm Hd] Hn].
  pose proof (days_in_month_bounds y m). pose proof (days_in_month_bounds y' m').
  assert (Hm' : 1 <= m' <= 12) by (unfold m'; Z.to_euclidean_division_equations; lia).
  assert (Hyb : - 2 ^ 50 <= y <= 2 ^ 50) by (unfold y', total, year_in_range in *;
    Z.to_euclidean_division_equations; lia).
  split; [|split; [done|lia]].
  unfold add_months. rewrite Hymd. cbn [mbind outcome_bind]. run_arith.
  fold total. fold y'. unfold checked.
  replace (in_i32 y') with true by (symmetry; unfold year_in_range in *; fits).
  cbn [ok_or mbind outcome_bind].
  rewrite as_unsigned_small by (Z.to_euclidean_division_equations; lia).
  rewrite arith_bind by fits. fold m'.
  rewrite last_day_of_month_correct by done. cbn [mbind outcome_bind].
  apply days_from_ymd_correct; [done|lia|]. apply day_number_in_range; done || lia.
Qed.

Lemma add_months_clamps_witness : (* 1996-01-31 + 1 MONTH = 1996-02-29 *)
  add_months 9526 1 = Ok (day_number 1996 2 29).
Proof.
  refine (proj1 (add_months_clamps 9526 1 1996 1 31 _ _ eq_refl _ _)).
  - lia.
  - lia.
  - vm_compute; split; discriminate.
  - vm_compute; split; discriminate.
Defined.

(** The overflow the error is named after is caught for DAY intervals only: a
    YEAR interval leaves the DATE range inside [days_from_ymd] instead. *)
Theorem year_interval_overflow_not_reported :
  apply_interval 0 10000000 Year = Panic /\
  apply_interval 0 (2 ^ 31) Day = Err interval_overflow.
Proof. split; vm_compute; reflexivity. Qed.

(** ** Literals *)

Lemma u8_digit n : u8 (digit n) = 48 + n mod 10.
Proof.
  unfold digit. rewrite byte.unsigned_of_Z. unfold byte.wrap.
  apply Z.mod_small. Z.to_euclidean_division_equations; lia.
Qed.

Lemma is_ascii_digit_digit n : is_ascii_digit (digit n) = true.
Proof.
  unfold is_ascii_digit, in_range. rewrite u8_digit.
  apply andb_true_iff; rewrite !Z.leb_le. Z.to_euclidean_division_equations; lia.
Qed.

Lemma parse_digits_two n : 0 <= n < 100 -> parse_digits [digit (n / 10); digit n] = n.
Proof.
  intros Hn. cbn [parse_digits fold_left]. rewrite !u8_digit.
  Z.to_euclidean_division_equations; lia.
Qed.

Lemma parse_digits_four n :
  0 <= n < 10000 ->
  parse_digits [digit (n / 1000); digit (n / 100); digit (n / 10); digit n] = n.
Proof.
  intros Hn. cbn [parse_digits fold_left]. rewrite !u8_digit.
  Z.to_euclidean_division_equations; lia.
Qed.

(** The shape check, position by position. *)
Lemma date_well_formed_iff value :
  date_well_formed value = true <->
  exists y1 y2 y3 y4 m1 m2 d1 d2,
    value = [y1; y2; y3; y4; dash; m1; m2; dash; d1; d2] /\
    Forall (fun b => is_ascii_digit b = true) [y1; y2; y3; y4; m1; m2; d1; d2].
Proof.
  unfold date_well_formed. split.
  - intros [Hl Hall]%andb_true_iff. apply Z.eqb_eq in Hl. unfold len in Hl.
    do 10 (destruct value as [|? value]; [simpl in Hl; lia|]).
    destruct value; [|simpl in Hl; lia].
    cbn -[is_ascii_digit bool_decide] in Hall. rewrite !andb_true_iff, !bool_decide_eq_true in Hall.
    destruct_and!. subst. do 8 eexists. split; [reflexivity|]. by repeat constructor.
  - intros (?&?&?&?&?&?&?&?& -> & Hf). repeat setoid_rewrite Forall_cons in Hf.
    destruct_and!. cbn -[is_ascii_digit bool_decide]. rewrite !bool_decide_true by done.
    by repeat match goal with H : is_ascii_digit _ = true |- _ => rewrite H; clear H end.
Qed.

Lemma parse_digits_two_bound a b :
  is_ascii_digit a = true -> is_ascii_digit b = true -> 0 <= parse_digits [a; b] < 100.
Proof.
  unfold is_ascii_digit, in_range. intros. zbool. cbn [parse_digits fold_left]. lia.
Qed.

Lemma parse_digits_four_bound a b c d :
  Forall (fun b => is_ascii_digit b = true) [a; b; c; d] ->
  0 <= parse_digits [a; b; c; d] < 10000.
Proof.
  repeat setoid_rewrite Forall_cons. unfold is_ascii_digit, in_range.
  intros. destruct_and!. zbool. cbn [parse_digits fold_left]. lia.
Qed.

(** What is left of the parser once the shape check passed. *)
Lemma parse_date_literal_shape y1 y2 y3 y4 m1 m2 d1 d2 :
  Forall (fun b => is_ascii_digit b = true) [y1; y2; y3; y4; m1; m2; d1; d2] ->
  let y := parse_digits [y1; y2; y3; y4] in
  let m := parse_digits [m1; m2] in
  let d := parse_digits [d1; d2] in
  parse_date_literal [y1; y2; y3; y4; dash; m1; m2; dash; d1; d2] =
    (if negb ((1 <=? m) && (m <=? 12)) || negb ((1 <=? d) && (d <=? 31))
     then Err (SqlParse "month/day out of range")
     else if bool_decide (civil_of_day (day_number y m d) = (y, m, d))
     then Ok (day_number y m d) else Err (SqlParse "not a real calendar date")).
Proof.
  intros Hf y m d. unfold parse_date_literal.
  rewrite (proj2 (date_well_formed_iff _)) by (do 8 eexists; eauto). cbn [negb].
  change (@slice Error 0 4 [y1; y2; y3; y4; dash; m1; m2; dash; d1; d2])
    with (Ok [y1; y2; y3; y4] : result (list byte)).
  change (@slice Error 5 7 [y1; y2; y3; y4; dash; m1; m2; dash; d1; d2])
    with (Ok [m1; m2] : result (list byte)).
  change (@slice Error 8 10 [y1; y2; y3; y4; dash; m1; m2; dash; d1; d2])
    with (Ok [d1; d2] : result (list byte)).
  cbn [mbind outcome_bind]. fold y m d.
  destruct (negb _ || negb _) eqn:Hg; [done|].
  apply orb_false_iff in Hg as [Hm Hd]. apply negb_false_iff in Hm, Hd. zbool.
  assert (Hy : year_in_range y).
  { pose proof (parse_digits_four_bound y1 y2 y3 y4 (Forall_take _ 4 _ Hf)).
    unfold year_in_range, y. lia. }
  pose proof (day_number_in_range y m d Hy ltac:(lia) ltac:(lia)).
  rewrite days_from_ymd_correct by lia. cbn [mbind outcome_bind].
  by rewrite ymd_from_days_correct by lia.
Qed.

(** Parsing the literal a date is displayed as gives the
    date back, for every day of the years 0000 to 9999. *)
Theorem parse_display_date days y m d :
  ymd_from_days days = Ok (y, m, d) -> 0 <= y <= 9999 ->
  - 2 ^ 31 <= days <= 2 ^ 31 - 1 - 719468 ->
  (s ← display_date days; parse_date_literal s) = Ok days.
Proof.
  intros Hymd Hy Hb. unfold display_date. rewrite Hymd. cbn [mbind outcome_bind].
  assert (Hc : civil_of_day days = (y, m, d))
    by (rewrite ymd_from_days_correct in Hymd by done; congruence).
  pose proof (civil_of_day_valid days) as Hv. rewrite Hc in Hv. destruct Hv as [[Hm Hd] Hn].
  pose proof (days_in_month_bounds y m).
  rewrite parse_date_literal_shape by (repeat constructor; apply is_ascii_digit_digit).
  rewrite parse_digits_four, !parse_digits_two, Hn, Hc by lia.
  rewrite bool_decide_true by done. by repeat zcase.
Qed.

Lemma parse_display_date_witness :
  (s ← display_date 8766; parse_date_literal s) = Ok 8766.
Proof. apply (parse_display_date 8766 1994 1 1); [reflexivity|lia|lia]. Defined.

(** A literal the parser accepts is a real date, and the day
    count it returns is that date's; every other input is an error, never a
    panic or a coerced date. *)
Theorem parse_date_literal_sound value :
  no_panic (parse_date_literal value) /\
  forall n, parse_date_literal value = Ok n ->
    exists y m d, 0 <= y <= 9999 /\ valid_date y m d /\ n = day_number y m d.
Proof.
  destruct (date_well_formed value) eqn:Hw.
  2: { unfold parse_date_literal, no_panic. rewrite Hw. cbn [negb]. naive_solver. }
  apply date_well_formed_iff in Hw as (y1&y2&y3&y4&m1&m2&d1&d2&->&Hf).
  rewrite (parse_date_literal_shape _ _ _ _ _ _ _ _ Hf). unfold no_panic.
  repeat split_if; split; try done. intros n [= <-].
  match goal with H : bool_decide _ = true |- _ => apply bool_decide_eq_true in H; rename H into Hc end.
  pose proof (civil_of_day_valid
    (day_number (parse_digits [y1; y2; y3; y4]) (parse_digits [m1; m2]) (parse_digits [d1; d2]))) as Hv.
  rewrite Hc in Hv. do 3 eexists. split; [|split; [apply Hv|done]].
  pose proof (parse_digits_four_bound y1 y2 y3 y4 (Forall_take _ 4 _ Hf)). lia.
Qed.
