(* ===== verification/Decimal.v ===== *)
(** Fixed-scale decimals (crates/idb-core/src/types/decimal.rs).

    A [Decimal] denotes [mantissa * 10^(-scale)]; [to_Q] is that rational, and
    the arithmetic is specified against it.  [i128] arithmetic is
    overflow-checked. *)

From Stdlib Require Import ZArith QArith Qabs Lia List Bool.
From stdpp Require Import base list strings.
From S2P Require Import Prelude Common.
#[local] Open Scope Z_scope.

Record Decimal := mkDecimal { mantissa : Z; scale : Z }.

#[global] Instance Decimal_eq_dec : EqDecision Decimal.
Proof. solve_decision. Defined.

Definition MAX_SCALE : Z := 18.
Definition MAX_PRECISION : Z := 18.

Abbreviation i128 := (@arith Error in_i128).

Definition from_i64_with_scale (m s : Z) : result Decimal :=
  if s <=? MAX_SCALE then Ok (mkDecimal m s) else Panic.

Definition matches_scale (d : Decimal) (s : Z) : bool := scale d =? s.

Definition exceeds_precision (d : Decimal) (precision : Z) : bool :=
  if mantissa d =? 0 then false else
  let abs := Z.abs (mantissa d) in
  let bound := match checked in_u64 (10 ^ precision) with Some b => b | None => 2 ^ 64 - 1 end in
  bound <=? abs.

Definition add (a b : Decimal) : result Decimal :=
  if negb (scale a =? scale b) then Err (DecimalArithmetic "add: scale mismatch") else
  m ← ok_or (checked in_i64 (mantissa a + mantissa b)) (DecimalArithmetic "add: overflow");
  Ok (mkDecimal m (scale a)).

Definition sub (a b : Decimal) : result Decimal :=
  if negb (scale a =? scale b) then Err (DecimalArithmetic "sub: scale mismatch") else
  m ← ok_or (checked in_i64 (mantissa a - mantissa b)) (DecimalArithmetic "sub: overflow");
  Ok (mkDecimal m (scale a)).

Definition mul (a b : Decimal) : result Decimal :=
  result_scale ← ok_or (checked in_u8 (scale a + scale b))
                       (DecimalArithmetic "mul: scale sum overflow");
  if MAX_SCALE <? result_scale
  then Err (DecimalArithmetic "mul: result scale exceeds MAX_SCALE") else
  product ← i128 (mantissa a * mantissa b);
  if (2 ^ 63 - 1 <? product) || (product <? - 2 ^ 63)
  then Err (DecimalArithmetic "mul: mantissa overflow") else
  Ok (mkDecimal (as_signed 64 product) result_scale).

Definition rescale_mantissa (m from_scale to_scale : Z) : result Z :=
  if to_scale <? from_scale then Panic else
  factor ← i128 (10 ^ (to_scale - from_scale));
  ok_or (checked in_i128 (m * factor)) (DecimalArithmetic "div: rescale overflow").

Definition div_i128_round_half_away (num den : Z) : result Z :=
  if den =? 0 then Panic else
  quotient ← i128 (Z.quot num den);
  remainder ← i128 (Z.rem num den);
  r ← i128 (Z.abs remainder);
  r2 ← i128 (2 * r);
  d ← i128 (Z.abs den);
  if d <=? r2 then
    if bool_decide ((num <? 0) = (den <? 0)) then i128 (quotient + 1) else i128 (quotient - 1)
  else Ok quotient.

Definition div (a b : Decimal) : result Decimal :=
  if mantissa b =? 0 then Err (DecimalArithmetic "div: division by zero") else
  let result_scale := Z.max (scale a) (scale b) in
  a_scaled ← rescale_mantissa (mantissa a) (scale a) result_scale;
  b_scaled ← rescale_mantissa (mantissa b) (scale b) result_scale;
  p ← i128 (10 ^ result_scale);
  numerator ← ok_or (checked in_i128 (a_scaled * p))
                    (DecimalArithmetic "div: numerator overflow");
  q ← div_i128_round_half_away numerator b_scaled;
  m ← ok_or (checked in_i64 q) (DecimalArithmetic "div: result mantissa overflows i64");
  Ok (mkDecimal m result_scale).

Example div_rounds_half_up : div (mkDecimal 5 0) (mkDecimal 2 0) = Ok (mkDecimal 3 0).
Proof. reflexivity. Qed.
Example div_rounds_half_down : div (mkDecimal (-5) 0) (mkDecimal 2 0) = Ok (mkDecimal (-3) 0).
Proof. reflexivity. Qed.

(** ** Well-formedness: an [i64] mantissa and a scale the constructor accepts. *)

Definition decimal_wf (d : Decimal) : bool :=
  in_i64 (mantissa d) && (0 <=? scale d) && (scale d <=? MAX_SCALE).

Definition pow10 (s : Z) : positive := Z.to_pos (10 ^ s).
Definition to_Q (d : Decimal) : Q := Qmake (mantissa d) (pow10 (scale d)).

Lemma decimal_wf_iff d :
  decimal_wf d = true <-> - 2 ^ 63 <= mantissa d < 2 ^ 63 /\ 0 <= scale d <= 18.
Proof.
  unfold decimal_wf, in_i64, MAX_SCALE. rewrite !andb_true_iff, !Z.leb_le, Z.ltb_lt. lia.
Qed.

Lemma pow10_pos s : 0 < 10 ^ s \/ s < 0.
Proof. destruct (Z.ltb_spec s 0); [by right|left]. apply Z.pow_pos_nonneg; lia. Qed.

Lemma pow10_Z s : 0 <= s -> Z.pos (pow10 s) = 10 ^ s.
Proof. intros. unfold pow10. rewrite Z2Pos.id; [done|]. apply Z.pow_pos_nonneg; lia. Qed.

Lemma pow10_bound s k : 0 <= s <= k -> 1 <= 10 ^ s <= 10 ^ k.
Proof.
  intros. pose proof (Z.pow_pos_nonneg 10 s). split; [lia|]. apply Z.pow_le_mono_r; lia.
Qed.

Lemma checked_Some fits z z' : checked fits z = Some z' <-> fits z = true /\ z' = z.
Proof. unfold checked. destruct (fits z); split; intros; destruct_and?; simplify_eq; auto. Qed.

Lemma ok_or_Ok {A} (o : option A) e a : ok_or o e = Ok a <-> o = Some a.
Proof. destruct o; simpl; naive_solver. Qed.

(** ** Rounding

    [rounds n d q]: [q] is an integer nearest to [n/d], and on a tie the one
    further from zero.  There is exactly one. *)

Definition rounds (n d q : Z) : Prop :=
  2 * Z.abs (n - q * d) <= Z.abs d /\
  (2 * Z.abs (n - q * d) = Z.abs d -> Z.abs n < Z.abs (q * d)).

Lemma same_side d q :
  (0 <= q * d /\ 0 <= (q + 1) * d) \/ (q * d <= 0 /\ (q + 1) * d <= 0).
Proof. destruct (Z.le_gt_cases 0 q), (Z.le_gt_cases 0 d); [left|right|right|left]; nia. Qed.

Lemma rounds_unique n d q q' : d <> 0 -> rounds n d q -> rounds n d q' -> q = q'.
Proof.
  intros Hd [H1 T1] [H2 T2].
  assert (Hq : Z.abs (q - q') * Z.abs d <= Z.abs d).
  { rewrite <- Z.abs_mul. lia. }
  assert (Z.abs (q - q') <= 1) by nia.
  destruct (Z.eq_dec q q'); [done|exfalso].
  assert (Hs : q = q' + 1 \/ q = q' - 1) by lia.
  destruct Hs as [-> | ->]; [pose proof (same_side d q')|pose proof (same_side d (q' - 1))];
    try replace (q' - 1 + 1) with q' in * by lia; lia.
Qed.

Lemma div_round_correct num den :
  - 2 ^ 127 < num < 2 ^ 127 -> 0 < Z.abs den < 2 ^ 126 ->
  exists q, div_i128_round_half_away num den = Ok q /\ rounds num den q.
Proof.
  intros Hn Hd. unfold div_i128_round_half_away.
  destruct (Z.eqb_spec den 0); [lia|].
  pose proof (Z.quot_rem' num den) as Hqr.
  pose proof (Z.rem_bound_abs num den ltac:(done)) as Hr.
  pose proof (Z.mul_quot_le num den) as Hpos. pose proof (Z.mul_quot_ge num den) as Hneg.
  set (q := Z.quot num den) in *. set (r := Z.rem num den) in *.
  assert (Hq : Z.abs q <= Z.abs num /\ (2 <= Z.abs den -> 2 * Z.abs q <= Z.abs num)).
  { assert (Hm : Z.abs (den * q) <= Z.abs num) by (destruct (Z.le_gt_cases 0 num); lia).
    rewrite Z.abs_mul in Hm. clearbody q r. nia. }
  clearbody q r. rewrite !arith_bind by fits.
  destruct (Z.leb_spec (Z.abs den) (2 * Z.abs r)).
  - assert (2 <= Z.abs den) by (clear - H Hr; destruct (Z.eq_dec (Z.abs r) 0); lia).
    assert (num <> 0) by (intros ->; lia).
    case_bool_decide as Hsame; eexists; (split; [apply arith_Ok; split; [fits|reflexivity]|]);
      unfold rounds;
      destruct (Z.ltb_spec num 0), (Z.ltb_spec den 0); try (exfalso; congruence);
      split; lia.
  - exists q. split; [done|]. unfold rounds. split; lia.
Qed.

(** ** Theorems *)

Lemma to_Q_same_scale a b c s :
  0 <= s -> scale a = s -> scale b = s -> scale c = s ->
  mantissa c = mantissa a + mantissa b -> (to_Q c == to_Q a + to_Q b)%Q.
Proof.
  intros Hs Ha Hb Hc Hm. unfold to_Q, Qeq, Qplus. rewrite Ha, Hb, Hc, Hm. simpl.
  rewrite Pos2Z.inj_mul. ring.
Qed.

Lemma to_Q_opp m s : (to_Q (mkDecimal (- m) s) == - to_Q (mkDecimal m s))%Q.
Proof. reflexivity. Qed.

Lemma to_Q_mul a b :
  0 <= scale a -> 0 <= scale b ->
  (to_Q (mkDecimal (mantissa a * mantissa b) (scale a + scale b)) == to_Q a * to_Q b)%Q.
Proof.
  intros Ha Hb. unfold to_Q, Qeq, Qmult. simpl.
  rewrite Pos2Z.inj_mul, !pow10_Z, Z.pow_add_r by lia. ring.
Qed.

(** Addition, subtraction and multiplication are exact.  A
    result is the exact rational, with the scale the SQL rules give it, and is
    again a valid decimal; an error is returned exactly for a scale mismatch
    (a scale sum above 18 for multiplication) or a mantissa that does not fit
    [i64]; nothing panics. *)
Theorem decimal_arith_exact a b :
  decimal_wf a = true -> decimal_wf b = true ->
  match add a b with
  | Ok c => decimal_wf c = true /\ scale c = scale a /\ (to_Q c == to_Q a + to_Q b)%Q
  | Err _ => scale a <> scale b \/ in_i64 (mantissa a + mantissa b) = false
  | Panic => False
  end /\
  match sub a b with
  | Ok c => decimal_wf c = true /\ scale c = scale a /\ (to_Q c == to_Q a - to_Q b)%Q
  | Err _ => scale a <> scale b \/ in_i64 (mantissa a - mantissa b) = false
  | Panic => False
  end /\
  match mul a b with
  | Ok c => decimal_wf c = true /\ scale c = scale a + scale b /\ (to_Q c == to_Q a * to_Q b)%Q
  | Err _ => MAX_SCALE < scale a + scale b \/ in_i64 (mantissa a * mantissa b) = false
  | Panic => False
  end.
Proof.
  intros Ha Hb. pose proof Ha as Ha'. pose proof Hb as Hb'.
  apply decimal_wf_iff in Ha', Hb'.
  split; [|split].
  - unfold add. destruct (Z.eqb_spec (scale a) (scale b)) as [Hs|]; simpl; [|by left].
    unfold checked. destruct (in_i64 _) eqn:Hf; simpl; [|by right].
    split; [apply decimal_wf_iff; unfold in_i64 in Hf; zbool; simpl; lia|].
    split; [done|]. apply (to_Q_same_scale a b _ (scale a)); done || lia.
  - unfold sub. destruct (Z.eqb_spec (scale a) (scale b)) as [Hs|]; simpl; [|by left].
    unfold checked. destruct (in_i64 _) eqn:Hf; simpl; [|by right].
    split; [apply decimal_wf_iff; unfold in_i64 in Hf; zbool; simpl; lia|].
    split; [done|]. unfold Qminus.
    change (- to_Q b)%Q with (to_Q (mkDecimal (- mantissa b) (scale b))).
    apply (to_Q_same_scale a _ _ (scale a)); simpl; done || lia.
  - unfold mul, checked. replace (in_u8 (scale a + scale b)) with true by (symmetry; fits).
    cbn [ok_or mbind outcome_bind].
    destruct (Z.ltb_spec MAX_SCALE (scale a + scale b)); [by left|].
    rewrite arith_bind.
    2: { unfold in_i128. apply andb_true_iff; rewrite Z.leb_le, Z.ltb_lt. nia. }
    destruct (_ || _) eqn:Hg.
    { right. unfold in_i64. apply orb_true_iff in Hg as [Hg|Hg]; apply Z.ltb_lt in Hg;
        apply andb_false_iff; rewrite Z.leb_gt, Z.ltb_ge; lia. }
    zbool. unfold MAX_SCALE in *.
    assert (Hsg : as_signed 64 (mantissa a * mantissa b) = mantissa a * mantissa b).
    { rewrite <- (as_signed_unsigned 64 (mantissa a * mantissa b)) at 2 by lia.
      unfold as_signed, as_unsigned. by rewrite Z.mod_mod by lia. }
    rewrite Hsg. split; [apply decimal_wf_iff; simpl; lia|]. split; [done|].
    apply to_Q_mul; lia.
Qed.

(** An operand at the common scale of a division. *)
Definition at_scale (d : Decimal) (s : Z) : Z := mantissa d * 10 ^ (s - scale d).

Lemma rescale_mantissa_ok d s :
  decimal_wf d = true -> scale d <= s <= 18 ->
  rescale_mantissa (mantissa d) (scale d) s = Ok (at_scale d s) /\
  Z.abs (at_scale d s) < 2 ^ 126 /\ (at_scale d s = 0 -> mantissa d = 0).
Proof.
  intros Hd Hs. apply decimal_wf_iff in Hd. unfold rescale_mantissa, at_scale.
  pose proof (pow10_bound (s - scale d) 18 ltac:(lia)) as Hp.
  set (p := 10 ^ (s - scale d)) in *. clearbody p.
  assert (Hb : Z.abs (mantissa d * p) <= 2 ^ 63 * 10 ^ 18).
  { rewrite Z.abs_mul. apply Z.mul_le_mono_nonneg; lia. }
  destruct (Z.ltb_spec s (scale d)); [lia|].
  rewrite arith_bind by fits. unfold checked.
  replace (in_i128 (mantissa d * p)) with true by (symmetry; fits).
  repeat split; [lia|]. intros H0. apply Z.mul_eq_0 in H0 as [?|?]; lia.
Qed.

Lemma to_Q_at_scale d s :
  0 <= scale d <= s -> (to_Q d == at_scale d s # pow10 s)%Q.
Proof.
  intros Hs. unfold to_Q, Qeq, at_scale. cbn [Qnum Qden].
  rewrite !pow10_Z by lia. replace s with (scale d + (s - scale d)) at 1 by lia.
  rewrite Z.pow_add_r by lia. ring.
Qed.

Lemma Qdiv_same_den A B P :
  B <> 0 -> ((A # P) / (B # P) == (A * Z.sgn B # Z.to_pos (Z.abs B)))%Q.
Proof.
  intros HB. destruct B as [|B|B]; [done| |]; unfold Qdiv, Qinv, Qmult, Qeq; simpl;
    rewrite ?Pos2Z.inj_mul; lia.
Qed.

Lemma Qdiff_bound q A P B :
  2 * Z.abs (q * Z.pos B - A * Z.pos P) <= Z.pos B ->
  (Qabs ((q # P) - (A # B)) <= 1 # (2 * P))%Q.
Proof.
  intros H. apply Qabs_Qle_condition.
  unfold Qle, Qminus, Qplus, Qopp; cbn [Qnum Qden]; rewrite !Pos2Z.inj_mul.
  split; nia.
Qed.

(** Division returns, at the larger of the two scales, the
    quotient rounded to the nearest unit in the last place, ties away from
    zero (hence within half a unit of the exact rational); the errors are
    exactly division by zero, a scaled numerator beyond [i128] and a rounded
    mantissa beyond [i64]; nothing panics. *)
Theorem decimal_div_correct a b :
  decimal_wf a = true -> decimal_wf b = true ->
  let s := Z.max (scale a) (scale b) in
  let num := at_scale a s * 10 ^ s in
  let den := at_scale b s in
  match div a b with
  | Ok c => mantissa b <> 0 /\ decimal_wf c = true /\ scale c = s /\
            rounds num den (mantissa c) /\
            (Qabs (to_Q c - to_Q a / to_Q b) <= 1 # (2 * pow10 s))%Q
  | Err _ => mantissa b = 0 \/ in_i128 num = false \/
             (forall q, rounds num den q -> in_i64 q = false)
  | Panic => False
  end.
Proof.
  intros Ha Hb s num den. pose proof Ha as Ha'. pose proof Hb as Hb'.
  apply decimal_wf_iff in Ha', Hb'. unfold div. fold s.
  destruct (Z.eqb_spec (mantissa b) 0); [by left|].
  destruct (rescale_mantissa_ok a s Ha ltac:(lia)) as (-> & HA & _).
  destruct (rescale_mantissa_ok b s Hb ltac:(lia)) as (-> & HB & HB0).
  fold den in HB, HB0. cbn [mbind outcome_bind].
  pose proof (pow10_bound s 18 ltac:(lia)) as Hp.
  rewrite arith_bind by fits. fold num den. unfold checked.
  destruct (in_i128 num) eqn:Hnum; cbn [ok_or mbind outcome_bind]; [|by right; left].
  assert (Hlow : num <> - 2 ^ 127).
  { destruct (Z.eq_dec s 0) as [Hs0|Hs0].
    - unfold num, at_scale. rewrite Hs0. replace (scale a) with 0 by lia. simpl. lia.
    - unfold num. replace s with (1 + (s - 1)) at 2 by lia. rewrite Z.pow_add_r by lia. lia. }
  destruct (div_round_correct num den) as (q & -> & Hq).
  { unfold in_i128 in Hnum. zbool. lia. }
  { lia. }
  cbn [mbind outcome_bind].
  destruct (in_i64 q) eqn:Hq64; cbn [ok_or mbind outcome_bind].
  2: { right; right. intros q' Hq'. assert (q' = q) as -> by (apply (rounds_unique num den); [lia|done|done]). done. }
  unfold in_i64 in Hq64. zbool.
  split; [done|]. split; [apply decimal_wf_iff; simpl; lia|]. split; [done|]. split; [done|].
  cbn [mantissa]. unfold to_Q at 1. cbn [mantissa scale].
  rewrite (to_Q_at_scale a s), (to_Q_at_scale b s), Qdiv_same_den by (fold den; lia).
  fold den. apply Qdiff_bound. destruct Hq as [Hq _].
  rewrite Z2Pos.id, pow10_Z by lia. unfold num in Hq.
  destruct (Z.sgn_spec den) as [[? Hsg]|[[? Hsg]|[? Hsg]]]; rewrite Hsg; [|lia|].
  - rewrite (Z.abs_eq den) in * by lia. lia.
  - rewrite (Z.abs_neq den) in * by lia. lia.
Qed.

Lemma decimal_arith_exact_witness :
  (to_Q (mkDecimal 579 2) == to_Q (mkDecimal 123 2) + to_Q (mkDecimal 456 2))%Q.
Proof.
  refine (proj2 (proj2 (proj1 (decimal_arith_exact (mkDecimal 123 2) (mkDecimal 456 2) _ _))));
    vm_compute; reflexivity.
Defined.

Lemma decimal_div_correct_witness : rounds (5 * 1) 2 3.
Proof.
  refine (proj1 (proj2 (proj2 (proj2
    (decimal_div_correct (mkDecimal 5 0) (mkDecimal 2 0) _ _))))); vm_compute; reflexivity.
Defined.
