(* ===== verification/Value.v ===== *)
(** Runtime values and their SQL comparison
    (crates/idb-core/src/types/value.rs).  Strings are their UTF-8 bytes. *)

From Stdlib Require Import ZArith QArith Lia List Bool.
From stdpp Require Import base list strings.
From S2P Require Import Prelude Common Decimal.
#[local] Open Scope Z_scope.

Inductive Value : Type :=
| VInt32 (n : Z)
| VInt64 (n : Z)
| VVarchar (s : bytes)
| VChar (s : bytes)
| VBytes (b : bytes)
| VDecimal (d : Decimal)
| VTimestamp (t : Z)
| VBoolean (b : bool)
| VNull
| VDate (days : Z).

#[global] Instance Value_eq_dec : EqDecision Value.
Proof. solve_decision. Defined.

Definition matches (v : Value) (ty : ColumnType) : bool :=
  match v, ty with
  | VNull, _ => true
  | VInt32 _, TInt32 => true
  | VInt64 _, TInt64 => true
  | VVarchar _, TVarchar _ => true
  | VChar _, TChar _ => true
  | VBytes _, TBytes _ => true
  | VDecimal d, TDecimal _ s => scale d =? s
  | VTimestamp _, TTimestamp => true
  | VBoolean _, TBoolean => true
  | VDate _, TDate => true
  | _, _ => false
  end.

Definition saturating_u16 (n : Z) : Z := Z.min n (2 ^ 16 - 1).

Definition type_of (v : Value) : option ColumnType :=
  match v with
  | VNull => None
  | VInt32 _ => Some TInt32
  | VInt64 _ => Some TInt64
  | VVarchar s => Some (TVarchar (saturating_u16 (len s)))
  | VChar s => Some (TChar (saturating_u16 (len s)))
  | VBytes b => Some (TBytes (saturating_u16 (len b)))
  | VDecimal d => Some (TDecimal MAX_PRECISION (scale d))
  | VTimestamp _ => Some TTimestamp
  | VBoolean _ => Some TBoolean
  | VDate _ => Some TDate
  end.

Definition pow10_i128 (s : Z) : result Z :=
  if s <=? MAX_SCALE then i128 (10 ^ s) else Panic.

Definition compare_decimals (a b : Decimal) : result comparison :=
  if scale a =? scale b then Ok (mantissa a ?= mantissa b) else
  pb ← pow10_i128 (scale b);
  lhs ← i128 (mantissa a * pb);
  pa ← pow10_i128 (scale a);
  rhs ← i128 (mantissa b * pa);
  Ok (lhs ?= rhs).

Definition compare_int_decimal (i : Z) (d : Decimal) : result comparison :=
  p ← pow10_i128 (scale d);
  lhs ← i128 (i * p);
  Ok (lhs ?= mantissa d).

Definition bool_cmp (a b : bool) : comparison :=
  match a, b with
  | false, true => Lt
  | true, false => Gt
  | _, _ => Eq
  end.

(** [matches!(v, Value::Null)] *)
Definition is_null (v : Value) : bool := match v with VNull => true | _ => false end.

Definition compare_sql (v w : Value) : result (option comparison) :=
  match v, w with
  | VNull, _ | _, VNull => Ok None
  | VInt32 a, VInt32 b => Ok (Some (a ?= b))
  | VInt64 a, VInt64 b => Ok (Some (a ?= b))
  | VInt32 a, VInt64 b => Ok (Some (a ?= b))
  | VInt64 a, VInt32 b => Ok (Some (a ?= b))
  | VVarchar a, VVarchar b => Ok (Some (bcmp a b))
  | VChar a, VChar b => Ok (Some (bcmp a b))
  | VVarchar a, VChar b => Ok (Some (bcmp a b))
  | VChar a, VVarchar b => Ok (Some (bcmp a b))
  | VBytes a, VBytes b => Ok (Some (bcmp a b))
  | VBoolean a, VBoolean b => Ok (Some (bool_cmp a b))
  | VTimestamp a, VTimestamp b => Ok (Some (a ?= b))
  | VDate a, VDate b => Ok (Some (a ?= b))
  | VDecimal a, VDecimal b => c ← compare_decimals a b; Ok (Some c)
  | VInt32 a, VDecimal d => c ← compare_int_decimal a d; Ok (Some c)
  | VInt64 a, VDecimal d => c ← compare_int_decimal a d; Ok (Some c)
  | VDecimal d, VInt32 b => c ← compare_int_decimal b d; Ok (Some (CompOpp c))
  | VDecimal d, VInt64 b => c ← compare_int_decimal b d; Ok (Some (CompOpp c))
  | _, _ => Ok None
  end.

(** The loop that strips trailing fractional zeros; it runs at most [scale]
    times, which bounds the recursion. *)
Fixpoint strip_zeros (fuel : nat) (m s : Z) : Z * Z :=
  match fuel with
  | O => (m, s)
  | S fuel =>
      if (0 <? s) && (Z.rem m 10 =? 0) then strip_zeros fuel (Z.quot m 10) (s - 1) else (m, s)
  end.

Definition join_key_normalized (v : Value) : result Value :=
  match v with
  | VInt32 a => Ok (VInt64 a)
  | VChar s => Ok (VVarchar s)
  | VDecimal d =>
      let '(m, s) := strip_zeros (Z.to_nat (scale d)) (mantissa d) (scale d) in
      if s =? 0 then Ok (VInt64 m) else d' ← from_i64_with_scale m s; Ok (VDecimal d')
  | other => Ok other
  end.

Definition int_to_decimal_exact (i s : Z) : result (option Value) :=
  match checked in_i64 (10 ^ s) with
  | None => Ok None
  | Some p =>
      match checked in_i64 (i * p) with
      | None => Ok None
      | Some m => d ← from_i64_with_scale m s; Ok (Some (VDecimal d))
      end
  end.

Definition decimal_to_int_exact (d : Decimal) : result (option Z) :=
  divisor ← @arith Error in_i64 (10 ^ scale d);
  if Z.rem (mantissa d) divisor =? 0 then Ok (Some (Z.quot (mantissa d) divisor)) else Ok None.

Definition rescale_decimal_exact (d : Decimal) (s : Z) : result (option Value) :=
  if scale d <? s then
    match checked in_i64 (10 ^ (s - scale d)) with
    | None => Ok None
    | Some factor =>
        match checked in_i64 (mantissa d * factor) with
        | None => Ok None
        | Some m => d' ← from_i64_with_scale m s; Ok (Some (VDecimal d'))
        end
    end
  else
    factor ← @arith Error in_i64 (10 ^ (scale d - s));
    if Z.rem (mantissa d) factor =? 0
    then d' ← from_i64_with_scale (Z.quot (mantissa d) factor) s; Ok (Some (VDecimal d'))
    else Ok None.

Definition coerce_exact (v : Value) (ty : ColumnType) : result (option Value) :=
  match v, ty with
  | VInt64 n, TInt32 => Ok (option_map VInt32 (checked in_i32 n))
  | VInt32 n, TInt64 => Ok (Some (VInt64 n))
  | VInt32 n, TDecimal _ s => int_to_decimal_exact n s
  | VInt64 n, TDecimal _ s => int_to_decimal_exact n s
  | VDecimal d, TInt32 =>
      o ← decimal_to_int_exact d;
      Ok (match o with Some n => option_map VInt32 (checked in_i32 n) | None => None end)
  | VDecimal d, TInt64 => o ← decimal_to_int_exact d; Ok (option_map VInt64 o)
  | VDecimal d, TDecimal _ s =>
      if negb (scale d =? s) then rescale_decimal_exact d s
      else Ok (if matches v ty then Some v else None)
  | VVarchar s, TChar _ => Ok (Some (VChar s))
  | VChar s, TVarchar _ => Ok (Some (VVarchar s))
  | _, _ => Ok (if matches v ty then Some v else None)
  end.

(** ** Well-formed values: machine ranges, valid decimals, valid UTF-8. *)

Definition value_wf (v : Value) : bool :=
  match v with
  | VInt32 n | VDate n => in_i32 n
  | VInt64 n | VTimestamp n => in_i64 n
  | VVarchar s | VChar s => utf8_valid s
  | VDecimal d => decimal_wf d
  | _ => true
  end.

Definition type_wf (ty : ColumnType) : bool :=
  match ty with
  | TVarchar n | TChar n | TBytes n => in_u16 n
  | TDecimal p s => in_u8 p && (0 <=? s) && (s <=? MAX_SCALE)
  | _ => true
  end.

Example int_equals_decimal :
  compare_sql (VInt32 5) (VDecimal (mkDecimal 500 2)) = Ok (Some Eq) /\
  join_key_normalized (VInt32 5) = join_key_normalized (VDecimal (mkDecimal 500 2)).
Proof. split; reflexivity. Qed.

(** ** Specification

    What a value denotes for SQL comparison: the numeric types share the
    rationals and the two string types share one domain; everything else
    compares only within its own type, and NULL with nothing. *)

Inductive SqlKey :=
| KNull
| KNum (q : Q)
| KText (s : bytes)
| KBytes (b : bytes)
| KTime (t : Z)
| KBool (b : bool)
| KDay (d : Z).

Definition denote (v : Value) : SqlKey :=
  match v with
  | VInt32 n | VInt64 n => KNum (inject_Z n)
  | VDecimal d => KNum (to_Q d)
  | VVarchar s | VChar s => KText s
  | VBytes b => KBytes b
  | VTimestamp t => KTime t
  | VBoolean b => KBool b
  | VNull => KNull
  | VDate d => KDay d
  end.

Definition key_cmp (k l : SqlKey) : option comparison :=
  match k, l with
  | KNum p, KNum q => Some (Qcompare p q)
  | KText a, KText b | KBytes a, KBytes b => Some (bcmp a b)
  | KTime a, KTime b | KDay a, KDay b => Some (a ?= b)
  | KBool a, KBool b => Some (bool_cmp a b)
  | _, _ => None
  end.

Lemma i128_pow s : 0 <= s <= 18 -> pow10_i128 s = Ok (10 ^ s).
Proof.
  intros Hs. unfold pow10_i128, MAX_SCALE. pose proof (pow10_bound s 18 Hs).
  zcase. apply arith_Ok. split; [fits|done].
Qed.

Lemma i128_mul_pow m s :
  - 2 ^ 63 <= m < 2 ^ 63 -> 0 <= s <= 18 -> i128 (m * 10 ^ s) = Ok (m * 10 ^ s).
Proof.
  intros Hm Hs. pose proof (pow10_bound s 18 Hs).
  assert (- (2 ^ 63 * 10 ^ 18) <= m * 10 ^ s <= 2 ^ 63 * 10 ^ 18) by nia.
  apply arith_Ok. split; [fits|done].
Qed.

Lemma compare_int_decimal_correct n d :
  - 2 ^ 63 <= n < 2 ^ 63 -> decimal_wf d = true ->
  compare_int_decimal n d = Ok (Qcompare (inject_Z n) (to_Q d)).
Proof.
  intros Hn Hd. apply decimal_wf_iff in Hd. unfold compare_int_decimal.
  rewrite i128_pow by lia. cbn. rewrite i128_mul_pow by lia. cbn.
  unfold Qcompare, to_Q. cbn [Qnum Qden inject_Z]. rewrite pow10_Z by lia.
  by rewrite Z.mul_1_r.
Qed.

Lemma compare_decimals_correct a b :
  decimal_wf a = true -> decimal_wf b = true ->
  compare_decimals a b = Ok (Qcompare (to_Q a) (to_Q b)).
Proof.
  intros Ha Hb. apply decimal_wf_iff in Ha, Hb. unfold compare_decimals, Qcompare, to_Q.
  cbn [Qnum Qden]. rewrite !pow10_Z by lia. zcase.
  - f_equal. replace (scale b) with (scale a) by lia.
    apply Zmult_compare_compat_r. pose proof (pow10_bound (scale a) 18). lia.
  - rewrite !i128_pow by lia. cbn. rewrite i128_mul_pow by lia. cbn.
    rewrite i128_mul_pow by lia. reflexivity.
Qed.

Lemma compare_sql_denote v w :
  value_wf v = true -> value_wf w = true ->
  compare_sql v w = Ok (key_cmp (denote v) (denote w)).
Proof.
  intros Hv Hw. destruct v, w; cbn in *; try reflexivity;
    repeat f_equal;
    unfold in_i32, in_i64 in *; zbool;
    try (rewrite compare_int_decimal_correct by (done || lia); cbn);
    try (rewrite compare_decimals_correct by done; cbn);
    try (unfold Qcompare; cbn [Qnum Qden inject_Z]; rewrite ?Z.mul_1_r; reflexivity).
  all: rewrite Qcompare_antisym; reflexivity.
Qed.

Lemma key_cmp_sym k l : key_cmp l k = option_map CompOpp (key_cmp k l).
Proof.
  destruct k, l; cbn; try done; f_equal;
    first [apply bcmp_antisym | apply Z.compare_antisym
          | destruct b, b0; reflexivity].
Qed.

Lemma Qcompare_then p q r c1 c2 :
  Qcompare p q = c1 -> Qcompare q r = c2 -> c1 <> Gt -> c2 <> Gt ->
  Qcompare p r = then_cmp c1 c2.
Proof.
  intros H1 H2 N1 N2. destruct c1, c2; try done; cbn.
  - rewrite <- Qeq_alt in *. by rewrite H1.
  - rewrite <- Qeq_alt in *. rewrite <- Qlt_alt in *. by rewrite H1.
  - rewrite <- Qeq_alt in *. rewrite <- Qlt_alt in *. by rewrite <- H2.
  - rewrite <- Qlt_alt in *. by apply Qlt_trans with q.
Qed.

Lemma bcmp_then a b c c1 c2 :
  bcmp a b = c1 -> bcmp b c = c2 -> c1 <> Gt -> c2 <> Gt -> bcmp a c = then_cmp c1 c2.
Proof.
  intros H1 H2 N1 N2. destruct c1, c2; try done; cbn;
    rewrite ?bcmp_eq in *; subst; try done; by apply blt_trans with b.
Qed.

Lemma Zcompare_then a b c c1 c2 :
  (a ?= b) = c1 -> (b ?= c) = c2 -> c1 <> Gt -> c2 <> Gt -> (a ?= c) = then_cmp c1 c2.
Proof.
  intros H1 H2 N1 N2. destruct c1, c2; try done; cbn;
    rewrite ?Z.compare_eq_iff, ?Z.compare_lt_iff in *; lia.
Qed.

Lemma key_cmp_then k l m c1 c2 :
  key_cmp k l = Some c1 -> key_cmp l m = Some c2 -> c1 <> Gt -> c2 <> Gt ->
  key_cmp k m = Some (then_cmp c1 c2).
Proof.
  intros H1 H2. destruct k, l; try discriminate; destruct m; try discriminate;
    cbn in *; injection H1 as H1; injection H2 as H2; intros N1 N2; f_equal;
    first [by eapply Qcompare_then | by eapply bcmp_then | by eapply Zcompare_then
          | by destruct b, b0, b1; simplify_eq].
Qed.

(** *** Trailing zeros *)

Lemma strip_zeros_spec fuel m s m' s' :
  0 <= s -> (Z.to_nat s <= fuel)%nat -> strip_zeros fuel m s = (m', s') ->
  0 <= s' <= s /\ m = m' * 10 ^ (s - s') /\ (s' = 0 \/ Z.rem m' 10 <> 0).
Proof.
  revert m s; induction fuel as [|fuel IH]; intros m s Hs Hf; cbn.
  - intros [= <- <-]. rewrite Z.sub_diag. lia.
  - destruct (_ && _) eqn:G.
    + zbool. intros Hr. apply IH in Hr as (? & Hm & ?); [|lia..].
      pose proof (Z.quot_rem' m 10). split_and!; [lia..| |done].
      replace (s - s') with ((s - 1 - s') + 1) by lia.
      rewrite Z.pow_add_r, Z.pow_1_r by lia. lia.
    + intros [= <- <-]. rewrite Z.sub_diag. apply andb_false_iff in G. split_and!; try lia.
Qed.

(** The normal forms: one value for each comparison class. *)
Definition canonical (v : Value) : bool :=
  match v with
  | VInt32 _ | VChar _ => false
  | VDecimal d => (0 <? scale d) && negb (Z.rem (mantissa d) 10 =? 0)
  | _ => true
  end.

Lemma join_key_normalized_spec v :
  value_wf v = true ->
  exists v', join_key_normalized v = Ok v' /\ canonical v' = true /\
             (v <> VNull -> key_cmp (denote v) (denote v') = Some Eq).
Proof.
  intros Hwf. destruct v as [n|n|s|s|b|d|t|b| |d]; cbn in *;
    try (eexists; split_and!; [done..|]; intros _; cbn; f_equal;
         first [apply bcmp_refl | apply Z.compare_refl | by destruct b]); [|by eexists].
  apply decimal_wf_iff in Hwf. destruct (strip_zeros _ _ _) as [m s] eqn:Hst.
  apply strip_zeros_spec in Hst as (Hs & Hm & Hz); [|lia..]. zcase.
  - eexists; split_and!; [done..|]. intros _. cbn. f_equal. rewrite <- Qeq_alt.
    unfold Qeq, to_Q. cbn [Qnum Qden inject_Z]. rewrite pow10_Z, Hm by lia.
    replace (scale d - s) with (scale d) by lia. lia.
  - unfold from_i64_with_scale, MAX_SCALE. zcase. eexists; split_and!; [done| |].
    + cbn. repeat zcase; lia || done.
    + intros _. cbn. f_equal. rewrite <- Qeq_alt. unfold Qeq, to_Q. cbn [Qnum Qden scale mantissa].
      rewrite !pow10_Z by lia. rewrite Hm.
      replace (scale d) with ((scale d - s) + s) at 2 by lia. rewrite Z.pow_add_r by lia. lia.
Qed.

Lemma pow10_divides m k : 0 < k -> Z.rem (m * 10 ^ k) 10 = 0.
Proof.
  intros Hk. replace k with (k - 1 + 1) by lia. rewrite Z.pow_add_r, Z.pow_1_r, Z.mul_assoc by lia.
  apply Z.rem_mul. lia.
Qed.

Lemma scale_le_of_eq m1 s1 m2 s2 :
  0 <= s1 -> 0 <= s2 -> Z.rem m2 10 <> 0 -> m1 * 10 ^ s2 = m2 * 10 ^ s1 -> s2 <= s1.
Proof.
  intros H1 H2 Hr He. destruct (Z.le_gt_cases s2 s1); [done|exfalso]. apply Hr.
  replace m2 with (m1 * 10 ^ (s2 - s1)); [apply pow10_divides; lia|].
  pose proof (pow10_bound s1 s1 ltac:(lia)).
  apply Z.mul_cancel_r with (10 ^ s1); [lia|]. rewrite <- He.
  replace s2 with (s2 - s1 + s1) at 2 by lia. rewrite Z.pow_add_r by lia. lia.
Qed.

Lemma canonical_unique v w :
  canonical v = true -> canonical w = true ->
  key_cmp (denote v) (denote w) = Some Eq -> v = w.
Proof.
  intros Hv Hw. destruct v, w; cbn in *; try discriminate; intros [= He];
    rewrite ?bcmp_eq, ?Z.compare_eq_iff in He; subst; try done;
    try (by destruct b, b0);
    apply Qeq_alt in He; unfold Qeq, to_Q in He; cbn [Qnum Qden inject_Z] in He;
    repeat match goal with H : _ && negb _ = true |- _ =>
      apply andb_true_iff in H as [?%Z.ltb_lt ?%negb_true_iff%Z.eqb_neq] end;
    rewrite ?pow10_Z in He by lia.
  - f_equal. lia.
  - exfalso. pose proof (scale_le_of_eq n 0 (mantissa d) (scale d)). rewrite Z.pow_0_r in *. lia.
  - exfalso. pose proof (scale_le_of_eq n 0 (mantissa d) (scale d)). rewrite Z.pow_0_r in *. lia.
  - pose proof (scale_le_of_eq (mantissa d) (scale d) (mantissa d0) (scale d0)).
    pose proof (scale_le_of_eq (mantissa d0) (scale d0) (mantissa d) (scale d)).
    destruct d as [m s], d0 as [m' s']; cbn in *. assert (s = s') as <- by lia.
    apply Z.mul_cancel_r in He as ->; [done|]. pose proof (pow10_bound s s). lia.
Qed.

(** *** Exact conversions

    [exact_at m0 s0 s o]: [o] is the decimal of scale [s] equal to
    [m0 / 10^s0], and is [None] only when no [i64] mantissa gives one. *)

Definition exact_at (m0 s0 s : Z) (o : option Value) : Prop :=
  match o with
  | Some w => exists m, w = VDecimal (mkDecimal m s) /\ in_i64 m = true /\ m * 10 ^ s0 = m0 * 10 ^ s
  | None => forall m, in_i64 m = true -> m * 10 ^ s0 <> m0 * 10 ^ s
  end.

Lemma in_i64_pow s : 0 <= s <= 18 -> in_i64 (10 ^ s) = true.
Proof. intros. pose proof (pow10_bound s 18 ltac:(lia)). fits. Qed.

Lemma quot_in_i64 m p :
  - 2 ^ 63 <= m < 2 ^ 63 -> 1 <= p -> Z.rem m p = 0 -> in_i64 (Z.quot m p) = true.
Proof.
  intros Hm Hp Hr. pose proof (Z.quot_rem' m p) as Hqr. rewrite Hr in Hqr.
  set (q := Z.quot m p) in *. assert (- 2 ^ 63 <= q < 2 ^ 63) by nia. fits.
Qed.

Lemma from_i64_ok m s : s <= 18 -> from_i64_with_scale m s = Ok (mkDecimal m s).
Proof. intros. unfold from_i64_with_scale, MAX_SCALE. by zcase. Qed.

Lemma int_to_decimal_exact_spec n s :
  0 <= s <= 18 -> exists o, int_to_decimal_exact n s = Ok o /\ exact_at n 0 s o.
Proof.
  intros Hs. unfold int_to_decimal_exact, checked. rewrite in_i64_pow by lia.
  destruct (in_i64 (n * 10 ^ s)) eqn:Hm.
  - rewrite from_i64_ok by lia. eexists; split; [done|]. cbn. eexists; split_and!; [done..|]. lia.
  - eexists; split; [done|]. cbn. intros m Hm' He. rewrite Z.mul_1_r in He. congruence.
Qed.

Lemma decimal_to_int_exact_spec d :
  decimal_wf d = true ->
  exists o, decimal_to_int_exact d = Ok o /\
    match o with
    | Some n => in_i64 n = true /\ n * 10 ^ scale d = mantissa d
    | None => forall n, n * 10 ^ scale d <> mantissa d
    end.
Proof.
  intros Hd. apply decimal_wf_iff in Hd. unfold decimal_to_int_exact.
  rewrite arith_bind by (apply in_i64_pow; lia). cbv beta.
  pose proof (pow10_bound (scale d) 18 ltac:(lia)).
  pose proof (Z.quot_rem' (mantissa d) (10 ^ scale d)) as Hqr. zcase.
  - eexists; split; [done|]. cbn. split; [|lia].
    apply (quot_in_i64 (mantissa d) (10 ^ scale d)); lia.
  - eexists; split; [done|]. cbn. intros n' He. apply n. rewrite <- He. apply Z.rem_mul. lia.
Qed.

Lemma rescale_decimal_exact_spec d s :
  decimal_wf d = true -> 0 <= s <= 18 ->
  exists o, rescale_decimal_exact d s = Ok o /\ exact_at (mantissa d) (scale d) s o.
Proof.
  intros Hd Hs. apply decimal_wf_iff in Hd. unfold rescale_decimal_exact. zcase.
  - unfold checked. rewrite in_i64_pow by lia.
    assert (E : 10 ^ s = 10 ^ (s - scale d) * 10 ^ scale d)
      by (rewrite <- Z.pow_add_r by lia; f_equal; lia).
    pose proof (pow10_bound (scale d) 18 ltac:(lia)).
    destruct (in_i64 (mantissa d * 10 ^ (s - scale d))) eqn:Hm.
    + rewrite from_i64_ok by lia. eexists; split; [done|]. cbn. eexists; split_and!; [done..|]. lia.
    + eexists; split; [done|]. cbn. intros m Hm' He. rewrite E, Z.mul_assoc in He.
      apply Z.mul_cancel_r in He; [congruence|lia].
  - rewrite arith_bind by (apply in_i64_pow; lia). cbv beta.
    assert (E : 10 ^ scale d = 10 ^ (scale d - s) * 10 ^ s)
      by (rewrite <- Z.pow_add_r by lia; f_equal; lia).
    pose proof (pow10_bound (scale d - s) 18 ltac:(lia)). pose proof (pow10_bound s 18 Hs).
    pose proof (Z.quot_rem' (mantissa d) (10 ^ (scale d - s))). zcase.
    + rewrite from_i64_ok by lia. eexists; split; [done|]. cbn.
      eexists; split_and!; [done|apply quot_in_i64; lia|]. rewrite E. lia.
    + eexists; split; [done|]. cbn. intros m Hm' He. rewrite E, Z.mul_assoc in He.
      apply Z.mul_cancel_r in He; [|lia]. apply n. rewrite <- He. apply Z.rem_mul. lia.
Qed.

(** [converts v ty o]: [o] is a well-formed value of type [ty] that compares
    equal to [v], and is [None] only when there is none. *)
Definition converts (v : Value) (ty : ColumnType) (o : option Value) : Prop :=
  match o with
  | Some w => value_wf w = true /\ matches w ty = true /\ key_cmp (denote v) (denote w) = Some Eq
  | None => forall w, value_wf w = true -> matches w ty = true ->
                      key_cmp (denote v) (denote w) <> Some Eq
  end.

Lemma Some_Eq_inj (p q : Q) : Some (Qcompare p q) = Some Eq <-> (p == q)%Q.
Proof. rewrite Qeq_alt. split; congruence. Qed.

Lemma exact_at_converts v m0 s0 p s o :
  0 <= s0 <= 18 -> 0 <= s <= 18 -> denote v = KNum (m0 # pow10 s0) ->
  exact_at m0 s0 s o -> converts v (TDecimal p s) o.
Proof.
  intros Hs0 Hs Hv. destruct o as [w|]; cbn.
  - intros (m & -> & Hm & He). cbn. rewrite Hv. cbn [key_cmp]. rewrite Some_Eq_inj, Z.eqb_refl.
    unfold decimal_wf, MAX_SCALE, Qeq, to_Q. cbn [mantissa scale Qnum Qden].
    rewrite Hm, !pow10_Z by lia. repeat zcase. lia.
  - intros Hno w Hw Hmt. rewrite Hv. destruct w; try done. cbn [denote key_cmp].
    rewrite Some_Eq_inj. cbn in Hw, Hmt. zbool. subst s. unfold Qeq, to_Q. cbn [Qnum Qden].
    rewrite !pow10_Z by lia. intros He. apply (Hno (mantissa d)); [|lia].
    apply decimal_wf_iff in Hw. fits.
Qed.

Lemma int32_converts v q n :
  denote v = KNum q -> (q == inject_Z n)%Q ->
  converts v TInt32 (option_map VInt32 (checked in_i32 n)).
Proof.
  intros Hv Hq. unfold checked. destruct (in_i32 n) eqn:Hn; cbn.
  - rewrite Hv. cbn. by rewrite Some_Eq_inj.
  - intros w Hw Hm. destruct w; try done; rewrite Hv; cbn in *; [|done].
    rewrite Some_Eq_inj, Hq, inject_Z_injective. congruence.
Qed.

Lemma int64_converts v q n :
  denote v = KNum q -> (q == inject_Z n)%Q -> in_i64 n = true -> converts v TInt64 (Some (VInt64 n)).
Proof. intros Hv Hq Hn. cbn. rewrite Hv. cbn. by rewrite Some_Eq_inj. Qed.

Lemma not_int_converts v q ty :
  denote v = KNum q -> (forall n, ~ (q == inject_Z n)%Q) -> ty = TInt32 \/ ty = TInt64 ->
  converts v ty None.
Proof.
  intros Hv Hq [-> | ->]; cbn; intros w Hw Hm; destruct w; try done; rewrite Hv; cbn; try done;
    rewrite Some_Eq_inj; apply Hq.
Qed.

Lemma to_Q_int d n :
  0 <= scale d -> (to_Q d == inject_Z n)%Q <-> n * 10 ^ scale d = mantissa d.
Proof. intros Hs. unfold Qeq, to_Q. cbn [Qnum Qden inject_Z]. rewrite pow10_Z by lia. lia. Qed.

(** Conversions that leave the representation alone. *)
Definition same_family (v : Value) (ty : ColumnType) : bool :=
  match v, ty with
  | (VInt32 _ | VInt64 _ | VDecimal _), (TInt32 | TInt64 | TDecimal _ _) => true
  | (VVarchar _ | VChar _), (TVarchar _ | TChar _) => true
  | _, _ => false
  end.

Lemma key_cmp_refl v : v <> VNull -> key_cmp (denote v) (denote v) = Some Eq.
Proof.
  destruct v; intros; try done; cbn; f_equal;
    first [apply bcmp_refl | apply Z.compare_refl | by destruct b].
Qed.

Lemma same_converts v ty :
  value_wf v = true -> v <> VNull -> (same_family v ty = true -> matches v ty = true) ->
  converts v ty (if matches v ty then Some v else None).
Proof.
  intros Hv Hn Hx. destruct (matches v ty) eqn:Hm; cbn.
  - split_and!; [done..|]. by apply key_cmp_refl.
  - intros w Hw Hmw. destruct v, ty; try done; destruct w; cbn in *; try done;
      by discriminate Hx.
Qed.

Lemma coerce_exact_spec v ty :
  value_wf v = true -> type_wf ty = true -> v <> VNull ->
  exists o, coerce_exact v ty = Ok o /\ converts v ty o.
Proof.
  intros Hv Hty Hn.
  assert (Hs : forall p s, ty = TDecimal p s -> 0 <= s <= 18).
  { intros p s ->. cbn in Hty. unfold MAX_SCALE in *. zbool. lia. }
  pose proof (same_converts v ty Hv Hn) as Same.
  destruct v as [n|n|s|s|b|d|t|b| |d]; [..|done|];
    destruct ty as [| |k|k|k|p s'| | |]; cbn [coerce_exact];
    try (eexists; split; [reflexivity|]; first [by apply Same | by eapply int32_converts]);
    try specialize (Hs _ _ eq_refl); cbn in Hv.
  - eexists; split; [done|]. eapply int64_converts; [done..|]. unfold in_i32 in Hv. zbool. fits.
  - destruct (int_to_decimal_exact_spec n s' Hs) as (o & -> & Ho). eexists; split; [done|].
    by eapply (exact_at_converts _ n 0).
  - destruct (int_to_decimal_exact_spec n s' Hs) as (o & -> & Ho). eexists; split; [done|].
    by eapply (exact_at_converts _ n 0).
  - eexists; split; [done|]. cbn. by rewrite Hv, bcmp_refl.
  - eexists; split; [done|]. cbn. by rewrite Hv, bcmp_refl.
  - destruct (decimal_to_int_exact_spec d Hv) as (o & -> & Ho). apply decimal_wf_iff in Hv.
    eexists; split; [done|]. destruct o as [n|].
    + eapply int32_converts; [done|]. apply to_Q_int; [lia|]. by destruct Ho.
    + eapply not_int_converts; [done| |by left]. intros n. rewrite to_Q_int by lia. apply Ho.
  - destruct (decimal_to_int_exact_spec d Hv) as (o & -> & Ho). apply decimal_wf_iff in Hv.
    eexists; split; [done|]. destruct o as [n|].
    + destruct Ho. eapply int64_converts; [done| |done]. by apply to_Q_int; [lia|].
    + eapply not_int_converts; [done| |by right]. intros n. rewrite to_Q_int by lia. apply Ho.
  - destruct (Z.eqb_spec (scale d) s') as [<-|Hne]; cbn [negb].
    + eexists; split; [done|]. apply Same. intros _. apply Z.eqb_refl.
    + destruct (rescale_decimal_exact_spec d s' Hv Hs) as (o & -> & Ho). apply decimal_wf_iff in Hv.
      eexists; split; [done|]. eapply (exact_at_converts _ (mantissa d) (scale d)); [lia|lia|done..].
Qed.

Lemma join_keys_equal v w :
  value_wf v = true -> value_wf w = true -> v <> VNull -> w <> VNull ->
  exists kv kw, join_key_normalized v = Ok kv /\ join_key_normalized w = Ok kw /\
    (kv = kw <-> compare_sql v w = Ok (Some Eq)).
Proof.
  intros Hv Hw Nv Nw.
  destruct (join_key_normalized_spec v Hv) as (kv & -> & Cv & Ev).
  destruct (join_key_normalized_spec w Hw) as (kw & -> & Cw & Ew).
  exists kv, kw. split_and!; [done..|]. rewrite compare_sql_denote by done.
  specialize (Ev Nv). specialize (Ew Nw).
  assert (Ew' : key_cmp (denote kw) (denote w) = Some Eq) by (by rewrite key_cmp_sym, Ew).
  assert (Ev' : key_cmp (denote kv) (denote v) = Some Eq) by (by rewrite key_cmp_sym, Ev).
  split.
  - intros <-. f_equal. by apply (key_cmp_then _ _ _ Eq Eq Ev).
  - intros [= H]. apply canonical_unique; [done..|].
    apply (key_cmp_then _ (denote v) _ Eq Eq); [done| |done..].
    by apply (key_cmp_then _ (denote w) _ Eq Eq).
Qed.

(** ** Theorems *)

(** [compare_sql] never overflows on well-formed values and compares what
    they denote: numbers of any representation as rationals, CHAR and VARCHAR
    as one string domain, everything else within its own type; the comparison
    is antisymmetric and transitive, so sorting by it is well defined. *)
Theorem compare_sql_correct u v w :
  value_wf u = true -> value_wf v = true -> value_wf w = true ->
  compare_sql u v = Ok (key_cmp (denote u) (denote v)) /\
  (forall c, compare_sql u v = Ok (Some c) -> compare_sql v u = Ok (Some (CompOpp c))) /\
  (forall c1 c2, c1 <> Gt -> c2 <> Gt ->
     compare_sql u v = Ok (Some c1) -> compare_sql v w = Ok (Some c2) ->
     compare_sql u w = Ok (Some (then_cmp c1 c2))).
Proof.
  intros Hu Hv Hw. rewrite !compare_sql_denote by done. split_and!; [done| |].
  - intros c [= H]. by rewrite key_cmp_sym, H.
  - intros c1 c2 N1 N2 [= H1] [= H2]. f_equal. by eapply key_cmp_then.
Qed.

Lemma compare_sql_correct_witness :
  compare_sql (VInt64 1) (VDecimal (mkDecimal 150 2)) = Ok (Some Lt) /\
  compare_sql (VInt64 1) (VInt32 2) = Ok (Some Lt).
Proof.
  destruct (compare_sql_correct (VInt64 1) (VDecimal (mkDecimal 150 2)) (VInt32 2)
              eq_refl eq_refl eq_refl) as (H1 & _ & H3).
  split; [exact H1|]. apply (H3 Lt Lt); done.
Defined.

(** Two non-NULL values have the same join key exactly when SQL comparison
    says they are equal, so hashing by the join key finds the same matches as
    comparing. *)
Theorem join_key_iff_equal v w :
  value_wf v = true -> value_wf w = true -> v <> VNull -> w <> VNull ->
  exists kv kw, join_key_normalized v = Ok kv /\ join_key_normalized w = Ok kw /\
    (kv = kw <-> compare_sql v w = Ok (Some Eq)).
Proof. apply join_keys_equal. Qed.

Lemma join_key_iff_equal_witness :
  exists kv kw, join_key_normalized (VInt32 5) = Ok kv /\
    join_key_normalized (VDecimal (mkDecimal 500 2)) = Ok kw /\
    (kv = kw <-> compare_sql (VInt32 5) (VDecimal (mkDecimal 500 2)) = Ok (Some Eq)).
Proof. apply join_key_iff_equal; done. Defined.

(** The comment's equivalence leaves NULL out: NULLs share a key and are never
    equal. *)
Lemma null_join_key :
  join_key_normalized VNull = Ok VNull /\ compare_sql VNull VNull = Ok None.
Proof. done. Qed.

(** [coerce_exact] is exact and complete: on a well-formed non-NULL value
    it returns a well-formed value of the target type that compares equal, and
    it returns nothing only when no value of the target type does. *)
Theorem coerce_exact_correct v ty :
  value_wf v = true -> type_wf ty = true -> v <> VNull ->
  exists o, coerce_exact v ty = Ok o /\
    match o with
    | Some w => value_wf w = true /\ matches w ty = true /\ compare_sql v w = Ok (Some Eq)
    | None => forall w, value_wf w = true -> matches w ty = true -> compare_sql v w <> Ok (Some Eq)
    end.
Proof.
  intros Hv Hty Hn. destruct (coerce_exact_spec v ty Hv Hty Hn) as (o & -> & Ho).
  exists o. split; [done|]. destruct o as [w|]; cbn in Ho.
  - destruct Ho as (Hw & Hm & He). by rewrite compare_sql_denote, He.
  - intros w Hw Hm. rewrite compare_sql_denote by done. intros [= He]. by apply (Ho w).
Qed.

Lemma coerce_exact_correct_witness :
  exists o, coerce_exact (VDecimal (mkDecimal 500 2)) TInt32 = Ok o /\
    match o with
    | Some w => value_wf w = true /\ matches w TInt32 = true /\
                compare_sql (VDecimal (mkDecimal 500 2)) w = Ok (Some Eq)
    | None => forall w, value_wf w = true -> matches w TInt32 = true ->
                compare_sql (VDecimal (mkDecimal 500 2)) w <> Ok (Some Eq)
    end.
Proof. apply coerce_exact_correct; done. Defined.
