(* ===== verification/KeyEnc.v ===== *)
(** Order-preserving composite keys (crates/idb-core/src/types/keyenc.rs).

    An encoder appends to the key built so far; a decoder returns the value
    and the number of bytes it consumed. *)

From Stdlib Require Import ZArith QArith Lia List Bool.
From coqutil Require Import Byte.
From stdpp Require Import base list strings.
From S2P Require Import Prelude Common Decimal Value.
#[local] Open Scope Z_scope.

Definition NULL_SENTINEL : Z := 0.
Definition PRESENT_SENTINEL : Z := 1.

Definition push (out : bytes) (b : Z) : bytes := out ++ [byte.of_Z b].

Definition INT32_SIGN_MASK : Z := Z.shiftl 1 31.
Definition INT64_SIGN_MASK : Z := Z.shiftl 1 63.

Definition encode_int32 (n : Z) (out : bytes) : bytes :=
  out ++ to_be_bytes 4 (Z.lxor (as_unsigned 32 n) INT32_SIGN_MASK).

Definition decode_int32 (b : bytes) : result (Z * Z) :=
  if len b <? 4 then Err (StorageCorrupted "decode_int32: need 4 bytes, got fewer") else
  raw ← slice 0 4 b;
  Ok (as_signed 32 (Z.lxor (from_be_bytes raw) INT32_SIGN_MASK), 4).

Definition encode_int64 (n : Z) (out : bytes) : bytes :=
  out ++ to_be_bytes 8 (Z.lxor (as_unsigned 64 n) INT64_SIGN_MASK).

Definition decode_int64 (b : bytes) : result (Z * Z) :=
  if len b <? 8 then Err (StorageCorrupted "decode_int64: need 8 bytes, got fewer") else
  raw ← slice 0 8 b;
  Ok (as_signed 64 (Z.lxor (from_be_bytes raw) INT64_SIGN_MASK), 8).

Definition encode_boolean (b : bool) (out : bytes) : bytes := push out (if b then 1 else 0).

Definition decode_boolean (b : bytes) : result (bool * Z) :=
  match b with
  | [] => Err (StorageCorrupted "decode_boolean: need 1 byte, got 0")
  | c :: _ =>
      if u8 c =? 0 then Ok (false, 1)
      else if u8 c =? 1 then Ok (true, 1)
      else Err (StorageCorrupted "decode_boolean: invalid byte")
  end.

Definition contains_nul (s : bytes) : bool := existsb (fun c => u8 c =? 0) s.

Definition encode_char (s : bytes) (target_len : Z) (out : bytes) : result bytes :=
  if contains_nul s
  then Err (StorageCorrupted "encode_char: embedded NUL byte not allowed in Char") else
  if target_len <? len s
  then Err (StorageCorrupted "encode_char: value length exceeds Char") else
  let pad := target_len - len s in
  Ok ((out ++ s) ++ replicate (Z.to_nat pad) (byte.of_Z 0)).

(** [raw.iter().rposition(|&b| b != 0).map_or(0, |i| i + 1)]: the length left
    once trailing NULs are dropped. *)
Fixpoint content_end (raw : bytes) : Z :=
  match raw with
  | [] => 0
  | c :: raw' =>
      let e := content_end raw' in
      if (e =? 0) && (u8 c =? 0) then 0 else 1 + e
  end.

Definition decode_char (b : bytes) (target_len : Z) : result (bytes * Z) :=
  if len b <? target_len then Err (StorageCorrupted "decode_char: need more bytes") else
  raw ← slice 0 target_len b;
  s ← slice 0 (content_end raw) raw;
  if utf8_valid s then Ok (s, target_len)
  else Err (StorageCorrupted "decode_char: invalid UTF-8").

Fixpoint escape_bytes (input out : bytes) : bytes :=
  match input with
  | [] => out
  | b :: input' =>
      escape_bytes input' (if u8 b =? 0 then push (push out 0) 255 else out ++ [b])
  end.

Definition encode_escaped (input out : bytes) : bytes :=
  push (push (escape_bytes input out) 0) 0.

(** The decoding loop at index [i], with [rest] the bytes from [i] on. *)
Fixpoint decode_escaped_loop (rest : bytes) (i : Z) (out : bytes) : result (bytes * Z) :=
  match rest with
  | [] => Err (StorageCorrupted "decode_escaped: missing terminator")
  | c :: rest' =>
      if u8 c =? 0 then
        match rest' with
        | [] => Err (StorageCorrupted "decode_escaped: truncated after 0x00")
        | d :: rest'' =>
            if u8 d =? 0 then Ok (out, i + 2)
            else if u8 d =? 255 then decode_escaped_loop rest'' (i + 2) (push out 0)
            else Err (StorageCorrupted "decode_escaped: invalid escape")
        end
      else decode_escaped_loop rest' (i + 1) (out ++ [c])
  end.

Definition decode_escaped (b : bytes) : result (bytes * Z) := decode_escaped_loop b 0 [].

Definition encode_one (v : Value) (ty : ColumnType) (out : bytes) : result bytes :=
  match v with
  | VNull => Ok (push out NULL_SENTINEL)
  | _ =>
      let out := push out PRESENT_SENTINEL in
      match v, ty with
      | VInt32 n, TInt32 => Ok (encode_int32 n out)
      | VDate days, TDate => Ok (encode_int32 days out)
      | VBoolean b, TBoolean => Ok (encode_boolean b out)
      | VInt64 n, TInt64 => Ok (encode_int64 n out)
      | VTimestamp t, TTimestamp => Ok (encode_int64 t out)
      | VDecimal d, TDecimal _ _ => Ok (encode_int64 (mantissa d) out)
      | VChar s, TChar n => encode_char s n out
      | VVarchar s, TVarchar _ => Ok (encode_escaped s out)
      | VBytes b, TBytes _ => Ok (encode_escaped b out)
      | _, _ => Err (StorageCorrupted "encode_one: type mismatch")
      end
  end.

Definition decode_body (ty : ColumnType) (body : bytes) : result (Value * Z) :=
  match ty with
  | TInt32 => '(n, c) ← decode_int32 body; Ok (VInt32 n, 1 + c)
  | TDate => '(n, c) ← decode_int32 body; Ok (VDate n, 1 + c)
  | TBoolean => '(b, c) ← decode_boolean body; Ok (VBoolean b, 1 + c)
  | TInt64 => '(n, c) ← decode_int64 body; Ok (VInt64 n, 1 + c)
  | TTimestamp => '(t, c) ← decode_int64 body; Ok (VTimestamp t, 1 + c)
  | TDecimal _ s =>
      '(m, c) ← decode_int64 body; d ← from_i64_with_scale m s; Ok (VDecimal d, 1 + c)
  | TChar n => '(s, c) ← decode_char body n; Ok (VChar s, 1 + c)
  | TVarchar _ =>
      '(raw, c) ← decode_escaped body;
      if utf8_valid raw then Ok (VVarchar raw, 1 + c)
      else Err (StorageCorrupted "decode Varchar: invalid UTF-8")
  | TBytes _ => '(raw, c) ← decode_escaped body; Ok (VBytes raw, 1 + c)
  end.

Definition decode_one (b : bytes) (ty : ColumnType) : result (Value * Z) :=
  match b with
  | [] => Err (StorageCorrupted "decode_one: empty input")
  | sentinel :: body =>
      if u8 sentinel =? NULL_SENTINEL then Ok (VNull, 1) else
      if negb (u8 sentinel =? PRESENT_SENTINEL)
      then Err (StorageCorrupted "decode_one: invalid sentinel") else
      decode_body ty body
  end.

Fixpoint encode_loop (vts : list (Value * ColumnType)) (out : bytes) : result bytes :=
  match vts with
  | [] => Ok out
  | (v, t) :: rest => out' ← encode_one v t out; encode_loop rest out'
  end.

Definition encode_key_components (vs : list Value) (types : list ColumnType) : result bytes :=
  if negb (len vs =? len types)
  then Err (StorageCorrupted "encode_key_components: arity mismatch") else
  encode_loop (zip vs types) [].

Fixpoint decode_loop (b : bytes) (cursor : Z) (types : list ColumnType) (out : list Value) :
    result (list Value * Z) :=
  match types with
  | [] => Ok (out, cursor)
  | ty :: rest =>
      tail ← slice_from cursor b;
      '(v, consumed) ← decode_one tail ty;
      decode_loop b (cursor + consumed) rest (out ++ [v])
  end.

Definition decode_key_components (b : bytes) (types : list ColumnType) : result (list Value) :=
  '(out, cursor) ← decode_loop b 0 types [];
  if negb (cursor =? len b) then Err (StorageCorrupted "trailing bytes after decoding") else
  Ok out.

Definition byte_increment (b : bytes) : bytes := push b 0.

(** The loop pops the last byte of the vector, so it recurses on the reversed
    key; [increment_last] is one vector, last byte first. *)
Fixpoint increment_last (rev_out : bytes) : option bytes :=
  match rev_out with
  | [] => None
  | last :: rest =>
      if u8 last <? 255 then Some (byte.of_Z (u8 last + 1) :: rest) else increment_last rest
  end.

Definition prefix_increment (b : bytes) : option bytes :=
  option_map (@rev byte) (increment_last (rev b)).

(** ** Specification

    The order a key column has: NULL before everything, otherwise the order
    of SQL comparison.  [tuple_cmp] is the lexicographic order of columns. *)

Definition col_cmp (v w : Value) : comparison :=
  match v, w with
  | VNull, VNull => Eq
  | VNull, _ => Lt
  | _, VNull => Gt
  | _, _ => match key_cmp (denote v) (denote w) with Some c => c | None => Eq end
  end.

Fixpoint tuple_cmp (vs ws : list Value) : comparison :=
  match vs, ws with
  | v :: vs', w :: ws' => then_cmp (col_cmp v w) (tuple_cmp vs' ws')
  | [], [] => Eq
  | [], _ => Lt
  | _, [] => Gt
  end.

(** A value a key column of type [ty] holds. *)
Definition key_ok (v : Value) (ty : ColumnType) : bool :=
  value_wf v && type_wf ty && matches v ty &&
  match v, ty with
  | VChar s, TChar n => negb (contains_nul s) && (len s <=? n)
  | _, _ => true
  end.

Definition key_tuple_ok (vs : list Value) (types : list ColumnType) : Prop :=
  Forall2 (fun v t => key_ok v t = true) vs types.

(** What every component encoding promises: it is ordered whatever follows it,
    which is what lets components be concatenated. *)
Class OrderedEncoding {A} (ok : A -> Prop) (cmp : A -> A -> comparison) (enc : A -> bytes) : Prop :=
  ordered_encoding : forall v w x y, ok v -> ok w ->
    bcmp (enc v ++ x) (enc w ++ y) = then_cmp (cmp v w) (bcmp x y).

(** And what every decoder promises of it: whatever follows, it reads back the
    value and consumes exactly the encoding. *)
Class DecodesPrefix {A} (ok : A -> Prop) (enc : A -> bytes) (dec : bytes -> result (A * Z)) : Prop :=
  decodes_prefix : forall v x, ok v -> dec (enc v ++ x) = Ok (v, len (enc v)).

(** *** Signed integers *)

Lemma lxor_sign w u :
  0 < w -> 0 <= u < 2 ^ w ->
  Z.lxor u (2 ^ (w - 1)) = if u <? 2 ^ (w - 1) then u + 2 ^ (w - 1) else u - 2 ^ (w - 1).
Proof.
  intros Hw Hu. set (h := 2 ^ (w - 1)).
  assert (H2 : 2 ^ w = h + h).
  { unfold h. replace w with (1 + (w - 1)) at 1 by lia. rewrite Z.pow_add_r; lia. }
  assert (Low : forall a, 0 <= a < h -> Z.lxor a h = a + h).
  { intros a Ha. symmetry. apply Z.add_nocarry_lxor. unfold h in *.
    destruct (Z.eq_dec a 0) as [->|]; [apply Z.land_0_l|].
    apply Z.bits_inj'. intros i Hi. rewrite Z.land_spec, Z.bits_0, Z.pow2_bits_eqb by lia.
    destruct (Z.eqb_spec (w - 1) i) as [<-|]; [|apply andb_false_r].
    rewrite Z.bits_above_log2; [done|lia|]. apply Z.log2_lt_pow2; lia. }
  destruct (Z.ltb_spec u h); [apply Low; lia|].
  replace u with (Z.lxor (u - h) h) at 1 by (rewrite Low; lia).
  by rewrite Z.lxor_assoc, Z.lxor_nilpotent, Z.lxor_0_r.
Qed.

Lemma flip_sign w n :
  0 < w -> - 2 ^ (w - 1) <= n < 2 ^ (w - 1) ->
  Z.lxor (as_unsigned w n) (2 ^ (w - 1)) = n + 2 ^ (w - 1).
Proof.
  intros Hw Hn. assert (H2 : 2 ^ w = 2 * 2 ^ (w - 1)).
  { replace w with (1 + (w - 1)) at 1 by lia. rewrite Z.pow_add_r; lia. }
  rewrite lxor_sign by (unfold as_unsigned; try lia; apply Z.mod_pos_bound; lia).
  unfold as_unsigned. destruct (Z.le_gt_cases 0 n).
  - rewrite Z.mod_small by lia. zcase; lia.
  - replace (n mod 2 ^ w) with (n + 2 ^ w); [zcase; lia|].
    rewrite <- (Z.mod_add n 1) by lia. rewrite Z.mul_1_l, Z.mod_small; lia.
Qed.

Lemma unflip_sign w n :
  0 < w -> - 2 ^ (w - 1) <= n < 2 ^ (w - 1) ->
  as_signed w (Z.lxor (n + 2 ^ (w - 1)) (2 ^ (w - 1))) = n.
Proof.
  intros Hw Hn. rewrite <- (flip_sign w n) by lia.
  rewrite Z.lxor_assoc, Z.lxor_nilpotent, Z.lxor_0_r. by apply as_signed_unsigned.
Qed.

Section signed.
Context (k : nat) (w : Z) (Hk : w = 8 * Z.of_nat k) (Hw : 0 < w).

Lemma signed_ordered n m x y :
  - 2 ^ (w - 1) <= n < 2 ^ (w - 1) -> - 2 ^ (w - 1) <= m < 2 ^ (w - 1) ->
  bcmp (to_be_bytes k (Z.lxor (as_unsigned w n) (2 ^ (w - 1))) ++ x)
       (to_be_bytes k (Z.lxor (as_unsigned w m) (2 ^ (w - 1))) ++ y)
  = then_cmp (n ?= m) (bcmp x y).
Proof.
  intros Hn Hm. assert (H2 : 2 ^ w = 2 * 2 ^ (w - 1)).
  { replace w with (1 + (w - 1)) at 1 by lia. rewrite Z.pow_add_r; lia. }
  rewrite !flip_sign by lia. rewrite bcmp_app.
  - rewrite bcmp_be by (rewrite <- Hk; lia). by rewrite !(Z.add_comm _ (2 ^ _)), Z.add_compare_mono_l.
  - pose proof (len_to_be_bytes k) as L. unfold len in L.
    apply Nat2Z.inj. by rewrite !L.
Qed.

Lemma signed_read n x :
  - 2 ^ (w - 1) <= n < 2 ^ (w - 1) ->
  exists raw, @slice Error 0 (Z.of_nat k)
      (to_be_bytes k (Z.lxor (as_unsigned w n) (2 ^ (w - 1))) ++ x) = Ok raw /\
    as_signed w (Z.lxor (from_be_bytes raw) (2 ^ (w - 1))) = n.
Proof.
  intros Hn. eexists; split; [apply slice_prefix; by rewrite len_to_be_bytes|].
  assert (H2 : 2 ^ w = 2 * 2 ^ (w - 1)).
  { replace w with (1 + (w - 1)) at 1 by lia. rewrite Z.pow_add_r; lia. }
  rewrite flip_sign by lia. rewrite from_to_be_bytes by (rewrite <- Hk; lia).
  by apply unflip_sign.
Qed.
End signed.

#[export] Instance int32_ordered :
  OrderedEncoding (fun n => in_i32 n = true) Z.compare (fun n => encode_int32 n []).
Proof.
  intros n m x y Hn Hm. unfold in_i32, encode_int32 in *. zbool. cbn [app].
  pose proof (signed_ordered 4 32 eq_refl ltac:(lia) n m x y ltac:(lia) ltac:(lia)) as O.
  change (2 ^ (32 - 1)) with INT32_SIGN_MASK in O. rewrite O. reflexivity.
Qed.

#[export] Instance int64_ordered :
  OrderedEncoding (fun n => in_i64 n = true) Z.compare (fun n => encode_int64 n []).
Proof.
  intros n m x y Hn Hm. unfold in_i64, encode_int64 in *. zbool. cbn [app].
  pose proof (signed_ordered 8 64 eq_refl ltac:(lia) n m x y ltac:(lia) ltac:(lia)) as O.
  change (2 ^ (64 - 1)) with INT64_SIGN_MASK in O. rewrite O. reflexivity.
Qed.

#[export] Instance int32_decodes :
  DecodesPrefix (fun n => in_i32 n = true) (fun n => encode_int32 n []) decode_int32.
Proof.
  intros n x Hn. unfold in_i32, decode_int32, encode_int32 in *. zbool. cbn [app].
  rewrite len_app, len_to_be_bytes. pose proof (len_nonneg x). zcase.
  destruct (signed_read 4 32 eq_refl ltac:(lia) n x ltac:(lia)) as (raw & E & Hr).
  change (2 ^ (32 - 1)) with INT32_SIGN_MASK in *. change (Z.of_nat 4) with 4 in *.
  rewrite E. cbn. by rewrite Hr.
Qed.

#[export] Instance int64_decodes :
  DecodesPrefix (fun n => in_i64 n = true) (fun n => encode_int64 n []) decode_int64.
Proof.
  intros n x Hn. unfold in_i64, decode_int64, encode_int64 in *. zbool. cbn [app].
  rewrite len_app, len_to_be_bytes. pose proof (len_nonneg x). zcase.
  destruct (signed_read 8 64 eq_refl ltac:(lia) n x ltac:(lia)) as (raw & E & Hr).
  change (2 ^ (64 - 1)) with INT64_SIGN_MASK in *. change (Z.of_nat 8) with 8 in *.
  rewrite E. cbn. by rewrite Hr.
Qed.

#[export] Instance boolean_ordered :
  OrderedEncoding (fun _ => True) bool_cmp (fun b => encode_boolean b []).
Proof. by intros [] [] x y _ _. Qed.

#[export] Instance boolean_decodes :
  DecodesPrefix (fun _ => True) (fun b => encode_boolean b []) decode_boolean.
Proof. by intros [] x _. Qed.

(** *** Escaped bytes *)

Lemma escape_bytes_out a out : escape_bytes a out = out ++ escape_bytes a [].
Proof.
  revert out; induction a as [|c a IH]; intros out; cbn; [by rewrite app_nil_r|].
  unfold push. zcase; [rewrite (IH (_ ++ _)), (IH [_; _])|rewrite (IH (_ ++ _)), (IH [_])];
    by rewrite <- !app_assoc.
Qed.

Lemma encode_escaped_cons c a out :
  encode_escaped (c :: a) out
  = (if u8 c =? 0 then out ++ [byte.of_Z 0; byte.of_Z 255] else out ++ [c]) ++ encode_escaped a [].
Proof.
  unfold encode_escaped, push. cbn. rewrite escape_bytes_out. unfold push.
  zcase; by rewrite <- !app_assoc.
Qed.

#[export] Instance escaped_ordered :
  OrderedEncoding (fun _ => True) bcmp (fun a => encode_escaped a []).
Proof.
  intros a b x y _ _. revert b; induction a as [|c a IH]; intros [|d b].
  - done.
  - rewrite encode_escaped_cons. pose proof (byte.unsigned_range d). zcase; [done|].
    cbn. change (u8 (byte.of_Z 0)) with 0. destruct (Z.compare_spec 0 (u8 d)); done || lia.
  - rewrite encode_escaped_cons. pose proof (byte.unsigned_range c). zcase; [done|].
    cbn. change (u8 (byte.of_Z 0)) with 0. destruct (Z.compare_spec (u8 c) 0); done || lia.
  - rewrite !encode_escaped_cons. cbn [bcmp]. rewrite then_cmp_assoc, <- IH.
    pose proof (byte.unsigned_range c). pose proof (byte.unsigned_range d).
    destruct (Z.eqb_spec (u8 c) 0) as [->|], (Z.eqb_spec (u8 d) 0) as [->|]; cbn;
      change (u8 (byte.of_Z 0)) with 0; try done.
    + destruct (u8 d); done || lia.
    + destruct (Z.compare_spec (u8 c) 0); done || lia.
Qed.

Lemma decode_escaped_loop_encode a x i out :
  decode_escaped_loop (encode_escaped a [] ++ x) i out
  = Ok (out ++ a, i + len (encode_escaped a [])).
Proof.
  revert i out; induction a as [|c a IH]; intros i out.
  - cbn. by rewrite app_nil_r.
  - rewrite encode_escaped_cons. pose proof (byte.unsigned_range c). zcase; cbn -[Z.add].
    + rewrite IH. unfold push. rewrite <- app_assoc. do 2 f_equal; [f_equal|solve_len].
      cbn. f_equal. rewrite <- (byte.of_Z_unsigned c). by f_equal.
    + zcase. rewrite IH, <- app_assoc. do 2 f_equal. solve_len.
Qed.

#[export] Instance escaped_decodes :
  DecodesPrefix (fun _ => True) (fun a => encode_escaped a []) decode_escaped.
Proof. intros a x _. apply decode_escaped_loop_encode. Qed.

(** *** Padded strings *)

Definition char_ok (n : Z) (s : bytes) : Prop := contains_nul s = false /\ len s <= n.
Definition enc_char (n : Z) (s : bytes) : bytes := s ++ replicate (Z.to_nat (n - len s)) (byte.of_Z 0).

Lemma encode_char_ok s n out :
  encode_char s n out
  = if contains_nul s then Err (StorageCorrupted "encode_char: embedded NUL byte not allowed in Char")
    else if n <? len s then Err (StorageCorrupted "encode_char: value length exceeds Char")
    else Ok (out ++ enc_char n s).
Proof. unfold encode_char, enc_char. repeat split_if; try done. by rewrite app_assoc. Qed.

Lemma len_enc_char n s : char_ok n s -> len (enc_char n s) = n.
Proof. intros [_ H]. unfold enc_char. solve_len. Qed.

Lemma enc_char_cons n c s : enc_char n (c :: s) = c :: enc_char (n - 1) s.
Proof. unfold enc_char. cbn. do 4 f_equal. solve_len. Qed.

Lemma enc_char_nil n : 0 < n -> enc_char n [] = byte.of_Z 0 :: enc_char (n - 1) [].
Proof.
  intros Hn. unfold enc_char. cbn. rewrite len_nil.
  replace (Z.to_nat (n - 0)) with (S (Z.to_nat (n - 1 - 0))) by lia. done.
Qed.

Lemma char_ok_cons n c s : char_ok n (c :: s) -> u8 c <> 0 /\ char_ok (n - 1) s.
Proof.
  intros [H1 H2]. cbn in H1. apply orb_false_iff in H1 as [?%Z.eqb_neq ?].
  split; [done|]. split; [done|]. solve_len.
Qed.

Lemma enc_char_ordered n s t :
  char_ok n s -> char_ok n t -> bcmp (enc_char n s) (enc_char n t) = bcmp s t.
Proof.
  revert n t; induction s as [|c s IH]; intros n [|d t] Hs Ht.
  - apply bcmp_refl.
  - pose proof Ht as [_ Hl]. apply char_ok_cons in Ht as [Hd Ht].
    rewrite len_cons in Hl. pose proof (len_nonneg t). rewrite enc_char_nil, enc_char_cons by lia.
    cbn. change (u8 (byte.of_Z 0)) with 0. pose proof (byte.unsigned_range d).
    destruct (Z.compare_spec 0 (u8 d)); done || lia.
  - pose proof Hs as [_ Hl]. apply char_ok_cons in Hs as [Hc Hs].
    rewrite len_cons in Hl. pose proof (len_nonneg s). rewrite enc_char_nil, enc_char_cons by lia.
    cbn. change (u8 (byte.of_Z 0)) with 0. pose proof (byte.unsigned_range c).
    destruct (Z.compare_spec (u8 c) 0); done || lia.
  - apply char_ok_cons in Hs as [_ Hs], Ht as [_ Ht]. rewrite !enc_char_cons. cbn. by rewrite IH.
Qed.

#[export] Instance char_ordered n : OrderedEncoding (char_ok n) bcmp (enc_char n).
Proof.
  intros s t x y Hs Ht. rewrite bcmp_app; [by rewrite enc_char_ordered|].
  pose proof (len_enc_char n s Hs). pose proof (len_enc_char n t Ht). unfold len in *. lia.
Qed.

Lemma content_end_pad s k :
  contains_nul s = false -> content_end (s ++ replicate k (byte.of_Z 0)) = len s.
Proof.
  induction s as [|c s IH]; intros Hs.
  - cbn. induction k as [|k IHk]; [done|]. cbn. by rewrite IHk.
  - cbn in Hs. apply orb_false_iff in Hs as [Hc Hs]. cbn -[Z.add]. rewrite IH by done.
    rewrite Hc, andb_false_r. by rewrite len_cons.
Qed.

Lemma decode_char_encode n s x :
  char_ok n s -> utf8_valid s = true -> decode_char (enc_char n s ++ x) n = Ok (s, n).
Proof.
  intros Hs Hu. pose proof (len_enc_char n s Hs) as L. unfold decode_char.
  rewrite len_app, L. pose proof (len_nonneg x). zcase.
  rewrite slice_prefix by done. cbn. unfold enc_char. destruct Hs as [Hs _].
  rewrite content_end_pad by done. rewrite slice_prefix by done. cbn. by rewrite Hu.
Qed.

(** *** One component *)

Definition component (v : Value) (ty : ColumnType) : bytes :=
  match encode_one v ty [] with Ok b => b | _ => [] end.

Lemma encode_escaped_out a out : encode_escaped a out = out ++ encode_escaped a [].
Proof. unfold encode_escaped, push. rewrite escape_bytes_out. by rewrite <- !app_assoc. Qed.

Lemma key_ok_char s n : key_ok (VChar s) (TChar n) = true -> char_ok n s /\ utf8_valid s = true.
Proof. unfold key_ok, char_ok. cbn. destruct (contains_nul s); intros; zbool; done. Qed.

Ltac key_cases v ty H :=
  destruct v, ty; try (unfold key_ok in H; cbn in H; rewrite ?andb_false_r in H; discriminate H).

Lemma component_char s n :
  char_ok n s -> component (VChar s) (TChar n) = byte.of_Z 1 :: enc_char n s.
Proof.
  intros [Hn Hl]. unfold component. cbn. rewrite encode_char_ok, Hn. by zcase.
Qed.

Lemma component_escaped s n :
  component (VVarchar s) (TVarchar n) = byte.of_Z 1 :: encode_escaped s [] /\
  component (VBytes s) (TBytes n) = byte.of_Z 1 :: encode_escaped s [].
Proof. unfold component. cbn. by rewrite (encode_escaped_out _ (_ :: _)). Qed.

Lemma encode_one_ok v ty out :
  key_ok v ty = true -> encode_one v ty out = Ok (out ++ component v ty).
Proof.
  intros H. key_cases v ty H; try done;
    try (unfold component; cbn [encode_one];
         unfold encode_int32, encode_int64, encode_boolean, push; by rewrite <- !app_assoc).
  - rewrite (proj1 (component_escaped _ _)). cbn. rewrite encode_escaped_out.
    unfold push. by rewrite <- app_assoc.
  - apply key_ok_char in H as [[Hn Hl] _]. rewrite component_char by done.
    cbn. rewrite encode_char_ok, Hn. zcase. unfold push. by rewrite <- app_assoc.
  - rewrite (proj2 (component_escaped _ _)). cbn. rewrite encode_escaped_out.
    unfold push. by rewrite <- app_assoc.
Qed.

Lemma col_cmp_num d e :
  scale d = scale e -> 0 <= scale e <= 18 ->
  col_cmp (VDecimal d) (VDecimal e) = (mantissa d ?= mantissa e).
Proof.
  intros He Hs. cbn. unfold Qcompare, to_Q. cbn [Qnum Qden]. rewrite He. symmetry.
  apply Zmult_compare_compat_r. done.
Qed.

Lemma key_ok_parts v ty : key_ok v ty = true -> value_wf v = true /\ type_wf ty = true /\ matches v ty = true.
Proof. unfold key_ok. intros; zbool; done. Qed.

Lemma Qcompare_int n m : Qcompare (inject_Z n) (inject_Z m) = (n ?= m).
Proof. unfold Qcompare. cbn. by rewrite !Z.mul_1_r. Qed.

#[export] Instance component_ordered ty :
  OrderedEncoding (fun v => key_ok v ty = true) col_cmp (fun v => component v ty).
Proof.
  intros v w x y Hv Hw.
  pose proof (key_ok_parts _ _ Hv) as (Wv & Wt & Mv). pose proof (key_ok_parts _ _ Hw) as (Ww & _ & Mw).
  destruct ty; destruct v; try discriminate Mv; destruct w; try discriminate Mw; try reflexivity;
    try (rewrite !component_char by (by apply key_ok_char));
    rewrite ?(proj1 (component_escaped _ _)), ?(proj2 (component_escaped _ _)); try reflexivity;
    cbn [value_wf] in Wv, Ww; rewrite ?col_cmp_num;
    cbn [col_cmp denote key_cmp]; rewrite ?Qcompare_int.
  - by apply int32_ordered.
  - by apply int64_ordered.
  - by apply escaped_ordered.
  - apply char_ordered; by apply key_ok_char.
  - by apply escaped_ordered.
  - apply decimal_wf_iff in Wv, Ww. apply int64_ordered; fits.
  - cbn in Mv, Mw. zbool. congruence.
  - apply decimal_wf_iff in Ww. lia.
  - by apply int64_ordered.
  - by apply boolean_ordered.
  - by apply int32_ordered.
Qed.

(** The bytes after the sentinel. *)
Definition body (v : Value) (ty : ColumnType) : bytes :=
  match v with
  | VInt32 n | VDate n => encode_int32 n []
  | VInt64 n | VTimestamp n => encode_int64 n []
  | VDecimal d => encode_int64 (mantissa d) []
  | VBoolean b => encode_boolean b []
  | VChar s => enc_char (match ty with TChar n => n | _ => 0 end) s
  | VVarchar s | VBytes s => encode_escaped s []
  | VNull => []
  end.

Lemma component_present v ty :
  key_ok v ty = true -> v <> VNull -> component v ty = byte.of_Z 1 :: body v ty.
Proof.
  intros H Hn. key_cases v ty H; try done.
  - apply component_escaped.
  - by apply component_char, key_ok_char.
  - by apply (component_escaped b n).
Qed.

Lemma decode_body_encode v ty x :
  key_ok v ty = true -> v <> VNull -> decode_body ty (body v ty ++ x) = Ok (v, 1 + len (body v ty)).
Proof.
  intros Hv Hn. pose proof (key_ok_parts _ _ Hv) as (Wv & Wt & Mv).
  pose proof int32_decodes as D32. pose proof int64_decodes as D64. pose proof escaped_decodes as De.
  unfold DecodesPrefix in *.
  destruct ty; destruct v; try discriminate Mv; try done; cbn [decode_body body value_wf] in *;
    rewrite ?D32, ?D64, ?De by (try done; apply decimal_wf_iff in Wv; fits); try done.
  - cbn. by rewrite Wv.
  - apply key_ok_char in Hv as [Hc Hu]. rewrite decode_char_encode by done. cbn.
    by rewrite len_enc_char.
  - cbn in Wt, Mv. unfold MAX_SCALE in Wt. zbool. cbn -[encode_int64].
    rewrite from_i64_ok by lia. cbn -[encode_int64]. subst. by destruct d.
  - by destruct b.
Qed.

#[export] Instance component_decodes ty :
  DecodesPrefix (fun v => key_ok v ty = true) (fun v => component v ty) (fun b => decode_one b ty).
Proof.
  intros v x Hv. destruct (decide (v = VNull)) as [->|Hn]; [done|].
  rewrite component_present, len_cons by done. by apply (decode_body_encode v ty x).
Qed.

(** *** Whole keys *)

Definition key_bytes (vs : list Value) (types : list ColumnType) : bytes :=
  concat (zip_with component vs types).

Lemma encode_key_ok vs types :
  key_tuple_ok vs types -> encode_key_components vs types = Ok (key_bytes vs types).
Proof.
  intros H. unfold encode_key_components, len. rewrite (Forall2_length _ _ _ H), Z.eqb_refl. cbn.
  change (key_bytes vs types) with ([] ++ key_bytes vs types). generalize (@nil byte) as out.
  induction H as [|v t vs types Hv H IH]; intros out; cbn; [by rewrite app_nil_r|].
  rewrite encode_one_ok by done. cbn. rewrite IH. by rewrite app_assoc.
Qed.

Lemma encode_one_Ok_iff v ty out :
  value_wf v = true -> type_wf ty = true -> matches v ty = true ->
  is_ok (encode_one v ty out) = key_ok v ty.
Proof.
  intros Hv Ht Hm. unfold key_ok. rewrite Hv, Ht, Hm. cbn [andb].
  destruct v, ty; try discriminate; try reflexivity.
  cbn [encode_one]. rewrite encode_char_ok. destruct (contains_nul s); [done|]. by repeat zcase.
Qed.

Lemma key_bytes_ordered vs ws types x y :
  key_tuple_ok vs types -> key_tuple_ok ws types ->
  bcmp (key_bytes vs types ++ x) (key_bytes ws types ++ y) = then_cmp (tuple_cmp vs ws) (bcmp x y).
Proof.
  intros H. revert ws; induction H as [|v t vs types Hv H IH]; intros ws Hw; inversion Hw; subst; [done|].
  unfold key_bytes in *. cbn. rewrite <- !app_assoc, then_cmp_assoc, <- IH by done.
  by apply component_ordered.
Qed.

Lemma decode_loop_encode vs types pre x out :
  key_tuple_ok vs types ->
  decode_loop (pre ++ key_bytes vs types ++ x) (len pre) types out
  = Ok (out ++ vs, len pre + len (key_bytes vs types)).
Proof.
  intros H. revert pre out; induction H as [|v t vs types Hv H IH]; intros pre out.
  - cbn. by rewrite app_nil_r, len_nil, Z.add_0_r.
  - cbn. rewrite slice_from_app by done. cbn. unfold key_bytes in *. cbn. rewrite <- !app_assoc.
    pose proof (component_decodes t v (concat (zip_with component vs types) ++ x) Hv) as E.
    cbv beta in E. rewrite E. cbn. rewrite <- len_app, app_assoc, IH, <- app_assoc. cbn.
    do 2 f_equal. solve_len.
Qed.

(** *** Decoding arbitrary bytes *)

Lemma decode_escaped_loop_total rest i out :
  no_panic (decode_escaped_loop rest i out) /\
  forall v c, decode_escaped_loop rest i out = Ok (v, c) -> i <= c <= i + len rest.
Proof.
  remember (length rest) as n eqn:Hn. revert rest i out Hn.
  induction n as [n IH] using lt_wf_ind. intros rest i out ->. destruct rest as [|c rest]; cbn -[Z.add].
  { done. }
  zcase.
  - destruct rest as [|d rest]; [done|]. repeat zcase; [|..]; cbn -[Z.add].
    + split; [done|]. intros v k [= _ <-]. solve_len.
    + destruct (IH (length rest) ltac:(cbn; lia) rest (i + 2) (push out 0) eq_refl) as [H1 H2].
      split; [done|]. intros v k Hk. apply H2 in Hk. solve_len.
    + done.
  - destruct (IH (length rest) ltac:(cbn; lia) rest (i + 1) (out ++ [c]) eq_refl) as [H1 H2].
    split; [done|]. intros v k Hk. apply H2 in Hk. solve_len.
Qed.

Lemma content_end_bound raw : 0 <= content_end raw <= len raw.
Proof. induction raw as [|c raw IH]; cbn -[Z.add]; [done|]. split_if; solve_len. Qed.

Definition reads_within {A} (n : Z) (r : result (A * Z)) : Prop :=
  no_panic r /\ forall v c, r = Ok (v, c) -> 0 <= c <= n.

Lemma reads_within_bind {A B} n (r : result (A * Z)) (f : A -> result B) :
  0 <= n -> reads_within n r -> (forall v, no_panic (f v)) ->
  reads_within (1 + n) ('(v, c) ← r; w ← f v; Ok (w, 1 + c)).
Proof.
  intros Hn [H1 H2] Hf. destruct r as [[v c]|e|]; [|done|done]. cbn. specialize (Hf v).
  specialize (H2 v c eq_refl). destruct (f v) as [w|e|]; [|done|done]. cbn. split; [done|].
  intros ? ? [= _ <-]. lia.
Qed.

Lemma decode_body_total ty b :
  type_wf ty = true -> reads_within (1 + len b) (decode_body ty b).
Proof.
  intros Ht. pose proof (len_nonneg b).
  assert (I32 : reads_within (len b) (decode_int32 b)).
  { unfold decode_int32. zcase; [done|]. rewrite slice_ok by lia. cbn. split; [done|].
    intros ? ? [= _ <-]. lia. }
  assert (I64 : reads_within (len b) (decode_int64 b)).
  { unfold decode_int64. zcase; [done|]. rewrite slice_ok by lia. cbn. split; [done|].
    intros ? ? [= _ <-]. lia. }
  assert (Esc : reads_within (len b) (decode_escaped b)).
  { destruct (decode_escaped_loop_total b 0 []) as [H1 H2]. split; [done|]. intros v c Hc.
    apply H2 in Hc. lia. }
  destruct ty as [| |n|n|n|p s| | |]; cbn [decode_body].
  - by apply (reads_within_bind _ _ (fun n => Ok (VInt32 n))).
  - by apply (reads_within_bind _ _ (fun n => Ok (VInt64 n))).
  - destruct (decode_escaped b) as [[raw c]|e|]; [|done|by destruct Esc]. cbn. destruct Esc as [_ H2].
    specialize (H2 raw c eq_refl). split_if; [|done]. split; [done|]. intros ? ? [= _ <-]. lia.
  - cbn in Ht. unfold in_u16 in Ht. zbool. unfold decode_char. zcase; [done|].
    rewrite slice_ok by lia. cbn. set (raw := take _ _). pose proof (content_end_bound raw).
    rewrite slice_ok by lia. cbn. split_if; [|done]. cbn. split; [done|]. intros ? ? [= _ <-]. lia.
  - by apply (reads_within_bind _ _ (fun n => Ok (VBytes n))).
  - apply (reads_within_bind _ _ (fun m => d ← from_i64_with_scale m s; Ok (VDecimal d))) in I64.
    + destruct (decode_int64 b) as [[m c]|e|]; [|done..]. cbn in *.
      by destruct (from_i64_with_scale m s).
    + done.
    + intros m. cbn in Ht. zbool. unfold from_i64_with_scale. zcase. done.
  - by apply (reads_within_bind _ _ (fun n => Ok (VTimestamp n))).
  - unfold decode_boolean. destruct b as [|c b]; [done|]. repeat zcase; cbn -[Z.add]; try done;
      (split; [done|]; intros ? ? [= _ <-]; solve_len).
  - by apply (reads_within_bind _ _ (fun n => Ok (VDate n))).
Qed.

Lemma decode_one_total ty b : type_wf ty = true -> reads_within (len b) (decode_one b ty).
Proof.
  intros Ht. destruct b as [|c b]; [done|]. unfold decode_one. rewrite len_cons.
  pose proof (len_nonneg b). zcase; [split; [done|]; intros ? ? [= _ <-]; lia|].
  zcase; cbn [negb]; [by apply decode_body_total|done].
Qed.

Lemma decode_loop_total b cursor types out :
  forallb type_wf types = true -> 0 <= cursor <= len b ->
  no_panic (decode_loop b cursor types out).
Proof.
  revert cursor out; induction types as [|ty types IH]; intros cursor out Ht Hc; cbn; [done|].
  cbn in Ht. apply andb_true_iff in Ht as [Hty Ht].
  unfold slice_from. rewrite slice_ok by lia. cbn. set (tail := take _ _).
  assert (Hl : len tail = len b - cursor) by (unfold tail; solve_len).
  destruct (decode_one_total ty tail Hty) as [H1 H2].
  destruct (decode_one tail ty) as [[v c]|e|]; [|done|done]. cbn.
  apply IH; [done|]. specialize (H2 v c eq_refl). lia.
Qed.

(** *** Scan bounds *)

Lemma ble_refl a : ble a a.
Proof. unfold ble. by rewrite bcmp_refl. Qed.

Lemma ble_app a b : ble a (a ++ b).
Proof.
  unfold ble. rewrite <- (app_nil_r a) at 1. rewrite bcmp_app_l. by destruct b.
Qed.

Lemma squeezed_prefix q a c k :
  ble (q ++ a) k -> blt k (q ++ c) -> exists z, k = q ++ z.
Proof.
  revert k; induction q as [|x q IH]; intros k H1 H2; [by exists k|].
  destruct k as [|y k]; [done|]. unfold ble, blt in *. cbn in H1, H2.
  destruct (Z.compare_spec (u8 x) (u8 y)) as [E|E|E]; cbn in H1; [|exfalso|done].
  - rewrite <- E, Z.compare_refl in H2. cbn in H2. destruct (IH k H1 H2) as [z ->].
    exists z. cbn. f_equal. by apply byte.unsigned_inj.
  - rewrite (proj2 (Z.compare_gt_iff _ _) E) in H2. done.
Qed.

Lemma ff_prefix n z : ble (replicate n (byte.of_Z 255)) z -> exists z', z = replicate n (byte.of_Z 255) ++ z'.
Proof.
  revert z; induction n as [|n IH]; intros z H; [by exists z|]. destruct z as [|y z]; [done|].
  unfold ble in H. cbn in H. change (u8 (byte.of_Z 255)) with 255 in H.
  pose proof (byte.unsigned_range y).
  destruct (Z.compare_spec 255 (u8 y)) as [E|E|E]; cbn in H; [|lia|done].
  destruct (IH z H) as [z' ->]. exists z'. cbn. f_equal. apply byte.unsigned_inj. by rewrite <- E.
Qed.

Lemma increment_last_spec r :
  match increment_last r with
  | None => r = replicate (length r) (byte.of_Z 255)
  | Some r' => exists n l rest, r = replicate n (byte.of_Z 255) ++ l :: rest /\ u8 l < 255 /\
                 r' = byte.of_Z (u8 l + 1) :: rest
  end.
Proof.
  induction r as [|l r IH]; cbn; [done|]. zcase.
  - by exists 0%nat, l, r.
  - assert (El : l = byte.of_Z 255).
    { apply byte.unsigned_inj. pose proof (byte.unsigned_range l).
      change (u8 (byte.of_Z 255)) with 255. lia. }
    destruct (increment_last r) as [r'|].
    + destruct IH as (n & l' & rest & -> & Hl & ->). exists (S n), l', rest. by rewrite El.
    + by rewrite El, IH at 1.
Qed.

Lemma replicate_rev {A} n (x : A) : rev (replicate n x) = replicate n x.
Proof.
  induction n as [|n IH]; cbn; [done|]. rewrite IH. clear IH.
  induction n as [|n IH]; cbn; [done|]. by rewrite IH.
Qed.

Lemma prefix_increment_spec p :
  match prefix_increment p with
  | None => exists n, p = replicate n (byte.of_Z 255)
  | Some q => exists n l a, p = a ++ l :: replicate n (byte.of_Z 255) /\ u8 l < 255 /\
                q = a ++ [byte.of_Z (u8 l + 1)]
  end.
Proof.
  unfold prefix_increment. pose proof (increment_last_spec (rev p)) as H.
  destruct (increment_last (rev p)) as [r'|]; cbn.
  - destruct H as (n & l & rest & Hp & Hl & ->). exists n, l, (rev rest). split_and!; [|done|done].
    rewrite <- (rev_involutive p), Hp, rev_app_distr. cbn. rewrite replicate_rev, <- app_assoc. done.
  - exists (length (rev p)). by rewrite <- (rev_involutive p), H at 1; rewrite replicate_rev.
Qed.

Lemma increment_byte l : u8 l < 255 -> u8 (byte.of_Z (u8 l + 1)) = u8 l + 1.
Proof.
  intros H. pose proof (byte.unsigned_range l). rewrite byte.unsigned_of_Z. unfold byte.wrap.
  apply Z.mod_small. lia.
Qed.

Lemma prefix_increment_bounds p k :
  p `prefix_of` k <->
  ble p k /\ match prefix_increment p with Some q => blt k q | None => True end.
Proof.
  pose proof (prefix_increment_spec p) as H. destruct (prefix_increment p) as [q|].
  - destruct H as (n & l & a & -> & Hl & ->). pose proof (increment_byte l Hl) as Hi. split.
    + intros [z ->]. split; [apply ble_app|]. unfold blt. rewrite <- !app_assoc, bcmp_app_l. cbn.
      rewrite Hi. by rewrite (proj2 (Z.compare_lt_iff _ _)) by lia.
    + intros [H1 H2]. destruct (squeezed_prefix _ _ _ _ H1 H2) as [z ->].
      unfold ble, blt in H1, H2. rewrite bcmp_app_l in H1, H2. destruct z as [|m z]; [done|].
      cbn in H1, H2. rewrite Hi in H2.
      destruct (Z.compare_spec (u8 l) (u8 m)) as [E|E|E]; cbn in H1; [|exfalso|done].
      * destruct (ff_prefix n z H1) as [z' ->]. exists z'. rewrite <- app_assoc. cbn.
        do 2 f_equal. by apply byte.unsigned_inj.
      * destruct (Z.compare_spec (u8 m) (u8 l + 1)); cbn in H2; [by destruct z|lia|done].
  - destruct H as [n ->]. split; [intros [z ->]; split; [apply ble_app|done]|].
    intros [H1 _]. destruct (ff_prefix n k H1) as [z ->]. by exists z.
Qed.

Lemma key_bytes_app vs ws t u :
  length vs = length t -> key_bytes (vs ++ ws) (t ++ u) = key_bytes vs t ++ key_bytes ws u.
Proof.
  revert t; induction vs as [|v vs IH]; intros [|ty t]; try done. intros [= Hl].
  unfold key_bytes in *. cbn. by rewrite <- app_assoc, IH.
Qed.

Lemma key_prefix_iff vs ws t x :
  key_tuple_ok vs t -> key_tuple_ok ws t ->
  key_bytes vs t `prefix_of` key_bytes ws t ++ x <-> tuple_cmp vs ws = Eq.
Proof.
  intros Hv Hw. split.
  - intros [z Hz]. pose proof (key_bytes_ordered vs ws t z x Hv Hw) as E.
    rewrite Hz, bcmp_refl in E. by destruct (tuple_cmp vs ws).
  - intros E. pose proof (key_bytes_ordered vs ws t [] [] Hv Hw) as H.
    rewrite E, !app_nil_r in H. apply bcmp_eq in H as ->. by exists x.
Qed.

(** ** Theorems *)

(** C39. Keys sort as their tuples do: the encodings of two tuples of a key
    schema compare, byte by byte, the way the tuples compare column by column
    with NULL first and SQL comparison otherwise. *)
Theorem key_order_preserved vs ws types :
  key_tuple_ok vs types -> key_tuple_ok ws types ->
  exists a b, encode_key_components vs types = Ok a /\ encode_key_components ws types = Ok b /\
    bcmp a b = tuple_cmp vs ws.
Proof.
  intros Hv Hw. exists (key_bytes vs types), (key_bytes ws types).
  rewrite !encode_key_ok by done. split_and!; [done..|].
  pose proof (key_bytes_ordered vs ws types [] [] Hv Hw) as H.
  by rewrite !app_nil_r, then_cmp_Eq_r in H.
Qed.

Lemma key_order_preserved_witness :
  exists a b, encode_key_components [VNull; VInt32 (-5)] [TVarchar 3; TInt32] = Ok a /\
    encode_key_components [VNull; VInt32 7] [TVarchar 3; TInt32] = Ok b /\
    bcmp a b = tuple_cmp [VNull; VInt32 (-5)] [VNull; VInt32 7].
Proof. apply key_order_preserved; repeat constructor. Defined.

(** Decoding an encoded key gives the tuple back. *)
Theorem decode_encode_key vs types :
  key_tuple_ok vs types ->
  exists b, encode_key_components vs types = Ok b /\ decode_key_components b types = Ok vs.
Proof.
  intros H. exists (key_bytes vs types). split; [by apply encode_key_ok|].
  unfold decode_key_components. pose proof (decode_loop_encode vs types [] [] [] H) as E.
  rewrite app_nil_r in E. cbn in E. change (len []) with 0 in E. rewrite E. cbn.
  by rewrite Z.eqb_refl.
Qed.

Lemma decode_encode_key_witness :
  exists b, encode_key_components [VBytes [byte.of_Z 0]; VNull; VChar []] [TBytes 4; TDate; TChar 2] = Ok b /\
    decode_key_components b [TBytes 4; TDate; TChar 2] = Ok [VBytes [byte.of_Z 0]; VNull; VChar []].
Proof. apply decode_encode_key; repeat constructor. Defined.

(** Encoding a well-typed tuple fails only for a CHAR value with a NUL byte
    or longer than its column, and decoding any bytes returns a tuple or an
    error and never panics. *)
Theorem key_codec_total types :
  forallb type_wf types = true ->
  (forall vs, Forall2 (fun v t => value_wf v = true /\ matches v t = true) vs types ->
     is_ok (encode_key_components vs types) = true -> key_tuple_ok vs types) /\
  (forall b, no_panic (decode_key_components b types)).
Proof.
  intros Ht. split.
  - intros vs H. unfold encode_key_components. split_if; [done|]. clear Heqb. revert Ht.
    generalize (@nil byte) as out. induction H as [|v t vs types [Hv Hm] H IH]; [constructor|].
    intros out Ht Hok. cbn in Ht, Hok. apply andb_true_iff in Ht as [Htt Ht].
    assert (Hk : key_ok v t = true).
    { rewrite <- (encode_one_Ok_iff v t out) by done. by destruct (encode_one v t out). }
    constructor; [done|]. rewrite encode_one_ok in Hok by done. by apply (IH _ Ht Hok).
  - intros b. unfold decode_key_components. apply bind_no_panic.
    + apply decode_loop_total; [done|]. pose proof (len_nonneg b). lia.
    + intros [vs c] _. by split_if.
Qed.

Lemma key_codec_total_witness : no_panic (decode_key_components (map byte.of_Z [1; 2; 3]) [TInt64]).
Proof. exact (proj2 (key_codec_total [TInt64] eq_refl) (map byte.of_Z [1; 2; 3])). Defined.

(** C40. The range [[encode(prefix), prefix_increment(encode(prefix)))] that an
    index scan uses holds exactly the keys whose leading columns equal the
    prefix, and the half-open bound [byte_increment(encode(y))] holds exactly
    the keys up to and including [y]. *)
Theorem scan_bounds_exact vs ws us t u :
  key_tuple_ok vs t -> key_tuple_ok ws t -> key_tuple_ok us u ->
  exists p k, encode_key_components vs t = Ok p /\
    encode_key_components (ws ++ us) (t ++ u) = Ok k /\
    (ble p k /\ match prefix_increment p with Some q => blt k q | None => True end
     <-> tuple_cmp vs ws = Eq) /\
    (blt k (byte_increment p) <-> ble k p).
Proof.
  intros Hv Hw Hu. exists (key_bytes vs t), (key_bytes ws t ++ key_bytes us u).
  pose proof (Forall2_length _ _ _ Hw) as Hl. split_and!.
  - by apply encode_key_ok.
  - rewrite encode_key_ok by (by apply Forall2_app). by rewrite key_bytes_app.
  - rewrite <- prefix_increment_bounds. by apply key_prefix_iff.
  - generalize (key_bytes vs t) as p, (key_bytes ws t ++ key_bytes us u) as k. clear. intros p k.
    unfold byte_increment, push, blt, ble. revert k; induction p as [|x p IH]; intros [|y k]; cbn; try done.
    + change (u8 (byte.of_Z 0)) with 0. pose proof (byte.unsigned_range y).
      destruct (Z.compare_spec (u8 y) 0); [by destruct k|lia|done].
    + destruct (Z.compare_spec (u8 y) (u8 x)); cbn; [apply IH|done|done].
Qed.

Lemma scan_bounds_exact_witness :
  exists p k, encode_key_components [VInt32 3] [TInt32] = Ok p /\
    encode_key_components ([VInt32 3] ++ [VInt64 9]) ([TInt32] ++ [TInt64]) = Ok k /\
    (ble p k /\ match prefix_increment p with Some q => blt k q | None => True end
     <-> tuple_cmp [VInt32 3] [VInt32 3] = Eq) /\
    (blt k (byte_increment p) <-> ble k p).
Proof. apply scan_bounds_exact; repeat constructor. Defined.

(** ** Examples *)

Example null_key_sorts_first :
  encode_key_components [VNull] [TInt32] = Ok [byte.of_Z 0] /\
  encode_key_components [VInt32 (-1)] [TInt32]
  = Ok (map byte.of_Z [1; 127; 255; 255; 255]).
Proof. split; reflexivity. Qed.

Example key_round_trip :
  (b ← encode_key_components [VVarchar (map byte.of_Z [97; 0; 98]); VNull; VBoolean true]
                             [TVarchar 5; TInt64; TBoolean];
   decode_key_components b [TVarchar 5; TInt64; TBoolean])
  = Ok [VVarchar (map byte.of_Z [97; 0; 98]); VNull; VBoolean true].
Proof. reflexivity. Qed.

Example prefix_increment_carries :
  prefix_increment (map byte.of_Z [1; 255; 255]) = Some (map byte.of_Z [2]) /\
  prefix_increment (map byte.of_Z [255; 255]) = None.
Proof. split; reflexivity. Qed.
