(* ===== verification/Tuple.v ===== *)
(** Row blobs (crates/idb-core/src/types/tuple.rs): a null bitmap followed by
    the non-null values in schema order. *)

From Stdlib Require Import ZArith Lia List Bool.
From coqutil Require Import Byte.
From stdpp Require Import base list strings.
From S2P Require Import Prelude Common Decimal Value KeyEnc.
#[local] Open Scope Z_scope.

Definition bitmap_byte_count (n : Z) : Z := (n + 7) / 8.

Definition is_null_bit_set (bitmap : bytes) (col : Z) : result bool :=
  c ← index (col / 8) bitmap;
  Ok (Z.land (Z.shiftr (u8 c) (col mod 8)) 1 =? 1).

(** [out[i / 8] |= 1 << (i % 8)]. *)
Definition set_null_bit (i : Z) (out : bytes) : result bytes :=
  c ← index (i / 8) out;
  Ok (<[Z.to_nat (i / 8) := byte.of_Z (Z.lor (u8 c) (Z.shiftl 1 (i mod 8)))]> out).

(** A length prefix and the payload, refused when longer than the column. *)
Definition encode_varlen (over : string) (n : Z) (b out : bytes) : result bytes :=
  if n <? len b then Err (StorageCorrupted over) else
  Ok ((out ++ to_le_bytes 2 (as_unsigned 16 (len b))) ++ b).

Definition encode_value (ty : ColumnType) (v : Value) (out : bytes) : result bytes :=
  match ty, v with
  | TInt32, VInt32 n => Ok (out ++ to_le_bytes 4 n)
  | TInt64, VInt64 n => Ok (out ++ to_le_bytes 8 n)
  | TDate, VDate days => Ok (out ++ to_le_bytes 4 days)
  | TBoolean, VBoolean b => Ok (push out (if b then 1 else 0))
  | TTimestamp, VTimestamp t => Ok (out ++ to_le_bytes 8 t)
  | TDecimal _ _, VDecimal d => Ok (out ++ to_le_bytes 8 (mantissa d))
  | TChar n, VChar s =>
      if contains_nul s
      then Err (StorageCorrupted "tuple::encode Char: embedded NUL byte not allowed") else
      if n <? len s
      then Err (StorageCorrupted "tuple::encode Char: value length exceeds Char") else
      let pad := n - len s in
      Ok ((out ++ s) ++ replicate (Z.to_nat pad) (byte.of_Z 0))
  | TVarchar n, VVarchar s =>
      encode_varlen "tuple::encode Varchar: value length exceeds Varchar" n s out
  | TBytes n, VBytes b =>
      encode_varlen "tuple::encode Bytes: value length exceeds Bytes" n b out
  | _, _ => Err (StorageCorrupted "tuple::encode: type mismatch")
  end.

Fixpoint encode_columns (i : Z) (cols : list (ColumnType * Value)) (out : bytes) : result bytes :=
  match cols with
  | [] => Ok out
  | (_, VNull) :: rest => out' ← set_null_bit i out; encode_columns (i + 1) rest out'
  | (ty, v) :: rest => out' ← encode_value ty v out; encode_columns (i + 1) rest out'
  end.

Definition encode (types : list ColumnType) (values : list Value) : result bytes :=
  if negb (len types =? len values)
  then Err (StorageCorrupted "tuple::encode: arity mismatch") else
  let bitmap_len := bitmap_byte_count (len types) in
  encode_columns 0 (zip types values) (replicate (Z.to_nat bitmap_len) (byte.of_Z 0)).

Definition read_le (short : string) (n : Z) (b : bytes) : result Z :=
  if len b <? n then Err (StorageCorrupted short) else
  raw ← slice 0 n b;
  Ok (as_signed (8 * n) (from_le_bytes raw)).

Definition decode_varlen (no_prefix short : string) (b : bytes) : result (bytes * Z) :=
  if len b <? 2 then Err (StorageCorrupted no_prefix) else
  raw ← slice 0 2 b;
  let n := from_le_bytes raw in
  if len b <? 2 + n then Err (StorageCorrupted short) else
  payload ← slice 2 (2 + n) b;
  Ok (payload, 2 + n).

Definition decode_value (ty : ColumnType) (b : bytes) : result (Value * Z) :=
  match ty with
  | TInt32 => n ← read_le "tuple::decode Int32: need 4 bytes" 4 b; Ok (VInt32 n, 4)
  | TDate => n ← read_le "tuple::decode Date: need 4 bytes" 4 b; Ok (VDate n, 4)
  | TInt64 => n ← read_le "tuple::decode Int64: need 8 bytes" 8 b; Ok (VInt64 n, 8)
  | TBoolean =>
      match b with
      | [] => Err (StorageCorrupted "tuple::decode Boolean: need 1 byte")
      | c :: _ =>
          if u8 c =? 0 then Ok (VBoolean false, 1)
          else if u8 c =? 1 then Ok (VBoolean true, 1)
          else Err (StorageCorrupted "tuple::decode Boolean: invalid byte")
      end
  | TTimestamp => n ← read_le "tuple::decode Timestamp: need 8 bytes" 8 b; Ok (VTimestamp n, 8)
  | TDecimal _ s =>
      m ← read_le "tuple::decode Decimal: need 8 bytes" 8 b;
      d ← from_i64_with_scale m s;
      Ok (VDecimal d, 8)
  | TChar n =>
      if len b <? n then Err (StorageCorrupted "tuple::decode Char: need more bytes") else
      raw ← slice 0 n b;
      s ← slice 0 (content_end raw) raw;
      if utf8_valid s then Ok (VChar s, n)
      else Err (StorageCorrupted "tuple::decode Char: invalid UTF-8")
  | TVarchar _ =>
      '(raw, c) ← decode_varlen "tuple::decode Varchar: need length prefix"
                                "tuple::decode Varchar: need more bytes after prefix" b;
      if utf8_valid raw then Ok (VVarchar raw, c)
      else Err (StorageCorrupted "tuple::decode Varchar: invalid UTF-8")
  | TBytes _ =>
      '(raw, c) ← decode_varlen "tuple::decode Bytes: need length prefix"
                                "tuple::decode Bytes: need more bytes after prefix" b;
      Ok (VBytes raw, c)
  end.

Fixpoint decode_columns (bitmap b : bytes) (i cursor : Z) (types : list ColumnType)
    (out : list Value) : result (list Value * Z) :=
  match types with
  | [] => Ok (out, cursor)
  | ty :: rest =>
      null ← is_null_bit_set bitmap i;
      if null : bool then decode_columns bitmap b (i + 1) cursor rest (out ++ [VNull]) else
      tail ← slice_from cursor b;
      '(v, consumed) ← decode_value ty tail;
      decode_columns bitmap b (i + 1) (cursor + consumed) rest (out ++ [v])
  end.

Definition decode (types : list ColumnType) (b : bytes) : result (list Value) :=
  let bitmap_len := bitmap_byte_count (len types) in
  if len b <? bitmap_len
  then Err (StorageCorrupted "tuple::decode: not enough bytes for null bitmap") else
  bitmap ← slice 0 bitmap_len b;
  '(out, cursor) ← decode_columns bitmap b 0 bitmap_len types [];
  if negb (cursor =? len b) then Err (StorageCorrupted "tuple::decode: trailing bytes") else
  Ok out.

Definition value_byte_size (ty : ColumnType) (b : bytes) : result Z :=
  match ty with
  | TInt32 | TDate => Ok 4
  | TInt64 | TTimestamp | TDecimal _ _ => Ok 8
  | TBoolean => Ok 1
  | TChar n => Ok n
  | TVarchar _ | TBytes _ =>
      if len b <? 2
      then Err (StorageCorrupted "tuple::value_byte_size: need length prefix") else
      raw ← slice 0 2 b;
      Ok (2 + from_le_bytes raw)
  end.

(** The walk of [decode_column]; running off the end is the [unreachable!]. *)
Fixpoint walk_columns (bitmap b : bytes) (i cursor : Z) (types : list ColumnType) (col_idx : Z) :
    result Value :=
  match types with
  | [] => Panic
  | ty :: rest =>
      null ← is_null_bit_set bitmap i;
      if null : bool then walk_columns bitmap b (i + 1) cursor rest col_idx else
      if len b <? cursor
      then Err (StorageCorrupted "tuple::decode_column: column data runs past end of tuple") else
      if i =? col_idx then
        tail ← slice_from cursor b;
        '(v, _) ← decode_value ty tail;
        Ok v
      else
        tail ← slice_from cursor b;
        size ← value_byte_size ty tail;
        walk_columns bitmap b (i + 1) (cursor + size) rest col_idx
  end.

Definition decode_column (types : list ColumnType) (b : bytes) (col_idx : Z) : result Value :=
  if len types <=? col_idx
  then Err (StorageCorrupted "tuple::decode_column: index out of range") else
  let bitmap_len := bitmap_byte_count (len types) in
  if len b <? bitmap_len
  then Err (StorageCorrupted "tuple::decode_column: not enough bytes for null bitmap") else
  bitmap ← slice 0 bitmap_len b;
  null ← is_null_bit_set bitmap col_idx;
  if null : bool then Ok VNull else
  walk_columns bitmap b 0 bitmap_len types col_idx.

(** ** Specification *)

(** A value a stored column of type [ty] holds. *)
Definition cell_ok (ty : ColumnType) (v : Value) : bool :=
  value_wf v && type_wf ty && matches v ty &&
  match v, ty with
  | VChar s, TChar n => negb (contains_nul s) && (len s <=? n)
  | VVarchar s, TVarchar n | VBytes s, TBytes n => len s <=? n
  | _, _ => true
  end.

Definition row_ok (types : list ColumnType) (row : list Value) : Prop :=
  Forall2 (fun t v => cell_ok t v = true) types row.

Definition cell (ty : ColumnType) (v : Value) : bytes :=
  match v with
  | VNull => []
  | _ => match encode_value ty v [] with Ok b => b | _ => [] end
  end.

(** Bit [i] of a bitmap. *)
Definition null_bit (b : bytes) (i : Z) : bool :=
  match b !! Z.to_nat (i / 8) with Some c => Z.testbit (u8 c) (i mod 8) | None => false end.

(** *** The bitmap *)

Lemma index_lookup i b c : 0 <= i -> b !! Z.to_nat i = Some c -> @index Error i b = Ok c.
Proof. intros Hi Hc. unfold index. zcase. by rewrite Hc. Qed.

Lemma bitmap_lookup (b : bytes) i :
  0 <= i < 8 * len b -> exists c, b !! Z.to_nat (i / 8) = Some c.
Proof.
  intros Hi. apply lookup_lt_is_Some_2. unfold len in Hi.
  assert (0 <= i / 8 < Z.of_nat (length b)) by (Z.to_euclidean_division_equations; lia). lia.
Qed.

Lemma is_null_bit_set_correct bm i :
  0 <= i < 8 * len bm -> is_null_bit_set bm i = Ok (null_bit bm i).
Proof.
  intros Hi. destruct (bitmap_lookup bm i Hi) as [c Hc]. unfold is_null_bit_set, null_bit.
  rewrite (index_lookup _ _ c) by (try done; Z.to_euclidean_division_equations; lia).
  cbn. rewrite Hc. f_equal.
  change 1 with (Z.ones 1) at 1. rewrite Z.land_ones by lia. change (2 ^ 1) with 2.
  rewrite Z.testbit_odd. set (x := Z.shiftr _ _). rewrite (Zmod_odd x). by destruct (Z.odd x).
Qed.

Lemma set_bit_byte c k :
  0 <= k < 8 -> u8 (byte.of_Z (Z.lor (u8 c) (Z.shiftl 1 k))) = Z.lor (u8 c) (Z.shiftl 1 k).
Proof.
  intros Hk. rewrite byte.unsigned_of_Z. unfold byte.wrap. apply Z.mod_small.
  pose proof (byte.unsigned_range c) as Hc. rewrite Z.shiftl_1_l.
  split; [apply Z.lor_nonneg; lia|].
  destruct (Z.eq_dec (Z.lor (u8 c) (2 ^ k)) 0) as [->|]; [lia|].
  apply Z.log2_lt_pow2; [pose proof (Z.lor_nonneg (u8 c) (2 ^ k)); lia|].
  rewrite Z.log2_lor by lia. apply Z.max_lub_lt; [|rewrite Z.log2_pow2; lia].
  destruct (Z.eq_dec (u8 c) 0) as [->|]; [done|]. apply Z.log2_lt_pow2; lia.
Qed.

Lemma set_null_bit_correct bm tl i :
  0 <= i < 8 * len bm ->
  exists bm', set_null_bit i (bm ++ tl) = Ok (bm' ++ tl) /\ len bm' = len bm /\
    forall j, 0 <= j < 8 * len bm -> null_bit bm' j = (i =? j) || null_bit bm j.
Proof.
  intros Hi. destruct (bitmap_lookup bm i Hi) as [c Hc].
  assert (Hlt : (Z.to_nat (i / 8) < length bm)%nat) by (by apply lookup_lt_Some in Hc).
  unfold set_null_bit.
  rewrite (index_lookup _ _ c) by (try (Z.to_euclidean_division_equations; lia);
                                   by rewrite lookup_app_l). cbn.
  rewrite insert_app_l by done. eexists; split_and!; [done| |].
  { unfold len. by rewrite length_insert. }
  intros j Hj. unfold null_bit. destruct (decide (i / 8 = j / 8)) as [E|E].
  - rewrite <- E, list_lookup_insert_eq, Hc by done.
    rewrite set_bit_byte by (Z.to_euclidean_division_equations; lia).
    rewrite Z.shiftl_1_l, Z.lor_spec, Z.pow2_bits_eqb by (Z.to_euclidean_division_equations; lia).
    rewrite orb_comm. f_equal. repeat zcase; Z.to_euclidean_division_equations; lia.
  - rewrite list_lookup_insert_ne by (Z.to_euclidean_division_equations; lia).
    zcase; [congruence|done].
Qed.

(** *** One cell *)

Lemma cell_ok_parts ty v :
  cell_ok ty v = true -> value_wf v = true /\ type_wf ty = true /\ matches v ty = true.
Proof. unfold cell_ok. intros; zbool; done. Qed.

Ltac cell_cases ty v H :=
  destruct v, ty; try (unfold cell_ok in H; cbn in H; rewrite ?andb_false_r in H; discriminate H).

Lemma encode_value_ok ty v out :
  cell_ok ty v = true -> v <> VNull -> encode_value ty v out = Ok (out ++ cell ty v).
Proof.
  intros H Hn. cell_cases ty v H; try done; unfold cell, encode_varlen; cbn [encode_value];
    unfold encode_varlen; unfold cell_ok in H; cbn -[Z.leb] in H; zbool.
  - zcase. by rewrite <- app_assoc.
  - destruct (contains_nul s); [done|]. zcase. by rewrite <- app_assoc.
  - zcase. by rewrite <- app_assoc.
Qed.

Lemma read_le_spec msg (k : nat) n x :
  (0 < k)%nat -> - 2 ^ (8 * Z.of_nat k - 1) <= n < 2 ^ (8 * Z.of_nat k - 1) ->
  read_le msg (Z.of_nat k) (to_le_bytes k n ++ x) = Ok n.
Proof.
  intros Hk Hn. unfold read_le. rewrite len_app, len_to_le_bytes. pose proof (len_nonneg x). zcase.
  rewrite slice_prefix by (by rewrite len_to_le_bytes). cbn.
  rewrite from_to_le_bytes_mod. f_equal. apply as_signed_unsigned; lia.
Qed.

Lemma decode_varlen_spec m1 m2 b x :
  len b < 2 ^ 16 ->
  decode_varlen m1 m2 ((to_le_bytes 2 (as_unsigned 16 (len b)) ++ b) ++ x) = Ok (b, 2 + len b).
Proof.
  intros Hb. pose proof (len_nonneg b). pose proof (len_nonneg x).
  rewrite as_unsigned_small, <- app_assoc by lia. unfold decode_varlen.
  rewrite !len_app, len_to_le_bytes. zcase. rewrite slice_prefix by done. cbn.
  rewrite from_to_le_bytes_mod, Z.mod_small by (change (8 * Z.of_nat 2) with 16; lia).
  change (Z.of_nat 2) with 2. zcase. rewrite slice_mid by (rewrite ?len_to_le_bytes; done). done.
Qed.

Lemma decode_value_cell ty v x :
  cell_ok ty v = true -> v <> VNull ->
  decode_value ty (cell ty v ++ x) = Ok (v, len (cell ty v)).
Proof.
  intros H Hn. pose proof (cell_ok_parts _ _ H) as (Wv & Wt & Mv).
  cell_cases ty v H; try done; unfold cell; cbn [encode_value decode_value app];
    cbn [value_wf] in Wv; unfold in_i32, in_i64 in Wv;
    try (unfold cell_ok, encode_varlen in *; cbn -[Z.leb] in H, Wt; unfold in_u16 in Wt; zbool).
  - rewrite (read_le_spec _ 4) by lia. done.
  - rewrite (read_le_spec _ 8) by lia. done.
  - zcase. cbn [app]. rewrite decode_varlen_spec by lia. cbn. rewrite Wv. do 2 f_equal.
    autorewrite with len. lia.
  - destruct (contains_nul s) eqn:Hs; [done|]. destruct (Z.ltb_spec n (len s)) as [?|Hl]; [lia|]. cbn [app].
    pose proof (len_enc_char n s (conj Hs Hl)) as L. fold (enc_char n s).
    rewrite len_app, L. pose proof (len_nonneg x). zcase. rewrite slice_prefix by done. cbn.
    unfold enc_char. rewrite content_end_pad, slice_prefix by done. cbn. by rewrite Wv.
  - zcase. cbn [app]. rewrite decode_varlen_spec by lia. cbn. do 2 f_equal.
    autorewrite with len. lia.
  - apply decimal_wf_iff in Wv. rewrite (read_le_spec _ 8) by lia.
    unfold MAX_SCALE in *. cbn. rewrite from_i64_ok by lia. cbn. subst. by destruct d.
  - rewrite (read_le_spec _ 8) by lia. done.
  - by destruct b.
  - rewrite (read_le_spec _ 4) by lia. done.
Qed.

(** *** Encoding a row *)

(** [marks bm i row]: from column [i] on, the bitmap has exactly the NULLs of
    [row]. *)
Definition marks (bm : bytes) (i : Z) (row : list Value) : Prop :=
  forall j v, row !! j = Some v -> null_bit bm (i + Z.of_nat j) = is_null v.

Lemma encode_columns_ok types row i bm tl :
  row_ok types row -> 0 <= i -> i + len row <= 8 * len bm ->
  (forall j, i <= j < i + len row -> null_bit bm j = false) ->
  exists bm', encode_columns i (zip types row) (bm ++ tl)
      = Ok (bm' ++ tl ++ concat (zip_with cell types row)) /\
    len bm' = len bm /\ marks bm' i row /\ (forall j, 0 <= j < i -> null_bit bm' j = null_bit bm j).
Proof.
  intros H. revert i bm tl; induction H as [|t v types row Hv H IH]; intros i bm tl Hi Hb Hz.
  { exists bm. cbn. rewrite app_nil_r. split_and!; try done. }
  rewrite len_cons in Hb, Hz. pose proof (len_nonneg row).
  assert (Hstep : exists bm1 tl1,
    encode_columns i (zip (t :: types) (v :: row)) (bm ++ tl)
    = encode_columns (i + 1) (zip types row) (bm1 ++ tl1) /\
    tl1 = tl ++ cell t v /\ len bm1 = len bm /\ null_bit bm1 i = is_null v /\
    (forall j, 0 <= j < 8 * len bm -> j <> i -> null_bit bm1 j = null_bit bm j)).
  { destruct (decide (v = VNull)) as [->|Hn].
    - destruct (set_null_bit_correct bm tl i ltac:(lia)) as (bm1 & E & L & B).
      exists bm1, tl. cbn. rewrite E, app_nil_r. split_and!; try done.
      + rewrite B by lia. by rewrite Z.eqb_refl.
      + intros j Hj Hji. rewrite B by lia. by zcase.
    - exists bm, (tl ++ cell t v). split_and!; try done.
      + pose proof (encode_value_ok t v (bm ++ tl) Hv Hn) as E. rewrite <- app_assoc in E.
        destruct v; try done; cbn [zip zip_with encode_columns]; by rewrite E.
      + rewrite Hz by lia. by destruct v. }
  destruct Hstep as (bm1 & tl1 & -> & -> & L1 & B1 & B2).
  destruct (IH (i + 1) bm1 (tl ++ cell t v)) as (bm' & E & L & M & B); [lia..| |].
  { intros j Hj. rewrite B2 by lia. apply Hz. lia. }
  exists bm'. rewrite E. split_and!.
  - cbn. by rewrite <- app_assoc.
  - lia.
  - intros [|j] w Hw; cbn in Hw; [injection Hw as <-; rewrite Z.add_0_r, B by lia; done|].
    rewrite <- (M j w Hw). f_equal. lia.
  - intros j Hj. rewrite B by lia. apply B2; lia.
Qed.

Lemma marks_tail bm i v row : marks bm i (v :: row) -> marks bm (i + 1) row.
Proof. intros M j w Hw. rewrite <- (M (S j) w Hw). f_equal. lia. Qed.

Lemma decode_columns_ok types row i bm pre x out :
  row_ok types row -> 0 <= i -> i + len row <= 8 * len bm -> marks bm i row ->
  decode_columns bm (pre ++ concat (zip_with cell types row) ++ x) i (len pre) types out
  = Ok (out ++ row, len pre + len (concat (zip_with cell types row))).
Proof.
  intros H. revert i pre out; induction H as [|t v types row Hv H IH]; intros i pre out Hi Hb M.
  { cbn. by rewrite app_nil_r, len_nil, Z.add_0_r. }
  rewrite len_cons in Hb. pose proof (len_nonneg row). cbn [decode_columns zip_with concat].
  pose proof (M 0%nat v eq_refl) as M0. rewrite Z.add_0_r in M0. apply marks_tail in M.
  rewrite is_null_bit_set_correct, M0 by lia. destruct (decide (v = VNull)) as [->|Hn].
  - cbn [cell app]. cbn -[decode_columns]. rewrite IH by (done || lia). by rewrite <- app_assoc.
  - replace (is_null v) with false by (by destruct v). cbn -[decode_columns].
    rewrite slice_from_app by done. cbn -[decode_columns]. rewrite <- app_assoc, decode_value_cell by done.
    cbn -[decode_columns]. rewrite (app_assoc pre), <- len_app.
    rewrite IH by (done || lia). rewrite <- app_assoc. do 2 f_equal. solve_len.
Qed.

Lemma null_bit_zero n j : null_bit (replicate n (byte.of_Z 0)) j = false.
Proof.
  unfold null_bit. destruct (_ !! _) eqn:E; [|done].
  apply lookup_replicate in E as [-> _]. apply Z.testbit_0_l.
Qed.

Lemma bitmap_fits n : 0 <= n -> 0 <= bitmap_byte_count n /\ n <= 8 * bitmap_byte_count n.
Proof. unfold bitmap_byte_count. Z.to_euclidean_division_equations; lia. Qed.

Lemma encode_ok types row :
  row_ok types row ->
  exists bm, encode types row = Ok (bm ++ concat (zip_with cell types row)) /\
    len bm = bitmap_byte_count (len types) /\ marks bm 0 row.
Proof.
  intros H. pose proof (Forall2_length _ _ _ H) as Hl. unfold encode.
  assert (El : len types = len row) by (unfold len; lia). rewrite El, Z.eqb_refl. cbn [negb].
  destruct (bitmap_fits (len row) (len_nonneg _)) as [B1 B2].
  set (bm0 := replicate _ _). assert (L0 : len bm0 = bitmap_byte_count (len row)).
  { unfold bm0. rewrite len_replicate. lia. }
  destruct (encode_columns_ok types row 0 bm0 []) as (bm & E & L & M & _); [done|lia|lia| |].
  { intros. apply null_bit_zero. }
  exists bm. rewrite app_nil_r in E. rewrite E. split_and!; [done|lia|done].
Qed.

(** *** Decoding arbitrary bytes *)

Lemma read_le_total msg k b : 0 <= k -> no_panic (read_le msg k b).
Proof. intros. unfold read_le. zcase; [done|]. by rewrite slice_ok by lia. Qed.

Lemma read_le_len msg k b n : read_le msg k b = Ok n -> k <= len b.
Proof. unfold read_le. by zcase. Qed.

Lemma decode_varlen_total m1 m2 b : no_panic (decode_varlen m1 m2 b).
Proof.
  unfold decode_varlen. zcase; [done|]. rewrite slice_ok by lia. cbn. set (raw := take _ _).
  pose proof (from_le_bytes_bound raw). zcase; [done|]. by rewrite slice_ok by lia.
Qed.

Lemma decode_varlen_size m1 m2 b v c :
  decode_varlen m1 m2 b = Ok (v, c) ->
  (if len b <? 2 then Err (StorageCorrupted "tuple::value_byte_size: need length prefix") else
   raw ← slice 0 2 b; Ok (2 + from_le_bytes raw)) = Ok c /\ 0 <= c <= len b.
Proof.
  unfold decode_varlen. zcase; [done|]. intros. rewrite slice_ok in * by lia. cbn in *.
  split_if; [done|]. inv_ok. zbool. set (raw := take _ _) in *.
  pose proof (from_le_bytes_bound raw). split; [done|lia].
Qed.

Lemma decode_value_total ty b : type_wf ty = true -> no_panic (decode_value ty b).
Proof.
  intros Ht. destruct ty; cbn [decode_value];
    try (apply bind_no_panic; [apply read_le_total; lia|done]).
  - apply bind_no_panic; [apply decode_varlen_total|]. intros [v c] _. by split_if.
  - cbn in Ht. unfold in_u16 in Ht. zbool. zcase; [done|]. rewrite slice_ok by lia. cbn.
    set (raw := take _ _). pose proof (content_end_bound raw). rewrite slice_ok by lia. cbn.
    by split_if.
  - apply bind_no_panic; [apply decode_varlen_total|]. by intros [v c] _.
  - apply bind_no_panic; [apply read_le_total; lia|]. intros m _. cbn in Ht. zbool.
    unfold from_i64_with_scale. by zcase.
  - destruct b; [done|]. by repeat zcase.
Qed.

(** A decoded value occupies exactly the bytes [value_byte_size] says. *)
Lemma decode_value_size ty b v c :
  type_wf ty = true -> decode_value ty b = Ok (v, c) ->
  value_byte_size ty b = Ok c /\ 0 <= c <= len b.
Proof.
  intros Ht. destruct ty; cbn [decode_value value_byte_size]; intros H;
    try (apply bind_Ok_inv in H as (n' & H1%read_le_len & [= _ <-]); split; [done|lia]).
  - apply bind_Ok_inv in H as ([raw c'] & H1 & H2). destruct (utf8_valid raw); [|done].
    injection H2 as _ <-. by apply decode_varlen_size in H1.
  - cbn in Ht. unfold in_u16 in Ht. split_if; [done|]. inv_ok. split_if; [|done]. by inv_ok; zbool.
  - apply bind_Ok_inv in H as ([raw c'] & H1 & [= _ <-]). by apply decode_varlen_size in H1.
  - apply bind_Ok_inv in H as (n' & H1%read_le_len & H2). inv_ok. done.
  - destruct b as [|x b]; [done|]. rewrite len_cons. pose proof (len_nonneg b).
    repeat split_if; try done; injection H as _ <-; split; done || lia.
Qed.

Lemma value_byte_size_total ty b :
  type_wf ty = true -> no_panic (value_byte_size ty b) /\
  forall c, value_byte_size ty b = Ok c -> 0 <= c.
Proof.
  intros Ht. destruct ty; cbn [value_byte_size]; try (split; [done|]; intros ? [= <-]; lia).
  - split_if; [done|]. zbool. rewrite slice_ok by lia. cbn. set (raw := take _ _). split; [done|].
    intros ? [= <-]. pose proof (from_le_bytes_bound raw). lia.
  - cbn in Ht. unfold in_u16 in Ht. zbool. split; [done|]. intros ? [= <-]. done.
  - split_if; [done|]. zbool. rewrite slice_ok by lia. cbn. set (raw := take _ _). split; [done|].
    intros ? [= <-]. pose proof (from_le_bytes_bound raw). lia.
Qed.

Lemma decode_columns_total bm b i cursor types out :
  forallb type_wf types = true -> 0 <= i -> i + len types <= 8 * len bm -> 0 <= cursor <= len b ->
  no_panic (decode_columns bm b i cursor types out).
Proof.
  revert i cursor out; induction types as [|ty types IH]; intros i cursor out Ht Hi Hb Hc; [done|].
  cbn in Ht. apply andb_true_iff in Ht as [Hty Ht]. rewrite len_cons in Hb.
  pose proof (len_nonneg types). cbn [decode_columns]. rewrite is_null_bit_set_correct by lia.
  cbn -[decode_columns]. destruct (null_bit bm i); [apply IH; done || lia|].
  unfold slice_from. rewrite slice_ok by lia. cbn -[decode_columns]. set (tail := take _ _).
  assert (Hl : len tail = len b - cursor) by (unfold tail; solve_len).
  apply bind_no_panic; [by apply decode_value_total|]. intros [v c] [_ Hv]%decode_value_size; [|done].
  apply IH; done || lia.
Qed.

Lemma walk_columns_total bm b i cursor types k :
  forallb type_wf types = true -> 0 <= i -> i + len types <= 8 * len bm -> 0 <= cursor ->
  i <= k < i + len types -> null_bit bm k = false ->
  no_panic (walk_columns bm b i cursor types k).
Proof.
  revert i cursor; induction types as [|ty types IH]; intros i cursor Ht Hi Hb Hc Hk Hn.
  { rewrite len_nil in Hk. lia. }
  cbn in Ht. apply andb_true_iff in Ht as [Hty Ht]. rewrite len_cons in *.
  pose proof (len_nonneg types). cbn [walk_columns]. rewrite is_null_bit_set_correct by lia.
  cbn -[walk_columns]. destruct (null_bit bm i) eqn:Hbi.
  { apply IH; try done; try lia. assert (i <> k) by congruence. lia. }
  destruct (Z.ltb_spec (len b) cursor); [done|]. unfold slice_from. rewrite slice_ok by lia.
  cbn -[walk_columns]. destruct (Z.eqb_spec i k).
  - apply bind_no_panic; [by apply decode_value_total|]. by intros [v c].
  - destruct (value_byte_size_total ty (take (Z.to_nat (len b - cursor)) (drop (Z.to_nat cursor) b)) Hty)
      as [T1 T2].
    apply bind_no_panic; [done|]. intros c Hcs%T2. apply IH; done || lia.
Qed.

Definition column_is (bm b : bytes) (i cursor : Z) (types : list ColumnType) (k : nat) (v : Value) : Prop :=
  if null_bit bm (i + Z.of_nat k) then v = VNull
  else walk_columns bm b i cursor types (i + Z.of_nat k) = Ok v.

Lemma decode_columns_walk bm b i cursor types out res c :
  forallb type_wf types = true -> 0 <= i -> i + len types <= 8 * len bm -> 0 <= cursor <= len b ->
  decode_columns bm b i cursor types out = Ok (res, c) ->
  exists row, res = out ++ row /\ length row = length types /\
    forall k v, row !! k = Some v -> column_is bm b i cursor types k v.
Proof.
  revert i cursor out; induction types as [|ty types IH]; intros i cursor out Ht Hi Hb Hc H.
  { exists []. injection H as <- _. by rewrite app_nil_r. }
  cbn in Ht. apply andb_true_iff in Ht as [Hty Ht]. rewrite len_cons in *.
  pose proof (len_nonneg types). cbn [decode_columns] in H.
  rewrite is_null_bit_set_correct in H by lia. cbn -[decode_columns] in H.
  destruct (null_bit bm i) eqn:Hbi.
  - apply IH in H as (row & -> & Hl & Hw); [|done || lia..]. exists (VNull :: row).
    rewrite <- app_assoc. split_and!; [done|by cbn; rewrite Hl|].
    intros [|k] v; cbn; unfold column_is; [intros [= <-]; by rewrite Z.add_0_r, Hbi|].
    intros Hk%Hw. unfold column_is in Hk. replace (i + Z.of_nat (S k)) with (i + 1 + Z.of_nat k) by lia.
    destruct (null_bit bm (i + 1 + Z.of_nat k)); [done|]. cbn [walk_columns]. by rewrite is_null_bit_set_correct, Hbi by lia.
  - unfold slice_from in H. rewrite slice_ok in H by lia. cbn -[decode_columns] in H.
    set (tail := take _ _) in H. assert (Hlt : len tail = len b - cursor) by (unfold tail; solve_len).
    apply bind_Ok_inv in H as ([v0 c0] & Hv & H). pose proof Hv as [Hs Hc0]%decode_value_size; [|done].
    apply IH in H as (row & -> & Hl & Hw); [|done || lia..]. exists (v0 :: row).
    rewrite <- app_assoc. split_and!; [done|by cbn; rewrite Hl|].
    intros [|k] v; cbn [lookup list_lookup]; unfold column_is; cbn [walk_columns].
    + intros [= <-]. rewrite Z.add_0_r, Hbi, is_null_bit_set_correct, Hbi by lia.
      cbn -[walk_columns]. destruct (Z.ltb_spec (len b) cursor); [lia|]. rewrite Z.eqb_refl.
      unfold slice_from. rewrite slice_ok by lia. fold tail. cbn -[walk_columns]. by rewrite Hv.
    + intros Hk%Hw. unfold column_is in Hk.
      replace (i + Z.of_nat (S k)) with (i + 1 + Z.of_nat k) by lia.
      destruct (null_bit bm (i + 1 + Z.of_nat k)); [done|]. cbn [walk_columns]. rewrite is_null_bit_set_correct, Hbi by lia.
      cbn -[walk_columns]. destruct (Z.ltb_spec (len b) cursor); [lia|].
      destruct (Z.eqb_spec i (i + 1 + Z.of_nat k)); [lia|].
      unfold slice_from. rewrite slice_ok by lia. fold tail. cbn -[walk_columns]. by rewrite Hs.
Qed.

Lemma row_round_trip types row :
  row_ok types row -> exists b, encode types row = Ok b /\ decode types b = Ok row.
Proof.
  intros H. destruct (encode_ok types row H) as (bm & -> & L & M). eexists; split; [done|].
  unfold decode. rewrite <- L. set (body := concat _). pose proof (len_nonneg body).
  rewrite len_app. zcase. rewrite slice_prefix by done. cbn -[decode_columns].
  pose proof (Forall2_length _ _ _ H) as Hl.
  destruct (bitmap_fits (len types) (len_nonneg _)) as [_ B2].
  pose proof (decode_columns_ok types row 0 bm bm [] [] H) as E. rewrite app_nil_r in E.
  fold body in E. rewrite E; [|unfold len in *; lia..|done]. cbn. by rewrite Z.eqb_refl.
Qed.

(** ** Theorems *)

(** C38. A stored row reads back: every row that fits its schema encodes, and
    decoding the blob returns the row. *)
Theorem tuple_round_trip types row :
  row_ok types row -> exists b, encode types row = Ok b /\ decode types b = Ok row.
Proof. apply row_round_trip. Qed.

Lemma tuple_round_trip_witness :
  exists b, encode [TInt32; TVarchar 4; TChar 2] [VInt32 (-2); VNull; VChar []] = Ok b /\
    decode [TInt32; TVarchar 4; TChar 2] b = Ok [VInt32 (-2); VNull; VChar []].
Proof. apply tuple_round_trip; repeat constructor. Defined.

(** Reading one column of a blob gives the same value as decoding the whole
    row, for any bytes that decode. *)
Theorem decode_column_agrees types b row k v :
  forallb type_wf types = true -> decode types b = Ok row -> row !! k = Some v ->
  decode_column types b (Z.of_nat k) = Ok v.
Proof.
  intros Ht H Hk. unfold decode in H. unfold decode_column.
  destruct (bitmap_fits (len types) (len_nonneg _)) as [B1 B2].
  destruct (Z.ltb_spec (len b) (bitmap_byte_count (len types))); [done|].
  rewrite slice_ok in * by lia. cbn -[decode_columns walk_columns] in *.
  set (bm := take _ _) in *. assert (Lb : len bm = bitmap_byte_count (len types)) by (unfold bm; solve_len).
  apply bind_Ok_inv in H as ([res c] & H & H2).
  destruct (c =? len b); [|done]. injection H2 as ->.
  apply decode_columns_walk in H as (row' & -> & Hl & Hw); [|done || lia..]. cbn in Hk.
  pose proof (lookup_lt_Some _ _ _ Hk). destruct (Z.leb_spec (len types) (Z.of_nat k)); [unfold len in *; lia|].
  specialize (Hw k v Hk). unfold column_is in Hw. rewrite Z.add_0_l in Hw.
  rewrite is_null_bit_set_correct by lia. cbn -[walk_columns].
  by destruct (null_bit bm (Z.of_nat k)); subst.
Qed.

Lemma decode_column_agrees_witness :
  decode_column [TInt32; TVarchar 4; TBoolean] (map byte.of_Z [2; 254; 255; 255; 255; 1]) 2
  = Ok (VBoolean true).
Proof.
  apply (decode_column_agrees _ _ [VInt32 (-2); VNull; VBoolean true] 2); reflexivity.
Defined.

(** No blob makes decoding panic, whole or by column: corrupt bytes give an
    error. *)
Theorem tuple_decode_total types b k :
  forallb type_wf types = true -> 0 <= k ->
  no_panic (decode types b) /\ no_panic (decode_column types b k).
Proof.
  intros Ht Hk. unfold decode, decode_column.
  destruct (bitmap_fits (len types) (len_nonneg _)) as [B1 B2]. split.
  - zcase; [done|]. rewrite slice_ok by lia. cbn -[decode_columns].
    set (bm := take _ _). assert (Lb : len bm = bitmap_byte_count (len types)) by (unfold bm; solve_len).
    apply bind_no_panic; [apply decode_columns_total; done || lia|]. intros [vs c] _. by split_if.
  - destruct (Z.leb_spec (len types) k); [done|].
    destruct (Z.ltb_spec (len b) (bitmap_byte_count (len types))); [done|].
    rewrite slice_ok by lia. cbn -[walk_columns].
    set (bm := take _ _). assert (Lb : len bm = bitmap_byte_count (len types)) by (unfold bm; solve_len).
    rewrite is_null_bit_set_correct by lia. cbn -[walk_columns].
    destruct (null_bit bm k) eqn:Hn; [done|]. apply walk_columns_total; done || lia.
Qed.

Lemma tuple_decode_total_witness :
  no_panic (decode [TVarchar 4; TInt64] (map byte.of_Z [0; 200])) /\
  no_panic (decode_column [TVarchar 4; TInt64] (map byte.of_Z [0; 200]) 1).
Proof. apply tuple_decode_total; [reflexivity|lia]. Defined.

(** ** Examples *)

Example tuple_example :
  let types := [TInt32; TVarchar 4; TBoolean] in
  let row := [VInt32 (-2); VNull; VBoolean true] in
  encode types row = Ok (map byte.of_Z [2; 254; 255; 255; 255; 1]) /\
  (b ← encode types row; decode types b) = Ok row /\
  (b ← encode types row; decode_column types b 2) = Ok (VBoolean true).
Proof. split_and!; reflexivity. Qed.
