(* ===== verification/WalRecord.v ===== *)
(** Write-ahead-log records (crates/idb-wal/src/wal/record.rs, lsn.rs).

    The checksum is crc32fast's [hash], a parameter: any function into [u32]. *)

From Stdlib Require Import ZArith Lia List Bool.
From coqutil Require Import Byte.
From stdpp Require Import base list strings.
From S2P Require Import Prelude Common.
#[local] Open Scope Z_scope.

(** [Lsn::INVALID]; an LSN is its [u64]. *)
Definition LSN_INVALID : Z := 2 ^ 64 - 1.
Definition lsn_is_valid (lsn : Z) : bool := negb (lsn =? LSN_INVALID).

Definition HEADER_SIZE : Z := 29.
Definition CRC_SIZE : Z := 4.
Definition MIN_RECORD_SIZE : Z := HEADER_SIZE + CRC_SIZE.
Definition MAX_RECORD_SIZE : Z := 64 * 1024 * 1024.

Inductive LogRecordType : Type :=
| RPut | RDelete | RBegin | RCommit | RAbort | RCheckpoint | RTxnPut | RTxnDelete.

Definition type_byte (t : LogRecordType) : Z :=
  match t with
  | RPut => 1 | RDelete => 2 | RBegin => 3 | RCommit => 4
  | RAbort => 5 | RCheckpoint => 6 | RTxnPut => 7 | RTxnDelete => 8
  end.

Definition from_u8 (value : Z) : option LogRecordType :=
  match value with
  | 1 => Some RPut | 2 => Some RDelete | 3 => Some RBegin | 4 => Some RCommit
  | 5 => Some RAbort | 6 => Some RCheckpoint | 7 => Some RTxnPut | 8 => Some RTxnDelete
  | _ => None
  end.

Inductive LogPayload : Type :=
| PPut (key value : bytes)
| PDelete (key : bytes)
| PBegin
| PCommit (commit_ts : Z)
| PAbort
| PCheckpoint (active_txn_ids : list Z) (oracle_ts next_txn_id : Z)
| PTxnPut (key value : bytes) (old_value : option bytes)
| PTxnDelete (key : bytes) (old_value : option bytes).

Record LogRecord := mkRecord { lsn : Z; txn_id : Z; prev_lsn : Z; payload : LogPayload }.

Definition put (key value : bytes) : LogRecord :=
  mkRecord LSN_INVALID 0 LSN_INVALID (PPut key value).
Definition delete (key : bytes) : LogRecord :=
  mkRecord LSN_INVALID 0 LSN_INVALID (PDelete key).
Definition begin (txn : Z) : LogRecord := mkRecord LSN_INVALID txn LSN_INVALID PBegin.
Definition commit (txn prev commit_ts : Z) : LogRecord :=
  mkRecord LSN_INVALID txn prev (PCommit commit_ts).
Definition abort (txn prev : Z) : LogRecord := mkRecord LSN_INVALID txn prev PAbort.
Definition txn_put (txn prev : Z) (key value : bytes) (old : option bytes) : LogRecord :=
  mkRecord LSN_INVALID txn prev (PTxnPut key value old).
Definition txn_delete (txn prev : Z) (key : bytes) (old : option bytes) : LogRecord :=
  mkRecord LSN_INVALID txn prev (PTxnDelete key old).
Definition checkpoint (active : list Z) (oracle_ts next_txn_id : Z) : LogRecord :=
  mkRecord LSN_INVALID 0 LSN_INVALID (PCheckpoint active oracle_ts next_txn_id).

Definition record_type (r : LogRecord) : LogRecordType :=
  match payload r with
  | PPut _ _ => RPut
  | PDelete _ => RDelete
  | PBegin => RBegin
  | PCommit _ => RCommit
  | PAbort => RAbort
  | PCheckpoint _ _ _ => RCheckpoint
  | PTxnPut _ _ _ => RTxnPut
  | PTxnDelete _ _ => RTxnDelete
  end.

Definition old_size (old : option bytes) : Z :=
  match old with Some ov => 2 + len ov | None => 0 end.

Definition payload_size (p : LogPayload) : Z :=
  match p with
  | PPut key value => 2 + len key + 2 + len value
  | PDelete key => 2 + len key
  | PBegin => 0
  | PCommit _ => 8
  | PAbort => 0
  | PCheckpoint active _ _ => 4 + len active * 8 + 8 + 8
  | PTxnPut key value old => 2 + len key + 2 + len value + 1 + old_size old
  | PTxnDelete key old => 2 + len key + 1 + old_size old
  end.

(** [(b.len() as u16).to_le_bytes()] followed by [b]. *)
Definition sized (b : bytes) : bytes := to_le_bytes 2 (as_unsigned 16 (len b)) ++ b.

Definition encode_old (old : option bytes) : bytes :=
  match old with Some ov => byte.of_Z 1 :: sized ov | None => [byte.of_Z 0] end.

Definition encode_payload (p : LogPayload) (buf : bytes) : bytes :=
  buf ++
  match p with
  | PPut key value => sized key ++ sized value
  | PDelete key => sized key
  | PBegin => []
  | PCommit commit_ts => to_le_bytes 8 commit_ts
  | PAbort => []
  | PCheckpoint active oracle_ts next_txn_id =>
      to_le_bytes 4 (as_unsigned 32 (len active)) ++ concat (map (to_le_bytes 8) active) ++
      to_le_bytes 8 oracle_ts ++ to_le_bytes 8 next_txn_id
  | PTxnPut key value old => sized key ++ sized value ++ encode_old old
  | PTxnDelete key old => sized key ++ encode_old old
  end.

(** Little-endian integer of [n] bytes at offset [i]. *)
Definition le_at (n i : Z) (buf : bytes) : result Z :=
  raw ← slice i (i + n) buf; Ok (from_le_bytes raw).

Definition corrupt {A} (msg : string) : result A := Err (StorageCorrupted msg).

Definition decode_old (at_len at_value : string) (oo : Z) (buf : bytes) :
    result (option bytes) :=
  has ← index oo buf;
  if u8 has =? 1 then
    if len buf <? oo + 3 then corrupt at_len else
    ol ← le_at 2 (oo + 1) buf;
    if len buf <? oo + 3 + ol then corrupt at_value else
    ov ← slice (oo + 3) (oo + 3 + ol) buf;
    Ok (Some ov)
  else Ok None.

(** The loop that reads [count] transaction ids, from the [i]-th on. *)
Fixpoint read_txn_ids (count : nat) (i : Z) (buf : bytes) : result (list Z) :=
  match count with
  | O => Ok []
  | S count =>
      id ← le_at 8 (4 + i * 8) buf;
      rest ← read_txn_ids count (i + 1) buf;
      Ok (id :: rest)
  end.

Definition decode_payload (t : LogRecordType) (buf : bytes) : result LogPayload :=
  match t with
  | RPut =>
      if len buf <? 4 then corrupt "WAL Put payload too short" else
      key_len ← le_at 2 0 buf;
      if len buf <? 2 + key_len + 2 then corrupt "WAL Put payload truncated at key" else
      key ← slice 2 (2 + key_len) buf;
      let val_offset := 2 + key_len in
      val_len ← le_at 2 val_offset buf;
      if len buf <? val_offset + 2 + val_len
      then corrupt "WAL Put payload truncated at value" else
      value ← slice (val_offset + 2) (val_offset + 2 + val_len) buf;
      Ok (PPut key value)
  | RDelete =>
      if len buf <? 2 then corrupt "WAL Delete payload too short" else
      key_len ← le_at 2 0 buf;
      if len buf <? 2 + key_len then corrupt "WAL Delete payload truncated" else
      key ← slice 2 (2 + key_len) buf;
      Ok (PDelete key)
  | RBegin => Ok PBegin
  | RCommit =>
      if len buf <? 8 then corrupt "WAL Commit payload too short" else
      commit_ts ← le_at 8 0 buf;
      Ok (PCommit commit_ts)
  | RAbort => Ok PAbort
  | RCheckpoint =>
      if len buf <? 4 then corrupt "WAL Checkpoint payload too short" else
      count ← le_at 4 0 buf;
      if len buf <? 4 + count * 8 then corrupt "WAL Checkpoint payload truncated" else
      active ← read_txn_ids (Z.to_nat count) 0 buf;
      let ts_offset := 4 + count * 8 in
      oracle_ts ← (if ts_offset + 8 <=? len buf then le_at 8 ts_offset buf else Ok 0);
      let nid_offset := ts_offset + 8 in
      next_txn_id ← (if nid_offset + 8 <=? len buf then le_at 8 nid_offset buf else Ok 0);
      Ok (PCheckpoint active oracle_ts next_txn_id)
  | RTxnPut =>
      if len buf <? 4 then corrupt "WAL TxnPut too short" else
      key_len ← le_at 2 0 buf;
      if len buf <? 2 + key_len + 2 then corrupt "WAL TxnPut truncated at key" else
      key ← slice 2 (2 + key_len) buf;
      let vo := 2 + key_len in
      val_len ← le_at 2 vo buf;
      if len buf <? vo + 2 + val_len + 1 then corrupt "WAL TxnPut truncated at value" else
      value ← slice (vo + 2) (vo + 2 + val_len) buf;
      let oo := vo + 2 + val_len in
      old ← decode_old "WAL TxnPut truncated at old_len" "WAL TxnPut truncated at old_value" oo buf;
      Ok (PTxnPut key value old)
  | RTxnDelete =>
      if len buf <? 2 then corrupt "WAL TxnDelete too short" else
      key_len ← le_at 2 0 buf;
      if len buf <? 2 + key_len + 1 then corrupt "WAL TxnDelete truncated" else
      key ← slice 2 (2 + key_len) buf;
      let oo := 2 + key_len in
      old ← decode_old "WAL TxnDelete truncated at old_len" "WAL TxnDelete truncated at old_value" oo buf;
      Ok (PTxnDelete key old)
  end.

Section record.
Context (crc32 : bytes -> Z).

Definition header (r : LogRecord) (total_size : Z) : bytes :=
  to_le_bytes 4 (as_unsigned 32 total_size) ++ [byte.of_Z (type_byte (record_type r))] ++
  to_le_bytes 8 (lsn r) ++ to_le_bytes 8 (txn_id r) ++ to_le_bytes 8 (prev_lsn r).

Definition encode_record (r : LogRecord) : result bytes :=
  let total_size := HEADER_SIZE + payload_size (payload r) + CRC_SIZE in
  if MAX_RECORD_SIZE <? total_size then Panic else
  let buf := header r total_size in
  if negb (len buf =? HEADER_SIZE) then Panic else
  let buf := encode_payload (payload r) buf in
  if negb (len buf =? total_size - CRC_SIZE) then Panic else
  let crc := crc32 buf in
  let buf := buf ++ to_le_bytes 4 crc in
  if negb (len buf =? total_size) then Panic else
  Ok buf.

Definition decode_record (buf : bytes) : result (LogRecord * Z) :=
  if len buf <? 4 then corrupt "WAL record too short for length field" else
  length ← le_at 4 0 buf;
  if length <? MIN_RECORD_SIZE then corrupt "WAL record length below minimum" else
  if MAX_RECORD_SIZE <? length then corrupt "WAL record length exceeds maximum" else
  if len buf <? length then corrupt "WAL record truncated" else
  record_buf ← slice 0 length buf;
  stored_crc ← le_at 4 (length - 4) record_buf;
  body ← slice 0 (length - 4) record_buf;
  let computed_crc := crc32 body in
  if negb (stored_crc =? computed_crc) then corrupt "WAL record CRC mismatch" else
  record_type_byte ← index 4 record_buf;
  record_type ← ok_or (from_u8 (u8 record_type_byte)) (StorageCorrupted "WAL invalid record type");
  lsn ← le_at 8 5 record_buf;
  txn_id ← le_at 8 13 record_buf;
  prev_lsn ← le_at 8 21 record_buf;
  payload_buf ← slice HEADER_SIZE (length - CRC_SIZE) record_buf;
  payload ← decode_payload record_type payload_buf;
  Ok (mkRecord lsn txn_id prev_lsn payload, length).
End record.

Example record_example :
  let crc (b : bytes) := from_le_bytes b mod 2 ^ 32 in
  let r := mkRecord 7 3 LSN_INVALID
             (PTxnPut (map byte.of_Z [1; 2]) (map byte.of_Z [9]) (Some (map byte.of_Z [8; 8]))) in
  (b ← encode_record crc r; decode_record crc b) = Ok (r, 45).
Proof. vm_compute. reflexivity. Qed.

(** ** Specification: records whose fields fit their width on disk. *)

Definition small (b : bytes) : bool := len b <? 2 ^ 16.
Definition old_ok (old : option bytes) : bool := match old with Some ov => small ov | None => true end.

Definition payload_ok (p : LogPayload) : bool :=
  match p with
  | PPut key value => small key && small value
  | PDelete key => small key
  | PBegin | PAbort => true
  | PCommit ts => in_u64 ts
  | PCheckpoint active ts nid => forallb in_u64 active && in_u64 ts && in_u64 nid
  | PTxnPut key value old => small key && small value && old_ok old
  | PTxnDelete key old => small key && old_ok old
  end.

Definition record_size (r : LogRecord) : Z := HEADER_SIZE + payload_size (payload r) + CRC_SIZE.

Definition record_ok (r : LogRecord) : bool :=
  in_u64 (lsn r) && in_u64 (txn_id r) && in_u64 (prev_lsn r) && payload_ok (payload r) &&
  (record_size r <=? MAX_RECORD_SIZE).

(** *** Reading at an offset *)

Lemma slice_at {E} pre b post buf lo hi :
  buf = pre ++ b ++ post -> lo = len pre -> hi = lo + len b -> @slice E lo hi buf = Ok b.
Proof. intros -> -> ->. by apply slice_mid. Qed.

Lemma le_at_app pre (k : nat) z post buf n i :
  buf = pre ++ to_le_bytes k z ++ post -> n = Z.of_nat k -> i = len pre ->
  0 <= z < 2 ^ (8 * Z.of_nat k) -> le_at n i buf = Ok z.
Proof.
  intros -> -> -> Hz. unfold le_at. rewrite slice_mid by (rewrite ?len_to_le_bytes; done). cbn.
  by rewrite from_to_le_bytes_mod, Z.mod_small.
Qed.

Lemma le_at_ok n i buf :
  0 <= i -> 0 <= n -> i + n <= len buf ->
  exists z, le_at n i buf = Ok z /\ 0 <= z < 2 ^ (8 * n).
Proof.
  intros. unfold le_at. rewrite slice_ok by lia. cbn. eexists; split; [done|].
  set (raw := take _ _). pose proof (from_le_bytes_bound raw) as B.
  replace (len raw) with n in B by (unfold raw; solve_len). done.
Qed.

Lemma len_sized b : len (sized b) = 2 + len b.
Proof. unfold sized. rewrite len_app, len_to_le_bytes. lia. Qed.

Lemma len_encode_old old : len (encode_old old) = 1 + old_size old.
Proof. destruct old; cbn -[Z.add len]; rewrite ?len_cons, ?len_sized, ?len_nil; lia. Qed.

Lemma len_ids ids : len (concat (map (to_le_bytes 8) ids)) = len ids * 8.
Proof. induction ids as [|x ids IH]; cbn -[len]; [done|]. rewrite len_app, len_cons, len_to_le_bytes, IH. lia. Qed.

#[export] Hint Rewrite len_sized len_encode_old len_ids : len.

Lemma len_encode_payload p buf : len (encode_payload p buf) = len buf + payload_size p.
Proof. unfold encode_payload. rewrite len_app. destruct p; cbn -[Z.add len]; autorewrite with len; lia. Qed.

Lemma len_header r n : len (header r n) = HEADER_SIZE.
Proof. unfold header. autorewrite with len. done. Qed.

Ltac regroup := unfold sized; cbn [app]; rewrite <- ?app_assoc, ?app_nil_r; reflexivity.
Ltac offset := autorewrite with len; lia.

(** Split a read of a field off [b]: give the bytes before and after it. *)
Ltac read_len pre b post := rewrite (le_at_app pre 2 (len b) post); [cbn [mbind outcome_bind]|regroup|done|offset|lia].
Ltac read_bytes pre b post := rewrite (slice_at pre b post); [cbn [mbind outcome_bind]|regroup|offset|lia].

Lemma sized_small b : len b < 2 ^ 16 -> sized b = to_le_bytes 2 (len b) ++ b.
Proof. intros. unfold sized. rewrite as_unsigned_small; [done|]. pose proof (len_nonneg b). lia. Qed.

Lemma decode_old_ok m1 m2 oo pre old :
  old_ok old = true -> oo = len pre -> decode_old m1 m2 oo (pre ++ encode_old old) = Ok old.
Proof.
  intros Ho ->. unfold decode_old. destruct old as [ov|]; cbn [encode_old old_ok] in *;
    rewrite index_app by done; cbn [mbind outcome_bind]; [|done].
  change (u8 (byte.of_Z 1) =? 1) with true. unfold small in Ho. zbool. rewrite sized_small by done.
  pose proof (len_nonneg ov). set (buf := pre ++ _).
  assert (L : len buf = len pre + 3 + len ov) by (unfold buf; autorewrite with len; lia).
  destruct (Z.ltb_spec (len buf) (len pre + 3)); [lia|].
  rewrite (le_at_app (pre ++ [byte.of_Z 1]) 2 (len ov) ov); [|unfold buf; regroup|done|offset|lia].
  cbn [mbind outcome_bind]. destruct (Z.ltb_spec (len buf) (len pre + 3 + len ov)); [lia|].
  rewrite (slice_at (pre ++ byte.of_Z 1 :: to_le_bytes 2 (len ov)) ov []); [done|unfold buf; regroup|offset|lia].
Qed.

Lemma read_txn_ids_ok pre ids post i :
  len pre = 4 + i * 8 -> forallb in_u64 ids = true ->
  read_txn_ids (length ids) i (pre ++ concat (map (to_le_bytes 8) ids) ++ post) = Ok ids.
Proof.
  revert pre i; induction ids as [|x ids IH]; intros pre i Hp Hu; [done|].
  cbn [forallb] in Hu. unfold in_u64 in Hu at 1. zbool. cbn [length map concat read_txn_ids].
  rewrite <- app_assoc.
  rewrite (le_at_app pre 8 x (concat (map (to_le_bytes 8) ids) ++ post)) by (done || lia).
  cbn [mbind outcome_bind]. rewrite (app_assoc pre), IH; [done| |done].
  rewrite len_app, len_to_le_bytes. lia.
Qed.

Definition payload_bytes (p : LogPayload) : bytes := encode_payload p [].

Lemma encode_payload_out p buf : encode_payload p buf = buf ++ payload_bytes p.
Proof. unfold payload_bytes, encode_payload. by rewrite app_nil_l. Qed.

Definition payload_type (p : LogPayload) : LogRecordType := record_type (mkRecord 0 0 0 p).

(** What a key and value of any length read back as: the value is cut to its
    length modulo [2^16]. *)
Definition cut (b : bytes) : bytes := take (Z.to_nat (len b mod 2 ^ 16)) b.

Lemma cut_small b : len b < 2 ^ 16 -> cut b = b.
Proof.
  intros. pose proof (len_nonneg b). unfold cut. rewrite Z.mod_small by lia.
  unfold len. by rewrite Nat2Z.id, firstn_all.
Qed.

Lemma decode_put key value :
  len key < 2 ^ 16 -> decode_payload RPut (payload_bytes (PPut key value)) = Ok (PPut key (cut value)).
Proof.
  intros Hk. unfold payload_bytes, encode_payload. cbn [app]. rewrite sized_small by done.
  pose proof (len_nonneg key). pose proof (len_nonneg value).
  pose proof (Z.mod_pos_bound (len value) (2 ^ 16) ltac:(lia)) as Hm.
  pose proof (Z.mod_le (len value) (2 ^ 16) ltac:(lia) ltac:(lia)) as Hle.
  assert (Lc : len (cut value) = len value mod 2 ^ 16) by (unfold cut; autorewrite with len; lia).
  unfold sized, as_unsigned. set (n := len value mod 2 ^ 16) in *.
  set (buf := (_ ++ key) ++ _).
  assert (L : len buf = 2 + len key + 2 + len value) by (unfold buf; autorewrite with len; lia).
  cbn [decode_payload]. destruct (Z.ltb_spec (len buf) 4); [lia|].
  unfold buf. read_len (@nil byte) key (key ++ to_le_bytes 2 n ++ value). fold buf.
  destruct (Z.ltb_spec (len buf) (2 + len key + 2)); [lia|].
  unfold buf. read_bytes (to_le_bytes 2 (len key)) key (to_le_bytes 2 n ++ value).
  rewrite (le_at_app (to_le_bytes 2 (len key) ++ key) 2 n value); [|regroup|done|offset|lia].
  cbn [mbind outcome_bind]. fold buf. destruct (Z.ltb_spec (len buf) (2 + len key + 2 + n)); [lia|].
  unfold buf. rewrite (slice_at (to_le_bytes 2 (len key) ++ key ++ to_le_bytes 2 n) (cut value)
    (drop (Z.to_nat n) value)); [done| |offset|lia].
  unfold cut. rewrite <- !app_assoc. by rewrite take_drop.
Qed.

Lemma decode_txn_put key value old :
  len key < 2 ^ 16 -> len value < 2 ^ 16 -> old_ok old = true ->
  decode_payload RTxnPut (payload_bytes (PTxnPut key value old)) = Ok (PTxnPut key value old).
Proof.
  intros Hk Hv Ho. unfold payload_bytes, encode_payload. cbn [app]. rewrite !sized_small by done.
  pose proof (len_nonneg key). pose proof (len_nonneg value). pose proof (len_nonneg (encode_old old)).
  set (buf := (_ ++ key) ++ _).
  assert (L : len buf = 2 + len key + 2 + len value + len (encode_old old))
    by (unfold buf; rewrite !len_app, !len_to_le_bytes; lia).
  assert (1 <= len (encode_old old)) by (destruct old; cbn [encode_old]; rewrite len_cons;
    match goal with |- context [len ?b] => pose proof (len_nonneg b) end; lia).
  cbn [decode_payload]. destruct (Z.ltb_spec (len buf) 4); [lia|].
  unfold buf. read_len (@nil byte) key (key ++ to_le_bytes 2 (len value) ++ value ++ encode_old old).
  fold buf. destruct (Z.ltb_spec (len buf) (2 + len key + 2)); [lia|].
  unfold buf. read_bytes (to_le_bytes 2 (len key)) key (to_le_bytes 2 (len value) ++ value ++ encode_old old).
  read_len (to_le_bytes 2 (len key) ++ key) value (value ++ encode_old old).
  fold buf. destruct (Z.ltb_spec (len buf) (2 + len key + 2 + len value + 1)); [lia|].
  unfold buf. read_bytes (to_le_bytes 2 (len key) ++ key ++ to_le_bytes 2 (len value)) value (encode_old old).
  replace ((_ ++ key) ++ _) with
    ((to_le_bytes 2 (len key) ++ key ++ to_le_bytes 2 (len value) ++ value) ++ encode_old old) by regroup.
  rewrite decode_old_ok; [done|done|offset].
Qed.

Lemma decode_txn_delete key old :
  len key < 2 ^ 16 -> old_ok old = true ->
  decode_payload RTxnDelete (payload_bytes (PTxnDelete key old)) = Ok (PTxnDelete key old).
Proof.
  intros Hk Ho. unfold payload_bytes, encode_payload. cbn [app]. rewrite !sized_small by done.
  pose proof (len_nonneg key). set (buf := (_ ++ key) ++ _).
  assert (1 <= len (encode_old old)) by (destruct old; cbn [encode_old]; rewrite len_cons;
    match goal with |- context [len ?b] => pose proof (len_nonneg b) end; lia).
  assert (L : len buf = 2 + len key + len (encode_old old))
    by (unfold buf; rewrite !len_app, !len_to_le_bytes; lia).
  cbn [decode_payload]. destruct (Z.ltb_spec (len buf) 2); [lia|].
  unfold buf. read_len (@nil byte) key (key ++ encode_old old).
  fold buf. destruct (Z.ltb_spec (len buf) (2 + len key + 1)); [lia|].
  unfold buf. read_bytes (to_le_bytes 2 (len key)) key (encode_old old).
  rewrite decode_old_ok; [done|done|offset].
Qed.

Lemma decode_checkpoint ids ts nid :
  forallb in_u64 ids = true -> in_u64 ts = true -> in_u64 nid = true -> len ids < 2 ^ 32 ->
  decode_payload RCheckpoint (payload_bytes (PCheckpoint ids ts nid)) = Ok (PCheckpoint ids ts nid).
Proof.
  intros Hi Ht Hn Hl. unfold in_u64 in Ht, Hn. zbool. pose proof (len_nonneg ids).
  unfold payload_bytes, encode_payload. cbn [app]. rewrite as_unsigned_small by lia.
  set (body := concat _). set (buf := to_le_bytes 4 _ ++ _).
  assert (Lb : len body = len ids * 8) by apply len_ids.
  assert (L : len buf = 4 + len ids * 8 + 8 + 8) by (unfold buf; rewrite !len_app, !len_to_le_bytes; lia).
  cbn [decode_payload]. destruct (Z.ltb_spec (len buf) 4); [lia|].
  rewrite (le_at_app [] 4 (len ids) (body ++ to_le_bytes 8 ts ++ to_le_bytes 8 nid)) by (done || lia).
  cbn [mbind outcome_bind]. destruct (Z.ltb_spec (len buf) (4 + len ids * 8)); [lia|].
  replace (Z.to_nat (len ids)) with (length ids) by (unfold len; lia).
  assert (R : read_txn_ids (length ids) 0 buf = Ok ids) by (by apply read_txn_ids_ok). rewrite R.
  cbn [mbind outcome_bind]. destruct (Z.leb_spec (4 + len ids * 8 + 8) (len buf)); [|lia].
  rewrite (le_at_app (to_le_bytes 4 (len ids) ++ body) 8 ts (to_le_bytes 8 nid) buf 8 (4 + len ids * 8));
    [|unfold buf; regroup|done|rewrite len_app, len_to_le_bytes; lia|lia].
  cbn [mbind outcome_bind]. destruct (Z.leb_spec (4 + len ids * 8 + 8 + 8) (len buf)); [|lia].
  rewrite (le_at_app (to_le_bytes 4 (len ids) ++ body ++ to_le_bytes 8 ts) 8 nid []);
    [done|unfold buf; regroup|done|rewrite !len_app, !len_to_le_bytes; lia|lia].
Qed.

Lemma decode_payload_ok p :
  payload_ok p = true -> payload_size p <= MAX_RECORD_SIZE ->
  decode_payload (payload_type p) (payload_bytes p) = Ok p.
Proof.
  intros Hp Hs. destruct p; cbn [payload_type record_type payload]; cbn [payload_ok] in Hp;
    unfold small in Hp; zbool; try done.
  - rewrite decode_put, cut_small by done. done.
  - unfold payload_bytes, encode_payload. cbn [app decode_payload]. rewrite !sized_small by done.
    pose proof (len_nonneg key). rewrite !len_app, len_to_le_bytes. change (Z.of_nat 2) with 2.
    destruct (Z.ltb_spec (2 + len key) 2); [lia|]. read_len (@nil byte) key key.
    destruct (Z.ltb_spec (2 + len key) (2 + len key)); [lia|].
    read_bytes (to_le_bytes 2 (len key)) key (@nil byte). done.
  - unfold payload_bytes, encode_payload. cbn [app decode_payload]. unfold in_u64 in Hp. zbool.
    rewrite len_to_le_bytes. rewrite (le_at_app [] 8 commit_ts []); [done|by rewrite app_nil_r|done|done|lia].
  - apply decode_checkpoint; try done. cbn in Hs. unfold MAX_RECORD_SIZE in Hs. lia.
  - by apply decode_txn_put.
  - by apply decode_txn_delete.
Qed.

(** *** Whole records *)

Lemma from_u8_type_byte t : from_u8 (type_byte t) = Some t.
Proof. by destruct t. Qed.

Lemma u8_type_byte t : u8 (byte.of_Z (type_byte t)) = type_byte t.
Proof. by destruct t. Qed.

Lemma payload_size_nonneg p : 0 <= payload_size p.
Proof.
  pose proof (len_encode_payload p []) as H. rewrite len_nil in H.
  pose proof (len_nonneg (encode_payload p [])). lia.
Qed.

Section record_facts.
Context (crc32 : bytes -> Z) (Hcrc : forall b, 0 <= crc32 b < 2 ^ 32).

Definition image_body (r : LogRecord) : bytes := header r (record_size r) ++ payload_bytes (payload r).
Definition image (r : LogRecord) : bytes := image_body r ++ to_le_bytes 4 (crc32 (image_body r)).

Lemma len_image_body r : len (image_body r) = record_size r - 4.
Proof.
  unfold image_body, record_size, payload_bytes.
  rewrite len_app, len_header, len_encode_payload, len_nil. unfold CRC_SIZE. lia.
Qed.

Lemma len_image r : len (image r) = record_size r.
Proof. unfold image. rewrite len_app, len_image_body, len_to_le_bytes. lia. Qed.

Lemma record_size_min r : MIN_RECORD_SIZE <= record_size r.
Proof. unfold MIN_RECORD_SIZE, record_size. pose proof (payload_size_nonneg (payload r)). lia. Qed.

Lemma encode_record_ok r :
  encode_record crc32 r = if MAX_RECORD_SIZE <? record_size r then Panic else Ok (image r).
Proof.
  unfold encode_record. fold (record_size r). split_if; [done|].
  rewrite len_header, Z.eqb_refl. cbn [negb]. rewrite encode_payload_out. fold (image_body r).
  rewrite len_image_body. replace (record_size r - CRC_SIZE) with (record_size r - 4) by done.
  rewrite Z.eqb_refl. cbn [negb]. fold (image r). by rewrite len_image, Z.eqb_refl.
Qed.

(** Offsets of the header fields. *)
Lemma image_fields r rest :
  image r ++ rest
  = to_le_bytes 4 (as_unsigned 32 (record_size r)) ++ byte.of_Z (type_byte (record_type r)) ::
    to_le_bytes 8 (lsn r) ++ to_le_bytes 8 (txn_id r) ++ to_le_bytes 8 (prev_lsn r) ++
    payload_bytes (payload r) ++ to_le_bytes 4 (crc32 (image_body r)) ++ rest.
Proof. unfold image, image_body at 1, header. by rewrite <- !app_assoc. Qed.

Definition ids_ok (r : LogRecord) : Prop :=
  in_u64 (lsn r) = true /\ in_u64 (txn_id r) = true /\ in_u64 (prev_lsn r) = true.

Lemma image_reads r :
  ids_ok r ->
  @index Error 4 (image r) = Ok (byte.of_Z (type_byte (record_type r))) /\
  le_at 8 5 (image r) = Ok (lsn r) /\ le_at 8 13 (image r) = Ok (txn_id r) /\
  le_at 8 21 (image r) = Ok (prev_lsn r) /\
  @slice Error HEADER_SIZE (record_size r - CRC_SIZE) (image r) = Ok (payload_bytes (payload r)).
Proof.
  intros (H1 & H2 & H3). unfold in_u64 in *. zbool.
  pose proof (image_fields r []) as F. rewrite app_nil_r in F.
  set (p1 := to_le_bytes 4 (as_unsigned 32 (record_size r))) in *.
  set (p2 := byte.of_Z (type_byte (record_type r))) in *.
  assert (L1 : len p1 = 4) by apply len_to_le_bytes. split_and!.
  - rewrite F. by apply index_app.
  - apply (le_at_app (p1 ++ [p2]) 8 (lsn r) (drop 13 (image r)));
      [rewrite F; regroup|done|rewrite len_app, L1; done|lia].
  - apply (le_at_app (p1 ++ [p2] ++ to_le_bytes 8 (lsn r)) 8 (txn_id r) (drop 21 (image r)));
      [rewrite F; regroup|done|rewrite !len_app, L1; done|lia].
  - apply (le_at_app (p1 ++ [p2] ++ to_le_bytes 8 (lsn r) ++ to_le_bytes 8 (txn_id r)) 8 (prev_lsn r)
      (drop 29 (image r))); [rewrite F; regroup|done|rewrite !len_app, L1; done|lia].
  - apply (slice_at (header r (record_size r)) _ (to_le_bytes 4 (crc32 (image_body r)))).
    + unfold image, image_body at 1. by rewrite <- app_assoc.
    + by rewrite len_header.
    + unfold payload_bytes. rewrite len_encode_payload, len_nil.
      unfold record_size, HEADER_SIZE, CRC_SIZE. lia.
Qed.

(** Any buffer that starts with the first [4 <= k] bytes of an image has the
    record's length in its length field. *)
Lemma image_length_field r k rest :
  record_size r <= MAX_RECORD_SIZE -> (4 <= k)%nat ->
  le_at 4 0 (take k (image r) ++ rest) = Ok (record_size r).
Proof.
  intros Hs Hk. pose proof (record_size_min r) as Hmin.
  unfold MIN_RECORD_SIZE, MAX_RECORD_SIZE, HEADER_SIZE, CRC_SIZE in *.
  pose proof (image_fields r []) as F. rewrite app_nil_r, as_unsigned_small in F by lia.
  apply (le_at_app [] 4 (record_size r) (drop 4 (take k (image r)) ++ rest)); [|done|done|lia].
  cbn [app]. rewrite app_assoc. f_equal. rewrite <- (take_drop 4 (take k (image r))) at 1.
  f_equal. rewrite take_take. replace (4 `min` k)%nat with 4%nat by lia. by rewrite F.
Qed.

Lemma decode_image r rest :
  ids_ok r -> record_size r <= MAX_RECORD_SIZE ->
  decode_record crc32 (image r ++ rest)
  = p ← decode_payload (record_type r) (payload_bytes (payload r));
    Ok (mkRecord (lsn r) (txn_id r) (prev_lsn r) p, record_size r).
Proof.
  intros Hi Hs. destruct (image_reads r Hi) as (I & R1 & R2 & R3 & R4).
  pose proof (record_size_min r) as Hmin. pose proof (len_nonneg rest).
  unfold decode_record. rewrite len_app, len_image.
  destruct (Z.ltb_spec (record_size r + len rest) 4); [unfold MIN_RECORD_SIZE, HEADER_SIZE, CRC_SIZE in *; lia|].
  pose proof (image_length_field r (length (image r)) rest Hs) as E. rewrite firstn_all in E.
  rewrite E by (pose proof (len_image r) as L; unfold len, MIN_RECORD_SIZE, HEADER_SIZE, CRC_SIZE in *; lia).
  cbn [mbind outcome_bind]. destruct (Z.ltb_spec (record_size r) MIN_RECORD_SIZE); [lia|].
  destruct (Z.ltb_spec MAX_RECORD_SIZE (record_size r)); [lia|].
  destruct (Z.ltb_spec (record_size r + len rest) (record_size r)); [lia|].
  rewrite (slice_prefix (image r)) by (by rewrite len_image). cbn [mbind outcome_bind].
  rewrite (le_at_app (image_body r) 4 (crc32 (image_body r)) [] (image r) 4 (record_size r - 4));
    [|unfold image; by rewrite app_nil_r|done|by rewrite len_image_body|apply Hcrc].
  cbn [mbind outcome_bind].
  rewrite (slice_at [] (image_body r) (to_le_bytes 4 (crc32 (image_body r))) (image r) 0 (record_size r - 4));
    [|done|done|by rewrite len_image_body]. cbn [mbind outcome_bind].
  rewrite Z.eqb_refl, I. cbn [negb mbind outcome_bind].
  rewrite u8_type_byte, from_u8_type_byte. cbn [ok_or mbind outcome_bind].
  rewrite R1, R2, R3. cbn [mbind outcome_bind]. by rewrite R4.
Qed.

Lemma decode_torn r k :
  record_size r <= MAX_RECORD_SIZE -> (k < length (image r))%nat ->
  exists e, decode_record crc32 (take k (image r)) = Err e.
Proof.
  intros Hs Hk. pose proof (record_size_min r) as Hmin. pose proof (len_image r) as L.
  unfold decode_record. destruct (Z.ltb_spec (len (take k (image r))) 4) as [|Hl]; [by eexists|].
  autorewrite with len in Hl.
  pose proof (image_length_field r k [] Hs ltac:(lia)) as E. rewrite app_nil_r in E. rewrite E.
  cbn [mbind outcome_bind]. destruct (Z.ltb_spec (record_size r) MIN_RECORD_SIZE); [lia|].
  destruct (Z.ltb_spec MAX_RECORD_SIZE (record_size r)); [lia|].
  destruct (Z.ltb_spec (len (take k (image r))) (record_size r)) as [|Hn]; [by eexists|].
  autorewrite with len in Hn. unfold len in *. lia.
Qed.
End record_facts.

(** *** Decoding arbitrary bytes *)

Ltac read_ok :=
  match goal with
  | |- context [le_at ?n ?i ?buf] =>
      let z := fresh "z" in
      destruct (le_at_ok n i buf) as (z & -> & ?); [lia..|]; cbn [mbind outcome_bind]
  | |- context [slice ?lo ?hi ?buf] =>
      rewrite (slice_ok lo hi buf) by lia; cbn [mbind outcome_bind]
  | |- context [len ?b <? ?n] => destruct (Z.ltb_spec (len b) n); [done|]
  end.

Lemma decode_old_total m1 m2 oo buf :
  0 <= oo < len buf -> no_panic (decode_old m1 m2 oo buf).
Proof.
  intros Ho. unfold decode_old. apply bind_no_panic; [by apply index_no_panic|]. intros c _.
  split_if; [|done]. repeat read_ok. done.
Qed.

Lemma read_txn_ids_total count i buf :
  0 <= i -> 4 + (i + Z.of_nat count) * 8 <= len buf -> no_panic (read_txn_ids count i buf).
Proof.
  revert i; induction count as [|count IH]; intros i Hi Hb; [done|]. cbn [read_txn_ids].
  read_ok. apply bind_no_panic; [apply IH; lia|done].
Qed.

Lemma decode_payload_total t buf : no_panic (decode_payload t buf).
Proof.
  destruct t; cbn [decode_payload]; try done; repeat read_ok; try done.
  - apply bind_no_panic; [apply read_txn_ids_total; lia|]. intros ids _.
    destruct (Z.leb_spec (4 + z * 8 + 8) (len buf)); [read_ok|cbn [mbind outcome_bind]];
      destruct (Z.leb_spec (4 + z * 8 + 8 + 8) (len buf)); try read_ok; done.
  - apply bind_no_panic; [apply decode_old_total; lia|done].
  - apply bind_no_panic; [apply decode_old_total; lia|done].
Qed.

Lemma decode_record_total crc32 buf :
  no_panic (decode_record crc32 buf) /\
  forall r n, decode_record crc32 buf = Ok (r, n) -> MIN_RECORD_SIZE <= n <= len buf.
Proof.
  unfold decode_record, corrupt, HEADER_SIZE, CRC_SIZE. pose proof (len_nonneg buf).
  destruct (Z.ltb_spec (len buf) 4); [done|].
  destruct (le_at_ok 4 0 buf) as (n & -> & ?); [lia..|]. cbn [mbind outcome_bind].
  destruct (Z.ltb_spec n MIN_RECORD_SIZE); [done|]. destruct (Z.ltb_spec MAX_RECORD_SIZE n); [done|].
  unfold MIN_RECORD_SIZE, HEADER_SIZE, CRC_SIZE in *.
  destruct (Z.ltb_spec (len buf) n); [done|]. rewrite slice_ok by lia. cbn [mbind outcome_bind].
  set (rb := take _ _). assert (L : len rb = n) by (unfold rb; solve_len).
  destruct (le_at_ok 4 (n - 4) rb) as (c & -> & ?); [lia..|]. cbn [mbind outcome_bind].
  rewrite (slice_ok 0 (n - 4) rb) by lia. cbn [mbind outcome_bind].
  destruct (c =? _); cbn [negb]; [|done].
  pose proof (index_no_panic (E := Error) 4 rb ltac:(lia)) as I.
  destruct (index 4 rb) as [t|e|]; cbn [mbind outcome_bind]; [|done|done].
  destruct (from_u8 (u8 t)) as [ty|]; cbn [ok_or mbind outcome_bind]; [|done]. repeat read_ok.
  match goal with |- context [decode_payload ty ?pb] => pose proof (decode_payload_total ty pb) as P;
    destruct (decode_payload ty pb) as [p|e|] end; cbn [mbind outcome_bind]; [|done|done].
  split; [done|]. intros r k [= _ <-]. lia.
Qed.

(** ** Theorems *)

Lemma record_ok_parts r :
  record_ok r = true -> ids_ok r /\ payload_ok (payload r) = true /\ record_size r <= MAX_RECORD_SIZE.
Proof. unfold record_ok, ids_ok. intros; zbool. done. Qed.

(** C37. A logged record reads back whatever follows it in the log, and no
    strict prefix of it, as a torn write leaves, decodes to anything: this
    for every record whose keys and values are under 64 KiB. *)
Theorem record_round_trip crc32 r :
  (forall b, 0 <= crc32 b < 2 ^ 32) -> record_ok r = true ->
  exists b, encode_record crc32 r = Ok b /\
    (forall rest, decode_record crc32 (b ++ rest) = Ok (r, len b)) /\
    (forall k, (k < length b)%nat -> exists e, decode_record crc32 (take k b) = Err e).
Proof.
  intros Hcrc H. apply record_ok_parts in H as (Hi & Hp & Hs). exists (image crc32 r).
  split_and!.
  - rewrite encode_record_ok. by zcase.
  - intros rest. rewrite decode_image by done. change (record_type r) with (payload_type (payload r)).
    rewrite decode_payload_ok by (try done; unfold record_size, HEADER_SIZE, CRC_SIZE in *; lia).
    cbn. rewrite len_image. by destruct r.
  - intros k Hk. by apply decode_torn.
Qed.

Lemma record_round_trip_witness :
  exists b, encode_record (fun b => len b mod 2 ^ 32) (mkRecord 5 9 4 (PCommit 77)) = Ok b /\
    (forall rest, decode_record (fun b => len b mod 2 ^ 32) (b ++ rest)
                  = Ok (mkRecord 5 9 4 (PCommit 77), len b)) /\
    (forall k, (k < length b)%nat ->
       exists e, decode_record (fun b => len b mod 2 ^ 32) (take k b) = Err e).
Proof. apply record_round_trip; [intros; apply Z.mod_pos_bound; lia|reflexivity]. Defined.

(** Decoding any bytes as a record never panics, and a decoded record
    consumes at least a header and no more than the buffer, so a scan makes
    progress. *)
Theorem record_decode_total crc32 buf :
  match decode_record crc32 buf with
  | Ok (_, n) => MIN_RECORD_SIZE <= n <= len buf
  | Err _ => True
  | Panic => False
  end.
Proof.
  destruct (decode_record_total crc32 buf) as [H1 H2].
  destruct (decode_record crc32 buf) as [[r n]|e|]; [by eapply H2|done|done].
Qed.

(** A record whose value is 64 KiB or longer is logged without an error and
    reads back as a different record, its value cut to the length modulo
    [2^16]: the length field is a [u16]. *)
Theorem long_value_is_cut crc32 lsn0 txn prev key value :
  (forall b, 0 <= crc32 b < 2 ^ 32) ->
  let r v := mkRecord lsn0 txn prev (PPut key v) in
  ids_ok (r value) -> len key < 2 ^ 16 -> 2 ^ 16 <= len value -> record_size (r value) <= MAX_RECORD_SIZE ->
  exists b n, encode_record crc32 (r value) = Ok b /\
    decode_record crc32 b = Ok (r (cut value), n) /\ len (cut value) < len value.
Proof.
  intros Hcrc r Hi Hk Hv Hs. exists (image crc32 (r value)), (record_size (r value)). split_and!.
  - rewrite encode_record_ok. by zcase.
  - rewrite <- (app_nil_r (image _ _)), decode_image by done.
    cbn [r record_type payload]. by rewrite decode_put.
  - unfold cut. rewrite len_take. pose proof (Z.mod_pos_bound (len value) (2 ^ 16)). lia.
Qed.

Lemma long_value_is_cut_witness :
  exists b n, encode_record (fun _ => 0) (mkRecord 0 0 0 (PPut [] (replicate (Z.to_nat 65536) (byte.of_Z 7)))) = Ok b /\
    decode_record (fun _ => 0) b
    = Ok (mkRecord 0 0 0 (PPut [] (cut (replicate (Z.to_nat 65536) (byte.of_Z 7)))), n) /\
    len (cut (replicate (Z.to_nat 65536) (byte.of_Z 7))) < len (replicate (Z.to_nat 65536) (byte.of_Z 7)).
Proof.
  apply (long_value_is_cut (fun _ => 0) 0 0 0 []); [lia|done|done| |];
    unfold record_size, HEADER_SIZE, CRC_SIZE, MAX_RECORD_SIZE; cbn [payload payload_size];
    rewrite ?len_replicate, ?Z2Nat.id, ?len_nil by lia; lia.
Defined.
