(* ===== verification/WalReader.v ===== *)
(** Scanning the log (crates/idb-wal/src/wal/reader.rs).

    A segment is its id and the bytes [std::fs::read] returns for its file, or
    [None] when the read fails.  The iterator is a state machine; [log_scan] is
    the reference it is proved equal to. *)

From Stdlib Require Import ZArith Lia List Bool.
From coqutil Require Import Byte.
From stdpp Require Import base list strings.
From S2P Require Import Prelude Common WalRecord.
#[local] Open Scope Z_scope.

Definition MAX_RECOVERY_RECORDS : Z := 100000000.

Abbreviation segment := (Z * option bytes)%type.

Record WalForwardIter := mkIter {
  segments : list segment;
  segment_index : nat;
  segment_data : bytes;
  offset : Z;
  segment_loaded : bool;
  start_lsn : Z;
  records_yielded : Z;
  done_ : bool
}.

Definition scan_forward (segs : list segment) (start : Z) : WalForwardIter :=
  mkIter segs 0 [] 0 false start 0 false.

Definition set_done (it : WalForwardIter) : WalForwardIter :=
  mkIter (segments it) (segment_index it) (segment_data it) (offset it) (segment_loaded it)
    (start_lsn it) (records_yielded it) true.
Definition load (it : WalForwardIter) (data : bytes) : WalForwardIter :=
  mkIter (segments it) (segment_index it) data 0 true (start_lsn it) (records_yielded it) (done_ it).
Definition advance (it : WalForwardIter) (consumed : Z) : WalForwardIter :=
  mkIter (segments it) (segment_index it) (segment_data it) (offset it + consumed)
    (segment_loaded it) (start_lsn it) (records_yielded it) (done_ it).
Definition yielded (it : WalForwardIter) : WalForwardIter :=
  mkIter (segments it) (segment_index it) (segment_data it) (offset it) (segment_loaded it)
    (start_lsn it) (records_yielded it + 1) (done_ it).
Definition next_segment (it : WalForwardIter) : WalForwardIter :=
  mkIter (segments it) (S (segment_index it)) (segment_data it) (offset it) false
    (start_lsn it) (records_yielded it) (done_ it).

Definition item := option (result LogRecord).

(** One turn of the loop: go round again, or return an item. *)
Inductive turn :=
| Again (it : WalForwardIter)
| Return (i : item) (it : WalForwardIter).

Definition corruption : Error := StorageCorrupted "WAL corruption in segment".
Definition too_many : Error := StorageCorrupted "WAL recovery exceeded the record bound".

Section reader.
Context (crc32 : bytes -> Z).

(** Reading from a loaded segment. *)
Definition read_turn (it : WalForwardIter) : result turn :=
  if offset it <? len (segment_data it) then
    let is_last_segment := (segment_index it =? length (segments it) - 1)%nat in
    rest ← slice_from (offset it) (segment_data it);
    match decode_record crc32 rest with
    | Ok (record, consumed) =>
        let it := advance it consumed in
        if lsn record <? start_lsn it then Ok (Again it)
        else Ok (Return (Some (Ok record)) (yielded it))
    | Err _ =>
        if is_last_segment then Ok (Return None (set_done it))
        else Ok (Return (Some (Err corruption)) (set_done it))
    | Panic => Panic
    end
  else Ok (Again (next_segment it)).

Definition loop_turn (it : WalForwardIter) : result turn :=
  if segment_loaded it then read_turn it else
  match segments it !! segment_index it with
  | None => Ok (Return None (set_done it))
  | Some (_, Some data) => read_turn (load it data)
  | Some (_, None) => Ok (Return (Some (Err Io)) (set_done it))
  end.

Fixpoint next_loop (fuel : nat) (it : WalForwardIter) : option (result (item * WalForwardIter)) :=
  match fuel with
  | O => None
  | S fuel =>
      match loop_turn it with
      | Ok (Again it') => next_loop fuel it'
      | Ok (Return i it') => Some (Ok (i, it'))
      | Err e => Some (Err e)
      | Panic => Some Panic
      end
  end.

Definition next (fuel : nat) (it : WalForwardIter) : option (result (item * WalForwardIter)) :=
  if done_ it then Some (Ok (None, it)) else
  if MAX_RECOVERY_RECORDS <=? records_yielded it
  then Some (Ok (Some (Err too_many), set_done it)) else
  next_loop fuel it.

(** [iter.collect::<Result<Vec<_>>>()]: at most [calls] calls of [next], each
    with [fuel] turns. *)
Fixpoint collect (calls fuel : nat) (it : WalForwardIter) : option (result (list LogRecord)) :=
  match calls with
  | O => None
  | S calls =>
      match next fuel it with
      | None => None
      | Some (Ok (None, _)) => Some (Ok [])
      | Some (Ok (Some (Ok r), it')) =>
          match collect calls fuel it' with
          | Some (Ok rs) => Some (Ok (r :: rs))
          | other => other
          end
      | Some (Ok (Some (Err e), _)) => Some (Err e)
      | Some (Ok (Some Panic, _)) | Some Panic => Some Panic
      | Some (Err e) => Some (Err e)
      end
  end.

(** ** Reference: the records of a segment, and of a log *)

(** The records at the front of [data], and whether they take all of it.  A
    record consumes at least a byte, so [length data] turns are enough. *)
Fixpoint records_of (fuel : nat) (data : bytes) : list LogRecord * bool :=
  match fuel, data with
  | _, [] => ([], true)
  | O, _ => ([], false)
  | S fuel, _ =>
      match decode_record crc32 data with
      | Ok (r, n) =>
          let '(rs, clean) := records_of fuel (drop (Z.to_nat n) data) in (r :: rs, clean)
      | _ => ([], false)
      end
  end.

Definition segment_scan (data : bytes) : list LogRecord * bool := records_of (length data) data.

(** A log is its segments' records; a segment that does not end with a whole
    record ends the log if it is the last, and is corruption if not. *)
Fixpoint log_scan_from (data : bytes) (later : list segment) : list LogRecord * option Error :=
  let '(rs, clean) := segment_scan data in
  if clean then
    match later with
    | [] => (rs, None)
    | (_, None) :: _ => (rs, Some Io)
    | (_, Some data') :: later' => let '(rs', e) := log_scan_from data' later' in (rs ++ rs', e)
    end
  else (rs, match later with [] => None | _ => Some corruption end).

Definition log_scan (segs : list segment) : list LogRecord * option Error :=
  log_scan_from [] segs.

Definition from_lsn (start : Z) (rs : list LogRecord) : list LogRecord :=
  List.filter (fun r => start <=? lsn r) rs.
End reader.

Section reader_facts.
Context (crc32 : bytes -> Z).

Lemma decode_consumes data r n :
  decode_record crc32 data = Ok (r, n) ->
  (length (drop (Z.to_nat n) data) < length data)%nat /\ 0 < n <= len data.
Proof.
  intros H. apply decode_record_total in H. unfold MIN_RECORD_SIZE, HEADER_SIZE, CRC_SIZE in H.
  rewrite length_drop. unfold len in *. lia.
Qed.

Lemma records_of_fuel f g data :
  (length data <= f)%nat -> (length data <= g)%nat -> records_of crc32 f data = records_of crc32 g data.
Proof.
  revert g data; induction f as [|f IH]; intros g data Hf Hg.
  { destruct data; [by destruct g|cbn in Hf; lia]. }
  destruct data as [|x data]; [by destruct g|]. destruct g as [|g]; [cbn in Hg; lia|].
  cbn [records_of]. destruct (decode_record crc32 (x :: data)) as [[r n]|e|] eqn:E; [|done|done].
  apply decode_consumes in E as [E _]. by rewrite (IH g) by lia.
Qed.

Lemma segment_scan_nil : segment_scan crc32 [] = ([], true).
Proof. done. Qed.

Lemma segment_scan_step data :
  data <> [] ->
  segment_scan crc32 data =
  match decode_record crc32 data with
  | Ok (r, n) => let '(rs, clean) := segment_scan crc32 (drop (Z.to_nat n) data) in (r :: rs, clean)
  | _ => ([], false)
  end.
Proof.
  intros H. unfold segment_scan at 1. destruct data as [|x data]; [done|]. cbn [length records_of].
  destruct (decode_record crc32 (x :: data)) as [[r n]|e|] eqn:E; [|done|done].
  apply decode_consumes in E as [E _]. unfold segment_scan. by rewrite (records_of_fuel _ (length (drop (Z.to_nat n) (x :: data)))) by (cbn in *; lia).
Qed.

(** What an iterator state has still to read. *)
Definition remaining (it : WalForwardIter) : bytes :=
  if segment_loaded it then drop (Z.to_nat (offset it)) (segment_data it) else [].
Definition later (it : WalForwardIter) : list segment :=
  drop (if segment_loaded it then S (segment_index it) else segment_index it) (segments it).
Definition pending (it : WalForwardIter) : list LogRecord * option Error :=
  let '(rs, e) := log_scan_from crc32 (remaining it) (later it) in (from_lsn (start_lsn it) rs, e).

Definition segment_cost (s : segment) : nat :=
  match s.2 with Some data => S (length data) | None => 1 end.
Definition cost (it : WalForwardIter) : nat :=
  length (remaining it) + sum_list_with segment_cost (later it) + (if segment_loaded it then 1 else 0).

Definition iter_wf (it : WalForwardIter) : Prop :=
  segment_loaded it = true ->
  0 <= offset it <= len (segment_data it) /\ (segment_index it < length (segments it))%nat.

(** One turn makes progress and returns what the reference says is next. *)
Definition turn_ok (it : WalForwardIter) (t : result turn) : Prop :=
  match t with
  | Ok (Again it') =>
      iter_wf it' /\ (cost it' < cost it)%nat /\ pending it' = pending it /\
      records_yielded it' = records_yielded it /\ done_ it' = done_ it
  | Ok (Return (Some (Ok r)) it') =>
      iter_wf it' /\ (cost it' < cost it)%nat /\ pending it = (r :: (pending it').1, (pending it').2) /\
      records_yielded it' = records_yielded it + 1 /\ done_ it' = done_ it
  | Ok (Return None _) => pending it = ([], None)
  | Ok (Return (Some (Err e)) _) => pending it = ([], Some e)
  | _ => False
  end.

Lemma log_scan_from_step data later :
  data <> [] ->
  log_scan_from crc32 data later =
  match decode_record crc32 data with
  | Ok (r, n) => let '(rs, e) := log_scan_from crc32 (drop (Z.to_nat n) data) later in (r :: rs, e)
  | _ => ([], match later with [] => None | _ => Some corruption end)
  end.
Proof.
  intros H. assert (U : forall d, log_scan_from crc32 d later =
    let '(rs, clean) := segment_scan crc32 d in
    if clean then
      match later with
      | [] => (rs, None)
      | (_, None) :: _ => (rs, Some Io)
      | (_, Some data') :: later' => let '(rs', e) := log_scan_from crc32 data' later' in (rs ++ rs', e)
      end
    else (rs, match later with [] => None | _ => Some corruption end)) by (by destruct later).
  rewrite (U data), segment_scan_step by done.
  destruct (decode_record crc32 data) as [[r n]|e|]; [|done|done]. rewrite U.
  destruct (segment_scan crc32 (drop (Z.to_nat n) data)) as [rs []]; [|done].
  destruct later as [|[id [d|]] later']; [done| |done]. by destruct (log_scan_from crc32 d later').
Qed.

Lemma log_scan_from_nil later :
  log_scan_from crc32 [] later =
  match later with
  | [] => ([], None)
  | (_, None) :: _ => ([], Some Io)
  | (_, Some data') :: later' => log_scan_from crc32 data' later'
  end.
Proof. destruct later as [|[id [d|]] later']; cbn; [done| |done]. by destruct (log_scan_from crc32 d later'). Qed.
Lemma remaining_advance it n :
  segment_loaded it = true -> 0 <= offset it -> 0 <= n ->
  remaining (advance it n) = drop (Z.to_nat n) (remaining it).
Proof.
  intros Hl Ho Hn. unfold remaining. cbn. rewrite Hl, drop_drop. f_equal. lia.
Qed.

Lemma pending_cons it r n :
  remaining it <> [] -> decode_record crc32 (remaining it) = Ok (r, n) ->
  segment_loaded it = true -> 0 <= offset it -> 0 <= n ->
  pending it = (if lsn r <? start_lsn it then (pending (advance it n)).1
                else r :: (pending (advance it n)).1, (pending (advance it n)).2).
Proof.
  intros Hr E Hl Ho Hn. unfold pending. rewrite log_scan_from_step, E by done.
  rewrite remaining_advance by done. change (later (advance it n)) with (later it).
  destruct (log_scan_from crc32 _ _) as [rs e]. cbn. f_equal. repeat zcase; done.
Qed.

Lemma read_turn_ok it :
  iter_wf it -> segment_loaded it = true -> turn_ok it (read_turn crc32 it).
Proof.
  intros Hwf Hl. destruct (Hwf Hl) as [Ho Hi]. unfold read_turn.
  assert (R : remaining it = drop (Z.to_nat (offset it)) (segment_data it)) by (unfold remaining; by rewrite Hl).
  destruct (Z.ltb_spec (offset it) (len (segment_data it))) as [Hlt|Hge].
  - assert (Hne : remaining it <> []).
    { rewrite R. intros E%(f_equal length). rewrite length_drop in E. unfold len in *. cbn in E. lia. }
    unfold slice_from. rewrite slice_ok by lia. cbn [mbind outcome_bind].
    rewrite take_ge by (rewrite length_drop; unfold len; lia). rewrite <- R.
    pose proof (decode_record_total crc32 (remaining it)) as [NP _].
    destruct (decode_record crc32 (remaining it)) as [[r n]|e|] eqn:E; [| |done].
    + pose proof (decode_consumes _ _ _ E) as [Hc Hn].
      assert (Hrn : n <= len (segment_data it) - offset it) by (rewrite R, len_drop in Hn; lia).
      assert (Hcost : (cost (advance it n) < cost it)%nat).
      { unfold cost. rewrite remaining_advance by lia || done.
        change (later (advance it n)) with (later it). cbn [segment_loaded advance]. lia. }
      assert (Hwf' : iter_wf (advance it n)) by (intros _; cbn; split; [lia|done]).
      pose proof (pending_cons it r n Hne E Hl ltac:(lia) ltac:(lia)) as P.
      change (start_lsn (advance it n)) with (start_lsn it).
      destruct (lsn r <? start_lsn it); cbn [turn_ok].
      * split_and!; try done. rewrite P. by destruct (pending (advance it n)).
      * split_and!; done.
    + destruct (segment_index it =? length (segments it) - 1)%nat eqn:Hlast; cbn [turn_ok];
        unfold pending; rewrite log_scan_from_step, E by done; unfold later; rewrite Hl.
      * apply Nat.eqb_eq in Hlast. rewrite drop_ge by lia. done.
      * apply Nat.eqb_neq in Hlast. destruct (drop (S (segment_index it)) (segments it)) eqn:D; [|done].
        apply (f_equal length) in D. rewrite length_drop in D. cbn in D. lia.
  - assert (R0 : remaining it = []) by (rewrite R; apply drop_ge; unfold len in *; lia).
    assert (L : later (next_segment it) = later it) by (unfold later; by rewrite Hl).
    cbn [turn_ok]. split_and!; try done.
    + unfold cost. rewrite L, Hl. cbn. lia.
    + unfold pending. by rewrite L, R0.
Qed.

Lemma turn_ok_same it it' t :
  cost it = cost it' -> pending it = pending it' -> records_yielded it = records_yielded it' ->
  done_ it = done_ it' -> turn_ok it t -> turn_ok it' t.
Proof.
  intros Hc Hp Hy Hd. destruct t as [[it1|[[r|e|]|] it1]|e|]; cbn; rewrite ?Hc, ?Hp, ?Hy, ?Hd; done.
Qed.

Lemma loop_turn_ok it : iter_wf it -> turn_ok it (loop_turn crc32 it).
Proof.
  intros Hwf. unfold loop_turn. destruct (segment_loaded it) eqn:Hl; [by apply read_turn_ok|].
  assert (R : remaining it = []) by (unfold remaining; by rewrite Hl).
  destruct (segments it !! segment_index it) as [[id [data|]]|] eqn:Hs.
  - pose proof (drop_S _ _ _ Hs) as D.
    assert (Hlt : (segment_index it < length (segments it))%nat) by (by apply lookup_lt_Some in Hs).
    apply (turn_ok_same (load it data)); [| |done|done|].
    + unfold cost, later. rewrite R, Hl. cbv iota. rewrite D. cbn. rewrite drop_0. lia.
    + unfold pending, later. rewrite R, Hl. cbv iota. by rewrite D, log_scan_from_nil.
    + apply read_turn_ok; [|done]. intros _. cbn. pose proof (len_nonneg data). split; [lia|done].
  - cbn. unfold pending, later. rewrite R, Hl. cbv iota. by rewrite (drop_S _ _ _ Hs), log_scan_from_nil.
  - cbn. apply lookup_ge_None in Hs. unfold pending, later. rewrite R, Hl. cbv iota.
    by rewrite drop_ge, log_scan_from_nil.
Qed.

(** [cost] turns are enough for a call of [next]. *)
Lemma next_loop_ok fuel it :
  iter_wf it -> (cost it < fuel)%nat ->
  exists i it', next_loop crc32 fuel it = Some (Ok (i, it')) /\
    match i with
    | Some (Ok r) => iter_wf it' /\ (cost it' < cost it)%nat /\
        pending it = (r :: (pending it').1, (pending it').2) /\
        records_yielded it' = records_yielded it + 1 /\ done_ it' = done_ it
    | None => pending it = ([], None)
    | Some (Err e) => pending it = ([], Some e)
    | Some Panic => False
    end.
Proof.
  revert it; induction fuel as [|fuel IH]; intros it Hwf Hf; [lia|]. cbn [next_loop].
  pose proof (loop_turn_ok it Hwf) as T.
  destruct (loop_turn crc32 it) as [[it1|i it1]|e|]; cbn [turn_ok] in T; [| |done|done].
  - destruct T as (W & C & P & Y & D). destruct (IH it1 W ltac:(lia)) as (i & it' & E & H).
    exists i, it'. split; [done|]. rewrite P, Y, D in H. destruct i as [[r|e|]|]; [|done..].
    destruct H as (? & ? & ? & ? & ?). split_and!; try done. lia.
  - exists i, it1. split; [done|]. by destruct i as [[r|e|]|].
Qed.

Lemma collect_ok calls fuel it :
  iter_wf it -> done_ it = false -> (cost it < fuel)%nat ->
  (length (pending it).1 < calls)%nat ->
  records_yielded it + len (pending it).1 < MAX_RECOVERY_RECORDS ->
  collect crc32 calls fuel it
  = Some (match (pending it).2 with None => Ok (pending it).1 | Some e => Err e end).
Proof.
  revert it; induction calls as [|calls IH]; intros it Hwf Hd Hf Hc Hy; [lia|]. cbn [collect].
  unfold next. rewrite Hd. pose proof (len_nonneg (pending it).1).
  destruct (Z.leb_spec MAX_RECOVERY_RECORDS (records_yielded it)); [lia|].
  destruct (next_loop_ok fuel it Hwf Hf) as (i & it' & -> & Hi).
  destruct i as [[r|e|]|]; [|by rewrite Hi|done|by rewrite Hi].
  destruct Hi as (W & C & P & Y & D). rewrite P in *. cbn [fst snd length] in *. rewrite len_cons in Hy.
  rewrite IH by (try done; try congruence; lia). by destruct (pending it').2.
Qed.
End reader_facts.

Section scans.
Context (crc32 : bytes -> Z) (Hcrc : forall b, 0 <= crc32 b < 2 ^ 32).

Definition images (rs : list LogRecord) : bytes := concat (map (image crc32) rs).

Lemma decode_front r rest :
  record_ok r = true -> decode_record crc32 (image crc32 r ++ rest) = Ok (r, record_size r).
Proof.
  intros H. apply record_ok_parts in H as (Hi & Hp & Hs).
  rewrite decode_image by done. change (record_type r) with (payload_type (payload r)).
  rewrite decode_payload_ok by (try done; unfold record_size, HEADER_SIZE, CRC_SIZE in *; lia).
  by destruct r.
Qed.

Lemma image_nonempty r rest : image crc32 r ++ rest <> [].
Proof.
  intros H%(f_equal len). rewrite len_app, len_image, len_nil in H.
  pose proof (record_size_min r). pose proof (len_nonneg rest).
  unfold MIN_RECORD_SIZE, HEADER_SIZE, CRC_SIZE in *. lia.
Qed.

(** Whole records at the front of a segment are read first. *)
Lemma segment_scan_images rs tail :
  forallb record_ok rs = true ->
  segment_scan crc32 (images rs ++ tail)
  = (rs ++ (segment_scan crc32 tail).1, (segment_scan crc32 tail).2).
Proof.
  induction rs as [|r rs IH]; intros H; cbn [forallb] in H.
  { change (images [] ++ tail) with tail. rewrite app_nil_l. by destruct (segment_scan crc32 tail). }
  apply andb_true_iff in H as [Hr H]. unfold images in *. cbn [map concat]. rewrite <- app_assoc.
  rewrite segment_scan_step by apply image_nonempty. rewrite decode_front by done.
  pose proof (len_image crc32 r) as L.
  replace (Z.to_nat (record_size r)) with (length (image crc32 r)) by (unfold len in L; lia).
  rewrite drop_app_length, IH by done. done.
Qed.

(** A torn record at the end is not a record. *)
Lemma segment_scan_torn r k :
  record_ok r = true -> (k < length (image crc32 r))%nat ->
  (segment_scan crc32 (take k (image crc32 r))).1 = [].
Proof.
  intros H Hk. apply record_ok_parts in H as (_ & _ & Hs).
  destruct (decode_torn crc32 r k Hs Hk) as [e E].
  destruct (take k (image crc32 r)) eqn:T; [done|]. rewrite <- T in *.
  rewrite segment_scan_step by congruence. by rewrite E.
Qed.
End scans.

(** ** Theorems *)

Lemma collect_log_scan crc32 segs start rs e :
  log_scan crc32 segs = (rs, e) -> len (from_lsn start rs) < MAX_RECOVERY_RECORDS ->
  exists n, forall calls fuel, (n < calls)%nat -> (n < fuel)%nat ->
    collect crc32 calls fuel (scan_forward segs start)
    = Some (match e with None => Ok (from_lsn start rs) | Some e => Err e end).
Proof.
  intros L Hm. set (it := scan_forward segs start).
  assert (P : pending crc32 it = (from_lsn start rs, e)) by (unfold pending; change (log_scan_from crc32 (remaining it) (later it)) with (log_scan crc32 segs); by rewrite L).
  exists (Nat.max (cost it) (length (from_lsn start rs))). intros calls fuel Hc Hf.
  rewrite collect_ok; rewrite ?P; cbn [fst snd]; try done; try lia.
Qed.

(** C36. The lazy segment iterator returns what the log holds: with enough calls
    and turns it terminates, and collecting it gives the records of the
    segments in order from [start] on; a segment that does not end in a whole
    record ends the scan if it is the last and is reported as corruption if
    not; a read error is reported. *)
Theorem reader_matches_reference crc32 segs start :
  let '(rs, e) := log_scan crc32 segs in
  len (from_lsn start rs) < MAX_RECOVERY_RECORDS ->
  exists n, forall calls fuel, (n < calls)%nat -> (n < fuel)%nat ->
    collect crc32 calls fuel (scan_forward segs start)
    = Some (match e with None => Ok (from_lsn start rs) | Some e => Err e end).
Proof.
  destruct (log_scan crc32 segs) as [rs e] eqn:L. by apply collect_log_scan.
Qed.

Lemma reader_matches_reference_witness :
  exists n, forall calls fuel, (n < calls)%nat -> (n < fuel)%nat ->
    collect (fun _ => 0) calls fuel (scan_forward [(0, Some (map byte.of_Z [33; 0])); (1, Some [])] 0)
    = Some (Err corruption).
Proof.
  exact (reader_matches_reference (fun _ => 0) [(0, Some (map byte.of_Z [33; 0])); (1, Some [])] 0 eq_refl).
Defined.
