(* ===== verification/Wal.v ===== *)
(** The log writer and the WAL facade (crates/idb-wal/src/wal/writer.rs, mod.rs).

    A writer holds the closed segments, the bytes written to the active one,
    and how many of those have reached the file ([flushed]) and stable storage
    ([durable]).  File operations succeed; a crash keeps a prefix of the active
    file that has at least its durable bytes. *)

From Stdlib Require Import ZArith Lia List Bool.
From coqutil Require Import Byte.
From stdpp Require Import base list strings.
From S2P Require Import Prelude Common WalRecord WalReader.
#[local] Open Scope Z_scope.

Definition DEFAULT_MAX_SEGMENT_SIZE : Z := 16 * 1024 * 1024.
Definition MAX_SEGMENTS : Z := 100000.

Record WalWriter := mkWriter {
  closed : list (Z * bytes);
  active_segment_id : Z;
  active : bytes;
  flushed : Z;
  durable : Z;
  active_segment_size : Z;
  next_lsn : Z;
  max_segment_size : Z
}.

Abbreviation u64 := (@arith Error in_u64).

(** The segment files as the operating system sees them. *)
Definition files (w : WalWriter) : list (Z * bytes) :=
  closed w ++ [(active_segment_id w, take (Z.to_nat (flushed w)) (active w))].

(** [WalWriter::create] on an empty directory. *)
Definition create : WalWriter := mkWriter [] 0 [] 0 0 0 0 DEFAULT_MAX_SEGMENT_SIZE.

Definition flush_buffer (w : WalWriter) : WalWriter :=
  mkWriter (closed w) (active_segment_id w) (active w) (len (active w)) (durable w)
    (active_segment_size w) (next_lsn w) (max_segment_size w).

(** [sync]: flush, then [sync_data] the file. *)
Definition sync (w : WalWriter) : WalWriter :=
  mkWriter (closed w) (active_segment_id w) (active w) (len (active w)) (len (active w))
    (active_segment_size w) (next_lsn w) (max_segment_size w).

Definition rotate_segment (w : WalWriter) : result WalWriter :=
  let w := sync w in
  next_id ← u64 (active_segment_id w + 1);
  if MAX_SEGMENTS <=? next_id then Panic else
  Ok (mkWriter (closed w ++ [(active_segment_id w, active w)]) next_id [] 0 0 0
        (next_lsn w) (max_segment_size w)).

Definition with_lsn (r : LogRecord) (l : Z) : LogRecord :=
  mkRecord l (txn_id r) (prev_lsn r) (payload r).

(** The directory as the reader sees it. *)
Definition present (segs : list (Z * bytes)) : list segment := map (fun s => (s.1, Some s.2)) segs.

Section writer.
Context (crc32 : bytes -> Z).

(** [append]: returns the assigned LSN and the record as logged. *)
Definition append (w : WalWriter) (r : LogRecord) : result (Z * LogRecord * WalWriter) :=
  let lsn := next_lsn w in
  let r := with_lsn r lsn in
  next ← u64 (lsn + 1);
  let w := mkWriter (closed w) (active_segment_id w) (active w) (flushed w) (durable w)
             (active_segment_size w) next (max_segment_size w) in
  encoded ← encode_record crc32 r;
  let record_size := len encoded in
  total ← u64 (active_segment_size w + record_size);
  w ← (if (0 <? active_segment_size w) && (max_segment_size w <? total)
       then rotate_segment w else Ok w);
  size ← u64 (active_segment_size w + record_size);
  Ok (lsn, r, mkWriter (closed w) (active_segment_id w) (active w ++ encoded) (flushed w) (durable w)
                size (next_lsn w) (max_segment_size w)).

(** The scans of [open] and [truncate_before]: the LSN of the last record that
    decodes from the front of a segment. *)
Fixpoint highest_lsn (fuel : nat) (data : bytes) (acc : option Z) : option Z :=
  match fuel, data with
  | _, [] => acc
  | O, _ => acc
  | S fuel, _ =>
      match decode_record crc32 data with
      | Ok (r, n) => highest_lsn fuel (drop (Z.to_nat n) data) (Some (lsn r))
      | _ => acc
      end
  end.

Definition segment_highest (data : bytes) : option Z := highest_lsn (length data) data None.

(** Walk segments, latest first, to the first that holds a record. *)
Fixpoint find_highest (segs_rev : list (Z * bytes)) : option Z :=
  match segs_rev with
  | [] => None
  | (_, data) :: rest =>
      match segment_highest data with Some l => Some l | None => find_highest rest end
  end.

(** [WalWriter::open] on the segments found in the directory, by id. *)
Definition open (segs : list (Z * bytes)) : result WalWriter :=
  match rev segs with
  | [] => Ok create
  | (last_id, last_data) :: earlier =>
      next ← match find_highest ((last_id, last_data) :: earlier) with
             | Some l => u64 (l + 1)
             | None => Ok 0
             end;
      Ok (mkWriter (rev earlier) last_id last_data (len last_data) 0
            (len last_data) next DEFAULT_MAX_SEGMENT_SIZE)
  end.

(** *** The facade *)

Inductive SyncMode := Durable | NoSync.

Definition is_checkpoint (r : LogRecord) : bool :=
  match record_type r with RCheckpoint => true | _ => false end.

(** [find_last_checkpoint]: the loop over the iterator, which stops quietly at
    an error; at most [calls] calls of [next], each with [fuel] turns. *)
Fixpoint checkpoint_loop (calls fuel : nat) (it : WalForwardIter) (last_checkpoint : Z) : option (result Z) :=
  match calls with
  | O => None
  | S calls =>
      match next crc32 fuel it with
      | None => None
      | Some (Ok (None, _)) => Some (Ok last_checkpoint)
      | Some (Ok (Some (Ok record), it')) =>
          checkpoint_loop calls fuel it' (if is_checkpoint record then lsn record else last_checkpoint)
      | Some (Ok (Some (Err _), _)) => Some (Ok last_checkpoint)
      | Some (Ok (Some Panic, _)) | Some Panic => Some Panic
      | Some (Err e) => Some (Err e)
      end
  end.

Definition find_last_checkpoint (calls fuel : nat) (segs : list (Z * bytes)) : option (result Z) :=
  match segs with
  | [] => Some (Ok LSN_INVALID)
  | _ => checkpoint_loop calls fuel (scan_forward (present segs) 0) LSN_INVALID
  end.

Definition is_before (l : Z) (seg : Z * bytes) : bool :=
  match segment_highest seg.2 with
  | Some h => lsn_is_valid h && (h <? l)
  | None => false
  end.

(** [truncate_before]: delete the closed segments whose records are all older;
    returns how many. *)
Definition truncate_before (w : WalWriter) (l : Z) : WalWriter * Z :=
  let kept := List.filter (fun s => negb (is_before l s)) (closed w) in
  (mkWriter kept (active_segment_id w) (active w) (flushed w) (durable w)
     (active_segment_size w) (next_lsn w) (max_segment_size w),
   len (closed w) - len kept).
End writer.

Example append_example :
  let crc (b : bytes) := len b in
  (x ← append crc create (begin 7);
   y ← append crc x.2 (commit 7 0 3);
   Ok (x.1.1, y.1.1, next_lsn y.2, len (active y.2), flushed y.2))
  = Ok (0, 1, 2, 74, 0).
Proof. vm_compute. reflexivity. Qed.

(** ** Group commit

    The steps of the threads that share a WAL.  [sync_to] is split where it
    gives up a lock: it takes the leadership token, flushes and captures the
    state under the writer lock, fsyncs with no lock held, and publishes.
    Between any two of these another thread may append or checkpoint. *)

Inductive leadership :=
| Idle
| Leading
| Captured (flushed_lsn : Z) (seg_id : Z) (bytes : Z)
| Fsynced (flushed_lsn : Z).

Record WalState := mkWal { writer : WalWriter; synced_lsn : Z; leader : leadership }.

Definition saturating_pred (n : Z) : Z := Z.max 0 (n - 1).

(** [Wal::sync]: under the writer lock throughout. *)
Definition wal_sync (s : WalState) : WalState :=
  let w := sync (writer s) in
  mkWal w (Z.max (synced_lsn s) (saturating_pred (next_lsn w))) (leader s).

Definition lead_flush (s : WalState) : WalState :=
  let w := flush_buffer (writer s) in
  mkWal w (synced_lsn s) (Captured (saturating_pred (next_lsn w)) (active_segment_id w) (len (active w))).

(** [file.sync_data()] on the captured handle: what was flushed to that
    segment is durable; a segment closed meanwhile was synced by the rotation. *)
Definition mark_durable (w : WalWriter) (seg_id n : Z) : WalWriter :=
  if seg_id =? active_segment_id w then
    mkWriter (closed w) (active_segment_id w) (active w) (flushed w) (Z.max (durable w) n)
      (active_segment_size w) (next_lsn w) (max_segment_size w)
  else w.

Definition lead_fsync (s : WalState) (flushed_lsn seg_id n : Z) : WalState :=
  mkWal (mark_durable (writer s) seg_id n) (synced_lsn s) (Fsynced flushed_lsn).

Definition lead_publish (s : WalState) (flushed_lsn : Z) : WalState :=
  mkWal (writer s) (Z.max (synced_lsn s) flushed_lsn) Idle.

(** [sync_to] returns once this holds. *)
Definition is_synced (s : WalState) (target_lsn : Z) : bool := target_lsn <=? synced_lsn s.

Inductive wal_step (crc32 : bytes -> Z) : WalState -> WalState -> Prop :=
| step_append s r l r' w' :
    record_ok (with_lsn r (next_lsn (writer s))) = true ->
    append crc32 (writer s) r = Ok (l, r', w') ->
    wal_step crc32 s (mkWal w' (synced_lsn s) (leader s))
| step_sync s : wal_step crc32 s (wal_sync s)
| step_lead s : leader s = Idle -> wal_step crc32 s (mkWal (writer s) (synced_lsn s) Leading)
| step_yield s : leader s = Leading -> wal_step crc32 s (mkWal (writer s) (synced_lsn s) Idle)
| step_flush s : leader s = Leading -> wal_step crc32 s (lead_flush s)
| step_fsync s l id n : leader s = Captured l id n -> wal_step crc32 s (lead_fsync s l id n)
| step_publish s l : leader s = Fsynced l -> wal_step crc32 s (lead_publish s l).

Inductive wal_steps (crc32 : bytes -> Z) : WalState -> WalState -> Prop :=
| steps_refl s : wal_steps crc32 s s
| steps_cons s t u : wal_steps crc32 s t -> wal_step crc32 t u -> wal_steps crc32 s u.

(** The files a crash leaves. *)
Definition crash (w : WalWriter) (k : Z) : list (Z * bytes) :=
  closed w ++ [(active_segment_id w, take (Z.to_nat k) (active w))].

(** The last checkpoint among some records. *)
Definition last_checkpoint (rs : list LogRecord) : Z :=
  fold_left (fun acc r => if is_checkpoint r then lsn r else acc) rs LSN_INVALID.

Lemma checkpoint_loop_ok crc32 calls fuel it acc :
  iter_wf it -> done_ it = false -> (cost it < fuel)%nat -> (length (pending crc32 it).1 < calls)%nat ->
  records_yielded it + len (pending crc32 it).1 < MAX_RECOVERY_RECORDS ->
  checkpoint_loop crc32 calls fuel it acc
  = Some (Ok (fold_left (fun acc r => if is_checkpoint r then lsn r else acc) (pending crc32 it).1 acc)).
Proof.
  revert it acc; induction calls as [|calls IH]; intros it acc Hwf Hd Hf Hc Hy; [lia|]. cbn [checkpoint_loop].
  unfold next. rewrite Hd. pose proof (len_nonneg (pending crc32 it).1).
  destruct (Z.leb_spec MAX_RECOVERY_RECORDS (records_yielded it)); [lia|].
  destruct (next_loop_ok crc32 fuel it Hwf Hf) as (i & it' & -> & Hi).
  destruct i as [[r|e|]|]; [|by rewrite Hi|done|by rewrite Hi].
  destruct Hi as (W & C & P & Y & D). rewrite P in *. cbn [fst snd length fold_left] in *. rewrite len_cons in Hy.
  by rewrite IH by (try done; try congruence; lia).
Qed.

Lemma find_last_checkpoint_ok crc32 segs rs e :
  log_scan crc32 (present segs) = (rs, e) -> len (from_lsn 0 rs) < MAX_RECOVERY_RECORDS ->
  exists n, forall calls fuel, (n < calls)%nat -> (n < fuel)%nat ->
    find_last_checkpoint crc32 calls fuel segs = Some (Ok (last_checkpoint (from_lsn 0 rs))).
Proof.
  intros L Hm. destruct segs as [|g segs]; [exists 0%nat; intros; cbn in L; by injection L as <- _|].
  set (it := scan_forward (present (g :: segs)) 0).
  assert (P : pending crc32 it = (from_lsn 0 rs, e)).
  { unfold pending. change (log_scan_from crc32 (remaining it) (later it)) with (log_scan crc32 (present (g :: segs))). by rewrite L. }
  exists (Nat.max (cost it) (length (from_lsn 0 rs))). intros calls fuel Hc Hf. unfold find_last_checkpoint. fold it.
  rewrite checkpoint_loop_ok; rewrite ?P; cbn [fst snd]; try done; try lia.
Qed.

(** Runs with the number of group commits that complete in them. *)
Definition publishes (s u : WalState) : nat := match leader s, leader u with Fsynced _, Idle => 1 | _, _ => 0 end.

Inductive wal_rounds (crc32 : bytes -> Z) : nat -> WalState -> WalState -> Prop :=
| rounds_refl s : wal_rounds crc32 0 s s
| rounds_step n s t u : wal_rounds crc32 n s t -> wal_step crc32 t u -> wal_rounds crc32 (publishes t u + n) s u.

(** ** The log a writer holds *)

Section facts.
Context (crc32 : bytes -> Z) (Hcrc : forall b, 0 <= crc32 b < 2 ^ 32).

(** The records of the closed segments, chunk by chunk, then of the active. *)
Record holds (w : WalWriter) (base : Z) (cs : list (list LogRecord)) (a : list LogRecord) : Prop := {
  holds_closed : (closed w).*2 = images crc32 <$> cs;
  holds_active : active w = images crc32 a;
  holds_ok : forallb record_ok (concat cs ++ a) = true;
  holds_lsn : forall i r, (concat cs ++ a) !! i = Some r -> lsn r = base + Z.of_nat i;
  holds_base : 0 <= base;
  holds_sizes : 0 <= durable w <= flushed w /\ flushed w <= len (active w);
  holds_size : active_segment_size w = len (active w)
}.

(** The first [n] records survive any crash. *)
Definition covered (w : WalWriter) (cs : list (list LogRecord)) (a : list LogRecord) (n : Z) : Prop :=
  n <= len (concat cs) \/
  exists j, (j <= length a)%nat /\ n = len (concat cs) + Z.of_nat j /\
            len (images crc32 (take j a)) <= durable w.

Lemma images_app a b : images crc32 (a ++ b) = images crc32 a ++ images crc32 b.
Proof. unfold images. by rewrite map_app, concat_app. Qed.

Lemma images_cons r a : images crc32 (r :: a) = image crc32 r ++ images crc32 a.
Proof. done. Qed.

(** Cutting a segment anywhere leaves whole records and a torn one. *)
Lemma take_images a k :
  forallb record_ok a = true -> (k <= length (images crc32 a))%nat ->
  exists m tail, (m <= length a)%nat /\ take k (images crc32 a) = images crc32 (take m a) ++ tail /\
    (segment_scan crc32 tail).1 = [] /\
    forall j, (j <= length a)%nat -> (length (images crc32 (take j a)) <= k)%nat -> (j <= m)%nat.
Proof.
  revert k; induction a as [|r a IH]; intros k Hok Hk.
  { exists 0%nat, []. cbn in Hk. split_and!; try done; try (intros; lia). by destruct k. }
  cbn [forallb] in Hok. apply andb_true_iff in Hok as [Hr Ha].
  rewrite images_cons in *. rewrite length_app in Hk.
  destruct (decide (length (image crc32 r) <= k)%nat) as [Hle|Hgt].
  - destruct (IH (k - length (image crc32 r))%nat Ha ltac:(lia)) as (m & tail & Hm & E & Hsc & M).
    exists (S m), tail. split_and!; [cbn; lia| |done|].
    + rewrite take_app_ge, E by lia. cbn [take]. by rewrite images_cons, <- app_assoc.
    + intros [|j] Hj Hl; [lia|]. cbn [take] in Hl. rewrite images_cons, length_app in Hl.
      cbn in Hj. pose proof (M j ltac:(lia) ltac:(lia)). lia.
  - exists 0%nat, (take k (image crc32 r)). split_and!; [lia| | |].
    + rewrite take_app_le by lia. done.
    + apply segment_scan_torn; [done|lia].
    + intros [|j] Hj Hl; [lia|]. cbn [take] in Hl. rewrite images_cons, length_app in Hl. lia.
Qed.

Lemma log_scan_clean (cl : list (Z * bytes)) cs d last :
  forallb record_ok (concat cs) = true -> cl.*2 = images crc32 <$> cs ->
  log_scan_from crc32 [] (present (cl ++ [(d, last)]))
  = (concat cs ++ (segment_scan crc32 last).1, None).
Proof.
  revert cl; induction cs as [|c cs IH]; intros [|[id data] cl] Hok E; try done.
  - unfold present. cbn [map app]. rewrite log_scan_from_nil. cbn [log_scan_from fst snd concat].
    by destruct (segment_scan crc32 last) as [rs []].
  - cbn in E. injection E as -> E. cbn [concat forallb] in *. rewrite forallb_app in Hok.
    apply andb_true_iff in Hok as [Hc Hcs]. specialize (IH cl Hcs E).
    unfold present in *. cbn [map app fst snd]. rewrite log_scan_from_nil.
    pose proof (segment_scan_images crc32 Hcrc c [] Hc) as S. rewrite !app_nil_r in S.
    rewrite log_scan_from_nil in IH.
    destruct (map _ (cl ++ _)) as [|[i [x|]] rest] eqn:Hm; cbn [log_scan_from]; rewrite S; cbn [snd segment_scan_nil].
    + by destruct cl.
    + change ((segment_scan crc32 []).2) with true. cbn [fst]. rewrite IH. by rewrite app_assoc.
    + discriminate IH.
Qed.
Lemma crash_scan w base cs a k n :
  holds w base cs a -> durable w <= k <= flushed w -> covered w cs a n ->
  exists m, (m <= length (concat cs ++ a))%nat /\ n <= Z.of_nat m /\
    log_scan crc32 (present (crash w k)) = (take m (concat cs ++ a), None).
Proof.
  intros [Hcl Ha Hok _ _ Hsz _] Hk Hcov. pose proof (len_nonneg (active w)) as Hn.
  rewrite forallb_app in Hok. apply andb_true_iff in Hok as [Hcs Hoka]. rewrite Ha in *.
  destruct (take_images a (Z.to_nat k) Hoka) as (m & tail & Hm & E & T & M).
  { unfold len in Hsz. lia. }
  exists (length (concat cs) + m)%nat. split_and!.
  - rewrite length_app. lia.
  - destruct Hcov as [Hl|(j & Hj & -> & Hd)]; unfold len in *; [lia|].
    pose proof (M j Hj ltac:(lia)). lia.
  - unfold log_scan, crash. rewrite Ha, E, (log_scan_clean _ cs) by done.
    rewrite segment_scan_images by (try done; by apply forallb_take).
    rewrite T, app_nil_r, take_app_add'; done.
Qed.

(** *** Appending *)

Lemma holds_rotate w base cs a w' :
  holds w base cs a -> rotate_segment w = Ok w' ->
  holds w' base (cs ++ [a]) [] /\ active_segment_id w < active_segment_id w' /\
  next_lsn w' = next_lsn w.
Proof.
  intros [Hcl Ha Hok Hlsn Hb Hsz Hs] H. unfold rotate_segment in H. inv_ok. split_if; [done|]. inv_ok.
  unfold arith in *. split_if; [|done]. inv_ok. cbn [active_segment_id next_lsn sync]. split_and!; [|lia|done].
  assert (E : concat (cs ++ [a]) ++ [] = concat cs ++ a)
    by (by rewrite concat_app; cbn; rewrite !app_nil_r).
  constructor; cbn [closed active durable flushed active_segment_size sync]; rewrite ?E; try done.
  by rewrite !fmap_app, Hcl, Ha.
Qed.

Lemma holds_write w base cs a r size :
  holds w base cs a -> record_ok r = true -> lsn r = base + len (concat cs ++ a) ->
  arith in_u64 (active_segment_size w + len (image crc32 r)) = @Ok Error _ size ->
  holds (mkWriter (closed w) (active_segment_id w) (active w ++ image crc32 r) (flushed w) (durable w)
           size (next_lsn w) (max_segment_size w)) base cs (a ++ [r]).
Proof.
  intros [Hcl Ha Hok Hlsn Hb Hsz Hs] Hr Hl H.
  unfold arith in H. split_if; [|done]. injection H as <-.
  constructor; cbn [closed active durable flushed active_segment_size]; try done.
  - rewrite Ha, images_app. cbn. by rewrite app_nil_r.
  - rewrite app_assoc, forallb_app, Hok. cbn. by rewrite Hr.
  - intros i x. rewrite app_assoc. intros [Hi|[Hi Hx]]%lookup_app_Some; [by apply Hlsn|].
    apply list_lookup_singleton_Some in Hx as [Hx <-]. rewrite Hl. unfold len. lia.
  - rewrite len_app. pose proof (len_nonneg (image crc32 r)). lia.
  - rewrite len_app. lia.
Qed.

Lemma holds_relsn w base cs a n :
  holds w base cs a ->
  holds (mkWriter (closed w) (active_segment_id w) (active w) (flushed w) (durable w)
           (active_segment_size w) n (max_segment_size w)) base cs a.
Proof. by intros [? ? ? ? ? ? ?]; constructor. Qed.

(** How an append moves the chunks: onto the active one, or after a rotation. *)
Definition appended (w : WalWriter) cs a (w' : WalWriter) cs' a' (r : LogRecord) : Prop :=
  (cs' = cs /\ a' = a ++ [r] /\ active_segment_id w' = active_segment_id w /\
   durable w' = durable w /\ flushed w' = flushed w) \/
  (cs' = cs ++ [a] /\ a' = [r] /\ active_segment_id w < active_segment_id w').

Lemma holds_append w base cs a r l r' w' :
  holds w base cs a -> next_lsn w = base + len (concat cs ++ a) ->
  record_ok (with_lsn r (next_lsn w)) = true ->
  append crc32 w r = Ok (l, r', w') ->
  l = next_lsn w /\ r' = with_lsn r l /\ next_lsn w' = l + 1 /\
  exists cs' a', holds w' base cs' a' /\ appended w cs a w' cs' a' r'.
Proof.
  intros Hh Hnx Hr H. unfold append in H. apply bind_Ok_inv in H as (nx & Hn & H).
  unfold arith in Hn. split_if; [|done]. injection Hn as <-.
  rewrite encode_record_ok in H. destruct (record_ok_parts _ Hr) as (_ & _ & Hs).
  destruct (Z.ltb_spec MAX_RECORD_SIZE (record_size (with_lsn r (next_lsn w)))); [lia|].
  cbn [mbind outcome_bind] in H. apply bind_Ok_inv in H as (tot & _ & H).
  apply (holds_relsn _ _ _ _ (next_lsn w + 1)) in Hh. set (w1 := mkWriter _ _ _ _ _ _ _ _) in *.
  cbn [closed active_segment_id active flushed durable active_segment_size next_lsn max_segment_size] in H.
  apply bind_Ok_inv in H as (w2 & H2 & H). apply bind_Ok_inv in H as (size & H3 & H). injection H as <- <- <-.
  split_and!; [done..|by split_if; [apply (holds_rotate w1 base cs a) in H2 as (_ & _ & ->)|injection H2 as <-]|].
  split_if.
  - apply (holds_rotate w1 base cs a) in H2 as (Hh2 & Hid & _); [|done].
    exists (cs ++ [a]), [with_lsn r (next_lsn w)]. split; [|by right].
    apply (holds_write w2 base (cs ++ [a]) [] _ size); try done.
    rewrite concat_app. cbn. by rewrite !app_nil_r.
  - injection H2 as <-. exists cs, (a ++ [with_lsn r (next_lsn w)]). split; [|by left].
    by apply (holds_write w1 base cs a _ size).
Qed.

Lemma covered_append w cs a w' cs' a' r n :
  covered w cs a n -> n <= len (concat cs ++ a) ->
  (cs' = cs /\ a' = a ++ [r] /\ durable w' = durable w) \/ (cs' = cs ++ [a] /\ a' = [r]) ->
  covered w' cs' a' n.
Proof.
  intros Hc Hn [(-> & -> & Hd)|(-> & ->)].
  - destruct Hc as [?|(j & Hj & -> & Hl)]; [by left|right]. exists j. rewrite length_app.
    split_and!; [lia|done|]. rewrite take_app_le, Hd by done. done.
  - left. rewrite concat_app. cbn. by rewrite app_nil_r.
Qed.

(** *** The group-commit invariant *)

(** What the leader has captured is on its way to being durable. *)
Definition leader_ok (w : WalWriter) base cs a (ld : leadership) : Prop :=
  match ld with
  | Idle | Leading => True
  | Captured l id n =>
      id <= active_segment_id w /\
      (1 <= l -> l < next_lsn w /\
         (if id =? active_segment_id w then
            n <= flushed w /\
            exists j, (j <= length a)%nat /\ l + 1 - base = len (concat cs) + Z.of_nat j /\
                      len (images crc32 (take j a)) <= n
          else l + 1 - base <= len (concat cs))) /\
      (id = active_segment_id w -> n <= flushed w)
  | Fsynced l => 1 <= l -> l < next_lsn w /\ covered w cs a (l + 1 - base)
  end.

Definition wal_inv (base : Z) (st : WalState) (h : list LogRecord) : Prop :=
  exists cs a, h = concat cs ++ a /\ holds (writer st) base cs a /\
    next_lsn (writer st) = base + len h /\ 0 <= synced_lsn st /\
    (1 <= synced_lsn st -> synced_lsn st < next_lsn (writer st) /\
       covered (writer st) cs a (synced_lsn st + 1 - base)) /\
    leader_ok (writer st) base cs a (leader st).

Lemma covered_all w base cs a :
  holds w base cs a -> durable w = len (active w) -> covered w cs a (len (concat cs ++ a)).
Proof.
  intros Hh Hd. right. exists (length a). split_and!; [done|by rewrite len_app|].
  rewrite firstn_all, Hd, (holds_active _ _ _ _ Hh). done.
Qed.

Lemma covered_durable w w' cs a n :
  covered w cs a n -> durable w <= durable w' -> covered w' cs a n.
Proof.
  intros [?|(j & ? & ? & ?)] Hd; [by left|right]. exists j. split_and!; [done..|]. lia.
Qed.

Lemma leader_append w base cs a w' cs' a' r ld :
  next_lsn w = base + len (concat cs ++ a) -> next_lsn w' = next_lsn w + 1 ->
  appended w cs a w' cs' a' r -> leader_ok w base cs a ld -> leader_ok w' base cs' a' ld.
Proof.
  intros Hn Hn' Ha. destruct ld as [| |l id n|l]; cbn [leader_ok]; [done|done| |].
  - intros (Hid & Hc & Hf). destruct Ha as [(-> & -> & Hi & Hd & Hfl)|(-> & -> & Hi)].
    + rewrite Hi, Hfl. split_and!; [done| |done]. intros Hl. destruct (Hc Hl) as [Hlt H].
      split; [lia|]. destruct (Z.eqb_spec id (active_segment_id w)); [|done].
      destruct H as (Hn1 & j & Hj & E & L). split; [done|]. exists j. rewrite length_app.
      split_and!; [lia|done|]. by rewrite take_app_le.
    + split_and!; [lia| |lia]. intros Hl. destruct (Hc Hl) as [Hlt H]. split; [lia|].
      destruct (Z.eqb_spec id (active_segment_id w')); [lia|].
      rewrite concat_app, len_app. cbn. rewrite app_nil_r. rewrite len_app in Hn. lia.
  - intros Hc Hl. destruct (Hc Hl) as [Hlt H]. split; [lia|].
    eapply (covered_append w cs a w' cs' a' r); [done|lia|].
    destruct Ha as [(-> & -> & _ & -> & _)|(-> & -> & _)]; [by left|by right].
Qed.

Lemma wal_inv_append base st h r l r' w' :
  wal_inv base st h -> record_ok (with_lsn r (next_lsn (writer st))) = true ->
  append crc32 (writer st) r = Ok (l, r', w') ->
  lsn r' = l /\ wal_inv base (mkWal w' (synced_lsn st) (leader st)) (h ++ [r']).
Proof.
  intros (cs & a & -> & Hh & Hn & Hs & Hc & Hl) Hr H.
  apply (holds_append _ base cs a) in H as (-> & -> & Hn' & cs' & a' & Hh' & Ha); [|done..].
  split; [done|]. exists cs', a'. set (r' := with_lsn _ _) in *.
  assert (E : (concat cs ++ a) ++ [r'] = concat cs' ++ a').
  { destruct Ha as [(-> & -> & _)|(-> & -> & _)]; [by rewrite <- app_assoc|].
    rewrite concat_app. cbn. by rewrite app_nil_r. }
  cbn [writer synced_lsn leader]. split_and!; try done.
  - rewrite Hn', Hn, (len_app _ [r']), len_cons, len_nil. lia.
  - intros H1. destruct (Hc H1) as [Hlt Hcv]. split; [lia|].
    eapply (covered_append (writer st) cs a w' cs' a' r'); [done|lia|].
    destruct Ha as [(-> & -> & _ & -> & _)|(-> & -> & _)]; [by left|by right].
  - by apply (leader_append (writer st) base cs a w' cs' a' r').
Qed.

Lemma holds_flush w base cs a : holds w base cs a -> holds (flush_buffer w) base cs a.
Proof. intros [? ? ? ? ? ? ?]; constructor; cbn; try done. lia. Qed.

Lemma holds_sync w base cs a : holds w base cs a -> holds (sync w) base cs a.
Proof.
  intros [? ? ? ? ? ? ?]; constructor; cbn; try done. pose proof (len_nonneg (active w)). lia.
Qed.

Lemma wal_inv_sync base st h : wal_inv base st h -> wal_inv base (wal_sync st) h.
Proof.
  intros (cs & a & -> & Hh & Hn & Hs & Hc & Hl). exists cs, a. unfold wal_sync, saturating_pred.
  pose proof (holds_sync _ _ _ _ Hh) as Hh'. pose proof (covered_all _ _ _ _ Hh' eq_refl) as Hall.
  pose proof (holds_base _ _ _ _ Hh) as Hb. pose proof (holds_sizes _ _ _ _ Hh) as Hz.
  cbn [writer synced_lsn leader next_lsn sync]. split_and!; try done; [lia| |].
  - intros H1. rewrite Hn in *. destruct (Z.max_spec (synced_lsn st) (Z.max 0 (base + len (concat cs ++ a) - 1)))
      as [[_ Hm]|[Hle Hm]]; rewrite Hm in *.
    + split; [lia|]. replace (Z.max 0 _ + 1 - base) with (len (concat cs ++ a)) by lia. done.
    + destruct (Hc H1) as [Hlt Hcv]. split; [lia|]. eapply covered_durable; [done|]. cbn. lia.
  - destruct (leader st) as [| |l id n|l]; cbn [leader_ok] in *; [done|done| |].
    + destruct Hl as (Hid & H & Hf). split_and!; [done| |cbn; intros; specialize (Hf H0); lia].
      intros H1. destruct (H H1) as [Hlt H2]. split; [done|]. cbn [active_segment_id sync flushed].
      destruct (id =? _); [|done]. destruct H2 as (? & j & ? & ? & ?). split; [lia|]. by exists j.
    + intros H1. destruct (Hl H1) as [Hlt H2]. split; [done|]. eapply covered_durable; [done|]. cbn. lia.
Qed.

Lemma wal_inv_flush base st h :
  wal_inv base st h -> leader st = Leading -> wal_inv base (lead_flush st) h.
Proof.
  intros (cs & a & -> & Hh & Hn & Hs & Hc & Hl) _. exists cs, a. unfold lead_flush, saturating_pred.
  pose proof (holds_base _ _ _ _ Hh) as Hb. pose proof (holds_active _ _ _ _ Hh) as Ha.
  cbn [writer synced_lsn leader next_lsn flush_buffer leader_ok active_segment_id flushed active].
  split_and!; try done; [by apply holds_flush|]. intros H1. rewrite Z.eqb_refl. rewrite Hn in *.
  split; [lia|]. split; [done|]. exists (length a). rewrite firstn_all, <- Ha.
  rewrite len_app in *. unfold len in *. split_and!; lia.
Qed.

Lemma holds_mark w base cs a id n :
  holds w base cs a -> (id = active_segment_id w -> n <= flushed w) -> holds (mark_durable w id n) base cs a.
Proof.
  intros Hh Hn. unfold mark_durable. zcase; [|done]. destruct Hh as [? ? ? ? ? ? ?].
  constructor; cbn; try done. specialize (Hn e). lia.
Qed.

Lemma wal_inv_fsync base st h l id n :
  wal_inv base st h -> leader st = Captured l id n -> wal_inv base (lead_fsync st l id n) h.
Proof.
  intros (cs & a & -> & Hh & Hn & Hs & Hc & Hl) E. rewrite E in Hl. destruct Hl as (Hid & H & Hf).
  exists cs, a. unfold lead_fsync. cbn [writer synced_lsn leader leader_ok].
  assert (Hnx : next_lsn (mark_durable (writer st) id n) = next_lsn (writer st))
    by (unfold mark_durable; by zcase).
  assert (Hd : durable (writer st) <= durable (mark_durable (writer st) id n))
    by (unfold mark_durable; zcase; cbn; lia).
  rewrite Hnx. split_and!; try done; [by apply holds_mark| |].
  - intros H1. destruct (Hc H1) as [? Hcv]. split; [done|]. by eapply covered_durable.
  - intros H1. destruct (H H1) as [Hlt H2]. split; [done|]. unfold mark_durable.
    destruct (Z.eqb_spec id (active_segment_id (writer st))); [|by left]. right.
    destruct H2 as (_ & j & Hj & Ej & Lj). exists j. split_and!; try done. cbn. lia.
Qed.

Lemma wal_inv_publish base st h l :
  wal_inv base st h -> leader st = Fsynced l -> wal_inv base (lead_publish st l) h.
Proof.
  intros (cs & a & -> & Hh & Hn & Hs & Hc & Hl) E. rewrite E in Hl. cbn [leader_ok] in Hl.
  exists cs, a. unfold lead_publish. cbn [writer synced_lsn leader leader_ok].
  split_and!; try done; [lia|]. intros H1.
  destruct (Z.max_spec (synced_lsn st) l) as [[_ Hm]|[_ Hm]]; rewrite Hm in *; auto.
Qed.

(** The records appended between two states. *)
Lemma wal_inv_step base st st' h :
  wal_inv base st h -> wal_step crc32 st st' -> exists h', wal_inv base st' (h ++ h').
Proof.
  intros Hi Hs. destruct Hs as [s r l r' w' Hr H|s|s Hl|s Hl|s Hl|s l id n Hl|s l Hl].
  - exists [r']. by apply (wal_inv_append base s h r l r' w').
  - exists []. rewrite app_nil_r. by apply wal_inv_sync.
  - exists []. rewrite app_nil_r. destruct Hi as (cs & a & ? & ? & ? & ? & ? & ?). by exists cs, a.
  - exists []. rewrite app_nil_r. destruct Hi as (cs & a & ? & ? & ? & ? & ? & ?). by exists cs, a.
  - exists []. rewrite app_nil_r. by apply wal_inv_flush.
  - exists []. rewrite app_nil_r. by apply wal_inv_fsync.
  - exists []. rewrite app_nil_r. by apply wal_inv_publish.
Qed.

Lemma wal_inv_steps base st st' h :
  wal_inv base st h -> wal_steps crc32 st st' -> exists h', wal_inv base st' (h ++ h').
Proof.
  intros Hi Hs. induction Hs as [s|s t u _ IH Hs]; [exists []; by rewrite app_nil_r|].
  destruct (IH Hi) as [h1 H1]. destruct (wal_inv_step base t u _ H1 Hs) as [h2 H2].
  exists (h1 ++ h2). by rewrite app_assoc.
Qed.
End facts.

(** *** Reopening *)

Section reopening.
Context (crc32 : bytes -> Z) (Hcrc : forall b, 0 <= crc32 b < 2 ^ 32).

(** Segments that hold exactly the records [h], numbered from [base]. *)
Definition clean_log (segs : list (Z * bytes)) (base : Z) (h : list LogRecord) : Prop :=
  (exists cs, segs.*2 = images crc32 <$> cs /\ concat cs = h) /\
  forallb record_ok h = true /\ 0 <= base /\ (h = [] -> base = 0) /\
  forall i r, h !! i = Some r -> lsn r = base + Z.of_nat i.

Lemma highest_lsn_images c fuel acc :
  forallb record_ok c = true -> (length (images crc32 c) <= fuel)%nat ->
  highest_lsn crc32 fuel (images crc32 c) acc
  = match last c with Some r => Some (lsn r) | None => acc end.
Proof.
  revert fuel acc; induction c as [|r c IH]; intros fuel acc Hok Hf; [by destruct fuel|].
  cbn [forallb] in Hok. apply andb_true_iff in Hok as [Hr Hc]. rewrite images_cons in *.
  pose proof (image_nonempty crc32 r (images crc32 c)) as Hne.
  pose proof (decode_front crc32 Hcrc r (images crc32 c) Hr) as E.
  pose proof (len_image crc32 r) as L. pose proof (record_size_min r) as M.
  unfold MIN_RECORD_SIZE, HEADER_SIZE, CRC_SIZE, len in *.
  assert (D : drop (Z.to_nat (record_size r)) (image crc32 r ++ images crc32 c) = images crc32 c).
  { replace (Z.to_nat (record_size r)) with (length (image crc32 r)) by lia. apply drop_app_length. }
  rewrite length_app in Hf. destruct fuel as [|fuel]; [lia|].
  destruct (image crc32 r ++ images crc32 c) as [|x d] eqn:Hd; [done|].
  cbn [highest_lsn]. rewrite E, D, IH by (done || lia). destruct c as [|r1 c]; [done|].
  change (last (r :: r1 :: c)) with (last (r1 :: c)).
  destruct (last (r1 :: c)) eqn:Hl; [done|]. by apply last_None in Hl.
Qed.

Lemma segs_snoc (segs : list (Z * bytes)) cs c :
  segs.*2 = images crc32 <$> (cs ++ [c]) ->
  exists s1 id, segs = s1 ++ [(id, images crc32 c)] /\ s1.*2 = images crc32 <$> cs.
Proof.
  rewrite fmap_app. intros (s1 & s2 & E1 & E2 & ->)%fmap_app_inv. symmetry in E2.
  apply fmap_cons_inv in E2 as ([id d] & s3 & E2 & E3 & ->). symmetry in E3.
  apply fmap_nil_inv in E3 as ->. cbn in E2. subst d. by exists s1, id.
Qed.

Lemma find_highest_clean (segs : list (Z * bytes)) cs :
  segs.*2 = images crc32 <$> cs -> forallb record_ok (concat cs) = true ->
  find_highest crc32 (rev segs) = match last (concat cs) with Some r => Some (lsn r) | None => None end.
Proof.
  revert segs; induction cs as [|c cs IH] using rev_ind; intros segs E Hok.
  { by apply fmap_nil_inv in E as ->. }
  apply segs_snoc in E as (s1 & id & -> & E1). rewrite concat_app in *. cbn [concat] in *. rewrite app_nil_r in *.
  rewrite forallb_app in Hok. apply andb_true_iff in Hok as [Hcs Hc].
  rewrite rev_app_distr. cbn [rev app find_highest]. unfold segment_highest.
  rewrite highest_lsn_images by done. rewrite last_app.
  destruct (last c); [done|]. by apply IH.
Qed.

Lemma open_holds segs base h w :
  clean_log segs base h -> open crc32 segs = Ok w ->
  wal_inv crc32 base (mkWal w 0 Idle) h.
Proof.
  intros ((cs & E & <-) & Hok & Hb & He & Hl) H. unfold open in H.
  destruct cs as [|c cs _] using rev_ind.
  { apply fmap_nil_inv in E as ->. cbn in H. injection H as <-. rewrite He by done.
    exists [], []. cbn. split_and!; try done. }
  apply segs_snoc in E as (s1 & id & -> & E1). rewrite concat_app in *. cbn [concat] in *. rewrite app_nil_r in *.
  pose proof (find_highest_clean (s1 ++ [(id, images crc32 c)]) (cs ++ [c])) as F.
  rewrite rev_app_distr in H, F. cbn [rev app] in H, F.
  rewrite concat_app in F. cbn [concat] in F. rewrite app_nil_r in F.
  rewrite F in H by (try done; by rewrite !fmap_app, E1).
  apply bind_Ok_inv in H as (n & Hn & H). injection H as <-. rewrite rev_involutive.
  exists cs, c. cbn [writer synced_lsn leader next_lsn leader_ok]. split_and!; try done.
  - constructor; cbn; try done. pose proof (len_nonneg (images crc32 c)). lia.
  - destruct (last (concat cs ++ c)) as [r|] eqn:La.
    + unfold arith in Hn. split_if; [|done]. injection Hn as <-.
      apply last_Some in La as [h0 La]. rewrite La in *.
      rewrite (Hl (length h0) r) by (by apply list_lookup_middle). rewrite len_app. unfold len. cbn. lia.
    + apply last_None in La. rewrite La in *. injection Hn as <-. by rewrite He.
Qed.
End reopening.

(** ** Theorems *)

(** What the reader finds after a crash. *)
Lemma crash_keeps_synced crc32 segs base h w st k :
  (forall b, 0 <= crc32 b < 2 ^ 32) -> clean_log crc32 segs base h -> open crc32 segs = Ok w ->
  wal_steps crc32 (mkWal w 0 Idle) st ->
  durable (writer st) <= k <= flushed (writer st) ->
  exists h' m,
    log_scan crc32 (present (crash (writer st) (len (active (writer st))))) = (h ++ h', None) /\
    (forall i r, (h ++ h') !! i = Some r -> lsn r = base + Z.of_nat i) /\
    log_scan crc32 (present (crash (writer st) k)) = (take m (h ++ h'), None) /\
    (forall t i r, 1 <= t -> is_synced st t = true -> (h ++ h') !! i = Some r -> lsn r = t -> (i < m)%nat).
Proof.
  intros Hcrc Hc Ho Hs Hk. pose proof (open_holds crc32 Hcrc segs base h w Hc Ho) as Hi.
  destruct (wal_inv_steps crc32 base _ st h Hi Hs) as [h' (cs & a & E & Hh & Hn & _ & Hcov & _)].
  pose proof (holds_sizes _ _ _ _ _ Hh) as Hz. pose proof (holds_sync _ _ _ _ _ Hh) as Hh'.
  pose proof (len_nonneg (concat cs)) as Hl0.
  assert (Hcv : covered crc32 (writer st) cs a (if 1 <=? synced_lsn st then synced_lsn st + 1 - base else 0)).
  { zcase; [by apply Hcov|by left]. }
  destruct (crash_scan crc32 Hcrc _ base cs a k _ Hh Hk Hcv) as (m & Hm & Hsy & E1).
  destruct (crash_scan crc32 Hcrc _ base cs a (len (active (writer st))) _ Hh'
    ltac:(cbn; lia) (covered_all crc32 _ _ _ _ Hh' eq_refl)) as (m' & Hm' & Hall & E2).
  exists h', m. rewrite E in *. split_and!.
  - change (crash (sync (writer st))) with (crash (writer st)) in E2. rewrite E2.
    rewrite take_ge; [done|]. unfold len in Hall. lia.
  - apply (holds_lsn _ _ _ _ _ Hh).
  - done.
  - intros t i r Ht Hst Hr Hlr. apply (holds_lsn _ _ _ _ _ Hh) in Hr as Hlr'. unfold is_synced in Hst.
    apply Z.leb_le in Hst. destruct (Z.leb_spec 1 (synced_lsn st)); lia.
Qed.

(** What a committer of the record [t] can rely on after [n] rounds. *)
Definition awaits (t : Z) (n : nat) (s : WalState) : Prop :=
  t < next_lsn (writer s) /\ ((2 <= n)%nat -> t <= synced_lsn s) /\
  ((1 <= n)%nat -> match leader s with Captured l _ _ | Fsynced l => t <= l | _ => True end).

Lemma append_next_lsn crc32 w r l r' w' : append crc32 w r = Ok (l, r', w') -> next_lsn w' = next_lsn w + 1.
Proof.
  unfold append. intros A. apply bind_Ok_inv in A as (nx & Hn & A). apply arith_Ok in Hn as [_ ->].
  apply bind_Ok_inv in A as (enc & _ & A). apply bind_Ok_inv in A as (tot & _ & A). apply bind_Ok_inv in A as (w2 & H2 & A).
  apply bind_Ok_inv in A as (size & _ & A). injection A as _ _ <-. cbn [next_lsn]. split_if.
  - unfold rotate_segment in H2. apply bind_Ok_inv in H2 as (id & _ & H2). split_if; [done|]. by injection H2 as <-.
  - by injection H2 as <-.
Qed.

Lemma awaits_step crc32 t n s u : awaits t n s -> wal_step crc32 s u -> awaits t (publishes s u + n) u.
Proof.
  intros (Ha & Hs & Hl) St. unfold awaits, publishes.
  destruct St as [s r l r' w' _ A|s|s E|s E|s E|s l id m E|s l E]; cbn [writer synced_lsn leader wal_sync lead_flush lead_fsync lead_publish] in *;
    rewrite ?E in *; cbn [Nat.add].
  - apply append_next_lsn in A. replace (match leader s with Fsynced _ => match leader s with Idle => 1%nat | _ => 0%nat end | _ => 0%nat end) with 0%nat
      by by destruct (leader s). cbn [Nat.add]. split_and!; [lia|done|done].
  - replace (match leader s with Fsynced _ => match leader s with Idle => 1%nat | _ => 0%nat end | _ => 0%nat end) with 0%nat by by destruct (leader s).
    cbn [Nat.add sync next_lsn]. split_and!; [done|intros; specialize (Hs ltac:(lia)); lia|done].
  - by split_and!.
  - by split_and!.
  - cbn [flush_buffer next_lsn]. split_and!; [done|done|]. intros _. unfold saturating_pred. lia.
  - assert (En : next_lsn (mark_durable (writer s) id m) = next_lsn (writer s)) by (unfold mark_durable; by split_if). rewrite En. by split_and!.
  - split_and!; [done| |done]. intros Hn. assert (t <= l) by (apply Hl; lia). lia.
Qed.

Lemma rounds_awaits crc32 t n s u : t < next_lsn (writer s) -> wal_rounds crc32 n s u -> awaits t n u.
Proof.
  intros Ht R. induction R as [s|n s v u R IH St]; [by split_and!; [|lia|lia]|]. eapply awaits_step; [by apply IH|done].
Qed.

(** A group commit can complete from any state, without further appends. *)
Lemma round_possible crc32 n s v : wal_rounds crc32 n s v -> exists u, wal_rounds crc32 (S n) s u.
Proof.
  assert (Pub : forall n s v l, wal_rounds crc32 n s v -> leader v = Fsynced l -> exists u, wal_rounds crc32 (S n) s u).
  { intros n0 s0 v0 l R E. exists (lead_publish v0 l). pose proof (rounds_step crc32 n0 s0 v0 _ R (step_publish crc32 v0 l E)) as R'.
    unfold publishes in R'. rewrite E in R'. exact R'. }
  assert (Syn : forall n s v l id m, wal_rounds crc32 n s v -> leader v = Captured l id m -> exists u, wal_rounds crc32 (S n) s u).
  { intros n0 s0 v0 l id m R E. pose proof (rounds_step crc32 n0 s0 v0 _ R (step_fsync crc32 v0 l id m E)) as R'.
    unfold publishes in R'. rewrite E in R'. by eapply Pub. }
  assert (Fl : forall n s v, wal_rounds crc32 n s v -> leader v = Leading -> exists u, wal_rounds crc32 (S n) s u).
  { intros n0 s0 v0 R E. pose proof (rounds_step crc32 n0 s0 v0 _ R (step_flush crc32 v0 E)) as R'.
    unfold publishes in R'. rewrite E in R'. by eapply Syn. }
  intros R. destruct (leader v) as [| |l id m|l] eqn:E; [|by eapply Fl|by eapply Syn|by eapply Pub].
  pose proof (rounds_step crc32 n s v _ R (step_lead crc32 v E)) as R'. unfold publishes in R'. rewrite E in R'. by eapply Fl.
Qed.

(** C30. Every committer is served.  Once a record is appended, a committer that
    waits for it finds it synced as soon as two group commits have completed,
    whatever other threads append, sync or lead in between; and from every
    state a group commit can complete. *)
Theorem sync_to_completes crc32 st t :
  t < next_lsn (writer st) ->
  (forall n st', wal_rounds crc32 n st st' -> (2 <= n)%nat -> is_synced st' t = true) /\
  (forall n st', wal_rounds crc32 n st st' -> exists st'', wal_rounds crc32 (S n) st st'').
Proof.
  intros Ht. split; [|intros n st'; apply round_possible]. intros n st' R Hn. apply Z.leb_le.
  by apply (rounds_awaits crc32 t n st st' Ht R).
Qed.


(** Runs for the examples below: append and go on. *)
Definition appending (crc32 : bytes -> Z) (s : WalState) (r : LogRecord) : WalState :=
  match append crc32 (writer s) r with Ok (_, _, w) => mkWal w (synced_lsn s) (leader s) | _ => s end.

Lemma steps_append crc32 s t r :
  wal_steps crc32 s t -> record_ok (with_lsn r (next_lsn (writer t))) = true ->
  is_ok (append crc32 (writer t) r) = true -> wal_steps crc32 s (appending crc32 t r).
Proof.
  intros Hs Hr Ho. unfold appending. destruct (append crc32 (writer t) r) as [[[l r'] w']|e|] eqn:E; [|done..].
  eapply steps_cons; [done|]. by eapply step_append.
Qed.

Definition started : WalState := mkWal create 0 Idle.

(** A committed transaction, made durable by a group-commit leader. *)
Definition committed_run (crc32 : bytes -> Z) (s : WalState) : WalState :=
  let s := appending crc32 (appending crc32 s (begin 8)) (txn_put 8 0 [byte.of_Z 1] [byte.of_Z 2] None) in
  let s := appending crc32 s (commit 8 1 5) in
  let s := lead_flush (mkWal (writer s) (synced_lsn s) Leading) in
  match leader s with
  | Captured l id n => lead_publish (lead_fsync s l id n) l
  | _ => s
  end.

Ltac run_commit s :=
  unfold committed_run; set (s3 := appending _ _ (commit 8 1 5));
  apply (steps_cons _ _ (lead_fsync (lead_flush (mkWal (writer s3) (synced_lsn s3) Leading)) 2 0
                           (len (active (writer s3))))); [|by apply step_publish];
  apply (steps_cons _ _ (lead_flush (mkWal (writer s3) (synced_lsn s3) Leading)));
    [|apply step_fsync; reflexivity];
  apply (steps_cons _ _ (mkWal (writer s3) (synced_lsn s3) Leading)); [|by apply step_flush];
  apply (steps_cons _ _ s3); [|by apply step_lead];
  repeat apply steps_append; try apply steps_refl; vm_compute; reflexivity.

Lemma committed_run_steps crc32 : wal_steps crc32 started (committed_run crc32 started).
Proof. run_commit started. Qed.

(** Nothing is synced yet when the second record has been appended. *)
Lemma sync_to_completes_witness :
  let st := appending (fun _ => 0) (appending (fun _ => 0) started (begin 8)) (commit 8 1 5) in
  is_synced st 1 = false /\
  (forall n st', wal_rounds (fun _ => 0) n st st' -> (2 <= n)%nat -> is_synced st' 1 = true) /\
  (forall n st', wal_rounds (fun _ => 0) n st st' -> exists st'', wal_rounds (fun _ => 0) (S n) st st'').
Proof.
  intros st. split; [vm_compute; reflexivity|]. apply (sync_to_completes (fun _ => 0) st 1). vm_compute. reflexivity.
Defined.


(** The first record of a new log can be reported durable before it is: its
    LSN is 0, which is also the initial value of the durable LSN. *)
Lemma lsn_zero_not_durable crc32 :
  let st := appending crc32 started (begin 8) in
  wal_steps crc32 started st /\ is_synced st 0 = true /\
  log_scan crc32 (present (crash (writer st) (durable (writer st)))) = ([], None).
Proof.
  split_and!; [|reflexivity|reflexivity].
  apply steps_append; [apply steps_refl|reflexivity|vm_compute; reflexivity].
Qed.

(** What a crash two bytes into the first record leaves, and the writer that
    reopens it. *)
Definition torn_start (crc32 : bytes -> Z) : WalState :=
  let s := lead_flush (mkWal (writer (appending crc32 started (begin 7))) 0 Leading) in s.
Definition reopened : WalState :=
  mkWal (mkWriter [] 0 (map byte.of_Z [33; 0]) 2 0 2 0 DEFAULT_MAX_SEGMENT_SIZE) 0 Idle.

Lemma reopened_run_steps crc32 : wal_steps crc32 reopened (committed_run crc32 reopened).
Proof. run_commit reopened. Qed.

(** Reopening a log over a torn tail loses what is committed next: the
    writer appends after the torn bytes, so a transaction that begins, writes,
    commits and is reported durable is not found by the reader, with no error
    and no further crash. *)
Theorem torn_tail_hides_commits crc32 :
  exists st1 k w st2,
    wal_steps crc32 started st1 /\ durable (writer st1) <= k <= flushed (writer st1) /\
    open crc32 (crash (writer st1) k) = Ok w /\
    wal_steps crc32 (mkWal w 0 Idle) st2 /\ is_synced st2 2 = true /\ next_lsn (writer st2) = 3 /\
    log_scan crc32 (present (crash (writer st2) (len (active (writer st2))))) = ([], None).
Proof.
  exists (torn_start crc32), 2, (writer reopened), (committed_run crc32 reopened).
  split_and!.
  - unfold torn_start. set (s := appending crc32 started (begin 7)).
    apply (steps_cons _ _ (mkWal (writer s) 0 Leading)); [|by apply step_flush].
    apply (steps_cons _ _ s); [|by apply step_lead].
    apply steps_append; [apply steps_refl|reflexivity|vm_compute; reflexivity].
  - vm_compute. discriminate.
  - vm_compute. discriminate.
  - vm_compute. reflexivity.
  - apply reopened_run_steps.
  - vm_compute. reflexivity.
  - vm_compute. reflexivity.
  - vm_compute. reflexivity.
Qed.
