(* ===== verification/Engine.v ===== *)
(** The storage-engine interface (crates/idb-core/src/storage/engine/mod.rs).

    [StorageEngine] states what every engine promises its clients: it behaves
    as a map kept in ascending key order.  The transaction layer is proved
    against it.  [Reference] is the simplest engine that keeps the promise. *)

From Stdlib Require Import ZArith Lia List Bool.
From coqutil Require Import Byte.
From stdpp Require Import base list strings sorting.
From S2P Require Import Prelude Common.
#[local] Open Scope Z_scope.

Abbreviation entry := (bytes * bytes)%type.

Inductive Bound :=
| Included (k : bytes)
| Excluded (k : bytes)
| Unbounded.

Definition bltb (a b : bytes) : bool := bool_decide (blt a b).
Definition bleb (a b : bytes) : bool := bool_decide (ble a b).

Definition above (lo : Bound) (k : bytes) : bool :=
  match lo with Included b => bleb b k | Excluded b => bltb b k | Unbounded => true end.
Definition below (hi : Bound) (k : bytes) : bool :=
  match hi with Included b => bleb k b | Excluded b => bltb k b | Unbounded => true end.

(** ** Sorted key-value lists *)

Fixpoint kv_get {V} (k : bytes) (l : list (bytes * V)) : option V :=
  match l with
  | [] => None
  | (k', v) :: l' => if bool_decide (k = k') then Some v else kv_get k l'
  end.

Fixpoint kv_put {V} (k : bytes) (v : V) (l : list (bytes * V)) : list (bytes * V) :=
  match l with
  | [] => [(k, v)]
  | (k', v') :: l' =>
      match bcmp k k' with
      | Lt => (k, v) :: l
      | Eq => (k, v) :: l'
      | Gt => (k', v') :: kv_put k v l'
      end
  end.

Definition kv_delete {V} (k : bytes) (l : list (bytes * V)) : list (bytes * V) :=
  List.filter (fun e => negb (bool_decide (k = e.1))) l.

Definition kv_scan {V} (lo hi : Bound) (l : list (bytes * V)) : list (bytes * V) :=
  List.filter (fun e => above lo e.1 && below hi e.1) l.

Definition keys_sorted {V} (l : list (bytes * V)) : Prop := StronglySorted (fun a b => blt a.1 b.1) l.

(** The bytes of the keys and the values. *)
Definition entry_bytes_len (e : entry) : Z := len e.1 + len e.2.
Fixpoint data_len (es : list entry) : Z := match es with [] => 0 | e :: rest => entry_bytes_len e + data_len rest end.

(** ** Calls that change an engine *)

Inductive Call :=
| CallPut (k v : bytes)
| CallDelete (k : bytes)
| CallFlush.

Definition call_store (c : Call) (es : list entry) : list entry :=
  match c with CallPut k v => kv_put k v es | CallDelete k => kv_delete k es | CallFlush => es end.

Definition call_arg (c : Call) : bytes := match c with CallPut k _ | CallDelete k => k | CallFlush => [] end.

(** ** The interface *)

Class StorageEngine (E : Type) := {
  entries : E -> list entry;
  engine_get : E -> bytes -> result (option bytes);
  engine_put : E -> bytes -> bytes -> result E;
  engine_delete : E -> bytes -> result E;
  scan_range : E -> Bound -> Bound -> list (result entry);
  entries_sorted e : keys_sorted (entries e);
  engine_get_spec e k : engine_get e k = Ok (kv_get k (entries e));
  engine_put_spec e k v : exists e', engine_put e k v = Ok e' /\ entries e' = kv_put k v (entries e);
  engine_delete_spec e k : exists e', engine_delete e k = Ok e' /\ entries e' = kv_delete k (entries e);
  scan_range_spec e lo hi : scan_range e lo hi = map Ok (kv_scan lo hi (entries e))
}.

(** Default methods of the trait. *)
Section defaults.
Context {E : Type} `{StorageEngine E}.

Definition export_data (e : E) : list (result entry) := scan_range e Unbounded Unbounded.

Fixpoint import_data (e : E) (data : list (result entry)) : result E :=
  match data with
  | [] => Ok e
  | item :: rest => '(k, v) ← item; e' ← engine_put e k v; import_data e' rest
  end.
End defaults.

(** ** Facts *)

Lemma bltb_spec a b : bltb a b = true <-> blt a b.
Proof. unfold bltb. by rewrite bool_decide_eq_true. Qed.
Lemma bleb_spec a b : bleb a b = true <-> ble a b.
Proof. unfold bleb. by rewrite bool_decide_eq_true. Qed.

Lemma kv_get_put {V} k k' (v : V) l :
  kv_get k' (kv_put k v l) = if bool_decide (k' = k) then Some v else kv_get k' l.
Proof.
  induction l as [|[k0 v0] l IH]; cbn; [done|]. destruct (bcmp k k0) eqn:E; cbn.
  - apply bcmp_eq in E as ->. by repeat case_bool_decide.
  - by repeat case_bool_decide.
  - rewrite IH. repeat case_bool_decide; subst; try done. by rewrite bcmp_refl in E.
Qed.

Lemma kv_get_delete {V} k k' (l : list (bytes * V)) :
  kv_get k' (kv_delete k l) = if bool_decide (k' = k) then None else kv_get k' l.
Proof.
  unfold kv_delete. induction l as [|[k0 v0] l IH]; cbn; [by case_bool_decide|].
  repeat case_bool_decide; cbn; subst; rewrite ?IH; repeat case_bool_decide; done.
Qed.

Lemma kv_put_keys {V} k (v : V) l e : e ∈ kv_put k v l -> e = (k, v) \/ e ∈ l.
Proof.
  induction l as [|[k0 v0] l IH]; cbn; [rewrite list_elem_of_singleton; auto|].
  destruct (bcmp k k0); rewrite !elem_of_cons; intros; destruct_or?; auto.
  destruct (IH ltac:(done)); auto.
Qed.

Lemma keys_sorted_put {V} k (v : V) l : keys_sorted l -> keys_sorted (kv_put k v l).
Proof.
  unfold keys_sorted. induction 1 as [|[k0 v0] l Hs IH Hf]; cbn; [by repeat constructor|].
  destruct (bcmp k k0) eqn:E.
  - apply bcmp_eq in E as ->. by constructor.
  - constructor; [by constructor|]. constructor; [done|].
    eapply Forall_impl; [done|]. intros x Hx. eapply blt_trans; [exact E|done].
  - constructor; [done|]. apply Forall_forall. intros e [->|He]%kv_put_keys.
    + by apply bcmp_Gt.
    + rewrite Forall_forall in Hf. by apply Hf.
Qed.

Lemma keys_sorted_filter {V} f (l : list (bytes * V)) : keys_sorted l -> keys_sorted (List.filter f l).
Proof.
  unfold keys_sorted. induction 1 as [|e l Hs IH Hf]; cbn; [constructor|].
  split_if; [|done]. constructor; [done|]. apply Forall_forall. intros x Hx.
  rewrite Forall_forall in Hf. apply Hf. apply list_elem_of_In in Hx. apply filter_In in Hx as [Hx _].
  by apply list_elem_of_In.
Qed.

Lemma keys_sorted_delete {V} k (l : list (bytes * V)) : keys_sorted l -> keys_sorted (kv_delete k l).
Proof. apply keys_sorted_filter. Qed.
Lemma keys_sorted_scan {V} lo hi (l : list (bytes * V)) : keys_sorted l -> keys_sorted (kv_scan lo hi l).
Proof. apply keys_sorted_filter. Qed.

Lemma kv_get_above {V} k (l : list (bytes * V)) : Forall (fun e => blt k e.1) l -> kv_get k l = None.
Proof.
  induction 1 as [|[k1 v1] l Hx Hl IH]; [done|]. cbn in *. case_bool_decide; [|done].
  subst. by apply blt_irrefl in Hx.
Qed.

(** Calls on the middle of a list, where only it can hold the key. *)
Lemma kv_get_below {V} k (l : list (bytes * V)) : Forall (fun e => blt e.1 k) l -> kv_get k l = None.
Proof.
  induction 1 as [|[k1 v1] l Hx Hl IH]; [done|]. cbn in *. case_bool_decide; [|done].
  subst. by apply blt_irrefl in Hx.
Qed.

Lemma kv_put_middle {V} k (v : V) a b c :
  Forall (fun e => blt e.1 k) a -> Forall (fun e => blt k e.1) c -> kv_put k v (a ++ b ++ c) = a ++ kv_put k v b ++ c.
Proof.
  intros A C. induction A as [|[k1 v1] a Hx _ IH]; cbn.
  - induction b as [|[k1 v1] b IH]; cbn.
    + destruct C as [|[k1 v1] c Hx _]; [done|]. cbn in *. by unfold blt in Hx; rewrite Hx.
    + destruct (bcmp k k1); [done..|]. cbn. by rewrite IH.
  - apply bcmp_Gt in Hx. cbn in Hx. by rewrite Hx, IH.
Qed.

Lemma kv_delete_id {V} k (l : list (bytes * V)) : Forall (fun e => e.1 <> k) l -> kv_delete k l = l.
Proof. unfold kv_delete. induction 1 as [|e l H _ IH]; cbn; [done|]. rewrite bool_decide_false by congruence. cbn. by rewrite IH. Qed.

Lemma kv_delete_app {V} k (a b : list (bytes * V)) : kv_delete k (a ++ b) = kv_delete k a ++ kv_delete k b.
Proof. apply List.filter_app. Qed.

Lemma kv_delete_middle {V} k (a b c : list (bytes * V)) :
  Forall (fun e => blt e.1 k) a -> Forall (fun e => blt k e.1) c -> kv_delete k (a ++ b ++ c) = a ++ kv_delete k b ++ c.
Proof.
  intros A C. rewrite !kv_delete_app, (kv_delete_id k a), (kv_delete_id k c); [done| |].
  - eapply Forall_impl; [exact C|]. intros e H Hk. cbn in H, Hk. rewrite Hk in H. by apply blt_irrefl in H.
  - eapply Forall_impl; [exact A|]. intros e H Hk. cbn in H, Hk. rewrite Hk in H. by apply blt_irrefl in H.
Qed.

Lemma kv_get_sorted_head {V} k (v : V) k' l :
  keys_sorted ((k, v) :: l) -> blt k' k -> kv_get k' ((k, v) :: l) = None.
Proof.
  intros S Hlt. apply kv_get_above. inversion S as [|? ? _ F]; subst. constructor; [done|].
  eapply Forall_impl; [done|]. intros x Hx. by apply (blt_trans _ k).
Qed.

(** A sorted list is determined by its lookups. *)
Lemma kv_ext {V} (l l' : list (bytes * V)) :
  keys_sorted l -> keys_sorted l' -> (forall k, kv_get k l = kv_get k l') -> l = l'.
Proof.
  intros S. revert l'. induction S as [|[k v] l S IH F]; intros l' S' Hx.
  { destruct l' as [|[k v] l']; [done|]. specialize (Hx k). cbn in Hx. by rewrite bool_decide_eq_true_2 in Hx. }
  destruct l' as [|[k' v'] l'].
  { specialize (Hx k). cbn in Hx. by rewrite bool_decide_eq_true_2 in Hx. }
  assert (E : k = k').
  { pose proof (Hx k) as H1. pose proof (Hx k') as H2. destruct (bcmp k k') eqn:C; [by apply bcmp_eq|..].
    - rewrite (kv_get_sorted_head k' v' k l') in H1 by done. cbn in H1. by rewrite bool_decide_eq_true_2 in H1.
    - apply bcmp_Gt in C. rewrite (kv_get_sorted_head k v k' l) in H2 by (done || by constructor).
      cbn in H2. by rewrite bool_decide_eq_true_2 in H2. }
  subst k'. pose proof (Hx k) as Hv. cbn in Hv. rewrite !bool_decide_eq_true_2 in Hv by done. injection Hv as <-.
  f_equal. inversion S' as [|? ? S1 F1]; subst. apply IH; [done|]. intros k'. specialize (Hx k'). cbn in Hx.
  case_bool_decide; [subst k'; by rewrite !kv_get_above|done].
Qed.

Lemma kv_delete_head {V} k v (l : list (bytes * V)) : keys_sorted ((k, v) :: l) -> kv_delete k ((k, v) :: l) = l.
Proof.
  intros S. inversion S as [|? ? S' F]; subst. unfold kv_delete. cbn. rewrite bool_decide_eq_true_2 by done. cbn.
  rewrite Forall_forall in F. clear S S'. induction l as [|[k' v'] l IH]; [done|]. cbn.
  assert (blt k k') by (apply (F (k', v')); by left).
  rewrite bool_decide_eq_false_2 by (intros ->; by apply blt_irrefl in H). cbn. f_equal. apply IH.
  intros x Hx. apply F. by right.
Qed.

Lemma data_len_put k v es :
  keys_sorted es -> data_len (kv_put k v es) =
    data_len es + match kv_get k es with Some old => len v - len old | None => len k + len v end /\
  len (kv_put k v es) = len es + match kv_get k es with Some _ => 0 | None => 1 end.
Proof.
  induction es as [|[k' v'] es IH]; intros K; cbn [kv_put kv_get data_len]; [split; [unfold entry_bytes_len; cbn; lia|done]|].
  pose proof K as K0. apply StronglySorted_inv in K as [K F]. destruct (IH K) as [D L]. destruct (bcmp k k') eqn:C.
  - apply bcmp_eq in C as ->. rewrite bool_decide_true by done. cbn [data_len]. unfold entry_bytes_len. cbn. split; [lia|]. rewrite !len_cons. lia.
  - rewrite bool_decide_false by (intros ->; by rewrite bcmp_refl in C).
    assert (G : kv_get k es = None).
    { apply kv_get_above. eapply Forall_impl; [exact F|]. intros x Hx. cbn in Hx. by apply (blt_trans _ k'). }
    rewrite G. cbn [data_len]. rewrite !len_cons. unfold entry_bytes_len. cbn. lia.
  - rewrite bool_decide_false by (intros ->; by rewrite bcmp_refl in C). cbn [data_len]. rewrite !len_cons. lia.
Qed.

Lemma data_len_delete k es :
  keys_sorted es -> data_len (kv_delete k es) = data_len es - match kv_get k es with Some old => len k + len old | None => 0 end /\
  len (kv_delete k es) = len es - match kv_get k es with Some _ => 1 | None => 0 end.
Proof.
  induction es as [|[k' v'] es IH]; intros K; [done|]. pose proof K as K0. apply StronglySorted_inv in K as [K F]. destruct (IH K) as [D L].
  cbn [kv_get]. case_bool_decide as E.
  - subst k'. rewrite kv_delete_head by done. cbn [data_len]. rewrite len_cons. unfold entry_bytes_len. cbn. lia.
  - unfold kv_delete in *. cbn [List.filter fst]. rewrite bool_decide_false by done. cbn [negb data_len]. rewrite !len_cons. lia.
Qed.

(** ** Theorems *)

Definition in_range_get {V} (lo hi : Bound) (k : bytes) (l : list (bytes * V)) : option V :=
  if above lo k && below hi k then kv_get k l else None.

Lemma kv_get_scan {V} lo hi k (l : list (bytes * V)) : kv_get k (kv_scan lo hi l) = in_range_get lo hi k l.
Proof.
  unfold in_range_get, kv_scan. induction l as [|[k0 v0] l IH]; cbn; [by split_if|].
  destruct (above lo k0 && below hi k0) eqn:E; cbn; rewrite IH; case_bool_decide; subst; rewrite ?E; done.
Qed.

Lemma kv_get_app {V} k (a b : list (bytes * V)) :
  kv_get k (a ++ b) = match kv_get k a with Some x => Some x | None => kv_get k b end.
Proof. induction a as [|[k0 v0] a IH]; cbn; [done|]. by case_bool_decide. Qed.

Lemma kv_get_middle {V} k (a b c : list (bytes * V)) :
  Forall (fun e => blt e.1 k) a -> Forall (fun e => blt k e.1) c -> kv_get k (a ++ b ++ c) = kv_get k b.
Proof. intros A C. rewrite !kv_get_app, kv_get_below by done. rewrite (kv_get_above k c) by done. by destruct (kv_get k b). Qed.

Lemma kv_get_rev {V} k (l : list (bytes * V)) : keys_sorted l -> kv_get k (rev l) = kv_get k l.
Proof.
  induction 1 as [|[k0 v0] l Hs IH Hf]; [done|]. cbn [rev]. rewrite kv_get_app, IH. cbn.
  case_bool_decide; [|by destruct (kv_get k l)]. subst k0. by rewrite kv_get_above.
Qed.

Lemma import_entries {E} `{StorageEngine E} (e : E) (l : list entry) :
  exists e', import_data e (map Ok l) = Ok e' /\
    forall k, kv_get k (entries e')
      = match kv_get k (rev l) with Some v => Some v | None => kv_get k (entries e) end.
Proof.
  revert e; induction l as [|[k v] l IH]; intros e; cbn [map import_data]; [by exists e|].
  cbn [mbind outcome_bind]. destruct (engine_put_spec e k v) as (e1 & -> & E1).
  cbn [mbind outcome_bind]. destruct (IH e1) as (e2 & E2 & H2). exists e2. split; [done|].
  intros k'. rewrite H2, E1, kv_get_put. cbn [rev].
  rewrite kv_get_app. cbn. destruct (kv_get k' (rev l)); [done|]. by case_bool_decide.
Qed.

(** Moving the data of one engine into another that is empty copies it:
    afterwards both answer every [get] the same. *)
Theorem export_import {E F} `{StorageEngine E} `{StorageEngine F} (src : E) (dst : F) :
  entries dst = [] ->
  exists dst', import_data dst (export_data src) = Ok dst' /\
    forall k, engine_get dst' k = engine_get src k.
Proof.
  intros Hd. unfold export_data. rewrite scan_range_spec.
  destruct (import_entries dst (kv_scan Unbounded Unbounded (entries src))) as (dst' & E1 & G).
  exists dst'. split; [done|]. intros k. rewrite !engine_get_spec, G, Hd. f_equal.
  rewrite kv_get_rev by (apply keys_sorted_scan, entries_sorted). rewrite kv_get_scan. unfold in_range_get. cbn.
  by destruct (kv_get k (entries src)).
Qed.

(** ** The reference engine *)

Definition Reference : Type := { l : list entry | keys_sorted l }.

Definition ref_put (e : Reference) (k v : bytes) : Reference :=
  exist _ (kv_put k v (proj1_sig e)) (keys_sorted_put k v _ (proj2_sig e)).
Definition ref_delete (e : Reference) (k : bytes) : Reference :=
  exist _ (kv_delete k (proj1_sig e)) (keys_sorted_delete k _ (proj2_sig e)).

#[global] Instance reference_engine : StorageEngine Reference.
Proof.
  refine {|
    entries := fun e => proj1_sig e;
    engine_get := fun e k => Ok (kv_get k (proj1_sig e));
    engine_put := fun e k v => Ok (ref_put e k v);
    engine_delete := fun e k => Ok (ref_delete e k);
    scan_range := fun e lo hi => map Ok (kv_scan lo hi (proj1_sig e)) |}.
  - intros e. apply (proj2_sig e).
  - done.
  - intros e k v. by eexists.
  - intros e k. by eexists.
  - done.
Defined.

Definition empty_engine : Reference := exist _ [] (SSorted_nil _).

Lemma export_import_witness :
  exists dst', import_data empty_engine (export_data (ref_put empty_engine [byte.of_Z 1] [byte.of_Z 2])) = Ok dst' /\
    forall k, engine_get dst' k = engine_get (ref_put empty_engine [byte.of_Z 1] [byte.of_Z 2]) k.
Proof. apply export_import. reflexivity. Defined.

(** Importing does not clear what the engine holds. *)
Lemma import_keeps_old_data :
  let old := ref_put empty_engine [byte.of_Z 1] [byte.of_Z 2] in
  exists e, import_data old (export_data empty_engine) = Ok e /\
    engine_get e [byte.of_Z 1] = Ok (Some [byte.of_Z 2]).
Proof. eexists. split; reflexivity. Qed.
