(* ===== verification/Mvcc.v ===== *)
(** Versioned keys and values, visibility and snapshot reads
    (crates/idb-txn/src/txn/mvcc.rs).

    Timestamps and transaction ids are [u64]s in [Z].  Reads are proved against
    the [StorageEngine] interface. *)

From Stdlib Require Import ZArith Lia List Bool.
From coqutil Require Import Byte Word.LittleEndianList.
From stdpp Require Import base gmap list strings sorting.
From S2P Require Import Prelude Common WalRecord Engine.
#[local] Open Scope Z_scope.

Definition U64_MAX : Z := 2 ^ 64 - 1.

Definition encode_mvcc_key (user_key : bytes) (ts : Z) : result bytes :=
  if negb (len user_key <=? 2 ^ 32 - 1) then Panic else
  inverted_ts ← @arith Error in_u64 (U64_MAX - ts);
  Ok (to_be_bytes 4 (as_unsigned 32 (len user_key)) ++ user_key ++ to_be_bytes 8 inverted_ts).

Definition be_at (n i : Z) (buf : bytes) : result Z :=
  raw ← slice i (i + n) buf; Ok (from_be_bytes raw).

Definition decode_mvcc_key (encoded : bytes) : result (bytes * Z) :=
  if len encoded <? 12 then Err (StorageCorrupted "mvcc key too short") else
  key_len ← be_at 4 0 encoded;
  if negb (len encoded =? 4 + key_len + 8)
  then Err (StorageCorrupted "mvcc key length mismatch") else
  user_key ← slice 4 (4 + key_len) encoded;
  inverted_ts ← be_at 8 (4 + key_len) encoded;
  ts ← @arith Error in_u64 (U64_MAX - inverted_ts);
  Ok (user_key, ts).

Definition encode_mvcc_key_start (user_key : bytes) : result bytes := encode_mvcc_key user_key U64_MAX.
Definition encode_mvcc_key_end (user_key : bytes) : result bytes := encode_mvcc_key user_key 0.

Inductive MvccValue :=
| MValue (txn : Z) (data : bytes)
| MTombstone (txn : Z).

Definition version_txn (v : MvccValue) : Z :=
  match v with MValue txn _ => txn | MTombstone txn => txn end.

Definition encode_mvcc_value (v : MvccValue) : bytes :=
  match v with
  | MValue txn data =>
      byte.of_Z 1 :: to_le_bytes 8 txn ++ to_le_bytes 4 (as_unsigned 32 (len data)) ++ data
  | MTombstone txn => byte.of_Z 0 :: to_le_bytes 8 txn
  end.

Definition decode_mvcc_value (encoded : bytes) : result MvccValue :=
  match encoded with
  | [] => Err (StorageCorrupted "empty mvcc value")
  | tag :: _ =>
      if u8 tag =? 1 then
        if len encoded <? 13
        then Err (StorageCorrupted "mvcc value too short for Value") else
        txn ← le_at 8 1 encoded;
        data_len ← le_at 4 9 encoded;
        if negb (len encoded =? 13 + data_len)
        then Err (StorageCorrupted "mvcc value data length mismatch") else
        data ← slice 13 (13 + data_len) encoded;
        Ok (MValue txn data)
      else if u8 tag =? 0 then
        if len encoded <? 9
        then Err (StorageCorrupted "mvcc value too short for Tombstone") else
        txn ← le_at 8 1 encoded;
        Ok (MTombstone txn)
      else Err (StorageCorrupted "invalid mvcc value tag")
  end.

Definition is_visible (version_txn_id version_ts my_txn_id read_ts : Z)
    (committed_txns : gmap Z Z) (checkpoint_ts : Z) (known_uncommitted : gset Z) : bool :=
  if version_txn_id =? my_txn_id then true else
  match committed_txns !! version_txn_id with
  | Some commit_ts => commit_ts <=? read_ts
  | None =>
      if (version_ts <=? checkpoint_ts) && negb (bool_decide (version_txn_id ∈ known_uncommitted))
      then version_ts <=? read_ts
      else false
  end.

(** *** Point reads *)

Definition live (v : MvccValue) : option bytes :=
  match v with MValue _ data => Some data | MTombstone _ => None end.

(** The loop over the versions the engine scan yields. *)
Fixpoint get_loop (user_key : bytes) (visible : Z -> Z -> bool) (scan : list (result entry)) :
    result (option bytes) :=
  match scan with
  | [] => Ok None
  | item :: rest =>
      '(encoded_key, encoded_value) ← item;
      '(found_key, version_ts) ← decode_mvcc_key encoded_key;
      if negb (bool_decide (found_key = user_key)) then Ok None else
      v ← decode_mvcc_value encoded_value;
      if negb (visible (version_txn v) version_ts) then get_loop user_key visible rest else
      Ok (live v)
  end.

Definition mvcc_get {E} `{StorageEngine E} (engine : E) (user_key : bytes) (visible : Z -> Z -> bool) :
    result (option bytes) :=
  start ← encode_mvcc_key_start user_key;
  stop ← encode_mvcc_key_end user_key;
  get_loop user_key visible (scan_range engine (Included start) (Included stop)).

(** *** Bucket bounds *)

(** The carry loop over the bytes, last first; [None] when the carry runs off
    the front. *)
Fixpoint carry_up (rev_key : bytes) : option bytes :=
  match rev_key with
  | [] => None
  | c :: rest =>
      if u8 c =? 255 then option_map (cons (byte.of_Z 0)) (carry_up rest)
      else Some (byte.of_Z (u8 c + 1) :: rest)
  end.

Fixpoint borrow_down (rev_key : bytes) : option bytes :=
  match rev_key with
  | [] => None
  | c :: rest =>
      if u8 c =? 0 then option_map (cons (byte.of_Z 255)) (borrow_down rest)
      else Some (byte.of_Z (u8 c - 1) :: rest)
  end.

Definition min_user_key_at_length_ge (start : bytes) (l : Z) : option bytes :=
  if len start <=? l then Some (start ++ replicate (Z.to_nat (l - len start)) (byte.of_Z 0))
  else option_map (@rev byte) (carry_up (rev (take (Z.to_nat l) start))).

Definition max_user_key_at_length_le (stop : bytes) (l : Z) : option bytes :=
  if l <=? len stop then Some (take (Z.to_nat l) stop)
  else option_map (fun p => rev p ++ replicate (Z.to_nat (l - len stop)) (byte.of_Z 255))
         (borrow_down (rev stop)).

(** *** Range scans *)

Section scan.
Context {E : Type} `{StorageEngine E}.

Record MvccScan := mkScan {
  start_key : bytes;
  end_key : bytes;
  probe_pos : bytes;
  inner : option (list (result entry));
  current_user_key : option bytes;
  found_visible_for_current : bool;
  last_bucket : bool;
  scan_done : bool
}.

Definition scan_new (start stop : bytes) : MvccScan :=
  mkScan start stop (replicate 12 (byte.of_Z 0)) None None false false false.

Definition with_probe (s : MvccScan) (p : bytes) : MvccScan :=
  mkScan (start_key s) (end_key s) p (inner s) (current_user_key s) (found_visible_for_current s)
    (last_bucket s) (scan_done s).
Definition with_last (s : MvccScan) : MvccScan :=
  mkScan (start_key s) (end_key s) (probe_pos s) (inner s) (current_user_key s)
    (found_visible_for_current s) true (scan_done s).
Definition with_inner (s : MvccScan) (i : list (result entry)) : MvccScan :=
  mkScan (start_key s) (end_key s) (probe_pos s) (Some i) None false (last_bucket s) (scan_done s).
Definition pull (s : MvccScan) (i : list (result entry)) : MvccScan :=
  mkScan (start_key s) (end_key s) (probe_pos s) (Some i) (current_user_key s)
    (found_visible_for_current s) (last_bucket s) (scan_done s).
Definition deciding (s : MvccScan) (cur : option bytes) (found : bool) : MvccScan :=
  mkScan (start_key s) (end_key s) (probe_pos s) (inner s) cur found (last_bucket s) (scan_done s).
Definition stopped (s : MvccScan) : MvccScan :=
  mkScan (start_key s) (end_key s) (probe_pos s) None (current_user_key s)
    (found_visible_for_current s) (last_bucket s) true.
Definition bucket_over (s : MvccScan) : MvccScan :=
  mkScan (start_key s) (end_key s) (probe_pos s) None (current_user_key s)
    (found_visible_for_current s) (last_bucket s) (last_bucket s || scan_done s).

(** One turn of [arm_next_bucket]'s loop: [inl] goes round again. *)
Definition arm_turn (engine : E) (s : MvccScan) : result (MvccScan + (bool * MvccScan)) :=
  match scan_range engine (Included (probe_pos s)) Unbounded with
  | [] => Ok (inr (false, s))
  | item :: _ =>
      '(probe_key, _) ← item;
      if len probe_key <? 4 then Ok (inr (false, s)) else
      bucket_len ← be_at 4 0 probe_key;
      if negb (len probe_key =? 4 + bucket_len + 8) then Ok (inr (false, s)) else
      let s := match checked in_u32 (bucket_len + 1) with
               | Some n => with_probe s (to_be_bytes 4 n)
               | None => with_last s
               end in
      match min_user_key_at_length_ge (start_key s) bucket_len,
            max_user_key_at_length_le (end_key s) bucket_len with
      | Some min_uk, Some max_uk =>
          if bleb min_uk max_uk then
            scan_start ← encode_mvcc_key_start min_uk;
            scan_end ← encode_mvcc_key_end max_uk;
            Ok (inr (true, with_inner s (scan_range engine (Included scan_start) (Included scan_end))))
          else if last_bucket s then Ok (inr (false, s)) else Ok (inl s)
      | _, _ => if last_bucket s then Ok (inr (false, s)) else Ok (inl s)
      end
  end.

Fixpoint arm_next_bucket (fuel : nat) (engine : E) (s : MvccScan) : option (result (bool * MvccScan)) :=
  match fuel with
  | O => None
  | S fuel =>
      match arm_turn engine s with
      | Ok (inl s') => arm_next_bucket fuel engine s'
      | Ok (inr r) => Some (Ok r)
      | Err e => Some (Err e)
      | Panic => Some Panic
      end
  end.

Abbreviation scan_item := (option (result entry)).

(** One turn of [next]'s loop on an entry pulled from the bucket. *)
Definition entry_turn (visible : Z -> Z -> bool) (s : MvccScan) (encoded_key encoded_value : bytes) :
    result (MvccScan + (scan_item * MvccScan)) :=
  match decode_mvcc_key encoded_key with
  | Panic => Panic
  | Err e => Ok (inr (Some (Err e), stopped s))
  | Ok (user_key, version_ts) =>
      let s := if bool_decide (current_user_key s = Some user_key) then s
               else deciding s (Some user_key) false in
      if found_visible_for_current s then Ok (inl s) else
      match decode_mvcc_value encoded_value with
      | Panic => Panic
      | Err e => Ok (inr (Some (Err e), stopped s))
      | Ok v =>
          if negb (visible (version_txn v) version_ts) then Ok (inl s) else
          let s := deciding s (current_user_key s) true in
          match v with
          | MValue _ data => Ok (inr (Some (Ok (user_key, data)), s))
          | MTombstone _ => Ok (inl s)
          end
      end
  end.

Fixpoint scan_next (fuel : nat) (engine : E) (visible : Z -> Z -> bool) (s : MvccScan) :
    option (result (scan_item * MvccScan)) :=
  match fuel with
  | O => None
  | S fuel' =>
      match inner s with
      | Some (Ok (k, v) :: rest) =>
          match entry_turn visible (pull s rest) k v with
          | Ok (inl s') => scan_next fuel' engine visible s'
          | Ok (inr r) => Some (Ok r)
          | Err e => Some (Err e)
          | Panic => Some Panic
          end
      | Some (Err e :: _) => Some (Ok (Some (Err e), stopped s))
      | Some (Panic :: _) => Some Panic
      | Some [] | None =>
          let s := match inner s with Some _ => bucket_over s | None => s end in
          if scan_done s then Some (Ok (None, s)) else
          match arm_next_bucket fuel engine s with
          | None => None
          | Some (Ok (true, s')) => scan_next fuel' engine visible s'
          | Some (Ok (false, s')) => Some (Ok (None, stopped s'))
          | Some (Err e) => Some (Ok (Some (Err e), stopped s))
          | Some Panic => Some Panic
          end
      end
  end.

(** [collect::<Result<Vec<_>>>()], with at most [calls] calls of [next]. *)
Fixpoint scan_collect (calls fuel : nat) (engine : E) (visible : Z -> Z -> bool) (s : MvccScan) :
    option (result (list entry)) :=
  match calls with
  | O => None
  | S calls =>
      match scan_next fuel engine visible s with
      | None => None
      | Some (Ok (None, _)) => Some (Ok [])
      | Some (Ok (Some (Ok kv), s')) =>
          match scan_collect calls fuel engine visible s' with
          | Some (Ok kvs) => Some (Ok (kv :: kvs))
          | other => other
          end
      | Some (Ok (Some (Err e), _)) => Some (Err e)
      | Some (Ok (Some Panic, _)) | Some Panic => Some Panic
      | Some (Err e) => Some (Err e)
      end
  end.

Definition mvcc_scan (calls fuel : nat) (engine : E) (start stop : bytes) (visible : Z -> Z -> bool) :
    option (result (list entry)) :=
  scan_collect calls fuel engine visible (scan_new start stop).
End scan.

(** ** Specification: versions *)

Record version := mkVersion { vkey : bytes; vts : Z; vval : MvccValue }.

Definition mvcc_key (k : bytes) (ts : Z) : bytes :=
  to_be_bytes 4 (len k) ++ k ++ to_be_bytes 8 (U64_MAX - ts).

Definition stored (v : version) : entry := (mvcc_key (vkey v) (vts v), encode_mvcc_value (vval v)).

Definition value_ok (m : MvccValue) : bool :=
  match m with MValue txn data => in_u64 txn && (len data <? 2 ^ 32) | MTombstone txn => in_u64 txn end.

Definition version_ok (v : version) : Prop :=
  len (vkey v) <= 2 ^ 32 - 1 /\ in_u64 (vts v) = true /\ value_ok (vval v) = true.

(** The engine holds exactly the versions [vs], newest of a key first. *)
Definition holds_versions {E} `{StorageEngine E} (e : E) (vs : list version) : Prop :=
  entries e = map stored vs /\ Forall version_ok vs.

(** Order of the versioned keyspace: by key length, key, then newest first. *)
Definition version_cmp (k : bytes) (ts : Z) (k' : bytes) (ts' : Z) : comparison :=
  then_cmp (len k ?= len k') (then_cmp (bcmp k k') (ts' ?= ts)).

Definition sees (visible : Z -> Z -> bool) (k : bytes) (v : version) : bool :=
  bool_decide (vkey v = k) && visible (version_txn (vval v)) (vts v).

(** The newest version of [k] a reader sees. *)
Definition newest (visible : Z -> Z -> bool) (k : bytes) (vs : list version) : option version :=
  List.find (sees visible k) vs.

Definition read (visible : Z -> Z -> bool) (k : bytes) (vs : list version) : option bytes :=
  match newest visible k vs with Some v => live (vval v) | None => None end.

(** The live entries of a list of versions, given what has been decided about
    the key [cur]. *)
Fixpoint resolve (visible : Z -> Z -> bool) (cur : option bytes) (found : bool) (vs : list version) :
    list entry :=
  match vs with
  | [] => []
  | v :: vs =>
      let found := found && bool_decide (cur = Some (vkey v)) in
      if found then resolve visible (Some (vkey v)) true vs
      else if visible (version_txn (vval v)) (vts v)
      then match live (vval v) with
           | Some data => (vkey v, data) :: resolve visible (Some (vkey v)) true vs
           | None => resolve visible (Some (vkey v)) true vs
           end
      else resolve visible (Some (vkey v)) false vs
  end.

Definition in_range (start stop k : bytes) : bool := bleb start k && bleb k stop.

(** Versions of the range whose key has at least [n] bytes. *)
Definition later (start stop : bytes) (n : Z) (vs : list version) : list version :=
  List.filter (fun v => (n <=? len (vkey v)) && in_range start stop (vkey v)) vs.

(** *** Codecs *)

Lemma in_u64_iff z : in_u64 z = true <-> 0 <= z < 2 ^ 64.
Proof. unfold in_u64. rewrite andb_true_iff, Z.leb_le, Z.ltb_lt. lia. Qed.

Lemma encode_mvcc_key_ok k ts :
  len k <= 2 ^ 32 - 1 -> in_u64 ts = true -> encode_mvcc_key k ts = Ok (mvcc_key k ts).
Proof.
  intros Hk Ht. apply in_u64_iff in Ht. unfold encode_mvcc_key, mvcc_key, U64_MAX. zcase. cbn [negb].
  rewrite arith_bind by fits. cbv beta. pose proof (len_nonneg k). by rewrite as_unsigned_small by lia.
Qed.

Lemma be_at_app pre (k : nat) z post buf n i :
  buf = pre ++ to_be_bytes k z ++ post -> n = Z.of_nat k -> i = len pre ->
  0 <= z < 2 ^ (8 * Z.of_nat k) -> be_at n i buf = Ok z.
Proof.
  intros -> -> -> Hz. unfold be_at. rewrite slice_mid by (rewrite ?len_to_be_bytes; done). cbn.
  by rewrite from_to_be_bytes.
Qed.

Lemma decode_mvcc_key_ok k ts :
  len k <= 2 ^ 32 - 1 -> in_u64 ts = true -> decode_mvcc_key (mvcc_key k ts) = Ok (k, ts).
Proof.
  intros Hk Ht. apply in_u64_iff in Ht. unfold decode_mvcc_key. pose proof (len_nonneg k).
  assert (L : len (mvcc_key k ts) = 4 + len k + 8).
  { unfold mvcc_key. rewrite !len_app, !len_to_be_bytes. lia. }
  rewrite L. destruct (Z.ltb_spec (4 + len k + 8) 12); [lia|].
  rewrite (be_at_app [] 4 (len k) (k ++ to_be_bytes 8 (U64_MAX - ts)) _ 4 0); [|done|done|done|lia].
  cbn [mbind outcome_bind]. rewrite Z.eqb_refl. cbn [negb].
  unfold mvcc_key. rewrite (slice_at (to_be_bytes 4 (len k)) k (to_be_bytes 8 (U64_MAX - ts)));
    [|done|by rewrite len_to_be_bytes|lia]. cbn [mbind outcome_bind].
  rewrite (be_at_app (to_be_bytes 4 (len k) ++ k) 8 (U64_MAX - ts) []); cbn [mbind outcome_bind];
    [|by rewrite app_nil_r, <- app_assoc|done|rewrite len_app, len_to_be_bytes; lia|unfold U64_MAX; lia].
  rewrite arith_bind by (unfold U64_MAX; fits). cbv beta. do 2 f_equal. lia.
Qed.

Lemma decode_mvcc_value_ok v : value_ok v = true -> decode_mvcc_value (encode_mvcc_value v) = Ok v.
Proof.
  destruct v as [txn data|txn]; cbn [value_ok encode_mvcc_value]; intros H; unfold decode_mvcc_value.
  - apply andb_true_iff in H as [Ht Hd]. apply in_u64_iff in Ht. zbool. pose proof (len_nonneg data).
    rewrite as_unsigned_small by lia. change (u8 (byte.of_Z 1) =? 1) with true. cbv iota.
    rewrite len_cons, !len_app, !len_to_le_bytes. set (buf := _ :: _).
    destruct (Z.ltb_spec (1 + (Z.of_nat 8 + (Z.of_nat 4 + len data))) 13); [lia|].
    rewrite (le_at_app [byte.of_Z 1] 8 txn (to_le_bytes 4 (len data) ++ data) buf 8 1) by (done || lia).
    cbn [mbind outcome_bind].
    rewrite (le_at_app (byte.of_Z 1 :: to_le_bytes 8 txn) 4 (len data) data buf 4 9) by (done || lia).
    cbn [mbind outcome_bind]. destruct (Z.eqb_spec (1 + (Z.of_nat 8 + (Z.of_nat 4 + len data))) (13 + len data)); [|lia].
    cbn [negb]. rewrite (slice_at (byte.of_Z 1 :: to_le_bytes 8 txn ++ to_le_bytes 4 (len data)) data [] buf);
      [done|unfold buf; cbn; by rewrite app_nil_r, <- app_assoc|by rewrite len_cons, len_app, !len_to_le_bytes|lia].
  - apply in_u64_iff in H. change (u8 (byte.of_Z 0) =? 1) with false. change (u8 (byte.of_Z 0) =? 0) with true.
    cbv iota. rewrite len_cons, len_to_le_bytes. cbn [Z.ltb Z.of_nat].
    rewrite (le_at_app [byte.of_Z 0] 8 txn [] _ 8 1); [done|by rewrite app_nil_r|done|done|lia].
Qed.

Lemma length_to_be_bytes n z : length (to_be_bytes n z) = n.
Proof. pose proof (len_to_be_bytes n z). unfold len in *. lia. Qed.

Lemma mvcc_key_cmp k ts k' ts' :
  len k <= 2 ^ 32 - 1 -> len k' <= 2 ^ 32 - 1 -> in_u64 ts = true -> in_u64 ts' = true ->
  bcmp (mvcc_key k ts) (mvcc_key k' ts') = version_cmp k ts k' ts'.
Proof.
  intros Hk Hk' Ht Ht'. apply in_u64_iff in Ht, Ht'. pose proof (len_nonneg k). pose proof (len_nonneg k').
  unfold mvcc_key, version_cmp.
  rewrite bcmp_app by (by rewrite !length_to_be_bytes). rewrite bcmp_be by (cbn; lia).
  destruct (Z.compare_spec (len k) (len k')) as [E|E|E]; [|done|done]. cbn [then_cmp].
  rewrite bcmp_app by (unfold len in E; lia). f_equal. unfold U64_MAX. rewrite bcmp_be by (cbn; lia).
  destruct (Z.compare_spec ts' ts), (Z.compare_spec (2 ^ 64 - 1 - ts) (2 ^ 64 - 1 - ts')); lia || done.
Qed.

(** *** Ranges of the versioned keyspace *)

Lemma bleb_cmp a b : bleb a b = match bcmp a b with Gt => false | _ => true end.
Proof. unfold bleb. case_bool_decide as D; unfold ble in D; destruct (bcmp a b); done || by destruct D. Qed.

Definition in_bucket (lo hi : bytes) (k : bytes) : bool :=
  (len k =? len lo) && bleb lo k && bleb k hi.

Lemma bucket_range lo hi v :
  len lo = len hi -> len lo <= 2 ^ 32 - 1 -> version_ok v ->
  above (Included (mvcc_key lo U64_MAX)) (stored v).1 && below (Included (mvcc_key hi 0)) (stored v).1
  = in_bucket lo hi (vkey v).
Proof.
  intros Hl Hlo (Hk & Ht & _). unfold in_bucket, stored. cbn [above below fst].
  rewrite !bleb_cmp, !mvcc_key_cmp by (done || lia). unfold version_cmp, U64_MAX.
  apply in_u64_iff in Ht. rewrite <- Hl.
  destruct (Z.compare_spec (len lo) (len (vkey v))) as [E|E|E], (Z.compare_spec (len (vkey v)) (len lo)) as [F|F|F];
    try lia; zcase; cbn [then_cmp andb]; try done; try lia.
  destruct (bcmp lo (vkey v)), (bcmp (vkey v) hi); cbn [then_cmp andb]; try done;
    destruct (Z.compare_spec (vts v) (2 ^ 64 - 1)), (Z.compare_spec 0 (vts v)); done || lia.
Qed.

Lemma bucket_one k v :
  len k <= 2 ^ 32 - 1 -> version_ok v -> in_bucket k k (vkey v) = bool_decide (vkey v = k).
Proof.
  intros Hk Hv. unfold in_bucket. rewrite !bleb_cmp. case_bool_decide as E.
  - rewrite E, Z.eqb_refl, bcmp_refl. done.
  - rewrite (bcmp_antisym k (vkey v)). destruct (bcmp k (vkey v)) eqn:C; cbn; try by rewrite ?andb_false_r.
    by apply bcmp_eq in C.
Qed.

Section reads.
Context {E : Type} `{StorageEngine E}.

Lemma scan_versions e vs lo hi :
  holds_versions e vs ->
  scan_range e lo hi
  = map Ok (map stored (List.filter (fun v => above lo (stored v).1 && below hi (stored v).1) vs)).
Proof.
  intros [He _]. rewrite scan_range_spec, He. f_equal. unfold kv_scan. clear He.
  induction vs as [|v vs IH]; cbn [map List.filter]; [done|]. split_if; cbn [map]; by rewrite IH.
Qed.

Lemma scan_bucket e vs lo hi :
  holds_versions e vs -> len lo = len hi -> len lo <= 2 ^ 32 - 1 ->
  scan_range e (Included (mvcc_key lo U64_MAX)) (Included (mvcc_key hi 0))
  = map Ok (map stored (List.filter (fun v => in_bucket lo hi (vkey v)) vs)).
Proof.
  intros Hh Hl Hk. rewrite (scan_versions e vs) by done. destruct Hh as [_ Hok]. do 2 f_equal.
  induction Hok as [|v vs Hv Hok IH]; [done|]. cbn [List.filter]. rewrite bucket_range, IH by done. done.
Qed.

Lemma get_loop_ok k visible vs :
  Forall version_ok vs -> Forall (fun v => vkey v = k) vs ->
  get_loop k visible (map Ok (map stored vs))
  = Ok (match List.find (fun v => visible (version_txn (vval v)) (vts v)) vs with
        | Some v => live (vval v) | None => None end).
Proof.
  induction 1 as [|v vs (Hl & Ht & Hv) Hok IH]; intros Hk; [done|].
  inversion_clear Hk as [|? ? Hvk Hvs]. cbn [map get_loop stored mbind outcome_bind].
  rewrite decode_mvcc_key_ok by done. cbn [mbind outcome_bind].
  rewrite bool_decide_eq_true_2 by done. cbn [negb]. rewrite decode_mvcc_value_ok by done.
  cbn [mbind outcome_bind List.find]. destruct (visible _ _); cbn [negb]; [done|]. by apply IH.
Qed.

Lemma find_filter {A} (f g : A -> bool) l :
  List.find f (List.filter g l) = List.find (fun a => g a && f a) l.
Proof.
  induction l as [|a l IH]; cbn; [done|]. destruct (g a); cbn; [by rewrite IH|done].
Qed.

Lemma mvcc_get_ok e vs k visible :
  holds_versions e vs -> len k <= 2 ^ 32 - 1 ->
  mvcc_get e k visible = Ok (read visible k vs).
Proof.
  intros Hh Hk. unfold mvcc_get, encode_mvcc_key_start, encode_mvcc_key_end.
  rewrite !encode_mvcc_key_ok by done. cbn [mbind outcome_bind].
  rewrite (scan_bucket e vs) by done. destruct Hh as [_ Hok].
  assert (F : List.filter (fun v => in_bucket k k (vkey v)) vs
              = List.filter (fun v => bool_decide (vkey v = k)) vs).
  { induction Hok as [|v vs Hv Hok IH]; [done|]. cbn [List.filter]. by rewrite bucket_one, IH. }
  rewrite F, get_loop_ok.
  - unfold read, newest. by rewrite find_filter.
  - apply Forall_forall. intros v Hv. apply list_elem_of_In, filter_In in Hv as [Hv _].
    rewrite Forall_forall in Hok. apply Hok. by apply list_elem_of_In.
  - apply Forall_forall. intros v Hv. apply list_elem_of_In, filter_In in Hv as [_ Hv].
    by apply bool_decide_eq_true in Hv.
Qed.
End reads.

(** *** Bucket bounds *)

Lemma le_combine_cons c r : le_combine (c :: r) = u8 c + 256 * le_combine r.
Proof.
  change (le_combine (c :: r)) with (Z.lor (u8 c) (Z.shiftl (le_combine r) 8)).
  pose proof (byte.unsigned_range c). rewrite Z.shiftl_mul_pow2 by lia.
  rewrite <- Z.lxor_lor, <- Z.add_nocarry_lxor; [lia|..];
    (apply Z.bits_inj'; intros i Hi; rewrite Z.land_spec, Z.bits_0;
     destruct (Z.lt_ge_cases i 8); [rewrite Z.mul_pow2_bits_low by lia; apply andb_false_r|];
     destruct (Z.eq_dec (u8 c) 0) as [->|]; [by rewrite Z.bits_0|];
     rewrite Z.bits_above_log2; [done|lia|]; apply Z.log2_lt_pow2; [lia|];
     apply Z.lt_le_trans with (2 ^ 8); [lia|apply Z.pow_le_mono_r; lia]).
Qed.

Lemma carry_up_spec r :
  match carry_up r with
  | Some r' => length r' = length r /\ le_combine r' = le_combine r + 1
  | None => le_combine r = 2 ^ (8 * len r) - 1
  end.
Proof.
  induction r as [|c r IH]; [done|]. cbn [carry_up]. pose proof (byte.unsigned_range c).
  destruct (Z.eqb_spec (u8 c) 255) as [Hc|Hc].
  - destruct (carry_up r) as [r'|]; cbn [option_map].
    + destruct IH as [Hl IH]. cbn [length]. rewrite Hl, !le_combine_cons, IH, Hc.
      change (u8 (byte.of_Z 0)) with 0. lia.
    + rewrite le_combine_cons, IH, Hc, len_cons. rewrite Z.mul_add_distr_l, Z.pow_add_r by
        (pose proof (len_nonneg r); lia). lia.
  - split; [done|]. rewrite !le_combine_cons, byte.unsigned_of_Z. unfold byte.wrap.
    rewrite Z.mod_small by lia. lia.
Qed.

Lemma borrow_down_spec r :
  match borrow_down r with
  | Some r' => length r' = length r /\ le_combine r' = le_combine r - 1
  | None => le_combine r = 0
  end.
Proof.
  induction r as [|c r IH]; [done|]. cbn [borrow_down]. pose proof (byte.unsigned_range c).
  destruct (Z.eqb_spec (u8 c) 0) as [Hc|Hc].
  - destruct (borrow_down r) as [r'|]; cbn [option_map].
    + destruct IH as [Hl IH]. cbn [length]. rewrite Hl, !le_combine_cons, IH, Hc.
      change (u8 (byte.of_Z 255)) with 255. lia.
    + rewrite le_combine_cons, IH, Hc. done.
  - split; [done|]. rewrite !le_combine_cons, byte.unsigned_of_Z. unfold byte.wrap.
    rewrite Z.mod_small by lia. lia.
Qed.

Lemma bcmp_same_length a b :
  length a = length b -> bcmp a b = (from_be_bytes a ?= from_be_bytes b).
Proof.
  intros Hl. rewrite <- (to_from_be_bytes (length a) a) at 1 by done.
  rewrite <- (to_from_be_bytes (length a) b) at 1 by done.
  apply bcmp_be; [apply from_be_bytes_bound|]. rewrite Hl. apply from_be_bytes_bound.
Qed.

Lemma from_be_rev r : from_be_bytes (rev r) = le_combine r.
Proof. unfold from_be_bytes, reverse. by rewrite <- rev_alt, rev_involutive. Qed.

(** Among keys of one length, the carry gives the next one. *)
Lemma next_key s u :
  length s = length u ->
  blt s u <-> match carry_up (rev s) with Some r => ble (rev r) u | None => False end.
Proof.
  intros Hl. unfold blt, ble. rewrite (bcmp_same_length s u), Z.compare_lt_iff by done.
  pose proof (carry_up_spec (rev s)) as C. pose proof (from_be_rev (rev s)) as F. rewrite rev_involutive in F.
  destruct (carry_up (rev s)) as [r|].
  - destruct C as [L C]. rewrite bcmp_same_length by (rewrite length_rev, L, length_rev; done).
    rewrite from_be_rev, Z.compare_gt_iff. lia.
  - unfold len in C. rewrite length_rev, Hl in C. pose proof (from_be_bytes_bound u). unfold len in *. lia.
Qed.

Lemma prev_key s u :
  length s = length u ->
  blt u s <-> match borrow_down (rev s) with Some r => ble u (rev r) | None => False end.
Proof.
  intros Hl. unfold blt, ble. rewrite (bcmp_same_length u s), Z.compare_lt_iff by done.
  pose proof (borrow_down_spec (rev s)) as C. pose proof (from_be_rev (rev s)) as F. rewrite rev_involutive in F.
  destruct (borrow_down (rev s)) as [r|].
  - destruct C as [L C]. rewrite bcmp_same_length by (rewrite length_rev, L, length_rev; done).
    rewrite from_be_rev, Z.compare_gt_iff. lia.
  - pose proof (from_be_bytes_bound u). lia.
Qed.

Lemma zeros_least n u : length u = n -> bcmp (replicate n (byte.of_Z 0)) u <> Gt.
Proof.
  revert u; induction n as [|n IH]; intros [|c u]; try done. intros [= Hu]. cbn.
  change (u8 (byte.of_Z 0)) with 0. pose proof (byte.unsigned_range c).
  destruct (Z.compare_spec 0 (u8 c)); cbn; [by apply IH|done|lia].
Qed.

Lemma ffs_greatest n u : length u = n -> bcmp u (replicate n (byte.of_Z 255)) <> Gt.
Proof.
  revert u; induction n as [|n IH]; intros [|c u]; try done. intros [= Hu]. cbn.
  change (u8 (byte.of_Z 255)) with 255. pose proof (byte.unsigned_range c).
  destruct (Z.compare_spec (u8 c) 255); cbn; [by apply IH|done|lia].
Qed.

Lemma then_not_gt c d : d <> Gt -> then_cmp c d <> Gt <-> c <> Gt.
Proof. intros Hd; destruct c; cbn; split; congruence. Qed.

Lemma min_user_key_spec start u :
  match min_user_key_at_length_ge start (len u) with
  | Some m => len m = len u /\ (ble start u <-> ble m u)
  | None => ~ ble start u
  end.
Proof.
  unfold min_user_key_at_length_ge, len. destruct (Z.leb_spec (Z.of_nat (length start)) (Z.of_nat (length u))).
  - split; [rewrite length_app, length_replicate; lia|]. set (k := Z.to_nat _).
    rewrite <- (take_drop (length start) u). set (u1 := take _ u). set (u2 := drop _ u).
    assert (L1 : length start = length u1) by (unfold u1; rewrite length_take; lia).
    assert (L2 : length u2 = k) by (unfold u2, k; rewrite length_drop; lia).
    unfold ble. rewrite <- (app_nil_r start) at 1. rewrite !bcmp_app by done.
    rewrite !then_not_gt; [done|by apply zeros_least|by destruct u2].
  - rewrite Nat2Z.id. set (s1 := take (length u) start). set (s2 := drop (length u) start).
    assert (L1 : length s1 = length u) by (unfold s1; rewrite length_take; lia).
    assert (L2 : length s2 <> 0%nat) by (unfold s2; rewrite length_drop; lia).
    assert (Es : start = s1 ++ s2) by (unfold s1, s2; by rewrite take_drop).
    assert (B : ble start u <-> blt s1 u).
    { rewrite Es. unfold ble, blt. rewrite <- (app_nil_r u) at 1. rewrite bcmp_app by done.
      destruct s2; [done|]. by destruct (bcmp s1 u). }
    rewrite (next_key s1 u L1) in B. pose proof (carry_up_spec (rev s1)) as C.
    destruct (carry_up (rev s1)) as [r|]; cbn [option_map]; [|tauto].
    split; [|done]. destruct C as [C _]. rewrite length_rev, C, length_rev. lia.
Qed.

Lemma max_user_key_spec stop u :
  match max_user_key_at_length_le stop (len u) with
  | Some m => len m = len u /\ (ble u stop <-> ble u m)
  | None => ~ ble u stop
  end.
Proof.
  unfold max_user_key_at_length_le, len. destruct (Z.leb_spec (Z.of_nat (length u)) (Z.of_nat (length stop))).
  - rewrite Nat2Z.id. split; [rewrite length_take; lia|]. set (s1 := take _ stop).
    assert (L1 : length u = length s1) by (unfold s1; rewrite length_take; lia).
    rewrite <- (take_drop (length u) stop). fold s1. unfold ble. rewrite <- (app_nil_r u) at 1.
    rewrite bcmp_app by done. rewrite then_not_gt; [done|]. by destruct (drop _ _).
  - set (k := Z.to_nat _). set (u1 := take (length stop) u). set (u2 := drop (length stop) u).
    assert (L1 : length stop = length u1) by (unfold u1; rewrite length_take; lia).
    assert (L2 : length u2 = k) by (unfold u2, k; rewrite length_drop; lia).
    assert (Eu : u = u1 ++ u2) by (unfold u1, u2; by rewrite take_drop).
    assert (B : ble u stop <-> blt u1 stop).
    { rewrite Eu. unfold ble, blt. rewrite <- (app_nil_r stop) at 1. rewrite bcmp_app by done.
      assert (u2 <> []) by (destruct u2; [cbn in L2; lia|done]).
      destruct u2; [done|]. by destruct (bcmp u1 stop). }
    rewrite (prev_key stop u1 L1) in B. pose proof (borrow_down_spec (rev stop)) as C.
    destruct (borrow_down (rev stop)) as [r|]; cbn [option_map]; [|tauto].
    destruct C as [C _]. rewrite length_rev in C.
    split; [rewrite length_app, length_rev, length_replicate; unfold k; lia|].
    rewrite B, Eu. unfold ble. rewrite bcmp_app by (rewrite length_rev; lia).
    rewrite then_not_gt; [done|]. by apply ffs_greatest.
Qed.

(** *** The scan against its reference *)

Definition longer (n : Z) (vs : list version) : list version :=
  List.filter (fun v => n <=? len (vkey v)) vs.

Definition probe_at (p : bytes) (n : Z) : Prop :=
  forall v, version_ok v -> bleb p (stored v).1 = (n <=? len (vkey v)).

Lemma probe_first : probe_at (replicate 12 (byte.of_Z 0)) 0.
Proof.
  intros v _. pose proof (len_nonneg (vkey v)). zcase.
  unfold stored, mvcc_key. cbn [fst]. rewrite bleb_cmp.
  change (replicate 12 (byte.of_Z 0)) with (replicate 4 (byte.of_Z 0) ++ replicate 8 (byte.of_Z 0)).
  rewrite bcmp_app by by rewrite length_to_be_bytes.
  assert (N : then_cmp (bcmp (replicate 4 (byte.of_Z 0)) (to_be_bytes 4 (len (vkey v))))
           (bcmp (replicate 8 (byte.of_Z 0)) (vkey v ++ to_be_bytes 8 (U64_MAX - vts v))) <> Gt); [|by destruct (then_cmp _ _)].
  apply then_not_gt; [|by apply zeros_least].
  set (w := vkey v ++ _). rewrite <- (take_drop 8 w), <- (app_nil_r (replicate 8 _)).
  assert (length (take 8 w) = 8%nat).
  { unfold w. rewrite length_take, length_app, length_to_be_bytes. lia. }
  rewrite bcmp_app by done. apply then_not_gt; [by destruct (drop 8 w)|by apply zeros_least].
Qed.

Lemma probe_next n : 0 <= n < 2 ^ 32 -> probe_at (to_be_bytes 4 n) n.
Proof.
  intros Hn v (Hk & _ & _). pose proof (len_nonneg (vkey v)). unfold stored, mvcc_key. cbn [fst].
  rewrite bleb_cmp, <- (app_nil_r (to_be_bytes 4 n)), bcmp_app by by rewrite !length_to_be_bytes.
  rewrite bcmp_be by (cbn; lia). set (w := vkey v ++ _).
  assert (bcmp [] w <> Gt) by by destruct w.
  destruct (Z.compare_spec n (len (vkey v))); zcase; cbn [then_cmp]; try lia; try done.
  by destruct (bcmp [] w).
Qed.

Definition version_lt (a b : version) : Prop :=
  version_cmp (vkey a) (vts a) (vkey b) (vts b) = Lt.

Lemma filter_ext_in {A} (f g : A -> bool) l :
  (forall a, a ∈ l -> f a = g a) -> List.filter f l = List.filter g l.
Proof. intros Hfg. apply List.filter_ext_in. intros a Ha. by apply Hfg, list_elem_of_In. Qed.

Lemma sorted_versions {E} `{StorageEngine E} (e : E) vs :
  holds_versions e vs -> StronglySorted version_lt vs.
Proof.
  intros [He Hok]. pose proof (entries_sorted e) as S. rewrite He in S. clear He. unfold keys_sorted in S.
  induction Hok as [|v vs Hv Hok IH]; [constructor|]. cbn [map] in S.
  inversion_clear S as [|? ? S' F]. constructor; [by apply IH|].
  rewrite Forall_map in F. rewrite !Forall_forall in *. intros w Hw. specialize (F w Hw).
  destruct Hv as (? & ? & _), (Hok w Hw) as (? & ? & _). unfold version_lt.
  by rewrite <- mvcc_key_cmp.
Qed.

Lemma version_lt_len a b : version_lt a b -> len (vkey a) <= len (vkey b).
Proof. unfold version_lt, version_cmp. destruct (Z.compare_spec (len (vkey a)) (len (vkey b))); done || lia. Qed.

Lemma split_lengths start stop a b vs :
  a <= b -> StronglySorted version_lt vs ->
  later start stop a vs
  = List.filter (fun v => (a <=? len (vkey v)) && (len (vkey v) <? b) && in_range start stop (vkey v)) vs
    ++ later start stop b vs.
Proof.
  intros Hab. unfold later. induction 1 as [|v vs Hs IH Hf]; [done|]. cbn [List.filter].
  destruct (Z.ltb_spec (len (vkey v)) b).
  - rewrite IH, andb_true_r. destruct (Z.leb_spec b (len (vkey v))); [lia|]. cbn [andb].
    by destruct ((a <=? len (vkey v)) && in_range start stop (vkey v)).
  - rewrite andb_false_r. cbn [andb].
    assert (N : List.filter (fun v => (a <=? len (vkey v)) && (len (vkey v) <? b) && in_range start stop (vkey v)) vs = []).
    { rewrite (filter_ext_in _ (fun _ => false)); [clear; by induction vs|]. intros w Hw.
      rewrite Forall_forall in Hf. pose proof (version_lt_len _ _ (Hf w Hw)).
      destruct (Z.ltb_spec (len (vkey w)) b); [lia|]. by rewrite andb_false_r. }
    rewrite N in *. cbn [app] in *. rewrite IH.
    by destruct (Z.leb_spec a (len (vkey v))), (Z.leb_spec b (len (vkey v))); try lia.
Qed.

(** The first version with a key of at least [n] bytes opens the next bucket. *)
Lemma next_bucket start stop n v rest vs :
  StronglySorted version_lt vs -> longer n vs = v :: rest ->
  later start stop n vs
  = List.filter (fun w => (len (vkey w) =? len (vkey v)) && in_range start stop (vkey w)) vs
    ++ later start stop (len (vkey v) + 1) vs.
Proof.
  intros Hs Hl. assert (Hv : v ∈ vs /\ n <= len (vkey v)).
  { assert (I : In v (longer n vs)) by (rewrite Hl; by left). apply filter_In in I as [I L].
    apply list_elem_of_In in I. zbool. auto. }
  destruct Hv as [Hv Hn]. rewrite (split_lengths start stop n (len (vkey v) + 1)) by (done || lia).
  f_equal. apply filter_ext_in. intros w Hw. f_equal.
  assert (M : n <= len (vkey w) -> len (vkey v) <= len (vkey w)).
  { intros L. assert (I : In w (longer n vs)).
    { apply filter_In. split; [by apply list_elem_of_In|zcase; done]. }
    assert (S : StronglySorted version_lt (longer n vs)).
    { clear -Hs. unfold longer. induction Hs as [|x l Hs IH Hf]; cbn; [constructor|].
      split_if; [|done]. constructor; [done|]. apply Forall_forall. intros y Hy.
      apply list_elem_of_In, filter_In in Hy as [Hy _]. rewrite Forall_forall in Hf.
      apply Hf. by apply list_elem_of_In. }
    rewrite Hl in S, I. inversion_clear S as [|? ? _ F]. destruct I as [->|I]; [lia|].
    rewrite Forall_forall in F. apply version_lt_len, F. by apply list_elem_of_In. }
  zcase; lia || done.
Qed.

Lemma bleb_iff a b c d : (ble a b <-> ble c d) -> bleb a b = bleb c d.
Proof. unfold bleb. apply bool_decide_ext. Qed.

Lemma bleb_false a b : ~ ble a b -> bleb a b = false.
Proof. apply bool_decide_eq_false_2. Qed.

Definition bucket_of (start stop : bytes) (m : Z) (vs : list version) : list version :=
  List.filter (fun w => (len (vkey w) =? m) && in_range start stop (vkey w)) vs.

(** The bucket's bounds select exactly the versions of the range with that
    key length. *)
Lemma bucket_bounds start stop v vs :
  match min_user_key_at_length_ge start (len (vkey v)), max_user_key_at_length_le stop (len (vkey v)) with
  | Some lo, Some hi =>
      len lo = len (vkey v) /\ len hi = len (vkey v) /\
      List.filter (fun w => in_bucket lo hi (vkey w)) vs = bucket_of start stop (len (vkey v)) vs
  | _, _ => bucket_of start stop (len (vkey v)) vs = []
  end.
Proof.
  assert (N : (forall w : version, len (vkey w) = len (vkey v) -> in_range start stop (vkey w) = false) ->
              bucket_of start stop (len (vkey v)) vs = []).
  { intros F. unfold bucket_of. rewrite (filter_ext_in _ (fun _ => false)); [clear; by induction vs|].
    intros w _. destruct (Z.eqb_spec (len (vkey w)) (len (vkey v))); [by apply F|done]. }
  pose proof (min_user_key_spec start (vkey v)) as Lv. pose proof (max_user_key_spec stop (vkey v)) as Uv.
  destruct (min_user_key_at_length_ge start (len (vkey v))) as [lo|] eqn:El;
    [destruct (max_user_key_at_length_le stop (len (vkey v))) as [hi|] eqn:Eh|].
  - destruct Lv as [Ll _], Uv as [Lh _]. split; [done|]. split; [done|].
    apply filter_ext_in. intros w _. unfold in_bucket, in_range. rewrite Ll.
    destruct (Z.eqb_spec (len (vkey w)) (len (vkey v))) as [L|]; [|done]. cbn [andb].
    pose proof (min_user_key_spec start (vkey w)) as Lw. pose proof (max_user_key_spec stop (vkey w)) as Uw.
    rewrite L, El in Lw. rewrite L, Eh in Uw. destruct Lw as [_ Lw], Uw as [_ Uw].
    by rewrite (bleb_iff start (vkey w) lo (vkey w) Lw), (bleb_iff (vkey w) stop (vkey w) hi Uw).
  - apply N. intros w L. pose proof (max_user_key_spec stop (vkey w)) as Uw. rewrite L, Eh in Uw.
    unfold in_range. by rewrite (bleb_false _ _ Uw), andb_false_r.
  - apply N. intros w L. pose proof (min_user_key_spec start (vkey w)) as Lw. rewrite L, El in Lw.
    unfold in_range. by rewrite (bleb_false _ _ Lw).
Qed.

Lemma bucket_crossed start stop lo hi v vs :
  min_user_key_at_length_ge start (len (vkey v)) = Some lo ->
  max_user_key_at_length_le stop (len (vkey v)) = Some hi ->
  bleb lo hi = false -> bucket_of start stop (len (vkey v)) vs = [].
Proof.
  intros El Eh Hb. pose proof (bucket_bounds start stop v vs) as B. rewrite El, Eh in B.
  destruct B as (_ & _ & <-). rewrite (filter_ext_in _ (fun _ => false)); [clear; by induction vs|].
  intros w _. unfold in_bucket. destruct (bleb lo (vkey w)) eqn:L; [|by rewrite andb_false_r].
  destruct (bleb (vkey w) hi) eqn:U; [|by rewrite andb_false_r]. apply bleb_spec in L, U.
  assert (Hlh : ble lo hi) by by etrans. apply bleb_spec in Hlh. congruence.
Qed.

Section scan_ok.
Context {E : Type} `{StorageEngine E}.
Variables (e : E) (vs : list version) (start stop : bytes) (visible : Z -> Z -> bool).
Hypothesis Hvs : holds_versions e vs.

(** [s] still has the versions [iv] of its bucket to decide, then every bucket
    of at least [n]-byte keys. *)
Record scan_at (s : MvccScan) (iv : list version) (n : Z) : Prop := {
  at_start : start_key s = start;
  at_end : end_key s = stop;
  at_done : scan_done s = false;
  at_probe : if last_bucket s then n = 2 ^ 32 else probe_at (probe_pos s) n;
  at_inner : match inner s with
             | Some l => l = map Ok (map stored iv)
             | None => iv = [] /\ last_bucket s = false
             end;
  at_ok : Forall version_ok iv;
  at_short : Forall (fun v => len (vkey v) < n) iv;
  at_current : from_option (fun k => len k < n) True (current_user_key s)
}.

Definition armed (n : Z) (r : bool * MvccScan) : Prop :=
  if r.1 then
    exists iv n', scan_at r.2 iv n' /\ current_user_key r.2 = None /\ found_visible_for_current r.2 = false /\
      later start stop n vs = iv ++ later start stop n' vs /\
      (length iv + length (longer n' vs) <= length (longer n vs))%nat /\
      (length (longer n' vs) < length (longer n vs))%nat
  else later start stop n vs = [].

Lemma longer_shrinks n m v rest :
  longer n vs = v :: rest -> len (vkey v) = m ->
  (length (bucket_of start stop m vs) + length (longer (m + 1) vs) <= length (longer n vs))%nat /\
  (length (longer (m + 1) vs) < length (longer n vs))%nat.
Proof.
  intros Hl Hm.
  assert (Hv : In v (longer n vs)) by (rewrite Hl; by left). apply filter_In in Hv as [Hv Hn]. zbool.
  clear Hl rest Hvs. unfold bucket_of. split.
  - unfold longer. clear Hv. induction vs as [|w ws IH]; cbn [List.filter]; [done|].
    destruct (Z.eqb_spec (len (vkey w)) m); repeat zcase; cbn [andb length]; try lia; split_if; cbn [length]; lia.
  - assert (A : forall ws, Nat.le (length (longer (m + 1) ws)) (length (longer n ws))).
    { unfold longer. induction ws as [|w ws IH]; cbn [List.filter]; [done|]. repeat zcase; cbn [length]; lia. }
    unfold longer in *. induction vs as [|w ws IH]; [done|]. destruct Hv as [->|Hv]; cbn [List.filter].
    + specialize (A ws). repeat zcase; cbn [length]; lia.
    + specialize (IH Hv). repeat zcase; cbn [length]; lia.
Qed.

Lemma later_longer n : later start stop n vs = List.filter (fun v => in_range start stop (vkey v)) (longer n vs).
Proof.
  clear Hvs. unfold later, longer. induction vs as [|v ws IH]; cbn [List.filter]; [done|].
  zcase; cbn [andb List.filter]; by rewrite IH.
Qed.

Definition advance (s : MvccScan) (m : Z) : MvccScan :=
  match checked in_u32 (m + 1) with Some n => with_probe s (to_be_bytes 4 n) | None => with_last s end.

Lemma advance_at s n m :
  scan_at s [] n -> last_bucket s = false -> n <= m -> 0 <= m <= 2 ^ 32 - 1 ->
  start_key (advance s m) = start /\ end_key (advance s m) = stop /\ scan_done (advance s m) = false /\
  (if last_bucket (advance s m) then m + 1 = 2 ^ 32 else probe_at (probe_pos (advance s m)) (m + 1)) /\
  inner (advance s m) = inner s /\ from_option (fun k => len k < m + 1) True (current_user_key (advance s m)).
Proof.
  intros [Hst Hen Hdn Hpr Hin _ _ Hcur] Hlast Hnm Hm. unfold advance, checked.
  destruct (in_u32 (m + 1)) eqn:Hu; unfold in_u32 in Hu.
  - apply andb_true_iff in Hu as [_ Hu]. zbool. cbn. rewrite Hlast. repeat split; try done.
    + apply probe_next. lia.
    + destruct (current_user_key s); cbn in *; [lia|done].
  - apply andb_false_iff in Hu. destruct Hu; zbool; [lia|]. cbn. repeat split; try done; [lia|].
    destruct (current_user_key s); cbn in *; [lia|done].
Qed.

(** A version the probe finds is decoded to its key length. *)
Lemma probed_length v :
  version_ok v ->
  len (stored v).1 = 4 + len (vkey v) + 8 /\ be_at 4 0 (stored v).1 = Ok (len (vkey v)).
Proof.
  intros (Hk & _ & _). pose proof (len_nonneg (vkey v)). unfold stored, mvcc_key. cbn [fst].
  split; [rewrite !len_app, !len_to_be_bytes; lia|].
  by rewrite (be_at_app [] 4 (len (vkey v)) (vkey v ++ to_be_bytes 8 (U64_MAX - vts v)) _ 4 0) by (done || lia).
Qed.

Lemma longer_in n v rest : longer n vs = v :: rest -> version_ok v /\ n <= len (vkey v).
Proof.
  intros Hl. assert (Hv : In v (longer n vs)) by (rewrite Hl; by left). apply filter_In in Hv as [Hv Hn].
  destruct Hvs as [_ Hok]. rewrite Forall_forall in Hok. apply list_elem_of_In in Hv. zbool. auto.
Qed.

Lemma longer_beyond n : 2 ^ 32 <= n -> later start stop n vs = [].
Proof.
  intros Hn. unfold later. rewrite (filter_ext_in _ (fun _ => false)); [clear; by induction vs|].
  intros v Hv. destruct Hvs as [_ Hok]. rewrite Forall_forall in Hok. destruct (Hok v Hv) as (Hk & _ & _).
  destruct (Z.leb_spec n (len (vkey v))); [lia|done].
Qed.

Definition turned (n : Z) (r : MvccScan + (bool * MvccScan)) : Prop :=
  match r with
  | inr r => armed n r
  | inl s' => exists n', last_bucket s' = false /\ scan_at s' [] n' /\
      later start stop n vs = later start stop n' vs /\
      (length (longer n' vs) < length (longer n vs))%nat
  end.

Lemma skipped_ok s n v rest :
  scan_at s [] n -> last_bucket s = false -> longer n vs = v :: rest ->
  bucket_of start stop (len (vkey v)) vs = [] ->
  let s' := advance s (len (vkey v)) in
  turned n (if last_bucket s' then inr (false, s') else inl s').
Proof.
  intros Hs Hlast Hl Hb. destruct (longer_in _ _ _ Hl) as [[Hk _] Hn]. pose proof (len_nonneg (vkey v)).
  destruct (advance_at s n (len (vkey v))) as (A1 & A2 & A3 & A4 & A5 & A6); [done|done|done|lia|].
  pose proof (next_bucket start stop n v rest vs (sorted_versions e vs Hvs) Hl) as B. fold (bucket_of start stop (len (vkey v)) vs) in B.
  rewrite Hb in B. cbn [app] in B. cbv zeta. destruct (last_bucket (advance s (len (vkey v)))) eqn:L.
  - cbn. rewrite B. by apply longer_beyond; lia.
  - exists (len (vkey v) + 1). split; [done|]. split; [|split; [done|]].
    + split; try done; [by rewrite L|]. rewrite A5, L. destruct Hs as [_ _ _ _ Hin _ _ _].
      destruct (inner s); [done|split; done].
    + by destruct (longer_shrinks n _ v rest Hl eq_refl).
Qed.

Lemma bucket_ok s n v rest lo hi :
  scan_at s [] n -> last_bucket s = false -> longer n vs = v :: rest ->
  len lo = len (vkey v) -> len hi = len (vkey v) ->
  List.filter (fun w => in_bucket lo hi (vkey w)) vs = bucket_of start stop (len (vkey v)) vs ->
  armed n (true, with_inner (advance s (len (vkey v)))
                   (scan_range e (Included (mvcc_key lo U64_MAX)) (Included (mvcc_key hi 0)))).
Proof.
  intros Hs Hlast Hl Hlo Hhi Hb. destruct (longer_in _ _ _ Hl) as [[Hk _] Hn]. pose proof (len_nonneg (vkey v)).
  destruct (advance_at s n (len (vkey v))) as (A1 & A2 & A3 & A4 & A5 & A6); [done|done|done|lia|].
  destruct (longer_shrinks n (len (vkey v)) v rest Hl eq_refl) as [S1 S2].
  exists (bucket_of start stop (len (vkey v)) vs), (len (vkey v) + 1).
  split; [|repeat split; try done; by rewrite (next_bucket start stop n v rest vs (sorted_versions e vs Hvs) Hl)].
  split; try done; cbn.
  - by rewrite (scan_bucket e vs), Hb by (done || lia).
  - destruct Hvs as [_ Hok]. apply Forall_forall. intros w Hw. apply list_elem_of_In, filter_In in Hw as [Hw _].
    rewrite Forall_forall in Hok. apply Hok. by apply list_elem_of_In.
  - apply Forall_forall. intros w Hw. apply list_elem_of_In, filter_In in Hw as [_ Hw]. zbool. lia.
Qed.

Lemma arm_turn_ok s n :
  scan_at s [] n -> last_bucket s = false -> exists r, arm_turn e s = Ok r /\ turned n r.
Proof.
  intros Hs Hlast. unfold arm_turn. rewrite (scan_versions e vs) by done.
  assert (F : List.filter (fun v => above (Included (probe_pos s)) (stored v).1 && below Unbounded (stored v).1) vs
              = longer n vs).
  { apply filter_ext_in. intros v Hv. cbn [above below]. rewrite andb_true_r. pose proof (at_probe _ _ _ Hs) as Hpr.
    rewrite Hlast in Hpr. apply Hpr. destruct Hvs as [_ Hok]. rewrite Forall_forall in Hok. by apply Hok. }
  rewrite F. destruct (longer n vs) as [|v rest] eqn:Hl; cbn [map].
  - exists (inr (false, s)). split; [done|]. cbn. by rewrite later_longer, Hl.
  - destruct (longer_in _ _ _ Hl) as [Hv Hn]. destruct (probed_length v Hv) as [L B].
    destruct (stored v) as [pk pv]. cbn [fst mbind outcome_bind] in *. rewrite L, B.
    pose proof (len_nonneg (vkey v)). destruct (Z.ltb_spec (4 + len (vkey v) + 8) 4); [lia|].
    cbn [mbind outcome_bind]. rewrite Z.eqb_refl. cbn [negb]. cbv zeta. fold (advance s (len (vkey v))).
    destruct Hv as (Hk & _ & _).
    destruct (advance_at s n (len (vkey v))) as (A1 & A2 & _); [done|done|done|lia|]. rewrite A1, A2.
    pose proof (bucket_bounds start stop v vs) as Bb. pose proof (skipped_ok s n v rest Hs Hlast Hl) as Sk.
    pose proof (fun lo hi Hl1 Hh => bucket_crossed start stop lo hi v vs Hl1 Hh) as Bc.
    destruct (min_user_key_at_length_ge start (len (vkey v))) as [lo|],
      (max_user_key_at_length_le stop (len (vkey v))) as [hi|];
      try (eexists; split; [|by apply Sk]; by destruct (last_bucket (advance s (len (vkey v))))).
    destruct Bb as (Llo & Lhi & Bb). destruct (bleb lo hi) eqn:Hb.
    + unfold encode_mvcc_key_start, encode_mvcc_key_end. rewrite !encode_mvcc_key_ok by (done || lia).
      cbn [mbind outcome_bind]. eexists; split; [done|]. by apply (bucket_ok s n v rest).
    + eexists; split; [|apply Sk; by apply (Bc lo hi)]. by destruct (last_bucket (advance s (len (vkey v)))).
Qed.

Lemma arm_next_bucket_ok fuel s n :
  scan_at s [] n -> last_bucket s = false -> (length (longer n vs) < fuel)%nat ->
  exists r, arm_next_bucket fuel e s = Some (Ok r) /\ armed n r.
Proof.
  revert s n. induction fuel as [|fuel IH]; intros s n Hs Hlast Hf; [lia|]. cbn [arm_next_bucket].
  destruct (arm_turn_ok s n Hs Hlast) as (r & -> & Hr). destruct r as [s'|r]; [|by exists r].
  destruct Hr as (n' & Hlast' & Hs' & Hla & Hlt). destruct (IH s' n' Hs' Hlast' ltac:(lia)) as (r & Hr & Ha).
  exists r. split; [done|]. unfold armed in *. rewrite Hla. destruct r.1; [|done].
  destruct Ha as (iv & n2 & A1 & A2 & A3 & A4 & A5 & A6). exists iv, n2. repeat split; try done; try lia; apply A1.
Qed.

(** What [s] still decides in its bucket. *)
Definition decided (s : MvccScan) (iv : list version) : list entry :=
  resolve visible (current_user_key s) (found_visible_for_current s) iv.

Lemma entry_turn_ok s v iv n :
  scan_at s (v :: iv) n ->
  exists r, entry_turn visible (pull s (map Ok (map stored iv))) (stored v).1 (stored v).2 = Ok r /\
    match r with
    | inl s' => scan_at s' iv n /\ decided s (v :: iv) = decided s' iv
    | inr (Some (Ok kv), s') => scan_at s' iv n /\ decided s (v :: iv) = kv :: decided s' iv
    | inr _ => False
    end.
Proof.
  intros [Hst Hen Hdn Hpr Hin Hok Hsh Hcur]. inversion_clear Hok as [|? ? (Hk & Ht & Hv) Hok'].
  inversion_clear Hsh as [|? ? Hvn Hsh']. unfold entry_turn, decided. cbn [stored fst snd resolve].
  rewrite decode_mvcc_key_ok, decode_mvcc_value_ok by done.
  set (s1 := if bool_decide _ then _ else _).
  assert (S1 : scan_at s1 iv n /\ current_user_key s1 = Some (vkey v) /\
    found_visible_for_current s1 = found_visible_for_current s && bool_decide (current_user_key s = Some (vkey v))).
  { unfold s1. cbn [pull current_user_key]. case_bool_decide as Hc; (split; [by split|]); cbn.
    - by rewrite Hc, andb_true_r.
    - by rewrite andb_false_r. }
  destruct S1 as ([Hst1 Hen1 Hdn1 Hpr1 Hin1 Hok1 Hsh1 Hcur1] & C1 & F1). cbv zeta. rewrite <- F1.
  destruct (found_visible_for_current s1) eqn:F.
  - exists (inl s1). rewrite C1, F. by split.
  - destruct (visible (version_txn (vval v)) (vts v)); cbn [negb].
    + destruct (vval v) as [t data|t]; eexists; (split; [done|]); cbn; rewrite C1; by repeat split.
    + exists (inl s1). rewrite C1, F. by split.
Qed.

Lemma resolve_fresh cur found ws :
  Forall (fun w => cur <> Some (vkey w)) ws -> resolve visible cur found ws = resolve visible None false ws.
Proof.
  destruct 1 as [|w ws Hw Hws]; [done|]. cbn [resolve]. rewrite bool_decide_eq_false_2 by done.
  by rewrite andb_false_r.
Qed.

Lemma resolve_app cur found xs ys :
  (forall x y, x ∈ xs -> y ∈ ys -> vkey x <> vkey y) -> Forall (fun y => cur <> Some (vkey y)) ys ->
  resolve visible cur found (xs ++ ys) = resolve visible cur found xs ++ resolve visible None false ys.
Proof.
  revert cur found. induction xs as [|x xs IH]; intros cur found Hd Hc; cbn [app]; [by apply resolve_fresh|].
  assert (N : Forall (fun y => Some (vkey x) <> Some (vkey y)) ys).
  { apply Forall_forall. intros y Hy [= E']. by apply (Hd x y (list_elem_of_here _ _) Hy). }
  assert (D : forall x' y, x' ∈ xs -> y ∈ ys -> vkey x' <> vkey y).
  { intros x' y Hx'. apply Hd. by apply elem_of_cons; right. }
  cbn [resolve]. repeat (split_if); rewrite ?IH by done; try done.
  by destruct (live (vval x)).
Qed.

Definition scan_cost (iv : list version) (n : Z) : nat := length iv + 2 * length (longer n vs) + 2.

Definition stepped (fuel : nat) (iv : list version) (n : Z) (s : MvccScan) : Prop :=
  match decided s iv ++ resolve visible None false (later start stop n vs) with
  | [] => exists s', scan_next fuel e visible s = Some (Ok (None, s'))
  | kv :: rest =>
      exists s' iv' n', scan_next fuel e visible s = Some (Ok (Some (Ok kv), s')) /\
        scan_at s' iv' n' /\ (scan_cost iv' n' <= scan_cost iv n)%nat /\
        decided s' iv' ++ resolve visible None false (later start stop n' vs) = rest
  end.

Lemma stepped_later fuel fuel' iv iv' n n' s s' :
  scan_next fuel e visible s = scan_next fuel' e visible s' ->
  decided s iv ++ resolve visible None false (later start stop n vs)
  = decided s' iv' ++ resolve visible None false (later start stop n' vs) ->
  (scan_cost iv' n' <= scan_cost iv n)%nat -> stepped fuel' iv' n' s' -> stepped fuel iv n s.
Proof.
  intros Hn Hd Hc. unfold stepped. rewrite Hn, Hd.
  destruct (decided s' iv' ++ resolve visible None false (later start stop n' vs)) as [|kv rest]; [done|].
  intros (s2 & iv2 & n2 & ? & ? & ? & ?). exists s2, iv2, n2. repeat split; try done; try apply H1; lia.
Qed.

Lemma bucket_resolved s iv n n' :
  scan_at s iv n' -> current_user_key s = None -> found_visible_for_current s = false ->
  later start stop n vs = iv ++ later start stop n' vs ->
  resolve visible None false (later start stop n vs)
  = decided s iv ++ resolve visible None false (later start stop n' vs).
Proof.
  intros Hs Hc Hf ->. unfold decided. rewrite Hc, Hf. apply resolve_app; [|by apply Forall_forall].
  intros x y Hx Hy Exy. pose proof (at_short _ _ _ Hs) as Hsh. rewrite Forall_forall in Hsh. specialize (Hsh x Hx).
  apply list_elem_of_In, filter_In in Hy as [_ Hy]. apply andb_true_iff in Hy as [Hy _]. zbool. rewrite Exy in Hsh. lia.
Qed.

(** With the bucket used up, the next call arms another one or ends. *)
Lemma rearm_ok fuel s n :
  (forall s iv n, scan_at s iv n -> (scan_cost iv n <= fuel)%nat -> stepped fuel iv n s) ->
  scan_at s [] n -> last_bucket s = false -> inner s = None -> (scan_cost [] n <= S fuel)%nat ->
  stepped (S fuel) [] n s.
Proof.
  intros IH Hs Hlast Hin Hf. unfold scan_cost in Hf. cbn [length] in Hf.
  destruct (arm_next_bucket_ok (S fuel) s n Hs Hlast ltac:(lia)) as ([[|] s'] & Ha & Hr).
  - destruct Hr as (iv & n' & A1 & A2 & A3 & A4 & A5 & A6). cbn [snd] in *.
    apply (stepped_later _ fuel _ iv _ n' _ s').
    + cbn [scan_next]. by rewrite Hin, (at_done _ _ _ Hs), Ha.
    + cbn [decided resolve app]. by apply bucket_resolved.
    + unfold scan_cost. cbn [length]. lia.
    + apply IH; [done|]. unfold scan_cost. lia.
  - unfold armed in Hr. cbn [fst] in Hr. unfold stepped. rewrite Hr. cbn [decided resolve app].
    exists (stopped s'). cbn [scan_next]. by rewrite Hin, (at_done _ _ _ Hs), Ha.
Qed.

Lemma scan_next_ok fuel s iv n :
  scan_at s iv n -> (scan_cost iv n <= fuel)%nat -> stepped fuel iv n s.
Proof.
  revert s iv n. induction fuel as [|fuel IH]; intros s iv n Hs Hf; [unfold scan_cost in Hf; lia|].
  pose proof (at_inner _ _ _ Hs) as Hin. destruct iv as [|v iv].
  - destruct (inner s) as [l|] eqn:Ei; [|by apply rearm_ok; try apply Hin]. subst l.
    destruct (last_bucket s) eqn:Hlast.
    + pose proof (at_probe _ _ _ Hs) as Hn. rewrite Hlast in Hn. unfold stepped.
      rewrite longer_beyond by lia. exists (bucket_over s). cbn [scan_next map]. rewrite Ei.
      by cbn [bucket_over scan_done]; rewrite Hlast.
    + assert (Hs0 : scan_at (bucket_over s) [] n).
      { destruct Hs as [? ? Hdn Hpr _ ? ? ?]. split; cbn; try done. by rewrite Hdn, Hlast. }
      apply (stepped_later _ (S fuel) _ [] _ n _ (bucket_over s)); [|done|done|by apply rearm_ok].
      cbn [scan_next map]. rewrite Ei. cbn [bucket_over inner scan_done map]. done.
  - destruct (inner s) as [l|] eqn:Ei; [|by destruct Hin]. subst l.
    destruct (entry_turn_ok s v iv n Hs) as (r & Hr & Hd).
    assert (Hnx : scan_next (S fuel) e visible s
                  = match r with inl s' => scan_next fuel e visible s' | inr r => Some (Ok r) end).
    { cbn [scan_next]. rewrite Ei. cbn [map]. destruct (stored v) as [ek ev]. cbn [fst snd] in Hr.
      rewrite Hr. by destruct r. }
    unfold scan_cost in Hf. cbn [length] in Hf. destruct r as [s'|[[[kv| |]|] s']]; try done.
    + destruct Hd as [Hs' Hd]. apply (stepped_later _ fuel _ iv _ n _ s'); [done|by rewrite Hd|unfold scan_cost; cbn [length]; lia|].
      apply IH; [done|]. unfold scan_cost. lia.
    + destruct Hd as [Hs' Hd]. unfold stepped. rewrite Hd. cbn [app].
      exists s', iv, n. repeat split; try done; try apply Hs'. unfold scan_cost. cbn [length]. lia.
Qed.

Lemma scan_collect_ok calls fuel s iv n :
  scan_at s iv n -> (scan_cost iv n <= fuel)%nat ->
  let out := decided s iv ++ resolve visible None false (later start stop n vs) in
  (length out < calls)%nat -> scan_collect calls fuel e visible s = Some (Ok out).
Proof.
  revert s iv n. induction calls as [|calls IH]; cbv zeta; intros s iv n Hs Hf Hc; [lia|].
  pose proof (scan_next_ok fuel s iv n Hs Hf) as Hn. unfold stepped in Hn. cbn [scan_collect].
  destruct (decided s iv ++ resolve visible None false (later start stop n vs)) as [|kv rest]; [by destruct Hn as (s' & ->)|].
  destruct Hn as (s' & iv' & n' & -> & Hs' & Hc' & Hd). cbn [length] in Hc.
  rewrite (IH s' iv' n'); rewrite ?Hd; (done || lia).
Qed.
End scan_ok.

(** *** The live entries *)

Definition key_cmp (a b : bytes) : comparison := then_cmp (len a ?= len b) (bcmp a b).

Lemma key_cmp_eq a b : key_cmp a b = Eq -> a = b.
Proof. unfold key_cmp. destruct (len a ?= len b); try done. cbn. by intros E%bcmp_eq. Qed.

Lemma key_cmp_antisym a b : key_cmp b a = CompOpp (key_cmp a b).
Proof.
  unfold key_cmp. rewrite (Z.compare_antisym (len b)), (bcmp_antisym a b). by destruct (len b ?= len a).
Qed.

Lemma version_lt_key a b : version_lt a b -> key_cmp (vkey a) (vkey b) <> Gt.
Proof.
  unfold version_lt, version_cmp, key_cmp. destruct (len (vkey a) ?= len (vkey b)); try done.
  cbn. by destruct (bcmp (vkey a) (vkey b)).
Qed.

Lemma read_cons visible k v vs :
  read visible k (v :: vs) = if sees visible k v then live (vval v) else read visible k vs.
Proof. unfold read, newest. cbn [List.find]. by destruct (sees visible k v). Qed.

Lemma read_absent visible k vs : (forall v, v ∈ vs -> vkey v <> k) -> read visible k vs = None.
Proof.
  induction vs as [|v vs IH]; intros Hv; [done|]. rewrite read_cons, IH by (intros; apply Hv; by right).
  unfold sees. rewrite bool_decide_eq_false_2 by (apply Hv; by left). done.
Qed.

Lemma resolve_spec visible vs cur found k d :
  StronglySorted version_lt vs ->
  (forall k0 v, cur = Some k0 -> v ∈ vs -> key_cmp k0 (vkey v) <> Gt) ->
  (k, d) ∈ resolve visible cur found vs
  <-> read visible k vs = Some d /\ ~ (found = true /\ cur = Some k).
Proof.
  intros Hs. revert cur found. induction Hs as [|v vs Hs IH Hf]; intros cur found Hc.
  { cbn. rewrite elem_of_nil. naive_solver. }
  assert (Hc' : forall k0 w, Some (vkey v) = Some k0 -> w ∈ vs -> key_cmp k0 (vkey w) <> Gt).
  { intros ? w [= <-] Hw. rewrite Forall_forall in Hf. by apply version_lt_key, Hf. }
  assert (Hgone : cur = Some k -> k <> vkey v -> read visible k vs = None).
  { intros -> Hkv. apply read_absent. intros w Hw <-. apply Hkv, key_cmp_eq.
    pose proof (Hc _ v eq_refl ltac:(by left)) as C1. pose proof (Hc' _ w eq_refl Hw) as C2.
    rewrite key_cmp_antisym in C2. by destruct (key_cmp (vkey w) (vkey v)). }
  pose proof (fun f => IH (Some (vkey v)) f Hc') as IH'. clear IH Hc Hc' Hs Hf.
  cbn [resolve]. rewrite read_cons. unfold sees. set (b := visible (version_txn (vval v)) (vts v)).
  destruct (decide (vkey v = k)) as [Hk|Hk].
  - subst k. rewrite (bool_decide_eq_true_2 (vkey v = vkey v)) by done. cbn [andb]. clear Hgone.
    destruct found; cbn [andb]; [case_bool_decide as B|]; [rewrite IH'; naive_solver| |];
      (destruct b; [destruct (vval v) as [t x|t]; cbn [live]|]);
      rewrite ?elem_of_cons, ?IH'; naive_solver.
  - rewrite (bool_decide_eq_false_2 (vkey v = k)) by done. cbn [andb].
    destruct found; cbn [andb]; [case_bool_decide as B|]; [rewrite IH'; naive_solver| |];
      (destruct b; [destruct (vval v) as [t x|t]; cbn [live]|]);
      rewrite ?elem_of_cons, ?IH'; naive_solver.
Qed.

Lemma resolve_from visible vs cur found k d :
  (k, d) ∈ resolve visible cur found vs -> exists v, v ∈ vs /\ vkey v = k.
Proof.
  revert cur found. induction vs as [|v vs IH]; intros cur found; cbn [resolve]; [by rewrite elem_of_nil|].
  assert (IH' : forall f, (k, d) ∈ resolve visible (Some (vkey v)) f vs -> exists w, w ∈ v :: vs /\ vkey w = k).
  { intros f (w & Hw & <-)%IH. exists w. split; [by right|done]. }
  split_if; [apply IH'|]. split_if; [|apply IH']. destruct (live (vval v)); [|apply IH'].
  rewrite elem_of_cons. intros [[= -> ->]|Hin]; [|by eapply IH']. exists v. split; [by left|done].
Qed.

Lemma resolve_sorted visible vs cur found :
  StronglySorted version_lt vs ->
  StronglySorted (fun a b => key_cmp a.1 b.1 = Lt) (resolve visible cur found vs).
Proof.
  intros Hs. revert cur found. induction Hs as [|v vs Hs IH Hf]; intros cur found; cbn [resolve]; [constructor|].
  split_if; [done|]. split_if; [|done]. destruct (live (vval v)); [|done]. constructor; [done|].
  apply Forall_forall. intros [k d] Hk. cbn [fst]. rewrite Forall_forall in Hf.
  destruct (resolve_from _ _ _ _ _ _ Hk) as (w & Hw & <-). apply resolve_spec in Hk as [_ Hn]; [|done|].
  - pose proof (version_lt_key _ _ (Hf w Hw)) as C. destruct (key_cmp (vkey v) (vkey w)) eqn:Ec; try done.
    apply key_cmp_eq in Ec. by destruct Hn; rewrite Ec.
  - intros k0 u [= <-] Hu. by apply version_lt_key, Hf.
Qed.

Lemma resolve_length visible vs cur found : (length (resolve visible cur found vs) <= length vs)%nat.
Proof.
  revert cur found. induction vs as [|v vs IH]; intros cur found; cbn [resolve length]; [done|].
  assert (A : forall f, (length (resolve visible (Some (vkey v)) f vs) <= S (length vs))%nat).
  { intros f. specialize (IH (Some (vkey v)) f). lia. }
  repeat split_if; try apply A. destruct (live (vval v)); [|apply A]. cbn [length]. specialize (IH (Some (vkey v)) true). lia.
Qed.

Lemma read_range visible start stop k vs :
  read visible k (later start stop 0 vs) = if in_range start stop k then read visible k vs else None.
Proof.
  unfold read, newest, later. rewrite find_filter.
  assert (G : forall v : version, (0 <=? len (vkey v)) = true).
  { intros v. pose proof (len_nonneg (vkey v)). zcase; done. }
  induction vs as [|v vs IH]; cbn [List.find]; [by split_if|]. rewrite G. cbn [andb]. unfold sees at 1.
  case_bool_decide as Hk; cbn [andb].
  - rewrite Hk. unfold sees at 2. rewrite (bool_decide_eq_true_2 _ Hk). cbn [andb].
    destruct (in_range start stop k) eqn:R; cbn [andb].
    + destruct (visible _ _); [done|]. by rewrite IH.
    + by rewrite IH.
  - rewrite andb_false_r. unfold sees at 2. rewrite (bool_decide_eq_false_2 _ Hk). cbn [andb]. done.
Qed.

Lemma in_range_spec start stop k : in_range start stop k = true <-> ble start k /\ ble k stop.
Proof. unfold in_range. by rewrite andb_true_iff, !bleb_spec. Qed.

Lemma sorted_later start stop n vs :
  StronglySorted version_lt vs -> StronglySorted version_lt (later start stop n vs).
Proof.
  unfold later. induction 1 as [|v vs Hs IH Hf]; cbn [List.filter]; [constructor|]. split_if; [|done].
  constructor; [done|]. apply Forall_forall. intros w Hw. apply list_elem_of_In, filter_In in Hw as [Hw _].
  rewrite Forall_forall in Hf. apply Hf. by apply list_elem_of_In.
Qed.

(** ** Theorems *)

(** A versioned key decodes to the user key and timestamp it was built
    from, and the bytes of two versioned keys compare as (key length, key,
    timestamp descending). *)
Theorem mvcc_key_codec k ts k' ts' :
  len k <= 2 ^ 32 - 1 -> len k' <= 2 ^ 32 - 1 -> in_u64 ts = true -> in_u64 ts' = true ->
  exists b b', encode_mvcc_key k ts = Ok b /\ encode_mvcc_key k' ts' = Ok b' /\
    decode_mvcc_key b = Ok (k, ts) /\ bcmp b b' = version_cmp k ts k' ts'.
Proof.
  intros. exists (mvcc_key k ts), (mvcc_key k' ts').
  rewrite !encode_mvcc_key_ok, decode_mvcc_key_ok, mvcc_key_cmp by done. auto.
Qed.

Lemma mvcc_key_codec_witness :
  exists b b', encode_mvcc_key [byte.of_Z 97] 5 = Ok b /\ encode_mvcc_key [] 3 = Ok b' /\
    decode_mvcc_key b = Ok ([byte.of_Z 97], 5) /\ bcmp b b' = version_cmp [byte.of_Z 97] 5 [] 3.
Proof. apply mvcc_key_codec; vm_compute; congruence. Defined.

Lemma slice_in lo hi (b : bytes) :
  0 <= lo <= hi -> hi <= len b ->
  exists a m c, @slice Error lo hi b = Ok m /\ b = a ++ m ++ c /\ len a = lo /\ len m = hi - lo.
Proof.
  intros Hl Hh. set (a := take (Z.to_nat lo) b). set (r := drop (Z.to_nat lo) b).
  set (m := take (Z.to_nat (hi - lo)) r). set (c := drop (Z.to_nat (hi - lo)) r).
  assert (Eb : b = a ++ m ++ c) by (unfold m, c, a, r; by rewrite !take_drop).
  assert (La : len a = lo) by (unfold a, len in *; rewrite length_take; lia).
  assert (Lm : len m = hi - lo) by (unfold m, r, len in *; rewrite length_take, length_drop; lia).
  exists a, m, c. split; [|done]. rewrite Eb. apply (slice_at a m c); (done || lia).
Qed.

Lemma be_at_is pre m post buf n i :
  buf = pre ++ m ++ post -> len pre = i -> len m = n -> be_at n i buf = Ok (from_be_bytes m).
Proof. intros -> <- <-. unfold be_at. by rewrite (slice_at pre m post). Qed.

Lemma be_at_in n i (b : bytes) :
  0 <= i -> 0 <= n /\ i + n <= len b ->
  exists a m c, be_at n i b = Ok (from_be_bytes m) /\ b = a ++ m ++ c /\ len a = i /\ len m = n.
Proof.
  intros Hi [Hn Hb]. destruct (slice_in i (i + n) b) as (a & m & c & S & E & La & Lm); [lia|lia|].
  exists a, m, c. unfold be_at. rewrite S. repeat split; try done. lia.
Qed.

Lemma decode_mvcc_key_total b : decode_mvcc_key b <> Panic.
Proof.
  unfold decode_mvcc_key. destruct (Z.ltb_spec (len b) 12); [done|].
  destruct (be_at_in 4 0 b) as (a & kl & c & -> & _ & _ & Lk); [lia|lia|]. cbn [mbind outcome_bind].
  destruct (Z.eqb_spec (len b) (4 + from_be_bytes kl + 8)); [|done]. cbn [negb].
  pose proof (from_be_bytes_bound kl) as Bk.
  destruct (slice_in 4 (4 + from_be_bytes kl) b) as (? & u & ? & -> & _); [lia|lia|]. cbn [mbind outcome_bind].
  destruct (be_at_in 8 (4 + from_be_bytes kl) b) as (? & w & ? & -> & _ & _ & Lw); [lia|lia|].
  cbn [mbind outcome_bind]. pose proof (from_be_bytes_bound w) as Bw. rewrite Lw in Bw.
  by rewrite arith_bind by (unfold U64_MAX; fits).
Qed.

(** Decoding a versioned key never panics, and it accepts exactly the
    encodings of its results. *)
Theorem decode_mvcc_key_exact (b : bytes) :
  match decode_mvcc_key b with
  | Ok (k, ts) => encode_mvcc_key k ts = Ok b
  | Err _ => forall k ts, in_u64 ts = true -> encode_mvcc_key k ts <> Ok b
  | Panic => False
  end.
Proof.
  assert (R : forall k ts, in_u64 ts = true -> encode_mvcc_key k ts = Ok b -> decode_mvcc_key b = Ok (k, ts)).
  { intros k ts Ht He. unfold encode_mvcc_key in He. destruct (Z.leb_spec (len k) (2 ^ 32 - 1)); [|done].
    assert (E : encode_mvcc_key k ts = Ok (mvcc_key k ts)) by by apply encode_mvcc_key_ok.
    unfold encode_mvcc_key in E. destruct (Z.leb_spec (len k) (2 ^ 32 - 1)); [|lia]. cbn [negb] in *.
    rewrite E in He. injection He as <-. by apply decode_mvcc_key_ok. }
  destruct (decode_mvcc_key b) as [[k ts]|er|] eqn:D.
  - clear R. unfold decode_mvcc_key in D. destruct (Z.ltb_spec (len b) 12); [done|].
    destruct (be_at_in 4 0 b) as (a & kl & c & B1 & Eb & La & Lk); [lia|lia|].
    rewrite B1 in D. clear B1. cbn [mbind outcome_bind] in D.
    destruct (Z.eqb_spec (len b) (4 + from_be_bytes kl + 8)) as [Lb|]; [|done]. cbn [negb] in D.
    pose proof (from_be_bytes_bound kl) as Bk. rewrite Lk in Bk.
    assert (a = []) as -> by (destruct a; [done|rewrite len_cons in La; pose proof (len_nonneg a); lia]).
    cbn [app] in Eb. subst b. rewrite len_app, Lk in Lb.
    destruct (slice_in 0 (from_be_bytes kl) c) as (a' & u & w & _ & -> & La' & Lu); [lia|lia|].
    assert (a' = []) as -> by (destruct a'; [done|rewrite len_cons in La'; pose proof (len_nonneg a'); lia]).
    cbn [app] in *. rewrite len_app in Lb.
    rewrite (slice_at kl u w) in D by (done || lia). cbn [mbind outcome_bind] in D.
    rewrite (be_at_is (kl ++ u) w []) in D by (rewrite ?len_app, ?app_nil_r, <- ?app_assoc; (done || lia)).
    cbn [mbind outcome_bind] in D. pose proof (from_be_bytes_bound w) as Bw. replace (len w) with 8 in Bw by lia.
    rewrite arith_bind in D by (unfold U64_MAX; fits). cbv beta in D. injection D as <- <-.
    rewrite encode_mvcc_key_ok by (lia || (apply in_u64_iff; unfold U64_MAX; lia)). unfold mvcc_key. do 2 f_equal; [|f_equal].
    + replace (len u) with (from_be_bytes kl) by lia. apply to_from_be_bytes. unfold len in Lk. lia.
    + replace (U64_MAX - (U64_MAX - from_be_bytes w)) with (from_be_bytes w) by lia.
      apply to_from_be_bytes. unfold len in *. lia.
  - intros k ts Ht He. by specialize (R k ts Ht He).
  - by apply decode_mvcc_key_total in D.
Qed.

(** [v] is the newest version of [k] in [vs] that the reader may see. *)
Definition newest_visible (visible : Z -> Z -> bool) (k : bytes) (vs : list version) (v : version) : Prop :=
  v ∈ vs /\ vkey v = k /\ visible (version_txn (vval v)) (vts v) = true /\
  forall w, w ∈ vs -> vkey w = k -> visible (version_txn (vval w)) (vts w) = true -> vts w <= vts v.

Lemma newest_spec visible k vs v :
  StronglySorted version_lt vs -> newest visible k vs = Some v -> newest_visible visible k vs v.
Proof.
  unfold newest. induction 1 as [|x vs Hs IH Hf]; cbn [List.find]; [done|].
  assert (L : forall w, w ∈ vs -> vkey w = vkey x -> vts w <= vts x).
  { intros w Hw Ek. rewrite Forall_forall in Hf. specialize (Hf w Hw). unfold version_lt, version_cmp in Hf.
    rewrite Ek, Z.compare_refl, bcmp_refl in Hf. cbn [then_cmp] in Hf. change (vts w < vts x) in Hf. lia. }
  destruct (sees visible k x) eqn:S; unfold sees in S.
  - intros [= <-]. apply andb_true_iff in S as [<-%bool_decide_eq_true Hv]. split; [by left|]. split; [done|]. split; [done|].
    intros w [->|Hw]%elem_of_cons Hk _; [lia|by apply L].
  - intros (Hin & Hk & Hv & Hm)%IH. split; [by right|]. split; [done|]. split; [done|].
    intros w [->|Hw]%elem_of_cons Hk' Hv'; [|by apply Hm].
    rewrite Hk', Hv', bool_decide_eq_true_2 in S by done. done.
Qed.

(** A point read never fails, and returns the value of the newest version
    of the key that the reader may see: nothing when there is no such version,
    or when it is a tombstone. *)
Theorem mvcc_get_newest {E} `{StorageEngine E} (e : E) vs k visible :
  holds_versions e vs -> len k <= 2 ^ 32 - 1 ->
  (exists v, newest_visible visible k vs v /\ mvcc_get e k visible = Ok (live (vval v))) \/
  ((forall v, v ∈ vs -> vkey v = k -> visible (version_txn (vval v)) (vts v) = false) /\
   mvcc_get e k visible = Ok None).
Proof.
  intros Hh Hk. rewrite (mvcc_get_ok e vs) by done. unfold read. destruct (newest visible k vs) as [v|] eqn:N.
  - left. exists v. split; [|done]. apply newest_spec; [|done]. by apply (sorted_versions e).
  - right. split; [|done]. intros v Hv <-. apply list_elem_of_In in Hv.
    pose proof (List.find_none _ _ N v Hv) as S. unfold sees in S. by rewrite bool_decide_eq_true_2 in S.
Qed.

(** C31. A range scan ends, never fails, and yields exactly the live keys of
    the inclusive range with the value a point read gives, each once, shorter
    keys first and keys of one length in byte order. *)
Theorem mvcc_scan_exact {E} `{StorageEngine E} (e : E) vs start stop visible calls fuel :
  holds_versions e vs -> (length vs < calls)%nat -> (2 * length vs + 2 <= fuel)%nat ->
  exists out, mvcc_scan calls fuel e start stop visible = Some (Ok out) /\
    (forall k d, len k <= 2 ^ 32 - 1 ->
       (k, d) ∈ out <-> ble start k /\ ble k stop /\ mvcc_get e k visible = Ok (Some d)) /\
    StronglySorted (fun a b => key_cmp a.1 b.1 = Lt) out.
Proof.
  intros Hh Hc Hf. exists (resolve visible None false (later start stop 0 vs)).
  pose proof (sorted_versions e vs Hh) as Hs. split; [|split].
  - assert (S0 : scan_at start stop (scan_new start stop) [] 0) by (split; try done; apply probe_first).
    rewrite <- (app_nil_l (resolve visible None false (later start stop 0 vs))).
    apply (scan_collect_ok e vs start stop visible Hh calls fuel (scan_new start stop) [] 0 S0).
    + unfold scan_cost. cbn [length]. pose proof (List.filter_length_le (fun v => 0 <=? len (vkey v)) vs). unfold longer. lia.
    + cbn [decided resolve app]. pose proof (resolve_length visible (later start stop 0 vs) None false).
      pose proof (List.filter_length_le (fun v => (0 <=? len (vkey v)) && in_range start stop (vkey v)) vs). unfold later in *. lia.
  - intros k d Hk. rewrite resolve_spec by (done || by apply sorted_later). rewrite (mvcc_get_ok e vs), read_range by done.
    destruct (in_range start stop k) eqn:R.
    + apply in_range_spec in R as [R1 R2]. split; [|intros (_ & _ & [= Hr]); by split; [|intros []]].
      intros [Hr _]. by rewrite Hr.
    + split; [by intros []|]. intros (R1 & R2 & _). rewrite (proj2 (in_range_spec start stop k)) in R; done.
  - by apply resolve_sorted, sorted_later.
Qed.

(** *** Witnesses *)

Definition sample_versions : list version :=
  [mkVersion [byte.of_Z 97] 5 (MValue 5 [byte.of_Z 1]);
   mkVersion [byte.of_Z 97] 3 (MTombstone 3);
   mkVersion [byte.of_Z 97; byte.of_Z 98] 4 (MValue 4 [byte.of_Z 2])].

Definition sample_engine : Reference :=
  fold_right (fun v e => ref_put e (stored v).1 (stored v).2) empty_engine sample_versions.

Definition sample_visible (txn ts : Z) : bool := ts <=? 4.

Lemma sample_holds : holds_versions sample_engine sample_versions.
Proof. split; [vm_compute; reflexivity|]. repeat constructor; vm_compute; congruence. Qed.

Lemma mvcc_get_newest_witness :
  (exists v, newest_visible sample_visible [byte.of_Z 97; byte.of_Z 98] sample_versions v /\
     mvcc_get sample_engine [byte.of_Z 97; byte.of_Z 98] sample_visible = Ok (live (vval v))) \/
  ((forall v, v ∈ sample_versions -> vkey v = [byte.of_Z 97; byte.of_Z 98] ->
      sample_visible (version_txn (vval v)) (vts v) = false) /\
   mvcc_get sample_engine [byte.of_Z 97; byte.of_Z 98] sample_visible = Ok None).
Proof. apply mvcc_get_newest; [apply sample_holds|vm_compute; congruence]. Defined.

Lemma mvcc_scan_exact_witness :
  exists out, mvcc_scan 4 8 sample_engine [byte.of_Z 97] [byte.of_Z 98] sample_visible = Some (Ok out) /\
    (forall k d, len k <= 2 ^ 32 - 1 ->
       (k, d) ∈ out <-> ble [byte.of_Z 97] k /\ ble k [byte.of_Z 98] /\
         mvcc_get sample_engine k sample_visible = Ok (Some d)) /\
    StronglySorted (fun a b => key_cmp a.1 b.1 = Lt) out.
Proof. apply (mvcc_scan_exact sample_engine sample_versions); [apply sample_holds|cbn; lia|cbn; lia]. Defined.
