(* ===== verification/LockGraph.v ===== *)
(** Cycle search in the wait-for graph (crates/idb-txn/src/txn/lock_manager.rs,
    [detect_cycle] and [choose_victim]), proved sound, complete and terminating. *)

From Stdlib Require Import ZArith Lia List Bool.
From stdpp Require Import base gmap list strings sets relations.
From S2P Require Import Prelude Common.
#[local] Open Scope Z_scope.

Definition MAX_BFS_ITERATIONS : Z := 65536.

(** From each transaction, those it waits for. *)
Abbreviation graph := (gmap Z (gset Z)).

(** [while node != start { cycle.push(node); node = parent[&node]; }]; [None]
    when the fuel runs out. *)
Fixpoint walk_back (fuel : nat) (parent : gmap Z Z) (start node : Z) : option (result (list Z)) :=
  if node =? start then Some (Ok [start]) else
  match fuel with
  | O => None
  | S fuel =>
      match parent !! node with
      | None => Some Panic
      | Some up =>
          match walk_back fuel parent start up with
          | Some (Ok rest) => Some (Ok (node :: rest))
          | other => other
          end
      end
  end.

(** The inner loop over a node's neighbours: [inl] when one is the start. *)
Fixpoint visit (start current : Z) (neighbors : list Z) (parent : gmap Z Z) (queue : list Z) :
    gmap Z Z + (gmap Z Z * list Z) :=
  match neighbors with
  | [] => inr (parent, queue)
  | n :: rest =>
      if n =? start then inl parent else
      match parent !! n with
      | Some _ => visit start current rest parent queue
      | None => visit start current rest (<[n := current]> parent) (queue ++ [n])
      end
  end.

(** The outer loop; [budget] is what is left of the iteration bound. *)
Fixpoint bfs (budget : nat) (g : graph) (start : Z) (parent : gmap Z Z) (queue : list Z) :
    option (result (option (list Z))) :=
  match queue with
  | [] => Some (Ok None)
  | current :: queue =>
      match budget with
      | O => Some Panic
      | S budget =>
          match g !! current with
          | None => bfs budget g start parent queue
          | Some neighbors =>
              match visit start current (elements neighbors) parent queue with
              | inr (parent', queue') => bfs budget g start parent' queue'
              | inl parent =>
                  match walk_back (size parent) parent start current with
                  | Some (Ok cycle) => Some (Ok (Some cycle))
                  | Some (Err e) => Some (Err e)
                  | Some Panic => Some Panic
                  | None => None
                  end
              end
          end
      end
  end.

Definition detect_cycle (g : graph) (start : Z) : option (result (option (list Z))) :=
  match g !! start with
  | None => Some (Ok None)
  | Some neighbors =>
      let ns := elements neighbors in
      bfs (Z.to_nat MAX_BFS_ITERATIONS) g start
        (fold_left (fun p n => <[n := start]> p) ns ∅) ns
  end.

Definition choose_victim (cycle : list Z) : result Z :=
  match cycle with [] => Panic | c :: rest => Ok (fold_left Z.max rest c) end.


(** ** Specification *)

Definition edge (g : graph) (a b : Z) : Prop := exists ns, g !! a = Some ns /\ b ∈ ns.

(** Everything some transaction waits for. *)
Definition targets (g : graph) : gset Z := ⋃ (map snd (map_to_list g)).

(** A list of nodes, each waited for by the next, that ends in [start]; its
    first node waits for [start]. *)
Fixpoint waits_back (g : graph) (start : Z) (l : list Z) : Prop :=
  match l with
  | [] => False
  | x :: l' => match l' with [] => x = start | y :: _ => edge g y x /\ waits_back g start l' end
  end.

Definition is_cycle (g : graph) (start : Z) (cycle : list Z) : Prop :=
  waits_back g start cycle /\ exists x, head cycle = Some x /\ edge g x start.

(** ** The search *)

Lemma edge_target g a b : edge g a b -> b ∈ targets g.
Proof.
  intros (ns & Ha & Hb). unfold targets. apply elem_of_union_list. exists ns. split; [|done].
  apply list_elem_of_fmap. exists (a, ns). split; [done|]. by apply elem_of_map_to_list.
Qed.

Inductive back (parent : gmap Z Z) (start : Z) : Z -> list Z -> Prop :=
| back_start : back parent start start [start]
| back_up n up l : n <> start -> parent !! n = Some up -> back parent start up l -> back parent start n (n :: l).

Lemma walk_back_ok parent start n l fuel :
  back parent start n l -> (length l <= S fuel)%nat -> walk_back fuel parent start n = Some (Ok l).
Proof.
  intros Hb. revert fuel. induction Hb as [|n up l Hn Hp Hb IH]; intros fuel Hf.
  - destruct fuel; cbn [walk_back]; by rewrite Z.eqb_refl.
  - cbn [length] in Hf. destruct fuel as [|fuel]; [destruct Hb; cbn [length] in Hf; lia|].
    cbn [walk_back]. destruct (Z.eqb_spec n start); [done|]. by rewrite Hp, IH by lia.
Qed.

Lemma back_insert parent start n l k v :
  parent !! k = None -> back parent start n l -> back (<[k := v]> parent) start n l.
Proof.
  intros Hk. induction 1 as [|n up l Hn Hp Hb IH]; [constructor|]. econstructor; [done| |done].
  rewrite lookup_insert_ne; [done|]. congruence.
Qed.

Section search.
Variables (g : graph) (start : Z).

(** [done] are the processed nodes: none waits for [start], and all they wait
    for has been discovered. *)
Record searching (parent : gmap Z Z) (queue : list Z) (done : gset Z) : Prop := {
  s_dom : dom parent = done ∪ list_to_set queue;
  s_disj : done ## list_to_set queue;
  s_nodup : NoDup queue;
  s_edges : forall n p, parent !! n = Some p -> edge g p n;
  s_back : forall n, n ∈ dom parent -> exists l, back parent start n l /\ (length l <= S (size parent))%nat;
  s_closed : forall a b, a ∈ done -> edge g a b -> b <> start /\ b ∈ dom parent;
  s_first : forall b, edge g start b -> b ∈ dom parent
}.

Lemma back_waits parent n l :
  (forall n p, parent !! n = Some p -> edge g p n) -> back parent start n l ->
  waits_back g start l /\ head l = Some n.
Proof.
  intros He. induction 1 as [|n up l Hn Hp Hb [IH Hh]]; [done|]. split; [|done].
  cbn [waits_back]. destruct l as [|y l]; [done|]. cbn in Hh. injection Hh as ->. split; [by apply He|done].
Qed.

(** What the inner loop has done after the neighbours [seen] of [current]. *)
Record visiting (current : Z) (seen : list Z) (parent : gmap Z Z) (queue : list Z) (done : gset Z) : Prop := {
  v_dom : dom parent = done ∪ {[current]} ∪ list_to_set queue;
  v_disj : done ∪ {[current]} ## list_to_set queue;
  v_fresh : current ∉ done;
  v_nodup : NoDup queue;
  v_edges : forall n p, parent !! n = Some p -> edge g p n;
  v_back : forall n, n ∈ dom parent -> exists l, back parent start n l /\ (length l <= S (size parent))%nat;
  v_closed : forall a b, a ∈ done -> edge g a b -> b <> start /\ b ∈ dom parent;
  v_first : forall b, edge g start b -> b ∈ dom parent;
  v_seen : forall b, b ∈ seen -> b <> start /\ b ∈ dom parent
}.

Lemma visit_insert current seen n parent queue done :
  visiting current seen parent queue done -> edge g current n -> n <> start -> parent !! n = None ->
  visiting current (n :: seen) (<[n := current]> parent) (queue ++ [n]) done.
Proof.
  intros [Hd Hj Hf Hn He Hb Hc H1 Hs] Hen Hns Hp. pose proof Hp as Hnd. apply not_elem_of_dom in Hnd.
  assert (Hcur : current ∈ dom parent) by (rewrite Hd; set_solver).
  split.
  - rewrite dom_insert_L, list_to_set_app_L. cbn. rewrite Hd. set_solver.
  - rewrite list_to_set_app_L. rewrite Hd in Hnd. cbn. set_solver.
  - done.
  - apply NoDup_app. repeat split; [done| |apply NoDup_singleton].
    intros x Hx ->%list_elem_of_singleton. apply Hnd. rewrite Hd. set_solver.
  - intros x p. destruct (decide (x = n)) as [->|]; [rewrite lookup_insert_eq; by intros [= <-]|].
    rewrite lookup_insert_ne by done. apply He.
  - intros x Hx. rewrite map_size_insert_None by done. rewrite dom_insert_L in Hx.
    apply elem_of_union in Hx as [->%elem_of_singleton|Hx].
    + destruct (Hb current Hcur) as (l & Hl & Hlen). exists (n :: l). split; [|cbn [length]; lia].
      econstructor; [done|by rewrite lookup_insert_eq|]. by apply back_insert.
    + destruct (Hb x Hx) as (l & Hl & Hlen). exists l. split; [by apply back_insert|lia].
  - intros a b Ha Hab. destruct (Hc a b Ha Hab). split; [done|]. rewrite dom_insert_L. set_solver.
  - intros b Hab. rewrite dom_insert_L. specialize (H1 b Hab). set_solver.
  - intros b [->|Hin]%elem_of_cons; rewrite dom_insert_L; [set_solver|]. destruct (Hs b Hin). set_solver.
Qed.

Lemma visit_ok current ns seen parent queue done :
  visiting current seen parent queue done -> (forall n, n ∈ ns -> edge g current n) ->
  match visit start current ns parent queue with
  | inl parent' => edge g current start /\ exists seen' queue', visiting current seen' parent' queue' done
  | inr (parent', queue') => visiting current (rev ns ++ seen) parent' queue' done
  end.
Proof.
  revert seen parent queue. induction ns as [|n ns IH]; intros seen parent queue Hv Hns; cbn [visit]; [done|].
  assert (Hn : edge g current n) by (apply Hns; by left).
  assert (Hns' : forall m, m ∈ ns -> edge g current m) by (intros m Hm; apply Hns; by right).
  destruct (Z.eqb_spec n start) as [->|Hst]; [split; [done|by eauto]|].
  cbn [rev]. rewrite <- app_assoc. cbn [app]. destruct (parent !! n) as [p|] eqn:Hp.
  - apply (IH (n :: seen)); [|done]. destruct Hv as [Hd Hj Hf Hnd He Hb Hc H1 Hs]. split; try done.
    intros b [->|Hin]%elem_of_cons; [|by apply Hs]. split; [done|]. by apply elem_of_dom.
  - apply (IH (n :: seen)); [|done]. by apply visit_insert.
Qed.

Lemma pop_visiting parent current queue done :
  searching parent (current :: queue) done -> visiting current [] parent queue done.
Proof.
  intros [Hd Hj Hn He Hb Hc H1]. apply NoDup_cons in Hn as [Hni Hn]. cbn in Hd, Hj.
  split; try done; [rewrite Hd; set_solver|set_solver|set_solver|]. intros b Hin. by apply elem_of_nil in Hin.
Qed.

Lemma visited_searching current ns parent queue done :
  visiting current ns parent queue done -> (forall b, edge g current b -> b ∈ ns) ->
  searching parent queue (done ∪ {[current]}).
Proof.
  intros [Hd Hj Hf Hn He Hb Hc H1 Hs] Hns. split; try done.
  intros a b [Ha| ->%elem_of_singleton]%elem_of_union Hab; [by apply (Hc a)|]. apply Hs. by apply Hns.
Qed.

Lemma searched_none parent done : searching parent [] done -> ~ tc (edge g) start start.
Proof.
  intros [Hd Hj Hn He Hb Hc H1]. cbn in Hd. assert (Hdd : dom parent = done) by (rewrite Hd; set_solver).
  rewrite Hdd in Hc, H1. clear Hd Hdd Hb He Hj Hn.
  assert (R : forall a b, tc (edge g) a b -> a ∈ done -> b <> start /\ b ∈ done).
  { induction 1 as [a b Hab|a b c Hab Hbc IH]; intros Ha; destruct (Hc a b Ha Hab); [done|by apply IH]. }
  intros Ht. inversion Ht as [a b Hab|a b c Hab Hbc]; subst.
  - by destruct (Hc start start (H1 _ Hab) Hab).
  - by destruct (R b start Hbc (H1 _ Hab)).
Qed.

Definition found (r : option (list Z)) : Prop :=
  match r with Some cycle => is_cycle g start cycle | None => ~ tc (edge g) start start end.

Lemma popped_budget parent current queue done budget :
  searching parent (current :: queue) done -> (size (targets g) <= budget + size done)%nat ->
  budget <> 0%nat /\ (size (targets g) <= pred budget + size (done ∪ {[current]}))%nat.
Proof.
  intros [Hd Hj _ He _ _ _] Hb. cbn in Hd, Hj.
  assert (Hsub : done ∪ {[current]} ⊆ targets g).
  { transitivity (dom parent); [rewrite Hd; set_solver|]. intros n [p Hp]%elem_of_dom.
    by eapply edge_target, He. }
  apply subseteq_size in Hsub. rewrite size_union in * by set_solver. rewrite size_singleton in *. lia.
Qed.

Lemma bfs_ok budget parent queue fin :
  searching parent queue fin -> (size (targets g) <= budget + size fin)%nat ->
  exists r, bfs budget g start parent queue = Some (Ok r) /\ found r.
Proof.
  revert parent queue fin. induction budget as [|budget IH]; intros parent queue fin Hs Hb;
    (destruct queue as [|current queue]; [exists None; split; [done|exact (searched_none _ _ Hs)]|]).
  { by destruct (popped_budget _ _ _ _ _ Hs Hb). }
  cbn [bfs].
  destruct (popped_budget _ _ _ _ _ Hs Hb) as [_ Hb']. cbn [pred] in Hb'.
  pose proof (pop_visiting _ _ _ _ Hs) as Hv. destruct (g !! current) as [ns|] eqn:Hg.
  - assert (Hns : forall n, n ∈ elements ns -> edge g current n).
    { intros n Hn%elem_of_elements. by exists ns. }
    pose proof (visit_ok current (elements ns) [] parent queue fin Hv Hns) as V.
    destruct (visit start current (elements ns) parent queue) as [parent'|[parent' queue']].
    + destruct V as (Hcs & seen & queue' & [Hd _ _ _ He Hbk _ _ _]).
      destruct (Hbk current) as (l & Hl & Hlen); [rewrite Hd; set_solver|].
      rewrite (walk_back_ok _ _ _ _ _ Hl Hlen). exists (Some l). split; [done|].
      destruct (back_waits parent' current l He Hl) as [Hw Hh]. split; [done|]. by exists current.
    + apply (IH parent' queue' (fin ∪ {[current]})); [|done]. eapply visited_searching; [done|].
      intros b (ns' & Hg' & Hb2). rewrite Hg in Hg'. injection Hg' as <-.
      apply elem_of_app. left. apply list_elem_of_In, in_rev. rewrite rev_involutive.
      by apply list_elem_of_In, elem_of_elements.
  - apply (IH parent queue (fin ∪ {[current]})); [|done]. eapply visited_searching; [done|].
    intros b (ns' & Hg' & _). by rewrite Hg in Hg'.
Qed.

Lemma first_parents (ns : list Z) (p0 : gmap Z Z) :
  NoDup ns -> (forall n, n ∈ ns -> p0 !! n = None) ->
  let p := fold_left (fun p n => <[n := start]> p) ns p0 in
  dom p = dom p0 ∪ (list_to_set ns : gset Z) /\ (size p = size p0 + length ns)%nat /\
  forall n, p !! n = if bool_decide (n ∈ ns) then Some start else p0 !! n.
Proof.
  revert p0. induction ns as [|n ns IH]; intros p0 Hn Hp; cbn [fold_left list_to_set length].
  { split; [set_solver|]. split; [lia|]. intros n. by rewrite bool_decide_eq_false_2 by (by intros H%elem_of_nil). }
  apply NoDup_cons in Hn as [Hni Hn]. destruct (IH (<[n := start]> p0) Hn) as (D & S & L).
  { intros m Hm. rewrite lookup_insert_ne by (intros ->; done). apply Hp. by right. }
  cbv zeta. rewrite D, S, dom_insert_L, map_size_insert_None by (apply Hp; by left). split; [set_solver|]. split; [lia|].
  intros m. rewrite L. destruct (decide (m = n)) as [->|Hmn].
  - rewrite (bool_decide_eq_true_2 (n ∈ n :: ns)) by (by left). rewrite lookup_insert_eq. by case_bool_decide.
  - rewrite lookup_insert_ne by done. repeat case_bool_decide; try done; set_solver.
Qed.

Lemma first_searching ns :
  g !! start = Some ns ->
  searching (fold_left (fun p n => <[n := start]> p) (elements ns) ∅) (elements ns) ∅.
Proof.
  intros Hg. destruct (first_parents (elements ns) ∅) as (D & S & L); [apply NoDup_elements|by intros|]. cbv zeta in *.
  rewrite dom_empty_L in D. split.
  - rewrite D. set_solver.
  - set_solver.
  - apply NoDup_elements.
  - intros n p. rewrite L. case_bool_decide as Hn; [|by rewrite lookup_empty]. intros [= <-].
    apply elem_of_elements in Hn. by exists ns.
  - intros n Hn. rewrite S, map_size_empty. assert (Hin : n ∈ elements ns) by (rewrite D in Hn; set_solver).
    assert (length (elements ns) <> 0%nat) by (destruct (elements ns); [by apply elem_of_nil in Hin|done]).
    destruct (decide (n = start)) as [->|Hne]; [exists [start]; split; [constructor|cbn; lia]|].
    exists [n; start]. split; [|cbn [length]; lia]. econstructor; [done| |constructor].
    by rewrite L, bool_decide_eq_true_2.
  - intros a b Ha. by apply elem_of_empty in Ha.
  - intros b (ns' & Hg' & Hb). rewrite Hg in Hg'. injection Hg' as <-. rewrite D. set_solver.
Qed.
End search.

Lemma detect_cycle_search (g : graph) (start : Z) :
  Z.of_nat (size (targets g)) <= MAX_BFS_ITERATIONS ->
  exists r, detect_cycle g start = Some (Ok r) /\ found g start r.
Proof.
  intros Hs. unfold detect_cycle. destruct (g !! start) as [ns|] eqn:Hg.
  - apply (bfs_ok g start _ _ _ ∅); [by apply first_searching|]. unfold MAX_BFS_ITERATIONS in *. lia.
  - exists None. split; [done|]. cbn. intros Ht.
    inversion Ht as [a b (ns & Hg' & _)|a b c (ns & Hg' & _) _]; subst; congruence.
Qed.

(** C17. While at most 65536 transactions are waited for, the deadlock search
    ends without a panic; it reports a cycle exactly when the requester waits
    for itself through others, and the cycle it reports is one. *)
Theorem detect_cycle_correct (g : graph) (start : Z) :
  Z.of_nat (size (targets g)) <= MAX_BFS_ITERATIONS ->
  exists r, detect_cycle g start = Some (Ok r) /\
    match r with
    | Some cycle => is_cycle g start cycle /\ tc (edge g) start start
    | None => ~ tc (edge g) start start
    end.
Proof.
  intros Hs. destruct (detect_cycle_search g start Hs) as ([cycle|] & Hr & Hf); [|by exists None]. exists (Some cycle). split; [done|]. split; [done|].
  destruct Hf as [Hw (x & Hx & Hxs)]. clear Hr.
  assert (R : forall l x, waits_back g start l -> head l = Some x -> x = start \/ tc (edge g) start x).
  { induction l as [|y l IH]; intros z Hl Hz; [done|]. cbn in Hz. injection Hz as ->. cbn [waits_back] in Hl.
    destruct l as [|w l]; [by left|]. destruct Hl as [Hwz Hl]. right.
    destruct (IH w Hl eq_refl) as [->|Ht]; [by apply tc_once|]. by eapply tc_r. }
  destruct (R cycle x Hw Hx) as [->|Ht]; [by apply tc_once|by eapply tc_r].
Qed.

(** Two transactions waiting for each other. *)
Lemma detect_cycle_correct_witness :
  exists r, detect_cycle (<[1 := {[2]}]> {[2 := {[1]}]}) 1 = Some (Ok r) /\
    match r with
    | Some cycle => is_cycle (<[1 := {[2]}]> {[2 := {[1]}]}) 1 cycle /\ tc (edge (<[1 := {[2]}]> {[2 := {[1]}]})) 1 1
    | None => ~ tc (edge (<[1 := {[2]}]> {[2 := {[1]}]})) 1 1
    end.
Proof. apply detect_cycle_correct. vm_compute. congruence. Defined.
