(* ===== verification/LockManager.v ===== *)
(** The key-level lock manager (crates/idb-txn/src/txn/lock_manager.rs).

    The mutex makes every call one step; a blocked [acquire] is split where it
    waits on the condition variable.  A request's [granted] flag is shared
    between the waiter and the thread that grants it: flags are tickets, and
    the state keeps the set of those stored [true].  Sets and maps are the
    hash sets and maps of the code, iterated in the order of [elements]. *)

From Stdlib Require Import ZArith Lia List Bool.
From stdpp Require Import base gmap list strings sets sorting.
From S2P Require Import Prelude Common LockGraph.
#[local] Open Scope Z_scope.

Definition MAX_LOCK_TABLE_ENTRIES : Z := 1000000.

Inductive LockMode := Shared | Exclusive.

#[global] Instance LockMode_eq_dec : EqDecision LockMode.
Proof. solve_decision. Defined.

Definition is_compatible (m other : LockMode) : bool :=
  match m, other with Shared, Shared => true | _, _ => false end.

Record LockRequest := mkRequest { req_txn : Z; req_mode : LockMode; ticket : Z }.

Record LockEntry := mkEntry {
  granted_mode : option LockMode;
  holders : gset Z;
  wait_queue : list LockRequest
}.

Definition new_entry : LockEntry := mkEntry None ∅ [].

Definition entry_is_empty (e : LockEntry) : bool :=
  bool_decide (holders e = ∅) && bool_decide (length (wait_queue e) = 0%nat).

Record LockState := mkLocks {
  lock_table : gmap bytes LockEntry;
  txn_locks : gmap Z (gset bytes);
  granted_flags : gset Z;
  next_ticket : Z
}.

Definition new_locks : LockState := mkLocks ∅ ∅ ∅ 0.

Definition with_table (s : LockState) (t : gmap bytes LockEntry) : LockState :=
  mkLocks t (txn_locks s) (granted_flags s) (next_ticket s).

Definition record_hold (s : LockState) (txn : Z) (key : bytes) : LockState :=
  mkLocks (lock_table s) (<[txn := {[key]} ∪ default ∅ (txn_locks s !! txn)]> (txn_locks s))
    (granted_flags s) (next_ticket s).

Inductive GrantResult := Granted | AlreadyHeld | MustWait.

Definition set_entry (s : LockState) (key : bytes) (e : LockEntry) : LockState :=
  with_table s (<[key := e]> (lock_table s)).

Definition try_grant_immediate (s : LockState) (key : bytes) (txn : Z) (mode : LockMode) :
    result (GrantResult * LockState) :=
  entry ← unwrap (lock_table s !! key);
  if bool_decide (holders entry = ∅) then
    Ok (Granted, record_hold (set_entry s key
          (mkEntry (Some mode) ({[txn]} ∪ holders entry) (wait_queue entry))) txn key)
  else if bool_decide (txn ∈ holders entry) then
    current ← unwrap (granted_mode entry);
    match current, mode with
    | Exclusive, _ => Ok (AlreadyHeld, s)
    | Shared, Shared => Ok (AlreadyHeld, s)
    | Shared, Exclusive =>
        if bool_decide (size (holders entry) = 1%nat) then
          Ok (Granted, set_entry s key (mkEntry (Some Exclusive) (holders entry) (wait_queue entry)))
        else Ok (MustWait, s)
    end
  else if bool_decide (length (wait_queue entry) = 0%nat) then
    current ← unwrap (granted_mode entry);
    if is_compatible mode current then
      Ok (Granted, record_hold (set_entry s key
            (mkEntry (granted_mode entry) ({[txn]} ∪ holders entry) (wait_queue entry))) txn key)
    else Ok (MustWait, s)
  else Ok (MustWait, s).

(** *** Granting waiters *)

(** The loop of [try_grant_waiters]: entry, transactions that became holders,
    tickets whose flag was stored. *)
Fixpoint grant_loop (queue : list LockRequest) (mode : option LockMode) (hs : gset Z)
    (new_holders : list Z) (stored : gset Z) : result (LockEntry * list Z * gset Z) :=
  match queue with
  | [] => Ok (mkEntry mode hs [], new_holders, stored)
  | front :: rest =>
      let is_upgrade := bool_decide (req_txn front ∈ hs) in
      can_grant ← (if bool_decide (hs = ∅) then Ok true
                   else if is_upgrade then Ok (bool_decide (size hs = 1%nat))
                   else current ← unwrap mode; Ok (is_compatible (req_mode front) current));
      if negb can_grant then Ok (mkEntry mode hs queue, new_holders, stored) else
      let hs' := if is_upgrade then hs else {[req_txn front]} ∪ hs in
      let new' := if is_upgrade then new_holders else new_holders ++ [req_txn front] in
      let mode' := Some (if bool_decide (size hs' = 1%nat) then req_mode front else Shared) in
      let stored' := {[ticket front]} ∪ stored in
      match req_mode front with
      | Exclusive => Ok (mkEntry mode' hs' rest, new', stored')
      | Shared => grant_loop rest mode' hs' new' stored'
      end
  end.

Definition try_grant_waiters (s : LockState) (key : bytes) : result (bool * LockState) :=
  match lock_table s !! key with
  | None => Ok (false, s)
  | Some entry =>
      '(entry', new_holders, stored) ←
        grant_loop (wait_queue entry) (granted_mode entry) (holders entry) [] ∅;
      let s' := mkLocks (<[key := entry']> (lock_table s)) (txn_locks s)
                  (stored ∪ granted_flags s) (next_ticket s) in
      Ok (negb (bool_decide (stored = ∅)), fold_left (fun s txn => record_hold s txn key) new_holders s')
  end.

(** *** Releasing *)

Definition drop_if_empty (s : LockState) (key : bytes) : LockState :=
  match lock_table s !! key with
  | Some e => if entry_is_empty e then with_table s (delete key (lock_table s)) else s
  | None => s
  end.

Definition release_key (s : LockState) (txn : Z) (key : bytes) : result (bool * LockState) :=
  match lock_table s !! key with
  | None => Ok (false, s)
  | Some entry =>
      if negb (bool_decide (txn ∈ holders entry)) then Ok (false, s) else
      let hs := holders entry ∖ {[txn]} in
      let mode := if bool_decide (hs = ∅) then None else granted_mode entry in
      '(woke, s') ← try_grant_waiters (set_entry s key (mkEntry mode hs (wait_queue entry))) key;
      Ok (woke, drop_if_empty s' key)
  end.

Definition release (s : LockState) (txn : Z) (key : bytes) : result LockState :=
  let index :=
    match txn_locks s !! txn with
    | Some keys =>
        let keys' := keys ∖ {[key]} in
        if bool_decide (keys' = ∅) then delete txn (txn_locks s) else <[txn := keys']> (txn_locks s)
    | None => txn_locks s
    end in
  '(_, s') ← release_key (mkLocks (lock_table s) index (granted_flags s) (next_ticket s)) txn key;
  Ok s'.

Fixpoint release_keys (s : LockState) (txn : Z) (keys : list bytes) : result LockState :=
  match keys with
  | [] => Ok s
  | key :: rest => '(_, s') ← release_key s txn key; release_keys s' txn rest
  end.

Definition release_all (s : LockState) (txn : Z) : result LockState :=
  let keys := elements (default ∅ (txn_locks s !! txn)) in
  release_keys (mkLocks (lock_table s) (delete txn (txn_locks s)) (granted_flags s) (next_ticket s)) txn keys.

(** *** Deadlock detection *)

Definition add_edge (g : graph) (a b : Z) : graph := <[a := {[b]} ∪ default ∅ (g !! a)]> g.

Definition request_edges (mode : LockMode) (hs : gset Z) (g : graph) (r : LockRequest) : graph :=
  if is_compatible (req_mode r) mode then g else
  fold_left (fun g h => if h =? req_txn r then g else add_edge g (req_txn r) h) (elements hs) g.

Definition entry_edges (g : graph) (e : LockEntry) : graph :=
  match granted_mode e with
  | None => g
  | Some mode => fold_left (request_edges mode (holders e)) (wait_queue e) g
  end.

Definition build_wait_for_graph (s : LockState) : graph :=
  fold_left entry_edges (map snd (map_to_list (lock_table s))) ∅.

(** *** Acquiring *)

Inductive Acquire :=
| Acquired
| Blocked (tk : Z)
| Failed (e : Error).

Definition remove_request (s : LockState) (key : bytes) (tk : Z) : LockState :=
  match lock_table s !! key with
  | Some e =>
      drop_if_empty (set_entry s key (mkEntry (granted_mode e) (holders e)
        (List.filter (fun r => negb (ticket r =? tk)) (wait_queue e)))) key
  | None => s
  end.

Definition push_request (s : LockState) (key : bytes) (txn : Z) (mode : LockMode) : result LockState :=
  entry ← unwrap (lock_table s !! key);
  Ok (mkLocks
    (<[key := mkEntry (granted_mode entry) (holders entry)
                (wait_queue entry ++ [mkRequest txn mode (next_ticket s)])]> (lock_table s))
    (txn_locks s) (granted_flags s) (next_ticket s + 1)).

(** [acquire] until it returns or blocks. *)
Definition acquire (s : LockState) (txn : Z) (key : bytes) (mode : LockMode) :
    option (result (LockState * Acquire)) :=
  if negb (bool_decide (is_Some (lock_table s !! key))) &&
     (MAX_LOCK_TABLE_ENTRIES <=? Z.of_nat (size (lock_table s)))
  then Some (Ok (s, Failed (StorageCorrupted "Lock table entry limit reached"))) else
  let s := match lock_table s !! key with Some _ => s | None => set_entry s key new_entry end in
  match try_grant_immediate s key txn mode with
  | Ok (Granted, s') | Ok (AlreadyHeld, s') => Some (Ok (s', Acquired))
  | Ok (MustWait, s') =>
      let tk := next_ticket s' in
      match push_request s' key txn mode with
      | Ok s2 =>
          match detect_cycle (build_wait_for_graph s2) txn with
          | Some (Ok (Some cycle)) =>
              match choose_victim cycle with
              | Ok _ => Some (Ok (remove_request s2 key tk, Failed (Deadlock txn)))
              | Err e => Some (Err e)
              | Panic => Some Panic
              end
          | Some (Ok None) => Some (Ok (s2, Blocked tk))
          | Some (Err e) => Some (Err e)
          | Some Panic => Some Panic
          | None => None
          end
      | Err e => Some (Err e)
      | Panic => Some Panic
      end
  | Err e => Some (Err e)
  | Panic => Some Panic
  end.

(** A turn of the blocked waiter's loop: granted, timed out, or asleep again. *)
Definition wait_turn (s : LockState) (key : bytes) (tk : Z) (expired : bool) : LockState * Acquire :=
  if bool_decide (tk ∈ granted_flags s) then (s, Acquired)
  else if expired then (remove_request s key tk, Failed LockTimeout)
  else (s, Blocked tk).

Definition held_by (s : LockState) (txn : Z) : list bytes :=
  merge_sort ble (elements (default ∅ (txn_locks s !! txn))).

(** ** Clients

    What the transactions know: the request each blocked one is waiting on,
    and the locks that were granted to it and not released since. *)

Definition stronger (a : LockMode) (b : option LockMode) : LockMode :=
  match a, b with Shared, Some Exclusive => Exclusive | _, _ => a end.

Record Sys := mkSys {
  locks : LockState;
  waiting : gmap Z (bytes * LockMode * Z);
  held : gmap (Z * bytes) LockMode
}.

Definition take_lock (t : Z) (k : bytes) (m : LockMode) (h : gmap (Z * bytes) LockMode) : gmap (Z * bytes) LockMode :=
  <[(t, k) := stronger m (h !! (t, k))]> h.

Definition drop_locks (t : Z) (h : gmap (Z * bytes) LockMode) : gmap (Z * bytes) LockMode :=
  filter (fun x => x.1.1 <> t) h.

Inductive lock_step : Sys -> Sys -> Prop :=
| acquire_returns s t k m l :
    waiting s !! t = None -> acquire (locks s) t k m = Some (Ok (l, Acquired)) ->
    lock_step s (mkSys l (waiting s) (take_lock t k m (held s)))
| acquire_blocks s t k m l tk :
    waiting s !! t = None -> acquire (locks s) t k m = Some (Ok (l, Blocked tk)) ->
    lock_step s (mkSys l (<[t := (k, m, tk)]> (waiting s)) (held s))
| acquire_fails s t k m l e :
    waiting s !! t = None -> acquire (locks s) t k m = Some (Ok (l, Failed e)) ->
    lock_step s (mkSys l (waiting s) (held s))
| waiter_wakes s t k m tk expired l :
    waiting s !! t = Some (k, m, tk) -> wait_turn (locks s) k tk expired = (l, Acquired) ->
    lock_step s (mkSys l (delete t (waiting s)) (take_lock t k m (held s)))
| waiter_times_out s t k m tk expired l e :
    waiting s !! t = Some (k, m, tk) -> wait_turn (locks s) k tk expired = (l, Failed e) ->
    lock_step s (mkSys l (delete t (waiting s)) (held s))
| release_one s t k l :
    waiting s !! t = None -> release (locks s) t k = Ok l ->
    lock_step s (mkSys l (waiting s) (delete (t, k) (held s)))
| release_every s t l :
    waiting s !! t = None -> release_all (locks s) t = Ok l ->
    lock_step s (mkSys l (waiting s) (drop_locks t (held s))).

Definition lock_init : Sys := mkSys new_locks ∅ ∅.

(** ** Invariant *)

(** The lock table says that [t] holds [k], in mode [m] at least. *)
Definition has (tb : gmap bytes LockEntry) (t : Z) (k : bytes) (m : LockMode) : Prop :=
  exists e, tb !! k = Some e /\ t ∈ holders e /\ (m = Exclusive -> granted_mode e = Some Exclusive).

Record queue_ok (mode : option LockMode) (hs : gset Z) (queue : list LockRequest) : Prop := {
  q_mode : mode = None <-> hs = ∅;
  q_alone : mode = Some Exclusive -> size hs = 1%nat;
  q_once : NoDup (map req_txn queue);
  q_upgrade : forall r, r ∈ queue -> req_txn r ∈ hs -> req_mode r = Exclusive /\ mode = Some Shared
}.

(** [t] is giving up its locks on [gone]: its index no longer lists them. *)
Record lock_inv (W : gmap Z (bytes * LockMode * Z)) (H : gmap (Z * bytes) LockMode)
    (t : Z) (gone : gset bytes) (s : LockState) : Prop := {
  i_entry : forall k e, lock_table s !! k = Some e ->
    holders e <> ∅ /\ queue_ok (granted_mode e) (holders e) (wait_queue e);
  i_queue : forall k e r, lock_table s !! k = Some e -> r ∈ wait_queue e ->
    W !! req_txn r = Some (k, req_mode r, ticket r) /\ ticket r ∉ granted_flags s;
  i_wait : forall t' k m tk, W !! t' = Some (k, m, tk) ->
    tk < next_ticket s /\
    (tk ∉ granted_flags s -> exists e, lock_table s !! k = Some e /\ mkRequest t' m tk ∈ wait_queue e) /\
    (tk ∈ granted_flags s -> has (lock_table s) t' k m);
  i_tickets : forall t1 t2 k1 k2 m1 m2 tk,
    W !! t1 = Some (k1, m1, tk) -> W !! t2 = Some (k2, m2, tk) -> t1 = t2;
  i_flags : forall tk, tk ∈ granted_flags s -> tk < next_ticket s;
  i_held : forall t' k m, H !! (t', k) = Some m -> has (lock_table s) t' k m;
  i_owner : forall t' k, has (lock_table s) t' k Shared ->
    is_Some (H !! (t', k)) \/ exists m tk, W !! t' = Some (k, m, tk) /\ tk ∈ granted_flags s;
  i_index : forall t' k, k ∈ default ∅ (txn_locks s !! t') <->
    has (lock_table s) t' k Shared /\ ~ (t' = t /\ k ∈ gone)
}.

(** *** Granting *)

Definition txns (rs : list LockRequest) : gset Z := list_to_set (map req_txn rs).
Definition tickets (rs : list LockRequest) : gset Z := list_to_set (map ticket rs).

Record granting (queue : list LockRequest) (mode : option LockMode) (hs : gset Z) (new : list Z)
    (stored : gset Z) (e : LockEntry) (new' : list Z) (stored' : gset Z) (gr : list LockRequest) : Prop := {
  g_split : queue = gr ++ wait_queue e;
  g_holders : holders e = hs ∪ txns gr;
  g_stored : stored' = stored ∪ tickets gr;
  g_new : forall t, t ∈ new' <-> t ∈ new \/ (t ∈ txns gr /\ t ∉ hs);
  g_ok : queue_ok (granted_mode e) (holders e) (wait_queue e);
  g_mode : forall r, r ∈ gr -> req_mode r = Exclusive -> granted_mode e = Some Exclusive;
  g_keeps : mode = Some Exclusive -> gr = [] /\ granted_mode e = mode;
  g_front : hs = ∅ -> queue <> [] -> gr <> []
}.

Lemma size_one_eq (hs : gset Z) a b : size hs = 1%nat -> a ∈ hs -> b ∈ hs -> a = b.
Proof. intros Hs%size_1_elem_of. destruct Hs as [x Hx]. set_solver. Qed.

Lemma granting_none queue mode hs new stored :
  queue_ok mode hs queue -> (hs = ∅ -> queue = []) ->
  granting queue mode hs new stored (mkEntry mode hs queue) new stored [].
Proof.
  intros Hq He. split; try done; unfold txns, tickets; cbn; set_solver.
Qed.

(** Granting the front request, alone or followed by others. *)
Lemma granting_cons front rest mode hs new stored mode' hs' new1 e new' stored' gr :
  NoDup (req_txn front :: map req_txn rest) ->
  hs' = hs ∪ {[req_txn front]} ->
  (forall t, t ∈ new1 <-> t ∈ new \/ (t = req_txn front /\ t ∉ hs)) ->
  mode <> Some Exclusive ->
  (req_mode front = Exclusive -> mode' = Some Exclusive /\ gr = [] /\ granted_mode e = mode') ->
  granting rest mode' hs' new1 ({[ticket front]} ∪ stored) e new' stored' gr ->
  granting (front :: rest) mode hs new stored e new' stored' (front :: gr).
Proof.
  intros Hnd Hhs Hnew Hm Hx [G1 G2 G3 G4 G5 G6 G7 G8]. split.
  - by rewrite G1.
  - rewrite G2, Hhs. unfold txns. cbn. set_solver.
  - rewrite G3. unfold tickets. cbn. set_solver.
  - intros t. rewrite G4, Hnew, Hhs. unfold txns. cbn. apply NoDup_cons in Hnd as [Hni _].
    assert (forall r, r ∈ gr -> req_txn r <> req_txn front).
    { intros r Hr E. apply Hni. rewrite <- E, G1, map_app. apply elem_of_app. left.
      apply list_elem_of_fmap. by exists r. }
    rewrite elem_of_union, elem_of_singleton, elem_of_list_to_set.
    assert (t ∈ map req_txn gr -> t <> req_txn front).
    { intros (r & -> & Hr)%list_elem_of_fmap. by apply H. }
    destruct (decide (t ∈ hs)); set_solver.
  - done.
  - intros r [->|Hr]%elem_of_cons Hrx; [|by apply (G6 r)]. destruct (Hx Hrx) as (-> & _ & ->). done.
  - done.
  - done.
Qed.

Lemma granted_queue_ok mode front rest hs m :
  queue_ok mode hs (front :: rest) -> (m = Exclusive -> size (hs ∪ {[req_txn front]}) = 1%nat) ->
  (m = Shared -> hs <> ∅ -> mode = Some Shared) ->
  queue_ok (Some m) (hs ∪ {[req_txn front]}) rest.
Proof.
  intros [Qm Qa Qo Qu] Hx Hs. cbn [map] in Qo. apply NoDup_cons in Qo as [Hni Qo].
  assert (Hne : forall r, r ∈ rest -> req_txn r <> req_txn front).
  { intros r Hr E. apply Hni. rewrite <- E. apply list_elem_of_fmap. by exists r. }
  split; [split; [done|set_solver]|by intros [= ->]; apply Hx|done|].
  intros r Hr [Hin|Hin%elem_of_singleton]%elem_of_union; [|by destruct (Hne r Hr)].
  destruct (Qu r) as [Hrx Hm]; [by right|done|]. split; [done|]. destruct m; [done|].
  exfalso. apply (Hne r Hr). specialize (Hx eq_refl). by apply (size_one_eq _ _ _ Hx); set_solver.
Qed.

Lemma grant_loop_ok queue mode hs new stored :
  queue_ok mode hs queue ->
  exists e new' stored' gr, grant_loop queue mode hs new stored = Ok (e, new', stored') /\
    granting queue mode hs new stored e new' stored' gr.
Proof.
  revert mode hs new stored. induction queue as [|front rest IH]; intros mode hs new stored Hq; cbn [grant_loop].
  { exists (mkEntry mode hs []), new, stored, []. split; [done|]. by apply granting_none. }
  pose proof Hq as [Qm Qa Qo Qu]. cbn [map] in Qo. pose proof (Qu front (list_elem_of_here _ _)) as Hfu.
  assert (Stop : hs <> ∅ -> granting (front :: rest) mode hs new stored (mkEntry mode hs (front :: rest)) new stored []).
  { intros Hh. by apply granting_none. }
  assert (Hcomm : {[req_txn front]} ∪ hs = hs ∪ {[req_txn front]}) by set_solver.
  assert (Hnew : forall t, t ∈ new ++ [req_txn front] <-> t ∈ new \/ t = req_txn front).
  { intros t. rewrite elem_of_app, list_elem_of_singleton. done. }
  destruct (decide (hs = ∅)) as [Hh|Hh].
  - rewrite (bool_decide_eq_true_2 (hs = ∅)) by done. rewrite (bool_decide_eq_false_2 (req_txn front ∈ hs)) by set_solver.
    cbn [mbind outcome_bind negb]. cbv zeta. rewrite Hcomm.
    assert (Hsz : size (hs ∪ {[req_txn front]}) = 1%nat) by (rewrite Hh, union_empty_l_L; apply size_singleton).
    rewrite bool_decide_eq_true_2 by done.
    assert (Hq' : queue_ok (Some (req_mode front)) (hs ∪ {[req_txn front]}) rest) by by apply (granted_queue_ok mode).
    assert (Hn' : forall t, t ∈ new ++ [req_txn front] <-> t ∈ new \/ (t = req_txn front /\ t ∉ hs)) by (intros t; rewrite Hnew; set_solver).
    assert (Hm : mode <> Some Exclusive) by (rewrite (proj2 Qm Hh); done).
    destruct (req_mode front) eqn:Em.
    + destruct (IH _ _ (new ++ [req_txn front]) ({[ticket front]} ∪ stored) Hq') as (e & n2 & st2 & gr & -> & G).
      do 3 eexists. exists (front :: gr). split; [done|].
      by eapply (granting_cons _ _ _ _ _ _ (Some Shared) (hs ∪ {[req_txn front]})); [done|done|exact Hn'|done|rewrite Em|exact G].
    + do 3 eexists. exists [front]. split; [done|].
      eapply (granting_cons _ _ _ _ _ _ (Some Exclusive) (hs ∪ {[req_txn front]})); [done|done|exact Hn'|done|done|].
      apply granting_none; [done|set_solver].
  - rewrite (bool_decide_eq_false_2 (hs = ∅)) by done.
    destruct (decide (req_txn front ∈ hs)) as [Hup|Hup];
      [rewrite (bool_decide_eq_true_2 _ Hup)|rewrite (bool_decide_eq_false_2 _ Hup)]; cbv iota zeta.
    + destruct (Hfu Hup) as [Em Hsh]. cbn [mbind outcome_bind].
      destruct (decide (size hs = 1%nat)) as [Hsz|Hsz];
        [rewrite (bool_decide_eq_true_2 _ Hsz)|rewrite (bool_decide_eq_false_2 _ Hsz)]; cbn [negb].
      2:{ do 3 eexists. exists []. split; [done|]. by apply Stop. }
      rewrite Em. assert (Heq : hs = hs ∪ {[req_txn front]}) by set_solver.
      do 3 eexists. exists [front]. split; [done|]. 
      eapply (granting_cons _ _ _ _ _ _ (Some Exclusive) hs new); [done|done|set_solver|congruence|done|].
      apply granting_none; [|done]. rewrite Heq. apply (granted_queue_ok mode); try done. by rewrite <- Heq.
    + destruct mode as [cur|]; [|by destruct Hh; apply Qm]. cbn [unwrap mbind outcome_bind].
      destruct (req_mode front) eqn:Em, cur; cbn [is_compatible negb];
        try (do 3 eexists; exists []; split; [done|by apply Stop]).
      assert (Hq' : queue_ok (Some Shared) (hs ∪ {[req_txn front]}) rest) by by apply (granted_queue_ok (Some Shared)).
      cbv zeta. rewrite Hcomm. replace (if bool_decide _ then Shared else Shared) with Shared by (by destruct (bool_decide _)).
      destruct (IH _ _ (new ++ [req_txn front]) ({[ticket front]} ∪ stored) Hq') as (e & n2 & st2 & gr & -> & G).
      do 3 eexists. exists (front :: gr). split; [done|].
      by eapply (granting_cons _ _ _ _ _ _ (Some Shared) (hs ∪ {[req_txn front]}) (new ++ [req_txn front]));
        [done|done|intros t; rewrite Hnew; set_solver|done|rewrite Em|exact G].
Qed.

(** *** Releasing *)

Lemma record_holds new k s :
  let s' := fold_left (fun s txn => record_hold s txn k) new s in
  lock_table s' = lock_table s /\ granted_flags s' = granted_flags s /\ next_ticket s' = next_ticket s /\
  forall t' k', k' ∈ default ∅ (txn_locks s' !! t') <->
    k' ∈ default ∅ (txn_locks s !! t') \/ (k' = k /\ t' ∈ new).
Proof.
  revert s. induction new as [|a new IH]; intros s; cbn [fold_left].
  { split; [done|]. split; [done|]. split; [done|]. intros t' k'. rewrite elem_of_nil. tauto. }
  destruct (IH (record_hold s a k)) as (-> & -> & -> & I). split; [done|]. split; [done|]. split; [done|].
  intros t' k'. rewrite I, elem_of_cons. cbn [record_hold txn_locks]. destruct (decide (t' = a)) as [->|Hne].
  - rewrite lookup_insert_eq. cbn [default from_option id]. rewrite elem_of_union, elem_of_singleton. tauto.
  - rewrite lookup_insert_ne by done. tauto.
Qed.

Definition table_after (tb : gmap bytes LockEntry) (k : bytes) (e : LockEntry) : gmap bytes LockEntry :=
  if entry_is_empty e then delete k (<[k := e]> tb) else <[k := e]> tb.

Lemma table_after_ne tb k k' e : k' <> k -> table_after tb k e !! k' = tb !! k'.
Proof.
  intros Hk. unfold table_after. destruct (entry_is_empty e); [rewrite lookup_delete_ne by done|];
    by rewrite lookup_insert_ne.
Qed.

Lemma table_after_eq tb k e :
  (holders e = ∅ -> wait_queue e = []) ->
  table_after tb k e !! k = if bool_decide (holders e = ∅) then None else Some e.
Proof.
  intros He. unfold table_after, entry_is_empty. case_bool_decide as Hh; cbn [andb].
  - rewrite He by done. cbn. apply lookup_delete_eq.
  - apply lookup_insert_eq.
Qed.

Lemma drop_if_empty_spec s k e :
  lock_table s !! k = Some e ->
  drop_if_empty s k = with_table s (if entry_is_empty e then delete k (lock_table s) else lock_table s).
Proof. intros He. unfold drop_if_empty. rewrite He. destruct (entry_is_empty e); [done|]. by destruct s. Qed.

(** What [release_key] does to an entry its transaction holds. *)
Lemma release_key_run s t k e :
  lock_table s !! k = Some e -> t ∈ holders e -> queue_ok (granted_mode e) (holders e) (wait_queue e) ->
  let hs := holders e ∖ {[t]} in
  let mode := if bool_decide (hs = ∅) then None else granted_mode e in
  exists b s' e' new stored gr,
    release_key s t k = Ok (b, s') /\ granting (wait_queue e) mode hs [] ∅ e' new stored gr /\
    lock_table s' = table_after (lock_table s) k e' /\
    granted_flags s' = stored ∪ granted_flags s /\ next_ticket s' = next_ticket s /\
    forall t' k', k' ∈ default ∅ (txn_locks s' !! t') <->
      k' ∈ default ∅ (txn_locks s !! t') \/ (k' = k /\ t' ∈ new).
Proof.
  intros He Ht [Qm Qa Qo Qu] hs mode.
  assert (Hq : queue_ok mode hs (wait_queue e)).
  { unfold mode. case_bool_decide as Hh; split; try done.
    - intros r _ Hr. set_solver.
    - split; [|done]. intros Hn%Qm. set_solver.
    - intros Hx%Qa. destruct Hh. apply elem_of_equiv_empty_L. intros y [Hy Hn]%elem_of_difference.
      apply Hn, elem_of_singleton. by apply (size_one_eq _ _ _ Hx).
    - intros r Hr [Hin _]%elem_of_difference. by apply Qu. }
  destruct (grant_loop_ok _ _ _ [] ∅ Hq) as (e' & new & stored & gr & Hg & G).
  unfold release_key. rewrite He, bool_decide_eq_true_2 by done. cbn [negb]. fold hs. fold mode.
  unfold try_grant_waiters. unfold set_entry at 1. cbn [with_table lock_table]. rewrite lookup_insert_eq.
  cbn [wait_queue granted_mode holders]. rewrite Hg. cbn [mbind outcome_bind].
  set (s1 := mkLocks _ _ _ _). destruct (record_holds new k s1) as (R1 & R2 & R3 & R4). cbv zeta in *.
  do 2 eexists. exists e', new, stored, gr. split; [done|]. split; [done|].
  assert (L1 : lock_table s1 = <[k := e']> (lock_table s)) by (unfold s1; cbn; by rewrite insert_insert_eq).
  rewrite (drop_if_empty_spec _ _ e') by (rewrite R1, L1; apply lookup_insert_eq).
  unfold table_after. rewrite R1, L1. cbn [with_table lock_table granted_flags next_ticket txn_locks].
  by rewrite R2, R3.
Qed.

Section released.
Context (W : gmap Z (bytes * LockMode * Z)) (H : gmap (Z * bytes) LockMode) (t : Z) (gone : gset bytes).
Context (s s' : LockState) (k : bytes) (e e' : LockEntry) (new : list Z) (stored : gset Z) (gr : list LockRequest).
Context (mode : option LockMode).
Hypothesis (I : lock_inv W H t gone s).
Hypothesis (Hw : W !! t = None).
Hypothesis (Hgone : k ∈ gone).
Hypothesis (He : lock_table s !! k = Some e).
Hypothesis (Ht : t ∈ holders e).
Hypothesis (G : granting (wait_queue e) mode (holders e ∖ {[t]}) [] ∅ e' new stored gr).
Hypothesis (T : lock_table s' = table_after (lock_table s) k e').
Hypothesis (F : granted_flags s' = stored ∪ granted_flags s).
Hypothesis (N : next_ticket s' = next_ticket s).
Hypothesis (X : forall t' k', k' ∈ default ∅ (txn_locks s' !! t') <->
  k' ∈ default ∅ (txn_locks s !! t') \/ (k' = k /\ t' ∈ new)).

Lemma idle_unqueued : holders e' = ∅ -> wait_queue e' = [].
Proof.
  intros Hh. destruct G as [G1 G2 _ _ _ _ _ G8]. rewrite G2 in Hh. apply empty_union_L in Hh as [Hh Hg].
  destruct gr as [|r gr']; [|unfold txns in Hg; set_solver]. cbn in G1. rewrite <- G1.
  destruct (wait_queue e); [done|]. by destruct (G8 Hh).
Qed.

Lemma here : lock_table s' !! k = if bool_decide (holders e' = ∅) then None else Some e'.
Proof. rewrite T. apply table_after_eq, idle_unqueued. Qed.

Lemma here_inv e1 : lock_table s' !! k = Some e1 -> e1 = e' /\ holders e' <> ∅.
Proof. rewrite here. case_bool_decide; [done|]. by intros [= ->]. Qed.

Lemma elsewhere k' : k' <> k -> lock_table s' !! k' = lock_table s !! k'.
Proof. intros. rewrite T. by apply table_after_ne. Qed.

Lemma has_here t' m :
  has (lock_table s') t' k m <-> t' ∈ holders e' /\ (m = Exclusive -> granted_mode e' = Some Exclusive).
Proof.
  split.
  - intros (e1 & [-> _]%here_inv & Hm). done.
  - intros [Hin Hm]. exists e'. rewrite here, bool_decide_eq_false_2 by set_solver. done.
Qed.

Lemma has_elsewhere t' k' m : k' <> k -> has (lock_table s') t' k' m <-> has (lock_table s) t' k' m.
Proof. intros. unfold has. by rewrite elsewhere. Qed.

Lemma granted_was_queued r : r ∈ gr -> W !! req_txn r = Some (k, req_mode r, ticket r) /\ ticket r ∉ granted_flags s.
Proof.
  intros Hr. apply (i_queue _ _ _ _ _ I k e); [done|]. rewrite (g_split _ _ _ _ _ _ _ _ _ G).
  apply elem_of_app. by left.
Qed.

Lemma stored_granted tk : tk ∈ stored <-> exists r, r ∈ gr /\ ticket r = tk.
Proof.
  rewrite (g_stored _ _ _ _ _ _ _ _ _ G). unfold tickets.
  rewrite elem_of_union, elem_of_list_to_set, list_elem_of_fmap. set_solver.
Qed.

Lemma txns_granted a : a ∈ txns gr <-> exists r, r ∈ gr /\ req_txn r = a.
Proof. unfold txns. rewrite elem_of_list_to_set, list_elem_of_fmap. set_solver. Qed.

(** Locks other than the one given up are kept. *)
Lemma has_kept t' k' m : t' <> t \/ k' <> k -> has (lock_table s) t' k' m -> has (lock_table s') t' k' m.
Proof.
  intros Hne Hh. destruct (decide (k' = k)) as [->|Hk]; [|by apply has_elsewhere].
  destruct Hne as [Hne|]; [|done]. destruct Hh as (e1 & He1 & Hin & Hm). rewrite He in He1. injection He1 as <-.
  apply has_here. rewrite (g_holders _ _ _ _ _ _ _ _ _ G). split; [set_solver|]. intros Hx%Hm.
  destruct (i_entry _ _ _ _ _ I k e He) as [_ Q]. apply (q_alone _ _ _ Q) in Hx.
  by destruct Hne; apply (size_one_eq _ _ _ Hx).
Qed.

Lemma released_wait t' k' m tk :
  W !! t' = Some (k', m, tk) ->
  tk < next_ticket s' /\
  (tk ∉ granted_flags s' -> exists e, lock_table s' !! k' = Some e /\ mkRequest t' m tk ∈ wait_queue e) /\
  (tk ∈ granted_flags s' -> has (lock_table s') t' k' m).
Proof.
  intros Hwt. destruct (i_wait _ _ _ _ _ I _ _ _ _ Hwt) as (Hn & Hq & Hh). rewrite N, F.
  assert (Hne : t' <> t) by congruence. split; [done|]. split.
  - intros [Hns Hnf]%not_elem_of_union. destruct (Hq Hnf) as (e1 & He1 & Hr).
    destruct (decide (k' = k)) as [->|Hk]; [|exists e1; by rewrite elsewhere]. rewrite He in He1. injection He1 as <-.
    rewrite (g_split _ _ _ _ _ _ _ _ _ G) in Hr. apply elem_of_app in Hr as [Hr|Hr].
    + destruct Hns. apply stored_granted. by exists (mkRequest t' m tk).
    + exists e'. rewrite here, bool_decide_eq_false_2; [done|]. intros Hi%idle_unqueued. rewrite Hi in Hr. by apply elem_of_nil in Hr.
  - intros [Hs|Hf]%elem_of_union; [|apply has_kept; [by left|by apply Hh]].
    apply stored_granted in Hs as (r & Hr & <-). destruct (granted_was_queued r Hr) as [Hwr _].
    assert (t' = req_txn r) as -> by exact (i_tickets _ _ _ _ _ I _ _ _ _ _ _ _ Hwt Hwr).
    rewrite Hwr in Hwt. injection Hwt as <- <-.
    apply has_here. rewrite (g_holders _ _ _ _ _ _ _ _ _ G). split.
    + apply elem_of_union. right. apply txns_granted. by exists r.
    + by apply (g_mode _ _ _ _ _ _ _ _ _ G).
Qed.

Lemma released_queue k' e1 r :
  lock_table s' !! k' = Some e1 -> r ∈ wait_queue e1 ->
  W !! req_txn r = Some (k', req_mode r, ticket r) /\ ticket r ∉ granted_flags s'.
Proof.
  intros He1 Hr.
  assert (Old : exists e0, lock_table s !! k' = Some e0 /\ r ∈ wait_queue e0 /\ (k' = k -> r ∈ wait_queue e')).
  { destruct (decide (k' = k)) as [->|Hk]; [|exists e1; by rewrite elsewhere in He1].
    apply here_inv in He1 as [-> _]. exists e. split; [done|]. split; [|done].
    rewrite (g_split _ _ _ _ _ _ _ _ _ G). apply elem_of_app. by right. }
  destruct Old as (e0 & He0 & Hr0 & Hk). destruct (i_queue _ _ _ _ _ I k' e0 r He0 Hr0) as [Hwr Hnf]. split; [done|].
  rewrite F. apply not_elem_of_union. split; [|done]. intros (q & Hq & Hqt)%stored_granted.
  destruct (granted_was_queued q Hq) as [Hwq _]. rewrite Hqt in Hwq.
  pose proof (i_tickets _ _ _ _ _ I _ _ _ _ _ _ _ Hwr Hwq) as E. rewrite <- E, Hwr in Hwq. injection Hwq as Ek _.
  specialize (Hk Ek). destruct (i_entry _ _ _ _ _ I k e He) as [_ Q]. pose proof (q_once _ _ _ Q) as Ho.
  rewrite (g_split _ _ _ _ _ _ _ _ _ G), map_app in Ho. apply NoDup_app in Ho as (_ & Ho & _).
  apply (Ho (req_txn r)); [|apply list_elem_of_fmap; by exists r]. rewrite E. apply list_elem_of_fmap. by exists q.
Qed.

Lemma released_owner t' k' :
  has (lock_table s') t' k' Shared ->
  is_Some (delete (t, k) H !! (t', k')) \/ exists m tk, W !! t' = Some (k', m, tk) /\ tk ∈ granted_flags s'.
Proof.
  intros Hh. destruct (decide (k' = k)) as [->|Hk].
  - apply has_here in Hh as [Hin _]. rewrite (g_holders _ _ _ _ _ _ _ _ _ G) in Hin.
    apply elem_of_union in Hin as [[Hin Hne%not_elem_of_singleton]%elem_of_difference|Hin].
    + destruct (i_owner _ _ _ _ _ I t' k) as [Ho|(m & tk & Hwt & Hf)]; [by exists e| |].
      * left. rewrite lookup_delete_ne by congruence. done.
      * right. exists m, tk. rewrite F. split; [done|]. apply elem_of_union. by right.
    + apply txns_granted in Hin as (r & Hr & <-). destruct (granted_was_queued r Hr) as [Hwr _].
      right. do 2 eexists. split; [done|]. rewrite F. apply elem_of_union. left. apply stored_granted. by exists r.
  - apply has_elsewhere in Hh; [|done]. destruct (i_owner _ _ _ _ _ I t' k' Hh) as [Ho|(m & tk & Hwt & Hf)].
    + left. rewrite lookup_delete_ne by congruence. done.
    + right. exists m, tk. rewrite F. split; [done|]. apply elem_of_union. by right.
Qed.

Lemma released_index t' k' :
  k' ∈ default ∅ (txn_locks s' !! t') <->
  has (lock_table s') t' k' Shared /\ ~ (t' = t /\ k' ∈ gone ∖ {[k]}).
Proof.
  rewrite X, (i_index _ _ _ _ _ I). destruct (decide (k' = k)) as [->|Hk].
  - rewrite has_here, (g_holders _ _ _ _ _ _ _ _ _ G), (g_new _ _ _ _ _ _ _ _ _ G).
    rewrite elem_of_union, !elem_of_difference, !elem_of_singleton.
    assert (Hold : has (lock_table s) t' k Shared <-> t' ∈ holders e).
    { split; [|by exists e]. intros (e1 & He1 & Hin & _). rewrite He in He1. by injection He1 as ->. }
    rewrite Hold. pose proof (elem_of_nil t'). destruct (decide (t' ∈ txns gr)), (decide (t' ∈ holders e)), (decide (t' = t));
      intuition congruence.
  - rewrite has_elsewhere by done. rewrite elem_of_difference, elem_of_singleton. tauto.
Qed.

Lemma released_inv : lock_inv W (delete (t, k) H) t (gone ∖ {[k]}) s'.
Proof.
  split.
  - intros k' e1 He1. destruct (decide (k' = k)) as [->|Hk].
    + apply here_inv in He1 as [-> Hne]. split; [done|]. apply (g_ok _ _ _ _ _ _ _ _ _ G).
    + rewrite elsewhere in He1 by done. by apply (i_entry _ _ _ _ _ I k').
  - apply released_queue.
  - apply released_wait.
  - apply (i_tickets _ _ _ _ _ I).
  - intros tk. rewrite F, N. intros [(r & Hr & <-)%stored_granted|Hf]%elem_of_union; [|by apply (i_flags _ _ _ _ _ I)].
    destruct (granted_was_queued r Hr) as [Hwr _]. by apply (i_wait _ _ _ _ _ I) in Hwr as [? _].
  - intros t' k' m [Hne Hh]%lookup_delete_Some. apply has_kept; [|by apply (i_held _ _ _ _ _ I)].
    destruct (decide (t' = t)) as [->|]; [right; congruence|by left].
  - apply released_owner.
  - apply released_index.
Qed.
End released.

Lemma inv_any W H t t' s : lock_inv W H t ∅ s -> lock_inv W H t' ∅ s.
Proof.
  intros [I1 I2 I3 I4 I5 I6 I7 I8]. split; try done. intros a k. rewrite I8.
  pose proof (not_elem_of_empty (C := gset bytes) k). tauto.
Qed.

Lemma has_not_held W H t gone s t' k :
  lock_inv W H t gone s -> ~ has (lock_table s) t' k Shared -> H !! (t', k) = None.
Proof.
  intros I Hn. destruct (H !! (t', k)) as [m|] eqn:E; [|done]. destruct Hn.
  destruct (i_held _ _ _ _ _ I _ _ _ E) as (e & He & Hin & _). by exists e.
Qed.

Lemma release_key_ok W H t gone s k :
  lock_inv W H t gone s -> W !! t = None -> (has (lock_table s) t k Shared -> k ∈ gone) ->
  exists b s', release_key s t k = Ok (b, s') /\ lock_inv W (delete (t, k) H) t (gone ∖ {[k]}) s'.
Proof.
  intros I Hw Hg.
  assert (Skip : ~ has (lock_table s) t k Shared -> lock_inv W (delete (t, k) H) t (gone ∖ {[k]}) s).
  { intros Hn. rewrite delete_id by by eapply has_not_held. destruct I as [I1 I2 I3 I4 I5 I6 I7 I8].
    split; try done. intros t' k'. rewrite I8, elem_of_difference, elem_of_singleton.
    destruct (decide (t' = t)), (decide (k' = k)); subst; tauto. }
  destruct (lock_table s !! k) as [e|] eqn:He.
  2:{ exists false, s. unfold release_key. rewrite He. split; [done|]. apply Skip. intros (e & He' & _). congruence. }
  destruct (decide (t ∈ holders e)) as [Ht|Ht].
  2:{ exists false, s. unfold release_key. rewrite He, bool_decide_eq_false_2 by done. split; [done|].
      apply Skip. intros (e1 & He1 & Hin & _). rewrite He in He1. by injection He1 as <-. }
  destruct (i_entry _ _ _ _ _ I k e He) as [_ Q].
  destruct (release_key_run s t k e He Ht Q) as (b & s' & e' & new & stored & gr & Hr & G & T & F & N & X).
  exists b, s'. split; [done|]. eapply released_inv; try done. apply Hg. by exists e.
Qed.

Lemma release_ok W H t0 s t k :
  lock_inv W H t0 ∅ s -> W !! t = None ->
  exists s', release s t k = Ok s' /\ lock_inv W (delete (t, k) H) t ∅ s'.
Proof.
  intros I0 Hw. pose proof (inv_any _ _ _ t _ I0) as I. clear I0. unfold release.
  set (idx := match txn_locks s !! t with Some _ => _ | None => _ end).
  assert (Hidx : forall t' k', k' ∈ default ∅ (idx !! t') <-> k' ∈ default ∅ (txn_locks s !! t') /\ ~ (t' = t /\ k' = k)).
  { intros t' k'. unfold idx. destruct (txn_locks s !! t) as [keys|] eqn:Hk.
    - destruct (decide (t' = t)) as [->|Hne].
      + rewrite Hk. cbn [default from_option id]. case_bool_decide as Hemp.
        * rewrite lookup_delete_eq. cbn. set_solver.
        * rewrite lookup_insert_eq. cbn. set_solver.
      + case_bool_decide; rewrite ?lookup_delete_ne, ?lookup_insert_ne by done; tauto.
    - destruct (decide (t' = t)) as [->|Hne]; [rewrite Hk; cbn; set_solver|tauto]. }
  set (s1 := mkLocks (lock_table s) idx _ _).
  assert (I1 : lock_inv W H t {[k]} s1).
  { destruct I as [J1 J2 J3 J4 J5 J6 J7 J8]. split; try done. intros t' k'. unfold s1. cbn [txn_locks lock_table].
    rewrite Hidx, J8, elem_of_singleton. pose proof (not_elem_of_empty (C := gset bytes) k'). tauto. }
  destruct (release_key_ok W H t {[k]} s1 k I1 Hw) as (b & s' & Hr & I2); [set_solver|].
  exists s'. rewrite Hr. split; [done|]. by rewrite difference_diag_L in I2.
Qed.

Lemma release_keys_ok W H t gone s keys :
  lock_inv W H t gone s -> W !! t = None -> (forall k, k ∈ keys -> k ∈ gone) ->
  (forall k, k ∈ gone -> k ∈ keys) -> NoDup keys ->
  exists s' H', release_keys s t keys = Ok s' /\ lock_inv W H' t ∅ s' /\
    forall t' k, H' !! (t', k) = if bool_decide (t' = t /\ k ∈ keys) then None else H !! (t', k).
Proof.
  revert H gone s. induction keys as [|k keys IH]; intros H gone s I Hw H1 H2 Hnd; cbn [release_keys].
  { assert (gone = ∅) as -> by set_solver. exists s, H. split; [done|]. split; [done|]. intros t' k.
    rewrite bool_decide_eq_false_2; [done|]. by intros [_ Hk%elem_of_nil]. }
  apply NoDup_cons in Hnd as [Hni Hnd].
  destruct (release_key_ok W H t gone s k I Hw) as (b & s1 & -> & I1); [intros; apply H1; by left|].
  cbn [mbind outcome_bind]. destruct (IH _ _ _ I1 Hw) as (s' & H' & Hr & I2 & L); [set_solver|set_solver|done|].
  exists s', H'. split; [done|]. split; [done|]. intros t' k'. rewrite L.
  destruct (decide (t' = t /\ k' = k)) as [[-> ->]|Hne].
  - rewrite lookup_delete_eq, (bool_decide_eq_true_2 (t = t /\ k ∈ k :: keys)) by (split; [done|by left]).
    by case_bool_decide.
  - rewrite lookup_delete_ne by (intros [= <- <-]; tauto).
    repeat case_bool_decide; try done; rewrite elem_of_cons in *; tauto.
Qed.

Lemma release_all_ok W H t0 s t :
  lock_inv W H t0 ∅ s -> W !! t = None ->
  exists s', release_all s t = Ok s' /\ lock_inv W (drop_locks t H) t ∅ s'.
Proof.
  intros I0 Hw. pose proof (inv_any _ _ _ t _ I0) as I. clear I0. unfold release_all.
  set (keys := default ∅ (txn_locks s !! t)). set (s1 := mkLocks (lock_table s) _ _ _).
  assert (Hkeys : forall k, k ∈ keys <-> has (lock_table s) t k Shared).
  { intros k. unfold keys. rewrite (i_index _ _ _ _ _ I). set_solver. }
  assert (I1 : lock_inv W H t keys s1).
  { destruct I as [J1 J2 J3 J4 J5 J6 J7 J8]. split; try done. intros t' k. unfold s1. cbn [txn_locks lock_table].
    destruct (decide (t' = t)) as [->|Hne].
    - rewrite lookup_delete_eq. cbn. rewrite Hkeys. set_solver.
    - rewrite lookup_delete_ne, J8 by done. set_solver. }
  destruct (release_keys_ok W H t keys s1 (elements keys) I1 Hw) as (s' & H' & Hr & I2 & L);
    [set_solver|set_solver|apply NoDup_elements|].
  exists s'. split; [done|]. assert (H' = drop_locks t H) as <-; [|done]. apply map_eq. intros [t' k]. rewrite L.
  unfold drop_locks. case_bool_decide as Hb.
  - symmetry. apply map_lookup_filter_None. right. intros m _. cbn. tauto.
  - destruct (decide (t' = t)) as [->|Hne].
    + rewrite (has_not_held _ _ _ _ _ _ _ I).
      * symmetry. apply map_lookup_filter_None. right. intros m _. cbn. tauto.
      * rewrite <- Hkeys. set_solver.
    + destruct (H !! (t', k)) as [m|] eqn:E; symmetry.
      * by apply map_lookup_filter_Some.
      * apply map_lookup_filter_None. by left.
Qed.

(** *** Acquiring *)

Lemma take_lock_lookup t k m H t' k' m' :
  take_lock t k m H !! (t', k') = Some m' ->
  (t' = t /\ k' = k /\ (m' = Exclusive -> m = Exclusive \/ H !! (t, k) = Some Exclusive)) \/ H !! (t', k') = Some m'.
Proof.
  unfold take_lock. destruct (decide ((t, k) = (t', k'))) as [[= <- <-]|Hne].
  - rewrite lookup_insert_eq. intros [= <-]. left. repeat split. destruct m, (H !! (t, k)) as [[|]|]; cbn; auto.
  - rewrite lookup_insert_ne by done. auto.
Qed.

(** [t] becomes, or already is, a holder of [k] in mode [m]. *)
Section granted.
Context (W : gmap Z (bytes * LockMode * Z)) (H : gmap (Z * bytes) LockMode) (t0 : Z).
Context (s s' : LockState) (t : Z) (k : bytes) (m : LockMode) (e : LockEntry).
Hypothesis (I : lock_inv W H t0 ∅ s).
Hypothesis (T : lock_table s' = <[k := e]> (lock_table s)).
Hypothesis (F : granted_flags s' = granted_flags s).
Hypothesis (N : next_ticket s' = next_ticket s).
Hypothesis (X : forall t' k', k' ∈ default ∅ (txn_locks s' !! t') <->
  k' ∈ default ∅ (txn_locks s !! t') \/ (t' = t /\ k' = k)).
Hypothesis (Q : queue_ok (granted_mode e) (holders e) (wait_queue e)).
Hypothesis (Ht : t ∈ holders e).
Hypothesis (Hm : m = Exclusive -> granted_mode e = Some Exclusive).
Hypothesis (Hold : match lock_table s !! k with
  | Some e0 => wait_queue e = wait_queue e0 /\ holders e = {[t]} ∪ holders e0 /\
      (granted_mode e0 = Some Exclusive -> granted_mode e = Some Exclusive)
  | None => wait_queue e = [] /\ holders e = {[t]}
  end).

Lemma lookup_after k' e1 : lock_table s' !! k' = Some e1 -> (k' = k /\ e1 = e) \/ (k' <> k /\ lock_table s !! k' = Some e1).
Proof.
  rewrite T. destruct (decide (k' = k)) as [->|Hk].
  - rewrite lookup_insert_eq. intros [= <-]. by left.
  - rewrite lookup_insert_ne by done. by right.
Qed.

Lemma grant_keeps t' k' m' : has (lock_table s) t' k' m' -> has (lock_table s') t' k' m'.
Proof.
  intros (e0 & He0 & Hin & Hx). rewrite T. destruct (decide (k' = k)) as [->|Hk].
  - exists e. rewrite lookup_insert_eq, He0 in *. destruct Hold as (_ & -> & Hx'). split; [done|]. split; [set_solver|auto].
  - exists e0. by rewrite lookup_insert_ne.
Qed.

Lemma grant_adds t' k' :
  has (lock_table s') t' k' Shared -> (t' = t /\ k' = k) \/ has (lock_table s) t' k' Shared.
Proof.
  intros (e1 & He1 & Hin & _). apply lookup_after in He1 as [[-> ->]|[_ He1]]; [|right; by exists e1].
  destruct (lock_table s !! k) as [e0|] eqn:He0.
  - destruct Hold as (_ & Hh & _). rewrite Hh in Hin. apply elem_of_union in Hin as [?%elem_of_singleton|Hin]; [by left|].
    right. by exists e0.
  - destruct Hold as (_ & Hh). rewrite Hh in Hin. apply elem_of_singleton in Hin. by left.
Qed.

Lemma grant_same_queue k' e1 r :
  lock_table s' !! k' = Some e1 -> r ∈ wait_queue e1 -> exists e0, lock_table s !! k' = Some e0 /\ r ∈ wait_queue e0.
Proof.
  intros [[-> ->]|[_ He1]]%lookup_after Hr; [|by exists e1]. destruct (lock_table s !! k) as [e0|].
  - exists e0. destruct Hold as (<- & _). done.
  - destruct Hold as [Hq _]. rewrite Hq in Hr. by apply elem_of_nil in Hr.
Qed.

Lemma grant_has : has (lock_table s') t k m.
Proof. exists e. rewrite T, lookup_insert_eq. done. Qed.

Lemma granted_inv : lock_inv W (take_lock t k m H) t0 ∅ s'.
Proof.
  pose proof grant_keeps as Keep. destruct I as [I1 I2 I3 I4 I5 I6 I7 I8]. split.
  - intros k' e1 [[-> ->]|[_ He1]]%lookup_after; [|by apply (I1 k')]. split; [set_solver|done].
  - intros k' e1 r He1 Hr. rewrite F. destruct (grant_same_queue _ _ _ He1 Hr) as (e0 & He0 & Hr0). by apply (I2 k' e0).
  - intros t' k' m' tk Hwt. rewrite N, F. destruct (I3 _ _ _ _ Hwt) as (A & B & C). split; [done|]. split; [|auto].
    intros (e0 & He0 & Hr)%B. rewrite T. destruct (decide (k' = k)) as [->|Hk].
    + exists e. rewrite lookup_insert_eq, He0 in *. destruct Hold as (-> & _). done.
    + exists e0. by rewrite lookup_insert_ne.
  - done.
  - intros tk. rewrite F, N. apply I5.
  - intros t' k' m' [(-> & -> & Hx)|Hh]%take_lock_lookup; [|auto].
    destruct grant_has as (e1 & He1 & Hin & Hmx). exists e1. split; [done|]. split; [done|]. intros [Hmm|Hhx]%Hx; [auto|].
    destruct (Keep _ _ _ (I6 _ _ _ Hhx)) as (e2 & He2 & _ & Hx2). rewrite He1 in He2. injection He2 as <-. auto.
  - intros t' k' [[-> ->]|Ho]%grant_adds.
    + left. unfold take_lock. rewrite lookup_insert_eq. done.
    + rewrite F. destruct (I7 _ _ Ho) as [Hs|?]; [|by right]. left. unfold take_lock.
      destruct (decide ((t, k) = (t', k'))) as [->|Hne]; [rewrite lookup_insert_eq|rewrite lookup_insert_ne by done]; done.
  - intros t' k'. rewrite X, I8. pose proof (not_elem_of_empty (C := gset bytes) k'). split.
    + intros [[Hh _]|[-> ->]]; (split; [|tauto]); [by apply Keep|]. exists e. rewrite T, lookup_insert_eq. done.
    + intros [Hh _]. destruct (grant_adds _ _ Hh) as [?|?]; [by right|left; split; [done|tauto]].
Qed.
End granted.

Definition same_holders (tb tb' : gmap bytes LockEntry) : Prop :=
  forall t k m, has tb t k m <-> has tb' t k m.

Lemma insert_same_holders tb k e q :
  tb !! k = Some e -> same_holders tb (<[k := mkEntry (granted_mode e) (holders e) q]> tb).
Proof.
  intros He t k' m. unfold has. destruct (decide (k' = k)) as [->|Hk].
  - rewrite He, lookup_insert_eq. split; intros (e1 & [= <-] & Hin & Hm); eexists; split; done.
  - by rewrite lookup_insert_ne.
Qed.

Lemma pushed_inv W H t0 s t k m e :
  lock_inv W H t0 ∅ s -> W !! t = None -> lock_table s !! k = Some e ->
  (t ∈ holders e -> m = Exclusive /\ granted_mode e = Some Shared) ->
  lock_inv (<[t := (k, m, next_ticket s)]> W) H t0 ∅
    (mkLocks (<[k := mkEntry (granted_mode e) (holders e) (wait_queue e ++ [mkRequest t m (next_ticket s)])]> (lock_table s))
       (txn_locks s) (granted_flags s) (next_ticket s + 1)).
Proof.
  intros [I1 I2 I3 I4 I5 I6 I7 I8] Hw He Hup. set (q := wait_queue e ++ _).
  pose proof (insert_same_holders _ _ _ q He) as SH.
  assert (Hnf : next_ticket s ∉ granted_flags s) by (intros Hf%I5; lia).
  assert (Hne : forall k' e1 r, lock_table s !! k' = Some e1 -> r ∈ wait_queue e1 -> req_txn r <> t).
  { intros k' e1 r He1 Hr E. destruct (I2 _ _ _ He1 Hr) as [Hwr _]. rewrite E in Hwr. congruence. }
  split; cbn [lock_table granted_flags next_ticket txn_locks].
  - intros k' e1 He1. destruct (decide (k' = k)) as [->|Hk]; [|rewrite lookup_insert_ne in He1 by done; by apply (I1 k')].
    rewrite lookup_insert_eq in He1. injection He1 as <-. destruct (I1 k e He) as [Hh [Q1 Q2 Q3 Q4]]. split; [done|]. cbn.
    split; try done.
    + unfold q. rewrite map_app. apply NoDup_app. split; [done|]. split; [|apply NoDup_singleton].
      intros x (r & -> & Hr)%list_elem_of_fmap E%list_elem_of_singleton. by apply (Hne k e r He Hr).
    + intros r [Hr| ->%list_elem_of_singleton]%elem_of_app Hin; [by apply Q4|by apply Hup].
  - intros k' e1 r He1 Hr. assert (Old : r = mkRequest t m (next_ticket s) /\ k' = k \/
      exists e0, lock_table s !! k' = Some e0 /\ r ∈ wait_queue e0).
    { destruct (decide (k' = k)) as [->|Hk]; [|rewrite lookup_insert_ne in He1 by done; right; by exists e1].
      rewrite lookup_insert_eq in He1. injection He1 as <-.
      apply elem_of_app in Hr as [Hr|Hr%list_elem_of_singleton]; [right; by exists e|by left]. }
    destruct Old as [[-> ->]|(e0 & He0 & Hr0)]; [cbn; by rewrite lookup_insert_eq|].
    rewrite lookup_insert_ne; [by apply (I2 k' e0)|]. intros E. by apply (Hne k' e0 r He0 Hr0).
  - intros t' k' m' tk Hwt. destruct (decide (t' = t)) as [->|Htt].
    + rewrite lookup_insert_eq in Hwt. injection Hwt as <- <- <-. split; [lia|]. split; [|done].
      intros _. eexists. rewrite lookup_insert_eq. split; [done|]. apply elem_of_app. right. by left.
    + rewrite lookup_insert_ne in Hwt by done. destruct (I3 _ _ _ _ Hwt) as (A & B & C). split; [lia|].
      split; [|intros Hf; by apply SH, C]. intros (e0 & He0 & Hr)%B. destruct (decide (k' = k)) as [->|Hk].
      * eexists. rewrite lookup_insert_eq. split; [done|]. rewrite He in He0. injection He0 as <-. apply elem_of_app. by left.
      * exists e0. by rewrite lookup_insert_ne.
  - assert (Old : forall a k1 m1 tk, W !! a = Some (k1, m1, tk) -> tk < next_ticket s).
    { intros a k1 m1 tk Ha. by destruct (I3 _ _ _ _ Ha). }
    intros t1 t2 k1 k2 m1 m2 tk. destruct (decide (t1 = t)) as [->|], (decide (t2 = t)) as [->|];
      rewrite ?lookup_insert_eq, ?lookup_insert_ne by done; try done.
    + intros [= <- <- <-] Ha%Old. lia.
    + intros Ha%Old [= <- <- <-]. lia.
    + apply I4.
  - intros tk Hf%I5. lia.
  - intros t' k' m' Hh. by apply SH, I6.
  - intros t' k' Hh%SH. destruct (I7 _ _ Hh) as [?|(m' & tk & Hwt & Hf)]; [by left|]. right. exists m', tk.
    rewrite lookup_insert_ne by congruence. done.
  - intros t' k'. rewrite I8. by rewrite (SH t' k' Shared).
Qed.

Lemma unqueue_inv W H t0 s t k m tk :
  lock_inv W H t0 ∅ s -> W !! t = Some (k, m, tk) -> tk ∉ granted_flags s ->
  lock_inv (delete t W) H t0 ∅ (remove_request s k tk).
Proof.
  intros [I1 I2 I3 I4 I5 I6 I7 I8] Hwt Hnf. destruct (I3 _ _ _ _ Hwt) as (_ & (e & He & Hr) & _); [done|].
  destruct (I1 k e He) as [Hh [Q1 Q2 Q3 Q4]]. unfold remove_request. rewrite He.
  set (q := List.filter _ _). pose proof (insert_same_holders _ _ _ q He) as SH.
  assert (Hq : forall r, r ∈ q <-> r ∈ wait_queue e /\ ticket r <> tk).
  { intros r. unfold q. rewrite !list_elem_of_In, filter_In, negb_true_iff, Z.eqb_neq. done. }
  assert (Hother : forall k' e1 r, lock_table s !! k' = Some e1 -> r ∈ wait_queue e1 -> ticket r <> tk -> req_txn r <> t).
  { intros k' e1 r He1 Hr1 Hn E. destruct (I2 _ _ _ He1 Hr1) as [Hwr _]. rewrite E in Hwr. congruence. }
  rewrite (drop_if_empty_spec _ _ (mkEntry (granted_mode e) (holders e) q)) by apply lookup_insert_eq.
  unfold entry_is_empty. cbn [holders]. rewrite bool_decide_eq_false_2 by done. cbn [andb].
  split; cbn [with_table set_entry lock_table granted_flags next_ticket txn_locks].
  - intros k' e1 He1. destruct (decide (k' = k)) as [->|Hk]; [|rewrite lookup_insert_ne in He1 by done; by apply (I1 k')].
    rewrite lookup_insert_eq in He1. injection He1 as <-. split; [done|]. cbn. split; try done.
    + clear -Q3. unfold q. induction (wait_queue e) as [|a l IH]; [done|]. cbn [map List.filter] in *.
      apply NoDup_cons in Q3 as [Hni Q3]. destruct (negb _); [|by apply IH]. cbn [map]. apply NoDup_cons. split; [|by apply IH].
      intros (r & E & Hr)%list_elem_of_fmap. apply Hni. rewrite E. apply list_elem_of_fmap. exists r. split; [done|].
      apply list_elem_of_In, filter_In in Hr as [Hr _]. by apply list_elem_of_In.
    + intros r [Hr1 _]%Hq. by apply Q4.
  - intros k' e1 r He1 Hr1. destruct (decide (k' = k)) as [->|Hk].
    + rewrite lookup_insert_eq in He1. injection He1 as <-. cbn in Hr1. apply Hq in Hr1 as [Hr1 Hn].
      rewrite lookup_delete_ne; [by apply (I2 k e)|]. intros E. by apply (Hother k e r).
    + rewrite lookup_insert_ne in He1 by done. destruct (I2 _ _ _ He1 Hr1) as [Hwr Hf]. split; [|done].
      rewrite lookup_delete_ne; [done|]. intros E. rewrite <- E, Hwt in Hwr. congruence.
  - intros t' k' m' tk' [Hne Hwt']%lookup_delete_Some. destruct (I3 _ _ _ _ Hwt') as (A & B & C). split; [done|].
    split; [|intros Hf; by apply SH, C]. intros (e0 & He0 & Hr0)%B. destruct (decide (k' = k)) as [->|Hk].
    + eexists. rewrite lookup_insert_eq. split; [done|]. rewrite He in He0. injection He0 as <-. apply Hq. split; [done|].
      cbn. intros ->. by apply Hne, (I4 t t' _ _ _ _ _ Hwt Hwt').
    + exists e0. by rewrite lookup_insert_ne.
  - intros t1 t2 k1 k2 m1 m2 tk' [_ H1]%lookup_delete_Some [_ H2]%lookup_delete_Some. by eapply I4.
  - done.
  - intros t' k' m' Hh'. by apply SH, I6.
  - intros t' k' Hh'%SH. destruct (I7 _ _ Hh') as [?|(m' & tk' & Hwt' & Hf)]; [by left|]. right. exists m', tk'.
    split; [|done]. rewrite lookup_delete_ne; [done|]. intros <-. congruence.
  - intros t' k'. rewrite I8. by rewrite (SH t' k' Shared).
Qed.

(** What holds after [acquire] answered [r]. *)
Definition acquired_inv W H t0 t k m (s' : LockState) (r : Acquire) : Prop :=
  match r with
  | Acquired => lock_inv W (take_lock t k m H) t0 ∅ s'
  | Blocked tk => lock_inv (<[t := (k, m, tk)]> W) H t0 ∅ s'
  | Failed _ => lock_inv W H t0 ∅ s'
  end.

Lemma try_grant_fresh W H t0 s t k m :
  lock_inv W H t0 ∅ s -> lock_table s !! k = None ->
  exists s', try_grant_immediate (set_entry s k new_entry) k t m = Ok (Granted, s') /\
    lock_inv W (take_lock t k m H) t0 ∅ s'.
Proof.
  intros I Hn. unfold try_grant_immediate.
  assert (L : lock_table (set_entry s k new_entry) !! k = Some new_entry) by apply lookup_insert_eq.
  rewrite L. cbn [unwrap mbind outcome_bind new_entry holders].
  rewrite bool_decide_eq_true_2 by done. eexists. split; [done|].
  eapply (granted_inv W H t0 s _ t k m (mkEntry (Some m) ({[t]} ∪ ∅) [])); try done.
  - cbn. by rewrite insert_insert_eq.
  - intros t' k'. cbn. destruct (decide (t' = t)) as [->|Hne].
    + rewrite lookup_insert_eq. cbn. set_solver.
    + rewrite lookup_insert_ne by done. tauto.
  - split; cbn; [split; [done|set_solver]| |constructor|set_solver].
    intros _. rewrite union_empty_r_L. apply size_singleton.
  - cbn. set_solver.
  - cbn. by intros ->.
  - rewrite Hn. cbn. set_solver.
Qed.

Lemma try_grant_ok W H t0 s t k m e :
  lock_inv W H t0 ∅ s -> W !! t = None -> lock_table s !! k = Some e ->
  exists g s', try_grant_immediate s k t m = Ok (g, s') /\
    match g with
    | MustWait => s' = s /\ (t ∈ holders e -> m = Exclusive /\ granted_mode e = Some Shared)
    | _ => lock_inv W (take_lock t k m H) t0 ∅ s'
    end.
Proof.
  intros I Hw He. destruct (i_entry _ _ _ _ _ I k e He) as [Hh Q]. pose proof Q as [Q1 Q2 Q3 Q4].
  assert (Hidx : t ∈ holders e -> k ∈ default ∅ (txn_locks s !! t)).
  { intros Hin. apply (i_index _ _ _ _ _ I). split; [by exists e|]. intros [_ Hk]. by apply not_elem_of_empty in Hk. }
  destruct (granted_mode e) as [cur|] eqn:Hc; [|by destruct Hh; apply Q1].
  unfold try_grant_immediate. rewrite He. cbn [unwrap mbind outcome_bind].
  rewrite (bool_decide_eq_false_2 (holders e = ∅)) by done. rewrite Hc. cbn [unwrap mbind outcome_bind].
  case_bool_decide as Hin.
  - assert (Same : (m = Exclusive -> cur = Exclusive) -> lock_inv W (take_lock t k m H) t0 ∅ s).
    { intros Hm. eapply (granted_inv W H t0 s s t k m e); try done.
      - by rewrite insert_id.
      - intros t' k'. specialize (Hidx Hin). split; [auto|]. by intros [?|[-> ->]].
      - by rewrite Hc.
      - intros Hx. by rewrite Hc, Hm.
      - rewrite He. split; [done|]. split; [set_solver|done]. }
    destruct cur, m; try (eexists _, s; split; [done|]; by apply Same).
    destruct (decide (size (holders e) = 1%nat)) as [Hsz|Hsz];
      [rewrite (bool_decide_eq_true_2 _ Hsz)|rewrite (bool_decide_eq_false_2 _ Hsz); by exists MustWait, s].
    do 2 eexists. split; [done|].
    eapply (granted_inv W H t0 s _ t k Exclusive (mkEntry (Some Exclusive) (holders e) (wait_queue e))); try done.
    + intros t' k'. cbn. specialize (Hidx Hin). split; [auto|]. by intros [?|[-> ->]].
    + split; cbn; try done. intros r Hr Hrin. exfalso. destruct (i_queue _ _ _ _ _ I k e r He Hr) as [Hwr _].
      rewrite (size_one_eq _ (req_txn r) t Hsz Hrin Hin) in Hwr. congruence.
    + rewrite He. cbn. split; [done|]. split; [set_solver|done].
  - case_bool_decide as Hq; [|by exists MustWait, s]. apply nil_length_inv in Hq.
    destruct (is_compatible m cur) eqn:Hcomp; [|by exists MustWait, s].
    assert (m = Shared /\ cur = Shared) as [-> ->] by by destruct m, cur.
    do 2 eexists. split; [done|].
    eapply (granted_inv W H t0 s _ t k Shared (mkEntry (Some Shared) ({[t]} ∪ holders e) (wait_queue e))); try done.
    + intros t' k'. cbn. destruct (decide (t' = t)) as [->|Hne].
      * rewrite lookup_insert_eq. cbn. set_solver.
      * rewrite lookup_insert_ne by done. tauto.
    + rewrite Hq. split; cbn; [split; [done|set_solver]|done|constructor|set_solver].
    + cbn. set_solver.
    + rewrite He, Hc. done.
Qed.

(** *** The graph *)

Lemma add_edge_spec g a b x y : edge (add_edge g a b) x y -> edge g x y \/ y = b.
Proof.
  intros (ns & Hx & Hy). unfold add_edge in Hx. destruct (decide (x = a)) as [->|Hne].
  - rewrite lookup_insert_eq in Hx. injection Hx as <-.
    apply elem_of_union in Hy as [?%elem_of_singleton|Hy]; [by right|]. left.
    destruct (g !! a) as [ns|] eqn:Hg; [by exists ns|]. by apply not_elem_of_empty in Hy.
  - rewrite lookup_insert_ne in Hx by done. left. by exists ns.
Qed.

(** Every transaction that is waited for holds a lock. *)
Lemma graph_targets W H t0 s :
  lock_inv W H t0 ∅ s -> targets (build_wait_for_graph s) ⊆ dom (txn_locks s).
Proof.
  intros I. assert (A : forall l g, (forall e, e ∈ l -> holders e ⊆ dom (txn_locks s)) ->
    (forall x y, edge g x y -> y ∈ dom (txn_locks s)) ->
    forall x y, edge (fold_left entry_edges l g) x y -> y ∈ dom (txn_locks s)).
  { induction l as [|e l IH]; intros g Hl Hg; [done|]. cbn [fold_left]. apply IH; [intros; apply Hl; by right|].
    assert (He : holders e ⊆ dom (txn_locks s)) by (apply Hl; by left). clear IH Hl. unfold entry_edges.
    destruct (granted_mode e) as [mode|]; [|done]. revert g Hg. induction (wait_queue e) as [|r q IH]; intros g Hg; [done|].
    cbn [fold_left]. apply IH. unfold request_edges. destruct (is_compatible _ _); [done|].
    assert (Hin : forall h, h ∈ elements (holders e) -> h ∈ dom (txn_locks s)) by set_solver.
    clear IH. revert g Hg Hin. induction (elements (holders e)) as [|h hs IH]; intros g Hg Hin; [done|].
    cbn [fold_left]. apply IH; [|intros; apply Hin; by right]. destruct (h =? req_txn r); [done|].
    intros x y [?| ->]%add_edge_spec; [by eapply Hg|apply Hin; by left]. }
  intros y Hy. unfold targets in Hy. apply elem_of_union_list in Hy as (ns & Hns & Hy).
  apply list_elem_of_fmap in Hns as ([x ns'] & -> & Hx). apply elem_of_map_to_list in Hx. cbn in Hy.
  eapply (A _ ∅); [| |by exists ns'].
  - intros e ([k e'] & -> & He)%list_elem_of_fmap t Ht. apply elem_of_map_to_list in He. cbn in *.
    assert (Hk : k ∈ default ∅ (txn_locks s !! t)).
    { apply (i_index _ _ _ _ _ I). split; [by exists e'|]. by intros [_ ?%not_elem_of_empty]. }
    apply elem_of_dom. destruct (txn_locks s !! t); [done|]. by apply not_elem_of_empty in Hk.
  - intros a b (ns & Ha & _). by rewrite lookup_empty in Ha.
Qed.

Lemma acquire_cases W H t0 s t k m :
  lock_inv W H t0 ∅ s -> W !! t = None ->
  (exists s' r, acquire s t k m = Some (Ok (s', r)) /\ acquired_inv W H t0 t k m s' r) \/
  (exists s2 tk, lock_inv (<[t := (k, m, tk)]> W) H t0 ∅ s2 /\ tk ∉ granted_flags s2 /\ txn_locks s2 = txn_locks s /\
    acquire s t k m =
      match detect_cycle (build_wait_for_graph s2) t with
      | Some (Ok (Some cycle)) =>
          match choose_victim cycle with
          | Ok _ => Some (Ok (remove_request s2 k tk, Failed (Deadlock t)))
          | Err e => Some (Err e)
          | Panic => Some Panic
          end
      | Some (Ok None) => Some (Ok (s2, Blocked tk))
      | Some (Err e) => Some (Err e)
      | Some Panic => Some Panic
      | None => None
      end).
Proof.
  intros I Hw. unfold acquire. destruct (lock_table s !! k) as [e|] eqn:He.
  - rewrite (bool_decide_eq_true_2 (is_Some (Some e))) by done. cbn [negb andb]. cbv zeta.
    destruct (try_grant_ok _ _ _ _ _ _ m _ I Hw He) as ([| |] & s' & -> & Hg);
      [left; by exists s', Acquired|left; by exists s', Acquired|].
    destruct Hg as [-> Hup]. unfold push_request. rewrite He. cbn [unwrap mbind outcome_bind]. right.
    do 2 eexists. split; [by apply pushed_inv|]. split; [|split; done].
    cbn. intros Hf%(i_flags _ _ _ _ _ I). lia.
  - rewrite (bool_decide_eq_false_2 (is_Some None)) by (by intros []). cbn [negb andb]. left.
    destruct (MAX_LOCK_TABLE_ENTRIES <=? _); [by exists s, (Failed (StorageCorrupted "Lock table entry limit reached"))|].
    destruct (try_grant_fresh _ _ _ _ t _ m I He) as (s' & -> & Hg). by exists s', Acquired.
Qed.

Lemma acquire_inv W H t0 s t k m s' r :
  lock_inv W H t0 ∅ s -> W !! t = None -> acquire s t k m = Some (Ok (s', r)) -> acquired_inv W H t0 t k m s' r.
Proof.
  intros I Hw Ha. destruct (acquire_cases W H t0 s t k m I Hw) as [(s1 & r1 & E & Hi)|(s2 & tk & Hi & Hnf & _ & E)];
    rewrite E in Ha; [by injection Ha as -> ->|].
  destruct (detect_cycle _ _) as [[[cycle|]| |]|]; try done; [|by injection Ha as <- <-].
  destruct (choose_victim cycle); try done. injection Ha as <- <-. cbn.
  rewrite <- (delete_insert_id W t (k, m, tk)) by done. eapply unqueue_inv; [done|apply lookup_insert_eq|done].
Qed.

(** ** Theorems *)

Definition sys_inv (s : Sys) : Prop := lock_inv (waiting s) (held s) 0 ∅ (locks s).

Lemma init_inv : sys_inv lock_init.
Proof.
  assert (Hno : forall t k m, ~ has ∅ t k m) by (intros t k m (e & He & _); by rewrite lookup_empty in He).
  split; cbn.
  - intros k e He. by rewrite lookup_empty in He.
  - intros k e r He. by rewrite lookup_empty in He.
  - intros t k m tk Hw. by rewrite lookup_empty in Hw.
  - intros t1 t2 k1 k2 m1 m2 tk Hw. by rewrite lookup_empty in Hw.
  - intros tk Hf. by apply not_elem_of_empty in Hf.
  - intros t k m Hh. by rewrite lookup_empty in Hh.
  - intros t k Hh. by apply Hno in Hh.
  - intros t k. rewrite lookup_empty. cbn. split; [intros Hk; by apply not_elem_of_empty in Hk|]. intros [Hh _]. by apply Hno in Hh.
Qed.

Lemma step_inv s s' : lock_step s s' -> sys_inv s -> sys_inv s'.
Proof.
  intros Hst I. destruct Hst as [s t k m l Hw Ha|s t k m l tk Hw Ha|s t k m l er Hw Ha|s t k m tk ex l Hw Ht
    |s t k m tk ex l er Hw Ht|s t k l Hw Hr|s t l Hw Hr]; unfold sys_inv in *; cbn [locks waiting held].
  - exact (acquire_inv _ _ _ _ _ _ _ _ _ I Hw Ha).
  - exact (acquire_inv _ _ _ _ _ _ _ _ _ I Hw Ha).
  - exact (acquire_inv _ _ _ _ _ _ _ _ _ I Hw Ha).
  - unfold wait_turn in Ht. case_bool_decide as Hf; [injection Ht as <-|by destruct ex].
    destruct I as [I1 I2 I3 I4 I5 I6 I7 I8]. destruct (I3 _ _ _ _ Hw) as (_ & _ & Hh). specialize (Hh Hf). split; try done.
    + intros k' e r He Hr. destruct (I2 _ _ _ He Hr) as [Hwr Hnf]. split; [|done]. rewrite lookup_delete_ne; [done|].
      intros E. rewrite <- E, Hw in Hwr. congruence.
    + intros t' k' m' tk' [_ Hwt]%lookup_delete_Some. by apply I3.
    + intros t1 t2 k1 k2 m1 m2 tk' [_ H1]%lookup_delete_Some [_ H2]%lookup_delete_Some. by eapply I4.
    + intros t' k' m' [(-> & -> & Hx)|Hm]%take_lock_lookup; [|by apply I6]. destruct Hh as (e & He & Hin & Hmx).
      exists e. split; [done|]. split; [done|]. intros [Hmm|Hhx]%Hx; [by apply Hmx|].
      destruct (I6 _ _ _ Hhx) as (e2 & He2 & _ & Hx2). rewrite He in He2. injection He2 as <-. by apply Hx2.
    + intros t' k' Ho. unfold take_lock. destruct (decide ((t, k) = (t', k'))) as [[= <- <-]|Hne].
      * left. by rewrite lookup_insert_eq.
      * rewrite lookup_insert_ne by done. destruct (I7 _ _ Ho) as [?|(m' & tk' & Hwt & Hft)]; [by left|].
        right. exists m', tk'. split; [|done]. rewrite lookup_delete_ne; [done|]. intros <-. congruence.
  - unfold wait_turn in Ht. case_bool_decide as Hf; [done|]. destruct ex; [|done]. injection Ht as <- _.
    by eapply unqueue_inv.
  - destruct (release_ok _ _ _ _ _ k I Hw) as (s' & Hr' & I'). rewrite Hr in Hr'. injection Hr' as ->.
    by eapply inv_any.
  - destruct (release_all_ok _ _ _ _ _ I Hw) as (s' & Hr' & I'). rewrite Hr in Hr'. injection Hr' as ->.
    by eapply inv_any.
Qed.

Lemma reachable_inv s : rtc lock_step lock_init s -> sys_inv s.
Proof.
  pose proof init_inv as Hi. revert Hi. generalize lock_init as s0. intros s0 Hi Hr.
  induction Hr as [|x y z Hxy _ IH]; [done|]. apply IH. by eapply step_inv.
Qed.

Lemma held_exclusive s t1 t2 k m :
  sys_inv s -> held s !! (t1, k) = Some Exclusive -> held s !! (t2, k) = Some m -> t1 = t2.
Proof.
  intros I H1 H2. destruct (i_held _ _ _ _ _ I _ _ _ H1) as (e & He & Hin1 & Hx).
  destruct (i_held _ _ _ _ _ I _ _ _ H2) as (e2 & He2 & Hin2 & _). rewrite He in He2. injection He2 as <-.
  destruct (i_entry _ _ _ _ _ I k e He) as [_ Q]. by apply (size_one_eq _ _ _ (q_alone _ _ _ Q (Hx eq_refl))).
Qed.

(** C14. Mutual exclusion: through every interleaving of acquires, waits,
    timeouts and releases, a key granted exclusively to one transaction is
    granted to no other. *)
Theorem lock_exclusion s t1 t2 k m :
  rtc lock_step lock_init s ->
  held s !! (t1, k) = Some Exclusive -> held s !! (t2, k) = Some m -> t1 = t2.
Proof. intros I%reachable_inv. by apply held_exclusive. Qed.

(** C15. The lock table is exact: a transaction's index lists the keys granted
    to it and not released, every blocked request is queued on its key, and a
    key with waiters has a holder. *)
Theorem lock_table_exact s :
  rtc lock_step lock_init s ->
  (forall t k, k ∈ held_by (locks s) t <->
     is_Some (held s !! (t, k)) \/
     exists m tk, waiting s !! t = Some (k, m, tk) /\ tk ∈ granted_flags (locks s)) /\
  (forall t k m tk, waiting s !! t = Some (k, m, tk) -> tk ∉ granted_flags (locks s) ->
     exists e, lock_table (locks s) !! k = Some e /\ mkRequest t m tk ∈ wait_queue e /\ holders e <> ∅).
Proof.
  intros I%reachable_inv. split.
  - intros t k. unfold held_by. rewrite (merge_sort_Permutation ble), elem_of_elements, (i_index _ _ _ _ _ I). split.
    + intros [Hh _]. by apply (i_owner _ _ _ _ _ I).
    + intros Ho. split; [|by intros [_ ?%not_elem_of_empty]]. destruct Ho as [[m Hm]|(m & tk & Hw & Hf)].
      * destruct (i_held _ _ _ _ _ I _ _ _ Hm) as (e & He & Hin & _). by exists e.
      * destruct (i_wait _ _ _ _ _ I _ _ _ _ Hw) as (_ & _ & Hh). destruct (Hh Hf) as (e & He & Hin & _). by exists e.
  - intros t k m tk Hw Hf. destruct (i_wait _ _ _ _ _ I _ _ _ _ Hw) as (_ & Hq & _). destruct (Hq Hf) as (e & He & Hr).
    exists e. split; [done|]. split; [done|]. by apply (i_entry _ _ _ _ _ I k).
Qed.

(** C16. No call panics or hangs: for a transaction that is not blocked, while
    at most 65536 transactions hold locks, [acquire] answers, and both
    releases return; after [release_all] no key lists the transaction. *)
Theorem lock_calls_return s t k m :
  rtc lock_step lock_init s -> waiting s !! t = None ->
  Z.of_nat (size (dom (txn_locks (locks s)))) <= MAX_BFS_ITERATIONS ->
  (exists l r, acquire (locks s) t k m = Some (Ok (l, r))) /\
  (exists l, release (locks s) t k = Ok l) /\
  (exists l, release_all (locks s) t = Ok l /\ held_by l t = [] /\
     forall k' e, lock_table l !! k' = Some e -> t ∉ holders e).
Proof.
  intros I%reachable_inv Hw Hsz. split; [|split].
  - destruct (acquire_cases _ _ _ _ t k m I Hw) as [(s' & r & E & _)|(s2 & tk & I2 & _ & Htl & E)]; [by exists s', r|].
    rewrite E. pose proof (graph_targets _ _ _ _ I2) as Hg. rewrite Htl in Hg. apply subseteq_size in Hg.
    destruct (detect_cycle_search (build_wait_for_graph s2) t) as ([cycle|] & -> & Hc); [lia| |by do 2 eexists].
    destruct Hc as [Hc _]. destruct cycle; [done|]. by do 2 eexists.
  - destruct (release_ok _ _ _ _ _ k I Hw) as (l & -> & _). by exists l.
  - destruct (release_all_ok _ _ _ _ _ I Hw) as (l & -> & I2). exists l. split; [done|].
    assert (Hno : forall k', ~ has (lock_table l) t k' Shared).
    { intros k' Hh. destruct (i_owner _ _ _ _ _ I2 _ _ Hh) as [[x Hx]|(m' & tk & Hwt & _)]; [|congruence].
      apply map_lookup_filter_Some in Hx as [_ Hx]. by cbn in Hx. }
    split; [|intros k' e He Hin; apply (Hno k'); by exists e].
    unfold held_by. destruct (merge_sort ble _) as [|k' l'] eqn:E; [done|]. exfalso. apply (Hno k').
    apply (i_index _ _ _ _ _ I2). apply elem_of_elements. rewrite <- (merge_sort_Permutation ble), E. by left.
Qed.

(** *** Concrete runs *)

Inductive action :=
| DoAcquire (t : Z) (k : bytes) (m : LockMode)
| DoTurn (t : Z) (expired : bool)
| DoReleaseAll (t : Z).

Definition perform (s : Sys) (a : action) : option Sys :=
  match a with
  | DoAcquire t k m =>
      match waiting s !! t, acquire (locks s) t k m with
      | None, Some (Ok (l, Acquired)) => Some (mkSys l (waiting s) (take_lock t k m (held s)))
      | None, Some (Ok (l, Blocked tk)) => Some (mkSys l (<[t := (k, m, tk)]> (waiting s)) (held s))
      | None, Some (Ok (l, Failed _)) => Some (mkSys l (waiting s) (held s))
      | _, _ => None
      end
  | DoTurn t expired =>
      match waiting s !! t with
      | Some (k, m, tk) =>
          match wait_turn (locks s) k tk expired with
          | (l, Acquired) => Some (mkSys l (delete t (waiting s)) (take_lock t k m (held s)))
          | (l, Failed _) => Some (mkSys l (delete t (waiting s)) (held s))
          | (_, Blocked _) => Some s
          end
      | None => None
      end
  | DoReleaseAll t =>
      match waiting s !! t, release_all (locks s) t with
      | None, Ok l => Some (mkSys l (waiting s) (drop_locks t (held s)))
      | _, _ => None
      end
  end.

Fixpoint perform_all (s : Sys) (l : list action) : option Sys :=
  match l with [] => Some s | a :: l => match perform s a with Some s' => perform_all s' l | None => None end end.

Lemma perform_step s a s' : perform s a = Some s' -> rtc lock_step s s'.
Proof.
  destruct a as [t k m|t ex|t]; cbn [perform].
  - destruct (waiting s !! t) eqn:Hw; [done|]. destruct (acquire _ _ _ _) as [[[l [|tk|er]]| |]|] eqn:Ha; try done;
      intros [= <-]; apply rtc_once; by econstructor.
  - destruct (waiting s !! t) as [[[k m] tk]|] eqn:Hw; [|done]. destruct (wait_turn _ _ _ _) as [l [|tk'|er]] eqn:Ht;
      intros [= <-]; [|done|]; apply rtc_once; by econstructor.
  - destruct (waiting s !! t) eqn:Hw; [done|]. destruct (release_all _ _) eqn:Hr; try done.
    intros [= <-]. apply rtc_once. by econstructor.
Qed.

Lemma perform_all_steps s l s' : perform_all s l = Some s' -> rtc lock_step s s'.
Proof.
  revert s. induction l as [|a l IH]; intros s; cbn [perform_all]; [by intros [= <-]|].
  destruct (perform s a) eqn:Hp; [|done]. intros Hl. etrans; [by eapply perform_step|by apply IH].
Qed.

Definition run (l : list action) : Sys := default lock_init (perform_all lock_init l).

(** Two readers of [a], a writer of [a] behind them, and a lock on [b]. *)
Definition key_a : bytes := [Byte.x61].
Definition key_b : bytes := [Byte.x62].
Definition sample_run : list action :=
  [DoAcquire 1 key_a Shared; DoAcquire 3 key_b Exclusive; DoAcquire 2 key_a Exclusive].

Lemma sample_reachable : rtc lock_step lock_init (run sample_run).
Proof. apply (perform_all_steps _ sample_run). vm_compute. reflexivity. Qed.

Lemma lock_exclusion_witness :
  held (run sample_run) !! (3, key_b) = Some Exclusive /\ 3 = 3.
Proof.
  split; [vm_compute; reflexivity|].
  apply (lock_exclusion (run sample_run) 3 3 key_b Exclusive sample_reachable); vm_compute; reflexivity.
Defined.

Lemma lock_table_exact_witness :
  let s := run sample_run in
  (forall t k, k ∈ held_by (locks s) t <->
     is_Some (held s !! (t, k)) \/
     exists m tk, waiting s !! t = Some (k, m, tk) /\ tk ∈ granted_flags (locks s)) /\
  (forall t k m tk, waiting s !! t = Some (k, m, tk) -> tk ∉ granted_flags (locks s) ->
     exists e, lock_table (locks s) !! k = Some e /\ mkRequest t m tk ∈ wait_queue e /\ holders e <> ∅).
Proof. exact (lock_table_exact (run sample_run) sample_reachable). Defined.

Lemma lock_calls_return_witness :
  let s := run sample_run in
  (exists l r, acquire (locks s) 3 key_a Shared = Some (Ok (l, r))) /\
  (exists l, release (locks s) 3 key_a = Ok l) /\
  (exists l, release_all (locks s) 3 = Ok l /\ held_by l 3 = [] /\
     forall k' e, lock_table l !! k' = Some e -> 3 ∉ holders e).
Proof.
  apply (lock_calls_return (run sample_run) 3 key_a Shared sample_reachable); vm_compute; [reflexivity|congruence].
Defined.

Definition knot : Sys := run (sample_run ++ [DoAcquire 3 key_a Shared; DoAcquire 1 key_b Exclusive]).

(** The search does not follow the queue order: a reader queued behind a
    writer waits for that writer, but has no edge.  Here transaction 1 waits
    for 3, 3 for 2 and 2 for 1, all blocked until one times out, and no search
    finds a cycle. *)
Theorem queue_deadlock_missed :
  rtc lock_step lock_init knot /\
  waiting knot !! 1 = Some (key_b, Exclusive, 2) /\ waiting knot !! 2 = Some (key_a, Exclusive, 0) /\
  waiting knot !! 3 = Some (key_a, Shared, 1) /\ granted_flags (locks knot) = ∅ /\
  lock_table (locks knot) !! key_a =
    Some (mkEntry (Some Shared) {[1]} [mkRequest 2 Exclusive 0; mkRequest 3 Shared 1]) /\
  lock_table (locks knot) !! key_b = Some (mkEntry (Some Exclusive) {[3]} [mkRequest 1 Exclusive 2]) /\
  Forall (fun t => detect_cycle (build_wait_for_graph (locks knot)) t = Some (Ok None)) [1; 2; 3].
Proof.
  split; [apply (perform_all_steps _ (sample_run ++ [DoAcquire 3 key_a Shared; DoAcquire 1 key_b Exclusive]));
    vm_compute; reflexivity|].
  repeat (split; [vm_compute; reflexivity|]). repeat constructor; vm_compute; reflexivity.
Qed.

(** A waiter's timeout does not look at the queue behind it: the reader 3
    stays queued although only a reader holds the key. *)
Lemma timeout_strands_reader :
  let s := run (sample_run ++ [DoAcquire 3 key_a Shared; DoTurn 2 true]) in
  lock_table (locks s) !! key_a = Some (mkEntry (Some Shared) {[1]} [mkRequest 3 Shared 1]) /\
  granted_flags (locks s) = ∅.
Proof. vm_compute. split; reflexivity. Qed.
