(* ===== verification/TxnManager.v ===== *)
(** Transactions: identifiers, timestamps and the transaction manager
    (crates/idb-txn/src/txn/mod.rs).

    Each method of the manager runs under its mutex, so it is one call on the
    manager's state. *)

From Stdlib Require Import ZArith Lia List Bool.
From S2P Require Import Prelude Common WalRecord Mvcc LockManager.
From stdpp Require Import base gmap list strings sets.
#[local] Open Scope Z_scope.

Definition AUTO_COMMIT : Z := 0.
Definition MAX_ACTIVE_TRANSACTIONS : Z := 65536.

Inductive TxnState := Active | Committed | Aborted.
Inductive TxnMode := ReadOnly | ReadWrite.

#[global] Instance TxnMode_eq_dec : EqDecision TxnMode.
Proof. solve_decision. Defined.

Record Transaction := mkTxn {
  txn_state : TxnState;
  txn_mode : TxnMode;
  start_lsn : Z;
  last_lsn_of : Z;
  begin_ts_of : Z;
  commit_ts_of : option Z;
  read_ts : Z
}.

Definition new_txn (mode : TxnMode) (start_lsn begin_ts snapshot_ts : Z) : Transaction :=
  mkTxn Active mode start_lsn start_lsn begin_ts None snapshot_ts.

Record TransactionManager := mkMgr {
  next_txn_id : Z;
  active_txns : gmap Z Transaction;
  lock_manager : LockState;
  next_ts : Z;
  committed_txns : gmap Z Z;
  uncommitted_txns : gset Z;
  aborted_txns : gset Z;
  checkpoint_ts : Z
}.

Definition with_active (a : gmap Z Transaction) (m : TransactionManager) : TransactionManager :=
  mkMgr (next_txn_id m) a (lock_manager m) (next_ts m) (committed_txns m) (uncommitted_txns m)
    (aborted_txns m) (checkpoint_ts m).
Definition with_locks (l : LockState) (m : TransactionManager) : TransactionManager :=
  mkMgr (next_txn_id m) (active_txns m) l (next_ts m) (committed_txns m) (uncommitted_txns m)
    (aborted_txns m) (checkpoint_ts m).
Definition with_next_ts (ts : Z) (m : TransactionManager) : TransactionManager :=
  mkMgr (next_txn_id m) (active_txns m) (lock_manager m) ts (committed_txns m) (uncommitted_txns m)
    (aborted_txns m) (checkpoint_ts m).
Definition with_next_id (id : Z) (m : TransactionManager) : TransactionManager :=
  mkMgr id (active_txns m) (lock_manager m) (next_ts m) (committed_txns m) (uncommitted_txns m)
    (aborted_txns m) (checkpoint_ts m).
Definition with_committed (c : gmap Z Z) (m : TransactionManager) : TransactionManager :=
  mkMgr (next_txn_id m) (active_txns m) (lock_manager m) (next_ts m) c (uncommitted_txns m)
    (aborted_txns m) (checkpoint_ts m).
Definition with_uncommitted (u : gset Z) (m : TransactionManager) : TransactionManager :=
  mkMgr (next_txn_id m) (active_txns m) (lock_manager m) (next_ts m) (committed_txns m) u
    (aborted_txns m) (checkpoint_ts m).
Definition with_aborted (a : gset Z) (m : TransactionManager) : TransactionManager :=
  mkMgr (next_txn_id m) (active_txns m) (lock_manager m) (next_ts m) (committed_txns m)
    (uncommitted_txns m) a (checkpoint_ts m).
Definition set_checkpoint_ts (ts : Z) (m : TransactionManager) : TransactionManager :=
  mkMgr (next_txn_id m) (active_txns m) (lock_manager m) (next_ts m) (committed_txns m)
    (uncommitted_txns m) (aborted_txns m) ts.

(** [TransactionManager::new]; the oracle starts at 1. *)
Definition new_manager : TransactionManager := mkMgr 1 ∅ new_locks 1 ∅ ∅ ∅ 0.

Abbreviation MM := (M TransactionManager).

(** [TimestampOracle::next] *)
Definition oracle_next : MM Z := fun m =>
  (if next_ts m <? U64_MAX then Ok (next_ts m) else Panic,
   with_next_ts (as_unsigned 64 (next_ts m + 1)) m).

(** [TimestampOracle::peek] *)
Definition ts_oracle_peek (m : TransactionManager) : Z := next_ts m.

(** [active.get(&txn_id).ok_or(TxnNotActive)] *)
Definition lookup_active (txn : Z) : MM Transaction := fun m =>
  (ok_or (active_txns m !! txn) (TxnNotActive txn), m).

Definition begin (mode : TxnMode) (start_lsn : Z) : MM Z :=
  n ← gets (fun m => Z.of_nat (size (active_txns m)));
  if MAX_ACTIVE_TRANSACTIONS <=? n then pure (Err (TxnLimit MAX_ACTIVE_TRANSACTIONS)) else
  id ← gets next_txn_id;
  modify (fun m => with_next_id (as_unsigned 64 (next_txn_id m + 1)) m);;
  begin_ts ← oracle_next;
  modify (fun m => with_active (<[id := new_txn mode start_lsn begin_ts begin_ts]> (active_txns m)) m);;
  mret id.

Definition commit (txn : Z) : MM unit :=
  lookup_active txn;;
  modify (fun m => with_active (delete txn (active_txns m)) m).

Definition abort (txn : Z) : MM unit :=
  lookup_active txn;;
  modify (fun m => with_aborted ({[txn]} ∪ aborted_txns m) m);;
  modify (fun m => with_active (delete txn (active_txns m)) m).

Definition update_last_lsn (txn lsn : Z) : MM unit :=
  t ← lookup_active txn;
  modify (fun m => with_active (<[txn := mkTxn (txn_state t) (txn_mode t) (start_lsn t) lsn
    (begin_ts_of t) (commit_ts_of t) (read_ts t)]> (active_txns m)) m).

Definition last_lsn (txn : Z) : MM Z := t ← lookup_active txn; mret (last_lsn_of t).
Definition mode (txn : Z) : MM TxnMode := t ← lookup_active txn; mret (txn_mode t).
Definition snapshot (txn : Z) : MM Z := t ← lookup_active txn; mret (read_ts t).
Definition begin_ts (txn : Z) : MM Z := t ← lookup_active txn; mret (begin_ts_of t).

Definition active_txn_ids (m : TransactionManager) : list Z := map fst (map_to_list (active_txns m)).
Definition active_read_timestamps (m : TransactionManager) : list Z :=
  map (fun x => begin_ts_of x.2) (map_to_list (active_txns m)).

Definition prune_committed_below (bound : Z) : MM Z := fun m =>
  let kept := filter (fun x => bound < x.2) (committed_txns m) in
  (Ok (Z.of_nat (size (committed_txns m)) - Z.of_nat (size kept)), with_committed kept m).

Definition known_not_committed (m : TransactionManager) : gset Z := uncommitted_txns m ∪ aborted_txns m.

Definition remove_aborted_txns (ids : gset Z) : MM unit :=
  modify (fun m => with_aborted (aborted_txns m ∖ ids) m).

Definition load_uncommitted_txns (txns : gset Z) : MM unit := modify (with_uncommitted txns).

Definition advance_next_txn_id_past (max_seen : Z) : MM unit :=
  past ← pure (@arith Error in_u64 (max_seen + 1));
  modify (fun m => with_next_id (Z.max (next_txn_id m) past) m).

Definition assign_commit_ts (txn : Z) : MM Z :=
  t ← lookup_active txn;
  commit_ts ← oracle_next;
  modify (fun m => with_active (<[txn := mkTxn (txn_state t) (txn_mode t) (start_lsn t) (last_lsn_of t)
    (begin_ts_of t) (Some commit_ts) (read_ts t)]> (active_txns m)) m);;
  modify (fun m => with_committed (<[txn := commit_ts]> (committed_txns m)) m);;
  mret commit_ts.

(** [while self.ts_oracle.peek() <= ts { self.ts_oracle.next(); }]; each turn
    raises the oracle, so the distance is fuel enough. *)
Fixpoint oracle_loop (fuel : nat) (ts : Z) : MM unit := fun m =>
  if next_ts m <=? ts then
    match fuel with
    | O => (Ok tt, m)
    | S fuel => (oracle_next;; oracle_loop fuel ts) m
    end
  else (Ok tt, m).

Definition advance_oracle_past (ts : Z) : MM unit := fun m => oracle_loop (Z.to_nat (ts + 1 - next_ts m)) ts m.

Definition load_committed_txns (recovered : gmap Z Z) : MM unit :=
  let max_ts := map_fold (fun _ ts acc => if acc <? ts then ts else acc) 0 recovered in
  let max_id := map_fold (fun id _ acc => if acc <? id then id else acc) 0 recovered in
  modify (with_committed recovered);;
  advance_oracle_past max_ts;;
  past ← pure (@arith Error in_u64 (max_id + 1));
  modify (fun m => with_next_id (Z.max (next_txn_id m) past) m);;
  modify (set_checkpoint_ts max_ts).
