(* ===== verification/Isolation.v ===== *)
(** Isolation levels (crates/idb-txn/src/txn/isolation/): the read view, the
    visibility rule, the write check and the commit step of a protocol, as a
    record of operations with its two instances. *)

From Stdlib Require Import ZArith Lia List Bool.
From S2P Require Import Prelude Common WalRecord Mvcc LockManager TxnManager.
From stdpp Require Import base gmap list strings sets.
#[local] Open Scope Z_scope.

Record VersionRef := mkRef { ref_txn : Z; ref_ts : Z }.

Record VisibilityView := mkView {
  view_committed : gmap Z Z;
  view_known : gset Z;
  view_checkpoint : Z
}.

Record IsolationPolicy := mkPolicy {
  read_view : Z -> MM Z;
  policy_visible : VersionRef -> Z -> Z -> VisibilityView -> bool;
  on_write : Z -> list VersionRef -> Z -> VisibilityView -> result unit;
  validate_commit : Z -> MM Z
}.

(** The latest committed state: the later of the oracle and the checkpoint. *)
Definition latest_view : MM Z :=
  oracle_ts ← gets ts_oracle_peek;
  ckpt_ts ← gets checkpoint_ts;
  mret (if oracle_ts <? ckpt_ts then ckpt_ts else oracle_ts).

Definition visible_under (version : VersionRef) (snapshot_ts txn : Z) (view : VisibilityView) : bool :=
  is_visible (ref_txn version) (ref_ts version) txn snapshot_ts (view_committed view)
    (view_checkpoint view) (view_known view).

(** First committer wins. *)
Fixpoint si_on_write (txn : Z) (versions : list VersionRef) (begin_ts : Z) (view : VisibilityView) : result unit :=
  match versions with
  | [] => Ok tt
  | v :: rest =>
      match view_committed view !! ref_txn v with
      | Some commit_ts =>
          if begin_ts <? commit_ts then Err (WriteConflict (ref_txn v)) else si_on_write txn rest begin_ts view
      | None => si_on_write txn rest begin_ts view
      end
  end.

Definition si_read_view (txn : Z) : MM Z :=
  if txn =? AUTO_COMMIT then latest_view else snapshot txn.

Definition SnapshotIsolation : IsolationPolicy :=
  mkPolicy si_read_view visible_under si_on_write assign_commit_ts.

Definition ReadCommitted : IsolationPolicy :=
  mkPolicy (fun _ => latest_view) visible_under (fun _ _ _ _ => Ok tt) assign_commit_ts.
