(* ===== verification/TxnEngine.v ===== *)
(** One transaction's view of the storage engine
    (crates/idb-txn/src/txn/engine.rs), over any engine and isolation policy.

    The engine, the log and the transaction manager are shared by all handles;
    a call runs on the three of them. *)

From Stdlib Require Import ZArith Lia List Bool.
From S2P Require Import Prelude Common WalRecord Wal Engine Mvcc LockManager TxnManager Isolation.
From coqutil Require Import Byte.
From stdpp Require Import base gmap list strings sets.
#[local] Open Scope Z_scope.

Section txn_engine.
Context {E : Type} `{StorageEngine E} (crc32 : bytes -> Z) (policy : IsolationPolicy).

Record Store := mkStore {
  st_engine : E;
  st_wal : WalState;
  st_mgr : TransactionManager
}.

Abbreviation SM := (M Store).

Definition on_mgr {A} (c : MM A) : SM A :=
  zoom st_mgr (fun m s => mkStore (st_engine s) (st_wal s) m) c.
Definition on_wal {A} (c : M WalState A) : SM A :=
  zoom st_wal (fun w s => mkStore (st_engine s) w (st_mgr s)) c.

(** [Wal::append]: the LSN the record was given. *)
Definition wal_append (r : LogRecord) : M WalState Z := fun s =>
  match Wal.append crc32 (writer s) r with
  | Ok (l, _, w) => (Ok l, mkWal w (synced_lsn s) (leader s))
  | Err e => (Err e, s)
  | Panic => (Panic, s)
  end.

Definition put_raw (key value : bytes) : SM unit := fun s =>
  match engine_put (st_engine s) key value with
  | Ok e => (Ok tt, mkStore e (st_wal s) (st_mgr s))
  | Err e => (Err e, s)
  | Panic => (Panic, s)
  end.

(** The loop of [scan_versions]. *)
Fixpoint version_refs (user_key : bytes) (scan : list (result entry)) : result (list VersionRef) :=
  match scan with
  | [] => Ok []
  | item :: rest =>
      '(encoded_key, encoded_value) ← item;
      '(found_key, version_ts) ← decode_mvcc_key encoded_key;
      if negb (bool_decide (found_key = user_key)) then Ok [] else
      v ← decode_mvcc_value encoded_value;
      refs ← version_refs user_key rest;
      Ok (mkRef (version_txn v) version_ts :: refs)
  end.

Definition scan_versions (user_key : bytes) : SM (list VersionRef) := fun s =>
  (start ← encode_mvcc_key_start user_key;
   stop ← encode_mvcc_key_end user_key;
   version_refs user_key (scan_range (st_engine s) (Included start) (Included stop)), s).

Definition view_of (m : TransactionManager) : VisibilityView :=
  mkView (committed_txns m) (known_not_committed m) (checkpoint_ts m).

Definition check_write (txn : Z) (user_key : bytes) (begin_ts : Z) : SM unit :=
  versions ← scan_versions user_key;
  view ← on_mgr (gets view_of);
  pure (on_write policy txn versions begin_ts view).

(** [lock_for_write], until it returns or blocks. *)
Definition lock_for_write (txn : Z) (key : bytes) : SM (option Acquire) := fun s =>
  match acquire (lock_manager (st_mgr s)) txn key Exclusive with
  | Some (Ok (l, r)) => (Ok (Some r), mkStore (st_engine s) (st_wal s) (with_locks l (st_mgr s)))
  | Some (Err e) => (Err e, s)
  | Some Panic => (Panic, s)
  | None => (Ok None, s)
  end.

(** [get] *)
Definition txn_read (txn : Z) (key : bytes) : SM (option bytes) :=
  snapshot_ts ← on_mgr (read_view policy txn);
  view ← on_mgr (gets view_of);
  e ← gets st_engine;
  pure (mvcc_get e key (fun w ts => policy_visible policy (mkRef w ts) snapshot_ts txn view)).

(** The body [put] and [delete] share: they differ in the version written. *)
Definition write_version (txn : Z) (key : bytes) (v : MvccValue) : SM unit :=
  m ← on_mgr (mode txn);
  if bool_decide (m = ReadOnly) then pure (Err (TxnReadOnly txn)) else
  begin ← on_mgr (begin_ts txn);
  check_write txn key begin;;
  mvcc_key ← pure (encode_mvcc_key key begin);
  prev ← on_mgr (last_lsn txn);
  lsn ← on_wal (wal_append (WalRecord.txn_put txn prev mvcc_key (encode_mvcc_value v) None));
  on_mgr (update_last_lsn txn lsn);;
  put_raw mvcc_key (encode_mvcc_value v).

(** [put] *)
Definition txn_write (txn : Z) (key value : bytes) : SM unit := write_version txn key (MValue txn value).
(** [delete] *)
Definition txn_erase (txn : Z) (key : bytes) : SM unit := write_version txn key (MTombstone txn).

(** The user-key bounds of [scan_range]. *)
Definition scan_start (b : Bound) : bytes :=
  match b with Included k => k | Excluded k => k ++ [byte.of_Z 0] | Unbounded => [] end.
Definition scan_end (b : Bound) : bytes :=
  match b with Included k | Excluded k => k | Unbounded => replicate 32 (byte.of_Z 255) end.

(** [scan_range], its iterator collected. *)
Definition txn_scan (calls fuel : nat) (txn : Z) (lo hi : Bound) : SM (option (result (list entry))) :=
  snapshot_ts ← on_mgr (read_view policy txn);
  view ← on_mgr (gets view_of);
  e ← gets st_engine;
  mret (mvcc_scan calls fuel e (scan_start lo) (scan_end hi)
    (fun w ts => policy_visible policy (mkRef w ts) snapshot_ts txn view)).
End txn_engine.
