(* ===== verification/Gc.v ===== *)
(** Garbage collection of versions (crates/idb-txn/src/txn/gc.rs). *)

From Stdlib Require Import ZArith Lia List Bool.
From S2P Require Import Prelude Common WalRecord Engine Mvcc.
From coqutil Require Import Byte.
From stdpp Require Import base gmap list strings sets sorting.
#[local] Open Scope Z_scope.

Record GcStats := mkGc {
  versions_scanned : Z;
  versions_removed : Z;
  tombstones_removed : Z;
  keys_processed : Z
}.

Definition count_removed (v : MvccValue) (s : GcStats) : GcStats :=
  match v with
  | MTombstone _ => mkGc (versions_scanned s) (versions_removed s) (tombstones_removed s + 1) (keys_processed s)
  | MValue _ _ => mkGc (versions_scanned s) (versions_removed s + 1) (tombstones_removed s) (keys_processed s)
  end.

Definition is_committed (txn version_ts : Z) (committed : gmap Z Z) (checkpoint_ts : Z) (non_committed : gset Z) : bool :=
  negb (bool_decide (txn ∈ non_committed)) &&
  (bool_decide (is_Some (committed !! txn)) || (version_ts <=? checkpoint_ts)).

(** The scan over all entries: the keys to delete, newest first within a user
    key, and the counters. *)
Fixpoint gc_loop (low_water_mark : Z) (committed : gmap Z Z) (checkpoint_ts : Z) (non_committed : gset Z)
    (entries : list entry) (current_user_key : option bytes) (found_keeper : bool) (stats : GcStats) :
    result (list bytes * GcStats) :=
  let loop := gc_loop low_water_mark committed checkpoint_ts non_committed in
  match entries with
  | [] => Ok ([], stats)
  | (encoded_key, encoded_value) :: rest =>
      match decode_mvcc_key encoded_key with
      | Panic => Panic
      | Err _ => loop rest current_user_key found_keeper stats
      | Ok (user_key, version_ts) =>
          let fresh := negb (bool_decide (current_user_key = Some user_key)) in
          let found_keeper := if fresh then false else found_keeper in
          let stats := mkGc (versions_scanned stats + 1) (versions_removed stats) (tombstones_removed stats)
                         (if fresh then keys_processed stats + 1 else keys_processed stats) in
          if low_water_mark <=? version_ts then loop rest (Some user_key) found_keeper stats else
          match decode_mvcc_value encoded_value with
          | Panic => Panic
          | Err _ => loop rest (Some user_key) found_keeper stats
          | Ok v =>
              let remove (found_keeper : bool) :=
                '(keys, stats) ← loop rest (Some user_key) found_keeper (count_removed v stats);
                Ok (encoded_key :: keys, stats) in
              if negb (is_committed (version_txn v) version_ts committed checkpoint_ts non_committed)
              then remove found_keeper
              else if negb found_keeper then loop rest (Some user_key) true stats
              else remove found_keeper
          end
      end
  end.

Fixpoint delete_all {E} `{StorageEngine E} (e : E) (keys : list bytes) : result E :=
  match keys with
  | [] => Ok e
  | k :: rest => e' ← engine_delete e k; delete_all e' rest
  end.

Fixpoint keep_ok {A} (l : list (result A)) : list A :=
  match l with [] => [] | Ok a :: rest => a :: keep_ok rest | _ :: rest => keep_ok rest end.

Definition gc_collect {E} `{StorageEngine E} (engine : E) (low_water_mark : Z) (committed : gmap Z Z)
    (checkpoint_ts : Z) (non_committed : gset Z) : result (E * GcStats) :=
  let all_entries := keep_ok (scan_range engine Unbounded Unbounded) in
  '(keys, stats) ← gc_loop low_water_mark committed checkpoint_ts non_committed all_entries None false (mkGc 0 0 0 0);
  e ← delete_all engine keys;
  Ok (e, stats).

Lemma keep_ok_map {A} (l : list A) : keep_ok (map Ok l) = l.
Proof. induction l as [|a l IH]; cbn; [done|]. by rewrite IH. Qed.

Lemma scan_all {V} (l : list (bytes * V)) : kv_scan Unbounded Unbounded l = l.
Proof. induction l as [|a l IH]; [done|]. change (a :: kv_scan Unbounded Unbounded l = a :: l). by rewrite IH. Qed.

Lemma delete_all_ok {E} `{StorageEngine E} (e : E) keys :
  exists e', delete_all e keys = Ok e' /\
    entries e' = List.filter (fun x => negb (bool_decide (x.1 ∈ keys))) (entries e).
Proof.
  revert e; induction keys as [|k keys IH]; intros e; cbn [delete_all].
  { exists e. split; [done|]. induction (entries e) as [|a l IHl]; cbn; [done|]. by rewrite <- IHl. }
  destruct (engine_delete_spec e k) as (e1 & -> & E1). cbn [mbind outcome_bind].
  destruct (IH e1) as (e2 & E2 & H2). exists e2. split; [done|]. rewrite H2, E1. clear E1. unfold kv_delete.
  induction (entries e) as [|x l IHl]; [done|]. cbn [List.filter].
  destruct (decide (k = x.1)) as [->|Hn].
  - rewrite bool_decide_eq_true_2 by done. rewrite (bool_decide_eq_true_2 (x.1 ∈ x.1 :: keys)) by set_solver. exact IHl.
  - rewrite bool_decide_eq_false_2 by done. cbn [negb List.filter]. rewrite IHl.
    by rewrite (bool_decide_ext (x.1 ∈ k :: keys) (x.1 ∈ keys)) by set_solver.
Qed.

Lemma filter_map_stored (f : bytes -> bool) vs :
  List.filter (fun x => f x.1) (map stored vs) = map stored (List.filter (fun v => f (stored v).1) vs).
Proof. induction vs as [|v vs IH]; [done|]. cbn [map List.filter]. rewrite IH. by split_if. Qed.

Lemma version_lt_irrefl v : ~ version_lt v v.
Proof. unfold version_lt, version_cmp. by rewrite Z.compare_refl, bcmp_refl, Z.compare_refl. Qed.

Lemma stored_inj vs v u :
  StronglySorted version_lt vs -> Forall version_ok vs -> v ∈ vs -> u ∈ vs ->
  (stored v).1 = (stored u).1 -> v = u.
Proof.
  intros S Hok Hv Hu E. rewrite Forall_forall in Hok. destruct (Hok v Hv) as (K1 & T1 & _).
  destruct (Hok u Hu) as (K2 & T2 & _). cbn in E.
  pose proof (decode_mvcc_key_ok _ _ K1 T1) as D1. rewrite E, decode_mvcc_key_ok in D1 by done.
  injection D1 as Ek Et. clear Hok E. induction S as [|a l S IH F]; [by apply elem_of_nil in Hv|].
  rewrite Forall_forall in F. assert (N : forall x, x ∈ l -> vkey a = vkey x -> vts a = vts x -> False).
  { intros x Hx X1 X2. specialize (F x Hx). unfold version_lt in F. rewrite X1, X2 in F.
    by apply (version_lt_irrefl x). }
  apply elem_of_cons in Hv as [->|Hv], Hu as [->|Hu]; [done|exfalso; by eapply N|exfalso; by eapply N|by apply IH].
Qed.

(** ** What a collection removes *)

Section collection.
Context (wm : Z) (committed : gmap Z Z) (ckpt : Z) (known : gset Z).

Definition counts (v : version) : bool := is_committed (version_txn (vval v)) (vts v) committed ckpt known.

(** A committed version below the watermark. *)
Definition settled (v : version) : Prop := vts v < wm /\ counts v = true.

(** What the newest settled version of its key supersedes, and what is not
    committed, below the watermark. *)
Definition garbage (vs : list version) (v : version) : Prop :=
  vts v < wm /\
  (counts v = false \/ exists v', v' ∈ vs /\ vkey v' = vkey v /\ settled v' /\ vts v < vts v').

Lemma version_lt_same a b :
  version_lt a b -> vkey a = vkey b -> vts b < vts a.
Proof.
  unfold version_lt, version_cmp. intros L Hk. rewrite Hk, Z.compare_refl, bcmp_refl in L. cbn in L.
  by apply Z.compare_lt_iff.
Qed.

Lemma version_lt_between a b c :
  version_lt a b -> version_lt b c -> vkey a = vkey c -> vkey b = vkey a.
Proof.
  unfold version_lt, version_cmp. intros L1 L2 Hk. rewrite <- Hk in L2.
  destruct (Z.compare_spec (len (vkey a)) (len (vkey b))) as [E|E|E]; [|..];
    destruct (Z.compare_spec (len (vkey b)) (len (vkey a))) as [E'|E'|E']; try lia; cbn in *; try done.
  destruct (bcmp (vkey a) (vkey b)) eqn:C1; cbn in *; try done.
  - by apply bcmp_eq in C1.
  - destruct (bcmp (vkey b) (vkey a)) eqn:C2; cbn in *; try done.
    + by apply bcmp_eq in C2.
    + exfalso. apply (blt_irrefl (vkey a)). by apply (blt_trans _ (vkey b)).
Qed.

Lemma sorted_split (pre : list version) v rest :
  StronglySorted version_lt (pre ++ v :: rest) ->
  Forall (fun a => version_lt a v) pre /\ Forall (version_lt v) rest.
Proof.
  induction pre as [|a pre IH]; cbn; inversion 1 as [|? ? S F]; subst; [done|].
  destruct (IH S) as [F1 F2]. split; [|done]. constructor; [|done].
  rewrite Forall_forall in F. apply F. set_solver.
Qed.

(** Where the scan stands after [pre]. *)
Definition swept (pre : list version) (cur : option bytes) (found : bool) : Prop :=
  match last pre with
  | None => cur = None
  | Some l => cur = Some (vkey l) /\ (found = true <-> exists v, v ∈ pre /\ vkey v = vkey l /\ settled v)
  end.

Lemma swept_next pre cur found v rest :
  StronglySorted version_lt (pre ++ v :: rest) -> swept pre cur found ->
  (if negb (bool_decide (cur = Some (vkey v))) then false else found) = true <->
  exists v', v' ∈ pre /\ vkey v' = vkey v /\ settled v'.
Proof.
  intros S W. unfold swept in W. destruct (last pre) as [l|] eqn:L.
  - apply last_Some in L as [p ->]. destruct W as [-> W].
    destruct (decide (vkey l = vkey v)) as [E|E].
    + rewrite bool_decide_eq_true_2 by congruence. cbn. by rewrite <- E.
    + rewrite bool_decide_eq_false_2 by congruence. cbn. split; [done|]. intros (v' & Hin & Hk & _).
      apply sorted_split in S as S2. destruct S2 as [F _].
      apply elem_of_app in Hin as [Hin|Hin%list_elem_of_singleton]; [|congruence].
      rewrite <- app_assoc in S. cbn in S. apply sorted_split in S as [F1 _].
      rewrite Forall_forall in F1. rewrite Forall_app in F. destruct F as [_ F]. inversion F as [|? ? F2]; subst.
      destruct E. rewrite <- Hk. by apply (version_lt_between v' l v); [apply F1| |].
  - apply last_None in L as ->. subst cur. cbn. split; [done|]. intros (v' & Hin & _). set_solver.
Qed.

Lemma swept_snoc pre v (f g : bool) :
  (f = true <-> exists v', v' ∈ pre /\ vkey v' = vkey v /\ settled v') ->
  (g = true <-> f = true \/ settled v) -> swept (pre ++ [v]) (Some (vkey v)) g.
Proof.
  intros Hf Hg. unfold swept. rewrite last_snoc. split; [done|]. rewrite Hg, Hf. split.
  - intros [(v' & Hin & Hk & Hs)|Hs]; [exists v'|exists v]; rewrite elem_of_app; set_solver.
  - intros (v' & [Hin|Hin%list_elem_of_singleton]%elem_of_app & Hk & Hs); [left; eauto|right; congruence].
Qed.

Lemma garbage_iff pre v rest :
  StronglySorted version_lt (pre ++ v :: rest) ->
  garbage (pre ++ v :: rest) v <->
  vts v < wm /\ (counts v = false \/ exists v', v' ∈ pre /\ vkey v' = vkey v /\ settled v').
Proof.
  intros S. apply sorted_split in S as [F1 F2]. rewrite !Forall_forall in *. unfold garbage.
  split; intros [Hw [Hc|(v' & Hin & Hk & Hs)]]; split; auto; right; exists v'.
  - destruct Hs as [Hs Ht]. apply elem_of_app in Hin as [Hin|[->|Hin]%elem_of_cons]; [done|lia|].
    pose proof (version_lt_same _ _ (F2 _ Hin) (eq_sym Hk)). lia.
  - split; [rewrite elem_of_app; auto|]. split; [done|]. split; [done|].
    exact (version_lt_same _ _ (F1 _ Hin) Hk).
Qed.

(** The scan marks exactly the garbage. *)
Lemma gc_loop_ok vs pre cur found st :
  StronglySorted version_lt (pre ++ vs) -> Forall version_ok vs -> swept pre cur found ->
  exists rm st', gc_loop wm committed ckpt known (map stored vs) cur found st
      = Ok (map (fun v => (stored v).1) rm, st') /\
    forall v, v ∈ rm <-> v ∈ vs /\ garbage (pre ++ vs) v.
Proof.
  revert pre cur found st. induction vs as [|v vs IH]; intros pre cur found st S Hok W.
  { exists [], st. split; [done|]. set_solver. }
  inversion Hok as [|? ? Hv Hvs]; subst. destruct Hv as (Hk & Ht & Hval).
  pose proof (swept_next _ _ _ _ _ S W) as Hf. pose proof (garbage_iff _ _ _ S) as Hg.
  cbn [map gc_loop]. cbn [stored]. rewrite decode_mvcc_key_ok by done.
  set (f := if negb _ then false else found) in *. set (st1 := mkGc _ _ _ _).
  assert (App : pre ++ v :: vs = (pre ++ [v]) ++ vs) by by rewrite <- app_assoc.
  assert (Next : forall g s, (g = true <-> f = true \/ settled v) ->
    exists rm st', gc_loop wm committed ckpt known (map stored vs) (Some (vkey v)) g s
        = Ok (map (fun v => (stored v).1) rm, st') /\
      forall u, u ∈ rm <-> u ∈ vs /\ garbage (pre ++ v :: vs) u).
  { intros g s Hgg. rewrite App. apply IH; [by rewrite <- App|done|]. by apply (swept_snoc _ _ f). }
  assert (Skip : forall g s, (g = true <-> f = true \/ settled v) -> ~ garbage (pre ++ v :: vs) v ->
    exists rm st', gc_loop wm committed ckpt known (map stored vs) (Some (vkey v)) g s
        = Ok (map (fun v => (stored v).1) rm, st') /\
      forall u, u ∈ rm <-> u ∈ v :: vs /\ garbage (pre ++ v :: vs) u).
  { intros g s Hgg Hn. destruct (Next g s Hgg) as (rm & st' & E & M). exists rm, st'. split; [done|].
    intros u. rewrite M, elem_of_cons. split; [tauto|]. intros [[->|Hu] Hgu]; [by destruct Hn|done]. }
  assert (Drop : forall g, (g = true <-> f = true \/ settled v) -> garbage (pre ++ v :: vs) v ->
    exists rm st', ('(keys, stats) ← gc_loop wm committed ckpt known (map stored vs) (Some (vkey v)) g
        (count_removed (vval v) st1); Ok (mvcc_key (vkey v) (vts v) :: keys, stats))
        = Ok (map (fun v => (stored v).1) rm, st') /\
      forall u, u ∈ rm <-> u ∈ v :: vs /\ garbage (pre ++ v :: vs) u).
  { intros g Hgg Hgv. destruct (Next g (count_removed (vval v) st1) Hgg) as (rm & st' & E & M).
    exists (v :: rm), st'. rewrite E. split; [done|]. intros u. rewrite !elem_of_cons, M. split; [|tauto].
    intros [->|[? ?]]; auto. }
  destruct (Z.leb_spec wm (vts v)) as [Hw|Hw].
  { apply Skip; [unfold settled; split; [auto|]; intros [?|[? ?]]; [done|lia]|]. intros [? _]. lia. }
  rewrite decode_mvcc_value_ok by done. fold (counts v). unfold settled in Skip, Drop. destruct (counts v) eqn:Hc; cbn [negb].
  - destruct f eqn:Ef; cbn [negb].
    + apply Drop; [tauto|]. apply Hg. split; [done|]. right. by apply Hf.
    + apply Skip; [tauto|]. rewrite Hg. intros [_ [?|Hex]]; [done|]. by apply Hf in Hex.
  - apply Drop; [split; [auto|]; intros [?|[? ?]]; done|]. apply Hg. auto.
Qed.

Lemma gc_collect_ok {E} `{StorageEngine E} (e : E) vs :
  holds_versions e vs ->
  exists e' st p, gc_collect e wm committed ckpt known = Ok (e', st) /\
    holds_versions e' (List.filter p vs) /\ forall v, v ∈ vs -> p v = false <-> garbage vs v.
Proof.
  intros Hh. pose proof (sorted_versions _ _ Hh) as S. pose proof Hh as [He Hok].
  destruct (gc_loop_ok vs [] None false (mkGc 0 0 0 0) S Hok eq_refl) as (rm & st & L & M). cbn [app] in M.
  destruct (delete_all_ok e (map (fun v => (stored v).1) rm)) as (e' & D & De).
  set (p := fun v => negb (bool_decide ((stored v).1 ∈ map (fun v => (stored v).1) rm))).
  exists e', st, p. unfold gc_collect. rewrite scan_range_spec, keep_ok_map, scan_all, He, L.
  cbn [mbind outcome_bind]. rewrite D. split; [done|]. split; [split|].
  - rewrite De, He. exact (filter_map_stored (fun x => negb (bool_decide (x ∈ map (fun v => (stored v).1) rm))) vs).
  - rewrite Forall_forall in *. intros v Hv. apply list_elem_of_In, filter_In in Hv as [Hv _].
    by apply Hok, list_elem_of_In.
  - intros v Hv. unfold p. rewrite negb_false_iff, bool_decide_eq_true, list_elem_of_fmap. split.
    + intros (u & Eu & Hu). apply M in Hu as Hu'. destruct Hu' as [Hu' G].
      by rewrite (stored_inj vs v u) by done.
    + intros G. exists v. split; [done|]. by apply M.
Qed.
End collection.

Lemma find_filter_kept {A} (f p : A -> bool) l :
  (forall pre v post, l = pre ++ v :: post -> f v = true -> (forall u, u ∈ pre -> f u = false) -> p v = true) ->
  List.find f (List.filter p l) = List.find f l.
Proof.
  induction l as [|a l IH]; intros Hp; [done|]. cbn. destruct (f a) eqn:F.
  - rewrite (Hp [] a l) by (done || set_solver). cbn. by rewrite F.
  - rewrite <- IH.
    + split_if; cbn; by rewrite ?F.
    + intros pre v post -> Fv Fpre. apply (Hp (a :: pre) v post); [done|done|].
      intros u [->|Hu]%elem_of_cons; auto.
Qed.

Lemma visible_settled wm committed ckpt known me rts v :
  (forall c, committed !! version_txn (vval v) = Some c -> c <= wm /\ version_txn (vval v) ∉ known) ->
  (version_txn (vval v) = me -> wm <= vts v) -> wm <= rts -> vts v < wm ->
  is_visible (version_txn (vval v)) (vts v) me rts committed ckpt known = counts committed ckpt known v.
Proof.
  intros Hc Hme Hr Hw. unfold is_visible, counts, is_committed. split_if; [lia|].
  destruct (committed !! _) as [c|].
  - destruct (Hc c eq_refl) as [Hcw Hn]. rewrite !bool_decide_eq_false_2, bool_decide_eq_true_2 by eauto. cbn.
    by apply Z.leb_le; lia.
  - rewrite (bool_decide_eq_false_2 (is_Some None)) by by intros [? ?]. cbn.
    destruct (Z.leb_spec (vts v) ckpt); cbn; [|by rewrite andb_false_r].
    rewrite andb_true_r. destruct (bool_decide _); cbn; [done|]. apply Z.leb_le. lia.
Qed.

(** C29. Garbage collection ends with exactly the versions that are not garbage
    (of each key, below the watermark, only the newest committed version is
    left), and no reader at or above the watermark can tell: every point read
    returns what it returned before.  This needs that the writers of committed
    versions below the watermark committed by the watermark. *)
Theorem gc_keeps_reads {E} `{StorageEngine E} (e : E) vs wm committed ckpt known :
  holds_versions e vs ->
  (forall v c, v ∈ vs -> vts v < wm -> committed !! version_txn (vval v) = Some c ->
     c <= wm /\ version_txn (vval v) ∉ known) ->
  exists e' st vs', gc_collect e wm committed ckpt known = Ok (e', st) /\ holds_versions e' vs' /\
    (forall v, v ∈ vs' <-> v ∈ vs /\ ~ garbage wm committed ckpt known vs v) /\
    forall me read_ts k,
      wm <= read_ts -> (forall v, v ∈ vs -> version_txn (vval v) = me -> wm <= vts v) ->
      len k <= 2 ^ 32 - 1 ->
      let visible w ts := is_visible w ts me read_ts committed ckpt known in
      mvcc_get e' k visible = mvcc_get e k visible.
Proof.
  intros Hh Hc. destruct (gc_collect_ok wm committed ckpt known e vs Hh) as (e' & st & p & G & Hh' & Hp).
  exists e', st, (List.filter p vs). split; [done|]. split; [done|]. split.
  { intros v. rewrite !list_elem_of_In, filter_In, <- list_elem_of_In. split; intros [Hv Hx]; split; try done.
    - intros Hg. apply Hp in Hg; congruence.
    - apply not_false_is_true. by rewrite Hp. }
  intros me rts k Hr Hme Hk visible. rewrite !(mvcc_get_ok _ _ _ _) by done. f_equal.
  unfold read, newest. rewrite find_filter_kept; [done|]. intros pre v post Evs Fv Fpre.
  apply not_false_is_true. rewrite Hp by (rewrite Evs; set_solver). rewrite Evs, garbage_iff.
  2: { rewrite <- Evs. by eapply sorted_versions. }
  assert (V : forall u, u ∈ vs -> vts u < wm -> visible (version_txn (vval u)) (vts u) = counts committed ckpt known u).
  { intros u Hu Hw. apply (visible_settled wm); eauto. }
  apply andb_true_iff in Fv as [Fk Fv]. apply bool_decide_eq_true in Fk. intros [Hw [Hn|(u & Hu & Eu & Hw' & Hs)]].
  - rewrite V in Fv; [congruence|rewrite Evs; set_solver|done].
  - specialize (Fpre u Hu). unfold sees in Fpre.
    rewrite V, Hs, bool_decide_eq_true_2 in Fpre; [done|congruence|rewrite Evs; set_solver|done].
Qed.

Definition gc_example : list version :=
  [mkVersion [byte.of_Z 97] 7 (MValue 3 [byte.of_Z 3]); mkVersion [byte.of_Z 97] 3 (MValue 2 [byte.of_Z 2]);
   mkVersion [byte.of_Z 97] 1 (MValue 1 [byte.of_Z 1])].
Definition gc_example_engine : Reference :=
  fold_left (fun e v => ref_put e (stored v).1 (stored v).2) gc_example empty_engine.

Lemma gc_keeps_reads_witness :
  exists e' st vs', gc_collect gc_example_engine 5 {[1 := 2; 2 := 4]} 0 ∅ = Ok (e', st) /\
    holds_versions e' vs' /\
    (forall v, v ∈ vs' <-> v ∈ gc_example /\ ~ garbage 5 {[1 := 2; 2 := 4]} 0 ∅ gc_example v) /\
    forall me read_ts k,
      5 <= read_ts -> (forall v, v ∈ gc_example -> version_txn (vval v) = me -> 5 <= vts v) ->
      len k <= 2 ^ 32 - 1 ->
      let visible w ts := is_visible w ts me read_ts {[1 := 2; 2 := 4]} 0 ∅ in
      mvcc_get e' k visible = mvcc_get gc_example_engine k visible.
Proof.
  apply (gc_keeps_reads gc_example_engine gc_example 5 {[1 := 2; 2 := 4]} 0 ∅).
  - split; [vm_compute; reflexivity|]. repeat constructor; vm_compute; done.
  - intros v c Hv. unfold gc_example in Hv. rewrite !elem_of_cons in Hv.
    destruct Hv as [->|[->|[->|Hv]]]; cbn; [lia|..|by apply elem_of_nil in Hv];
      intros _ Hc; vm_compute in Hc; injection Hc as <-; split; [lia|apply not_elem_of_empty|lia|apply not_elem_of_empty].
Defined.
