(* ===== verification/Recovery.v ===== *)
(** Crash recovery (crates/idb-wal/src/wal/recovery.rs). *)

From Stdlib Require Import ZArith Lia List Bool.
From S2P Require Import Prelude Common WalRecord WalReader Wal Engine.
From coqutil Require Import Byte.
From stdpp Require Import base gmap list strings sets sorting.
#[local] Open Scope Z_scope.

Record RecoveryStats := mkStats {
  records_scanned : Z;
  records_redone : Z;
  txns_committed : Z;
  committed_map : gmap Z Z;
  checkpoint_oracle_ts : Z;
  unresolved_txns : gset Z;
  max_txn_id : Z
}.

Record Analysis := mkAnalysis {
  an_committed : gmap Z Z;
  an_aborted : gset Z;
  an_oracle_ts : Z;
  an_max_id : Z
}.

Definition list_max (l : list Z) : Z := fold_left Z.max l 0.

Definition analyze_record (a : Analysis) (r : LogRecord) : Analysis :=
  match payload r with
  | PCommit commit_ts =>
      mkAnalysis (<[txn_id r := commit_ts]> (an_committed a)) (an_aborted a) (an_oracle_ts a) (an_max_id a)
  | PAbort => mkAnalysis (an_committed a) ({[txn_id r]} ∪ an_aborted a) (an_oracle_ts a) (an_max_id a)
  | PCheckpoint active oracle_ts next_txn_id =>
      let candidate := Z.max (list_max active) (saturating_pred next_txn_id) in
      mkAnalysis (an_committed a) (an_aborted a) oracle_ts
        (if an_max_id a <? candidate then candidate else an_max_id a)
  | _ => a
  end.

Definition analyze_transactions (records : list LogRecord) : Analysis :=
  fold_left analyze_record records (mkAnalysis ∅ ∅ 0 0).

(** What a record does to the engine, if anything. *)
Inductive redo_op := RedoPut (key value : bytes) | RedoDelete (key : bytes).

Definition redo_of (committed : gset Z) (r : LogRecord) : option redo_op :=
  match payload r with
  | PPut key value => Some (RedoPut key value)
  | PDelete key => Some (RedoDelete key)
  | PTxnPut key value _ => if bool_decide (txn_id r ∈ committed) then Some (RedoPut key value) else None
  | PTxnDelete key _ => if bool_decide (txn_id r ∈ committed) then Some (RedoDelete key) else None
  | _ => None
  end.

Section recovery.
Context {E : Type} `{StorageEngine E}.

Definition redo_one (e : E) (o : redo_op) : result E :=
  match o with RedoPut k v => engine_put e k v | RedoDelete k => engine_delete e k end.

Fixpoint redo_committed (e : E) (records : list LogRecord) (committed : gset Z) (redone : Z) : result (E * Z) :=
  match records with
  | [] => Ok (e, redone)
  | r :: rest =>
      match redo_of committed r with
      | Some o => e' ← redo_one e o; redo_committed e' rest committed (redone + 1)
      | None => redo_committed e rest committed redone
      end
  end.

Definition seen_txns (records : list LogRecord) : gset Z :=
  list_to_set (List.filter (fun id => negb (id =? 0)) (map txn_id records)).

(** [recover], on the records the reader yields. *)
Definition recover_records (e : E) (records : list LogRecord) : result (E * RecoveryStats) :=
  let a := analyze_transactions records in
  let committed_set := dom (an_committed a) in
  '(e', redone) ← redo_committed e records committed_set 0;
  let seen := seen_txns records in
  let max_records := list_max (List.filter (fun id => negb (id =? 0)) (map txn_id records)) in
  Ok (e', mkStats (Z.of_nat (length records)) redone (Z.of_nat (size (an_committed a))) (an_committed a)
            (an_oracle_ts a) (seen ∖ committed_set ∖ an_aborted a) (Z.max max_records (an_max_id a))).

(** [recover]: read the log from the last checkpoint, then replay it. *)
Definition recover (crc32 : bytes -> Z) (calls fuel : nat) (segs : list segment) (e : E) (last_checkpoint_lsn : Z) :
    option (result (E * RecoveryStats)) :=
  let start := if lsn_is_valid last_checkpoint_lsn then last_checkpoint_lsn else 0 in
  match collect crc32 calls fuel (scan_forward segs start) with
  | Some (Ok records) => Some (recover_records e records)
  | Some (Err e) => Some (Err e)
  | Some Panic => Some Panic
  | None => None
  end.
End recovery.

(** ** What a replay leaves *)

Definition op_key (o : redo_op) : bytes := match o with RedoPut k _ | RedoDelete k => k end.
Definition op_value (o : redo_op) : option bytes :=
  match o with RedoPut _ v => Some v | RedoDelete _ => None end.

(** The records replayed, as operations. *)
Definition replayed (committed : gset Z) (records : list LogRecord) : list redo_op :=
  omap (redo_of committed) records.

(** The last of the operations on a key: what it stores, if it is a put. *)
Fixpoint last_op (k : bytes) (ops : list redo_op) : option (option bytes) :=
  match ops with
  | [] => None
  | o :: rest =>
      match last_op k rest with
      | Some x => Some x
      | None => if bool_decide (op_key o = k) then Some (op_value o) else None
      end
  end.

Definition after_ops (l : list entry) (ops : list redo_op) (k : bytes) : option bytes :=
  match last_op k ops with Some x => x | None => kv_get k l end.

(** The timestamp of the last commit record of a transaction. *)
Definition commit_of (t : Z) (acc : option Z) (r : LogRecord) : option Z :=
  match payload r with PCommit ts => if bool_decide (txn_id r = t) then Some ts else acc | _ => acc end.
Definition commit_record (t : Z) (records : list LogRecord) : option Z := fold_left (commit_of t) records None.

Definition aborts (t : Z) (r : LogRecord) : Prop := payload r = PAbort /\ txn_id r = t.

Lemma last_op_app k a b :
  last_op k (a ++ b) = match last_op k b with Some x => Some x | None => last_op k a end.
Proof.
  induction a as [|o a IH]; cbn; [by destruct (last_op k b)|]. rewrite IH. by destruct (last_op k b).
Qed.

Lemma redo_one_ok {E} `{StorageEngine E} (e : E) o :
  exists e', redo_one e o = Ok e' /\
    forall k, kv_get k (entries e') = if bool_decide (k = op_key o) then op_value o else kv_get k (entries e).
Proof.
  destruct o as [k v|k]; cbn [redo_one op_key op_value].
  - destruct (engine_put_spec e k v) as (e' & -> & E'). exists e'. split; [done|]. intros k'. by rewrite E', kv_get_put.
  - destruct (engine_delete_spec e k) as (e' & -> & E'). exists e'. split; [done|].
    intros k'. by rewrite E', kv_get_delete.
Qed.

Lemma redo_committed_ok {E} `{StorageEngine E} records committed (e : E) n :
  exists e', redo_committed e records committed n = Ok (e', n + len (replayed committed records)) /\
    forall k, kv_get k (entries e') = after_ops (entries e) (replayed committed records) k.
Proof.
  revert e n; induction records as [|r rest IH]; intros e n; cbn [redo_committed].
  { exists e. change (replayed committed []) with (@nil redo_op). by rewrite len_nil, Z.add_0_r. }
  unfold replayed. cbn [omap list_omap]. destruct (redo_of committed r) as [o|]; [|apply IH].
  destruct (redo_one_ok e o) as (e1 & -> & H1). cbn [mbind outcome_bind].
  destruct (IH e1 (n + 1)) as (e2 & -> & H2). exists e2. split.
  { unfold replayed. cbn. rewrite len_cons. do 2 f_equal. lia. }
  intros k. rewrite H2. unfold after_ops, replayed. cbn [last_op].
  destruct (last_op k _); [done|]. rewrite H1.
  destruct (decide (op_key o = k)) as [->|Hn]; [by rewrite !bool_decide_eq_true_2|].
  by rewrite !bool_decide_eq_false_2 by congruence.
Qed.

Lemma analyze_fold records a :
  (forall t, an_committed (fold_left analyze_record records a) !! t
     = fold_left (commit_of t) records (an_committed a !! t)) /\
  (forall t, t ∈ an_aborted (fold_left analyze_record records a) <->
     t ∈ an_aborted a \/ exists r, r ∈ records /\ aborts t r).
Proof.
  revert a; induction records as [|r rest IH]; intros a; cbn [fold_left].
  { split; [done|]. intros t. split; [auto|]. intros [?|(r & Hr & _)]; [done|]. by apply elem_of_nil in Hr. }
  destruct (IH (analyze_record a r)) as [I1 I2]. split; intros t.
  - rewrite I1. f_equal. unfold analyze_record, commit_of. destruct (payload r); try done. cbn.
    destruct (decide (txn_id r = t)) as [->|Hn].
    + by rewrite bool_decide_eq_true_2, lookup_insert_eq.
    + by rewrite bool_decide_eq_false_2, lookup_insert_ne.
  - rewrite I2. setoid_rewrite elem_of_cons.
    assert (Q : t ∈ an_aborted (analyze_record a r) <-> t ∈ an_aborted a \/ aborts t r).
    { unfold analyze_record, aborts. destruct (payload r) eqn:P; cbn [an_aborted]; try (split; [auto|]; intros [?|[? ?]]; done).
      rewrite elem_of_union, elem_of_singleton. split; [intros [->|?]; auto|intros [?|[_ <-]]; auto]. }
    rewrite Q. split; [intros [[?|?]|(x & ? & ?)]; eauto|]. intros [?|(x & [->|?] & ?)]; eauto.
Qed.

Lemma seen_spec records t : t ∈ seen_txns records <-> t <> 0 /\ exists r, r ∈ records /\ txn_id r = t.
Proof.
  unfold seen_txns. rewrite elem_of_list_to_set, list_elem_of_In, filter_In, <- list_elem_of_In.
  rewrite negb_true_iff, Z.eqb_neq, list_elem_of_fmap. split.
  - intros [(r & -> & Hr) Hn]. eauto.
  - intros [Hn (r & Hr & <-)]. eauto.
Qed.

(** The operations of [records] on top of an engine that some of them, a
    prefix, already reached, leave what they leave on the engine before. *)
Lemma after_prefix l l1 ops done_ops rest :
  ops = done_ops ++ rest -> (forall k, kv_get k l1 = after_ops l done_ops k) ->
  forall k, after_ops l1 ops k = after_ops l ops k.
Proof.
  intros -> H1 k. unfold after_ops at 1 2. rewrite last_op_app.
  destruct (last_op k rest); [done|]. rewrite H1. unfold after_ops. by destruct (last_op k done_ops).
Qed.

Lemma recover_records_ok {E} `{StorageEngine E} (e : E) records :
  exists e' st, recover_records e records = Ok (e', st) /\
    (forall t, committed_map st !! t = commit_record t records) /\
    (forall k, kv_get k (entries e') = after_ops (entries e) (replayed (dom (committed_map st)) records) k) /\
    records_redone st = len (replayed (dom (committed_map st)) records) /\
    (forall t, t ∈ unresolved_txns st <->
       t <> 0 /\ (exists r, r ∈ records /\ txn_id r = t) /\ commit_record t records = None /\
       ~ exists r, r ∈ records /\ aborts t r).
Proof.
  unfold recover_records. set (a := analyze_transactions records).
  destruct (redo_committed_ok records (dom (an_committed a)) e 0) as (e' & -> & H'). cbn [mbind outcome_bind].
  destruct (analyze_fold records (mkAnalysis ∅ ∅ 0 0)) as [A1 A2]. 
  change (fold_left analyze_record records (mkAnalysis ∅ ∅ 0 0)) with a in A1, A2. cbn in A1, A2.
  exists e'. eexists. split; [done|]. cbn [committed_map records_redone unresolved_txns].
  split; [|split; [done|split; [done|]]].
  - intros t. rewrite A1, lookup_empty. done.
  - intros t. rewrite !elem_of_difference, seen_spec, A2, not_elem_of_dom, A1, lookup_empty.
    fold (commit_record t records). set_solver.
Qed.

(** ** Theorems *)

(** Recovery replays the log exactly: it succeeds on every list of records;
    each key is left with the last logged write to it by a committed
    transaction (or outside a transaction), and is untouched when there is
    none; the commit map has the timestamp of each transaction's last commit
    record; and the transactions reported unresolved are those with a record
    but no commit and no abort. *)
Theorem recovery_replays_committed {E} `{StorageEngine E} (e : E) records :
  exists e' st, recover_records e records = Ok (e', st) /\
    (forall t, committed_map st !! t = commit_record t records) /\
    (forall k, kv_get k (entries e') = after_ops (entries e) (replayed (dom (committed_map st)) records) k) /\
    records_redone st = len (replayed (dom (committed_map st)) records) /\
    (forall t, t ∈ unresolved_txns st <->
       t <> 0 /\ (exists r, r ∈ records /\ txn_id r = t) /\ commit_record t records = None /\
       ~ exists r, r ∈ records /\ aborts t r).
Proof. apply recover_records_ok. Qed.

(** Recovery can be interrupted and run again: on an engine that the replay
    of any prefix of the log has reached, all of it included, it leaves the
    same data and reports the same state as on the engine before. *)
Theorem recovery_restartable {E} `{StorageEngine E} (e : E) records n :
  exists e_mid redone e1 e2 st,
    redo_committed e (take n records) (dom (an_committed (analyze_transactions records))) 0 = Ok (e_mid, redone) /\
    recover_records e records = Ok (e1, st) /\ recover_records e_mid records = Ok (e2, st) /\
    entries e2 = entries e1.
Proof.
  set (cs := dom (an_committed (analyze_transactions records))).
  destruct (redo_committed_ok (take n records) cs e 0) as (em & Em & Hm).
  destruct (redo_committed_ok records cs e 0) as (e1 & E1 & H1).
  destruct (redo_committed_ok records cs em 0) as (e2 & E2 & H2).
  exists em. eexists. exists e1, e2. eexists. split; [exact Em|]. unfold recover_records. fold cs.
  rewrite E1, E2. cbn [mbind outcome_bind]. split; [done|]. split; [done|].
  apply kv_ext; [apply entries_sorted..|]. intros k. rewrite H1, H2.
  apply (after_prefix _ _ _ (replayed cs (take n records)) (replayed cs (drop n records))); [|done].
  unfold replayed. by rewrite <- omap_app, take_drop.
Qed.

(** *** Committed writes survive a crash *)

Definition writes (k : bytes) (r : LogRecord) : Prop :=
  match payload r with
  | PPut k' _ | PDelete k' | PTxnPut k' _ _ | PTxnDelete k' _ => k' = k
  | _ => False
  end.

Lemma redo_of_writes cs r o : redo_of cs r = Some o -> writes (op_key o) r.
Proof.
  unfold redo_of, writes. destruct (payload r); try done; repeat case_bool_decide; intros [= <-]; done.
Qed.

Lemma last_op_none k cs records :
  (forall r, r ∈ records -> ~ writes k r) -> last_op k (replayed cs records) = None.
Proof.
  intros Hn. induction records as [|r rest IH]; [done|]. unfold replayed in *. cbn [omap list_omap].
  destruct (redo_of cs r) as [o|] eqn:R; [|apply IH; set_solver]. cbn [last_op].
  rewrite IH by set_solver. apply redo_of_writes in R. rewrite bool_decide_eq_false_2; [done|].
  intros <-. by apply (Hn r); [left|].
Qed.

Lemma commit_of_fold t records acc :
  is_Some acc \/ (exists r ts, r ∈ records /\ payload r = PCommit ts /\ txn_id r = t) ->
  is_Some (fold_left (commit_of t) records acc).
Proof.
  revert acc; induction records as [|r rest IH]; intros acc; cbn [fold_left].
  { intros [?|(r & ts & Hr & _)]; [done|]. by apply elem_of_nil in Hr. }
  intros Hx. apply IH. destruct Hx as [Ha|(r' & ts & [->|Hr]%elem_of_cons & Hp & Ht)].
  - left. unfold commit_of. destruct (payload r); try done. by case_bool_decide.
  - left. unfold commit_of. rewrite Hp, bool_decide_eq_true_2 by done. done.
  - right. eauto.
Qed.

(** A put of a transaction with a commit record, last on its key, is what
    recovery leaves. *)
Lemma recovered_put {E} `{StorageEngine E} (e : E) pre rp post rc key value old ts :
  payload rp = PTxnPut key value old -> (forall r, r ∈ post -> ~ writes key r) ->
  rc ∈ pre ++ rp :: post -> payload rc = PCommit ts -> txn_id rc = txn_id rp ->
  exists e' st, recover_records e (pre ++ rp :: post) = Ok (e', st) /\
    kv_get key (entries e') = Some value /\ is_Some (committed_map st !! txn_id rp).
Proof.
  intros Hp Hpost Hc Hpc Ht. destruct (recover_records_ok e (pre ++ rp :: post)) as (e' & st & R & C & G & _).
  exists e', st. split; [done|].
  assert (S : is_Some (committed_map st !! txn_id rp)).
  { rewrite C. apply commit_of_fold. right. eauto. }
  split; [|done]. rewrite G. unfold after_ops, replayed. rewrite omap_app, last_op_app. cbn [omap list_omap].
  unfold redo_of at 1. rewrite Hp, bool_decide_eq_true_2 by by apply elem_of_dom. cbn [last_op].
  fold (replayed (dom (committed_map st)) post). rewrite last_op_none by done.
  by rewrite bool_decide_eq_true_2.
Qed.

Lemma filter_split {A} (f : A -> bool) l i x :
  l !! i = Some x -> f x = true ->
  List.filter f l = List.filter f (take i l) ++ x :: List.filter f (drop (S i) l).
Proof.
  intros Hl Hf. rewrite <- (take_drop_middle l i x Hl) at 1. rewrite List.filter_app. cbn. by rewrite Hf.
Qed.

(** Where recovery starts reading. *)
Definition recovery_start (cp : Z) : Z := if lsn_is_valid cp then cp else 0.


