(* ===== verification/Database.v ===== *)
(** The database facade (src/database.rs) with its log and transaction
    manager: opening with recovery, transactions, auto-commit calls, checkpoint
    and garbage collection, over any engine and isolation policy.

    The log syncs durably.  A call runs with no other thread active: a blocked
    lock request times out, and a commit leads its own sync. *)

From Stdlib Require Import ZArith Lia List Bool.
From S2P Require Import Prelude Common WalRecord WalReader Wal Engine Mvcc LockManager TxnManager Isolation TxnEngine Gc Recovery.
From coqutil Require Import Byte.
From stdpp Require Import base gmap list strings sets sorting.
#[local] Open Scope Z_scope.

Section database.
Context {E : Type} `{StorageEngine E} (crc32 : bytes -> Z) (policy : IsolationPolicy).

Abbreviation SM := (M (@Store E)).

(** [Wal::sync_to] with no other leader. *)
Definition sync_to (target_lsn : Z) : M WalState unit := fun s =>
  if is_synced s target_lsn then (Ok tt, s) else
  let s1 := lead_flush s in
  match leader s1 with
  | Captured flushed_lsn seg_id n => (Ok tt, lead_publish (lead_fsync s1 flushed_lsn seg_id n) flushed_lsn)
  | _ => (Ok tt, s1)
  end.

(** The blocked waiter's deadline passes. *)
Definition time_out (key : bytes) (tk : Z) : SM unit := fun s =>
  let '(l, _) := wait_turn (lock_manager (st_mgr s)) key tk true in
  (Err LockTimeout, mkStore (st_engine s) (st_wal s) (with_locks l (st_mgr s))).

(** [lock_for_write] to its end. *)
Definition lock_alone (txn : Z) (key : bytes) : SM unit :=
  r ← lock_for_write txn key;
  match r return SM unit with
  | Some Acquired => mret tt
  | Some (Failed e) => pure (Err e)
  | Some (Blocked tk) => time_out key tk
  | None => pure Panic
  end.

Definition release_locks (txn : Z) : SM unit := fun s =>
  match release_all (lock_manager (st_mgr s)) txn with
  | Ok l => (Ok tt, mkStore (st_engine s) (st_wal s) (with_locks l (st_mgr s)))
  | Err e => (Err e, s)
  | Panic => (Panic, s)
  end.

Definition begin_txn (m : TxnMode) : SM Z :=
  txn ← on_mgr (TxnManager.begin m LSN_INVALID);
  if bool_decide (m = ReadWrite) then
    lsn ← on_wal (wal_append crc32 (WalRecord.begin txn));
    on_mgr (update_last_lsn txn lsn);;
    mret txn
  else mret txn.

Definition commit_txn (txn : Z) : SM unit :=
  prev ← on_mgr (last_lsn txn);
  m ← on_mgr (mode txn);
  commit_ts ← on_mgr (validate_commit policy txn);
  (if bool_decide (m = ReadWrite) then
     lsn ← on_wal (wal_append crc32 (WalRecord.commit txn prev commit_ts));
     on_wal (sync_to lsn)
   else mret tt);;
  release_locks txn;;
  on_mgr (TxnManager.commit txn).

Definition txn_abort (txn : Z) : SM unit :=
  prev ← on_mgr (last_lsn txn);
  lsn ← on_wal (wal_append crc32 (WalRecord.abort txn prev));
  on_wal (sync_to lsn);;
  release_locks txn;;
  on_mgr (TxnManager.abort txn).

Definition txn_get (txn : Z) (key : bytes) : SM (option bytes) := txn_read policy txn key.
Definition txn_put (txn : Z) (key value : bytes) : SM unit :=
  lock_alone txn key;; txn_write crc32 policy txn key value.
Definition txn_delete (txn : Z) (key : bytes) : SM unit :=
  lock_alone txn key;; txn_erase crc32 policy txn key.

(** Auto-commit calls. *)
Definition get (key : bytes) : SM (option bytes) := txn_read policy AUTO_COMMIT key.
Definition put (key value : bytes) : SM unit :=
  txn ← begin_txn ReadWrite; txn_put txn key value;; commit_txn txn.
Definition delete (key : bytes) : SM unit :=
  txn ← begin_txn ReadWrite; txn_delete txn key;; commit_txn txn.
Definition scan (calls fuel : nat) (lo hi : Bound) : SM (option (result (list entry))) :=
  txn_scan policy calls fuel AUTO_COMMIT lo hi.

Definition list_min (d : Z) (l : list Z) : Z :=
  match l with [] => d | x :: rest => fold_left Z.min rest x end.

(** [checkpoint]; flushing the engine does not change its contents. *)
Definition checkpoint : SM unit :=
  active ← gets (fun s => active_txn_ids (st_mgr s));
  oracle_ts ← gets (fun s => ts_oracle_peek (st_mgr s));
  next_id ← gets (fun s => next_txn_id (st_mgr s));
  lsn ← on_wal (wal_append crc32 (WalRecord.checkpoint active oracle_ts next_id));
  on_wal (modify wal_sync);;
  on_wal (modify (fun w => mkWal (truncate_before crc32 (writer w) lsn).1 (synced_lsn w) (leader w)));;
  on_mgr (modify (set_checkpoint_ts oracle_ts));;
  oldest ← gets (fun s => list_min oracle_ts (active_read_timestamps (st_mgr s)));
  on_mgr (prune_committed_below (Z.min oldest oracle_ts));;
  mret tt.

(** The writers among [snapshot] that still have a version in the engine. *)
Fixpoint still_present (snapshot : gset Z) (scan : list (result entry)) : result (gset Z) :=
  match scan with
  | [] => Ok ∅
  | item :: rest =>
      '(encoded_key, encoded_value) ← item;
      match decode_mvcc_key encoded_key with
      | Panic => Panic
      | Err _ => still_present snapshot rest
      | Ok _ =>
          match decode_mvcc_value encoded_value with
          | Panic => Panic
          | Err _ => still_present snapshot rest
          | Ok v =>
              s ← still_present snapshot rest;
              Ok (if bool_decide (version_txn v ∈ snapshot) then {[version_txn v]} ∪ s else s)
          end
      end
  end.

Definition gc : SM GcStats := fun s =>
  let m := st_mgr s in
  let low_water_mark := list_min (ts_oracle_peek m) (active_read_timestamps m) in
  match gc_collect (st_engine s) low_water_mark (committed_txns m) (checkpoint_ts m) (known_not_committed m) with
  | Ok (e, stats) =>
      let s' := mkStore e (st_wal s) m in
      match still_present (aborted_txns m) (scan_range e Unbounded Unbounded) with
      | Ok present =>
          let '(_, s'') := on_mgr (remove_aborted_txns (aborted_txns m ∖ present)) s' in (Ok stats, s'')
      | Err er => (Err er, s')
      | Panic => (Panic, s')
      end
  | Err er => (Err er, s)
  | Panic => (Panic, s)
  end.

(** [open_inner] on the segments found in the log directory. *)
Definition open_inner (calls fuel : nat) (segs : list (Z * bytes)) (engine : E) : option (result Store) :=
  match Wal.open crc32 segs with
  | Ok w =>
      match find_last_checkpoint crc32 calls fuel segs with
      | None => None
      | Some (Err er) => Some (Err er)
      | Some Panic => Some Panic
      | Some (Ok last_checkpoint_lsn) =>
      match recover crc32 calls fuel (present segs) engine last_checkpoint_lsn with
      | None => None
      | Some (Ok (e, stats)) =>
          let init : MM unit :=
            load_committed_txns (committed_map stats);;
            load_uncommitted_txns (unresolved_txns stats);;
            advance_next_txn_id_past (max_txn_id stats);;
            if 0 <? checkpoint_oracle_ts stats then
              ckpt ← gets checkpoint_ts;
              (if ckpt <? checkpoint_oracle_ts stats
               then modify (set_checkpoint_ts (checkpoint_oracle_ts stats)) else mret tt);;
              advance_oracle_past (checkpoint_oracle_ts stats)
            else mret tt in
          Some (match init new_manager with
                | (Ok _, m) => Ok (mkStore e (mkWal w 0 Idle) m)
                | (Err er, _) => Err er
                | (Panic, _) => Panic
                end)
      | Some (Err er) => Some (Err er)
      | Some Panic => Some Panic
      end
      end
  | Err er => Some (Err er)
  | Panic => Some Panic
  end.
End database.

(** ** A fresh database

    On the reference engine, for concrete runs; the checksum plays no part in
    them. *)
Definition fresh_store : @Store Reference := mkStore empty_engine (mkWal create 0 Idle) new_manager.
Definition no_crc (_ : bytes) : Z := 0.

Definition some_key : bytes := [byte.of_Z 97].
Definition other_key : bytes := [byte.of_Z 98].
Definition value_1 : bytes := [byte.of_Z 1].
Definition value_2 : bytes := [byte.of_Z 2].
