(* ===== verification/SiModel.v ===== *)
(** Snapshot isolation as an abstract machine: what the transaction manager
    knows, the versions stored and the locks held, and the steps transactions
    take.  [Snapshot] shows that the database's calls are such steps. *)

From Stdlib Require Import ZArith Lia List Bool.
From S2P Require Import Prelude Common Engine Mvcc LockManager.
From coqutil Require Import Byte.
From stdpp Require Import base gmap list strings sets sorting relations.
#[local] Open Scope Z_scope.

(** The manager: the next transaction id, the active transactions with their
    begin and commit timestamps, the next timestamp, the commit map, the
    transactions left unresolved by recovery, the aborted ones, and the
    checkpoint timestamp. *)
Record Core := mkCore {
  c_id : Z;
  c_act : gmap Z (Z * option Z);
  c_ts : Z;
  c_comm : gmap Z Z;
  c_unres : gset Z;
  c_abo : gset Z;
  c_ckpt : Z
}.

Definition c_known (c : Core) : gset Z := c_unres c ∪ c_abo c.

Abbreviation held_locks := (gmap (Z * bytes) LockMode).

Record Si := mkSi {
  si_core : Core;
  si_doomed : gset Z;
  si_held : held_locks;
  si_versions : list version
}.

Definition author (v : version) : Z := version_txn (vval v).

(** Storing a version: it replaces the one of its key and timestamp. *)
Fixpoint vput (nv : version) (vs : list version) : list version :=
  match vs with
  | [] => [nv]
  | v :: rest =>
      match version_cmp (vkey nv) (vts nv) (vkey v) (vts v) with
      | Lt => nv :: vs
      | Eq => nv :: rest
      | Gt => v :: vput nv rest
      end
  end.

Definition exclusive (h : held_locks) : Prop :=
  forall t1 t2 k m, h !! (t1, k) = Some Exclusive -> h !! (t2, k) = Some m -> t1 = t2.

(** No exclusive lock is given up, except those of transactions in [P]. *)
Definition keeps_locks (P : Z -> Prop) (h h' : held_locks) : Prop :=
  forall t k, ~ P t -> h !! (t, k) = Some Exclusive -> h' !! (t, k) = Some Exclusive.

(** [t] is past the point where its writes need its locks. *)
Definition may_release (s : Si) (t : Z) : Prop :=
  t ∈ si_doomed s \/ exists b ct, c_act (si_core s) !! t = Some (b, Some ct).

Definition begun (c : Core) : Core :=
  mkCore (c_id c + 1) (<[c_id c := (c_ts c, None)]> (c_act c)) (c_ts c + 1) (c_comm c) (c_unres c) (c_abo c) (c_ckpt c).
Definition assigned (t b : Z) (c : Core) : Core :=
  mkCore (c_id c) (<[t := (b, Some (c_ts c))]> (c_act c)) (c_ts c + 1) (<[t := c_ts c]> (c_comm c))
    (c_unres c) (c_abo c) (c_ckpt c).
Definition finished (t : Z) (c : Core) : Core :=
  mkCore (c_id c) (delete t (c_act c)) (c_ts c) (c_comm c) (c_unres c) (c_abo c) (c_ckpt c).
Definition aborted (t : Z) (c : Core) : Core :=
  mkCore (c_id c) (delete t (c_act c)) (c_ts c) (c_comm c) (c_unres c) ({[t]} ∪ c_abo c) (c_ckpt c).

(** First committer wins: no version of [k] was committed after [b]. *)
Definition no_later_commit (c : Core) (vs : list version) (k : bytes) (b : Z) : Prop :=
  forall v ct, v ∈ vs -> vkey v = k -> c_comm c !! author v = Some ct -> ct <= b.

Inductive si_step : Si -> Si -> Prop :=
| si_begin c d h vs : si_step (mkSi c d h vs) (mkSi (begun c) d h vs)
| si_locks c d h h' vs :
    keeps_locks (may_release (mkSi c d h vs)) h h' -> si_step (mkSi c d h vs) (mkSi c d h' vs)
| si_write c d h vs t b k v :
    c_act c !! t = Some (b, None) -> t ∉ d -> h !! (t, k) = Some Exclusive -> exclusive h ->
    version_txn v = t -> no_later_commit c vs k b ->
    si_step (mkSi c d h vs) (mkSi c d h (vput (mkVersion k b v) vs))
| si_assign c d h vs t b :
    c_act c !! t = Some (b, None) -> t ∉ d -> si_step (mkSi c d h vs) (mkSi (assigned t b c) d h vs)
| si_finish c d h vs t b ct :
    c_act c !! t = Some (b, Some ct) -> si_step (mkSi c d h vs) (mkSi (finished t c) d h vs)
| si_doom c d h vs t b :
    c_act c !! t = Some (b, None) -> si_step (mkSi c d h vs) (mkSi c ({[t]} ∪ d) h vs)
| si_abort c d h vs t :
    t ∈ d -> is_Some (c_act c !! t) -> si_step (mkSi c d h vs) (mkSi (aborted t c) d h vs).

(** ** Invariant *)

(** The version is known, or assumed, to have been committed at [ct]. *)
Definition resolved (c : Core) (v : version) (ct : Z) : Prop :=
  c_comm c !! author v = Some ct \/
  (c_comm c !! author v = None /\ vts v <= c_ckpt c /\ author v ∉ c_known c /\ ct = vts v).

(** The version is visible to some reader, or may become so. *)
Definition alive (c : Core) (doomed : gset Z) (v : version) : Prop :=
  (exists ct, resolved c v ct) \/ (is_Some (c_act c !! author v) /\ author v ∉ doomed).

Record core_ok (c : Core) (doomed : gset Z) : Prop := {
  n_ckpt : 0 <= c_ckpt c < c_ts c;
  n_pos : 1 <= c_id c;
  n_act : forall t b o, c_act c !! t = Some (b, o) ->
    1 <= t < c_id c /\ c_ckpt c < b < c_ts c /\ o = c_comm c !! t /\ t ∉ c_known c;
  n_distinct : forall t t' b o o', c_act c !! t = Some (b, o) -> c_act c !! t' = Some (b, o') -> t = t';
  n_comm : forall t ct, c_comm c !! t = Some ct -> t < c_id c /\ ct < c_ts c /\ t ∉ c_known c /\ t ∉ doomed;
  n_known : forall t, t ∈ c_known c -> t < c_id c;
  n_doomed : forall t, t ∈ doomed -> t < c_id c;
  n_apart : forall t t' b o ct, c_act c !! t = Some (b, o) -> c_comm c !! t' = Some ct -> ct <> b
}.

Record si_inv (s : Si) : Prop := {
  n_core : core_ok (si_core s) (si_doomed s);
  n_sorted : StronglySorted version_lt (si_versions s);
  n_vers : forall v, v ∈ si_versions s -> 1 <= author v < c_id (si_core s) /\ vts v < c_ts (si_core s);
  n_begin : forall v b o, v ∈ si_versions s -> c_act (si_core s) !! author v = Some (b, o) -> vts v = b;
  n_commit : forall v ct, v ∈ si_versions s -> c_comm (si_core s) !! author v = Some ct -> vts v < ct;
  n_own : forall v t b o, v ∈ si_versions s -> c_act (si_core s) !! t = Some (b, o) -> vts v = b -> author v = t;
  n_locked : forall v b, v ∈ si_versions s -> c_act (si_core s) !! author v = Some (b, None) ->
    author v ∉ si_doomed s -> si_held s !! (author v, vkey v) = Some Exclusive;
  n_order : forall v1 v2, v1 ∈ si_versions s -> v2 ∈ si_versions s -> vkey v1 = vkey v2 -> vts v1 < vts v2 ->
    alive (si_core s) (si_doomed s) v1 -> alive (si_core s) (si_doomed s) v2 ->
    exists ct, resolved (si_core s) v1 ct /\ ct < vts v2
}.

(** ** Storing a version *)

Lemma version_cmp_eq k ts k' ts' : version_cmp k ts k' ts' = Eq <-> k = k' /\ ts = ts'.
Proof.
  unfold version_cmp. split.
  - destruct (len k ?= len k'); cbn; try done. destruct (bcmp k k') eqn:B; cbn; try done.
    intros C%Z.compare_eq. apply bcmp_eq in B. auto.
  - intros [-> ->]. by rewrite Z.compare_refl, bcmp_refl, Z.compare_refl.
Qed.

Lemma vput_elem nv vs v : v ∈ vput nv vs -> v = nv \/ v ∈ vs.
Proof.
  induction vs as [|u vs IH]; cbn; [rewrite list_elem_of_singleton; auto|].
  destruct (version_cmp _ _ _ _); rewrite !elem_of_cons; intros; destruct_or?; auto.
  destruct (IH ltac:(done)); auto.
Qed.

Lemma vput_new nv vs : nv ∈ vput nv vs.
Proof. induction vs as [|u vs IH]; cbn; [by left|]. destruct (version_cmp _ _ _ _); [by left|by left|by right]. Qed.

Lemma version_cmp_gt k ts k' ts' : version_cmp k ts k' ts' = Gt -> version_cmp k' ts' k ts = Lt.
Proof.
  unfold version_cmp. rewrite (Z.compare_antisym (len k)), (Z.compare_antisym ts ts').
  destruct (len k ?= len k'); cbn; try done. destruct (bcmp k k') eqn:B; cbn; try done.
  - apply bcmp_eq in B as ->. rewrite bcmp_refl. cbn. by destruct (ts ?= ts').
  - apply bcmp_Gt in B. unfold blt in B. by rewrite B.
Qed.

Lemma version_lt_trans a b c : version_lt a b -> version_lt b c -> version_lt a c.
Proof.
  unfold version_lt, version_cmp.
  destruct (Z.compare_spec (len (vkey a)) (len (vkey b))) as [L1|L1|L1], (Z.compare_spec (len (vkey b)) (len (vkey c))) as [L2|L2|L2];
    cbn; intros A B; try done; destruct (Z.compare_spec (len (vkey a)) (len (vkey c))) as [L3|L3|L3]; try lia; cbn; try done.
  destruct (bcmp (vkey a) (vkey b)) eqn:B1, (bcmp (vkey b) (vkey c)) eqn:B2; cbn in A, B; try done.
  - apply bcmp_eq in B1, B2. rewrite B1, B2, bcmp_refl. cbn. rewrite Z.compare_lt_iff in *. lia.
  - apply bcmp_eq in B1. by rewrite B1, B2.
  - apply bcmp_eq in B2. by rewrite <- B2, B1.
  - assert (B3 : blt (vkey a) (vkey c)) by by apply (blt_trans _ (vkey b)). unfold blt in B3. by rewrite B3.
Qed.

Lemma vput_sorted nv vs : StronglySorted version_lt vs -> StronglySorted version_lt (vput nv vs).
Proof.
  induction 1 as [|v vs S IH F]; cbn; [by repeat constructor|]. destruct (version_cmp _ _ _ _) eqn:C.
  - apply version_cmp_eq in C as [Ek Et]. constructor; [done|]. eapply Forall_impl; [done|].
    intros u. unfold version_lt. by rewrite Ek, Et.
  - constructor; [by constructor|]. constructor; [done|]. eapply Forall_impl; [done|].
    intros u. by apply version_lt_trans.
  - constructor; [done|]. apply Forall_forall. intros u [->|Hu]%vput_elem; [by apply version_cmp_gt|].
    rewrite Forall_forall in F. by apply F.
Qed.

Definition same_slot (a b : version) : Prop := vkey a = vkey b /\ vts a = vts b.

Lemma version_lt_slot a b : version_lt a b -> ~ same_slot a b.
Proof. intros L S%version_cmp_eq. unfold version_lt in L. congruence. Qed.

Lemma vput_old nv vs v :
  StronglySorted version_lt vs -> v ∈ vput nv vs -> v = nv \/ (v ∈ vs /\ ~ same_slot nv v).
Proof.
  induction 1 as [|u vs S IH F]; cbn; [rewrite list_elem_of_singleton; auto|]. rewrite Forall_forall in F.
  destruct (version_cmp _ _ _ _) eqn:C; rewrite !elem_of_cons.
  - intros [->|Hv]; [auto|]. right. split; [auto|]. apply version_cmp_eq in C. intros [E1 E2].
    apply (version_lt_slot u v); [by apply F|]. destruct C. split; congruence.
  - intros [->|Hv]; [auto|right]. split; [done|]. apply version_lt_slot.
    destruct Hv as [->|Hv]; [done|]. by apply (version_lt_trans _ u); [|apply F].
  - intros [->|Hv].
    + right. split; [auto|]. intros Q%version_cmp_eq. congruence.
    + destruct (IH Hv) as [->|[? ?]]; auto.
Qed.

(** Readers that see neither the new version nor the one it replaces. *)
Lemma vput_unseen (f : version -> bool) nv vs :
  f nv = false -> (forall v, v ∈ vs -> same_slot nv v -> f v = false) ->
  List.filter f (vput nv vs) = List.filter f vs.
Proof.
  intros Hn. induction vs as [|u vs IH]; intros Hf; cbn; [by rewrite Hn|].
  destruct (version_cmp _ _ _ _) eqn:C; cbn; rewrite ?Hn.
  - rewrite (Hf u); [done|by left|by apply version_cmp_eq].
  - done.
  - rewrite IH; [done|]. intros v Hv. apply Hf. by right.
Qed.

Lemma find_head {A} (f : A -> bool) l : List.find f l = head (List.filter f l).
Proof. induction l as [|a l IH]; cbn; [done|]. by destruct (f a). Qed.

(** ** The steps keep the invariant *)

Lemma begun_ok c d : core_ok c d -> core_ok (begun c) d.
Proof.
  intros I. pose proof (n_ckpt _ _ I). pose proof (n_pos _ _ I).
  assert (Fresh : forall t, t < c_id c -> t <> c_id c) by lia.
  constructor; cbn [begun c_id c_act c_ts c_comm c_ckpt]; change (c_known (begun c)) with (c_known c); try lia.
  - intros t b o. rewrite lookup_insert_Some. intros [[<- [= <- <-]]|[_ Ha]].
    + split_and!; try lia.
      * destruct (c_comm c !! c_id c) eqn:E; [|done]. apply (n_comm _ _ I) in E. lia.
      * intros Hk%(n_known _ _ I). lia.
    + apply (n_act _ _ I) in Ha as (? & ? & ? & ?). split_and!; auto; lia.
  - intros t t' b o o'. rewrite !lookup_insert_Some.
    intros [[<- E1]|[N1 A1]] [[<- E2]|[N2 A2]]; [done|..|by eapply (n_distinct _ _ I)].
    + apply (n_act _ _ I) in A2. simplify_eq. lia.
    + apply (n_act _ _ I) in A1. simplify_eq. lia.
  - intros t ct E. apply (n_comm _ _ I) in E as (? & ? & ? & ?). split_and!; auto; lia.
  - intros t Hk%(n_known _ _ I). lia.
  - intros t Hk%(n_doomed _ _ I). lia.
  - intros t t' b o ct. rewrite lookup_insert_Some. intros [[<- [= <- <-]]|[_ Ha]] Hc.
    + apply (n_comm _ _ I) in Hc. lia.
    + by eapply (n_apart _ _ I).
Qed.

Lemma assigned_ok c d t b : core_ok c d -> c_act c !! t = Some (b, None) -> t ∉ d -> core_ok (assigned t b c) d.
Proof.
  intros I Ht Hd. pose proof (n_ckpt _ _ I). pose proof (n_pos _ _ I). pose proof (n_act _ _ I _ _ _ Ht) as (T1 & T2 & T3 & T4).
  assert (Old : forall t' b' o, <[t := (b, Some (c_ts c))]> (c_act c) !! t' = Some (b', o) ->
    exists o', c_act c !! t' = Some (b', o')).
  { intros t' b' o. rewrite lookup_insert_Some. intros [[<- [= <- <-]]|[_ ?]]; eauto. }
  constructor; cbn [assigned c_id c_act c_ts c_comm c_ckpt]; change (c_known (assigned t b c)) with (c_known c); try lia.
  - intros t' b' o. rewrite lookup_insert_Some. intros [[<- [= <- <-]]|[N Ha]].
    + rewrite lookup_insert_eq. split_and!; auto; lia.
    + rewrite lookup_insert_ne by done. apply (n_act _ _ I) in Ha as (? & ? & ? & ?). split_and!; auto; lia.
  - intros t1 t2 b' o o' [o1 A1]%Old [o2 A2]%Old. by eapply (n_distinct _ _ I).
  - intros t' ct. rewrite lookup_insert_Some. intros [[<- <-]|[_ Hc]]; [split_and!; auto; lia|].
    apply (n_comm _ _ I) in Hc as (? & ? & ? & ?). split_and!; auto; lia.
  - apply (n_known _ _ I).
  - apply (n_doomed _ _ I).
  - intros t1 t2 b' o ct [o1 A1]%Old. rewrite lookup_insert_Some. intros [[<- <-]|[_ Hc]].
    + apply (n_act _ _ I) in A1. lia.
    + by eapply (n_apart _ _ I).
Qed.

Lemma removed_ok c d t a :
  core_ok c d -> (forall x, x ∈ a -> x ∈ c_abo c \/ (x = t /\ t ∈ d)) ->
  core_ok (mkCore (c_id c) (delete t (c_act c)) (c_ts c) (c_comm c) (c_unres c) a (c_ckpt c)) d.
Proof.
  intros I Ha. set (c' := mkCore _ _ _ _ _ _ _).
  assert (K : forall x, x ∈ c_known c' -> x ∈ c_known c \/ (x = t /\ t ∈ d)).
  { intros x. unfold c_known. cbn. rewrite !elem_of_union. intros [?|Hx]; [auto|]. destruct (Ha x Hx); auto. }
  assert (A : forall x b o, delete t (c_act c) !! x = Some (b, o) -> x <> t /\ c_act c !! x = Some (b, o)).
  { intros x b o. rewrite lookup_delete_Some. intros [? ?]. auto. }
  constructor; cbn [c' c_id c_act c_ts c_comm c_ckpt].
  - apply (n_ckpt _ _ I).
  - apply (n_pos _ _ I).
  - intros x b o [Hn Hx]%A. apply (n_act _ _ I) in Hx as (? & ? & ? & ?). split_and!; auto; try lia.
    intros [?|[? ?]]%K; done.
  - intros x y b o o' [_ Hx]%A [_ Hy]%A. by eapply (n_distinct _ _ I).
  - intros x ct Hx. apply (n_comm _ _ I) in Hx as (? & ? & ? & ?). split_and!; auto. intros [?|[-> ?]]%K; done.
  - intros x [Hx|[-> Hx]]%K; [by apply (n_known _ _ I)|by apply (n_doomed _ _ I)].
  - apply (n_doomed _ _ I).
  - intros x y b o ct [_ Hx]%A. by apply (n_apart _ _ I _ _ _ _ _ Hx).
Qed.

Lemma doomed_ok c d t b : core_ok c d -> c_act c !! t = Some (b, None) -> core_ok c ({[t]} ∪ d).
Proof.
  intros I Ht. pose proof (n_act _ _ I _ _ _ Ht) as (T1 & _ & T3 & _). destruct I as [? ? ? ? Hc ? Hd ?].
  constructor; try done.
  - intros x ct Hx. destruct (Hc _ _ Hx) as (? & ? & ? & ?). split_and!; auto.
    rewrite elem_of_union, elem_of_singleton. intros [->|?]; [congruence|done].
  - intros x. rewrite elem_of_union, elem_of_singleton. intros [->|?]; [lia|auto].
Qed.

(** An active transaction has no assumed commit, and one without a commit
    timestamp none at all. *)
Lemma active_unresolved s v b ct :
  si_inv s -> v ∈ si_versions s -> c_act (si_core s) !! author v = Some (b, None) -> ~ resolved (si_core s) v ct.
Proof.
  intros I Hv Ha. pose proof (n_act _ _ (n_core _ I) _ _ _ Ha) as (_ & ? & E & _).
  pose proof (n_begin _ I _ _ _ Hv Ha). intros [Hc|(_ & ? & _)]; [congruence|lia].
Qed.

Lemma resolved_bound s v ct :
  si_inv s -> v ∈ si_versions s -> resolved (si_core s) v ct -> vts v <= ct < c_ts (si_core s).
Proof.
  intros I Hv [Hc|(_ & ? & _ & ->)].
  - pose proof (n_commit _ I _ _ Hv Hc). apply (n_comm _ _ (n_core _ I)) in Hc. lia.
  - pose proof (n_ckpt _ _ (n_core _ I)). lia.
Qed.

(** Steps that leave the versions alone and make none of them alive. *)
Lemma inv_transfer s c' d' h' :
  si_inv s -> core_ok c' d' -> c_id (si_core s) <= c_id c' -> c_ts (si_core s) <= c_ts c' ->
  (forall t b o, t < c_id (si_core s) -> c_act c' !! t = Some (b, o) -> c_act (si_core s) !! t = Some (b, o)) ->
  (forall t b o, c_id (si_core s) <= t -> c_act c' !! t = Some (b, o) -> c_ts (si_core s) <= b) ->
  c_comm c' = c_comm (si_core s) ->
  (forall v b, v ∈ si_versions s -> c_act c' !! author v = Some (b, None) -> author v ∉ d' ->
     author v ∉ si_doomed s /\ h' !! (author v, vkey v) = si_held s !! (author v, vkey v)) ->
  (forall v, v ∈ si_versions s -> alive c' d' v -> alive (si_core s) (si_doomed s) v /\
     forall ct, resolved (si_core s) v ct -> resolved c' v ct) ->
  si_inv (mkSi c' d' h' (si_versions s)).
Proof.
  intros I Hc Hid Hts Hold Hnew Hcomm Hlock Halive.
  assert (Auth : forall v, v ∈ si_versions s -> author v < c_id (si_core s)) by (intros v Hv; apply (n_vers _ I) in Hv; lia).
  constructor; cbn [si_core si_doomed si_held si_versions]; try done.
  - apply (n_sorted _ I).
  - intros v Hv. apply (n_vers _ I) in Hv. lia.
  - intros v b o Hv Ha. eapply (n_begin _ I); [done|]. by eapply Hold; [apply Auth|].
  - rewrite Hcomm. apply (n_commit _ I).
  - intros v t b o Hv Ha Hb. destruct (Z.lt_ge_cases t (c_id (si_core s))) as [Hlt|Hge].
    + by eapply (n_own _ I); [|eapply Hold|].
    + pose proof (Hnew _ _ _ Hge Ha). apply (n_vers _ I) in Hv. lia.
  - intros v b Hv Ha Hd. destruct (Hlock v b Hv Ha Hd) as [Hd' ->].
    eapply (n_locked _ I); [done| |done]. by eapply Hold; [apply Auth|].
  - intros v1 v2 H1 H2 Hk Hlt A1 A2. destruct (Halive v1 H1 A1) as [A1' R1]. destruct (Halive v2 H2 A2) as [A2' _].
    destruct (n_order _ I v1 v2 H1 H2 Hk Hlt A1' A2') as (ct & R & L). eauto.
Qed.

Lemma resolved_same c c' v ct :
  c_comm c' = c_comm c -> c_ckpt c' = c_ckpt c -> c_known c' = c_known c -> resolved c v ct -> resolved c' v ct.
Proof. unfold resolved. by intros -> -> ->. Qed.

Lemma alive_same c c' d d' v :
  c_comm c' = c_comm c -> c_ckpt c' = c_ckpt c -> c_known c' = c_known c ->
  (is_Some (c_act c' !! author v) -> author v ∉ d' -> is_Some (c_act c !! author v) /\ author v ∉ d) ->
  alive c' d' v -> alive c d v /\ forall ct, resolved c v ct -> resolved c' v ct.
Proof.
  intros E1 E2 E3 Ha Hal. split; [|by intros; eapply resolved_same].
  destruct Hal as [[ct R]|[A D]]; [left; exists ct; by eapply resolved_same|right; auto].
Qed.

Lemma inv_begin c d h vs : si_inv (mkSi c d h vs) -> si_inv (mkSi (begun c) d h vs).
Proof.
  intros I. assert (Act : forall t, t < c_id c -> c_act (begun c) !! t = c_act c !! t)
    by (intros t Ht; cbn; rewrite lookup_insert_ne by lia; done).
  apply (inv_transfer (mkSi c d h vs)); cbn [si_core si_doomed si_held si_versions]; try done; cbn [begun c_id c_ts]; try lia.
  - by apply begun_ok, (n_core _ I).
  - intros t b o Ht. by rewrite Act.
  - intros t b o Ht. cbn. rewrite lookup_insert_Some. intros [[<- [= <- <-]]|[_ Ha]]; [lia|].
    apply (n_act _ _ (n_core _ I)) in Ha. cbn in Ha. lia.
  - intros v Hv. apply alive_same; try done. apply (n_vers _ I) in Hv. cbn in Hv. rewrite Act by lia. done.
Qed.

Lemma inv_locks c d h h' vs :
  si_inv (mkSi c d h vs) -> keeps_locks (may_release (mkSi c d h vs)) h h' -> si_inv (mkSi c d h' vs).
Proof.
  intros [] Hk. constructor; try done. cbn in *. intros v b Hv Ha Hd. apply Hk; [|eauto].
  intros [?|(b' & ct & E)]; [done|]. cbn in E. congruence.
Qed.

Lemma inv_removed c d h vs t a :
  si_inv (mkSi c d h vs) -> (forall x, x ∈ a -> x ∈ c_abo c \/ (x = t /\ t ∈ d)) -> c_abo c ⊆ a ->
  si_inv (mkSi (mkCore (c_id c) (delete t (c_act c)) (c_ts c) (c_comm c) (c_unres c) a (c_ckpt c)) d h vs).
Proof.
  intros I Ha Hsub. set (c' := mkCore _ _ _ _ _ _ _).
  assert (A : forall x b o, c_act c' !! x = Some (b, o) -> x <> t /\ c_act c !! x = Some (b, o)).
  { intros x b o. cbn. rewrite lookup_delete_Some. intros [? ?]. auto. }
  assert (K : forall x, x ∈ c_known c -> x ∈ c_known c').
  { intros x. unfold c_known. cbn. rewrite !elem_of_union. intros [?|?]; auto. }
  assert (K' : forall x, x ∈ c_known c' -> x ∈ c_known c \/ (x = t /\ t ∈ d)).
  { intros x. unfold c_known. cbn. rewrite !elem_of_union. intros [?|Hx]; [auto|]. destruct (Ha x Hx); auto. }
  apply (inv_transfer (mkSi c d h vs)); cbn [si_core si_doomed si_held si_versions]; try done.
  - apply removed_ok; [apply (n_core _ I)|done].
  - intros x b o _ Hx. by apply A.
  - intros x b o Hx Hy. apply A in Hy as [_ Hy]. apply (n_act _ _ (n_core _ I)) in Hy. cbn in Hy. lia.
  - intros v Hv Hal. assert (Hn : (exists ct, resolved c' v ct) \/ author v <> t).
    { destruct Hal as [R|[[[b o] Hb] _]]; [by left|right]. by apply A in Hb as [? _]. }
    split.
    + destruct Hal as [(ct & [Hc|(Hc & Hk & Hx & E)])|[[[b o] Hb] Hd]].
      * left. exists ct. by left.
      * left. exists ct. right. split_and!; auto.
      * right. apply A in Hb as [_ Hb]. split; [by eexists|done].
    + intros ct [Hc|(Hc & Hk & Hx & E)]; [by left|right]. split_and!; auto.
      destruct Hn as [[ct' [Hc'|(_ & _ & Hx' & _)]]|Hn]; [cbn in Hc'; congruence|done|].
      by intros [?|[? _]]%K'.
Qed.

Lemma inv_doom c d h vs t b :
  si_inv (mkSi c d h vs) -> c_act c !! t = Some (b, None) -> si_inv (mkSi c ({[t]} ∪ d) h vs).
Proof.
  intros I Ht. apply (inv_transfer (mkSi c d h vs)); cbn [si_core si_doomed si_held si_versions]; try done.
  - eapply doomed_ok; [apply (n_core _ I)|done].
  - intros x b' o Hx Ha. apply (n_act _ _ (n_core _ I)) in Ha. cbn in Ha. lia.
  - intros v b' Hv _ Hd. split; [set_solver|done].
  - intros v Hv. apply alive_same; try done. intros ? ?. split; [done|set_solver].
Qed.

(** Once [t] has its commit timestamp, its versions are resolved at it; nobody
    else's changed. *)
Lemma resolved_assigned c t b v ct :
  c_comm c !! t = None -> resolved (assigned t b c) v ct ->
  (author v = t /\ ct = c_ts c) \/ (author v <> t /\ resolved c v ct).
Proof.
  intros Hn. unfold resolved. change (c_known (assigned t b c)) with (c_known c). cbn [assigned c_comm c_ckpt].
  destruct (decide (author v = t)) as [->|Hne].
  - rewrite lookup_insert_eq. intros [[= <-]|[? _]]; [auto|done].
  - rewrite lookup_insert_ne by done. auto.
Qed.

Lemma inv_assign c d h vs t b :
  si_inv (mkSi c d h vs) -> c_act c !! t = Some (b, None) -> t ∉ d -> si_inv (mkSi (assigned t b c) d h vs).
Proof.
  intros I Ht Hd. pose proof (n_core _ I) as C. pose proof (n_act _ _ C _ _ _ Ht) as (_ & Hb & Hc & _). cbn in Hb, Hc.
  assert (Old : forall t' b' o, c_act (assigned t b c) !! t' = Some (b', o) ->
    exists o', c_act c !! t' = Some (b', o') /\ (o = None -> o' = None)).
  { intros t' b' o. cbn. rewrite lookup_insert_Some. intros [[<- [= <- <-]]|[_ ?]]; eauto. }
  assert (Alive : forall v, alive (assigned t b c) d v -> alive c d v).
  { intros v [[ct R]|[A D]].
    - apply resolved_assigned in R as [[E _]|[_ R]]; [|left; by exists ct|done].
      right. rewrite E. split; [by eexists|done].
    - right. split; [|done]. destruct A as [[b' o] A]. apply Old in A as (o' & A & _). by eexists. }
  constructor; cbn [si_core si_doomed si_held si_versions].
  - by apply assigned_ok.
  - apply (n_sorted _ I).
  - intros v Hv. apply (n_vers _ I) in Hv. cbn in *. lia.
  - intros v b' o Hv (o' & A & _)%Old. by eapply (n_begin _ I).
  - intros v ct Hv. cbn. rewrite lookup_insert_Some. intros [[_ <-]|[_ A]]; [|by apply (n_commit _ I)].
    apply (n_vers _ I) in Hv. cbn in Hv. lia.
  - intros v t' b' o Hv (o' & A & _)%Old E. by eapply (n_own _ I).
  - intros v b' Hv (o' & A & E)%Old. rewrite E in A by done. by apply (n_locked _ I v b').
  - intros v1 v2 H1 H2 Hk Hlt A1%Alive A2%Alive. destruct (n_order _ I v1 v2 H1 H2 Hk Hlt A1 A2) as (ct & R & L).
    exists ct. split; [|done]. cbn in R. destruct (decide (author v1 = t)) as [E|E].
    + exfalso. eapply (active_unresolved _ v1 b ct I); [done|cbn; by rewrite E|done].
    + unfold resolved in *. change (c_known (assigned t b c)) with (c_known c). cbn [assigned c_comm c_ckpt].
      by rewrite lookup_insert_ne.
Qed.

(** Under the exclusive lock and the commit check, the other versions of the
    key that count were committed before the writer began. *)
Lemma alive_before c d h vs t b k v :
  si_inv (mkSi c d h vs) -> c_act c !! t = Some (b, None) -> h !! (t, k) = Some Exclusive -> exclusive h ->
  no_later_commit c vs k b -> v ∈ vs -> vkey v = k -> alive c d v ->
  vts v = b \/ exists ct, resolved c v ct /\ ct < b.
Proof.
  intros I Ht Hh Hx Hn Hv Hk Hal. pose proof (n_core _ I) as C. cbn in C.
  assert (Committed : forall ct, c_comm c !! author v = Some ct -> exists ct, resolved c v ct /\ ct < b).
  { intros ct Hc. exists ct. split; [by left|]. pose proof (n_apart _ _ C _ _ _ _ _ Ht Hc).
    pose proof (Hn v ct Hv Hk Hc). lia. }
  destruct Hal as [[ct [Hc|R]]|[[[b' [ct|]] Ha] Hd]].
  - eauto.
  - right. exists ct. split; [by right|]. destruct R as (_ & ? & _ & ->).
    pose proof (n_act _ _ C _ _ _ Ht). lia.
  - apply (n_act _ _ C) in Ha as (_ & _ & E & _). eauto.
  - left. pose proof (n_locked _ I v b' Hv Ha Hd) as L. cbn in L. rewrite Hk in L.
    pose proof (Hx _ _ _ _ L Hh) as E. rewrite E in Ha. rewrite Ht in Ha. injection Ha as <-.
    apply (n_begin _ I v b None Hv). cbn. by rewrite E.
Qed.

Lemma inv_write c d h vs t b k v :
  si_inv (mkSi c d h vs) -> c_act c !! t = Some (b, None) -> t ∉ d -> h !! (t, k) = Some Exclusive ->
  exclusive h -> version_txn v = t -> no_later_commit c vs k b ->
  si_inv (mkSi c d h (vput (mkVersion k b v) vs)).
Proof.
  intros I Ht Hd Hh Hx Hv Hn. pose proof (n_core _ I) as C. cbn in C. set (nv := mkVersion k b v).
  pose proof (n_act _ _ C _ _ _ Ht) as (T1 & T2 & T3 & _).
  assert (Before : forall u, u ∈ vs -> vkey u = k -> alive c d u -> vts u = b \/ exists ct, resolved c u ct /\ ct < b)
    by (intros u Hu Hk Ha; by eapply alive_before).
  assert (Ha : author nv = t) by done.
  assert (Old : forall u, u ∈ vput nv vs -> u = nv \/ (u ∈ vs /\ ~ same_slot nv u))
    by (intros u; apply vput_old, (n_sorted _ I)).
  constructor; cbn [si_core si_doomed si_held si_versions]; try done.
  - apply vput_sorted, (n_sorted _ I).
  - intros u [->|[Hu _]]%Old; [rewrite Ha; cbn; lia|]. by apply (n_vers _ I).
  - intros u b' o [->|[Hu _]]%Old; [rewrite Ha, Ht; by intros [= <- <-]|]. by apply (n_begin _ I).
  - intros u ct [->|[Hu _]]%Old; [rewrite Ha; congruence|]. by apply (n_commit _ I).
  - intros u t' b' o [->|[Hu _]]%Old; [|by apply (n_own _ I)]. rewrite Ha. cbn. intros Ht' <-.
    by apply (n_distinct _ _ C _ _ _ _ _ Ht Ht').
  - intros u b' [->|[Hu _]]%Old; [by rewrite Ha|]. by apply (n_locked _ I).
  - intros v1 v2 [->|[H1 S1]]%Old [->|[H2 S2]]%Old Hk Hlt A1 A2; cbn [nv vkey vts] in Hk, Hlt; [lia|..].
    + exfalso. destruct (Before v2 H2 (eq_sym Hk) A2) as [?|(ct & R & L)]; [lia|].
      pose proof (resolved_bound _ _ _ I H2 R). lia.
    + destruct (Before v1 H1 Hk A1) as [?|?]; [lia|done].
    + by apply (n_order _ I).
Qed.

Lemma si_step_inv s s' : si_inv s -> si_step s s' -> si_inv s'.
Proof.
  intros I Hs. destruct Hs; [by apply inv_begin|by eapply inv_locks|by eapply inv_write|by apply inv_assign|..].
  - apply inv_removed; [done| |done]. auto.
  - by eapply inv_doom.
  - apply inv_removed; [done| |set_solver]. intros x. rewrite elem_of_union, elem_of_singleton. intros [->|?]; auto.
Qed.

(** ** Reads *)

(** What a transaction with begin timestamp [b] sees. *)
Definition si_sees (c : Core) (t b : Z) : Z -> Z -> bool :=
  fun w ts => is_visible w ts t b (c_comm c) (c_ckpt c) (c_known c).

Lemma si_sees_iff c t b v :
  si_sees c t b (author v) (vts v) = true <-> author v = t \/ exists ct, resolved c v ct /\ ct <= b.
Proof.
  unfold si_sees, is_visible, resolved. destruct (Z.eqb_spec (author v) t) as [E|E]; [by split; auto|].
  destruct (c_comm c !! author v) as [ct|].
  - rewrite Z.leb_le. split; [eauto|]. intros [?|(ct' & [[= <-]|[? _]] & ?)]; done.
  - destruct (Z.leb_spec (vts v) (c_ckpt c)) as [L|L]; cbn.
    + case_bool_decide as K; cbn.
      * split; [done|]. intros [?|(ct & [?|(_ & _ & ? & _)] & _)]; done.
      * rewrite Z.leb_le. split; [intros Hb; right; exists (vts v); split; [right; auto|done]|].
        intros [?|(ct & [?|(_ & _ & _ & ->)] & ?)]; done.
    + split; [done|]. intros [?|(ct & [?|(_ & ? & _)] & _)]; [done|done|lia].
Qed.

(** Two reads agree when they see the same of each version of the key. *)
Lemma read_ext f g k vs :
  (forall v, v ∈ vs -> vkey v = k -> f (author v) (vts v) = g (author v) (vts v)) -> read f k vs = read g k vs.
Proof.
  intros Hfg. unfold read, newest. rewrite !find_head. rewrite (Mvcc.filter_ext_in (sees f k) (sees g k)); [done|].
  intros v Hv. unfold sees. case_bool_decide; [|done]. cbn. by apply Hfg.
Qed.

Lemma read_vput f k nv vs :
  (vkey nv = k -> f (author nv) (vts nv) = false) ->
  (forall v, v ∈ vs -> vkey v = k -> same_slot nv v -> f (author v) (vts v) = false) ->
  read f k (vput nv vs) = read f k vs.
Proof.
  intros Hn Hf. unfold read, newest. rewrite !find_head, vput_unseen; [done|..].
  - unfold sees. case_bool_decide; [|done]. cbn. by apply Hn.
  - intros v Hv S. unfold sees. case_bool_decide; [|done]. cbn. by apply Hf.
Qed.

Lemma slot_unique vs a b :
  StronglySorted version_lt vs -> a ∈ vs -> b ∈ vs -> same_slot a b -> a = b.
Proof.
  induction 1 as [|v vs S IH F]; [by intros ?%elem_of_nil|]. rewrite Forall_forall in F.
  intros [->|Ha]%elem_of_cons [->|Hb]%elem_of_cons Hs; [done|..|by apply IH].
  - by destruct (version_lt_slot v b (F b Hb)).
  - destruct Hs. by destruct (version_lt_slot v a (F a Ha)).
Qed.

Lemma vput_same nv vs : StronglySorted version_lt vs -> nv ∈ vs -> vput nv vs = vs.
Proof.
  induction 1 as [|v vs S IH F]; [by intros ?%elem_of_nil|]. intros [->|Hn]%elem_of_cons; cbn.
  - by rewrite (proj2 (version_cmp_eq _ _ _ _)).
  - rewrite Forall_forall in F. specialize (F nv Hn). destruct (version_cmp _ _ _ _) eqn:C.
    + apply version_cmp_eq in C as [? ?]. destruct (version_lt_slot v nv F). by split.
    + exfalso. apply (version_lt_slot v v); [|by split]. by apply (version_lt_trans _ nv).
    + by rewrite IH.
Qed.

Lemma resolved_fun c v ct ct' : resolved c v ct -> resolved c v ct' -> ct = ct'.
Proof. intros [?|(? & _ & _ & ->)] [?|(? & _ & _ & ->)]; congruence. Qed.

(** The value of [k] in the snapshot of a transaction that began at [b]: its
    own write, else the last commit by then, else nothing. *)
Inductive snapshot_value (c : Core) (vs : list version) (t b : Z) (k : bytes) : option bytes -> Prop :=
| value_own v :
    v ∈ vs -> vkey v = k -> author v = t -> snapshot_value c vs t b k (live (vval v))
| value_committed v ct :
    (forall u, u ∈ vs -> vkey u = k -> author u <> t) ->
    v ∈ vs -> vkey v = k -> resolved c v ct -> ct <= b ->
    (forall u cu, u ∈ vs -> vkey u = k -> resolved c u cu -> cu <= b -> u = v \/ cu < ct) ->
    snapshot_value c vs t b k (live (vval v))
| value_absent :
    (forall u, u ∈ vs -> vkey u = k -> author u <> t) ->
    (forall u cu, u ∈ vs -> vkey u = k -> resolved c u cu -> b < cu) ->
    snapshot_value c vs t b k None.

Lemma si_read_spec s t b o k :
  si_inv s -> c_act (si_core s) !! t = Some (b, o) ->
  snapshot_value (si_core s) (si_versions s) t b k (read (si_sees (si_core s) t b) k (si_versions s)).
Proof.
  intros I Ht. destruct s as [c d h vs]. cbn [si_core si_versions] in *. pose proof (n_sorted _ I) as S. cbn in S.
  unfold read. destruct (newest (si_sees c t b) k vs) as [v|] eqn:N.
  - apply newest_spec in N as (Hv & Hk & Sv & Max); [|done].
    destruct (decide (author v = t)) as [Et|Et]; [by apply value_own|].
    apply si_sees_iff in Sv as [?|(ct & R & L)]; [done|].
    pose proof (resolved_bound _ _ _ I Hv R) as [B _].
    apply (value_committed _ _ _ _ _ v ct); try done.
    + intros u Hu Ku Au. assert (Bu : vts u = b) by (apply (n_begin _ I u b o Hu); cbn; by rewrite Au).
      assert (vts u <= vts v) by (apply Max; [done..|]; apply si_sees_iff; auto).
      apply Et. apply (n_own _ I v t b o Hv); [done|]. lia.
    + intros u cu Hu Ku Ru Lu. assert (Le : vts u <= vts v) by (apply Max; [done..|]; apply si_sees_iff; eauto).
      destruct (Z.eq_dec (vts u) (vts v)) as [E|E].
      { left. apply (slot_unique vs); try done. split; congruence. }
      destruct (n_order _ I u v Hu Hv) as (cu' & Ru' & Lt'); [congruence|lia|left; eauto|left; eauto|].
      cbn in Ru'. rewrite (resolved_fun _ _ _ _ Ru Ru'). right. lia.
  - assert (No : forall u, u ∈ vs -> vkey u = k -> si_sees c t b (author u) (vts u) = false).
    { intros u Hu Ku. apply list_elem_of_In in Hu. pose proof (List.find_none _ _ N u Hu) as Q. unfold sees in Q.
      by rewrite bool_decide_eq_true_2 in Q. }
    apply value_absent.
    + intros u Hu Ku Au. specialize (No u Hu Ku). by rewrite (proj2 (si_sees_iff c t b u)) in No by auto.
    + intros u cu Hu Ku Ru. apply Z.nle_gt. intros L. specialize (No u Hu Ku).
      by rewrite (proj2 (si_sees_iff c t b u)) in No by eauto.
Qed.

(** A step of the others, or of [t] elsewhere, does not change what [t] reads. *)
Lemma si_read_stable s s' t b o o' k :
  si_inv s -> si_step s s' -> c_act (si_core s) !! t = Some (b, o) -> c_act (si_core s') !! t = Some (b, o') ->
  (forall v, author v = t -> vkey v = k -> v ∈ si_versions s' -> v ∈ si_versions s) ->
  read (si_sees (si_core s') t b) k (si_versions s') = read (si_sees (si_core s) t b) k (si_versions s).
Proof.
  intros I Hs. destruct Hs as [|c d h h' vs|c d h vs t1 b1 k1 v1 Ha Hd Hh Hx Hv Hn|c d h vs t1 b1 Ha Hd|
    c d h vs t1 b1 ct Ha|c d h vs t1 b1 Ha|c d h vs t1 Hd [[b1 o1] Ha]];
    cbn [si_core si_versions]; intros Ht Ht' Hown; try done;
    pose proof (n_core _ I) as C; cbn in C; pose proof (n_act _ _ C _ _ _ Ht) as (_ & Tb & _).
  - pose proof (n_act _ _ C _ _ _ Ha) as (_ & B1 & Co & _). set (nv := mkVersion k1 b1 v1) in *.
    destruct (decide (t1 = t /\ k1 = k)) as [[-> ->]|Hne].
    { rewrite vput_same; [done|apply (n_sorted _ I)|]. apply Hown; [done|done|apply vput_new]. }
    assert (Hidden : forall u, vkey u = k -> author u = t1 -> vts u = b1 -> k1 = k -> si_sees c t b (author u) (vts u) = false).
    { intros u Ku Au Tu Ek. apply not_true_is_false. rewrite si_sees_iff. intros [E|(ct & [Hc|(_ & L & _)] & _)].
      - apply Hne. split; congruence.
      - congruence.
      - lia. }
    apply read_vput; [intros Ek; by apply Hidden|]. intros u Hu Ku [Eu1 Eu2]. cbn in Eu1, Eu2.
    apply Hidden; try congruence. by apply (n_own _ I u t1 b1 None).
  - apply read_ext. intros u Hu Ku. apply Bool.eq_iff_eq_true. rewrite !si_sees_iff.
    pose proof (n_act _ _ C _ _ _ Ha) as (_ & _ & Co & _). split.
    + intros [?|(ct & R & L)]; [auto|]. apply resolved_assigned in R as [[E ->]|[_ R]]; [lia|eauto|done].
    + intros [?|(ct & R & L)]; [auto|right]. exists ct. split; [|done]. destruct (decide (author u = t1)) as [E|E].
      * exfalso. eapply (active_unresolved _ u b1 ct I); [done|cbn; by rewrite E|done].
      * unfold resolved in *. change (c_known (assigned t1 b1 c)) with (c_known c). cbn [assigned c_comm c_ckpt].
        by rewrite lookup_insert_ne.
  - apply read_ext. intros u Hu Ku. apply Bool.eq_iff_eq_true. rewrite !si_sees_iff.
    assert (K : forall x, x ∈ c_known (aborted t1 c) <-> x = t1 \/ x ∈ c_known c).
    { intros x. unfold c_known. cbn. rewrite !elem_of_union, elem_of_singleton. tauto. }
    unfold resolved. setoid_rewrite (K (author u)). cbn [aborted c_comm c_ckpt]. split; intros [?|(ct & [R|(R1 & R2 & R3 & R4)] & L)];
      eauto 10; right; exists ct; (split; [|done]); right; split_and!; auto.
    intros [E|?]; [|done].
    assert (vts u = b1) by (apply (n_begin _ I u b1 o1 Hu); cbn; by rewrite E).
    pose proof (n_act _ _ C _ _ _ Ha). lia.
Qed.
