(* ===== verification/Snapshot.v ===== *)
(** Snapshot isolation of the database, for every interleaving.

    A [World] is the shared store with what the transactions know of their
    locks.  [world_step] splits the database's calls where other threads may
    run in between: locking, writing under the lock, drawing the commit
    timestamp, releasing the locks, leaving the active set; the log may move at
    any point.  Each step is one of the abstract machine [SiModel], or none.
    Checkpoints and garbage collection while transactions run are not steps:
    Anomalies.v shows what they can break. *)

From Stdlib Require Import ZArith Lia List Bool.
From S2P Require Import Prelude Common WalRecord Wal Engine Mvcc LockManager TxnManager Isolation TxnEngine Database SiModel.
From coqutil Require Import Byte.
From stdpp Require Import base gmap list strings sets sorting relations.
#[local] Open Scope Z_scope.

(** ** The manager, abstractly *)

Definition span (x : Transaction) : Z * option Z := (begin_ts_of x, commit_ts_of x).

Definition core_of (m : TransactionManager) : Core :=
  mkCore (next_txn_id m) (span <$> active_txns m) (next_ts m) (committed_txns m) (uncommitted_txns m)
    (aborted_txns m) (checkpoint_ts m).

(** Transactions read as of their begin. *)
Definition reads_at_begin (m : TransactionManager) : Prop :=
  map_Forall (fun _ x => read_ts x = begin_ts_of x) (active_txns m).

(** The manager moved from [m] to [m'], which is [c] abstractly. *)
Definition moves (m m' : TransactionManager) (c : Core) : Prop :=
  core_of m' = c /\ lock_manager m' = lock_manager m /\ (reads_at_begin m -> reads_at_begin m').

(** ** Worlds *)

Section world.
Context {E : Type} `{StorageEngine E} (crc32 : bytes -> Z).

Record World := mkWorld {
  w_store : @Store E;
  w_waiting : gmap Z (bytes * LockMode * Z);
  w_held : held_locks;
  w_doomed : gset Z
}.

Definition w_mgr (w : World) : TransactionManager := st_mgr (w_store w).
Definition w_engine (w : World) : E := st_engine (w_store w).
Definition sys_of (w : World) : Sys := mkSys (lock_manager (w_mgr w)) (w_waiting w) (w_held w).
Definition si_of (w : World) (vs : list version) : Si := mkSi (core_of (w_mgr w)) (w_doomed w) (w_held w) vs.

Definition with_store (w : World) (s : @Store E) : World := mkWorld s (w_waiting w) (w_held w) (w_doomed w).
Definition with_sys (w : World) (y : Sys) : World :=
  mkWorld (mkStore (w_engine w) (st_wal (w_store w)) (with_locks (locks y) (w_mgr w)))
    (waiting y) (held y) (w_doomed w).

(** [t] is active, with or without a commit timestamp. *)
Definition is_active (w : World) (t : Z) (c : option Z) : Prop :=
  exists x, active_txns (w_mgr w) !! t = Some x /\ commit_ts_of x = c.

Inductive world_step : World -> World -> Prop :=
| step_begin w m r s' :
    next_txn_id (w_mgr w) < U64_MAX -> begin_txn crc32 m (w_store w) = (r, s') -> r <> Panic ->
    world_step w (with_store w s')
| step_lock w y :
    lock_step (sys_of w) y -> keeps_locks (fun _ => False) (w_held w) (held y) -> world_step w (with_sys w y)
| step_write w t k v r s' :
    is_active w t None -> t ∉ w_doomed w -> w_held w !! (t, k) = Some Exclusive ->
    version_txn v = t -> value_ok v = true ->
    write_version crc32 SnapshotIsolation t k v (w_store w) = (r, s') -> r <> Panic ->
    world_step w (with_store w s')
| step_assign w t r s' :
    is_active w t None -> t ∉ w_doomed w ->
    on_mgr (validate_commit SnapshotIsolation t) (w_store w) = (r, s') -> r <> Panic ->
    world_step w (with_store w s')
| step_log w wal' :
    world_step w (with_store w (mkStore (w_engine w) wal' (w_mgr w)))
| step_release w t s' :
    t ∈ w_doomed w \/ (exists c, is_active w t (Some c)) -> w_waiting w !! t = None ->
    release_locks t (w_store w) = (Ok tt, s') ->
    world_step w (mkWorld s' (w_waiting w) (drop_locks t (w_held w)) (w_doomed w))
| step_finish w t c r s' :
    is_active w t (Some c) -> on_mgr (TxnManager.commit t) (w_store w) = (r, s') ->
    world_step w (with_store w s')
| step_doom w t :
    is_active w t None ->
    world_step w (mkWorld (w_store w) (w_waiting w) (w_held w) ({[t]} ∪ w_doomed w))
| step_abort w t r s' :
    t ∈ w_doomed w -> on_mgr (TxnManager.abort t) (w_store w) = (r, s') ->
    world_step w (with_store w s').

(** A database just opened: no transaction yet, and a stored history in which
    the versions of a key that count were committed one after the other. *)
Record opened (w : World) (vs : list version) : Prop := {
  o_holds : holds_versions (w_engine w) vs;
  o_active : active_txns (w_mgr w) = ∅;
  o_locks : sys_of w = lock_init;
  o_doomed : w_doomed w = ∅;
  o_ckpt : 0 <= checkpoint_ts (w_mgr w) < next_ts (w_mgr w);
  o_id : 1 <= next_txn_id (w_mgr w);
  o_comm : forall t ct, committed_txns (w_mgr w) !! t = Some ct ->
    t < next_txn_id (w_mgr w) /\ ct < next_ts (w_mgr w) /\ t ∉ known_not_committed (w_mgr w);
  o_known : forall t, t ∈ known_not_committed (w_mgr w) -> t < next_txn_id (w_mgr w);
  o_vers : forall v, v ∈ vs -> 1 <= author v < next_txn_id (w_mgr w) /\ vts v < next_ts (w_mgr w) /\
    forall ct, committed_txns (w_mgr w) !! author v = Some ct -> vts v < ct;
  o_order : forall v1 v2 c1 c2, v1 ∈ vs -> v2 ∈ vs -> vkey v1 = vkey v2 -> vts v1 < vts v2 ->
    resolved (core_of (w_mgr w)) v1 c1 -> resolved (core_of (w_mgr w)) v2 c2 -> c1 < vts v2
}.

(** What holds throughout. *)
Record world_ok (w : World) (vs : list version) : Prop := {
  ok_holds : holds_versions (w_engine w) vs;
  ok_locks : rtc lock_step lock_init (sys_of w);
  ok_reads : reads_at_begin (w_mgr w);
  ok_si : si_inv (si_of w vs)
}.
End world.

(** ** Running the calls *)

Lemma M_bind_inv {S A B} (m : M S A) (f : A -> M S B) s r s' :
  (m ≫= f) s = (r, s') ->
  (exists a s1, m s = (Ok a, s1) /\ f a s1 = (r, s')) \/
  (exists e, m s = (Err e, s') /\ r = Err e) \/ (m s = (Panic, s') /\ r = Panic).
Proof.
  unfold mbind, M_bind. destruct (m s) as [[a|e|] s1]; [eauto|..]; intros [= <- <-]; eauto.
Qed.

Lemma bind_ok {S A B} (m : M S A) (f : A -> M S B) s a s1 : m s = (Ok a, s1) -> (m ≫= f) s = f a s1.
Proof. unfold mbind, M_bind. by intros ->. Qed.

Lemma M_bind_assoc {S A B C} (m : M S A) (f : A -> M S B) (g : B -> M S C) s :
  (m ≫= fun x => f x ≫= g) s = ((m ≫= f) ≫= g) s.
Proof. unfold mbind, M_bind. by destruct (m s) as [[a|e|] s1]. Qed.

Ltac m_inv H :=
  apply M_bind_inv in H as [(?a & ?s1 & ?E & H)|[(?e & ?E & ?R)|(?E & ?R)]].

Lemma lookup_active_inv t m r m' :
  lookup_active t m = (r, m') -> m' = m /\ match r with Ok x => active_txns m !! t = Some x | Err _ => True | Panic => False end.
Proof. unfold lookup_active, ok_or. intros [= <- <-]. by destruct (active_txns m !! t). Qed.

Lemma moves_refl m : moves m m (core_of m).
Proof. done. Qed.

Lemma update_last_lsn_moves t l m r m' : update_last_lsn t l m = (r, m') -> moves m m' (core_of m).
Proof.
  unfold update_last_lsn. intros U. m_inv U; apply lookup_active_inv in E as [-> Hx]; [|apply moves_refl|apply moves_refl].
  unfold modify in U. injection U as <- <-. split; [|split; [done|]].
  - unfold core_of. cbn. f_equal. rewrite fmap_insert. apply insert_id. by rewrite lookup_fmap, Hx.
  - intros Hr. by apply map_Forall_insert_2; [apply (Hr t a)|].
Qed.

Lemma as_u64_succ n : 0 <= n < U64_MAX -> as_unsigned 64 (n + 1) = n + 1.
Proof. unfold U64_MAX. intros. apply as_unsigned_small. lia. Qed.

Lemma oracle_next_inv m r m' :
  0 <= next_ts m -> oracle_next m = (r, m') -> r <> Panic ->
  r = Ok (next_ts m) /\ m' = with_next_ts (next_ts m + 1) m.
Proof.
  unfold oracle_next. intros Hp [= <- <-]. destruct (Z.ltb_spec (next_ts m) U64_MAX); [|done].
  intros _. by rewrite as_u64_succ by lia.
Qed.

Lemma begin_moves mode l m r m' :
  0 <= next_txn_id m < U64_MAX -> 0 <= next_ts m -> TxnManager.begin mode l m = (r, m') -> r <> Panic ->
  m' = m \/ (r = Ok (next_txn_id m) /\ moves m m' (begun (core_of m))).
Proof.
  intros Hid Hts B Hr. unfold TxnManager.begin, gets, mbind, M_bind in B.
  destruct (MAX_ACTIVE_TRANSACTIONS <=? _); [left; by injection B|]. unfold modify in B.
  destruct (oracle_next _) as [r1 m1] eqn:O.
  apply oracle_next_inv in O as [-> ->]; [|done|by intros ->; simplify_eq].
  injection B as <- <-. right. split; [done|]. unfold moves, core_of, begun. cbn.
  rewrite as_u64_succ, fmap_insert by done. split; [done|]. split; [done|].
  intros Hx. by apply map_Forall_insert_2.
Qed.

Lemma assign_moves t x m r m' :
  active_txns m !! t = Some x -> 0 <= next_ts m -> assign_commit_ts t m = (r, m') -> r <> Panic ->
  r = Ok (next_ts m) /\ moves m m' (assigned t (begin_ts_of x) (core_of m)).
Proof.
  intros Ht Hts A Hr. unfold assign_commit_ts, lookup_active, mbind, M_bind, modify in A. rewrite Ht in A. cbn [ok_or] in A.
  destruct (oracle_next _) as [r1 m1] eqn:O.
  apply oracle_next_inv in O as [-> ->]; [|done|by intros ->; simplify_eq].
  injection A as <- <-. split; [done|]. unfold moves, core_of, assigned. cbn. rewrite fmap_insert.
  split; [done|]. split; [done|]. intros Hx. apply map_Forall_insert_2; [|done]. exact (Hx t x Ht).
Qed.

Lemma assign_active t m ct m' :
  assign_commit_ts t m = (Ok ct, m') -> exists x, active_txns m' !! t = Some x /\ commit_ts_of x = Some ct.
Proof.
  unfold assign_commit_ts, lookup_active, mbind, M_bind, modify. destruct (active_txns m !! t) as [x|]; [|done].
  cbn [ok_or]. destruct (oracle_next m) as [[ts|e|] m1]; [|done..]. intros [= <- <-]. cbn.
  rewrite lookup_insert_eq. eexists. split; done.
Qed.

Lemma commit_moves t m r m' :
  TxnManager.commit t m = (r, m') -> m' = m \/ (is_Some (active_txns m !! t) /\ moves m m' (finished t (core_of m))).
Proof.
  unfold TxnManager.commit. intros C. m_inv C; apply lookup_active_inv in E as [-> Hx]; [|by left..].
  injection C as <- <-. right. split; [by eexists|]. unfold moves, core_of, finished. cbn. rewrite fmap_delete.
  split; [done|]. split; [done|]. intros Hr. by apply map_Forall_delete.
Qed.

Lemma abort_moves t m r m' :
  TxnManager.abort t m = (r, m') -> m' = m \/ (is_Some (active_txns m !! t) /\ moves m m' (SiModel.aborted t (core_of m))).
Proof.
  unfold TxnManager.abort. intros C. m_inv C; apply lookup_active_inv in E as [-> Hx]; [|by left..].
  injection C as <- <-. right. split; [by eexists|]. unfold moves, core_of, SiModel.aborted. cbn. rewrite fmap_delete.
  split; [done|]. split; [done|]. intros Hr. by apply map_Forall_delete.
Qed.

Lemma encode_mvcc_key_inv k ts mk :
  encode_mvcc_key k ts = Ok mk -> len k <= 2 ^ 32 - 1 /\ in_u64 ts = true /\ mk = mvcc_key k ts.
Proof.
  intros Hk. assert (P : len k <= 2 ^ 32 - 1 /\ in_u64 ts = true).
  { unfold encode_mvcc_key in Hk. destruct (Z.leb_spec (len k) (2 ^ 32 - 1)); [|done]. split; [done|].
    cbn [negb] in Hk. unfold arith in Hk. destruct (in_u64 (U64_MAX - ts)) eqn:F; [|done].
    apply in_u64_iff in F. apply in_u64_iff. unfold U64_MAX in F. lia. }
  destruct P as [P1 P2]. split_and!; [done..|]. rewrite encode_mvcc_key_ok in Hk by done. by injection Hk.
Qed.

(** Storing one more version. *)
Lemma put_holds {E} `{StorageEngine E} (e e' : E) vs nv :
  holds_versions e vs -> version_ok nv -> engine_put e (stored nv).1 (stored nv).2 = Ok e' ->
  holds_versions e' (vput nv vs).
Proof.
  intros [He Hok] Hn P. destruct (engine_put_spec e (stored nv).1 (stored nv).2) as (e1 & P1 & E1).
  rewrite P in P1. injection P1 as <-. unfold holds_versions. rewrite E1, He. clear - Hok Hn. split.
  - induction Hok as [|v vs Hv Hok IH]; [done|]. destruct Hv as (K & T & _), Hn as (Kn & Tn & ?). cbn.
    rewrite mvcc_key_cmp by done. destruct (version_cmp _ _ _ _); cbn; [done|done|]. by rewrite <- IH.
  - apply Forall_forall. intros v [->|Hv]%vput_elem; [done|]. rewrite Forall_forall in Hok. by apply Hok.
Qed.

(** The write check reads every version of the key. *)
Lemma version_refs_ok k vs :
  Forall version_ok vs -> Forall (fun v => vkey v = k) vs ->
  version_refs k (map Ok (map stored vs)) = Ok (map (fun v => mkRef (author v) (vts v)) vs).
Proof.
  induction 1 as [|v vs (K & T & V) Hok IH]; intros Hk; [done|]. inversion Hk as [|? ? Ek Hk']; subst.
  cbn [map]. change (stored v) with (mvcc_key (vkey v) (vts v), encode_mvcc_value (vval v)).
  cbn [version_refs mbind outcome_bind]. rewrite decode_mvcc_key_ok by done. cbn [mbind outcome_bind].
  rewrite bool_decide_eq_true_2 by done. cbn [negb]. rewrite decode_mvcc_value_ok by done.
  cbn [mbind outcome_bind]. by rewrite IH.
Qed.

Lemma si_on_write_ok t refs b view :
  si_on_write t refs b view = Ok tt ->
  forall v ct, v ∈ refs -> view_committed view !! ref_txn v = Some ct -> ct <= b.
Proof.
  induction refs as [|u refs IH]; cbn [si_on_write]; [by intros _ v ct ?%elem_of_nil|]. intros Hw v ct.
  rewrite elem_of_cons. intros [->|Hv] Hc.
  - rewrite Hc in Hw. destruct (Z.ltb_spec b ct); [done|lia].
  - apply (IH ltac:(destruct (view_committed view !! ref_txn u); [by split_if|done]) v ct Hv Hc).
Qed.

Section calls.
Context {E : Type} `{StorageEngine E} (crc32 : bytes -> Z).

Lemma on_mgr_inv {A} (c : MM A) (s : @Store E) r s' :
  on_mgr c s = (r, s') -> c (st_mgr s) = (r, st_mgr s') /\ st_engine s' = st_engine s /\ st_wal s' = st_wal s.
Proof. unfold on_mgr, zoom. destruct (c (st_mgr s)) as [r1 m1]. by intros [= <- <-]. Qed.

Lemma on_mgr_mode t x (s : @Store E) :
  active_txns (st_mgr s) !! t = Some x -> on_mgr (mode t) s = (Ok (txn_mode x), s).
Proof. intros Hx. unfold on_mgr, zoom, mode, lookup_active, mbind, M_bind. rewrite Hx. by destruct s. Qed.

Lemma on_mgr_begin_ts t x (s : @Store E) :
  active_txns (st_mgr s) !! t = Some x -> on_mgr (begin_ts t) s = (Ok (begin_ts_of x), s).
Proof. intros Hx. unfold on_mgr, zoom, begin_ts, lookup_active, mbind, M_bind. rewrite Hx. by destruct s. Qed.

Lemma on_mgr_last_lsn t x (s : @Store E) :
  active_txns (st_mgr s) !! t = Some x -> on_mgr (last_lsn t) s = (Ok (last_lsn_of x), s).
Proof. intros Hx. unfold on_mgr, zoom, last_lsn, lookup_active, mbind, M_bind. rewrite Hx. by destruct s. Qed.

Lemma on_wal_inv {A} (c : M WalState A) (s : @Store E) r s' :
  on_wal c s = (r, s') -> st_mgr s' = st_mgr s /\ st_engine s' = st_engine s.
Proof. unfold on_wal, zoom. destruct (c (st_wal s)) as [r1 m1]. by intros [= <- <-]. Qed.

Lemma check_write_inv t k b (s : @Store E) vs r s' :
  holds_versions (st_engine s) vs -> check_write SnapshotIsolation t k b s = (r, s') ->
  s' = s /\ (r = Ok tt -> no_later_commit (core_of (st_mgr s)) vs k b).
Proof.
  intros Hh Hc. unfold check_write, TxnEngine.scan_versions, mbind, M_bind in Hc.
  unfold encode_mvcc_key_start, encode_mvcc_key_end in Hc.
  destruct (encode_mvcc_key k U64_MAX) as [mk|e|] eqn:E1; cbn [mbind outcome_bind] in Hc; [|by injection Hc as <- <-..].
  apply encode_mvcc_key_inv in E1 as (Hk & _ & ->). rewrite encode_mvcc_key_ok in Hc by done. cbn [outcome_bind] in Hc.
  rewrite (scan_bucket _ vs) in Hc by done.
  rewrite (Mvcc.filter_ext_in _ (fun v => bool_decide (vkey v = k))) in Hc.
  2: { intros v Hv. apply bucket_one; [done|]. destruct Hh as [_ Hok]. rewrite Forall_forall in Hok. by apply Hok. }
  rewrite version_refs_ok in Hc.
  - unfold on_mgr, zoom, gets, pure in Hc. injection Hc as <- <-. split; [by destruct s|].
    intros Hw v ct Hv Hvk Hct. apply (si_on_write_ok _ _ _ _ Hw (mkRef (author v) (vts v))); [|done].
    apply list_elem_of_fmap. exists v. split; [done|]. apply list_elem_of_In, filter_In.
    split; [by apply list_elem_of_In|]. by apply bool_decide_eq_true.
  - destruct Hh as [_ Hok]. rewrite Forall_forall in *. intros v Hv. apply Hok.
    apply list_elem_of_In, filter_In in Hv as [Hv _]. by apply list_elem_of_In.
  - apply Forall_forall. intros v Hv. apply list_elem_of_In, filter_In in Hv as [_ Hv]. by apply bool_decide_eq_true in Hv.
Qed.

Ltac stay := split; [done|by left].

(** A write that returns leaves the manager as it was, and stores the version
    at the writer's begin timestamp if the check let it. *)
Lemma write_version_inv t k v (s : @Store E) vs x r s' :
  holds_versions (st_engine s) vs -> active_txns (st_mgr s) !! t = Some x -> value_ok v = true ->
  write_version crc32 SnapshotIsolation t k v s = (r, s') ->
  moves (st_mgr s) (st_mgr s') (core_of (st_mgr s)) /\
  (st_engine s' = st_engine s \/
   (holds_versions (st_engine s') (vput (mkVersion k (begin_ts_of x) v) vs) /\
    no_later_commit (core_of (st_mgr s)) vs k (begin_ts_of x))).
Proof.
  intros Hh Hx Hv W. unfold write_version in W.
  rewrite (bind_ok _ _ _ _ _ (on_mgr_mode _ _ _ Hx)) in W.
  destruct (bool_decide _); [injection W as <- <-; stay|].
  rewrite (bind_ok _ _ _ _ _ (on_mgr_begin_ts _ _ _ Hx)) in W.
  apply M_bind_inv in W as [([] & s1 & Ck & W)|[(e & Ck & ->)|[Ck ->]]];
    apply (check_write_inv _ _ _ _ vs) in Ck as [-> Ck]; try done; [specialize (Ck eq_refl)|stay..].
  apply M_bind_inv in W as [(mk & s1 & Ek & W)|[(e & Ek & ->)|[Ek ->]]]; unfold pure in Ek; [|simplify_eq; stay..].
  injection Ek as Ek <-. apply encode_mvcc_key_inv in Ek as (Hk & Hb & ->).
  rewrite (bind_ok _ _ _ _ _ (on_mgr_last_lsn _ _ _ Hx)) in W.
  apply M_bind_inv in W as [(lsn & s1 & Wa & W)|[(e & Wa & ->)|[Wa ->]]]; apply on_wal_inv in Wa as [Wm We]; rewrite <- Wm, <- We in *; [|stay..].
  apply M_bind_inv in W as [([] & s2 & Up & W)|[(e & Up & ->)|[Up ->]]];
    apply on_mgr_inv in Up as (Up & Ue & _); apply update_last_lsn_moves in Up; rewrite <- Ue in *; [|stay..].
  unfold put_raw in W. destruct (engine_put_spec (st_engine s2) (mvcc_key k (begin_ts_of x)) (encode_mvcc_value v)) as (e' & P & _).
  rewrite P in W. injection W as <- <-. split; [done|]. right. split; [|done]. cbn [st_engine].
  by apply (put_holds (st_engine s2) e' vs (mkVersion k (begin_ts_of x) v)).
Qed.

Lemma moves_trans m m1 m2 c : moves m m1 c -> moves m1 m2 (core_of m1) -> moves m m2 c.
Proof. intros (E1 & L1 & R1) (E2 & L2 & R2). split_and!; [congruence|congruence|auto]. Qed.

Lemma begin_txn_inv m (s : @Store E) r s' :
  0 <= next_txn_id (st_mgr s) < U64_MAX -> 0 <= next_ts (st_mgr s) -> begin_txn crc32 m s = (r, s') -> r <> Panic ->
  st_engine s' = st_engine s /\
  exists c, moves (st_mgr s) (st_mgr s') c /\ (c = core_of (st_mgr s) \/ c = begun (core_of (st_mgr s))).
Proof.
  intros Hid Hts B Hr. unfold begin_txn in B.
  assert (K : forall r1 s1, on_mgr (TxnManager.begin m LSN_INVALID) s = (r1, s1) -> r1 <> Panic -> st_engine s1 = st_engine s /\
    exists c, moves (st_mgr s) (st_mgr s1) c /\ (c = core_of (st_mgr s) \/ c = begun (core_of (st_mgr s)))).
  { intros r1 s1 (Bg & Be & _)%on_mgr_inv Hr1. split; [done|].
    apply begin_moves in Bg as [->|[_ Mv]]; eauto using moves_refl. }
  apply M_bind_inv in B as [(t & s1 & Bg & B)|[(e & Bg & ->)|[Bg ->]]]; [|by apply K in Bg|done].
  apply K in Bg as [Be (c & Mv & Hc)]; [|done]. clear K.
  destruct (bool_decide _); [|injection B as <- <-; eauto].
  apply M_bind_inv in B as [(lsn & s2 & Wa & B)|[(e & Wa & ->)|[Wa ->]]];
    apply on_wal_inv in Wa as [Wm We]; rewrite <- Wm, <- We in *; [|eauto..].
  apply M_bind_inv in B as [([] & s3 & Up & B)|[(e & Up & ->)|[Up ->]]];
    apply on_mgr_inv in Up as (Up & Ue & _); apply update_last_lsn_moves in Up; rewrite <- Ue in *;
    [injection B as <- <-|..]; eauto using moves_trans.
Qed.

Lemma release_locks_inv t (s s' : @Store E) :
  release_locks t s = (Ok tt, s') ->
  exists l, release_all (lock_manager (st_mgr s)) t = Ok l /\
    s' = mkStore (st_engine s) (st_wal s) (with_locks l (st_mgr s)).
Proof. unfold release_locks. destruct (release_all _ _) as [l| |]; intros [= <-]; eauto. Qed.
End calls.

(** ** The steps are steps of the abstract machine *)

Section simulation.
Context {E : Type} `{StorageEngine E} (crc32 : bytes -> Z).

Lemma core_active (m : TransactionManager) t x :
  active_txns m !! t = Some x -> c_act (core_of m) !! t = Some (begin_ts_of x, commit_ts_of x).
Proof. intros Hx. cbn. by rewrite lookup_fmap, Hx. Qed.

Lemma world_exclusive (w : World (E:=E)) : rtc lock_step lock_init (sys_of w) -> exclusive (w_held w).
Proof.
  intros I%reachable_inv t1 t2 k m H1 H2. by eapply (held_exclusive (sys_of w)).
Qed.

(** The next world, given how the manager moved and what is stored. *)
Lemma world_moved (w w' : World (E:=E)) vs vs' c :
  world_ok w vs -> moves (w_mgr w) (w_mgr w') c -> w_waiting w' = w_waiting w -> w_held w' = w_held w ->
  holds_versions (w_engine w') vs' ->
  (mkSi c (w_doomed w') (w_held w) vs' = si_of w vs \/ si_step (si_of w vs) (mkSi c (w_doomed w') (w_held w) vs')) ->
  world_ok w' vs' /\ (si_of w' vs' = si_of w vs \/ si_step (si_of w vs) (si_of w' vs')).
Proof.
  intros [Hh Hl Hr Hs] (Mc & Ml & Mr) Ew Eh Hh' St.
  assert (Es : si_of w' vs' = mkSi c (w_doomed w') (w_held w) vs') by (unfold si_of; by rewrite Mc, Eh).
  rewrite Es. split; [|done]. constructor; [done| |auto|].
  - unfold sys_of. by rewrite Ml, Ew, Eh.
  - rewrite Es. destruct St as [->|St]; [done|]. by apply (si_step_inv (si_of w vs)).
Qed.

(** The next world, after a step of the lock manager. *)
Lemma world_locked (w w' : World (E:=E)) vs y :
  world_ok w vs -> lock_step (sys_of w) y -> sys_of w' = y -> w_doomed w' = w_doomed w ->
  core_of (w_mgr w') = core_of (w_mgr w) -> active_txns (w_mgr w') = active_txns (w_mgr w) ->
  w_engine w' = w_engine w -> keeps_locks (may_release (si_of w vs)) (w_held w) (held y) ->
  world_ok w' vs /\ (si_of w' vs = si_of w vs \/ si_step (si_of w vs) (si_of w' vs)).
Proof.
  intros [Hh Hl Hr Hs] L Ey Ed Ec Ea Ee K.
  assert (St : si_step (si_of w vs) (si_of w' vs)).
  { replace (si_of w' vs) with (mkSi (core_of (w_mgr w)) (w_doomed w) (held y) vs).
    - by apply si_locks.
    - unfold si_of. by rewrite Ec, Ed, <- Ey. }
  split; [|by right]. constructor.
  - by rewrite Ee.
  - rewrite Ey. by eapply rtc_r.
  - unfold reads_at_begin. by rewrite Ea.
  - by apply (si_step_inv (si_of w vs)).
Qed.

Lemma world_step_sim (w w' : World (E:=E)) vs :
  world_ok w vs -> world_step crc32 w w' ->
  exists vs', world_ok w' vs' /\ (si_of w' vs' = si_of w vs \/ si_step (si_of w vs) (si_of w' vs')).
Proof.
  intros I Hs. pose proof I as [Hh Hl Hr Hsi]. pose proof (n_core _ Hsi) as C.
  pose proof (n_ckpt _ _ C) as Hck. pose proof (n_pos _ _ C) as Hpos. cbn in Hck, Hpos.
  destruct Hs as [w m r s' Hid B Hp|w y L K|w t k v r s' (x & Hx & Ho) Hd Hheld Hv Hok W Hp|
    w t r s' (x & Hx & Ho) Hd A Hp|w wal'|w t s' Hrel Hw R|w t c r s' (x & Hx & Ho) F|w t (x & Hx & Ho)|w t r s' Hd A].
  - apply begin_txn_inv in B as [Ee (c & Mv & Hc)]; [|unfold w_mgr in *; lia|unfold w_mgr in *; lia|done].
    exists vs. apply (world_moved w _ vs vs c); try done; [by unfold w_engine; cbn; rewrite Ee|].
    destruct Hc as [->| ->]; [by left|right; apply si_begin].
  - exists vs. apply (world_locked w _ vs y); try done; [by destruct y|]. intros t k _ Hk. apply K; [by intros []|done].
  - apply (write_version_inv _ _ _ _ _ vs x) in W as [Mv St]; try done. pose proof (core_active _ _ _ Hx) as Ha. rewrite Ho in Ha.
    destruct St as [Ee|[Hh' Hn]].
    + exists vs. apply (world_moved w _ vs vs (core_of (w_mgr w))); try done; [by unfold w_engine; cbn; rewrite Ee|by left].
    + eexists. apply (world_moved w _ vs _ (core_of (w_mgr w))); try done. right.
      apply (si_write _ _ _ _ t); try done. by apply world_exclusive.
  - apply on_mgr_inv in A as (A & Ee & _). apply (assign_moves _ x) in A as [_ Mv]; try done; [|unfold w_mgr in *; lia].
    exists vs. apply (world_moved w (with_store w s') vs vs _ I Mv); try done; [by unfold w_engine; cbn; rewrite Ee|].
    right. apply si_assign; [|done]. rewrite <- Ho. by apply core_active.
  - exists vs. apply (world_moved w _ vs vs (core_of (w_mgr w))); try done. by left.
  - apply release_locks_inv in R as (l & R & ->). exists vs.
    apply (world_locked w _ vs (mkSys l (w_waiting w) (drop_locks t (w_held w)))); try done; [by apply release_every|].
    intros t' k Hn Hk. apply map_lookup_filter_Some. split; [done|]. cbn. intros ->. apply Hn.
    destruct Hrel as [?|(c & x & Hx & Ho)]; [by left|right]. apply core_active in Hx. rewrite Ho in Hx. eauto.
  - apply on_mgr_inv in F as (F & Ee & _). exists vs. apply commit_moves in F as [F|[_ Mv]].
    + apply (world_moved w _ vs vs (core_of (w_mgr w))); try done;
        [unfold w_mgr; cbn; by rewrite F|by unfold w_engine; cbn; rewrite Ee|by left].
    + apply (world_moved w (with_store w s') vs vs _ I Mv); try done; [by unfold w_engine; cbn; rewrite Ee|].
      right. apply (si_finish _ _ _ _ t (begin_ts_of x) c). rewrite <- Ho. by apply core_active.
  - exists vs. apply (world_moved w _ vs vs (core_of (w_mgr w))); try done. right.
    apply (si_doom _ _ _ _ _ (begin_ts_of x)). rewrite <- Ho. by apply core_active.
  - apply on_mgr_inv in A as (A & Ee & _). exists vs. apply abort_moves in A as [A|[[x Hx] Mv]].
    + apply (world_moved w _ vs vs (core_of (w_mgr w))); try done;
        [unfold w_mgr; cbn; by rewrite A|by unfold w_engine; cbn; rewrite Ee|by left].
    + apply (world_moved w (with_store w s') vs vs _ I Mv); try done; [by unfold w_engine; cbn; rewrite Ee|].
      right. apply si_abort; [done|]. rewrite (core_active _ _ _ Hx). by eexists.
Qed.
End simulation.

(** ** The calls are sequences of steps *)

Inductive call :=
| Begin (m : TxnMode)
| Put (t : Z) (k v : bytes)
| Delete (t : Z) (k : bytes)
| Commit (t : Z)
| Abort (t : Z).

Section calls_as_steps.
Context {E : Type} `{StorageEngine E} (crc32 : bytes -> Z).

Definition run_call (c : call) : M (@Store E) unit :=
  match c with
  | Begin m => begin_txn crc32 m;; mret tt
  | Put t k v => txn_put crc32 SnapshotIsolation t k v
  | Delete t k => txn_delete crc32 SnapshotIsolation t k
  | Commit t => commit_txn crc32 SnapshotIsolation t
  | Abort t => txn_abort crc32 t
  end.

(** [t] may make a call: it is active, not committing or aborting, and not
    blocked in another call. *)
Definition may_call (w : World (E:=E)) (t : Z) : Prop :=
  is_active w t None /\ t ∉ w_doomed w /\ w_waiting w !! t = None.

Definition allowed (w : World (E:=E)) (c : call) : Prop :=
  match c with
  | Begin _ => next_txn_id (w_mgr w) < U64_MAX
  | Put t _ v => may_call w t /\ value_ok (MValue t v) = true
  | Delete t _ => may_call w t /\ value_ok (MTombstone t) = true
  | Commit t | Abort t => may_call w t
  end.

Lemma take_lock_keeps (t : Z) (k : bytes) (h : held_locks) : keeps_locks (fun _ => False) h (take_lock t k Exclusive h).
Proof.
  intros t' k' _ Hk. unfold take_lock. destruct (decide ((t, k) = (t', k'))) as [E0|E0].
  - rewrite E0. by rewrite lookup_insert_eq.
  - by rewrite lookup_insert_ne.
Qed.

Definition relocked (w : World (E:=E)) (l : LockState) (W : gmap Z (bytes * LockMode * Z)) (h : held_locks) : World :=
  mkWorld (mkStore (w_engine w) (st_wal (w_store w)) (with_locks l (w_mgr w))) W h (w_doomed w).

Lemma step_relock w l W h :
  lock_step (sys_of w) (mkSys l W h) -> keeps_locks (fun _ => False) (w_held w) h ->
  world_step crc32 w (relocked w l W h).
Proof. intros L K. exact (step_lock crc32 w (mkSys l W h) L K). Qed.

Lemma lock_alone_steps w t k r s' :
  w_waiting w !! t = None -> lock_alone t k (w_store w) = (r, s') -> r <> Panic ->
  exists w', rtc (world_step crc32) w w' /\ w_store w' = s' /\ w_waiting w' = w_waiting w /\
    w_doomed w' = w_doomed w /\ active_txns (w_mgr w') = active_txns (w_mgr w) /\
    (r = Ok tt -> w_held w' !! (t, k) = Some Exclusive).
Proof.
  intros Hw L Hr. unfold lock_alone, lock_for_write, mbind, M_bind in L.
  destruct (acquire _ t k Exclusive) as [[[l a]|e|]|] eqn:A;
    [|injection L as <- <-; (done || (exists w; split; [apply rtc_refl|by split_and!]))..].
  assert (Keep : keeps_locks (fun _ => False) (w_held w) (w_held w)) by by intros ? ? _.
  destruct a as [|tk|e].
  - injection L as <- <-. exists (relocked w l (w_waiting w) (take_lock t k Exclusive (w_held w))). split.
    + apply rtc_once, step_relock; [by apply (acquire_returns (sys_of w))|apply take_lock_keeps].
    + split_and!; try done. intros _. cbn. unfold take_lock. rewrite lookup_insert_eq. done.
  - set (w1 := relocked w l (<[t := (k, Exclusive, tk)]> (w_waiting w)) (w_held w)).
    assert (S1 : world_step crc32 w w1).
    { apply step_relock; [|done]. by apply (acquire_blocks (sys_of w)). }
    assert (Ew : delete t (w_waiting w1) = w_waiting w) by (cbn; by rewrite delete_insert_id).
    unfold time_out in L. cbn [st_mgr st_engine st_wal lock_manager with_locks] in L.
    destruct (wait_turn l k tk true) as [l2 a] eqn:T. injection L as <- <-. destruct a as [|tk'|e].
    + exists (relocked w1 l2 (delete t (w_waiting w1)) (take_lock t k Exclusive (w_held w))).
      split; [|by split_and!].
      eapply rtc_l; [exact S1|]. apply rtc_once, step_relock; [|apply take_lock_keeps].
      apply (waiter_wakes (sys_of w1) t k Exclusive tk true); [apply lookup_insert_eq|done].
    + exfalso. unfold wait_turn in T. by destruct (bool_decide _).
    + exists (relocked w1 l2 (delete t (w_waiting w1)) (w_held w)).
      split; [|by split_and!].
      eapply rtc_l; [exact S1|]. apply rtc_once, step_relock; [|done].
      apply (waiter_times_out (sys_of w1) t k Exclusive tk true _ e); [apply lookup_insert_eq|done].
  - injection L as <- <-. exists (relocked w l (w_waiting w) (w_held w)). split; [|by split_and!].
    apply rtc_once, step_relock; [|done]. by apply (acquire_fails (sys_of w) t k Exclusive _ e).
Qed.

(** A locked write. *)
Lemma write_steps w t k v r s' :
  may_call w t -> version_txn v = t -> value_ok v = true ->
  (lock_alone t k;; write_version crc32 SnapshotIsolation t k v) (w_store w) = (r, s') -> r <> Panic ->
  exists w', rtc (world_step crc32) w w' /\ w_store w' = s'.
Proof.
  intros ((x & Hx & Ho) & Hd & Hw) Hv Hok L Hr.
  apply M_bind_inv in L as [([] & s1 & L & W)|[(e & L & ->)|[L ->]]]; [| |done];
    apply lock_alone_steps in L as (w1 & St & <- & _ & Ed & Ea & Hh); try done; [|eauto].
  exists (with_store w1 s'). split; [|done]. eapply rtc_r; [exact St|].
  eapply (step_write crc32 w1 t k v r); try done; [|by rewrite Ed|by apply Hh].
  exists x. by rewrite Ea.
Qed.

Lemma log_step (w : World (E:=E)) {A} (c : M WalState A) r s' :
  on_wal c (w_store w) = (r, s') -> world_step crc32 w (with_store w s').
Proof.
  intros (Em & Ee)%on_wal_inv.
  replace s' with (mkStore (w_engine w) (st_wal s') (w_mgr w)) at 1; [apply step_log|].
  unfold w_engine, w_mgr. rewrite <- Em, <- Ee. by destruct s'.
Qed.

(** The log is appended to and synced. *)
Lemma logged_steps (w : World (E:=E)) rec r s' :
  (lsn ← on_wal (wal_append crc32 rec); on_wal (sync_to lsn)) (w_store w) = (r, s') ->
  rtc (world_step crc32) w (with_store w s') /\ st_mgr s' = w_mgr w.
Proof.
  intros L. apply M_bind_inv in L as [(lsn & s1 & L1 & L)|[(e & L & _)|[L _]]].
  - pose proof (log_step _ _ _ _ L1) as S1. apply (log_step (with_store w s1)) in L as S2.
    split; [by eapply rtc_l; [|by apply rtc_once]|]. apply on_wal_inv in L1 as [E1 _], L as [E2 _]. unfold w_mgr. congruence.
  - split; [by apply rtc_once, (log_step _ _ _ _ L)|]. by apply on_wal_inv in L as [? _].
  - split; [by apply rtc_once, (log_step _ _ _ _ L)|]. by apply on_wal_inv in L as [? _].
Qed.

Lemma maybe_logged_steps (w : World (E:=E)) (b : bool) rec r s' :
  (if b then lsn ← on_wal (wal_append crc32 rec); on_wal (sync_to lsn) else mret tt) (w_store w) = (r, s') ->
  rtc (world_step crc32) w (with_store w s') /\ st_mgr s' = w_mgr w.
Proof.
  destruct b; [apply logged_steps|]. intros [= _ <-]. split; [|done]. destruct w. apply rtc_refl.
Qed.

(** Giving up the locks, then leaving the active set by [c]. *)
Lemma leave_steps (w : World (E:=E)) t (c : M (@Store E) unit) r s' :
  w_waiting w !! t = None -> t ∈ w_doomed w \/ (exists ct, is_active w t (Some ct)) ->
  (forall (w1 : World (E:=E)) r1 s1, active_txns (w_mgr w1) = active_txns (w_mgr w) -> w_doomed w1 = w_doomed w ->
     c (w_store w1) = (r1, s1) -> world_step crc32 w1 (with_store w1 s1)) ->
  (release_locks t;; c) (w_store w) = (r, s') -> r <> Panic ->
  exists w', rtc (world_step crc32) w w' /\ w_store w' = s'.
Proof.
  intros Hw Hrel Hc L Hr. apply M_bind_inv in L as [([] & s1 & R & L)|[(e & R & ->)|[R ->]]]; [| |done].
  - pose proof (release_locks_inv _ _ _ R) as (l & _ & Es1).
    set (w1 := mkWorld s1 (w_waiting w) (drop_locks t (w_held w)) (w_doomed w)).
    assert (S1 : world_step crc32 w w1) by by eapply step_release.
    exists (with_store w1 s'). split; [|done]. eapply rtc_l; [exact S1|]. apply rtc_once, (Hc w1 r); [|done|done].
    unfold w_mgr. cbn. by rewrite Es1.
  - exists w. split; [apply rtc_refl|]. unfold release_locks in R. by destruct (release_all _ _); injection R.
Qed.

Lemma abort_steps (w : World (E:=E)) t r s' :
  may_call w t -> txn_abort crc32 t (w_store w) = (r, s') -> r <> Panic ->
  exists w', rtc (world_step crc32) w w' /\ w_store w' = s'.
Proof.
  intros ((x & Hx & Ho) & _ & Hw) L Hr. unfold txn_abort in L.
  rewrite (bind_ok _ _ _ _ _ (on_mgr_last_lsn _ _ _ Hx)) in L. rewrite (M_bind_assoc _ (fun lsn => on_wal (sync_to lsn))) in L.
  set (w1 := mkWorld (w_store w) (w_waiting w) (w_held w) ({[t]} ∪ w_doomed w)).
  assert (S1 : world_step crc32 w w1) by (apply step_doom; by exists x).
  apply M_bind_inv in L as [([] & s1 & Lg & L)|[(e & Lg & ->)|[Lg ->]]]; [| |done];
    apply (logged_steps w1) in Lg as [S2 Em]; [|by exists (with_store w1 s'); split; [eapply rtc_l|]].
  apply (leave_steps (with_store w1 s1) t) in L as (w' & S3 & E3); [|done| | |done].
  - exists w'. split; [|done]. eapply rtc_l; [exact S1|]. by etrans.
  - left. cbn. set_solver.
  - intros w2 r1 s2 _ Ed A. apply (step_abort crc32 w2 t r1); [|done]. rewrite Ed. cbn. set_solver.
Qed.

Lemma commit_steps (w : World (E:=E)) t r s' :
  may_call w t -> commit_txn crc32 SnapshotIsolation t (w_store w) = (r, s') -> r <> Panic ->
  exists w', rtc (world_step crc32) w w' /\ w_store w' = s'.
Proof.
  intros ((x & Hx & Ho) & Hd & Hw) L Hr. unfold commit_txn in L.
  rewrite (bind_ok _ _ _ _ _ (on_mgr_last_lsn _ _ _ Hx)), (bind_ok _ _ _ _ _ (on_mgr_mode _ _ _ Hx)) in L.
  apply M_bind_inv in L as [(ct & s1 & A & L)|[(e & A & ->)|[A ->]]]; [| |done].
  2: { exists (with_store w s'). split; [|done]. by apply rtc_once, (step_assign crc32 w t (Err e)); [exists x|..]. }
  assert (S1 : world_step crc32 w (with_store w s1)) by (by apply (step_assign crc32 w t (Ok ct)); [exists x|..]).
  assert (Act : exists x1, active_txns (st_mgr s1) !! t = Some x1 /\ commit_ts_of x1 = Some ct).
  { apply on_mgr_inv in A as (A & _ & _). by eapply assign_active. }
  set (w1 := with_store w s1) in *. apply M_bind_inv in L as [([] & s2 & Lg & L)|[(e & Lg & ->)|[Lg ->]]]; [| |done];
    apply (maybe_logged_steps w1) in Lg as [S2 Em]; [|by exists (with_store w1 s'); split; [eapply rtc_l|]].
  apply (leave_steps (with_store w1 s2) t) in L as (w' & S3 & E3); [|done| | |done].
  - exists w'. split; [|done]. eapply rtc_l; [exact S1|]. by etrans.
  - right. exists ct. unfold is_active, w_mgr. cbn. by rewrite Em.
  - intros w2 r1 s3 Ea _ C. apply (step_finish crc32 w2 t ct r1); [|done]. unfold is_active. rewrite Ea.
    unfold w_mgr. cbn. by rewrite Em.
Qed.

(** C5. The calls of transactions under snapshot isolation are made of these
    steps: when begin, or a put, delete, commit or abort of an active
    transaction that is not blocked in another call, returns a result or an
    error, the store it leaves is that of a world the steps reach.  So what
    holds through every interleaving holds of these calls.  Checkpoint and
    garbage collection are not among them. *)
Theorem calls_are_steps (w : World (E:=E)) c r s' :
  allowed w c -> run_call c (w_store w) = (r, s') -> r <> Panic ->
  exists w', rtc (world_step crc32) w w' /\ w_store w' = s'.
Proof.
  intros Ha L Hr. destruct c as [m|t k v|t k|t|t]; cbn [run_call allowed] in *.
  - exists (with_store w s'). split; [|done]. apply rtc_once.
    apply M_bind_inv in L as [(t & s1 & B & L)|[(e & B & ->)|[B ->]]]; [injection L as <- <-|..|done];
      by eapply step_begin.
  - destruct Ha as [Ha Hv]. by apply (write_steps w t k (MValue t v) r s').
  - destruct Ha as [Ha Hv]. by apply (write_steps w t k (MTombstone t) r s').
  - by apply (commit_steps w t r s').
  - by apply (abort_steps w t r s').
Qed.
End calls_as_steps.

Section theorems.
Context {E : Type} `{StorageEngine E} (crc32 : bytes -> Z).

Lemma opened_ok (w : World (E:=E)) vs : opened w vs -> world_ok w vs.
Proof.
  intros O. destruct O as [Oh Oa Ol Od Oc Oi Om Ok_ Ov Oo].
  assert (Act : forall t, c_act (core_of (w_mgr w)) !! t = None) by (intros t; cbn; by rewrite Oa, lookup_fmap, lookup_empty).
  constructor; [done|by rewrite Ol|unfold reads_at_begin; by rewrite Oa|].
  constructor; cbn [si_of si_core si_doomed si_held si_versions].
  - constructor; try (intros *; rewrite Act); try done.
    + intros t ct Hc. destruct (Om t ct Hc) as (? & ? & ?). rewrite Od. split_and!; done.
    + intros t. rewrite Od. by intros ?%elem_of_empty.
  - by apply (sorted_versions (w_engine w)).
  - intros v Hv. destruct (Ov v Hv) as (? & ? & _). done.
  - intros v b o _. by rewrite Act.
  - intros v ct Hv. by apply Ov.
  - intros v t b o _. by rewrite Act.
  - intros v b _. by rewrite Act.
  - intros v1 v2 H1 H2 Hk Hlt A1 A2. assert (R : forall v, alive (core_of (w_mgr w)) (w_doomed w) v -> exists ct, resolved (core_of (w_mgr w)) v ct).
    { intros v [?|[[? A] _]]; [done|]. by rewrite Act in A. }
    destruct (R v1 A1) as [c1 R1], (R v2 A2) as [c2 R2]. eauto.
Qed.

Lemma reachable_ok (w0 w : World (E:=E)) vs0 :
  opened w0 vs0 -> rtc (world_step crc32) w0 w -> exists vs, world_ok w vs.
Proof.
  intros O%opened_ok R. revert vs0 O. induction R as [|x y z St _ IH]; intros vs0 O; [eauto|].
  destruct (world_step_sim crc32 x y vs0 O St) as (vs1 & O1 & _). eauto.
Qed.

Lemma txn_get_ok (w : World (E:=E)) vs t x k :
  world_ok w vs -> active_txns (w_mgr w) !! t = Some x -> len k <= 2 ^ 32 - 1 ->
  (txn_get SnapshotIsolation t k (w_store w)).1
  = Ok (read (si_sees (core_of (w_mgr w)) t (begin_ts_of x)) k vs).
Proof.
  intros I Hx Hk. pose proof (n_act _ _ (n_core _ (ok_si _ _ I)) _ _ _ (core_active _ _ _ Hx)) as (T & _). cbn in T.
  unfold txn_get, txn_read. cbn [read_view SnapshotIsolation]. unfold si_read_view, AUTO_COMMIT.
  destruct (Z.eqb_spec t 0); [lia|].
  assert (Sn : on_mgr (snapshot t) (w_store w) = (Ok (begin_ts_of x), w_store w)).
  { rewrite <- (ok_reads _ _ I t x Hx). unfold on_mgr, zoom, snapshot, lookup_active, mbind, M_bind.
    unfold w_mgr in Hx. rewrite Hx. by destruct (w_store w). }
  rewrite (bind_ok _ _ _ _ _ Sn).
  rewrite (bind_ok _ _ _ (view_of (w_mgr w)) (w_store w)) by (unfold on_mgr, zoom, gets, w_mgr; cbn; by destruct (w_store w)).
  rewrite (bind_ok _ _ _ (w_engine w) (w_store w)) by done. cbn [pure fst].
  by rewrite (mvcc_get_ok _ vs) by apply (ok_holds _ _ I) || done.
Qed.

(** C1. Snapshot isolation: in a database opened on a consistent history,
    through every interleaving of transactions, an active transaction's read
    succeeds and returns its own last write of the key; or else the value with
    the greatest commit timestamp up to its begin, all of them by different
    commits; or else nothing. *)
Theorem snapshot_reads (w0 w : World (E:=E)) vs0 t x k :
  opened w0 vs0 -> rtc (world_step crc32) w0 w ->
  active_txns (w_mgr w) !! t = Some x -> len k <= 2 ^ 32 - 1 ->
  exists vs r, holds_versions (w_engine w) vs /\
    (txn_get SnapshotIsolation t k (w_store w)).1 = Ok r /\
    snapshot_value (core_of (w_mgr w)) vs t (begin_ts_of x) k r.
Proof.
  intros O R Hx Hk. destruct (reachable_ok w0 w vs0 O R) as [vs I]. exists vs. eexists.
  split; [apply (ok_holds _ _ I)|]. split; [by apply txn_get_ok|].
  by apply (si_read_spec (si_of w vs) _ _ (commit_ts_of x)); [apply (ok_si _ _ I)|apply core_active].
Qed.

Lemma begin_unchanged s s' t b o b' o' :
  si_inv s -> si_step s s' -> c_act (si_core s) !! t = Some (b, o) -> c_act (si_core s') !! t = Some (b', o') -> b' = b.
Proof.
  intros I Hs. destruct Hs; cbn [si_core]; intros Q1 Q2; try congruence.
  - apply (n_act _ _ (n_core _ I)) in Q1 as Q. cbn in Q, Q2. rewrite lookup_insert_ne in Q2 by lia. congruence.
  - cbn in Q2. apply lookup_insert_Some in Q2 as [[<- [= <- <-]]|[_ Q2]]; congruence.
  - cbn in Q2. apply lookup_delete_Some in Q2 as [_ Q2]. congruence.
  - cbn in Q2. apply lookup_delete_Some in Q2 as [_ Q2]. congruence.
Qed.

Lemma stored_eq u v : version_ok u -> version_ok v -> stored u = stored v -> u = v.
Proof.
  intros (K & T & V) (K' & T' & V') E0. pose proof (f_equal fst E0) as Ek. pose proof (f_equal snd E0) as Ev. cbn [stored fst snd] in Ek, Ev.
  pose proof (decode_mvcc_key_ok _ _ K T) as D. rewrite Ek, decode_mvcc_key_ok in D by done. injection D as D1 D2.
  pose proof (decode_mvcc_value_ok _ V) as D3. rewrite Ev, decode_mvcc_value_ok in D3 by done. injection D3 as D3.
  destruct u, v. cbn in *. congruence.
Qed.

Lemma stored_elem (e : E) vs v :
  holds_versions e vs -> version_ok v -> stored v ∈ entries e -> v ∈ vs.
Proof.
  intros [-> Hok] Hv Hin. apply list_elem_of_fmap in Hin as (u & Eu & Hu).
  rewrite Forall_forall in Hok. by rewrite (stored_eq v u) by auto.
Qed.

(** C3. Reads are repeatable: no step of any transaction, starting, writing,
    committing or aborting, changes what an active transaction reads, unless
    it stores a version of that key by the reader itself. *)
Theorem snapshot_stable (w0 w w' : World (E:=E)) vs0 t x x' k :
  opened w0 vs0 -> rtc (world_step crc32) w0 w -> world_step crc32 w w' ->
  active_txns (w_mgr w) !! t = Some x -> active_txns (w_mgr w') !! t = Some x' -> len k <= 2 ^ 32 - 1 ->
  (forall v, author v = t -> vkey v = k -> stored v ∈ entries (w_engine w') -> stored v ∈ entries (w_engine w)) ->
  (txn_get SnapshotIsolation t k (w_store w')).1 = (txn_get SnapshotIsolation t k (w_store w)).1.
Proof.
  intros O R St Hx Hx' Hk Hown. destruct (reachable_ok w0 w vs0 O R) as [vs I].
  destruct (world_step_sim crc32 w w' vs I St) as (vs' & I' & Q).
  rewrite (txn_get_ok w' vs' t x') by done. rewrite (txn_get_ok w vs t x) by done. f_equal.
  apply core_active in Hx, Hx'. destruct Q as [Q|Q].
  - pose proof (f_equal si_core Q) as Ec. pose proof (f_equal si_versions Q) as Ev. cbn [si_of si_core si_versions] in Ec, Ev.
    rewrite Ec, Ev in *. rewrite Hx in Hx'. by injection Hx' as -> _.
  - assert (Eb : begin_ts_of x' = begin_ts_of x).
    { exact (begin_unchanged _ _ _ _ _ _ _ (ok_si _ _ I) Q Hx Hx'). }
    rewrite Eb in *. apply (si_read_stable _ _ _ _ _ _ k (ok_si _ _ I) Q Hx Hx').
    intros v Av Kv Hv. pose proof (ok_holds _ _ I') as [He' Hok']. cbn in Hv.
    apply (stored_elem (w_engine w)); [apply (ok_holds _ _ I)|rewrite Forall_forall in Hok'; by apply Hok'|].
    apply Hown; [done..|]. rewrite He'. apply list_elem_of_fmap. eauto.
Qed.

Lemma holds_unique (e : E) vs vs' : holds_versions e vs -> holds_versions e vs' -> vs = vs'.
Proof.
  intros Hh Hh'. pose proof Hh as [He Hok]. pose proof Hh' as [He' Hok']. rewrite He in He'.
  clear Hh Hh' He. revert vs' Hok' He'. induction Hok as [|v vs Hv Hok IH]; intros [|v' vs'] Hok' He'; try done.
  inversion Hok' as [|? ? Hv' Hok2]; subst. assert (E1 : stored v = stored v') by exact (f_equal (fun l => List.hd (stored v) l) He').
  assert (E2 : map stored vs = map stored vs') by exact (f_equal (@List.tl _) He').
  f_equal; [by apply stored_eq|by apply IH].
Qed.

(** C2. First committer wins: two transactions that committed writes to one key
    did not overlap; one committed before the other began. *)
Theorem no_lost_update (w0 w : World (E:=E)) vs0 vs v1 v2 c1 c2 :
  opened w0 vs0 -> rtc (world_step crc32) w0 w -> holds_versions (w_engine w) vs ->
  v1 ∈ vs -> v2 ∈ vs -> v1 <> v2 -> vkey v1 = vkey v2 ->
  committed_txns (w_mgr w) !! author v1 = Some c1 -> committed_txns (w_mgr w) !! author v2 = Some c2 ->
  vts v1 < c1 < vts v2 /\ vts v2 < c2 \/ vts v2 < c2 < vts v1 /\ vts v1 < c1.
Proof.
  intros O R Hh H1 H2 Hne Hk C1 C2. destruct (reachable_ok w0 w vs0 O R) as [vs' I].
  rewrite (holds_unique (w_engine w) vs vs') in * by (done || apply (ok_holds _ _ I)).
  pose proof (ok_si _ _ I) as S. pose proof (n_commit _ S v1 c1 H1 C1). pose proof (n_commit _ S v2 c2 H2 C2).
  destruct (Z.lt_trichotomy (vts v1) (vts v2)) as [L|[L|L]].
  - destruct (n_order _ S v1 v2 H1 H2 Hk L) as (ct & [Q|(Q & _)] & ?); [left; exists c1; by left|left; exists c2; by left|..];
      cbn in Q; [|congruence]. left. rewrite C1 in Q. injection Q as <-. lia.
  - destruct Hne. apply (slot_unique vs'); try done. apply (n_sorted _ S).
  - destruct (n_order _ S v2 v1 H2 H1 (eq_sym Hk) L) as (ct & [Q|(Q & _)] & ?); [left; exists c2; by left|left; exists c1; by left|..];
      cbn in Q; [|congruence]. right. rewrite C2 in Q. injection Q as <-. lia.
Qed.

(** C4. The database refines the abstract snapshot-isolation machine, step for
    step: from any world that is consistent, a step of the concrete calls keeps
    the world consistent, and it is exactly one step of the machine on the
    abstraction, or leaves the abstraction as it was.  The abstraction of the
    world after the step is the only one there is. *)
Theorem world_refines_si (w w' : World (E:=E)) vs :
  world_ok w vs -> world_step crc32 w w' ->
  (exists vs', world_ok w' vs') /\
  forall vs', world_ok w' vs' -> si_of w' vs' = si_of w vs \/ si_step (si_of w vs) (si_of w' vs').
Proof.
  intros I St. destruct (world_step_sim crc32 w w' vs I St) as (vs' & I' & Q). split; [by exists vs'|]. intros vs2 I2.
  by rewrite (holds_unique _ vs2 vs' (ok_holds _ _ I2) (ok_holds _ _ I')).
Qed.
End theorems.

(** ** Runs *)

Definition fresh_world : World (E:=Reference) := mkWorld fresh_store ∅ ∅ ∅.

Definition began (w : World (E:=Reference)) : World := with_store w (begin_txn no_crc ReadWrite (w_store w)).2.
Definition locked (w : World (E:=Reference)) (t : Z) (k : bytes) : World :=
  match acquire (lock_manager (w_mgr w)) t k Exclusive with
  | Some (Ok (l, Acquired)) => relocked w l (w_waiting w) (take_lock t k Exclusive (w_held w))
  | _ => w
  end.
Definition wrote (w : World (E:=Reference)) (t : Z) (k v : bytes) : World :=
  with_store w (write_version no_crc SnapshotIsolation t k (MValue t v) (w_store w)).2.
Definition stamped (w : World (E:=Reference)) (t : Z) : World :=
  with_store w (on_mgr (assign_commit_ts t) (w_store w)).2.
Definition unlocked (w : World (E:=Reference)) (t : Z) : World :=
  mkWorld (release_locks t (w_store w)).2 (w_waiting w) (drop_locks t (w_held w)) (w_doomed w).

(** Transactions 1 and 2 begin and 1 writes. *)
Definition two_running : World := wrote (locked (began (began fresh_world)) 1 some_key) 1 some_key value_1.
(** Transaction 1 writes and commits, then 3 does. *)
Definition one_committed : World := unlocked (stamped two_running 1) 1.
Definition two_committed : World :=
  stamped (wrote (locked (began one_committed) 3 some_key) 3 some_key value_2) 3.

Lemma fresh_opened : opened fresh_world [].
Proof.
  constructor; try done; try (cbn; lia).
  - intros t. unfold known_not_committed. cbn. set_solver.
  - intros v1 v2 c1 c2 Hv. by apply elem_of_nil in Hv.
Qed.

Lemma began_step w : next_txn_id (w_mgr w) < U64_MAX -> (begin_txn no_crc ReadWrite (w_store w)).1 <> Panic ->
  world_step no_crc w (began w).
Proof. intros Hid Hr. eapply step_begin; [done|apply surjective_pairing|done]. Qed.

Lemma locked_step w t k :
  w_waiting w !! t = None ->
  (match acquire (lock_manager (w_mgr w)) t k Exclusive with Some (Ok (_, Acquired)) => true | _ => false end) = true ->
  world_step no_crc w (locked w t k).
Proof.
  intros Hw Ha. unfold locked. destruct (acquire _ t k Exclusive) as [[[l [| |]]| |]|] eqn:A; try done.
  apply step_relock; [by apply (acquire_returns (sys_of w))|apply take_lock_keeps].
Qed.

Lemma wrote_step w t k v :
  is_active w t None -> t ∉ w_doomed w -> w_held w !! (t, k) = Some Exclusive -> value_ok (MValue t v) = true ->
  (write_version no_crc SnapshotIsolation t k (MValue t v) (w_store w)).1 <> Panic ->
  world_step no_crc w (wrote w t k v).
Proof. intros. by eapply (step_write _ _ t); try apply surjective_pairing. Qed.

Lemma stamped_step w t :
  is_active w t None -> t ∉ w_doomed w -> (on_mgr (assign_commit_ts t) (w_store w)).1 <> Panic ->
  world_step no_crc w (stamped w t).
Proof. intros. by eapply (step_assign _ _ t); try apply surjective_pairing. Qed.

Ltac by_compute :=
  match goal with
  | |- is_active _ _ _ => eexists; split; vm_compute; reflexivity
  | |- _ ∉ _ => refine (bool_decide_unpack _ _); vm_compute; exact I
  | |- _ <> _ => vm_compute; discriminate
  | |- _ => vm_compute; reflexivity
  end.

Lemma two_running_reached : rtc (world_step no_crc) fresh_world two_running.
Proof.
  eapply rtc_l; [apply began_step; by_compute|]. eapply rtc_l; [apply began_step; by_compute|].
  eapply rtc_l; [apply (locked_step _ 1 some_key); by_compute|].
  apply rtc_once, (wrote_step _ 1 some_key value_1); by_compute.
Qed.

Lemma stamp_two_running : world_step no_crc two_running (stamped two_running 1).
Proof. apply stamped_step; by_compute. Qed.

Lemma two_committed_reached : rtc (world_step no_crc) fresh_world two_committed.
Proof.
  etrans; [exact two_running_reached|]. eapply rtc_l; [exact stamp_two_running|].
  eapply rtc_l.
  { apply (step_release _ _ 1 (release_locks 1 (w_store (stamped two_running 1))).2);
      [right; exists 3; by_compute|by_compute|by_compute]. }
  eapply rtc_l; [apply began_step; by_compute|]. eapply rtc_l; [apply (locked_step _ 3 some_key); by_compute|].
  eapply rtc_l; [apply (wrote_step _ 3 some_key value_2); by_compute|].
  apply rtc_once, (stamped_step _ 3); by_compute.
Qed.

Lemma snapshot_reads_witness :
  exists x vs r, active_txns (w_mgr two_committed) !! 2 = Some x /\
    holds_versions (w_engine two_committed) vs /\
    (txn_get SnapshotIsolation 2 some_key (w_store two_committed)).1 = Ok r /\ r = None /\
    snapshot_value (core_of (w_mgr two_committed)) vs 2 (begin_ts_of x) some_key r.
Proof.
  destruct (active_txns (w_mgr two_committed) !! 2) as [x|] eqn:X; [|vm_compute in X; discriminate X].
  destruct (snapshot_reads no_crc fresh_world two_committed [] 2 x some_key fresh_opened two_committed_reached X)
    as (vs & r & Hh & Hr & Hs); [vm_compute; discriminate|].
  assert (R : (txn_get SnapshotIsolation 2 some_key (w_store two_committed)).1 = Ok None) by (vm_compute; reflexivity).
  exists x, vs, r. split; [reflexivity|]. split; [exact Hh|]. split; [exact Hr|]. split; [|exact Hs].
  rewrite Hr in R. injection R as R. exact R.
Defined.

Lemma snapshot_stable_witness :
  (txn_get SnapshotIsolation 2 some_key (w_store (stamped two_running 1))).1
  = (txn_get SnapshotIsolation 2 some_key (w_store two_running)).1.
Proof.
  destruct (active_txns (w_mgr two_running) !! 2) as [x|] eqn:X; [|vm_compute in X; discriminate X].
  destruct (active_txns (w_mgr (stamped two_running 1)) !! 2) as [x'|] eqn:X'; [|vm_compute in X'; discriminate X'].
  apply (snapshot_stable no_crc fresh_world two_running (stamped two_running 1) [] 2 x x' some_key
    fresh_opened two_running_reached stamp_two_running X X'); [vm_compute; discriminate|].
  intros v _ _ Hv. exact Hv.
Defined.

Lemma no_lost_update_witness :
  let v1 := mkVersion some_key 1 (MValue 1 value_1) in
  let v2 := mkVersion some_key 4 (MValue 3 value_2) in
  vts v1 < 3 < vts v2 /\ vts v2 < 5 \/ vts v2 < 5 < vts v1 /\ vts v1 < 3.
Proof.
  intros v1 v2. apply (no_lost_update no_crc fresh_world two_committed [] [v2; v1] v1 v2 3 5 fresh_opened two_committed_reached).
  - split; [vm_compute; reflexivity|]. repeat constructor; vm_compute; done.
  - set_solver.
  - set_solver.
  - done.
  - done.
  - vm_compute. reflexivity.
  - vm_compute. reflexivity.
Defined.

Lemma world_refines_si_witness :
  (exists vs', world_ok (began fresh_world) vs') /\
  forall vs', world_ok (began fresh_world) vs' ->
    si_of (began fresh_world) vs' = si_of fresh_world [] \/ si_step (si_of fresh_world []) (si_of (began fresh_world) vs').
Proof.
  apply (world_refines_si no_crc fresh_world (began fresh_world) []).
  - apply opened_ok, fresh_opened.
  - apply began_step; by_compute.
Defined.

(** A put of a transaction that runs beside another one, and a commit of one
    that has written. *)
Lemma calls_are_steps_witness :
  (exists w', rtc (world_step no_crc) (began (began fresh_world)) w' /\
     w_store w' = (run_call no_crc (Put 1 some_key value_1) (w_store (began (began fresh_world)))).2) /\
  (exists w', rtc (world_step no_crc) two_running w' /\
     w_store w' = (run_call no_crc (Commit 1) (w_store two_running)).2).
Proof.
  split.
  - apply (calls_are_steps no_crc (began (began fresh_world)) (Put 1 some_key value_1) (Ok tt)).
    + split; [split_and!|]; by_compute.
    + vm_compute. reflexivity.
    + discriminate.
  - apply (calls_are_steps no_crc two_running (Commit 1) (Ok tt)).
    + split_and!; by_compute.
    + vm_compute. reflexivity.
    + discriminate.
Defined.
