(* ===== verification/Anomalies.v ===== *)
(** Runs of the database in which checkpoint, garbage collection and restart
    break what the calls of transactions promise by themselves (Snapshot.v).
    Each is evaluated on a fresh database over the reference engine. *)

From Stdlib Require Import ZArith List Bool.
From S2P Require Import Prelude Common WalRecord WalReader Wal Engine Mvcc LockManager TxnManager Isolation TxnEngine Gc Recovery Database.
From coqutil Require Import Byte.
From stdpp Require Import base gmap list.
#[local] Open Scope Z_scope.

(** One transaction writes and does not commit; the next one reads. *)
Definition read_beside_writer : M (@Store Reference) (option bytes) :=
  t1 ← begin_txn no_crc ReadWrite;
  txn_put no_crc SnapshotIsolation t1 some_key value_1;;
  t2 ← begin_txn no_crc ReadWrite;
  txn_get SnapshotIsolation t2 some_key.

(** A reader's two reads of a key, around a commit and a collection. *)
Definition reads_around_gc (collect : bool) : M (@Store Reference) (option bytes * option bytes) :=
  put no_crc SnapshotIsolation some_key value_1;;
  w ← begin_txn no_crc ReadWrite;
  r ← begin_txn no_crc ReadOnly;
  before ← txn_get SnapshotIsolation r some_key;
  txn_put no_crc SnapshotIsolation w some_key value_2;;
  commit_txn no_crc SnapshotIsolation w;;
  (if collect then gc;; mret tt else mret tt);;
  after ← txn_get SnapshotIsolation r some_key;
  mret (before, after).

Definition aborted_then_other : M (@Store Reference) unit :=
  a ← begin_txn no_crc ReadWrite;
  txn_put no_crc SnapshotIsolation a some_key value_1;;
  txn_abort no_crc a;;
  put no_crc SnapshotIsolation other_key value_2.

(** Opening again on the engine and the flushed log a store leaves. *)
Definition restart (s : @Store Reference) : option (result (@Store Reference)) :=
  open_inner no_crc 100 100 (crash (writer (st_wal s)) (flushed (writer (st_wal s)))) (st_engine s).

(** Right after a checkpoint a transaction reads the uncommitted write of
    another one; without the checkpoint it does not.  The checkpoint's
    timestamp is the next one the oracle hands out, so the first transaction
    that begins afterwards counts as committed already. *)
Theorem dirty_read_after_checkpoint :
  (read_beside_writer fresh_store).1 = Ok None /\
  ((checkpoint no_crc;; read_beside_writer) fresh_store).1 = Ok (Some value_1).
Proof. split; vm_compute; reflexivity. Qed.

(** Garbage collection can remove the version an active snapshot reads: it
    keeps the newest committed version that began below the watermark, also
    when that one committed after the snapshot was taken. *)
Theorem gc_drops_snapshot_version :
  (reads_around_gc false fresh_store).1 = Ok (Some value_1, Some value_1) /\
  (reads_around_gc true fresh_store).1 = Ok (Some value_1, None).
Proof. split; vm_compute; reflexivity. Qed.

(** A write whose transaction aborted is invisible until the database is
    reopened, and visible afterwards: recovery does not hand the aborted
    transactions it finds to the manager. *)
Theorem abort_undone_by_restart :
  let s := (aborted_then_other fresh_store).2 in
  (get SnapshotIsolation some_key s).1 = Ok None /\
  exists s', restart s = Some (Ok s') /\ (get SnapshotIsolation some_key s').1 = Ok (Some value_1).
Proof.
  split; [vm_compute; reflexivity|].
  destruct (restart (aborted_then_other fresh_store).2) as [[s'| |]|] eqn:R; [|vm_compute in R; discriminate R..].
  exists s'. split; [done|].
  enough (Q : (match restart (aborted_then_other fresh_store).2 with
               | Some (Ok s0) => (get SnapshotIsolation some_key s0).1 | _ => Panic end) = Ok (Some value_1))
    by by rewrite R in Q.
  vm_compute. reflexivity.
Qed.
