(* ===== verification/Bloom.v ===== *)
(** Bloom filters (crates/idb-storage/src/engines/lsm/bloom.rs).

    The CRC-32 of the crc32fast crate is a parameter; hashing in two updates is
    hashing the concatenation. *)

From Stdlib Require Import ZArith Lia List Bool.
From S2P Require Import Prelude Common.
From coqutil Require Import Byte Word.LittleEndianList.
From stdpp Require Import base list strings.
#[local] Open Scope Z_scope.

Definition BITS_PER_KEY : Z := 10.
Definition HASH_COUNT : Z := 7.
Definition MIN_BIT_COUNT : Z := 64.

Record BloomFilter := mkBloom { bits : bytes; bit_count : Z; hash_count : Z }.

(** [bits[pos / 8] |= 1 << (pos % 8)] *)
Definition set_bit (pos : Z) (bits : bytes) : result bytes :=
  b ← index (pos / 8) bits;
  Ok (<[Z.to_nat (pos / 8) := byte.of_Z (Z.lor (u8 b) (Z.shiftl 1 (pos mod 8)))]> bits).

(** [bits[pos / 8] & (1 << (pos % 8)) != 0] *)
Definition bit_set (pos : Z) (bits : bytes) : result bool :=
  b ← index (pos / 8) bits;
  Ok (negb (Z.land (u8 b) (Z.shiftl 1 (pos mod 8)) =? 0)).

Definition combined_hash (h1 h2 i : Z) : Z := as_unsigned 64 (h1 + as_unsigned 64 (i * h2)).

Fixpoint set_bits (positions : list Z) (bits : bytes) : result bytes :=
  match positions with
  | [] => Ok bits
  | p :: rest => bits' ← set_bit p bits; set_bits rest bits'
  end.

Fixpoint bits_set (positions : list Z) (bits : bytes) : result bool :=
  match positions with
  | [] => Ok true
  | p :: rest => b ← bit_set p bits; if b : bool then bits_set rest bits else Ok false
  end.

Section bloom.
Context (crc32 : bytes -> Z).

Definition double_hash (key : bytes) : Z * Z := (crc32 key, crc32 (key ++ [byte.of_Z 158])).

(** The positions of the loop [for i in 0..hash_count]. *)
Definition positions (key : bytes) (bit_count hash_count : Z) : list Z :=
  let '(h1, h2) := double_hash key in
  map (fun i => combined_hash h1 h2 (Z.of_nat i) mod bit_count) (seq 0 (Z.to_nat hash_count)).

Fixpoint add_keys (keys : list bytes) (bit_count : Z) (bits : bytes) : result bytes :=
  match keys with
  | [] => Ok bits
  | key :: rest => bits' ← set_bits (positions key bit_count HASH_COUNT) bits; add_keys rest bit_count bits'
  end.

Definition div_ceil (a b : Z) : Z := (a + b - 1) / b.

Definition build (keys : list bytes) : result BloomFilter :=
  n ← @arith Error in_u64 (len keys * BITS_PER_KEY);
  let byte_count := div_ceil (Z.max n MIN_BIT_COUNT) 8 in
  bit_count ← @arith Error in_u64 (byte_count * 8);
  bits ← add_keys keys bit_count (replicate (Z.to_nat byte_count) (byte.of_Z 0));
  Ok (mkBloom bits bit_count HASH_COUNT).

Definition may_contain (f : BloomFilter) (key : bytes) : result bool :=
  if bit_count f =? 0 then Ok false else
  bits_set (positions key (bit_count f) (hash_count f)) (bits f).

Definition encode (f : BloomFilter) : bytes :=
  byte.of_Z (hash_count f) :: to_le_bytes 4 (as_unsigned 32 (bit_count f)) ++ bits f.

Definition decode (data : bytes) : result BloomFilter :=
  if len data <? 5 then Err (StorageCorrupted "bloom filter data too small") else
  h ← index 0 data;
  raw ← slice 1 5 data;
  let bit_count := from_le_bytes raw in
  if negb (len data =? 5 + div_ceil bit_count 8) then Err (StorageCorrupted "bloom filter size mismatch") else
  bits ← slice_from 5 data;
  Ok (mkBloom bits bit_count (u8 h)).
End bloom.

(** ** Bits *)

Definition bit_at (bits : bytes) (pos : Z) : bool :=
  match bits !! Z.to_nat (pos / 8) with Some b => Z.testbit (u8 b) (pos mod 8) | None => false end.

Lemma u8_of_Z_bit z i : 0 <= i < 8 -> Z.testbit (u8 (byte.of_Z z)) i = Z.testbit z i.
Proof.
  intros Hi. rewrite byte.unsigned_of_Z. unfold byte.wrap.
  by rewrite Z.mod_pow2_bits_low by lia.
Qed.

Lemma land_bit z i : 0 <= i -> negb (Z.land z (Z.shiftl 1 i) =? 0) = Z.testbit z i.
Proof.
  intros Hi. rewrite Z.shiftl_1_l. destruct (Z.testbit z i) eqn:T.
  - apply negb_true_iff, Z.eqb_neq. intros E. apply (f_equal (fun x => Z.testbit x i)) in E.
    rewrite Z.land_spec, T, Z.pow2_bits_true, Z.bits_0 in E by done. done.
  - apply negb_false_iff, Z.eqb_eq. apply Z.bits_inj'. intros j Hj. rewrite Z.land_spec, Z.bits_0.
    destruct (decide (i = j)) as [->|Hn]; [by rewrite T|]. by rewrite (Z.pow2_bits_false i j) by lia; rewrite andb_false_r.
Qed.

Lemma byte_at_index i (b : bytes) : 0 <= i < len b -> exists x, @index Error i b = Ok x /\ b !! Z.to_nat i = Some x.
Proof.
  intros Hi. unfold index. zcase. destruct (lookup_lt_is_Some_2 b (Z.to_nat i)) as [x Hx]; [unfold len in Hi; lia|].
  exists x. by rewrite Hx.
Qed.

Lemma bit_set_ok pos bits : 0 <= pos < 8 * len bits -> bit_set pos bits = Ok (bit_at bits pos).
Proof.
  intros Hp. unfold bit_set, bit_at. destruct (byte_at_index (pos / 8) bits) as (x & -> & ->).
  { Z.to_euclidean_division_equations; lia. }
  cbn [mbind outcome_bind]. f_equal. apply land_bit. Z.to_euclidean_division_equations; lia.
Qed.

Lemma set_bit_ok pos bits :
  0 <= pos < 8 * len bits ->
  exists bits', set_bit pos bits = Ok bits' /\ len bits' = len bits /\
    forall p, 0 <= p -> bit_at bits' p = (p =? pos) || bit_at bits p.
Proof.
  intros Hp. unfold set_bit. destruct (byte_at_index (pos / 8) bits) as (x & -> & Hx).
  { Z.to_euclidean_division_equations; lia. }
  cbn [mbind outcome_bind]. eexists. split; [done|]. split; [unfold len; by rewrite length_insert|].
  intros p Hp0. unfold bit_at. destruct (decide (p / 8 = pos / 8)) as [E|E].
  - rewrite E, list_lookup_insert_eq, Hx by (unfold len in Hp; Z.to_euclidean_division_equations; lia).
    assert (0 <= p mod 8 < 8) by (Z.to_euclidean_division_equations; lia).
    assert (0 <= pos mod 8 < 8) by (Z.to_euclidean_division_equations; lia).
    rewrite u8_of_Z_bit, Z.lor_spec, Z.shiftl_1_l, Z.pow2_bits_eqb by lia. rewrite orb_comm. f_equal.
    destruct (Z.eqb_spec p pos), (Z.eqb_spec (pos mod 8) (p mod 8)); try done; exfalso; Z.to_euclidean_division_equations; lia.
  - rewrite list_lookup_insert_ne by (Z.to_euclidean_division_equations; lia).
    destruct (Z.eqb_spec p pos); [congruence|done].
Qed.

Lemma set_bits_ok ps bits :
  Forall (fun p => 0 <= p < 8 * len bits) ps ->
  exists bits', set_bits ps bits = Ok bits' /\ len bits' = len bits /\
    (forall p, 0 <= p -> bit_at bits p = true \/ p ∈ ps -> bit_at bits' p = true).
Proof.
  revert bits; induction ps as [|p ps IH]; intros bits Hps; cbn [set_bits].
  { exists bits. split_and!; try done. intros q _ [?|Hq]; [done|]. by apply elem_of_nil in Hq. }
  inversion Hps as [|? ? Hp Hps']; subst. destruct (set_bit_ok p bits Hp) as (b1 & -> & L1 & B1). cbn [mbind outcome_bind].
  destruct (IH b1) as (b2 & -> & L2 & B2); [by rewrite L1|]. exists b2. split; [done|]. split; [lia|].
  intros q Hq Hor. apply B2; [done|]. rewrite B1, elem_of_cons in * by done.
  destruct Hor as [->|[->|?]]; rewrite ?Z.eqb_refl, ?orb_true_r; auto.
Qed.

Lemma bits_set_ok ps bits :
  Forall (fun p => 0 <= p < 8 * len bits) ps ->
  bits_set ps bits = Ok (forallb (bit_at bits) ps).
Proof.
  induction 1 as [|p ps Hp Hps IH]; [done|]. cbn [bits_set forallb]. rewrite bit_set_ok by done.
  cbn [mbind outcome_bind]. by destruct (bit_at bits p).
Qed.

(** A filter whose bit array has room for its bit count. *)
Definition bloom_wf (f : BloomFilter) : Prop := 0 <= bit_count f <= 8 * len (bits f).

Section facts.
Context (crc32 : bytes -> Z).

Lemma positions_range key m h : 0 < m -> Forall (fun p => 0 <= p < m) (positions crc32 key m h).
Proof.
  intros Hm. unfold positions. destruct (double_hash crc32 key) as [h1 h2]. apply Forall_forall.
  intros p Hp. apply list_elem_of_fmap in Hp as (i & -> & _). apply Z.mod_pos_bound. lia.
Qed.

Lemma may_contain_ok f key :
  bloom_wf f ->
  may_contain crc32 f key
  = Ok (negb (bit_count f =? 0) && forallb (bit_at (bits f)) (positions crc32 key (bit_count f) (hash_count f))).
Proof.
  intros Hf. unfold bloom_wf in Hf. unfold may_contain. destruct (Z.eqb_spec (bit_count f) 0); [done|]. apply bits_set_ok.
  eapply Forall_impl; [apply positions_range; lia|]. cbn. lia.
Qed.

Lemma add_keys_ok keys m bits :
  0 < m <= 8 * len bits ->
  exists bits', add_keys crc32 keys m bits = Ok bits' /\ len bits' = len bits /\
    (forall p, 0 <= p -> bit_at bits p = true -> bit_at bits' p = true) /\
    (forall key, key ∈ keys -> forallb (bit_at bits') (positions crc32 key m HASH_COUNT) = true).
Proof.
  revert bits; induction keys as [|key keys IH]; intros bits Hm; cbn [add_keys].
  { exists bits. split_and!; try done. intros key Hk. by apply elem_of_nil in Hk. }
  pose proof (positions_range key m HASH_COUNT ltac:(lia)) as R.
  destruct (set_bits_ok (positions crc32 key m HASH_COUNT) bits) as (b1 & -> & L1 & B1).
  { eapply Forall_impl; [exact R|]. cbn. lia. }
  cbn [mbind outcome_bind]. destruct (IH b1) as (b2 & -> & L2 & K2 & C2); [lia|]. exists b2.
  split; [done|]. split; [lia|]. split; [intros p Hp Hb; auto|].
  intros k [->|Hk]%elem_of_cons; [|auto]. apply forallb_forall. intros p Hp. rewrite Forall_forall in R.
  apply list_elem_of_In in Hp. apply K2; [by apply R|]. apply B1; [by apply R|auto].
Qed.

Lemma div_ceil_bounds a : 0 <= a -> a <= 8 * div_ceil a 8 < a + 8.
Proof. unfold div_ceil. intros. Z.to_euclidean_division_equations; lia. Qed.

Lemma build_ok keys :
  len keys * BITS_PER_KEY + 72 < 2 ^ 64 ->
  exists f, build crc32 keys = Ok f /\ bloom_wf f /\ hash_count f = HASH_COUNT /\
    64 <= bit_count f /\ bit_count f = 8 * len (bits f) /\ bit_count f <= len keys * BITS_PER_KEY + 72 /\
    forall key, key ∈ keys -> may_contain crc32 f key = Ok true.
Proof.
  unfold BITS_PER_KEY, MIN_BIT_COUNT. intros Hn. pose proof (len_nonneg keys). unfold build, BITS_PER_KEY, MIN_BIT_COUNT.
  rewrite arith_bind by fits. cbv beta. pose proof (div_ceil_bounds (Z.max (len keys * 10) 64) ltac:(lia)) as D.
  set (bc := div_ceil (Z.max (len keys * 10) 64) 8) in *. rewrite arith_bind by fits. cbv beta.
  destruct (add_keys_ok keys (bc * 8) (replicate (Z.to_nat bc) (byte.of_Z 0))) as (b & -> & L & _ & C).
  { rewrite len_replicate. lia. }
  rewrite len_replicate in L. cbn [mbind outcome_bind]. eexists. split; [done|].
  assert (W : bloom_wf (mkBloom b (bc * 8) HASH_COUNT)) by (unfold bloom_wf; cbn; lia).
  split; [done|]. cbn [hash_count bit_count bits]. split_and!; [done|lia|lia|lia|].
  intros key Hk. rewrite may_contain_ok by done. cbn [hash_count bit_count bits]. rewrite C by done.
  destruct (Z.eqb_spec (bc * 8) 0); [lia|done].
Qed.

Lemma decode_encode f :
  in_u8 (hash_count f) = true -> in_u32 (bit_count f) = true -> len (bits f) = div_ceil (bit_count f) 8 ->
  decode (encode f) = Ok f.
Proof.
  intros Hh Hb Hl. unfold in_u8, in_u32 in *. zbool. unfold decode, encode. rewrite as_unsigned_small by lia.
  rewrite len_cons, len_app, len_to_le_bytes. pose proof (len_nonneg (bits f)). zcase.
  set (h := byte.of_Z (hash_count f)). set (raw := to_le_bytes 4 (bit_count f)).
  rewrite (index_app [] h (raw ++ bits f)) by done. cbn [mbind outcome_bind].
  rewrite (slice_mid [h] raw (bits f)) by (unfold raw; rewrite ?len_to_le_bytes; done). cbn [mbind outcome_bind].
  unfold raw. rewrite from_to_le_bytes by (cbn; lia). zcase. cbn [negb].
  rewrite (slice_from_app (h :: to_le_bytes 4 (bit_count f)) (bits f)) by (by rewrite len_cons, len_to_le_bytes).
  cbn [mbind outcome_bind]. unfold h. rewrite byte.unsigned_of_Z. unfold byte.wrap.
  rewrite Z.mod_small by (cbn; lia). by destruct f.
Qed.

Lemma decode_total data :
  no_panic (decode data) /\ forall f, decode data = Ok f -> bloom_wf f.
Proof.
  unfold decode. destruct (Z.ltb_spec (len data) 5) as [L|L]; [done|].
  destruct (byte_at_index 0 data) as (h & -> & _); [lia|]. cbn [mbind outcome_bind].
  rewrite slice_ok by lia. cbn [mbind outcome_bind]. set (bc := from_le_bytes _).
  pose proof (from_le_bytes_bound (take (Z.to_nat (5 - 1)) (drop (Z.to_nat 1) data))) as B. fold bc in B.
  destruct (Z.eqb_spec (len data) (5 + div_ceil bc 8)) as [E|E]; cbn [negb]; [|done].
  unfold slice_from. rewrite slice_ok by lia. cbn [mbind outcome_bind]. split; [done|]. intros f [= <-].
  unfold bloom_wf. cbn [bit_count bits]. rewrite len_take, len_drop. pose proof (div_ceil_bounds bc ltac:(lia)). lia.
Qed.
End facts.

(** ** Theorems *)

(** C34. A Bloom filter has no false negatives: building it succeeds, writing
    it out and reading it back gives the same filter, and every key it was
    built from is reported as possibly present. *)
Theorem bloom_no_false_negative crc32 keys :
  len keys * BITS_PER_KEY + 72 < 2 ^ 32 ->
  exists f, build crc32 keys = Ok f /\ decode (encode f) = Ok f /\
    forall key, key ∈ keys -> may_contain crc32 f key = Ok true.
Proof.
  intros Hn. destruct (build_ok crc32 keys ltac:(lia)) as (f & E & W & Hh & H64 & Hb & Hle & C).
  exists f. split; [done|]. split; [|done]. apply decode_encode.
  - by rewrite Hh.
  - fits.
  - rewrite Hb. unfold div_ceil. Z.to_euclidean_division_equations; lia.
Qed.

Lemma bloom_no_false_negative_witness :
  exists f, build (fun b => len b) [[byte.of_Z 1]; [byte.of_Z 2; byte.of_Z 3]] = Ok f /\ decode (encode f) = Ok f /\
    forall key, key ∈ [[byte.of_Z 1]; [byte.of_Z 2; byte.of_Z 3]] -> may_contain (fun b => len b) f key = Ok true.
Proof. apply (bloom_no_false_negative (fun b => len b)). vm_compute. reflexivity. Defined.

(** A filter read from any bytes answers every question, without a panic. *)
Lemma bloom_reads_anything crc32 data f key :
  decode data = Ok f -> exists b, may_contain crc32 f key = Ok b.
Proof. intros Hf. apply decode_total in Hf. rewrite may_contain_ok by done. eauto. Qed.
