(* ===== verification/Merge.v ===== *)
(** Memtables and the k-way merge of sorted runs
    (crates/idb-storage/src/engines/lsm/memtable.rs, merge_iterator.rs).

    A [BTreeMap] is the list of its entries in key order.  A value of [None]
    is a tombstone. *)

From Stdlib Require Import ZArith Lia List Bool.
From S2P Require Import Prelude Common Engine.
From coqutil Require Import Byte.
From stdpp Require Import base list strings sorting.
#[local] Open Scope Z_scope.

Abbreviation lsm_entry := (bytes * option bytes)%type.

(** ** Memtable *)

Definition ENTRY_OVERHEAD_BYTES : Z := 32.

Record Memtable := mkMem { mem_entries : list lsm_entry; size_bytes : Z }.

Definition mem_new : Memtable := mkMem [] 0.

(** [v.as_ref().map_or(0, |v| v.len())] *)
Definition value_len (v : option bytes) : Z := match v with Some v => len v | None => 0 end.

Definition mem_put (key value : bytes) (m : Memtable) : result Memtable :=
  size ← match kv_get key (mem_entries m) with
         | Some old => less ← @arith Error in_u64 (size_bytes m - value_len old); arith in_u64 (less + len value)
         | None => arith in_u64 (size_bytes m + (len key + len value + ENTRY_OVERHEAD_BYTES))
         end;
  Ok (mkMem (kv_put key (Some value) (mem_entries m)) size).

Definition mem_delete (key : bytes) (m : Memtable) : result Memtable :=
  size ← match kv_get key (mem_entries m) with
         | Some old => @arith Error in_u64 (size_bytes m - value_len old)
         | None => arith in_u64 (size_bytes m + (len key + ENTRY_OVERHEAD_BYTES))
         end;
  Ok (mkMem (kv_put key None (mem_entries m)) size).

(** [get]: [Some None] is a tombstone. *)
Definition mem_get (key : bytes) (m : Memtable) : option (option bytes) := kv_get key (mem_entries m).

(** A range [BTreeMap::range] accepts: its start is not past its end. *)
Definition proper_range (lo hi : Bound) : bool :=
  match lo, hi with
  | Unbounded, _ | _, Unbounded => true
  | Excluded a, Excluded b => bltb a b
  | Included a, (Included b | Excluded b) | Excluded a, Included b => bleb a b
  end.

(** [BTreeMap::range], which panics on any other range. *)
Definition btree_range (lo hi : Bound) (es : list lsm_entry) : result (list lsm_entry) :=
  if proper_range lo hi then Ok (kv_scan lo hi es) else Panic.

Definition mem_range (lo hi : Bound) (m : Memtable) : result (list lsm_entry) := btree_range lo hi (mem_entries m).

(** ** Merge *)

Record Source := mkSource { src_entries : list lsm_entry; pos : nat }.

Definition peek (s : Source) : option lsm_entry := src_entries s !! pos s.
Definition advance (s : Source) : Source := mkSource (src_entries s) (S (pos s)).

Definition merge_new (sources : list (list lsm_entry)) : list Source := map (fun es => mkSource es 0) sources.

(** The smallest current key and the first source that has it. *)
Fixpoint find_min (i : nat) (sources : list Source) (cur : option (bytes * nat)) : option (bytes * nat) :=
  match sources with
  | [] => cur
  | s :: rest =>
      find_min (S i) rest
        match peek s with
        | Some (key, _) =>
            match cur with
            | None => Some (key, i)
            | Some (current_min, _) => if bltb key current_min then Some (key, i) else cur
            end
        | None => cur
        end
  end.

(** [while let Some((k, _)) = source.peek()]: past the entries with [key]. *)
Fixpoint skip_key (fuel : nat) (key : bytes) (s : Source) : Source :=
  match fuel, peek s with
  | S fuel, Some (k, _) => if bool_decide (k = key) then skip_key fuel key (advance s) else s
  | _, _ => s
  end.

(** One turn of the loop: the winning entry and the sources after it. *)
Definition merge_turn (sources : list Source) : option (lsm_entry * list Source) :=
  match find_min 0 sources None with
  | None => None
  | Some (winner_key, winner) =>
      entry ← sources !! winner ≫= peek;
      Some (entry, imap (fun i s => if bool_decide (i = winner) then advance s
                                    else skip_key (length (src_entries s)) winner_key s) sources)
  end.

(** [collect_all]; each turn takes an entry, so their number is fuel enough. *)
Fixpoint merge_loop (fuel : nat) (sources : list Source) : option (list lsm_entry) :=
  match merge_turn sources with
  | None => Some []
  | Some (entry, sources') =>
      match fuel with
      | O => None
      | S fuel => cons entry <$> merge_loop fuel sources'
      end
  end.

Definition collect_all (sources : list (list lsm_entry)) : option (list lsm_entry) :=
  merge_loop (sum_list_with length sources) (merge_new sources).

(** ** Facts *)

(** The entry of [k] in the first list that has one. *)
Fixpoint first_of {V} (k : bytes) (ls : list (list (bytes * V))) : option V :=
  match ls with
  | [] => None
  | l :: rest => match kv_get k l with Some v => Some v | None => first_of k rest end
  end.

Definition remaining (s : Source) : list lsm_entry := drop (pos s) (src_entries s).

Lemma peek_head s : peek s = head (remaining s).
Proof.
  unfold peek, remaining. rewrite <- (Nat.add_0_r (pos s)) at 1. rewrite <- lookup_drop. by destruct (drop _ _).
Qed.

Lemma source_remaining_advance s e r : remaining s = e :: r -> remaining (advance s) = r.
Proof.
  unfold remaining. cbn [src_entries advance pos]. intros E. rewrite <- (Nat.add_1_r (pos s)), <- drop_drop, E. done.
Qed.

Lemma kv_delete_absent {V} k (l : list (bytes * V)) : Forall (fun e => blt k e.1) l -> kv_delete k l = l.
Proof.
  unfold kv_delete. induction 1 as [|[k' v'] l Hx F IH]; [done|]. cbn in *.
  rewrite bool_decide_eq_false_2 by (intros ->; by apply blt_irrefl in Hx). cbn. by rewrite IH.
Qed.

(** A list whose keys are all at least [k] loses [k] by dropping its head. *)
Lemma delete_min {V} k (l : list (bytes * V)) :
  keys_sorted l -> (forall k' v', head l = Some (k', v') -> ble k k') ->
  kv_delete k l = match l with (k', _) :: r => if bool_decide (k' = k) then r else l | [] => [] end.
Proof.
  intros S Hmin. destruct l as [|[k' v'] r]; [done|]. case_bool_decide as E.
  - subst. by apply (kv_delete_head k v').
  - apply kv_delete_absent. assert (L : blt k k').
    { apply blt_not_ble. intros L. apply E. apply ble_lt_or_eq in L as [L|L]; [|done].
      specialize (Hmin _ _ eq_refl). apply ble_not_lt in Hmin. done. }
    inversion S as [|? ? _ F]; subst. constructor; [done|]. eapply Forall_impl; [exact F|].
    intros x Hx. by apply (blt_trans _ k').
Qed.

Lemma skip_key_ok fuel key s :
  keys_sorted (remaining s) -> (length (remaining s) <= fuel)%nat ->
  (forall k' v', head (remaining s) = Some (k', v') -> ble key k') ->
  remaining (skip_key fuel key s) = kv_delete key (remaining s).
Proof.
  intros S Hf Hmin. rewrite (delete_min key) by done. destruct (remaining s) as [|[k v] r] eqn:R.
  { assert (P : peek s = None) by (by rewrite peek_head, R). destruct fuel; cbn; by rewrite ?P. }
  destruct fuel as [|fuel]; [cbn in Hf; lia|]. cbn [skip_key]. rewrite peek_head, R. cbn [head].
  case_bool_decide as E; [|done]. subst k. apply source_remaining_advance in R as R'.
  apply StronglySorted_inv in S as [S' F]. destruct fuel as [|fuel]; cbn [skip_key]; [done|].
  rewrite peek_head, R'. destruct r as [|[k' v'] r]; [done|]. cbn [head].
  apply Forall_cons_1 in F as [L _]. cbn in L. rewrite bool_decide_eq_false_2; [done|].
  intros ->. by apply blt_irrefl in L.
Qed.

(** The better of what was found before and what a source shows. *)
Definition found (cur : option (bytes * nat)) (p : option lsm_entry) (i : nat) : option (bytes * nat) :=
  match p, cur with
  | Some (key, _), None => Some (key, i)
  | Some (key, _), Some (m, _) => if bltb key m then Some (key, i) else cur
  | None, _ => cur
  end.

(** [w] is the first of the sources from [i] on that shows [k]. *)
Definition first_showing (i : nat) (sources : list Source) (k : bytes) (w : nat) : Prop :=
  exists s v, (i <= w)%nat /\ sources !! (w - i)%nat = Some s /\ peek s = Some (k, v) /\
    forall j s' v', (j < w - i)%nat -> sources !! j = Some s' -> peek s' <> Some (k, v').

Definition min_found (i : nat) (sources : list Source) (cur : option (bytes * nat)) (r : option (bytes * nat)) : Prop :=
  match r with
  | None => cur = None /\ Forall (fun s => peek s = None) sources
  | Some (k, w) =>
      (forall k' j, cur = Some (k', j) -> ble k k') /\
      Forall (fun s => forall k' v', peek s = Some (k', v') -> ble k k') sources /\
      (cur = Some (k, w) \/ (first_showing i sources k w /\ forall k' j, cur = Some (k', j) -> blt k k'))
  end.

Lemma first_showing_later i s sources k w :
  first_showing (S i) sources k w -> (forall v', peek s <> Some (k, v')) -> first_showing i (s :: sources) k w.
Proof.
  intros (s0 & v & Hw & Hl & Hp & Hn) Hs. exists s0, v. split; [lia|].
  replace (w - i)%nat with (S (w - S i)) by lia. split; [done|]. split; [done|].
  intros [|j] s' v' Hj Hl'; [injection Hl' as <-; apply Hs|]. apply (Hn j); [lia|done].
Qed.

Lemma found_ok cur p i :
  match found cur p i with
  | None => cur = None /\ p = None
  | Some (k, w) =>
      (forall k' j, cur = Some (k', j) -> ble k k') /\ (forall k' v', p = Some (k', v') -> ble k k') /\
      (cur = Some (k, w) \/
       (w = i /\ (exists v, p = Some (k, v)) /\ forall k' j, cur = Some (k', j) -> blt k k'))
  end.
Proof.
  unfold found. destruct p as [[key v]|], cur as [[m j]|]; cbn.
  - destruct (bltb key m) eqn:L.
    + apply bltb_spec in L. split_and!; [intros ? ? [= <- <-]; by apply blt_ble|by intros ? ? [= <- <-]|].
      right. split_and!; [done|eauto|]. by intros ? ? [= <- <-].
    + assert (ble m key) by (apply ble_not_lt; intros Hn; apply bltb_spec in Hn; congruence).
      split_and!; [by intros ? ? [= <- <-]|by intros ? ? [= <- <-]|by left].
  - split_and!; [done|by intros ? ? [= <- <-]|]. right. split_and!; [done|eauto|done].
  - split_and!; [by intros ? ? [= <- <-]|done|by left].
  - done.
Qed.

Lemma find_min_ok i sources cur : min_found i sources cur (find_min i sources cur).
Proof.
  revert i cur; induction sources as [|s rest IH]; intros i cur; cbn [find_min].
  { destruct cur as [[k w]|]; cbn; [|done]. split_and!; [by intros ? ? [= <- <-]|done|by left]. }
  assert (E : (match peek s with Some (key, _) => match cur with None => Some (key, i)
      | Some (m, _) => if bltb key m then Some (key, i) else cur end | None => cur end) = found cur (peek s) i)
    by (unfold found; by destruct (peek s) as [[? ?]|], cur as [[? ?]|]).
  rewrite E. clear E. specialize (IH (S i) (found cur (peek s) i)). pose proof (found_ok cur (peek s) i) as F.
  destruct (find_min (S i) rest _) as [[k w]|]; cbn [min_found] in *.
  - destruct IH as (I1 & I2 & I3). destruct (found cur (peek s) i) as [[k1 w1]|].
    + destruct F as (F1 & F2 & F3). specialize (I1 k1 w1 eq_refl). split_and!.
      * intros k' j Hc. etrans; [exact I1|eauto].
      * constructor; [|done]. intros k' v' Hp. etrans; [exact I1|eauto].
      * destruct I3 as [[= -> ->]|[I3 I4]].
        -- destruct F3 as [F3|(-> & [v Hv] & F4)]; [by left|right]. split; [|done].
           exists s, v. rewrite Nat.sub_diag. split_and!; try done. intros; lia.
        -- specialize (I4 k1 w1 eq_refl). right. split.
           ++ apply first_showing_later; [done|]. intros v' Hp. specialize (F2 k v' Hp).
              apply ble_not_lt in F2. done.
           ++ intros k' j Hc. eapply blt_ble_trans; [exact I4|eauto].
    + destruct F as [-> Hp]. split_and!; [done| |].
      * constructor; [|done]. rewrite Hp. done.
      * destruct I3 as [?|[I3 _]]; [done|right]. split; [|done]. apply first_showing_later; [done|]. by rewrite Hp.
  - destruct IH as [IH1 IH2]. rewrite IH1 in F. destruct F as [-> Hp]. split; [done|]. by constructor.
Qed.

Definition sorted_source (s : Source) : Prop := keys_sorted (remaining s).

Lemma head_kv_get {V} k (l : list (bytes * V)) :
  keys_sorted l -> (forall k' v', head l = Some (k', v') -> ble k k') -> kv_get k l =
  match head l with Some (k', v') => if bool_decide (k = k') then Some v' else None | None => None end.
Proof.
  intros S Hmin. destruct l as [|[k' v'] r]; [done|]. cbn [head]. case_bool_decide as E.
  - subst. cbn. by rewrite bool_decide_eq_true_2.
  - apply (kv_get_sorted_head k' v' k r); [done|]. apply blt_not_ble. intros L. apply E.
    specialize (Hmin _ _ eq_refl). apply ble_lt_or_eq in Hmin as [?|?]; [|done]. apply ble_not_lt in L. done.
Qed.

Lemma first_of_at k (sources : list Source) n s v :
  Forall sorted_source sources ->
  Forall (fun s => forall k' v', peek s = Some (k', v') -> ble k k') sources ->
  sources !! n = Some s -> peek s = Some (k, v) ->
  (forall j s' v', (j < n)%nat -> sources !! j = Some s' -> peek s' <> Some (k, v')) ->
  first_of k (map remaining sources) = Some v.
Proof.
  intros Hs. revert n. induction Hs as [|s0 sources S0 Hs IH]; intros n M Hn Hp Hfst; [done|].
  apply Forall_cons_1 in M as [M0 M]. cbn [map first_of].
  rewrite (head_kv_get k) by (done || (intros; apply (M0 k' v'); by rewrite peek_head)). rewrite <- peek_head.
  destruct n as [|n].
  - injection Hn as ->. rewrite Hp. by rewrite bool_decide_eq_true_2.
  - specialize (IH n M Hn Hp). destruct (peek s0) as [[k0 v0]|] eqn:P0.
    + rewrite bool_decide_eq_false_2 by (intros <-; by eapply (Hfst 0%nat s0 v0); [lia|..]).
      apply IH. intros j s' v' Hj Hl. apply (Hfst (S j)); [lia|done].
    + apply IH. intros j s' v' Hj Hl. apply (Hfst (S j)); [lia|done].
Qed.

Lemma merge_turn_ok sources :
  Forall sorted_source sources ->
  match merge_turn sources with
  | None => Forall (fun s => remaining s = []) sources
  | Some ((k, v), sources') =>
      map remaining sources' = map (kv_delete k) (map remaining sources) /\
      first_of k (map remaining sources) = Some v /\
      Forall (fun s => forall e, e ∈ remaining s -> ble k e.1) sources
  end.
Proof.
  intros S. unfold merge_turn. pose proof (find_min_ok 0 sources None) as F.
  destruct (find_min 0 sources None) as [[k w]|]; cbn [min_found] in F.
  2: { destruct F as [_ F]. eapply Forall_impl; [exact F|]. intros s Hp. cbn in Hp. rewrite peek_head in Hp.
       by destruct (remaining s). }
  destruct F as (_ & M & [?|[(s & v & _ & Hs & Hp & Hfst) _]]); [done|]. rewrite Nat.sub_0_r in *.
  rewrite Hs. cbn [mbind option_bind]. rewrite Hp. cbn [mbind option_bind]. split_and!.
  - apply list_eq. intros i. rewrite !list_lookup_fmap, list_lookup_imap.
    destruct (sources !! i) as [s'|] eqn:Hi; [|done]. cbn. f_equal. rewrite Forall_forall in S, M.
    assert (Hin : s' ∈ sources) by by eapply list_elem_of_lookup_2. specialize (S s' Hin). specialize (M s' Hin).
    assert (Mh : forall k' v', head (remaining s') = Some (k', v') -> ble k k')
      by (intros k' v' Hh; apply (M k' v'); by rewrite peek_head).
    case_bool_decide as E.
    + subst i. rewrite Hs in Hi. injection Hi as <-. rewrite (delete_min k) by done. rewrite peek_head in Hp.
      destruct (remaining s) as [|e r] eqn:R; [done|]. cbn in Hp. injection Hp as ->.
      rewrite bool_decide_eq_true_2 by done. by eapply source_remaining_advance.
    + apply skip_key_ok; [done| |done]. unfold remaining. rewrite length_drop. lia.
  - by eapply first_of_at.
  - rewrite Forall_forall in *. intros s' Hin e He. specialize (S s' Hin). specialize (M s' Hin).
    unfold sorted_source in S. rewrite peek_head in M. destruct (remaining s') as [|[k' v'] r]; [by apply elem_of_nil in He|].
    specialize (M k' v' eq_refl). apply elem_of_cons in He as [->|He]; [done|].
    apply StronglySorted_inv in S as [_ F]. rewrite Forall_forall in F. specialize (F e He). cbn in F.
    etrans; [exact M|by apply blt_ble].
Qed.

Lemma first_of_delete {V} k k' (ls : list (list (bytes * V))) :
  first_of k (map (kv_delete k') ls) = if bool_decide (k = k') then None else first_of k ls.
Proof.
  induction ls as [|l ls IH]; cbn; [by case_bool_decide|]. rewrite kv_get_delete, IH. by case_bool_decide.
Qed.

Lemma first_of_elem {V} k (v : V) ls : first_of k ls = Some v -> exists l, l ∈ ls /\ is_Some (kv_get k l).
Proof.
  induction ls as [|l ls IH]; cbn; [done|]. destruct (kv_get k l) eqn:E; [intros _; exists l; split; [by left|by eexists]|].
  intros (l' & Hl & Hk)%IH. exists l'. split; [by right|done].
Qed.

Lemma kv_get_elem {V} k (v : V) l : kv_get k l = Some v -> (k, v) ∈ l.
Proof.
  induction l as [|[k' v'] l IH]; cbn; [done|]. case_bool_decide; [intros [= ->]; subst; by left|right; auto].
Qed.

Lemma kv_get_key {V} k (v : V) l : (k, v) ∈ l -> is_Some (kv_get k l).
Proof.
  induction l as [|[k' v'] l IH]; [by intros ?%elem_of_nil|]. cbn. case_bool_decide; [by eexists|].
  intros [[= -> ->]|Hl]%elem_of_cons; [done|auto].
Qed.

Lemma length_kv_delete {V} k (l : list (bytes * V)) :
  (length (kv_delete k l) <= length l)%nat /\ (is_Some (kv_get k l) -> length (kv_delete k l) < length l)%nat.
Proof.
  unfold kv_delete. induction l as [|[k' v'] l [IH1 IH2]]; cbn; [split; [done|by intros [? ?]]|].
  destruct (decide (k = k')) as [->|Hn].
  - rewrite bool_decide_eq_true_2 by done. cbn. split; [lia|lia].
  - rewrite bool_decide_eq_false_2 by done. cbn. split; [lia|]. intros Hs%IH2. lia.
Qed.

Lemma total_delete {V} k (ls : list (list (bytes * V))) :
  is_Some (first_of k ls) ->
  (sum_list_with length (map (kv_delete k) ls) < sum_list_with length ls)%nat.
Proof.
  assert (Le : forall ls : list (list (bytes * V)), (sum_list_with length (map (kv_delete k) ls) <= sum_list_with length ls)%nat).
  { induction ls0 as [|l ls0 IH]; cbn; [done|]. pose proof (proj1 (length_kv_delete k l)). lia. }
  induction ls as [|l ls IH]; cbn; [by intros [? ?]|]. destruct (length_kv_delete k l) as [L1 L2]. specialize (Le ls).
  destruct (kv_get k l) eqn:E; [intros _; specialize (L2 ltac:(by eexists)); lia|]. intros Hs%IH. lia.
Qed.

Lemma sorted_delete_all k sources sources' :
  map remaining sources' = map (kv_delete k) (map remaining sources) ->
  Forall sorted_source sources -> Forall sorted_source sources'.
Proof.
  intros E S. rewrite Forall_forall in *. intros s' Hs'.
  assert (Hin : remaining s' ∈ map remaining sources') by (apply list_elem_of_fmap; eauto).
  rewrite E in Hin. apply list_elem_of_fmap in Hin as (l & El & Hl). apply list_elem_of_fmap in Hl as (s & -> & Hs).
  unfold sorted_source. rewrite El. apply keys_sorted_delete. by apply S.
Qed.

Lemma first_of_nil k sources : Forall (fun s => remaining s = []) sources -> first_of k (map remaining sources) = None.
Proof. induction 1 as [|s ss Hs _ IH]; cbn; [done|]. by rewrite Hs. Qed.

Lemma merge_loop_ok fuel sources :
  Forall sorted_source sources -> (sum_list_with length (map remaining sources) <= fuel)%nat ->
  exists out, merge_loop fuel sources = Some out /\ keys_sorted out /\
    forall k, kv_get k out = first_of k (map remaining sources).
Proof.
  revert sources; induction fuel as [|fuel IH]; intros sources Hs Hf; cbn [merge_loop];
    pose proof (merge_turn_ok sources Hs) as T; destruct (merge_turn sources) as [[[k v] sources']|].
  - exfalso. destruct T as (_ & F & _). pose proof (total_delete k (map remaining sources)). rewrite F in *.
    assert (is_Some (Some v)) by by eexists. intuition lia.
  - exists []. split; [done|]. split; [constructor|]. intros k. by rewrite first_of_nil.
  - destruct T as (E & F & M). destruct (IH sources') as (out & -> & S & G).
    { by eapply sorted_delete_all. }
    { rewrite E. pose proof (total_delete k (map remaining sources)). rewrite F in *.
      assert (is_Some (Some v)) by by eexists. intuition lia. }
    exists ((k, v) :: out). split; [done|].
    assert (G' : forall k', kv_get k' out = if bool_decide (k' = k) then None else first_of k' (map remaining sources))
      by (intros k'; by rewrite G, E, first_of_delete).
    split.
    + constructor; [done|]. apply Forall_forall. intros [k' v'] He. cbn.
      destruct (kv_get_key k' v' out He) as [w Hw]. rewrite G' in Hw. case_bool_decide as N; [done|].
      apply first_of_elem in Hw as (l & Hl & [u Hu]). apply list_elem_of_fmap in Hl as (s & -> & Hin).
      rewrite Forall_forall in M. apply kv_get_elem in Hu. specialize (M s Hin _ Hu). cbn in M.
      apply ble_lt_or_eq in M as [?|?]; [done|congruence].
    + intros k'. cbn. rewrite G'. case_bool_decide; [by subst|done].
  - exists []. split; [done|]. split; [constructor|]. intros k. by rewrite first_of_nil.
Qed.

Lemma collect_all_ok sources :
  Forall keys_sorted sources ->
  exists out, collect_all sources = Some out /\ keys_sorted out /\ forall k, kv_get k out = first_of k sources.
Proof.
  intros S. unfold collect_all. assert (E : map remaining (merge_new sources) = sources).
  { unfold merge_new. rewrite map_map. unfold remaining. cbn. by rewrite map_id. }
  destruct (merge_loop_ok (sum_list_with length sources) (merge_new sources)) as (out & Eo & So & G).
  - unfold merge_new. apply Forall_forall. intros s Hs. apply list_elem_of_fmap in Hs as (l & -> & Hl).
    rewrite Forall_forall in S. by apply S.
  - by rewrite E.
  - exists out. rewrite E in G. done.
Qed.

(** *** The memtable's size *)

Definition entry_weight (e : lsm_entry) : Z := len e.1 + value_len e.2 + ENTRY_OVERHEAD_BYTES.
Fixpoint mem_weight (es : list lsm_entry) : Z :=
  match es with [] => 0 | e :: rest => entry_weight e + mem_weight rest end.

Record mem_wf (m : Memtable) : Prop := {
  mem_sorted : keys_sorted (mem_entries m);
  mem_size : size_bytes m = mem_weight (mem_entries m)
}.

Lemma value_len_nonneg v : 0 <= value_len v.
Proof. destruct v; cbn; [apply len_nonneg|done]. Qed.

Lemma mem_weight_nonneg es : 0 <= mem_weight es.
Proof.
  induction es as [|[k v] es IH]; cbn; [done|]. unfold entry_weight, ENTRY_OVERHEAD_BYTES. cbn.
  pose proof (len_nonneg k). pose proof (value_len_nonneg v). lia.
Qed.

Lemma mem_weight_put k v es :
  keys_sorted es ->
  mem_weight (kv_put k v es)
  = mem_weight es + match kv_get k es with
                    | Some old => value_len v - value_len old
                    | None => entry_weight (k, v)
                    end.
Proof.
  induction 1 as [|[k' v'] es S IH F]; cbn [kv_put kv_get]; [cbn; lia|]. destruct (bcmp k k') eqn:C.
  - apply bcmp_eq in C as ->. rewrite bool_decide_eq_true_2 by done. cbn. unfold entry_weight. cbn. lia.
  - rewrite bool_decide_eq_false_2 by (intros ->; by rewrite bcmp_refl in C).
    rewrite kv_get_above; [cbn; lia|]. eapply Forall_impl; [exact F|]. intros x Hx. by apply (blt_trans _ k').
  - rewrite bool_decide_eq_false_2 by (intros ->; by rewrite bcmp_refl in C). cbn [mem_weight]. lia.
Qed.

Lemma mem_weight_get k v es : kv_get k es = Some v -> value_len v <= mem_weight es.
Proof.
  induction es as [|[k' v'] es IH]; cbn; [done|]. pose proof (mem_weight_nonneg es). unfold entry_weight, ENTRY_OVERHEAD_BYTES. cbn.
  pose proof (len_nonneg k'). pose proof (value_len_nonneg v'). case_bool_decide; [intros [= ->]; lia|intros Hle%IH; lia].
Qed.

Lemma mem_put_ok k v m :
  mem_wf m -> size_bytes m + (len k + len v + ENTRY_OVERHEAD_BYTES) < 2 ^ 64 ->
  exists m', mem_put k v m = Ok m' /\ mem_wf m' /\ mem_entries m' = kv_put k (Some v) (mem_entries m).
Proof.
  intros [Hs Hz] Hb. pose proof (mem_weight_put k (Some v) _ Hs) as W. pose proof (mem_weight_nonneg (mem_entries m)).
  pose proof (mem_weight_nonneg (kv_put k (Some v) (mem_entries m))). unfold entry_weight, ENTRY_OVERHEAD_BYTES in *. cbn in W.
  pose proof (len_nonneg k). pose proof (len_nonneg v). unfold mem_put.
  destruct (kv_get k (mem_entries m)) as [old|] eqn:G.
  - apply mem_weight_get in G. pose proof (value_len_nonneg old). rewrite Hz. rewrite arith_bind by fits. cbv beta.
    rewrite arith_bind by fits. cbv beta. eexists. split; [done|]. split; [|done].
    constructor; [by apply keys_sorted_put|cbn; lia].
  - unfold ENTRY_OVERHEAD_BYTES. rewrite arith_bind by fits. cbv beta. eexists. split; [done|]. split; [|done].
    constructor; [by apply keys_sorted_put|cbn; lia].
Qed.

Lemma mem_delete_ok k m :
  mem_wf m -> size_bytes m + (len k + ENTRY_OVERHEAD_BYTES) < 2 ^ 64 ->
  exists m', mem_delete k m = Ok m' /\ mem_wf m' /\ mem_entries m' = kv_put k None (mem_entries m).
Proof.
  intros [Hs Hz] Hb. pose proof (mem_weight_put k None _ Hs) as W. pose proof (mem_weight_nonneg (mem_entries m)).
  pose proof (mem_weight_nonneg (kv_put k None (mem_entries m))). unfold entry_weight, ENTRY_OVERHEAD_BYTES in *. cbn in W.
  pose proof (len_nonneg k). unfold mem_delete. destruct (kv_get k (mem_entries m)) as [old|] eqn:G.
  - apply mem_weight_get in G. pose proof (value_len_nonneg old). rewrite Hz. rewrite arith_bind by fits. cbv beta.
    eexists. split; [done|]. split; [|done]. constructor; [by apply keys_sorted_put|cbn; lia].
  - unfold ENTRY_OVERHEAD_BYTES. rewrite arith_bind by fits. cbv beta. eexists. split; [done|]. split; [|done].
    constructor; [by apply keys_sorted_put|cbn; lia].
Qed.

(** ** Theorems *)

(** C32. The merge of sorted runs ends and is the sorted run that has, for each
    key, the entry of the newest run that has the key, tombstones included. *)
Theorem merge_correct sources :
  Forall keys_sorted sources ->
  exists out, collect_all sources = Some out /\ keys_sorted out /\ forall k, kv_get k out = first_of k sources.
Proof. apply collect_all_ok. Qed.

Lemma merge_correct_witness :
  let new := [([byte.of_Z 1], None); ([byte.of_Z 3], Some [byte.of_Z 9])] in
  let old := [([byte.of_Z 1], Some [byte.of_Z 7]); ([byte.of_Z 2], Some [byte.of_Z 8])] in
  exists out, collect_all [new; old] = Some out /\ keys_sorted out /\ forall k, kv_get k out = first_of k [new; old].
Proof. intros new old. apply (merge_correct [new; old]). repeat constructor. Defined.
