(* ===== verification/SsTable.v ===== *)
(** Sorted string tables: the file a run is written to and its reader
    (crates/idb-storage/src/engines/lsm/sstable.rs).

    A file is its bytes.  Writing to a temporary name, syncing and renaming are
    the appearance of the whole file; a read past the end is an I/O error. *)

From Stdlib Require Import ZArith Lia List Bool.
From S2P Require Import Prelude Common Engine Bloom Merge.
From coqutil Require Import Byte Word.LittleEndianList.
From stdpp Require Import base list strings sorting.
#[local] Open Scope Z_scope.

Definition MAGIC : Z := 22303571.
Definition BLOCK_SIZE : Z := 4096.
Definition BLOCK_DATA_CAPACITY : Z := BLOCK_SIZE - 2.
Definition TOMBSTONE_SENTINEL : Z := 65535.
Definition FOOTER_SIZE : Z := 32.

Record SSTableMeta := mkMeta {
  sst_id : Z;
  first_key : bytes;
  last_key : bytes;
  file_size : Z;
  entry_count : Z
}.

Record Footer := mkFooter {
  block_count : Z;
  index_offset : Z;
  index_size : Z;
  bloom_offset : Z;
  bloom_size : Z
}.

Record IndexEntry := mkIndex { ie_first_key : bytes; block_offset : Z }.

Section sstable.
Context (crc32 : bytes -> Z).

(** ** Footer *)

Definition footer_body (f : Footer) : bytes :=
  to_le_bytes 4 MAGIC ++ to_le_bytes 4 (block_count f) ++ to_le_bytes 8 (index_offset f) ++
  to_le_bytes 4 (index_size f) ++ to_le_bytes 4 (as_unsigned 32 (bloom_offset f)) ++ to_le_bytes 4 (bloom_size f).

Definition footer_encode (f : Footer) : result bytes :=
  if 2 ^ 32 - 1 <? bloom_offset f then Panic else
  Ok (footer_body f ++ to_le_bytes 4 (crc32 (footer_body f))).

Definition le_at (lo hi : Z) (buf : bytes) : result Z := raw ← slice lo hi buf; Ok (from_le_bytes raw).

Definition footer_decode (buf : bytes) : result Footer :=
  magic ← le_at 0 4 buf;
  if negb (magic =? MAGIC) then Err (StorageCorrupted "SSTable bad magic") else
  stored ← le_at 28 32 buf;
  body ← slice 0 28 buf;
  if negb (stored =? crc32 body) then Err (StorageCorrupted "SSTable footer checksum mismatch") else
  block_count ← le_at 4 8 buf;
  index_offset ← le_at 8 16 buf;
  index_size ← le_at 16 20 buf;
  bloom_offset ← le_at 20 24 buf;
  bloom_size ← le_at 24 28 buf;
  Ok (mkFooter block_count index_offset index_size bloom_offset bloom_size).

(** ** Writing *)

Record SstWriter := mkSstWriter {
  out : bytes;
  block_buf : bytes;
  block_entry_count : Z;
  block_first_key : option bytes;
  index_entries : list IndexEntry;
  current_block_offset : Z;
  total_entry_count : Z;
  w_first_key : option bytes;
  w_last_key : option bytes;
  all_keys : list bytes
}.

Definition sst_writer_new : SstWriter := mkSstWriter [] [] 0 None [] 0 0 None None [].

(** [flush_block], with the first key taken out of its option. *)
Definition flush_block (w : SstWriter) : result SstWriter :=
  match block_first_key w with
  | None => Panic
  | Some k =>
      if BLOCK_DATA_CAPACITY <? len (block_buf w) then Panic else
      Ok (mkSstWriter
        (out w ++ pad_to BLOCK_DATA_CAPACITY (byte.of_Z 0) (block_buf w) ++ to_le_bytes 2 (block_entry_count w))
        [] (block_entry_count w) None (index_entries w ++ [mkIndex k (current_block_offset w)])
        (current_block_offset w) (total_entry_count w) (w_first_key w) (w_last_key w) (all_keys w))
  end.

Definition entry_bytes (e : lsm_entry) : bytes :=
  to_le_bytes 2 (as_unsigned 16 (len e.1)) ++ e.1 ++
  match e.2 with
  | Some v => to_le_bytes 2 (as_unsigned 16 (len v)) ++ v
  | None => to_le_bytes 2 TOMBSTONE_SENTINEL
  end.

Definition or_else {A} (o : option A) (a : A) : option A := match o with Some _ => o | None => Some a end.

(** The loop body. *)
Definition write_entry (w : SstWriter) (e : lsm_entry) : result SstWriter :=
  let '(key, value) := e in
  let entry_size := 2 + len key + 2 + value_len value in
  w ← (if negb (len (block_buf w) =? 0) && (BLOCK_DATA_CAPACITY <? len (block_buf w) + entry_size) then
         w ← flush_block w;
         off ← @arith Error in_u32 (current_block_offset w + BLOCK_SIZE);
         Ok (mkSstWriter (out w) (block_buf w) 0 (block_first_key w) (index_entries w) off
               (total_entry_count w) (w_first_key w) (w_last_key w) (all_keys w))
       else Ok w);
  count ← @arith Error in_u16 (block_entry_count w + 1);
  total ← @arith Error in_u64 (total_entry_count w + 1);
  Ok (mkSstWriter (out w) (block_buf w ++ entry_bytes e) count (or_else (block_first_key w) key)
        (index_entries w) (current_block_offset w) total (or_else (w_first_key w) key) (Some key)
        (all_keys w ++ [key])).

Fixpoint write_entries (w : SstWriter) (entries : list lsm_entry) : result SstWriter :=
  match entries with
  | [] => Ok w
  | e :: rest => w' ← write_entry w e; write_entries w' rest
  end.

Definition index_bytes (e : IndexEntry) : bytes :=
  to_le_bytes 2 (as_unsigned 16 (len (ie_first_key e))) ++ ie_first_key e ++ to_le_bytes 4 (block_offset e).

(** [write_sstable]: the metadata and the file, or nothing for no entries. *)
Definition write_sstable (id : Z) (entries : list lsm_entry) : result (option (SSTableMeta * bytes)) :=
  w ← write_entries sst_writer_new entries;
  if total_entry_count w =? 0 then Ok None else
  w ← flush_block w;
  let block_count := as_unsigned 32 (len (index_entries w)) in
  bloom_offset ← @arith Error in_u32 (current_block_offset w + BLOCK_SIZE);
  bloom ← Bloom.build crc32 (all_keys w);
  let bloom_bytes := Bloom.encode bloom in
  let bloom_size := as_unsigned 32 (len bloom_bytes) in
  let out1 := out w ++ bloom_bytes in
  let index_offset := bloom_offset + bloom_size in
  if negb (len out1 =? index_offset) then Panic else
  let index := concat (map index_bytes (index_entries w)) ++ to_le_bytes 4 block_count in
  footer ← footer_encode (mkFooter block_count index_offset (as_unsigned 32 (len index)) bloom_offset bloom_size);
  let file := out1 ++ index ++ footer in
  match w_first_key w, w_last_key w with
  | Some fk, Some lk => Ok (Some (mkMeta id fk lk (len file) (total_entry_count w), file))
  | _, _ => Panic
  end.

(** ** Reading *)

(** [seek] then [read_exact]. *)
Definition read_at (offset n : Z) (file : bytes) : result bytes :=
  if offset + n <=? len file then slice offset (offset + n) file else Err Io.

Fixpoint decode_entries (count : nat) (data : bytes) (pos : Z) : result (list lsm_entry) :=
  match count with
  | O => Ok []
  | S count =>
      if len data <? pos + 2 then Err (StorageCorrupted "block entry truncated (key_len)") else
      key_len ← le_at pos (pos + 2) data;
      let pos := pos + 2 in
      if len data <? pos + key_len then Err (StorageCorrupted "block entry truncated (key)") else
      key ← slice pos (pos + key_len) data;
      let pos := pos + key_len in
      if len data <? pos + 2 then Err (StorageCorrupted "block entry truncated (value_len)") else
      value_len ← le_at pos (pos + 2) data;
      let pos := pos + 2 in
      if value_len =? TOMBSTONE_SENTINEL then
        rest ← decode_entries count data pos; Ok ((key, None) :: rest)
      else
        if len data <? pos + value_len then Err (StorageCorrupted "block entry truncated (value)") else
        value ← slice pos (pos + value_len) data;
        rest ← decode_entries count data (pos + value_len); Ok ((key, Some value) :: rest)
  end.

Definition decode_block_entries (data : bytes) (entry_count : Z) : result (list lsm_entry) :=
  decode_entries (Z.to_nat entry_count) data 0.

Fixpoint decode_index (count : nat) (payload : bytes) (pos : Z) : result (list IndexEntry) :=
  match count with
  | O => Ok []
  | S count =>
      if len payload <? pos + 2 then Err (StorageCorrupted "index entry truncated (key_len)") else
      key_len ← le_at pos (pos + 2) payload;
      let pos := pos + 2 in
      if len payload <? pos + key_len then Err (StorageCorrupted "index entry truncated (key)") else
      first_key ← slice pos (pos + key_len) payload;
      let pos := pos + key_len in
      if len payload <? pos + 4 then Err (StorageCorrupted "index entry truncated (offset)") else
      block_offset ← le_at pos (pos + 4) payload;
      rest ← decode_index count payload (pos + 4); Ok (mkIndex first_key block_offset :: rest)
  end.

Definition decode_index_block (data : bytes) (expected_count : Z) : result (list IndexEntry) :=
  if len data <? 4 then Err (StorageCorrupted "index block too small") else
  count ← le_at (len data - 4) (len data) data;
  if negb (count =? expected_count) then Panic else
  payload ← slice 0 (len data - 4) data;
  decode_index (Z.to_nat count) payload 0.

(** All entries of the block at an offset. *)
Definition read_block (file : bytes) (offset : Z) : result (list lsm_entry) :=
  buf ← read_at offset BLOCK_SIZE file;
  entry_count ← le_at BLOCK_DATA_CAPACITY BLOCK_SIZE buf;
  data ← slice 0 BLOCK_DATA_CAPACITY buf;
  decode_block_entries data entry_count.

Definition read_last_key_in_block (file : bytes) (offset : Z) : result bytes :=
  entries ← read_block file offset;
  match last entries with Some (k, _) => Ok k | None => Panic end.

Fixpoint count_all_entries (file : bytes) (index : list IndexEntry) (total : Z) : result Z :=
  match index with
  | [] => Ok total
  | e :: rest =>
      raw ← read_at (block_offset e + BLOCK_DATA_CAPACITY) 2 file;
      total ← arith in_u64 (total + from_le_bytes raw);
      count_all_entries file rest total
  end.

Record SSTableReader := mkReader {
  file : bytes;
  footer : Footer;
  index : list IndexEntry;
  meta : SSTableMeta;
  bloom : option BloomFilter
}.

Definition sst_open (data : bytes) (id : Z) : result SSTableReader :=
  if len data <? FOOTER_SIZE then Err (StorageCorrupted "SSTable file too small") else
  footer_buf ← read_at (len data - FOOTER_SIZE) FOOTER_SIZE data;
  footer ← footer_decode footer_buf;
  index_buf ← read_at (index_offset footer) (index_size footer) data;
  index ← decode_index_block index_buf (block_count footer);
  bloom ← (if 0 <? bloom_size footer then
             bloom_buf ← read_at (bloom_offset footer) (bloom_size footer) data;
             b ← Bloom.decode bloom_buf; Ok (Some b)
           else Ok None);
  let first_key := match index with e :: _ => ie_first_key e | [] => [] end in
  last_key ← match last index with Some e => read_last_key_in_block data (block_offset e) | None => Ok [] end;
  entry_count ← count_all_entries data index 0;
  Ok (mkReader data footer index (mkMeta id first_key last_key (len data) entry_count) bloom).

(** The binary search of [find_block_for_key]. *)
Fixpoint search_blocks (fuel : nat) (index : list IndexEntry) (key : bytes) (lo hi : Z) : option (result Z) :=
  if lo <? hi then
    match fuel with
    | O => None
    | S fuel =>
        let mid := lo + (hi - lo) / 2 in
        match index !! Z.to_nat mid with
        | None => Some Panic
        | Some e => if bleb (ie_first_key e) key then search_blocks fuel index key (mid + 1) hi
                    else search_blocks fuel index key lo mid
        end
    end
  else Some (if 0 <? lo then Ok (lo - 1) else Panic).

(** The interval shrinks, so the number of blocks is fuel enough. *)
Definition find_block_for_key (r : SSTableReader) (key : bytes) : option (result Z) :=
  search_blocks (length (index r)) (index r) key 0 (len (index r)).

(** The scan of the block for the key. *)
Fixpoint find_entry (key : bytes) (entries : list lsm_entry) : option (option bytes) :=
  match entries with
  | [] => None
  | (k, v) :: rest => if bool_decide (k = key) then Some v else if bltb key k then None else find_entry key rest
  end.

Definition out_of_span (r : SSTableReader) (key : bytes) : bool :=
  bltb key (first_key (meta r)) || bltb (last_key (meta r)) key.

Definition sst_get (r : SSTableReader) (key : bytes) : option (result (option (option bytes))) :=
  match (match bloom r with Some b => Bloom.may_contain crc32 b key | None => Ok true end) with
  | Panic => Some Panic
  | Err e => Some (Err e)
  | Ok false => Some (Ok None)
  | Ok true =>
      if out_of_span r key then Some (Ok None) else
      match find_block_for_key r key with
      | None => None
      | Some block_idx =>
          Some (block_idx ← block_idx;
                e ← match index r !! Z.to_nat block_idx with Some e => Ok e | None => Panic end;
                entries ← read_block (file r) (block_offset e);
                Ok (find_entry key entries))
      end
  end.

Definition sst_may_contain (r : SSTableReader) (key : bytes) : result bool :=
  if out_of_span r key then Ok false else
  match bloom r with Some b => Bloom.may_contain crc32 b key | None => Ok true end.

Fixpoint read_blocks (file : bytes) (offsets : list Z) : result (list lsm_entry) :=
  match offsets with
  | [] => Ok []
  | o :: rest => entries ← read_block file o; more ← read_blocks file rest; Ok (entries ++ more)
  end.

Definition sst_iter (r : SSTableReader) : result (list lsm_entry) :=
  read_blocks (file r) (map block_offset (index r)).
End sstable.

(** ** Fields at a position *)

Lemma le_at_mid n z (a c : bytes) lo hi :
  0 <= z < 2 ^ (8 * Z.of_nat n) -> lo = len a -> hi = len a + Z.of_nat n ->
  le_at lo hi (a ++ to_le_bytes n z ++ c) = Ok z.
Proof.
  intros Hz -> ->. unfold le_at. rewrite slice_mid by (rewrite ?len_to_le_bytes; done). cbn [mbind outcome_bind].
  by rewrite from_to_le_bytes.
Qed.

Lemma read_at_mid n (a b c : bytes) lo :
  lo = len a -> n = len b -> read_at lo n (a ++ b ++ c) = Ok b.
Proof.
  intros -> ->. unfold read_at. rewrite !len_app. pose proof (len_nonneg c). zcase. by apply slice_mid.
Qed.

(** A truncation test that does not fire. *)
Ltac no_trunc buf :=
  match goal with |- context [len buf <? ?p] => destruct (Z.ltb_spec (len buf) p); [lia|] end.

(** ** Blocks *)

Definition entry_size (e : lsm_entry) : Z := 2 + len e.1 + 2 + value_len e.2.

(** An entry a block can hold. *)
Definition entry_fits (e : lsm_entry) : Prop := entry_size e <= BLOCK_DATA_CAPACITY.

Definition data_bytes (es : list lsm_entry) : bytes := concat (map entry_bytes es).

Lemma len_entry_bytes e : len (entry_bytes e) = entry_size e.
Proof. unfold entry_bytes, entry_size. destruct e as [k [v|]]; cbn [fst snd value_len]; autorewrite with len; cbn; lia. Qed.

Lemma data_bytes_snoc es e : data_bytes (es ++ [e]) = data_bytes es ++ entry_bytes e.
Proof. unfold data_bytes. rewrite map_app, concat_app. cbn. by rewrite app_nil_r. Qed.

(** The key and the length field of the value, read off the front. *)
Lemma decode_entry_key n (pre k post : bytes) vl buf :
  len k < 2 ^ 16 -> 0 <= vl < 2 ^ 16 ->
  buf = pre ++ to_le_bytes 2 (len k) ++ k ++ to_le_bytes 2 vl ++ post ->
  decode_entries (S n) buf (len pre) =
  (let pos := len pre + 2 + len k + 2 in
   if vl =? TOMBSTONE_SENTINEL then rest ← decode_entries n buf pos; Ok ((k, None) :: rest)
   else if len buf <? pos + vl then Err (StorageCorrupted "block entry truncated (value)") else
   value ← slice pos (pos + vl) buf;
   rest ← decode_entries n buf (pos + vl); Ok ((k, Some value) :: rest)).
Proof.
  intros Hk Hv B. pose proof (len_nonneg k). pose proof (len_nonneg pre). pose proof (len_nonneg post).
  assert (LB : len buf = len pre + 2 + len k + 2 + len post).
  { subst buf. rewrite !len_app, !len_to_le_bytes. cbn. lia. }
  cbn [decode_entries]. no_trunc buf.
  replace (le_at (len pre) (len pre + 2) buf) with (@Ok Error _ (len k)).
  2: { symmetry. rewrite B. apply le_at_mid; cbn; lia. }
  cbn [mbind outcome_bind]. no_trunc buf.
  replace (slice (len pre + 2) (len pre + 2 + len k) buf) with (@Ok Error _ k).
  2: { symmetry. rewrite B, (app_assoc pre). apply slice_mid; rewrite len_app, len_to_le_bytes; cbn; lia. }
  cbn [mbind outcome_bind]. no_trunc buf.
  replace (le_at (len pre + 2 + len k) (len pre + 2 + len k + 2) buf) with (@Ok Error _ vl).
  2: { symmetry. rewrite B, (app_assoc pre), (app_assoc (pre ++ _)).
       apply le_at_mid; rewrite ?len_app, ?len_to_le_bytes; cbn; lia. }
  reflexivity.
Qed.

Lemma decode_entry n (pre post : bytes) e :
  entry_fits e ->
  decode_entries (S n) (pre ++ entry_bytes e ++ post) (len pre) =
  rest ← decode_entries n (pre ++ entry_bytes e ++ post) (len (pre ++ entry_bytes e)); Ok (e :: rest).
Proof.
  destruct e as [k v]. intros F. unfold entry_fits, entry_size, BLOCK_DATA_CAPACITY, BLOCK_SIZE in F. cbn [fst snd] in F.
  pose proof (len_nonneg k) as Lk. pose proof (value_len_nonneg v) as Lv. rewrite (len_app pre), len_entry_bytes. unfold entry_size. cbn [fst snd].
  remember (pre ++ entry_bytes (k, v) ++ post) as buf eqn:B. unfold entry_bytes in B. cbn [fst snd] in B.
  rewrite as_unsigned_small in B by lia. destruct v as [v|]; cbn [value_len] in *.
  - rewrite as_unsigned_small in B by lia. rewrite <- !app_assoc in B.
    rewrite (decode_entry_key n pre k (v ++ post) (len v)) by (done || lia). cbn zeta. unfold TOMBSTONE_SENTINEL.
    assert (LB : len buf = len pre + 2 + len k + 2 + len v + len post).
    { rewrite B, !len_app, !len_to_le_bytes. cbn. lia. }
    pose proof (len_nonneg post). zcase. zcase.
    replace (slice _ _ buf) with (@Ok Error _ v).
    2: { symmetry. rewrite B, (app_assoc pre), (app_assoc (pre ++ _)), (app_assoc ((pre ++ _) ++ _)).
         apply slice_mid; rewrite ?len_app, ?len_to_le_bytes; cbn; lia. }
    cbn [mbind outcome_bind]. do 2 f_equal. lia.
  - rewrite <- !app_assoc in B. rewrite (decode_entry_key n pre k post TOMBSTONE_SENTINEL) by (done || lia).
    cbn zeta. rewrite Z.eqb_refl. do 2 f_equal. lia.
Qed.

Lemma decode_entries_ok es (pre post : bytes) :
  Forall entry_fits es ->
  decode_entries (length es) (pre ++ data_bytes es ++ post) (len pre) = Ok es.
Proof.
  revert pre. induction es as [|e es IH]; intros pre F; [done|]. apply Forall_cons_1 in F as [Fe F].
  cbn [length]. change (data_bytes (e :: es)) with (entry_bytes e ++ data_bytes es). rewrite <- app_assoc.
  rewrite decode_entry by done. rewrite app_assoc, IH by done. done.
Qed.

(** A block as it stands in the file. *)
Definition block_image (es : list lsm_entry) : bytes :=
  pad_to BLOCK_DATA_CAPACITY (byte.of_Z 0) (data_bytes es) ++ to_le_bytes 2 (len es).

(** The entries of one block. *)
Definition block_ok (es : list lsm_entry) : Prop :=
  es <> [] /\ Forall entry_fits es /\ len (data_bytes es) <= BLOCK_DATA_CAPACITY.

Lemma len_block_image es : block_ok es -> len (block_image es) = BLOCK_SIZE.
Proof. intros (_ & _ & L). unfold block_image. rewrite len_app, len_pad_to, len_to_le_bytes by done. done. Qed.

Lemma len_data_bytes es : 4 * len es <= len (data_bytes es).
Proof.
  induction es as [|e es IH]; [done|]. change (data_bytes (e :: es)) with (entry_bytes e ++ data_bytes es).
  rewrite len_cons, len_app, len_entry_bytes. unfold entry_size. pose proof (len_nonneg e.1).
  pose proof (value_len_nonneg e.2). lia.
Qed.

Lemma read_block_ok es (pre post : bytes) o :
  block_ok es -> o = len pre -> read_block (pre ++ block_image es ++ post) o = Ok es.
Proof.
  intros B ->. pose proof B as (_ & F & L). unfold read_block.
  rewrite read_at_mid by (done || by rewrite len_block_image). cbn [mbind outcome_bind].
  pose proof (len_data_bytes es) as N. pose proof (len_nonneg es). unfold BLOCK_DATA_CAPACITY, BLOCK_SIZE in *.
  pose proof (len_pad_to (4096 - 2) (byte.of_Z 0) (data_bytes es) L) as P.
  unfold block_image, BLOCK_DATA_CAPACITY, BLOCK_SIZE.
  replace (le_at _ _ _) with (@Ok Error _ (len es)).
  2: { symmetry. rewrite <- (app_nil_r (to_le_bytes 2 (len es))). apply le_at_mid; cbn; lia. }
  cbn [mbind outcome_bind]. rewrite slice_prefix by lia. cbn [mbind outcome_bind].
  unfold decode_block_entries, pad_to. replace (Z.to_nat (len es)) with (length es) by (unfold len; lia).
  by apply (decode_entries_ok es []).
Qed.

(** ** Index and footer *)

Definition block_key (es : list lsm_entry) : bytes := match es with e :: _ => e.1 | [] => [] end.

(** The index of blocks laid out from an offset. *)
Fixpoint index_of (offset : Z) (blocks : list (list lsm_entry)) : list IndexEntry :=
  match blocks with
  | [] => []
  | b :: rest => mkIndex (block_key b) offset :: index_of (offset + BLOCK_SIZE) rest
  end.

Definition index_entry_ok (e : IndexEntry) : Prop := len (ie_first_key e) <= 4090 /\ 0 <= block_offset e < 2 ^ 32.

Lemma decode_index_ok idx (pre post : bytes) :
  Forall index_entry_ok idx ->
  decode_index (length idx) (pre ++ concat (map index_bytes idx) ++ post) (len pre) = Ok idx.
Proof.
  revert pre. induction idx as [|[k o] idx IH]; intros pre F; [done|]. apply Forall_cons_1 in F as [[Fk Fo] F].
  cbn [ie_first_key block_offset] in *. pose proof (len_nonneg k). pose proof (len_nonneg pre).
  cbn [map concat length]. rewrite <- app_assoc. set (more := concat (map index_bytes idx) ++ post).
  remember (pre ++ index_bytes (mkIndex k o) ++ more) as buf eqn:B.
  assert (B' : buf = (pre ++ index_bytes (mkIndex k o)) ++ more) by (by rewrite B, app_assoc).
  assert (LI : len (index_bytes (mkIndex k o)) = 2 + len k + 4).
  { unfold index_bytes. cbn. rewrite !len_app, !len_to_le_bytes. lia. }
  assert (LB : len buf = len pre + 2 + len k + 4 + len more) by (rewrite B, !len_app, LI; lia).
  pose proof (len_nonneg more). unfold index_bytes in B. cbn [ie_first_key block_offset] in B.
  rewrite as_unsigned_small in B by lia. rewrite <- !app_assoc in B.
  cbn [decode_index]. no_trunc buf.
  replace (le_at (len pre) (len pre + 2) buf) with (@Ok Error _ (len k)).
  2: { symmetry. rewrite B. apply le_at_mid; cbn; lia. }
  cbn [mbind outcome_bind]. no_trunc buf.
  replace (slice (len pre + 2) (len pre + 2 + len k) buf) with (@Ok Error _ k).
  2: { symmetry. rewrite B, (app_assoc pre). apply slice_mid; rewrite len_app, len_to_le_bytes; cbn; lia. }
  cbn [mbind outcome_bind]. no_trunc buf.
  replace (le_at (len pre + 2 + len k) (len pre + 2 + len k + 4) buf) with (@Ok Error _ o).
  2: { symmetry. rewrite B, (app_assoc pre), (app_assoc (pre ++ _)).
       apply le_at_mid; rewrite ?len_app, ?len_to_le_bytes; cbn; lia. }
  cbn [mbind outcome_bind].
  replace (len pre + 2 + len k + 4) with (len (pre ++ index_bytes (mkIndex k o))) by (rewrite len_app, LI; lia).
  rewrite B'. unfold more. by rewrite IH.
Qed.

Definition index_image (idx : list IndexEntry) : bytes := concat (map index_bytes idx) ++ to_le_bytes 4 (len idx).

Lemma decode_index_block_ok idx :
  Forall index_entry_ok idx -> len idx < 2 ^ 32 -> decode_index_block (index_image idx) (len idx) = Ok idx.
Proof.
  intros F N. unfold decode_index_block, index_image. set (body := concat (map index_bytes idx)).
  pose proof (len_nonneg body). pose proof (len_nonneg idx).
  rewrite len_app, len_to_le_bytes. destruct (Z.ltb_spec (len body + Z.of_nat 4) 4); [lia|].
  replace (le_at _ _ _) with (@Ok Error _ (len idx)).
  2: { symmetry. rewrite <- (app_nil_r (to_le_bytes 4 (len idx))). apply le_at_mid; cbn; lia. }
  cbn [mbind outcome_bind]. rewrite Z.eqb_refl. cbn [negb]. rewrite slice_prefix by lia. cbn [mbind outcome_bind].
  replace (Z.to_nat (len idx)) with (length idx) by (unfold len; lia).
  rewrite <- (app_nil_r body). by apply (decode_index_ok idx [] []).
Qed.

(** A field of a row of them. *)
Lemma le_at_fields i fs n z post lo hi :
  fs !! i = Some (n, z) -> 0 <= z < 2 ^ (8 * Z.of_nat n) -> lo = width (take i fs) -> hi = lo + Z.of_nat n ->
  le_at lo hi (fields fs ++ post) = Ok z.
Proof.
  intros L Hz -> ->. pose proof (take_drop_middle _ _ _ L) as E. rewrite <- E at 3. unfold fields at 1.
  rewrite map_app, concat_app. cbn [map concat fst snd]. rewrite <- !app_assoc.
  apply le_at_mid; [done| |]; change (concat _) with (fields (take i fs)); by rewrite len_fields.
Qed.

Definition footer_ok (f : Footer) : Prop :=
  in_u32 (block_count f) = true /\ in_u64 (index_offset f) = true /\ in_u32 (index_size f) = true /\
  in_u32 (bloom_offset f) = true /\ in_u32 (bloom_size f) = true.

Section footer_facts.
Context (crc32 : bytes -> Z).
Hypothesis crc32_u32 : forall b, in_u32 (crc32 b) = true.

Lemma footer_round_trip f :
  footer_ok f ->
  exists img, footer_encode crc32 f = Ok img /\ len img = FOOTER_SIZE /\ footer_decode crc32 img = Ok f.
Proof.
  intros (Hb & Hi & Hs & Ho & Hz). unfold in_u32, in_u64 in *. zbool.
  assert (Hc : 0 <= crc32 (footer_body f) < 2 ^ 32) by (pose proof (crc32_u32 (footer_body f)); zbool; lia).
  unfold footer_encode. destruct (Z.ltb_spec (2 ^ 32 - 1) (bloom_offset f)); [lia|]. eexists. split; [done|].
  assert (L : len (footer_body f) = 28) by (unfold footer_body; rewrite !len_app, !len_to_le_bytes; done).
  split; [by rewrite len_app, L, len_to_le_bytes|]. unfold footer_decode.
  assert (E : footer_body f = fields [(4%nat, MAGIC); (4%nat, block_count f); (8%nat, index_offset f); (4%nat, index_size f);
                                     (4%nat, bloom_offset f); (4%nat, bloom_size f)]).
  { unfold footer_body, fields. rewrite as_unsigned_small by lia. cbn [map concat fst snd]. by rewrite app_nil_r. }
  rewrite slice_prefix by done. rewrite E in *.
  rewrite (le_at_fields 0%nat _ 4%nat MAGIC _ 0 4) by (done || (unfold MAGIC; cbn; lia)). cbn [mbind outcome_bind].
  rewrite Z.eqb_refl. cbn [negb].
  replace (le_at 28 32 _) with (@Ok Error _ (crc32 (footer_body f))).
  2: { symmetry. rewrite E, <- (app_nil_r (to_le_bytes 4 _)). apply le_at_mid; first [exact Hc | by rewrite L]. }
  rewrite E. cbn [mbind outcome_bind]. rewrite Z.eqb_refl. cbn [negb].
  rewrite (le_at_fields 1%nat _ 4%nat (block_count f) _ 4 8) by (done || (cbn; lia)). cbn [mbind outcome_bind].
  rewrite (le_at_fields 2%nat _ 8%nat (index_offset f) _ 8 16) by (done || (cbn; lia)). cbn [mbind outcome_bind].
  rewrite (le_at_fields 3%nat _ 4%nat (index_size f) _ 16 20) by (done || (cbn; lia)). cbn [mbind outcome_bind].
  rewrite (le_at_fields 4%nat _ 4%nat (bloom_offset f) _ 20 24) by (done || (cbn; lia)). cbn [mbind outcome_bind].
  rewrite (le_at_fields 5%nat _ 4%nat (bloom_size f) _ 24 28) by (done || (cbn; lia)). by destruct f.
Qed.
End footer_facts.

(** ** The writer *)

(** What the writer holds after the blocks [bs], already written, and the
    entries [cur] of the open block. *)
Definition writer_at (bs : list (list lsm_entry)) (cur : list lsm_entry) : SstWriter :=
  mkSstWriter (concat (map block_image bs)) (data_bytes cur) (len cur) (fst <$> head cur)
    (index_of 0 bs) (BLOCK_SIZE * len bs) (len (concat bs ++ cur))
    (fst <$> head (concat bs ++ cur)) (fst <$> last (concat bs ++ cur)) (map fst (concat bs ++ cur)).

Record writer_inv (w : SstWriter) (bs : list (list lsm_entry)) (cur : list lsm_entry) : Prop := {
  wi_blocks : Forall block_ok bs;
  wi_cur : Forall entry_fits cur;
  wi_cur_size : len (data_bytes cur) <= BLOCK_DATA_CAPACITY;
  wi_eq : w = writer_at bs cur
}.

Lemma index_of_snoc o bs b :
  index_of o (bs ++ [b]) = index_of o bs ++ [mkIndex (block_key b) (o + BLOCK_SIZE * len bs)].
Proof.
  revert o. induction bs as [|b' bs IH]; intros o; cbn [app index_of].
  - change (len (@nil (list lsm_entry))) with 0. by rewrite Z.mul_0_r, Z.add_0_r.
  - rewrite IH, len_cons. cbn [app]. do 4 f_equal. lia.
Qed.

Lemma flush_block_ok w bs cur :
  writer_inv w bs cur -> cur <> [] ->
  flush_block w = Ok (mkSstWriter (concat (map block_image (bs ++ [cur]))) [] (len cur) None
    (index_of 0 (bs ++ [cur])) (BLOCK_SIZE * len bs) (len (concat bs ++ cur))
    (fst <$> head (concat bs ++ cur)) (fst <$> last (concat bs ++ cur)) (map fst (concat bs ++ cur))) /\
  block_ok cur.
Proof.
  intros [Hb Hc Hs ->] Ne. split; [|done]. destruct cur as [|e cur]; [done|]. unfold flush_block, writer_at.
  cbn [block_first_key head fmap option_fmap option_map block_buf out block_entry_count index_entries
       current_block_offset total_entry_count w_first_key w_last_key all_keys].
  destruct (Z.ltb_spec BLOCK_DATA_CAPACITY (len (data_bytes (e :: cur)))); [lia|].
  rewrite index_of_snoc, (map_app block_image), concat_app. cbn [map concat]. rewrite app_nil_r. done.
Qed.

Lemma data_bytes_nil es : (len (data_bytes es) =? 0) = bool_decide (es = []).
Proof.
  destruct es as [|e es]; [done|]. rewrite bool_decide_false by done. apply Z.eqb_neq.
  pose proof (len_data_bytes (e :: es)). rewrite len_cons in *. pose proof (len_nonneg es). lia.
Qed.

Lemma or_else_head {A} (l : list A) x : or_else (head l) x = head (l ++ [x]).
Proof. by destruct l. Qed.

Lemma len_blocks bs : Forall block_ok bs -> len bs <= len (concat bs).
Proof.
  induction 1 as [|b bs (Ne & _) F IH]; [done|]. cbn [concat]. rewrite len_cons, len_app.
  destruct b as [|e b]; [done|]. rewrite len_cons. pose proof (len_nonneg b). lia.
Qed.

(** An entry is appended to the open block. *)
Lemma append_entry bs cur e :
  Forall block_ok bs -> Forall entry_fits cur -> entry_fits e ->
  len (data_bytes (cur ++ [e])) <= BLOCK_DATA_CAPACITY -> len (concat bs ++ cur) < 2 ^ 20 ->
  forall w, w = writer_at bs cur ->
  exists w',
    (count ← @arith Error in_u16 (block_entry_count w + 1);
     total ← @arith Error in_u64 (total_entry_count w + 1);
     Ok (mkSstWriter (out w) (block_buf w ++ entry_bytes e) count (or_else (block_first_key w) e.1)
        (index_entries w) (current_block_offset w) total (or_else (w_first_key w) e.1) (Some e.1)
        (all_keys w ++ [e.1]))) = Ok w' /\ writer_inv w' bs (cur ++ [e]).
Proof.
  intros Hb Hc He Hs Hn w ->. unfold writer_at.
  cbn [block_first_key block_buf out block_entry_count index_entries
       current_block_offset total_entry_count w_first_key w_last_key all_keys].
  pose proof (len_nonneg cur). pose proof (len_nonneg (concat bs ++ cur)). pose proof (len_data_bytes (cur ++ [e])) as L.
  rewrite len_app in L. unfold BLOCK_DATA_CAPACITY, BLOCK_SIZE in *. change (len [e]) with 1 in L.
  rewrite arith_bind by fits. cbv beta. rewrite arith_bind by fits. cbv beta. eexists. split; [reflexivity|].
  split; [done| |done|].
  - apply Forall_app; auto.
  - unfold writer_at. rewrite app_assoc, data_bytes_snoc, !len_app, last_snoc. change (len [e]) with 1.
    rewrite <- !or_else_head. f_equal; [by destruct cur|by destruct (concat bs ++ cur)|by rewrite !map_app].
Qed.

Lemma write_entry_ok w bs cur e :
  writer_inv w bs cur -> entry_fits e -> len (concat bs ++ cur) < 2 ^ 20 - 1 ->
  exists w' bs' cur', write_entry w e = Ok w' /\ writer_inv w' bs' cur' /\ cur' <> [] /\
    concat bs' ++ cur' = (concat bs ++ cur) ++ [e].
Proof.
  intros I He Hn. pose proof I as [Hb Hc Hs Hw]. destruct e as [k v]. unfold write_entry.
  change (2 + len k + 2 + value_len v) with (entry_size (k, v)).
  pose proof (f_equal block_buf Hw) as Eb. cbn in Eb. rewrite Eb, data_bytes_nil.
  pose proof (len_blocks bs Hb) as Nb. rewrite len_app in Hn. pose proof (len_nonneg cur). pose proof (len_nonneg bs).
  destruct (bool_decide_reflect (cur = [])) as [->|Ne]; cbn [negb andb].
  { cbn [mbind outcome_bind]. destruct (append_entry bs [] (k, v) Hb Hc He) with (w := w) as (w' & E & I'); [| |done|].
    - change (data_bytes ([] ++ [(k, v)])) with (entry_bytes (k, v) ++ []). by rewrite app_nil_r, len_entry_bytes.
    - rewrite len_app. lia.
    - exists w', bs, [(k, v)]. split; [exact E|]. rewrite app_nil_r. done. }
  destruct (Z.ltb_spec BLOCK_DATA_CAPACITY (len (data_bytes cur) + entry_size (k, v))) as [Full|Room].
  - destruct (flush_block_ok _ _ _ I Ne) as [-> Bc]. cbn [mbind outcome_bind current_block_offset].
    assert (1 <= len cur) by (destruct cur; [done|]; rewrite len_cons; pose proof (len_nonneg cur); lia).
    unfold BLOCK_SIZE at 3. rewrite arith_bind by (unfold BLOCK_SIZE; fits). cbv beta. cbn [mbind outcome_bind].
    assert (Ec : concat (bs ++ [cur]) = concat bs ++ cur) by (rewrite concat_app; cbn; by rewrite app_nil_r).
    destruct (append_entry (bs ++ [cur]) [] (k, v)) with
      (w := mkSstWriter (concat (map block_image (bs ++ [cur]))) [] 0 None (index_of 0 (bs ++ [cur]))
              (BLOCK_SIZE * len bs + 4096) (len (concat bs ++ cur)) (fst <$> head (concat bs ++ cur))
              (fst <$> last (concat bs ++ cur)) (map fst (concat bs ++ cur))) as (w' & E & I'); [|done|done| | | |].
    + apply Forall_app; auto.
    + change (data_bytes ([] ++ [(k, v)])) with (entry_bytes (k, v) ++ []). by rewrite app_nil_r, len_entry_bytes.
    + rewrite app_nil_r, Ec, len_app. lia.
    + unfold writer_at. rewrite app_nil_r, Ec. f_equal. rewrite len_app. change (len [cur]) with 1. unfold BLOCK_SIZE. lia.
    + exists w', (bs ++ [cur]), [(k, v)]. split; [exact E|]. rewrite Ec. done.
  - cbn [mbind outcome_bind]. destruct (append_entry bs cur (k, v) Hb Hc He) with (w := w) as (w' & E & I'); [| |done|].
    + rewrite data_bytes_snoc, len_app, len_entry_bytes. done.
    + rewrite len_app. lia.
    + exists w', bs, (cur ++ [(k, v)]). split; [exact E|]. rewrite app_assoc. split_and!; [done|by destruct cur|done].
Qed.

Lemma write_entries_ok es w bs cur :
  writer_inv w bs cur -> Forall entry_fits es -> len (concat bs ++ cur) + len es < 2 ^ 20 -> es <> [] ->
  exists w' bs' cur', write_entries w es = Ok w' /\ writer_inv w' bs' cur' /\ cur' <> [] /\
    concat bs' ++ cur' = (concat bs ++ cur) ++ es.
Proof.
  revert w bs cur. induction es as [|e es IH]; intros w bs cur I F N Ne; [done|]. apply Forall_cons_1 in F as [Fe F].
  rewrite len_cons in N. pose proof (len_nonneg es).
  destruct (write_entry_ok w bs cur e I Fe ltac:(lia)) as (w1 & bs1 & cur1 & E1 & I1 & Ne1 & C1).
  cbn [write_entries]. rewrite E1. cbn [mbind outcome_bind]. destruct es as [|e2 es].
  - exists w1, bs1, cur1. done.
  - destruct (IH w1 bs1 cur1 I1 F) as (w2 & bs2 & cur2 & E2 & I2 & Ne2 & C2); [|done|].
    { rewrite C1, len_app. change (len [e]) with 1. lia. }
    exists w2, bs2, cur2. rewrite C2, C1, <- app_assoc. done.
Qed.

Lemma len_images bs : Forall block_ok bs -> len (concat (map block_image bs)) = BLOCK_SIZE * len bs.
Proof.
  induction 1 as [|b bs B F IH]; [done|]. cbn [map concat]. rewrite len_app, len_cons, len_block_image, IH by done. lia.
Qed.

Lemma len_index_of o bs : len (index_of o bs) = len bs.
Proof. revert o. induction bs as [|b bs IH]; intros o; [done|]. cbn [index_of]. by rewrite !len_cons, IH. Qed.

Lemma index_of_ok o bs :
  Forall block_ok bs -> 0 <= o -> o + BLOCK_SIZE * len bs <= 2 ^ 32 -> Forall index_entry_ok (index_of o bs).
Proof.
  intros F. revert o. induction F as [|b bs (Ne & Fe & _) F IH]; intros o H0 HN; cbn [index_of]; [constructor|].
  rewrite len_cons in HN. unfold BLOCK_SIZE in *. pose proof (len_nonneg bs). constructor; [|apply IH; lia].
  split; cbn [ie_first_key block_offset]; [|lia]. destruct b as [|e b]; [done|]. apply Forall_cons_1 in Fe as [Fe _].
  unfold entry_fits, entry_size, BLOCK_DATA_CAPACITY, BLOCK_SIZE in Fe. cbn. pose proof (value_len_nonneg e.2). lia.
Qed.

Lemma len_index_image idx :
  Forall index_entry_ok idx -> len (concat (map index_bytes idx)) <= BLOCK_SIZE * len idx.
Proof.
  unfold BLOCK_SIZE. induction 1 as [|e idx [K _] F IH]; [done|]. cbn [map concat]. rewrite len_app, len_cons.
  unfold index_bytes at 1. rewrite !len_app, !len_to_le_bytes. lia.
Qed.

Section table_facts.
Context (crc32 : bytes -> Z).
Hypothesis crc32_u32 : forall b, in_u32 (crc32 b) = true.

(** A file that holds the blocks [bs]. *)
Record table_file (id : Z) (bs : list (list lsm_entry)) (m : SSTableMeta) (file : bytes) (f : Footer) (b : BloomFilter) : Prop := {
  tf_blocks : Forall block_ok bs;
  tf_some : bs <> [];
  tf_few : len bs < 2 ^ 20;
  tf_count : len (concat bs) < 2 ^ 64;
  tf_bloom : Bloom.decode (Bloom.encode b) = Ok b;
  tf_bloom_size : len (Bloom.encode b) < 2 ^ 32;
  tf_bloom_wf : bloom_wf b;
  tf_bloom_keys : forall key, key ∈ map fst (concat bs) -> Bloom.may_contain crc32 b key = Ok true;
  tf_footer : f = mkFooter (len bs) (BLOCK_SIZE * len bs + len (Bloom.encode b)) (len (index_image (index_of 0 bs)))
                    (BLOCK_SIZE * len bs) (len (Bloom.encode b));
  tf_file : exists foot, len foot = FOOTER_SIZE /\ footer_decode crc32 foot = Ok f /\
    file = concat (map block_image bs) ++ Bloom.encode b ++ index_image (index_of 0 bs) ++ foot;
  tf_meta : m = mkMeta id (block_key (concat bs)) (from_option fst [] (last (concat bs))) (len file) (len (concat bs))
}.

Lemma bloom_for keys :
  len keys < 2 ^ 20 ->
  exists b, Bloom.build crc32 keys = Ok b /\ Bloom.decode (Bloom.encode b) = Ok b /\ bloom_wf b /\
    5 < len (Bloom.encode b) < 2 ^ 32 /\ forall key, key ∈ keys -> Bloom.may_contain crc32 b key = Ok true.
Proof.
  intros Hn. destruct (build_ok crc32 keys) as (b & E & W & Hh & H64 & Hb & Hle & C); [unfold BITS_PER_KEY; lia|].
  unfold BITS_PER_KEY in Hle. pose proof (len_nonneg keys). exists b. split; [done|]. split.
  { apply decode_encode; [by rewrite Hh|fits|]. rewrite Hb. unfold div_ceil. Z.to_euclidean_division_equations; lia. }
  split; [done|]. split; [|done]. unfold Bloom.encode. rewrite len_cons, len_app, len_to_le_bytes. lia.
Qed.

Lemma write_sstable_ok id es :
  es <> [] -> Forall entry_fits es -> len es < 2 ^ 20 ->
  exists bs m file f b, es = concat bs /\ table_file id bs m file f b /\ write_sstable crc32 id es = Ok (Some (m, file)).
Proof.
  intros Ne F N. unfold write_sstable.
  destruct (write_entries_ok es sst_writer_new [] []) as (w & bs & cur & E & I & Nc & C); [by constructor|done|done|done|].
  rewrite E. cbn [mbind outcome_bind]. pose proof I as [Hb Hc Hs Hw]. cbn [concat app] in C.
  assert (Et : total_entry_count w = len es) by (rewrite Hw; cbn; by rewrite C).
  rewrite Et. destruct (Z.eqb_spec (len es) 0) as [Z0|_]; [by apply len_zero in Z0|].
  destruct (flush_block_ok _ _ _ I Nc) as [-> Bc]. cbn [mbind outcome_bind index_entries current_block_offset all_keys out
    w_first_key w_last_key total_entry_count]. rewrite C.
  set (bs' := bs ++ [cur]). assert (Hb' : Forall block_ok bs') by (apply Forall_app; auto).
  assert (C' : concat bs' = es) by (unfold bs'; rewrite concat_app; cbn; by rewrite app_nil_r).
  assert (L' : len bs' = len bs + 1) by (unfold bs'; by rewrite len_app).
  pose proof (len_blocks _ Hb') as Nb. rewrite C' in Nb. pose proof (len_nonneg bs).
  rewrite arith_bind by (unfold BLOCK_SIZE; fits). cbv beta.
  replace (BLOCK_SIZE * len bs + BLOCK_SIZE) with (BLOCK_SIZE * len bs') by (rewrite L'; lia).
  destruct (bloom_for (map fst es)) as (b & -> & Db & Wb & Lb & Kb); [unfold len in *; by rewrite length_map|].
  cbn [mbind outcome_bind]. rewrite len_index_of, !as_unsigned_small by lia. rewrite len_app, len_images by done.
  rewrite Z.eqb_refl. cbn [negb].
  pose proof (index_of_ok 0 bs' Hb' ltac:(lia) ltac:(unfold BLOCK_SIZE; lia)) as Io.
  pose proof (len_index_image _ Io) as Li. rewrite len_index_of in Li.
  assert (Ei : concat (map index_bytes (index_of 0 bs')) ++ to_le_bytes 4 (len bs') = index_image (index_of 0 bs')).
  { unfold index_image. by rewrite len_index_of. }
  rewrite Ei. assert (Lim : 0 <= len (index_image (index_of 0 bs')) < 2 ^ 32).
  { unfold index_image. rewrite len_app, len_to_le_bytes. unfold BLOCK_SIZE in *.
    pose proof (len_nonneg (concat (map index_bytes (index_of 0 bs')))). lia. }
  rewrite as_unsigned_small by done.
  destruct (footer_round_trip crc32 crc32_u32 (mkFooter (len bs') (BLOCK_SIZE * len bs' + len (Bloom.encode b))
    (len (index_image (index_of 0 bs'))) (BLOCK_SIZE * len bs') (len (Bloom.encode b)))) as (foot & -> & Lf & Df).
  { unfold footer_ok. cbn. unfold BLOCK_SIZE. split_and!; fits. }
  cbn [mbind outcome_bind]. destruct es as [|e0 es]; [done|]. cbn [head fmap option_fmap option_map].
  destruct (last (e0 :: es)) as [el|] eqn:El; [|by apply last_None in El]. cbn [fmap option_fmap option_map].
  eexists bs', _, _, _, b. split; [by rewrite C'|]. split; [|reflexivity].
  constructor; [done|by destruct bs|lia|rewrite C'; lia|done|lia|done|by rewrite C'|reflexivity| |].
  - exists foot. rewrite <- app_assoc. done.
  - rewrite C', El. done.
Qed.

(** The block at a position of the index. *)
Lemma index_of_lookup o bs i b :
  bs !! i = Some b -> index_of o bs !! i = Some (mkIndex (block_key b) (o + BLOCK_SIZE * Z.of_nat i)).
Proof.
  revert o i. induction bs as [|b' bs IH]; intros o [|i] L; try done; cbn [index_of] in *.
  - injection L as ->. change (Z.of_nat 0) with 0. by rewrite Z.mul_0_r, Z.add_0_r.
  - change (?x :: ?l) with (x :: l). cbn [lookup list_lookup] in *. rewrite (IH _ _ L). do 2 f_equal. lia.
Qed.

Lemma read_block_at bs i b rest :
  Forall block_ok bs -> bs !! i = Some b ->
  read_block (concat (map block_image bs) ++ rest) (BLOCK_SIZE * Z.of_nat i) = Ok b.
Proof.
  intros F L. assert (Li : (i < length bs)%nat) by (eapply lookup_lt_Some; done).
  pose proof (take_drop_middle _ _ _ L) as E. rewrite <- E, map_app, concat_app. cbn [map concat]. rewrite <- !app_assoc.
  apply read_block_ok.
  - rewrite Forall_forall in F. apply F. by eapply list_elem_of_lookup_2.
  - rewrite len_images by by apply Forall_take. unfold len. rewrite length_take_le by lia. done.
Qed.

Lemma read_blocks_ok pre bs rest o :
  Forall block_ok bs -> o = len pre ->
  read_blocks (pre ++ concat (map block_image bs) ++ rest) (map block_offset (index_of o bs)) = Ok (concat bs).
Proof.
  intros F. revert pre o. induction F as [|b bs B F IH]; intros pre o ->; [done|].
  cbn [map concat index_of read_blocks block_offset]. rewrite <- app_assoc.
  rewrite read_block_ok by done. cbn [mbind outcome_bind].
  rewrite (app_assoc pre). rewrite IH by (rewrite len_app, len_block_image; done). done.
Qed.

Lemma count_all_entries_ok pre bs rest o total :
  Forall block_ok bs -> o = len pre -> 0 <= total -> total + len (concat bs) < 2 ^ 64 ->
  count_all_entries (pre ++ concat (map block_image bs) ++ rest) (index_of o bs) total = Ok (total + len (concat bs)).
Proof.
  intros F. revert pre o total. induction F as [|b bs B F IH]; intros pre o total -> H0 HN.
  { cbn. by rewrite Z.add_0_r. }
  cbn [map concat index_of count_all_entries block_offset] in *. rewrite len_app in *. rewrite <- app_assoc.
  pose proof B as (_ & _ & Lb). pose proof (len_data_bytes b) as Nb. pose proof (len_nonneg b). pose proof (len_nonneg (concat bs)).
  pose proof (len_pad_to _ (byte.of_Z 0) _ Lb) as Lp.
  assert (R : read_at (len pre + BLOCK_DATA_CAPACITY) 2 (pre ++ block_image b ++ concat (map block_image bs) ++ rest) =
    Ok (to_le_bytes 2 (len b))).
  { unfold block_image at 1. rewrite <- app_assoc, (app_assoc pre).
    apply read_at_mid; rewrite ?len_to_le_bytes, ?len_app, ?Lp; done. }
  rewrite R. cbn [mbind outcome_bind]. unfold BLOCK_DATA_CAPACITY, BLOCK_SIZE in *.
  rewrite from_to_le_bytes by (cbn; lia). rewrite arith_bind by fits. cbv beta. rewrite (app_assoc pre), IH.
  - f_equal. lia.
  - by rewrite len_app, len_block_image.
  - lia.
  - lia.
Qed.

Lemma last_concat {A} (bs : list (list A)) b : last bs = Some b -> b <> [] -> last (concat bs) = last b.
Proof.
  intros L Ne. apply last_Some in L as [bs' ->]. rewrite concat_app. cbn. rewrite app_nil_r, last_app.
  by destruct (last b) eqn:E; [|apply last_None in E].
Qed.

Lemma last_lookup_len {A} (l : list A) : last l = l !! (length l - 1)%nat.
Proof. rewrite last_lookup. f_equal. lia. Qed.

Lemma index_last o bs b :
  last bs = Some b -> last (index_of o bs) = Some (mkIndex (block_key b) (o + BLOCK_SIZE * Z.of_nat (length bs - 1))).
Proof.
  intros L. rewrite last_lookup_len in L. rewrite last_lookup_len.
  replace (length (index_of o bs)) with (length bs) by (pose proof (len_index_of o bs); unfold len in *; lia).
  by apply index_of_lookup.
Qed.

Lemma sst_open_ok id bs m file f b :
  table_file id bs m file f b -> sst_open crc32 file id = Ok (mkReader file f (index_of 0 bs) m (Some b)).
Proof.
  intros [Hb Ns Hn Hc Db Zb Wb Kb Ef (foot & Lf & Df & Efile) Em]. unfold sst_open.
  pose proof (len_images bs Hb) as Limg. pose proof (len_nonneg bs). unfold FOOTER_SIZE in *.
  set (pre := concat (map block_image bs) ++ Bloom.encode b ++ index_image (index_of 0 bs)).
  assert (E1 : file = pre ++ foot) by (unfold pre; by rewrite Efile, <- !app_assoc).
  pose proof (len_nonneg pre). assert (Lfile : len file = len pre + 32) by (rewrite E1, len_app; lia).
  rewrite Lfile. destruct (Z.ltb_spec (len pre + 32) 32); [lia|].
  replace (read_at (len pre + 32 - 32) 32 file) with (@Ok Error _ foot).
  2: { symmetry. pose proof (read_at_mid 32 pre foot [] (len pre + 32 - 32)) as R. rewrite app_nil_r in R. rewrite E1. apply R; lia. }
  cbn [mbind outcome_bind]. rewrite Df. cbn [mbind outcome_bind].
  replace (read_at (index_offset f) _ file) with (@Ok Error _ (index_image (index_of 0 bs))).
  2: { symmetry. rewrite Ef, Efile, app_assoc. cbn [index_offset index_size]. apply read_at_mid; [|done].
       by rewrite len_app, Limg. }
  cbn [mbind outcome_bind]. replace (block_count f) with (len (index_of 0 bs)) by (rewrite len_index_of, Ef; done).
  rewrite decode_index_block_ok.
  2: { apply index_of_ok; [done|lia|unfold BLOCK_SIZE; lia]. }
  2: { rewrite len_index_of. lia. }
  cbn [mbind outcome_bind]. replace (read_at (bloom_offset f) _ file) with (@Ok Error _ (Bloom.encode b)).
  2: { symmetry. rewrite Ef, Efile. cbn [bloom_offset bloom_size]. by apply read_at_mid. }
  assert (Lbl : 0 < bloom_size f).
  { rewrite Ef. cbn [bloom_size]. unfold Bloom.encode. rewrite len_cons. pose proof (len_nonneg (to_le_bytes 4 (as_unsigned 32 (bit_count b)) ++ bits b)). lia. }
  destruct (Z.ltb_spec 0 (bloom_size f)); [|lia]. cbn [mbind outcome_bind]. rewrite Db. cbn [mbind outcome_bind].
  destruct (last bs) as [bl|] eqn:El; [|by apply last_None in El].
  rewrite (index_last _ _ _ El). cbn [block_offset]. unfold read_last_key_in_block.
  assert (Bl : block_ok bl) by (rewrite Forall_forall in Hb; apply Hb; by apply last_Some_elem_of).
  replace (read_block file _) with (@Ok Error _ bl).
  2: { symmetry. rewrite Efile, Z.add_0_l. apply read_block_at; [done|by rewrite <- last_lookup_len]. }
  cbn [mbind outcome_bind]. pose proof (last_concat _ _ El (proj1 Bl)) as Lc.
  destruct (last bl) as [[kl vl]|] eqn:Ell; [|apply last_None in Ell; by destruct Bl].
  cbn [mbind outcome_bind]. replace (count_all_entries file _ 0) with (@Ok Error _ (0 + len (concat bs))).
  2: { symmetry. rewrite Efile. by apply (count_all_entries_ok []). }
  cbn [mbind outcome_bind]. do 2 f_equal. rewrite Em, Lc, Lfile. cbn [from_option fst]. f_equal.
  destruct bs as [|b0 bs]; [done|]. apply Forall_cons_1 in Hb as [(N0 & _) _]. cbn. by destruct b0.
Qed.

Lemma table_size id bs m file f b : table_file id bs m file f b -> 0 <= file_size m < 2 ^ 34.
Proof.
  intros [Hb Ns Hn Hc Db Zb Wb Kb Ef (foot & Lf & Df & Efile) Em]. rewrite Em. cbn [file_size].
  assert (Io : Forall index_entry_ok (index_of 0 bs)) by (apply index_of_ok; [done|lia|unfold BLOCK_SIZE; lia]).
  pose proof (len_index_image _ Io) as Li. rewrite len_index_of in Li.
  rewrite Efile. unfold index_image. rewrite !len_app, (len_images bs Hb), len_to_le_bytes, Lf.
  pose proof (len_nonneg bs). pose proof (len_nonneg (Bloom.encode b)).
  pose proof (len_nonneg (concat (map index_bytes (index_of 0 bs)))). unfold FOOTER_SIZE, BLOCK_SIZE in *. lia.
Qed.
End table_facts.

(** ** Lookups *)

Lemma kv_get_none {V} k (l : list (bytes * V)) : (forall e, e ∈ l -> e.1 <> k) -> kv_get k l = None.
Proof.
  intros H. destruct (kv_get k l) as [v|] eqn:G; [|done]. apply kv_get_elem in G. by apply H in G.
Qed.

Lemma sorted_lookup {A} (R : A -> A -> Prop) l i j a b :
  StronglySorted R l -> l !! i = Some a -> l !! j = Some b -> (i < j)%nat -> R a b.
Proof.
  intros K La Lb H. rewrite <- (take_drop j l) in K. eapply (StronglySorted_app_1_elem_of _ _ _ _ _ K).
  - eapply list_elem_of_lookup_2. rewrite lookup_take_lt; [exact La|done].
  - apply (list_elem_of_lookup_2 _ 0%nat). by rewrite lookup_drop, Nat.add_0_r.
Qed.

Lemma find_entry_ok k es : keys_sorted es -> find_entry k es = kv_get k es.
Proof.
  induction es as [|[k' v] es IH]; intros K; [done|]. apply StronglySorted_inv in K as [K F]. cbn [find_entry kv_get].
  destruct (bool_decide_reflect (k' = k)) as [->|N].
  - by rewrite ?bool_decide_true.
  - destruct (bool_decide_reflect (k = k')) as [->|_]; [done|]. rewrite <- IH by done.
    destruct (bltb k k') eqn:B; [|done]. apply bltb_spec in B. rewrite IH by done. symmetry. apply kv_get_none.
    intros e He <-. rewrite Forall_forall in F. apply F in He. cbn in He. eapply blt_irrefl, blt_trans; done.
Qed.

(** The search ends at the number of blocks whose first key is not above the key. *)
Lemma search_blocks_ok fuel idx key lo hi :
  0 <= lo <= hi -> hi <= len idx -> hi - lo <= Z.of_nat fuel ->
  StronglySorted (fun a b => blt (ie_first_key a) (ie_first_key b)) idx ->
  (forall i e, idx !! i = Some e -> Z.of_nat i < lo -> ble (ie_first_key e) key) ->
  (forall i e, idx !! i = Some e -> hi <= Z.of_nat i -> blt key (ie_first_key e)) ->
  exists p, lo <= p <= hi /\ search_blocks fuel idx key lo hi = Some (if 0 <? p then Ok (p - 1) else Panic) /\
    (forall i e, idx !! i = Some e -> Z.of_nat i < p -> ble (ie_first_key e) key) /\
    (forall i e, idx !! i = Some e -> p <= Z.of_nat i -> blt key (ie_first_key e)).
Proof.
  intros B1 B2 B3 SS. revert lo hi B1 B2 B3. induction fuel as [|fuel IH]; intros lo hi B1 B2 B3 Lo Hi; cbn [search_blocks].
  { destruct (Z.ltb_spec lo hi); [lia|]. exists lo. split_and!; [lia|lia|done|done|]. intros i e L Hle. apply (Hi i); [done|lia]. }
  destruct (Z.ltb_spec lo hi) as [Hlt|]; [|exists lo; split_and!; [lia|lia|done|done|]; intros i e L Hle; apply (Hi i); [done|lia]].
  set (mid := lo + (hi - lo) / 2). assert (M : lo <= mid < hi) by (unfold mid; Z.to_euclidean_division_equations; lia).
  destruct (lookup_lt_is_Some_2 idx (Z.to_nat mid)) as [em Em]; [unfold len in *; lia|]. rewrite Em.
  destruct (bleb (ie_first_key em) key) eqn:C.
  - apply bleb_spec in C. destruct (IH (mid + 1) hi) as (p & Hp & E & G1 & G2); [lia|lia|lia| |done|].
    + intros i e L Hi'. destruct (decide (i = Z.to_nat mid)) as [->|Ni]; [congruence|].
      apply blt_ble. eapply blt_ble_trans; [|exact C]. apply (sorted_lookup _ idx i (Z.to_nat mid) _ _ SS L Em). lia.
    + exists p. split_and!; [lia|lia|done|done|done].
  - assert (C' : blt key (ie_first_key em)) by (apply blt_not_ble; intros X; apply bleb_spec in X; congruence).
    destruct (IH lo mid) as (p & Hp & E & G1 & G2); [lia|lia|lia|done| |].
    + intros i e L Hi'. destruct (decide (i = Z.to_nat mid)) as [->|Ni]; [congruence|].
      eapply blt_trans; [exact C'|]. apply (sorted_lookup _ idx (Z.to_nat mid) i _ _ SS Em L). lia.
    + exists p. split_and!; [lia|lia|done|done|done].
Qed.

Lemma block_key_in b : b <> [] -> exists v, (block_key b, v) ∈ b.
Proof. destruct b as [|[k v] b]; [done|]. intros _. exists v. left. Qed.

Lemma block_key_min b e : keys_sorted b -> e ∈ b -> ble (block_key b) e.1.
Proof.
  destruct b as [|e0 b]; intros K He; [by apply not_elem_of_nil in He|]. apply StronglySorted_inv in K as [_ F].
  apply elem_of_cons in He as [->|He]; cbn; apply ble_lt_or_eq; [by right|left].
  rewrite Forall_forall in F. by apply F.
Qed.

Lemma last_key_max (es : list lsm_entry) e : keys_sorted es -> e ∈ es -> ble e.1 (from_option fst [] (last es)).
Proof.
  intros K He. destruct (last es) as [el|] eqn:L; [|apply last_None in L as ->; by apply not_elem_of_nil in He].
  apply last_Some in L as [es' ->]. apply ble_lt_or_eq. cbn. apply elem_of_app in He as [He|He].
  - left. eapply (StronglySorted_app_1_elem_of _ _ _ _ _ K); [done|]. by apply list_elem_of_singleton.
  - right. by apply list_elem_of_singleton in He as ->.
Qed.

Lemma in_blocks {A} (bs : list (list A)) i b e : bs !! i = Some b -> e ∈ b -> e ∈ concat bs.
Proof. intros L He. rewrite list_elem_of_In, in_concat. exists b. split; apply list_elem_of_In; [by eapply list_elem_of_lookup_2|done]. Qed.

Lemma sorted_block {V} (bs : list (list (bytes * V))) i b : keys_sorted (concat bs) -> bs !! i = Some b -> keys_sorted b.
Proof.
  intros K L. rewrite <- (take_drop_middle _ _ _ L), concat_app in K. cbn in K.
  apply StronglySorted_app_1_r in K. by apply StronglySorted_app_1_l in K.
Qed.

Lemma index_sorted o bs :
  keys_sorted (concat bs) -> Forall block_ok bs ->
  StronglySorted (fun a b => blt (ie_first_key a) (ie_first_key b)) (index_of o bs).
Proof.
  intros K F. revert o K. induction F as [|b bs (Nb & _) F IH]; intros o K; cbn [index_of]; [constructor|].
  cbn [concat] in K. constructor; [apply IH; by apply StronglySorted_app_1_r in K|].
  apply Forall_forall. intros e He. apply list_elem_of_lookup_1 in He as [i Li].
  assert (exists b', bs !! i = Some b') as [b' Lb'].
  { apply lookup_lt_is_Some_2. apply lookup_lt_Some in Li. pose proof (len_index_of (o + BLOCK_SIZE) bs). unfold len in *. lia. }
  rewrite (index_of_lookup _ _ _ _ Lb') in Li. injection Li as <-. cbn [ie_first_key].
  destruct (block_key_in b Nb) as [v Hv]. rewrite Forall_forall in F.
  destruct (block_key_in b') as [v' Hv']; [apply F; by eapply list_elem_of_lookup_2|].
  apply (StronglySorted_app_1_elem_of _ _ _ _ _ K Hv (in_blocks _ _ _ _ Lb' Hv')).
Qed.

(** A key is looked up in the one block that can hold it. *)
Lemma get_in_block bs i b key :
  keys_sorted (concat bs) -> Forall block_ok bs -> bs !! i = Some b -> ble (block_key b) key ->
  (forall j b', bs !! j = Some b' -> (i < j)%nat -> blt key (block_key b')) ->
  kv_get key (concat bs) = kv_get key b.
Proof.
  intros K F L Lo Hi. pose proof (take_drop_middle _ _ _ L) as E. rewrite Forall_forall in F.
  destruct (block_key_in b) as [v Hv]; [apply F; by eapply list_elem_of_lookup_2|].
  rewrite <- E in K |- *. rewrite concat_app in K |- *. cbn [concat] in K |- *. rewrite !kv_get_app.
  rewrite (kv_get_none key (concat (take i bs))).
  2: { intros e He <-. apply (StronglySorted_app_1_elem_of _ _ _ _ (block_key b, v) K) in He; [|apply elem_of_app; by left].
       apply ble_not_lt in Lo. by apply Lo. }
  destruct (kv_get key b) as [w|]; [done|]. apply kv_get_none. intros e He <-.
  apply list_elem_of_In, in_concat in He as (b' & Hb' & He). apply list_elem_of_In in Hb', He.
  apply list_elem_of_lookup_1 in Hb' as [j Lj]. pose proof Lj as Lj'. rewrite lookup_drop in Lj'.
  specialize (Hi _ _ Lj' ltac:(lia)). apply ble_not_lt in Hi; [done|]. apply block_key_min; [|done].
  apply StronglySorted_app_1_r, StronglySorted_app_1_r in K. by eapply sorted_block.
Qed.

(** ** What a reader promises *)

(** A reader of a table with the entries [es]. *)
Record reads (crc32 : bytes -> Z) (r : SSTableReader) (es : list lsm_entry) : Prop := {
  reads_iter : sst_iter r = Ok es;
  reads_get : forall key, sst_get crc32 r key = Some (Ok (kv_get key es));
  reads_may : forall key, exists b, sst_may_contain crc32 r key = Ok b /\ (b = false -> kv_get key es = None);
  reads_first : first_key (meta r) = block_key es;
  reads_last : last_key (meta r) = from_option fst [] (last es);
  reads_count : entry_count (meta r) = len es
}.

Section reader_facts.
Context (crc32 : bytes -> Z).

Lemma span_ok (es : list lsm_entry) r key :
  keys_sorted es -> first_key (meta r) = block_key es -> last_key (meta r) = from_option fst [] (last es) ->
  out_of_span r key = true -> kv_get key es = None.
Proof.
  intros K Ef El H. unfold out_of_span in H. rewrite Ef, El in H. apply kv_get_none. intros e He <-.
  apply orb_true_iff in H as [H|H]; apply bltb_spec in H; apply ble_not_lt in H; try done.
  - by apply block_key_min.
  - by apply last_key_max.
Qed.

Lemma bloom_answer b (es : list lsm_entry) key :
  bloom_wf b -> (forall k, k ∈ map fst es -> Bloom.may_contain crc32 b k = Ok true) ->
  exists a, Bloom.may_contain crc32 b key = Ok a /\ (a = false -> kv_get key es = None).
Proof.
  intros W C. eexists. split; [by apply may_contain_ok|]. intros Ha.
  apply kv_get_none. intros e He <-. specialize (C e.1). rewrite may_contain_ok in C by done. rewrite Ha in C.
  assert (X : e.1 ∈ map fst es) by (apply list_elem_of_fmap; by exists e). by apply C in X.
Qed.

Lemma table_reads id bs m data f b :
  table_file crc32 id bs m data f b -> keys_sorted (concat bs) ->
  reads crc32 (mkReader data f (index_of 0 bs) m (Some b)) (concat bs).
Proof.
  intros [Hb Ns Hn Hc Db Zb Wb Kb Ef (foot & Lf & Df & Efile) Em] K.
  set (r := mkReader data f (index_of 0 bs) m (Some b)).
  assert (Rf : first_key (meta r) = block_key (concat bs)) by (cbn; by rewrite Em).
  assert (Rl : last_key (meta r) = from_option fst [] (last (concat bs))) by (cbn; by rewrite Em).
  split; [| | |done|done|cbn; by rewrite Em].
  - unfold sst_iter. cbn [file index r]. rewrite Efile. by apply (read_blocks_ok []).
  - intros key. unfold sst_get. cbn [bloom r]. destruct (bloom_answer b (concat bs) key Wb Kb) as (a & -> & Ha).
    destruct a; [|by rewrite Ha]. destruct (out_of_span r key) eqn:Sp; [by rewrite (span_ok _ r)|].
    unfold find_block_for_key. cbn [index r].
    destruct (search_blocks_ok (length (index_of 0 bs)) (index_of 0 bs) key 0 (len (index_of 0 bs)))
      as (p & Hp & -> & G1 & G2); [unfold len; lia|lia|unfold len; lia|by apply index_sorted| | |].
    { intros i e _ Hi. lia. }
    { intros i e L Hi. apply lookup_lt_Some in L. unfold len in *. lia. }
    rewrite len_index_of in Hp. assert (P0 : 0 < p).
    { destruct (Z.ltb_spec 0 p); [done|exfalso]. destruct bs as [|b0 bs]; [done|].
      specialize (G2 0%nat _ eq_refl ltac:(lia)). cbn [ie_first_key] in G2. apply Forall_cons_1 in Hb as [(N0 & _) _].
      unfold out_of_span in Sp. rewrite Rf in Sp. apply orb_false_iff in Sp as [Sp _].
      destruct b0 as [|e0 b0]; [done|]. cbn in Sp, G2. apply bltb_spec in G2. congruence. }
    destruct (Z.ltb_spec 0 p); [|lia]. cbn [mbind outcome_bind].
    destruct (lookup_lt_is_Some_2 bs (Z.to_nat (p - 1))) as [bi Li]; [unfold len in *; lia|].
    rewrite (index_of_lookup _ _ _ _ Li). cbn [mbind outcome_bind block_offset file r].
    rewrite Efile, Z.add_0_l, (read_block_at _ _ bi) by done. cbn [mbind outcome_bind].
    rewrite find_entry_ok by by eapply sorted_block. rewrite (get_in_block bs (Z.to_nat (p - 1)) bi); try done.
    + apply (G1 _ _ (index_of_lookup 0 _ _ _ Li)). lia.
    + intros j b' Lj Hj. apply (G2 _ _ (index_of_lookup 0 _ _ _ Lj)). lia.
  - intros key. unfold sst_may_contain. destruct (out_of_span r key) eqn:Sp.
    + exists false. split; [done|]. intros _. by apply (span_ok _ r).
    + cbn [bloom r]. by apply bloom_answer.
Qed.
End reader_facts.

(** A run that can be written is written, opened and read back. *)
Record written (crc32 : bytes -> Z) (id : Z) (es : list lsm_entry) (m : SSTableMeta) (file : bytes) (r : SSTableReader) : Prop := {
  written_write : write_sstable crc32 id es = Ok (Some (m, file));
  written_open : sst_open crc32 file id = Ok r;
  written_meta : meta r = m;
  written_id : sst_id m = id;
  written_reads : reads crc32 r es;
  written_size : 0 <= file_size m < 2 ^ 34
}.

Definition run_ok (es : list lsm_entry) : Prop :=
  es <> [] /\ keys_sorted es /\ Forall entry_fits es /\ len es < 2 ^ 20.

Lemma write_run crc32 id es :
  (forall b, in_u32 (crc32 b) = true) -> run_ok es -> exists m file r, written crc32 id es m file r.
Proof.
  intros Hc (Ne & K & F & N). destruct (write_sstable_ok crc32 Hc id es Ne F N) as (bs & m & file & f & b & -> & T & W).
  exists m, file, (mkReader file f (index_of 0 bs) m (Some b)). split; [done|by apply sst_open_ok|done| | |].
  - by rewrite (tf_meta _ _ _ _ _ _ _ T).
  - by eapply table_reads.
  - by eapply table_size.
Qed.

(** ** Theorems *)

(** C10. A table file round-trips: writing a sorted, non-empty run of entries
    that each fit a block succeeds, opening the file gives back the metadata
    the writer returned, iterating gives back the entries in order, tombstones
    included, looking a key up gives its entry in the run and the filter never
    hides a key the run holds. *)
Theorem sstable_round_trip crc32 id es :
  (forall b, in_u32 (crc32 b) = true) ->
  es <> [] -> keys_sorted es -> Forall entry_fits es -> len es < 2 ^ 20 ->
  exists m file r, write_sstable crc32 id es = Ok (Some (m, file)) /\ sst_open crc32 file id = Ok r /\
    meta r = m /\ sst_id m = id /\ reads crc32 r es.
Proof.
  intros Hc Ne K F N. destruct (write_run crc32 id es Hc) as (m & file & r & [W O M I R _]); [done|].
  by exists m, file, r.
Qed.

Lemma sstable_round_trip_witness :
  exists m file r, write_sstable (fun _ => 7) 3 [([byte.of_Z 1], Some [byte.of_Z 2]); ([byte.of_Z 5], None)] = Ok (Some (m, file)) /\
    sst_open (fun _ => 7) file 3 = Ok r /\ meta r = m /\ sst_id m = 3 /\
    reads (fun _ => 7) r [([byte.of_Z 1], Some [byte.of_Z 2]); ([byte.of_Z 5], None)].
Proof.
  apply (sstable_round_trip (fun _ => 7) 3 [([byte.of_Z 1], Some [byte.of_Z 2]); ([byte.of_Z 5], None)]).
  - intros _. reflexivity.
  - discriminate.
  - repeat constructor.
  - repeat constructor; vm_compute; discriminate.
  - vm_compute. reflexivity.
Defined.

(** The same run, evaluated: the deleted key is found as a tombstone, an absent
    key is not found. *)
Example sstable_run :
  match write_sstable (fun _ => 7) 3 [([byte.of_Z 1], Some [byte.of_Z 2]); ([byte.of_Z 5], None)] with
  | Ok (Some (m, file)) =>
      match sst_open (fun _ => 7) file 3 with
      | Ok r => map (sst_get (fun _ => 7) r) [[byte.of_Z 1]; [byte.of_Z 3]; [byte.of_Z 5]]
      | _ => []
      end
  | _ => []
  end = [Some (Ok (Some (Some [byte.of_Z 2]))); Some (Ok None); Some (Ok (Some None))].
Proof. vm_compute. reflexivity. Qed.

(** A block that has outgrown its capacity can only be flushed into a panic. *)
Definition overfull (w : SstWriter) : Prop :=
  BLOCK_DATA_CAPACITY < len (block_buf w) /\ is_Some (block_first_key w) /\ 0 < total_entry_count w.

Lemma overfull_flush w : overfull w -> flush_block w = Panic.
Proof. intros (B & [k F] & _). unfold flush_block. rewrite F. zcase. done. Qed.

Lemma overfull_write w e : overfull w -> write_entry w e = Panic.
Proof.
  intros O. pose proof O as (B & _ & _). destruct e as [key v]. unfold write_entry. rewrite overfull_flush by done.
  unfold BLOCK_DATA_CAPACITY, BLOCK_SIZE in *. pose proof (len_nonneg key). pose proof (value_len_nonneg v).
  destruct (Z.eqb_spec (len (block_buf w)) 0); [lia|]. cbn [negb andb].
  destruct (Z.ltb_spec (4096 - 2) (len (block_buf w) + (2 + len key + 2 + value_len v))); [done|lia].
Qed.

Lemma write_entries_app w a b : write_entries w (a ++ b) = w' ← write_entries w a; write_entries w' b.
Proof.
  revert w. induction a as [|e a IH]; intros w; [done|]. cbn [app write_entries].
  destruct (write_entry w e) as [w'| |]; [|done|done]. apply IH.
Qed.

Lemma arith_cases fits z : (@arith Error fits z = Ok z) \/ (@arith Error fits z = Panic).
Proof. unfold arith. destruct (fits z); auto. Qed.

Lemma write_oversize w bs cur e :
  writer_inv w bs cur -> ~ entry_fits e ->
  write_entry w e = Panic \/ exists w', write_entry w e = Ok w' /\ overfull w'.
Proof.
  intros I He. pose proof I as [Hb Hc Hs Hw]. destruct e as [k v]. unfold write_entry.
  change (2 + len k + 2 + value_len v) with (entry_size (k, v)). unfold entry_fits in He.
  pose proof (f_equal block_buf Hw) as Eb. pose proof (f_equal total_entry_count Hw) as Et. cbn in Eb, Et.
  pose proof (len_nonneg (concat bs ++ cur)). pose proof (len_nonneg (data_bytes cur)).
  rewrite Eb, data_bytes_nil. destruct (bool_decide_reflect (cur = [])) as [->|Ne]; cbn [negb andb mbind outcome_bind].
  - destruct (arith_cases in_u16 (block_entry_count w + 1)) as [->| ->]; [|by left]. cbn [mbind outcome_bind].
    destruct (arith_cases in_u64 (total_entry_count w + 1)) as [->| ->]; [|by left]. right. eexists. split; [reflexivity|].
    unfold overfull. cbn [block_buf block_first_key total_entry_count]. rewrite Eb. cbn [data_bytes map concat app].
    rewrite len_entry_bytes. split_and!; [lia|by destruct (block_first_key w); eexists|lia].
  - destruct (Z.ltb_spec BLOCK_DATA_CAPACITY (len (data_bytes cur) + entry_size (k, v))); [|lia].
    destruct (flush_block_ok _ _ _ I Ne) as [-> _]. cbn [mbind outcome_bind current_block_offset].
    destruct (arith_cases in_u32 (BLOCK_SIZE * len bs + BLOCK_SIZE)) as [->| ->]; [|by left].
    cbn [mbind outcome_bind block_entry_count total_entry_count out block_buf block_first_key index_entries current_block_offset
      w_first_key w_last_key all_keys].
    rewrite arith_bind by done. cbv beta.
    destruct (arith_cases in_u64 (len (concat bs ++ cur) + 1)) as [->| ->]; [|by left]. right. eexists. split; [reflexivity|].
    unfold overfull. cbn [block_buf block_first_key total_entry_count app]. rewrite len_entry_bytes.
    split_and!; [lia|by eexists|lia].
Qed.

(** An entry too large for a block cannot be written: a run that holds one
    makes the writer panic, wherever in the run it stands. *)
Theorem sstable_oversize_panics crc32 id es e rest :
  Forall entry_fits es -> ~ entry_fits e -> len es < 2 ^ 20 ->
  write_sstable crc32 id (es ++ e :: rest) = Panic.
Proof.
  intros F He N. unfold write_sstable. rewrite write_entries_app.
  assert (exists w bs cur, write_entries sst_writer_new es = Ok w /\ writer_inv w bs cur) as (w & bs & cur & -> & I).
  { destruct es as [|e0 es].
    - exists sst_writer_new, [], []. split; [done|by constructor].
    - destruct (write_entries_ok (e0 :: es) sst_writer_new [] []) as (w & bs & cur & E & I & _); [by constructor|done|done|done|].
      by exists w, bs, cur. }
  cbn [mbind outcome_bind write_entries]. destruct (write_oversize w bs cur e I He) as [->|(w' & -> & O)]; [done|].
  cbn [mbind outcome_bind]. destruct rest as [|e' rest]; cbn [write_entries]; [|by rewrite overfull_write].
  cbn [mbind outcome_bind]. rewrite overfull_flush by done. destruct O as (_ & _ & T). zcase. done.
Qed.

Lemma sstable_oversize_panics_witness :
  write_sstable (fun _ => 0) 1 ([([byte.of_Z 1], None)] ++
    ([byte.of_Z 2], Some (replicate 4090 (byte.of_Z 0))) :: [([byte.of_Z 3], None)]) = Panic.
Proof.
  apply (sstable_oversize_panics (fun _ => 0) 1 [([byte.of_Z 1], None)]
    ([byte.of_Z 2], Some (replicate 4090 (byte.of_Z 0))) [([byte.of_Z 3], None)]).
  - repeat constructor; vm_compute; discriminate.
  - intros H. vm_compute in H. by apply H.
  - vm_compute. reflexivity.
Defined.
