(* ===== verification/Manifest.v ===== *)
(** The manifest: the text log of which tables stand at which level
    (crates/idb-storage/src/engines/lsm/manifest.rs).

    The file is its bytes, in ASCII, which is all the code writes; white space
    is the ASCII white space. *)

From Stdlib Require Import ZArith Lia List Bool.
From S2P Require Import Prelude Common Engine Merge SsTable.
From coqutil Require Import Byte Word.LittleEndianList.
From stdpp Require Import base list strings sorting.
#[local] Open Scope Z_scope.

Definition MAX_LEVEL_COUNT : nat := 7.

(** ** Standard library: numbers and words *)

Definition str (s : String.string) : bytes := String.list_byte_of_string s.

Definition digit_byte (d : Z) : byte := byte.of_Z (48 + d).

(** [Display] of an unsigned integer; twenty digits hold a [u64]. *)
Fixpoint dec_digits (fuel : nat) (n : Z) : bytes :=
  match fuel with
  | O => []
  | S fuel => if n <? 10 then [digit_byte n] else dec_digits fuel (n / 10) ++ [digit_byte (n mod 10)]
  end.
Definition display_u64 (n : Z) : bytes := dec_digits 20 n.

Definition digit_value (b : byte) : option Z := if in_range 48 57 b then Some (u8 b - 48) else None.

Fixpoint parse_dec (s : bytes) (acc : Z) : option Z :=
  match s with
  | [] => Some acc
  | b :: s =>
      match digit_value b with
      | None => None
      | Some d => if 10 * acc + d <? 2 ^ 64 then parse_dec s (10 * acc + d) else None
      end
  end.

(** [str::parse] of a [u64] or a [usize]: an optional plus sign and digits. *)
Definition parse_u64 (s : bytes) : option Z :=
  match s with
  | [] => None
  | b :: rest => if bool_decide (b = byte.of_Z 43) && negb (len rest =? 0) then parse_dec rest 0 else parse_dec s 0
  end.

Definition is_space (b : byte) : bool := (u8 b =? 32) || in_range 9 13 b.

(** [str::split_whitespace], the word read so far in [cur]. *)
Fixpoint split_words (s cur : bytes) : list bytes :=
  match s with
  | [] => match cur with [] => [] | _ => [cur] end
  | b :: s => if is_space b then match cur with [] => split_words s [] | _ => cur :: split_words s [] end
              else split_words s (cur ++ [b])
  end.
Definition split_whitespace (s : bytes) : list bytes := split_words s [].

Fixpoint drop_spaces (s : bytes) : bytes :=
  match s with b :: rest => if is_space b then drop_spaces rest else s | [] => [] end.
Definition trim (s : bytes) : bytes := reverse (drop_spaces (reverse (drop_spaces s))).

Definition newline : byte := byte.of_Z 10.

(** [BufRead::lines]: without the line ends, no line after the last one. *)
Fixpoint split_lines (s cur : bytes) : list bytes :=
  match s with
  | [] => match cur with [] => [] | _ => [cur] end
  | b :: s => if bool_decide (b = newline) then cur :: split_lines s [] else split_lines s (cur ++ [b])
  end.
Definition strip_cr (line : bytes) : bytes :=
  match reverse line with b :: rest => if u8 b =? 13 then reverse rest else line | [] => [] end.
Definition lines (s : bytes) : list bytes := map strip_cr (split_lines s []).

(** ** Hexadecimal *)

Definition hex_digit (d : Z) : byte := byte.of_Z (if d <? 10 then 48 + d else 87 + d).
Definition hex_value (b : byte) : option Z :=
  if in_range 48 57 b then Some (u8 b - 48)
  else if in_range 97 102 b then Some (u8 b - 87)
  else if in_range 65 70 b then Some (u8 b - 55) else None.

Fixpoint hex_encode (data : bytes) : bytes :=
  match data with
  | [] => []
  | b :: rest => hex_digit (u8 b / 16) :: hex_digit (u8 b mod 16) :: hex_encode rest
  end.

(** [u8::from_str_radix(.., 16)] of two characters: a plus sign may stand for
    the first. *)
Definition hex_byte (a b : byte) : option byte :=
  match hex_value b with
  | None => None
  | Some lo =>
      if bool_decide (a = byte.of_Z 43) then Some (byte.of_Z lo)
      else match hex_value a with Some hi => Some (byte.of_Z (16 * hi + lo)) | None => None end
  end.

Fixpoint hex_pairs (s : bytes) : option bytes :=
  match s with
  | a :: b :: rest =>
      match hex_byte a b, hex_pairs rest with
      | Some x, Some xs => Some (x :: xs)
      | _, _ => None
      end
  | _ => Some []
  end.

Definition hex_decode (s : bytes) : option bytes := if negb (len s mod 2 =? 0) then None else hex_pairs s.

(** ** The state of the levels *)

Record LevelState := mkLevels { levels : list (list SSTableMeta); next_sst_id : Z }.

Definition levels_new : LevelState := mkLevels (replicate MAX_LEVEL_COUNT []) 1.

(** [levels[n]]; the vector always has [MAX_LEVEL_COUNT] levels. *)
Definition level (n : nat) (st : LevelState) : list SSTableMeta := nth n (levels st) [].
Definition set_level (n : nat) (l : list SSTableMeta) (st : LevelState) : LevelState :=
  mkLevels (<[n := l]> (levels st)) (next_sst_id st).

Definition next_id (st : LevelState) : result (Z * LevelState) :=
  next ← arith in_u64 (next_sst_id st + 1);
  Ok (next_sst_id st, mkLevels (levels st) next).

Definition sum_sizes (ms : list SSTableMeta) : result Z :=
  fold_left (fun acc m => total ← acc; arith in_u64 (total + file_size m)) ms (Ok 0).

Definition total_disk_size (st : LevelState) : result Z := sum_sizes (concat (levels st)).

Definition level_size (n : nat) (st : LevelState) : result Z :=
  if (MAX_LEVEL_COUNT <=? n)%nat then Panic else sum_sizes (level n st).

(** ** The log *)

Definition space : byte := byte.of_Z 32.

(** Words with a space between them. *)
Fixpoint unwords (ws : list bytes) : bytes :=
  match ws with
  | [] => []
  | [w] => w
  | w :: rest => w ++ space :: unwords rest
  end.

(** The line [log_add] appends. *)
Definition add_line (level : nat) (m : SSTableMeta) : bytes :=
  unwords [str "ADD"; display_u64 (Z.of_nat level); display_u64 (sst_id m); hex_encode (first_key m);
           hex_encode (last_key m); display_u64 (file_size m); display_u64 (entry_count m)].

(** The line [log_del] appends. *)
Definition del_line (id : Z) : bytes := unwords [str "DEL"; display_u64 id].

Definition log_add (level : nat) (m : SSTableMeta) (manifest : bytes) : bytes :=
  manifest ++ add_line level m ++ [newline].
Definition log_del (id : Z) (manifest : bytes) : bytes := manifest ++ del_line id ++ [newline].

Definition corrupted {A} (o : option A) (msg : string) : result A := ok_or o (StorageCorrupted msg).

Definition replay_add (parts : list bytes) (st : LevelState) : result LevelState :=
  match parts with
  | [_; lv; id; fk; lk; fsize; count] =>
      lv ← corrupted (parse_u64 lv) "bad level";
      id ← corrupted (parse_u64 id) "bad sst_id";
      fk ← corrupted (hex_decode fk) "bad first_key hex";
      lk ← corrupted (hex_decode lk) "bad last_key hex";
      fsize ← corrupted (parse_u64 fsize) "bad file_size";
      count ← corrupted (parse_u64 count) "bad entry_count";
      if Z.of_nat MAX_LEVEL_COUNT <=? lv then Panic else
      let n := Z.to_nat lv in
      let st := set_level n (level n st ++ [mkMeta id fk lk fsize count]) st in
      if next_sst_id st <=? id then
        next ← @arith Error in_u64 (id + 1); Ok (mkLevels (levels st) next)
      else Ok st
  | _ => Err (StorageCorrupted "manifest ADD line has wrong number of fields")
  end.

Definition drop_id (id : Z) (ms : list SSTableMeta) : list SSTableMeta :=
  List.filter (fun m => negb (sst_id m =? id)) ms.

Definition replay_del (parts : list bytes) (st : LevelState) : result LevelState :=
  match parts with
  | [_; id] =>
      id ← corrupted (parse_u64 id) "bad sst_id";
      Ok (mkLevels (map (drop_id id) (levels st)) (next_sst_id st))
  | _ => Err (StorageCorrupted "manifest DEL line has wrong number of fields")
  end.

Definition replay_line (line : bytes) (st : LevelState) : result LevelState :=
  let parts := split_whitespace line in
  match parts with
  | cmd :: _ =>
      if bool_decide (cmd = str "ADD") then replay_add parts st
      else if bool_decide (cmd = str "DEL") then replay_del parts st
      else Err (StorageCorrupted "unknown manifest command")
  | [] => Err (StorageCorrupted "unknown manifest command")
  end.

Fixpoint replay (ls : list bytes) (st : LevelState) : result LevelState :=
  match ls with
  | [] => Ok st
  | l :: rest =>
      let l := trim l in
      match l with
      | [] => replay rest st
      | _ => st ← replay_line l st; replay rest st
      end
  end.

(** [Manifest::open]; a missing file is an empty one. *)
Definition manifest_open (manifest : bytes) : result LevelState := replay (lines manifest) levels_new.

(** ** Numbers *)

Definition clean (w : bytes) : Prop := Forall (fun b => is_space b = false) w.

Lemma u8_digit_byte d : 0 <= d < 10 -> u8 (digit_byte d) = 48 + d.
Proof. intros. unfold digit_byte. rewrite byte.unsigned_of_Z. unfold byte.wrap. apply Z.mod_small. lia. Qed.

Lemma digit_byte_value d : 0 <= d < 10 -> digit_value (digit_byte d) = Some d.
Proof.
  intros. unfold digit_value, in_range. rewrite u8_digit_byte by done.
  destruct (Z.leb_spec 48 (48 + d)); [|lia]. destruct (Z.leb_spec (48 + d) 57); [|lia]. cbn. f_equal. lia.
Qed.

Lemma parse_dec_app a b acc :
  parse_dec (a ++ b) acc = match parse_dec a acc with Some z => parse_dec b z | None => None end.
Proof.
  revert acc. induction a as [|x a IH]; intros acc; [done|]. cbn [app parse_dec]. destruct (digit_value x); [|done].
  destruct (_ <? _); [apply IH|done].
Qed.

Lemma dec_digits_ok fuel n :
  0 <= n < 10 ^ Z.of_nat fuel -> n < 2 ^ 64 -> (0 < fuel)%nat ->
  parse_dec (dec_digits fuel n) 0 = Some n /\ Forall (fun b => 48 <= u8 b <= 57) (dec_digits fuel n) /\ dec_digits fuel n <> [].
Proof.
  revert n. induction fuel as [|fuel IH]; intros n Hn Hb Hf; [lia|]. cbn [dec_digits]. destruct (Z.ltb_spec n 10) as [Small|Large].
  - cbn [parse_dec]. rewrite digit_byte_value by lia. destruct (Z.ltb_spec (10 * 0 + n) (2 ^ 64)); [|lia].
    split; [f_equal; lia|]. split; [|done]. constructor; [rewrite u8_digit_byte; lia|constructor].
  - assert (Hd : 0 <= n / 10 < 10 ^ Z.of_nat fuel).
    { replace (10 ^ Z.of_nat (S fuel)) with (10 * 10 ^ Z.of_nat fuel) in Hn by (by rewrite Nat2Z.inj_succ, Z.pow_succ_r by lia).
      Z.to_euclidean_division_equations; lia. }
    assert (Hp : (0 < fuel)%nat) by (destruct fuel; [cbn in Hd; Z.to_euclidean_division_equations; lia|lia]).
    destruct (IH (n / 10)) as (P & F & Ne); [done|Z.to_euclidean_division_equations; lia|done|].
    assert (Hm : 0 <= n mod 10 < 10) by (apply Z.mod_pos_bound; lia).
    rewrite parse_dec_app, P. cbn [parse_dec]. rewrite digit_byte_value by done.
    replace (10 * (n / 10) + n mod 10) with n by (Z.to_euclidean_division_equations; lia).
    destruct (Z.ltb_spec n (2 ^ 64)); [|lia]. split; [done|]. split; [|by destruct (dec_digits fuel (n / 10))].
    apply Forall_app. split; [done|]. constructor; [rewrite u8_digit_byte; lia|constructor].
Qed.

Lemma digits_clean w : Forall (fun b => 48 <= u8 b <= 57) w -> clean w.
Proof.
  intros F. eapply Forall_impl; [exact F|]. intros b Hb. cbn in Hb. unfold is_space, in_range.
  destruct (Z.eqb_spec (u8 b) 32); [lia|]. destruct (Z.leb_spec (u8 b) 13); [lia|]. by rewrite andb_false_r.
Qed.

Lemma display_u64_ok n :
  in_u64 n = true -> parse_u64 (display_u64 n) = Some n /\ clean (display_u64 n) /\ display_u64 n <> [].
Proof.
  unfold in_u64. intros Hn. zbool. destruct (dec_digits_ok 20 n) as (P & F & Ne); [cbn; lia|lia|lia|].
  unfold display_u64. split; [|split; [by apply digits_clean|done]]. destruct (dec_digits 20 n) as [|b s]; [done|].
  unfold parse_u64. rewrite bool_decide_false; [done|]. intros ->. apply Forall_cons_1 in F as [[F _] _]. vm_compute in F. by apply F.
Qed.

(** ** Hexadecimal *)

Lemma hex_byte_ok b : hex_byte (hex_digit (u8 b / 16)) (hex_digit (u8 b mod 16)) = Some b.
Proof. destruct b; vm_compute; reflexivity. Qed.

Lemma hex_digit_clean b : is_space (hex_digit (u8 b / 16)) = false /\ is_space (hex_digit (u8 b mod 16)) = false.
Proof. destruct b; vm_compute; auto. Qed.

Lemma hex_ok data : hex_decode (hex_encode data) = Some data /\ clean (hex_encode data).
Proof.
  assert (H : hex_pairs (hex_encode data) = Some data /\ len (hex_encode data) = 2 * len data /\ clean (hex_encode data)).
  { induction data as [|b data (P & L & C)]; [by repeat constructor|]. cbn [hex_encode hex_pairs].
    rewrite hex_byte_ok, P, !len_cons. split; [done|]. split; [lia|]. destruct (hex_digit_clean b). by repeat constructor. }
  destruct H as (P & L & C). split; [|done]. unfold hex_decode. rewrite L, Z.mul_comm, Z_mod_mult. done.
Qed.

Lemma hex_encode_nil data : hex_encode data = [] <-> data = [].
Proof. by destruct data. Qed.

(** ** Words and lines *)

Definition is_empty (w : bytes) : bool := match w with [] => true | _ => false end.

Lemma split_words_app w s cur :
  clean w -> split_words (w ++ s) cur = split_words s (cur ++ w).
Proof.
  revert cur. induction w as [|b w IH]; intros cur C; [by rewrite app_nil_r|]. apply Forall_cons_1 in C as [Cb C].
  cbn [app split_words]. rewrite Cb, IH by done. by rewrite <- app_assoc.
Qed.

Lemma split_unwords ws :
  Forall clean ws -> split_whitespace (unwords ws) = List.filter (fun w => negb (is_empty w)) ws.
Proof.
  unfold split_whitespace. induction 1 as [|w ws C F IH]; [done|]. destruct ws as [|w' ws].
  - cbn [unwords List.filter]. rewrite <- (app_nil_r w) at 1. rewrite split_words_app by done. cbn. by destruct w.
  - change (unwords (w :: w' :: ws)) with (w ++ space :: unwords (w' :: ws)). rewrite split_words_app by done.
    cbn [app split_words]. change (is_space space) with true. cbv iota. rewrite IH. cbn [List.filter].
    by destruct w.
Qed.

Lemma split_lines_app l s cur :
  Forall (fun b => b <> newline) l -> split_lines (l ++ newline :: s) cur = (cur ++ l) :: split_lines s [].
Proof.
  revert cur. induction l as [|b l IH]; intros cur F; cbn [app split_lines].
  - by rewrite bool_decide_true, app_nil_r.
  - apply Forall_cons_1 in F as [Fb F]. rewrite bool_decide_false, IH by done. by rewrite <- app_assoc.
Qed.

(** A line the reader hands on as it was written. *)
Definition plain (l : bytes) : Prop :=
  Forall (fun b => b <> newline) l /\
  exists a m z, l = a :: m /\ is_space a = false /\ last l = Some z /\ is_space z = false.

Lemma plain_read l : plain l -> strip_cr l = l /\ trim l = l /\ l <> [].
Proof.
  intros (_ & a & m & z & -> & Ha & Lz & Hz). apply last_Some in Lz as [l' E]. split_and!; [| |done].
  - unfold strip_cr. rewrite E, reverse_snoc. destruct (Z.eqb_spec (u8 z) 13) as [Ez|]; [|done].
    unfold is_space, in_range in Hz. rewrite Ez in Hz. done.
  - unfold trim. cbn [drop_spaces]. rewrite Ha, E, reverse_snoc. cbn [drop_spaces]. rewrite Hz.
    by rewrite reverse_cons, reverse_involutive.
Qed.

Definition text (ls : list bytes) : bytes := concat (map (fun l => l ++ [newline]) ls).

Lemma lines_text ls : Forall plain ls -> lines (text ls) = ls.
Proof.
  unfold lines. induction 1 as [|l ls P F IH]; [done|]. unfold text. cbn [map concat].
  rewrite <- app_assoc. cbn [app]. rewrite split_lines_app by apply P. cbn [app map].
  rewrite (proj1 (plain_read _ P)). f_equal. exact IH.
Qed.

Lemma unwords_snoc ws z : unwords (ws ++ [z]) = concat (map (fun w => w ++ [space]) ws) ++ z.
Proof.
  induction ws as [|w ws IH]; [done|]. cbn [app map concat].
  assert (E : unwords (w :: (ws ++ [z])) = w ++ space :: unwords (ws ++ [z])) by (by destruct ws).
  rewrite E, IH, <- !app_assoc. done.
Qed.

(** Clean words, the first and the last not empty, make a plain line. *)
Lemma unwords_plain w ws z :
  Forall clean (w :: ws) -> clean z -> w <> [] -> z <> [] -> plain (unwords ((w :: ws) ++ [z])).
Proof.
  intros C Cz Nw Nz. rewrite unwords_snoc.
  assert (G : forall v, clean v -> Forall (fun b => b <> newline) v).
  { intros v Cv. eapply Forall_impl; [exact Cv|]. intros b Hb ->. done. }
  split.
  - apply Forall_app. split; [|by apply G]. apply Forall_concat, Forall_fmap. eapply Forall_impl; [exact C|].
    intros v Cv. cbn. apply Forall_app. split; [by apply G|]. by constructor.
  - apply Forall_cons_1 in C as [Cw _]. destruct w as [|a w]; [done|]. apply Forall_cons_1 in Cw as [Ca _].
    destruct (last z) as [zb|] eqn:E; [|by apply last_None in E].
    eexists a, _, zb. split; [reflexivity|]. split; [done|]. rewrite last_app, E. split; [done|].
    apply last_Some_elem_of in E. unfold clean in Cz. rewrite Forall_forall in Cz. by apply Cz.
Qed.

(** ** The log as events *)

Inductive Event : Type :=
| LogAdd (n : nat) (m : SSTableMeta)
| LogDel (id : Z).

Definition event_line (e : Event) : bytes :=
  match e with LogAdd n m => add_line n m | LogDel id => del_line id end.

Definition log_event (e : Event) (manifest : bytes) : bytes :=
  match e with LogAdd n m => log_add n m manifest | LogDel id => log_del id manifest end.

Definition apply_event (st : LevelState) (e : Event) : LevelState :=
  match e with
  | LogAdd n m => mkLevels (<[n := level n st ++ [m]]> (levels st)) (Z.max (next_sst_id st) (sst_id m + 1))
  | LogDel id => mkLevels (map (drop_id id) (levels st)) (next_sst_id st)
  end.

Definition meta_ok (m : SSTableMeta) : Prop :=
  0 <= sst_id m < 2 ^ 64 - 1 /\ in_u64 (file_size m) = true /\ in_u64 (entry_count m) = true.

Definition event_ok (e : Event) : Prop :=
  match e with
  | LogAdd n m => (n < MAX_LEVEL_COUNT)%nat /\ meta_ok m
  | LogDel id => in_u64 id = true
  end.

(** The keys of an event, which must not be empty for it to be read back. *)
Definition event_keys (e : Event) : Prop :=
  match e with LogAdd _ m => first_key m <> [] /\ last_key m <> [] | LogDel _ => True end.

Lemma id_u64 m : meta_ok m -> in_u64 (sst_id m) = true.
Proof. intros (H & _). fits. Qed.

Lemma level_u64 n : (n < MAX_LEVEL_COUNT)%nat -> in_u64 (Z.of_nat n) = true.
Proof. unfold MAX_LEVEL_COUNT. intros. fits. Qed.

Lemma str_clean_add : clean (str "ADD").
Proof. by repeat constructor. Qed.
Lemma str_clean_del : clean (str "DEL").
Proof. by repeat constructor. Qed.

Lemma add_words n m :
  (n < MAX_LEVEL_COUNT)%nat -> meta_ok m ->
  Forall clean [str "ADD"; display_u64 (Z.of_nat n); display_u64 (sst_id m); hex_encode (first_key m);
           hex_encode (last_key m); display_u64 (file_size m); display_u64 (entry_count m)].
Proof.
  intros Hn Hm. pose proof Hm as (_ & Hs & Hc).
  pose proof (display_u64_ok _ (level_u64 n Hn)) as (_ & C1 & _). pose proof (display_u64_ok _ (id_u64 m Hm)) as (_ & C2 & _).
  pose proof (display_u64_ok _ Hs) as (_ & C3 & _). pose proof (display_u64_ok _ Hc) as (_ & C4 & _).
  pose proof (hex_ok (first_key m)) as (_ & C5). pose proof (hex_ok (last_key m)) as (_ & C6).
  repeat constructor; try done; apply str_clean_add.
Qed.

Lemma event_plain e : event_ok e -> plain (event_line e).
Proof.
  destruct e as [n m|id]; cbn [event_ok event_line].
  - intros [Hn Hm]. pose proof (add_words n m Hn Hm) as C. destruct (display_u64_ok (entry_count m)) as (_ & _ & Ne); [apply Hm|].
    unfold add_line. change [?a; ?b; ?c; ?d; ?e; ?f; ?g] with ((a :: [b; c; d; e; f]) ++ [g]).
    apply (Forall_app _ (str "ADD" :: [_; _; _; _; _]) [_]) in C as [C1 C2]. apply unwords_plain; [done| |done|done].
    by apply Forall_cons_1 in C2 as [? _].
  - intros H. destruct (display_u64_ok id H) as (_ & C & Ne). unfold del_line.
    change [?a; ?b] with ((a :: []) ++ [b]). apply unwords_plain; [|done|done|done].
    constructor; [apply str_clean_del|constructor].
Qed.

Lemma replay_event e st :
  event_ok e -> event_keys e -> length (levels st) = MAX_LEVEL_COUNT ->
  replay_line (event_line e) st = Ok (apply_event st e).
Proof.
  destruct e as [n m|id]; cbn [event_ok event_keys event_line apply_event]; intros Ho Hk Hl; unfold replay_line.
  - destruct Ho as [Hn Hm], Hk as [Kf Kl]. unfold add_line. rewrite (split_unwords _ (add_words n m Hn Hm)).
    destruct (display_u64_ok _ (level_u64 n Hn)) as (P1 & _ & N1). destruct (display_u64_ok _ (id_u64 m Hm)) as (P2 & _ & N2).
    pose proof Hm as (Hid & Hs & Hc). destruct (display_u64_ok _ Hs) as (P3 & _ & N3). destruct (display_u64_ok _ Hc) as (P4 & _ & N4).
    destruct (hex_ok (first_key m)) as (P5 & _), (hex_ok (last_key m)) as (P6 & _).
    rewrite <- hex_encode_nil in Kf, Kl.
    assert (Ne : forall w : bytes, w <> [] -> negb (is_empty w) = true) by (by intros [|]).
    cbn [List.filter]. rewrite !Ne by done. rewrite bool_decide_true by done. unfold replay_add.
    rewrite P1, P2, P3, P4, P5, P6. cbn [corrupted ok_or mbind outcome_bind]. unfold MAX_LEVEL_COUNT in *.
    destruct (Z.leb_spec (Z.of_nat 7) (Z.of_nat n)); [lia|]. rewrite Nat2Z.id. cbn [next_sst_id set_level levels].
    replace (mkMeta _ _ _ _ _) with m by (by destruct m).
    destruct (Z.leb_spec (next_sst_id st) (sst_id m)).
    + rewrite arith_bind by fits. cbv beta. do 2 f_equal. lia.
    + unfold set_level. do 2 f_equal. lia.
  - destruct (display_u64_ok id Ho) as (P & C & Ne). unfold del_line. rewrite split_unwords.
    2: { constructor; [apply str_clean_del|by constructor]. }
    cbn [List.filter]. replace (negb (is_empty (display_u64 id))) with true by (by destruct (display_u64 id)).
    change (negb (is_empty (str "DEL"))) with true. cbv iota. rewrite bool_decide_false by done. rewrite bool_decide_true by done.
    unfold replay_del. rewrite P. done.
Qed.

Lemma apply_event_length st e : length (levels (apply_event st e)) = length (levels st).
Proof. destruct e; cbn; [by rewrite length_insert|by rewrite length_map]. Qed.

Lemma replay_events evs st :
  Forall event_ok evs -> Forall event_keys evs -> length (levels st) = MAX_LEVEL_COUNT ->
  replay (map event_line evs) st = Ok (fold_left apply_event evs st).
Proof.
  intros F. revert st. induction F as [|e evs He F IH]; intros st Hk Hl; [done|]. apply Forall_cons_1 in Hk as [Ke Hk].
  cbn [map replay fold_left]. destruct (plain_read _ (event_plain e He)) as (_ & T & Ne). rewrite T.
  destruct (event_line e) as [|b l] eqn:E; [done|]. rewrite <- E, replay_event by done. cbn [mbind outcome_bind].
  apply IH; [done|by rewrite apply_event_length].
Qed.

Lemma log_events evs manifest :
  fold_left (fun t e => log_event e t) evs manifest = manifest ++ text (map event_line evs).
Proof.
  revert manifest. induction evs as [|e evs IH]; intros manifest; cbn [fold_left map]; [by rewrite app_nil_r|].
  rewrite IH. unfold text. cbn [map concat]. destruct e; cbn [log_event event_line]; unfold log_add, log_del;
    by rewrite <- !app_assoc.
Qed.

Lemma manifest_log_ok evs :
  Forall event_ok evs -> Forall event_keys evs ->
  manifest_open (fold_left (fun t e => log_event e t) evs []) = Ok (fold_left apply_event evs levels_new).
Proof.
  intros F K. rewrite log_events. cbn [app]. unfold manifest_open. rewrite lines_text.
  - by apply replay_events.
  - apply Forall_fmap. eapply Forall_impl; [exact F|]. apply event_plain.
Qed.

(** ** Theorems *)

(** C33. The manifest is read back as it was written: after any sequence of
    logged additions and removals of tables whose keys are not empty, opening
    the file succeeds and gives the levels and the next identifier that
    applying the sequence gives. *)
Theorem manifest_round_trip evs :
  Forall event_ok evs -> Forall event_keys evs ->
  manifest_open (fold_left (fun t e => log_event e t) evs []) = Ok (fold_left apply_event evs levels_new).
Proof. apply manifest_log_ok. Qed.

Lemma manifest_round_trip_witness :
  manifest_open (log_del 7 (log_add 1 (mkMeta 12 [byte.of_Z 171] [byte.of_Z 255] 4200 3)
    (log_add 0 (mkMeta 7 [byte.of_Z 0] [byte.of_Z 9] 4300 5) [])))
  = Ok (mkLevels [[]; [mkMeta 12 [byte.of_Z 171] [byte.of_Z 255] 4200 3]; []; []; []; []; []] 13).
Proof.
  apply (manifest_round_trip [LogAdd 0 (mkMeta 7 [byte.of_Z 0] [byte.of_Z 9] 4300 5);
    LogAdd 1 (mkMeta 12 [byte.of_Z 171] [byte.of_Z 255] 4200 3); LogDel 7]).
  - repeat constructor; vm_compute; auto; discriminate.
  - repeat constructor; discriminate.
Defined.

(** A table whose first key is empty makes the manifest unreadable: the
    line that logs it is one word short, and every later opening of the
    manifest fails on it. *)
Theorem manifest_empty_key evs n m rest :
  Forall event_ok evs -> Forall event_keys evs -> event_ok (LogAdd n m) -> Forall event_ok rest ->
  first_key m = [] -> last_key m <> [] ->
  manifest_open (fold_left (fun t e => log_event e t) (evs ++ LogAdd n m :: rest) [])
  = Err (StorageCorrupted "manifest ADD line has wrong number of fields").
Proof.
  intros F K Ho Fr Ef El. rewrite log_events. cbn [app]. unfold manifest_open. rewrite lines_text.
  2: { apply Forall_fmap, Forall_app. split; [|constructor; [by apply event_plain|]].
       - eapply Forall_impl; [exact F|apply event_plain].
       - eapply Forall_impl; [exact Fr|apply event_plain]. }
  rewrite map_app. assert (R : forall a b st, replay (a ++ b) st = st' ← replay a st; replay b st').
  { intros a b. induction a as [|l a IH]; intros st; [done|]. cbn [app replay]. destruct (trim l); [apply IH|].
    destruct (replay_line _ st); [apply IH|done|done]. }
  rewrite R, replay_events by done. cbn [mbind outcome_bind map replay].
  destruct (plain_read _ (event_plain _ Ho)) as (_ & T & Ne). rewrite T.
  destruct (event_line (LogAdd n m)) as [|b l] eqn:E; [done|]. rewrite <- E. cbn [event_line]. unfold replay_line, add_line.
  destruct Ho as [Hn Hm]. rewrite (split_unwords _ (add_words n m Hn Hm)), Ef. cbn [hex_encode List.filter is_empty negb].
  destruct (display_u64_ok _ (level_u64 n Hn)) as (_ & _ & N1). destruct (display_u64_ok _ (id_u64 m Hm)) as (_ & _ & N2).
  pose proof Hm as (Hid & Hs & Hc). destruct (display_u64_ok _ Hs) as (_ & _ & N3). destruct (display_u64_ok _ Hc) as (_ & _ & N4).
  rewrite <- hex_encode_nil in El. assert (G : forall w : bytes, w <> [] -> negb (is_empty w) = true) by (by intros [|]).
  rewrite !G by done. rewrite bool_decide_true by done. done.
Qed.

Lemma manifest_empty_key_witness :
  manifest_open (log_add 0 (mkMeta 1 [] [byte.of_Z 9] 4300 5) [])
  = Err (StorageCorrupted "manifest ADD line has wrong number of fields").
Proof.
  apply (manifest_empty_key [] 0 (mkMeta 1 [] [byte.of_Z 9] 4300 5) []); try constructor; try done.
  unfold MAX_LEVEL_COUNT. repeat constructor; vm_compute; auto; discriminate.
Defined.
