(* ===== verification/LsmTree.v ===== *)
(** The LSM tree: memtable, frozen memtables, levels of tables, flushing and
    leveled compaction (crates/idb-storage/src/engines/lsm/{mod,compaction,config}.rs).

    The state is what the mutexes of the tree guard, with the manifest and the
    table files.  A frozen memtable is named by the identifier allocated in the
    critical section that froze it, which stands for the address of its
    allocation.  A call keeps the changes it made before an error. *)

From Stdlib Require Import ZArith Lia List Bool.
From S2P Require Import Prelude Common Engine Bloom Merge SsTable Manifest.
From coqutil Require Import Byte Word.LittleEndianList.
From stdpp Require Import base gmap list strings sorting.
#[local] Open Scope Z_scope.

Definition DEFAULT_MEMTABLE_SIZE_BYTES : Z := 4 * 1024 * 1024.
Definition MAX_L0_SSTABLE_COUNT : Z := 4.
Definition LEVEL_SIZE_RATIO : Z := 10.
Definition TARGET_SSTABLE_SIZE_BYTES : Z := 4 * 1024 * 1024.

Record FrozenMemtable := mkFrozen { arc : Z; frozen_entries : list lsm_entry }.

Record LsmTree := mkTree {
  memtable : Memtable;
  immutable_memtables : list FrozenMemtable;
  level_state : LevelState;
  readers : gmap Z SSTableReader;
  manifest : bytes;
  files : gmap Z bytes;
  memtable_size_limit : Z
}.

Definition set_memtable (m : Memtable) (t : LsmTree) : LsmTree :=
  mkTree m (immutable_memtables t) (level_state t) (readers t) (manifest t) (files t) (memtable_size_limit t).
Definition set_immutables (l : list FrozenMemtable) (t : LsmTree) : LsmTree :=
  mkTree (memtable t) l (level_state t) (readers t) (manifest t) (files t) (memtable_size_limit t).
Definition set_levels (st : LevelState) (t : LsmTree) : LsmTree :=
  mkTree (memtable t) (immutable_memtables t) st (readers t) (manifest t) (files t) (memtable_size_limit t).
Definition set_readers (r : gmap Z SSTableReader) (t : LsmTree) : LsmTree :=
  mkTree (memtable t) (immutable_memtables t) (level_state t) r (manifest t) (files t) (memtable_size_limit t).
Definition set_manifest (b : bytes) (t : LsmTree) : LsmTree :=
  mkTree (memtable t) (immutable_memtables t) (level_state t) (readers t) b (files t) (memtable_size_limit t).
Definition set_files (f : gmap Z bytes) (t : LsmTree) : LsmTree :=
  mkTree (memtable t) (immutable_memtables t) (level_state t) (readers t) (manifest t) f (memtable_size_limit t).

(** [slice::partition_point] of a partitioned slice. *)
Fixpoint partition_point {A} (f : A -> bool) (l : list A) : nat :=
  match l with [] => O | x :: rest => if f x then S (partition_point f rest) else O end.

(** A loop that ends within its fuel. *)
Definition ends {A} (o : option A) : result A := match o with Some a => Ok a | None => Panic end.

Section lsm.
Context (crc32 : bytes -> Z).

(** ** Tables on disk *)

(** [level_state.next_id()] *)
Definition alloc_id : M LsmTree Z := fun t =>
  match next_id (level_state t) with
  | Ok (id, st) => (Ok id, set_levels st t)
  | Err e => (Err e, t)
  | Panic => (Panic, t)
  end.

(** [write_sstable] into the table directory. *)
Definition write_table (id : Z) (entries : list lsm_entry) : M LsmTree (option SSTableMeta) :=
  r ← pure (write_sstable crc32 id entries);
  match r with
  | Some (m, file) => modify (fun t => set_files (<[id := file]> (files t)) t);; mret (Some m)
  | None => mret None
  end.

(** [SSTableReader::open] on a table of the directory. *)
Definition open_table (id : Z) : M LsmTree SSTableReader :=
  fs ← gets files;
  pure (file ← ok_or (fs !! id) Io; sst_open crc32 file id).

(** ** Reading *)

(** [if let Some(reader) = readers.get_mut(&meta.id)] and the two probes. *)
Definition probe (readers : gmap Z SSTableReader) (key : bytes) (m : SSTableMeta) : result (option (option bytes)) :=
  match readers !! sst_id m with
  | None => Ok None
  | Some r =>
      may ← sst_may_contain crc32 r key;
      if negb may then Ok None else
      found ← ends (sst_get crc32 r key);
      found
  end.

Fixpoint probe_all (readers : gmap Z SSTableReader) (key : bytes) (ms : list SSTableMeta) : result (option (option bytes)) :=
  match ms with
  | [] => Ok None
  | m :: rest =>
      found ← probe readers key m;
      match found with Some v => Ok (Some v) | None => probe_all readers key rest end
  end.

(** One level below the first: at most one table can hold the key. *)
Definition probe_level (readers : gmap Z SSTableReader) (key : bytes) (ms : list SSTableMeta) : result (option (option bytes)) :=
  match ms !! partition_point (fun m => bltb (last_key m) key) ms with
  | None => Ok None
  | Some m => if bltb key (first_key m) then Ok None else probe readers key m
  end.

Fixpoint probe_levels (readers : gmap Z SSTableReader) (key : bytes) (ls : list (list SSTableMeta)) : result (option (option bytes)) :=
  match ls with
  | [] => Ok None
  | ms :: rest =>
      found ← probe_level readers key ms;
      match found with Some v => Ok (Some v) | None => probe_levels readers key rest end
  end.

(** The part of [get] under the lock of the memtables. *)
Definition get_memtables (key : bytes) (t : LsmTree) : option (option bytes) :=
  match mem_get key (memtable t) with
  | Some e => Some e
  | None => first_of key (map frozen_entries (rev (immutable_memtables t)))
  end.

(** The part of [get] under the lock of the readers, on the cloned levels. *)
Definition get_tables (key : bytes) (st : LevelState) (readers : gmap Z SSTableReader) : result (option bytes) :=
  found ← probe_all readers key (rev (level 0 st));
  match found with
  | Some v => Ok v
  | None =>
      found ← probe_levels readers key (tail (levels st));
      Ok (match found with Some v => v | None => None end)
  end.

Definition lsm_get (key : bytes) (t : LsmTree) : result (option bytes) :=
  match get_memtables key t with
  | Some v => Ok v
  | None => get_tables key (level_state t) (readers t)
  end.

Definition span_overlaps_range (first last : bytes) (lo hi : Bound) : bool :=
  match lo with Included s => bleb s last | Excluded s => bltb s last | Unbounded => true end &&
  match hi with Included e => bleb first e | Excluded e => bltb first e | Unbounded => true end.

(** The entries of the tables whose span meets the range, cut to the range. *)
Fixpoint scan_tables (readers : gmap Z SSTableReader) (lo hi : Bound) (ms : list SSTableMeta) : result (list (list lsm_entry)) :=
  match ms with
  | [] => Ok []
  | m :: rest =>
      if negb (span_overlaps_range (first_key m) (last_key m) lo hi) then scan_tables readers lo hi rest else
      match readers !! sst_id m with
      | None => scan_tables readers lo hi rest
      | Some r =>
          entries ← sst_iter r;
          more ← scan_tables readers lo hi rest;
          Ok (kv_scan lo hi entries :: more)
      end
  end.

Fixpoint live_entries (es : list lsm_entry) : list entry :=
  match es with
  | [] => []
  | (k, Some v) :: rest => (k, v) :: live_entries rest
  | (_, None) :: rest => live_entries rest
  end.

Fixpoint range_all (lo hi : Bound) (maps : list (list lsm_entry)) : result (list (list lsm_entry)) :=
  match maps with
  | [] => Ok []
  | es :: rest => r ← btree_range lo hi es; more ← range_all lo hi rest; Ok (r :: more)
  end.

Definition lsm_scan (lo hi : Bound) (t : LsmTree) : result (list entry) :=
  mem ← mem_range lo hi (memtable t);
  imms ← range_all lo hi (map frozen_entries (rev (immutable_memtables t)));
  l0 ← scan_tables (readers t) lo hi (rev (level 0 (level_state t)));
  deep ← scan_tables (readers t) lo hi (concat (tail (levels (level_state t))));
  merged ← ends (collect_all (mem :: imms ++ l0 ++ deep));
  Ok (live_entries merged).

(** ** Compaction *)

Definition overlaps (min_key max_key : bytes) (m : SSTableMeta) : bool :=
  bleb min_key (last_key m) && bleb (first_key m) max_key.

(** The entries and the identifiers of the tables that have a reader. *)
Fixpoint collect_inputs (readers : gmap Z SSTableReader) (ms : list SSTableMeta) : result (list (list lsm_entry) * list Z) :=
  match ms with
  | [] => Ok ([], [])
  | m :: rest =>
      match readers !! sst_id m with
      | None => collect_inputs readers rest
      | Some r =>
          entries ← sst_iter r;
          more ← collect_inputs readers rest;
          Ok (entries :: more.1, sst_id m :: more.2)
      end
  end.

Definition flush_batch (batch : list lsm_entry) : M LsmTree (option SSTableMeta) :=
  id ← alloc_id; write_table id batch.

Definition push_meta (metas : list SSTableMeta) (m : option SSTableMeta) : list SSTableMeta :=
  match m with Some m => metas ++ [m] | None => metas end.

(** The loop of [write_split_sstables] and the flush after it. *)
Fixpoint split_loop (entries : list lsm_entry) (is_bottom : bool) (batch : list lsm_entry) (size : Z) (metas : list SSTableMeta)
    : M LsmTree (list SSTableMeta) :=
  match entries with
  | [] =>
      match batch with
      | [] => mret metas
      | _ => m ← flush_batch batch; mret (push_meta metas m)
      end
  | (key, value) :: rest =>
      if is_bottom && match value with None => true | Some _ => false end then split_loop rest is_bottom batch size metas else
      size ← pure (arith in_u64 (size + (len key + value_len value + 4)));
      if TARGET_SSTABLE_SIZE_BYTES <=? size then
        m ← flush_batch (batch ++ [(key, value)]);
        split_loop rest is_bottom [] 0 (push_meta metas m)
      else split_loop rest is_bottom (batch ++ [(key, value)]) size metas
  end.

Definition write_split_sstables (entries : list lsm_entry) (is_bottom : bool) : M LsmTree (list SSTableMeta) :=
  split_loop entries is_bottom [] 0 [].

Definition log_dels (ids : list Z) (manifest : bytes) : bytes := fold_left (fun b id => log_del id b) ids manifest.
Definition log_adds (level : nat) (ms : list SSTableMeta) (manifest : bytes) : bytes :=
  fold_left (fun b m => log_add level m b) ms manifest.

Definition remove_ids {V} (ids : list Z) (m : gmap Z V) : gmap Z V := fold_left (fun m id => delete id m) ids m.

Fixpoint open_readers (ms : list SSTableMeta) : M LsmTree unit :=
  match ms with
  | [] => mret tt
  | m :: rest =>
      r ← open_table (sst_id m);
      modify (fun t => set_readers (<[sst_id m := r]> (readers t)) t);;
      open_readers rest
  end.

(** The manifest, the readers and the files after a merge. *)
Definition swap_tables (target : nat) (input_ids : list Z) (new_metas : list SSTableMeta) : M LsmTree unit :=
  modify (fun t => set_manifest (log_adds target new_metas (log_dels input_ids (manifest t))) t);;
  modify (fun t => set_readers (remove_ids input_ids (readers t)) t);;
  open_readers new_metas;;
  modify (fun t => set_files (remove_ids input_ids (files t)) t).

(** The part both compactions share: the tables of [ms], newest first, are
    merged into new tables of the target level. *)
Definition merge_tables (target : nat) (ms : list SSTableMeta) (is_bottom : bool) : M LsmTree (list SSTableMeta) :=
  rs ← gets readers;
  inputs ← pure (collect_inputs rs ms);
  merged ← pure (ends (collect_all inputs.1));
  new_metas ← write_split_sstables merged is_bottom;
  swap_tables target inputs.2 new_metas;;
  mret new_metas.

Definition insert_meta (l : list SSTableMeta) (m : SSTableMeta) : list SSTableMeta :=
  let pos := partition_point (fun x => bltb (first_key x) (first_key m)) l in
  take pos l ++ m :: drop pos l.

Definition is_bottom_level (n : nat) (st : LevelState) : bool :=
  forallb (fun l => match level l st with [] => true | _ => false end) (seq (S n) (MAX_LEVEL_COUNT - S n)).

Definition span_min (k : bytes) (m : SSTableMeta) : bytes := if bltb (first_key m) k then first_key m else k.
Definition span_max (k : bytes) (m : SSTableMeta) : bytes := if bltb k (last_key m) then last_key m else k.

Definition compact_l0 : M LsmTree unit :=
  st ← gets level_state;
  match level 0 st with
  | [] => mret tt
  | m0 :: _ =>
      let min_key := fold_left span_min (level 0 st) (first_key m0) in
      let max_key := fold_left span_max (level 0 st) (last_key m0) in
      let overlapping := List.filter (overlaps min_key max_key) (level 1 st) in
      let remaining := List.filter (fun m => negb (overlaps min_key max_key m)) (level 1 st) in
      new_metas ← merge_tables 1 (rev (level 0 st) ++ overlapping) (is_bottom_level 1 st);
      modify (fun t => set_levels (set_level 1 (fold_left insert_meta new_metas remaining) (set_level 0 [] (level_state t))) t)
  end.

Definition compact_level (n : nat) : M LsmTree unit :=
  if negb ((1 <=? n)%nat && (n <? MAX_LEVEL_COUNT - 1)%nat) then pure Panic else
  st ← gets level_state;
  match level n st with
  | [] => mret tt
  | picked :: _ =>
      let target := S n in
      let overlapping := List.filter (overlaps (first_key picked) (last_key picked)) (level target st) in
      let remaining := List.filter (fun m => negb (overlaps (first_key picked) (last_key picked) m)) (level target st) in
      new_metas ← merge_tables target (picked :: overlapping) (is_bottom_level target st);
      modify (fun t => let st := set_level n (drop_id (sst_id picked) (level n (level_state t))) (level_state t) in
                       set_levels (set_level target (fold_left insert_meta new_metas remaining) st) t)
  end.

Fixpoint times_ratio (n : nat) (limit : Z) : result Z :=
  match n with O => Ok limit | S n => limit ← arith in_u64 (limit * LEVEL_SIZE_RATIO); times_ratio n limit end.

Definition level_size_limit (n : nat) (memtable_size_limit : Z) : result Z :=
  if (n <? 1)%nat then Panic else
  l1_limit ← arith in_u64 (MAX_L0_SSTABLE_COUNT * memtable_size_limit);
  times_ratio (n - 1) l1_limit.

Fixpoint cascade (ns : list nat) : M LsmTree unit :=
  match ns with
  | [] => mret tt
  | n :: rest =>
      t ← gets id;
      limit ← pure (level_size_limit n (memtable_size_limit t));
      size ← pure (level_size n (level_state t));
      (if limit <? size then compact_level n else mret tt);;
      cascade rest
  end.

Definition maybe_compact : M LsmTree unit :=
  st ← gets level_state;
  (if MAX_L0_SSTABLE_COUNT <=? len (level 0 st) then compact_l0 else mret tt);;
  cascade (seq 1 (MAX_LEVEL_COUNT - 2)).

(** ** Flushing *)

(** The swap under the lock of the memtables. *)
Definition flush_freeze (force : bool) : M LsmTree (option FrozenMemtable) :=
  t ← gets id;
  if len (mem_entries (memtable t)) =? 0 then mret None else
  if negb force && (size_bytes (memtable t) <? memtable_size_limit t) then mret None else
  (* the identifier of the push that follows names the frozen map *)
  let frozen := mkFrozen (next_sst_id (level_state t)) (mem_entries (memtable t)) in
  modify (set_memtable mem_new);;
  modify (fun t => set_immutables (immutable_memtables t ++ [frozen]) t);;
  alloc_id;;
  mret (Some frozen).

(** The table and its line in the manifest, without that lock. *)
Definition flush_write (frozen : FrozenMemtable) : M LsmTree (option (SSTableMeta * SSTableReader)) :=
  m ← write_table (arc frozen) (frozen_entries frozen);
  match m with
  | None => mret None
  | Some m =>
      modify (fun t => set_manifest (log_add 0 m (manifest t)) t);;
      r ← open_table (sst_id m);
      mret (Some (m, r))
  end.

(** Publishing the table and retiring the frozen memtable, under the lock. *)
Definition flush_publish (frozen : FrozenMemtable) (table : option (SSTableMeta * SSTableReader)) : M LsmTree unit :=
  match table with
  | None => mret tt
  | Some (m, r) =>
      modify (fun t => set_readers (<[sst_id m := r]> (readers t)) t);;
      modify (fun t => set_levels (set_level 0 (level 0 (level_state t) ++ [m]) (level_state t)) t);;
      maybe_compact
  end;;
  modify (fun t => set_immutables (List.filter (fun f => negb (arc f =? arc frozen)) (immutable_memtables t)) t).

Definition lsm_flush (force : bool) : M LsmTree unit :=
  frozen ← flush_freeze force;
  match frozen with
  | None => mret tt
  | Some frozen => table ← flush_write frozen; flush_publish frozen table
  end.

Definition flush_memtable : M LsmTree unit := lsm_flush true.

(** ** Writing *)

(** The part of [put] under the lock: whether the memtable is over its limit. *)
Definition put_entry (key value : bytes) : M LsmTree bool :=
  t ← gets id;
  m ← pure (mem_put key value (memtable t));
  modify (set_memtable m);;
  mret (memtable_size_limit t <=? size_bytes m).

Definition lsm_put (key value : bytes) : M LsmTree unit :=
  over_limit ← put_entry key value;
  if over_limit : bool then lsm_flush false else mret tt.

Definition delete_entry (key : bytes) : M LsmTree bool :=
  t ← gets id;
  m ← pure (mem_delete key (memtable t));
  modify (set_memtable m);;
  mret (memtable_size_limit t <=? size_bytes m).

Definition lsm_delete (key : bytes) : M LsmTree unit :=
  over_limit ← delete_entry key;
  if over_limit : bool then lsm_flush false else mret tt.

(** ** Opening *)

Fixpoint open_existing (files : gmap Z bytes) (ms : list SSTableMeta) (readers : gmap Z SSTableReader)
    : result (gmap Z SSTableReader) :=
  match ms with
  | [] => Ok readers
  | m :: rest =>
      match files !! sst_id m with
      | None => open_existing files rest readers
      | Some file => r ← sst_open crc32 file (sst_id m); open_existing files rest (<[sst_id m := r]> readers)
      end
  end.

Definition open_with_memtable_size (manifest : bytes) (files : gmap Z bytes) (memtable_size_limit : Z) : result LsmTree :=
  st ← manifest_open manifest;
  readers ← open_existing files (concat (levels st)) ∅;
  Ok (mkTree mem_new [] st readers manifest files memtable_size_limit).

Definition lsm_open (manifest : bytes) (files : gmap Z bytes) : result LsmTree :=
  open_with_memtable_size manifest files DEFAULT_MEMTABLE_SIZE_BYTES.
End lsm.
