(* ===== verification/LsmView.v ===== *)
(** What an LSM tree holds: the value of each key as its sources give it, newest
    first, and the proofs that point reads and range scans of LsmTree.v
    compute it. *)

From Stdlib Require Import ZArith Lia List Bool.
From S2P Require Import Prelude Common Engine Bloom Merge SsTable Manifest LsmTree.
From coqutil Require Import Byte Word.LittleEndianList.
From stdpp Require Import base gmap list strings sorting.
#[local] Open Scope Z_scope.

(** The first of two answers. *)
Definition orelse {A} (a b : option A) : option A := match a with Some _ => a | None => b end.

Lemma orelse_assoc {A} (a b c : option A) : orelse (orelse a b) c = orelse a (orelse b c).
Proof. by destruct a. Qed.

Lemma first_of_app {V} k (a b : list (list (bytes * V))) : first_of k (a ++ b) = orelse (first_of k a) (first_of k b).
Proof. induction a as [|l a IH]; [done|]. cbn [app first_of]. by destruct (kv_get k l). Qed.

Lemma first_of_singleton {V} k (l : list (bytes * V)) : first_of k [l] = kv_get k l.
Proof. cbn. by destruct (kv_get k l). Qed.

Lemma first_of_none {V} k (ls : list (list (bytes * V))) :
  first_of k ls = None <-> Forall (fun l => kv_get k l = None) ls.
Proof.
  induction ls as [|l ls IH]; cbn [first_of]; [by split|]. rewrite Forall_cons, <- IH. destruct (kv_get k l); naive_solver.
Qed.

(** ** Tables *)

(** The entries of the table of a metadata record. *)
Definition contents (rs : gmap Z SSTableReader) (m : SSTableMeta) : list lsm_entry :=
  match rs !! sst_id m with
  | Some r => match sst_iter r with Ok es => es | _ => [] end
  | None => []
  end.

(** What a level answers. *)
Definition view (rs : gmap Z SSTableReader) (ms : list SSTableMeta) (k : bytes) : option (option bytes) :=
  first_of k (map (contents rs) ms).

Section view.
Context (crc32 : bytes -> Z).

(** A metadata record of the levels has a reader of the table it describes. *)
Record table_ok (rs : gmap Z SSTableReader) (m : SSTableMeta) : Prop := {
  tbl_reader : exists r, rs !! sst_id m = Some r /\ reads crc32 r (contents rs m) /\
                 first_key (meta r) = first_key m /\ last_key (meta r) = last_key m;
  tbl_some : contents rs m <> [];
  tbl_sorted : keys_sorted (contents rs m);
  tbl_fits : Forall entry_fits (contents rs m);
  tbl_size : 0 <= file_size m < 2 ^ 34
}.

(** A level below the first: its tables stand in key order and do not overlap. *)
Definition in_order (ms : list SSTableMeta) : Prop := StronglySorted (fun a b => blt (last_key a) (first_key b)) ms.

Lemma tbl_span rs m k v : table_ok rs m -> (k, v) ∈ contents rs m -> ble (first_key m) k /\ ble k (last_key m).
Proof.
  intros [(r & _ & R & Ef & El) _ K _ _] H. rewrite <- Ef, <- El, (reads_first _ _ _ R), (reads_last _ _ _ R).
  split; [by apply (block_key_min _ (k, v))|by apply (last_key_max _ (k, v))].
Qed.

Lemma tbl_get_span rs m k v : table_ok rs m -> kv_get k (contents rs m) = Some v -> ble (first_key m) k /\ ble k (last_key m).
Proof. intros T G. apply kv_get_elem in G. by eapply tbl_span. Qed.

Lemma tbl_first rs m : table_ok rs m -> exists v, (first_key m, v) ∈ contents rs m.
Proof.
  intros [(r & _ & R & Ef & El) Ne K _ _]. rewrite <- Ef, (reads_first _ _ _ R). by apply block_key_in.
Qed.

Lemma tbl_last rs m : table_ok rs m -> exists v, (last_key m, v) ∈ contents rs m.
Proof.
  intros [(r & _ & R & Ef & El) Ne K _ _]. rewrite <- El, (reads_last _ _ _ R).
  destruct (last (contents rs m)) as [[k v]|] eqn:E; [|by apply last_None in E]. exists v. by apply last_Some_elem_of in E.
Qed.

Lemma tbl_first_last rs m : table_ok rs m -> ble (first_key m) (last_key m).
Proof. intros T. destruct (tbl_first rs m T) as [v H]. by apply (tbl_span rs m _ v T). Qed.

Lemma probe_ok rs k m : table_ok rs m -> probe crc32 rs k m = Ok (kv_get k (contents rs m)).
Proof.
  intros [(r & L & R & _) _ _ _ _]. unfold probe. rewrite L. destruct (reads_may _ _ _ R k) as (b & -> & Hb).
  cbn [mbind outcome_bind]. destruct b; cbn [negb]; [|by rewrite Hb]. rewrite (reads_get _ _ _ R). done.
Qed.

Lemma probe_all_ok rs k ms : Forall (table_ok rs) ms -> probe_all crc32 rs k ms = Ok (view rs ms k).
Proof.
  unfold view. induction 1 as [|m ms T F IH]; [done|]. cbn [probe_all map first_of]. rewrite probe_ok by done.
  cbn [mbind outcome_bind]. by destruct (kv_get k (contents rs m)).
Qed.

(** Of the tables of a level only the one at the partition point can answer. *)
Lemma probe_level_ok rs k ms :
  Forall (table_ok rs) ms -> in_order ms -> probe_level crc32 rs k ms = Ok (view rs ms k).
Proof.
  unfold view, probe_level. induction ms as [|m ms IH]; intros F D; [done|].
  apply Forall_cons_1 in F as [T F]. apply StronglySorted_inv in D as [D Dm]. cbn [partition_point map first_of].
  destruct (bltb (last_key m) k) eqn:B.
  - apply bltb_spec in B. cbn [lookup list_lookup]. replace (kv_get k (contents rs m)) with (@None (option bytes)); [by apply IH|].
    symmetry. apply kv_get_none. intros [k' v] He <-. apply (tbl_span rs m _ v T) in He as [_ He].
    apply ble_not_lt in He. by apply He.
  - cbn [lookup list_lookup]. assert (Hle : ble k (last_key m)).
    { apply ble_not_lt. intros X. apply bltb_spec in X. congruence. }
    assert (Rest : first_of k (map (contents rs) ms) = None).
    { apply first_of_none, Forall_fmap, Forall_forall. intros m' Hm. cbn. apply kv_get_none. intros [k' v] He <-.
      rewrite Forall_forall in F, Dm. apply (tbl_span rs m' _ v (F _ Hm)) in He as [He _]. apply Dm in Hm.
      apply ble_not_lt in Hle. apply Hle. cbn. by eapply blt_ble_trans. }
    destruct (bltb k (first_key m)) eqn:Bf.
    + apply bltb_spec in Bf. rewrite Rest. replace (kv_get k (contents rs m)) with (@None (option bytes)); [done|].
      symmetry. apply kv_get_none. intros [k' v] He <-. apply (tbl_span rs m _ v T) in He as [He _].
      apply ble_not_lt in He. by apply He.
    + rewrite probe_ok, Rest by done. by destruct (kv_get k (contents rs m)).
Qed.

Lemma probe_levels_ok rs k ls :
  Forall (table_ok rs) (concat ls) -> Forall in_order ls ->
  probe_levels crc32 rs k ls = Ok (view rs (concat ls) k).
Proof.
  induction ls as [|ms ls IH]; intros F D; [done|]. cbn [concat probe_levels] in *. apply Forall_app in F as [Fm F].
  apply Forall_cons_1 in D as [Dm D]. rewrite probe_level_ok, IH by done. cbn [mbind outcome_bind].
  unfold view. rewrite map_app, first_of_app. by destruct (first_of k (map (contents rs) ms)).
Qed.

(** ** Sources *)

Definition mem_sources (t : LsmTree) : list (list lsm_entry) :=
  mem_entries (memtable t) :: map frozen_entries (rev (immutable_memtables t)).

(** Every table, newest first. *)
Definition tables (t : LsmTree) : list SSTableMeta :=
  rev (level 0 (level_state t)) ++ concat (tail (levels (level_state t))).

Definition sources (t : LsmTree) : list (list lsm_entry) := mem_sources t ++ map (contents (readers t)) (tables t).

(** A tombstone is no value. *)
Definition live (a : option (option bytes)) : option bytes := match a with Some v => v | None => None end.

(** The value of a key. *)
Definition value_of (t : LsmTree) (k : bytes) : option bytes := live (first_of k (sources t)).

(** The facts about the sources that scans rely on; point reads rely on the
    order of the levels too. *)
Record scannable (t : LsmTree) : Prop := {
  rd_mem : keys_sorted (mem_entries (memtable t));
  rd_imm : Forall (fun f => keys_sorted (frozen_entries f)) (immutable_memtables t);
  rd_tables : Forall (table_ok (readers t)) (concat (levels (level_state t)))
}.

Lemma tables_in t m : m ∈ tables t <-> m ∈ concat (levels (level_state t)).
Proof.
  unfold tables, level. destruct (levels (level_state t)) as [|l0 ls]; [done|]. cbn [nth tail concat].
  rewrite !elem_of_app, !list_elem_of_In, <- in_rev. done.
Qed.

Lemma tables_ok t : scannable t -> Forall (table_ok (readers t)) (tables t).
Proof.
  intros R. apply Forall_forall. intros m Hm. apply tables_in in Hm. pose proof (rd_tables t R) as F.
  rewrite Forall_forall in F. by apply F.
Qed.

Lemma lsm_get_ok t k : scannable t -> Forall in_order (tail (levels (level_state t))) -> lsm_get crc32 k t = Ok (value_of t k).
Proof.
  intros R O. pose proof (tables_ok t R) as F. unfold lsm_get, get_memtables, value_of, sources, mem_sources, mem_get.
  rewrite first_of_app. cbn [first_of]. destruct (kv_get k (mem_entries (memtable t))); [done|].
  destruct (first_of k (map frozen_entries (rev (immutable_memtables t)))); [done|]. cbn [orelse].
  unfold tables in *. apply Forall_app in F as [F0 Fd]. unfold get_tables. rewrite probe_all_ok by done.
  cbn [mbind outcome_bind]. rewrite map_app, first_of_app. unfold view at 1.
  destruct (first_of k (map (contents (readers t)) (rev (level 0 (level_state t))))); [done|].
  rewrite probe_levels_ok by done. cbn [mbind outcome_bind orelse].
  unfold view. by destruct (first_of k _).
Qed.

(** ** Scans *)

Definition in_bounds (lo hi : Bound) (k : bytes) : bool := above lo k && below hi k.

Lemma first_of_scan {V} lo hi k (ls : list (list (bytes * V))) :
  first_of k (map (kv_scan lo hi) ls) = if in_bounds lo hi k then first_of k ls else None.
Proof.
  induction ls as [|l ls IH]; cbn [map first_of]; [by destruct (in_bounds _ _ _)|]. rewrite IH, kv_get_scan.
  unfold in_range_get, in_bounds. by destruct (above lo k && below hi k); [|].
Qed.

(** A table whose span misses the range has nothing in it. *)
Lemma span_prune rs m lo hi :
  table_ok rs m -> span_overlaps_range (first_key m) (last_key m) lo hi = false -> kv_scan lo hi (contents rs m) = [].
Proof.
  intros T H. destruct (kv_scan lo hi (contents rs m)) as [|[k v] l] eqn:E; [done|exfalso].
  assert (In : (k, v) ∈ kv_scan lo hi (contents rs m)) by (rewrite E; left).
  unfold kv_scan in In. rewrite list_elem_of_In, filter_In, <- list_elem_of_In in In. destruct In as [He Hb].
  apply (tbl_span rs m k v T) in He as [Hf Hl]. cbn [fst] in Hb. apply andb_true_iff in Hb as [Ha Hb].
  unfold span_overlaps_range in H. apply andb_false_iff in H as [H|H].
  - destruct lo as [s|s|]; cbn in Ha; [| |done]; apply bltb_spec in Ha || apply bleb_spec in Ha.
    + assert (X : ble s (last_key m)) by (apply ble_not_lt; intros X; apply ble_not_lt in Ha; apply Ha; by eapply ble_blt_trans).
      apply bleb_spec in X. congruence.
    + assert (X : blt s (last_key m)) by (by eapply blt_ble_trans). apply bltb_spec in X. congruence.
  - destruct hi as [e|e|]; cbn in Hb; [| |done]; apply bltb_spec in Hb || apply bleb_spec in Hb.
    + assert (X : ble (first_key m) e) by (apply ble_not_lt; intros X; apply ble_not_lt in Hb; apply Hb; by eapply blt_ble_trans).
      apply bleb_spec in X. congruence.
    + assert (X : blt (first_key m) e) by (by eapply ble_blt_trans). apply bltb_spec in X. congruence.
Qed.

Lemma scan_tables_ok rs lo hi ms :
  Forall (table_ok rs) ms ->
  exists ess, scan_tables rs lo hi ms = Ok ess /\ Forall keys_sorted ess /\
    forall k, first_of k ess = if in_bounds lo hi k then view rs ms k else None.
Proof.
  induction 1 as [|m ms T F (ess & E & K & G)]; cbn [scan_tables].
  { exists []. split_and!; [done|constructor|]. intros k. by destruct (in_bounds _ _ _). }
  pose proof T as [(r & L & R & _) _ Ks _ _]. unfold view in *. cbn [map first_of].
  destruct (span_overlaps_range _ _ lo hi) eqn:O; cbn [negb].
  - rewrite L, (reads_iter _ _ _ R), E. cbn [mbind outcome_bind]. eexists. split; [done|]. split.
    + constructor; [by apply keys_sorted_scan|done].
    + intros k. cbn [first_of]. rewrite kv_get_scan, G. unfold in_range_get, in_bounds. by destruct (above lo k && below hi k).
  - exists ess. split_and!; [done|done|]. intros k. rewrite G. pose proof (kv_get_scan lo hi k (contents rs m)) as X.
    rewrite (span_prune rs m lo hi T O) in X. cbn in X. unfold in_range_get in X. unfold in_bounds.
    destruct (above lo k && below hi k); [|done]. by rewrite <- X.
Qed.

Lemma range_all_ok lo hi maps :
  proper_range lo hi = true -> range_all lo hi maps = Ok (map (kv_scan lo hi) maps).
Proof.
  intros P. induction maps as [|es maps IH]; [done|]. cbn [range_all map]. unfold btree_range. rewrite P, IH. done.
Qed.

Lemma live_entries_in es k v : (k, v) ∈ live_entries es <-> (k, Some v) ∈ es.
Proof.
  induction es as [|[k' [v'|]] es IH]; cbn [live_entries]; rewrite ?elem_of_cons, ?IH; [by rewrite !elem_of_nil| |]; naive_solver.
Qed.

Lemma live_entries_ok es :
  keys_sorted es -> keys_sorted (live_entries es) /\ forall k, kv_get k (live_entries es) = live (kv_get k es).
Proof.
  induction es as [|[k' o] es IH]; intros K; [by split; [constructor|]|]. apply StronglySorted_inv in K as [K F].
  destruct (IH K) as [K' G]. destruct o as [v'|]; cbn [live_entries].
  - split.
    + constructor; [done|]. apply Forall_forall. intros [k v] He. apply live_entries_in in He. rewrite Forall_forall in F. by apply F in He.
    + intros k. cbn [kv_get]. by case_bool_decide.
  - split; [done|]. intros k. rewrite G. cbn [kv_get]. case_bool_decide as B; [|done]. subst k'.
    by rewrite (kv_get_above k es).
Qed.

(** A scan gives, in key order, the keys of the range that have a value. *)
Lemma lsm_scan_ok t lo hi :
  scannable t -> proper_range lo hi = true ->
  exists es, lsm_scan lo hi t = Ok es /\ keys_sorted es /\
    forall k, kv_get k es = if in_bounds lo hi k then value_of t k else None.
Proof.
  intros R P. pose proof (tables_ok t R) as F. unfold tables in F. apply Forall_app in F as [F0 Fd].
  unfold lsm_scan, mem_range, btree_range. rewrite P, range_all_ok by done. cbn [mbind outcome_bind].
  destruct (scan_tables_ok _ lo hi _ F0) as (l0 & -> & K0 & G0). cbn [mbind outcome_bind].
  destruct (scan_tables_ok _ lo hi _ Fd) as (ld & -> & Kd & Gd). cbn [mbind outcome_bind].
  set (mems := map frozen_entries (rev (immutable_memtables t))).
  destruct (collect_all_ok (kv_scan lo hi (mem_entries (memtable t)) :: map (kv_scan lo hi) mems ++ l0 ++ ld)) as (es & -> & Ks & G).
  { constructor; [apply keys_sorted_scan, R|]. apply Forall_app. split; [|by apply Forall_app].
    apply Forall_fmap, Forall_fmap, Forall_forall. intros f Hf. apply keys_sorted_scan. pose proof (rd_imm t R) as I.
    rewrite Forall_forall in I. apply I. rewrite list_elem_of_In in Hf |- *. by apply in_rev in Hf. }
  cbn [ends mbind outcome_bind]. destruct (live_entries_ok es Ks) as [Kl Gl]. exists (live_entries es).
  split; [done|]. split; [done|]. intros k. rewrite Gl, G.
  unfold value_of, sources, mem_sources, tables. fold mems.
  change (kv_scan lo hi (mem_entries (memtable t)) :: map (kv_scan lo hi) mems ++ l0 ++ ld)
    with (map (kv_scan lo hi) (mem_entries (memtable t) :: mems) ++ l0 ++ ld).
  rewrite !first_of_app, first_of_scan, G0, Gd, map_app, first_of_app. fold (view (readers t) (rev (level 0 (level_state t))) k).
  fold (view (readers t) (concat (tail (levels (level_state t)))) k). by destruct (in_bounds lo hi k).
Qed.
End view.
