(* ===== verification/LsmCompact.v ===== *)
(** Compaction: merging tables into a level keeps the level in key order and
    keeps what the tree holds (the operations of
    crates/idb-storage/src/engines/lsm/compaction.rs, defined in LsmTree.v). *)

From Stdlib Require Import ZArith Lia List Bool.
From S2P Require Import Prelude Common Engine Bloom Merge SsTable Manifest LsmTree LsmView.
From coqutil Require Import Byte Word.LittleEndianList.
From stdpp Require Import base gmap list strings sorting.
#[local] Open Scope Z_scope.

(** ** Levels in key order *)

Section levels.
Context (crc32 : bytes -> Z).
Implicit Types (rs : gmap Z SSTableReader) (ms : list SSTableMeta) (m : SSTableMeta).

(** Tables that have the key have the same entry for it. *)
Definition agree rs (k : bytes) ms : Prop :=
  forall m1 m2 v1 v2, m1 ∈ ms -> m2 ∈ ms -> kv_get k (contents rs m1) = Some v1 -> kv_get k (contents rs m2) = Some v2 -> v1 = v2.

Lemma view_some rs ms k v : view rs ms k = Some v -> exists m, m ∈ ms /\ kv_get k (contents rs m) = Some v.
Proof.
  unfold view. induction ms as [|m ms IH]; [done|]. cbn [map first_of]. destruct (kv_get k (contents rs m)) as [w|] eqn:G.
  - intros [= ->]. exists m. split; [left|done].
  - intros H. destruct (IH H) as (m' & Hm & G'). exists m'. split; [by right|done].
Qed.

Lemma view_none rs ms k : view rs ms k = None <-> forall m, m ∈ ms -> kv_get k (contents rs m) = None.
Proof. unfold view. rewrite first_of_none, Forall_fmap, Forall_forall. done. Qed.

Lemma view_agree rs k ms ms' :
  agree rs k ms -> (forall m, m ∈ ms <-> m ∈ ms') -> view rs ms k = view rs ms' k.
Proof.
  intros A E. destruct (view rs ms k) as [v|] eqn:V.
  - apply view_some in V as (m & Hm & G). destruct (view rs ms' k) as [v'|] eqn:V'.
    + apply view_some in V' as (m' & Hm' & G'). f_equal. apply E in Hm'. exact (A m m' v v' Hm Hm' G G').
    + rewrite view_none in V'. apply E, V' in Hm. congruence.
  - rewrite view_none in V. symmetry. apply view_none. intros m Hm. by apply V, E.
Qed.

Lemma disjoint_agree rs k ms : Forall (table_ok crc32 rs) ms -> in_order ms -> agree rs k ms.
Proof.
  intros F D m1 m2 v1 v2 H1 H2 G1 G2. rewrite Forall_forall in F.
  apply list_elem_of_lookup_1 in H1 as [i Li]. apply list_elem_of_lookup_1 in H2 as [j Lj].
  assert (T1 : table_ok crc32 rs m1) by (apply F; by eapply list_elem_of_lookup_2).
  assert (T2 : table_ok crc32 rs m2) by (apply F; by eapply list_elem_of_lookup_2).
  pose proof (tbl_get_span _ _ _ _ _ T1 G1) as [A1 B1]. pose proof (tbl_get_span _ _ _ _ _ T2 G2) as [A2 B2].
  destruct (Nat.lt_total i j) as [H|[->|H]]; [exfalso| |exfalso].
  - pose proof (sorted_lookup _ _ _ _ _ _ D Li Lj H) as X. cbn in X. apply ble_not_lt in B1. apply B1. by eapply blt_ble_trans.
  - congruence.
  - pose proof (sorted_lookup _ _ _ _ _ _ D Lj Li H) as X. cbn in X. apply ble_not_lt in B2. apply B2. by eapply blt_ble_trans.
Qed.

(** Two tables with no key between them in common. *)
Definition apart m1 m2 : Prop := blt (last_key m1) (first_key m2) \/ blt (last_key m2) (first_key m1).
Definition spans m : Prop := ble (first_key m) (last_key m).

Lemma insert_meta_cons x l m :
  insert_meta (x :: l) m = if bltb (first_key x) (first_key m) then x :: insert_meta l m else m :: x :: l.
Proof. unfold insert_meta. cbn [partition_point]. by destruct (bltb (first_key x) (first_key m)). Qed.

Lemma insert_meta_perm l m : insert_meta l m ≡ₚ m :: l.
Proof.
  unfold insert_meta. set (p := partition_point _ l). rewrite <- Permutation_middle. by rewrite take_drop.
Qed.

Lemma insert_meta_disjoint l m :
  in_order l -> spans m -> Forall spans l -> Forall (fun x => apart x m) l -> in_order (insert_meta l m).
Proof.
  intros D Sm. induction l as [|x l IH]; intros Fs Fa; [by repeat constructor|]. rewrite insert_meta_cons.
  apply StronglySorted_inv in D as [D Dx]. apply Forall_cons_1 in Fs as [Sx Fs]. apply Forall_cons_1 in Fa as [Ax Fa].
  unfold spans in *. destruct (bltb (first_key x) (first_key m)) eqn:B.
  - apply bltb_spec in B. assert (Hx : blt (last_key x) (first_key m)).
    { destruct Ax as [A|A]; [done|exfalso]. apply (blt_irrefl (first_key m)). eapply ble_blt_trans; [exact Sm|]. by eapply blt_trans. }
    constructor; [by apply IH|]. apply Forall_forall. intros y Hy. rewrite insert_meta_perm in Hy.
    apply elem_of_cons in Hy as [->|Hy]; [done|]. rewrite Forall_forall in Dx. by apply Dx.
  - assert (B' : ble (first_key m) (first_key x)) by (apply ble_not_lt; intros X; apply bltb_spec in X; congruence).
    assert (Hx : blt (last_key m) (first_key x)).
    { destruct Ax as [A|A]; [exfalso|done]. apply (blt_irrefl (last_key x)). eapply blt_ble_trans; [exact A|].
      apply ble_not_lt. intros X. apply ble_not_lt in B'. apply B'. by eapply ble_blt_trans. }
    constructor; [by constructor|]. constructor; [done|]. eapply Forall_impl; [exact Dx|]. intros y Hy. cbn in Hy |- *.
    eapply blt_trans; [exact Hx|]. by eapply ble_blt_trans.
Qed.

Lemma insert_metas_ok ns l :
  in_order l -> in_order ns -> Forall spans l -> Forall spans ns -> Forall (fun n => Forall (fun x => apart x n) l) ns ->
  in_order (fold_left insert_meta ns l) /\ fold_left insert_meta ns l ≡ₚ ns ++ l.
Proof.
  intros D Dn Sl Sn. revert l D Sl. induction ns as [|n ns IH]; intros l D Sl A; [done|]. cbn [fold_left app].
  apply StronglySorted_inv in Dn as [Dn Dx]. apply Forall_cons_1 in Sn as [Hn Sn]. apply Forall_cons_1 in A as [An A].
  destruct (IH Dn Sn (insert_meta l n)) as [D' P].
  - by apply insert_meta_disjoint.
  - rewrite insert_meta_perm. by constructor.
  - apply Forall_forall. intros n' Hn'. rewrite insert_meta_perm. rewrite Forall_forall in A, Dx.
    constructor; [left; by apply Dx|by apply A].
  - split; [done|]. rewrite P, insert_meta_perm. by rewrite Permutation_middle.
Qed.

(** Tables of consecutive parts of a sorted run are in key order. *)
Lemma parts_disjoint rs ms :
  Forall (table_ok crc32 rs) ms -> keys_sorted (concat (map (contents rs) ms)) -> in_order ms.
Proof.
  induction 1 as [|m ms T F IH]; intros K; [constructor|]. cbn [map concat] in K. apply StronglySorted_app in K as (S1 & _ & K).
  constructor; [by apply IH|]. apply Forall_forall. intros m' Hm. destruct (tbl_last _ _ _ T) as [v Hv].
  rewrite Forall_forall in F. destruct (tbl_first _ _ _ (F _ Hm)) as [v' Hv'].
  apply (S1 (last_key m, v) (first_key m', v') Hv). rewrite list_elem_of_In, in_concat. exists (contents rs m').
  split; [apply in_map, list_elem_of_In, Hm|by apply list_elem_of_In].
Qed.

Lemma first_of_concat {V} k (ls : list (list (bytes * V))) : kv_get k (concat ls) = first_of k ls.
Proof. induction ls as [|l ls IH]; [done|]. cbn [concat first_of]. by rewrite kv_get_app, IH. Qed.

Lemma kv_get_in {V} (l : list (bytes * V)) k v : keys_sorted l -> (k, v) ∈ l -> kv_get k l = Some v.
Proof.
  induction l as [|[k' v'] l IH]; intros K H; [by apply not_elem_of_nil in H|]. apply StronglySorted_inv in K as [K F].
  cbn [kv_get]. apply elem_of_cons in H as [[= -> ->]|H]; [by rewrite bool_decide_true|].
  case_bool_decide as E; [|by apply IH]. subst k'. rewrite Forall_forall in F. apply F in H. by apply blt_irrefl in H.
Qed.

(** What a merge keeps: at the bottom level, no tombstones. *)
Definition kept (is_bottom : bool) (es : list lsm_entry) : list lsm_entry :=
  List.filter (fun e => negb (is_bottom && match e.2 with None => true | Some _ => false end)) es.

Lemma kept_get is_bottom es k :
  keys_sorted es -> kv_get k (kept is_bottom es) = kv_get k es \/
  (is_bottom = true /\ kv_get k es = Some None /\ kv_get k (kept is_bottom es) = None).
Proof.
  unfold kept. induction es as [|[k' o] es IH]; intros K; [by left|]. apply StronglySorted_inv in K as [K F].
  cbn [List.filter snd kv_get]. destruct (is_bottom && _) eqn:B; cbn [negb kv_get].
  - case_bool_decide as E; [|by apply IH]. subst k'. right. destruct is_bottom; [|done]. destruct o; [done|].
    split_and!; [done|done|]. apply kv_get_above. apply Forall_forall. intros e He. rewrite list_elem_of_In, filter_In, <- list_elem_of_In in He.
    rewrite Forall_forall in F. exact (F e (proj1 He)).
  - case_bool_decide; [by left|by apply IH].
Qed.

(** ** Merging into a level *)

Context (rs : gmap Z SSTableReader) (upper target : list SSTableMeta) (min_key max_key : bytes).
Context (Hu : Forall (table_ok crc32 rs) upper) (Ht : Forall (table_ok crc32 rs) target) (Hd : in_order target).
Context (Hull : Forall (fun m => ble min_key (first_key m) /\ ble (last_key m) max_key) upper).

Definition overlapping : list SSTableMeta := List.filter (overlaps min_key max_key) target.
Definition remaining_tables : list SSTableMeta := List.filter (fun m => negb (overlaps min_key max_key m)) target.

Lemma in_overlapping m : m ∈ overlapping <-> m ∈ target /\ overlaps min_key max_key m = true.
Proof. unfold overlapping. by rewrite !list_elem_of_In, filter_In. Qed.
Lemma in_remaining m : m ∈ remaining_tables <-> m ∈ target /\ overlaps min_key max_key m = false.
Proof. unfold remaining_tables. by rewrite !list_elem_of_In, filter_In, negb_true_iff. Qed.

(** A table that stays lies on one side of every key that is merged. *)
Lemma remaining_apart r :
  r ∈ remaining_tables ->
  (forall m k v, m ∈ upper ++ overlapping -> (k, v) ∈ contents rs m -> blt (last_key r) k) \/
  (forall m k v, m ∈ upper ++ overlapping -> (k, v) ∈ contents rs m -> blt k (first_key r)).
Proof.
  intros Hr. apply in_remaining in Hr as [Hr Ho]. pose proof Hu as Fu. pose proof Ht as Ft. pose proof Hull as Fh.
  rewrite Forall_forall in Fu, Ft, Fh. pose proof (tbl_first_last _ _ _ (Ft _ Hr)) as Sr.
  assert (Dis : forall o, o ∈ target -> o <> r -> apart o r).
  { intros o Hot Ne. apply list_elem_of_lookup_1 in Hot as [i Li]. apply list_elem_of_lookup_1 in Hr as [j Lj].
    destruct (Nat.lt_total i j) as [H|[->|H]]; [left|congruence|right]; by eapply (sorted_lookup _ _ _ _ _ _ Hd). }
  unfold overlaps in Ho. apply andb_false_iff in Ho as [Ho|Ho].
  - left. assert (Lo : blt (last_key r) min_key) by (apply blt_not_ble; intros X; apply bleb_spec in X; congruence).
    intros m k v Hm Hk. apply elem_of_app in Hm as [Hm|Hm].
    + apply (tbl_span _ _ _ _ _ (Fu _ Hm)) in Hk as [Hk _]. destruct (Fh _ Hm) as [Hl _].
      eapply blt_ble_trans; [exact Lo|]. apply ble_not_lt. intros X. apply ble_not_lt in Hl. apply Hl. by eapply ble_blt_trans.
    + apply in_overlapping in Hm as [Hm Hov]. apply (tbl_span _ _ _ _ _ (Ft _ Hm)) in Hk as [Hk _].
      unfold overlaps in Hov. apply andb_true_iff in Hov as [Hov _]. apply bleb_spec in Hov.
      destruct (Dis m Hm) as [A|A].
      * intros ->. apply ble_not_lt in Hov. by apply Hov.
      * exfalso. apply ble_not_lt in Hov. apply Hov. eapply blt_trans; [exact A|]. by eapply ble_blt_trans.
      * by eapply blt_ble_trans.
  - right. assert (Hi : blt max_key (first_key r)) by (apply blt_not_ble; intros X; apply bleb_spec in X; congruence).
    intros m k v Hm Hk. apply elem_of_app in Hm as [Hm|Hm].
    + apply (tbl_span _ _ _ _ _ (Fu _ Hm)) in Hk as [_ Hk]. destruct (Fh _ Hm) as [_ Hl].
      eapply ble_blt_trans; [|exact Hi]. apply ble_not_lt. intros X. apply ble_not_lt in Hk. apply Hk. by eapply ble_blt_trans.
    + apply in_overlapping in Hm as [Hm Hov]. apply (tbl_span _ _ _ _ _ (Ft _ Hm)) in Hk as [_ Hk].
      unfold overlaps in Hov. apply andb_true_iff in Hov as [_ Hov]. apply bleb_spec in Hov.
      destruct (Dis m Hm) as [A|A].
      * intros ->. apply ble_not_lt in Hov. by apply Hov.
      * by eapply ble_blt_trans.
      * exfalso. apply ble_not_lt in Hov. apply Hov. eapply blt_trans; [exact Hi|]. by eapply ble_blt_trans.
Qed.

(** The tables after the merge: the new ones hold what is kept of the merged
    entries, the others are as before. *)
Context (rs' : gmap Z SSTableReader) (ns : list SSTableMeta) (is_bottom : bool) (es : list lsm_entry).
Context (Hs : keys_sorted es) (Hes : forall k, kv_get k es = first_of k (map (contents rs) (upper ++ overlapping))).
Context (Hn : Forall (table_ok crc32 rs') ns) (Hns : concat (map (contents rs') ns) = kept is_bottom es).
Context (Hr : forall m, m ∈ remaining_tables -> contents rs' m = contents rs m /\ table_ok crc32 rs' m).

Definition merged_level : list SSTableMeta := fold_left insert_meta ns remaining_tables.

Lemma merged_from k v : (k, v) ∈ es -> exists m, m ∈ upper ++ overlapping /\ kv_get k (contents rs m) = Some v.
Proof.
  intros H. destruct (kv_get k es) as [w|] eqn:G.
  - pose proof (kv_get_in _ _ _ Hs H) as G'. rewrite Hes in G'. by apply view_some in G'.
  - apply kv_get_key in H as [? H]. congruence.
Qed.

Lemma ns_apart n r : n ∈ ns -> r ∈ remaining_tables -> apart r n.
Proof.
  intros Hnn Hrr. pose proof Hn as F. rewrite Forall_forall in F.
  assert (In : forall k v, (k, v) ∈ contents rs' n -> exists m, m ∈ upper ++ overlapping /\ (k, v) ∈ contents rs m).
  { intros k v Hk. destruct (merged_from k v) as (m & Hm & G); [|exists m; split; [done|by apply kv_get_elem]].
    assert (X : (k, v) ∈ kept is_bottom es).
    { rewrite <- Hns, list_elem_of_In, in_concat. exists (contents rs' n). split; [by apply in_map, list_elem_of_In|by apply list_elem_of_In]. }
    unfold kept in X. rewrite list_elem_of_In, filter_In, <- list_elem_of_In in X. apply X. }
  destruct (tbl_first _ _ _ (F _ Hnn)) as [vf Hf]. destruct (tbl_last _ _ _ (F _ Hnn)) as [vl Hl].
  destruct (In _ _ Hf) as (mf & Hmf & Gf). destruct (In _ _ Hl) as (ml & Hml & Gl).
  destruct (remaining_apart r Hrr) as [A|A]; [left; exact (A _ _ _ Hmf Gf)|right; exact (A _ _ _ Hml Gl)].
Qed.

Lemma remaining_order : in_order remaining_tables.
Proof.
  unfold remaining_tables, in_order. pose proof Hd as D. clear -D. induction D as [|m ms D IH F]; cbn; [constructor|].
  destruct (overlaps _ _ m); cbn [negb]; [done|]. constructor; [done|]. apply Forall_forall. intros x Hx.
  rewrite list_elem_of_In, filter_In, <- list_elem_of_In in Hx. rewrite Forall_forall in F. exact (F x (proj1 Hx)).
Qed.

Lemma merged_level_ok : in_order merged_level /\ merged_level ≡ₚ ns ++ remaining_tables.
Proof.
  apply insert_metas_ok.
  - apply remaining_order.
  - apply (parts_disjoint rs'); [done|]. rewrite Hns. by apply keys_sorted_filter.
  - apply Forall_forall. intros r Hrr. by apply (tbl_first_last crc32 rs'), Hr.
  - eapply Forall_impl; [exact Hn|]. intros m. apply tbl_first_last.
  - apply Forall_forall. intros n Hnn. apply Forall_forall. intros r Hrr. by apply ns_apart.
Qed.

Lemma merged_level_tables : Forall (table_ok crc32 rs') merged_level.
Proof.
  rewrite (proj2 merged_level_ok). apply Forall_app. split; [done|]. apply Forall_forall. intros r Hrr. by apply Hr.
Qed.

Lemma remaining_view k : view rs' remaining_tables k = view rs remaining_tables k.
Proof. unfold view. f_equal. apply map_ext_in. intros m Hm. apply Hr. by apply list_elem_of_In. Qed.

(** Merging changes no answer, but that a tombstone may be dropped at the bottom. *)
Lemma merged_view k :
  view rs' merged_level k = view rs (upper ++ target) k \/
  (is_bottom = true /\ view rs (upper ++ target) k = Some None /\ view rs' merged_level k = None).
Proof.
  destruct merged_level_ok as [Om Pm].
  assert (New : view rs' merged_level k = orelse (kv_get k (kept is_bottom es)) (view rs remaining_tables k)).
  { rewrite (view_agree rs' k merged_level (ns ++ remaining_tables)).
    - rewrite <- remaining_view, <- Hns, first_of_concat. unfold view. by rewrite map_app, first_of_app.
    - apply disjoint_agree; [apply merged_level_tables|done].
    - intros m. by rewrite Pm. }
  assert (Old : view rs (upper ++ target) k = orelse (kv_get k es) (view rs remaining_tables k)).
  { rewrite Hes. unfold view at 1. rewrite !map_app, !first_of_app, orelse_assoc. f_equal.
    fold (view rs target k) (view rs overlapping k). rewrite (view_agree rs k target (overlapping ++ remaining_tables)).
    - unfold view. by rewrite map_app, first_of_app.
    - by apply disjoint_agree.
    - intros m. rewrite elem_of_app, in_overlapping, in_remaining. destruct (overlaps min_key max_key m); naive_solver. }
  assert (Only : kv_get k es <> None -> view rs remaining_tables k = None).
  { intros G. destruct (kv_get k es) as [v|] eqn:E; [|done]. apply kv_get_elem, merged_from in E as (m & Hm & E).
    apply view_none. intros r Hrr. apply kv_get_none. intros [k' v'] He <-. apply kv_get_elem in E.
    pose proof (in_remaining r) as X. apply X in Hrr as Hrt. destruct Hrt as [Hrt _]. pose proof Ht as Ft. rewrite Forall_forall in Ft.
    apply (tbl_span _ _ _ _ _ (Ft _ Hrt)) in He as [Hf Hl].
    destruct (remaining_apart r Hrr) as [A|A]; pose proof (A _ _ _ Hm E) as B; apply ble_not_lt in Hf, Hl; [by apply Hl|by apply Hf]. }
  rewrite New, Old. destruct (kept_get is_bottom es k Hs) as [->|(B & G & ->)]; [by left|]. right.
  rewrite G in *. cbn [orelse]. rewrite Only by done. done.
Qed.
End levels.

(** ** Writing the merged run *)

Record NewTable := mkNew { nt_meta : SSTableMeta; nt_entries : list lsm_entry; nt_file : bytes; nt_reader : SSTableReader }.

(** The state after tables were written, and after their readers were opened. *)
Definition add_new {V} (f : NewTable -> V) (nts : list NewTable) (m : gmap Z V) : gmap Z V :=
  fold_left (fun m nt => <[sst_id (nt_meta nt) := f nt]> m) nts m.
Definition add_files := add_new nt_file.
Definition add_readers := add_new nt_reader.

Definition wrote (nts : list NewTable) (t : LsmTree) : LsmTree :=
  mkTree (memtable t) (immutable_memtables t) (mkLevels (levels (level_state t)) (next_sst_id (level_state t) + len nts))
    (readers t) (manifest t) (add_files nts (files t)) (memtable_size_limit t).

Lemma wrote_nil t : wrote [] t = t.
Proof. destruct t as [mt im [ls n] rs mf fs lim]. unfold wrote. cbn. by rewrite Z.add_0_r. Qed.

Lemma wrote_app a b t : wrote (a ++ b) t = wrote b (wrote a t).
Proof. unfold wrote, add_files, add_new. cbn. rewrite fold_left_app, len_app, Z.add_assoc. done. Qed.

Section runs.
Context (crc32 : bytes -> Z).
Hypothesis crc32_u32 : forall b, in_u32 (crc32 b) = true.

Definition new_ok (id : Z) (nt : NewTable) : Prop :=
  written crc32 id (nt_entries nt) (nt_meta nt) (nt_file nt) (nt_reader nt) /\ run_ok (nt_entries nt).

(** Tables with consecutive identifiers. *)
Fixpoint new_tables (id : Z) (nts : list NewTable) : Prop :=
  match nts with [] => True | nt :: rest => new_ok id nt /\ new_tables (id + 1) rest end.

Lemma new_tables_app id a b : new_tables id (a ++ b) <-> new_tables id a /\ new_tables (id + len a) b.
Proof.
  revert id. induction a as [|nt a IH]; intros id; cbn [app new_tables]; [rewrite Z.add_0_r; naive_solver|].
  rewrite IH, len_cons. replace (id + 1 + len a) with (id + (1 + len a)) by lia. naive_solver.
Qed.

Lemma flush_batch_ok batch t :
  run_ok batch -> 0 <= next_sst_id (level_state t) < 2 ^ 64 - 1 ->
  exists nt, new_ok (next_sst_id (level_state t)) nt /\ nt_entries nt = batch /\
    flush_batch crc32 batch t = (Ok (Some (nt_meta nt)), wrote [nt] t).
Proof.
  intros R B. set (id := next_sst_id (level_state t)) in *. destruct (write_run crc32 id batch crc32_u32 R) as (m & file & r & W).
  exists (mkNew m batch file r). split; [done|]. split; [done|]. unfold flush_batch, alloc_id, next_id. unfold mbind, M_bind.
  fold id. unfold arith. replace (in_u64 (id + 1)) with true by (symmetry; fits). cbn [outcome_bind].
  unfold write_table, mbind, M_bind, pure.
  rewrite (written_write _ _ _ _ _ _ W). cbn. unfold wrote, add_files, add_new. cbn. by rewrite (written_id _ _ _ _ _ _ W).
Qed.

(** Five bytes per entry, but for the one key that may be empty. *)
Lemma sorted_weight es : keys_sorted es -> 5 * len es - 1 <= len (data_bytes es).
Proof.
  assert (G : forall l, Forall (fun e : lsm_entry => e.1 <> []) l -> 5 * len l <= len (data_bytes l)).
  { induction 1 as [|[k v] l Ne F IH]; [done|]. change (data_bytes ((k, v) :: l)) with (entry_bytes (k, v) ++ data_bytes l).
    rewrite len_app, len_cons, len_entry_bytes. unfold entry_size. cbn [fst snd] in *. destruct k as [|b k]; [done|].
    rewrite len_cons. pose proof (len_nonneg k). pose proof (value_len_nonneg v). lia. }
  destruct es as [|[k v] es]; intros K; [done|]. apply StronglySorted_inv in K as [_ F].
  change (data_bytes ((k, v) :: es)) with (entry_bytes (k, v) ++ data_bytes es). rewrite len_app, len_cons, len_entry_bytes.
  unfold entry_size. pose proof (len_nonneg k). pose proof (value_len_nonneg v). cbn [fst snd].
  assert (5 * len es <= len (data_bytes es)); [|lia]. apply G. eapply Forall_impl; [exact F|]. intros [k' v'] H' E. cbn in *.
  subst k'. by destruct k.
Qed.

Lemma kept_cons is_bottom e es :
  kept is_bottom (e :: es) = (if is_bottom && match e.2 with None => true | Some _ => false end then [] else [e]) ++ kept is_bottom es.
Proof. unfold kept. cbn [List.filter]. by destruct (is_bottom && _). Qed.

Lemma sorted_sub_app {V} (a b c : list (bytes * V)) : keys_sorted (a ++ b ++ c) -> keys_sorted (a ++ c).
Proof.
  unfold keys_sorted. rewrite !StronglySorted_app. intros (H1 & Ha & H2 & _ & Hc). split_and!; [|done|done].
  intros x y Hx Hy. apply H1; [done|]. apply elem_of_app. by right.
Qed.

(** A closed batch is a run that can be written. *)
Lemma batch_run batch e :
  keys_sorted (batch ++ [e]) -> Forall entry_fits (batch ++ [e]) -> len (data_bytes batch) < TARGET_SSTABLE_SIZE_BYTES ->
  run_ok (batch ++ [e]).
Proof.
  intros K F N. split_and!; [by destruct batch|done|done|]. pose proof K as K'. apply StronglySorted_app_1_l in K'.
  pose proof (sorted_weight _ K'). rewrite len_app. change (len [e]) with 1. unfold TARGET_SSTABLE_SIZE_BYTES in N. lia.
Qed.

Lemma split_loop_ok es is_bottom batch metas t :
  keys_sorted (batch ++ es) -> Forall entry_fits (batch ++ es) -> len (data_bytes batch) < TARGET_SSTABLE_SIZE_BYTES ->
  0 <= next_sst_id (level_state t) -> next_sst_id (level_state t) + len batch + len es < 2 ^ 64 - 1 ->
  exists nts, split_loop crc32 es is_bottom batch (len (data_bytes batch)) metas t = (Ok (metas ++ map nt_meta nts), wrote nts t) /\
    new_tables (next_sst_id (level_state t)) nts /\ concat (map nt_entries nts) = batch ++ kept is_bottom es.
Proof.
  revert batch metas t. induction es as [|[k v] es IH]; intros batch metas t K F N H0 HN; cbn [split_loop].
  - rewrite app_nil_r in *. destruct (decide (batch = [])) as [->|Ne].
    + exists []. rewrite wrote_nil. cbn [map concat app]. by rewrite app_nil_r.
    + assert (R : run_ok batch).
      { destruct (exists_last Ne) as (b & e & ->). apply batch_run; [done|done|].
        rewrite data_bytes_snoc, len_app in N. pose proof (len_nonneg (entry_bytes e)). lia. }
      assert (1 <= len batch) by (destruct batch; [done|]; rewrite len_cons; pose proof (len_nonneg batch); lia).
      destruct (flush_batch_ok batch t R) as (nt & O & E & Run); [unfold len in HN at 2; cbn in HN; lia|].
      exists [nt]. destruct batch as [|b0 batch]; [done|]. unfold mbind, M_bind. rewrite Run. cbn [map concat]. rewrite E, !app_nil_r. done.
  - rewrite len_cons in HN. pose proof (len_nonneg es). pose proof (len_nonneg batch). rewrite kept_cons. cbn [snd].
    destruct (is_bottom && _) eqn:B.
    + cbn [app]. apply IH; [|by apply Forall_app in F as [? ?%Forall_cons_1]; apply Forall_app; naive_solver|done|done|lia].
      by apply (sorted_sub_app batch [(k, v)] es).
    + replace (len (data_bytes batch) + (len k + value_len v + 4)) with (len (data_bytes (batch ++ [(k, v)]))).
      2: { rewrite data_bytes_snoc, len_app, len_entry_bytes. unfold entry_size. cbn. lia. }
      rewrite cons_middle, app_assoc in K, F. pose proof K as K1. apply StronglySorted_app_1_l in K1.
      pose proof F as F1. apply Forall_app in F1 as [F1 F2].
      assert (Fb : entry_size (k, v) <= BLOCK_DATA_CAPACITY) by (apply Forall_app in F1 as [_ F1]; by apply Forall_cons_1 in F1 as [F1 _]).
      assert (Bd : 0 <= len (data_bytes (batch ++ [(k, v)])) < 2 ^ 64).
      { split; [apply len_nonneg|]. rewrite data_bytes_snoc, len_app, len_entry_bytes.
        unfold BLOCK_DATA_CAPACITY, BLOCK_SIZE, TARGET_SSTABLE_SIZE_BYTES in *. lia. }
      unfold mbind at 1, M_bind at 1, pure at 1, arith. replace (in_u64 _) with true by (symmetry; fits).
      destruct (Z.leb_spec TARGET_SSTABLE_SIZE_BYTES (len (data_bytes (batch ++ [(k, v)])))) as [Full|Room].
      * destruct (flush_batch_ok (batch ++ [(k, v)]) t (batch_run _ _ K1 F1 N)) as (nt & O & E & Run); [lia|].
        unfold mbind at 1, M_bind at 1. rewrite Run. cbn [push_meta].
        destruct (IH [] (metas ++ [nt_meta nt]) (wrote [nt] t)) as (nts & E2 & Nts & C).
        { by apply StronglySorted_app_1_r in K. }
        { done. }
        { done. }
        { cbn [level_state wrote next_sst_id]. change (len [nt]) with 1. lia. }
        { cbn [level_state wrote next_sst_id]. change (len [nt]) with 1. rewrite len_nil. lia. }
        change (len (data_bytes [])) with 0 in E2. rewrite E2. exists (nt :: nts). split; [|split].
        -- rewrite <- (wrote_app [nt] nts). cbn [map app]. by rewrite <- app_assoc.
        -- split; [done|exact Nts].
        -- cbn [map concat]. rewrite E, C, <- !app_assoc. done.
      * destruct (IH (batch ++ [(k, v)]) metas t) as (nts & E & Nts & C); [done|done|done|done|rewrite len_app; change (len [(k, v)]) with 1; lia|].
        exists nts. rewrite E, C, <- !app_assoc. done.
Qed.

(** ** Identifiers *)

Definition new_ids (nts : list NewTable) : list Z := map (fun nt => sst_id (nt_meta nt)) nts.

Lemma new_tables_in id nts nt :
  new_tables id nts -> nt ∈ nts -> id <= sst_id (nt_meta nt) < id + len nts /\ new_ok (sst_id (nt_meta nt)) nt.
Proof.
  revert id. induction nts as [|nt' nts IH]; intros id H Hn; [by apply not_elem_of_nil in Hn|]. destruct H as [O H].
  rewrite len_cons. pose proof (len_nonneg nts). apply elem_of_cons in Hn as [->|Hn].
  - destruct O as [W R]. pose proof (written_id _ _ _ _ _ _ W) as E. split; [lia|]. split; [by rewrite E|done].
  - destruct (IH _ H Hn) as [B O']. split; [lia|done].
Qed.

Lemma new_tables_nodup id nts : new_tables id nts -> NoDup (new_ids nts).
Proof.
  revert id. induction nts as [|nt nts IH]; intros id H; cbn; [constructor|]. destruct H as [[W _] H].
  constructor; [|by eapply IH]. intros Hin. apply list_elem_of_fmap in Hin as (nt' & E & Hn).
  destruct (new_tables_in _ _ _ H Hn) as [B _]. rewrite <- E, (written_id _ _ _ _ _ _ W) in B. lia.
Qed.

Lemma add_new_out {V} (f : NewTable -> V) nts m i : i ∉ new_ids nts -> add_new f nts m !! i = m !! i.
Proof.
  unfold add_new. revert m. induction nts as [|nt nts IH]; intros m H; [done|]. cbn [fold_left new_ids map] in *.
  apply not_elem_of_cons in H as [Ne H]. by rewrite IH, lookup_insert_ne by done.
Qed.

Lemma add_new_in {V} (f : NewTable -> V) nts m nt :
  NoDup (new_ids nts) -> nt ∈ nts -> add_new f nts m !! sst_id (nt_meta nt) = Some (f nt).
Proof.
  unfold add_new. revert m. induction nts as [|nt' nts IH]; intros m N H; [by apply not_elem_of_nil in H|].
  cbn [fold_left new_ids map] in *. apply NoDup_cons in N as [N1 N]. apply elem_of_cons in H as [->|H]; [|by apply IH].
  fold (add_new f nts (<[sst_id (nt_meta nt') := f nt']> m)). by rewrite add_new_out, lookup_insert_eq by done.
Qed.

Lemma remove_ids_lookup {V} ids (m : gmap Z V) i : remove_ids ids m !! i = if bool_decide (i ∈ ids) then None else m !! i.
Proof.
  unfold remove_ids. revert m. induction ids as [|j ids IH]; intros m; cbn [fold_left].
  - by rewrite bool_decide_false by apply not_elem_of_nil.
  - rewrite IH. case_bool_decide as H; [by rewrite bool_decide_true by by right|]. destruct (decide (i = j)) as [->|Ne].
    + rewrite lookup_delete_eq, bool_decide_true by left. done.
    + rewrite lookup_delete_ne by done. rewrite bool_decide_false; [done|]. by apply not_elem_of_cons.
Qed.

(** ** The merge as one step *)

Lemma open_readers_ok nts t :
  Forall (fun nt => files t !! sst_id (nt_meta nt) = Some (nt_file nt) /\
                    sst_open crc32 (nt_file nt) (sst_id (nt_meta nt)) = Ok (nt_reader nt)) nts ->
  open_readers crc32 (map nt_meta nts) t = (Ok tt, set_readers (add_readers nts (readers t)) t).
Proof.
  revert t. induction nts as [|nt nts IH]; intros t F; cbn [map open_readers]; [by destruct t|].
  apply Forall_cons_1 in F as [[Ef Eo] F]. unfold mbind, M_bind, open_table, gets, pure. unfold mbind, M_bind.
  rewrite Ef. cbn [ok_or outcome_bind]. rewrite Eo. cbn [modify]. unfold modify. rewrite IH.
  - done.
  - exact F.
Qed.

Lemma collect_inputs_ok rs ms :
  Forall (table_ok crc32 rs) ms -> collect_inputs rs ms = Ok (map (contents rs) ms, map sst_id ms).
Proof.
  induction 1 as [|m ms [(r & L & R & _) _ _ _ _] F IH]; [done|]. cbn [collect_inputs map]. rewrite L.
  by rewrite (reads_iter _ _ _ R), IH.
Qed.

Definition merged_state (target : nat) (ids : list Z) (nts : list NewTable) (t : LsmTree) : LsmTree :=
  mkTree (memtable t) (immutable_memtables t) (mkLevels (levels (level_state t)) (next_sst_id (level_state t) + len nts))
    (add_readers nts (remove_ids ids (readers t))) (log_adds target (map nt_meta nts) (log_dels ids (manifest t)))
    (remove_ids ids (add_files nts (files t))) (memtable_size_limit t).

(** The entries of some sources. *)
Definition total_len {V} (ls : list (list V)) : Z := len (concat ls).

Lemma merged_len ls es :
  keys_sorted es -> (forall k, kv_get k es = first_of k ls) -> len es <= @total_len lsm_entry ls.
Proof.
  intros K G. unfold total_len, len. apply inj_le. rewrite <- (length_map fst es), <- (length_map fst (concat ls)).
  apply NoDup_incl_length.
  - clear G. induction K as [|[k v] es K IH F]; cbn; constructor; [|done]. intros H. apply in_map_iff in H as ([k' v'] & E & H).
    cbn in E. subst k'. rewrite Forall_forall in F. apply list_elem_of_In, F in H. by apply blt_irrefl in H.
  - intros k H. apply in_map_iff in H as ([k' v] & E & H). cbn in E. subst k'. apply list_elem_of_In in H.
    pose proof (kv_get_in _ _ _ K H) as X. rewrite G, <- first_of_concat in X. apply kv_get_elem in X.
    apply in_map_iff. exists (k, v). split; [done|by apply list_elem_of_In].
Qed.

Lemma merge_tables_ok target ms is_bottom t :
  Forall (table_ok crc32 (readers t)) ms -> 0 <= next_sst_id (level_state t) ->
  next_sst_id (level_state t) + total_len (map (contents (readers t)) ms) < 2 ^ 64 - 1 ->
  exists nts es, merge_tables crc32 target ms is_bottom t = (Ok (map nt_meta nts), merged_state target (map sst_id ms) nts t) /\
    new_tables (next_sst_id (level_state t)) nts /\ concat (map nt_entries nts) = kept is_bottom es /\
    keys_sorted es /\ (forall k, kv_get k es = first_of k (map (contents (readers t)) ms)).
Proof.
  intros F H0 HN. destruct (collect_all_ok (map (contents (readers t)) ms)) as (es & C & K & G).
  { apply Forall_fmap. eapply Forall_impl; [exact F|]. intros m T. apply T. }
  pose proof (merged_len _ _ K G) as L.
  assert (Fe : Forall entry_fits es).
  { apply Forall_forall. intros [k v] He. pose proof (kv_get_in _ _ _ K He) as X. rewrite G in X. apply view_some in X as (m & Hm & X).
    apply kv_get_elem in X. rewrite Forall_forall in F. pose proof (tbl_fits _ _ _ (F _ Hm)) as Y. rewrite Forall_forall in Y. by apply Y. }
  destruct (split_loop_ok es is_bottom [] [] t) as (nts & E & Nts & Cn); [done|done|done|done|rewrite len_nil; lia|].
  exists nts, es. split; [|done]. unfold merge_tables, mbind, M_bind, gets, pure. rewrite collect_inputs_ok by done.
  cbn [fst snd]. rewrite C. cbn [ends]. unfold write_split_sstables. change 0 with (len (data_bytes [])) at 1. rewrite E.
  cbn [app]. unfold swap_tables, mbind, M_bind, modify. rewrite open_readers_ok.
  - unfold merged_state, mret, M_ret, set_files, set_readers, set_manifest, wrote. cbn. done.
  - apply Forall_forall. intros nt Hn. destruct (new_tables_in _ _ _ Nts Hn) as [_ [W _]]. cbn [files set_readers set_manifest wrote].
    split; [apply add_new_in; [by eapply new_tables_nodup|done]|]. apply W.
Qed.
End runs.
