(* ===== verification/LsmInv.v ===== *)
(** The invariant of an LSM tree, that every operation preserves it, succeeds and
    has its effect on the value of each key (the operations of LsmTree.v). *)

From Stdlib Require Import ZArith Lia List Bool.
From S2P Require Import Prelude Common Engine Bloom Merge SsTable Manifest LsmTree LsmView LsmCompact.
From coqutil Require Import Byte Word.LittleEndianList.
From stdpp Require Import base gmap list strings sorting.
#[local] Open Scope Z_scope.

Section inv.
Context (crc32 : bytes -> Z).
Hypothesis crc32_u32 : forall b, in_u32 (crc32 b) = true.

Definition ids (ms : list SSTableMeta) : list Z := map sst_id ms.

Lemma contents_ext rs rs' m : rs' !! sst_id m = rs !! sst_id m -> contents rs' m = contents rs m.
Proof. intros E. unfold contents. by rewrite E. Qed.

Lemma table_ok_ext rs rs' m : rs' !! sst_id m = rs !! sst_id m -> table_ok crc32 rs m -> table_ok crc32 rs' m.
Proof.
  intros E T. pose proof (contents_ext rs rs' m E) as C. destruct T. split; rewrite ?C; try done. by rewrite E.
Qed.

Lemma new_table_ok id nts nt rs :
  new_tables crc32 id nts -> nt ∈ nts ->
  contents (add_readers nts rs) (nt_meta nt) = nt_entries nt /\ table_ok crc32 (add_readers nts rs) (nt_meta nt).
Proof.
  intros H Hn. destruct (new_tables_in _ _ _ _ H Hn) as [_ [W (Ne & K & F & _)]].
  pose proof (add_new_in nt_reader nts rs nt (new_tables_nodup _ _ _ H) Hn) as L. fold add_readers in L.
  pose proof (written_reads _ _ _ _ _ _ W) as R. pose proof (written_meta _ _ _ _ _ _ W) as M.
  assert (C : contents (add_readers nts rs) (nt_meta nt) = nt_entries nt).
  { unfold contents. by rewrite L, (reads_iter _ _ _ R). }
  split; [done|]. split; rewrite ?C; try done; [|apply W].
  exists (nt_reader nt). split; [done|]. split; [done|]. by rewrite M.
Qed.

Lemma perm_split {A} (a u b c d : list A) : b ≡ₚ c ++ d -> a ++ u ++ b ≡ₚ (a ++ d) ++ u ++ c.
Proof. intros ->. rewrite <- (app_assoc a). solve_Permutation. Qed.

(** ** One merge *)

Section merge_step.
Context (t : LsmTree) (target : nat) (rest upper tgt : list SSTableMeta) (min_key max_key : bytes) (is_bottom : bool).
Abbreviation rs := (readers t).
Abbreviation next := (next_sst_id (level_state t)).
Context (Ht : Forall (table_ok crc32 rs) (rest ++ upper ++ tgt)) (Ho : in_order tgt).
Context (Hull : Forall (fun m => ble min_key (first_key m) /\ ble (last_key m) max_key) upper).
Context (Hnd : NoDup (ids (rest ++ upper ++ tgt))) (Hid : Forall (fun m => 0 <= sst_id m < next) (rest ++ upper ++ tgt)).
Context (Hnext : 0 <= next) (Hroom : next + total_len (map (contents rs) (upper ++ tgt)) < 2 ^ 64 - 1).

Abbreviation ov := (overlapping tgt min_key max_key).
Abbreviation rem := (remaining_tables tgt min_key max_key).
Abbreviation inputs := (upper ++ ov).

Lemma upper_ok : Forall (table_ok crc32 rs) upper.
Proof. by apply Forall_app in Ht as [_ [? _]%Forall_app]. Qed.
Lemma tgt_ok : Forall (table_ok crc32 rs) tgt.
Proof. by apply Forall_app in Ht as [_ [_ ?]%Forall_app]. Qed.

Lemma split_tgt : tgt ≡ₚ ov ++ rem.
Proof.
  unfold overlapping, remaining_tables. generalize tgt. intros l. induction l as [|m l IH]; [done|]. cbn.
  destruct (overlaps min_key max_key m); cbn [negb]; [by rewrite IH at 1|]. rewrite IH at 1. by rewrite Permutation_middle.
Qed.

Lemma inputs_ok : Forall (table_ok crc32 rs) inputs.
Proof.
  apply Forall_app. split; [apply upper_ok|]. pose proof tgt_ok as F. rewrite split_tgt in F. by apply Forall_app in F as [? _].
Qed.

(** The tables that stay are not among the inputs. *)
Lemma stays m : m ∈ rest ++ rem -> sst_id m ∉ ids inputs /\ m ∈ rest ++ upper ++ tgt.
Proof.
  intros Hm. assert (P : rest ++ upper ++ tgt ≡ₚ (rest ++ rem) ++ inputs).
  { apply perm_split, split_tgt. }
  split.
  - pose proof Hnd as N. unfold ids in N. rewrite P, map_app, NoDup_app in N. destruct N as (_ & N & _).
    apply N. by apply list_elem_of_fmap_2.
  - rewrite P. apply elem_of_app. by left.
Qed.

Lemma inputs_len : total_len (map (contents rs) inputs) + total_len (map (contents rs) rem) = total_len (map (contents rs) (upper ++ tgt)).
Proof.
  unfold total_len. rewrite !map_app, !concat_app, !len_app. pose proof split_tgt as P.
  apply (fmap_Permutation (contents rs)) in P. change (contents rs <$> ?l) with (map (contents rs) l) in P.
  assert (L : len (concat (map (contents rs) tgt)) = len (concat (map (contents rs) (ov ++ rem)))) by (unfold len; by rewrite P).
  rewrite L, map_app, concat_app, len_app. lia.
Qed.

Lemma stays_all : NoDup (ids (rest ++ rem)) /\ Forall (fun m => 0 <= sst_id m < next) (rest ++ rem).
Proof.
  pose proof (perm_split rest upper tgt ov rem split_tgt) as P. pose proof Hnd as N. pose proof Hid as F. unfold ids in *.
  rewrite P in F. rewrite P, map_app, NoDup_app in N. split; [by destruct N as [N _]|by apply Forall_app in F as [F _]].
Qed.

(** The identifiers after the merge. *)
Lemma merged_ids nts new_level :
  new_tables crc32 next nts -> new_level ≡ₚ map nt_meta nts ++ rem ->
  NoDup (ids (rest ++ new_level)) /\ Forall (fun m => 0 <= sst_id m < next + len nts) (rest ++ new_level).
Proof.
  intros Nts P. destruct stays_all as [N F]. pose proof (len_nonneg nts).
  assert (Q : rest ++ new_level ≡ₚ map nt_meta nts ++ rest ++ rem) by (rewrite P; solve_Permutation).
  assert (B : Forall (fun m => next <= sst_id m < next + len nts) (map nt_meta nts)).
  { apply Forall_fmap, Forall_forall. intros nt Hn. by apply (new_tables_in crc32 next nts nt). }
  unfold ids in *. split.
  - rewrite Q, map_app, map_map. apply NoDup_app. split; [by eapply new_tables_nodup|]. split; [|done].
    intros i Hi Hi'. rewrite <- (map_map nt_meta sst_id) in Hi. apply list_elem_of_fmap in Hi as (m & -> & Hm). apply list_elem_of_fmap in Hi' as (m' & E & Hm').
    rewrite Forall_forall in B, F. apply B in Hm. apply F in Hm'. lia.
  - rewrite Q. apply Forall_app. split; [eapply Forall_impl; [exact B|]; cbn; lia|eapply Forall_impl; [exact F|]; cbn; lia].
Qed.

(** A merge adds no entries, and every table it makes has one. *)
Lemma merged_counts nts es rs' new_level :
  new_tables crc32 next nts -> new_level ≡ₚ map nt_meta nts ++ rem ->
  concat (map (contents rs') (map nt_meta nts)) = kept is_bottom es -> concat (map nt_entries nts) = kept is_bottom es ->
  keys_sorted es -> (forall k, kv_get k es = first_of k (map (contents rs) inputs)) ->
  (forall m, m ∈ rem -> contents rs' m = contents rs m) ->
  total_len (map (contents rs') new_level) <= total_len (map (contents rs) (upper ++ tgt)) /\
  len nts <= total_len (map (contents rs) (upper ++ tgt)).
Proof.
  intros Nts P C1 C2 K G Hrem. pose proof (merged_len _ _ K G) as L. pose proof inputs_len as I.
  assert (Lk : len (kept is_bottom es) <= len es) by (unfold len, kept; apply inj_le, filter_length_le).
  assert (Ln : len nts <= len (kept is_bottom es)).
  { rewrite <- C2. clear -Nts. revert Nts. generalize next. induction nts as [|nt nts IH]; intros n H; [done|]. destruct H as [[_ (Ne & _)] H].
    cbn [map concat]. rewrite len_cons, len_app. apply IH in H. destruct (nt_entries nt) as [|e es']; [done|]. rewrite len_cons.
    pose proof (len_nonneg es'). lia. }
  assert (Lr : total_len (map (contents rs') new_level) = len (kept is_bottom es) + total_len (map (contents rs) rem)).
  { unfold total_len. pose proof (fmap_Permutation (contents rs') _ _ P) as P'. change (contents rs' <$> ?l) with (map (contents rs') l) in P'.
    transitivity (len (concat (map (contents rs') (map nt_meta nts ++ rem)))); [unfold len; by rewrite P'|].
    rewrite map_app, concat_app, len_app, C1. do 3 f_equal. apply map_ext_in. intros m Hm. by apply Hrem, list_elem_of_In. }
  pose proof (len_nonneg (concat (map (contents rs) rem))). unfold total_len in *. lia.
Qed.

Lemma merge_step :
  exists nts, let t' := merged_state target (ids inputs) nts t in
    let ns := map nt_meta nts in let new_level := merged_level tgt min_key max_key ns in
    merge_tables crc32 target inputs is_bottom t = (Ok ns, t') /\
    new_tables crc32 next nts /\
    (forall nt k v, nt ∈ nts -> (k, v) ∈ nt_entries nt -> exists m, m ∈ inputs /\ (k, v) ∈ contents rs m) /\
    (forall m, m ∈ rest ++ rem -> readers t' !! sst_id m = rs !! sst_id m) /\
    Forall (table_ok crc32 (readers t')) new_level /\ in_order new_level /\ new_level ≡ₚ ns ++ rem /\
    NoDup (ids (rest ++ new_level)) /\ Forall (fun m => 0 <= sst_id m < next + len nts) (rest ++ new_level) /\
    total_len (map (contents (readers t')) new_level) <= total_len (map (contents rs) (upper ++ tgt)) /\
    len nts <= total_len (map (contents rs) (upper ++ tgt)) /\
    forall k, view (readers t') new_level k = view rs (upper ++ tgt) k \/
      (is_bottom = true /\ view rs (upper ++ tgt) k = Some None /\ view (readers t') new_level k = None).
Proof.
  destruct (merge_tables_ok crc32 crc32_u32 target inputs is_bottom t) as (nts & es & E & Nts & Cn & K & G).
  { apply inputs_ok. }
  { done. }
  { pose proof inputs_len. pose proof (len_nonneg (concat (map (contents rs) rem))). unfold total_len in *. lia. }
  exists nts. cbn zeta. set (t' := merged_state target (ids inputs) nts t). set (ns := map nt_meta nts).
  assert (New : forall i, i ∈ new_ids nts -> next <= i < next + len nts).
  { intros i Hi. apply list_elem_of_fmap in Hi as (nt & -> & Hn). by apply (new_tables_in crc32 next nts nt). }
  assert (Same : forall m, m ∈ rest ++ rem -> readers t' !! sst_id m = rs !! sst_id m).
  { intros m Hm. destruct (stays m Hm) as [Ni Hin]. cbn [readers t' merged_state]. unfold add_readers. rewrite add_new_out.
    - by rewrite remove_ids_lookup, bool_decide_false.
    - intros Hi. apply New in Hi. pose proof Hid as F. rewrite Forall_forall in F. apply F in Hin. lia. }
  assert (Hns : Forall (table_ok crc32 (readers t')) ns /\ concat (map (contents (readers t')) ns) = kept is_bottom es).
  { rewrite <- Cn. unfold ns. rewrite map_map. split.
    - apply Forall_fmap, Forall_forall. intros nt Hn. by apply (new_table_ok next nts nt).
    - f_equal. apply map_ext_in. intros nt Hn. apply (new_table_ok next nts nt); [done|by apply list_elem_of_In]. }
  destruct Hns as [Fn Hns].
  assert (Hrem : forall m, m ∈ rem -> contents (readers t') m = contents rs m /\ table_ok crc32 (readers t') m).
  { intros m Hm. assert (X : readers t' !! sst_id m = rs !! sst_id m) by (apply Same, elem_of_app; by right).
    split; [by apply contents_ext|]. eapply table_ok_ext; [exact X|]. pose proof tgt_ok as F. rewrite Forall_forall in F.
    apply F. by apply in_remaining in Hm as [? _]. }
  pose proof (merged_level_ok crc32 rs upper tgt min_key max_key upper_ok tgt_ok Ho Hull (readers t') ns is_bottom es K G Fn Hns Hrem) as [O P].
  pose proof (merged_level_tables crc32 rs upper tgt min_key max_key upper_ok tgt_ok Ho Hull (readers t') ns is_bottom es K G Fn Hns Hrem) as Fl.
  assert (From : forall nt k v, nt ∈ nts -> (k, v) ∈ nt_entries nt -> exists m, m ∈ inputs /\ (k, v) ∈ contents rs m).
  { intros nt k v Hnt Hk. assert (X : (k, v) ∈ kept is_bottom es).
    { rewrite <- Cn, list_elem_of_In, in_concat. exists (nt_entries nt). split; [by apply in_map, list_elem_of_In|by apply list_elem_of_In]. }
    unfold kept in X. rewrite list_elem_of_In, filter_In, <- list_elem_of_In in X. destruct X as [X _].
    pose proof (kv_get_in _ _ _ K X) as Y. rewrite G in Y. apply view_some in Y as (m & Hm & Y). exists m. split; [done|by apply kv_get_elem]. }
  destruct (merged_ids nts _ Nts P) as [Nd Fi].
  destruct (merged_counts nts es (readers t') _ Nts P Hns Cn K G) as [L1 L2]; [intros m Hm; by apply Hrem|].
  split_and!; try done. by apply (merged_view crc32 rs upper tgt min_key max_key upper_ok tgt_ok Ho Hull (readers t') ns is_bottom es).
Qed.
End merge_step.

(** ** The tree on disk *)

Definition drop_ids (js : list Z) (ms : list SSTableMeta) : list SSTableMeta :=
  List.filter (fun m => bool_decide (sst_id m ∉ js)) ms.

(** The manifest is the log of some additions and removals that make the levels
    [ls]. *)
Definition logged (t : LsmTree) (ls : list (list SSTableMeta)) : Prop :=
  exists evs, manifest t = fold_left (fun b e => log_event e b) evs [] /\ Forall event_ok evs /\ Forall event_keys evs /\
    levels (fold_left apply_event evs levels_new) = ls /\
    next_sst_id (fold_left apply_event evs levels_new) <= next_sst_id (level_state t).

(** The table of a metadata record is in its file, as its reader has it. *)
Definition filed (t : LsmTree) (m : SSTableMeta) : Prop :=
  exists file r, files t !! sst_id m = Some file /\ sst_open crc32 file (sst_id m) = Ok r /\ readers t !! sst_id m = Some r.

(** The levels [ls], of which the manifest tells, and their files. *)
Record on_disk (t : LsmTree) : Prop := {
  od_log : exists ls, logged t ls /\ Forall2 (≡ₚ) ls (levels (level_state t)) /\ nth 0 ls [] = level 0 (level_state t);
  od_files : Forall (filed t) (concat (levels (level_state t)));
  od_keys : Forall (fun m => first_key m <> []) (concat (levels (level_state t)))
}.

Lemma drop_ids_nil ms : drop_ids [] ms = ms.
Proof.
  apply forallb_filter_id, forallb_forall. intros m _. apply bool_decide_eq_true_2, not_elem_of_nil.
Qed.

Lemma drop_ids_cons i js ms : drop_ids (i :: js) ms = drop_ids js (drop_id i ms).
Proof.
  unfold drop_ids, drop_id. induction ms as [|m ms IH]; [done|]. cbn [List.filter]. destruct (Z.eqb_spec (sst_id m) i) as [<-|Ne]; cbn [negb].
  - rewrite bool_decide_false; [exact IH|]. intros X. apply X. left.
  - cbn [List.filter]. rewrite IH. destruct (bool_decide_reflect (sst_id m ∉ js)) as [H|H].
    + rewrite bool_decide_true; [done|]. by apply not_elem_of_cons.
    + rewrite bool_decide_false; [done|]. rewrite not_elem_of_cons. naive_solver.
Qed.

Lemma replay_dels js st :
  fold_left apply_event (map LogDel js) st = mkLevels (map (drop_ids js) (levels st)) (next_sst_id st).
Proof.
  revert st. induction js as [|i js IH]; intros st; cbn [map fold_left].
  - destruct st as [ls n]. f_equal. cbn. rewrite <- (map_id ls) at 1. apply map_ext. intros ms. by rewrite drop_ids_nil.
  - rewrite IH. cbn. f_equal. rewrite map_map. apply map_ext. intros ms. by rewrite drop_ids_cons.
Qed.

Lemma replay_adds n ns st :
  (n < length (levels st))%nat ->
  let st' := fold_left apply_event (map (LogAdd n) ns) st in
  levels st' = <[n := level n st ++ ns]> (levels st) /\
  (forall b, next_sst_id st <= b -> Forall (fun m => sst_id m < b) ns -> next_sst_id st' <= b).
Proof.
  revert st. induction ns as [|m ns IH]; intros st Hn; cbn [map fold_left] in *.
  - split; [|done]. rewrite app_nil_r. unfold level. rewrite list_insert_id; [done|].
    destruct (lookup_lt_is_Some_2 _ _ Hn) as [l L]. by rewrite (nth_lookup_Some _ _ [] _ L).
  - destruct (IH (apply_event st (LogAdd n m))) as [E B]; [by rewrite apply_event_length|]. split.
    + rewrite E. cbn [apply_event levels]. rewrite list_insert_insert_eq. f_equal.
      unfold level at 1. cbn [levels]. rewrite nth_lookup, list_lookup_insert_eq by done. cbn. by rewrite <- app_assoc.
    + intros b Hb F. apply Forall_cons_1 in F as [Fm F]. apply B; [|done]. cbn. lia.
Qed.

Lemma log_dels_events js b : log_dels js b = fold_left (fun b e => log_event e b) (map LogDel js) b.
Proof. unfold log_dels. revert b. induction js as [|i js IH]; intros b; [done|]. cbn. apply IH. Qed.

Lemma log_adds_events n ms b : log_adds n ms b = fold_left (fun b e => log_event e b) (map (LogAdd n) ms) b.
Proof. unfold log_adds. revert b. induction ms as [|m ms IH]; intros b; [done|]. cbn. apply IH. Qed.

Lemma drop_ids_perm js a b : a ≡ₚ b -> drop_ids js a ≡ₚ drop_ids js b.
Proof.
  unfold drop_ids. induction 1 as [|m a b P IH|m m' a|a b c P1 IH1 P2 IH2]; cbn [List.filter]; [done| | |by rewrite IH1].
  - by destruct (bool_decide _); rewrite IH.
  - destruct (bool_decide (sst_id m ∉ js)), (bool_decide (sst_id m' ∉ js)); try done. apply Permutation_swap.
Qed.

Lemma drop_ids_in js m ms : m ∈ drop_ids js ms <-> m ∈ ms /\ sst_id m ∉ js.
Proof. unfold drop_ids. rewrite list_elem_of_In, filter_In, <- list_elem_of_In, bool_decide_eq_true. done. Qed.

Lemma in_levels_insert (m : SSTableMeta) n l ls : m ∈ concat (<[n := l]> ls) -> m ∈ l \/ m ∈ concat ls.
Proof.
  rewrite !list_elem_of_In, !in_concat. intros (x & Hx & Hm). apply list_elem_of_In in Hx.
  apply list_elem_of_lookup_1 in Hx as [i Hx]. apply list_lookup_insert_Some in Hx as [(_ & <- & _)|(_ & Hx)]; [by left|].
  apply list_elem_of_lookup_2 in Hx. right. exists x. split; [by apply list_elem_of_In|done].
Qed.

Lemma in_levels_drop m js ls : m ∈ concat (map (drop_ids js) ls) <-> m ∈ concat ls /\ sst_id m ∉ js.
Proof.
  rewrite 2!list_elem_of_In, !in_concat. split.
  - intros (x & Hx & Hm). apply in_map_iff in Hx as (y & <- & Hy). apply list_elem_of_In, drop_ids_in in Hm as [Hm Hj].
    split; [|done]. exists y. split; [done|by apply list_elem_of_In].
  - intros [(x & Hx & Hm) Hj]. exists (drop_ids js x). split; [by apply in_map|]. apply list_elem_of_In, drop_ids_in.
    split; [by apply list_elem_of_In|done].
Qed.

(** The metadata of new tables can be logged. *)
Lemma new_meta_ok id nts nt :
  new_tables crc32 id nts -> nt ∈ nts -> 0 <= id -> id + len nts <= 2 ^ 64 - 1 -> meta_ok (nt_meta nt).
Proof.
  intros H Hn H0 HN. destruct (new_tables_in _ _ _ _ H Hn) as [B [W (_ & _ & _ & L)]]. split; [lia|]. split.
  - pose proof (written_size _ _ _ _ _ _ W). fits.
  - pose proof (reads_count _ _ _ (written_reads _ _ _ _ _ _ W)) as C. rewrite (written_meta _ _ _ _ _ _ W) in C. rewrite C.
    pose proof (len_nonneg (nt_entries nt)). fits.
Qed.

Definition installed (target : nat) (js : list Z) (nts : list NewTable) (nl : list SSTableMeta) (t : LsmTree) : LsmTree :=
  set_levels (mkLevels (<[target := nl]> (map (drop_ids js) (levels (level_state t)))) (next_sst_id (level_state t) + len nts))
    (merged_state target js nts t).

Section installed.
Context (t : LsmTree) (target : nat) (js : list Z) (nts : list NewTable) (nl : list SSTableMeta).
Abbreviation next := (next_sst_id (level_state t)).
Context (Hd : on_disk t) (Hl : length (levels (level_state t)) = MAX_LEVEL_COUNT) (Ht : (1 <= target < MAX_LEVEL_COUNT)%nat).
Context (Hj : Forall (fun j => 0 <= j < next) js) (Hid : Forall (fun m => 0 <= sst_id m < next) (concat (levels (level_state t)))).
Context (Hn : new_tables crc32 next nts) (H0 : 0 <= next) (Hroom : next + len nts <= 2 ^ 64 - 1).
Context (Hk : Forall (fun nt => first_key (nt_meta nt) <> [] /\ last_key (nt_meta nt) <> []) nts).
Context (Hp : nl ≡ₚ map nt_meta nts ++ drop_ids js (level target (level_state t))).

Lemma installed_in m :
  m ∈ concat (levels (level_state (installed target js nts nl t))) ->
  (exists nt, nt ∈ nts /\ m = nt_meta nt) \/ (m ∈ concat (levels (level_state t)) /\ sst_id m ∉ js).
Proof.
  cbn. intros H. apply in_levels_insert in H as [H|H].
  - rewrite Hp in H. apply elem_of_app in H as [H|H].
    + left. apply list_elem_of_fmap in H as (nt & -> & H). by exists nt.
    + right. apply drop_ids_in in H as [H Hm]. split; [|done]. unfold level in H. rewrite list_elem_of_In, in_concat.
      exists (nth target (levels (level_state t)) []). split; [|by apply list_elem_of_In]. apply nth_In. rewrite Hl. apply Ht.
  - right. by apply in_levels_drop in H.
Qed.

Lemma installed_logged :
  exists ls, logged (installed target js nts nl t) ls /\ Forall2 (≡ₚ) ls (levels (level_state (installed target js nts nl t))) /\
    nth 0 ls [] = level 0 (level_state (installed target js nts nl t)).
Proof.
  destruct (od_log t Hd) as (ls & (evs & Em & Fo & Fk & El & Bn) & P & E0). pose proof (Forall2_length _ _ _ P) as Ll. rewrite Hl in Ll.
  set (st := fold_left apply_event evs levels_new) in *. set (st1 := mkLevels (map (drop_ids js) (levels st)) (next_sst_id st)).
  destruct (replay_adds target (map nt_meta nts) st1) as [E B]; [cbn; rewrite length_map, El, Ll; apply Ht|].
  exists (<[target := level target st1 ++ map nt_meta nts]> (levels st1)). split; [|split].
  - exists (evs ++ map LogDel js ++ map (LogAdd target) (map nt_meta nts)). rewrite !fold_left_app, replay_dels. fold st st1. split_and!.
    + cbn [manifest installed set_levels merged_state]. by rewrite log_adds_events, log_dels_events, Em.
    + apply Forall_app. split; [done|]. apply Forall_app. split.
      * apply Forall_fmap. eapply Forall_impl; [exact Hj|]. intros j Hjj. cbn in *. pose proof (len_nonneg nts). fits.
      * rewrite map_map. apply Forall_fmap, Forall_forall. intros nt Hnt. split; [apply Ht|]. by eapply new_meta_ok.
    + apply Forall_app. split; [done|]. apply Forall_app. split; [by apply Forall_fmap, Forall_forall|].
      rewrite map_map. apply Forall_fmap. eapply Forall_impl; [exact Hk|]. done.
    + exact E.
    + apply B; [cbn in *; pose proof (len_nonneg nts); lia|]. apply Forall_fmap, Forall_forall. intros nt Hnt. cbn.
      pose proof (new_tables_in _ _ _ _ Hn Hnt). lia.
  - cbn [levels st1 installed set_levels level_state]. rewrite El. apply Forall2_insert.
    + apply Forall2_fmap. eapply Forall2_impl; [exact P|]. intros a b. apply drop_ids_perm.
    + rewrite Hp, Permutation_app_comm. apply Permutation_app_head. unfold level, st1. cbn [levels]. rewrite El.
      rewrite (map_nth (drop_ids js) ls []). apply drop_ids_perm.
      destruct (lookup_lt_is_Some_2 ls target) as [a La]; [rewrite Ll; apply Ht|].
      destruct (Forall2_lookup_l _ _ _ _ _ P La) as (b & Lb & Pab). by rewrite (nth_lookup_Some _ _ [] _ La), (nth_lookup_Some _ _ [] _ Lb).
  - cbn [levels st1 installed set_levels level_state]. rewrite El. unfold level in *. cbn [levels].
    destruct target as [|n]; [lia|]. destruct ls as [|l0 ls]; [done|]. destruct (levels (level_state t)) as [|l0' ls']; [done|].
    cbn in E0 |- *. by subst l0'.
Qed.

Lemma installed_on_disk : on_disk (installed target js nts nl t).
Proof.
  split; [apply installed_logged| |].
  - apply Forall_forall. intros m Hm. apply installed_in in Hm as [(nt & Hnt & ->)|[Hm Hmj]].
    + destruct (new_tables_in _ _ _ _ Hn Hnt) as [B [W _]]. exists (nt_file nt), (nt_reader nt).
      cbn [files readers installed set_levels merged_state]. split_and!; [|apply W|].
      * rewrite remove_ids_lookup, bool_decide_false; [apply add_new_in; [by eapply new_tables_nodup|done]|].
        intros X. rewrite Forall_forall in Hj. apply Hj in X. lia.
      * apply add_new_in; [by eapply new_tables_nodup|done].
    + pose proof (od_files t Hd) as F. rewrite Forall_forall in F, Hid. destruct (F m Hm) as (file & r & Ef & Eo & Er).
      assert (Nn : sst_id m ∉ new_ids nts).
      { intros X. apply list_elem_of_fmap in X as (nt & E & Hnt). pose proof (new_tables_in _ _ _ _ Hn Hnt). apply Hid in Hm. lia. }
      exists file, r. cbn [files readers installed set_levels merged_state]. split_and!; [|done|].
      * rewrite remove_ids_lookup, bool_decide_false by done. unfold add_files. by rewrite add_new_out.
      * unfold add_readers. rewrite add_new_out by done. by rewrite remove_ids_lookup, bool_decide_false.
  - apply Forall_forall. intros m Hm. apply installed_in in Hm as [(nt & Hnt & ->)|[Hm _]].
    + rewrite Forall_forall in Hk. by apply Hk.
    + pose proof (od_keys t Hd) as F. rewrite Forall_forall in F. by apply F.
Qed.
End installed.

(** ** The invariant *)

Definition run (es : list lsm_entry) : Prop := keys_sorted es /\ Forall entry_fits es.

Record lsm_inv (t : LsmTree) : Prop := {
  inv_levels : length (levels (level_state t)) = MAX_LEVEL_COUNT;
  inv_mem : mem_wf (memtable t);
  inv_mem_fits : Forall entry_fits (mem_entries (memtable t));
  inv_imm : Forall (fun f => run (frozen_entries f)) (immutable_memtables t);
  inv_tables : Forall (table_ok crc32 (readers t)) (concat (levels (level_state t)));
  inv_order : Forall in_order (tail (levels (level_state t)));
  inv_nodup : NoDup (ids (concat (levels (level_state t))));
  inv_ids : Forall (fun m => 0 <= sst_id m < next_sst_id (level_state t)) (concat (levels (level_state t)));
  inv_next : 0 <= next_sst_id (level_state t)
}.

Lemma inv_scannable t : lsm_inv t -> scannable crc32 t.
Proof.
  intros I. split; [apply I| |apply I]. eapply Forall_impl; [apply (inv_imm t I)|]. intros f [K _]. exact K.
Qed.

(** The number of entries in all the sources. *)
Definition held (t : LsmTree) : Z := total_len (sources t).

Definition tables_of (ls : list (list SSTableMeta)) : list SSTableMeta := rev (nth 0 ls []) ++ concat (tail ls).

Lemma tables_of_perm ls : tables_of ls ≡ₚ concat ls.
Proof.
  unfold tables_of. destruct ls as [|l ls]; [done|]. cbn [nth tail concat]. apply Permutation_app_tail. symmetry. apply Permutation_rev.
Qed.

Lemma total_len_app {V} (a b : list (list V)) : total_len (a ++ b) = total_len a + total_len b.
Proof. unfold total_len. by rewrite concat_app, len_app. Qed.

Lemma total_len_nonneg {V} (a : list (list V)) : 0 <= total_len a.
Proof. apply len_nonneg. Qed.

Lemma total_len_perm rs a b : a ≡ₚ b -> total_len (map (contents rs) a) = total_len (map (contents rs) b).
Proof.
  intros P. unfold total_len, len. apply (fmap_Permutation (contents rs)) in P. change (contents rs <$> ?l) with (map (contents rs) l) in P.
  by rewrite P.
Qed.

Lemma held_split t : held t = total_len (mem_sources t) + total_len (map (contents (readers t)) (concat (levels (level_state t)))).
Proof.
  unfold held, sources. rewrite total_len_app. f_equal. apply total_len_perm. apply (tables_of_perm (levels (level_state t))).
Qed.

(** A state [t'] reached from [t] by compacting: what the tree holds is the same. *)
Record compacted (c : Z) (t t' : LsmTree) : Prop := {
  cp_inv : lsm_inv t';
  cp_mem : memtable t' = memtable t;
  cp_imm : immutable_memtables t' = immutable_memtables t;
  cp_limit : memtable_size_limit t' = memtable_size_limit t;
  cp_view : forall k, live (view (readers t') (tables t') k) = live (view (readers t) (tables t) k);
  cp_disk : on_disk t -> on_disk t';
  cp_held : held t' <= held t;
  cp_next : next_sst_id (level_state t) <= next_sst_id (level_state t') <= next_sst_id (level_state t) + c * held t
}.

Lemma compacted_refl t : lsm_inv t -> compacted 0 t t.
Proof. intros I. split; [done|done|done|done|done|done|lia|lia]. Qed.

Lemma compacted_trans c d t1 t2 t3 : 0 <= d -> compacted c t1 t2 -> compacted d t2 t3 -> compacted (c + d) t1 t3.
Proof.
  intros Hd [A1 A2 A3 A4 A5 AD A6 A7] [B1 B2 B3 B4 B5 BD B6 B7].
  split; [done|congruence|congruence|congruence| |by intros ?%AD%BD|lia|nia]. intros k. by rewrite B5, A5.
Qed.

Lemma view_app rs a b k : view rs (a ++ b) k = orelse (view rs a k) (view rs b k).
Proof. unfold view. by rewrite map_app, first_of_app. Qed.

Lemma view_ext rs rs' ms k : (forall m, m ∈ ms -> rs' !! sst_id m = rs !! sst_id m) -> view rs' ms k = view rs ms k.
Proof. intros H. unfold view. f_equal. apply map_ext_in. intros m Hm. apply contents_ext, H. by apply list_elem_of_In. Qed.

Lemma drop_all js ms : (forall m, m ∈ ms -> sst_id m ∈ js) -> drop_ids js ms = [].
Proof.
  unfold drop_ids. induction ms as [|m ms IH]; intros F; [done|]. cbn [List.filter].
  rewrite bool_decide_false by (intros X; apply X, F; left). apply IH. intros m' Hm. apply F. by right.
Qed.

Lemma drop_none js ms : (forall m, m ∈ ms -> sst_id m ∉ js) -> drop_ids js ms = ms.
Proof. intros F. apply forallb_filter_id, forallb_forall. intros m Hm. by apply bool_decide_eq_true_2, F, list_elem_of_In. Qed.

Lemma drop_none_all js ls : (forall m, m ∈ concat ls -> sst_id m ∉ js) -> map (drop_ids js) ls = ls.
Proof.
  induction ls as [|l ls IH]; intros F; [done|]. cbn [map concat] in *. rewrite drop_none, IH; [done| |].
  - intros m Hm. apply F, elem_of_app. by right.
  - intros m Hm. apply F, elem_of_app. by left.
Qed.

Lemma drop_inputs rest upper tgt min_key max_key :
  NoDup (ids (rest ++ upper ++ tgt)) ->
  drop_ids (ids (upper ++ overlapping tgt min_key max_key)) tgt ≡ₚ remaining_tables tgt min_key max_key.
Proof.
  intros N. rewrite (drop_ids_perm _ _ _ (split_tgt tgt min_key max_key)). unfold drop_ids. rewrite List.filter_app.
  set (js := ids _). fold (drop_ids js (overlapping tgt min_key max_key)) (drop_ids js (remaining_tables tgt min_key max_key)).
  rewrite drop_all, drop_none; [done| |].
  - intros m Hm. apply (stays rest upper tgt min_key max_key N m). apply elem_of_app. by right.
  - intros m Hm. apply list_elem_of_fmap_2, elem_of_app. by right.
Qed.

(** New tables have no empty key when their inputs have none. *)
Lemma new_keys t id nts (inputs : list SSTableMeta) :
  on_disk t -> (forall m, m ∈ inputs -> m ∈ concat (levels (level_state t)) /\ table_ok crc32 (readers t) m) ->
  new_tables crc32 id nts ->
  (forall nt k v, nt ∈ nts -> (k, v) ∈ nt_entries nt -> exists m, m ∈ inputs /\ (k, v) ∈ contents (readers t) m) ->
  Forall (fun nt => first_key (nt_meta nt) <> [] /\ last_key (nt_meta nt) <> []) nts.
Proof.
  intros D Hi Nts From. apply Forall_forall. intros nt Hnt. destruct (new_tables_in _ _ _ _ Nts Hnt) as [_ [W (Ne & _)]].
  pose proof (written_reads _ _ _ _ _ _ W) as R. pose proof (written_meta _ _ _ _ _ _ W) as M.
  assert (G : forall k v, (k, v) ∈ nt_entries nt -> k <> []).
  { intros k v Hk ->. destruct (From nt _ _ Hnt Hk) as (m & Hm & Hc). destruct (Hi m Hm) as [Hl T].
    pose proof (tbl_span _ _ _ _ _ T Hc) as [X _]. pose proof (od_keys t D) as F. rewrite Forall_forall in F. apply F in Hl.
    by destruct (first_key m). }
  rewrite <- M, (reads_first _ _ _ R), (reads_last _ _ _ R). split.
  - destruct (block_key_in _ Ne) as [v Hv]. by eapply G.
  - destruct (last (nt_entries nt)) as [[k v]|] eqn:L; [|by apply last_None in L]. apply last_Some_elem_of in L. cbn. by eapply G.
Qed.

(** A merge whose outputs are installed by [place]: the tables before and after
    the merged ones in the order of search stay where they are. *)
Lemma merge_install t target before upper tgt after min_key max_key is_bottom place :
  lsm_inv t -> next_sst_id (level_state t) + held t < 2 ^ 64 - 1 -> (1 <= target < MAX_LEVEL_COUNT)%nat ->
  concat (levels (level_state t)) ≡ₚ (before ++ after) ++ upper ++ tgt -> in_order tgt -> level target (level_state t) = tgt ->
  Forall (fun m => ble min_key (first_key m) /\ ble (last_key m) max_key) upper ->
  (is_bottom = true -> after = []) ->
  (forall k, view (readers t) (tables t) k = view (readers t) (before ++ (upper ++ tgt) ++ after) k) ->
  (forall nl, in_order nl -> length (place nl) = MAX_LEVEL_COUNT /\ Forall in_order (tail (place nl)) /\
              tables_of (place nl) = before ++ nl ++ after /\
              place nl = <[target := nl]> (map (drop_ids (ids (upper ++ overlapping tgt min_key max_key))) (levels (level_state t)))) ->
  exists nts, let t' := merged_state target (ids (upper ++ overlapping tgt min_key max_key)) nts t in
    merge_tables crc32 target (upper ++ overlapping tgt min_key max_key) is_bottom t = (Ok (map nt_meta nts), t') /\
    new_tables crc32 (next_sst_id (level_state t)) nts /\
    compacted 1 t (set_levels (mkLevels (place (merged_level tgt min_key max_key (map nt_meta nts)))
                                 (next_sst_id (level_state t'))) t').
Proof.
  intros I Room Htg P Ho Htl Hull Hb Hv Hp. pose proof (inv_tables t I) as Ft. pose proof (inv_nodup t I) as Nd. pose proof (inv_ids t I) as Fi.
  unfold ids in Nd. rewrite P in Ft, Nd, Fi. pose proof (held_split t) as Hh. rewrite (total_len_perm _ _ _ P), map_app, total_len_app in Hh.
  pose proof (total_len_nonneg (mem_sources t)). pose proof (total_len_nonneg (map (contents (readers t)) (before ++ after))).
  pose proof (total_len_nonneg (map (contents (readers t)) (upper ++ tgt))).
  destruct (merge_step t target (before ++ after) upper tgt min_key max_key is_bottom Ft Ho Hull Nd Fi (inv_next t I))
    as (nts & E & Nts & From & Same & Fl & Ol & Pl & Nl & Il & L1 & L2 & V); [lia|].
  exists nts. cbn zeta in *. split; [done|]. split; [done|].
  set (t1 := merged_state _ _ nts t) in *. set (nl := merged_level _ _ _ _) in *. destruct (Hp nl Ol) as (Hlen & Hord & Htab & Hpl).
  assert (Pn : concat (place nl) ≡ₚ (before ++ after) ++ nl) by (rewrite <- tables_of_perm, Htab; solve_Permutation).
  assert (Rest : forall m, m ∈ before ++ after -> readers t1 !! sst_id m = readers t !! sst_id m).
  { intros m Hm. apply Same, elem_of_app. by left. }
  assert (Fr : Forall (table_ok crc32 (readers t1)) (before ++ after)).
  { apply Forall_app in Ft as [Fr _]. rewrite Forall_forall in Fr |- *. intros m Hm. eapply table_ok_ext; [by apply Rest|by apply Fr]. }
  pose proof (len_nonneg nts). split; cbn [memtable immutable_memtables memtable_size_limit level_state set_levels levels next_sst_id readers]; try done.
  - split; cbn [memtable immutable_memtables level_state set_levels levels next_sst_id readers]; try apply I; try done.
    + rewrite Pn. by apply Forall_app.
    + unfold ids. by rewrite Pn.
    + by rewrite Pn.
    + cbn. pose proof (inv_next t I). lia.
  - intros k. unfold tables at 1. cbn [level_state set_levels levels readers]. unfold level. cbn [levels]. fold (tables_of (place nl)).
    rewrite Hv, Htab, !view_app.
    rewrite (view_ext (readers t) (readers t1) before) by (intros; apply Rest, elem_of_app; by left).
    rewrite (view_ext (readers t) (readers t1) after) by (intros; apply Rest, elem_of_app; by right).
    rewrite <- view_app. destruct (V k) as [->|(B & -> & ->)]; [done|]. rewrite (Hb B). by destruct (view (readers t) before k).
  - intros D. rewrite Hpl. apply (installed_on_disk t target (ids (upper ++ overlapping tgt min_key max_key)) nts nl); try done; try lia.
    + apply I.
    + apply Forall_fmap. rewrite Forall_forall in Fi |- *. intros m Hm. apply Fi, elem_of_app. right. rewrite elem_of_app in Hm |- *.
      destruct Hm as [Hm|Hm]; [by left|right]. by apply in_overlapping in Hm as [? _].
    + apply I.
    + by apply (inv_next t I).
    + eapply new_keys; [done| |exact Nts|exact From]. intros m Hm. rewrite Forall_forall in Ft.
      assert (X : m ∈ (before ++ after) ++ upper ++ tgt).
      { apply elem_of_app. right. rewrite !elem_of_app in Hm |- *. destruct Hm as [Hm|Hm]; [by left|right]. by apply in_overlapping in Hm as [? _]. }
      split; [by rewrite P|by apply Ft].
    + rewrite Htl, Pl. apply Permutation_app_head. symmetry. by eapply drop_inputs.
  - rewrite held_split. cbn [level_state set_levels levels readers]. rewrite (total_len_perm _ _ _ Pn), map_app, total_len_app.
    change (mem_sources (set_levels _ t1)) with (mem_sources t).
    replace (map (contents (readers t1)) (before ++ after)) with (map (contents (readers t)) (before ++ after)).
    2: { apply map_ext_in. intros m Hm. symmetry. apply contents_ext, Rest. by apply list_elem_of_In. }
    lia.
  - change (next_sst_id (level_state t1)) with (next_sst_id (level_state t) + len nts). lia.
Qed.

(** ** Compactions *)

Lemma compacted_weaken c d t t' : c <= d -> compacted c t t' -> compacted d t t'.
Proof.
  intros Hle [A1 A2 A3 A4 A5 AD A6 A7]. split; try done. pose proof (total_len_nonneg (sources t)) as H. fold (held t) in H. nia.
Qed.

Lemma span_min_le l k : ble (fold_left span_min l k) k /\ Forall (fun m => ble (fold_left span_min l k) (first_key m)) l.
Proof.
  revert k. induction l as [|m l IH]; intros k; cbn [fold_left]; [split; [done|constructor]|].
  destruct (IH (span_min k m)) as [H F]. assert (B : ble (span_min k m) k /\ ble (span_min k m) (first_key m)).
  { unfold span_min. destruct (bltb (first_key m) k) eqn:B.
    - apply bltb_spec in B. split; [by apply blt_ble|done].
    - split; [done|]. apply ble_not_lt. intros X. apply bltb_spec in X. congruence. }
  destruct B. split; [by etrans|]. constructor; [by etrans|done].
Qed.

Lemma span_max_ge l k : ble k (fold_left span_max l k) /\ Forall (fun m => ble (last_key m) (fold_left span_max l k)) l.
Proof.
  revert k. induction l as [|m l IH]; intros k; cbn [fold_left]; [split; [done|constructor]|].
  destruct (IH (span_max k m)) as [H F]. assert (B : ble k (span_max k m) /\ ble (last_key m) (span_max k m)).
  { unfold span_max. destruct (bltb k (last_key m)) eqn:B.
    - apply bltb_spec in B. split; [by apply blt_ble|done].
    - split; [done|]. apply ble_not_lt. intros X. apply bltb_spec in X. congruence. }
  destruct B. split; [by etrans|]. constructor; [by etrans|done].
Qed.

Lemma bottom_empty n st :
  length (levels st) = MAX_LEVEL_COUNT -> is_bottom_level n st = true -> concat (drop (S n) (levels st)) = [].
Proof.
  intros L B. unfold is_bottom_level in B. rewrite forallb_forall in B.
  assert (F : Forall (fun l => l = []) (drop (S n) (levels st))).
  { apply Forall_lookup. intros j l Hj. rewrite lookup_drop in Hj. pose proof (lookup_lt_Some _ _ _ Hj) as Hlt.
    specialize (B (S n + j)%nat). rewrite in_seq in B. unfold level in B. rewrite (nth_lookup_Some _ _ [] _ Hj) in B.
    destruct l; [done|]. specialize (B ltac:(lia)). done. }
  clear -F. induction F as [|l ls -> F IH]; [done|]. exact IH.
Qed.

Lemma compact_l0_ok t :
  lsm_inv t -> next_sst_id (level_state t) + held t < 2 ^ 64 - 1 ->
  exists t', compact_l0 crc32 t = (Ok tt, t') /\ compacted 1 t t'.
Proof.
  intros I Room. pose proof (inv_levels t I) as L. pose proof (inv_order t I) as O.
  destruct (levels (level_state t)) as [|l0 [|l1 deep]] eqn:E; [done|done|]. cbn [tail] in O. apply Forall_cons_1 in O as [O1 Od].
  unfold compact_l0, mbind at 1, M_bind at 1, gets at 1. unfold level. rewrite E. cbn [nth].
  destruct l0 as [|m0 l0]; [exists t; split; [done|]; eapply compacted_weaken; [|by apply compacted_refl]; lia|].
  assert (P : concat (levels (level_state t)) ≡ₚ ([] ++ concat deep) ++ rev (m0 :: l0) ++ l1).
  { rewrite E. cbn [concat app]. rewrite <- Permutation_rev. solve_Permutation. }
  assert (level1 : level 1 (level_state t) = l1) by (unfold level; by rewrite E).
  set (min_key := fold_left span_min (m0 :: l0) (first_key m0)). set (max_key := fold_left span_max (m0 :: l0) (last_key m0)).
  destruct (merge_install t 1 [] (rev (m0 :: l0)) l1 (concat deep) min_key max_key (is_bottom_level 1 (level_state t))
    (fun nl => [] :: nl :: deep)) as (nts & Run & _ & C); [done|done|unfold MAX_LEVEL_COUNT; lia|exact P|done|by rewrite level1| | | | |].
  - rewrite <- Permutation_rev. apply Forall_and. split; [apply span_min_le|apply span_max_ge].
  - intros B. apply bottom_empty in B; [|by rewrite E]. rewrite E in B. done.
  - intros k. unfold tables, level. rewrite E. cbn [nth tail concat app]. by rewrite <- app_assoc.
  - intros nl Hnl. split; [exact L|]. split; [by constructor|]. split; [done|]. rewrite E. cbn [map]. pose proof (inv_nodup t I) as N.
    unfold ids in N. rewrite P in N. rewrite drop_all, (drop_none_all _ deep); [done| |].
    + intros m Hm. apply (stays _ _ _ _ _ N), elem_of_app. by left.
    + intros m Hm. apply list_elem_of_fmap_2, elem_of_app. left. by rewrite <- Permutation_rev.
  - cbn zeta in Run, C. unfold overlapping in Run, C. unfold mbind, M_bind. rewrite Run. eexists. split; [reflexivity|].
    unfold modify. cbn [snd]. replace (set_level 1 _ _) with (mkLevels ([] :: merged_level l1 min_key max_key (map nt_meta nts) :: deep)
      (next_sst_id (level_state t) + len nts)); [exact C|]. unfold set_level, merged_state. cbn [level_state levels next_sst_id]. by rewrite E.
Qed.

Lemma insert_here {A} (pre : list A) a x l n : length pre = n -> <[n := x]> (pre ++ a :: l) = pre ++ x :: l.
Proof. intros <-. rewrite <- (Nat.add_0_r (length pre)). by rewrite insert_app_r. Qed.

Lemma drop_id_head m ms : NoDup (ids (m :: ms)) -> drop_id (sst_id m) (m :: ms) = ms.
Proof.
  intros N. unfold drop_id. cbn [List.filter]. rewrite Z.eqb_refl. cbn [negb]. apply NoDup_cons in N as [N _].
  apply forallb_filter_id. apply forallb_forall. intros x Hx. apply negb_true_iff, Z.eqb_neq. intros E. apply N.
  rewrite <- E. apply list_elem_of_fmap_2. by apply list_elem_of_In.
Qed.

(** The level and the one below it in the vector. *)
Lemma levels_split (ls : list (list SSTableMeta)) n :
  (1 <= n)%nat -> (S n < length ls)%nat ->
  exists l0 pre ln lt post, ls = (l0 :: pre) ++ ln :: lt :: post /\ S (length pre) = n.
Proof.
  intros H1 H2. destruct (lookup_lt_is_Some_2 ls n) as [ln Ln]; [lia|]. destruct (lookup_lt_is_Some_2 ls (S n) H2) as [lt Lt].
  pose proof (take_drop_middle _ _ _ Ln) as X. rewrite (drop_S _ _ _ Lt) in X. pose proof (length_take ls n) as T.
  destruct (take n ls) as [|l0 pre]; cbn [length] in T; [lia|].
  exists l0, pre, ln, lt, (drop (S (S n)) ls). split; [exact (eq_sym X)|lia].
Qed.

Lemma insert_second {A} (pre : list A) a b x l n : length pre = n -> <[S n := x]> (pre ++ a :: b :: l) = pre ++ a :: x :: l.
Proof.
  intros <-. pose proof (insert_here (pre ++ [a]) b x l (S (length pre))) as Q. rewrite <- !app_assoc in Q. apply Q.
  rewrite length_app. cbn. lia.
Qed.

(** The levels with the inputs dropped and the new tables put in the second. *)
Lemma place_picked js l0 pre picked rl lt post nl n :
  S (length pre) = n -> (forall m, m ∈ (rev l0 ++ concat pre ++ rl) ++ concat post -> sst_id m ∉ js) -> sst_id picked ∈ js ->
  (l0 :: pre) ++ rl :: nl :: post = <[S n := nl]> (map (drop_ids js) ((l0 :: pre) ++ (picked :: rl) :: lt :: post)).
Proof.
  intros Hn K Hp.
  assert (E1 : map (drop_ids js) (l0 :: pre) = l0 :: pre).
  { apply drop_none_all. cbn [concat]. intros m Hm. apply K. rewrite !elem_of_app in *. rewrite <- Permutation_rev. naive_solver. }
  assert (E2 : drop_ids js (picked :: rl) = rl).
  { unfold drop_ids. cbn [List.filter]. rewrite bool_decide_false by (by intros X; apply X). apply drop_none. intros m Hm. apply K.
    rewrite !elem_of_app. naive_solver. }
  rewrite map_app, E1. cbn [map]. rewrite E2, (drop_none_all _ post).
  2: { intros m Hm. apply K. rewrite !elem_of_app. naive_solver. }
  symmetry. by apply insert_second.
Qed.

(** Taking the first table of a level out of the order of search changes nothing. *)
Lemma picked_last rs picked rl k :
  Forall (table_ok crc32 rs) (picked :: rl) -> in_order (picked :: rl) -> view rs (picked :: rl) k = view rs (rl ++ [picked]) k.
Proof.
  intros F O. apply view_agree; [by apply (disjoint_agree crc32)|].
  intros m. rewrite elem_of_app, elem_of_cons, list_elem_of_singleton. naive_solver.
Qed.

Lemma compact_level_ok n t :
  (1 <= n < MAX_LEVEL_COUNT - 1)%nat -> lsm_inv t -> next_sst_id (level_state t) + held t < 2 ^ 64 - 1 ->
  exists t', compact_level crc32 n t = (Ok tt, t') /\ compacted 1 t t'.
Proof.
  intros Hn I Room. pose proof (inv_levels t I) as L. pose proof (inv_order t I) as O. pose proof (inv_nodup t I) as N.
  unfold MAX_LEVEL_COUNT in *.
  destruct (levels_split (levels (level_state t)) n) as (l0 & pre & ln & lt & post & E & Lp); [lia|lia|].
  assert (Ho : Forall in_order pre /\ in_order ln /\ in_order lt /\ Forall in_order post).
  { rewrite E in O. cbn [app tail] in O. apply Forall_app in O as [? O]. apply Forall_cons_1 in O as [? O]. by apply Forall_cons_1 in O as [? ?]. }
  destruct Ho as (Op & On & Ot & Oq).
  assert (Ln : level n (level_state t) = ln) by (unfold level; rewrite E, <- Lp; apply (nth_middle (l0 :: pre) (lt :: post) ln [])).
  assert (Lt : level (S n) (level_state t) = lt).
  { unfold level. rewrite E, cons_middle, app_assoc. rewrite <- Lp. replace (S (S (length pre))) with (length ((l0 :: pre) ++ [ln])) by (cbn; rewrite length_app; cbn; lia). apply nth_middle. }
  unfold compact_level. unfold MAX_LEVEL_COUNT. destruct (Nat.leb_spec 1 n); [|lia]. destruct (Nat.ltb_spec n (7 - 1)); [|lia]. cbn [andb negb].
  unfold mbind at 1, M_bind at 1, gets at 1. rewrite Ln, Lt.
  destruct ln as [|picked rl]; [exists t; split; [done|]; eapply compacted_weaken; [|by apply compacted_refl]; lia|].
  apply StronglySorted_inv in On as On'. destruct On' as [Or _].
  assert (Fp : Forall (table_ok crc32 (readers t)) (picked :: rl) /\ NoDup (ids (picked :: rl))).
  { pose proof (inv_tables t I) as F. pose proof N as N'. rewrite E in F, N'. cbn [app concat] in F, N'. rewrite concat_app in F, N'.
    cbn [concat] in F, N'. unfold ids in *. rewrite !map_app in N'. apply Forall_app in F as [_ F]. apply Forall_app in F as [_ F].
    apply Forall_app in F as [F _]. apply NoDup_app in N' as (_ & _ & N'). apply NoDup_app in N' as (_ & _ & N').
    apply NoDup_app in N' as (N' & _). done. }
  destruct Fp as [Fp Np].
  assert (P : concat (levels (level_state t)) ≡ₚ ((rev l0 ++ concat pre ++ rl) ++ concat post) ++ [picked] ++ lt).
  { rewrite E. cbn [concat app]. rewrite concat_app. cbn [concat]. rewrite <- Permutation_rev. solve_Permutation. }
  destruct (merge_install t (S n) (rev l0 ++ concat pre ++ rl) [picked] lt (concat post) (first_key picked) (last_key picked)
    (is_bottom_level (S n) (level_state t)) (fun nl => (l0 :: pre) ++ rl :: nl :: post)) as (nts & Run & _ & C);
    [done|done|unfold MAX_LEVEL_COUNT; lia|exact P|done|done| | | | |].
  - by repeat constructor.
  - intros B. apply bottom_empty in B; [|exact L]. rewrite E, <- Lp in B.
    change ((l0 :: pre) ++ (picked :: rl) :: lt :: post) with ((l0 :: pre) ++ [picked :: rl; lt] ++ post) in B. rewrite app_assoc in B.
    rewrite drop_app_length' in B; [done|]. rewrite length_app. cbn. lia.
  - intros k. unfold tables, level. rewrite E. cbn [nth tail app]. rewrite concat_app. cbn [concat].
    rewrite <- !app_assoc, !view_app, picked_last, !view_app, !orelse_assoc; [|done|done].
    change (picked :: lt ++ concat post) with ([picked] ++ lt ++ concat post). by rewrite !view_app.
  - intros nl Hnl. split_and!.
    + rewrite E in L. rewrite length_app in L |- *. exact L.
    + cbn [app tail]. apply Forall_app. split; [done|]. by repeat constructor.
    + unfold tables_of. cbn [nth tail app]. rewrite concat_app. cbn [concat]. by rewrite <- !app_assoc.
    + assert (Keep : forall m, m ∈ (rev l0 ++ concat pre ++ rl) ++ concat post -> sst_id m ∉ ids ([picked] ++ overlapping lt (first_key picked) (last_key picked))).
      { intros m Hm. unfold ids in N. rewrite P in N. apply (stays _ _ _ _ _ N), elem_of_app. by left. }
      rewrite E. apply place_picked; [done|done|]. left.
  - cbn zeta in Run, C. unfold overlapping in Run, C. unfold mbind, M_bind. change ([picked] ++ ?l) with (picked :: l) in Run, C.
    rewrite Run. eexists. split; [reflexivity|]. unfold modify. cbn [snd].
    replace (set_level (S n) _ _) with (mkLevels ((l0 :: pre) ++ rl :: merged_level lt (first_key picked) (last_key picked) (map nt_meta nts) :: post)
      (next_sst_id (level_state t) + len nts)); [exact C|].
    unfold set_level, merged_state, level. cbn [level_state levels next_sst_id]. fold (level n (level_state t)). rewrite Ln, E.
    rewrite drop_id_head.
    + rewrite insert_here by done. by rewrite insert_second.
    + done.
Qed.

(** ** Size limits *)

Lemma sum_sizes_ok ms :
  Forall (fun m => 0 <= file_size m < 2 ^ 34) ms -> len ms < 2 ^ 30 ->
  exists s, sum_sizes ms = Ok s /\ 0 <= s < 2 ^ 64.
Proof.
  intros F N. unfold sum_sizes.
  assert (G : forall a, 0 <= a -> a + 2 ^ 34 * len ms < 2 ^ 64 ->
    exists s, fold_left (fun acc m => total ← acc; @arith Error in_u64 (total + file_size m)) ms (Ok a) = Ok s /\ 0 <= s < 2 ^ 64).
  { clear N. induction F as [|m ms Hm F IH]; intros a Ha Hb.
    - exists a. cbn [fold_left]. split; [done|]. change (len (@nil SSTableMeta)) with 0 in Hb. lia.
    - rewrite len_cons in Hb. pose proof (len_nonneg ms). cbn [fold_left mbind outcome_bind].
      unfold arith at 2. replace (in_u64 (a + file_size m)) with true by (symmetry; fits). apply IH; lia. }
  apply G; [lia|]. lia.
Qed.

Lemma level_tables t n :
  lsm_inv t -> len (level n (level_state t)) <= held t /\ Forall (fun m => 0 <= file_size m < 2 ^ 34) (level n (level_state t)).
Proof.
  intros I. pose proof (inv_tables t I) as F. pose proof (held_split t) as H. pose proof (total_len_nonneg (mem_sources t)).
  assert (G : forall ms, Forall (table_ok crc32 (readers t)) ms -> len ms <= total_len (map (contents (readers t)) ms)).
  { induction 1 as [|m ms T Fm IH]; [done|]. unfold total_len in *. cbn [map concat]. rewrite len_cons, len_app.
    pose proof (tbl_some _ _ _ T) as Ne. destruct (contents (readers t) m) as [|e es]; [done|]. rewrite len_cons. pose proof (len_nonneg es). lia. }
  unfold level. destruct (nth_in_or_default n (levels (level_state t)) []) as [Hin| ->].
  - apply in_split in Hin as (a & b & E). rewrite E in F, H. rewrite concat_app in F, H. cbn [concat] in F, H.
    apply Forall_app in F as [_ F]. apply Forall_app in F as [F _]. pose proof (G _ F) as Gl.
    rewrite !map_app, !total_len_app in H. pose proof (total_len_nonneg (map (contents (readers t)) (concat a))).
    pose proof (total_len_nonneg (map (contents (readers t)) (concat b))). split; [lia|].
    eapply Forall_impl; [exact F|]. intros m T. apply T.
  - split; [|constructor]. change (len (@nil SSTableMeta)) with 0. unfold held. apply total_len_nonneg.
Qed.

Lemma level_size_limit_ok n lim :
  (1 <= n < MAX_LEVEL_COUNT - 1)%nat -> 0 <= lim < 2 ^ 40 -> exists l, level_size_limit n lim = Ok l.
Proof.
  unfold MAX_LEVEL_COUNT. intros Hn Hl. unfold level_size_limit, MAX_L0_SSTABLE_COUNT. destruct (Nat.ltb_spec n 1); [lia|].
  rewrite arith_bind by fits. cbv beta.
  assert (G : forall i a, 0 <= a -> a * 10 ^ Z.of_nat i < 2 ^ 64 -> exists l, times_ratio i a = Ok l).
  { induction i as [|i IH]; intros a Ha Hb; [by exists a|]. cbn [times_ratio]. unfold LEVEL_SIZE_RATIO.
    rewrite Nat2Z.inj_succ, Z.pow_succ_r in Hb by lia. assert (1 <= 10 ^ Z.of_nat i) by (apply (Z.pow_le_mono_r 10 0); lia).
    rewrite arith_bind by (unfold in_u64; apply andb_true_iff; rewrite Z.leb_le, Z.ltb_lt; nia). cbv beta. apply IH; nia. }
  apply G; [lia|]. assert (n - 1 <= 4)%nat by lia. assert (10 ^ Z.of_nat (n - 1) <= 10000) by (apply (Z.pow_le_mono_r 10 _ 4); lia). nia.
Qed.

Lemma cascade_ok ns t :
  Forall (fun n => 1 <= n < MAX_LEVEL_COUNT - 1)%nat ns -> lsm_inv t -> 0 <= memtable_size_limit t < 2 ^ 40 ->
  held t < 2 ^ 30 -> next_sst_id (level_state t) + len ns * held t < 2 ^ 64 - 1 ->
  exists t', cascade crc32 ns t = (Ok tt, t') /\ compacted (len ns) t t'.
Proof.
  intros F. revert t. induction F as [|n ns Hn F IH]; intros t I Hl Hh Hr; cbn [cascade].
  { exists t. split; [done|by apply compacted_refl]. }
  rewrite len_cons in Hr |- *. pose proof (len_nonneg ns). pose proof (total_len_nonneg (sources t)) as H0. fold (held t) in H0.
  unfold mbind at 1, M_bind at 1, gets at 1, id at 1.
  destruct (level_size_limit_ok n (memtable_size_limit t) Hn Hl) as [l El]. unfold mbind at 1, M_bind at 1, pure at 1. cbn [id]. rewrite El.
  destruct (level_tables t n I) as [Hn1 Hs]. destruct (sum_sizes_ok _ Hs ltac:(lia)) as (sz & Es & _).
  unfold mbind at 1, M_bind at 1, pure at 1. unfold level_size. destruct (Nat.leb_spec MAX_LEVEL_COUNT n); [unfold MAX_LEVEL_COUNT in *; lia|]. rewrite Es.
  assert (exists t1, (if l <? sz then compact_level crc32 n else mret tt) t = (Ok tt, t1) /\ compacted 1 t t1) as (t1 & E1 & C1).
  { destruct (l <? sz); [apply compact_level_ok; [done|done|nia]|]. exists t. split; [done|]. eapply compacted_weaken; [|by apply compacted_refl]. lia. }
  unfold mbind, M_bind. rewrite E1. pose proof C1 as [I1 _ _ L1 _ _ Hh1 N1].
  destruct (IH t1) as (t2 & E2 & C2); [done|by rewrite L1|lia|nia|]. exists t2. split; [done|]. by eapply compacted_trans.
Qed.

Lemma maybe_compact_ok t :
  lsm_inv t -> 0 <= memtable_size_limit t < 2 ^ 40 -> held t < 2 ^ 30 ->
  next_sst_id (level_state t) + 6 * held t < 2 ^ 64 - 1 ->
  exists t', maybe_compact crc32 t = (Ok tt, t') /\ compacted 6 t t'.
Proof.
  intros I Hl Hh Hr. pose proof (total_len_nonneg (sources t)) as H0. fold (held t) in H0. unfold maybe_compact.
  unfold mbind at 1, M_bind at 1, gets at 1.
  assert (exists t1, (if MAX_L0_SSTABLE_COUNT <=? len (level 0 (level_state t)) then compact_l0 crc32 else mret tt) t = (Ok tt, t1) /\
    compacted 1 t t1) as (t1 & E1 & C1).
  { destruct (_ <=? _); [apply compact_l0_ok; [done|lia]|]. exists t. split; [done|]. eapply compacted_weaken; [|by apply compacted_refl]. lia. }
  unfold mbind, M_bind. rewrite E1. pose proof C1 as [I1 _ _ L1 _ _ Hh1 N1].
  destruct (cascade_ok (seq 1 (MAX_LEVEL_COUNT - 2)) t1) as (t2 & E2 & C2); [|done|by rewrite L1|lia| |].
  - apply Forall_forall. intros n Hn. rewrite list_elem_of_In, in_seq in Hn. unfold MAX_LEVEL_COUNT in *. lia.
  - change (len (seq 1 (MAX_LEVEL_COUNT - 2))) with 5. lia.
  - exists t2. split; [done|]. change 6 with (1 + 5). by eapply compacted_trans.
Qed.
End inv.
