(* ===== verification/LsmFlush.v ===== *)
(** Flushing an LSM tree: freezing the memtable, writing its table and publishing
    it keep what the tree holds, whatever other threads write in between (the
    phases of [LsmTree::flush] of crates/idb-storage/src/engines/lsm/mod.rs,
    defined in LsmTree.v). *)

From Stdlib Require Import ZArith Lia List Bool.
From S2P Require Import Prelude Common Engine Bloom Merge SsTable Manifest LsmTree LsmView LsmCompact LsmInv.
From coqutil Require Import Byte Word.LittleEndianList.
From stdpp Require Import base gmap list strings sorting.
#[local] Open Scope Z_scope.

(** Where the one flush that holds the flush lock stands. *)
Inductive Flight :=
| Idle
| Frozen (f : FrozenMemtable)
| TableWritten (f : FrozenMemtable) (m : SSTableMeta) (r : SSTableReader).

Section flush.
Context (crc32 : bytes -> Z).
Hypothesis crc32_u32 : forall b, in_u32 (crc32 b) = true.

(** The identifier of the frozen memtable is its own. *)
Definition frozen_ok (f : FrozenMemtable) (t : LsmTree) : Prop :=
  immutable_memtables t = [f] /\ run_ok (frozen_entries f) /\ 0 <= arc f < next_sst_id (level_state t) /\
  arc f ∉ ids (concat (levels (level_state t))).

Definition flight_ok (fl : Flight) (t : LsmTree) : Prop :=
  match fl with
  | Idle => immutable_memtables t = []
  | Frozen f => frozen_ok f t
  | TableWritten f m r => frozen_ok f t /\ exists file, written crc32 (arc f) (frozen_entries f) m file r
  end.

(** Counters far enough from the ends of their types. *)
Definition room (t : LsmTree) : Prop :=
  held t < 2 ^ 29 /\ next_sst_id (level_state t) + 12 * held t < 2 ^ 64 - 2 /\ 0 <= memtable_size_limit t < 2 ^ 40.

Definition no_empty_keys (es : list lsm_entry) : Prop := Forall (fun e => e.1 <> []) es.

(** The tree with the table in the first level. *)
Definition published (m : SSTableMeta) (r : SSTableReader) (t : LsmTree) : LsmTree :=
  set_levels (set_level 0 (level 0 (level_state t) ++ [m]) (level_state t)) (set_readers (<[sst_id m := r]> (readers t)) t).

(** What would be found after a restart: a written table is already logged. *)
Definition durable (fl : Flight) (t : LsmTree) : Prop :=
  no_empty_keys (mem_entries (memtable t)) /\
  Forall (fun f => no_empty_keys (frozen_entries f)) (immutable_memtables t) /\
  match fl with TableWritten f m r => on_disk crc32 (published m r t) | _ => on_disk crc32 t end.

Lemma held_mem t : held t = len (mem_entries (memtable t)) + total_len (map frozen_entries (immutable_memtables t)) +
  total_len (map (contents (readers t)) (concat (levels (level_state t)))).
Proof.
  rewrite held_split. unfold mem_sources, total_len at 1. cbn [concat]. rewrite len_app. f_equal. f_equal.
  unfold total_len, len. by rewrite <- Permutation_rev.
Qed.

Lemma alloc_id_ok t :
  0 <= next_sst_id (level_state t) < 2 ^ 64 - 1 ->
  alloc_id t = (Ok (next_sst_id (level_state t)), set_levels (mkLevels (levels (level_state t)) (next_sst_id (level_state t) + 1)) t).
Proof.
  intros H. unfold alloc_id, next_id. rewrite arith_bind by fits. cbv beta. done.
Qed.

(** ** Freezing *)

Definition frozen_state (t : LsmTree) : LsmTree :=
  mkTree mem_new (immutable_memtables t ++ [mkFrozen (next_sst_id (level_state t)) (mem_entries (memtable t))])
    (mkLevels (levels (level_state t)) (next_sst_id (level_state t) + 1)) (readers t) (manifest t) (files t) (memtable_size_limit t).

(** The flush has nothing to do. *)
Definition nothing_to_flush (force : bool) (t : LsmTree) : bool :=
  (len (mem_entries (memtable t)) =? 0) || (negb force && (size_bytes (memtable t) <? memtable_size_limit t)).

Lemma flush_freeze_run force t :
  lsm_inv crc32 t -> room t ->
  flush_freeze force t =
    if nothing_to_flush force t then (Ok None, t)
    else (Ok (Some (mkFrozen (next_sst_id (level_state t)) (mem_entries (memtable t)))), frozen_state t).
Proof.
  intros I (R1 & R2 & _). pose proof (inv_next _ t I). pose proof (total_len_nonneg (sources t)) as H0. fold (held t) in H0.
  unfold flush_freeze, nothing_to_flush, mbind, M_bind, gets, modify, mret, M_ret. cbn [id].
  destruct (len _ =? 0); [done|]. destruct (negb force && _); [done|]. cbn [orb]. rewrite alloc_id_ok by (cbn; lia). done.
Qed.

Lemma freeze_ok t :
  lsm_inv crc32 t -> flight_ok Idle t -> len (mem_entries (memtable t)) < 2 ^ 20 -> mem_entries (memtable t) <> [] ->
  let f := mkFrozen (next_sst_id (level_state t)) (mem_entries (memtable t)) in let t' := frozen_state t in
  lsm_inv crc32 t' /\ flight_ok (Frozen f) t' /\ (forall k, value_of t' k = value_of t k) /\ held t' = held t /\
  (durable Idle t -> durable (Frozen f) t').
Proof.
  intros I Fl L Ne f t'. cbn in Fl. pose proof I as [I1 I2 I3 I4 I5 I6 I7 I8 I9].
  split_and!.
  - split; cbn [t' frozen_state memtable immutable_memtables level_state levels next_sst_id readers]; try done; try lia.
    + split; [constructor|done].
    + rewrite Fl. cbn [app]. constructor; [|constructor]. split; [apply I2|done].
    + eapply Forall_impl; [exact I8|]. cbn. lia.
  - cbn [flight_ok]. unfold frozen_ok. cbn. rewrite Fl. split; [done|]. split; [split_and!; [done|apply I2|done|done]|]. split; [lia|].
    intros X. apply list_elem_of_fmap in X as (m & E & Hm). rewrite Forall_forall in I8. apply I8 in Hm. lia.
  - intros k. unfold value_of, sources, mem_sources. cbn [t' frozen_state memtable immutable_memtables readers]. rewrite Fl. cbn. done.
  - rewrite !held_mem. cbn [t' frozen_state memtable immutable_memtables readers level_state levels]. rewrite Fl. unfold total_len at 1 3. cbn.
    rewrite app_nil_r. change (len (@nil lsm_entry)) with 0. lia.
  - intros (D1 & D2 & D3). split_and!; cbn [t' frozen_state memtable immutable_memtables].
    + constructor.
    + rewrite Fl. cbn [app]. by repeat constructor.
    + destruct D3 as [(ls & (evs & E1 & E2 & E3 & E4 & E5) & P & E0) F K]. split; [|exact F|exact K]. exists ls. split; [|done].
      exists evs. split_and!; try done. cbn in *. lia.
Qed.

(** ** Writing the table *)

Lemma published_concat m r t :
  length (levels (level_state t)) = MAX_LEVEL_COUNT -> concat (levels (level_state (published m r t))) ≡ₚ m :: concat (levels (level_state t)).
Proof.
  intros L. cbn. unfold level. destruct (levels (level_state t)) as [|l0 ls]; [done|]. cbn [nth concat]. 
  change (<[0%nat := l0 ++ [m]]> (l0 :: ls)) with ((l0 ++ [m]) :: ls). cbn [concat]. solve_Permutation.
Qed.

Definition written_state (f : FrozenMemtable) (m : SSTableMeta) (file : bytes) (t : LsmTree) : LsmTree :=
  set_manifest (log_add 0 m (manifest t)) (set_files (<[arc f := file]> (files t)) t).

(** A table on disk that is not in the levels yet. *)
Lemma logged_add f m file r t :
  lsm_inv crc32 t -> frozen_ok f t -> written crc32 (arc f) (frozen_entries f) m file r ->
  next_sst_id (level_state t) < 2 ^ 64 - 1 -> no_empty_keys (frozen_entries f) ->
  on_disk crc32 t -> on_disk crc32 (published m r (written_state f m file t)).
Proof.
  intros I (_ & (Ne & K & Fe & L) & Ha & Hn) W Hx Hk D. pose proof (written_id _ _ _ _ _ _ W) as Em. pose proof (inv_levels _ t I) as Ll.
  assert (Out : forall m', m' ∈ concat (levels (level_state t)) -> sst_id m' <> sst_id m).
  { intros m' Hm E. apply Hn. rewrite <- Em, <- E. by apply list_elem_of_fmap_2. }
  assert (Keys : first_key m <> [] /\ last_key m <> []).
  { pose proof (written_reads _ _ _ _ _ _ W) as R. pose proof (written_meta _ _ _ _ _ _ W) as M. unfold no_empty_keys in Hk. rewrite Forall_forall in Hk.
    rewrite <- M, (reads_first _ _ _ R), (reads_last _ _ _ R). split.
    - destruct (block_key_in _ Ne) as [v Hv]. by apply (Hk _ Hv).
    - destruct (last (frozen_entries f)) as [e|] eqn:El; [|by apply last_None in El]. apply last_Some_elem_of in El. by apply (Hk _ El). }
  assert (Mo : meta_ok m).
  { split; [lia|]. split; [pose proof (written_size _ _ _ _ _ _ W); fits|].
    pose proof (reads_count _ _ _ (written_reads _ _ _ _ _ _ W)) as C. rewrite (written_meta _ _ _ _ _ _ W) in C. rewrite C.
    pose proof (len_nonneg (frozen_entries f)). fits. }
  destruct D as [(ls & (evs & E1 & E2 & E3 & E4 & E5) & P & E0) F Kf]. split.
  - exists (<[0%nat := nth 0 ls [] ++ [m]]> ls). split; [|split].
    + exists (evs ++ [LogAdd 0 m]). rewrite !fold_left_app. cbn [fold_left log_event apply_event levels next_sst_id].
      cbn [manifest published set_levels set_readers written_state set_manifest]. rewrite <- E1. split_and!.
      * done.
      * apply Forall_app. split; [done|]. constructor; [|constructor]. split; [unfold MAX_LEVEL_COUNT; lia|done].
      * apply Forall_app. split; [done|]. constructor; [done|constructor].
      * unfold level. by rewrite E4.
      * cbn in *. lia.
    + cbn [level_state published set_levels levels set_level]. apply Forall2_insert; [done|]. by rewrite E0.
    + assert (G : forall x (l : list (list SSTableMeta)), l <> [] -> nth 0 (<[0%nat := x]> l) [] = x) by (by intros x [|]).
      unfold level at 1. cbn [level_state published set_levels levels set_level]. rewrite !G.
      * by rewrite E0.
      * change (levels (level_state t) <> []). intros X. by rewrite X in Ll.
      * intros ->. apply Forall2_length in P. by rewrite Ll in P.
  - rewrite published_concat by done. constructor.
    + exists file, r. cbn [files readers published set_levels set_readers written_state set_manifest set_files].
      rewrite Em, !lookup_insert_eq. split_and!; [done|apply W|done].
    + apply Forall_forall. intros m' Hm. rewrite Forall_forall in F. destruct (F m' Hm) as (fl & r' & A & B & C). exists fl, r'.
      cbn [files readers published set_levels set_readers written_state set_manifest set_files]. rewrite <- Em.
      rewrite !lookup_insert_ne by (intros X; by apply (Out m' Hm)). done.
  - rewrite published_concat by done. constructor; [apply Keys|exact Kf].
Qed.

Lemma flush_write_ok f t :
  lsm_inv crc32 t -> flight_ok (Frozen f) t -> next_sst_id (level_state t) < 2 ^ 64 - 1 ->
  exists m r file, let t' := written_state f m file t in
    flush_write crc32 f t = (Ok (Some (m, r)), t') /\ lsm_inv crc32 t' /\ flight_ok (TableWritten f m r) t' /\
    (forall k, value_of t' k = value_of t k) /\ held t' = held t /\ (durable (Frozen f) t -> durable (TableWritten f m r) t').
Proof.
  intros I Fl Hx. pose proof Fl as (Ei & Ro & Ha & Hn). destruct (write_run crc32 (arc f) (frozen_entries f) crc32_u32 Ro) as (m & file & r & W).
  exists m, r, file. cbn zeta. split_and!; [|by destruct I| | | |]; try done.
  - unfold flush_write, write_table, mbind, M_bind, pure. rewrite (written_write _ _ _ _ _ _ W). unfold modify, mret, M_ret, open_table, mbind, M_bind, gets, pure.
    cbn [files set_files set_manifest]. rewrite (written_id _ _ _ _ _ _ W), lookup_insert_eq. cbn [ok_or outcome_bind]. by rewrite (written_open _ _ _ _ _ _ W).
  - split; [done|]. by exists file.
  - intros (D1 & D2 & D3). split_and!; [done|done|]. apply logged_add; try done. rewrite Ei in D2. by apply Forall_cons_1 in D2 as [D2 _].
Qed.

(** ** Publishing *)

Lemma published_inv f m r file t :
  lsm_inv crc32 t -> frozen_ok f t -> written crc32 (arc f) (frozen_entries f) m file r ->
  lsm_inv crc32 (published m r t) /\ contents (readers (published m r t)) m = frozen_entries f /\
  (forall m', m' ∈ concat (levels (level_state t)) -> readers (published m r t) !! sst_id m' = readers t !! sst_id m').
Proof.
  intros I (Ei & (Ne & K & Fe & L) & Ha & Hn) W. pose proof (written_id _ _ _ _ _ _ W) as Em. pose proof (inv_levels _ t I) as Ll.
  pose proof (written_reads _ _ _ _ _ _ W) as R. pose proof (written_meta _ _ _ _ _ _ W) as M.
  assert (C : contents (readers (published m r t)) m = frozen_entries f).
  { unfold contents. cbn [readers published set_levels set_readers]. by rewrite lookup_insert_eq, (reads_iter _ _ _ R). }
  assert (Same : forall m', m' ∈ concat (levels (level_state t)) -> readers (published m r t) !! sst_id m' = readers t !! sst_id m').
  { intros m' Hm. cbn [readers published set_levels set_readers]. rewrite lookup_insert_ne; [done|]. intros E. apply Hn. rewrite <- Em, E.
    by apply list_elem_of_fmap_2. }
  split; [|done]. pose proof I as [I1 I2 I3 I4 I5 I6 I7 I8 I9]. split; try done.
  - cbn. by rewrite length_insert.
  - rewrite published_concat by done. constructor.
    + split; rewrite ?C; try done; [|apply W]. exists r. split; [cbn; by rewrite lookup_insert_eq|]. split; [done|]. by rewrite M.
    + rewrite Forall_forall in I5 |- *. intros m' Hm. eapply table_ok_ext; [by apply Same|by apply I5].
  - cbn. by destruct (levels (level_state t)).
  - unfold ids. rewrite published_concat by done. cbn. constructor; [by rewrite Em|done].
  - rewrite published_concat by done. cbn [level_state published set_levels set_level next_sst_id]. constructor; [by rewrite Em|done].
Qed.

Lemma published_view f m r file t k :
  lsm_inv crc32 t -> frozen_ok f t -> written crc32 (arc f) (frozen_entries f) m file r ->
  view (readers (published m r t)) (tables (published m r t)) k = orelse (kv_get k (frozen_entries f)) (view (readers t) (tables t) k).
Proof.
  intros I Fo W. destruct (published_inv f m r file t I Fo W) as (_ & C & Same). pose proof (inv_levels _ t I) as Ll.
  assert (E : tables (published m r t) = m :: tables t).
  { unfold tables, level. cbn. unfold level. destruct (levels (level_state t)) as [|l0 ls]; [done|]. cbn. by rewrite rev_app_distr. }
  rewrite E. unfold view at 1. cbn [map first_of]. rewrite C. change (first_of k (map _ (tables t))) with (view (readers (published m r t)) (tables t) k).
  rewrite (view_ext (readers t)); [by destruct (kv_get k (frozen_entries f))|]. intros m' Hm. apply Same. by apply tables_in.
Qed.

Lemma value_split t k : value_of t k = live (orelse (first_of k (mem_sources t)) (view (readers t) (tables t) k)).
Proof. unfold value_of, sources. by rewrite first_of_app. Qed.

Lemma live_orelse p a b : live a = live b -> live (orelse p a) = live (orelse p b).
Proof. by destruct p. Qed.

Lemma publish_ok f m r t :
  lsm_inv crc32 t -> flight_ok (TableWritten f m r) t -> room t ->
  exists t', flush_publish crc32 f (Some (m, r)) t = (Ok tt, t') /\ lsm_inv crc32 t' /\ flight_ok Idle t' /\
    memtable t' = memtable t /\ memtable_size_limit t' = memtable_size_limit t /\
    (forall k, value_of t' k = value_of t k) /\ held t' <= held t /\
    next_sst_id (level_state t) <= next_sst_id (level_state t') <= next_sst_id (level_state t) + 12 * held t /\
    (durable (TableWritten f m r) t -> durable Idle t').
Proof.
  intros I [Fo [file W]] (R1 & R2 & R3). destruct (published_inv f m r file t I Fo W) as (I1 & C & Same).
  pose proof Fo as (Ei & _). pose proof (held_mem t) as H. rewrite Ei in H. unfold total_len at 1 in H. cbn [map concat] in H. rewrite app_nil_r in H.
  pose proof (len_nonneg (mem_entries (memtable t))). pose proof (len_nonneg (frozen_entries f)).
  pose proof (total_len_nonneg (map (contents (readers t)) (concat (levels (level_state t))))).
  set (t1 := published m r t) in *.
  assert (Hh : held t1 = held t + len (frozen_entries f)).
  { rewrite H, held_mem. change (immutable_memtables t1) with (immutable_memtables t). change (memtable t1) with (memtable t). rewrite Ei.
    rewrite (total_len_perm _ _ _ (published_concat m r t (inv_levels _ t I))). fold t1. unfold total_len at 1 2. cbn [map concat].
    rewrite app_nil_r, C, len_app. unfold total_len.
    replace (map (contents (readers t1)) (concat (levels (level_state t)))) with (map (contents (readers t)) (concat (levels (level_state t)))); [lia|].
    apply map_ext_in. intros m' Hm. symmetry. apply contents_ext, Same. by apply list_elem_of_In. }
  destruct (maybe_compact_ok crc32 crc32_u32 t1 I1) as (t2 & E2 & [I2 M2 Im2 L2 V2 D2 Hc2 N2]); [done|lia|cbn in *; lia|].
  exists (set_immutables [] t2). split_and!.
  - unfold flush_publish, mbind, M_bind, modify. fold t1. change (set_levels _ (set_readers _ t)) with t1. rewrite E2. do 2 f_equal.
    rewrite Im2. change (immutable_memtables t1) with (immutable_memtables t). rewrite Ei. cbn. by rewrite Z.eqb_refl.
  - destruct I2. by split.
  - done.
  - exact M2.
  - exact L2.
  - intros k. rewrite !value_split. change (readers (set_immutables [] t2)) with (readers t2). change (tables (set_immutables [] t2)) with (tables t2).
    unfold mem_sources. cbn [memtable immutable_memtables set_immutables rev map]. rewrite M2, Ei. cbn [rev map app].
    change (memtable t1) with (memtable t). change (mem_entries (memtable t) :: [frozen_entries f]) with ([mem_entries (memtable t)] ++ [frozen_entries f]).
    rewrite first_of_app, orelse_assoc. apply live_orelse. rewrite V2. unfold t1. rewrite (published_view f m r file) by done. by rewrite first_of_singleton.
  - rewrite !held_mem. rewrite held_mem in Hc2. cbn [memtable immutable_memtables set_immutables readers level_state].
    rewrite M2, Im2 in *. change (immutable_memtables t1) with (immutable_memtables t) in *. rewrite Ei in *. unfold total_len at 1 in Hc2. unfold total_len at 1 3.
    cbn [map concat] in *. rewrite app_nil_r in *. change (len (@nil lsm_entry)) with 0. change (memtable t1) with (memtable t) in *. lia.
  - cbn in *. lia.
  - cbn in *. lia.
  - intros (Da & Db & Dc). split_and!; [change (no_empty_keys (mem_entries (memtable t2))); by rewrite M2|constructor|]. apply D2 in Dc. destruct Dc. by split.
Qed.
End flush.
