(* ===== verification/LsmEngine.v ===== *)
(** The LSM storage engine: an LSM tree with counters
    (crates/idb-storage/src/engines/lsm/engine.rs), and what a client of the
    tree observes, in one thread, between the phases of a flush, and after the
    tree is opened again. *)

From Stdlib Require Import ZArith Lia List Bool.
From S2P Require Import Prelude Common Engine Bloom Merge SsTable Manifest LsmTree LsmView LsmCompact LsmInv LsmFlush.
From coqutil Require Import Byte Word.LittleEndianList.
From stdpp Require Import base gmap list strings sorting.
#[local] Open Scope Z_scope.

(** ** The engine *)

Record LsmEngine := mkLsmEngine { tree : LsmTree; key_count : Z; data_size : Z; tombstone_count : Z }.

Record StorageStatus := mkStatus { keys : Z; size : Z; disk_size : Z; live_disk_size : Z; tombstones : Z }.

Section engine.
Context (crc32 : bytes -> Z).

Fixpoint count_entries (es : list entry) (key_count data_size : Z) : result (Z * Z) :=
  match es with
  | [] => Ok (key_count, data_size)
  | (k, v) :: rest =>
      key_count ← arith in_u64 (key_count + 1);
      data_size ← arith in_u64 (data_size + (len k + len v));
      count_entries rest key_count data_size
  end.

Definition count_existing_data (t : LsmTree) : result (Z * Z) :=
  es ← lsm_scan Unbounded Unbounded t; count_entries es 0 0.

Definition with_memtable_size (manifest : bytes) (files : gmap Z bytes) (limit : Z) : result LsmEngine :=
  t ← open_with_memtable_size crc32 manifest files limit;
  c ← count_existing_data t;
  Ok (mkLsmEngine t c.1 c.2 0).

Definition lsm_engine_new (manifest : bytes) (files : gmap Z bytes) : result LsmEngine :=
  with_memtable_size manifest files DEFAULT_MEMTABLE_SIZE_BYTES.

(** A call on the tree. *)
Definition on_tree {A} (m : M LsmTree A) : M LsmEngine A :=
  zoom tree (fun t e => mkLsmEngine t (key_count e) (data_size e) (tombstone_count e)) m.

Definition lsm_engine_get (key : bytes) (e : LsmEngine) : result (option bytes) := lsm_get crc32 key (tree e).

(** [fetch_add] and [fetch_sub] of the counters, which wrap around. *)
Definition count (dk ds dt : Z) (e : LsmEngine) : LsmEngine :=
  mkLsmEngine (tree e) (as_unsigned 64 (key_count e + dk)) (as_unsigned 64 (data_size e + ds)) (as_unsigned 64 (tombstone_count e + dt)).

Definition lsm_engine_put (key value : bytes) : M LsmEngine unit :=
  e ← gets id;
  old_value ← pure (lsm_get crc32 key (tree e));
  match old_value with
  | Some old_val => modify (count 0 (- len old_val) 0);; modify (count 0 (len value) 0)
  | None => modify (count 1 (len key + len value) 0)
  end;;
  on_tree (lsm_put crc32 key value).

Definition lsm_engine_delete (key : bytes) : M LsmEngine unit :=
  e ← gets id;
  old_value ← pure (lsm_get crc32 key (tree e));
  match old_value with
  | Some old_val => modify (count (-1) (- (len key + len old_val)) 1)
  | None => mret tt
  end;;
  on_tree (lsm_delete crc32 key).

Definition lsm_engine_scan_range (lo hi : Bound) (e : LsmEngine) : result (list (result entry)) :=
  match lsm_scan lo hi (tree e) with
  | Ok es => Ok (map Ok es)
  | Err err => Ok [Err err]
  | Panic => Panic
  end.

Definition lsm_status (e : LsmEngine) : result StorageStatus :=
  disk_size ← total_disk_size (level_state (tree e));
  Ok (mkStatus (key_count e) (data_size e) disk_size disk_size (tombstone_count e)).

Definition lsm_engine_flush : M LsmEngine unit := on_tree (flush_memtable crc32).
End engine.

(** ** Client calls *)

Section calls.
Context (crc32 : bytes -> Z).

Definition run_call (c : Call) : M LsmTree unit :=
  match c with
  | CallPut k v => lsm_put crc32 k v
  | CallDelete k => lsm_delete crc32 k
  | CallFlush => flush_memtable crc32
  end.

Fixpoint run_calls (cs : list Call) : M LsmTree unit :=
  match cs with [] => mret tt | c :: rest => run_call c;; run_calls rest end.

(** The store the tree stands for: a value for each key. *)
Definition spec_call (s : bytes -> option bytes) (c : Call) : bytes -> option bytes :=
  match c with
  | CallPut k v => fun k' => if bool_decide (k' = k) then Some v else s k'
  | CallDelete k => fun k' => if bool_decide (k' = k) then None else s k'
  | CallFlush => s
  end.

Definition spec_calls (cs : list Call) : bytes -> option bytes := fold_left spec_call cs (fun _ => None).

(** A fresh tree. *)
Definition empty_tree (limit : Z) : LsmTree := mkTree mem_new [] levels_new ∅ [] ∅ limit.

(** A call whose entry fits a block. *)
Definition call_fits (c : Call) : Prop :=
  match c with CallPut k v => entry_fits (k, Some v) | CallDelete k => entry_fits (k, None) | CallFlush => True end.

Definition call_key (c : Call) : Prop :=
  match c with CallPut k _ | CallDelete k => k <> [] | CallFlush => True end.
End calls.

(** ** Threads: writes interleaved with the phases of a flush *)

Record LsmWorld := mkLsmWorld { lw_tree : LsmTree; lw_flight : Flight }.

Section steps.
Context (crc32 : bytes -> Z).

(** A critical section of a writer or of the thread that flushes. *)
Inductive lsm_step : LsmWorld -> option Call -> LsmWorld -> Prop :=
| step_put k v over t t' fl :
    put_entry k v t = (Ok over, t') -> lsm_step (mkLsmWorld t fl) (Some (CallPut k v)) (mkLsmWorld t' fl)
| step_delete k over t t' fl :
    delete_entry k t = (Ok over, t') -> lsm_step (mkLsmWorld t fl) (Some (CallDelete k)) (mkLsmWorld t' fl)
| step_freeze force f t t' :
    flush_freeze force t = (Ok (Some f), t') -> lsm_step (mkLsmWorld t Idle) None (mkLsmWorld t' (Frozen f))
| step_write f m r t t' :
    flush_write crc32 f t = (Ok (Some (m, r)), t') -> lsm_step (mkLsmWorld t (Frozen f)) None (mkLsmWorld t' (TableWritten f m r))
| step_publish f m r t t' :
    flush_publish crc32 f (Some (m, r)) t = (Ok tt, t') -> lsm_step (mkLsmWorld t (TableWritten f m r)) None (mkLsmWorld t' Idle).

(** The states reached from an empty tree by the writes [cs], with counters
    that stay in range and a memtable that a table can hold. *)
Inductive lsm_reach (limit : Z) : list Call -> LsmWorld -> Prop :=
| reach_start : lsm_reach limit [] (mkLsmWorld (empty_tree limit) Idle)
| reach_step cs w o w' :
    lsm_reach limit cs w -> room (lw_tree w) -> len (mem_entries (memtable (lw_tree w))) < 2 ^ 20 ->
    (forall c, o = Some c -> call_fits c) -> lsm_step w o w' -> lsm_reach limit (cs ++ option_list o) w'.
End steps.

(** ** Writes *)

Section write_facts.
Context (crc32 : bytes -> Z).
Hypothesis crc32_u32 : forall b, in_u32 (crc32 b) = true.

Lemma mem_weight_bounds es : Forall entry_fits es -> 32 * len es <= mem_weight es <= 4122 * len es.
Proof.
  induction 1 as [|[k v] es F Fs IH]; [done|]. unfold entry_fits, entry_size, BLOCK_DATA_CAPACITY, BLOCK_SIZE in F.
  cbn [mem_weight]. rewrite len_cons. unfold entry_weight, ENTRY_OVERHEAD_BYTES. cbn [fst snd] in *.
  pose proof (len_nonneg k). pose proof (value_len_nonneg v). lia.
Qed.

Lemma fits_put e es : entry_fits e -> Forall entry_fits es -> Forall entry_fits (kv_put e.1 e.2 es).
Proof.
  intros He F. apply Forall_forall. intros x Hx. apply kv_put_keys in Hx as [->|Hx]; [by destruct e|]. rewrite Forall_forall in F. by apply F.
Qed.

Lemma len_put {V} k (v : V) l : len (kv_put k v l) <= len l + 1.
Proof.
  induction l as [|[k' v'] l IH]; cbn [kv_put]; [done|]. destruct (bcmp k k'); rewrite ?len_cons in *; rewrite ?len_cons; lia.
Qed.

(** A write changes the memtable only. *)
Lemma memtable_write t fl k o m' :
  lsm_inv crc32 t -> flight_ok crc32 fl t -> entry_fits (k, o) -> mem_wf m' -> mem_entries m' = kv_put k o (mem_entries (memtable t)) ->
  let t' := set_memtable m' t in
  lsm_inv crc32 t' /\ flight_ok crc32 fl t' /\
  (forall k', value_of t' k' = if bool_decide (k' = k) then o else value_of t k') /\
  held t' <= held t + 1 /\ (durable crc32 fl t -> k <> [] -> durable crc32 fl t').
Proof.
  intros I Fl F W E t'. pose proof (inv_mem_fits _ t I) as Ff. split_and!.
  - destruct I. split; try done. cbn. rewrite E. by apply (fits_put (k, o)).
  - by destruct fl.
  - intros k'. rewrite !value_split. unfold mem_sources. cbn [memtable t' set_memtable immutable_memtables readers]. cbn [first_of].
    rewrite E, kv_get_put. by case_bool_decide.
  - rewrite !held_mem. cbn [memtable t' set_memtable immutable_memtables readers level_state]. rewrite E.
    pose proof (len_put k o (mem_entries (memtable t))). lia.
  - intros (D1 & D2 & D3) Nk. split_and!; [|done|].
    + unfold no_empty_keys in *. cbn. rewrite E. apply Forall_forall. intros x Hx. apply kv_put_keys in Hx as [->|Hx]; [done|].
      rewrite Forall_forall in D1. by apply D1.
    + destruct fl; destruct D3; by split.
Qed.

Lemma mem_in_held t : len (mem_entries (memtable t)) <= held t.
Proof.
  rewrite held_mem. pose proof (total_len_nonneg (map frozen_entries (immutable_memtables t))).
  pose proof (total_len_nonneg (map (contents (readers t)) (concat (levels (level_state t))))). lia.
Qed.

Lemma put_entry_ok t fl k v :
  lsm_inv crc32 t -> flight_ok crc32 fl t -> held t < 2 ^ 30 -> entry_fits (k, Some v) ->
  exists m', mem_put k v (memtable t) = Ok m' /\ mem_entries m' = kv_put k (Some v) (mem_entries (memtable t)) /\ mem_wf m' /\
    put_entry k v t = (Ok (memtable_size_limit t <=? size_bytes m'), set_memtable m' t).
Proof.
  intros I Fl Hh F. pose proof (inv_mem _ t I) as W. pose proof (mem_weight_bounds _ (inv_mem_fits _ t I)) as B. pose proof (mem_in_held t).
  unfold entry_fits, entry_size, BLOCK_DATA_CAPACITY, BLOCK_SIZE in F. cbn in F.
  destruct (mem_put_ok k v (memtable t) W) as (m' & E & W' & Em); [rewrite (mem_size _ W); unfold ENTRY_OVERHEAD_BYTES; lia|].
  exists m'. split_and!; try done. unfold put_entry, mbind, M_bind, gets, pure, modify, mret, M_ret. cbn [id]. by rewrite E.
Qed.

Lemma delete_entry_ok t fl k :
  lsm_inv crc32 t -> flight_ok crc32 fl t -> held t < 2 ^ 30 -> entry_fits (k, None) ->
  exists m', mem_delete k (memtable t) = Ok m' /\ mem_entries m' = kv_put k None (mem_entries (memtable t)) /\ mem_wf m' /\
    delete_entry k t = (Ok (memtable_size_limit t <=? size_bytes m'), set_memtable m' t).
Proof.
  intros I Fl Hh F. pose proof (inv_mem _ t I) as W. pose proof (mem_weight_bounds _ (inv_mem_fits _ t I)) as B. pose proof (mem_in_held t).
  unfold entry_fits, entry_size, BLOCK_DATA_CAPACITY, BLOCK_SIZE in F. cbn in F.
  destruct (mem_delete_ok k (memtable t) W) as (m' & E & W' & Em); [rewrite (mem_size _ W); unfold ENTRY_OVERHEAD_BYTES; lia|].
  exists m'. split_and!; try done. unfold delete_entry, mbind, M_bind, gets, pure, modify, mret, M_ret. cbn [id]. by rewrite E.
Qed.
End write_facts.

(** ** Steps *)

Section step_facts.
Context (crc32 : bytes -> Z).
Hypothesis crc32_u32 : forall b, in_u32 (crc32 b) = true.

Lemma empty_inv limit : lsm_inv crc32 (empty_tree limit).
Proof.
  split; cbn; try done; try lia; try (by repeat constructor).
Qed.

Lemma empty_durable limit : durable crc32 Idle (empty_tree limit).
Proof.
  split_and!; [constructor|constructor|]. split; [|constructor|constructor]. exists (levels levels_new).
  split_and!; [|cbn; by repeat constructor|done].
  exists []. split_and!; try done; constructor.
Qed.

Lemma empty_value limit k : value_of (empty_tree limit) k = None.
Proof. done. Qed.

(** One step keeps the invariant and has its effect on the values. *)
Lemma step_ok w o w' :
  lsm_inv crc32 (lw_tree w) -> flight_ok crc32 (lw_flight w) (lw_tree w) -> room (lw_tree w) ->
  len (mem_entries (memtable (lw_tree w))) < 2 ^ 20 -> (forall c, o = Some c -> call_fits c) -> lsm_step crc32 w o w' ->
  lsm_inv crc32 (lw_tree w') /\ flight_ok crc32 (lw_flight w') (lw_tree w') /\
  forall k, value_of (lw_tree w') k = from_option (spec_call (value_of (lw_tree w))) (value_of (lw_tree w)) o k.
Proof.
  intros I Fl R L Fc St. pose proof R as (R1 & R2 & R3). pose proof (total_len_nonneg (sources (lw_tree w))) as H0. fold (held (lw_tree w)) in H0.
  destruct St as [k v over t t' fl E|k over t t' fl E|force f t t' E|f m r t t' E|f m r t t' E]; cbn [lw_tree lw_flight] in *.
  - destruct (put_entry_ok crc32 t fl k v I Fl ltac:(lia) (Fc _ eq_refl)) as (m' & _ & Em & Wm & E'). rewrite E in E'. injection E' as _ ->.
    destruct (memtable_write crc32 t fl k (Some v) m' I Fl (Fc _ eq_refl) Wm Em) as (A & B & C & _). done.
  - destruct (delete_entry_ok crc32 t fl k I Fl ltac:(lia) (Fc _ eq_refl)) as (m' & _ & Em & Wm & E'). rewrite E in E'. injection E' as _ ->.
    destruct (memtable_write crc32 t fl k None m' I Fl (Fc _ eq_refl) Wm Em) as (A & B & C & _). done.
  - rewrite (flush_freeze_run crc32 force t I R) in E. destruct (nothing_to_flush force t) eqn:N; [done|]. injection E as <- <-.
    destruct (freeze_ok crc32 t I Fl L) as (A & B & C & _); [|done]. intros X. unfold nothing_to_flush in N. by rewrite X in N.
  - destruct (flush_write_ok crc32 crc32_u32 f t I Fl ltac:(lia)) as (m1 & r1 & file & E' & A & B & C & _). rewrite E in E'.
    injection E' as -> -> ->. done.
  - destruct (publish_ok crc32 crc32_u32 f m r t I Fl R) as (t1 & E' & A & B & _ & _ & C & _). rewrite E in E'. injection E' as ->. done.
Qed.

Lemma spec_call_ext s s' c k : (forall k, s k = s' k) -> spec_call s c k = spec_call s' c k.
Proof. intros V. destruct c; cbn [spec_call]; by rewrite ?V. Qed.

Lemma reach_ok limit cs w :
  lsm_reach crc32 limit cs w ->
  lsm_inv crc32 (lw_tree w) /\ flight_ok crc32 (lw_flight w) (lw_tree w) /\ forall k, value_of (lw_tree w) k = spec_calls cs k.
Proof.
  induction 1 as [|cs w o w' H (I & Fl & V) R L Fc St]; [split_and!; [apply empty_inv|done|done]|].
  destruct (step_ok w o w' I Fl R L Fc St) as (I' & Fl' & V'). split_and!; [done|done|].
  intros k. rewrite V'. unfold spec_calls. rewrite fold_left_app. destruct o as [c|]; [|apply V]. by apply spec_call_ext.
Qed.

(** ** One thread *)

(** The tree after [n] calls: the memtable is under its limit and the counters
    are within bounds that [n] determines. *)
Record quiet (n : Z) (t : LsmTree) : Prop := {
  qt_inv : lsm_inv crc32 t;
  qt_idle : immutable_memtables t = [];
  qt_small : size_bytes (memtable t) <= memtable_size_limit t < 2 ^ 24;
  qt_held : held t <= n;
  qt_next : next_sst_id (level_state t) <= 1 + 13 * (n * n)
}.

Lemma flush_ok force n t :
  lsm_inv crc32 t -> immutable_memtables t = [] -> len (mem_entries (memtable t)) < 2 ^ 20 -> 0 <= memtable_size_limit t < 2 ^ 24 ->
  held t <= n -> next_sst_id (level_state t) <= 1 + 13 * ((n - 1) * (n - 1)) -> 1 <= n < 2 ^ 29 ->
  (size_bytes (memtable t) <= memtable_size_limit t \/ nothing_to_flush force t = false) ->
  exists t', lsm_flush crc32 force t = (Ok tt, t') /\ quiet n t' /\ memtable_size_limit t' = memtable_size_limit t /\
    (forall k, value_of t' k = value_of t k) /\ (durable crc32 Idle t -> durable crc32 Idle t') /\
    (force = true -> mem_entries (memtable t') = []).
Proof.
  intros I Id L Lim Hh Hx Hn Sz. pose proof (inv_next _ t I). pose proof (total_len_nonneg (sources t)) as H0. fold (held t) in H0.
  assert (R : room t) by (unfold room; nia).
  unfold lsm_flush, mbind at 1, M_bind at 1. rewrite (flush_freeze_run crc32 force t I R). destruct (nothing_to_flush force t) eqn:N.
  { exists t. split; [done|]. split_and!; [|done|done|done|].
    - split; [done|done|destruct Sz; [lia|done]|done|nia].
    - intros ->. unfold nothing_to_flush in N. rewrite orb_false_r in N. by apply Z.eqb_eq, len_zero in N. }
  assert (Ne : mem_entries (memtable t) <> []) by (intros X; unfold nothing_to_flush in N; by rewrite X in N).
  destruct (freeze_ok crc32 t I Id L Ne) as (I1 & F1 & V1 & H1 & D1). set (f := mkFrozen _ _) in *. set (t1 := frozen_state t) in *.
  assert (N1 : next_sst_id (level_state t1) = next_sst_id (level_state t) + 1) by done.
  destruct (flush_write_ok crc32 crc32_u32 f t1 I1 F1) as (m & r & file & E2 & I2 & F2 & V2 & H2 & D2); [nia|].
  unfold mbind at 1, M_bind at 1. rewrite E2. set (t2 := written_state f m file t1) in *.
  assert (R2 : room t2).
  { unfold room. rewrite H2, H1. change (next_sst_id (level_state t2)) with (next_sst_id (level_state t1)).
    change (memtable_size_limit t2) with (memtable_size_limit t). rewrite N1. nia. }
  destruct (publish_ok crc32 crc32_u32 f m r t2 I2 F2 R2) as (t3 & E3 & I3 & F3 & M3 & L3 & V3 & H3 & N3 & D3).
  exists t3. split; [done|]. split_and!.
  - split; [done|done| |lia|].
    + rewrite M3, L3. change (memtable t2) with mem_new. cbn. lia.
    + change (next_sst_id (level_state t2)) with (next_sst_id (level_state t1)) in N3. rewrite H2, H1, N1 in N3. nia.
  - by rewrite L3.
  - intros k. by rewrite V3, V2, V1.
  - auto.
  - intros _. by rewrite M3.
Qed.

Lemma call_ok n t c :
  quiet n t -> 0 <= n < 2 ^ 29 - 1 -> call_fits c ->
  exists t', run_call crc32 c t = (Ok tt, t') /\ quiet (n + 1) t' /\ memtable_size_limit t' = memtable_size_limit t /\
    (forall k, value_of t' k = spec_call (value_of t) c k) /\ (durable crc32 Idle t -> call_key c -> durable crc32 Idle t').
Proof.
  intros [I Id Sm Hh Hx] Hn Fc. pose proof (total_len_nonneg (sources t)) as H0. fold (held t) in H0.
  pose proof (mem_weight_bounds _ (inv_mem_fits _ t I)) as B. pose proof (mem_size _ (inv_mem _ t I)) as Es.
  pose proof (len_nonneg (mem_entries (memtable t))).
  assert (W : forall k o m', entry_fits (k, o) -> mem_wf m' -> mem_entries m' = kv_put k o (mem_entries (memtable t)) ->
    exists t', (if memtable_size_limit t <=? size_bytes m' then lsm_flush crc32 false else mret tt) (set_memtable m' t) = (Ok tt, t') /\
      quiet (n + 1) t' /\ memtable_size_limit t' = memtable_size_limit t /\
      (forall k', value_of t' k' = if bool_decide (k' = k) then o else value_of t k') /\
      (durable crc32 Idle t -> k <> [] -> durable crc32 Idle t')).
  { intros k o m' Fo Wm Em. destruct (memtable_write crc32 t Idle k o m' I Id Fo Wm Em) as (I1 & Id1 & V1 & H1 & D1).
    set (t1 := set_memtable m' t) in *. pose proof (mem_weight_bounds _ (inv_mem_fits _ t1 I1)) as B1. pose proof (mem_size _ Wm) as Es1.
    pose proof (len_put k o (mem_entries (memtable t))) as L1. rewrite <- Em in L1. change (memtable t1) with m' in B1.
    destruct (Z.leb_spec (memtable_size_limit t) (size_bytes m')) as [Over|Under].
    - destruct (flush_ok false (n + 1) t1) as (t' & E & Q & Lm & V & D & _); try done; try (cbn; lia).
      { right. unfold nothing_to_flush. change (memtable t1) with m'. change (memtable_size_limit t1) with (memtable_size_limit t). cbn [negb andb].
        destruct (Z.ltb_spec (size_bytes m') (memtable_size_limit t)); [lia|]. rewrite orb_false_r. apply Z.eqb_neq.
        rewrite Em. intros X. apply len_zero in X. by destruct (mem_entries (memtable t)) as [|[k' v'] l]; [|cbn in X; destruct (bcmp k k')]. }
      exists t'. split_and!; [done|done|done| |auto]. intros k'. by rewrite V, V1.
    - exists t1. split_and!; [done| |done|done|auto]. split; [done|done|cbn; lia|lia|]. cbn. nia. }
  destruct c as [k v|k|]; cbn [call_fits run_call spec_call call_key] in *.
  - destruct (put_entry_ok crc32 t Idle k v I Id ltac:(lia) Fc) as (m' & _ & Em & Wm & E). unfold lsm_put, mbind, M_bind. rewrite E. by apply W.
  - destruct (delete_entry_ok crc32 t Idle k I Id ltac:(lia) Fc) as (m' & _ & Em & Wm & E). unfold lsm_delete, mbind, M_bind. rewrite E. by apply W.
  - unfold flush_memtable. destruct (flush_ok true (n + 1) t) as (t' & E & Q & Lm & V & D & _); try done; try lia.
    exists t'. split_and!; auto.
Qed.

Lemma calls_ok cs n t :
  quiet n t -> 0 <= n -> n + len cs < 2 ^ 29 -> Forall call_fits cs ->
  exists t', run_calls crc32 cs t = (Ok tt, t') /\ quiet (n + len cs) t' /\ memtable_size_limit t' = memtable_size_limit t /\
    (forall k, value_of t' k = fold_left spec_call cs (value_of t) k) /\
    (durable crc32 Idle t -> Forall call_key cs -> durable crc32 Idle t').
Proof.
  revert n t. induction cs as [|c cs IH]; intros n t Q H0 Hn F; cbn [run_calls].
  { exists t. change (len (@nil Call)) with 0. rewrite Z.add_0_r. done. }
  apply Forall_cons_1 in F as [Fc F]. rewrite len_cons in *. pose proof (len_nonneg cs).
  destruct (call_ok n t c Q ltac:(lia) Fc) as (t1 & E1 & Q1 & L1 & V1 & D1). unfold mbind, M_bind. rewrite E1.
  destruct (IH (n + 1) t1 Q1) as (t2 & E2 & Q2 & L2 & V2 & D2); [lia|lia|done|]. exists t2. split_and!; [done| |by rewrite L2| |].
  - by replace (n + (1 + len cs)) with (n + 1 + len cs) by lia.
  - intros k. rewrite V2. cbn [fold_left]. clear -V1. revert V1. generalize (value_of t1) as s1. generalize (spec_call (value_of t) c) as s0.
    induction cs as [|c' cs IH]; intros s0 s1 V; [apply V|]. cbn [fold_left]. apply IH. intros k'. by apply spec_call_ext.
  - intros D K. apply Forall_cons_1 in K as [Kc K]. auto.
Qed.
End step_facts.

(** ** Opening a tree again *)

Section reopen.
Context (crc32 : bytes -> Z).

Lemma open_existing_ok t ms rs0 :
  Forall (filed crc32 t) ms ->
  exists rs, open_existing crc32 (files t) ms rs0 = Ok rs /\
    (forall m, m ∈ ms -> rs !! sst_id m = readers t !! sst_id m) /\ (forall i, i ∉ ids ms -> rs !! i = rs0 !! i).
Proof.
  revert rs0. induction ms as [|m ms IH]; intros rs0 F; cbn [open_existing].
  { exists rs0. split_and!; [done| |done]. intros m Hm. by apply not_elem_of_nil in Hm. }
  apply Forall_cons_1 in F as [(file & r & Ef & Eo & Er) F]. rewrite Ef, Eo. cbn [mbind outcome_bind].
  destruct (IH (<[sst_id m := r]> rs0) F) as (rs & E & G1 & G2). exists rs. split_and!; [done| |].
  - intros m' Hm. apply elem_of_cons in Hm as [->|Hm]; [|by apply G1]. destruct (decide (sst_id m ∈ ids ms)) as [Hi|Hi].
    + apply list_elem_of_fmap in Hi as (m2 & Ei & Hm2). rewrite Ei. by apply G1.
    + by rewrite (G2 _ Hi), lookup_insert_eq, Er.
  - intros i Hi. cbn [ids map] in Hi. apply not_elem_of_cons in Hi as [Ni Hi]. rewrite (G2 _ Hi). by rewrite lookup_insert_ne.
Qed.

(** Levels with the same tables in another order answer the same. *)
Lemma levels_view rs ls ls' k :
  Forall2 (≡ₚ) ls ls' -> Forall (table_ok crc32 rs) (concat ls') -> Forall in_order ls' -> view rs (concat ls) k = view rs (concat ls') k.
Proof.
  induction 1 as [|a b ls ls' P F IH]; intros T O; [done|]. cbn [concat] in *. apply Forall_app in T as [Tb T]. apply Forall_cons_1 in O as [Ob O].
  rewrite !view_app, IH by done. f_equal. symmetry. apply view_agree; [by apply (disjoint_agree crc32)|]. intros m. by rewrite P.
Qed.

Lemma tail_perm (ls ls' : list (list SSTableMeta)) : Forall2 (≡ₚ) ls ls' -> Forall2 (≡ₚ) (tail ls) (tail ls').
Proof. by destruct 1. Qed.

Lemma concat_perm (ls ls' : list (list SSTableMeta)) : Forall2 (≡ₚ) ls ls' -> concat ls ≡ₚ concat ls'.
Proof. induction 1 as [|a b ls ls' P F IH]; [done|]. cbn. by rewrite P, IH. Qed.

(** A tree that was idle is opened again with the tables it had. *)
Lemma reopen_ok t limit :
  lsm_inv crc32 t -> on_disk crc32 t ->
  exists t', open_with_memtable_size crc32 (manifest t) (files t) limit = Ok t' /\ scannable crc32 t' /\
    mem_entries (memtable t') = [] /\ Forall2 (≡ₚ) (levels (level_state t')) (levels (level_state t)) /\
    forall k, value_of t' k = live (view (readers t) (tables t) k).
Proof.
  intros I [(ls & (evs & Em & Fo & Fk & El & Hx) & P & E0) F K]. unfold open_with_memtable_size. rewrite Em, manifest_log_ok by done.
  cbn [mbind outcome_bind]. set (st := fold_left apply_event evs levels_new) in *. pose proof (concat_perm _ _ P) as Pc.
  destruct (open_existing_ok t (concat ls) ∅) as (rs & E & G & _); [by rewrite Pc|]. rewrite El, E. cbn [mbind outcome_bind].
  eexists. split; [reflexivity|].
  assert (T : forall m, m ∈ concat (levels (level_state t)) -> rs !! sst_id m = readers t !! sst_id m) by (intros m Hm; apply G; by rewrite Pc).
  assert (Tf : Forall (table_ok crc32 rs) (concat (levels (level_state t)))).
  { pose proof (inv_tables _ t I) as Ft. rewrite Forall_forall in Ft |- *. intros m Hm. eapply table_ok_ext; [by apply T|by apply Ft]. }
  split; [split; cbn; [constructor|constructor|by rewrite El, Pc]|]. split; [done|]. split; [cbn; by rewrite El|].
  intros k. rewrite value_split. unfold mem_sources, tables, level. cbn [memtable immutable_memtables readers level_state rev map first_of mem_entries mem_new kv_get orelse].
  rewrite El. f_equal. rewrite !view_app. f_equal.
  - rewrite E0. apply view_ext. intros m Hm. apply T. rewrite <- Permutation_rev in Hm. apply tables_in. unfold tables. apply elem_of_app. left. by rewrite <- Permutation_rev.
  - rewrite (levels_view rs (tail ls) (tail (levels (level_state t)))); [|by apply tail_perm| |apply I].
    + apply view_ext. intros m Hm. apply T. apply tables_in. unfold tables. apply elem_of_app. by right.
    + rewrite Forall_forall in Tf |- *. intros m Hm. apply Tf. apply tables_in. unfold tables. apply elem_of_app. by right.
Qed.
End reopen.

(** ** Counters *)

Section counters.
Context (crc32 : bytes -> Z).
Hypothesis crc32_u32 : forall b, in_u32 (crc32 b) = true.

(** The live entries of the tree, with their number and size in the counters. *)
Definition counted (es : list entry) (e : LsmEngine) : Prop :=
  keys_sorted es /\ (forall k, kv_get k es = value_of (tree e) k) /\ key_count e = len es /\ data_size e = data_len es.

Definition run_engine_call (c : Call) : M LsmEngine unit :=
  match c with
  | CallPut k v => lsm_engine_put crc32 k v
  | CallDelete k => lsm_engine_delete crc32 k
  | CallFlush => lsm_engine_flush crc32
  end.

Fixpoint run_engine_calls (cs : list Call) : M LsmEngine unit :=
  match cs with [] => mret tt | c :: rest => run_engine_call c;; run_engine_calls rest end.

Lemma data_len_bound es : Forall (fun e => len e.1 + len e.2 <= 4094) es -> 0 <= data_len es <= 4094 * len es.
Proof.
  induction 1 as [|e es He F IH]; [done|]. cbn [data_len]. rewrite len_cons. unfold entry_bytes_len.
  pose proof (len_nonneg e.1). pose proof (len_nonneg e.2). lia.
Qed.

(** The live entries are no more than the entries held, and fit blocks. *)
Lemma live_bound t es :
  lsm_inv crc32 t -> keys_sorted es -> (forall k, kv_get k es = value_of t k) ->
  len es <= held t /\ Forall (fun e => len e.1 + len e.2 <= 4094) es.
Proof.
  intros I K G. assert (Src : forall k v, (k, v) ∈ es -> (k, Some v) ∈ concat (sources t)).
  { intros k v H. pose proof (kv_get_in _ _ _ K H) as X. rewrite G in X. unfold value_of in X. rewrite <- first_of_concat in X.
    destruct (kv_get k (concat (sources t))) as [[w|]|] eqn:Y; [|done|done]. cbn in X. injection X as ->. by apply kv_get_elem. }
  split.
  - unfold held, total_len, len. apply inj_le. rewrite <- (length_map fst es), <- (length_map fst (concat (sources t))). apply NoDup_incl_length.
    + clear -K. induction K as [|[k v] es K IH F]; cbn; constructor; [|done]. intros H. apply in_map_iff in H as ([k' v'] & E & H). cbn in E. subst k'.
      rewrite Forall_forall in F. apply list_elem_of_In, F in H. by apply blt_irrefl in H.
    + intros k H. apply in_map_iff in H as ([k' v] & E & H). cbn in E. subst k'. apply in_map_iff. exists (k, Some v). split; [done|].
      apply list_elem_of_In, Src. by apply list_elem_of_In.
  - apply Forall_forall. intros [k v] H. apply Src in H. rewrite list_elem_of_In, in_concat in H. destruct H as (l & Hl & H).
    assert (F : Forall entry_fits l).
    { unfold sources, mem_sources in Hl. cbn [app] in Hl. destruct Hl as [<-|Hl]; [apply I|]. apply in_app_iff in Hl as [Hl|Hl].
      - apply in_map_iff in Hl as (f & <- & Hf). apply in_rev in Hf. pose proof (inv_imm _ t I) as Fi. rewrite Forall_forall in Fi. apply Fi. by apply list_elem_of_In.
      - apply in_map_iff in Hl as (m & <- & Hm). apply list_elem_of_In, tables_in in Hm. pose proof (inv_tables _ t I) as Ft. rewrite Forall_forall in Ft. by apply Ft. }
    rewrite Forall_forall in F. apply list_elem_of_In, F in H. unfold entry_fits, entry_size, BLOCK_DATA_CAPACITY, BLOCK_SIZE in H. cbn in H |- *. lia.
Qed.

Lemma on_tree_run m t' e :
  m (tree e) = (Ok tt, t') -> on_tree m e = (Ok tt, mkLsmEngine t' (key_count e) (data_size e) (tombstone_count e)).
Proof. intros E. unfold on_tree, zoom. by rewrite E. Qed.

(** The state an engine call hands to the tree. *)
Definition call_counts (c : Call) (old : option bytes) (e : LsmEngine) : LsmEngine :=
  match c, old with
  | CallPut k v, Some o => count 0 (len v) 0 (count 0 (- len o) 0 e)
  | CallPut k v, None => count 1 (len k + len v) 0 e
  | CallDelete k, Some o => count (-1) (- (len k + len o)) 1 e
  | _, _ => e
  end.

Lemma call_counts_ok c e es :
  keys_sorted es -> call_fits c -> len es < 2 ^ 29 -> 0 <= data_len es <= 4094 * len es -> 0 <= data_len (call_store c es) ->
  key_count e = len es -> data_size e = data_len es ->
  let e1 := call_counts c (kv_get (call_arg c) es) e in
  tree e1 = tree e /\ key_count e1 = len (call_store c es) /\ data_size e1 = data_len (call_store c es).
Proof.
  intros K Fc Ln Db D0 Ck Cd e1. split; [unfold e1, call_counts; by destruct c as [? ?|?|], (kv_get _ es)|]. unfold e1. clear e1.
  pose proof (len_nonneg es). pose proof (len_nonneg (call_store c es)). destruct c as [k v|k|]; cbn [call_arg call_store call_counts call_fits] in *.
  - destruct (data_len_put k v es K) as [Dp Lp]. unfold entry_fits, entry_size, BLOCK_DATA_CAPACITY, BLOCK_SIZE in Fc. cbn in Fc.
    pose proof (len_nonneg k). pose proof (len_nonneg v).
    destruct (kv_get k es) as [o|]; cbn [count key_count data_size]; rewrite ?as_unsigned_add, Ck, Cd, Dp, Lp in *;
      try (pose proof (len_nonneg o)); rewrite !as_unsigned_small by lia; lia.
  - destruct (data_len_delete k es K) as [Dp Lp]. pose proof (len_nonneg k).
    destruct (kv_get k es) as [o|]; cbn [count key_count data_size]; [|lia]. pose proof (len_nonneg o). rewrite Ck, Cd, Dp, Lp in *.
    rewrite !as_unsigned_small by lia. lia.
  - done.
Qed.

Lemma engine_call_run c e t' old :
  lsm_get crc32 (call_arg c) (tree e) = Ok old -> tree (call_counts c old e) = tree e -> run_call crc32 c (tree e) = (Ok tt, t') ->
  run_engine_call c e = (Ok tt, mkLsmEngine t' (key_count (call_counts c old e)) (data_size (call_counts c old e)) (tombstone_count (call_counts c old e))).
Proof.
  intros G T E. rewrite <- T in E. destruct c as [k v|k|]; cbn [call_arg run_engine_call run_call] in *.
  - unfold lsm_engine_put, mbind, M_bind, gets, pure. cbn [id]. rewrite G. destruct old; unfold modify, mret, M_ret; by apply on_tree_run.
  - unfold lsm_engine_delete, mbind, M_bind, gets, pure. cbn [id]. rewrite G. destruct old; unfold modify, mret, M_ret; by apply on_tree_run.
  - unfold lsm_engine_flush. by apply on_tree_run.
Qed.

Lemma engine_call_ok n c e es :
  quiet crc32 n (tree e) -> 0 <= n < 2 ^ 29 - 1 -> call_fits c -> counted es e ->
  exists e', run_engine_call c e = (Ok tt, e') /\ quiet crc32 (n + 1) (tree e') /\ counted (call_store c es) e' /\
    forall k, value_of (tree e') k = spec_call (value_of (tree e)) c k.
Proof.
  intros Q Hn Fc (K & G & Ck & Cd). pose proof Q as [I Id Sm Hh Hx]. destruct (live_bound _ _ I K G) as [Lb Fb]. pose proof (data_len_bound _ Fb) as Db.
  destruct (call_ok crc32 crc32_u32 n (tree e) c Q Hn Fc) as (t' & E & Q' & Lm & V & _).
  assert (Get : lsm_get crc32 (call_arg c) (tree e) = Ok (kv_get (call_arg c) es)).
  { rewrite (lsm_get_ok crc32 (tree e)); [by rewrite G|by apply inv_scannable|apply I]. }
  assert (K' : keys_sorted (call_store c es)) by (destruct c; cbn; [by apply keys_sorted_put|by apply keys_sorted_delete|done]).
  assert (G' : forall k, kv_get k (call_store c es) = value_of t' k).
  { intros k'. rewrite V. destruct c; cbn [call_store spec_call]; [rewrite kv_get_put|rewrite kv_get_delete|apply G]; case_bool_decide; try done; apply G. }
  destruct (live_bound t' _ (qt_inv _ _ _ Q') K' G') as [_ Fb']. pose proof (data_len_bound _ Fb') as [D0 _].
  destruct (call_counts_ok c e es K Fc ltac:(lia) Db D0 Ck Cd) as (T & Ck' & Cd').
  eexists. split; [by apply engine_call_run|]. cbn [tree]. split_and!; [done| |done]. by split_and!.
Qed.

Lemma engine_calls_ok cs n e es :
  quiet crc32 n (tree e) -> 0 <= n -> n + len cs < 2 ^ 29 -> Forall call_fits cs -> counted es e ->
  exists e', run_engine_calls cs e = (Ok tt, e') /\ quiet crc32 (n + len cs) (tree e') /\ counted (fold_left (fun es c => call_store c es) cs es) e'.
Proof.
  revert n e es. induction cs as [|c cs IH]; intros n e es Q H0 Hn F C; cbn [run_engine_calls fold_left].
  { exists e. change (len (@nil Call)) with 0. rewrite Z.add_0_r. done. }
  apply Forall_cons_1 in F as [Fc F]. rewrite len_cons in *. pose proof (len_nonneg cs).
  destruct (engine_call_ok n c e es Q ltac:(lia) Fc C) as (e1 & E1 & Q1 & C1 & _). unfold mbind, M_bind. rewrite E1.
  destruct (IH (n + 1) e1 _ Q1 ltac:(lia) ltac:(lia) F C1) as (e2 & E2 & Q2 & C2). exists e2. split; [done|].
  by replace (n + (1 + len cs)) with (n + 1 + len cs) by lia.
Qed.
End counters.

(** ** Example trees *)

(** A table is written at almost every write. *)
Definition tiny_limit : Z := 33.
Definition some_crc (b : bytes) : Z := len b mod 2 ^ 32.
Definition key (n : Z) : bytes := [byte.of_Z n].
Definition put (k v : Z) : Call := CallPut (key k) (key v).

Definition tree_after (cs : list Call) : LsmTree := (run_calls some_crc cs (empty_tree tiny_limit)).2.

(** A compaction of the first level stopped by a crash after the removals were
    logged: the steps of [merge_tables] up to there. *)
Definition crash_after_dels (ms : list SSTableMeta) (is_bottom : bool) : M LsmTree unit :=
  rs ← gets readers;
  inputs ← pure (collect_inputs rs ms);
  merged ← pure (ends (collect_all inputs.1));
  write_split_sstables some_crc merged is_bottom;;
  modify (fun t => set_manifest (log_dels inputs.2 (manifest t)) t).

(** A write, a memtable frozen with it, and a write of the same key. *)
Definition phase1 : LsmTree := (put_entry (key 1) (key 5) (empty_tree tiny_limit)).2.
Definition phase2 : LsmTree := frozen_state phase1.
Definition phase3 : LsmTree := (put_entry (key 1) (key 6) phase2).2.
Definition phase_frozen : FrozenMemtable := mkFrozen 1 [(key 1, Some (key 5))].

Lemma some_crc_u32 b : in_u32 (some_crc b) = true.
Proof. unfold some_crc. pose proof (Z.mod_pos_bound (len b) (2 ^ 32) ltac:(lia)). fits. Qed.

(** ** Theorems *)

(** C7. An LSM tree is a map: after any calls in one thread whose entries fit a
    block, flushes and compactions included, every call has succeeded, a point
    read gives the last value put and not deleted since, and a range scan gives
    exactly the keys of the range that have a value, in key order. *)
Theorem lsm_calls_correct crc32 limit cs :
  (forall b, in_u32 (crc32 b) = true) -> 0 <= limit < 2 ^ 24 -> Forall call_fits cs -> len cs < 2 ^ 29 ->
  exists t, run_calls crc32 cs (empty_tree limit) = (Ok tt, t) /\
    (forall k, lsm_get crc32 k t = Ok (spec_calls cs k)) /\
    (forall lo hi, proper_range lo hi = true -> exists es, lsm_scan lo hi t = Ok es /\ keys_sorted es /\
       forall k, kv_get k es = if in_bounds lo hi k then spec_calls cs k else None).
Proof.
  intros Hc Hl F N. destruct (calls_ok crc32 Hc cs 0 (empty_tree limit)) as (t & E & Q & _ & V & _); [|done|lia|done|].
  - split; [apply empty_inv|done|cbn; lia|done|cbn; lia].
  - pose proof (qt_inv _ _ _ Q) as I. exists t. split; [done|]. split.
    + intros k. rewrite (lsm_get_ok crc32 t k); [by rewrite V|by apply inv_scannable|apply I].
    + intros lo hi P. destruct (lsm_scan_ok crc32 t lo hi (inv_scannable _ t I) P) as (es & S1 & S2 & S3). exists es.
      split_and!; [done|done|]. intros k. rewrite S3. destruct (in_bounds lo hi k); [apply V|done].
Qed.

Lemma lsm_calls_correct_witness :
  exists t, run_calls some_crc [put 1 5; put 2 6; CallDelete (key 1); CallFlush] (empty_tree tiny_limit) = (Ok tt, t) /\
    (forall k, lsm_get some_crc k t = Ok (spec_calls [put 1 5; put 2 6; CallDelete (key 1); CallFlush] k)) /\
    (forall lo hi, proper_range lo hi = true -> exists es, lsm_scan lo hi t = Ok es /\ keys_sorted es /\
       forall k, kv_get k es = if in_bounds lo hi k then spec_calls [put 1 5; put 2 6; CallDelete (key 1); CallFlush] k else None).
Proof.
  apply (lsm_calls_correct some_crc tiny_limit).
  - intros b. apply some_crc_u32.
  - vm_compute. split; [discriminate|reflexivity].
  - repeat constructor; vm_compute; discriminate.
  - vm_compute. reflexivity.
Defined.


Lemma phases_reached : lsm_reach some_crc tiny_limit [put 1 5; put 1 6] (mkLsmWorld phase3 (Frozen phase_frozen)).
Proof.
  apply (reach_step some_crc tiny_limit [put 1 5] (mkLsmWorld phase2 (Frozen phase_frozen)) (Some (put 1 6))).
  - apply (reach_step some_crc tiny_limit [put 1 5] (mkLsmWorld phase1 Idle) None).
    + apply (reach_step some_crc tiny_limit [] (mkLsmWorld (empty_tree tiny_limit) Idle) (Some (put 1 5))).
      * apply reach_start.
      * vm_compute. repeat split; discriminate.
      * vm_compute. reflexivity.
      * intros c [= <-]. vm_compute. discriminate.
      * apply (step_put some_crc (key 1) (key 5) true). vm_compute. reflexivity.
    + vm_compute. repeat split; discriminate.
    + vm_compute. reflexivity.
    + discriminate.
    + apply (step_freeze some_crc true phase_frozen). vm_compute. reflexivity.
  - vm_compute. repeat split; discriminate.
  - vm_compute. reflexivity.
  - intros c [= <-]. vm_compute. discriminate.
  - apply (step_put some_crc (key 1) (key 6) true). vm_compute. reflexivity.
Qed.


(** C9. Flushed data survives a restart: after any calls of one thread with
    keys that are not empty and entries that fit a block, ended by a flush,
    opening the manifest and the table files again succeeds and a range scan of
    the new tree gives exactly the keys of the range that have a value. *)
Theorem lsm_reopen_scan crc32 limit cs limit' :
  (forall b, in_u32 (crc32 b) = true) -> 0 <= limit < 2 ^ 24 -> Forall call_fits cs -> Forall call_key cs -> len cs < 2 ^ 29 - 1 ->
  exists t t', run_calls crc32 (cs ++ [CallFlush]) (empty_tree limit) = (Ok tt, t) /\
    open_with_memtable_size crc32 (manifest t) (files t) limit' = Ok t' /\
    forall lo hi, proper_range lo hi = true -> exists es, lsm_scan lo hi t' = Ok es /\ keys_sorted es /\
      forall k, kv_get k es = if in_bounds lo hi k then spec_calls cs k else None.
Proof.
  intros Hc Hl F K N. destruct (calls_ok crc32 Hc cs 0 (empty_tree limit)) as (t1 & E1 & Q1 & L1 & V1 & D1); [|done|lia|done|].
  { split; [apply empty_inv|done|cbn; lia|done|cbn; lia]. }
  pose proof Q1 as [I1 Id1 S1 H1 X1]. pose proof (mem_weight_bounds _ (inv_mem_fits _ t1 I1)) as B. pose proof (mem_size _ (inv_mem _ t1 I1)) as Es.
  pose proof (len_nonneg cs). pose proof (len_nonneg (mem_entries (memtable t1))). change (memtable_size_limit (empty_tree limit)) with limit in L1.
  destruct (flush_ok crc32 Hc true (0 + len cs + 1) t1) as (t & E & Q & _ & V & D & Me); try done; try lia.
  specialize (Me eq_refl). pose proof (D (D1 (empty_durable crc32 limit) K)) as (_ & _ & Od).
  destruct (reopen_ok crc32 t limit' (qt_inv _ _ _ Q) Od) as (t' & Eo & Sc & _ & _ & Vo). exists t, t'. split; [|split; [done|]].
  - assert (G : forall cs t0 t1, run_calls crc32 cs t0 = (Ok tt, t1) -> run_calls crc32 (cs ++ [CallFlush]) t0 = run_calls crc32 [CallFlush] t1).
    { clear. induction cs as [|c cs IH]; intros t0 t1 E; [by injection E as ->|]. cbn [app run_calls] in *. unfold mbind, M_bind in *.
      destruct (run_call crc32 c t0) as [[[]| |] t2]; [by apply IH|done|done]. }
    rewrite (G _ _ _ E1). cbn [run_calls run_call]. unfold mbind, M_bind, flush_memtable. by rewrite E.
  - intros lo hi P. destruct (lsm_scan_ok crc32 t' lo hi Sc P) as (es & A1 & A2 & A3). exists es. split_and!; [done|done|].
    intros k. rewrite A3. destruct (in_bounds lo hi k); [|done]. rewrite Vo. transitivity (value_of t k).
    + rewrite value_split. unfold mem_sources. rewrite (qt_idle _ _ _ Q), Me. done.
    + rewrite V, V1. done.
Qed.

Lemma lsm_reopen_scan_witness :
  exists t t', run_calls some_crc ([put 1 5; put 2 6; CallDelete (key 1)] ++ [CallFlush]) (empty_tree tiny_limit) = (Ok tt, t) /\
    open_with_memtable_size some_crc (manifest t) (files t) tiny_limit = Ok t' /\
    forall lo hi, proper_range lo hi = true -> exists es, lsm_scan lo hi t' = Ok es /\ keys_sorted es /\
      forall k, kv_get k es = if in_bounds lo hi k then spec_calls [put 1 5; put 2 6; CallDelete (key 1)] k else None.
Proof.
  apply (lsm_reopen_scan some_crc tiny_limit).
  - intros b. apply some_crc_u32.
  - vm_compute. split; [discriminate|reflexivity].
  - repeat constructor; vm_compute; discriminate.
  - repeat constructor; discriminate.
  - vm_compute. reflexivity.
Defined.

(** The counters of the engine are exact: after any calls in one thread,
    they are the number of keys that have a value and the total size of those
    keys and values. *)
Theorem lsm_engine_counters crc32 limit cs :
  (forall b, in_u32 (crc32 b) = true) -> 0 <= limit < 2 ^ 24 -> Forall call_fits cs -> len cs < 2 ^ 29 ->
  exists e es, run_engine_calls crc32 cs (mkLsmEngine (empty_tree limit) 0 0 0) = (Ok tt, e) /\
    lsm_scan Unbounded Unbounded (tree e) = Ok es /\ key_count e = len es /\ data_size e = data_len es.
Proof.
  intros Hc Hl F N. destruct (engine_calls_ok crc32 Hc cs 0 (mkLsmEngine (empty_tree limit) 0 0 0) []) as (e & E & Q & K & G & Ck & Cd); [|done|lia|done| |].
  - split; [apply empty_inv|done|cbn; lia|done|cbn; lia].
  - split_and!; [constructor|done|done|done].
  - destruct (lsm_scan_ok crc32 (tree e) Unbounded Unbounded (inv_scannable _ _ (qt_inv _ _ _ Q)) eq_refl) as (es & S1 & S2 & S3).
    exists e, es. assert (es = fold_left (fun es c => call_store c es) cs []) as ->; [|done].
    apply kv_ext; [done|done|]. intros k. rewrite S3, G. done.
Qed.

Lemma lsm_engine_counters_witness :
  exists e es, run_engine_calls some_crc [put 1 5; put 2 6; CallDelete (key 1); put 2 9] (mkLsmEngine (empty_tree tiny_limit) 0 0 0) = (Ok tt, e) /\
    lsm_scan Unbounded Unbounded (tree e) = Ok es /\ key_count e = len es /\ data_size e = data_len es.
Proof.
  apply (lsm_engine_counters some_crc tiny_limit).
  - intros b. apply some_crc_u32.
  - vm_compute. split; [discriminate|reflexivity].
  - repeat constructor; vm_compute; discriminate.
  - vm_compute. reflexivity.
Defined.

(** A point read can miss a key after a restart: the manifest lists the
    tables of a level in the order they were written, the levels of the reopened
    tree are in that order, and the search for the table of a key expects key
    order: neither table ends before the key, so the search stops at the first,
    which starts after it.  The key was found before the restart, and a scan still finds it. *)
Theorem lsm_reopen_misses_key :
  exists t t', run_calls some_crc [put 20 1; put 21 2; put 22 3; put 23 4; put 10 5; put 11 6; put 12 7; put 13 8] (empty_tree tiny_limit) = (Ok tt, t) /\
    open_with_memtable_size some_crc (manifest t) (files t) tiny_limit = Ok t' /\
    lsm_get some_crc (key 10) t = Ok (Some (key 5)) /\ lsm_get some_crc (key 10) t' = Ok None /\
    lsm_scan (Included (key 10)) (Included (key 10)) t' = Ok [(key 10, key 5)].
Proof.
  exists (tree_after [put 20 1; put 21 2; put 22 3; put 23 4; put 10 5; put 11 6; put 12 7; put 13 8]).
  eexists. split; [vm_compute; reflexivity|]. split; [vm_compute; reflexivity|]. split; [vm_compute; reflexivity|]. split; vm_compute; reflexivity.
Qed.

(** A point read can miss a key during a compaction: it looks at the levels
    under one lock and at the readers under another, and a compaction between the
    two takes away the readers of the tables it has seen.  The key is there
    before and after. *)
Theorem lsm_get_races_compaction :
  let t := tree_after [put 1 1; put 2 2; put 3 3] in let t' := tree_after [put 1 1; put 2 2; put 3 3; put 4 4] in
  run_calls some_crc [put 4 4] t = (Ok tt, t') /\
  lsm_get some_crc (key 1) t = Ok (Some (key 1)) /\ lsm_get some_crc (key 1) t' = Ok (Some (key 1)) /\
  get_memtables (key 1) t = None /\ get_tables some_crc (key 1) (level_state t) (readers t') = Ok None.
Proof. vm_compute. repeat split. Qed.

(** A flush that fails hides later writes: its frozen memtable stays in front
    of the tables, so once a later flush has moved a newer value of a key into a
    table, a read gives the older value. *)
Theorem lsm_failed_flush_hides_writes :
  exists t t', run_calls some_crc [put 1 7; CallPut (key 2) (replicate 4200 (byte.of_Z 0)); CallFlush] (empty_tree 100000) = (Panic, t) /\
    run_calls some_crc [put 1 9; CallFlush] t = (Ok tt, t') /\ lsm_get some_crc (key 1) t' = Ok (Some (key 7)).
Proof. eexists _, _. split; [vm_compute; reflexivity|]. split; [vm_compute; reflexivity|]. vm_compute. reflexivity. Qed.

(** A crash during a compaction can lose data that was durable: the removals
    of the merged tables are logged before the additions of the new ones, and a
    tree opened from the manifest in between has neither. *)
Theorem lsm_compaction_crash_loses_data :
  let t := tree_after [put 1 1; put 2 2; put 3 3] in
  exists t', crash_after_dels (rev (level 0 (level_state t))) true t = (Ok tt, t') /\
    lsm_get some_crc (key 1) t = Ok (Some (key 1)) /\
    exists t'', open_with_memtable_size some_crc (manifest t') (files t') tiny_limit = Ok t'' /\
      lsm_scan Unbounded Unbounded t'' = Ok [].
Proof.
  eexists. split; [vm_compute; reflexivity|]. split; [vm_compute; reflexivity|]. eexists. split; [vm_compute; reflexivity|]. vm_compute. reflexivity.
Qed.
