(* ===== verification/Like.v ===== *)
(** Characters of strings, SUBSTRING and LIKE
    (crates/idb-sql/src/sql/ir/expr.rs).  A string is its UTF-8 bytes and a
    character the bytes that encode it. *)

From Stdlib Require Import ZArith Lia List Bool.
From coqutil Require Import Byte.
From S2P Require Import Prelude Common.
From stdpp Require Import base list strings.
#[local] Open Scope Z_scope.

(** ** Characters *)

(** A byte that continues a character. *)
Definition continues (b : byte) : bool := in_range 128 191 b.

(** [str::chars]: a character starts at every byte that does not continue one. *)
Fixpoint chars (s : bytes) : list (list byte) :=
  match s with
  | [] => []
  | b :: s' =>
      match chars s' with
      | (c :: ch) :: rest => if continues c then (b :: c :: ch) :: rest else [b] :: (c :: ch) :: rest
      | rest => [b] :: rest
      end
  end.

Definition substring_chars (s : bytes) (start length : nat) : result (list byte) :=
  match start with
  | O => Panic
  | S start' => Ok (concat (take length (drop start' (chars s))))
  end.

(** ** LIKE *)

Inductive PatChar : Type :=
| Lit (c : bytes)
| AnyOne.

Definition percent : list byte := [byte.of_Z 37].
Definition underscore : list byte := [byte.of_Z 95].

(** The loop of [compile_like_pattern]. *)
Fixpoint pattern_loop (cs : list (list byte)) (current : list PatChar) : list (list PatChar) :=
  match cs with
  | [] => [current]
  | c :: rest =>
      if bool_decide (c = percent) then current :: pattern_loop rest []
      else if bool_decide (c = underscore) then pattern_loop rest (current ++ [AnyOne])
      else pattern_loop rest (current ++ [Lit c])
  end.

Definition compile_like_pattern (pattern : bytes) : list (list PatChar) := pattern_loop (chars pattern) [].

Definition pat_matches (p : PatChar) (c : bytes) : bool :=
  match p with Lit l => bool_decide (c = l) | AnyOne => true end.

(** The positions of a segment against the characters at its start. *)
Fixpoint all_match (seg : list PatChar) (cs : list (list byte)) : bool :=
  match seg, cs with
  | [], _ => true
  | p :: seg', c :: cs' => pat_matches p c && all_match seg' cs'
  | _ :: _, [] => false
  end.

Definition segment_matches_at (seg : list PatChar) (cs : list (list byte)) (start : nat) : bool :=
  if (length cs <? start + length seg)%nat then false else all_match seg (drop start cs).

Fixpoint find_loop (fuel : nat) (seg : list PatChar) (cs : list (list byte)) (start : nat) : option nat :=
  match fuel with
  | O => None
  | S fuel => if segment_matches_at seg cs start then Some start else find_loop fuel seg cs (S start)
  end.

(** The loop runs once per start position from [from] to the last one. *)
Definition find_segment (seg : list PatChar) (cs : list (list byte)) (from end_bound : nat) : option nat :=
  if (end_bound <? length seg)%nat then None
  else find_loop (S (end_bound - length seg) - from)%nat seg cs from.

Fixpoint match_middle (segs : list (list PatChar)) (cs : list (list byte)) (cursor suffix_start : nat) : bool :=
  match segs with
  | [] => true
  | seg :: rest =>
      match find_segment seg cs cursor suffix_start with
      | Some pos => match_middle rest cs (pos + length seg)%nat suffix_start
      | None => false
      end
  end.

Definition like_match (segments : list (list PatChar)) (text : bytes) : result bool :=
  let cs := chars text in
  match segments with
  | [] => Panic
  | [seg] => Ok ((length seg =? length cs)%nat && segment_matches_at seg cs 0)
  | prefix :: rest =>
      if negb (segment_matches_at prefix cs 0) then Ok false else
      let cursor := length prefix in
      let suffix := List.last rest [] in
      if (length cs <? length suffix)%nat then Ok false else
      let suffix_start := (length cs - length suffix)%nat in
      if (suffix_start <? cursor)%nat then Ok false else
      if negb (segment_matches_at suffix cs suffix_start) then Ok false else
      Ok (match_middle (removelast rest) cs cursor suffix_start)
  end.

(** ** Specification: what a pattern means, read character by character *)

Inductive like : list (list byte) -> list (list byte) -> Prop :=
| like_nil : like [] []
| like_skip p t : like p t -> like (percent :: p) t
| like_take p c t : like (percent :: p) t -> like (percent :: p) (c :: t)
| like_one p c t : like p t -> like (underscore :: p) (c :: t)
| like_char p c t : c <> percent -> c <> underscore -> like p t -> like (c :: p) (c :: t).

(** A segment against exactly these characters. *)
Definition seg_is (seg : list PatChar) (t : list (list byte)) : Prop :=
  Forall2 (fun p c => pat_matches p c = true) seg t.

(** Segments in order with anything before each and after the last. *)
Fixpoint fit (segs : list (list PatChar)) (t : list (list byte)) : Prop :=
  match segs with
  | [] => True
  | seg :: rest => exists pre u t', t = pre ++ u ++ t' /\ seg_is seg u /\ fit rest t'
  end.

(** The whole text, split at the percent signs of its pattern. *)
Fixpoint segs_like (segs : list (list PatChar)) (t : list (list byte)) : Prop :=
  match segs with
  | [] => False
  | [seg] => seg_is seg t
  | seg :: rest => exists u pre t', t = u ++ pre ++ t' /\ seg_is seg u /\ segs_like rest t'
  end.

(** ** Characters of valid strings *)

(** One character: the lines of the Unicode table [utf8_valid] follows. *)
Definition utf8_char (ch : bytes) : bool :=
  match ch with
  | [a] => u8 a <? 128
  | [a; b] => in_range 194 223 a && in_range 128 191 b
  | [a; b; c] =>
      in_range 224 239 a &&
      (if u8 a =? 224 then in_range 160 191 b else if u8 a =? 237 then in_range 128 159 b else in_range 128 191 b) &&
      in_range 128 191 c
  | [a; b; c; d] =>
      in_range 240 244 a &&
      (if u8 a =? 240 then in_range 144 191 b else if u8 a =? 244 then in_range 128 143 b else in_range 128 191 b) &&
      in_range 128 191 c && in_range 128 191 d
  | _ => false
  end.

(** Turn range tests into arithmetic. *)
Ltac ranges :=
  unfold in_range, continues in *;
  repeat match goal with H : context [if ?c then _ else _] |- _ => destruct c eqn:? end; zbool.

Lemma utf8_valid_char ch s : utf8_char ch = true -> utf8_valid (ch ++ s) = utf8_valid s.
Proof.
  intros H. destruct ch as [|a [|b [|c [|d [|? ?]]]]]; try done; cbn [app utf8_char utf8_valid] in *.
  - by rewrite H.
  - apply andb_true_iff in H as [H1 H2]. rewrite H1, H2.
    replace (u8 a <? 128) with false by (symmetry; ranges; apply Z.ltb_ge; lia). done.
  - apply andb_true_iff in H as [H H3]. apply andb_true_iff in H as [H1 H2]. rewrite H1, H2, H3.
    replace (u8 a <? 128) with false by (symmetry; ranges; apply Z.ltb_ge; lia).
    replace (in_range 194 223 a) with false; [done|]. symmetry. ranges; apply andb_false_iff; right; apply Z.leb_gt; lia.
  - apply andb_true_iff in H as [H H4]. apply andb_true_iff in H as [H H3]. apply andb_true_iff in H as [H1 H2].
    rewrite H1, H2, H3, H4. replace (u8 a <? 128) with false by (symmetry; ranges; apply Z.ltb_ge; lia).
    replace (in_range 194 223 a) with false by (symmetry; ranges; apply andb_false_iff; right; apply Z.leb_gt; lia).
    replace (in_range 224 239 a) with false by (symmetry; ranges; apply andb_false_iff; right; apply Z.leb_gt; lia). done.
Qed.

Lemma utf8_valid_split s : utf8_valid s = true -> s = [] \/ exists ch s', s = ch ++ s' /\ utf8_char ch = true /\ utf8_valid s' = true.
Proof.
  destruct s as [|a s1]; [by left|]. intros H. right. cbn [utf8_valid] in H.
  destruct (u8 a <? 128) eqn:A; [by exists [a], s1|]. destruct s1 as [|b s2]; [done|].
  destruct (in_range 194 223 a) eqn:B.
  { apply andb_true_iff in H as [H1 H2]. exists [a; b], s2. cbn [utf8_char]. by rewrite B. }
  destruct s2 as [|c s3]; [done|]. destruct (in_range 224 239 a) eqn:C.
  { apply andb_true_iff in H as [H H2]. apply andb_true_iff in H as [H1 H3]. exists [a; b; c], s3. cbn [utf8_char].
    by rewrite C, H1, H3. }
  destruct s3 as [|d s4]; [done|]. apply andb_true_iff in H as [H H2]. exists [a; b; c; d], s4. done.
Qed.

Lemma utf8_valid_concat cs : Forall (fun ch => utf8_char ch = true) cs -> utf8_valid (concat cs) = true.
Proof. induction 1 as [|ch cs H _ IH]; [done|]. cbn [concat]. by rewrite utf8_valid_char. Qed.

Lemma utf8_chars_exist s : utf8_valid s = true -> exists cs, s = concat cs /\ Forall (fun ch => utf8_char ch = true) cs.
Proof.
  induction s as [s IH] using (induction_ltof1 _ (@length byte)). unfold ltof in IH. intros V.
  destruct (utf8_valid_split s V) as [->|(ch & s' & -> & C & V')]; [by exists []|].
  destruct (IH s') as (cs & -> & F); [|done|].
  - destruct ch; [done|]. rewrite length_app. cbn. lia.
  - exists (ch :: cs). split; [done|]. by constructor.
Qed.

(** The bytes after the first continue a character; the first does not. *)
Lemma utf8_char_shape ch : utf8_char ch = true -> exists b r, ch = b :: r /\ continues b = false /\ Forall (fun b => continues b = true) r.
Proof.
  intros H. destruct ch as [|a [|b [|c [|d [|? ?]]]]]; try done; cbn [utf8_char] in H; eexists _, _; (split; [done|]);
    rewrite ?andb_true_iff in H; split; repeat constructor; unfold continues, in_range in *;
    repeat match goal with H : context [if ?c then _ else _] |- _ => destruct c eqn:? end;
    rewrite ?andb_true_iff, ?andb_false_iff, ?Z.leb_le, ?Z.leb_gt, ?Z.ltb_lt in *; zbool; lia.
Qed.

Lemma chars_app r rest :
  Forall (fun b => continues b = true) r -> (match chars rest with (c :: _) :: _ => continues c = false | _ => True end) ->
  forall b, chars (b :: r ++ rest) = (b :: r) :: chars rest.
Proof.
  intros F N. induction F as [|x r Hx F IH]; intros b.
  - cbn [app chars]. destruct (chars rest) as [|[|c ch] t]; [done|done|]. by rewrite N.
  - change (b :: (x :: r) ++ rest) with (b :: (x :: r ++ rest)). change (chars (b :: (x :: r ++ rest))) with
      (match chars (x :: r ++ rest) with
       | (c :: ch) :: rest => if continues c then (b :: c :: ch) :: rest else [b] :: (c :: ch) :: rest
       | rest => [b] :: rest end). rewrite IH, Hx. done.
Qed.

Lemma chars_concat cs : Forall (fun ch => utf8_char ch = true) cs -> chars (concat cs) = cs.
Proof.
  induction 1 as [|ch cs H F IH]; [done|]. destruct (utf8_char_shape ch H) as (b & r & -> & N & C). cbn [concat app].
  rewrite chars_app, IH; [done|done|]. destruct F as [|ch' cs' H' F]; [by rewrite IH|]. rewrite IH.
  destruct (utf8_char_shape ch' H') as (b' & r' & -> & N' & _). done.
Qed.

Lemma chars_valid s : utf8_valid s = true -> concat (chars s) = s /\ Forall (fun ch => utf8_char ch = true) (chars s).
Proof. intros V. destruct (utf8_chars_exist s V) as (cs & -> & F). by rewrite chars_concat. Qed.

Lemma substring_valid s start n : utf8_valid s = true -> (1 <= start)%nat ->
  exists r, substring_chars s start n = Ok r /\ utf8_valid r = true /\ chars r = take n (drop (start - 1) (chars s)).
Proof.
  intros V L. destruct start as [|i]; [lia|]. eexists. split; [done|]. replace (S i - 1)%nat with i by lia.
  assert (F : Forall (fun ch => utf8_char ch = true) (take n (drop i (chars s)))) by (apply Forall_take, Forall_drop, chars_valid, V).
  split; [by apply utf8_valid_concat|by apply chars_concat].
Qed.

(** ** The pattern and its segments *)

Lemma seg_is_length seg t : seg_is seg t -> length t = length seg.
Proof. intros H. symmetry. by apply Forall2_length in H. Qed.

Lemma segs_like_cons seg segs t :
  segs <> [] -> segs_like (seg :: segs) t <-> exists u pre t', t = u ++ pre ++ t' /\ seg_is seg u /\ segs_like segs t'.
Proof. by destruct segs. Qed.

Lemma pattern_loop_nonempty cs cur : pattern_loop cs cur <> [].
Proof. revert cur. induction cs as [|c cs IH]; intros cur; cbn [pattern_loop]; [done|]. repeat case_bool_decide; done. Qed.

Lemma like_percent p t : like (percent :: p) t <-> exists pre t', t = pre ++ t' /\ like p t'.
Proof.
  split.
  - remember (percent :: p) as q eqn:Q. induction 1 as [|p' t H IH|p' c t H IH|p' c t H IH|p' c t N1 N2 H IH]; try done.
    + injection Q as <-. by exists [], t.
    + destruct (IH Q) as (pre & t' & -> & L). injection Q as <-. by exists (c :: pre), t'.
    + injection Q as -> _. done.
  - intros (pre & t' & -> & L). induction pre as [|c pre IH]; [by apply like_skip|by apply like_take].
Qed.

Lemma like_step p q t :
  (p = AnyOne /\ q = underscore) \/ (p = Lit q /\ q <> percent /\ q <> underscore) ->
  forall cs, like (q :: cs) t <-> exists x t', t = x :: t' /\ pat_matches p x = true /\ like cs t'.
Proof.
  intros [[-> ->]|[-> [N1 N2]]] cs; split.
  - inversion 1; subst; try done. by eexists _, _.
  - intros (x & t' & -> & _ & L). by apply like_one.
  - inversion 1; subst; try done. eexists _, _. split; [done|]. split; [|done]. cbn. by apply bool_decide_eq_true_2.
  - intros (x & t' & -> & M & L). cbn in M. apply bool_decide_eq_true_1 in M as ->. by apply like_char.
Qed.

(** The segments a loop still has to make, with the one being filled. *)
Lemma pattern_loop_like cs : forall cur t,
  segs_like (pattern_loop cs cur) t <-> exists u t', t = u ++ t' /\ seg_is cur u /\ like cs t'.
Proof.
  induction cs as [|c cs IH]; intros cur t; cbn [pattern_loop].
  - cbn [segs_like]. split.
    + intros H. exists t, []. rewrite app_nil_r. split_and!; [done|done|constructor].
    + intros (u & t' & -> & Su & L). inversion L; subst. by rewrite app_nil_r.
  - case_bool_decide as P.
    { subst c. rewrite segs_like_cons by apply pattern_loop_nonempty. split.
      - intros (u & pre & t' & -> & Su & L). exists u, (pre ++ t'). split_and!; [done|done|]. apply like_percent.
        exists pre, t'. split; [done|]. apply IH in L as (u' & t'' & -> & Se & L). inversion Se; subst. done.
      - intros (u & t' & -> & Su & L). apply like_percent in L as (pre & t'' & -> & L). exists u, pre, t''. split_and!; [done|done|].
        apply IH. exists [], t''. split_and!; [done|constructor|done]. }
    assert (Step : forall p, (p = AnyOne /\ c = underscore) \/ (p = Lit c /\ c <> percent /\ c <> underscore) ->
      segs_like (pattern_loop cs (cur ++ [p])) t <-> exists u t', t = u ++ t' /\ seg_is cur u /\ like (c :: cs) t').
    { intros p Hp. rewrite IH. split.
      - intros (u & t' & -> & Su & L). apply Forall2_app_inv_l in Su as (u1 & u2 & S1 & S2 & ->).
        inversion S2 as [|? x ? ? Mx S3]; subst. inversion S3; subst. exists u1, (x :: t'). rewrite <- app_assoc. split_and!; [done|done|].
        apply (like_step p c _ Hp). by eexists _, _.
      - intros (u & t' & -> & Su & L). apply (like_step p c _ Hp) in L as (x & t'' & -> & Mx & L).
        exists (u ++ [x]), t''. rewrite <- app_assoc. split_and!; [done| |done]. apply Forall2_app; [done|]. by repeat constructor. }
    case_bool_decide as U; apply Step; [by left|by right].
Qed.

(** ** Greedy search *)

Lemma all_match_is seg : forall cs, all_match seg cs = true <-> (length seg <= length cs)%nat /\ seg_is seg (take (length seg) cs).
Proof.
  induction seg as [|p seg IH]; intros cs.
  - cbn. split; [intros _; split; [lia|constructor]|done].
  - destruct cs as [|c cs]; cbn [all_match length take].
    + split; [done|]. intros [? _]. lia.
    + rewrite andb_true_iff, IH. split.
      * intros (M & L & S1). split; [lia|]. by constructor.
      * intros (L & S1). inversion S1; subst. split_and!; [done|lia|done].
Qed.

Lemma segment_at seg cs start :
  segment_matches_at seg cs start = true <-> (start + length seg <= length cs)%nat /\ seg_is seg (take (length seg) (drop start cs)).
Proof.
  unfold segment_matches_at. destruct (Nat.ltb_spec (length cs) (start + length seg)).
  - split; [done|]. intros [? _]. lia.
  - rewrite all_match_is, length_drop. split; intros [? ?]; (split; [lia|done]).
Qed.

Lemma find_loop_spec seg cs fuel : forall start,
  match find_loop fuel seg cs start with
  | Some pos => (start <= pos < start + fuel)%nat /\ segment_matches_at seg cs pos = true /\
                forall q, (start <= q < pos)%nat -> segment_matches_at seg cs q = false
  | None => forall q, (start <= q < start + fuel)%nat -> segment_matches_at seg cs q = false
  end.
Proof.
  induction fuel as [|fuel IH]; intros start; cbn [find_loop]; [intros; lia|].
  destruct (segment_matches_at seg cs start) eqn:M; [split_and!; [lia|lia|done|intros; lia]|].
  specialize (IH (S start)). destruct (find_loop fuel seg cs (S start)) as [pos|].
  - destruct IH as (L & Mp & N). split_and!; [lia|lia|done|]. intros q Hq.
    destruct (Nat.eq_dec q start) as [->|]; [done|]. apply N. lia.
  - intros q Hq. destruct (Nat.eq_dec q start) as [->|]; [done|]. apply IH. lia.
Qed.

Lemma fit_weaken segs x t : fit segs t -> fit segs (x ++ t).
Proof.
  destruct segs as [|seg segs]; [done|]. intros (pre & u & t' & -> & H). exists (x ++ pre), u, t'. by rewrite <- app_assoc.
Qed.

Lemma take_drop_split {A} (l : list A) i j k :
  (i <= j)%nat -> (j + k <= length l)%nat -> drop i l = take (j - i) (drop i l) ++ take k (drop j l) ++ drop (j + k) l.
Proof.
  intros L1 L2. rewrite <- (take_drop (j - i) (drop i l)) at 1. f_equal. rewrite drop_drop. replace (i + (j - i))%nat with j by lia.
  rewrite <- (take_drop k (drop j l)) at 1. f_equal. by rewrite drop_drop.
Qed.

Lemma take_seg (seg : list PatChar) (cs : list (list byte)) sfx q : (q + length seg <= sfx)%nat ->
  take (length seg) (drop q cs) = take (length seg) (drop q (take sfx cs)).
Proof. intros Hq. by rewrite !take_drop_commute, take_take, Nat.min_l by lia. Qed.

(** A split of the text between two positions gives a match at the position. *)
Lemma split_match seg cs sfx cursor pre u t' :
  (cursor <= sfx <= length cs)%nat -> drop cursor (take sfx cs) = pre ++ u ++ t' -> seg_is seg u ->
  (cursor + length pre + length seg <= sfx)%nat /\ segment_matches_at seg cs (cursor + length pre) = true /\
  t' = drop (cursor + length pre + length seg) (take sfx cs).
Proof.
  intros Ls E Su. pose proof (seg_is_length _ _ Su) as Lu. pose proof (f_equal length E) as El.
  rewrite !length_app, length_drop, length_take in El. split; [lia|].
  assert (D : drop (cursor + length pre) (take sfx cs) = u ++ t') by (by rewrite <- drop_drop, E, drop_app_length). split.
  - apply segment_at. split; [lia|]. by rewrite (take_seg seg cs sfx), D, <- Lu, take_app_length by lia.
  - by rewrite <- drop_drop, D, <- Lu, drop_app_length.
Qed.

Lemma match_middle_fit mids cs sfx : (sfx <= length cs)%nat -> forall cursor, (cursor <= sfx)%nat ->
  match_middle mids cs cursor sfx = true <-> fit mids (drop cursor (take sfx cs)).
Proof.
  intros Ls. induction mids as [|seg mids IH]; intros cursor Lc; cbn [match_middle fit]; [done|]. unfold find_segment.
  destruct (Nat.ltb_spec sfx (length seg)) as [Lt|Ge].
  { split; [done|]. intros (pre & u & t' & E & Su & _). apply split_match with (seg := seg) in E; [lia|lia|done]. }
  pose proof (find_loop_spec seg cs (S (sfx - length seg) - cursor) cursor) as Sp. destruct (find_loop _ _ _ _) as [pos|].
  - destruct Sp as (Lp & Mp & Np). apply segment_at in Mp as [Mb Ms]. rewrite IH by lia. split.
    + intros Ft. exists (take (pos - cursor) (drop cursor (take sfx cs))), (take (length seg) (drop pos (take sfx cs))), (drop (pos + length seg) (take sfx cs)).
      split_and!; [|by rewrite <- take_seg by lia|done]. apply take_drop_split; [lia|]. rewrite length_take. lia.
    + intros (pre & u & t' & E & Su & Ft). apply split_match with (seg := seg) in E as (Lq & Mq & Et); [|lia|done].
      set (q := (cursor + length pre)%nat) in *.
      assert (pos <= q)%nat. { destruct (Nat.le_gt_cases pos q); [done|]. rewrite Np in Mq; [done|unfold q in *; lia]. }
      rewrite <- (take_drop (q - pos) (drop (pos + length seg) (take sfx cs))), drop_drop.
      apply fit_weaken. replace (pos + length seg + (q - pos))%nat with (q + length seg)%nat by lia. by rewrite <- Et.
  - split; [done|]. intros (pre & u & t' & E & Su & Ft). apply split_match with (seg := seg) in E as (Lq & Mq & _); [|lia|done].
    rewrite Sp in Mq by lia. done.
Qed.

(** ** The matcher *)

(** The text as a first segment, floating ones and a last segment. *)
Lemma segs_like_ends prefix mids suffix t :
  segs_like (prefix :: mids ++ [suffix]) t <->
  exists u m v, t = u ++ m ++ v /\ seg_is prefix u /\ fit mids m /\ seg_is suffix v.
Proof.
  revert prefix t. induction mids as [|seg mids IH]; intros prefix t.
  - cbn [app segs_like fit]. split; intros (u & m & v & H); exists u, m, v; tauto.
  - change (segs_like (prefix :: (seg :: mids) ++ [suffix]) t) with
      (exists u pre t', t = u ++ pre ++ t' /\ seg_is prefix u /\ segs_like (seg :: mids ++ [suffix]) t'). cbn [fit]. split.
    + intros (u & pre & t' & -> & Su & L). apply IH in L as (w & m & v & -> & Sw & Fm & Sv).
      exists u, (pre ++ w ++ m), v. rewrite <- !app_assoc. split_and!; [done|done| |done]. by exists pre, w, m.
    + intros (u & m & v & -> & Su & (pre & w & m' & -> & Sw & Fm) & Sv). exists u, pre, (w ++ m' ++ v).
      rewrite <- !app_assoc. split_and!; [done|done|]. apply IH. by exists w, m', v.
Qed.

(** Such a split exists exactly when the tests of the matcher pass. *)
Lemma ends_tests prefix mids suffix cs :
  (exists u m v, cs = u ++ m ++ v /\ seg_is prefix u /\ fit mids m /\ seg_is suffix v) <->
  segment_matches_at prefix cs 0 = true /\ (length suffix <= length cs)%nat /\
  (length prefix <= length cs - length suffix)%nat /\ segment_matches_at suffix cs (length cs - length suffix) = true /\
  fit mids (drop (length prefix) (take (length cs - length suffix) cs)).
Proof.
  rewrite !segment_at, drop_0. split.
  - intros (u & m & v & -> & Su & Fm & Sv). pose proof (seg_is_length _ _ Su) as Lu. pose proof (seg_is_length _ _ Sv) as Lv.
    rewrite !length_app, <- Lu, <- Lv. replace (length u + (length m + length v) - length v)%nat with (length u + length m)%nat by lia.
    assert (D : drop (length u + length m) (u ++ m ++ v) = v) by (by rewrite <- drop_drop, !drop_app_length).
    assert (T : take (length u + length m) (u ++ m ++ v) = u ++ m).
    { rewrite app_assoc, <- length_app. apply take_app_length. }
    rewrite D, T, take_app_length, drop_app_length, firstn_all. split_and!; (done || lia).
  - intros ([_ Su] & Ls & Lp & [_ Sv] & Fm). set (k := (length cs - length suffix)%nat) in *.
    exists (take (length prefix) cs), (drop (length prefix) (take k cs)), (drop k cs). split_and!; [|done|done|].
    + rewrite app_assoc. rewrite <- (take_drop k cs) at 1. f_equal.
      rewrite <- (take_drop (length prefix) (take k cs)) at 1. f_equal. rewrite take_take. f_equal. lia.
    + rewrite firstn_all2 in Sv; [done|]. rewrite length_drop. unfold k. lia.
Qed.

Lemma like_match_segs segs text : segs <> [] -> exists b, like_match segs text = Ok b /\ (b = true <-> segs_like segs (chars text)).
Proof.
  intros N. destruct segs as [|prefix rest]; [done|]. set (cs := chars text). destruct rest as [|r rest].
  { eexists. split; [done|]. fold cs. cbn [segs_like]. rewrite andb_true_iff, Nat.eqb_eq, segment_at, drop_0. split.
    - intros (E & _ & Su). by rewrite E, firstn_all in Su.
    - intros Su. pose proof (seg_is_length _ _ Su) as L. rewrite <- L, firstn_all. split_and!; [done|lia|done]. }
  destruct (exists_last (l := r :: rest) ltac:(done)) as (mids & suffix & E). rewrite E. unfold like_match. fold cs.
  replace (match mids ++ [suffix] with [] => _ | _ :: _ => _ end) with
    (if negb (segment_matches_at prefix cs 0) then @Ok Error bool false else
      let cursor := length prefix in let sfx := List.last (mids ++ [suffix]) [] in
      if (length cs <? length sfx)%nat then Ok false else
      let suffix_start := (length cs - length sfx)%nat in
      if (suffix_start <? cursor)%nat then Ok false else
      if negb (segment_matches_at sfx cs suffix_start) then Ok false else
      Ok (match_middle (removelast (mids ++ [suffix])) cs cursor suffix_start)) by (by destruct mids).
  rewrite List.last_last, removelast_last. setoid_rewrite segs_like_ends. setoid_rewrite ends_tests. cbn zeta.
  destruct (segment_matches_at prefix cs 0); cbn [negb]; [|exists false; split; [done|]; split; [done|]; by intros [? _]].
  destruct (Nat.ltb_spec (length cs) (length suffix)); [exists false; split; [done|]; split; [done|]; lia|].
  destruct (Nat.ltb_spec (length cs - length suffix) (length prefix)); [exists false; split; [done|]; split; [done|]; lia|].
  destruct (segment_matches_at suffix cs (length cs - length suffix)); cbn [negb].
  - eexists. split; [done|]. rewrite match_middle_fit by lia. split; [intros; split_and!; (done || lia)|tauto].
  - exists false. split; [done|]. split; [done|]. intros (_ & _ & _ & ? & _). done.
Qed.

(** ** Theorems *)

(** C28. LIKE decides what its pattern means: the greedy search over the segments
    between percent signs returns true exactly when the characters of the text
    match those of the pattern, a percent sign standing for any run of
    characters and an underscore for any one. *)
Theorem like_match_correct pattern text :
  exists b, like_match (compile_like_pattern pattern) text = Ok b /\ (b = true <-> like (chars pattern) (chars text)).
Proof.
  destruct (like_match_segs (compile_like_pattern pattern) text) as (b & E & H); [apply pattern_loop_nonempty|].
  exists b. split; [done|]. rewrite H. unfold compile_like_pattern. rewrite pattern_loop_like. split.
  - intros (u & t' & E' & Su & L). inversion Su; subst. by rewrite E'.
  - intros L. exists [], (chars text). split_and!; [done|constructor|done].
Qed.

