(* ===== verification/Expr.v ===== *)
(** Expressions and predicates of query plans
    (crates/idb-sql/src/sql/ir/expr.rs): the trees the binder makes, their
    compilation to closures, the substitution of placeholders and the static
    types.  A closure is a function of the row; it is made once, and making it
    can fail by itself.  The error channel of correlated subqueries is the state
    of a compiled predicate. *)

From Stdlib Require Import ZArith Lia List Bool.
From coqutil Require Import Byte.
From S2P Require Import Prelude Common Civil Decimal Value Like.
From stdpp Require Import base list strings.
#[local] Open Scope Z_scope.

Abbreviation Tuple := (list Value).

Inductive BinaryOp : Type := OpAdd | OpSub | OpMul | OpDiv.

Inductive CompareOp : Type := CmpEq | CmpNeq | CmpLt | CmpLte | CmpGt | CmpGte.

Inductive Expression : Type :=
| Literal (v : Value)
| Column (i : nat)
| Param (i : nat)
| Binary (op : BinaryOp) (left right : Expression)
| ExtractYear (arg : Expression)
| Case (branches : list (Predicate * Expression)) (else_expr : option Expression)
| SubqueryResult (i : nat)
| OuterRef (k : nat)
| CorrelatedScalar (subquery : nat) (outer_cols : list nat)
| Substring (input : Expression) (start length : nat)
with Predicate : Type :=
| Compare (op : CompareOp) (left right : Expression)
| And (a b : Predicate)
| Or (a b : Predicate)
| Not (p : Predicate)
| IsLike (expr : Expression) (pattern : bytes)
| IsNull (expr : Expression)
| InSubquery (expr : option Expression) (subquery : nat) (negated : bool)
| CorrelatedExists (subquery : nat) (outer_cols : list nat) (negated : bool).

(** The value set is a set: only membership is used. *)
Record InSubquerySet := mkInSet { in_values : list Value; has_null : bool; nonempty : bool }.

Definition ExpressionFn : Type := Tuple -> result Value.
(** The state is the fault cell. *)
Definition Predicate3VL : Type := Tuple -> M (option Error) (option bool).
Abbreviation CorrelatedEvaluator := (list Value -> result (list Tuple)).

(** ** Operators *)

(** [checked_op(..).map(wrap).unwrap_or(Null)] *)
Definition or_null (wrap : Z -> Value) (o : option Z) : Value := match o with Some z => wrap z | None => VNull end.

Definition int_op (fits : Z -> bool) (op : BinaryOp) (a b : Z) : option Z :=
  match op with
  | OpAdd => checked fits (a + b)
  | OpSub => checked fits (a - b)
  | OpMul => checked fits (a * b)
  | OpDiv => if b =? 0 then None else checked fits (Z.quot a b)
  end.

Definition apply_decimal_op (op : BinaryOp) (a b : Decimal) : result Value :=
  match (match op with OpAdd => add a b | OpSub => sub a b | OpMul => mul a b | OpDiv => div a b end) with
  | Ok d => Ok (VDecimal d)
  | Err _ => Ok VNull
  | Panic => Panic
  end.

Definition eval_binary_op (op : BinaryOp) (l r : Value) : result Value :=
  match l, r with
  | VInt32 a, VInt32 b => Ok (or_null VInt32 (int_op in_i32 op a b))
  | VInt64 a, VInt64 b => Ok (or_null VInt64 (int_op in_i64 op a b))
  | VDecimal a, VDecimal b => apply_decimal_op op a b
  | VInt32 a, VDecimal b | VInt64 a, VDecimal b => d ← from_i64_with_scale a 0; apply_decimal_op op d b
  | VDecimal a, VInt32 b | VDecimal a, VInt64 b => d ← from_i64_with_scale b 0; apply_decimal_op op a d
  | _, _ => Ok VNull
  end.

Definition compare_is (op : CompareOp) (ord : comparison) : bool :=
  match op, ord with
  | CmpEq, Eq | CmpNeq, (Lt | Gt) | CmpLt, Lt | CmpLte, (Lt | Eq) | CmpGt, Gt | CmpGte, (Gt | Eq) => true
  | _, _ => false
  end.

Definition eval_compare (op : CompareOp) (l r : Value) : result (option bool) :=
  ord ← compare_sql l r;
  Ok (match ord with Some c => Some (compare_is op c) | None => None end).

(** [probe IN set] *)
Definition in_set (probe : Value) (set : InSubquerySet) : result (option bool) :=
  if negb (nonempty set) then Ok (Some false)
  else if is_null probe then Ok None
  else
    k ← join_key_normalized probe;
    if bool_decide (k ∈ in_values set) then Ok (Some true)
    else if has_null set then Ok None else Ok (Some false).

Definition eval_in (probe : Value) (set : InSubquerySet) (negated : bool) : result (option bool) :=
  raw ← in_set probe set;
  Ok (if negated then option_map negb raw else raw).

(** ** Correlated subqueries *)

Definition record_correlated_fault (e : Error) : M (option Error) unit :=
  modify (fun slot => match slot with Some _ => slot | None => Some e end).

Definition reduce_correlated_scalar (rows : list Tuple) : result Value :=
  match rows with
  | [] => Ok VNull
  | [row] => Ok (match row with v :: _ => v | [] => VNull end)
  | _ => Err (SqlParse "correlated scalar subquery returned more than one row")
  end.

(** [outer_cols.iter().map(|&c| t[c].clone()).collect()] *)
Definition outer_values (outer_cols : list nat) (t : Tuple) : result (list Value) := mapM (fun c => unwrap (t !! c)) outer_cols.

(** A result of an evaluator, its error put into the fault cell. *)
Definition or_fault {A B} (r : result A) (ok : A -> B) (sentinel : B) : M (option Error) B :=
  match r with
  | Ok a => mret (ok a)
  | Err e => record_correlated_fault e;; mret sentinel
  | Panic => pure Panic
  end.

(** [compile_operand], given what plain compilation makes of the operand. *)
Definition operand_with (plain : result ExpressionFn) (e : Expression) (correlated : list CorrelatedEvaluator) :
    result (Tuple -> M (option Error) Value) :=
  match e with
  | CorrelatedScalar subquery outer_cols =>
      eval ← unwrap (correlated !! subquery);
      Ok (fun t =>
        values ← pure (outer_values outer_cols t);
        or_fault (eval values ≫= reduce_correlated_scalar) id VNull)
  | _ => f ← plain; Ok (fun t => pure (f t))
  end.

(** ** Compilation *)

(** The closure of a CASE: its branch predicates have a fault cell of their own,
    which nothing writes. *)
Fixpoint case_fn (compiled : list (Predicate3VL * ExpressionFn)) (else_f : option ExpressionFn) (t : Tuple) : result Value :=
  match compiled with
  | [] => match else_f with Some f => f t | None => Ok VNull end
  | (pred, res) :: rest =>
      b ← (pred t None).1;
      if bool_decide (b = Some true) then res t else case_fn rest else_f t
  end.

Definition year_of (v : Value) : result Value :=
  match v with VDate days => ymd ← ymd_from_days days; Ok (VInt32 ymd.1.1) | _ => Ok VNull end.

Definition substring_of (start length : nat) (v : Value) : result Value :=
  match v with VVarchar s | VChar s => r ← substring_chars s start length; Ok (VVarchar r) | _ => Ok VNull end.

Definition like_of (segments : list (list PatChar)) (v : Value) : result (option bool) :=
  match v with VVarchar s | VChar s => b ← like_match segments s; Ok (Some b) | _ => Ok None end.

(** Kleene AND and OR, the right operand run only when it is needed. *)
Definition kleene_and (a b : Predicate3VL) : Predicate3VL := fun t =>
  av ← a t;
  if bool_decide (av = Some false) then mret (Some false) else
  bv ← b t;
  mret (match av, bv with _, Some false => Some false | Some true, Some true => Some true | _, _ => None end).

Definition kleene_or (a b : Predicate3VL) : Predicate3VL := fun t =>
  av ← a t;
  if bool_decide (av = Some true) then mret (Some true) else
  bv ← b t;
  mret (match av, bv with _, Some true => Some true | Some false, Some false => Some false | _, _ => None end).

(** A placeholder left in the tree fails an assertion (of debug builds, for the
    first two kinds). *)
Fixpoint compile (e : Expression) : result ExpressionFn :=
  match e with
  | Literal v => Ok (fun _ => Ok v)
  | Column i => Ok (fun t => unwrap (t !! i))
  | Param _ | SubqueryResult _ | OuterRef _ | CorrelatedScalar _ _ => Panic
  | Binary op el er =>
      l ← compile el;
      r ← compile er;
      Ok (fun t => x ← l t; y ← r t; eval_binary_op op x y)
  | ExtractYear arg => a ← compile arg; Ok (fun t => v ← a t; year_of v)
  | Substring input start length => i ← compile input; Ok (fun t => v ← i t; substring_of start length v)
  | Case branches else_expr =>
      compiled ← (fix go (bs : list (Predicate * Expression)) : result (list (Predicate3VL * ExpressionFn)) :=
        match bs with
        | [] => Ok []
        | (pred, res) :: rest => p ← compile_3vl pred [] []; r ← compile res; others ← go rest; Ok ((p, r) :: others)
        end) branches;
      else_f ← match else_expr with Some x => f ← compile x; Ok (Some f) | None => Ok None end;
      Ok (case_fn compiled else_f)
  end
with compile_3vl (p : Predicate) (subqueries : list InSubquerySet) (correlated : list CorrelatedEvaluator) : result Predicate3VL :=
  match p with
  | Compare op el er =>
      l ← operand_with (compile el) el correlated;
      r ← operand_with (compile er) er correlated;
      Ok (fun t => x ← l t; y ← r t; pure (eval_compare op x y))
  | And a b =>
      a ← compile_3vl a subqueries correlated;
      b ← compile_3vl b subqueries correlated;
      Ok (kleene_and a b)
  | Or a b =>
      a ← compile_3vl a subqueries correlated;
      b ← compile_3vl b subqueries correlated;
      Ok (kleene_or a b)
  | Not p => p ← compile_3vl p subqueries correlated; Ok (fun t => b ← p t; mret (option_map negb b))
  | IsLike expr pattern => e ← compile expr; Ok (fun t => pure (v ← e t; like_of (compile_like_pattern pattern) v))
  | IsNull expr => e ← compile expr; Ok (fun t => pure (v ← e t; Ok (Some (is_null v))))
  | InSubquery expr subquery negated =>
      set ← unwrap (subqueries !! subquery);
      match expr with
      | None => Ok (fun _ => mret (Some (xorb (nonempty set) negated)))
      | Some e => e ← compile e; Ok (fun t => pure (v ← e t; eval_in v set negated))
      end
  | CorrelatedExists subquery outer_cols negated =>
      eval ← unwrap (correlated !! subquery);
      Ok (fun t =>
        values ← pure (outer_values outer_cols t);
        or_fault (eval values) (fun rows => Some (xorb (match rows with [] => false | _ => true end) negated)) None)
  end.

Definition compile_operand (e : Expression) (correlated : list CorrelatedEvaluator) : result (Tuple -> M (option Error) Value) :=
  operand_with (compile e) e correlated.

Definition compile_correlated (p : Predicate) (subqueries : list InSubquerySet) (correlated : list CorrelatedEvaluator) :
    result (Tuple -> M (option Error) bool) :=
  f ← compile_3vl p subqueries correlated;
  Ok (fun t => b ← f t; mret (bool_decide (b = Some true))).

(** The fault cell is fresh and nothing reads it. *)
Definition compile_with_subqueries (p : Predicate) (subqueries : list InSubquerySet) : result (Tuple -> result bool) :=
  f ← compile_3vl p subqueries [];
  Ok (fun t => b ← (f t None).1; Ok (bool_decide (b = Some true))).

Definition compile_predicate (p : Predicate) : result (Tuple -> result bool) := compile_with_subqueries p [].

(** ** Substitution

    The three passes walk the tree alike and differ in the leaf they replace. *)

Fixpoint map_leaves (leaf : Expression -> result Expression) (e : Expression) : result Expression :=
  match e with
  | Literal _ | Column _ | Param _ | SubqueryResult _ | OuterRef _ | CorrelatedScalar _ _ => leaf e
  | Binary op el er => l ← map_leaves leaf el; r ← map_leaves leaf er; Ok (Binary op l r)
  | ExtractYear arg => a ← map_leaves leaf arg; Ok (ExtractYear a)
  | Substring input start length => i ← map_leaves leaf input; Ok (Substring i start length)
  | Case branches else_expr =>
      branches ← (fix go (bs : list (Predicate * Expression)) : result (list (Predicate * Expression)) :=
        match bs with
        | [] => Ok []
        | (pred, res) :: rest =>
            p ← map_leaves_pred leaf pred; r ← map_leaves leaf res; others ← go rest; Ok ((p, r) :: others)
        end) branches;
      else_expr ← match else_expr with Some x => x' ← map_leaves leaf x; Ok (Some x') | None => Ok None end;
      Ok (Case branches else_expr)
  end
with map_leaves_pred (leaf : Expression -> result Expression) (p : Predicate) : result Predicate :=
  match p with
  | Compare op el er => l ← map_leaves leaf el; r ← map_leaves leaf er; Ok (Compare op l r)
  | And a b => a ← map_leaves_pred leaf a; b ← map_leaves_pred leaf b; Ok (And a b)
  | Or a b => a ← map_leaves_pred leaf a; b ← map_leaves_pred leaf b; Ok (Or a b)
  | Not p => p ← map_leaves_pred leaf p; Ok (Not p)
  | IsLike expr pattern => e ← map_leaves leaf expr; Ok (IsLike e pattern)
  | IsNull expr => e ← map_leaves leaf expr; Ok (IsNull e)
  | InSubquery expr subquery negated =>
      expr ← match expr with Some x => x' ← map_leaves leaf x; Ok (Some x') | None => Ok None end;
      Ok (InSubquery expr subquery negated)
  | CorrelatedExists subquery outer_cols negated => Ok (CorrelatedExists subquery outer_cols negated)
  end.

(** [values.get(i).cloned().map(Literal).ok_or_else(..)] *)
Definition bound (values : list Value) (i : nat) (e : Error) : result Expression := v ← ok_or (values !! i) e; Ok (Literal v).

Definition param_leaf (params : list Value) (e : Expression) : result Expression :=
  match e with Param i => bound params i (SqlParse "prepared statement: parameter not bound") | _ => Ok e end.
Definition result_leaf (values : list Value) (e : Expression) : result Expression :=
  match e with SubqueryResult i => bound values i (Internal "scalar-subquery slot has no resolved value") | _ => Ok e end.
Definition outer_leaf (values : list Value) (e : Expression) : result Expression :=
  match e with OuterRef k => bound values k (Internal "OuterRef slot has no value") | _ => Ok e end.

Definition substitute_params (params : list Value) : Expression -> result Expression := map_leaves (param_leaf params).
Definition substitute_subquery_results (values : list Value) : Expression -> result Expression := map_leaves (result_leaf values).
Definition substitute_outer_refs (values : list Value) : Expression -> result Expression := map_leaves (outer_leaf values).

Definition pred_substitute_params (params : list Value) : Predicate -> result Predicate := map_leaves_pred (param_leaf params).
Definition pred_substitute_subquery_results (values : list Value) : Predicate -> result Predicate := map_leaves_pred (result_leaf values).
Definition pred_substitute_outer_refs (values : list Value) : Predicate -> result Predicate := map_leaves_pred (outer_leaf values).

(** ** Static types *)

Definition unify_case_type (a b : ColumnType) : option ColumnType :=
  match a, b with
  | TDecimal p1 s1, TDecimal p2 s2 => if s1 =? s2 then Some (TDecimal (Z.max p1 p2) s1) else None
  | _, _ => if bool_decide (a = b) then Some a else None
  end.

(** The sum of two scales is a [u8]. *)
Definition decimal_op_type (op : BinaryOp) (precision s1 s2 : Z) : result (option ColumnType) :=
  match op with
  | OpAdd | OpSub => Ok (if s1 =? s2 then Some (TDecimal precision s1) else None)
  | OpMul =>
      sum ← arith in_u8 (s1 + s2);
      Ok (if MAX_SCALE <? sum then None else Some (TDecimal precision sum))
  | OpDiv => Ok (Some (TDecimal precision (Z.max s1 s2)))
  end.

Definition infer_binary_op_type (op : BinaryOp) (l r : ColumnType) : result (option ColumnType) :=
  match l, r with
  | TInt32, TInt32 => Ok (Some TInt32)
  | TInt64, TInt64 => Ok (Some TInt64)
  | TDecimal p s1, TDecimal _ s2 => decimal_op_type op p s1 s2
  | (TInt32 | TInt64), TDecimal p s => decimal_op_type op p 0 s
  | TDecimal p s, (TInt32 | TInt64) => decimal_op_type op p s 0
  | _, _ => Ok None
  end.

Definition is_null_literal (e : Expression) : bool := match e with Literal VNull => true | _ => false end.

(** One result of a CASE: its type joins the type so far; [None] stops. *)
Definition join_type (acc : option ColumnType) (ty : option ColumnType) : option (option ColumnType) :=
  match ty with
  | None => None
  | Some ty =>
      match acc with
      | None => Some (Some ty)
      | Some existing => match unify_case_type existing ty with Some u => Some (Some u) | None => None end
      end
  end.

Fixpoint column_type (e : Expression) (tys : list ColumnType) : result (option ColumnType) :=
  match e with
  | Literal v => Ok (type_of v)
  | Column i => Ok (tys !! i)
  | Param _ | SubqueryResult _ | OuterRef _ | CorrelatedScalar _ _ => Ok None
  | Binary op el er =>
      l ← column_type el tys;
      match l with
      | None => Ok None
      | Some l =>
          r ← column_type er tys;
          match r with None => Ok None | Some r => infer_binary_op_type op l r end
      end
  | ExtractYear arg =>
      a ← column_type arg tys;
      Ok (match a with Some TDate => Some TInt32 | _ => None end)
  | Substring input _ length =>
      i ← column_type input tys;
      Ok (match i with
          | Some (TVarchar _) | Some (TChar _) => Some (TVarchar (Z.min (Z.of_nat length) (2 ^ 16 - 1)))
          | _ => None
          end)
  | Case branches else_expr =>
      (fix go (bs : list (Predicate * Expression)) (acc : option ColumnType) : result (option ColumnType) :=
        match bs with
        | [] =>
            match else_expr with
            | None => Ok acc
            | Some x =>
                if is_null_literal x then Ok acc else
                ty ← column_type x tys;
                Ok (match join_type acc ty with Some acc' => acc' | None => None end)
            end
        | (_, res) :: rest =>
            if is_null_literal res then go rest acc else
            ty ← column_type res tys;
            match join_type acc ty with Some acc' => go rest acc' | None => Ok None end
        end) branches None
  end.

(** ** Correlated forms *)

Fixpoint expr_contains_correlated (e : Expression) : bool :=
  match e with
  | CorrelatedScalar _ _ => true
  | Literal _ | Column _ | Param _ | SubqueryResult _ | OuterRef _ => false
  | Binary _ el er => expr_contains_correlated el || expr_contains_correlated er
  | ExtractYear arg => expr_contains_correlated arg
  | Substring input _ _ => expr_contains_correlated input
  | Case branches else_expr =>
      (fix any (bs : list (Predicate * Expression)) : bool :=
        match bs with
        | [] => false
        | (pred, res) :: rest => (contains_correlated pred || expr_contains_correlated res) || any rest
        end) branches
      || match else_expr with Some x => expr_contains_correlated x | None => false end
  end
with contains_correlated (p : Predicate) : bool :=
  match p with
  | CorrelatedExists _ _ _ => true
  | Compare _ el er => expr_contains_correlated el || expr_contains_correlated er
  | And a b | Or a b => contains_correlated a || contains_correlated b
  | Not p => contains_correlated p
  | IsLike expr _ => expr_contains_correlated expr
  | IsNull expr => expr_contains_correlated expr
  | InSubquery expr _ _ => match expr with Some x => expr_contains_correlated x | None => false end
  end.

(** ** Uncorrelated subqueries (src/session.rs) *)

Definition MAX_IN_SUBQUERY_ROWS : Z := 2 ^ 20.

Definition scalar_value_of (rows : list Tuple) : result Value :=
  match rows with
  | [] => Ok VNull
  | [row] => Ok (match row with v :: _ => v | [] => VNull end)
  | _ => Err (SqlParse "scalar subquery returned more than one row")
  end.

Definition first_value (row : Tuple) : Value := match row with v :: _ => v | [] => VNull end.

(** The loop of [materialize_in_set]. *)
Fixpoint in_set_loop (rows : list Tuple) (values : list Value) (null : bool) : result (list Value * bool) :=
  match rows with
  | [] => Ok (values, null)
  | row :: rest =>
      if is_null (first_value row) then in_set_loop rest values true
      else k ← join_key_normalized (first_value row); in_set_loop rest (k :: values) null
  end.

Definition materialize_in_set (rows : list Tuple) : result InSubquerySet :=
  if MAX_IN_SUBQUERY_ROWS <? len rows then Err (SqlParse "IN subquery produced too many rows") else
  vs ← in_set_loop rows [] false;
  Ok (mkInSet vs.1 vs.2 (match rows with [] => false | _ => true end)).
