(* ===== verification/ExprSem.v ===== *)
(** What expressions and predicates mean, and that the compiled closures compute
    it: rows of well-formed values give well-formed values of the inferred type,
    predicates are Kleene's three-valued logic, IN is a disjunction of
    equalities, and substitution is binding. *)

From Stdlib Require Import ZArith Lia List Bool.
From coqutil Require Import Byte.
From S2P Require Import Prelude Common Civil Decimal Value Like Expr.
From stdpp Require Import base list strings.
#[local] Open Scope Z_scope.

(** ** Induction over both trees *)

Section tree_induction.
Context (P : Expression -> Prop) (Q : Predicate -> Prop).
Context (Hlit : forall v, P (Literal v)) (Hcol : forall i, P (Column i)) (Hpar : forall i, P (Param i)).
Context (Hbin : forall op l r, P l -> P r -> P (Binary op l r)) (Hyear : forall a, P a -> P (ExtractYear a)).
Context (Hcase : forall bs el, Forall (fun b => Q b.1 /\ P b.2) bs -> (forall x, el = Some x -> P x) -> P (Case bs el)).
Context (Hsub : forall i, P (SubqueryResult i)) (Hout : forall k, P (OuterRef k)) (Hcor : forall s c, P (CorrelatedScalar s c)).
Context (Hstr : forall i s n, P i -> P (Substring i s n)).
Context (Hcmp : forall op l r, P l -> P r -> Q (Compare op l r)).
Context (Hand : forall a b, Q a -> Q b -> Q (And a b)) (Hor : forall a b, Q a -> Q b -> Q (Or a b)) (Hnot : forall p, Q p -> Q (Not p)).
Context (Hlike : forall e pat, P e -> Q (IsLike e pat)) (Hnull : forall e, P e -> Q (IsNull e)).
Context (Hin : forall e s n, (forall x, e = Some x -> P x) -> Q (InSubquery e s n)) (Hex : forall s c n, Q (CorrelatedExists s c n)).

Fixpoint expr_induct (e : Expression) : P e :=
  match e with
  | Literal v => Hlit v
  | Column i => Hcol i
  | Param i => Hpar i
  | Binary op l r => Hbin op l r (expr_induct l) (expr_induct r)
  | ExtractYear a => Hyear a (expr_induct a)
  | Case bs el =>
      Hcase bs el
        ((fix go (bs : list (Predicate * Expression)) : Forall (fun b => Q b.1 /\ P b.2) bs :=
          match bs with
          | [] => Forall_nil_2 _
          | (p, x) :: rest => Forall_cons_2 (fun b => Q b.1 /\ P b.2) (p, x) rest (conj (pred_induct p) (expr_induct x)) (go rest)
          end) bs)
        (match el with
         | Some y => fun x E => eq_rect y P (expr_induct y) x (f_equal (fun o => match o with Some z => z | None => y end) E)
         | None => fun x E => match E with end
         end)
  | SubqueryResult i => Hsub i
  | OuterRef k => Hout k
  | CorrelatedScalar s c => Hcor s c
  | Substring i s n => Hstr i s n (expr_induct i)
  end
with pred_induct (p : Predicate) : Q p :=
  match p with
  | Compare op l r => Hcmp op l r (expr_induct l) (expr_induct r)
  | And a b => Hand a b (pred_induct a) (pred_induct b)
  | Or a b => Hor a b (pred_induct a) (pred_induct b)
  | Not p => Hnot p (pred_induct p)
  | IsLike e pat => Hlike e pat (expr_induct e)
  | IsNull e => Hnull e (expr_induct e)
  | InSubquery e s n =>
      Hin e s n
        (match e with
         | Some y => fun x E => eq_rect y P (expr_induct y) x (f_equal (fun o => match o with Some z => z | None => y end) E)
         | None => fun x E => match E with end
         end)
  | CorrelatedExists s c n => Hex s c n
  end.

Lemma trees_induct : (forall e, P e) /\ (forall p, Q p).
Proof. split; [apply expr_induct|apply pred_induct]. Qed.
End tree_induction.

(** ** Semantics *)

(** What a statement binds: the values of its placeholders, the rows of its
    uncorrelated subqueries and the evaluators of its correlated ones. *)
Record Env := mkEnv {
  params : list Value;
  results : list Value;
  outers : list Value;
  in_rows : list (list Tuple);
  evaluators : list CorrelatedEvaluator
}.

(** Kleene's truth values in their order: false, unknown, true. *)
Definition rank (b : option bool) : Z := match b with Some false => 0 | None => 1 | Some true => 2 end.
Definition of_rank (z : Z) : option bool := if z =? 0 then Some false else if z =? 1 then None else Some true.
Definition conj3 (a b : option bool) : option bool := of_rank (Z.min (rank a) (rank b)).
Definition disj3 (a b : option bool) : option bool := of_rank (Z.max (rank a) (rank b)).
Definition neg3 (a : option bool) : option bool := of_rank (2 - rank a).

Definition total {A} (d : A) (r : result A) : A := match r with Ok a => a | _ => d end.
Definition value_at (vs : list Value) (i : nat) : Value := nth i vs VNull.

(** Equality of values: unknown when either is NULL, and never of values of types
    that do not compare. *)
Definition equal3 (x v : Value) : option bool :=
  if is_null x || is_null v then None else Some (match total None (compare_sql x v) with Some Eq => true | _ => false end).

(** [x] equals one of the values. *)
Definition any_equal (x : Value) (vs : list Value) : option bool := fold_right (fun v => disj3 (equal3 x v)) (Some false) vs.

Definition run_evaluator (env : Env) (i : nat) (vs : list Value) : result (list Tuple) :=
  match evaluators env !! i with Some ev => ev vs | None => Panic end.

Definition has_rows {A} (rows : list A) : bool := match rows with [] => false | _ => true end.

Fixpoint eval (env : Env) (e : Expression) (t : Tuple) : Value :=
  match e with
  | Literal v => v
  | Column i => value_at t i
  | Param i => value_at (params env) i
  | SubqueryResult i => value_at (results env) i
  | OuterRef k => value_at (outers env) k
  | CorrelatedScalar s cols => total VNull (run_evaluator env s (map (value_at t) cols) ≫= reduce_correlated_scalar)
  | Binary op l r => total VNull (eval_binary_op op (eval env l t) (eval env r t))
  | ExtractYear a => total VNull (year_of (eval env a t))
  | Substring i start n => total VNull (substring_of start n (eval env i t))
  | Case bs el =>
      (fix go (bs : list (Predicate * Expression)) : Value :=
        match bs with
        | [] => match el with Some x => eval env x t | None => VNull end
        | (p, x) :: rest => if bool_decide (truth env p t = Some true) then eval env x t else go rest
        end) bs
  end
with truth (env : Env) (p : Predicate) (t : Tuple) : option bool :=
  match p with
  | Compare op l r => total None (eval_compare op (eval env l t) (eval env r t))
  | And a b => conj3 (truth env a t) (truth env b t)
  | Or a b => disj3 (truth env a t) (truth env b t)
  | Not p => neg3 (truth env p t)
  | IsLike e pattern => total None (like_of (compile_like_pattern pattern) (eval env e t))
  | IsNull e => Some (is_null (eval env e t))
  | InSubquery expr s negated =>
      let rows := nth s (in_rows env) [] in
      let b := match expr with Some e => any_equal (eval env e t) (map first_value rows) | None => Some (has_rows rows) end in
      if negated then neg3 b else b
  | CorrelatedExists s cols negated =>
      match run_evaluator env s (map (value_at t) cols) with
      | Ok rows => let b := Some (has_rows rows) in if negated then neg3 b else b
      | _ => None
      end
  end.

(** ** Well-formed plans and rows *)

(** A well-formed value; a date is one whose calendar day exists. *)
Definition value_safe (v : Value) : bool :=
  value_wf v && match v with VDate d => d <=? 2 ^ 31 - 1 - 719468 | _ => true end.

Definition row_ok (n : nat) (t : Tuple) : Prop := length t = n /\ Forall (fun v => value_safe v = true) t.

Definition cols_ok (n : nat) (cols : list nat) : bool := forallb (fun c => (c <? n)%nat) cols.

(** How many values there are for each kind of placeholder. *)
Record Slots := mkSlots { n_params : nat; n_results : nat; n_outers : nat }.
Definition closed : Slots := mkSlots 0 0 0.

(** Placeholders have a value, columns and subqueries exist, and a correlated
    scalar is an operand of a comparison: what the binder makes. *)
Fixpoint expr_open (k : Slots) (n : nat) (e : Expression) : bool :=
  match e with
  | Literal v => value_safe v
  | Column i => (i <? n)%nat
  | Param i => (i <? n_params k)%nat
  | SubqueryResult i => (i <? n_results k)%nat
  | OuterRef i => (i <? n_outers k)%nat
  | CorrelatedScalar _ _ => false
  | Binary _ l r => expr_open k n l && expr_open k n r
  | ExtractYear a => expr_open k n a
  | Substring i start _ => (1 <=? start)%nat && expr_open k n i
  | Case bs el =>
      (fix go (bs : list (Predicate * Expression)) : bool :=
        match bs with [] => true | (p, x) :: rest => pred_open k 0 0 n p && expr_open k n x && go rest end) bs
      && match el with Some x => expr_open k n x | None => true end
  end
with pred_open (k : Slots) (nsub ncorr n : nat) (p : Predicate) : bool :=
  match p with
  | Compare _ l r =>
      match l with CorrelatedScalar s cols => (s <? ncorr)%nat && cols_ok n cols | _ => expr_open k n l end &&
      match r with CorrelatedScalar s cols => (s <? ncorr)%nat && cols_ok n cols | _ => expr_open k n r end
  | And a b | Or a b => pred_open k nsub ncorr n a && pred_open k nsub ncorr n b
  | Not p => pred_open k nsub ncorr n p
  | IsLike e _ | IsNull e => expr_open k n e
  | InSubquery e s _ => (s <? nsub)%nat && match e with Some x => expr_open k n x | None => true end
  | CorrelatedExists s cols _ => (s <? ncorr)%nat && cols_ok n cols
  end.

(** No placeholder is left: what the substitutions leave. *)
Abbreviation expr_ok := (expr_open closed).
Abbreviation pred_ok := (pred_open closed).

(** The sets and evaluators a predicate is compiled with are those of the
    statement; an evaluator returns rows of well-formed values or an error. *)
Record bound_to (env : Env) (subs : list InSubquerySet) (evs : list CorrelatedEvaluator) : Prop := {
  bound_sets : forall i s, subs !! i = Some s -> exists rows, in_rows env !! i = Some rows /\ materialize_in_set rows = Ok s /\
    Forall (Forall (fun v => value_safe v = true)) rows;
  bound_evs : forall i ev, evs !! i = Some ev -> evaluators env !! i = Some ev /\
    forall vs, Forall (fun v => value_safe v = true) vs ->
      match ev vs with Ok rows => Forall (Forall (fun v => value_safe v = true)) rows | Err _ => True | Panic => False end
}.

(** No evaluator fails, and none returns more than one row. *)
Definition quiet_evs (evs : list CorrelatedEvaluator) : Prop :=
  forall ev vs, ev ∈ evs -> Forall (fun v => value_safe v = true) vs -> exists rows, ev vs = Ok rows /\ (length rows <= 1)%nat.

(** The fault cell is as before or holds an error. *)
Definition fault_after (s s' : option Error) : Prop := s' = s \/ is_Some s'.

(** ** Operators on well-formed values *)

Abbreviation safe v := (value_safe v = true).

Lemma safe_wf v : safe v -> value_wf v = true.
Proof. unfold value_safe. by intros [? _]%andb_true_iff. Qed.

Lemma checked_fits fits z z' : checked fits z = Some z' -> fits z' = true.
Proof. unfold checked. destruct (fits z) eqn:E; [|done]. by intros [= <-]. Qed.

Lemma int_op_fits fits op a b z : int_op fits op a b = Some z -> fits z = true.
Proof. destruct op; cbn [int_op]; try apply checked_fits. zcase; [done|]. apply checked_fits. Qed.

Lemma or_null_safe wrap fits o :
  (forall z, fits z = true -> safe (wrap z)) -> (forall z, o = Some z -> fits z = true) -> safe (or_null wrap o).
Proof. intros H1 H2. destruct o as [z|]; [apply H1, H2; done|done]. Qed.

Lemma decimal_op_safe op a b : decimal_wf a = true -> decimal_wf b = true -> exists v, apply_decimal_op op a b = Ok v /\ safe v.
Proof.
  intros Ha Hb. pose proof (decimal_arith_exact a b Ha Hb) as (A1 & A2 & A3). pose proof (decimal_div_correct a b Ha Hb) as A4. cbn zeta in A4.
  unfold apply_decimal_op. destruct op; [destruct (add a b)|destruct (sub a b)|destruct (mul a b)|destruct (div a b)]; try done;
    (eexists; split; [done|]); unfold value_safe; cbn [value_wf]; rewrite ?andb_true_r; tauto.
Qed.

Lemma int_decimal_wf n : in_i64 n = true -> from_i64_with_scale n 0 = Ok (mkDecimal n 0) /\ decimal_wf (mkDecimal n 0) = true.
Proof. intros H. split; [done|]. unfold decimal_wf. cbn [mantissa scale]. by rewrite H. Qed.

Lemma in_i32_i64 n : in_i32 n = true -> in_i64 n = true.
Proof. unfold in_i32, in_i64. rewrite !andb_true_iff, !Z.leb_le, !Z.ltb_lt. lia. Qed.

Lemma binary_safe op x y : safe x -> safe y -> exists v, eval_binary_op op x y = Ok v /\ safe v.
Proof.
  intros Hx Hy. pose proof (safe_wf x Hx) as Wx. pose proof (safe_wf y Hy) as Wy.
  assert (I : forall wrap fits a b, (forall z, fits z = true -> safe (wrap z)) ->
    exists v, @Ok Error _ (or_null wrap (int_op fits op a b)) = Ok v /\ safe v).
  { intros wrap fits a b H. eexists. split; [done|]. eapply or_null_safe; [done|]. apply int_op_fits. }
  destruct x, y; cbn [eval_binary_op value_wf] in *; try (by exists VNull); try apply I;
    try (intros z Hz; unfold value_safe; cbn; by rewrite Hz);
    repeat match goal with
    | H : in_i32 _ = true |- _ => apply in_i32_i64 in H
    | H : in_i64 ?n = true |- context [from_i64_with_scale ?n 0] =>
        let E := fresh in destruct (int_decimal_wf n H) as [E ?]; rewrite E; cbn [mbind outcome_bind]
    end; by apply decimal_op_safe.
Qed.

Lemma year_fits days r : ymd_from_days days = Ok r -> in_i32 r.1.1 = true.
Proof.
  unfold ymd_from_days. intros E. inv_ok. cbn [fst].
  match goal with H : (if _ <=? 2 then _ else _) = Ok _ |- _ => destruct (_ <=? 2) in H; inv_ok end;
    repeat match goal with H : arith _ _ = Ok _ |- _ => apply arith_Ok in H as [? ->] end; done.
Qed.

Lemma year_safe v : safe v -> exists r, year_of v = Ok r /\ safe r.
Proof.
  intros H. destruct v; cbn [year_of]; try (by exists VNull). unfold value_safe in H. cbn [value_wf] in H.
  apply andb_true_iff in H as [W D]. unfold in_i32 in W. zbool. pose proof (ymd_from_days_correct days ltac:(lia)) as E.
  rewrite E. apply year_fits in E. cbn [mbind outcome_bind]. eexists. split; [done|]. unfold value_safe. cbn [value_wf]. by rewrite E.
Qed.

Lemma substring_safe start n v : (1 <= start)%nat -> safe v -> exists r, substring_of start n v = Ok r /\ safe r.
Proof.
  intros L H. pose proof (safe_wf v H) as W.
  destruct v; cbn [substring_of value_wf] in *; try (by exists VNull);
    destruct (substring_valid s start n W L) as (r & -> & Vr & _); (eexists; split; [done|]); unfold value_safe; cbn; by rewrite Vr.
Qed.

Lemma like_total pattern v : exists b, like_of (compile_like_pattern pattern) v = Ok b.
Proof.
  destruct v; cbn [like_of]; try (by eexists);
    destruct (like_match_segs (compile_like_pattern pattern) s (pattern_loop_nonempty _ _)) as (b & -> & _); by eexists.
Qed.

Lemma compare_total op x y : safe x -> safe y -> exists b, eval_compare op x y = Ok b.
Proof. intros Hx Hy. unfold eval_compare. rewrite compare_sql_denote by (by apply safe_wf). by eexists. Qed.

(** ** Kleene logic *)

Lemma conj3_match a b :
  conj3 a b = match a, b with _, Some false => Some false | Some true, Some true => Some true | _, _ => if bool_decide (a = Some false) then Some false else None end.
Proof. by destruct a as [[]|], b as [[]|]. Qed.

Lemma neg3_map a : neg3 a = option_map negb a.
Proof. by destruct a as [[]|]. Qed.

(** ** IN *)

Definition equals (x v : Value) : bool := match total None (compare_sql x v) with Some Eq => true | _ => false end.

Lemma any_equal_cases x vs :
  any_equal x vs =
  match vs with
  | [] => Some false
  | _ => if is_null x then None else if existsb (fun v => negb (is_null v) && equals x v) vs then Some true
         else if existsb is_null vs then None else Some false
  end.
Proof.
  induction vs as [|v vs IH]; [done|]. cbn [any_equal fold_right]. change (fold_right _ _ vs) with (any_equal x vs).
  rewrite IH. unfold equal3. fold (equals x v). cbn [existsb]. destruct vs as [|w vs].
  - cbn. destruct (is_null x), (is_null v), (equals x v); done.
  - cbn [existsb]. set (A := _ && equals x w || _). set (B := is_null w || _). destruct (is_null x), (is_null v), (equals x v), A, B; done.
Qed.

Lemma is_null_iff v : is_null v = true <-> v = VNull.
Proof. by destruct v. Qed.

Lemma not_null v : is_null v = false -> v <> VNull.
Proof. by destruct v. Qed.

(** The loop collects the keys of the values that are not NULL. *)
Lemma in_set_loop_ok rows : Forall (Forall (fun v => safe v)) rows -> forall vs null,
  exists ks, in_set_loop rows vs null = Ok (ks, null || existsb is_null (map first_value rows)) /\
    forall k, k ∈ ks <-> k ∈ vs \/ exists v, v ∈ map first_value rows /\ v <> VNull /\ join_key_normalized v = Ok k.
Proof.
  induction 1 as [|row rows R F IH]; intros vs null; cbn [in_set_loop map existsb].
  - exists vs. rewrite orb_false_r. split; [done|]. intros k. split; [by left|]. intros [?|(v & Hv & _)]; [done|by apply not_elem_of_nil in Hv].
  - assert (Sf : safe (first_value row)) by (destruct R; done).
    destruct (is_null (first_value row)) eqn:N.
    + destruct (IH vs true) as (ks & -> & K). exists ks. split; [by destruct null|]. intros k. rewrite K. setoid_rewrite elem_of_cons.
      apply is_null_iff in N. split; [intros [?|(v & ? & ?)]; [by left|right; exists v; tauto]|].
      intros [?|(v & [->|?] & ? & ?)]; [by left|done|right; by exists v].
    + destruct (join_key_normalized_spec (first_value row) (safe_wf _ Sf)) as (k0 & E0 & _). rewrite E0. cbn [mbind outcome_bind].
      destruct (IH (k0 :: vs) null) as (ks & -> & K). exists ks. split; [done|]. intros k. rewrite K. setoid_rewrite elem_of_cons.
      apply not_null in N. split.
      * intros [[->|?]|(v & ? & ?)]; [right; exists (first_value row); tauto|by left|right; exists v; tauto].
      * intros [?|(v & [->|?] & ? & ?)]; [left; by right|left; left; congruence|right; by exists v].
Qed.

Lemma equals_iff x v : safe x -> safe v -> equals x v = true <-> compare_sql x v = Ok (Some Eq).
Proof.
  intros Hx Hv. unfold equals. rewrite compare_sql_denote by (by apply safe_wf). cbn [total].
  destruct (key_cmp _ _) as [[]|]; split; intros; try done; congruence.
Qed.

Lemma first_safe rows v : Forall (Forall (fun v => safe v)) rows -> v ∈ map first_value rows -> safe v.
Proof.
  intros F H. apply list_elem_of_In, in_map_iff in H as (r & <- & Hr). apply list_elem_of_In in Hr.
  rewrite Forall_forall in F. specialize (F r Hr). destruct F; done.
Qed.

(** The key of a value is collected exactly when the value equals a row. *)
Lemma collected_iff probe rows (ks : list Value) k :
  safe probe -> probe <> VNull -> Forall (Forall (fun v => safe v)) rows -> join_key_normalized probe = Ok k ->
  (forall k, k ∈ ks <-> k ∈ ([] : list Value) \/ exists v, v ∈ map first_value rows /\ v <> VNull /\ join_key_normalized v = Ok k) ->
  k ∈ ks <-> existsb (fun v => negb (is_null v) && equals probe v) (map first_value rows) = true.
Proof.
  intros Sp Np F Ek K. rewrite K, existsb_exists.
  assert (Q : forall v, v ∈ map first_value rows -> v <> VNull -> join_key_normalized v = Ok k <-> equals probe v = true).
  { intros v Hv Nv. pose proof (first_safe rows v F Hv) as Sv. rewrite equals_iff by done.
    destruct (join_keys_equal probe v (safe_wf _ Sp) (safe_wf _ Sv) Np Nv) as (k1 & k2 & E1 & E2 & H). rewrite <- H. split; congruence. }
  split.
  - intros [?%not_elem_of_nil|(v & Hv & Nv & Ev)]; [done|]. exists v. split; [by apply list_elem_of_In|].
    apply andb_true_iff. split; [by destruct v|by apply Q].
  - intros (v & Hv & [Nv Eq]%andb_true_iff). apply negb_true_iff in Nv. apply list_elem_of_In in Hv.
    apply not_null in Nv as Nn. right. exists v. split_and!; [done|done|by apply Q].
Qed.

(** IN is the disjunction of the equalities with the rows. *)
Lemma in_set_any probe rows s :
  safe probe -> Forall (Forall (fun v => safe v)) rows -> materialize_in_set rows = Ok s ->
  in_set probe s = Ok (any_equal probe (map first_value rows)).
Proof.
  intros Sp F. unfold materialize_in_set. destruct (_ <? _); [done|].
  destruct (in_set_loop_ok rows F [] false) as (ks & -> & K). cbn [mbind outcome_bind fst snd]. intros [= <-].
  unfold in_set. cbn [nonempty in_values has_null]. rewrite any_equal_cases. destruct rows as [|row rows]; [done|].
  destruct (is_null probe) eqn:N; [done|]. apply not_null in N as Np.
  destruct (join_key_normalized_spec probe (safe_wf _ Sp)) as (k & Ek & _). rewrite Ek. cbn [mbind outcome_bind orb negb].
  pose proof (collected_iff probe (row :: rows) ks k Sp Np F Ek K) as C. cbn [map] in *.
  case_bool_decide as B; [apply C in B; by rewrite B|].
  rewrite C in B. apply not_true_iff_false in B. rewrite B. by destruct (existsb is_null _).
Qed.

(** ** The loops over the branches of a CASE, by name *)

Fixpoint compile_branches (bs : list (Predicate * Expression)) : result (list (Predicate3VL * ExpressionFn)) :=
  match bs with
  | [] => Ok []
  | (pred, res) :: rest => p ← compile_3vl pred [] []; r ← compile res; others ← compile_branches rest; Ok ((p, r) :: others)
  end.

Fixpoint eval_branches (env : Env) (bs : list (Predicate * Expression)) (el : option Expression) (t : Tuple) : Value :=
  match bs with
  | [] => match el with Some x => eval env x t | None => VNull end
  | (p, x) :: rest => if bool_decide (truth env p t = Some true) then eval env x t else eval_branches env rest el t
  end.

Fixpoint branches_open (k : Slots) (n : nat) (bs : list (Predicate * Expression)) : bool :=
  match bs with [] => true | (p, x) :: rest => pred_open k 0 0 n p && expr_open k n x && branches_open k n rest end.

Lemma compile_case bs el :
  compile (Case bs el) =
  (compiled ← compile_branches bs;
   else_f ← match el with Some x => f ← compile x; Ok (Some f) | None => Ok None end;
   Ok (case_fn compiled else_f)).
Proof. reflexivity. Qed.

Lemma eval_case env bs el t : eval env (Case bs el) t = eval_branches env bs el t.
Proof. cbn [eval]. induction bs as [|[p x] bs IH]; [done|]. cbn [eval_branches]. by rewrite <- IH. Qed.

Lemma case_open_iff k n bs el :
  expr_open k n (Case bs el) = branches_open k n bs && match el with Some x => expr_open k n x | None => true end.
Proof. cbn [expr_open]. f_equal. induction bs as [|[p x] bs IH]; [done|]. cbn [branches_open]. by rewrite <- IH. Qed.

(** ** The closures compute the semantics *)

Section closures.
Context (env : Env) (n : nat).

Lemma value_at_ok t i : row_ok n t -> (i < n)%nat -> t !! i = Some (value_at t i) /\ safe (value_at t i).
Proof.
  intros [L F] Hi. destruct (lookup_lt_is_Some_2 t i ltac:(lia)) as [v Hv]. unfold value_at.
  rewrite (nth_lookup_Some _ _ _ _ Hv). split; [done|]. rewrite Forall_lookup in F. by apply (F i).
Qed.

Lemma outer_values_ok cols t : row_ok n t -> cols_ok n cols = true ->
  outer_values cols t = Ok (map (value_at t) cols) /\ Forall (fun v => safe v) (map (value_at t) cols).
Proof.
  intros R. unfold outer_values, cols_ok. induction cols as [|c cols IH]; cbn [forallb map]; [done|].
  intros [Hc Hcs]%andb_true_iff. apply Nat.ltb_lt in Hc. destruct (IH Hcs) as [E F].
  destruct (value_at_ok t c R Hc) as [Ec Sc]. split; [|by constructor]. cbn [mapM]. rewrite Ec. cbn [unwrap mbind outcome_bind].
  by rewrite E.
Qed.

Definition computes (e : Expression) (f : ExpressionFn) : Prop :=
  forall t, row_ok n t -> f t = Ok (eval env e t) /\ safe (eval env e t).

(** A closure with the fault cell computes a value, and touches the cell only to
    record an error of an evaluator. *)
Definition settles {A} (evs : list CorrelatedEvaluator) (f : Tuple -> M (option Error) A) (v : Tuple -> A) : Prop :=
  forall t s, row_ok n t -> exists s', f t s = (Ok (v t), s') /\ fault_after s s' /\ (quiet_evs evs -> s' = s).

Lemma settles_pure {A} evs (f : Tuple -> result A) v : (forall t, row_ok n t -> f t = Ok (v t)) -> settles evs (fun t => pure (f t)) v.
Proof. intros H t s R. exists s. unfold pure. rewrite H by done. split_and!; [done|by left|done]. Qed.

Lemma run_pure_ok {S A B} (r : result A) a (k : A -> M S B) s : r = Ok a -> (pure r ≫= k) s = k a s.
Proof. by intros ->. Qed.

Lemma or_fault_ok {A B} (r : result A) (ok : A -> B) sentinel s :
  r <> Panic -> exists s', or_fault r ok sentinel s = (Ok (match r with Ok a => ok a | _ => sentinel end), s') /\
    fault_after s s' /\ (is_ok r = true -> s' = s).
Proof.
  destruct r as [a|e|]; intros N; [|  |done].
  - exists s. split_and!; [done|by left|done].
  - eexists. split; [done|]. split; [|done]. right. by destruct s.
Qed.

Lemma run_evaluator_ok subs evs i vs :
  bound_to env subs evs -> (i < length evs)%nat -> Forall (fun v => safe v) vs ->
  exists ev, evs !! i = Some ev /\ run_evaluator env i vs = ev vs /\
    match ev vs with Ok rows => Forall (Forall (fun v => safe v)) rows | Err _ => True | Panic => False end.
Proof.
  intros B L F. destruct (lookup_lt_is_Some_2 evs i L) as [ev E]. destruct (bound_evs _ _ _ B i ev E) as [Eb Hev].
  exists ev. unfold run_evaluator. rewrite Eb. split_and!; [done|done|by apply Hev].
Qed.

Definition compiles_to (e : Expression) : Prop := expr_ok n e = true -> exists f, compile e = Ok f /\ computes e f.
Definition pred_compiles_to (p : Predicate) : Prop := forall subs evs,
  bound_to env subs evs -> pred_ok (length subs) (length evs) n p = true ->
  exists f, compile_3vl p subs evs = Ok f /\ settles evs f (truth env p).

(** An operand of a comparison. *)
Definition operand_ok (ncorr : nat) (e : Expression) : bool :=
  match e with CorrelatedScalar s cols => (s <? ncorr)%nat && cols_ok n cols | _ => expr_ok n e end.

Lemma scalar_safe rows v : Forall (Forall (fun v => safe v)) rows -> reduce_correlated_scalar rows = Ok v -> safe v.
Proof.
  intros F. destruct rows as [|[|x r] [|? ?]]; cbn; intros [= <-]; try done. inversion F; subst. by inversion H1.
Qed.

Lemma operand_compiles e subs evs :
  compiles_to e -> bound_to env subs evs -> operand_ok (length evs) e = true ->
  (exists f, compile_operand e evs = Ok f /\ settles evs f (eval env e)) /\ forall t, row_ok n t -> safe (eval env e t).
Proof.
  intros Ce B O. unfold compile_operand.
  assert (Plain : expr_ok n e = true ->
    (exists f, (f ← compile e; Ok (fun t : Tuple => pure (S := option Error) (f t))) = Ok f /\ settles evs f (eval env e)) /\
    forall t, row_ok n t -> safe (eval env e t)).
  { intros O'. destruct (Ce O') as (f & -> & C). split; [|intros t R; by apply C]. eexists. split; [done|].
    apply settles_pure. intros t R. by apply C. }
  destruct e; try (by apply Plain). clear Plain Ce. cbn [operand_ok operand_with eval] in *.
  apply andb_true_iff in O as [L Cc]. apply Nat.ltb_lt in L. destruct (lookup_lt_is_Some_2 evs subquery L) as [ev Ee].
  assert (V : forall t, row_ok n t -> exists r, run_evaluator env subquery (map (value_at t) outer_cols) = r /\
    ev (map (value_at t) outer_cols) = r /\ r <> Panic /\ (quiet_evs evs -> exists rows, r = Ok rows /\ (length rows <= 1)%nat) /\
    match r with Ok rows => Forall (Forall (fun v => safe v)) rows | _ => True end).
  { intros t R. destruct (outer_values_ok outer_cols t R Cc) as [_ Fv].
    destruct (run_evaluator_ok subs evs subquery _ B L Fv) as (ev' & Ee' & -> & Hr). rewrite Ee in Ee'. injection Ee' as <-.
    eexists. split_and!; [done|done| | |].
    - intros E. by rewrite E in Hr.
    - intros Qv. apply Qv; [by apply list_elem_of_lookup_2 in Ee|done].
    - by destruct (ev _). }
  rewrite Ee. cbn [unwrap mbind outcome_bind]. split.
  - eexists. split; [done|]. intros t s R. destruct (V t R) as (r & E1 & E2 & N & Qr & _).
    destruct (outer_values_ok outer_cols t R Cc) as [Eo _]. rewrite (run_pure_ok _ _ _ _ Eo), E1, E2.
    destruct (or_fault_ok (r ≫= reduce_correlated_scalar) id VNull s) as (s' & E & Fa & Qs).
    { destruct r as [[|? [|? ?]]|e|]; done. }
    exists s'. split_and!; [rewrite E; by destruct (r ≫= reduce_correlated_scalar)|done|].
    intros Qv. apply Qs. destruct (Qr Qv) as (rows & -> & Lr). destruct rows as [|? [|? ?]]; [done|done|cbn in Lr; lia].
  - intros t R. destruct (V t R) as (r & E1 & _ & N & _ & Sr). rewrite E1. destruct r as [rows|e|]; [|done|done].
    cbn [mbind outcome_bind]. destruct (reduce_correlated_scalar rows) as [v|e|] eqn:Er; [|done|done]. by eapply scalar_safe.
Qed.

(** The branches of a CASE. *)
Lemma branches_compile bs :
  Forall (fun b => pred_compiles_to b.1 /\ compiles_to b.2) bs -> branches_open closed n bs = true ->
  exists compiled, compile_branches bs = Ok compiled /\
    forall else_f el t, row_ok n t ->
      (match else_f with Some f => f t | None => Ok VNull end = Ok (match el with Some x => eval env x t | None => VNull end) /\
       safe (match el with Some x => eval env x t | None => VNull end)) ->
      case_fn compiled else_f t = Ok (eval_branches env bs el t) /\ safe (eval_branches env bs el t).
Proof.
  induction 1 as [|[p x] bs [Cp Cx] F IH]; intros O; cbn [branches_open] in O.
  { exists []. split; [done|]. intros else_f el t R He. done. }
  cbn [fst snd] in Cp, Cx.
  apply andb_true_iff in O as [O O3]. apply andb_true_iff in O as [O1 O2].
  destruct (Cp [] []) as (fp & Ep & Sp); [by split|done|]. destruct (Cx O2) as (fx & Ex & Hx).
  destruct (IH O3) as (compiled & Ec & Hc). exists ((fp, fx) :: compiled). cbn [compile_branches fst snd].
  rewrite Ep, Ex, Ec. split; [done|]. intros else_f el t R He. cbn [case_fn eval_branches].
  destruct (Sp t None R) as (s' & -> & _). cbn [fst mbind outcome_bind]. case_bool_decide; [by apply Hx|by apply Hc].
Qed.

(** The two operands of a comparison, one after the other. *)
Lemma compare_compiles op l r : compiles_to l -> compiles_to r -> pred_compiles_to (Compare op l r).
Proof.
  intros Cl Cr subs evs B O. apply andb_true_iff in O as [Ol Or].
  destruct (operand_compiles l subs evs Cl B Ol) as [(fl & El & Sl) Safel].
  destruct (operand_compiles r subs evs Cr B Or) as [(fr & Er & Sr) Safer].
  change (exists f, (lf ← compile_operand l evs; rf ← compile_operand r evs;
    Ok (fun t => x ← lf t; y ← rf t; pure (eval_compare op x y))) = Ok f /\ settles evs f (truth env (Compare op l r))).
  rewrite El, Er. cbn [mbind outcome_bind]. eexists. split; [done|]. intros t s R.
  destruct (Sl t s R) as (s1 & E1 & F1 & Q1). destruct (Sr t s1 R) as (s2 & E2 & F2 & Q2). exists s2.
  destruct (compare_total op _ _ (Safel t R) (Safer t R)) as (b & Eb). split_and!.
  - unfold mbind, M_bind. rewrite E1, E2. unfold pure. cbn [truth]. by rewrite Eb.
  - destruct F2 as [->|?]; [done|by right].
  - intros Qv. by rewrite Q2, Q1.
Qed.

(** A left operand that decides, else both. *)
Lemma settles_short evs f g v w stop (join ref : option bool -> option bool -> option bool) :
  settles evs f v -> settles evs g w -> (forall b, ref stop b = stop) -> (forall a b, a <> stop -> join a b = ref a b) ->
  settles evs (fun t => av ← f t; if bool_decide (av = stop) then mret stop else bv ← g t; mret (join av bv)) (fun t => ref (v t) (w t)).
Proof.
  intros Hf Hg Hs Hj t s R. destruct (Hf t s R) as (s1 & E1 & F1 & Q1). unfold mbind, M_bind, mret, M_ret. rewrite E1.
  case_bool_decide as D.
  - exists s1. by rewrite D, Hs.
  - destruct (Hg t s1 R) as (s2 & E2 & F2 & Q2). exists s2. rewrite E2, Hj by done. split_and!; [done| |].
    + destruct F2 as [->|?]; [done|by right].
    + intros Qv. by rewrite Q2, Q1.
Qed.

Lemma kleene_and_settles evs f g v w : settles evs f v -> settles evs g w -> settles evs (kleene_and f g) (fun t => conj3 (v t) (w t)).
Proof. intros Hf Hg. apply settles_short; [done..|by intros [[]|]|by intros [[]|] [[]|]]. Qed.

Lemma kleene_or_settles evs f g v w : settles evs f v -> settles evs g w -> settles evs (kleene_or f g) (fun t => disj3 (v t) (w t)).
Proof. intros Hf Hg. apply settles_short; [done..|by intros [[]|]|by intros [[]|] [[]|]]. Qed.

Lemma in_compiles e s negated : (forall x, e = Some x -> compiles_to x) -> pred_compiles_to (InSubquery e s negated).
Proof.
  intros Ce subs evs B O. cbn [pred_open compile_3vl] in *. apply andb_true_iff in O as [L Oe]. apply Nat.ltb_lt in L.
  destruct (lookup_lt_is_Some_2 subs s L) as [set Es]. rewrite Es. cbn [unwrap mbind outcome_bind].
  destruct (bound_sets _ _ _ B s set Es) as (rows & Er & Em & Fr). pose proof (nth_lookup_Some _ _ [] _ Er) as En.
  destruct e as [x|].
  - destruct (Ce x eq_refl Oe) as (f & -> & Cx). cbn [mbind outcome_bind]. eexists. split; [done|]. apply settles_pure.
    intros t R. destruct (Cx t R) as [-> Sx]. cbn [mbind outcome_bind truth]. unfold eval_in.
    rewrite (in_set_any _ rows set Sx Fr Em), En. cbn [mbind outcome_bind]. destruct negated; [by rewrite neg3_map|done].
  - eexists. split; [done|]. intros t st R. exists st. split_and!; [|by left|done]. cbn [truth]. rewrite En. unfold mret, M_ret.
    unfold materialize_in_set in Em. destruct (_ <? _); [done|]. apply bind_Ok_inv in Em as (vs & _ & [= <-]). cbn [nonempty].
    by destruct rows, negated.
Qed.

Lemma exists_compiles s cols negated : pred_compiles_to (CorrelatedExists s cols negated).
Proof.
  intros subs evs B O. cbn [pred_open compile_3vl] in *. apply andb_true_iff in O as [L Oc]. apply Nat.ltb_lt in L.
  destruct (lookup_lt_is_Some_2 evs s L) as [ev Ee]. rewrite Ee. cbn [unwrap mbind outcome_bind]. eexists. split; [done|].
  intros t st R. destruct (outer_values_ok cols t R Oc) as [Eo Fv].
  destruct (run_evaluator_ok subs evs s _ B L Fv) as (ev' & Ee' & Er & Hr). rewrite Ee in Ee'. injection Ee' as <-.
  rewrite (run_pure_ok _ _ _ _ Eo). destruct (or_fault_ok (ev (map (value_at t) cols))
    (fun rows => Some (xorb (match rows with [] => false | _ => true end) negated)) None st) as (s' & E & Fa & Qs).
  { intros E. by rewrite E in Hr. }
  exists s'. rewrite E. split_and!; [|done|].
  - cbn [truth]. rewrite Er. destruct (ev _) as [[|? ?]|e|]; [by destruct negated..|done|done].
  - intros Qv. apply Qs. destruct (Qv ev (map (value_at t) cols)) as (rows & -> & _); [by apply list_elem_of_lookup_2 in Ee|done|done].
Qed.

Lemma trees_compile : (forall e, compiles_to e) /\ (forall p, pred_compiles_to p).
Proof.
  apply trees_induct.
  - intros v O. eexists. split; [done|]. intros t R. done.
  - intros i O. eexists. split; [done|]. intros t R. apply Nat.ltb_lt in O. destruct (value_at_ok t i R O) as [E S1]. by rewrite E.
  - done.
  - intros op l r Cl Cr O. apply andb_true_iff in O as [Ol Or]. destruct (Cl Ol) as (fl & El & Hl). destruct (Cr Or) as (fr & Er & Hr).
    cbn [compile]. rewrite El, Er. eexists. split; [done|]. intros t R. destruct (Hl t R) as [-> Sl]. destruct (Hr t R) as [-> Sr].
    cbn [mbind outcome_bind eval]. by destruct (binary_safe op _ _ Sl Sr) as (v & -> & Sv).
  - intros a Ca O. destruct (Ca O) as (f & Ef & Hf). cbn [compile]. rewrite Ef. eexists. split; [done|]. intros t R.
    destruct (Hf t R) as [-> Sf]. cbn [mbind outcome_bind eval]. by destruct (year_safe _ Sf) as (v & -> & Sv).
  - intros bs el F Cel O. rewrite case_open_iff in O. apply andb_true_iff in O as [Ob Oe].
    destruct (branches_compile bs F Ob) as (compiled & Ec & Hc). rewrite compile_case, Ec. cbn [mbind outcome_bind]. destruct el as [x|].
    + destruct (Cel x eq_refl Oe) as (f & -> & Hf). eexists. split; [done|]. intros t R. rewrite eval_case. apply Hc; [done|by apply Hf].
    + eexists. split; [done|]. intros t R. rewrite eval_case. by apply Hc.
  - done.
  - done.
  - done.
  - intros i start k Ci O. apply andb_true_iff in O as [Os Oi]. apply Nat.leb_le in Os. destruct (Ci Oi) as (f & Ef & Hf).
    cbn [compile]. rewrite Ef. eexists. split; [done|]. intros t R. destruct (Hf t R) as [-> Sf]. cbn [mbind outcome_bind eval].
    by destruct (substring_safe start k _ Os Sf) as (v & -> & Sv).
  - intros op l r Cl Cr. by apply compare_compiles.
  - intros a b Ca Cb subs evs B O. apply andb_true_iff in O as [Oa Ob]. destruct (Ca _ _ B Oa) as (fa & Ea & Sa).
    destruct (Cb _ _ B Ob) as (fb & Eb & Sb). cbn [compile_3vl]. rewrite Ea, Eb. eexists. split; [done|]. by apply kleene_and_settles.
  - intros a b Ca Cb subs evs B O. apply andb_true_iff in O as [Oa Ob]. destruct (Ca _ _ B Oa) as (fa & Ea & Sa).
    destruct (Cb _ _ B Ob) as (fb & Eb & Sb). cbn [compile_3vl]. rewrite Ea, Eb. eexists. split; [done|]. by apply kleene_or_settles.
  - intros p Cp subs evs B O. destruct (Cp _ _ B O) as (f & Ef & Sf). cbn [compile_3vl]. rewrite Ef. eexists. split; [done|].
    intros t s R. destruct (Sf t s R) as (s' & E & Fa & Q). exists s'. unfold mbind, M_bind, mret, M_ret. rewrite E. cbn [truth].
    by rewrite neg3_map.
  - intros e pat Ce subs evs B O. destruct (Ce O) as (f & Ef & Hf). cbn [compile_3vl]. rewrite Ef. eexists. split; [done|].
    apply settles_pure. intros t R. destruct (Hf t R) as [-> Sf]. cbn [mbind outcome_bind truth].
    by destruct (like_total pat (eval env e t)) as (b & ->).
  - intros e Ce subs evs B O. destruct (Ce O) as (f & Ef & Hf). cbn [compile_3vl]. rewrite Ef. eexists. split; [done|].
    apply settles_pure. intros t R. by destruct (Hf t R) as [-> Sf].
  - intros e s negated Ce. by apply in_compiles.
  - intros s cols negated. apply exists_compiles.
Qed.
End closures.

(** ** Static types *)

(** Every value is of its column's type. *)
Definition row_typed (tys : list ColumnType) (t : Tuple) : Prop := Forall2 (fun v ty => matches v ty = true) t tys.

Lemma null_matches ty : matches VNull ty = true.
Proof. done. Qed.

Lemma type_of_ok v ty : safe v -> type_of v = Some ty -> matches v ty = true /\ type_wf ty = true.
Proof.
  intros H%safe_wf. destruct v; cbn [type_of]; intros [= <-]; cbn [matches type_wf value_wf] in *; (split; [try done|try done]);
    unfold saturating_u16; try (pose proof (len_nonneg s); fits); try (pose proof (len_nonneg b); fits).
  - apply Z.eqb_refl.
  - unfold decimal_wf in H. rewrite !andb_true_iff in H. rewrite !andb_true_iff. tauto.
Qed.

Lemma decimal_type_sound op p s1 s2 :
  in_u8 p = true -> 0 <= s1 <= MAX_SCALE -> 0 <= s2 <= MAX_SCALE ->
  exists o, decimal_op_type op p s1 s2 = Ok o /\ forall ty, o = Some ty -> type_wf ty = true /\
    forall a b, decimal_wf a = true -> decimal_wf b = true -> scale a = s1 -> scale b = s2 ->
      matches (total VNull (apply_decimal_op op a b)) ty = true.
Proof.
  intros Hp H1 H2. unfold MAX_SCALE in *. unfold decimal_op_type.
  assert (W : forall s, 0 <= s <= 18 -> type_wf (TDecimal p s) = true).
  { intros s Hs. cbn [type_wf]. rewrite Hp. unfold MAX_SCALE. apply andb_true_iff. split; apply Z.leb_le; lia. }
  destruct op.
  - eexists. split; [done|]. intros ty. zcase; intros [= <-]. split; [apply W; lia|]. intros a b Ha Hb Ea Eb.
    destruct (decimal_arith_exact a b Ha Hb) as (A & _). unfold apply_decimal_op. destruct (add a b); try done. apply Z.eqb_eq. lia.
  - eexists. split; [done|]. intros ty. zcase; intros [= <-]. split; [apply W; lia|]. intros a b Ha Hb Ea Eb.
    destruct (decimal_arith_exact a b Ha Hb) as (_ & A & _). unfold apply_decimal_op. destruct (sub a b); try done. apply Z.eqb_eq. lia.
  - rewrite arith_bind by fits. eexists. split; [done|]. intros ty. unfold MAX_SCALE. zcase; intros [= <-]. split; [apply W; lia|].
    intros a b Ha Hb Ea Eb. destruct (decimal_arith_exact a b Ha Hb) as (_ & _ & A). unfold apply_decimal_op.
    destruct (mul a b); try done. apply Z.eqb_eq. lia.
  - eexists. split; [done|]. intros ty [= <-]. split; [apply W; lia|]. intros a b Ha Hb Ea Eb.
    pose proof (decimal_div_correct a b Ha Hb) as A. cbn zeta in A. unfold apply_decimal_op. destruct (div a b); try done. apply Z.eqb_eq. lia.
Qed.

Lemma or_null_matches wrap o ty : (forall z, matches (wrap z) ty = true) -> matches (or_null wrap o) ty = true.
Proof. intros H. destruct o; [apply H|done]. Qed.

(** The inferred type, if there is one, is that of the values the operator gives. *)
Definition op_typed (op : BinaryOp) (l r : ColumnType) (o : option ColumnType) : Prop :=
  forall ty, o = Some ty -> type_wf ty = true /\ forall x y, safe x -> safe y -> matches x l = true -> matches y r = true ->
    matches (total VNull (eval_binary_op op x y)) ty = true.

(** Operands of these types are NULL or a pair of decimals of these scales. *)
Definition decimal_pair (op : BinaryOp) (l r : ColumnType) (s1 s2 : Z) : Prop :=
  forall x y, safe x -> safe y -> matches x l = true -> matches y r = true ->
    eval_binary_op op x y = Ok VNull \/
    exists a b, decimal_wf a = true /\ decimal_wf b = true /\ scale a = s1 /\ scale b = s2 /\ eval_binary_op op x y = apply_decimal_op op a b.

Lemma decimal_op_typed op l r p s1 s2 :
  in_u8 p = true -> 0 <= s1 <= MAX_SCALE -> 0 <= s2 <= MAX_SCALE -> decimal_pair op l r s1 s2 ->
  exists o, decimal_op_type op p s1 s2 = Ok o /\ op_typed op l r o.
Proof.
  intros Hp H1 H2 H. destruct (decimal_type_sound op p s1 s2 Hp H1 H2) as (o & -> & Ho). exists o. split; [done|].
  intros ty Ety. destruct (Ho ty Ety) as [Wt M]. split; [done|]. intros x y Sx Sy Mx My.
  destruct (H x y Sx Sy Mx My) as [->|(a & b & Wa & Wb & Ea & Eb & ->)]; [done|by apply M].
Qed.

Lemma decimal_type_wf p s : type_wf (TDecimal p s) = true -> in_u8 p = true /\ 0 <= s <= MAX_SCALE.
Proof. cbn [type_wf]. rewrite !andb_true_iff, !Z.leb_le. tauto. Qed.

(** The well-formed values of a numeric type: NULL, or the decimal an operator
    takes it for. *)
Definition decimal_of (ty : ColumnType) (s : Z) : Prop :=
  forall x, safe x -> matches x ty = true -> x = VNull \/
    exists d, decimal_wf d = true /\ scale d = s /\
      ((exists n, (x = VInt32 n \/ x = VInt64 n) /\ from_i64_with_scale n 0 = Ok d) \/ x = VDecimal d).

Lemma int_decimal_of ty : ty = TInt32 \/ ty = TInt64 -> decimal_of ty 0.
Proof.
  intros Hty x Sx Mx. apply safe_wf in Sx. destruct Hty as [-> | ->]; destruct x; try done; try (by left); right; cbn [value_wf] in Sx;
    [apply in_i32_i64 in Sx|]; destruct (int_decimal_wf n Sx) as [E W]; exists (mkDecimal n 0); (split; [done|]); (split; [done|]);
    left; exists n; tauto.
Qed.

Lemma decimal_decimal_of p s : decimal_of (TDecimal p s) s.
Proof.
  intros x Sx Mx. apply safe_wf in Sx. destruct x; try done; [|by left]. right. cbn [matches] in Mx. apply Z.eqb_eq in Mx.
  exists d. split_and!; [done|done|by right].
Qed.

Lemma decimal_of_pair op l r s1 s2 :
  decimal_of l s1 -> decimal_of r s2 -> (forall x, matches x l = true -> exists d, x = VDecimal d \/ x = VNull) \/
    (forall x, matches x r = true -> exists d, x = VDecimal d \/ x = VNull) -> decimal_pair op l r s1 s2.
Proof.
  intros Dl Dr Hd x y Sx Sy Mx My.
  destruct (Dl x Sx Mx) as [->|(a & Wa & Ea & Ha)]; [left; by destruct y|].
  destruct (Dr y Sy My) as [->|(b & Wb & Eb & Hb)]; [left; by destruct x|].
  right. exists a, b. split_and!; [done..|].
  destruct Ha as [(n & [-> | ->] & Ha)| ->], Hb as [(k & [-> | ->] & Hb)| ->]; cbn [eval_binary_op]; rewrite ?Ha, ?Hb; try done;
    exfalso; destruct Hd as [Hd|Hd]; (destruct (Hd _ Mx) as (? & [?|?]) || destruct (Hd _ My) as (? & [?|?])); done.
Qed.

Lemma infer_sound op l r : type_wf l = true -> type_wf r = true -> exists o, infer_binary_op_type op l r = Ok o /\ op_typed op l r o.
Proof.
  intros Wl Wr. assert (Z0 : 0 <= 0 <= MAX_SCALE) by (unfold MAX_SCALE; lia).
  assert (Md : forall p s x, matches x (TDecimal p s) = true -> exists d, x = VDecimal d \/ x = VNull)
    by (intros p s x M; destruct x; try done; [by eexists; left|exists (mkDecimal 0 0); by right]).
  destruct l, r; cbn [infer_binary_op_type]; try (exists None; split; [done|by intros ty]).
  - exists (Some TInt32). split; [done|]. intros ty [= <-]. split; [done|]. intros x y _ _ Mx My. destruct x, y; try done.
    by apply or_null_matches.
  - destruct (decimal_type_wf _ _ Wr). apply decimal_op_typed; [done..|]. apply decimal_of_pair; [apply int_decimal_of; tauto|apply decimal_decimal_of|].
    right. apply Md.
  - exists (Some TInt64). split; [done|]. intros ty [= <-]. split; [done|]. intros x y _ _ Mx My. destruct x, y; try done.
    by apply or_null_matches.
  - destruct (decimal_type_wf _ _ Wr). apply decimal_op_typed; [done..|]. apply decimal_of_pair; [apply int_decimal_of; tauto|apply decimal_decimal_of|].
    right. apply Md.
  - destruct (decimal_type_wf _ _ Wl). apply decimal_op_typed; [done..|]. apply decimal_of_pair; [apply decimal_decimal_of|apply int_decimal_of; tauto|].
    left. apply Md.
  - destruct (decimal_type_wf _ _ Wl). apply decimal_op_typed; [done..|]. apply decimal_of_pair; [apply decimal_decimal_of|apply int_decimal_of; tauto|].
    left. apply Md.
  - destruct (decimal_type_wf _ _ Wl), (decimal_type_wf _ _ Wr). apply decimal_op_typed; [done..|].
    apply decimal_of_pair; [apply decimal_decimal_of|apply decimal_decimal_of|]. left. apply Md.
Qed.

(** The loop over the results of a CASE, by name. *)
Fixpoint case_types (tys : list ColumnType) (el : option Expression) (bs : list (Predicate * Expression)) (acc : option ColumnType) :
    result (option ColumnType) :=
  match bs with
  | [] =>
      match el with
      | None => Ok acc
      | Some x =>
          if is_null_literal x then Ok acc else
          ty ← column_type x tys;
          Ok (match join_type acc ty with Some acc' => acc' | None => None end)
      end
  | (_, res) :: rest =>
      if is_null_literal res then case_types tys el rest acc else
      ty ← column_type res tys;
      match join_type acc ty with Some acc' => case_types tys el rest acc' | None => Ok None end
  end.

Lemma column_type_case tys bs el : column_type (Case bs el) tys = case_types tys el bs None.
Proof.
  cbn [column_type]. match goal with |- ?go bs None = _ => enough (H : forall acc, go bs acc = case_types tys el bs acc) by apply H end.
  induction bs as [|[p x] bs IH]; intros acc; [done|]. cbn [case_types]. cbn beta iota.
  destruct (is_null_literal x); [apply IH|]. destruct (column_type x tys) as [ty|e|]; [|done|done]. cbn [mbind outcome_bind].
  by destruct (join_type acc ty).
Qed.

Lemma null_literal_eval env e t : is_null_literal e = true -> eval env e t = VNull.
Proof. destruct e as [[]| | | | | | | | |]; done. Qed.

(** A joined type holds the values of both. *)
Lemma join_type_ok acc ty r :
  join_type acc (Some ty) = Some r -> (forall a, acc = Some a -> type_wf a = true) -> type_wf ty = true ->
  exists u, r = Some u /\ type_wf u = true /\ (forall v, matches v ty = true -> matches v u = true) /\
    forall a v, acc = Some a -> matches v a = true -> matches v u = true.
Proof.
  cbn [join_type]. destruct acc as [a|]; [|by intros [= <-] _ W; exists ty]. intros H Wa W. specialize (Wa a eq_refl).
  destruct (unify_case_type a ty) as [u|] eqn:U; [|done]. injection H as <-. exists u. split; [done|]. unfold unify_case_type in U.
  assert (Same : a = ty -> u = a -> type_wf u = true /\ (forall v, matches v ty = true -> matches v u = true) /\
    forall a0 v, Some a = Some a0 -> matches v a0 = true -> matches v u = true).
  { intros -> ->. split_and!; [done|done|]. by intros a0 v [= <-]. }
  destruct a, ty; try (case_bool_decide as E; [|done]; injection U as <-; by apply Same).
  destruct (Z.eqb_spec scale scale0) as [<-|]; [|done]. injection U as <-. apply decimal_type_wf in Wa as [Pa Sa]. apply decimal_type_wf in W as [Pw _].
  split_and!.
  - cbn [type_wf]. rewrite !andb_true_iff, !Z.leb_le. split_and!; [|lia..]. unfold in_u8 in *. zbool. apply andb_true_iff. split; [apply Z.leb_le|apply Z.ltb_lt]; lia.
  - intros v. by destruct v.
  - intros a0 v [= <-]. by destruct v.
Qed.

Section types.
Context (tys : list ColumnType) (Wt : Forall (fun ty => type_wf ty = true) tys).

(** Inference ends, with a type only if every value is of it. *)
Definition typed (e : Expression) : Prop :=
  expr_ok (length tys) e = true -> exists o, column_type e tys = Ok o /\ forall ty, o = Some ty -> type_wf ty = true /\
    forall env t, row_ok (length tys) t -> row_typed tys t -> matches (eval env e t) ty = true.

Lemma case_typed el : (forall x, el = Some x -> typed x) -> match el with Some x => expr_ok (length tys) x | None => true end = true ->
  forall bs acc, Forall (fun b => typed b.2) bs -> branches_open closed (length tys) bs = true -> (forall a, acc = Some a -> type_wf a = true) ->
  exists o, case_types tys el bs acc = Ok o /\ forall ty, o = Some ty -> type_wf ty = true /\
    (forall a v, acc = Some a -> matches v a = true -> matches v ty = true) /\
    forall env t, row_ok (length tys) t -> row_typed tys t -> matches (eval_branches env bs el t) ty = true.
Proof.
  intros Tel Oel. induction bs as [|[p x] bs IH]; intros acc F O Wa; cbn [case_types eval_branches].
  - destruct el as [x|]; [|exists acc; split; [done|]; intros ty E; split_and!; [by apply Wa|congruence|done]].
    destruct (is_null_literal x) eqn:N.
    { exists acc. split; [done|]. intros ty E. split_and!; [by apply Wa|congruence|]. intros env t _ _. by rewrite null_literal_eval. }
    destruct (Tel x eq_refl Oel) as (o & -> & Ho). cbn [mbind outcome_bind]. eexists. split; [done|]. intros ty E.
    destruct o as [ty0|]; [|done]. destruct (Ho ty0 eq_refl) as [W0 M0]. destruct (join_type acc (Some ty0)) as [r|] eqn:J; [|done].
    destruct (join_type_ok acc ty0 r J Wa W0) as (u & -> & Wu & M1 & M2). injection E as <-. split_and!; [done|done|].
    intros env t R T. by apply M1, M0.
  - inversion F as [|? ? Tx F']; subst. cbn [snd] in Tx. cbn [branches_open] in O. apply andb_true_iff in O as [O Ob]. apply andb_true_iff in O as [_ Ox].
    destruct (is_null_literal x) eqn:N.
    { destruct (IH acc F' Ob Wa) as (o & Eo & Ho). exists o. split; [done|]. intros ty E. destruct (Ho ty E) as (W & M1 & M2).
      split_and!; [done|done|]. intros env t R T. case_bool_decide; [by rewrite null_literal_eval|by apply M2]. }
    destruct (Tx Ox) as (o & -> & Ho). cbn [mbind outcome_bind]. destruct o as [ty0|]; [|by exists None].
    destruct (Ho ty0 eq_refl) as [W0 M0]. destruct (join_type acc (Some ty0)) as [r|] eqn:J; [|by exists None].
    destruct (join_type_ok acc ty0 r J Wa W0) as (u & -> & Wu & M1 & M2).
    destruct (IH (Some u) F' Ob) as (o & Eo & Ho'); [by intros a [= <-]|]. exists o. split; [done|]. intros ty E.
    destruct (Ho' ty E) as (W & M3 & M4). split_and!; [done| |].
    + intros a v Ea Ma. by apply (M3 u), (M2 a).
    + intros env t R T. case_bool_decide; [by apply (M3 u), M1, M0|by apply M4].
Qed.

Lemma exprs_typed : forall e, typed e.
Proof.
  refine (proj1 (trees_induct typed (fun _ => True) _ _ _ _ _ _ _ _ _ _ _ _ _ _ _ _ _ _)); try done.
  - intros v O. exists (type_of v). split; [done|]. intros ty E. destruct (type_of_ok v ty O E) as [M W]. done.
  - intros i O. apply Nat.ltb_lt in O. exists (tys !! i). split; [done|]. intros ty E. split.
    { rewrite Forall_lookup in Wt. by apply (Wt i). }
    intros env t R T. cbn [eval]. destruct (value_at_ok _ t i R O) as [Ev _]. by apply (Forall2_lookup_lr _ _ _ i _ _ T).
  - intros op l r Tl Tr O. apply andb_true_iff in O as [Ol Or]. destruct (Tl Ol) as (ol & El & Hl). destruct (Tr Or) as (or & Er & Hr).
    cbn [column_type]. rewrite El. cbn [mbind outcome_bind]. destruct ol as [tl|]; [|by exists None]. rewrite Er. cbn [mbind outcome_bind].
    destruct or as [tr|]; [|by exists None]. destruct (Hl tl eq_refl) as [Wl Ml]. destruct (Hr tr eq_refl) as [Wr Mr].
    destruct (infer_sound op tl tr Wl Wr) as (o & -> & Ho). exists o. split; [done|]. intros ty E. destruct (Ho ty E) as [W M].
    split; [done|]. intros env t R T. cbn [eval].
    destruct (proj1 (trees_compile env (length tys)) l Ol) as (fl & _ & Cl). destruct (proj1 (trees_compile env (length tys)) r Or) as (fr & _ & Cr).
    apply M; [by apply Cl|by apply Cr|by apply Ml|by apply Mr].
  - intros a Ta O. destruct (Ta O) as (o & Eo & Ho). cbn [column_type]. rewrite Eo. eexists. split; [done|]. intros ty E.
    destruct o as [[]|]; try done. injection E as <-. split; [done|]. intros env t R T. cbn [eval]. destruct (Ho TDate eq_refl) as [_ M].
    specialize (M env t R T). destruct (eval env a t); try done. cbn [year_of]. by destruct (ymd_from_days days).
  - intros bs el F Tel O. rewrite case_open_iff in O. apply andb_true_iff in O as [Ob Oe]. rewrite column_type_case.
    destruct (case_typed el Tel Oe bs None) as (o & Eo & Ho); [|done|done|].
    { eapply Forall_impl; [exact F|]. by intros b [_ ?]. }
    exists o. split; [done|]. intros ty E. destruct (Ho ty E) as (W & _ & M). split; [done|]. intros env t R T. rewrite eval_case. by apply M.
  - intros i start k Ti O. apply andb_true_iff in O as [_ Oi]. destruct (Ti Oi) as (o & Eo & Ho). cbn [column_type]. rewrite Eo.
    eexists. split; [done|]. intros ty E. assert (W : type_wf (TVarchar (Z.min (Z.of_nat k) (2 ^ 16 - 1))) = true) by (cbn [type_wf]; fits).
    cbn [eval]. destruct o as [[]|]; try done; injection E as <-; (split; [done|]); intros env t R T;
      destruct (Ho _ eq_refl) as [_ M]; specialize (M env t R T); destruct (eval env i t); try done; cbn [substring_of];
      by destruct (substring_chars s start k).
Qed.
End types.

(** ** Substitution *)

Fixpoint map_branches (leaf : Expression -> result Expression) (bs : list (Predicate * Expression)) : result (list (Predicate * Expression)) :=
  match bs with
  | [] => Ok []
  | (pred, res) :: rest => p ← map_leaves_pred leaf pred; r ← map_leaves leaf res; others ← map_branches leaf rest; Ok ((p, r) :: others)
  end.

Lemma map_leaves_case leaf bs el :
  map_leaves leaf (Case bs el) =
  (bs' ← map_branches leaf bs;
   el' ← match el with Some x => x' ← map_leaves leaf x; Ok (Some x') | None => Ok None end;
   Ok (Case bs' el')).
Proof.
  cbn [map_leaves]. match goal with |- (?go bs ≫= _) = _ => enough (H : go bs = map_branches leaf bs) by (by rewrite H) end.
  induction bs as [|[p x] bs IH]; [done|]. cbn [map_branches]. by rewrite <- IH.
Qed.

Section substitution.
Context (env : Env) (n : nat) (k k' : Slots) (leaf : Expression -> result Expression).

Definition is_leaf (e : Expression) : bool :=
  match e with Literal _ | Column _ | Param _ | SubqueryResult _ | OuterRef _ => true | _ => false end.

(** The leaves keep their meaning; a correlated scalar stays. *)
Context (Hleaf : forall e, is_leaf e = true -> expr_open k n e = true ->
  exists e', leaf e = Ok e' /\ expr_open k' n e' = true /\ forall t, eval env e' t = eval env e t).
Context (Hcor : forall s cols, leaf (CorrelatedScalar s cols) = Ok (CorrelatedScalar s cols)).

Definition bindable (e : Expression) : Prop := expr_open k n e = true ->
  exists e', map_leaves leaf e = Ok e' /\ expr_open k' n e' = true /\ forall t, eval env e' t = eval env e t.
Definition pred_bindable (p : Predicate) : Prop := forall nsub ncorr, pred_open k nsub ncorr n p = true ->
  exists p', map_leaves_pred leaf p = Ok p' /\ pred_open k' nsub ncorr n p' = true /\ forall t, truth env p' t = truth env p t.

Definition operand_open (k : Slots) (ncorr : nat) (e : Expression) : bool :=
  match e with CorrelatedScalar s cols => (s <? ncorr)%nat && cols_ok n cols | _ => expr_open k n e end.

Lemma open_operand k0 ncorr e : expr_open k0 n e = true -> operand_open k0 ncorr e = true.
Proof. by destruct e. Qed.

Lemma operand_bindable e ncorr : bindable e -> operand_open k ncorr e = true ->
  exists e', map_leaves leaf e = Ok e' /\ operand_open k' ncorr e' = true /\ forall t, eval env e' t = eval env e t.
Proof.
  intros Be O. assert (B : expr_open k n e = true ->
    exists e', map_leaves leaf e = Ok e' /\ operand_open k' ncorr e' = true /\ forall t, eval env e' t = eval env e t).
  { intros Oe. destruct (Be Oe) as (e' & -> & O' & E). exists e'. split_and!; [done|by apply open_operand|done]. }
  destruct e; try (by apply B). cbn [map_leaves]. rewrite Hcor. by eexists.
Qed.

Lemma option_bindable x : (forall y, x = Some y -> bindable y) -> match x with Some y => expr_open k n y | None => true end = true ->
  exists x', match x with Some y => y' ← map_leaves leaf y; Ok (Some y') | None => Ok None end = Ok x' /\
    match x' with Some y => expr_open k' n y | None => true end = true /\
    match x, x' with Some y, Some y' => forall t, eval env y' t = eval env y t | None, None => True | _, _ => False end.
Proof.
  destruct x as [y|]; intros B O; [|by exists None]. destruct (B y eq_refl O) as (y' & -> & O' & E). by exists (Some y').
Qed.

Lemma branches_bindable bs : Forall (fun b => pred_bindable b.1 /\ bindable b.2) bs -> branches_open k n bs = true ->
  exists bs', map_branches leaf bs = Ok bs' /\ branches_open k' n bs' = true /\
    forall el el' t, match el with Some x => eval env x t | None => VNull end = match el' with Some x => eval env x t | None => VNull end ->
      eval_branches env bs' el' t = eval_branches env bs el t.
Proof.
  induction 1 as [|[p x] bs [Bp Bx] F IH]; intros O; cbn [branches_open] in O; cbn [fst snd] in *.
  { exists []. by split_and!. }
  apply andb_true_iff in O as [O Ob]. apply andb_true_iff in O as [Op Ox].
  destruct (Bp 0%nat 0%nat Op) as (p' & Ep & Op' & Tp). destruct (Bx Ox) as (x' & Ex & Ox' & Vx). destruct (IH Ob) as (bs' & Ebs & Obs & Vbs).
  exists ((p', x') :: bs'). cbn [map_branches]. rewrite Ep, Ex, Ebs. split; [done|]. split.
  { cbn [branches_open]. by rewrite Op', Ox', Obs. }
  intros el el' t E. cbn [eval_branches]. rewrite Tp, Vx. case_bool_decide; [done|by apply Vbs].
Qed.

Lemma trees_bindable : (forall e, bindable e) /\ (forall p, pred_bindable p).
Proof.
  apply trees_induct.
  - intros v O. by apply (Hleaf (Literal v)).
  - intros i O. by apply (Hleaf (Column i)).
  - intros i O. by apply (Hleaf (Param i)).
  - intros op l r Bl Br O. apply andb_true_iff in O as [Ol Or]. destruct (Bl Ol) as (l' & El & Ol' & Vl). destruct (Br Or) as (r' & Er & Or' & Vr).
    cbn [map_leaves]. rewrite El, Er. eexists. split; [done|]. cbn [expr_open eval]. rewrite Ol', Or'. split; [done|]. intros t. by rewrite Vl, Vr.
  - intros a Ba O. destruct (Ba O) as (a' & Ea & Oa & Va). cbn [map_leaves]. rewrite Ea. eexists. split; [done|]. split; [done|].
    intros t. cbn [eval]. by rewrite Va.
  - intros bs el F Bel O. rewrite case_open_iff in O. apply andb_true_iff in O as [Ob Oe].
    destruct (branches_bindable bs F Ob) as (bs' & Eb & Ob' & Vb). destruct (option_bindable el Bel Oe) as (el' & Ee & Oe' & Ve).
    rewrite map_leaves_case, Eb, Ee. eexists. split; [done|]. rewrite case_open_iff, Ob'. split; [done|]. intros t. rewrite !eval_case. apply Vb.
    destruct el, el'; [by rewrite Ve|done|done|done].
  - intros i O. by apply (Hleaf (SubqueryResult i)).
  - intros i O. by apply (Hleaf (OuterRef i)).
  - done.
  - intros i start m Bi O. apply andb_true_iff in O as [Os Oi]. destruct (Bi Oi) as (i' & Ei & Oi' & Vi). cbn [map_leaves]. rewrite Ei.
    eexists. split; [done|]. cbn [expr_open eval]. rewrite Os. split; [done|]. intros t. by rewrite Vi.
  - intros op l r Bl Br nsub ncorr O. apply andb_true_iff in O as [Ol Or].
    destruct (operand_bindable l ncorr Bl Ol) as (l' & El & Ol' & Vl). destruct (operand_bindable r ncorr Br Or) as (r' & Er & Or' & Vr).
    cbn [map_leaves_pred]. rewrite El, Er. eexists. split; [done|]. split; [by apply andb_true_iff|]. intros t. cbn [truth]. by rewrite Vl, Vr.
  - intros a b Ba Bb nsub ncorr O. apply andb_true_iff in O as [Oa Ob]. destruct (Ba _ _ Oa) as (a' & Ea & Oa' & Ta).
    destruct (Bb _ _ Ob) as (b' & Eb & Ob' & Tb). cbn [map_leaves_pred]. rewrite Ea, Eb. eexists. split; [done|].
    split; [by apply andb_true_iff|]. intros t. cbn [truth]. by rewrite Ta, Tb.
  - intros a b Ba Bb nsub ncorr O. apply andb_true_iff in O as [Oa Ob]. destruct (Ba _ _ Oa) as (a' & Ea & Oa' & Ta).
    destruct (Bb _ _ Ob) as (b' & Eb & Ob' & Tb). cbn [map_leaves_pred]. rewrite Ea, Eb. eexists. split; [done|].
    split; [by apply andb_true_iff|]. intros t. cbn [truth]. by rewrite Ta, Tb.
  - intros p Bp nsub ncorr O. destruct (Bp _ _ O) as (p' & Ep & Op & Tp). cbn [map_leaves_pred]. rewrite Ep. eexists. split; [done|].
    split; [done|]. intros t. cbn [truth]. by rewrite Tp.
  - intros e pat Be nsub ncorr O. destruct (Be O) as (e' & Ee & Oe & Ve). cbn [map_leaves_pred]. rewrite Ee. eexists. split; [done|].
    split; [done|]. intros t. cbn [truth]. by rewrite Ve.
  - intros e Be nsub ncorr O. destruct (Be O) as (e' & Ee & Oe & Ve). cbn [map_leaves_pred]. rewrite Ee. eexists. split; [done|].
    split; [done|]. intros t. cbn [truth]. by rewrite Ve.
  - intros e s negated Be nsub ncorr O. apply andb_true_iff in O as [Os Oe]. destruct (option_bindable e Be Oe) as (e' & Ee & Oe' & Ve).
    cbn [map_leaves_pred]. rewrite Ee. eexists. split; [done|]. split; [by apply andb_true_iff|]. intros t. cbn [truth].
    destruct e, e'; [by rewrite Ve|done|done|done].
  - intros s cols negated nsub ncorr O. by eexists.
Qed.
End substitution.

Lemma bound_ok vs i e : (i < length vs)%nat -> Forall (fun v => safe v) vs -> exists v, bound vs i e = Ok (Literal v) /\ value_at vs i = v /\ safe v.
Proof.
  intros L F. destruct (lookup_lt_is_Some_2 vs i L) as [v E]. exists v. unfold bound. rewrite E. split_and!; [done| |].
  - unfold value_at. by apply nth_lookup_Some.
  - rewrite Forall_lookup in F. by apply (F i).
Qed.

(** The three passes, one after the other, leave a closed tree of the same
    meaning. *)
Lemma passes_bind env n :
  Forall (fun v => safe v) (params env) -> Forall (fun v => safe v) (results env) -> Forall (fun v => safe v) (outers env) ->
  let k := mkSlots (length (params env)) (length (results env)) (length (outers env)) in
  (forall e, expr_open k n e = true -> exists e1 e2 e3, substitute_params (params env) e = Ok e1 /\
     substitute_subquery_results (results env) e1 = Ok e2 /\ substitute_outer_refs (outers env) e2 = Ok e3 /\
     expr_ok n e3 = true /\ forall t, eval env e3 t = eval env e t) /\
  (forall p nsub ncorr, pred_open k nsub ncorr n p = true -> exists p1 p2 p3, pred_substitute_params (params env) p = Ok p1 /\
     pred_substitute_subquery_results (results env) p1 = Ok p2 /\ pred_substitute_outer_refs (outers env) p2 = Ok p3 /\
     pred_ok nsub ncorr n p3 = true /\ forall t, truth env p3 t = truth env p t).
Proof.
  intros Sp Sr So k. set (k1 := mkSlots 0 (length (results env)) (length (outers env))). set (k2 := mkSlots 0 0 (length (outers env))).
  destruct (trees_bindable env n k k1 (param_leaf (params env))) as [E1 P1]; [|done|].
  { intros e L O. destruct e; try done; try (by eexists). cbn [param_leaf expr_open] in *. apply Nat.ltb_lt in O.
    destruct (bound_ok _ _ (SqlParse "prepared statement: parameter not bound") O Sp) as (v & -> & Ev & Sv). by eexists. }
  destruct (trees_bindable env n k1 k2 (result_leaf (results env))) as [E2 P2]; [|done|].
  { intros e L O. destruct e; try done; try (by eexists). cbn [result_leaf expr_open] in *. apply Nat.ltb_lt in O.
    destruct (bound_ok _ _ (Internal "scalar-subquery slot has no resolved value") O Sr) as (v & -> & Ev & Sv). by eexists. }
  destruct (trees_bindable env n k2 closed (outer_leaf (outers env))) as [E3 P3]; [|done|].
  { intros e L O. destruct e; try done; try (by eexists). cbn [outer_leaf expr_open] in *. apply Nat.ltb_lt in O.
    destruct (bound_ok _ _ (Internal "OuterRef slot has no value") O So) as (v & -> & Ev & Sv). by eexists. }
  split.
  - intros e O. destruct (E1 e O) as (e1 & H1 & O1 & V1). destruct (E2 e1 O1) as (e2 & H2 & O2 & V2). destruct (E3 e2 O2) as (e3 & H3 & O3 & V3).
    exists e1, e2, e3. split_and!; [done..|]. intros t. by rewrite V3, V2, V1.
  - intros p nsub ncorr O. destruct (P1 p _ _ O) as (p1 & H1 & O1 & T1). destruct (P2 p1 _ _ O1) as (p2 & H2 & O2 & T2).
    destruct (P3 p2 _ _ O2) as (p3 & H3 & O3 & T3). exists p1, p2, p3. split_and!; [done..|]. intros t. by rewrite T3, T2, T1.
Qed.

(** Negation turns a disjunction of equalities into a conjunction of inequalities. *)
Lemma neg3_disj3 a b : neg3 (disj3 a b) = conj3 (neg3 a) (neg3 b).
Proof. by destruct a as [[]|], b as [[]|]. Qed.

Lemma equal3_compare x v : safe x -> safe v -> (x <> VNull -> v <> VNull -> compare_sql x v <> Ok None) ->
  equal3 x v = total None (eval_compare CmpEq x v) /\ neg3 (equal3 x v) = total None (eval_compare CmpNeq x v).
Proof.
  intros Sx Sv C. unfold equal3, eval_compare. rewrite compare_sql_denote in * by (by apply safe_wf). cbn [mbind outcome_bind total].
  destruct (is_null x) eqn:Nx; [apply is_null_iff in Nx as ->; by destruct (denote v)|].
  destruct (is_null v) eqn:Nv; [apply is_null_iff in Nv as ->; by destruct (denote x)|]. cbn [orb].
  destruct (key_cmp (denote x) (denote v)) as [[]|] eqn:K; [done..|]. exfalso. apply C; [by apply not_null|by apply not_null|done].
Qed.

Definition env0 : Env := mkEnv [] [] [] [[[VInt32 5]; [VNull]]] [fun _ => Ok [[VInt32 1]]].
Definition set0 : InSubquerySet := mkInSet [VInt64 5] true true.

Lemma bound0 : bound_to env0 [set0] (evaluators env0).
Proof.
  split.
  - intros [|i] s E; [|done]. injection E as <-. exists [[VInt32 5]; [VNull]]. split_and!; [done|done|]. by repeat constructor.
  - intros [|i] ev E; [|done]. injection E as <-. split; [done|]. intros vs _. by repeat constructor.
Qed.

(** ** Theorems *)

(** C25. Expressions are type safe: a closed expression over columns of known types
    compiles, and on every row of values of those types its closure returns,
    without a panic, a well-formed value; when a type is inferred for the
    expression the value is of that type. *)
Theorem expr_type_safety tys e :
  Forall (fun ty => type_wf ty = true) tys -> expr_ok (length tys) e = true ->
  exists f o, compile e = Ok f /\ column_type e tys = Ok o /\
    forall t, row_ok (length tys) t -> row_typed tys t ->
      exists v, f t = Ok v /\ value_safe v = true /\ forall ty, o = Some ty -> matches v ty = true.
Proof.
  intros W O. destruct (proj1 (trees_compile env0 (length tys)) e O) as (f & Ef & C). destruct (exprs_typed tys W e O) as (o & Eo & T).
  exists f, o. split_and!; [done|done|]. intros t R Rt. destruct (C t R) as [E Sf]. exists (eval env0 e t). split_and!; [done|done|].
  intros ty Ety. destruct (T ty Ety) as [_ M]. by apply M.
Qed.

Lemma expr_type_safety_witness :
  exists f o, compile (Binary OpMul (Column 0) (Column 1)) = Ok f /\
    column_type (Binary OpMul (Column 0) (Column 1)) [TInt32; TDecimal 12 2] = Ok o /\
    forall t, row_ok 2 t -> row_typed [TInt32; TDecimal 12 2] t ->
      exists v, f t = Ok v /\ value_safe v = true /\ forall ty, o = Some ty -> matches v ty = true.
Proof. apply (expr_type_safety [TInt32; TDecimal 12 2]); [repeat constructor|reflexivity]. Defined.

(** C26. A compiled WHERE clause keeps exactly the rows on which its predicate is
    true in Kleene's logic: AND is the minimum, OR the maximum and NOT the
    complement in the order false, unknown, true; IN is the disjunction of the
    equalities with the rows of the subquery and EXISTS asks for a row.  The
    closure never panics, and it touches the fault cell only to record an error
    of a correlated subquery: when none fails the cell is unchanged. *)
Theorem predicate_is_kleene env n subs p :
  bound_to env subs (evaluators env) -> pred_ok (length subs) (length (evaluators env)) n p = true ->
  exists f, compile_correlated p subs (evaluators env) = Ok f /\
    forall t s, row_ok n t -> exists s', f t s = (Ok (bool_decide (truth env p t = Some true)), s') /\
      fault_after s s' /\ (quiet_evs (evaluators env) -> s' = s).
Proof.
  intros B O. destruct (proj2 (trees_compile env n) p subs _ B O) as (f & Ef & St). unfold compile_correlated. rewrite Ef.
  eexists. split; [done|]. intros t s R. destruct (St t s R) as (s' & E & H). exists s'. split; [|done].
  unfold mbind, M_bind. by rewrite E.
Qed.

Lemma predicate_is_kleene_witness :
  exists f, compile_correlated (Not (And (InSubquery (Some (Column 0)) 0 true) (Compare CmpLt (CorrelatedScalar 0 [0%nat]) (Column 0)))) [set0] (evaluators env0) = Ok f /\
    forall t s, row_ok 1 t -> exists s', f t s =
        (Ok (bool_decide (truth env0 (Not (And (InSubquery (Some (Column 0)) 0 true) (Compare CmpLt (CorrelatedScalar 0 [0%nat]) (Column 0)))) t = Some true)), s') /\
      fault_after s s' /\ (quiet_evs (evaluators env0) -> s' = s).
Proof. apply (predicate_is_kleene env0 1 [set0]); [apply bound0|reflexivity]. Defined.

(** IN over a subquery is the SQL definition: the set made from the rows
    answers with the disjunction of the comparisons [probe = v] over the rows, and
    NOT IN with the conjunction of the comparisons [probe <> v], in three-valued
    logic and with NULLs among the rows and in the probe, whenever the types
    compare. *)
Theorem in_is_any_equal probe rows s :
  value_safe probe = true -> Forall (Forall (fun v => value_safe v = true)) rows -> materialize_in_set rows = Ok s ->
  (forall v, v ∈ map first_value rows -> probe <> VNull -> v <> VNull -> compare_sql probe v <> Ok None) ->
  eval_in probe s false = Ok (fold_right (fun v => disj3 (total None (eval_compare CmpEq probe v))) (Some false) (map first_value rows)) /\
  eval_in probe s true = Ok (fold_right (fun v => conj3 (total None (eval_compare CmpNeq probe v))) (Some true) (map first_value rows)).
Proof.
  intros Sp F M C. unfold eval_in. rewrite (in_set_any probe rows s Sp F M). cbn [mbind outcome_bind]. rewrite <- neg3_map.
  assert (S1 : forall v, v ∈ map first_value rows -> safe v) by (intros v; by apply first_safe).
  clear M F. induction (map first_value rows) as [|v vs IH]; [done|]. cbn [any_equal fold_right].
  change (fold_right _ (Some false) vs) with (any_equal probe vs) at 1 3. rewrite neg3_disj3.
  destruct (equal3_compare probe v) as [-> ->]; [done|apply S1; by left|apply C; by left|].
  destruct IH as [I1 I2]; [intros w Hw; apply C; by right|intros w Hw; apply S1; by right|]. injection I1 as <-. injection I2 as <-. done.
Qed.

Lemma in_is_any_equal_witness :
  eval_in (VDecimal (mkDecimal 500 2)) set0 false = Ok (fold_right (fun v => disj3 (total None (eval_compare CmpEq (VDecimal (mkDecimal 500 2)) v))) (Some false) [VInt32 5; VNull]) /\
  eval_in (VDecimal (mkDecimal 500 2)) set0 true = Ok (fold_right (fun v => conj3 (total None (eval_compare CmpNeq (VDecimal (mkDecimal 500 2)) v))) (Some true) [VInt32 5; VNull]).
Proof.
  apply (in_is_any_equal (VDecimal (mkDecimal 500 2)) [[VInt32 5]; [VNull]]); [reflexivity|repeat constructor|reflexivity|].
  intros v H _ N. apply elem_of_cons in H as [->|H]; [discriminate|]. apply elem_of_cons in H as [->|H]; [by destruct N|by apply not_elem_of_nil in H].
Defined.

(** C27. Substitution is binding: when every placeholder has a value, the three
    passes (parameters, results of scalar subqueries, columns of the outer row)
    succeed in the order the session runs them, the predicate they leave
    compiles, and its closure gives on every row what the predicate means with
    its placeholders bound to those values. *)
Theorem substitution_is_binding env n subs p :
  Forall (fun v => value_safe v = true) (params env) -> Forall (fun v => value_safe v = true) (results env) ->
  Forall (fun v => value_safe v = true) (outers env) -> bound_to env subs (evaluators env) ->
  pred_open (mkSlots (length (params env)) (length (results env)) (length (outers env))) (length subs) (length (evaluators env)) n p = true ->
  exists p1 p2 p3 f, pred_substitute_params (params env) p = Ok p1 /\ pred_substitute_subquery_results (results env) p1 = Ok p2 /\
    pred_substitute_outer_refs (outers env) p2 = Ok p3 /\ compile_3vl p3 subs (evaluators env) = Ok f /\
    forall t s, row_ok n t -> (f t s).1 = Ok (truth env p t).
Proof.
  intros Sp Sr So B O. destruct (proj2 (passes_bind env n Sp Sr So) p _ _ O) as (p1 & p2 & p3 & H1 & H2 & H3 & O3 & T).
  destruct (proj2 (trees_compile env n) p3 subs _ B O3) as (f & Ef & St). exists p1, p2, p3, f. split_and!; [done..|].
  intros t s R. destruct (St t s R) as (s' & E & _). by rewrite E, T.
Qed.

Lemma substitution_is_binding_witness :
  exists p1 p2 p3 f, pred_substitute_params [VInt32 7] (Compare CmpEq (Column 0) (Param 0)) = Ok p1 /\ pred_substitute_subquery_results [] p1 = Ok p2 /\
    pred_substitute_outer_refs [] p2 = Ok p3 /\ compile_3vl p3 [] [] = Ok f /\
    forall t s, row_ok 1 t -> (f t s).1 = Ok (truth (mkEnv [VInt32 7] [] [] [] []) (Compare CmpEq (Column 0) (Param 0)) t).
Proof. apply (substitution_is_binding (mkEnv [VInt32 7] [] [] [] []) 1 []); [repeat constructor..|by split|reflexivity]. Defined.
