(* ===== verification/Table.v ===== *)
(** Schemas and constraints (crates/idb-sql/src/catalog/schema.rs and
    constraints.rs), the row layout (layout/row.rs), typed tables with their
    secondary indexes (table/mod.rs) and the index scan over them
    (execution/operators/index_scan.rs).

    A table and its indexes are proved against the [StorageEngine] interface.
    A call runs on the table and leaves one behind, also when it fails. *)

From Stdlib Require Import ZArith Lia List Bool.
From coqutil Require Import Byte Word.LittleEndianList.
From S2P Require Import Prelude Common Decimal Value KeyEnc Tuple Engine.
From stdpp Require Import base list strings sorting.
#[local] Open Scope Z_scope.

(** ** Schemas *)

Record ColumnDef := mkCol { col_name : string; ty : ColumnType; nullable : bool; col_default : option Value }.

Record Schema := mkSchema {
  schema_name : string;
  table_id : Z;
  columns : list ColumnDef;
  primary_key : list nat
}.

Inductive IndexBackend := BTree | Lsm.

Record IndexDef := mkIndexDef {
  index_name : string;
  index_table_id : Z;
  index_columns : list nat;
  unique : bool;
  backend : IndexBackend
}.

(** [v[i]] of a vector. *)
Definition at_index {A} (l : list A) (i : nat) : result A := unwrap (l !! i).

Definition pk_types (s : Schema) : result (list ColumnType) :=
  mapM (fun i => c ← at_index (columns s) i; Ok (ty c)) (primary_key s).

Definition column_types (s : Schema) : list ColumnType := map ty (columns s).

(** ** Constraints *)

Definition check_arity (s : Schema) (values : list Value) : result unit :=
  if negb (len values =? len (columns s))
  then Err (ConstraintViolation ("<row of " +:+ (schema_name s +:+ ">")) (Arity (len (columns s)) (len values)))
  else Ok tt.

Fixpoint check_nullability_loop (pairs : list (ColumnDef * Value)) : result unit :=
  match pairs with
  | [] => Ok tt
  | (col, val) :: rest =>
      if is_null val && negb (nullable col) && match col_default col with None => true | Some _ => false end
      then Err (ConstraintViolation (col_name col) NotNull)
      else check_nullability_loop rest
  end.

Definition check_nullability (s : Schema) (values : list Value) : result unit :=
  check_nullability_loop (zip (columns s) values).

Definition check_type_compat_one (s : Schema) (col_idx : nat) (val : Value) : result unit :=
  col ← at_index (columns s) col_idx;
  if negb (matches val (ty col))
  then Err (ConstraintViolation (col_name col) (TypeMismatch (ty col) (type_of val)))
  else Ok tt.

Definition check_value_bounds_one (s : Schema) (col_idx : nat) (val : Value) : result unit :=
  col ← at_index (columns s) col_idx;
  let violated rule := Err (ConstraintViolation (col_name col) rule) in
  match ty col, val with
  | TVarchar max, VVarchar b => if max <? len b then violated (VarcharTooLong max) else Ok tt
  | TChar max, VChar b => if max <? len b then violated (CharTooLong max) else Ok tt
  | TBytes max, VBytes b => if max <? len b then violated (BytesTooLong max) else Ok tt
  | TDecimal precision s, VDecimal d =>
      if negb (scale d =? s) then violated (DecimalScaleMismatch s (scale d)) else
      if exceeds_precision d precision then violated (DecimalPrecisionExceeded precision) else Ok tt
  | _, _ => Ok tt
  end.

(** Check the values from column [idx] on, one by one. *)
Fixpoint check_each (check : nat -> Value -> result unit) (idx : nat) (values : list Value) : result unit :=
  match values with
  | [] => Ok tt
  | val :: rest => _ ← check idx val; check_each check (S idx) rest
  end.

Definition check_type_compat (s : Schema) (values : list Value) : result unit :=
  check_each (check_type_compat_one s) 0 (take (length (columns s)) values).

Definition check_value_bounds (s : Schema) (values : list Value) : result unit :=
  check_each (check_value_bounds_one s) 0 values.

Fixpoint check_pk_loop (s : Schema) (values : list Value) (pk : list nat) : result unit :=
  match pk with
  | [] => Ok tt
  | pk_idx :: rest =>
      v ← at_index values pk_idx;
      if is_null v
      then (col ← at_index (columns s) pk_idx; Err (ConstraintViolation (col_name col) PkNotNull))
      else check_pk_loop s values rest
  end.

Definition check_pk_not_null (s : Schema) (values : list Value) : result unit := check_pk_loop s values (primary_key s).

Definition default_for (col : ColumnDef) (val : Value) : Value :=
  match val with VNull => match col_default col with Some d => d | None => VNull end | other => other end.

Definition apply_defaults (s : Schema) (values : list Value) : list Value :=
  if negb (len values =? len (columns s)) then values else zip_with default_for (columns s) values.

Definition validate_and_default (s : Schema) (values : list Value) : result (list Value) :=
  _ ← check_arity s values;
  let values := apply_defaults s values in
  _ ← check_nullability s values;
  _ ← check_type_compat s values;
  _ ← check_value_bounds s values;
  _ ← check_pk_not_null s values;
  Ok values.

(** ** The row layout *)

Definition make_row_key (tid : Z) (pk_encoded : bytes) : bytes := to_be_bytes 4 tid ++ pk_encoded.

(** [TableId::next] *)
Definition next_table_id (tid : Z) : result Z :=
  ok_or (checked in_u32 (tid + 1)) (StorageCorrupted "TableId::next: u32 overflow").

Definition row_not_found {A} : result A := Err (RowNotFound "id").

(** Merge the changed columns into a row. *)
Fixpoint merge_changes (changes : list (nat * Value)) (merged : list Value) : result (list Value) :=
  match changes with
  | [] => Ok merged
  | (col_idx, new_val) :: rest =>
      if (length merged <=? col_idx)%nat
      then Err (StorageCorrupted "update_columns: column index out of range")
      else merge_changes rest (<[col_idx := new_val]> merged)
  end.

(** One entry of a scan: strip the table id and decode the row. *)
Definition scan_entry (types : list ColumnType) (item : result entry) : result (bytes * list Value) :=
  '(storage_key, blob) ← item;
  pk_encoded ← slice_from 4 storage_key;
  values ← decode types blob;
  Ok (pk_encoded, values).

Section layout.
Context {E : Type} `{StorageEngine E}.
Context (types : list ColumnType) (tid : Z).

Definition put_row (e : E) (pk_encoded : bytes) (values : list Value) : result E :=
  blob ← encode types values; engine_put e (make_row_key tid pk_encoded) blob.

Definition get_row (e : E) (pk_encoded : bytes) : result (option (list Value)) :=
  r ← engine_get e (make_row_key tid pk_encoded);
  match r with
  | Some blob => row ← decode types blob; Ok (Some row)
  | None => Ok None
  end.

Definition get_projection (e : E) (pk_encoded : bytes) (cols : list nat) : result (option (list Value)) :=
  r ← engine_get e (make_row_key tid pk_encoded);
  match r with
  | Some blob => out ← mapM (fun c => decode_column types blob (Z.of_nat c)) cols; Ok (Some out)
  | None => Ok None
  end.

Definition delete_row (e : E) (pk_encoded : bytes) : result E :=
  match engine_delete e (make_row_key tid pk_encoded) with
  | Err (KeyNotFound _) => Ok e
  | r => r
  end.

Definition update_row (e : E) (pk_encoded : bytes) (new_values : list Value) : result E :=
  r ← engine_get e (make_row_key tid pk_encoded);
  match r with
  | None => row_not_found
  | Some _ => blob ← encode types new_values; engine_put e (make_row_key tid pk_encoded) blob
  end.

Definition update_row_columns (e : E) (pk_encoded : bytes) (changes : list (nat * Value)) : result E :=
  r ← engine_get e (make_row_key tid pk_encoded);
  merged ← match r with Some blob => decode types blob | None => row_not_found end;
  merged ← merge_changes changes merged;
  blob ← encode types merged;
  engine_put e (make_row_key tid pk_encoded) blob.

Definition layout_scan_range (e : E) (pk_start pk_end : bytes) : list (result (bytes * list Value)) :=
  map (scan_entry types) (scan_range e (Included (make_row_key tid pk_start)) (Excluded (make_row_key tid pk_end))).

Definition scan_table (e : E) : list (result (bytes * list Value)) :=
  match next_table_id tid with
  | Ok next_tid =>
      map (scan_entry types) (scan_range e (Included (make_row_key tid [])) (Excluded (make_row_key next_tid [])))
  | Err err => [Err err]
  | Panic => [Panic]
  end.
End layout.

(** ** Tables *)

(** An index: its definition, its engine, and the types of its indexed columns
    followed by those of the primary key. *)
Record IndexHandle (I : Type) := mkIndex { def : IndexDef; ix_engine : I; key_types : list ColumnType }.
Arguments mkIndex {I}. Arguments def {I}. Arguments ix_engine {I}. Arguments key_types {I}.

Record Table (E I : Type) := mkTable { engine : E; schema : Schema; indexes : list (IndexHandle I) }.
Arguments mkTable {E I}. Arguments engine {E I}. Arguments schema {E I}. Arguments indexes {E I}.

Definition set_ix_engine {I} (e : I) (ix : IndexHandle I) : IndexHandle I := mkIndex (def ix) e (key_types ix).

(** The default of the trait; [TxnEngine] overrides it. *)
Definition lock_for_write {E} (e : E) (key : bytes) : result unit := Ok tt.

(** The values at the listed columns of a row. *)
Definition pick_columns (cols : list nat) (row : list Value) : result (list Value) := mapM (at_index row) cols.

Definition encode_pk (s : Schema) (values : list Value) : result bytes :=
  pk_refs ← pick_columns (primary_key s) values;
  types ← pk_types s;
  encode_key_components pk_refs types.

Definition encode_pk_components (s : Schema) (pk_values : list Value) : result bytes :=
  if negb (length pk_values =? length (primary_key s))%nat
  then Err (StorageCorrupted "Table::pk: wrong number of PK components") else
  types ← pk_types s;
  encode_key_components pk_values types.

Definition build_index_key {I} (s : Schema) (ix : IndexHandle I) (row_values : list Value) : result bytes :=
  components ← pick_columns (index_columns (def ix) ++ primary_key s) row_values;
  encode_key_components components (key_types ix).

(** [types[..n]] *)
Definition leading (n : nat) (types : list ColumnType) : result (list ColumnType) :=
  if (length types <? n)%nat then Panic else Ok (take n types).

(** The upper bound of a scan over the keys that start with [prefix]. *)
Definition prefix_end (prefix : bytes) : Bound :=
  match prefix_increment prefix with Some u => Excluded u | None => Unbounded end.

Fixpoint unique_scan (name : string) (prefix self_key : bytes) (scan : list (result entry)) : result unit :=
  match scan with
  | [] => Ok tt
  | item :: rest =>
      '(key, _) ← item;
      if negb (bool_decide (prefix `prefix_of` key)) then Ok tt else
      if negb (bool_decide (key = self_key)) then Err (UniqueViolation name) else
      unique_scan name prefix self_key rest
  end.

Section table.
Context {E I : Type} `{StorageEngine E} `{StorageEngine I}.

Definition check_unique_index (s : Schema) (new_row : list Value) (ix : IndexHandle I) : result unit :=
  if negb (unique (def ix)) then Ok tt else
  components ← pick_columns (index_columns (def ix)) new_row;
  if existsb is_null components then Ok tt else
  types ← leading (length components) (key_types ix);
  prefix ← encode_key_components components types;
  self_key ← build_index_key s ix new_row;
  unique_scan (index_name (def ix)) prefix self_key (scan_range (ix_engine ix) (Included prefix) (prefix_end prefix)).

Fixpoint check_unique_indexes (s : Schema) (new_row : list Value) (ixs : list (IndexHandle I)) : result unit :=
  match ixs with
  | [] => Ok tt
  | ix :: rest => _ ← check_unique_index s new_row ix; check_unique_indexes s new_row rest
  end.

(** Run [f] on every index in turn; a failure leaves the indexes before it changed. *)
Fixpoint each_index (f : IndexHandle I -> result I) (ixs : list (IndexHandle I)) : result unit * list (IndexHandle I) :=
  match ixs with
  | [] => (Ok tt, [])
  | ix :: rest =>
      match f ix with
      | Ok e => let '(r, rest') := each_index f rest in (r, set_ix_engine e ix :: rest')
      | Err err => (Err err, ix :: rest)
      | Panic => (Panic, ix :: rest)
      end
  end.

Abbreviation TM := (M (Table E I)).

Definition set_engine (e : E) (t : Table E I) : Table E I := mkTable e (schema t) (indexes t).
Definition on_indexes (m : M (list (IndexHandle I)) unit) : TM unit :=
  zoom indexes (fun ixs t => mkTable (engine t) (schema t) ixs) m.

(** Replace the engine by what a write leaves. *)
Definition write (f : E -> result E) : TM unit :=
  t ← gets id; e ← pure (f (engine t)); modify (set_engine e).

Definition put_index_entries (row_values : list Value) : TM unit :=
  s ← gets schema;
  on_indexes (each_index (fun ix => key ← build_index_key s ix row_values; engine_put (ix_engine ix) key [])).

Definition delete_index_entries (row_values : list Value) : TM unit :=
  s ← gets schema;
  on_indexes (each_index (fun ix => key ← build_index_key s ix row_values; engine_delete (ix_engine ix) key)).

Definition read_row (pk_encoded : bytes) : TM (option (list Value)) :=
  t ← gets id; pure (get_row (column_types (schema t)) (table_id (schema t)) (engine t) pk_encoded).

Definition lock_row (pk_encoded : bytes) : TM unit := t ← gets id; pure (lock_for_write (engine t) pk_encoded).

Definition check_unique (new_row : list Value) : TM unit :=
  t ← gets id; pure (check_unique_indexes (schema t) new_row (indexes t)).

(** The row at a key, read only when there are indexes to maintain. *)
Definition previous_row (pk_encoded : bytes) : TM (option (list Value)) :=
  t ← gets id;
  match indexes t with [] => mret None | _ :: _ => read_row pk_encoded end.

Definition insert (values : list Value) : TM unit :=
  s ← gets schema;
  values ← pure (validate_and_default s values);
  pk_encoded ← pure (encode_pk s values);
  lock_row pk_encoded;;
  existing ← read_row pk_encoded;
  match existing with
  | Some _ => pure (Err (DuplicateKey (schema_name s)))
  | None =>
      check_unique values;;
      write (fun e => put_row (column_types s) (table_id s) e pk_encoded values);;
      put_index_entries values
  end.

Definition upsert (values : list Value) : TM unit :=
  s ← gets schema;
  values ← pure (validate_and_default s values);
  pk_encoded ← pure (encode_pk s values);
  lock_row pk_encoded;;
  check_unique values;;
  prev ← previous_row pk_encoded;
  match prev with Some row => delete_index_entries row | None => mret tt end;;
  write (fun e => put_row (column_types s) (table_id s) e pk_encoded values);;
  put_index_entries values.

Definition update_by_pk (pk_values new_values : list Value) : TM unit :=
  s ← gets schema;
  new_values ← pure (validate_and_default s new_values);
  pk_encoded ← pure (encode_pk_components s pk_values);
  lock_row pk_encoded;;
  prev ← previous_row pk_encoded;
  check_unique new_values;;
  write (fun e => update_row (column_types s) (table_id s) e pk_encoded new_values);;
  match prev with Some row => delete_index_entries row | None => mret tt end;;
  put_index_entries new_values.

Fixpoint check_changes (s : Schema) (changes : list (nat * Value)) : result unit :=
  match changes with
  | [] => Ok tt
  | (col_idx, new_val) :: rest =>
      _ ← check_type_compat_one s col_idx new_val;
      _ ← check_value_bounds_one s col_idx new_val;
      check_changes s rest
  end.

(** [row[col_idx] = new_val] for every change. *)
Fixpoint apply_changes (changes : list (nat * Value)) (row : list Value) : result (list Value) :=
  match changes with
  | [] => Ok row
  | (col_idx, new_val) :: rest => _ ← at_index row col_idx; apply_changes rest (<[col_idx := new_val]> row)
  end.

Definition update_columns (pk_values : list Value) (changes : list (nat * Value)) : TM unit :=
  s ← gets schema;
  pure (check_changes s changes);;
  pk_encoded ← pure (encode_pk_components s pk_values);
  lock_row pk_encoded;;
  prev ← previous_row pk_encoded;
  rows ← pure (match prev with
               | Some row => new_row ← apply_changes changes row; Ok (Some (row, new_row))
               | None => Ok None
               end);
  match rows with Some (_, new_row) => check_unique new_row | None => mret tt end;;
  write (fun e => update_row_columns (column_types s) (table_id s) e pk_encoded changes);;
  match rows with
  | Some (row, new_row) => delete_index_entries row;; put_index_entries new_row
  | None => mret tt
  end.

Definition delete_by_pk (pk_values : list Value) : TM unit :=
  s ← gets schema;
  pk_encoded ← pure (encode_pk_components s pk_values);
  lock_row pk_encoded;;
  prev ← previous_row pk_encoded;
  write (fun e => delete_row (table_id s) e pk_encoded);;
  match prev with Some row => delete_index_entries row | None => mret tt end.

(** ** Reads *)

Definition get_by_pk (t : Table E I) (pk_values : list Value) : result (option (list Value)) :=
  let s := schema t in
  pk_encoded ← encode_pk_components s pk_values;
  get_row (column_types s) (table_id s) (engine t) pk_encoded.

(** [scan.map(|r| r.map(|(_, row)| row)).collect()] *)
Definition collect_rows (scan : list (result (bytes * list Value))) : result (list (list Value)) :=
  mapM (fun r => '(_, row) ← r; Ok row) scan.

Definition scan (t : Table E I) : result (list (list Value)) :=
  let s := schema t in collect_rows (scan_table (column_types s) (table_id s) (engine t)).

Definition table_scan_range (t : Table E I) (pk_start pk_end : list Value) : result (list (list Value)) :=
  let s := schema t in
  start_encoded ← encode_pk_components s pk_start;
  end_encoded ← encode_pk_components s pk_end;
  collect_rows (layout_scan_range (column_types s) (table_id s) (engine t) start_encoded end_encoded).

(** ** Creating an index *)

Fixpoint unique_feasible_loop (columns : list nat) (types : list ColumnType) (name : string) (rows : list (list Value))
    (seen : list bytes) : result unit :=
  match rows with
  | [] => Ok tt
  | row :: rest =>
      components ← pick_columns columns row;
      if existsb is_null components then unique_feasible_loop columns types name rest seen else
      key ← encode_key_components components types;
      if bool_decide (key ∈ seen) then Err (UniqueViolation name)
      else unique_feasible_loop columns types name rest (key :: seen)
  end.

Definition assert_unique_feasible (t : Table E I) (cols : list nat) (name : string) : result unit :=
  types ← mapM (fun i => c ← at_index (columns (schema t)) i; Ok (ty c)) cols;
  rows ← scan t;
  unique_feasible_loop cols types name rows [].

Fixpoint backfill_rows (rows : list (list Value)) (count : Z) : TM Z :=
  match rows with
  | [] => mret count
  | row :: rest =>
      put_index_entries row;;
      count ← pure (arith in_u64 (count + 1));
      backfill_rows rest count
  end.

Definition backfill_indexes : TM Z :=
  t ← gets id; rows ← pure (scan t); backfill_rows rows 0.

(** ** Index scans *)

Fixpoint deref_entries (t : Table E I) (types : list ColumnType) (indexed_len : nat) (scan : list (result entry)) :
    result (list (list Value)) :=
  match scan with
  | [] => Ok []
  | item :: rest =>
      '(key, _) ← item;
      all_values ← decode_key_components key types;
      row ← get_by_pk t (drop indexed_len all_values);
      rows ← deref_entries t types indexed_len rest;
      Ok (match row with Some row => row :: rows | None => rows end)
  end.

Definition index_scan (t : Table E I) (ix : IndexHandle I) (prefix : list Value) : result (list (list Value)) :=
  if (length (index_columns (def ix)) <? length prefix)%nat
  then Err (IndexLookupArity (index_name (def ix)) (len (index_columns (def ix))) (len prefix)) else
  prefix_types ← leading (length prefix) (key_types ix);
  encoded_prefix ← encode_key_components prefix prefix_types;
  deref_entries t (key_types ix) (length (index_columns (def ix)))
    (scan_range (ix_engine ix) (Included encoded_prefix) (prefix_end encoded_prefix)).
End table.
