(* ===== verification/TableSpec.v ===== *)
(** Tables as maps: what a table with secondary indexes promises, and that the
    calls of Table.v keep it.

    [represents t abs] says that the heap holds the rows of [abs] under their
    primary keys, that every index holds exactly one entry per row, and that no
    two rows agree on a unique index. *)

From Stdlib Require Import ZArith Lia List Bool.
From coqutil Require Import Byte Word.LittleEndianList.
From S2P Require Import Prelude Common Decimal Value KeyEnc Tuple Engine Mvcc Table.
From stdpp Require Import base list strings sorting.
#[local] Open Scope Z_scope.

(** ** Specification *)

Abbreviation Row := (list Value).
Abbreviation rows := (list (bytes * Row)).

(** The columns [cols] of a row, and their types. *)
Definition pick (cols : list nat) (row : Row) : list Value := map (fun i => default VNull (row !! i)) cols.
Definition types_at (s : Schema) (cols : list nat) : list ColumnType :=
  map (fun i => default TInt32 (column_types s !! i)) cols.

(** A value a column can hold: well formed, and a CHAR without a NUL byte. *)
Definition storable (v : Value) : bool :=
  value_wf v && match v with VChar b => negb (contains_nul b) | _ => true end.

Definition in_columns (s : Schema) (cols : list nat) : Prop := Forall (fun i => (i < length (columns s))%nat) cols.

Definition schema_wf (s : Schema) : Prop :=
  0 <= table_id s < 2 ^ 32 - 1 /\ Forall (fun c => type_wf (ty c) = true) (columns s) /\
  in_columns s (primary_key s) /\
  Forall (fun c => forall v, col_default c = Some v -> storable v = true) (columns s).

Definition pk_key (s : Schema) (pk : list Value) : bytes := key_bytes pk (types_at s (primary_key s)).
Definition pk_bytes (s : Schema) (row : Row) : bytes := pk_key s (pick (primary_key s) row).
Definition row_bytes (s : Schema) (row : Row) : bytes := match encode (column_types s) row with Ok b => b | _ => [] end.

(** *** The calls on the map of rows *)

Definition same_key (a b : list Value) : bool := match tuple_cmp a b with Eq => true | _ => false end.

(** Another row has the values of [row] in a unique index; NULLs never clash. *)
Definition clashes (s : Schema) (d : IndexDef) (abs : rows) (row : Row) : bool :=
  unique d && negb (existsb is_null (pick (index_columns d) row)) &&
  existsb (fun e => negb (bool_decide (e.1 = pk_bytes s row)) &&
                    same_key (pick (index_columns d) row) (pick (index_columns d) e.2)) abs.

Fixpoint no_clash (s : Schema) (defs : list IndexDef) (abs : rows) (row : Row) : result unit :=
  match defs with
  | [] => Ok tt
  | d :: rest => if clashes s d abs row then Err (UniqueViolation (index_name d)) else no_clash s rest abs row
  end.

Definition changed (changes : list (nat * Value)) (row : Row) : Row :=
  foldl (fun r c => <[c.1 := c.2]> r) row changes.

Inductive Call :=
| CInsert (values : Row)
| CUpsert (values : Row)
| CUpdate (pk : list Value) (new_values : Row)
| CUpdateColumns (pk : list Value) (changes : list (nat * Value))
| CDelete (pk : list Value).

(** What a call makes of the rows, or the error it returns; then nothing changes. *)
Definition call_rows (s : Schema) (defs : list IndexDef) (c : Call) (abs : rows) : result rows :=
  match c with
  | CInsert values =>
      row ← validate_and_default s values;
      match kv_get (pk_bytes s row) abs with
      | Some _ => Err (DuplicateKey (schema_name s))
      | None => _ ← no_clash s defs abs row; Ok (kv_put (pk_bytes s row) row abs)
      end
  | CUpsert values =>
      row ← validate_and_default s values;
      _ ← no_clash s defs abs row;
      Ok (kv_put (pk_bytes s row) row abs)
  | CUpdate pk new_values =>
      row ← validate_and_default s new_values;
      _ ← no_clash s defs abs row;
      match kv_get (pk_key s pk) abs with None => row_not_found | Some _ => Ok (kv_put (pk_key s pk) row abs) end
  | CUpdateColumns pk changes =>
      _ ← check_changes s changes;
      match kv_get (pk_key s pk) abs with
      | None => row_not_found
      | Some row =>
          _ ← no_clash s defs abs (changed changes row);
          Ok (kv_put (pk_key s pk) (changed changes row) abs)
      end
  | CDelete pk => Ok (kv_delete (pk_key s pk) abs)
  end.

(** What the callers keep to: values of columns, primary keys of the right
    types, and updates that do not move a row to another primary key. *)
Definition call_ok (s : Schema) (c : Call) : Prop :=
  match c with
  | CInsert values | CUpsert values => Forall (fun v => storable v = true) values
  | CUpdate pk new_values =>
      Forall (fun v => storable v = true) new_values /\ key_tuple_ok pk (types_at s (primary_key s)) /\
      forall row, validate_and_default s new_values = Ok row -> pk_bytes s row = pk_key s pk
  | CUpdateColumns pk changes =>
      key_tuple_ok pk (types_at s (primary_key s)) /\
      Forall (fun c => (c.1 < length (columns s))%nat /\ c.1 ∉ primary_key s /\ storable c.2 = true) changes
  | CDelete pk => key_tuple_ok pk (types_at s (primary_key s))
  end.

Section represents.
Context {E I : Type} `{StorageEngine E} `{StorageEngine I}.

Definition run_call (c : Call) : M (Table E I) unit :=
  match c with
  | CInsert values => Table.insert values
  | CUpsert values => upsert values
  | CUpdate pk new_values => update_by_pk pk new_values
  | CUpdateColumns pk changes => update_columns pk changes
  | CDelete pk => delete_by_pk pk
  end.

Definition index_bytes (s : Schema) (ix : IndexHandle I) (row : Row) : bytes :=
  key_bytes (pick (index_columns (def ix) ++ primary_key s) row) (key_types ix).

Definition handle_wf (s : Schema) (ix : IndexHandle I) : Prop :=
  in_columns s (index_columns (def ix)) /\ key_types ix = types_at s (index_columns (def ix) ++ primary_key s).

(** An index holds one entry per row of [P]. *)
Definition index_holds (s : Schema) (P : Row -> Prop) (ix : IndexHandle I) : Prop :=
  forall k v, kv_get k (entries (ix_engine ix)) = Some v <-> v = [] /\ exists row, P row /\ k = index_bytes s ix row.

Definition stored (abs : rows) (row : Row) : Prop := exists pk, kv_get pk abs = Some row.

Definition unique_ok (s : Schema) (abs : rows) (d : IndexDef) : Prop :=
  unique d = true -> forall pk row pk' row', kv_get pk abs = Some row -> kv_get pk' abs = Some row' ->
    existsb is_null (pick (index_columns d) row) = false ->
    tuple_cmp (pick (index_columns d) row) (pick (index_columns d) row') = Eq -> pk = pk'.

Record rows_ok (s : Schema) (abs : rows) : Prop := {
  rows_sorted : keys_sorted abs;
  rows_fit pk row : kv_get pk abs = Some row -> row_ok (column_types s) row /\ pk = pk_bytes s row
}.

Record heap_holds (s : Schema) (e : E) (abs : rows) : Prop := {
  heap_keys : Forall (fun x => 4 <= len x.1) (entries e);
  heap_rows pk : kv_get (make_row_key (table_id s) pk) (entries e) = option_map (row_bytes s) (kv_get pk abs)
}.

Record represents (t : Table E I) (abs : rows) : Prop := {
  rep_schema : schema_wf (schema t);
  rep_rows : rows_ok (schema t) abs;
  rep_heap : heap_holds (schema t) (engine t) abs;
  rep_handles : Forall (handle_wf (schema t)) (indexes t);
  rep_indexes : Forall (index_holds (schema t) (stored abs)) (indexes t);
  rep_unique : Forall (fun ix => unique_ok (schema t) abs (def ix)) (indexes t)
}.
End represents.

(** ** Facts *)

(** *** Stateful calls *)

Lemma M_Ok {S A B} (m : M S A) (k : A -> M S B) s a s' : m s = (Ok a, s') -> (m ≫= k) s = k a s'.
Proof. intros E. unfold mbind, M_bind. by rewrite E. Qed.

Lemma M_Err {S A B} (m : M S A) (k : A -> M S B) s e s' : m s = (Err e, s') -> (m ≫= k) s = (Err e, s').
Proof. intros E. unfold mbind, M_bind. by rewrite E. Qed.

(** *** Columns of rows *)

Lemma mapM_Ok {A B} (f : A -> result B) (g : A -> B) (l : list A) :
  Forall (fun x => f x = Ok (g x)) l -> mapM f l = Ok (map g l).
Proof. intros F. induction F as [|x l E F IH]; [done|]. cbn [mapM map]. rewrite E. cbn. by rewrite IH. Qed.

Lemma length_column_types s : length (column_types s) = length (columns s).
Proof. apply length_map. Qed.

Lemma pick_columns_ok (cols : list nat) (row : Row) :
  Forall (fun i => (i < length row)%nat) cols -> pick_columns cols row = Ok (pick cols row).
Proof.
  intros F. apply mapM_Ok. eapply Forall_impl; [exact F|]. intros i Hi. cbn. unfold at_index.
  by destruct (lookup_lt_is_Some_2 _ _ Hi) as [v ->].
Qed.

Lemma pick_app a b row : pick (a ++ b) row = pick a row ++ pick b row.
Proof. apply map_app. Qed.
Lemma length_pick cols row : length (pick cols row) = length cols.
Proof. apply length_map. Qed.
Lemma types_at_app s a b : types_at s (a ++ b) = types_at s a ++ types_at s b.
Proof. apply map_app. Qed.
Lemma length_types_at s cols : length (types_at s cols) = length cols.
Proof. apply length_map. Qed.

Lemma cell_key t v : cell_ok t v = true -> key_ok v t = true.
Proof.
  unfold cell_ok, key_ok. intros H. apply andb_true_iff in H as [-> H]. cbn. by destruct v, t.
Qed.

Lemma row_length s row : row_ok (column_types s) row -> length row = length (columns s).
Proof. intros H%Forall2_length. by rewrite <- H, length_column_types. Qed.

Lemma in_columns_row s row cols :
  row_ok (column_types s) row -> in_columns s cols -> Forall (fun i => (i < length row)%nat) cols.
Proof. intros H%row_length. unfold in_columns. by rewrite H. Qed.

Lemma in_columns_app s a b : in_columns s a -> in_columns s b -> in_columns s (a ++ b).
Proof. apply Forall_app_2. Qed.

Lemma pick_key_ok s row cols :
  row_ok (column_types s) row -> in_columns s cols -> key_tuple_ok (pick cols row) (types_at s cols).
Proof.
  intros R F. unfold key_tuple_ok, pick, types_at. induction F as [|i cols Hi F IH]; [constructor|].
  constructor; [|done]. rewrite <- length_column_types in Hi.
  destruct (lookup_lt_is_Some_2 _ _ Hi) as [t Ht]. rewrite Ht.
  destruct (Forall2_lookup_l _ _ _ _ _ R Ht) as (v & -> & Hv). by apply cell_key.
Qed.

Lemma pk_types_ok s : in_columns s (primary_key s) -> pk_types s = Ok (types_at s (primary_key s)).
Proof.
  intros F. apply mapM_Ok. eapply Forall_impl; [exact F|]. intros i Hi. cbn.
  unfold column_types, at_index. rewrite list_lookup_fmap. by destruct (lookup_lt_is_Some_2 _ _ Hi) as [c ->].
Qed.

Lemma encode_pk_ok s row :
  schema_wf s -> row_ok (column_types s) row -> encode_pk s row = Ok (pk_bytes s row).
Proof.
  intros (_ & _ & P & _) R. unfold encode_pk. rewrite pick_columns_ok by by eapply in_columns_row. cbn.
  rewrite pk_types_ok by done. apply encode_key_ok. by apply pick_key_ok.
Qed.

Lemma encode_pk_components_ok s pk :
  schema_wf s -> key_tuple_ok pk (types_at s (primary_key s)) -> encode_pk_components s pk = Ok (pk_key s pk).
Proof.
  intros (_ & _ & P & _) R. unfold encode_pk_components.
  pose proof (Forall2_length _ _ _ R) as L. rewrite length_types_at in L. rewrite L, Nat.eqb_refl. cbn.
  rewrite pk_types_ok by done. by apply encode_key_ok.
Qed.

Lemma row_encode s row :
  row_ok (column_types s) row ->
  encode (column_types s) row = Ok (row_bytes s row) /\ decode (column_types s) (row_bytes s row) = Ok row.
Proof. intros R. destruct (row_round_trip _ _ R) as (b & E & D). unfold row_bytes. by rewrite E. Qed.

(** *** Validation *)

Lemma check_each_Ok check i values j v :
  check_each check i values = Ok tt -> values !! j = Some v -> check (i + j)%nat v = Ok tt.
Proof.
  revert i j; induction values as [|w values IH]; intros i j; [done|]. cbn [check_each].
  destruct (check i w) as [[]| |] eqn:E; try done. cbn. intros Hr. destruct j as [|j]; cbn.
  - intros [= <-]. by rewrite Nat.add_0_r.
  - intros Hj. replace (i + S j)%nat with (S i + j)%nat by lia. by apply IH.
Qed.

Lemma check_each_no_panic check i values :
  (forall j v, values !! j = Some v -> no_panic (check (i + j)%nat v)) -> no_panic (check_each check i values).
Proof.
  revert i; induction values as [|w values IH]; intros i Hc; [done|]. cbn [check_each]. apply bind_no_panic.
  - rewrite <- (Nat.add_0_r i). by apply Hc.
  - intros [] _. apply IH. intros j v Hj. replace (S i + j)%nat with (i + S j)%nat by lia. by apply Hc.
Qed.

Lemma change_fits s c col v :
  type_wf (ty col) = true -> columns s !! c = Some col -> storable v = true ->
  check_type_compat_one s c v = Ok tt -> check_value_bounds_one s c v = Ok tt -> cell_ok (ty col) v = true.
Proof.
  unfold check_type_compat_one, check_value_bounds_one, at_index, storable, cell_ok. intros T C S. rewrite C. cbn.
  apply andb_true_iff in S as [-> S]. rewrite T. destruct (matches v (ty col)) eqn:M; [|done]. intros _. cbn.
  destruct v, (ty col); try done; try (zcase; [done|]; intros _; zbool; lia || done).
  rewrite S. zcase; [done|]. intros _. by zcase.
Qed.

Lemma storable_defaults s values :
  schema_wf s -> Forall (fun v => storable v = true) values ->
  Forall (fun v => storable v = true) (apply_defaults s values).
Proof.
  intros (_ & _ & _ & D) F. unfold apply_defaults. split_if; [done|]. clear Heqb.
  revert values F; induction D as [|c cols Hc D IH]; intros [|v values] F; try constructor; inversion F; subst.
  - unfold default_for. destruct v; try done. destruct (col_default c) eqn:E; [by apply Hc|done].
  - by apply IH.
Qed.

Lemma length_defaults s values : len values = len (columns s) -> length (apply_defaults s values) = length (columns s).
Proof.
  intros L. unfold apply_defaults. rewrite L, Z.eqb_refl. cbn. rewrite length_zip_with. unfold len in L. lia.
Qed.

Lemma check_one_no_panic s c v :
  (c < length (columns s))%nat -> no_panic (check_type_compat_one s c v) /\ no_panic (check_value_bounds_one s c v).
Proof.
  intros Hc. unfold check_type_compat_one, check_value_bounds_one, at_index.
  destruct (lookup_lt_is_Some_2 _ _ Hc) as [col ->]. cbn. split; [by split_if|].
  destruct (ty col), v; try done; repeat split_if; done.
Qed.

Lemma check_pk_no_panic s row :
  length row = length (columns s) -> in_columns s (primary_key s) -> no_panic (check_pk_not_null s row).
Proof.
  unfold check_pk_not_null. intros L F. induction F as [|i pk Hi F IH]; [done|]. cbn. unfold at_index.
  rewrite <- L in Hi. destruct (lookup_lt_is_Some_2 _ _ Hi) as [v ->]. cbn. split_if; [|done].
  rewrite L in Hi. by destruct (lookup_lt_is_Some_2 _ _ Hi) as [c ->].
Qed.

Lemma check_nullability_no_panic pairs : no_panic (check_nullability_loop pairs).
Proof. induction pairs as [|[c v] pairs IH]; cbn; [done|]. by split_if. Qed.

Lemma validate_no_panic s values : schema_wf s -> no_panic (validate_and_default s values).
Proof.
  intros W. unfold validate_and_default, check_arity. zcase; [|done]. cbn -[check_nullability check_type_compat].
  pose proof (length_defaults s values ltac:(done)) as L. pose proof W as (_ & _ & P & _).
  apply bind_no_panic; [apply check_nullability_no_panic|]. intros [] _.
  apply bind_no_panic. { apply check_each_no_panic. intros j v Hj%lookup_lt_Some. apply check_one_no_panic.
    rewrite length_take in Hj. lia. }
  intros [] _. apply bind_no_panic. { apply check_each_no_panic. intros j v Hj%lookup_lt_Some. apply check_one_no_panic. lia. }
  intros [] _. apply bind_no_panic; [by apply check_pk_no_panic|]. done.
Qed.

Lemma validate_fits s values row :
  schema_wf s -> Forall (fun v => storable v = true) values -> validate_and_default s values = Ok row ->
  row_ok (column_types s) row.
Proof.
  intros W F. unfold validate_and_default, check_arity. zcase; [|done].
  pose proof (length_defaults s values ltac:(done)) as L. apply (storable_defaults s _ W) in F.
  cbn -[check_nullability check_type_compat]. intros E. inv_ok. repeat match goal with u : unit |- _ => destruct u end. destruct W as (_ & T & _).
  apply Forall2_same_length_lookup_2; [by rewrite length_column_types|]. intros i t v Ht Hv.
  unfold column_types in Ht. rewrite list_lookup_fmap in Ht. apply fmap_Some in Ht as (col & Hc & ->).
  apply (change_fits s i); try done.
  - by apply (Forall_lookup_1 _ _ _ _ T Hc).
  - by apply (Forall_lookup_1 _ _ _ _ F Hv).
  - eapply (check_each_Ok _ 0); [eassumption|]. by rewrite take_ge by lia.
  - by eapply (check_each_Ok _ 0); [eassumption|].
Qed.

(** *** Keys of indexes *)

Lemma tuple_cmp_app a b a' b' :
  length a = length a' -> tuple_cmp (a ++ b) (a' ++ b') = then_cmp (tuple_cmp a a') (tuple_cmp b b').
Proof.
  revert a'; induction a as [|v a IH]; intros [|w a'] L; try done. cbn. rewrite IH by (cbn in L; lia).
  by rewrite then_cmp_assoc.
Qed.

Lemma then_cmp_Eq c d : then_cmp c d = Eq -> c = Eq /\ d = Eq.
Proof. by destruct c. Qed.

Lemma key_bytes_eq vs ws types :
  key_tuple_ok vs types -> key_tuple_ok ws types -> key_bytes vs types = key_bytes ws types <-> tuple_cmp vs ws = Eq.
Proof.
  intros V W. pose proof (key_bytes_ordered vs ws types [] [] V W) as O. rewrite !app_nil_r, then_cmp_Eq_r in O.
  rewrite <- O. split; [intros ->; apply bcmp_refl|apply bcmp_eq].
Qed.

Section facts.
Context {E I : Type} `{StorageEngine E} `{StorageEngine I}.
Implicit Types (s : Schema) (row : Row) (abs : rows) (t : Table E I) (ix : IndexHandle I).

Lemma handle_columns s ix : schema_wf s -> handle_wf s ix -> in_columns s (index_columns (def ix) ++ primary_key s).
Proof. intros (_ & _ & P & _) [C _]. by apply in_columns_app. Qed.

Lemma index_key_ok s ix row :
  schema_wf s -> handle_wf s ix -> row_ok (column_types s) row ->
  key_tuple_ok (pick (index_columns (def ix) ++ primary_key s) row) (key_types ix).
Proof. intros W Hx R. rewrite (proj2 Hx). apply pick_key_ok; [done|]. by apply handle_columns. Qed.

Lemma build_index_key_ok s ix row :
  schema_wf s -> handle_wf s ix -> row_ok (column_types s) row -> build_index_key s ix row = Ok (index_bytes s ix row).
Proof.
  intros W Hx R. unfold build_index_key.
  rewrite pick_columns_ok by (eapply in_columns_row; [done|by apply handle_columns]).
  apply encode_key_ok. by apply index_key_ok.
Qed.

Lemma index_bytes_split s ix row :
  handle_wf s ix ->
  index_bytes s ix row
  = key_bytes (pick (index_columns (def ix)) row) (types_at s (index_columns (def ix))) ++ pk_bytes s row.
Proof.
  intros [_ K]. unfold index_bytes. rewrite K, pick_app, types_at_app. apply key_bytes_app.
  by rewrite length_pick, length_types_at.
Qed.

Lemma index_bytes_pk s ix row row' :
  schema_wf s -> handle_wf s ix -> row_ok (column_types s) row -> row_ok (column_types s) row' ->
  index_bytes s ix row = index_bytes s ix row' -> pk_bytes s row = pk_bytes s row'.
Proof.
  intros W Hx R R' Eq. pose proof W as (_ & _ & P & _). apply key_bytes_eq in Eq; [|by apply index_key_ok..].
  rewrite !pick_app, tuple_cmp_app in Eq by by rewrite !length_pick. apply then_cmp_Eq in Eq as [_ Eq].
  apply key_bytes_eq; [by apply pick_key_ok..|done].
Qed.

(** *** One write to an index *)

Lemma index_holds_ext s P Q ix :
  (forall k, (exists row, P row /\ k = index_bytes s ix row) <-> (exists row, Q row /\ k = index_bytes s ix row)) ->
  index_holds s P ix -> index_holds s Q ix.
Proof. intros PQ Hp k v. rewrite (Hp k v). by rewrite PQ. Qed.

Lemma index_put s P ix row e :
  engine_put (ix_engine ix) (index_bytes s ix row) [] = Ok e ->
  index_holds s P ix -> index_holds s (fun r => P r \/ r = row) (set_ix_engine e ix).
Proof.
  intros Ep Hp k v. destruct (engine_put_spec (ix_engine ix) (index_bytes s ix row) []) as (e' & E' & Es).
  rewrite E' in Ep. injection Ep as ->. cbn. rewrite Es, kv_get_put. unfold index_bytes in *. cbn in *. case_bool_decide as Hk.
  - split; [intros [= <-]; by eauto|]. by intros [-> _].
  - rewrite (Hp k v). split; [intros [? (r & ? & ?)]; by eauto|]. intros [? (r & [Hr | ->] & Er)]; [by eauto|done].
Qed.

Lemma index_delete s P ix row e :
  engine_delete (ix_engine ix) (index_bytes s ix row) = Ok e ->
  index_holds s P ix -> index_holds s (fun r => P r /\ index_bytes s ix r <> index_bytes s ix row) (set_ix_engine e ix).
Proof.
  intros Ep Hp k v. destruct (engine_delete_spec (ix_engine ix) (index_bytes s ix row)) as (e' & E' & Es).
  rewrite E' in Ep. injection Ep as ->. cbn. rewrite Es, kv_get_delete. unfold index_bytes in *. cbn in *. case_bool_decide as Hk.
  - split; [done|]. intros [-> (r & [_ Hr] & Er)]. congruence.
  - rewrite (Hp k v). split; [intros [? (r & ? & ->)]; split; [done|]; exists r; split; [split; done|done]|].
    intros [? (r & [Hr _] & Er)]. by eauto.
Qed.

Lemma each_index_ok (P : IndexHandle I -> Prop) f ixs :
  Forall (fun ix => exists e, f ix = Ok e /\ P (set_ix_engine e ix)) ixs ->
  exists ixs', each_index f ixs = (Ok tt, ixs') /\ Forall P ixs' /\ map def ixs' = map def ixs.
Proof.
  intros F. induction F as [|ix ixs (e & Ee & Pe) F (ixs' & E' & P' & D)]; [by exists []|].
  exists (set_ix_engine e ix :: ixs'). cbn. rewrite Ee, E', D. split_and!; [done| |done]. by constructor.
Qed.
End facts.

(** *** The heap *)

Lemma row_key_inj tid a b : make_row_key tid a = make_row_key tid b <-> a = b.
Proof. unfold make_row_key. split; [apply app_inv_head|by intros ->]. Qed.

Section heap.
Context {E : Type} `{StorageEngine E}.
Implicit Types (s : Schema) (row : Row) (abs : rows).

Lemma get_row_ok s (e : E) abs pk :
  rows_ok s abs -> heap_holds s e abs -> get_row (column_types s) (table_id s) e pk = Ok (kv_get pk abs).
Proof.
  intros Ra Hh. unfold get_row. rewrite engine_get_spec, (heap_rows _ _ _ Hh pk).
  destruct (kv_get pk abs) as [row|] eqn:Ek; [|done]. cbn.
  apply (rows_fit _ _ Ra) in Ek as [R _]. by rewrite (proj2 (row_encode s row R)).
Qed.

Lemma heap_put s (e : E) abs pk row :
  heap_holds s e abs ->
  exists e', engine_put e (make_row_key (table_id s) pk) (row_bytes s row) = Ok e' /\ heap_holds s e' (kv_put pk row abs).
Proof.
  intros [K R]. destruct (engine_put_spec e (make_row_key (table_id s) pk) (row_bytes s row)) as (e' & Ee & Es).
  exists e'. split; [done|]. split.
  - apply Forall_forall. rewrite Es. intros x [-> | Hx]%kv_put_keys.
    + cbn. unfold make_row_key. rewrite len_app, len_to_be_bytes. pose proof (len_nonneg pk). lia.
    + by apply (proj1 (Forall_forall _ _) K).
  - intros pk'. rewrite Es, !kv_get_put, R. destruct (decide (pk' = pk)) as [-> | N].
    + by rewrite !bool_decide_true.
    + rewrite !bool_decide_false; [done|done|]. by rewrite row_key_inj.
Qed.

Lemma heap_delete s (e : E) abs pk :
  heap_holds s e abs -> exists e', delete_row (table_id s) e pk = Ok e' /\ heap_holds s e' (kv_delete pk abs).
Proof.
  intros [K R]. destruct (engine_delete_spec e (make_row_key (table_id s) pk)) as (e' & Ee & Es).
  exists e'. unfold delete_row. rewrite Ee. split; [done|]. split.
  - rewrite Es. unfold kv_delete. apply Forall_forall. intros x [Hx _]%list_elem_of_In%filter_In.
    apply (proj1 (Forall_forall _ _) K). by apply list_elem_of_In.
  - intros pk'. rewrite Es, !kv_get_delete, R. destruct (decide (pk' = pk)) as [-> | N].
    + by rewrite !bool_decide_true.
    + rewrite !bool_decide_false; [done|done|]. by rewrite row_key_inj.
Qed.
End heap.

Lemma rows_put s abs row : rows_ok s abs -> row_ok (column_types s) row -> rows_ok s (kv_put (pk_bytes s row) row abs).
Proof.
  intros [S F] R. split; [by apply keys_sorted_put|]. intros pk r. rewrite kv_get_put. case_bool_decide as Hk; [|apply F].
  intros [= <-]. by subst.
Qed.

Lemma rows_delete s abs pk : rows_ok s abs -> rows_ok s (kv_delete pk abs).
Proof.
  intros [S F]. split; [by apply keys_sorted_delete|]. intros pk' r. rewrite kv_get_delete.
  case_bool_decide; [done|apply F].
Qed.

(** *** Uniqueness *)

Lemma kv_get_In {V} k (v : V) (l : list (bytes * V)) : kv_get k l = Some v -> (k, v) ∈ l.
Proof.
  induction l as [|[k0 v0] l IH]; cbn; [done|]. case_bool_decide as Hk; [subst; intros [= ->]; constructor|].
  intros Hv%IH. by constructor.
Qed.

Lemma kv_In_get {V} k (v : V) (l : list (bytes * V)) : keys_sorted l -> (k, v) ∈ l -> kv_get k l = Some v.
Proof.
  intros S. induction S as [|[k0 v0] l S IH F]; [by intros ?%elem_of_nil|]. cbn. intros [[= -> ->] | Hin]%elem_of_cons.
  - by rewrite bool_decide_true.
  - rewrite bool_decide_false; [by apply IH|]. intros ->. apply (proj1 (Forall_forall _ _) F) in Hin. by apply blt_irrefl in Hin.
Qed.

Lemma clashes_false s d abs row :
  keys_sorted abs -> unique d = true -> existsb is_null (pick (index_columns d) row) = false ->
  clashes s d abs row = false <->
  forall pk r, kv_get pk abs = Some r -> tuple_cmp (pick (index_columns d) row) (pick (index_columns d) r) = Eq ->
    pk = pk_bytes s row.
Proof.
  intros S U N. unfold clashes. rewrite U, N. cbn. split.
  - intros X pk r G%kv_get_In T. destruct (decide (pk = pk_bytes s row)) as [|Hn]; [done|].
    enough (X' : existsb (fun e => negb (bool_decide (e.1 = pk_bytes s row)) &&
      same_key (pick (index_columns d) row) (pick (index_columns d) e.2)) abs = true) by by rewrite X in X'.
    apply existsb_exists. exists (pk, r). split; [by apply list_elem_of_In|]. cbn. unfold same_key.
    by rewrite bool_decide_false, T.
  - intros X. apply not_true_is_false. intros ([pk r] & Hin%list_elem_of_In & [Hn T]%andb_true_iff)%existsb_exists.
    cbn in *. unfold same_key in T. apply negb_true_iff, bool_decide_eq_false in Hn. apply Hn.
    apply (X pk r); [by apply kv_In_get|]. by destruct (tuple_cmp _ _).
Qed.

Lemma no_clash_all s defs abs row : no_clash s defs abs row = Ok tt <-> Forall (fun d => clashes s d abs row = false) defs.
Proof.
  induction defs as [|d defs IH]; cbn; [by split|]. rewrite Forall_cons. destruct (clashes s d abs row).
  - split; [done|]. by intros [? _].
  - rewrite IH. by split; [|intros [_ ?]].
Qed.

Lemma tuple_cmp_sym a b types :
  key_tuple_ok a types -> key_tuple_ok b types -> tuple_cmp a b = Eq -> tuple_cmp b a = Eq.
Proof. intros A B T. apply (key_bytes_eq b a types); [done..|]. symmetry. by apply key_bytes_eq. Qed.

Lemma tuple_cmp_nulls a b : tuple_cmp a b = Eq -> existsb is_null a = existsb is_null b.
Proof.
  revert b; induction a as [|v a IH]; intros [|w b]; cbn; try done. intros [Hc Ht]%then_cmp_Eq. rewrite (IH _ Ht).
  f_equal. by destruct v, w.
Qed.

Lemma unique_put s abs d row :
  rows_ok s abs -> row_ok (column_types s) row -> in_columns s (index_columns d) ->
  clashes s d abs row = false -> unique_ok s abs d -> unique_ok s (kv_put (pk_bytes s row) row abs) d.
Proof.
  intros Ra R C X U Hu pk r pk' r'. rewrite !kv_get_put. specialize (U Hu). intros G G' N T.
  pose proof (fun N => proj1 (clashes_false s d abs row (rows_sorted _ _ Ra) Hu N) X) as Cf.
  destruct (decide (pk = pk_bytes s row)) as [-> | Np], (decide (pk' = pk_bytes s row)) as [-> | Np']; [done|..];
    rewrite ?(bool_decide_true (pk_bytes s row = _)), ?(bool_decide_false _ Np), ?(bool_decide_false _ Np') in * by done.
  - injection G as <-. symmetry. by eapply Cf.
  - injection G' as <-. pose proof (proj1 (rows_fit _ _ Ra _ _ G)) as Rr.
    pose proof (tuple_cmp_nulls _ _ T) as Nn. rewrite N in Nn. eapply Cf; [done|exact G|].
    by apply (tuple_cmp_sym _ _ (types_at s (index_columns d))); [apply pick_key_ok..|].
  - by eapply U.
Qed.

Lemma unique_delete s abs d pk : unique_ok s abs d -> unique_ok s (kv_delete pk abs) d.
Proof.
  intros U Hu p r p' r'. rewrite !kv_get_delete. repeat case_bool_decide; try done. by apply U.
Qed.

Lemma unique_scan_ok name prefix self l :
  Forall (fun e : entry => prefix `prefix_of` e.1) l ->
  unique_scan name prefix self (map Ok l)
  = if forallb (fun e => bool_decide (e.1 = self)) l then Ok tt else Err (UniqueViolation name).
Proof.
  intros F. induction F as [|[k v] l Hk F IH]; [done|]. cbn in *. rewrite bool_decide_true by done. cbn.
  by case_bool_decide.
Qed.

Section unique.
Context {I : Type} `{StorageEngine I}.
Implicit Types (s : Schema) (row : Row) (abs : rows) (ix : IndexHandle I).

(** The entries a prefix scan of an index visits. *)
Lemma prefix_entries ix prefix :
  forall e, e ∈ kv_scan (Included prefix) (prefix_end prefix) (entries (ix_engine ix)) <->
    e ∈ entries (ix_engine ix) /\ prefix `prefix_of` e.1.
Proof.
  intros [k v]. unfold kv_scan. rewrite !list_elem_of_In, filter_In. apply and_iff_compat_l. cbn.
  rewrite prefix_increment_bounds, andb_true_iff. unfold above, below, prefix_end. rewrite bleb_spec.
  destruct (prefix_increment prefix); [by rewrite bltb_spec|naive_solver].
Qed.

Lemma entry_is_row s abs ix k v :
  index_holds s (stored abs) ix ->
  (k, v) ∈ entries (ix_engine ix) <-> v = [] /\ exists pk r, kv_get pk abs = Some r /\ k = index_bytes s ix r.
Proof.
  intros Hx. transitivity (kv_get k (entries (ix_engine ix)) = Some v).
  { split; [apply kv_In_get, entries_sorted|apply kv_get_In]. }
  rewrite (Hx k v). apply and_iff_compat_l. unfold stored. naive_solver.
Qed.

Lemma prefix_of_index s ix row r :
  schema_wf s -> handle_wf s ix -> row_ok (column_types s) row -> row_ok (column_types s) r ->
  key_bytes (pick (index_columns (def ix)) row) (types_at s (index_columns (def ix))) `prefix_of` index_bytes s ix r
  <-> tuple_cmp (pick (index_columns (def ix)) row) (pick (index_columns (def ix)) r) = Eq.
Proof.
  intros W Hx R R'. rewrite index_bytes_split by done. apply key_prefix_iff; apply pick_key_ok; try done; apply Hx.
Qed.

Lemma index_bytes_eq s ix row r :
  schema_wf s -> handle_wf s ix -> row_ok (column_types s) row -> row_ok (column_types s) r ->
  tuple_cmp (pick (index_columns (def ix)) row) (pick (index_columns (def ix)) r) = Eq ->
  index_bytes s ix r = index_bytes s ix row <-> pk_bytes s r = pk_bytes s row.
Proof.
  intros W Hx R R' T. split; [by apply index_bytes_pk|]. intros P. rewrite !index_bytes_split, P by done. f_equal.
  symmetry. apply key_bytes_eq; [apply pick_key_ok; [done|apply Hx]..|done].
Qed.

Lemma leading_types s ix : handle_wf s ix ->
  leading (length (index_columns (def ix))) (key_types ix) = Ok (types_at s (index_columns (def ix))).
Proof.
  intros [_ K]. unfold leading. rewrite K, types_at_app, length_app, length_types_at.
  destruct (Nat.ltb_spec (length (index_columns (def ix)) + length (types_at s (primary_key s))) (length (index_columns (def ix)))); [lia|].
  by rewrite take_app_length' by by rewrite length_types_at.
Qed.

Lemma check_unique_index_ok s abs ix row :
  schema_wf s -> rows_ok s abs -> handle_wf s ix -> index_holds s (stored abs) ix -> row_ok (column_types s) row ->
  check_unique_index s row ix
  = if clashes s (def ix) abs row then Err (UniqueViolation (index_name (def ix))) else Ok tt.
Proof.
  intros W Ra Hx Hi R. unfold check_unique_index. destruct (unique (def ix)) eqn:U; [|by unfold clashes; rewrite U]. cbn [negb].
  rewrite pick_columns_ok by (eapply in_columns_row; [done|apply Hx]). cbn.
  destruct (existsb is_null _) eqn:N; [by unfold clashes; rewrite U, N|].
  rewrite length_pick, (leading_types s) by done. cbn.
  rewrite encode_key_ok by (apply pick_key_ok; [done|apply Hx]). cbn. rewrite build_index_key_ok by done. cbn.
  rewrite scan_range_spec. set (p := key_bytes _ _). rewrite unique_scan_ok by (apply Forall_forall; by intros e [_ ?]%prefix_entries).
  destruct (forallb _ _) eqn:A, (clashes s (def ix) abs row) eqn:C; try done; exfalso.
  - rewrite forallb_forall in A. enough (C' : clashes s (def ix) abs row = false) by by rewrite C in C'.
    apply clashes_false; [apply Ra|done|done|]. intros pk r G T. pose proof (rows_fit _ _ Ra _ _ G) as [Rr ->].
    apply (index_bytes_eq s ix row r); try done. refine (bool_decide_eq_true_1 _ (A (index_bytes s ix r, []) _)).
    apply list_elem_of_In, prefix_entries. split; [by eapply entry_is_row; eauto|]. by apply prefix_of_index.
  - apply not_true_iff_false in A. apply A. clear A. apply forallb_forall. intros [k v] Hin%list_elem_of_In. cbn.
    apply prefix_entries in Hin as [Hk Hp]. apply (entry_is_row s abs ix k v Hi) in Hk as [_ (pk & r & G & ->)].
    pose proof (rows_fit _ _ Ra _ _ G) as [Rr ->]. apply (prefix_of_index s ix row r) in Hp; try done.
    apply bool_decide_eq_true. apply index_bytes_eq; try done.
    by eapply (proj1 (clashes_false s (def ix) abs row (rows_sorted _ _ Ra) U N)).
Qed.

Lemma check_unique_indexes_ok s abs ixs row :
  schema_wf s -> rows_ok s abs -> Forall (handle_wf s) ixs -> Forall (index_holds s (stored abs)) ixs ->
  row_ok (column_types s) row -> check_unique_indexes s row ixs = no_clash s (map def ixs) abs row.
Proof.
  intros W Ra Hx Hi R. induction ixs as [|ix ixs IH]; [done|]. apply Forall_cons in Hx as [X Hx], Hi as [Y Hi]. cbn.
  rewrite (check_unique_index_ok s abs) by done. destruct (clashes s (def ix) abs row); [done|]. cbn. by apply IH.
Qed.
End unique.

(** *** Changed columns *)

Abbreviation change_ok s := (fun c : nat * Value =>
  ((c.1 < length (columns s))%nat /\ c.1 ∉ primary_key s /\ storable c.2 = true)).

Lemma check_changes_no_panic s changes : Forall (change_ok s) changes -> no_panic (check_changes s changes).
Proof.
  intros F. induction F as [|[c v] changes (Hc & _) F IH]; cbn; [done|]. destruct (check_one_no_panic s c v Hc) as [N1 N2].
  apply bind_no_panic; [done|]. intros [] _. by apply bind_no_panic; [|intros [] _].
Qed.

Lemma changed_ok s changes row :
  schema_wf s -> Forall (change_ok s) changes -> check_changes s changes = Ok tt -> row_ok (column_types s) row ->
  apply_changes changes row = Ok (changed changes row) /\ merge_changes changes row = Ok (changed changes row) /\
  row_ok (column_types s) (changed changes row) /\ pick (primary_key s) (changed changes row) = pick (primary_key s) row.
Proof.
  intros (_ & T & _) F. revert row; induction F as [|[c v] changes (Hc & Hp & Hs) F IH]; intros row E R; [done|].
  change (changed ((c, v) :: changes) row) with (changed changes (<[c := v]> row)). cbn -[changed] in *.
  destruct (check_type_compat_one s c v) as [[]| |] eqn:E1; try done. cbn in E.
  destruct (check_value_bounds_one s c v) as [[]| |] eqn:E2; try done. cbn in E.
  pose proof (row_length s row R) as L. unfold at_index. rewrite <- L in Hc.
  destruct (lookup_lt_is_Some_2 _ _ Hc) as [old ->]. cbn. destruct (Nat.leb_spec (length row) c); [lia|].
  rewrite L in Hc. destruct (lookup_lt_is_Some_2 _ _ Hc) as [col Hcol].
  assert (R' : row_ok (column_types s) (<[c := v]> row)).
  { rewrite <- (list_insert_id (column_types s) c (ty col)).
    - apply Forall2_insert; [done|]. eapply change_fits; try done. by apply (Forall_lookup_1 _ _ _ _ T Hcol).
    - unfold column_types. by rewrite list_lookup_fmap, Hcol. }
  destruct (IH _ E R') as (-> & -> & Rc & Pc). split_and!; try done. rewrite Pc. unfold pick.
  apply list_fmap_ext. intros i x Hx. rewrite list_lookup_insert_ne; [done|]. intros ->. by apply list_elem_of_lookup_2 in Hx.
Qed.

(** *** Steps of the calls *)

Section calls.
Context {E I : Type} `{StorageEngine E} `{StorageEngine I}.
Implicit Types (s : Schema) (row : Row) (abs : rows) (t : Table E I) (ixs : list (IndexHandle I)) (e : E).

Definition indexes_hold s (P : Row -> Prop) ixs : Prop := Forall (handle_wf s) ixs /\ Forall (index_holds s P) ixs.

Lemma run_read_row t abs pk : represents t abs -> read_row pk t = (Ok (kv_get pk abs), t).
Proof. intros R. unfold read_row, gets, pure, mbind, M_bind. cbn. by rewrite (get_row_ok _ _ abs) by apply R. Qed.

Lemma run_check_unique t abs row :
  represents t abs -> row_ok (column_types (schema t)) row ->
  check_unique row t = (no_clash (schema t) (map def (indexes t)) abs row, t).
Proof.
  intros R Ro. unfold check_unique, gets, pure, mbind, M_bind. cbn.
  by rewrite (check_unique_indexes_ok _ abs) by (done || apply R).
Qed.

Lemma run_previous_row t abs pk :
  represents t abs ->
  exists prev, previous_row pk t = (Ok prev, t) /\ (prev = kv_get pk abs \/ indexes t = [] /\ prev = None).
Proof.
  intros R. unfold previous_row. rewrite (M_Ok _ _ _ t t) by done. destruct (indexes t); [by exists None; auto|].
  exists (kv_get pk abs). split; [by apply run_read_row|by left].
Qed.

Lemma run_write (f : E -> result E) e t : f (engine t) = Ok e -> write f t = (Ok tt, mkTable e (schema t) (indexes t)).
Proof. intros Hf. unfold write, gets, pure, modify, mbind, M_bind. cbn. by rewrite Hf. Qed.

Lemma run_write_err (f : E -> result E) err t : f (engine t) = Err err -> write f t = (Err err, t).
Proof. intros Hf. unfold write, gets, pure, modify, mbind, M_bind. cbn. by rewrite Hf. Qed.

Lemma run_put_entries t row P :
  schema_wf (schema t) -> indexes_hold (schema t) P (indexes t) -> row_ok (column_types (schema t)) row ->
  exists ixs, put_index_entries row t = (Ok tt, mkTable (engine t) (schema t) ixs) /\
    indexes_hold (schema t) (fun r => P r \/ r = row) ixs /\ map def ixs = map def (indexes t).
Proof.
  intros W [Hh Hi] R.
  destruct (each_index_ok (fun ix => handle_wf (schema t) ix /\ index_holds (schema t) (fun r => P r \/ r = row) ix)
    (fun ix => key ← build_index_key (schema t) ix row; engine_put (ix_engine ix) key []) (indexes t)) as (ixs & Ee & F & D).
  - apply Forall_forall. intros ix Hin. pose proof (proj1 (Forall_forall _ _) Hh _ Hin) as Hx.
    rewrite build_index_key_ok by done. cbn.
    destruct (engine_put_spec (ix_engine ix) (index_bytes (schema t) ix row) []) as (e & Ep & _). exists e.
    split; [done|]. split; [done|]. apply index_put; [done|]. by apply (proj1 (Forall_forall _ _) Hi).
  - exists ixs. split_and!; [|by apply Forall_and in F|done].
    unfold put_index_entries, on_indexes, zoom, gets, mbind, M_bind. cbn. fold (@mbind result _). by rewrite Ee.
Qed.

Lemma run_delete_entries t row P :
  schema_wf (schema t) -> indexes_hold (schema t) P (indexes t) -> row_ok (column_types (schema t)) row ->
  (forall r, P r -> row_ok (column_types (schema t)) r /\ (pk_bytes (schema t) r = pk_bytes (schema t) row -> r = row)) ->
  exists ixs, delete_index_entries row t = (Ok tt, mkTable (engine t) (schema t) ixs) /\
    indexes_hold (schema t) (fun r => P r /\ pk_bytes (schema t) r <> pk_bytes (schema t) row) ixs /\
    map def ixs = map def (indexes t).
Proof.
  intros W [Hh Hi] R HP.
  destruct (each_index_ok (fun ix => handle_wf (schema t) ix /\
    index_holds (schema t) (fun r => P r /\ pk_bytes (schema t) r <> pk_bytes (schema t) row) ix)
    (fun ix => key ← build_index_key (schema t) ix row; engine_delete (ix_engine ix) key) (indexes t)) as (ixs & Ee & F & D).
  - apply Forall_forall. intros ix Hin. pose proof (proj1 (Forall_forall _ _) Hh _ Hin) as Hx.
    rewrite build_index_key_ok by done. cbn.
    destruct (engine_delete_spec (ix_engine ix) (index_bytes (schema t) ix row)) as (e & Ep & _). exists e.
    split; [done|]. split; [done|]. eapply index_holds_ext, index_delete, (proj1 (Forall_forall _ _) Hi); try done.
    intros k. split; intros (r & [Pr Nr] & ->); exists r; (split; [split|]; [done| |done]); destruct (HP r Pr) as [Rr Er].
    + by intros ->%Er.
    + by intros ?%(index_bytes_pk _ ix).
  - exists ixs. split_and!; [|by apply Forall_and in F|done].
    unfold delete_index_entries, on_indexes, zoom, gets, mbind, M_bind. cbn. fold (@mbind result _). by rewrite Ee.
Qed.

Lemma represents_indexes t abs : represents t abs -> indexes_hold (schema t) (stored abs) (indexes t).
Proof. intros R. split; apply R. Qed.

(** Dropping the entries of the row at a key, if there is one. *)
Lemma run_drop_previous t t' abs pk prev :
  represents t abs -> schema t' = schema t -> indexes t' = indexes t ->
  prev = kv_get pk abs \/ indexes t = [] /\ prev = None ->
  exists ixs, (match prev with Some row => delete_index_entries row | None => mret tt end) t'
      = (Ok tt, mkTable (engine t') (schema t) ixs) /\
    indexes_hold (schema t) (fun r => stored abs r /\ pk_bytes (schema t) r <> pk) ixs /\
    map def ixs = map def (indexes t).
Proof.
  intros R Es Ei. destruct t' as [e' s' ixs']. cbn in Es, Ei. subst s' ixs'.
  pose proof (represents_indexes t abs R) as HI. pose proof (rows_fit _ _ (rep_rows _ _ R)) as Fit.
  intros [-> | [En ->]]; [destruct (kv_get pk abs) as [row|] eqn:G|].
  - destruct (Fit _ _ G) as [Ro ->]. apply (run_delete_entries (mkTable e' (schema t) (indexes t))); try done; [apply R|].
    cbn. intros r [pk' G']. destruct (Fit _ _ G') as [Rr ->]. split; [done|]. intros Ep. rewrite Ep in G'. congruence.
  - exists (indexes t). split; [done|]. split; [|done]. destruct HI as [Hh Hi]. split; [done|].
    eapply Forall_impl; [exact Hi|]. intros ix. apply index_holds_ext. intros k. split; intros (r & Hr & ->); exists r.
    + split; [|done]. split; [done|]. destruct Hr as [pk' G']. destruct (Fit _ _ G') as [_ ->]. congruence.
    + by destruct Hr.
  - exists []. rewrite En. split; [done|]. split; [by split|done].
Qed.

Lemma rep_replace t abs row e ixs :
  represents t abs -> row_ok (column_types (schema t)) row ->
  no_clash (schema t) (map def (indexes t)) abs row = Ok tt ->
  heap_holds (schema t) e (kv_put (pk_bytes (schema t) row) row abs) ->
  indexes_hold (schema t) (fun r => (stored abs r /\ pk_bytes (schema t) r <> pk_bytes (schema t) row) \/ r = row) ixs ->
  map def ixs = map def (indexes t) ->
  represents (mkTable e (schema t) ixs) (kv_put (pk_bytes (schema t) row) row abs).
Proof.
  intros R Ro C Hh [Hw Hi] D. pose proof (rep_rows _ _ R) as Ra. split; cbn; try done.
  - apply R.
  - by apply rows_put.
  - eapply Forall_impl; [exact Hi|]. intros ix. apply index_holds_ext. intros k. split; intros (r & Hr & ->); exists r; (split; [|done]).
    + unfold stored. destruct Hr as [[[pk G] N] | ->].
      * exists pk. destruct (rows_fit _ _ Ra _ _ G) as [_ ->]. by rewrite kv_get_put, bool_decide_false.
      * exists (pk_bytes (schema t) row). by rewrite kv_get_put, bool_decide_true.
    + destruct Hr as [pk G]. rewrite kv_get_put in G. case_bool_decide as N; [right; congruence|]. left.
      destruct (rows_fit _ _ Ra _ _ G) as [_ ->]. by split; [eexists|].
  - apply no_clash_all in C. pose proof (rep_unique _ _ R) as U. pose proof (rep_handles _ _ R) as Hb.
    apply Forall_forall. intros ix Hin. apply (list_elem_of_fmap_2 def) in Hin. change (def <$> ixs) with (map def ixs) in Hin.
    rewrite D in Hin. apply (proj1 (Forall_forall _ _) C) in Hin as Hc. apply list_elem_of_fmap in Hin as (ix' & Ed & Hin). rewrite Ed in *.
    apply unique_put; [done|done|apply (proj1 (Forall_forall _ _) Hb _ Hin)|done|]. by apply (proj1 (Forall_forall _ _) U).
Qed.

Lemma rep_remove t abs pk e ixs :
  represents t abs -> heap_holds (schema t) e (kv_delete pk abs) ->
  indexes_hold (schema t) (fun r => stored abs r /\ pk_bytes (schema t) r <> pk) ixs ->
  map def ixs = map def (indexes t) -> represents (mkTable e (schema t) ixs) (kv_delete pk abs).
Proof.
  intros R Hh [Hw Hi] D. pose proof (rep_rows _ _ R) as Ra. split; cbn; try done.
  - apply R.
  - by apply rows_delete.
  - eapply Forall_impl; [exact Hi|]. intros ix. apply index_holds_ext. intros k. split; intros (r & Hr & ->); exists r; (split; [|done]).
    + destruct Hr as [[pk' G] N]. exists pk'. destruct (rows_fit _ _ Ra _ _ G) as [_ ->]. by rewrite kv_get_delete, bool_decide_false.
    + destruct Hr as [pk' G]. rewrite kv_get_delete in G. case_bool_decide as N; [done|].
      destruct (rows_fit _ _ Ra _ _ G) as [_ ->]. by split; [eexists|].
  - pose proof (rep_unique _ _ R) as U. apply Forall_forall. intros ix Hin. apply (list_elem_of_fmap_2 def) in Hin.
    change (def <$> ixs) with (map def ixs) in Hin. rewrite D in Hin. apply list_elem_of_fmap in Hin as (ix' & -> & Hin).
    apply unique_delete. by apply (proj1 (Forall_forall _ _) U).
Qed.

(** What a call leaves, given what its specification says. *)
Definition call_result (r : result unit * Table E I) t (spec : result rows) : Prop :=
  match spec with
  | Ok abs => exists t', r = (Ok tt, t') /\ represents t' abs /\ schema t' = schema t /\ map def (indexes t') = map def (indexes t)
  | Err e => r = (Err e, t)
  | Panic => False
  end.

Lemma no_clash_no_panic s defs abs row : no_clash s defs abs row <> Panic.
Proof. induction defs as [|d defs IH]; cbn; [done|]. by destruct (clashes _ _ _ _). Qed.

(** Entering the new row into the indexes ends a write. *)
Lemma finish_replace t abs row e ixs :
  represents t abs -> row_ok (column_types (schema t)) row ->
  no_clash (schema t) (map def (indexes t)) abs row = Ok tt ->
  heap_holds (schema t) e (kv_put (pk_bytes (schema t) row) row abs) ->
  indexes_hold (schema t) (fun r => stored abs r /\ pk_bytes (schema t) r <> pk_bytes (schema t) row) ixs ->
  map def ixs = map def (indexes t) ->
  call_result (put_index_entries row (mkTable e (schema t) ixs)) t (Ok (kv_put (pk_bytes (schema t) row) row abs)).
Proof.
  intros R Ro C He Hi D.
  destruct (run_put_entries (mkTable e (schema t) ixs) row _ (rep_schema _ _ R) Hi Ro) as (ixs' & -> & Hi' & D').
  cbn in *. eexists. split; [done|]. rewrite <- D, <- D'. split; [|done]. apply rep_replace; try done. congruence.
Qed.

Lemma insert_result t abs values :
  represents t abs -> Forall (fun v => storable v = true) values ->
  call_result (Table.insert values t) t (call_rows (schema t) (map def (indexes t)) (CInsert values) abs).
Proof.
  intros R F. pose proof (rep_schema _ _ R) as W. cbn. unfold Table.insert. rewrite (M_Ok _ _ _ (schema t) t) by done.
  pose proof (validate_no_panic (schema t) values W) as Np.
  destruct (validate_and_default (schema t) values) as [row|e|] eqn:V; [|by rewrite (M_Err _ _ _ e t)|done]. cbn [mbind outcome_bind].
  pose proof (validate_fits _ _ _ W F V) as Ro.
  rewrite (M_Ok _ _ _ row t), encode_pk_ok, (M_Ok _ _ _ (pk_bytes (schema t) row) t), (M_Ok _ _ _ tt t) by done.
  rewrite (M_Ok _ _ _ _ t (run_read_row t abs _ R)). destruct (kv_get (pk_bytes (schema t) row) abs) as [old|] eqn:G; [done|].
  pose proof (run_check_unique t abs row R Ro) as Cu. pose proof (no_clash_no_panic (schema t) (map def (indexes t)) abs row) as Nc.
  destruct (no_clash _ _ abs row) as [[]|e|] eqn:C; [|by rewrite (M_Err _ _ _ e t)|done].
  rewrite (M_Ok _ _ _ tt t) by done. cbn [mbind outcome_bind].
  destruct (heap_put (schema t) (engine t) abs (pk_bytes (schema t) row) row (rep_heap _ _ R)) as (e & Ep & He).
  rewrite (M_Ok _ _ _ tt (mkTable e (schema t) (indexes t))).
  2:{ apply run_write. unfold put_row. by rewrite (proj1 (row_encode _ _ Ro)). }
  destruct (run_drop_previous t t abs (pk_bytes (schema t) row) None R eq_refl eq_refl) as (ixs & Ed & Hi & D); [by left|].
  apply (f_equal (fun p => indexes p.2)) in Ed. cbn in Ed. subst ixs. by apply finish_replace.
Qed.

Lemma upsert_result t abs values :
  represents t abs -> Forall (fun v => storable v = true) values ->
  call_result (upsert values t) t (call_rows (schema t) (map def (indexes t)) (CUpsert values) abs).
Proof.
  intros R F. pose proof (rep_schema _ _ R) as W. cbn. unfold upsert. rewrite (M_Ok _ _ _ (schema t) t) by done.
  pose proof (validate_no_panic (schema t) values W) as Np.
  destruct (validate_and_default (schema t) values) as [row|e|] eqn:V; [|by rewrite (M_Err _ _ _ e t)|done]. cbn [mbind outcome_bind].
  pose proof (validate_fits _ _ _ W F V) as Ro.
  rewrite (M_Ok _ _ _ row t), encode_pk_ok, (M_Ok _ _ _ (pk_bytes (schema t) row) t), (M_Ok _ _ _ tt t) by done.
  pose proof (run_check_unique t abs row R Ro) as Cu. pose proof (no_clash_no_panic (schema t) (map def (indexes t)) abs row) as Nc.
  destruct (no_clash _ _ abs row) as [[]|e|] eqn:C; [|by rewrite (M_Err _ _ _ e t)|done].
  rewrite (M_Ok _ _ _ tt t) by done. cbn [mbind outcome_bind].
  destruct (run_previous_row t abs (pk_bytes (schema t) row) R) as (prev & Ep & Hp). rewrite (M_Ok _ _ _ _ _ Ep).
  destruct (run_drop_previous t t abs _ prev R eq_refl eq_refl Hp) as (ixs & Ed & Hi & D). rewrite (M_Ok _ _ _ _ _ Ed).
  destruct (heap_put (schema t) (engine t) abs (pk_bytes (schema t) row) row (rep_heap _ _ R)) as (e & Eh & He).
  rewrite (M_Ok _ _ _ tt (mkTable e (schema t) ixs)); [by apply finish_replace|].
  apply (run_write _ e (mkTable (engine t) (schema t) ixs)). unfold put_row. by rewrite (proj1 (row_encode _ _ Ro)).
Qed.

Lemma update_result t abs pk values :
  represents t abs -> call_ok (schema t) (CUpdate pk values) ->
  call_result (update_by_pk pk values t) t (call_rows (schema t) (map def (indexes t)) (CUpdate pk values) abs).
Proof.
  intros R (F & K & Hpk). pose proof (rep_schema _ _ R) as W. cbn. unfold update_by_pk. rewrite (M_Ok _ _ _ (schema t) t) by done.
  pose proof (validate_no_panic (schema t) values W) as Np.
  destruct (validate_and_default (schema t) values) as [row|e|] eqn:V; [|by rewrite (M_Err _ _ _ e t)|done]. cbn [mbind outcome_bind].
  pose proof (validate_fits _ _ _ W F V) as Ro. specialize (Hpk row eq_refl).
  rewrite (M_Ok _ _ _ row t), encode_pk_components_ok, (M_Ok _ _ _ (pk_key (schema t) pk) t), (M_Ok _ _ _ tt t), <- Hpk by done.
  destruct (run_previous_row t abs (pk_bytes (schema t) row) R) as (prev & Ep & Hp). rewrite (M_Ok _ _ _ _ _ Ep).
  pose proof (run_check_unique t abs row R Ro) as Cu. pose proof (no_clash_no_panic (schema t) (map def (indexes t)) abs row) as Nc.
  destruct (no_clash _ _ abs row) as [[]|e|] eqn:C; [|by rewrite (M_Err _ _ _ e t)|done].
  rewrite (M_Ok _ _ _ tt t) by done. cbn [mbind outcome_bind].
  assert (Eg : engine_get (engine t) (make_row_key (table_id (schema t)) (pk_bytes (schema t) row))
             = Ok (option_map (row_bytes (schema t)) (kv_get (pk_bytes (schema t) row) abs))).
  { by rewrite engine_get_spec, (heap_rows _ _ _ (rep_heap _ _ R)). }
  destruct (kv_get (pk_bytes (schema t) row) abs) as [old|] eqn:G.
  - destruct (heap_put (schema t) (engine t) abs (pk_bytes (schema t) row) row (rep_heap _ _ R)) as (e & Eh & He).
    rewrite (M_Ok _ _ _ tt (mkTable e (schema t) (indexes t))).
    2:{ apply run_write. unfold update_row. rewrite Eg. cbn. by rewrite (proj1 (row_encode _ _ Ro)). }
    rewrite <- G in Hp.
    destruct (run_drop_previous t (mkTable e (schema t) (indexes t)) abs _ prev R eq_refl eq_refl Hp) as (ixs & Ed & Hi & D).
    rewrite (M_Ok _ _ _ _ _ Ed). by apply finish_replace.
  - cbn. rewrite (M_Err _ _ _ (RowNotFound "id") t); [done|]. apply run_write_err. unfold update_row. by rewrite Eg.
Qed.

Lemma delete_result t abs pk :
  represents t abs -> call_ok (schema t) (CDelete pk) ->
  call_result (delete_by_pk pk t) t (call_rows (schema t) (map def (indexes t)) (CDelete pk) abs).
Proof.
  intros R K. pose proof (rep_schema _ _ R) as W. cbn [call_rows]. unfold delete_by_pk. rewrite (M_Ok _ _ _ (schema t) t) by done.
  rewrite encode_pk_components_ok, (M_Ok _ _ _ (pk_key (schema t) pk) t), (M_Ok _ _ _ tt t) by done.
  destruct (run_previous_row t abs (pk_key (schema t) pk) R) as (prev & Ep & Hp). rewrite (M_Ok _ _ _ _ _ Ep).
  destruct (heap_delete (schema t) (engine t) abs (pk_key (schema t) pk) (rep_heap _ _ R)) as (e & Eh & He).
  rewrite (M_Ok _ _ _ tt (mkTable e (schema t) (indexes t))) by by apply run_write.
  destruct (run_drop_previous t (mkTable e (schema t) (indexes t)) abs _ prev R eq_refl eq_refl Hp) as (ixs & -> & Hi & D).
  eexists. split; [done|]. split; [|done]. by apply rep_remove.
Qed.

Lemma update_columns_result t abs pk changes :
  represents t abs -> call_ok (schema t) (CUpdateColumns pk changes) ->
  call_result (update_columns pk changes t) t (call_rows (schema t) (map def (indexes t)) (CUpdateColumns pk changes) abs).
Proof.
  intros R (K & F). pose proof (rep_schema _ _ R) as W. cbn [call_rows]. unfold update_columns.
  rewrite (M_Ok _ _ _ (schema t) t) by done. pose proof (check_changes_no_panic _ _ F) as Np.
  destruct (check_changes (schema t) changes) as [[]|e|] eqn:V; [|by rewrite (M_Err _ _ _ e t)|done]. cbn [mbind outcome_bind].
  rewrite (M_Ok _ _ _ tt t), encode_pk_components_ok, (M_Ok _ _ _ (pk_key (schema t) pk) t), (M_Ok _ _ _ tt t) by done.
  destruct (run_previous_row t abs (pk_key (schema t) pk) R) as (prev & Ep & Hp). rewrite (M_Ok _ _ _ _ _ Ep).
  assert (Eg : engine_get (engine t) (make_row_key (table_id (schema t)) (pk_key (schema t) pk))
             = Ok (option_map (row_bytes (schema t)) (kv_get (pk_key (schema t) pk) abs))).
  { by rewrite engine_get_spec, (heap_rows _ _ _ (rep_heap _ _ R)). }
  destruct (kv_get (pk_key (schema t) pk) abs) as [old|] eqn:G.
  2:{ assert (prev = None) as -> by (by destruct Hp as [? | []]).
      rewrite (M_Ok _ _ _ None t), (M_Ok _ _ _ tt t) by done.
      apply M_Err, run_write_err. unfold update_row_columns. by rewrite Eg. }
  destruct (rows_fit _ _ (rep_rows _ _ R) _ _ G) as [Ro Epk].
  destruct (changed_ok _ _ _ W F V Ro) as (Ea & Em & Rc & Pc). set (row := changed changes old) in *.
  assert (Epk' : pk_key (schema t) pk = pk_bytes (schema t) row) by (rewrite Epk; unfold pk_bytes; by rewrite Pc).
  rewrite Epk' in *. pose proof (run_check_unique t abs row R Rc) as Cu.
  pose proof (no_clash_no_panic (schema t) (map def (indexes t)) abs row) as Nc.
  destruct (heap_put (schema t) (engine t) abs (pk_bytes (schema t) row) row (rep_heap _ _ R)) as (e & Eh & He).
  assert (Ew : write (fun e0 => update_row_columns (column_types (schema t)) (table_id (schema t)) e0 (pk_bytes (schema t) row) changes) t
             = (Ok tt, mkTable e (schema t) (indexes t))).
  { apply run_write. unfold update_row_columns. rewrite Eg. cbn. rewrite (proj2 (row_encode _ _ Ro)). cbn. rewrite Em. cbn.
    by rewrite (proj1 (row_encode _ _ Rc)). }
  destruct Hp as [-> | [En ->]].
  - rewrite Ea, (M_Ok _ _ _ (Some (old, row)) t) by done.
    destruct (no_clash _ _ abs row) as [[]|err|] eqn:C; [|by rewrite (M_Err _ _ _ err t)|done].
    rewrite (M_Ok _ _ _ tt t Cu), (M_Ok _ _ _ _ _ Ew). cbn [mbind outcome_bind].
    destruct (run_drop_previous t (mkTable e (schema t) (indexes t)) abs (pk_bytes (schema t) row) (Some old) R eq_refl eq_refl) as (ixs & Ed & Hi & D); [by left|].
    rewrite (M_Ok _ _ _ _ _ Ed). by apply finish_replace.
  - rewrite (M_Ok _ _ _ None t), (M_Ok _ _ _ tt t), (M_Ok _ _ _ _ _ Ew) by done. rewrite En in *. cbn.
    eexists. split; [done|]. rewrite En. split; [|done]. apply rep_replace; try done; rewrite ?En; by repeat split.
Qed.

(** Every call does to the rows what its specification says, whole or not at
    all: heap, indexes and uniqueness are kept, and a call that fails changes
    nothing. *)
Lemma run_call_result t abs c :
  represents t abs -> call_ok (schema t) c ->
  call_result (run_call c t) t (call_rows (schema t) (map def (indexes t)) c abs).
Proof.
  intros R C. destruct c; [by apply insert_result|by apply upsert_result|by apply update_result|
    by apply update_columns_result|by apply delete_result].
Qed.
End calls.

(** *** Reads *)

Definition heap_entry (s : Schema) (x : bytes * Row) : entry := (make_row_key (table_id s) x.1, row_bytes s x.2).

Lemma row_key_cmp tid a b : bcmp (make_row_key tid a) (make_row_key tid b) = bcmp a b.
Proof. apply bcmp_app_l. Qed.

Lemma heap_entries_sorted s l : keys_sorted l -> keys_sorted (map (heap_entry s) l).
Proof.
  intros S. induction S as [|x l S IH F]; cbn; [constructor|]. constructor; [done|]. apply Forall_map.
  eapply Forall_impl; [exact F|]. intros y. unfold blt. cbn. by rewrite row_key_cmp.
Qed.

Lemma heap_entries_get s l pk :
  kv_get (make_row_key (table_id s) pk) (map (heap_entry s) l) = option_map (row_bytes s) (kv_get pk l).
Proof.
  induction l as [|[k r] l IH]; cbn; [done|]. destruct (decide (pk = k)) as [-> | N].
  - by rewrite !bool_decide_true.
  - rewrite !bool_decide_false; [done|done|]. by rewrite row_key_inj.
Qed.

Lemma heap_entries_other s l k : (forall pk, k <> make_row_key (table_id s) pk) -> kv_get k (map (heap_entry s) l) = None.
Proof. intros N. induction l as [|[k' r] l IH]; cbn; [done|]. by rewrite bool_decide_false. Qed.

(** A table key: four bytes, then the primary key. *)
Lemma split_table_key k : 4 <= len k -> exists n pk, 0 <= n < 2 ^ 32 /\ k = make_row_key n pk.
Proof.
  intros L. exists (from_be_bytes (take 4 k)), (drop 4 k).
  assert (L4 : length (take 4 k) = 4%nat) by (rewrite length_take; unfold len in L; lia).
  pose proof (from_be_bytes_bound (take 4 k)) as B. unfold len in B. rewrite L4 in B. split; [exact B|].
  unfold make_row_key. by rewrite to_from_be_bytes, take_drop.
Qed.

Lemma table_range tid n pk :
  0 <= tid < 2 ^ 32 - 1 -> 0 <= n < 2 ^ 32 ->
  above (Included (make_row_key tid [])) (make_row_key n pk) && below (Excluded (make_row_key (tid + 1) [])) (make_row_key n pk)
  = (n =? tid).
Proof.
  intros T N. unfold above, below. apply Bool.eq_iff_eq_true. rewrite andb_true_iff, bleb_spec, bltb_spec, Z.eqb_eq.
  unfold ble, blt, make_row_key. rewrite !bcmp_app by (by rewrite !Mvcc.length_to_be_bytes).
  rewrite !bcmp_be by (cbn; lia). destruct (Z.compare_spec tid n), (Z.compare_spec n (tid + 1)); cbn; subst; try lia; try done.
  - by destruct pk.
  - split; [|lia]. intros [_ C]. by destruct pk.
  - split; [by intros []|lia].
  - split; [by intros []|lia].
Qed.

Lemma scan_entry_ok s x :
  row_ok (column_types s) x.2 -> scan_entry (column_types s) (Ok (heap_entry s x)) = Ok x.
Proof.
  destruct x as [pk row]. cbn [snd]. intros R. unfold scan_entry, heap_entry, make_row_key. cbn [mbind outcome_bind fst snd].
  rewrite slice_from_app by by rewrite len_to_be_bytes. cbn [mbind outcome_bind]. by rewrite (proj2 (row_encode s row R)).
Qed.

Lemma collect_rows_ok s l :
  Forall (fun x => row_ok (column_types s) x.2) l ->
  collect_rows (map (scan_entry (column_types s)) (map Ok (map (heap_entry s) l))) = Ok (map snd l).
Proof.
  intros F. unfold collect_rows. induction F as [|x l R F IH]; [done|]. cbn [map mapM]. rewrite scan_entry_ok by done.
  cbn [mbind outcome_bind]. rewrite IH. by destruct x.
Qed.

Lemma rows_all_fit s abs l :
  rows_ok s abs -> (forall x, x ∈ l -> x ∈ abs) -> Forall (fun x => row_ok (column_types s) x.2) l.
Proof.
  intros Ra Sub. apply Forall_forall. intros [pk row] Hin%Sub. apply (kv_In_get _ _ _ (rows_sorted _ _ Ra)) in Hin.
  by apply (rows_fit _ _ Ra) in Hin as [? _].
Qed.

Section reads.
Context {E I : Type} `{StorageEngine E} `{StorageEngine I}.
Implicit Types (s : Schema) (row : Row) (abs : rows) (t : Table E I) (ix : IndexHandle I) (e : E).

Lemma scan_heap s e abs lo hi lo' hi' :
  rows_ok s abs -> heap_holds s e abs ->
  (forall k, 4 <= len k -> above lo' k && below hi' k = true -> exists pk, k = make_row_key (table_id s) pk) ->
  (forall pk, above lo' (make_row_key (table_id s) pk) && below hi' (make_row_key (table_id s) pk) = above lo pk && below hi pk) ->
  kv_scan lo' hi' (entries e) = map (heap_entry s) (kv_scan lo hi abs).
Proof.
  intros Ra [K R] Out In. apply kv_ext.
  - apply keys_sorted_scan, entries_sorted.
  - apply heap_entries_sorted, keys_sorted_scan, Ra.
  - intros k. rewrite kv_get_scan. unfold in_range_get. destruct (kv_get k (entries e)) as [v|] eqn:G.
    + pose proof (proj1 (Forall_forall _ _) K _ (kv_get_In _ _ _ G)) as L. cbn in L.
      destruct (above lo' k && below hi' k) eqn:B.
      * destruct (Out k L B) as [pk ->]. rewrite heap_entries_get, kv_get_scan, <- G, R. unfold in_range_get. by rewrite <- In, B.
      * destruct (split_table_key k L) as (n & pk & Hn & ->). destruct (decide (make_row_key n pk = make_row_key (table_id s) pk)) as [Ek|Nk].
        -- rewrite Ek in B |- *. rewrite heap_entries_get, kv_get_scan. unfold in_range_get. by rewrite <- In, B.
        -- rewrite heap_entries_other; [done|]. intros pk' Ek. apply Nk. unfold make_row_key in *.
           apply app_inj_1 in Ek as [-> _]; [done|]. by rewrite !Mvcc.length_to_be_bytes.
    + split_if; destruct (kv_get k (map _ _)) as [v|] eqn:G'; try done; exfalso;
        apply kv_get_In, list_elem_of_fmap in G' as ([pk row] & [= -> ->] & Hin).
      all: apply (kv_In_get _ _ _ (keys_sorted_scan lo hi abs (rows_sorted _ _ Ra))) in Hin; rewrite kv_get_scan in Hin;
        unfold in_range_get in Hin; split_if; [|done]; by rewrite R, Hin in G.
Qed.

Lemma scan_subset {V} lo hi (l : list (bytes * V)) x : x ∈ kv_scan lo hi l -> x ∈ l.
Proof. unfold kv_scan. rewrite !list_elem_of_In. by intros [? _]%filter_In. Qed.

Lemma kv_scan_all {V} (l : list (bytes * V)) : kv_scan Unbounded Unbounded l = l.
Proof.
  induction l as [|x l IH]; [done|]. change (kv_scan Unbounded Unbounded (x :: l)) with (x :: kv_scan Unbounded Unbounded l).
  by rewrite IH.
Qed.

Lemma scan_ok t abs : represents t abs -> scan t = Ok (map snd abs).
Proof.
  intros R. pose proof (rep_schema _ _ R) as ((T1 & T2) & _). unfold scan, scan_table, next_table_id, checked.
  assert (Ef : in_u32 (table_id (schema t) + 1) = true) by fits. rewrite Ef. cbn [ok_or]. rewrite scan_range_spec.
  rewrite (scan_heap (schema t) (engine t) abs Unbounded Unbounded); [|apply R|apply R|..].
  - rewrite kv_scan_all. apply collect_rows_ok. by eapply rows_all_fit; [apply R|].
  - intros k (n & pk & Hn & ->)%split_table_key B. rewrite table_range in B by (done || lia). apply Z.eqb_eq in B as ->. by exists pk.
  - intros pk. by rewrite table_range, Z.eqb_refl by lia.
Qed.

Lemma get_by_pk_ok t abs pk :
  represents t abs -> key_tuple_ok pk (types_at (schema t) (primary_key (schema t))) ->
  get_by_pk t pk = Ok (kv_get (pk_key (schema t) pk) abs).
Proof.
  intros R K. unfold get_by_pk. rewrite encode_pk_components_ok by (done || apply R). cbn. by apply get_row_ok; apply R.
Qed.

Lemma scan_range_ok t abs a b :
  represents t abs -> key_tuple_ok a (types_at (schema t) (primary_key (schema t))) ->
  key_tuple_ok b (types_at (schema t) (primary_key (schema t))) ->
  table_scan_range t a b = Ok (map snd (kv_scan (Included (pk_key (schema t) a)) (Excluded (pk_key (schema t) b)) abs)).
Proof.
  intros R Ka Kb. unfold table_scan_range. rewrite !encode_pk_components_ok by (done || apply R). cbn [mbind outcome_bind].
  unfold layout_scan_range. rewrite scan_range_spec.
  rewrite (scan_heap (schema t) (engine t) abs (Included (pk_key (schema t) a)) (Excluded (pk_key (schema t) b))); [|apply R|apply R|..].
  - apply collect_rows_ok. eapply rows_all_fit; [apply R|]. apply scan_subset.
  - intros k _. cbn. rewrite andb_true_iff, bleb_spec, bltb_spec. intros [B1 B2]. unfold make_row_key in *.
    destruct (squeezed_prefix _ _ _ _ B1 B2) as [z ->]. by exists z.
  - intros pk. cbn. unfold bleb, bltb, ble, blt. f_equal; apply bool_decide_ext; by rewrite row_key_cmp.
Qed.

(** *** Index scans *)

Definition index_entry s (ix : IndexHandle I) row : entry := (index_bytes s ix row, []).

Lemma entries_are_rows s ix abs es :
  Forall (fun x => exists r, stored abs r /\ x = index_entry s ix r) es ->
  exists L, es = map (index_entry s ix) L /\ Forall (stored abs) L.
Proof.
  intros F. induction F as [|x es (r & Sr & ->) F (L & -> & FL)]; [by exists []|]. exists (r :: L). by split; [|constructor].
Qed.

Lemma stored_fits t abs row :
  represents t abs -> stored abs row ->
  row_ok (column_types (schema t)) row /\ kv_get (pk_bytes (schema t) row) abs = Some row.
Proof. intros R [pk G]. by destruct (rows_fit _ _ (rep_rows _ _ R) _ _ G) as [? ->]. Qed.

Lemma deref_ok t abs ix L :
  represents t abs -> handle_wf (schema t) ix -> Forall (stored abs) L ->
  deref_entries t (key_types ix) (length (index_columns (def ix))) (map Ok (map (index_entry (schema t) ix) L)) = Ok L.
Proof.
  intros R Hx F. pose proof (rep_schema _ _ R) as W. pose proof W as (_ & _ & P & _).
  induction F as [|row L Sr F IH]; [done|]. destruct (stored_fits t abs row R Sr) as [Ro G].
  cbn -[decode_key_components get_by_pk deref_entries]. cbn [deref_entries index_entry mbind outcome_bind].
  destruct (decode_encode_key _ _ (index_key_ok (schema t) ix row W Hx Ro)) as (b & Eb & Db).
  rewrite encode_key_ok in Eb by by apply index_key_ok. injection Eb as <-. unfold index_bytes. rewrite Db. cbn [mbind outcome_bind].
  rewrite pick_app, drop_app_length' by by rewrite length_pick.
  rewrite (get_by_pk_ok t abs) by (done || by apply pick_key_ok). cbn [mbind outcome_bind]. rewrite IH.
  change (pk_key (schema t) (pick (primary_key (schema t)) row)) with (pk_bytes (schema t) row). by rewrite G.
Qed.

(** The leading columns of a row in an index. *)
Definition leads (ix : IndexHandle I) (prefix : list Value) row : bool :=
  same_key prefix (pick (take (length prefix) (index_columns (def ix))) row).

Lemma prefix_of_leading s ix prefix row :
  schema_wf s -> handle_wf s ix -> row_ok (column_types s) row ->
  key_tuple_ok prefix (types_at s (take (length prefix) (index_columns (def ix)))) ->
  key_bytes prefix (types_at s (take (length prefix) (index_columns (def ix)))) `prefix_of` index_bytes s ix row
  <-> leads ix prefix row = true.
Proof.
  intros W Hx R K. unfold index_bytes, leads, same_key. rewrite (proj2 Hx).
  set (n := length prefix). rewrite <- (take_drop n (index_columns (def ix))) at 2 3. rewrite <- app_assoc, pick_app, types_at_app.
  rewrite key_bytes_app by by rewrite length_pick, length_types_at.
  assert (C : in_columns s (take n (index_columns (def ix)))) by (apply Forall_take, Hx).
  rewrite key_prefix_iff by (done || by apply pick_key_ok). by destruct (tuple_cmp _ _).
Qed.

Lemma leading_prefix s ix (prefix : list Value) :
  handle_wf s ix -> (length prefix <= length (index_columns (def ix)))%nat ->
  leading (length prefix) (key_types ix) = Ok (types_at s (take (length prefix) (index_columns (def ix)))).
Proof.
  intros [_ K] L. unfold leading. rewrite K, types_at_app, length_app, length_types_at.
  destruct (Nat.ltb_spec (length (index_columns (def ix)) + length (types_at s (primary_key s))) (length prefix)); [lia|].
  rewrite take_app_le by (rewrite length_types_at; lia). unfold types_at. by rewrite <- firstn_map.
Qed.

Lemma index_order s ix L :
  schema_wf s -> handle_wf s ix -> Forall (fun r => row_ok (column_types s) r) L ->
  keys_sorted (map (index_entry s ix) L) ->
  StronglySorted (fun a b => tuple_cmp (pick (index_columns (def ix) ++ primary_key s) a)
                                       (pick (index_columns (def ix) ++ primary_key s) b) = Lt) L.
Proof.
  intros W Hx F. induction F as [|r L R F IH]; [constructor|]. intros S. inversion S as [|? ? S' Lt]; subst. constructor; [by apply IH|].
  apply Forall_forall. intros b Hb.
  pose proof (proj1 (Forall_forall _ _) Lt _ (list_elem_of_fmap_2 (index_entry s ix) _ _ Hb)) as B.
  pose proof (proj1 (Forall_forall _ _) F b Hb) as Rb. unfold blt, index_entry, index_bytes in B. cbn in B.
  pose proof (key_bytes_ordered _ _ (key_types ix) [] [] (index_key_ok s ix r W Hx R) (index_key_ok s ix b W Hx Rb)) as O.
  rewrite !app_nil_r, then_cmp_Eq_r in O. by rewrite <- O.
Qed.

Lemma rows_nodup s abs : rows_ok s abs -> NoDup (map snd abs).
Proof.
  intros [S F]. induction S as [|[pk row] abs S IH Lt]; [constructor|]. cbn. constructor.
  - intros ([pk' row'] & Er & Hin)%list_elem_of_fmap. cbn in Er. subst row'.
    pose proof (kv_In_get _ _ _ S Hin) as G. pose proof (proj1 (Forall_forall _ _) Lt _ Hin) as B. cbn in B.
    destruct (F pk row) as [_ Ep]; [cbn; by rewrite bool_decide_true|].
    destruct (F pk' row) as [_ Ep']. { cbn. rewrite bool_decide_false; [done|]. intros ->. by apply blt_irrefl in B. }
    subst. by apply blt_irrefl in B.
  - apply IH. intros pk' row' G. apply F. cbn. rewrite bool_decide_false; [done|]. intros ->.
    apply kv_get_In in G. pose proof (proj1 (Forall_forall _ _) Lt _ G) as B. by apply blt_irrefl in B.
Qed.

Lemma stored_in s abs row : rows_ok s abs -> stored abs row <-> row ∈ map snd abs.
Proof.
  intros Ra. split.
  - intros [pk G%kv_get_In]. by apply (list_elem_of_fmap_2 snd) in G.
  - intros ([pk r] & -> & Hin)%list_elem_of_fmap. exists pk. apply kv_In_get; [apply Ra|done].
Qed.

(** The rows behind the entries of a prefix scan. *)
Lemma prefix_rows t abs ix p L :
  represents t abs -> ix ∈ indexes t ->
  kv_scan (Included p) (prefix_end p) (entries (ix_engine ix)) = map (index_entry (schema t) ix) L -> Forall (stored abs) L ->
  forall r, r ∈ L <-> stored abs r /\ p `prefix_of` index_bytes (schema t) ix r.
Proof.
  intros R Hin EL FL r. pose proof (proj1 (Forall_forall _ _) (rep_indexes _ _ R) _ Hin) as Hi. split.
  - intros Hr. split; [by apply (proj1 (Forall_forall _ _) FL)|]. apply (list_elem_of_fmap_2 (index_entry (schema t) ix)) in Hr.
    change (index_entry (schema t) ix <$> L) with (map (index_entry (schema t) ix) L) in Hr. rewrite <- EL in Hr.
    by apply prefix_entries in Hr as [_ ?].
  - intros [[pk G] Hp]. assert (He : index_entry (schema t) ix r ∈ map (index_entry (schema t) ix) L).
    { rewrite <- EL. apply prefix_entries. split; [|done]. apply (entry_is_row (schema t) abs); [done|]. by eauto. }
    apply list_elem_of_fmap in He as (r' & Er & Hr'). injection Er as Er.
    destruct (stored_fits t abs r R ltac:(by exists pk)) as [R1 G1].
    destruct (stored_fits t abs r' R (proj1 (Forall_forall _ _) FL _ Hr')) as [R2 G2].
    apply index_bytes_pk in Er; [congruence|apply R| |done|done]. by apply (proj1 (Forall_forall _ _) (rep_handles _ _ R)).
Qed.

Lemma elem_of_filter_bool {A} (f : A -> bool) (l : list A) x : x ∈ List.filter f l <-> x ∈ l /\ f x = true.
Proof. by rewrite !list_elem_of_In, filter_In. Qed.

Lemma sorted_nodup {V} (l : list (bytes * V)) : keys_sorted l -> NoDup l.
Proof.
  intros S. induction S as [|x l S IH F]; constructor; [|done]. intros Hx. apply (proj1 (Forall_forall _ _) F) in Hx.
  by apply blt_irrefl in Hx.
Qed.

Lemma index_scan_ok t abs ix prefix :
  represents t abs -> ix ∈ indexes t -> (length prefix <= length (index_columns (def ix)))%nat ->
  key_tuple_ok prefix (types_at (schema t) (take (length prefix) (index_columns (def ix)))) ->
  exists L, index_scan t ix prefix = Ok L /\ L ≡ₚ List.filter (leads ix prefix) (map snd abs) /\
    StronglySorted (fun a b => tuple_cmp (pick (index_columns (def ix) ++ primary_key (schema t)) a)
                                         (pick (index_columns (def ix) ++ primary_key (schema t)) b) = Lt) L.
Proof.
  intros R Hin Le K. pose proof (rep_schema _ _ R) as W. pose proof (rep_rows _ _ R) as Ra.
  pose proof (proj1 (Forall_forall _ _) (rep_handles _ _ R) _ Hin) as Hx.
  pose proof (proj1 (Forall_forall _ _) (rep_indexes _ _ R) _ Hin) as Hi.
  unfold index_scan. destruct (Nat.ltb_spec (length (index_columns (def ix))) (length prefix)); [lia|].
  rewrite (leading_prefix (schema t)) by done. cbn [mbind outcome_bind]. rewrite encode_key_ok by done. cbn [mbind outcome_bind].
  set (p := key_bytes _ _). rewrite scan_range_spec.
  destruct (entries_are_rows (schema t) ix abs (kv_scan (Included p) (prefix_end p) (entries (ix_engine ix)))) as (L & EL & FL).
  { apply Forall_forall. intros [k v] [Hk _]%prefix_entries. apply (entry_is_row (schema t) abs ix k v Hi) in Hk as [-> (pk & r & G & ->)].
    exists r. by split; [exists pk|]. }
  rewrite EL. exists L. split; [by apply (deref_ok t abs)|].
  assert (Fo : Forall (fun r => row_ok (column_types (schema t)) r) L).
  { eapply Forall_impl; [exact FL|]. intros r Sr. by apply (stored_fits t abs). }
  assert (SL : keys_sorted (map (index_entry (schema t) ix) L)) by (rewrite <- EL; apply keys_sorted_scan, entries_sorted).
  pose proof (index_order _ _ _ W Hx Fo SL) as Ord. split; [|done]. apply NoDup_Permutation.
  - by apply (NoDup_fmap_1 (index_entry (schema t) ix)), sorted_nodup.
  - apply NoDup_ListNoDup, List.NoDup_filter, NoDup_ListNoDup. by eapply rows_nodup.
  - intros r. rewrite elem_of_filter_bool, <- (stored_in (schema t)) by done.
    pose proof (prefix_rows t abs ix p L R Hin EL FL r) as Hr.
    rewrite Hr. split; intros [Sr Hp]; (split; [done|]); apply (prefix_of_leading (schema t) ix prefix r); try done;
      by apply (stored_fits t abs).
Qed.
End reads.

Lemma NoDup_map_inj {A B} (f : A -> B) (l : list A) x y : NoDup (map f l) -> x ∈ l -> y ∈ l -> f x = f y -> x = y.
Proof.
  intros ND Hx Hy Ef. apply list_elem_of_lookup in Hx as [i Hi], Hy as [j Hj].
  enough (i = j) by congruence. eapply (NoDup_lookup _ i j (f x) ND); rewrite list_lookup_fmap.
  - by rewrite Hi.
  - by rewrite Hj, Ef.
Qed.

Lemma NoDup_map_of_inj {A B} (f : A -> B) (l : list A) :
  NoDup l -> (forall x y, x ∈ l -> y ∈ l -> f x = f y -> x = y) -> NoDup (map f l).
Proof.
  intros ND. induction ND as [|x l Hx ND IH]; intros Inj; cbn; constructor.
  - intros (y & Ey & Hy)%list_elem_of_fmap. apply Hx. rewrite (Inj x y); [done|by left|by right|done].
  - apply IH. intros a b Ha Hb. apply Inj; by right.
Qed.

(** *** Creating an index *)

Section create_index.
Context {E I : Type} `{StorageEngine E} `{StorageEngine I}.
Implicit Types (s : Schema) (row : Row) (abs : rows) (t : Table E I) (ix : IndexHandle I).

Lemma backfill_rows_ok t L P n :
  schema_wf (schema t) -> indexes_hold (schema t) P (indexes t) -> Forall (fun r => row_ok (column_types (schema t)) r) L ->
  0 <= n -> n + len L < 2 ^ 64 ->
  exists ixs, backfill_rows L n t = (Ok (n + len L), mkTable (engine t) (schema t) ixs) /\
    indexes_hold (schema t) (fun r => P r \/ r ∈ L) ixs /\ map def ixs = map def (indexes t).
Proof.
  intros W Hi F. revert t P n W Hi F. induction L as [|row L IH]; intros t P n W Hi F Hn Hl.
  - exists (indexes t). rewrite len_nil, Z.add_0_r. split_and!; [by destruct t| |done]. destruct Hi as [Hh Hi]. split; [done|].
    eapply Forall_impl; [exact Hi|]. intros ix. apply index_holds_ext. intros k. split; intros (r & Hr & ->); exists r; (split; [|done]).
    + by left.
    + destruct Hr as [? | Hr]; [done|]. by apply elem_of_nil in Hr.
  - apply Forall_cons in F as [R F]. rewrite len_cons in Hl |- *. pose proof (len_nonneg L).
    destruct (run_put_entries t row P W Hi R) as (ixs1 & E1 & Hi1 & D1). cbn [backfill_rows]. rewrite (M_Ok _ _ _ _ _ E1).
    rewrite (M_Ok _ _ _ (n + 1) (mkTable (engine t) (schema t) ixs1)).
    2:{ unfold pure, arith. assert (Ef : in_u64 (n + 1) = true) by fits. by rewrite Ef. }
    destruct (IH (mkTable (engine t) (schema t) ixs1) _ (n + 1) W Hi1 F) as (ixs & E2 & [Hh Hi2] & D2); [lia|lia|].
    exists ixs. cbn [engine schema indexes] in *. rewrite Z.add_assoc. split_and!; [done| |congruence]. split; [done|].
    eapply Forall_impl; [exact Hi2|]. intros ix. apply index_holds_ext. intros k.
    split; intros (r & Hr & ->); exists r; (split; [|done]); rewrite elem_of_cons in *; naive_solver.
Qed.

Lemma unique_feasible_ok s d name L seen :
  schema_wf s -> in_columns s (index_columns d) -> Forall (fun r => row_ok (column_types s) r) L ->
  let key r := key_bytes (pick (index_columns d) r) (types_at s (index_columns d)) in
  let proper := List.filter (fun r => negb (existsb is_null (pick (index_columns d) r))) L in
  unique_feasible_loop (index_columns d) (types_at s (index_columns d)) name L seen
  = if bool_decide (NoDup (map key proper) /\ Forall (fun k => k ∉ seen) (map key proper)) then Ok tt else Err (UniqueViolation name).
Proof.
  intros W C F key proper. revert seen. subst proper. induction F as [|r L R F IH]; intros seen.
  { rewrite bool_decide_true; [done|]. split; constructor. }
  cbn [unique_feasible_loop]. rewrite pick_columns_ok by by eapply in_columns_row. cbn [mbind outcome_bind List.filter].
  destruct (existsb is_null _) eqn:N; cbn [negb]; [by apply IH|].
  rewrite encode_key_ok by by apply pick_key_ok. cbn [mbind outcome_bind map]. fold (key r).
  case_bool_decide as Hs.
  - rewrite bool_decide_false; [done|]. intros [_ F']. by apply Forall_cons in F' as [? _].
  - rewrite IH. erewrite bool_decide_ext; [done|]. rewrite NoDup_cons, !Forall_cons, !Forall_forall. setoid_rewrite not_elem_of_cons.
    split; [|naive_solver]. intros [ND F']. split_and!; [|done|done|naive_solver]. intros Hr. by destruct (F' _ Hr).
Qed.

Lemma unique_feasible_iff s abs d :
  rows_ok s abs -> in_columns s (index_columns d) -> unique d = true ->
  NoDup (map (fun r => key_bytes (pick (index_columns d) r) (types_at s (index_columns d)))
    (List.filter (fun r => negb (existsb is_null (pick (index_columns d) r))) (map snd abs)))
  <-> unique_ok s abs d.
Proof.
  intros Ra C U. split.
  - intros ND _ pk r pk' r' G G' N T. pose proof (rows_fit _ _ Ra _ _ G) as [R ->]. pose proof (rows_fit _ _ Ra _ _ G') as [R' ->].
    f_equal. eapply (NoDup_map_inj _ _ _ _ ND); cbn.
    + apply elem_of_filter_bool. rewrite N. split; [|done]. apply (stored_in s); [done|]. by eexists.
    + apply elem_of_filter_bool. rewrite <- (tuple_cmp_nulls _ _ T), N. split; [|done]. apply (stored_in s); [done|]. by eexists.
    + apply key_bytes_eq; [by apply pick_key_ok..|done].
  - intros Hu. apply NoDup_map_of_inj.
    + apply NoDup_ListNoDup, List.NoDup_filter, NoDup_ListNoDup. by eapply rows_nodup.
    + intros r r' [Hr N]%elem_of_filter_bool [Hr' N']%elem_of_filter_bool Ek. apply negb_true_iff in N.
      apply (stored_in s) in Hr as [pk G], Hr' as [pk' G']; [|done..].
      pose proof (rows_fit _ _ Ra _ _ G) as [R _]. pose proof (rows_fit _ _ Ra _ _ G') as [R' _].
      apply key_bytes_eq in Ek; [|by apply pick_key_ok..]. pose proof (Hu U _ _ _ _ G G' N Ek). congruence.
Qed.
End create_index.

(** ** Theorems *)

Section theorems.
Context {E I : Type} `{StorageEngine E} `{StorageEngine I}.

(** A program of calls, each answered in turn; and what it does to the rows. *)
Fixpoint run_calls (cs : list Call) (t : Table E I) : list (result unit) * Table E I :=
  match cs with
  | [] => ([], t)
  | c :: rest => let '(r, t1) := run_call c t in let '(rs, t2) := run_calls rest t1 in (r :: rs, t2)
  end.

Fixpoint calls_rows (s : Schema) (defs : list IndexDef) (cs : list Call) (abs : rows) : list (result unit) * rows :=
  match cs with
  | [] => ([], abs)
  | c :: rest =>
      match call_rows s defs c abs with
      | Ok abs1 => let '(rs, abs2) := calls_rows s defs rest abs1 in (Ok tt :: rs, abs2)
      | Err e => let '(rs, abs2) := calls_rows s defs rest abs in (Err e :: rs, abs2)
      | Panic => ([Panic], abs)
      end
  end.

Lemma run_calls_ok cs t abs :
  represents t abs -> Forall (call_ok (schema t)) cs ->
  exists t', run_calls cs t = ((calls_rows (schema t) (map def (indexes t)) cs abs).1, t') /\
    represents t' (calls_rows (schema t) (map def (indexes t)) cs abs).2 /\ schema t' = schema t.
Proof.
  intros R F. revert t abs R F; induction cs as [|c cs IH]; intros t abs R F; [by exists t|].
  apply Forall_cons in F as [C F]. pose proof (run_call_result t abs c R C) as Res. cbn.
  destruct (call_rows _ _ c abs) as [abs1|e|]; cbn in Res; [|rewrite Res|done].
  - destruct Res as (t1 & -> & R1 & S1 & D1). destruct (IH t1 abs1 R1) as (t' & Er & Rr & Sr); [by rewrite S1|].
    rewrite S1, D1 in *. rewrite Er. destruct (calls_rows _ _ cs abs1). exists t'. split; [done|]. by rewrite Sr.
  - destruct (IH t abs R F) as (t' & Er & Rr & Sr). rewrite Er. destruct (calls_rows _ _ cs abs). by exists t'.
Qed.

(** C18. A table with secondary indexes is a map from primary keys to rows: any
    program of inserts, upserts, updates and deletes that keeps to [call_ok] -
    storable values (no NUL byte in a CHAR), typed keys,
    and no update that moves a row to another primary key - gets the answers the map gives, constraint violations,
    duplicate keys and unique-index conflicts included; afterwards point reads
    and scans return what is in the map, scans in primary-key order, and a call
    that failed has left everything as it was. *)
Theorem table_refines_map (t : Table E I) abs cs :
  represents t abs -> Forall (call_ok (schema t)) cs ->
  exists t' abs', run_calls cs t = ((calls_rows (schema t) (map def (indexes t)) cs abs).1, t') /\
    abs' = (calls_rows (schema t) (map def (indexes t)) cs abs).2 /\ represents t' abs' /\
    scan t' = Ok (map snd abs') /\
    (forall pk, key_tuple_ok pk (types_at (schema t) (primary_key (schema t))) ->
       get_by_pk t' pk = Ok (kv_get (pk_key (schema t) pk) abs')) /\
    (forall a b, key_tuple_ok a (types_at (schema t) (primary_key (schema t))) ->
       key_tuple_ok b (types_at (schema t) (primary_key (schema t))) ->
       table_scan_range t' a b
       = Ok (map snd (kv_scan (Included (pk_key (schema t) a)) (Excluded (pk_key (schema t) b)) abs'))).
Proof.
  intros R F. destruct (run_calls_ok cs t abs R F) as (t' & Er & Rr & Sr). exists t', (calls_rows (schema t) (map def (indexes t)) cs abs).2.
  split_and!; [done|done|done|by apply scan_ok|..].
  - intros pk. pose proof (get_by_pk_ok t' _ pk Rr) as G. by rewrite Sr in G.
  - intros a b. pose proof (scan_range_ok t' _ a b Rr) as G. by rewrite Sr in G.
Qed.

(** C21. An index scan returns exactly the rows whose leading indexed columns
    equal the given values, each once, in the order of the index. *)
Theorem index_scan_exact (t : Table E I) abs ix prefix :
  represents t abs -> ix ∈ indexes t -> (length prefix <= length (index_columns (def ix)))%nat ->
  key_tuple_ok prefix (types_at (schema t) (take (length prefix) (index_columns (def ix)))) ->
  exists L, index_scan t ix prefix = Ok L /\ L ≡ₚ List.filter (leads ix prefix) (map snd abs) /\
    StronglySorted (fun a b => tuple_cmp (pick (index_columns (def ix) ++ primary_key (schema t)) a)
                                         (pick (index_columns (def ix) ++ primary_key (schema t)) b) = Lt) L.
Proof. apply index_scan_ok. Qed.

(** C24. Creating an index: the check for a unique index passes exactly when no
    two rows agree on its columns, NULLs aside, and filling the empty index
    from the table then gives an index that holds every row. *)
Theorem create_index_correct (e : E) s abs (ix : IndexHandle I) :
  represents (mkTable e s ([] : list (IndexHandle I))) abs -> handle_wf s ix -> entries (ix_engine ix) = [] -> len abs < 2 ^ 64 ->
  (unique (def ix) = true ->
     assert_unique_feasible (mkTable e s ([] : list (IndexHandle I))) (index_columns (def ix)) (index_name (def ix)) = Ok tt
     <-> unique_ok s abs (def ix)) /\
  (unique_ok s abs (def ix) ->
     exists t', backfill_indexes (mkTable e s [ix]) = (Ok (len abs), t') /\ represents t' abs /\ map def (indexes t') = [def ix]).
Proof.
  intros R Hx He Hl. pose proof (rep_rows _ _ R) as Ra. pose proof (rep_schema _ _ R) as W. cbn in Ra, W.
  assert (Fo : Forall (fun r => row_ok (column_types s) r) (map snd abs)).
  { apply Forall_map. eapply rows_all_fit; [exact Ra|done]. }
  split.
  - intros U. unfold assert_unique_feasible. rewrite (scan_ok _ abs R). cbn [schema].
    assert (Et : mapM (fun i => c ← at_index (columns s) i; Ok (ty c)) (index_columns (def ix)) = Ok (types_at s (index_columns (def ix)))).
    { apply mapM_Ok. eapply Forall_impl; [exact (proj1 Hx)|]. intros i Hi. cbn.
      unfold column_types, at_index. rewrite list_lookup_fmap. by destruct (lookup_lt_is_Some_2 _ _ Hi) as [c ->]. }
    rewrite Et. cbn [mbind outcome_bind]. rewrite (unique_feasible_ok s (def ix)) by (done || apply Hx).
    rewrite <- (unique_feasible_iff s abs (def ix)) by (done || apply Hx). case_bool_decide as B; [by destruct B|].
    split; [done|]. intros ND. exfalso. apply B. split; [done|]. apply Forall_forall. intros k _. apply not_elem_of_nil.
  - intros U. unfold backfill_indexes. rewrite (M_Ok _ _ _ (mkTable e s [ix]) (mkTable e s [ix])) by done.
    assert (Es : scan (mkTable e s [ix]) = Ok (map snd abs)) by exact (scan_ok _ abs R). rewrite Es.
    rewrite (M_Ok _ _ _ (map snd abs) (mkTable e s [ix])) by done.
    destruct (backfill_rows_ok (mkTable e s [ix]) (map snd abs) (fun _ => False) 0) as (ixs & Eb & [Hh Hi] & D); try done.
    { split; [by constructor|]. constructor; [|done]. intros k v. rewrite He. split; [done|]. by intros [_ (r & [] & _)]. }
    { unfold len in *. rewrite length_map. lia. }
    rewrite Eb. cbn in *. eexists. split; [by unfold len; rewrite length_map|]. split; [|done]. split; cbn; try done; try apply R.
    + eapply Forall_impl; [exact Hi|]. intros ix'. apply index_holds_ext. intros k.
      split; intros (r & Hr & ->); exists r; (split; [|done]); rewrite (stored_in s) in * by done; naive_solver.
    + destruct ixs as [|ix' [|]]; try done. injection D as D. constructor; [by rewrite D|done].
Qed.
End theorems.

(** *** A table of users: an integer key, a unique VARCHAR and a CHAR that may
    be NULL, both indexed. *)

Definition users : Schema := mkSchema "users" 7
  [mkCol "id" TInt32 false None; mkCol "name" (TVarchar 8) false None; mkCol "town" (TChar 2) true None] [0%nat].
Definition by_name : IndexDef := mkIndexDef "by_name" 7 [1%nat] true BTree.
Definition by_town : IndexDef := mkIndexDef "by_town" 7 [2%nat] false Lsm.
Definition users_table : Table Reference Reference := mkTable empty_engine users
  [mkIndex by_name empty_engine [TVarchar 8; TInt32]; mkIndex by_town empty_engine [TChar 2; TInt32]].

Definition str (l : list Z) : bytes := map byte.of_Z l.
Definition ann : Row := [VInt32 1; VVarchar (str [97]); VChar (str [120])].
Definition bob : Row := [VInt32 2; VVarchar (str [98]); VNull].

Lemma users_wf : schema_wf users.
Proof. split_and!; cbn; [lia|lia|by repeat constructor|repeat constructor; cbn; lia|]. repeat constructor; by intros ? [=]. Qed.

Lemma users_empty : represents users_table [].
Proof.
  split.
  - apply users_wf.
  - split; [constructor|done].
  - split; [constructor|done].
  - repeat constructor; cbn; lia.
  - repeat constructor; try done; intros [_ (r & [pk G] & _)]; done.
  - repeat constructor; done.
Qed.

Definition users_calls : list Call :=
  [CInsert ann; CInsert bob; CInsert ann; CUpsert [VInt32 3; VVarchar (str [97]); VNull];
   CUpdateColumns [VInt32 2] [(2%nat, VChar (str [121]))]; CDelete [VInt32 1]].

Lemma users_calls_ok : Forall (call_ok users) users_calls.
Proof.
  repeat constructor; cbn; try lia. intros Hin%list_elem_of_singleton. done.
Qed.

Lemma table_refines_map_witness :
  (exists t, (run_calls users_calls users_table) = ([Ok tt; Ok tt; Err (DuplicateKey "users"); Err (UniqueViolation "by_name"); Ok tt; Ok tt], t)
     /\ scan t = Ok [[VInt32 2; VVarchar (str [98]); VChar (str [121])]]).
Proof.
  destruct (table_refines_map users_table [] users_calls users_empty users_calls_ok) as (t & abs & Er & -> & _ & Es & _).
  exists t. rewrite Er, Es. split; vm_compute; reflexivity.
Defined.

Definition users_filled : Table Reference Reference := (run_calls [CInsert ann; CInsert bob] users_table).2.
Definition users_rows : rows := [(pk_bytes users ann, ann); (pk_bytes users bob, bob)].

Lemma users_filled_ok : represents users_filled users_rows.
Proof.
  destruct (run_calls_ok [CInsert ann; CInsert bob] users_table [] users_empty) as (t & Er & R & _); [by repeat constructor|].
  unfold users_filled. rewrite Er. revert R. assert (Ec : (calls_rows users (map def (indexes users_table)) [CInsert ann; CInsert bob] []).2 = users_rows)
    by (vm_compute; reflexivity).
  cbn [snd]. change (schema users_table) with users. by rewrite Ec.
Qed.

Lemma index_scan_exact_witness :
  match indexes users_filled with
  | _ :: ix :: _ => index_scan users_filled ix [VChar (str [120])] = Ok [ann] /\ List.filter (leads ix [VChar (str [120])]) (map snd users_rows) = [ann]
  | _ => False
  end.
Proof.
  pose proof (fun ix prefix => index_scan_exact users_filled users_rows ix prefix users_filled_ok) as X.
  destruct (indexes users_filled) as [|ix0 [|ix rest]] eqn:Ei; [discriminate Ei..|].
  assert (Ed : def ix = by_town) by (apply (f_equal (map def)) in Ei; by injection Ei as _ ?).
  destruct (X ix [VChar (str [120])]) as (L & EL & P & _); [by right; left|by rewrite Ed; cbn; lia|by rewrite Ed; repeat constructor|].
  assert (Ef : List.filter (leads ix [VChar (str [120])]) (map snd users_rows) = [ann]) by (unfold leads; rewrite Ed; reflexivity).
  rewrite Ef in P. apply Permutation_singleton_r in P as ->. by split.
Defined.

Lemma create_index_correct_witness :
  exists t', backfill_indexes (mkTable empty_engine users [mkIndex by_name empty_engine [TVarchar 8; TInt32]]) = (Ok 0, t') /\
    represents t' ([] : rows).
Proof.
  destruct (create_index_correct (empty_engine : Reference) users [] (mkIndex by_name empty_engine [TVarchar 8; TInt32])) as [_ B].
  - split; [apply users_wf|split; [constructor|done]|split; [constructor|done]|constructor..].
  - repeat constructor; cbn; lia.
  - done.
  - reflexivity.
  - destruct B as (t' & Eb & R & _); [done|]. by exists t'.
Defined.

(** *** What callers have to avoid *)

(** Two users, indexed by town. *)
Definition two_users : Table Reference Reference :=
  (run_calls [CInsert ann; CInsert bob] (mkTable empty_engine users [mkIndex by_town empty_engine [TChar 2; TInt32]])).2.

(** Setting a primary-key column moves no row: the row stays under its old key
    with the new values, reads by the new key miss it, and its index entries
    point to nothing. *)
Lemma update_columns_strands_row :
  let '(r, t) := update_columns [VInt32 1] [(0%nat, VInt32 5)] two_users in
  r = Ok tt /\ get_by_pk t [VInt32 5] = Ok None /\
  get_by_pk t [VInt32 1] = Ok (Some [VInt32 5; VVarchar (str [97]); VChar (str [120])]) /\
  match indexes t with ix :: _ => index_scan t ix [VChar (str [120])] = Ok [] | [] => False end.
Proof. vm_compute; repeat split; reflexivity. Qed.

(** A NOT NULL column can be set to NULL. *)
Lemma update_columns_stores_null :
  let '(r, t) := update_columns [VInt32 1] [(1%nat, VNull)] two_users in
  r = Ok tt /\ get_by_pk t [VInt32 1] = Ok (Some [VInt32 1; VNull; VChar (str [120])]) /\
  check_nullability users [VInt32 1; VNull; VChar (str [120])] = Err (ConstraintViolation "name" NotNull).
Proof. vm_compute; repeat split; reflexivity. Qed.

(** An upsert that is refused for a NUL byte in a CHAR has already removed the
    index entries of the row. *)
Lemma upsert_failure_drops_entries :
  let '(r, t) := upsert [VInt32 1; VVarchar (str [97]); VChar (str [0])] two_users in
  is_ok r = false /\ get_by_pk t [VInt32 1] = Ok (Some ann) /\
  match indexes t with ix :: _ => index_scan t ix [VChar (str [120])] = Ok [] | [] => False end.
Proof. vm_compute; repeat split; reflexivity. Qed.
