(* ===== verification/Aggregate.v ===== *)
(** Aggregation (crates/idb-sql/src/execution/operators/hash_aggregate.rs and
    the output types of sql/ir/logical.rs) and the stable sort of the standard
    library that it and ORDER BY use.

    The groups are kept in the order they were first seen; a hash map has an
    order of its own, which the sort that follows makes irrelevant. *)

From Stdlib Require Import ZArith Lia List Bool.
From coqutil Require Import Byte.
From S2P Require Import Prelude Common Decimal Value Table Expr.
From stdpp Require Import base list strings.
#[local] Open Scope Z_scope.

(** ** [slice::sort_by]

    A comparison can panic.  Elements that compare equal keep their order. *)

Section sort_by.
Context {A : Type} (cmp : A -> A -> result comparison).

Fixpoint insert_by (x : A) (l : list A) : result (list A) :=
  match l with
  | [] => Ok [x]
  | y :: rest =>
      c ← cmp x y;
      match c with
      | Gt => rest ← insert_by x rest; Ok (y :: rest)
      | Eq | Lt => Ok (x :: y :: rest)
      end
  end.

Fixpoint sort_by (l : list A) : result (list A) :=
  match l with
  | [] => Ok []
  | x :: rest => sorted ← sort_by rest; insert_by x sorted
  end.
End sort_by.

(** ** Aggregates *)

Inductive AggregateSpec :=
| SpecCountStar
| SpecCount (arg : Expression) (distinct : bool)
| SpecSum (arg : Expression)
| SpecMin (arg : Expression)
| SpecMax (arg : Expression)
| SpecAvg (arg : Expression).

Inductive AggregateFn :=
| CountStar
| Count (e : Expression)
| CountDistinct (e : Expression)
| Sum (e : Expression)
| Min (e : Expression)
| Max (e : Expression)
| Avg (e : Expression).

Definition translate_aggregate_spec (spec : AggregateSpec) : AggregateFn :=
  match spec with
  | SpecCountStar => CountStar
  | SpecCount arg false => Count arg
  | SpecCount arg true => CountDistinct arg
  | SpecSum arg => Sum arg
  | SpecMin arg => Min arg
  | SpecMax arg => Max arg
  | SpecAvg arg => Avg arg
  end.

Definition agg_arg (agg : AggregateFn) : option Expression :=
  match agg with
  | CountStar => None
  | Count e | CountDistinct e | Sum e | Min e | Max e | Avg e => Some e
  end.

Definition spec_of (agg : AggregateFn) : AggregateSpec :=
  match agg with
  | CountStar => SpecCountStar
  | Count e => SpecCount e false
  | CountDistinct e => SpecCount e true
  | Sum e => SpecSum e
  | Min e => SpecMin e
  | Max e => SpecMax e
  | Avg e => SpecAvg e
  end.

Definition spec_arg (spec : AggregateSpec) : option Expression :=
  match spec with
  | SpecCountStar => None
  | SpecCount arg _ | SpecSum arg | SpecMin arg | SpecMax arg | SpecAvg arg => Some arg
  end.

(** *** Output columns *)

Definition require_arg_type (arg : Expression) (input_types : list ColumnType) : result ColumnType :=
  ty ← column_type arg input_types; ok_or ty (SqlParse "cannot infer argument type").

Definition output_type (spec : AggregateSpec) (input_types : list ColumnType) : result ColumnType :=
  match spec with
  | SpecCountStar => Ok TInt64
  | SpecCount arg _ => _ ← require_arg_type arg input_types; Ok TInt64
  | SpecSum arg =>
      ty ← require_arg_type arg input_types;
      match ty with
      | TInt32 | TInt64 => Ok TInt64
      | TDecimal _ _ => Ok ty
      | _ => Err (SqlParse "SUM of non-numeric type not supported")
      end
  | SpecMin arg | SpecMax arg => require_arg_type arg input_types
  | SpecAvg arg =>
      ty ← require_arg_type arg input_types;
      match ty with
      | TInt32 | TInt64 => Ok (TDecimal 18 4)
      | TDecimal _ _ => Ok ty
      | _ => Err (SqlParse "AVG of non-numeric type not supported")
      end
  end.

Definition output_prefix (spec : AggregateSpec) : string :=
  match spec with
  | SpecCountStar => "count_star"
  | SpecCount _ false => "count"
  | SpecCount _ true => "count_distinct"
  | SpecSum _ => "sum"
  | SpecMin _ => "min"
  | SpecMax _ => "max"
  | SpecAvg _ => "avg"
  end.

Definition output_name (spec : AggregateSpec) (input_columns : list ColumnDef) : result string :=
  match spec_arg spec with
  | None => Ok (output_prefix spec)
  | Some (Column i) => c ← at_index input_columns i; Ok (output_prefix spec +:+ ("_" +:+ col_name c))
  | Some _ => Ok (output_prefix spec +:+ "_expr")
  end.

Definition aggregate_output_columns (input : Schema) (group_by : list nat) (aggregates : list AggregateSpec) :
    result (list ColumnDef) :=
  keys ← mapM (at_index (columns input)) group_by;
  aggs ← mapM (fun agg =>
    name ← output_name agg (columns input);
    ty ← output_type agg (column_types input);
    Ok (mkCol name ty true None)) aggregates;
  Ok (keys ++ aggs).

Definition build_aggregate_schema (input : Schema) (group_by : list nat) (aggregates : list AggregateFn) : result Schema :=
  columns ← aggregate_output_columns input group_by (map spec_of aggregates);
  Ok (mkSchema "aggregate" 0 columns []).

Definition compute_column (input : Schema) (expr : Expression) : result ColumnDef :=
  ty ← column_type expr (column_types input);
  ty ← ok_or ty (SqlParse "compute: cannot infer type of expression");
  match expr with
  | Column i => c ← at_index (columns input) i; Ok (mkCol (col_name c) ty (nullable c) None)
  | _ => Ok (mkCol "expr" ty true None)
  end.

Definition compute_output_columns (input : Schema) (exprs : list Expression) : result (list ColumnDef) :=
  mapM (compute_column input) exprs.

Definition build_compute_schema (input : Schema) (exprs : list Expression) : result Schema :=
  columns ← compute_output_columns input exprs;
  Ok (mkSchema (schema_name input) (table_id input) columns []).

(** *** Accumulators *)

Inductive AggState :=
| CountState (c : Z)
| DistinctSet (set : list Value)
| SumInt (acc : option Z)
| SumDecimal (acc : option Decimal)
| MinMaxValue (acc : option Value)
| AvgInt (sum : option Z) (count : Z)
| AvgDecimal (sum : option Decimal) (count : Z).

Definition infer_arg_type (agg : AggregateFn) (input_schema : Schema) : result (option ColumnType) :=
  match agg_arg agg with
  | None => Ok None
  | Some expr =>
      ty ← column_type expr (column_types input_schema);
      ty ← ok_or ty (SqlParse "cannot infer argument type");
      Ok (Some ty)
  end.

Definition new_for (agg : AggregateFn) (input_schema : Schema) : result AggState :=
  match agg with
  | CountStar | Count _ => Ok (CountState 0)
  | CountDistinct _ => Ok (DistinctSet [])
  | Min _ | Max _ => Ok (MinMaxValue None)
  | Sum _ =>
      ty ← infer_arg_type agg input_schema;
      ty ← unwrap ty;
      match ty with
      | TInt32 | TInt64 => Ok (SumInt None)
      | TDecimal _ _ => Ok (SumDecimal None)
      | _ => Err (SqlParse "SUM of non-numeric type not supported")
      end
  | Avg _ =>
      ty ← infer_arg_type agg input_schema;
      ty ← unwrap ty;
      match ty with
      | TInt32 | TInt64 => Ok (AvgInt None 0)
      | TDecimal _ _ => Ok (AvgDecimal None 0)
      | _ => Err (SqlParse "AVG of non-numeric type not supported")
      end
  end.

Definition compare_values (a b : Value) : result comparison := ord ← compare_sql a b; unwrap ord.

Definition checked_sum (acc v : Z) : result Z := ok_or (checked in_i64 (acc + v)) (NumericOverflow "exceeds i64").

Definition add_decimal (acc : option Decimal) (d : Decimal) : result Decimal :=
  match acc with
  | None => Ok d
  | Some prev => match add prev d with Err _ => Err (SqlParse "sum of decimals") | r => r end
  end.

(** [*c += 1] *)
Definition bump (c : Z) : result Z := arith in_u64 (c + 1).

(** The new extreme, or the old one. *)
Definition pick_extreme (want_smaller : bool) (prev v : Value) : result Value :=
  ord ← compare_values prev v;
  Ok (match want_smaller, ord with true, Gt | false, Lt => v | _, _ => prev end).

Definition update_extreme (want_smaller : bool) (acc : option Value) (arg_value : option Value) : result AggState :=
  match arg_value with
  | None | Some VNull => Ok (MinMaxValue acc)
  | Some v =>
      match acc with
      | None => Ok (MinMaxValue (Some v))
      | Some prev => w ← pick_extreme want_smaller prev v; Ok (MinMaxValue (Some w))
      end
  end.

Definition update_state (agg : AggregateFn) (state : AggState) (arg_value : option Value) : result AggState :=
  match agg, state with
  | CountStar, CountState c => c ← bump c; Ok (CountState c)
  | Count _, CountState c =>
      match arg_value with
      | None | Some VNull => Ok state
      | Some _ => c ← bump c; Ok (CountState c)
      end
  | CountDistinct _, DistinctSet set =>
      match arg_value with
      | None | Some VNull => Ok state
      | Some v => Ok (DistinctSet (if bool_decide (v ∈ set) then set else v :: set))
      end
  | Sum _, SumInt acc =>
      match arg_value with
      | Some (VInt32 v) | Some (VInt64 v) => s ← checked_sum (default 0 acc) v; Ok (SumInt (Some s))
      | None | Some VNull => Ok state
      | Some _ => Err (SqlParse "SUM expected integer")
      end
  | Sum _, SumDecimal acc =>
      match arg_value with
      | Some (VDecimal d) => s ← add_decimal acc d; Ok (SumDecimal (Some s))
      | None | Some VNull => Ok state
      | Some _ => Err (SqlParse "SUM(Decimal)")
      end
  | Min _, MinMaxValue acc => update_extreme true acc arg_value
  | Max _, MinMaxValue acc => update_extreme false acc arg_value
  | Avg _, AvgInt sum count =>
      match arg_value with
      | Some (VInt32 v) | Some (VInt64 v) =>
          s ← checked_sum (default 0 sum) v; count ← bump count; Ok (AvgInt (Some s) count)
      | None | Some VNull => Ok state
      | Some _ => Err (SqlParse "AVG expected integer")
      end
  | Avg _, AvgDecimal sum count =>
      match arg_value with
      | Some (VDecimal d) => s ← add_decimal sum d; count ← bump count; Ok (AvgDecimal (Some s) count)
      | None | Some VNull => Ok state
      | Some _ => Err (SqlParse "AVG(Decimal)")
      end
  | _, _ => Panic
  end.

Definition finalize_state (agg : AggregateFn) (state : AggState) : result Value :=
  match agg, state with
  | (CountStar | Count _), CountState c => Ok (VInt64 (as_signed 64 c))
  | CountDistinct _, DistinctSet set => Ok (VInt64 (as_signed 64 (len set)))
  | Sum _, SumInt acc => Ok (match acc with None => VNull | Some v => VInt64 v end)
  | Sum _, SumDecimal acc => Ok (match acc with None => VNull | Some d => VDecimal d end)
  | (Min _ | Max _), MinMaxValue acc => Ok (default VNull acc)
  | Avg _, AvgInt None _ => Ok VNull
  | Avg _, AvgInt (Some s) count =>
      if count =? 0 then Ok VNull else
      num ← i128 (s * 10000);
      mantissa ← div_i128_round_half_away num count;
      mantissa ← ok_or (checked in_i64 mantissa) (NumericOverflow "AVG result mantissa exceeds i64");
      d ← from_i64_with_scale mantissa 4;
      Ok (VDecimal d)
  | Avg _, AvgDecimal None _ => Ok VNull
  | Avg _, AvgDecimal (Some d) count =>
      if count =? 0 then Ok VNull else
      mantissa ← div_i128_round_half_away (mantissa d) count;
      d ← from_i64_with_scale (as_signed 64 mantissa) (scale d);
      Ok (VDecimal d)
  | _, _ => Panic
  end.

(** *** Rows into groups *)

(** The compiled arguments, parallel to the aggregates. *)
Definition compile_args (aggregates : list AggregateFn) : result (list (option ExpressionFn)) :=
  mapM (fun a => match agg_arg a with None => Ok None | Some e => f ← compile e; Ok (Some f) end) aggregates.

Definition new_states (aggregates : list AggregateFn) (input_schema : Schema) : result (list AggState) :=
  mapM (fun a => new_for a input_schema) aggregates.

(** Fold one row into every accumulator. *)
Fixpoint update_states (aggregates : list AggregateFn) (args : list (option ExpressionFn)) (states : list AggState) (row : Tuple) :
    result (list AggState) :=
  match aggregates, args, states with
  | agg :: aggs, arg :: args, state :: states =>
      value ← match arg with None => Ok None | Some f => v ← f row; Ok (Some v) end;
      state ← update_state agg state value;
      states ← update_states aggs args states row;
      Ok (state :: states)
  | [], _, _ | _, _, [] => Ok states
  | _ :: _, [], _ :: _ => Panic
  end.

Fixpoint finalize_states (aggregates : list AggregateFn) (states : list AggState) : result (list Value) :=
  match aggregates, states with
  | agg :: aggs, state :: states => v ← finalize_state agg state; vs ← finalize_states aggs states; Ok (v :: vs)
  | _, _ => Ok []
  end.

Abbreviation Groups := (list (list Value * list AggState)).

Definition MAX_GROUP_COUNT : Z := 2 ^ 20.

(** The accumulators of a key, made when it is new, with one row folded in. *)
Fixpoint update_group (key : list Value) (fresh : result (list AggState)) (update : list AggState -> result (list AggState))
    (groups : Groups) : result Groups :=
  match groups with
  | [] => states ← fresh; states ← update states; Ok [(key, states)]
  | (k, states) :: rest =>
      if bool_decide (k = key) then states ← update states; Ok ((k, states) :: rest)
      else rest ← update_group key fresh update rest; Ok ((k, states) :: rest)
  end.

Definition group_row (group_by : list nat) (aggregates : list AggregateFn) (args : list (option ExpressionFn)) (input_schema : Schema)
    (groups : Groups) (row : Tuple) : result Groups :=
  key ← mapM (at_index row) group_by;
  update_group key
    (if len groups <? MAX_GROUP_COUNT then new_states aggregates input_schema else Panic)
    (fun states => update_states aggregates args states row) groups.

Fixpoint compare_keys_loop (a b : list Value) : result comparison :=
  match a, b with
  | va :: a, vb :: b =>
      ord ← match is_null va, is_null vb with
            | true, true => Ok Eq
            | true, false => Ok Lt
            | false, true => Ok Gt
            | false, false => compare_values va vb
            end;
      match ord with Eq => compare_keys_loop a b | _ => Ok ord end
  | _, _ => Ok Eq
  end.

Definition compare_keys (a b : list Value) : result comparison :=
  if negb (length a =? length b)%nat then Panic else compare_keys_loop a b.

(** The groups in the order of their keys. *)
Definition sort_groups (groups : Groups) : result Groups := sort_by (fun x y => compare_keys x.1 y.1) groups.

Definition group_output (aggregates : list AggregateFn) (group : list Value * list AggState) : result Tuple :=
  vs ← finalize_states aggregates group.2; Ok (group.1 ++ vs).
