(* ===== verification/Exec.v ===== *)
(** Query execution (crates/idb-sql/src/execution): the operators of the pull
    model, the sinks of the push model, and the compilation of a physical plan
    to either.

    An executor is a trait object: a hidden state and the call [next] on it.
    [bound] is not in the code; it says how many rows can still come, and loops
    that pull from a child are given that much fuel.  Running out of it is a
    panic, and Streams.v, Joins.v and MergeJoin.v prove that it does not happen. *)

From Stdlib Require Import ZArith Lia List Bool.
From coqutil Require Import Byte.
From S2P Require Import Prelude Common Decimal Value Engine Table Expr Aggregate.
From stdpp Require Import base list strings.
#[local] Open Scope Z_scope.

(** ** Plans *)

Inductive JoinKind := Inner | LeftOuter.
Inductive OrderDir := Asc | Desc.

Inductive PhysOp :=
| SeqScan (table : string)
| IndexScan (table index : string) (prefix : list Value)
| PkLookup (table : string) (pk : list Value)
| DerivedScan (alias : string) (subplan : PhysOp) (columns : list ColumnDef)
| Filter (input : PhysOp) (predicate : Predicate)
| Projection (input : PhysOp) (cols : list nat)
| Compute (input : PhysOp) (exprs : list Expression)
| NestedLoopJoin (outer inner : PhysOp) (on : option Predicate) (kind : JoinKind)
| IndexNestedLoopJoin (outer : PhysOp) (inner_table inner_index : string) (outer_key_cols : list nat)
| HashJoin (outer inner : PhysOp) (outer_key_col inner_key_col : nat) (kind : JoinKind) (residual : option Predicate)
| MergeJoin (left_input right_input : PhysOp) (left_key_col right_key_col : nat)
| HashAggregate (input : PhysOp) (group_by : list nat) (aggregates : list AggregateSpec)
| Sort (input : PhysOp) (keys : list (nat * OrderDir))
| Limit (input : PhysOp) (max_rows : nat).

(** ** Executors *)

Record Executor := mkExecutor {
  ex_state : Type;
  ex_now : ex_state;
  ex_next : M ex_state (option Tuple);
  ex_bound : ex_state -> nat;
  ex_schema : Schema
}.

(** [while let Some(t) = child.next()? { rows.push(t) }] *)
Fixpoint drain_loop {S} (fuel : nat) (next : M S (option Tuple)) : M S (list Tuple) :=
  match fuel with
  | O => pure Panic
  | S fuel =>
      r ← next;
      match r with
      | None => mret []
      | Some t => rows ← drain_loop fuel next; mret (t :: rows)
      end
  end.

(** Pull everything that is left, from the state [s]. *)
Definition drain_from (ex : Executor) (s : ex_state ex) : result (list Tuple) :=
  (drain_loop (S (ex_bound ex s)) (ex_next ex) s).1.
Definition drain (ex : Executor) : result (list Tuple) := drain_from ex (ex_now ex).

(** A buffer that is handed out row by row: scans. *)
Definition pop : M (list Tuple) (option Tuple) := fun rows =>
  match rows with [] => (Ok None, []) | t :: rest => (Ok (Some t), rest) end.

Definition rows_executor (schema : Schema) (rows : list Tuple) : Executor :=
  mkExecutor (list Tuple) rows pop (fun rows => length rows) schema.

(** An operator that computes its whole output on the first call. *)
Definition eager_next {S} (compute : M S (list Tuple)) : M (S * option (list Tuple)) (option Tuple) := fun st =>
  match st with
  | (s, Some rows) => let '(r, rows) := pop rows in (r, (s, Some rows))
  | (s, None) =>
      match compute s with
      | (Ok rows, s) => let '(r, rows) := pop rows in (r, (s, Some rows))
      | (Err e, s) => (Err e, (s, None))
      | (Panic, s) => (Panic, (s, None))
      end
  end.

Definition eager_executor (child : Executor) (schema : Schema) (compute : M (ex_state child) (list Tuple)) : Executor :=
  mkExecutor (ex_state child * option (list Tuple)) (ex_now child, None) (eager_next compute)
    (fun st => match st.2 with Some rows => length rows | None => S (ex_bound child st.1) end) schema.

Definition drain_child (child : Executor) : M (ex_state child) (list Tuple) := fun s =>
  drain_loop (S (ex_bound child s)) (ex_next child) s.

(** [f] on every row of the child, as long as rows come. *)
Fixpoint fold_child {S A} (fuel : nat) (next : M S (option Tuple)) (f : A -> Tuple -> result A) (acc : A) : M S A :=
  match fuel with
  | O => pure Panic
  | S fuel =>
      r ← next;
      match r with
      | None => mret acc
      | Some row => acc ← pure (f acc row); fold_child fuel next f acc
      end
  end.

(** *** Filter *)

(** A predicate, with the fault cell when it is correlated. *)
Inductive FilterFn :=
| PlainFilter (predicate : Tuple -> result bool)
| CorrelatedFilter (predicate : Tuple -> M (option Error) bool).

(** Run the predicate and take what it left in the fault cell. *)
Definition filter_test (f : FilterFn) (t : Tuple) : result bool :=
  match f with
  | PlainFilter p => p t
  | CorrelatedFilter p =>
      let '(keep, fault) := p t None in
      keep ← keep;
      match fault with Some e => Err e | None => Ok keep end
  end.

Fixpoint filter_loop {S} (fuel : nat) (next : M S (option Tuple)) (f : FilterFn) : M S (option Tuple) :=
  match fuel with
  | O => pure Panic
  | S fuel =>
      r ← next;
      match r with
      | Some t => keep ← pure (filter_test f t); if keep : bool then mret (Some t) else filter_loop fuel next f
      | None => mret None
      end
  end.

Definition filter_executor (child : Executor) (f : FilterFn) : Executor :=
  mkExecutor (ex_state child) (ex_now child)
    (fun s => filter_loop (S (ex_bound child s)) (ex_next child) f s) (ex_bound child) (ex_schema child).

(** *** Projection and Compute *)

Definition map_executor (child : Executor) (schema : Schema) (f : Tuple -> result Tuple) : Executor :=
  mkExecutor (ex_state child) (ex_now child)
    (r ← ex_next child;
     match r with Some t => t ← pure (f t); mret (Some t) | None => mret None end)
    (ex_bound child) schema.

Definition project_row (cols : list nat) (t : Tuple) : result Tuple := mapM (at_index t) cols.

Definition project_schema (input : Schema) (cols : list nat) : result Schema :=
  columns ← mapM (at_index (columns input)) cols;
  Ok (mkSchema (schema_name input) (table_id input) columns []).

Definition check_projection (input : Schema) (cols : list nat) : result unit :=
  if forallb (fun c => c <? length (columns input))%nat cols then Ok tt
  else Err (Internal "projection column index out of range").

Definition projection_new (child : Executor) (cols : list nat) : result Executor :=
  _ ← check_projection (ex_schema child) cols;
  schema ← project_schema (ex_schema child) cols;
  Ok (map_executor child schema (project_row cols)).

Definition compute_row (evals : list ExpressionFn) (t : Tuple) : result Tuple := mapM (fun f => f t) evals.

Definition compute_new (child : Executor) (exprs : list Expression) : result Executor :=
  schema ← build_compute_schema (ex_schema child) exprs;
  evals ← mapM compile exprs;
  Ok (map_executor child schema (compute_row evals)).

(** *** Limit *)

Definition limit_executor (child : Executor) (max_rows : nat) : Executor :=
  mkExecutor (ex_state child * nat) (ex_now child, O)
    (fun st => let '(s, yielded) := st in
       if (max_rows <=? yielded)%nat then (Ok None, st) else
       match ex_next child s with
       | (Ok (Some t), s) => (Ok (Some t), (s, S yielded))
       | (Ok None, s) => (Ok None, (s, yielded))
       | (Err e, s) => (Err e, (s, yielded))
       | (Panic, s) => (Panic, (s, yielded))
       end)
    (fun st => ex_bound child st.1) (ex_schema child).

(** *** DerivedScan *)

Definition MAX_DERIVED_ROWS : Z := 2 ^ 20.

Definition derived_rows (child : Executor) : M (ex_state child) (list Tuple) := fun s =>
  fold_child (S (ex_bound child s)) (ex_next child)
    (fun buffer row => if len buffer <? MAX_DERIVED_ROWS then Ok (buffer ++ [row]) else Panic) [] s.

Definition derived_new (alias : string) (child : Executor) (columns : list ColumnDef) : Executor :=
  eager_executor child (mkSchema alias 0 columns []) (derived_rows child).

(** *** Sort *)

Definition compare_key (a b : Value) (dir : OrderDir) : result comparison :=
  raw ← match a, b with
        | VNull, VNull => Ok Eq
        | VNull, _ => Ok Gt
        | _, VNull => Ok Lt
        | _, _ => ord ← compare_sql a b; unwrap ord
        end;
  Ok (match dir with Asc => raw | Desc => CompOpp raw end).

Fixpoint compare_rows (keys : list (nat * OrderDir)) (a b : Tuple) : result comparison :=
  match keys with
  | [] => Ok Eq
  | (col, dir) :: rest =>
      va ← at_index a col;
      vb ← at_index b col;
      ord ← compare_key va vb dir;
      match ord with Eq => compare_rows rest a b | _ => Ok ord end
  end.

Definition sorted_rows (child : Executor) (keys : list (nat * OrderDir)) : M (ex_state child) (list Tuple) :=
  rows ← drain_child child; pure (sort_by (compare_rows keys) rows).

Definition sort_new (child : Executor) (keys : list (nat * OrderDir)) : result Executor :=
  match keys with
  | [] => Err (SqlParse "Sort requires at least one sort key")
  | _ => Ok (eager_executor child (ex_schema child) (sorted_rows child keys))
  end.

(** *** HashAggregate *)

Definition compute_ungrouped (child : Executor) (aggregates : list AggregateFn) (args : list (option ExpressionFn)) :
    M (ex_state child) (list Tuple) := fun s =>
  (states ← pure (new_states aggregates (ex_schema child));
   states ← fold_child (S (ex_bound child s)) (ex_next child) (fun states row => update_states aggregates args states row) states;
   output ← pure (finalize_states aggregates states);
   mret [output]) s.

Definition compute_grouped (child : Executor) (group_by : list nat) (aggregates : list AggregateFn) (args : list (option ExpressionFn)) :
    M (ex_state child) (list Tuple) := fun s =>
  (groups ← fold_child (S (ex_bound child s)) (ex_next child) (group_row group_by aggregates args (ex_schema child)) [];
   keyed ← pure (sort_groups groups);
   pure (mapM (group_output aggregates) keyed)) s.

Definition aggregate_new (child : Executor) (group_by : list nat) (aggregates : list AggregateFn) : result Executor :=
  match aggregates with
  | [] => Err (SqlParse "HashAggregate requires at least one aggregate")
  | _ =>
      if negb (forallb (fun c => c <? length (columns (ex_schema child)))%nat group_by) then Panic else
      schema ← build_aggregate_schema (ex_schema child) group_by aggregates;
      args ← compile_args aggregates;
      Ok (eager_executor child schema
            (match group_by with
             | [] => compute_ungrouped child aggregates args
             | _ => compute_grouped child group_by aggregates args
             end))
  end.

(** ** Joins *)

Abbreviation JoinPredicate := (Tuple -> Tuple -> result bool).

Definition join_column (outer : Schema) (inner_name : string) (right_nullable : bool) (col : ColumnDef) : ColumnDef :=
  let name := if existsb (fun c => bool_decide (col_name c = col_name col)) (columns outer)
              then inner_name +:+ ("." +:+ col_name col) else col_name col in
  mkCol name (ty col) (nullable col || right_nullable) (col_default col).

Definition concat_schemas (outer inner : Schema) (right_nullable : bool) : Schema :=
  mkSchema (schema_name outer +:+ ("_join_" +:+ schema_name inner)) 0
    (columns outer ++ map (join_column outer (schema_name inner) right_nullable) (columns inner)) [].

Definition is_left_outer (kind : JoinKind) : bool := match kind with LeftOuter => true | Inner => false end.

Definition padded (outer_row : Tuple) (right_width : nat) : Tuple := outer_row ++ replicate right_width VNull.

(** *** NestedLoopJoin *)

Record NljState (S : Type) := mkNlj {
  nl_outer : S;
  nl_current : option Tuple;
  nl_cursor : nat;
  nl_matched : bool;
  nl_emitted : nat
}.
Arguments mkNlj {S}. Arguments nl_outer {S}. Arguments nl_current {S}. Arguments nl_cursor {S}. Arguments nl_matched {S}.
Arguments nl_emitted {S}.

(** The first row from [idx] on that matches, and the cursor after it. *)
Fixpoint first_match (pred : Tuple -> result bool) (inner_rows : list Tuple) (idx : nat) : result (option (Tuple * nat)) :=
  match inner_rows with
  | [] => Ok None
  | row :: rest => b ← pred row; if b : bool then Ok (Some (row, S idx)) else first_match pred rest (S idx)
  end.

Section nested_loop.
Context {St : Type} (next : M St (option Tuple)).
Context (inner_rows : list Tuple) (predicate : JoinPredicate) (kind : JoinKind) (right_width : nat).

(** The current outer row, pulled when there is none. *)
Definition nlj_outer : M (NljState St) (option Tuple) := fun st =>
  match nl_current st with
  | Some row => (Ok (Some row), st)
  | None =>
      match next (nl_outer st) with
      | (Ok row, s) => (Ok row, mkNlj s row 0 false 0)
      | (Err e, s) => (Err e, mkNlj s None (nl_cursor st) (nl_matched st) (nl_emitted st))
      | (Panic, s) => (Panic, mkNlj s None (nl_cursor st) (nl_matched st) (nl_emitted st))
      end
  end.

Fixpoint nlj_loop (fuel : nat) : M (NljState St) (option Tuple) :=
  match fuel with
  | O => pure Panic
  | S fuel =>
      outer_row ← nlj_outer;
      match outer_row with
      | None => mret None
      | Some outer_row =>
          st ← gets id;
          found ← pure (first_match (predicate outer_row) (drop (nl_cursor st) inner_rows) (nl_cursor st));
          match found with
          | Some (inner_row, cursor) =>
              if (length inner_rows <? S (nl_emitted st))%nat then pure Panic else
              modify (fun st => mkNlj (nl_outer st) (nl_current st) cursor true (S (nl_emitted st)));;
              mret (Some (outer_row ++ inner_row))
          | None =>
              modify (fun st => mkNlj (nl_outer st) None (length inner_rows) (nl_matched st) (nl_emitted st));;
              if is_left_outer kind && negb (nl_matched st) then mret (Some (padded outer_row right_width))
              else nlj_loop fuel
          end
      end
  end.
End nested_loop.

Definition nlj_new (outer inner : Executor) (predicate : JoinPredicate) (kind : JoinKind) : result Executor :=
  let right_width := length (columns (ex_schema inner)) in
  inner_rows ← drain inner;
  Ok (mkExecutor (NljState (ex_state outer)) (mkNlj (ex_now outer) None 0 false 0)
        (fun st => nlj_loop (ex_next outer) inner_rows predicate kind right_width (S (S (ex_bound outer (nl_outer st)))) st)
        (fun st => (match nl_current st with Some _ => 1 | None => 0 end + ex_bound outer (nl_outer st)) * S (length inner_rows))%nat
        (concat_schemas (ex_schema outer) (ex_schema inner) (is_left_outer kind))).

(** *** HashJoin *)

Abbreviation HashTable := (list (Value * list Tuple)).

(** [table.entry(key).or_default().push(row)] *)
Fixpoint push_bucket (key : Value) (row : Tuple) (table : HashTable) : HashTable :=
  match table with
  | [] => [(key, [row])]
  | (k, rows) :: rest => if bool_decide (k = key) then (k, rows ++ [row]) :: rest else (k, rows) :: push_bucket key row rest
  end.

Fixpoint bucket (key : Value) (table : HashTable) : list Tuple :=
  match table with
  | [] => []
  | (k, rows) :: rest => if bool_decide (k = key) then rows else bucket key rest
  end.

Definition hash_row (inner_key_col : nat) (table : HashTable) (row : Tuple) : result HashTable :=
  v ← at_index row inner_key_col;
  if is_null v then Ok table else
  key ← join_key_normalized v;
  Ok (push_bucket key row table).

Record HashState (S : Type) := mkHash {
  hj_outer : S;
  hj_current : option Tuple;
  hj_matches : list Tuple;
  hj_cursor : nat;
  hj_emitted : bool
}.
Arguments mkHash {S}. Arguments hj_outer {S}. Arguments hj_current {S}. Arguments hj_matches {S}. Arguments hj_cursor {S}.
Arguments hj_emitted {S}.

Section hash_join.
Context {St : Type} (next : M St (option Tuple)).
Context (table : HashTable) (outer_key_col : nat) (kind : JoinKind) (residual : option JoinPredicate) (right_width : nat).

Definition survives (outer_row inner_row : Tuple) : result bool :=
  match residual with Some f => f outer_row inner_row | None => Ok true end.

(** The candidates of an outer row. *)
Definition hash_probe (row : Tuple) : result (list Tuple) :=
  key ← at_index row outer_key_col;
  if is_null key then Ok [] else
  key ← join_key_normalized key;
  Ok (bucket key table).

(** The next row for the current outer row, if it has one left. *)
Definition hash_emit : M (HashState St) (option Tuple) :=
  st ← gets id;
  match hj_current st with
  | None => mret None
  | Some outer_row =>
      found ← pure (first_match (survives outer_row) (drop (hj_cursor st) (hj_matches st)) (hj_cursor st));
      match found with
      | Some (inner_row, cursor) =>
          modify (fun st => mkHash (hj_outer st) (hj_current st) (hj_matches st) cursor true);;
          mret (Some (outer_row ++ inner_row))
      | None =>
          modify (fun st => mkHash (hj_outer st) None (hj_matches st) (length (hj_matches st)) (hj_emitted st));;
          mret (if is_left_outer kind && negb (hj_emitted st) then Some (padded outer_row right_width) else None)
      end
  end.

Definition hash_pull : M (HashState St) (option Tuple) :=
  zoom hj_outer (fun s st => mkHash s (hj_current st) (hj_matches st) (hj_cursor st) (hj_emitted st)) next.

Fixpoint hash_loop (fuel : nat) : M (HashState St) (option Tuple) :=
  match fuel with
  | O => pure Panic
  | S fuel =>
      emitted ← hash_emit;
      match emitted with
      | Some joined => mret (Some joined)
      | None =>
          row ← hash_pull;
          match row with
          | None => mret None
          | Some row =>
              matches ← pure (hash_probe row);
              modify (fun st => mkHash (hj_outer st) (Some row) matches 0 false);;
              hash_loop fuel
          end
      end
  end.
End hash_join.

Definition build_table (inner : Executor) (inner_key_col : nat) : result HashTable :=
  (fold_child (S (ex_bound inner (ex_now inner))) (ex_next inner) (hash_row inner_key_col) [] (ex_now inner)).1.

Definition table_size (table : HashTable) : nat := length (concat (map snd table)).

Definition hash_join_new (outer inner : Executor) (outer_key_col inner_key_col : nat) (kind : JoinKind) (residual : option JoinPredicate) :
    result Executor :=
  let right_width := length (columns (ex_schema inner)) in
  let schema := concat_schemas (ex_schema outer) (ex_schema inner) (is_left_outer kind) in
  table ← build_table inner inner_key_col;
  Ok (mkExecutor (HashState (ex_state outer)) (mkHash (ex_now outer) None [] 0 false)
        (fun st => hash_loop (ex_next outer) table outer_key_col kind residual right_width (S (S (ex_bound outer (hj_outer st)))) st)
        (fun st => (match hj_current st with Some _ => 1 | None => 0 end + ex_bound outer (hj_outer st)) * S (table_size table))%nat
        schema).

(** *** MergeJoin

    The assertions of debug builds are part of it: both inputs ascend, and no
    turn of the loop leaves everything as it was. *)

Record MergeState (L R : Type) := mkMerge {
  mj_left : L;
  mj_right : R;
  mj_current : option Tuple;
  mj_run : list Tuple;
  mj_run_key : option Value;
  mj_cursor : nat;
  mj_pending : option Tuple;
  mj_exhausted : bool;
  mj_last_left : option Value;
  mj_last_right : option Value;
  mj_left_pulled : nat;
  mj_right_pulled : nat
}.
Arguments mkMerge {L R}. Arguments mj_left {L R}. Arguments mj_right {L R}. Arguments mj_current {L R}. Arguments mj_run {L R}.
Arguments mj_run_key {L R}. Arguments mj_cursor {L R}. Arguments mj_pending {L R}. Arguments mj_exhausted {L R}.
Arguments mj_last_left {L R}. Arguments mj_last_right {L R}. Arguments mj_left_pulled {L R}. Arguments mj_right_pulled {L R}.

Definition assert_ascending (last : option Value) (key : Value) : result (option Value) :=
  if is_null key then Ok last else
  match last with
  | None => Ok (Some key)
  | Some previous =>
      ord ← compare_sql key previous;
      match ord with Some Lt => Panic | _ => Ok (Some key) end
  end.

(** [a.compare_sql(b) == Some(Equal)] *)
Definition equal_keys (a b : Value) : result bool :=
  ord ← compare_sql a b; Ok (match ord with Some Eq => true | _ => false end).

Section merge_join.
Context {L R : Type} (left_next : M L (option Tuple)) (right_next : M R (option Tuple)).
Context (left_key_col right_key_col : nat).

Abbreviation MM := (M (MergeState L R)).

Definition set_left (s : L) (st : MergeState L R) : MergeState L R :=
  mkMerge s (mj_right st) (mj_current st) (mj_run st) (mj_run_key st) (mj_cursor st) (mj_pending st) (mj_exhausted st)
    (mj_last_left st) (mj_last_right st) (mj_left_pulled st) (mj_right_pulled st).
Definition set_right (s : R) (st : MergeState L R) : MergeState L R :=
  mkMerge (mj_left st) s (mj_current st) (mj_run st) (mj_run_key st) (mj_cursor st) (mj_pending st) (mj_exhausted st)
    (mj_last_left st) (mj_last_right st) (mj_left_pulled st) (mj_right_pulled st).
Definition set_current (row : option Tuple) (st : MergeState L R) : MergeState L R :=
  mkMerge (mj_left st) (mj_right st) row (mj_run st) (mj_run_key st) (mj_cursor st) (mj_pending st) (mj_exhausted st)
    (mj_last_left st) (mj_last_right st) (mj_left_pulled st) (mj_right_pulled st).
Definition set_run (run : list Tuple) (key : option Value) (st : MergeState L R) : MergeState L R :=
  mkMerge (mj_left st) (mj_right st) (mj_current st) run key (mj_cursor st) (mj_pending st) (mj_exhausted st)
    (mj_last_left st) (mj_last_right st) (mj_left_pulled st) (mj_right_pulled st).
Definition set_cursor (c : nat) (st : MergeState L R) : MergeState L R :=
  mkMerge (mj_left st) (mj_right st) (mj_current st) (mj_run st) (mj_run_key st) c (mj_pending st) (mj_exhausted st)
    (mj_last_left st) (mj_last_right st) (mj_left_pulled st) (mj_right_pulled st).
Definition set_pending (row : option Tuple) (st : MergeState L R) : MergeState L R :=
  mkMerge (mj_left st) (mj_right st) (mj_current st) (mj_run st) (mj_run_key st) (mj_cursor st) row (mj_exhausted st)
    (mj_last_left st) (mj_last_right st) (mj_left_pulled st) (mj_right_pulled st).
Definition set_exhausted (st : MergeState L R) : MergeState L R :=
  mkMerge (mj_left st) (mj_right st) (mj_current st) (mj_run st) (mj_run_key st) (mj_cursor st) (mj_pending st) true
    (mj_last_left st) (mj_last_right st) (mj_left_pulled st) (mj_right_pulled st).
Definition note_left (last : option Value) (st : MergeState L R) : MergeState L R :=
  mkMerge (mj_left st) (mj_right st) (mj_current st) (mj_run st) (mj_run_key st) (mj_cursor st) (mj_pending st) (mj_exhausted st)
    last (mj_last_right st) (S (mj_left_pulled st)) (mj_right_pulled st).
Definition note_right (last : option Value) (st : MergeState L R) : MergeState L R :=
  mkMerge (mj_left st) (mj_right st) (mj_current st) (mj_run st) (mj_run_key st) (mj_cursor st) (mj_pending st) (mj_exhausted st)
    (mj_last_left st) last (mj_left_pulled st) (S (mj_right_pulled st)).

Definition pull_right : MM (option Tuple) :=
  row ← zoom mj_right set_right right_next;
  match row with
  | None => mret None
  | Some row =>
      key ← pure (at_index row right_key_col);
      st ← gets id;
      last ← pure (assert_ascending (mj_last_right st) key);
      modify (note_right last);;
      mret (Some row)
  end.

(** The rest of a run of equal keys; the first other row waits. *)
Fixpoint collect_run (fuel : nat) (target : Value) : MM unit :=
  match fuel with
  | O => pure Panic
  | S fuel =>
      row ← pull_right;
      match row with
      | None => modify set_exhausted
      | Some row =>
          key ← pure (at_index row right_key_col);
          equal ← pure (equal_keys key target);
          if equal : bool
          then modify (fun st => set_run (mj_run st ++ [row]) (mj_run_key st) st);; collect_run fuel target
          else modify (set_pending (Some row))
      end
  end.

(** The row that waits, or the next one. *)
Definition next_right : MM (option Tuple) :=
  st ← gets id;
  match mj_pending st with
  | Some row => modify (set_pending None);; mret (Some row)
  | None =>
      if mj_exhausted st then mret None else
      row ← pull_right;
      match row with
      | Some row => mret (Some row)
      | None => modify set_exhausted;; mret None
      end
  end.

Fixpoint seek_run (fuel : nat) (target : Value) : MM unit :=
  match fuel with
  | O => pure Panic
  | S fuel =>
      row ← next_right;
      match row with
      | None => mret tt
      | Some row =>
          key ← pure (at_index row right_key_col);
          if is_null key then seek_run fuel target else
          ord ← pure (compare_sql key target);
          match default Lt ord with
          | Lt => seek_run fuel target
          | Gt => modify (set_pending (Some row))
          | Eq => modify (set_run [row] (Some target));; collect_run fuel target
          end
      end
  end.

Definition build_run (fuel : nat) (target : Value) : MM unit :=
  if is_null target then pure Panic else
  modify (fun st => set_cursor 0 (set_run [] None st));;
  seek_run fuel target.

(** The progress that the backstop compares. *)
Definition progress (st : MergeState L R) : nat * nat * nat * bool * bool :=
  (mj_left_pulled st, mj_right_pulled st, mj_cursor st, bool_decide (is_Some (mj_current st)), bool_decide (is_Some (mj_run_key st))).

(** Pull a left row when there is none. *)
Definition merge_left : MM (option Tuple) :=
  st ← gets id;
  match mj_current st with
  | Some row => mret (Some row)
  | None =>
      row ← zoom mj_left set_left left_next;
      modify (fun st => set_cursor 0 (set_current row st));;
      match row with
      | None => mret None
      | Some row =>
          key ← pure (at_index row left_key_col);
          st ← gets id;
          last ← pure (assert_ascending (mj_last_left st) key);
          modify (note_left last);;
          mret (Some row)
      end
  end.

(** What a turn of the loop says: a result, or go on. *)
Definition merge_turn (fuel : nat) : MM (option (option Tuple)) :=
  left_row ← merge_left;
  match left_row with
  | None => mret (Some None)
  | Some left_row =>
      left_key ← pure (at_index left_row left_key_col);
      if is_null left_key then modify (set_current None);; mret None else
      st ← gets id;
      ord ← pure (match mj_run_key st with Some run_key => compare_sql left_key run_key | None => Ok None end);
      match mj_run_key st, ord with
      | Some _, Some Eq =>
          match mj_run st !! mj_cursor st with
          | Some right_row => modify (set_cursor (S (mj_cursor st)));; mret (Some (Some (left_row ++ right_row)))
          | None => modify (set_current None);; mret None
          end
      | Some _, Some Lt => modify (set_current None);; mret None
      | _, _ =>
          build_run fuel left_key;;
          st ← gets id;
          match mj_run_key st with
          | None => modify (set_current None);; mret None
          | Some _ => mret None
          end
      end
  end.

Fixpoint merge_loop (turns fuel : nat) (previous : option (nat * nat * nat * bool * bool)) : MM (option Tuple) :=
  match turns with
  | O => pure Panic
  | S turns =>
      st ← gets id;
      if bool_decide (previous = Some (progress st)) then pure Panic else
      r ← merge_turn fuel;
      match r with
      | Some r => mret r
      | None => merge_loop turns fuel (Some (progress st))
      end
  end.
End merge_join.

Definition merge_bound (left_input right_input : Executor) (st : MergeState (ex_state left_input) (ex_state right_input)) : nat :=
  S (ex_bound left_input (mj_left st)) * (length (mj_run st) + 1 + ex_bound right_input (mj_right st)).

(** Every left row takes at most three turns. *)
Definition merge_next (left_input right_input : Executor) (left_key_col right_key_col : nat) :
    M (MergeState (ex_state left_input) (ex_state right_input)) (option Tuple) := fun st =>
  merge_loop (ex_next left_input) (ex_next right_input) left_key_col right_key_col
    (3 * S (S (ex_bound left_input (mj_left st)))) (S (S (ex_bound right_input (mj_right st)))) None st.

Definition merge_join_new (left_input right_input : Executor) (left_key_col right_key_col : nat) : result Executor :=
  if (length (columns (ex_schema left_input)) <=? left_key_col)%nat
  then Err (Internal "merge join left key column out of range") else
  if (length (columns (ex_schema right_input)) <=? right_key_col)%nat
  then Err (Internal "merge join right key column out of range") else
  Ok (mkExecutor (MergeState (ex_state left_input) (ex_state right_input))
        (mkMerge (ex_now left_input) (ex_now right_input) None [] None 0 None false None None 0 0)
        (merge_next left_input right_input left_key_col right_key_col) (merge_bound left_input right_input)
        (concat_schemas (ex_schema left_input) (ex_schema right_input) false)).

(** *** IndexNestedLoopJoin *)

Record InljState (S : Type) := mkInlj { in_outer : S; in_current : option Tuple; in_buffer : list Tuple; in_cursor : nat }.
Arguments mkInlj {S}. Arguments in_outer {S}. Arguments in_current {S}. Arguments in_buffer {S}. Arguments in_cursor {S}.

Section index_nested_loop.
Context {E I : Type} `{StorageEngine E} `{StorageEngine I}.
Context (inner_table : Table E I) (inner_index : IndexHandle I).

(** The probe prefix, or [None] when no entry can equal it. *)
Fixpoint probe_prefix (outer_row : Tuple) (outer_key_cols indexed : list nat) : result (option (list Value)) :=
  match outer_key_cols with
  | [] => Ok (Some [])
  | i :: rest =>
      v ← at_index outer_row i;
      if is_null v then Ok None else
      indexed_col ← at_index indexed 0;
      col ← at_index (columns (schema inner_table)) indexed_col;
      coerced ← coerce_exact v (ty col);
      match coerced with
      | None => Ok None
      | Some v => others ← probe_prefix outer_row rest (tail indexed); Ok (option_map (cons v) others)
      end
  end.

(** [columns.iter().zip(&prefix).all(|(&col, probe)| row[col] equals probe)] *)
Fixpoint matches_probe (cols : list nat) (prefix : list Value) (row : Tuple) : result bool :=
  match cols, prefix with
  | col :: cols, probe :: prefix =>
      v ← at_index row col;
      equal ← equal_keys v probe;
      if equal : bool then matches_probe cols prefix row else Ok false
  | _, _ => Ok true
  end.

Fixpoint recheck (cols : list nat) (prefix : list Value) (rows : list Tuple) : result (list Tuple) :=
  match rows with
  | [] => Ok []
  | row :: rest =>
      keep ← matches_probe cols prefix row;
      others ← recheck cols prefix rest;
      Ok (if keep : bool then row :: others else others)
  end.

Definition refill_inner (outer_key_cols : list nat) (outer_row : Tuple) : result (list Tuple) :=
  prefix ← probe_prefix outer_row outer_key_cols (index_columns (def inner_index));
  match prefix with
  | None => Ok []
  | Some prefix =>
      rows ← index_scan inner_table inner_index prefix;
      recheck (index_columns (def inner_index)) prefix rows
  end.

Fixpoint inlj_loop {St} (fuel : nat) (next : M St (option Tuple)) (outer_key_cols : list nat) : M (InljState St) (option Tuple) :=
  match fuel with
  | O => pure Panic
  | S fuel =>
      st ← gets id;
      (match in_current st with
       | Some _ => mret tt
       | None =>
           row ← zoom in_outer (fun s st => mkInlj s (in_current st) (in_buffer st) (in_cursor st)) next;
           match row with
           | None => mret tt
           | Some row =>
               modify (fun st => mkInlj (in_outer st) (Some row) [] 0);;
               rows ← pure (refill_inner outer_key_cols row);
               modify (fun st => mkInlj (in_outer st) (Some row) rows 0)
           end
       end);;
      st ← gets id;
      match in_current st with
      | None => mret None
      | Some outer_row =>
          match in_buffer st !! in_cursor st with
          | Some inner_row =>
              modify (fun st => mkInlj (in_outer st) (in_current st) (in_buffer st) (S (in_cursor st)));;
              mret (Some (outer_row ++ inner_row))
          | None =>
              modify (fun st => mkInlj (in_outer st) None (in_buffer st) (in_cursor st));;
              inlj_loop fuel next outer_key_cols
          end
      end
  end.

(** At most every row of the table comes back for an outer row. *)
Definition inlj_new (outer : Executor) (outer_key_cols : list nat) : result Executor :=
  if negb (length outer_key_cols =? length (index_columns (def inner_index)))%nat
  then Err (IndexLookupArity (index_name (def inner_index)) (len (index_columns (def inner_index))) (len outer_key_cols)) else
  Ok (mkExecutor (InljState (ex_state outer)) (mkInlj (ex_now outer) None [] 0)
        (fun st => inlj_loop (S (S (ex_bound outer (in_outer st)))) (ex_next outer) outer_key_cols st)
        (fun st => length (in_buffer st) + ex_bound outer (in_outer st) * S (length (entries (ix_engine inner_index))))%nat
        (concat_schemas (ex_schema outer) (schema inner_table) false)).
End index_nested_loop.
