(* ===== verification/Build.v ===== *)
(** Running a plan (execution/build.rs, model.rs, push.rs and the data changing
    operators): the pull model builds a tree of executors and drains its root,
    the push model builds a chain of sinks and feeds it.

    The catalog is known by the two reads that planning makes of it. *)

From Stdlib Require Import ZArith Lia List Bool.
From coqutil Require Import Byte.
From S2P Require Import Prelude Common Decimal Value Engine Table Expr Aggregate Exec.
From stdpp Require Import base list strings.
#[local] Open Scope Z_scope.

(** ** Sinks *)

Inductive Flow := Continue | Stop.

(** A sink is a trait object too.  [sk_rows] looks through the chain at what the
    collector at its end shares with the driver. *)
Record Sink := mkSink {
  sk_state : Type;
  sk_now : sk_state;
  sk_push : Tuple -> M sk_state Flow;
  sk_finish : M sk_state unit;
  sk_rows : sk_state -> list Tuple
}.

Definition collector : Sink :=
  mkSink (list Tuple) [] (fun t => modify (fun rows => rows ++ [t]);; mret Continue) (mret tt) id.

Definition filter_sink (f : FilterFn) (out : Sink) : Sink :=
  mkSink (sk_state out) (sk_now out)
    (fun t => keep ← pure (filter_test f t); if keep : bool then sk_push out t else mret Continue)
    (sk_finish out) (sk_rows out).

Definition map_sink (f : Tuple -> result Tuple) (out : Sink) : Sink :=
  mkSink (sk_state out) (sk_now out) (fun t => t ← pure (f t); sk_push out t) (sk_finish out) (sk_rows out).

Definition projection_sink (cols : list nat) : Sink -> Sink := map_sink (project_row cols).
Definition compute_sink (evals : list ExpressionFn) : Sink -> Sink := map_sink (compute_row evals).

(** A sink with a state of its own before the next one. *)
Definition downstream {A S B} (m : M S B) : M (A * S) B := zoom snd (fun s st => (st.1, s)) m.

Definition limit_push (out : Sink) (t : Tuple) : M (nat * sk_state out) Flow :=
  st ← gets id;
  match st.1 with
  | O => mret Stop
  | S remaining =>
      flow ← downstream (sk_push out t);
      modify (fun st => (remaining, st.2));;
      mret (match remaining with O => Stop | _ => flow end)
  end.

Definition limit_sink (max_rows : nat) (out : Sink) : Sink :=
  mkSink (nat * sk_state out) (max_rows, sk_now out) (limit_push out) (downstream (sk_finish out)) (fun st => sk_rows out st.2).

(** Push a row; whether more are wanted. *)
Definition wants_more {S} (push : M S Flow) : M S bool :=
  flow ← push; mret (match flow with Continue => true | Stop => false end).

(** The groups of a finished aggregation, one row each. *)
Fixpoint emit_groups (aggregates : list AggregateFn) (out : Sink) (keyed : Groups) : M (sk_state out) unit :=
  match keyed with
  | [] => mret tt
  | group :: rest =>
      row ← pure (group_output aggregates group);
      more ← wants_more (sk_push out row);
      if more : bool then emit_groups aggregates out rest else mret tt
  end.

Definition aggregate_sink (group_by : list nat) (aggregates : list AggregateFn) (args : list (option ExpressionFn)) (input_schema : Schema)
    (out : Sink) : Sink :=
  mkSink (Groups * sk_state out) ([], sk_now out)
    (fun t =>
       st ← gets id;
       groups ← pure (group_row group_by aggregates args input_schema st.1 t);
       modify (fun st => (groups, st.2));;
       mret Continue)
    (st ← gets id;
     modify (fun st => ([], st.2));;
     keyed ← pure (sort_groups st.1);
     downstream (emit_groups aggregates out keyed);;
     downstream (sk_finish out))
    (fun st => sk_rows out st.2).

(** ** Sources *)

(** What a run of the whole chain gives: how it ended, and the rows collected. *)
Abbreviation Source := (result unit * list Tuple)%type.

Definition run_sink (out : Sink) (m : M (sk_state out) unit) : Source :=
  let '(r, s) := (m;; sk_finish out) (sk_now out) in (r, sk_rows out s).

Fixpoint push_items {A} (row_of : A -> result Tuple) (out : Sink) (scan : list A) : M (sk_state out) unit :=
  match scan with
  | [] => mret tt
  | item :: rest =>
      row ← pure (row_of item);
      more ← wants_more (sk_push out row);
      if more : bool then push_items row_of out rest else mret tt
  end.

(** [while let Some(tuple) = self.exec.next()? { out.push(tuple)? }] *)
Fixpoint push_executor {S} (fuel : nat) (next : M S (option Tuple)) (out : Sink) : M (S * sk_state out) unit :=
  match fuel with
  | O => pure Panic
  | S fuel =>
      r ← zoom fst (fun s st => (s, st.2)) next;
      match r with
      | None => mret tt
      | Some t =>
          more ← wants_more (downstream (sk_push out t));
          if more : bool then push_executor fuel next out else mret tt
      end
  end.

Definition executor_source (exec : Executor) (out : Sink) : Source :=
  let '(r, st) := (push_executor (S (ex_bound exec (ex_now exec))) (ex_next exec) out;; downstream (sk_finish out))
                    (ex_now exec, sk_now out) in
  (r, sk_rows out st.2).

(** ** The builders *)

Definition combined (f : Tuple -> result bool) : JoinPredicate := fun outer inner => f (outer ++ inner).

Definition join_predicate (on : option Predicate) : result JoinPredicate :=
  match on with
  | Some p => f ← compile_predicate p; Ok (combined f)
  | None => Ok (fun _ _ => Ok true)
  end.

Definition residual_predicate (residual : option Predicate) : result (option JoinPredicate) :=
  match residual with
  | Some p => f ← compile_predicate p; Ok (Some (combined f))
  | None => Ok None
  end.

Definition find_index {I} (indexes : list (IndexHandle I)) (name : string) : result (IndexHandle I) :=
  ok_or (head (List.filter (fun ix => bool_decide (index_name (def ix) = name)) indexes)) (IndexNotFound name).

(** The predicate of a Filter: only one with a correlated form has a fault cell. *)
Definition filter_fn (predicate : Predicate) (subqueries : list InSubquerySet) (correlated : list CorrelatedEvaluator) : result FilterFn :=
  if bool_decide (length correlated = 0%nat) || negb (contains_correlated predicate)
  then f ← compile_with_subqueries predicate subqueries; Ok (PlainFilter f)
  else f ← compile_correlated predicate subqueries correlated; Ok (CorrelatedFilter f).

Section build.
Context {E I : Type} `{StorageEngine E} `{StorageEngine I}.

(** The engine, and the catalog's [get_table] and [indexes_for_table]. *)
Context (storage : E) (get_table : string -> result Schema) (indexes_for_table : Schema -> result (list (IndexHandle I))).
Context (subqueries : list InSubquerySet) (correlated : list CorrelatedEvaluator).

Definition resolve_table (name : string) : result (Table E I) :=
  schema ← get_table name;
  indexes ← indexes_for_table schema;
  Ok (mkTable storage schema indexes).

Fixpoint build_executor (plan : PhysOp) : result Executor :=
  match plan with
  | SeqScan table =>
      tbl ← resolve_table table;
      rows ← scan tbl;
      Ok (rows_executor (schema tbl) rows)
  | IndexScan table index prefix =>
      tbl ← resolve_table table;
      handle ← find_index (indexes tbl) index;
      rows ← index_scan tbl handle prefix;
      Ok (rows_executor (schema tbl) rows)
  | PkLookup table pk =>
      tbl ← resolve_table table;
      row ← get_by_pk tbl pk;
      Ok (rows_executor (schema tbl) (option_list row))
  | DerivedScan alias subplan columns => child ← build_executor subplan; Ok (derived_new alias child columns)
  | Exec.Filter input predicate =>
      child ← build_executor input;
      f ← filter_fn predicate subqueries correlated;
      Ok (filter_executor child f)
  | Projection input cols => child ← build_executor input; projection_new child cols
  | Compute input exprs => child ← build_executor input; compute_new child exprs
  | NestedLoopJoin outer inner on kind =>
      outer_ex ← build_executor outer;
      inner_ex ← build_executor inner;
      pred_fn ← join_predicate on;
      nlj_new outer_ex inner_ex pred_fn kind
  | IndexNestedLoopJoin outer inner_table inner_index outer_key_cols =>
      outer_ex ← build_executor outer;
      tbl ← resolve_table inner_table;
      handle ← find_index (indexes tbl) inner_index;
      inlj_new tbl handle outer_ex outer_key_cols
  | HashJoin outer inner outer_key_col inner_key_col kind residual =>
      outer_ex ← build_executor outer;
      inner_ex ← build_executor inner;
      residual_fn ← match kind with Inner => Ok None | LeftOuter => residual_predicate residual end;
      hash_join_new outer_ex inner_ex outer_key_col inner_key_col kind residual_fn
  | MergeJoin left_input right_input left_key_col right_key_col =>
      left_ex ← build_executor left_input;
      right_ex ← build_executor right_input;
      merge_join_new left_ex right_ex left_key_col right_key_col
  | HashAggregate input group_by aggregates =>
      child ← build_executor input;
      aggregate_new child group_by (map translate_aggregate_spec aggregates)
  | Sort input keys => child ← build_executor input; sort_new child keys
  | Limit input max_rows => child ← build_executor input; Ok (limit_executor child max_rows)
  end.

(** [Volcano::execute] *)
Definition volcano_execute (plan : PhysOp) : result (Schema * list Tuple) :=
  root ← build_executor plan;
  rows ← drain root;
  Ok (ex_schema root, rows).

(** A lazy scan of the table, which stops when the sink has enough. *)
Definition scan_source (s : Schema) (out : Sink) : Source :=
  run_sink out (push_items (fun item => '(_, row) ← item; Ok row) out (scan_table (column_types s) (table_id s) storage)).

(** Everything that is not a sink of its own runs in the pull model. *)
Definition bridge (plan : PhysOp) : result ((Sink -> Source) * Schema) :=
  exec ← build_executor plan;
  Ok (executor_source exec, ex_schema exec).

(** The chain upstream of the sink that it is given, and the schema of what it
    pushes there. *)
Fixpoint build_push (plan : PhysOp) : result ((Sink -> Source) * Schema) :=
  match plan with
  | SeqScan table => s ← get_table table; Ok (scan_source s, s)
  | Exec.Filter input predicate =>
      f ← filter_fn predicate subqueries correlated;
      '(source, s) ← build_push input;
      Ok (fun out => source (filter_sink f out), s)
  | Limit input max_rows =>
      '(source, s) ← build_push input;
      Ok (fun out => source (limit_sink max_rows out), s)
  | Projection input cols =>
      '(source, s) ← build_push input;
      _ ← check_projection s cols;
      out_schema ← project_schema s cols;
      Ok (fun out => source (projection_sink cols out), out_schema)
  | Compute input exprs =>
      evals ← mapM compile exprs;
      '(source, s) ← build_push input;
      out_schema ← build_compute_schema s exprs;
      Ok (fun out => source (compute_sink evals out), out_schema)
  | HashAggregate input ((_ :: _) as group_by) aggregates =>
      let agg_fns := map translate_aggregate_spec aggregates in
      arg_fns ← compile_args agg_fns;
      '(source, s) ← build_push input;
      out_schema ← build_aggregate_schema s group_by agg_fns;
      Ok (fun out => source (aggregate_sink group_by agg_fns arg_fns s out), out_schema)
  | _ => bridge plan
  end.

(** [Push::execute] *)
Definition push_execute (plan : PhysOp) : result (Schema * list Tuple) :=
  '(source, s) ← build_push plan;
  let '(r, rows) := source collector in
  _ ← r;
  Ok (s, rows).
End build.

(** ** The data changing operators

    They are the root of a plan.  They read everything first; only then is the
    table written. *)

Definition count_row (count : Z) : Tuple := [VInt64 count].

Section dml.
Context {E I : Type} `{StorageEngine E} `{StorageEngine I}.

Abbreviation TM := (M (Table E I)).

Fixpoint insert_rows (rows : list Tuple) (count : Z) : TM Z :=
  match rows with
  | [] => mret count
  | row :: rest => Table.insert row;; count ← pure (arith in_i64 (count + 1)); insert_rows rest count
  end.

Definition insert_next (rows : list Tuple) : TM Tuple :=
  count ← insert_rows rows 0; mret (count_row count).

(** The read phase of [Update] and [Delete]: [f] on the key of each row and the row. *)
Definition stage_row {A} (s : Schema) (f : list Value -> Tuple -> result A) (staged : list A) (row : Tuple) : result (list A) :=
  if negb (length row =? length (columns s))%nat then Panic else
  pk_values ← pick_columns (primary_key s) row;
  a ← f pk_values row;
  Ok (staged ++ [a]).

Definition stage {A} (s : Schema) (f : list Value -> Tuple -> result A) (child : Executor) : result (list A) :=
  (fold_child (S (ex_bound child (ex_now child))) (ex_next child) (stage_row s f) [] (ex_now child)).1.

(** The new value of every column that is set, from the row as it was read. *)
Definition changes_of (set_exprs : list (nat * ExpressionFn)) (row : Tuple) : result (list (nat * Value)) :=
  mapM (fun '(idx, f) => v ← f row; Ok (idx, v)) set_exprs.

Fixpoint each_staged {A} (f : A -> TM unit) (staged : list A) : TM unit :=
  match staged with
  | [] => mret tt
  | a :: rest => f a;; each_staged f rest
  end.

Definition update_next (child : Executor) (set_exprs : list (nat * ExpressionFn)) : TM Tuple :=
  t ← gets id;
  staged ← pure (stage (schema t) (fun pk row => changes ← changes_of set_exprs row; Ok (pk, changes)) child);
  each_staged (fun '(pk, changes) => update_columns pk changes) staged;;
  mret (count_row (as_signed 64 (len staged))).

Definition delete_next (child : Executor) : TM Tuple :=
  t ← gets id;
  staged ← pure (stage (schema t) (fun pk _ => Ok pk) child);
  each_staged delete_by_pk staged;;
  mret (count_row (as_signed 64 (len staged))).
End dml.
