(* ===== verification/Streams.v ===== *)
(** What an executor promises to the operator above it: it streams a list of
    rows, and its bound covers them.  Each operator that has one input is shown
    to stream the list that the operator stands for. *)

From Stdlib Require Import ZArith Lia List Bool.
From coqutil Require Import Byte.
From S2P Require Import Prelude Common Decimal Value Engine Table TableSpec Expr Aggregate Exec.
From stdpp Require Import base list strings.
#[local] Open Scope Z_scope.

(** ** The contract *)

(** Pulling from [s] gives the rows of the list, then the end. *)
Inductive streams (ex : Executor) : ex_state ex -> list Tuple -> Prop :=
| streams_end s s' : ex_next ex s = (Ok None, s') -> streams ex s []
| streams_row s s' t rows :
    ex_next ex s = (Ok (Some t), s') -> (length (t :: rows) <= ex_bound ex s)%nat -> streams ex s' rows -> streams ex s (t :: rows).

(** [streams] from the state in which an executor is built. *)
Definition yields (ex : Executor) (rows : list Tuple) : Prop := streams ex (ex_now ex) rows.

(** ** Operators on lists *)

Fixpoint filterM {A} (f : A -> result bool) (l : list A) : result (list A) :=
  match l with
  | [] => Ok []
  | x :: rest => keep ← f x; others ← filterM f rest; Ok (if keep : bool then x :: others else others)
  end.

Fixpoint foldM {A B} (f : A -> B -> result A) (acc : A) (l : list B) : result A :=
  match l with
  | [] => Ok acc
  | x :: rest => acc ← f acc x; foldM f acc rest
  end.

(** The rows of an aggregation without groups, and with them. *)
Definition total_rows (aggregates : list AggregateFn) (args : list (option ExpressionFn)) (s : Schema) (rows : list Tuple) : result (list Tuple) :=
  states ← new_states aggregates s;
  states ← foldM (update_states aggregates args) states rows;
  output ← finalize_states aggregates states;
  Ok [output].

Definition grouped_rows (group_by : list nat) (aggregates : list AggregateFn) (args : list (option ExpressionFn)) (s : Schema)
    (rows : list Tuple) : result (list Tuple) :=
  groups ← foldM (group_row group_by aggregates args s) [] rows;
  keyed ← sort_groups groups;
  mapM (group_output aggregates) keyed.

Definition aggregate_rows (group_by : list nat) (aggregates : list AggregateFn) (args : list (option ExpressionFn)) (s : Schema)
    (rows : list Tuple) : result (list Tuple) :=
  match group_by with
  | [] => total_rows aggregates args s rows
  | _ => grouped_rows group_by aggregates args s rows
  end.

(** ** Facts *)

Lemma bind_gets {S A B} (f : S -> A) (k : A -> M S B) s : (gets f ≫= k) s = k (f s) s.
Proof. done. Qed.

Lemma bind_modify {S B} (f : S -> S) (k : unit -> M S B) s : (modify f ≫= k) s = k tt (f s).
Proof. done. Qed.

Lemma bind_pure {S A B} (a : A) (k : A -> M S B) s : (pure (Ok a) ≫= k) s = k a s.
Proof. done. Qed.

(** Run the calls at the head of a stateful goal that need no case analysis. *)
Ltac mrun := repeat first [rewrite bind_gets | rewrite bind_modify | rewrite bind_pure | progress cbn beta].

Lemma streams_bound ex s rows : streams ex s rows -> (length rows <= ex_bound ex s)%nat.
Proof. intros []; cbn in *; lia. Qed.

(** To stream is to have an invariant that every pull keeps. *)
Lemma streams_intro ex (Inv : ex_state ex -> list Tuple -> Prop) :
  (forall s, Inv s [] -> exists s', ex_next ex s = (Ok None, s')) ->
  (forall s t rows, Inv s (t :: rows) ->
     (length (t :: rows) <= ex_bound ex s)%nat /\ exists s', ex_next ex s = (Ok (Some t), s') /\ Inv s' rows) ->
  forall s rows, Inv s rows -> streams ex s rows.
Proof.
  intros He Hr s rows. revert s. induction rows as [|t rows IH]; intros s Hs.
  - destruct (He s Hs) as (s' & E). by apply (streams_end ex s s').
  - destruct (Hr s t rows Hs) as (B & s' & E & Hs'). apply (streams_row ex s s'); auto.
Qed.

Lemma drain_loop_streams ex s rows fuel :
  streams ex s rows -> (length rows < fuel)%nat -> exists s', drain_loop fuel (ex_next ex) s = (Ok rows, s').
Proof.
  intros St. revert fuel. induction St as [s s' E|s s' t rows E B St IH]; intros [|fuel] F; cbn in F; try lia; cbn [drain_loop].
  - rewrite (M_Ok _ _ _ _ _ E). by eexists.
  - rewrite (M_Ok _ _ _ _ _ E). destruct (IH fuel ltac:(lia)) as (s2 & E2). rewrite (M_Ok _ _ _ _ _ E2). by eexists.
Qed.

Lemma drain_streams ex rows : yields ex rows -> drain ex = Ok rows.
Proof.
  intros St. unfold drain, drain_from. pose proof (streams_bound _ _ _ St).
  by destruct (drain_loop_streams _ _ _ (S (ex_bound ex (ex_now ex))) St ltac:(lia)) as (s' & ->).
Qed.

Lemma fold_child_streams {A} ex s rows fuel (f : A -> Tuple -> result A) acc a :
  streams ex s rows -> (length rows < fuel)%nat -> foldM f acc rows = Ok a ->
  exists s', fold_child fuel (ex_next ex) f acc s = (Ok a, s').
Proof.
  intros St. revert fuel acc. induction St as [s s' E|s s' t rows E B St IH]; intros [|fuel] acc F Fo; cbn in F, Fo; try lia; cbn [fold_child].
  - injection Fo as <-. rewrite (M_Ok _ _ _ _ _ E). by eexists.
  - bind_ok Fo as acc' E1. rewrite (M_Ok _ _ _ _ _ E). unfold pure. rewrite (M_Ok _ _ _ acc' s') by by rewrite E1. apply IH; [lia|done].
Qed.

Lemma fold_now {A} ex rows (f : A -> Tuple -> result A) acc a :
  yields ex rows -> foldM f acc rows = Ok a ->
  exists s', fold_child (S (ex_bound ex (ex_now ex))) (ex_next ex) f acc (ex_now ex) = (Ok a, s').
Proof. intros St. apply fold_child_streams; [done|]. pose proof (streams_bound _ _ _ St). lia. Qed.

Lemma filterM_length {A} f (l l' : list A) : filterM f l = Ok l' -> (length l' <= length l)%nat.
Proof.
  revert l'. induction l as [|x l IH]; intros l' E; cbn in E; [by injection E as <-|].
  bind_ok E as keep E1. bind_ok E as others E2. injection E as <-. specialize (IH _ E2). destruct keep; cbn; lia.
Qed.

(** ** Operators with one input *)

Lemma rows_executor_yields s rows : yields (rows_executor s rows) rows.
Proof.
  apply (streams_intro (rows_executor s rows) (fun (st : list Tuple) l => st = l)); [| |done].
  - intros ? ->. by eexists.
  - intros ? t l ->. cbn. split; [lia|by eexists].
Qed.

Lemma filter_yields ex f rows out :
  yields ex rows -> filterM (filter_test f) rows = Ok out -> yields (filter_executor ex f) out.
Proof.
  assert (Step : forall s rows out fuel, streams ex s rows -> filterM (filter_test f) rows = Ok out -> (length rows < fuel)%nat ->
    exists s', filter_loop fuel (ex_next ex) f s = (Ok (head out), s') /\
      (out <> [] -> exists rest, streams ex s' rest /\ filterM (filter_test f) rest = Ok (tail out))).
  { intros s l o fuel St. revert o fuel. induction St as [s s' E|s s' t l E B St IH]; intros o [|fuel] Fo F; cbn in F, Fo; try lia; cbn [filter_loop].
    - injection Fo as <-. rewrite (M_Ok _ _ _ _ _ E). exists s'. by split.
    - bind_ok Fo as keep E1. bind_ok Fo as others E2. injection Fo as <-. rewrite (M_Ok _ _ _ _ _ E).
      rewrite (M_Ok _ _ _ keep s') by (unfold pure; by rewrite E1).
      destruct keep; [exists s'; split; [done|]; intros _; by exists l|]. apply IH; [done|lia]. }
  intros St Fo. apply (streams_intro (filter_executor ex f) (fun s o => exists l, streams ex s l /\ filterM (filter_test f) l = Ok o)); [| |by exists rows].
  - intros s (l & Sl & Fl). cbn. destruct (Step s l [] (S (ex_bound ex s)) Sl Fl) as (s' & E & _); [|by eexists].
    pose proof (streams_bound _ _ _ Sl). lia.
  - intros s t o (l & Sl & Fl). cbn [ex_bound ex_next filter_executor]. pose proof (streams_bound _ _ _ Sl). pose proof (filterM_length _ _ _ Fl).
    split; [lia|]. destruct (Step s l (t :: o) (S (ex_bound ex s)) Sl Fl ltac:(lia)) as (s' & E & Rest).
    exists s'. split; [done|]. by apply Rest.
Qed.

Lemma mapM_nil_inv {A B} (f : A -> result B) l : mapM f l = Ok [] -> l = [].
Proof. destruct l; [done|]. cbn. intros E. bind_ok E as b E1. bind_ok E as bs E2. done. Qed.

Lemma mapM_length_ok {A B} (f : A -> result B) l l' : mapM f l = Ok l' -> length l' = length l.
Proof.
  revert l'. induction l as [|x l IH]; intros l' E; cbn in E; [by injection E as <-|].
  bind_ok E as b E1. bind_ok E as bs E2. injection E as <-. cbn. f_equal. by apply IH.
Qed.

Lemma map_yields ex s f rows out : yields ex rows -> mapM f rows = Ok out -> yields (map_executor ex s f) out.
Proof.
  intros St Mo. apply (streams_intro (map_executor ex s f) (fun st o => exists l, streams ex st l /\ mapM f l = Ok o)); [| |by exists rows].
  - intros st (l & Sl & Ml). apply mapM_nil_inv in Ml as ->. inversion Sl as [? s' E|]; subst. cbn. rewrite (M_Ok _ _ _ _ _ E). by eexists.
  - intros st t o (l & Sl & Ml). pose proof (mapM_length_ok _ _ _ Ml). pose proof (streams_bound _ _ _ Sl). cbn [ex_bound ex_next map_executor].
    split; [lia|]. inversion Sl as [|? s' x l' E B Sl']; subst; [done|]. cbn in Ml. bind_ok Ml as b E1. bind_ok Ml as bs E2. injection Ml as -> ->.
    rewrite (M_Ok _ _ _ _ _ E). rewrite (M_Ok _ _ _ t s') by (unfold pure; by rewrite E1). exists s'. split; [done|]. by exists l'.
Qed.

Lemma limit_yields ex n rows : yields ex rows -> yields (limit_executor ex n) (take n rows).
Proof.
  intros St. apply (streams_intro (limit_executor ex n)
    (fun st o => exists l, streams ex st.1 l /\ o = take (n - st.2)%nat l)); [| |by exists rows; rewrite Nat.sub_0_r].
  - intros [s y] (l & Sl & El). cbn in *. destruct (Nat.leb_spec n y); [by eexists|].
    inversion Sl as [? s' E|? s' x l' E B Sl']; subst; [rewrite E; by eexists|].
    destruct (n - y)%nat eqn:D; [lia|done].
  - intros [s y] t o (l & Sl & El). cbn [fst snd] in *. pose proof (streams_bound _ _ _ Sl) as B.
    assert (L : (length (t :: o) <= length l)%nat) by (rewrite El, length_take; lia).
    cbn [ex_bound ex_next limit_executor fst]. split; [lia|]. destruct (n - y)%nat as [|d] eqn:D; [done|].
    inversion Sl as [|? s' x l' E B' Sl']; subst; [done|]. injection El as -> ->.
    destruct (Nat.leb_spec n y); [lia|]. rewrite E. eexists. split; [done|]. exists l'. cbn. split; [done|]. f_equal. lia.
Qed.

(** An operator that computes its output at once streams it. *)
Lemma eager_yields child s compute out :
  (exists st, compute (ex_now child) = (Ok out, st)) -> (length out <= S (ex_bound child (ex_now child)))%nat ->
  yields (eager_executor child s compute) out.
Proof.
  intros (st & E) B. set (ex := eager_executor child s compute).
  assert (Buffered : forall cs l, streams ex (cs, Some l) l).
  { intros cs l. apply (streams_intro ex (fun st o => st.2 = Some o)); [| |done].
    - intros [x y] ?; cbn in *; subst. by eexists.
    - intros [x y] t o ?; cbn in *; subst. split; [cbn; lia|]. by eexists. }
  unfold yields. destruct out as [|t out].
  - apply (streams_end ex (ex_now child, None) (st, Some [])). cbn. by rewrite E.
  - apply (streams_row ex (ex_now child, None) (st, Some out)); [cbn; by rewrite E|done|apply Buffered].
Qed.

Lemma insert_by_perm {A} (cmp : A -> A -> result comparison) x l l' : insert_by cmp x l = Ok l' -> l' ≡ₚ x :: l.
Proof.
  revert l'. induction l as [|y l IH]; intros l' E; cbn in E; [by injection E as <-|].
  bind_ok E as c Ec. destruct c; [by injection E as <-..|]. bind_ok E as rest Er. injection E as <-.
  rewrite (IH _ Er). apply Permutation_swap.
Qed.

Lemma sort_by_perm {A} (cmp : A -> A -> result comparison) l l' : sort_by cmp l = Ok l' -> l' ≡ₚ l.
Proof.
  revert l'. induction l as [|x l IH]; intros l' E; cbn in E; [by injection E as <-|].
  bind_ok E as m Em. apply insert_by_perm in E. rewrite E. by rewrite (IH _ Em).
Qed.

Lemma derived_fold (rows acc : list Tuple) :
  len acc + len rows <= MAX_DERIVED_ROWS ->
  foldM (fun buffer row => if len buffer <? MAX_DERIVED_ROWS then Ok (buffer ++ [row]) else Panic) acc rows = Ok (acc ++ rows).
Proof.
  revert acc. induction rows as [|row rows IH]; intros acc L; cbn [foldM]; [by rewrite app_nil_r|].
  rewrite len_cons in L. pose proof (len_nonneg rows). destruct (Z.ltb_spec (len acc) MAX_DERIVED_ROWS); [|lia].
  cbn [mbind outcome_bind]. rewrite IH; [by rewrite <- app_assoc|]. rewrite len_app, len_cons, len_nil. lia.
Qed.

Lemma derived_yields alias ex cols rows : yields ex rows -> len rows <= MAX_DERIVED_ROWS -> yields (derived_new alias ex cols) rows.
Proof.
  intros St L. apply eager_yields.
  - apply (fold_now ex rows); [done|]. by rewrite derived_fold.
  - pose proof (streams_bound _ _ _ St). lia.
Qed.

Lemma sort_yields ex keys rows out :
  yields ex rows -> sort_by (compare_rows keys) rows = Ok out ->
  yields (eager_executor ex (ex_schema ex) (sorted_rows ex keys)) out.
Proof.
  intros St So. pose proof (streams_bound _ _ _ St) as B. apply eager_yields.
  - unfold sorted_rows.
    destruct (drain_loop_streams ex _ _ (S (ex_bound ex (ex_now ex))) St ltac:(lia)) as (s & E).
    change (drain_child ex (ex_now ex) = (Ok rows, s)) in E. rewrite (M_Ok _ _ _ _ _ E). unfold pure. rewrite So. by eexists.
  - apply sort_by_perm, Permutation_length in So. lia.
Qed.

Lemma update_group_length key fresh update groups groups' :
  update_group key fresh update groups = Ok groups' -> (length groups' <= S (length groups))%nat.
Proof.
  revert groups'. induction groups as [|[k st] groups IH]; intros g E; cbn in E.
  - bind_ok E as x Ex. bind_ok E as y Ey. injection E as <-. cbn. lia.
  - case_bool_decide; bind_ok E as x Ex; injection E as <-; cbn; [lia|]. specialize (IH _ Ex). lia.
Qed.

Lemma foldM_length {A B} (f : list A -> B -> result (list A)) :
  (forall acc x acc', f acc x = Ok acc' -> (length acc' <= S (length acc))%nat) ->
  forall rows acc acc', foldM f acc rows = Ok acc' -> (length acc' <= length acc + length rows)%nat.
Proof.
  intros Hf rows. induction rows as [|x rows IH]; intros acc acc' E; cbn in E; [injection E as <-; lia|].
  bind_ok E as a Ea. apply Hf in Ea. apply IH in E. cbn. lia.
Qed.

Lemma aggregate_rows_length group_by aggregates args s rows out :
  aggregate_rows group_by aggregates args s rows = Ok out -> (length out <= S (length rows))%nat.
Proof.
  unfold aggregate_rows. intros E. destruct group_by as [|c cols].
  - unfold total_rows in E. inv_ok. cbn. lia.
  - unfold grouped_rows in E. bind_ok E as groups Eg. bind_ok E as keyed Ek. apply mapM_length_ok in E. apply sort_by_perm, Permutation_length in Ek.
    apply foldM_length in Eg; [cbn in Eg; lia|]. intros acc x acc' Ex. unfold group_row in Ex. bind_ok Ex as key Ey.
    by apply update_group_length in Ex.
Qed.

Lemma compute_yields child group_by aggregates args rows out s :
  yields child rows -> aggregate_rows group_by aggregates args (ex_schema child) rows = Ok out ->
  yields (eager_executor child s
    (match group_by with [] => compute_ungrouped child aggregates args | _ => compute_grouped child group_by aggregates args end)) out.
Proof.
  intros St Ag. apply eager_yields.
  - unfold aggregate_rows in Ag. destruct group_by as [|c cols].
    + unfold total_rows in Ag. bind_ok Ag as states E1. bind_ok Ag as states' E2. bind_ok Ag as output E3. injection Ag as <-.
      unfold compute_ungrouped. rewrite (M_Ok _ _ _ states (ex_now child)) by (unfold pure; by rewrite E1).
      destruct (fold_now child rows _ _ _ St E2) as (s1 & E). rewrite (M_Ok _ _ _ _ _ E).
      rewrite (M_Ok _ _ _ output s1) by (unfold pure; by rewrite E3). by eexists.
    + unfold grouped_rows in Ag. bind_ok Ag as groups E1. bind_ok Ag as keyed E2.
      unfold compute_grouped. destruct (fold_now child rows _ _ _ St E1) as (s1 & E). rewrite (M_Ok _ _ _ _ _ E).
      rewrite (M_Ok _ _ _ keyed s1) by (unfold pure; by rewrite E2). unfold pure. rewrite Ag. by eexists.
  - apply aggregate_rows_length in Ag. pose proof (streams_bound _ _ _ St). lia.
Qed.
