(* ===== verification/Joins.v ===== *)
(** The joins (operators/join.rs): nested loops, hashing, merging and probing an
    index all stream the rows of one definition, [join_rows], in the same order. *)

From Stdlib Require Import ZArith QArith Lia List Bool.
From coqutil Require Import Byte.
From S2P Require Import Prelude Common Decimal Value KeyEnc Tuple Engine Table TableSpec Expr Aggregate Exec Streams.
From stdpp Require Import base list strings sorting.
#[local] Open Scope Z_scope.

(** ** The reference *)

(** The rows for one outer row, from the inner rows that match it. *)
Definition emit (kind : JoinKind) (right_width : nat) (outer_row : Tuple) (found : list Tuple) : list Tuple :=
  match found with
  | [] => if is_left_outer kind then [padded outer_row right_width] else []
  | _ => map (app outer_row) found
  end.

Fixpoint join_rows (kind : JoinKind) (right_width : nat) (test : JoinPredicate) (outer inner : list Tuple) : result (list Tuple) :=
  match outer with
  | [] => Ok []
  | outer_row :: rest =>
      found ← filterM (test outer_row) inner;
      others ← join_rows kind right_width test rest inner;
      Ok (emit kind right_width outer_row found ++ others)
  end.

(** Equality of two key columns, and then the rest of the condition. *)
Definition key_test (outer_key_col inner_key_col : nat) (residual : option JoinPredicate) : JoinPredicate := fun outer_row inner_row =>
  a ← at_index outer_row outer_key_col;
  b ← at_index inner_row inner_key_col;
  equal ← equal_keys a b;
  if equal : bool then survives residual outer_row inner_row else Ok false.

(** The values of a key column are in the range of their type. *)
Definition key_wf (col : nat) (row : Tuple) : bool := match row !! col with Some v => value_wf v | None => false end.
Definition keys_wf (col : nat) (rows : list Tuple) : bool := forallb (key_wf col) rows.

(** ** Nested loops *)

Lemma first_match_spec p l found idx :
  filterM p l = Ok found ->
  match found with
  | [] => first_match p l idx = Ok None
  | m :: rest =>
      exists k, first_match p l idx = Ok (Some (m, (idx + S k)%nat)) /\ (k < length l)%nat /\ filterM p (drop (S k) l) = Ok rest
  end.
Proof.
  revert found idx. induction l as [|x l IH]; intros found idx E; cbn in E; [by injection E as <-|].
  bind_ok E as keep E1. bind_ok E as others E2. injection E as <-. cbn [first_match]. rewrite E1. cbn [mbind outcome_bind]. destruct keep.
  - exists 0%nat. split_and!; [by replace (idx + 1)%nat with (S idx) by lia|cbn; lia|done].
  - specialize (IH others (S idx) E2). destruct others as [|m rest]; [done|]. destruct IH as (k & -> & Lk & D).
    exists (S k). split_and!; [by replace (idx + S (S k))%nat with (S idx + S k)%nat by lia|cbn; lia|done].
Qed.

(** What is left for an outer row when its candidates from now on are [l]. *)
Definition remaining (kind : JoinKind) (right_width : nat) (outer_row : Tuple) (emitted : bool) (found : list Tuple) : list Tuple :=
  if emitted then map (app outer_row) found else emit kind right_width outer_row found.

Lemma remaining_length kind w o b found n :
  (length found <= n)%nat -> (length (remaining kind w o b found) <= S n)%nat.
Proof.
  intros L. unfold remaining, emit. destruct b; [rewrite length_map; lia|].
  destruct found; [destruct (is_left_outer kind); cbn; lia|rewrite length_map; lia].
Qed.

Lemma remaining_cons kind w o b m found : remaining kind w o b (m :: found) = (o ++ m) :: map (app o) found.
Proof. by destruct b. Qed.

Lemma remaining_nil kind w o b : remaining kind w o b [] = if is_left_outer kind && negb b then [padded o w] else [].
Proof. unfold remaining, emit. destruct b; cbn; [by rewrite andb_false_r|]. by rewrite andb_true_r. Qed.

Lemma join_rows_length kind w test outer inner out n :
  join_rows kind w test outer inner = Ok out -> (length inner <= n)%nat -> (length out <= length outer * S n)%nat.
Proof.
  revert out. induction outer as [|o outer IH]; intros out E L; cbn in E; [injection E as <-; cbn; lia|].
  bind_ok E as found Ef. bind_ok E as others Eo. injection E as <-. apply filterM_length in Ef.
  pose proof (remaining_length kind w o false found n ltac:(lia)) as R. cbn in R. rewrite length_app. specialize (IH _ Eo L). cbn. lia.
Qed.

Section nlj.
Context (outer : Executor) (inner : list Tuple) (test : JoinPredicate) (kind : JoinKind) (w : nat).
Abbreviation loop := (nlj_loop (ex_next outer) inner test kind w).

(** What an NLJ still has to give. *)
Definition nlj_inv (st : NljState (ex_state outer)) (out : list Tuple) : Prop :=
  exists rows others, streams outer (nl_outer st) rows /\ join_rows kind w test rows inner = Ok others /\
  match nl_current st with
  | None => out = others
  | Some o => exists found, filterM (test o) (drop (nl_cursor st) inner) = Ok found /\
      out = remaining kind w o (nl_matched st) found ++ others /\ (nl_emitted st <= nl_cursor st <= length inner)%nat
  end.

(** The loop at an outer row: its next row, or on to the next outer row. *)
Lemma nlj_at s o c b k found fuel :
  filterM (test o) (drop c inner) = Ok found -> (k <= c <= length inner)%nat ->
  match remaining kind w o b found with
  | [] => loop (S fuel) (mkNlj s (Some o) c b k) = loop fuel (mkNlj s None (length inner) b k)
  | t :: rest => exists st', loop (S fuel) (mkNlj s (Some o) c b k) = (Ok (Some t), st') /\ nl_outer st' = s /\
      (nl_current st' = None /\ rest = [] \/
       nl_current st' = Some o /\ nl_matched st' = true /\ (nl_emitted st' <= nl_cursor st' <= length inner)%nat /\
       exists found', filterM (test o) (drop (nl_cursor st') inner) = Ok found' /\ rest = map (app o) found')
  end.
Proof.
  intros Ef Hc. pose proof (first_match_spec _ _ _ c Ef) as Fm. cbn [nlj_loop].
  rewrite (M_Ok _ _ _ (Some o) (mkNlj s (Some o) c b k)) by done. mrun. cbn [id nl_cursor nl_matched nl_emitted].
  destruct found as [|m found].
  - rewrite remaining_nil, Fm. mrun. cbn [nl_outer nl_current nl_matched nl_emitted].
    destruct (is_left_outer kind && negb b); [|done]. eexists. split; [done|]. cbn. auto.
  - rewrite remaining_cons. destruct Fm as (j & -> & Lj & D). rewrite length_drop in Lj. mrun.
    destruct (Nat.ltb_spec (length inner) (S k)); [lia|]. eexists. split; [done|]. cbn. split; [done|]. right. split_and!; [done..|lia|lia|].
    exists found. split; [|done]. by rewrite <- D, drop_drop.
Qed.

Lemma nlj_pull s s' o c b k fuel :
  ex_next outer s = (Ok (Some o), s') -> loop (S fuel) (mkNlj s None c b k) = loop (S fuel) (mkNlj s' (Some o) 0 false 0).
Proof. intros E. cbn [nlj_loop]. unfold mbind at 1 3, M_bind, nlj_outer. cbn [nl_current nl_outer]. by rewrite E. Qed.

Lemma nlj_none rows : forall s out c b k fuel,
  streams outer s rows -> join_rows kind w test rows inner = Ok out -> (length rows < fuel)%nat ->
  exists st', loop fuel (mkNlj s None c b k) = (Ok (head out), st') /\ (out <> [] -> nlj_inv st' (tail out)).
Proof.
  induction rows as [|o rows IH]; intros s out c b k [|fuel] St J F; cbn in F; try lia.
  - injection J as <-. inversion St as [? s' E|]; subst. eexists. split; [|done]. cbn [nlj_loop].
    unfold mbind at 1, M_bind, nlj_outer. cbn [nl_current nl_outer]. by rewrite E.
  - inversion St as [|? s' ? ? E B St']; subst. cbn [join_rows] in J. bind_ok J as found Ef. bind_ok J as others Eo. injection J as <-.
    rewrite (nlj_pull _ _ _ _ _ _ _ E). pose proof (nlj_at s' o 0 false 0 found fuel Ef ltac:(lia)) as At.
    change (emit kind w o found) with (remaining kind w o false found). destruct (remaining kind w o false found) as [|t rest].
    + rewrite At. apply (IH s'); [done..|lia].
    + destruct At as (st' & -> & Es & Cur). exists st'. split; [done|]. intros _. exists rows, others. rewrite Es. split_and!; [done..|].
      destruct Cur as [(-> & ->)|(-> & -> & Lc & found' & Ef' & ->)]; [done|]. by exists found'.
Qed.

Lemma nlj_step st out : nlj_inv st out ->
  exists st', loop (S (S (ex_bound outer (nl_outer st)))) st = (Ok (head out), st') /\ (out <> [] -> nlj_inv st' (tail out)).
Proof.
  destruct st as [s [o|] c b k]; intros (rows & others & St & J & Cur); cbn [nl_outer nl_current nl_cursor nl_matched nl_emitted] in *;
    pose proof (streams_bound _ _ _ St) as B.
  - destruct Cur as (found & Ef & -> & Hc). pose proof (nlj_at s o c b k found (S (ex_bound outer s)) Ef Hc) as At.
    destruct (remaining kind w o b found) as [|t rest].
    + rewrite At. apply (nlj_none rows); [done..|lia].
    + destruct At as (st' & -> & Es & Cur). exists st'. split; [done|]. intros _. exists rows, others. rewrite Es. split_and!; [done..|].
      destruct Cur as [(-> & ->)|(-> & -> & Lc & found' & Ef' & ->)]; [done|]. by exists found'.
  - subst out. apply (nlj_none rows); [done..|lia].
Qed.

Lemma nlj_inv_length st out : nlj_inv st out ->
  (length out <= (match nl_current st with Some _ => 1 | None => 0 end + ex_bound outer (nl_outer st)) * S (length inner))%nat.
Proof.
  intros (rows & others & St & J & Cur). apply streams_bound in St. apply (join_rows_length _ _ _ _ _ _ (length inner)) in J; [|done].
  destruct (nl_current st) as [o|]; [|subst; nia]. destruct Cur as (found & Ef & -> & Hc).
  apply filterM_length in Ef. rewrite length_drop in Ef. rewrite length_app.
  pose proof (remaining_length kind w o (nl_matched st) found (length inner) ltac:(lia)). nia.
Qed.
End nlj.

Lemma nlj_yields outer inner test kind rows inner_rows out :
  yields outer rows -> yields inner inner_rows ->
  join_rows kind (length (columns (ex_schema inner))) test rows inner_rows = Ok out ->
  exists ex, nlj_new outer inner test kind = Ok ex /\ yields ex out /\
    ex_schema ex = concat_schemas (ex_schema outer) (ex_schema inner) (is_left_outer kind).
Proof.
  intros So Si J. unfold nlj_new. rewrite (drain_streams _ _ Si). cbn [mbind outcome_bind]. eexists. split; [done|]. split; [|done].
  set (w := length (columns (ex_schema inner))) in *.
  apply (streams_intro (mkExecutor _ _ _ _ _) (nlj_inv outer inner_rows test kind w)); [| |by exists rows, out].
  - intros st Inv. destruct (nlj_step _ _ _ _ _ _ _ Inv) as (st' & E & _). by exists st'.
  - intros st t rest Inv. split; [by apply (nlj_inv_length _ _ _ _ _ _ _ Inv)|].
    destruct (nlj_step _ _ _ _ _ _ _ Inv) as (st' & E & Rest). exists st'. split; [done|]. by apply Rest.
Qed.

(** ** Hashing *)

(** A join that finds candidates for an outer row and then tests them. *)
Fixpoint probe_join (kind : JoinKind) (right_width : nat) (candidates : Tuple -> result (list Tuple)) (test : JoinPredicate) (outer : list Tuple) :
    result (list Tuple) :=
  match outer with
  | [] => Ok []
  | outer_row :: rest =>
      found ← (l ← candidates outer_row; filterM (test outer_row) l);
      others ← probe_join kind right_width candidates test rest;
      Ok (emit kind right_width outer_row found ++ others)
  end.

Lemma probe_join_ext kind w candidates test outer inner test' :
  Forall (fun o => (l ← candidates o; filterM (test o) l) = filterM (test' o) inner) outer ->
  probe_join kind w candidates test outer = join_rows kind w test' outer inner.
Proof. intros F. induction F as [|o outer Eo F IH]; [done|]. cbn [probe_join join_rows]. by rewrite Eo, IH. Qed.

Lemma probe_join_length kind w candidates test outer out n :
  (forall o l, candidates o = Ok l -> (length l <= n)%nat) -> probe_join kind w candidates test outer = Ok out ->
  (length out <= length outer * S n)%nat.
Proof.
  intros L. revert out. induction outer as [|o outer IH]; intros out E; cbn in E; [injection E as <-; cbn; lia|].
  bind_ok E as found Ef. bind_ok E as others Eo. injection E as <-. bind_ok Ef as l El. apply L in El. apply filterM_length in Ef.
  pose proof (remaining_length kind w o false found n ltac:(lia)) as R. cbn in R. rewrite length_app. specialize (IH _ Eo). cbn. lia.
Qed.

Section hash.
Context (outer : Executor) (table : HashTable) (outer_key_col : nat) (kind : JoinKind) (residual : option JoinPredicate) (w : nat).
Abbreviation loop := (hash_loop (ex_next outer) table outer_key_col kind residual w).
Abbreviation probe := (hash_probe table outer_key_col).
Abbreviation joins rows := (probe_join kind w probe (survives residual) rows).

Definition hash_inv (st : HashState (ex_state outer)) (out : list Tuple) : Prop :=
  exists rows others, streams outer (hj_outer st) rows /\ joins rows = Ok others /\
  match hj_current st with
  | None => out = others
  | Some o => exists found, filterM (survives residual o) (drop (hj_cursor st) (hj_matches st)) = Ok found /\
      out = remaining kind w o (hj_emitted st) found ++ others /\ (length (hj_matches st) <= table_size table)%nat
  end.

(** The loop at an outer row: its next row, or on as if there were none. *)
Lemma hash_at s o l c b found fuel :
  filterM (survives residual o) (drop c l) = Ok found ->
  match remaining kind w o b found with
  | [] => exists c', loop (S fuel) (mkHash s (Some o) l c b) = loop (S fuel) (mkHash s None l c' b)
  | t :: rest => exists st', loop (S fuel) (mkHash s (Some o) l c b) = (Ok (Some t), st') /\ hj_outer st' = s /\
      (hj_current st' = None /\ rest = [] \/
       hj_current st' = Some o /\ hj_emitted st' = true /\ hj_matches st' = l /\
       exists found', filterM (survives residual o) (drop (hj_cursor st') l) = Ok found' /\ rest = map (app o) found')
  end.
Proof.
  intros Ef. pose proof (first_match_spec _ _ _ c Ef) as Fm. destruct found as [|m found].
  - assert (E : hash_emit kind residual w (mkHash s (Some o) l c b) =
      (Ok (head (remaining kind w o b [])), mkHash s None l (length l) b)).
    { unfold hash_emit. mrun. cbn [id hj_current hj_cursor hj_matches hj_emitted]. rewrite Fm, remaining_nil. mrun. cbn.
      by destruct (is_left_outer kind && negb b). }
    revert E. rewrite remaining_nil. destruct (is_left_outer kind && negb b); intros E.
    + cbn [hash_loop]. rewrite (M_Ok _ _ _ _ _ E). eexists. split; [done|]. cbn. auto.
    + exists (length l). cbn [hash_loop]. by rewrite (M_Ok _ _ _ _ _ E), (M_Ok _ _ _ None (mkHash s None l (length l) b)) by done.
  - rewrite remaining_cons. destruct Fm as (j & Fm & Lj & D).
    assert (E : hash_emit kind residual w (mkHash s (Some o) l c b) = (Ok (Some (o ++ m)), mkHash s (Some o) l (c + S j) true)).
    { unfold hash_emit. mrun. cbn [id hj_current hj_cursor hj_matches hj_emitted]. rewrite Fm. by mrun. }
    cbn [hash_loop]. rewrite (M_Ok _ _ _ _ _ E). eexists. split; [done|]. cbn. split; [done|]. right. split_and!; [done..|].
    exists found. split; [|done]. by rewrite <- D, drop_drop.
Qed.

Lemma bucket_size key : (length (bucket key table) <= table_size table)%nat.
Proof.
  unfold table_size. induction table as [|[k rows] rest IH]; cbn; [lia|]. rewrite length_app. case_bool_decide; cbn; lia.
Qed.

Lemma probe_size o l : probe o = Ok l -> (length l <= table_size table)%nat.
Proof.
  unfold hash_probe. intros E. bind_ok E as key Ek. destruct (is_null key); [injection E as <-; cbn; lia|].
  bind_ok E as k Ek'. injection E as <-. apply bucket_size.
Qed.

Lemma hash_pull_row s s' o l c b l' fuel :
  ex_next outer s = (Ok (Some o), s') -> probe o = Ok l' ->
  loop (S fuel) (mkHash s None l c b) = loop fuel (mkHash s' (Some o) l' 0 false).
Proof.
  intros E P. cbn [hash_loop]. rewrite (M_Ok _ _ _ None (mkHash s None l c b)) by done.
  rewrite (M_Ok _ _ _ (Some o) (mkHash s' None l c b)) by (unfold hash_pull, zoom; cbn; by rewrite E).
  rewrite P. by mrun.
Qed.

Lemma hash_none rows : forall s out l c b fuel,
  streams outer s rows -> joins rows = Ok out -> (length rows < fuel)%nat ->
  exists st', loop fuel (mkHash s None l c b) = (Ok (head out), st') /\ (out <> [] -> hash_inv st' (tail out)).
Proof.
  induction rows as [|o rows IH]; intros s out l c b [|fuel] St J F; cbn in F; try lia.
  - injection J as <-. inversion St as [? s' E|]; subst. eexists. split; [|done]. cbn [hash_loop].
    rewrite (M_Ok _ _ _ None (mkHash s None l c b)) by done. by rewrite (M_Ok _ _ _ None (mkHash s' None l c b)) by (unfold hash_pull, zoom; cbn; by rewrite E).
  - inversion St as [|? s' ? ? E B St']; subst. cbn [probe_join] in J. bind_ok J as found Ef. bind_ok J as others Eo. injection J as <-.
    bind_ok Ef as l' P. rewrite (hash_pull_row _ _ _ _ _ _ _ _ E P). destruct fuel as [|fuel]; [lia|].
    pose proof (hash_at s' o l' 0 false found fuel Ef) as At.
    change (emit kind w o found) with (remaining kind w o false found). destruct (remaining kind w o false found) as [|t rest].
    + destruct At as (c' & ->). apply (IH s'); [done..|lia].
    + destruct At as (st' & -> & Es & Cur). exists st'. split; [done|]. intros _. exists rows, others. rewrite Es. split_and!; [done..|].
      destruct Cur as [(-> & ->)|(-> & -> & -> & found' & Ef' & ->)]; [done|]. exists found'. split_and!; [done..|]. by apply (probe_size o).
Qed.

Lemma hash_step st out : hash_inv st out ->
  exists st', loop (S (S (ex_bound outer (hj_outer st)))) st = (Ok (head out), st') /\ (out <> [] -> hash_inv st' (tail out)).
Proof.
  destruct st as [s [o|] l c b]; intros (rows & others & St & J & Cur); cbn [hj_outer hj_current hj_cursor hj_matches hj_emitted] in *;
    pose proof (streams_bound _ _ _ St) as B.
  - destruct Cur as (found & Ef & -> & Hl). pose proof (hash_at s o l c b found (S (ex_bound outer s)) Ef) as At.
    destruct (remaining kind w o b found) as [|t rest].
    + destruct At as (c' & ->). apply (hash_none rows); [done..|lia].
    + destruct At as (st' & -> & Es & Cur). exists st'. split; [done|]. intros _. exists rows, others. rewrite Es. split_and!; [done..|].
      destruct Cur as [(-> & ->)|(-> & -> & -> & found' & Ef' & ->)]; [done|]. by exists found'.
  - subst out. apply (hash_none rows); [done..|lia].
Qed.

Lemma hash_inv_length st out : hash_inv st out ->
  (length out <= (match hj_current st with Some _ => 1 | None => 0 end + ex_bound outer (hj_outer st)) * S (table_size table))%nat.
Proof.
  intros (rows & others & St & J & Cur). apply streams_bound in St. apply (probe_join_length _ _ _ _ _ _ (table_size table)) in J; [|apply probe_size].
  destruct (hj_current st) as [o|]; [|subst; nia]. destruct Cur as (found & Ef & -> & Hl).
  apply filterM_length in Ef. rewrite length_drop in Ef. rewrite length_app.
  pose proof (remaining_length kind w o (hj_emitted st) found (table_size table) ltac:(lia)). nia.
Qed.
End hash.

Lemma bucket_push k k' row table :
  bucket k (push_bucket k' row table) = bucket k table ++ (if bool_decide (k' = k) then [row] else []).
Proof.
  induction table as [|[j rows] table IH]; cbn.
  - by case_bool_decide.
  - destruct (decide (j = k')) as [->|N].
    + rewrite bool_decide_true by done. cbn. case_bool_decide; [done|]. by rewrite app_nil_r.
    + rewrite bool_decide_false by done. cbn. destruct (decide (j = k)) as [->|N']; [|by rewrite !(bool_decide_false (j = k))].
      rewrite !(bool_decide_true (k = k)), bool_decide_false by congruence. by rewrite app_nil_r.
Qed.

(** The join key that a row is hashed under. *)
Definition hashed_key (col : nat) (row : Tuple) : option Value :=
  match row !! col with
  | Some v => if is_null v then None else match join_key_normalized v with Ok k => Some k | _ => None end
  | None => None
  end.

Lemma is_null_false v : is_null v = false -> v <> VNull.
Proof. by destruct v. Qed.

Lemma hash_rows_ok col rows : forall table, keys_wf col rows = true ->
  exists table', foldM (hash_row col) table rows = Ok table' /\
    forall k, bucket k table' = bucket k table ++ List.filter (fun row => bool_decide (hashed_key col row = Some k)) rows.
Proof.
  induction rows as [|row rows IH]; intros table W; [exists table; split; [done|]; intros k; by rewrite app_nil_r|].
  cbn in W. apply andb_true_iff in W as [W1 W2]. unfold key_wf in W1. destruct (row !! col) as [v|] eqn:Ev; [|done].
  assert (Hk : hashed_key col row = if is_null v then None else match join_key_normalized v with Ok k => Some k | _ => None end)
    by (unfold hashed_key; by rewrite Ev).
  assert (Hr : hash_row col table row = if is_null v then Ok table else k ← join_key_normalized v; Ok (push_bucket k row table))
    by (unfold hash_row, at_index; by rewrite Ev).
  cbn [foldM List.filter]. rewrite Hr. destruct (is_null v) eqn:Nv; cbn [mbind outcome_bind].
  - destruct (IH table W2) as (t & -> & Ht). exists t. split; [done|]. intros k. rewrite Ht, Hk. done.
  - destruct (join_keys_equal v v W1 W1 (is_null_false _ Nv) (is_null_false _ Nv)) as (kv & _ & Ek & _ & _). rewrite Ek in *. cbn [mbind outcome_bind].
    destruct (IH (push_bucket kv row table) W2) as (t & -> & Ht). exists t. split; [done|]. intros k. rewrite Ht, bucket_push, <- app_assoc, Hk. f_equal.
    destruct (decide (kv = k)) as [->|N]; [by rewrite !bool_decide_true|]. rewrite !bool_decide_false by congruence. done.
Qed.

Lemma filter_none {A} (l : list A) : List.filter (fun _ => false) l = [].
Proof. by induction l. Qed.

Lemma filterM_filter {A} (p : A -> result bool) (q : A -> bool) (l : list A) r :
  Forall (fun x => r x = if q x then p x else Ok false) l -> filterM p (List.filter q l) = filterM r l.
Proof.
  intros F. induction F as [|x l E F IH]; [done|]. cbn. rewrite E. destruct (q x); cbn; rewrite IH; [done|]. by destruct (filterM r l).
Qed.

Lemma keys_wf_row col rows row : keys_wf col rows = true -> In row rows -> exists v, row !! col = Some v /\ value_wf v = true.
Proof.
  intros W Hin. apply forallb_forall with (x := row) in W; [|done]. unfold key_wf in W. destruct (row !! col) as [v|]; [by exists v|done].
Qed.

(** Probing the hash table finds what comparing every inner row would. *)
Lemma probe_finds table okc ic residual inner o :
  keys_wf ic inner = true -> key_wf okc o = true -> foldM (hash_row ic) [] inner = Ok table ->
  (l ← hash_probe table okc o; filterM (survives residual o) l) = filterM (key_test okc ic residual o) inner.
Proof.
  intros Wi Wo Ft. destruct (hash_rows_ok ic inner [] Wi) as (t & Et & Ht). rewrite Ft in Et. injection Et as <-.
  unfold key_wf in Wo. destruct (o !! okc) as [v|] eqn:Ev; [|done].
  assert (Test : forall i w, i !! ic = Some w -> key_test okc ic residual o i = (equal ← equal_keys v w; if equal : bool then survives residual o i else Ok false)).
  { intros i x Ei. unfold key_test, at_index. by rewrite Ev, Ei. }
  unfold hash_probe, at_index. rewrite Ev. cbn [unwrap mbind outcome_bind]. destruct (is_null v) eqn:Nv.
  - cbn [mbind outcome_bind]. rewrite <- (filterM_filter (survives residual o) (fun _ => false) inner); [by rewrite filter_none|].
    apply List.Forall_forall. intros i Hi. destruct (keys_wf_row _ _ _ Wi Hi) as (x & Ei & Wx). rewrite (Test _ _ Ei). by destruct v.
  - destruct (join_keys_equal v v Wo Wo (is_null_false _ Nv) (is_null_false _ Nv)) as (kv & _ & Ek & _ & _). rewrite Ek. cbn [mbind outcome_bind].
    rewrite Ht. apply filterM_filter. apply List.Forall_forall. intros i Hi. destruct (keys_wf_row _ _ _ Wi Hi) as (x & Ei & Wx).
    rewrite (Test _ _ Ei). unfold hashed_key. rewrite Ei. unfold equal_keys. destruct (is_null x) eqn:Nx.
    + rewrite bool_decide_false by done. by destruct v, x.
    + destruct (join_keys_equal v x Wo Wx (is_null_false _ Nv) (is_null_false _ Nx)) as (kv' & kx & Ev' & Ex & Iff).
      rewrite Ek in Ev'. injection Ev' as <-. rewrite Ex. rewrite compare_sql_denote in * by done.
      set (c := key_cmp (denote v) (denote x)) in *. cbn [mbind outcome_bind].
      destruct (decide (kv = kx)) as [Q|Q].
      * rewrite bool_decide_true by congruence. apply Iff in Q. by injection Q as ->.
      * rewrite bool_decide_false by congruence. destruct c as [[]|]; try done. exfalso. by apply Q, Iff.
Qed.

Lemma hash_yields outer inner okc ic kind residual rows inner_rows out :
  yields outer rows -> yields inner inner_rows -> keys_wf okc rows = true -> keys_wf ic inner_rows = true ->
  join_rows kind (length (columns (ex_schema inner))) (key_test okc ic residual) rows inner_rows = Ok out ->
  exists ex, hash_join_new outer inner okc ic kind residual = Ok ex /\ yields ex out /\
    ex_schema ex = concat_schemas (ex_schema outer) (ex_schema inner) (is_left_outer kind).
Proof.
  intros So Si Wo Wi J. destruct (hash_rows_ok ic inner_rows [] Wi) as (table & Ft & _).
  unfold hash_join_new, build_table. destruct (fold_now inner inner_rows _ _ _ Si Ft) as (s' & ->). cbn [fst mbind outcome_bind].
  eexists. split; [done|]. split; [|done]. set (w := length (columns (ex_schema inner))) in *.
  assert (J' : probe_join kind w (hash_probe table okc) (survives residual) rows = Ok out).
  { rewrite (probe_join_ext _ _ _ _ _ inner_rows (key_test okc ic residual)); [done|]. apply List.Forall_forall. intros o Ho.
    apply probe_finds; [done| |done]. by apply forallb_forall with (x := o) in Wo. }
  apply (streams_intro (mkExecutor _ _ _ _ _) (hash_inv outer table okc kind residual w)); [| |by exists rows, out].
  - intros st Inv. destruct (hash_step _ _ _ _ _ _ _ _ Inv) as (st' & E & _). by exists st'.
  - intros st t rest Inv. split; [by apply (hash_inv_length _ _ _ _ _ _ _ _ Inv)|].
    destruct (hash_step _ _ _ _ _ _ _ _ Inv) as (st' & E & Rest). exists st'. split; [done|]. by apply Rest.
Qed.

(** ** Probing an index *)

Section inlj.
Context {E I : Type} `{StorageEngine E} `{StorageEngine I}.
Context (t : Table E I) (ix : IndexHandle I) (outer : Executor) (cols : list nat).
Abbreviation loop fuel := (inlj_loop t ix fuel (ex_next outer) cols).
Abbreviation joins rows := (probe_join Inner 0 (refill_inner t ix cols) (fun _ _ => Ok true) rows).

Definition inlj_inv (st : InljState (ex_state outer)) (out : list Tuple) : Prop :=
  exists rows others, streams outer (in_outer st) rows /\ joins rows = Ok others /\
  match in_current st with
  | None => out = others
  | Some o => out = map (app o) (drop (in_cursor st) (in_buffer st)) ++ others
  end.

Lemma deref_length types n items rows : deref_entries t types n items = Ok rows -> (length rows <= length items)%nat.
Proof.
  revert rows. induction items as [|item items IH]; intros rows E1; cbn [deref_entries] in E1; [by injection E1 as <-|].
  bind_ok E1 as x Ex. destruct x as [key b]. bind_ok E1 as values Ev. bind_ok E1 as row Er. bind_ok E1 as others Eo. injection E1 as <-.
  specialize (IH _ Eo). destruct row; cbn; lia.
Qed.

Lemma recheck_filter index_cols prefix rows : recheck index_cols prefix rows = filterM (matches_probe index_cols prefix) rows.
Proof. induction rows as [|row rows IH]; [done|]. cbn. by rewrite IH. Qed.

Lemma refill_size o l : refill_inner t ix cols o = Ok l -> (length l <= length (entries (ix_engine ix)))%nat.
Proof.
  unfold refill_inner. intros E1. bind_ok E1 as prefix Ep. destruct prefix as [prefix|]; [|injection E1 as <-; cbn; lia].
  bind_ok E1 as rows Er. rewrite recheck_filter in E1. apply filterM_length in E1. unfold index_scan in Er.
  destruct (_ <? _)%nat; [done|]. bind_ok Er as types Et. bind_ok Er as enc Ee. apply deref_length in Er.
  rewrite scan_range_spec, length_map in Er. unfold kv_scan in Er.
  pose proof (List.filter_length_le (fun e : entry => above (Included enc) e.1 && below (prefix_end enc) e.1) (entries (ix_engine ix))). lia.
Qed.

Lemma filterM_all (l : list Tuple) : filterM (fun _ => Ok true) l = Ok l.
Proof. induction l as [|x l IH]; [done|]. cbn. by rewrite IH. Qed.

Lemma inlj_pull s s' o l buf c fuel :
  ex_next outer s = (Ok (Some o), s') -> refill_inner t ix cols o = Ok l ->
  loop (S fuel) (mkInlj s None buf c) = loop (S fuel) (mkInlj s' (Some o) l 0).
Proof.
  intros E1 R. cbn [inlj_loop]. mrun. cbn [id in_current].
  match goal with |- (?m ≫= _) _ = _ => assert (P : m (mkInlj s None buf c) = (Ok tt, mkInlj s' (Some o) l 0)) end.
  { rewrite (M_Ok _ _ _ (Some o) (mkInlj s' None buf c)) by (unfold zoom; cbn; by rewrite E1). mrun. rewrite R. by mrun. }
  rewrite (M_Ok _ _ _ _ _ P). symmetry. by rewrite (M_Ok _ _ _ tt (mkInlj s' (Some o) l 0)).
Qed.

(** The loop at an outer row. *)
Lemma inlj_at s o buf c fuel :
  loop (S fuel) (mkInlj s (Some o) buf c) =
  match drop c buf with
  | m :: _ => (Ok (Some (o ++ m)), mkInlj s (Some o) buf (S c))
  | [] => loop fuel (mkInlj s None buf c)
  end.
Proof.
  cbn [inlj_loop]. mrun. cbn [id in_current]. rewrite (M_Ok _ _ _ tt (mkInlj s (Some o) buf c)) by done. mrun. cbn [id in_current in_buffer in_cursor].
  replace (buf !! c) with (head (drop c buf)) by (by rewrite head_lookup, lookup_drop, Nat.add_0_r).
  by destruct (drop c buf).
Qed.

Lemma inlj_none rows : forall s out buf c fuel,
  streams outer s rows -> joins rows = Ok out -> (length rows < fuel)%nat ->
  exists st', loop fuel (mkInlj s None buf c) = (Ok (head out), st') /\ (out <> [] -> inlj_inv st' (tail out)).
Proof.
  induction rows as [|o rows IH]; intros s out buf c [|fuel] St J F; cbn in F; try lia.
  - injection J as <-. inversion St as [? s' E1|]; subst. eexists. split; [|done]. cbn [inlj_loop]. mrun. cbn [id in_current].
    match goal with |- (?m ≫= _) _ = _ => assert (P : m (mkInlj s None buf c) = (Ok tt, mkInlj s' None buf c)) end.
    { by rewrite (M_Ok _ _ _ None (mkInlj s' None buf c)) by (unfold zoom; cbn; by rewrite E1). }
    rewrite (M_Ok _ _ _ _ _ P). by mrun.
  - inversion St as [|? s' ? ? E1 B St']; subst. cbn [probe_join] in J. bind_ok J as found Ef. bind_ok J as others Eo. injection J as <-.
    bind_ok Ef as l R. rewrite filterM_all in Ef. injection Ef as <-. rewrite (inlj_pull _ _ _ _ _ _ _ E1 R), inlj_at. cbn [drop].
    destruct l as [|m l]; [apply (IH s'); [done..|lia]|]. eexists. split; [done|]. intros _. exists rows, others. done.
Qed.

Lemma inlj_step st out : inlj_inv st out ->
  exists st', loop (S (S (ex_bound outer (in_outer st)))) st = (Ok (head out), st') /\ (out <> [] -> inlj_inv st' (tail out)).
Proof.
  destruct st as [s [o|] buf c]; intros (rows & others & St & J & Cur); cbn [in_outer in_current in_cursor in_buffer] in *; subst out;
    pose proof (streams_bound _ _ _ St) as B.
  - rewrite inlj_at. destruct (drop c buf) as [|m l] eqn:D; [apply (inlj_none rows); [done..|lia]|].
    eexists. split; [done|]. intros _. exists rows, others. split_and!; [done..|]. cbn [in_current in_cursor in_buffer].
    replace (S c) with (c + 1)%nat by lia. by rewrite <- drop_drop, D.
  - apply (inlj_none rows); [done..|lia].
Qed.

Lemma inlj_inv_length st out : inlj_inv st out ->
  (length out <= length (in_buffer st) + ex_bound outer (in_outer st) * S (length (entries (ix_engine ix))))%nat.
Proof.
  intros (rows & others & St & J & Cur). apply streams_bound in St.
  apply (probe_join_length _ _ _ _ _ _ (length (entries (ix_engine ix)))) in J; [|apply refill_size].
  destruct (in_current st) as [o|]; subst; [|nia]. rewrite length_app, length_map, length_drop. nia.
Qed.
End inlj.

(** A string that a CHAR column of the index can hold. *)
Definition probe_fits (ty : ColumnType) (v : Value) : bool :=
  match v, ty with
  | (VVarchar s | VChar s), TChar n => negb (contains_nul s) && (len s <=? n)
  | _, _ => true
  end.

(** Equality of columns of the outer row with columns of the inner row. *)
Fixpoint columns_test (outer_cols inner_cols : list nat) : JoinPredicate := fun outer_row inner_row =>
  match outer_cols, inner_cols with
  | c :: outer_cols, d :: inner_cols =>
      a ← at_index outer_row c;
      b ← at_index inner_row d;
      equal ← equal_keys a b;
      if equal : bool then columns_test outer_cols inner_cols outer_row inner_row else Ok false
  | _, _ => Ok true
  end.

(** The columns of an outer row can be looked up in the index. *)
Definition probe_ok (s : Schema) (outer_cols inner_cols : list nat) (outer_row : Tuple) : Prop :=
  Forall2 (fun c d => exists v, outer_row !! c = Some v /\ value_wf v = true /\ probe_fits (default TInt32 (column_types s !! d)) v = true)
    outer_cols inner_cols.

Lemma same_type_cmp ty v w :
  matches v ty = true -> matches w ty = true -> v <> VNull -> w <> VNull -> is_Some (key_cmp (denote v) (denote w)).
Proof. destruct ty, v, w; cbn; intros; try done; by eexists. Qed.

Lemma key_cmp_Eq_l k l m : key_cmp k l = Some Eq -> key_cmp k m = key_cmp l m.
Proof.
  destruct k, l; try done; cbn [key_cmp]; intros [= E]; destruct m; try done; cbn [key_cmp]; f_equal.
  - apply Qeq_alt in E. by rewrite E.
  - by apply bcmp_eq in E as ->.
  - by apply bcmp_eq in E as ->.
  - by apply Z.compare_eq in E as ->.
  - by destruct b, b0.
  - by apply Z.compare_eq in E as ->.
Qed.

Lemma equal_keys_wf v w :
  value_wf v = true -> value_wf w = true ->
  equal_keys v w = Ok (match key_cmp (denote v) (denote w) with Some Eq => true | _ => false end).
Proof. intros Wv Ww. unfold equal_keys. by rewrite compare_sql_denote. Qed.

Lemma coerce_key v ty :
  value_wf v = true -> type_wf ty = true -> v <> VNull -> probe_fits ty v = true ->
  exists o, coerce_exact v ty = Ok o /\
  match o with
  | Some w => key_ok w ty = true /\ forall x, key_ok x ty = true ->
      equal_keys v x = Ok (match col_cmp w x with Eq => true | _ => false end) /\ equal_keys x w = equal_keys v x
  | None => forall x, key_ok x ty = true -> equal_keys v x = Ok false
  end.
Proof.
  intros Wv Wt Nv F. destruct (coerce_exact_correct v ty Wv Wt Nv) as (o & E & Ho). exists o. split; [done|].
  assert (Kx : forall x, key_ok x ty = true -> value_wf x = true /\ matches x ty = true)
    by (intros x Kx; unfold key_ok in Kx; by repeat (apply andb_true_iff in Kx as [Kx ?])).
  destruct o as [w|].
  - destruct Ho as (Ww & Mw & Ew). assert (K : key_ok w ty = true).
    { unfold key_ok. rewrite Ww, Wt, Mw. cbn. destruct w; try done. destruct ty; try done.
      destruct v; cbn in E; try done; injection E as <-; done. }
    assert (Nw : w <> VNull) by (intros ->; destruct v; done).
    split; [done|]. intros x (Wx & Mx)%Kx. rewrite compare_sql_denote in Ew by done. injection Ew as Ew.
    rewrite !equal_keys_wf by done. rewrite (key_cmp_Eq_l _ _ _ Ew), (key_cmp_sym (denote w) (denote x)).
    split; [|by destruct (key_cmp (denote w) (denote x)) as [[]|]].
    destruct (decide (x = VNull)) as [->|Nx]; [destruct w; done|].
    destruct (same_type_cmp ty w x Mw Mx Nw Nx) as (c & Ec). unfold col_cmp. rewrite Ec. destruct w, x, c; done.
  - intros x (Wx & Mx)%Kx. specialize (Ho x Wx Mx). rewrite equal_keys_wf by done. rewrite compare_sql_denote in Ho by done.
    destruct (key_cmp _ _) as [[]|]; done.
Qed.

Section index_probe.
Context {E I : Type} `{StorageEngine E} `{StorageEngine I}.
Implicit Types (t : Table E I) (ix : IndexHandle I).

Lemma column_type_at s d col : columns s !! d = Some col -> column_types s !! d = Some (ty col).
Proof. intros Ec. etransitivity; [apply (list_lookup_fmap ty (columns s) d)|by rewrite Ec]. Qed.

Lemma row_cell s row d :
  schema_wf s -> (d < length (columns s))%nat -> row_ok (column_types s) row ->
  exists col x, columns s !! d = Some col /\ row !! d = Some x /\ type_wf (ty col) = true /\ key_ok x (ty col) = true /\
    default TInt32 (column_types s !! d) = ty col.
Proof.
  intros (_ & Wt & _) Ld R. destruct (lookup_lt_is_Some_2 _ _ Ld) as [col Ec].
  assert (Et : column_types s !! d = Some (ty col)) 
    by (etransitivity; [apply (list_lookup_fmap ty (columns s) d)|by rewrite Ec]).
  destruct (Forall2_lookup_l _ _ _ _ _ R Et) as (x & Ex & Kx). exists col, x. rewrite Et. split_and!; try done; [|by apply cell_key].
  by apply (Forall_lookup_1 _ _ _ _ Wt Ec).
Qed.

(** The probe prefix stands for the columns of the outer row. *)
Lemma probe_prefix_ok t o cols idx :
  schema_wf (schema t) -> in_columns (schema t) idx -> probe_ok (schema t) cols idx o ->
  exists r, probe_prefix t o cols idx = Ok r /\
  match r with
  | Some prefix => key_tuple_ok prefix (types_at (schema t) idx) /\ forall row, row_ok (column_types (schema t)) row ->
      columns_test cols idx o row = Ok (same_key prefix (pick idx row)) /\ matches_probe idx prefix row = Ok (same_key prefix (pick idx row))
  | None => forall row, row_ok (column_types (schema t)) row -> columns_test cols idx o row = Ok false
  end.
Proof.
  intros W C P. induction P as [|c d cols idx (v & Ev & Wv & Fv) P IH].
  { exists (Some []). split; [done|]. by split; [constructor|]. }
  inversion C as [|? ? Ld C']; subst. specialize (IH C') as (r & Er & Hr). cbn [probe_prefix columns_test]. unfold at_index. rewrite Ev.
  cbn [unwrap mbind outcome_bind lookup list_lookup tail]. destruct (is_null v) eqn:Nv.
  { exists None. split; [done|]. intros row R. destruct (row_cell _ _ _ W Ld R) as (col & x & _ & -> & _). by destruct v. }
  destruct (lookup_lt_is_Some_2 _ _ Ld) as [col Ec]. rewrite Ec. cbn [unwrap mbind outcome_bind].
  assert (Et : default TInt32 (column_types (schema t) !! d) = ty col) by by rewrite (column_type_at _ _ _ Ec).
  assert (Wt : type_wf (ty col) = true) by (apply (Forall_lookup_1 _ _ _ _ (proj1 (proj2 W)) Ec)).
  rewrite Et in Fv. destruct (coerce_key v (ty col) Wv Wt (is_null_false _ Nv) Fv) as (w & -> & Hw). cbn [mbind outcome_bind].
  assert (Cell : forall row, row_ok (column_types (schema t)) row -> exists x, row !! d = Some x /\ key_ok x (ty col) = true).
  { intros row R. destruct (row_cell _ _ _ W Ld R) as (col' & x & Ec' & Ex & _ & Kx & _). exists x. rewrite Ec in Ec'. by injection Ec' as <-. }
  destruct w as [w|].
  - rewrite Er. cbn [mbind outcome_bind]. exists (option_map (cons w) r). split; [done|]. destruct Hw as [Kw Hw]. destruct r as [prefix|]; cbn [option_map].
    + destruct Hr as [Kp Hr]. split; [constructor; [by rewrite Et|done]|]. intros row R. destruct (Cell row R) as (x & Ex & Kx).
      destruct (Hw x Kx) as [Evx Exw]. destruct (Hr row R) as [T1 T2]. change (pick (d :: idx) row) with (default VNull (row !! d) :: pick idx row). cbn [matches_probe].
      unfold at_index. rewrite Ex. cbn [unwrap mbind outcome_bind default id].
      rewrite Exw, Evx, T1, T2. cbn [mbind outcome_bind]. unfold same_key. cbn [tuple_cmp]. destruct (col_cmp w x); split; reflexivity.
    + intros row R. destruct (Cell row R) as (x & Ex & Kx). destruct (Hw x Kx) as [Evx _]. rewrite Ex. cbn [unwrap mbind outcome_bind].
      rewrite Evx, (Hr row R). cbn [mbind outcome_bind]. by destruct (col_cmp w x).
  - exists None. split; [done|]. intros row R. destruct (Cell row R) as (x & Ex & Kx). rewrite Ex. cbn [unwrap mbind outcome_bind]. by rewrite (Hw x Kx).
Qed.

Lemma pk_order s a b :
  schema_wf s -> row_ok (column_types s) a -> row_ok (column_types s) b ->
  bcmp (pk_bytes s a) (pk_bytes s b) = tuple_cmp (pick (primary_key s) a) (pick (primary_key s) b).
Proof.
  intros (_ & _ & P & _) Ra Rb. unfold pk_bytes, pk_key.
  pose proof (key_bytes_ordered _ _ _ [] [] (pick_key_ok s a _ Ra P) (pick_key_ok s b _ Rb P)) as O.
  by rewrite !app_nil_r, then_cmp_Eq_r in O.
Qed.

Lemma filter_sorted {A} (R : A -> A -> Prop) f (l : list A) : StronglySorted R l -> StronglySorted R (List.filter f l).
Proof.
  intros S. induction S as [|x l S IH F]; [constructor|]. cbn. destruct (f x); [|done]. constructor; [done|].
  apply Forall_forall. intros y [Hy _]%elem_of_filter_bool. by apply (proj1 (Forall_forall _ _) F).
Qed.

Lemma rows_in_pk_order s abs : rows_ok s abs -> StronglySorted (fun a b => blt (pk_bytes s a) (pk_bytes s b)) (map snd abs).
Proof.
  intros [S F]. assert (K : Forall (fun e => e.1 = pk_bytes s e.2) abs).
  { apply Forall_forall. intros [pk row] Hin. by apply (F pk row), kv_In_get. }
  clear F. induction S as [|e l S IH Lt]; [constructor|]. inversion K as [|? ? Ke Kl]; subst. cbn. constructor; [by apply IH|].
  apply Forall_forall. intros row (e' & -> & Hin)%list_elem_of_fmap. rewrite <- Ke, <- (proj1 (Forall_forall _ _) Kl _ Hin).
  by apply (proj1 (Forall_forall _ _) Lt).
Qed.

(** With all its columns given, an index finds rows in the order of the table. *)
Lemma index_scan_full t abs ix prefix :
  represents t abs -> ix ∈ indexes t -> key_tuple_ok prefix (types_at (schema t) (index_columns (def ix))) ->
  index_scan t ix prefix = Ok (List.filter (fun row => same_key prefix (pick (index_columns (def ix)) row)) (map snd abs)).
Proof.
  intros R Hin K. pose proof (Forall2_length _ _ _ K) as Lp. rewrite length_types_at in Lp.
  pose proof (rep_schema _ _ R) as W. pose proof (proj1 (Forall_forall _ _) (rep_handles _ _ R) _ Hin) as Hx.
  assert (Et : take (length prefix) (index_columns (def ix)) = index_columns (def ix)) by (apply take_ge; lia).
  destruct (index_scan_ok t abs ix prefix R Hin) as (L & -> & P & Ord); [lia|by rewrite Et|]. f_equal. unfold leads in P. rewrite Et in P.
  apply (StronglySorted_unique_strong (fun a b => blt (pk_bytes (schema t) a) (pk_bytes (schema t) b))); [| | |done].
  - intros a b _ _ H1 H2. by destruct (blt_irrefl _ (blt_trans _ _ _ H1 H2)).
  - assert (Fit : Forall (fun r => row_ok (column_types (schema t)) r /\ same_key prefix (pick (index_columns (def ix)) r) = true) L).
    { apply Forall_forall. intros r Hr. rewrite P in Hr. apply elem_of_filter_bool in Hr as [Hr Ek]. split; [|done].
      apply (stored_in (schema t)) in Hr; [|apply R]. by apply (stored_fits t abs). }
    clear P. induction Ord as [|a l Ord IH Lt]; [constructor|]. inversion Fit as [|? ? [Ra Ka] Fl]; subst. constructor; [by apply IH|].
    apply Forall_forall. intros b Hb. pose proof (proj1 (Forall_forall _ _) Lt _ Hb) as C. destruct (proj1 (Forall_forall _ _) Fl _ Hb) as [Rb Kb].
    unfold blt. rewrite pk_order by done. rewrite !pick_app, tuple_cmp_app in C by by rewrite !length_pick.
    unfold same_key in Ka, Kb. pose proof (pick_key_ok _ a _ Ra (proj1 Hx)) as Oa. pose proof (pick_key_ok _ b _ Rb (proj1 Hx)) as Ob.
    assert (Q : tuple_cmp (pick (index_columns (def ix)) a) (pick (index_columns (def ix)) b) = Eq).
    { apply (key_bytes_eq _ _ _ Oa Ob). transitivity (key_bytes prefix (types_at (schema t) (index_columns (def ix)))).
      - symmetry. apply (key_bytes_eq _ _ _ K Oa). by destruct (tuple_cmp prefix _).
      - apply (key_bytes_eq _ _ _ K Ob). by destruct (tuple_cmp prefix (pick _ b)). }
    by rewrite Q in C.
  - apply filter_sorted, rows_in_pk_order, R.
Qed.

Lemma filterM_bool {A} (p : A -> result bool) (q : A -> bool) (l : list A) :
  Forall (fun x => p x = Ok (q x)) l -> filterM p l = Ok (List.filter q l).
Proof. intros F. induction F as [|x l Ex F IH]; [done|]. cbn. rewrite Ex, IH. cbn. by destruct (q x). Qed.

(** A probe returns the rows of the table that the comparison selects. *)
Lemma refill_finds t abs ix cols o :
  represents t abs -> ix ∈ indexes t -> probe_ok (schema t) cols (index_columns (def ix)) o ->
  refill_inner t ix cols o = filterM (columns_test cols (index_columns (def ix)) o) (map snd abs).
Proof.
  intros R Hin Po. pose proof (rep_schema _ _ R) as W. pose proof (proj1 (Forall_forall _ _) (rep_handles _ _ R) _ Hin) as Hx.
  assert (Fit : Forall (row_ok (column_types (schema t))) (map snd abs)).
  { apply Forall_forall. intros r Hr. apply (stored_in (schema t)) in Hr; [|apply R]. by apply (stored_fits t abs). }
  unfold refill_inner. destruct (probe_prefix_ok t o cols _ W (proj1 Hx) Po) as (r & -> & Hr). cbn [mbind outcome_bind].
  destruct r as [prefix|].
  - destruct Hr as [K Hr]. rewrite (index_scan_full t abs) by done. cbn [mbind outcome_bind].
    rewrite (filterM_bool (columns_test _ _ o) (fun row => same_key prefix (pick (index_columns (def ix)) row))).
    2: { eapply Forall_impl; [exact Fit|]. intros row Rr. apply (Hr row Rr). }
    set (F := List.filter _ _). assert (FF : List.filter (fun row => same_key prefix (pick (index_columns (def ix)) row)) F = F).
    { subst F. induction (map snd abs) as [|x l IH]; [done|]. cbn. inversion Fit; subst. destruct (same_key _ _) eqn:Es; [cbn; rewrite Es|]; rewrite IH; done. }
    rewrite recheck_filter, (filterM_bool _ (fun row => same_key prefix (pick (index_columns (def ix)) row))), FF; [done|].
    apply Forall_forall. intros row [Hrow _]%elem_of_filter_bool. apply Hr. by apply (proj1 (Forall_forall _ _) Fit).
  - rewrite (filterM_bool _ (fun _ => false)); [by rewrite filter_none|]. eapply Forall_impl; [exact Fit|]. apply Hr.
Qed.
End index_probe.

Lemma inlj_yields {E I} `{StorageEngine E} `{StorageEngine I} (t : Table E I) ix abs outer cols rows out :
  represents t abs -> ix ∈ indexes t -> yields outer rows -> Forall (probe_ok (schema t) cols (index_columns (def ix))) rows ->
  length cols = length (index_columns (def ix)) ->
  join_rows Inner (length (columns (schema t))) (columns_test cols (index_columns (def ix))) rows (map snd abs) = Ok out ->
  exists ex, inlj_new t ix outer cols = Ok ex /\ yields ex out /\
    ex_schema ex = concat_schemas (ex_schema outer) (schema t) false.
Proof.
  intros R Hin So P L J. unfold inlj_new. rewrite L, Nat.eqb_refl. cbn [negb]. eexists. split; [done|]. split; [|done].
  assert (J' : probe_join Inner 0 (refill_inner t ix cols) (fun _ _ => Ok true) rows = Ok out).
  { rewrite (probe_join_ext _ _ _ _ _ (map snd abs) (columns_test cols (index_columns (def ix)))).
    - rewrite <- J. clear. induction rows as [|o rows IH]; [done|]. cbn. by rewrite IH.
    - eapply Forall_impl; [exact P|]. intros o Po. rewrite (refill_finds t abs) by done.
      destruct (filterM _ _) as [l| |]; [|done..]. cbn. apply filterM_all. }
  apply (streams_intro (mkExecutor _ _ _ _ _) (inlj_inv t ix outer cols)); [| |by exists rows, out].
  - intros st Inv. destruct (inlj_step _ _ _ _ _ _ Inv) as (st' & E1 & _). by exists st'.
  - intros st x rest Inv. split; [by apply (inlj_inv_length _ _ _ _ _ _ Inv)|].
    destruct (inlj_step _ _ _ _ _ _ Inv) as (st' & E1 & Rest). exists st'. split; [done|]. by apply Rest.
Qed.
