(* ===== verification/MergeJoin.v ===== *)
(** The merge join (operators/join.rs): on inputs that ascend it streams the
    rows of [join_rows], and neither its assertion on the order of the inputs
    nor the one on progress fires. *)

From Stdlib Require Import ZArith Lia List Bool.
From coqutil Require Import Byte.
From S2P Require Import Prelude Common Decimal Value KeyEnc Engine Table TableSpec Expr Aggregate Exec Streams Joins.
From stdpp Require Import base list strings.
#[local] Open Scope Z_scope.

(** ** Ascending inputs *)

Definition at_most (a b : Value) : bool := match key_cmp (denote a) (denote b) with Some (Lt | Eq) => true | _ => false end.
Definition below_key (a b : Value) : bool := match key_cmp (denote a) (denote b) with Some Lt => true | _ => false end.

(** [b] is NULL or comes after [a]. *)
Definition beyond (a b : Value) : bool := is_null b || below_key a b.

(** What may follow a key: no smaller one, and its equals without a NULL between. *)
Fixpoint follows (k : Value) (rest : list Value) : bool :=
  match rest with
  | [] => true
  | j :: rest => if is_null j then forallb (beyond k) rest else at_most k j && follows k rest
  end.

Fixpoint ascending (keys : list Value) : bool :=
  match keys with
  | [] => true
  | k :: rest => (is_null k || follows k rest) && ascending rest
  end.

Definition key_at (col : nat) (row : Tuple) : Value := default VNull (row !! col).
Definition sorted_on (col : nat) (rows : list Tuple) : bool := ascending (map (key_at col) rows).

(** ** Facts on the order *)

Lemma below_at_most a b : below_key a b = true -> at_most a b = true.
Proof. unfold below_key, at_most. by destruct (key_cmp _ _) as [[]|]. Qed.

Lemma at_most_trans a b c : at_most a b = true -> at_most b c = true -> at_most a c = true.
Proof.
  unfold at_most. intros H1 H2. destruct (key_cmp (denote a) (denote b)) as [c1|] eqn:E1; [|done].
  destruct (key_cmp (denote b) (denote c)) as [c2|] eqn:E2; [|done].
  rewrite (key_cmp_then _ _ _ _ _ E1 E2) by (by destruct c1, c2). by destruct c1, c2.
Qed.

Lemma at_most_below a b c : at_most a b = true -> below_key b c = true -> below_key a c = true.
Proof.
  unfold at_most, below_key. intros H1 H2. destruct (key_cmp (denote a) (denote b)) as [c1|] eqn:E1; [|done].
  destruct (key_cmp (denote b) (denote c)) as [c2|] eqn:E2; [|done].
  rewrite (key_cmp_then _ _ _ _ _ E1 E2) by (by destruct c1, c2). by destruct c1, c2.
Qed.

Lemma below_at_most_trans a b c : below_key a b = true -> at_most b c = true -> below_key a c = true.
Proof.
  unfold at_most, below_key. intros H1 H2. destruct (key_cmp (denote a) (denote b)) as [c1|] eqn:E1; [|done].
  destruct (key_cmp (denote b) (denote c)) as [c2|] eqn:E2; [|done].
  rewrite (key_cmp_then _ _ _ _ _ E1 E2) by (by destruct c1, c2). by destruct c1, c2.
Qed.

Lemma follows_at_most k rest : follows k rest = true -> Forall (fun j => is_null j = true \/ at_most k j = true) rest.
Proof.
  induction rest as [|j rest IH]; [constructor|]. cbn. destruct (is_null j) eqn:Nj.
  - intros F. constructor; [by left|]. apply List.Forall_forall. intros x Hx. apply forallb_forall with (x := x) in F; [|done].
    apply orb_true_iff in F as [F|F]; [by left|right; by apply below_at_most].
  - intros [H1 H2]%andb_true_iff. constructor; [by right|by apply IH].
Qed.

(** Past a key that comes after [a], everything does. *)
Lemma follows_beyond a k rest : below_key a k = true -> follows k rest = true -> Forall (fun j => beyond a j = true) rest.
Proof.
  intros B F. eapply Forall_impl; [by apply follows_at_most|]. intros j [N|L]; unfold beyond; [by rewrite N|].
  by rewrite (below_at_most_trans a k j), orb_true_r.
Qed.

Lemma follows_equal k l rest : key_cmp (denote k) (denote l) = Some Eq -> follows k rest = follows l rest.
Proof.
  intros E. assert (C : forall m, key_cmp (denote k) m = key_cmp (denote l) m) by (intros m; by apply key_cmp_Eq_l).
  induction rest as [|j rest IH]; [done|]. cbn. unfold at_most. rewrite C, IH. destruct (is_null j); [|done].
  clear -C. induction rest as [|x rest IH]; [done|]. cbn [forallb]. rewrite IH. f_equal. unfold beyond, below_key. by rewrite C.
Qed.

(** ** The right side *)

Section merge.
Context (left_input right_input : Executor) (lc rc : nat).
Abbreviation State := (MergeState (ex_state left_input) (ex_state right_input)).
Abbreviation rkey := (key_at rc).
Abbreviation lkey := (key_at lc).

(** The last key that was seen is not above those to come. *)
Definition seen_ok (last : option Value) (keys : list Value) : Prop :=
  match last with
  | None => True
  | Some v => value_wf v = true /\ v <> VNull /\ Forall (fun j => is_null j = true \/ at_most v j = true) keys
  end.

(** The rows of the right input that are still to be looked at. *)
Definition right_rest (st : State) (rest : list Tuple) : Prop :=
  keys_wf rc rest = true /\ sorted_on rc rest = true /\
  if mj_exhausted st then mj_pending st = None /\ rest = [] else
  exists rows, streams right_input (mj_right st) rows /\ rest = option_list (mj_pending st) ++ rows /\ seen_ok (mj_last_right st) (map rkey rows).

(** All but the right input. *)
Definition same_left (st st' : State) : Prop :=
  mj_left st' = mj_left st /\ mj_current st' = mj_current st /\ mj_last_left st' = mj_last_left st /\ mj_left_pulled st' = mj_left_pulled st /\
  mj_cursor st' = mj_cursor st.

Lemma same_left_trans st st' st'' : same_left st st' -> same_left st' st'' -> same_left st st''.
Proof. unfold same_left. intros (-> & -> & -> & -> & ->) (-> & -> & -> & -> & ->). done. Qed.

Lemma key_at_wf col row : key_wf col row = true -> row !! col = Some (key_at col row) /\ value_wf (key_at col row) = true.
Proof. unfold key_wf, key_at. by destruct (row !! col). Qed.

Lemma at_index_key col row : key_wf col row = true -> at_index row col = Ok (key_at col row).
Proof. intros W. unfold at_index. by rewrite (proj1 (key_at_wf _ _ W)). Qed.

Lemma assert_ascending_ok last key keys :
  value_wf key = true -> (is_null key = false -> Forall (fun j => is_null j = true \/ at_most key j = true) keys) -> seen_ok last (key :: keys) ->
  exists last', assert_ascending last key = Ok last' /\ seen_ok last' keys.
Proof.
  intros Wk Fk S. unfold assert_ascending. destruct (is_null key) eqn:Nk.
  - exists last. split; [done|]. destruct last as [v|]; [|done]. destruct S as (Wv & Nv & F). split_and!; [done..|]. by inversion F.
  - assert (S' : seen_ok (Some key) keys) by (split_and!; [done|by apply is_null_false|by apply Fk]).
    destruct last as [v|]; [|by exists (Some key)]. destruct S as (Wv & Nv & F). inversion F as [|? ? [N|L] F']; subst; [congruence|].
    rewrite compare_sql_denote by done. cbn [mbind outcome_bind]. unfold at_most in L. rewrite key_cmp_sym.
    destruct (key_cmp (denote v) (denote key)) as [[]|]; try done; by exists (Some key).
Qed.

Lemma keys_wf_cons col row rows : keys_wf col (row :: rows) = true <-> key_wf col row = true /\ keys_wf col rows = true.
Proof. apply andb_true_iff. Qed.

Lemma sorted_on_cons col row rows :
  sorted_on col (row :: rows) = true ->
  (is_null (key_at col row) = false -> follows (key_at col row) (map (key_at col) rows) = true) /\ sorted_on col rows = true.
Proof. unfold sorted_on. cbn. intros [H1 H2]%andb_true_iff. split; [|done]. intros N. by rewrite N in H1. Qed.

(** A pull with no row waiting. *)
Lemma pull_right_ok st rest :
  right_rest st rest -> mj_exhausted st = false -> mj_pending st = None ->
  exists st', pull_right right_input.(ex_next) rc st = (Ok (head rest), st') /\ same_left st st' /\
    mj_run st' = mj_run st /\ mj_run_key st' = mj_run_key st /\ mj_exhausted st' = false /\ mj_pending st' = None /\
    (rest <> [] -> right_rest st' (tail rest)).
Proof.
  intros (W & So & R) Ex Pe. rewrite Ex, Pe in R. destruct R as (rows & St & -> & Se). cbn [option_list app] in *. unfold pull_right.
  inversion St as [s s' E|s s' row rows' E B St']; subst.
  - rewrite (M_Ok _ _ _ None (set_right s' st)) by (unfold zoom; by rewrite E). eexists. split; [done|]. cbn. rewrite Ex, Pe. split_and!; done.
  - rewrite (M_Ok _ _ _ (Some row) (set_right s' st)) by (unfold zoom; by rewrite E).
    apply keys_wf_cons in W as [W1 W2]. apply sorted_on_cons in So as [F So]. rewrite (at_index_key _ _ W1). mrun. cbn [id set_right mj_last_right].
    destruct (assert_ascending_ok (mj_last_right st) (rkey row) (map rkey rows')) as (last & El & Sl);
      [by apply key_at_wf|intros N; by apply follows_at_most, F|done|].
    rewrite El. mrun. eexists. split; [done|]. cbn. rewrite Ex, Pe. split_and!; try done. intros _.
    split_and!; try done. cbn. rewrite Ex. exists rows'. by rewrite Pe.
Qed.

Definition equal_to (target : Value) (row : Tuple) : Prop := key_cmp (denote (rkey row)) (denote target) = Some Eq.
Definition past (target : Value) (row : Tuple) : Prop := beyond target (rkey row) = true.

Lemma past_map target rest : Forall (fun j => beyond target j = true) (map rkey rest) -> Forall (past target) rest.
Proof. induction rest; inversion 1; by constructor; auto. Qed.

(** The rest of a run is its equals; what follows is past them. *)
Lemma collect_run_ok target rest : forall st fuel,
  value_wf target = true -> right_rest st rest -> mj_exhausted st = false -> mj_pending st = None ->
  follows target (map rkey rest) = true -> (length rest < fuel)%nat ->
  exists st' run rest', collect_run (ex_next right_input) rc fuel target st = (Ok tt, st') /\ same_left st st' /\
    rest = run ++ rest' /\ right_rest st' rest' /\ mj_run st' = mj_run st ++ run /\ mj_run_key st' = mj_run_key st /\
    Forall (equal_to target) run /\ Forall (past target) rest'.
Proof.
  induction rest as [|row rest IH]; intros st [|fuel] Wt R Ex Pe Fo Fu; cbn in Fu; try lia; cbn [collect_run];
    destruct (pull_right_ok st _ R Ex Pe) as (st1 & E1 & L1 & Ru & Rk & Ex1 & Pe1 & R1); rewrite (M_Ok _ _ _ _ _ E1); cbn [head].
  - exists (set_exhausted st1), [], []. split_and!; try done. by rewrite app_nil_r.
  - destruct R as (W & So & _). apply keys_wf_cons in W as [W1 W2]. pose proof So as So'. apply sorted_on_cons in So as [Fr So].
    specialize (R1 ltac:(done)). cbn [tail] in R1. rewrite (at_index_key _ _ W1). mrun.
    rewrite (equal_keys_wf _ _ (proj2 (key_at_wf _ _ W1)) Wt). mrun. cbn [map follows] in Fo.
    assert (Stop : is_null (rkey row) = true \/ below_key target (rkey row) = true ->
      (is_null (rkey row) = true -> forallb (beyond target) (map rkey rest) = true) ->
      right_rest (set_pending (Some row) st1) (row :: rest) /\ Forall (past target) (row :: rest)).
    { intros Or Nl. split.
      - destruct R1 as (_ & _ & R1). split_and!; [by apply keys_wf_cons|done|]. cbn. rewrite Ex1, Pe1 in *. destruct R1 as (rows & St & -> & Se).
        by exists rows.
      - constructor; [unfold past, beyond; destruct Or as [->| ->]; by rewrite ?orb_true_r|].
        apply past_map.
        destruct (is_null (rkey row)) eqn:N; [by apply List.Forall_forall, forallb_forall, Nl|].
        destruct Or as [|Or]; [done|]. apply (follows_beyond _ (rkey row)); [done|by apply Fr]. }
    destruct (is_null (rkey row)) eqn:N.
    + destruct (Stop ltac:(by left) ltac:(done)) as [Rr Pa]. exists (set_pending (Some row) st1), [], (row :: rest).
      rewrite app_nil_r. by destruct (rkey row).
    + apply andb_true_iff in Fo as [Am Fo]. unfold at_most in Am.
      assert (Sy : key_cmp (denote (rkey row)) (denote target) = option_map CompOpp (key_cmp (denote target) (denote (rkey row)))) by apply key_cmp_sym.
      destruct (key_cmp (denote target) (denote (rkey row))) as [c|] eqn:C; [|done]. rewrite Sy. cbn [option_map]. destruct c; [| |done].
      * cbn [CompOpp]. mrun.
        destruct (IH (set_run (mj_run st1 ++ [row]) (mj_run_key st1) st1) fuel) as (st' & run & rest' & E2 & L2 & Er & Rr & Ru2 & Rk2 & Eq & Pa);
          [done|done|done|done|done|lia|].
        exists st', (row :: run), rest'. rewrite E2. cbn in Ru2, Rk2. split_and!; try done.
        { by apply (same_left_trans _ st1). } { by rewrite Er. } { by rewrite Ru2, Ru, <- app_assoc. } { by rewrite Rk2. }
        by constructor.
      * cbn [CompOpp]. destruct (Stop) as [Rr Pa]; [right; unfold below_key; by rewrite C|done|].
        exists (set_pending (Some row) st1), [], (row :: rest). rewrite app_nil_r. by split_and!.
Qed.

Lemma next_right_ok st rest :
  right_rest st rest ->
  exists st', next_right (ex_next right_input) rc st = (Ok (head rest), st') /\ same_left st st' /\
    mj_run st' = mj_run st /\ mj_run_key st' = mj_run_key st /\ right_rest st' (tail rest) /\
    (rest <> [] -> mj_exhausted st' = false /\ mj_pending st' = None).
Proof.
  intros R. unfold next_right. mrun. cbn [id]. destruct (mj_pending st) as [row|] eqn:Pe.
  - destruct R as (W & So & R). rewrite Pe in R. destruct (mj_exhausted st) eqn:Ex; [by destruct R|]. destruct R as (rows & St & -> & Se). mrun.
    eexists. split; [done|]. cbn [option_list app head tail] in *. apply keys_wf_cons in W as [_ W]. apply sorted_on_cons in So as [_ So].
    split_and!; try done. split_and!; [done..|]. cbn. rewrite Ex. by exists rows.
  - destruct (mj_exhausted st) eqn:Ex.
    + destruct R as (W & So & R). rewrite Ex in R. destruct R as [_ ->]. exists st. split_and!; try done. split_and!; try done. by rewrite Ex.
    + destruct (pull_right_ok st rest R Ex Pe) as (st1 & E1 & L1 & Ru & Rk & Ex1 & Pe1 & R1). rewrite (M_Ok _ _ _ _ _ E1).
      destruct rest as [|row rest]; cbn [head tail].
      * mrun. eexists. split; [done|]. split_and!; try done.
      * exists st1. split_and!; try done. by apply R1.
Qed.

(** A right row that the merge drops for a left key. *)
Definition misses (target : Value) (row : Tuple) : Prop :=
  is_null (rkey row) = true \/ match key_cmp (denote (rkey row)) (denote target) with Some Lt | None => True | _ => False end.

Lemma seek_run_ok target rest : forall st fuel,
  value_wf target = true -> right_rest st rest -> mj_run st = [] -> mj_run_key st = None -> (length rest < fuel)%nat ->
  exists st' dropped run rest', seek_run (ex_next right_input) rc fuel target st = (Ok tt, st') /\ same_left st st' /\
    rest = dropped ++ run ++ rest' /\ right_rest st' rest' /\ mj_run st' = run /\
    mj_run_key st' = match run with [] => None | _ => Some target end /\
    Forall (misses target) dropped /\ Forall (equal_to target) run /\ Forall (past target) rest'.
Proof.
  induction rest as [|row rest IH]; intros st [|fuel] Wt R Ru Rk Fu; cbn in Fu; try lia; cbn [seek_run];
    destruct (next_right_ok st _ R) as (st1 & E1 & L1 & Ru1 & Rk1 & R1 & Ex1); rewrite (M_Ok _ _ _ _ _ E1); cbn [head tail] in *.
  - exists st1, [], [], []. rewrite Ru1, Rk1. by split_and!.
  - destruct R as (W & So & _). apply keys_wf_cons in W as [W1 W2]. pose proof So as So'. apply sorted_on_cons in So as [Fr So].
    destruct (Ex1 ltac:(done)) as [Ex Pe]. rewrite (at_index_key _ _ W1). mrun.
    assert (Skip : misses target row ->
      exists st' dropped run rest', seek_run (ex_next right_input) rc fuel target st1 = (Ok tt, st') /\ same_left st st' /\
        row :: rest = dropped ++ run ++ rest' /\ right_rest st' rest' /\ mj_run st' = run /\
        mj_run_key st' = match run with [] => None | _ => Some target end /\
        Forall (misses target) dropped /\ Forall (equal_to target) run /\ Forall (past target) rest').
    { intros Mi. destruct (IH st1 fuel) as (st' & dropped & run & rest' & E2 & L2 & Er & Rr & Ru2 & Rk2 & Dr & Eq & Pa);
        [done|done|by rewrite Ru1|by rewrite Rk1|lia|].
      exists st', (row :: dropped), run, rest'. split_and!; try done; [by apply (same_left_trans _ st1)|by rewrite Er|by constructor]. }
    destruct (is_null (rkey row)) eqn:N; [apply Skip; by left|]. pose proof (proj2 (key_at_wf _ _ W1)) as Wr.
    rewrite compare_sql_denote by done. mrun.
    destruct (key_cmp (denote (rkey row)) (denote target)) as [[]|] eqn:C; cbn [default id].
    + mrun. destruct (collect_run_ok target rest (set_run [row] (Some target) st1) fuel) as (st' & run & rest' & E2 & L2 & Er & Rr & Ru2 & Rk2 & Eq & Pa);
        [done|done|done|done|rewrite <- (follows_equal _ _ _ C); by apply Fr|lia|].
      exists st', [], (row :: run), rest'. rewrite E2. cbn in Ru2, Rk2. split_and!; try done; [by apply (same_left_trans _ st1)|by rewrite Er|by constructor].
    + apply Skip. right. by rewrite C.
    + exists (set_pending (Some row) st1), [], [], (row :: rest). split_and!; try done.
      * destruct R1 as (_ & _ & R1). split_and!; [by apply keys_wf_cons|done|]. cbn. rewrite Ex, Pe in *. destruct R1 as (rows & St & -> & Se). by exists rows.
      * cbn. by rewrite Ru1.
      * cbn. by rewrite Rk1.
      * assert (B : below_key target (rkey row) = true) by (unfold below_key; by rewrite key_cmp_sym, C).
        constructor; [unfold past, beyond; by rewrite B, orb_true_r|]. apply past_map. apply (follows_beyond _ (rkey row)); [done|by apply Fr].
    + apply Skip. right. by rewrite C.
Qed.

(** ** The left side *)

Context (inner : list Tuple).

Definition pairs (l r : Tuple) : bool := match key_cmp (denote (lkey l)) (denote (rkey r)) with Some Eq => true | _ => false end.
Definition found (l : Tuple) (rows : list Tuple) : list Tuple := List.filter (pairs l) rows.
Definition joined (lrows : list Tuple) : list Tuple := flat_map (fun l => map (app l) (found l inner)) lrows.

(** The run is the right rows with its key, and what is to come is past it. *)
Definition run_ok (st : State) (rest : list Tuple) : Prop :=
  match mj_run_key st with
  | None => mj_run st = []
  | Some k => value_wf k = true /\ mj_run st <> [] /\ Forall (equal_to k) (mj_run st) /\ Forall (past k) rest
  end.

(** Between two turns, with less than [n] right rows to come. *)
Definition merge_inv (n : nat) (lrows : list Tuple) (st : State) (out : list Tuple) : Prop :=
  let left_rows := option_list (mj_current st) ++ lrows in
  streams left_input (mj_left st) lrows /\ keys_wf lc left_rows = true /\ sorted_on lc left_rows = true /\
  seen_ok (mj_last_left st) (map lkey lrows) /\
  exists dropped rest, right_rest st rest /\ (length rest < n)%nat /\ inner = dropped ++ mj_run st ++ rest /\
  Forall (fun l => Forall (fun r => pairs l r = false) dropped) left_rows /\ run_ok st rest /\
  match mj_current st with
  | None => out = joined lrows
  | Some o => (exists k, mj_run_key st = Some k /\ key_cmp (denote (lkey o)) (denote k) = Some Eq) /\
      out = map (app o) (drop (mj_cursor st) (mj_run st)) ++ joined lrows
  end.

Lemma found_none l rows : Forall (fun r => pairs l r = false) rows -> found l rows = [].
Proof. intros F. induction F as [|r rows E F IH]; [done|]. cbn. by rewrite E. Qed.

Lemma found_all l rows : Forall (fun r => pairs l r = true) rows -> found l rows = rows.
Proof. intros F. induction F as [|r rows E F IH]; [done|]. cbn. rewrite E. f_equal. apply IH. Qed.

Lemma null_pairs l r : is_null (lkey l) = true -> pairs l r = false.
Proof. unfold pairs. by destruct (lkey l). Qed.

Lemma past_pairs k l r : at_most (lkey l) k = true -> past k r -> pairs l r = false.
Proof.
  unfold past, beyond, pairs. intros A [N|B]%orb_true_iff; [destruct (rkey r); try done; by destruct (lkey l)|].
  pose proof (at_most_below _ _ _ A B) as C. unfold below_key in C. by destruct (key_cmp _ _) as [[]|].
Qed.

Lemma equal_pairs k l r : equal_to k r -> pairs l r = match key_cmp (denote (lkey l)) (denote k) with Some Eq => true | _ => false end.
Proof.
  unfold equal_to, pairs. intros E. rewrite (key_cmp_sym (denote (rkey r)) (denote (lkey l))), (key_cmp_Eq_l _ _ _ E), (key_cmp_sym (denote (lkey l)) (denote k)).
  by destruct (key_cmp (denote (lkey l)) (denote k)) as [[]|].
Qed.

(** A left key that is not after [l]'s does not meet what [l]'s key drops. *)
Lemma misses_later target l r : misses target r -> is_null (lkey l) = true \/ at_most target (lkey l) = true -> pairs l r = false.
Proof.
  intros [N|M] [Nl|A]; try by apply null_pairs.
  - unfold pairs. destruct (rkey r); try done. by destruct (lkey l).
  - unfold pairs. destruct (key_cmp (denote (rkey r)) (denote target)) as [[]|] eqn:C; try done.
    + assert (B : below_key (rkey r) (lkey l) = true) by (apply (below_at_most_trans _ target); [unfold below_key; by rewrite C|done]).
      unfold below_key in B. rewrite key_cmp_sym. by destruct (key_cmp (denote (rkey r)) (denote (lkey l))) as [[]|].
    + unfold at_most in A. destruct (denote (rkey r)), (denote target), (denote (lkey l)); done.
Qed.

Lemma stale_misses k l r :
  equal_to k r -> match key_cmp (denote (lkey l)) (denote k) with Some Gt | None => True | _ => False end -> misses (lkey l) r.
Proof.
  unfold equal_to, misses. intros E C. right. rewrite (key_cmp_Eq_l _ _ _ E), key_cmp_sym.
  by destruct (key_cmp (denote (lkey l)) (denote k)) as [[]|].
Qed.

(** What an ascending left side still has is not before its first key. *)
Lemma left_rows_after o lrows :
  sorted_on lc (o :: lrows) = true -> is_null (lkey o) = false ->
  Forall (fun l => is_null (lkey l) = true \/ at_most (lkey o) (lkey l) = true) (o :: lrows).
Proof.
  intros So N. apply sorted_on_cons in So as [F _]. constructor.
  - right. unfold at_most. by rewrite key_cmp_refl by by apply is_null_false.
  - specialize (F N). apply follows_at_most in F. by apply Forall_fmap in F.
Qed.

Lemma joined_cons o lrows : joined (o :: lrows) = map (app o) (found o inner) ++ joined lrows.
Proof. done. Qed.

Lemma found_app l a b : found l (a ++ b) = found l a ++ found l b.
Proof. apply List.filter_app. Qed.

(** The row that a turn takes from the left. *)
Lemma merge_left_ok n o lrows st out :
  merge_inv n (o :: lrows) st out -> mj_current st = None ->
  exists s last, merge_left (ex_next left_input) lc st = (Ok (Some o), note_left last (set_cursor 0 (set_current (Some o) (set_left s st)))) /\
    streams left_input s lrows /\ seen_ok last (map lkey lrows).
Proof.
  intros (St & W & So & Se & _) Cu. rewrite Cu in *. cbn [option_list app] in *. inversion St as [|s s' ? ? E B St']; subst.
  apply keys_wf_cons in W as [W1 W2]. apply sorted_on_cons in So as [F So].
  destruct (assert_ascending_ok (mj_last_left st) (lkey o) (map lkey lrows)) as (last & El & Sl);
    [by apply key_at_wf|intros N; by apply follows_at_most, F|done|].
  exists s', last. split_and!; [|done..]. unfold merge_left. mrun. cbn [id]. rewrite Cu.
  rewrite (M_Ok _ _ _ (Some o) (set_left s' st)) by (unfold zoom; by rewrite E). mrun. rewrite (at_index_key _ _ W1). mrun.
  cbn [id set_left set_current set_cursor mj_last_left]. rewrite El. by mrun.
Qed.

(** Building a run for a left row: the run is its partners, or there are none. *)
Lemma build_run_ok n o lrows st dropped rest :
  is_null (lkey o) = false -> value_wf (lkey o) = true -> sorted_on lc (o :: lrows) = true ->
  right_rest st rest -> (length rest < n)%nat -> inner = dropped ++ mj_run st ++ rest ->
  Forall (fun l => Forall (fun r => pairs l r = false) dropped) (o :: lrows) -> Forall (misses (lkey o)) (mj_run st) ->
  exists st' dropped' rest', build_run (ex_next right_input) rc n (lkey o) st = (Ok tt, st') /\ same_left (set_cursor 0 st) st' /\
    right_rest st' rest' /\ (length rest' < n)%nat /\ inner = dropped' ++ mj_run st' ++ rest' /\
    Forall (fun l => Forall (fun r => pairs l r = false) dropped') (o :: lrows) /\ run_ok st' rest' /\
    mj_run_key st' = match mj_run st' with [] => None | _ => Some (lkey o) end /\ found o inner = mj_run st'.
Proof.
  intros N Wo So R Ln Ei Dr Mi. unfold build_run. rewrite N. mrun.
  destruct (seek_run_ok (lkey o) rest (set_cursor 0 (set_run [] None st)) n) as (st' & drop2 & run & rest' & E & L & Er & Rr & Ru & Rk & D2 & Eq & Pa); [done..|].
  exists st', (dropped ++ mj_run st ++ drop2), rest'. rewrite E.
  assert (Ei' : inner = (dropped ++ mj_run st ++ drop2) ++ mj_run st' ++ rest') by (by rewrite Ei, Er, Ru, <- !app_assoc).
  assert (Dr' : Forall (fun l => Forall (fun r => pairs l r = false) (dropped ++ mj_run st ++ drop2)) (o :: lrows)).
  { apply Forall_forall. intros l Hl. rewrite !Forall_app. split; [by apply (proj1 (Forall_forall _ _) Dr)|].
    pose proof (proj1 (Forall_forall _ _) (left_rows_after _ _ So N) l Hl) as Al.
    split; (eapply Forall_impl; [eassumption|]); intros r Mr; by apply (misses_later (lkey o)). }
  assert (Lr : (length rest' < n)%nat) by (rewrite Er, !length_app in Ln; lia).
  split_and!; try done.
  - unfold run_ok. rewrite Rk, Ru. destruct run; [done|]. by split_and!.
  - by rewrite Ru.
  - rewrite Ei', !found_app. inversion Dr' as [|? ? Do _]; subst.
    rewrite (found_none o rest'), app_nil_r.
    2: { eapply Forall_impl; [exact Pa|]. intros r Pr. apply (past_pairs (lkey o)); [|done].
         unfold at_most. by rewrite key_cmp_refl by by apply is_null_false. }
    rewrite (found_all o (mj_run st')).
    2: { eapply Forall_impl; [exact Eq|]. intros r Er'. rewrite (equal_pairs _ _ _ Er').
         by rewrite key_cmp_refl by by apply is_null_false. }
    rewrite <- !found_app, (found_none o); done.
Qed.

(** ** Turns *)

Abbreviation turn n := (merge_turn (ex_next left_input) (ex_next right_input) lc rc n).

(** A turn that builds a run for the left row it has taken. *)
Lemma turn_build n o lrows st dropped rest :
  mj_current st = Some o -> is_null (lkey o) = false -> keys_wf lc (o :: lrows) = true -> sorted_on lc (o :: lrows) = true ->
  streams left_input (mj_left st) lrows -> seen_ok (mj_last_left st) (map lkey lrows) ->
  right_rest st rest -> (length rest < n)%nat -> inner = dropped ++ mj_run st ++ rest ->
  Forall (fun l => Forall (fun r => pairs l r = false) dropped) (o :: lrows) -> Forall (misses (lkey o)) (mj_run st) ->
  exists st', (build_run (ex_next right_input) rc n (lkey o);;
               st ← gets id;
               match mj_run_key st with None => modify (set_current None);; mret (None : option (option Tuple)) | Some _ => mret None end) st = (Ok None, st') /\
    mj_left_pulled st' = mj_left_pulled st /\ merge_inv n lrows st' (joined (o :: lrows)) /\
    (mj_current st' <> None -> drop (mj_cursor st') (mj_run st') <> []).
Proof.
  intros Cu N W So St Sl R Ln Ei Dr Mi. pose proof W as W'. apply keys_wf_cons in W' as [W1 W2]. pose proof (proj2 (key_at_wf _ _ W1)) as Wo.
  destruct (build_run_ok n o lrows st dropped rest N Wo So R Ln Ei Dr Mi) as (st' & dropped' & rest' & E & L & R' & Ln' & Ei' & Dr' & Ro & Rk & Fo).
  rewrite (M_Ok _ _ _ _ _ E). mrun. cbn [id]. destruct L as (Ll & Lc & Lla & Lp & Lcu).
  cbn [set_cursor mj_left mj_current mj_last_left mj_left_pulled mj_cursor] in *.
  destruct (mj_run st') as [|r run] eqn:Er; rewrite Rk.
  - mrun. eexists. split; [done|]. split; [done|]. split; [|done]. rewrite joined_cons, Fo. unfold merge_inv. cbn. rewrite Ll, Lla.
    split_and!; try done; [apply (sorted_on_cons _ _ _ So)|]. exists dropped', rest'. rewrite Er. split_and!; try done. by inversion Dr'.
  - exists st'. split; [done|]. split; [done|]. rewrite Er, Lcu. cbn [drop]. split; [|done]. rewrite joined_cons, Fo. unfold merge_inv. rewrite Lc, Cu, Ll, Lla, Lcu.
    cbn [option_list app]. split_and!; try done. exists dropped', rest'. rewrite Er. split_and!; try done.
    exists (lkey o). split; [done|]. apply key_cmp_refl, is_null_false, N.
Qed.

(** The partners of a left row whose key is that of the run. *)
Lemma found_run o k st dropped rest :
  Forall (fun r => pairs o r = false) dropped -> run_ok st rest -> mj_run_key st = Some k ->
  key_cmp (denote (lkey o)) (denote k) = Some Eq -> inner = dropped ++ mj_run st ++ rest -> found o inner = mj_run st.
Proof.
  intros Do Ro Rk C ->. unfold run_ok in Ro. rewrite Rk in Ro. destruct Ro as (Wk & Ne & Eq & Pa).
  rewrite !found_app, (found_none o dropped), (found_all o (mj_run st)), (found_none o rest), app_nil_r; try done.
  - eapply Forall_impl; [exact Pa|]. intros r Pr. apply (past_pairs k); [|done]. unfold at_most. by rewrite C.
  - eapply Forall_impl; [exact Eq|]. intros r Er. by rewrite (equal_pairs _ _ _ Er), C.
Qed.

Lemma found_before o k st dropped rest :
  Forall (fun r => pairs o r = false) dropped -> run_ok st rest -> mj_run_key st = Some k ->
  key_cmp (denote (lkey o)) (denote k) = Some Lt -> inner = dropped ++ mj_run st ++ rest -> found o inner = [].
Proof.
  intros Do Ro Rk C ->. unfold run_ok in Ro. rewrite Rk in Ro. destruct Ro as (Wk & Ne & Eq & Pa). apply found_none.
  rewrite !Forall_app. split_and!; [done| |].
  - eapply Forall_impl; [exact Eq|]. intros r Er. by rewrite (equal_pairs _ _ _ Er), C.
  - eapply Forall_impl; [exact Pa|]. intros r Pr. apply (past_pairs k); [|done]. unfold at_most. by rewrite C.
Qed.

Lemma turn_take n o lrows st out :
  merge_inv n (o :: lrows) st out -> mj_current st = None ->
  exists r st', turn n st = (Ok r, st') /\ mj_left_pulled st' = S (mj_left_pulled st) /\
  match r with
  | Some r => r = head out /\ out <> [] /\ merge_inv n lrows st' (tail out)
  | None => merge_inv n lrows st' out /\ (mj_current st' <> None -> drop (mj_cursor st') (mj_run st') <> [])
  end.
Proof.
  intros Inv Cu. destruct (merge_left_ok _ _ _ _ _ Inv Cu) as (s & last & E & St & Sl).
  destruct Inv as (_ & W & So & _ & dropped & rest & R & Ln & Ei & Dr & Ro & Out). rewrite Cu in *. cbn [option_list app] in *.
  set (st1 := note_left last (set_cursor 0 (set_current (Some o) (set_left s st)))) in *.
  unfold merge_turn. rewrite (M_Ok _ _ _ _ _ E). pose proof W as W'. apply keys_wf_cons in W' as [W1 W2]. rewrite (at_index_key _ _ W1). mrun.
  pose proof (proj2 (key_at_wf _ _ W1)) as Wo. inversion Dr as [|? ? Do Dl]; subst.
  (* the state once the left row is dropped *)
  assert (Skip : found o inner = [] -> merge_inv n lrows (set_current None st1) (joined (o :: lrows))).
  { intros F. rewrite joined_cons, F. unfold merge_inv. cbn. split_and!; [done|done|apply (sorted_on_cons _ _ _ So)|done|].
    by exists dropped, rest. }
  destruct (is_null (lkey o)) eqn:N.
  { mrun. eexists None, _. split; [done|]. split; [done|]. split; [|done]. apply Skip, found_none. apply Forall_true. intros r. by apply null_pairs. }
  mrun. cbn [id]. subst st1. cbn [note_left set_cursor set_current set_left mj_run_key mj_run mj_cursor] in *.
  destruct (mj_run_key st) as [k|] eqn:Rk.
  2: { mrun. unfold run_ok in Ro. rewrite Rk in Ro. destruct (turn_build n o lrows (note_left last (set_cursor 0 (set_current (Some o) (set_left s st)))) dropped rest)
         as (st' & E' & Lp & Inv & Re); try done; [cbn; by rewrite Ro|]. exists None, st'. by rewrite E'. }
  pose proof Ro as Ro'. unfold run_ok in Ro'. rewrite Rk in Ro'. destruct Ro' as (Wk & Ne & Eq & Pa).
  rewrite compare_sql_denote by done. mrun. destruct (key_cmp (denote (lkey o)) (denote k)) as [[]|] eqn:C.
  - pose proof (found_run _ _ _ _ _ Do Ro Rk C Ei) as Fo. rewrite joined_cons, Fo. destruct (mj_run st) as [|r run] eqn:Er; [done|]. cbn [lookup list_lookup].
    mrun. eexists (Some (Some (o ++ r))), _. split; [done|]. split; [done|]. split; [done|]. split; [done|].
    unfold merge_inv. cbn. split_and!; try done. exists dropped, rest. rewrite Er, Rk. cbn. split_and!; try done. by exists k.
  - mrun. eexists None, _. split; [done|]. split; [done|]. split; [|done]. apply Skip. by apply (found_before _ k st dropped rest).
  - destruct (turn_build n o lrows (note_left last (set_cursor 0 (set_current (Some o) (set_left s st)))) dropped rest)
      as (st' & E' & Lp & Inv & Re); try done; [|exists None, st'; by rewrite E'].
    eapply Forall_impl; [exact Eq|]. intros r Er. apply (stale_misses k); [done|by rewrite C].
  - destruct (turn_build n o lrows (note_left last (set_cursor 0 (set_current (Some o) (set_left s st)))) dropped rest)
      as (st' & E' & Lp & Inv & Re); try done; [|exists None, st'; by rewrite E'].
    eapply Forall_impl; [exact Eq|]. intros r Er. apply (stale_misses k); [done|by rewrite C].
Qed.

(** A turn in the middle of a run. *)
Lemma turn_run n lrows st out o :
  merge_inv n lrows st out -> mj_current st = Some o ->
  exists r st', turn n st = (Ok r, st') /\
  match r with
  | Some r => r = head out /\ out <> [] /\ merge_inv n lrows st' (tail out)
  | None => merge_inv n lrows st' out /\ mj_current st' = None /\ drop (mj_cursor st) (mj_run st) = []
  end.
Proof.
  intros (St & W & So & Se & dropped & rest & R & Ln & Ei & Dr & Ro & Out) Cu. rewrite Cu in *. destruct Out as ((k & Rk & C) & ->).
  cbn [option_list app] in *. pose proof W as W'. apply keys_wf_cons in W' as [W1 W2].
  unfold merge_turn. rewrite (M_Ok _ _ _ (Some o) st) by (unfold merge_left; mrun; cbn [id]; by rewrite Cu).
  rewrite (at_index_key _ _ W1). mrun. destruct (is_null (lkey o)) eqn:N; [by destruct (lkey o)|]. mrun. cbn [id]. rewrite Rk.
  pose proof Ro as Ro'. unfold run_ok in Ro'. rewrite Rk in Ro'. destruct Ro' as (Wk & Ne & Eq & Pa).
  rewrite compare_sql_denote by (done || by apply key_at_wf). mrun. rewrite C.
  replace (mj_run st !! mj_cursor st) with (head (drop (mj_cursor st) (mj_run st))) by (by rewrite head_lookup, lookup_drop, Nat.add_0_r).
  destruct (drop (mj_cursor st) (mj_run st)) as [|r run] eqn:D; cbn [head]; mrun.
  - eexists None, _. split; [done|]. split; [|done]. unfold merge_inv. cbn. split_and!; try done; [apply (sorted_on_cons _ _ _ So)|].
    exists dropped, rest. split_and!; try done. by inversion Dr.
  - eexists (Some (Some (o ++ r))), _. split; [done|]. split; [done|]. split; [done|]. unfold merge_inv. cbn [mj_current set_cursor mj_left mj_last_left mj_run mj_run_key mj_cursor].
    rewrite Cu. cbn [option_list app]. split_and!; try done. exists dropped, rest. split_and!; try done; [by exists k|].
    replace (S (mj_cursor st)) with (mj_cursor st + 1)%nat by lia. by rewrite <- drop_drop, D.
Qed.

Lemma turn_end n st out : merge_inv n [] st out -> mj_current st = None -> exists st', turn n st = (Ok (Some None), st').
Proof.
  intros (St & _) Cu. inversion St as [? s' E|]; subst. unfold merge_turn, merge_left. eexists.
  rewrite (M_Ok _ _ _ None (set_cursor 0 (set_current None (set_left s' st)))); [done|]. mrun. cbn [id]. rewrite Cu.
  by rewrite (M_Ok _ _ _ None (set_left s' st)) by (unfold zoom; by rewrite E).
Qed.

Abbreviation loop turns n := (merge_loop (ex_next left_input) (ex_next right_input) lc rc turns n).

Definition emits n turns previous st out : Prop :=
  exists st', loop turns n previous st = (Ok (head out), st') /\ (out <> [] -> exists lrows, merge_inv n lrows st' (tail out)).

(** One turn that returns, or one that leads to another. *)
Lemma loop_turn n turns previous st r st' out :
  previous <> Some (progress st) -> turn n st = (Ok r, st') ->
  match r with
  | Some r => r = head out /\ (out <> [] -> exists lrows, merge_inv n lrows st' (tail out))
  | None => emits n turns (Some (progress st)) st' out
  end -> emits n (S turns) previous st out.
Proof.
  intros P E H. unfold emits. cbn [merge_loop]. mrun. cbn [id]. rewrite bool_decide_false by done. rewrite (M_Ok _ _ _ _ _ E).
  destruct r as [r|]; [|done]. destruct H as [-> H]. by exists st'.
Qed.

Lemma loop_none lrows : forall n st out turns previous,
  merge_inv n lrows st out -> mj_current st = None -> (length lrows + 2 < turns)%nat -> previous <> Some (progress st) -> emits n turns previous st out.
Proof.
  induction lrows as [|o lrows IH]; intros n st out [|turns] previous Inv Cu Lt P; cbn in Lt; try lia.
  - destruct (turn_end _ _ _ Inv Cu) as (st' & E). apply (loop_turn _ _ _ _ _ _ _ P E).
    destruct Inv as (_ & _ & _ & _ & dropped & rest & _ & _ & _ & _ & _ & Out). rewrite Cu in Out. by subst out.
  - destruct (turn_take _ _ _ _ _ Inv Cu) as (r & st' & E & Lp & H). apply (loop_turn _ _ _ _ _ _ _ P E).
    assert (P' : Some (progress st) <> Some (progress st')) by (unfold progress; rewrite Lp; intros [= ?]; lia).
    destruct r as [r|]; [destruct H as (-> & _ & H); split; [done|]; by exists lrows|]. destruct H as [Inv' Re].
    destruct (mj_current st') as [o'|] eqn:Cu'; [|apply IH; [done..|lia|done]]. destruct turns as [|turns]; [lia|].
    destruct (turn_run _ _ _ _ _ Inv' Cu') as (r & st'' & E' & H). apply (loop_turn _ _ _ _ _ _ _ P' E').
    destruct r as [r|]; [destruct H as (-> & _ & H); split; [done|]; by exists lrows|]. destruct H as (_ & _ & D). by destruct Re.
Qed.

Lemma loop_ok n lrows st out turns :
  merge_inv n lrows st out -> (length lrows + 3 < turns)%nat -> emits n turns None st out.
Proof.
  intros Inv Lt. destruct (mj_current st) as [o|] eqn:Cu; [|by apply (loop_none lrows); [..|lia|]].
  destruct turns as [|turns]; [lia|]. destruct (turn_run _ _ _ _ _ Inv Cu) as (r & st' & E & H). apply (loop_turn _ _ None _ _ _ _ ltac:(done) E).
  destruct r as [r|]; [destruct H as (-> & _ & H); split; [done|]; by exists lrows|]. destruct H as (Inv' & Cu' & _).
  apply (loop_none lrows); [done..|lia|]. unfold progress. rewrite Cu, Cu'. by intros [=].
Qed.

Lemma right_rest_length st rest : right_rest st rest -> (length rest <= S (ex_bound right_input (mj_right st)))%nat.
Proof.
  intros (_ & _ & R). destruct (mj_exhausted st); [destruct R as [_ ->]; cbn; lia|]. destruct R as (rows & St & -> & _).
  apply streams_bound in St. rewrite length_app. destruct (mj_pending st); cbn; lia.
Qed.

(** The fuel of the next call is enough, whatever that of the last one was. *)
Lemma merge_inv_fuel n lrows st out :
  merge_inv n lrows st out -> merge_inv (S (S (ex_bound right_input (mj_right st)))) lrows st out.
Proof.
  intros (St & W & So & Se & dropped & rest & R & Ln & Rest). unfold merge_inv. split_and!; [done..|]. exists dropped, rest.
  pose proof (right_rest_length _ _ R). split; [done|]. split; [lia|done].
Qed.

Lemma merge_inv_length n lrows st out : merge_inv n lrows st out -> (length out <= merge_bound left_input right_input st)%nat.
Proof.
  intros (St & W & So & Se & dropped & rest & R & Ln & Ei & Dr & Ro & Out). apply right_rest_length in R. apply streams_bound in St.
  assert (J : (length (joined lrows) <= length lrows * (length (mj_run st) + length rest))%nat).
  { apply Forall_app in Dr as [_ Dr]. clear -Dr Ei. induction Dr as [|l lrows Dl Dr IH]; [cbn; lia|].
    rewrite joined_cons, length_app, length_map, Ei, !found_app, (found_none l dropped) by done. cbn [app]. rewrite length_app. unfold found at 1 2.
    pose proof (List.filter_length_le (pairs l) (mj_run st)). pose proof (List.filter_length_le (pairs l) rest). cbn [length]. nia. }
  unfold merge_bound. destruct (mj_current st) as [o|]; [destruct Out as [_ ->]; rewrite length_app, length_map, length_drop|subst out]; nia.
Qed.
End merge.

(** The rows of the reference, when every key is well formed. *)
Lemma join_rows_joined lc rc w lrows inner :
  keys_wf lc lrows = true -> keys_wf rc inner = true ->
  join_rows Inner w (key_test lc rc None) lrows inner = Ok (joined lc rc inner lrows).
Proof.
  intros Wl Wr. induction lrows as [|l lrows IH]; [done|]. apply keys_wf_cons in Wl as [W1 W2]. cbn [join_rows]. rewrite (IH W2).
  rewrite (filterM_bool _ (pairs lc rc l)).
  - cbn [mbind outcome_bind]. rewrite joined_cons. do 2 f_equal. unfold emit, found. by destruct (List.filter _ inner).
  - apply List.Forall_forall. intros r Hr. assert (W : key_wf rc r = true) by (by apply forallb_forall with (x := r) in Wr).
    unfold key_test, pairs. rewrite (at_index_key _ _ W1), (at_index_key _ _ W). cbn [mbind outcome_bind].
    rewrite equal_keys_wf by (by apply key_at_wf). cbn [mbind outcome_bind]. by destruct (key_cmp _ _) as [[]|].
Qed.

Lemma merge_yields left_input right_input lc rc rows inner :
  yields left_input rows -> yields right_input inner -> keys_wf lc rows = true -> keys_wf rc inner = true ->
  sorted_on lc rows = true -> sorted_on rc inner = true ->
  (lc < length (columns (ex_schema left_input)))%nat -> (rc < length (columns (ex_schema right_input)))%nat ->
  exists ex, merge_join_new left_input right_input lc rc = Ok ex /\ yields ex (joined lc rc inner rows) /\
    ex_schema ex = concat_schemas (ex_schema left_input) (ex_schema right_input) false.
Proof.
  intros Sl Sr Wl Wr Ol Or Cl Cr. unfold merge_join_new. destruct (Nat.leb_spec (length (columns (ex_schema left_input))) lc); [lia|].
  destruct (Nat.leb_spec (length (columns (ex_schema right_input))) rc); [lia|]. eexists. split; [done|]. split; [|done].
  assert (Step : forall st out, (exists n lrows, merge_inv left_input right_input lc rc inner n lrows st out) ->
    exists st', merge_next left_input right_input lc rc st = (Ok (head out), st') /\
      (out <> [] -> exists n lrows, merge_inv left_input right_input lc rc inner n lrows st' (tail out))).
  { intros st out (n & lrows & Inv). pose proof Inv as (St & _). apply streams_bound in St. unfold merge_next.
    destruct (loop_ok left_input right_input lc rc inner _ lrows st out (3 * S (S (ex_bound left_input (mj_left st)))) (merge_inv_fuel _ _ _ _ _ _ _ _ _ Inv))
      as (st' & E & Rest); [lia|]. exists st'. split; [done|]. intros Ne. destruct (Rest Ne) as (l & I). eauto. }
  apply (streams_intro (mkExecutor _ _ _ _ _) (fun st out => exists n lrows, merge_inv left_input right_input lc rc inner n lrows st out)).
  - intros st Inv. destruct (Step _ _ Inv) as (st' & E & _). by exists st'.
  - intros st t rest Inv. split; [destruct Inv as (n & lrows & Inv); by apply (merge_inv_length _ _ _ _ _ _ _ _ _ Inv)|].
    destruct (Step _ _ Inv) as (st' & E & Rest). exists st'. split; [done|]. by apply Rest.
  - exists (S (length inner)), rows. unfold merge_inv. cbn. split_and!; try done. exists [], inner. split_and!; try done; [|lia|].
    + unfold right_rest. cbn. split_and!; try done. by exists inner.
    + apply Forall_true. constructor.
Qed.
