(* ===== verification/Models.v ===== *)
(** The two execution models (execution/model.rs, push.rs) agree: whenever the
    plan means a list of rows, pulling it through executors and pushing it
    through sinks both return that list. *)

From Stdlib Require Import ZArith Lia List Bool.
From coqutil Require Import Byte.
From S2P Require Import Prelude Common Decimal Value KeyEnc Engine Table TableSpec Expr Aggregate Exec Build Streams Joins MergeJoin.
From stdpp Require Import base list strings.
#[local] Open Scope Z_scope.

(** ** Feeding a sink *)

Definition push_all (out : Sink) (rows : list Tuple) : M (sk_state out) unit := push_items (fun t => Ok t) out rows.

(** A source that pushes [rows] into its sink until it stops, and finishes it. *)
Definition feeds (source : Sink -> Source) (rows : list Tuple) : Prop := forall out, source out = run_sink out (push_all out rows).

Lemma push_cons out t rows s :
  push_all out (t :: rows) s =
  match sk_push out t s with
  | (Ok Continue, s') => push_all out rows s'
  | (Ok Stop, s') => (Ok tt, s')
  | (Err e, s') => (Err e, s')
  | (Panic, s') => (Panic, s')
  end.
Proof.
  unfold push_all. cbn [push_items]. mrun. unfold wants_more, mbind, M_bind. by destruct (sk_push out t s) as [[[]| |] s'].
Qed.

Lemma bind_same {S A B} (m m' : M S A) (k : A -> M S B) s : m s = m' s -> (m ≫= k) s = (m' ≫= k) s.
Proof. unfold mbind, M_bind. by intros ->. Qed.

Lemma run_sink_same out m m' : m (sk_now out) = m' (sk_now out) -> run_sink out m = run_sink out m'.
Proof. intros E. unfold run_sink. by rewrite (bind_same m m'). Qed.

Lemma push_items_rows {A} (row_of : A -> result Tuple) out items rows s :
  mapM row_of items = Ok rows -> push_items row_of out items s = push_all out rows s.
Proof.
  revert rows s. induction items as [|x items IH]; intros rows s E; cbn in E; [by injection E as <-|].
  bind_ok E as t Et. bind_ok E as ts Ets. injection E as <-. rewrite push_cons. cbn [push_items]. rewrite Et. mrun.
  unfold wants_more, mbind, M_bind. destruct (sk_push out t s) as [[[]| |] s']; cbn; by rewrite ?(IH ts).
Qed.

Lemma push_filter f out rows rows' s :
  filterM (filter_test f) rows = Ok rows' -> push_all (filter_sink f out) rows s = push_all out rows' s.
Proof.
  revert rows' s. induction rows as [|t rows IH]; intros rows' s E; cbn in E; [by injection E as <-|].
  bind_ok E as keep Ek. bind_ok E as others Eo. injection E as <-. rewrite push_cons. cbn [filter_sink sk_push]. rewrite Ek. mrun. destruct keep.
  - rewrite push_cons. destruct (sk_push out t s) as [[[]| |] s']; by rewrite ?(IH others).
  - by apply IH.
Qed.

Lemma push_map f out rows rows' s : mapM f rows = Ok rows' -> push_all (map_sink f out) rows s = push_all out rows' s.
Proof.
  revert rows' s. induction rows as [|t rows IH]; intros rows' s E; cbn in E; [by injection E as <-|].
  bind_ok E as t' Et. bind_ok E as ts Ets. injection E as <-. rewrite !push_cons. cbn [map_sink sk_push]. rewrite Et. mrun.
  destruct (sk_push out t' s) as [[[]| |] s']; by rewrite ?(IH ts).
Qed.

(** A limit passes its rows on, whatever it does with its counter. *)
Lemma push_limit out k n rows s :
  exists m, push_all (limit_sink k out) rows (n, s) = let '(r, s') := push_all out (take n rows) s in (r, (m, s')).
Proof.
  revert n s. induction rows as [|t rows IH]; intros n s; [exists n; by rewrite take_nil|].
  destruct n as [|n]; rewrite push_cons; [by exists 0%nat|]. cbn [take]. rewrite push_cons. cbn [limit_sink sk_push]. unfold limit_push. mrun. cbn [id fst].
  unfold downstream, zoom, mbind, M_bind. cbn [snd]. destruct (sk_push out t s) as [[[]| |] s']; cbn [modify fst snd].
  - destruct n as [|n]; [exists 0%nat; by rewrite take_0|]. apply IH.
  - exists n. by destruct n.
  - by exists (S n).
  - by exists (S n).
Qed.

Lemma downstream_run {A S B} (m : M S B) (a : A) s : downstream m (a, s) = let '(r, s') := m s in (r, (a, s')).
Proof. done. Qed.

(** An aggregation takes every row, and pushes its groups when it is finished. *)
Lemma push_aggregate out group_by aggregates args schema rows groups groups' s :
  foldM (group_row group_by aggregates args schema) groups rows = Ok groups' ->
  push_all (aggregate_sink group_by aggregates args schema out) rows (groups, s) = (Ok tt, (groups', s)).
Proof.
  revert groups. induction rows as [|t rows IH]; intros groups E; cbn in E; [by injection E as <-|].
  bind_ok E as g Eg. rewrite push_cons. cbn [aggregate_sink sk_push]. mrun. cbn [id fst]. rewrite Eg. mrun. by apply IH.
Qed.

Lemma emit_groups_push aggregates out keyed rows s :
  mapM (group_output aggregates) keyed = Ok rows -> emit_groups aggregates out keyed s = push_all out rows s.
Proof.
  revert rows s. induction keyed as [|g keyed IH]; intros rows s E; cbn in E; [by injection E as <-|].
  bind_ok E as t Et. bind_ok E as ts Ets. injection E as <-. rewrite push_cons. cbn [emit_groups]. rewrite Et. mrun.
  unfold wants_more, mbind, M_bind. destruct (sk_push out t s) as [[[]| |] s']; cbn; by rewrite ?(IH ts).
Qed.

Lemma feeds_filter source f rows rows' :
  feeds source rows -> filterM (filter_test f) rows = Ok rows' -> feeds (fun out => source (filter_sink f out)) rows'.
Proof. intros F E out. rewrite F. unfold run_sink. by rewrite (bind_same _ (push_all out rows')) by (by apply push_filter). Qed.

Lemma feeds_map source f rows rows' :
  feeds source rows -> mapM f rows = Ok rows' -> feeds (fun out => source (map_sink f out)) rows'.
Proof. intros F E out. rewrite F. unfold run_sink. by rewrite (bind_same _ (push_all out rows')) by (by apply push_map). Qed.

Lemma feeds_limit source n rows : feeds source rows -> feeds (fun out => source (limit_sink n out)) (take n rows).
Proof.
  intros F out. rewrite F. unfold run_sink. cbn [limit_sink sk_now sk_finish sk_rows]. destruct (push_limit out n n rows (sk_now out)) as (m & E).
  unfold mbind, M_bind. cbn [limit_sink sk_state] in *. rewrite E. destruct (push_all out (take n rows) (sk_now out)) as [[[]| |] s]; [|done..].
  rewrite downstream_run. by destruct (sk_finish out s).
Qed.

Lemma feeds_aggregate source group_by aggregates args schema rows rows' :
  feeds source rows -> grouped_rows group_by aggregates args schema rows = Ok rows' ->
  feeds (fun out => source (aggregate_sink group_by aggregates args schema out)) rows'.
Proof.
  intros F G out. rewrite F. unfold grouped_rows in G. bind_ok G as groups Eg. bind_ok G as keyed Ek. unfold run_sink.
  rewrite (M_Ok _ _ _ _ _ (push_aggregate out group_by aggregates args schema rows [] groups (sk_now out) Eg)).
  cbn [aggregate_sink sk_finish sk_rows sk_state]. mrun. cbn [id fst snd]. rewrite Ek. mrun.
  unfold mbind, M_bind. rewrite downstream_run, (emit_groups_push _ _ _ _ _ G). destruct (push_all out rows' (sk_now out)) as [[[]| |] s]; [|done..].
  rewrite downstream_run. by destruct (sk_finish out s).
Qed.

Lemma push_executor_streams exec out s rows fuel so :
  streams exec s rows -> (length rows < fuel)%nat ->
  exists s', push_executor fuel (ex_next exec) out (s, so) = let '(r, so') := push_all out rows so in (r, (s', so')).
Proof.
  intros St. revert fuel so. induction St as [s s' E|s s' t rows E B St IH]; intros [|fuel] so F; cbn in F; try lia; cbn [push_executor];
    unfold mbind at 1, M_bind, zoom; cbn [fst snd]; rewrite E; [by exists s'|].
  rewrite push_cons. unfold wants_more, mbind, M_bind. rewrite downstream_run. destruct (sk_push out t so) as [[[]| |] so']; [|by exists s'..].
  cbn. apply IH. lia.
Qed.

Lemma feeds_executor exec rows : yields exec rows -> feeds (executor_source exec) rows.
Proof.
  intros Y out. unfold executor_source, run_sink. pose proof (streams_bound _ _ _ Y).
  destruct (push_executor_streams exec out _ _ (S (ex_bound exec (ex_now exec))) (sk_now out) Y ltac:(lia)) as (s' & E).
  unfold mbind, M_bind. rewrite E. destruct (push_all out rows (sk_now out)) as [[[]| |] s]; [|done..]. rewrite downstream_run. by destruct (sk_finish out s).
Qed.

Lemma feeds_collector source rows : feeds source rows -> source collector = (Ok tt, rows).
Proof.
  intros F. rewrite F. unfold run_sink. assert (P : forall acc, push_all collector rows acc = (Ok tt, acc ++ rows)).
  { clear F. induction rows as [|t rows IH]; intros acc; [by rewrite app_nil_r|]. rewrite push_cons.
    etransitivity; [apply (IH (acc ++ [t]))|by rewrite <- app_assoc]. }
  by rewrite (M_Ok _ _ _ _ _ (P [])).
Qed.

(** ** What a plan means *)

Definition require (b : bool) : result unit := if b then Ok tt else Panic.

(** The columns of an outer row can be looked up in an index. *)
Definition probe_okb (s : Schema) (outer_cols inner_cols : list nat) (outer_row : Tuple) : bool :=
  (length outer_cols =? length inner_cols)%nat &&
  forallb (fun '(c, d) => match outer_row !! c with
                          | Some v => value_wf v && probe_fits (default TInt32 (column_types s !! d)) v
                          | None => false
                          end) (zip outer_cols inner_cols).

Section meaning.
Context {E I : Type} `{StorageEngine E} `{StorageEngine I}.
Context (storage : E) (get_table : string -> result Schema) (indexes_for_table : Schema -> result (list (IndexHandle I))).
Context (subqueries : list InSubquerySet) (correlated : list CorrelatedEvaluator).
Abbreviation resolve := (resolve_table storage get_table indexes_for_table).

(** Every operator on whole lists.  A plan that fails anywhere means nothing,
    and neither does one that leaves the domain of its operators: a derived
    table that is too large, key values out of range, a merge of unsorted
    inputs. *)
Fixpoint meaning (plan : PhysOp) : result (Schema * list Tuple) :=
  match plan with
  | SeqScan table => tbl ← resolve table; rows ← scan tbl; Ok (schema tbl, rows)
  | IndexScan table index prefix =>
      tbl ← resolve table;
      handle ← find_index (indexes tbl) index;
      rows ← index_scan tbl handle prefix;
      Ok (schema tbl, rows)
  | PkLookup table pk => tbl ← resolve table; row ← get_by_pk tbl pk; Ok (schema tbl, option_list row)
  | DerivedScan alias subplan cols =>
      '(_, rows) ← meaning subplan;
      _ ← require (len rows <=? MAX_DERIVED_ROWS);
      Ok (mkSchema alias 0 cols [], rows)
  | Exec.Filter input predicate =>
      '(s, rows) ← meaning input;
      f ← filter_fn predicate subqueries correlated;
      rows ← filterM (filter_test f) rows;
      Ok (s, rows)
  | Projection input cols =>
      '(s, rows) ← meaning input;
      _ ← check_projection s cols;
      out_schema ← project_schema s cols;
      rows ← mapM (project_row cols) rows;
      Ok (out_schema, rows)
  | Compute input exprs =>
      '(s, rows) ← meaning input;
      out_schema ← build_compute_schema s exprs;
      evals ← mapM compile exprs;
      rows ← mapM (compute_row evals) rows;
      Ok (out_schema, rows)
  | NestedLoopJoin outer inner on kind =>
      '(so, outer_rows) ← meaning outer;
      '(si, inner_rows) ← meaning inner;
      test ← join_predicate on;
      rows ← join_rows kind (length (columns si)) test outer_rows inner_rows;
      Ok (concat_schemas so si (is_left_outer kind), rows)
  | IndexNestedLoopJoin outer inner_table inner_index outer_key_cols =>
      '(so, outer_rows) ← meaning outer;
      tbl ← resolve inner_table;
      handle ← find_index (indexes tbl) inner_index;
      let indexed := index_columns (def handle) in
      _ ← require (length outer_key_cols =? length indexed)%nat;
      _ ← require (forallb (probe_okb (schema tbl) outer_key_cols indexed) outer_rows);
      inner_rows ← scan tbl;
      rows ← join_rows Inner (length (columns (schema tbl))) (columns_test outer_key_cols indexed) outer_rows inner_rows;
      Ok (concat_schemas so (schema tbl) false, rows)
  | HashJoin outer inner outer_key_col inner_key_col kind residual =>
      '(so, outer_rows) ← meaning outer;
      '(si, inner_rows) ← meaning inner;
      residual_fn ← match kind with Inner => Ok None | LeftOuter => residual_predicate residual end;
      _ ← require (keys_wf outer_key_col outer_rows && keys_wf inner_key_col inner_rows);
      rows ← join_rows kind (length (columns si)) (key_test outer_key_col inner_key_col residual_fn) outer_rows inner_rows;
      Ok (concat_schemas so si (is_left_outer kind), rows)
  | MergeJoin left_input right_input left_key_col right_key_col =>
      '(so, outer_rows) ← meaning left_input;
      '(si, inner_rows) ← meaning right_input;
      _ ← require (keys_wf left_key_col outer_rows && keys_wf right_key_col inner_rows);
      _ ← require (sorted_on left_key_col outer_rows && sorted_on right_key_col inner_rows);
      _ ← require (left_key_col <? length (columns so))%nat;
      _ ← require (right_key_col <? length (columns si))%nat;
      rows ← join_rows Inner (length (columns si)) (key_test left_key_col right_key_col None) outer_rows inner_rows;
      Ok (concat_schemas so si false, rows)
  | HashAggregate input group_by aggregates =>
      let agg_fns := map translate_aggregate_spec aggregates in
      '(s, rows) ← meaning input;
      _ ← require (negb (length aggregates =? 0)%nat);
      _ ← require (forallb (fun c => c <? length (columns s))%nat group_by);
      out_schema ← build_aggregate_schema s group_by agg_fns;
      args ← compile_args agg_fns;
      rows ← aggregate_rows group_by agg_fns args s rows;
      Ok (out_schema, rows)
  | Sort input keys =>
      '(s, rows) ← meaning input;
      _ ← require (negb (length keys =? 0)%nat);
      rows ← sort_by (compare_rows keys) rows;
      Ok (s, rows)
  | Limit input max_rows => '(s, rows) ← meaning input; Ok (s, take max_rows rows)
  end.

(** ** Pulling *)

(** The tables that the catalog resolves are consistent with their indexes. *)
Definition tables_ok : Prop := forall name tbl, resolve name = Ok tbl -> exists abs, represents tbl abs.

Lemma require_inv b (u : unit) : require b = Ok u -> b = true.
Proof. by destruct b. Qed.

Lemma probe_okb_ok s cols idx o : probe_okb s cols idx o = true -> probe_ok s cols idx o.
Proof.
  unfold probe_okb, probe_ok. intros [L F]%andb_true_iff. apply Nat.eqb_eq in L. revert idx L F.
  induction cols as [|c cols IH]; intros [|d idx] L F; cbn in *; try done.
  apply andb_true_iff in F as [F1 F2]. constructor; [|apply IH; [lia|done]].
  destruct (o !! c) as [v|]; [|done]. apply andb_true_iff in F1 as [W P]. by exists v.
Qed.

Lemma find_index_in (ixs : list (IndexHandle I)) name ix : find_index ixs name = Ok ix -> ix ∈ ixs.
Proof.
  unfold find_index. intros E1. destruct (head _) as [x|] eqn:Eh; [|done]. injection E1 as <-. apply head_Some_elem_of in Eh.
  by apply elem_of_filter_bool in Eh as [? _].
Qed.

Abbreviation build := (build_executor storage get_table indexes_for_table subqueries correlated).

Definition built (plan : PhysOp) (s : Schema) (rows : list Tuple) : Prop :=
  exists ex, build plan = Ok ex /\ ex_schema ex = s /\ yields ex rows.

(** Take the calls of a meaning apart. *)
Ltac open M :=
  repeat match type of M with
  | (_ ≫= _) = Ok _ =>
      let x := fresh "x" in let e := fresh "Eq" in bind_ok M as x e;
      try match type of x with (_ * _)%type => destruct x as [? ?] end;
      try (apply require_inv in e; destruct x)
  end;
  injection M as <- <-.

Lemma build_scan plan s rows :
  match plan with SeqScan _ | IndexScan _ _ _ | PkLookup _ _ => True | _ => False end -> meaning plan = Ok (s, rows) -> built plan s rows.
Proof.
  unfold built. intros L M. destruct plan; try done; cbn [meaning build_executor] in *; open M.
  all: rewrite Eq; cbn [mbind outcome_bind]; rewrite ?Eq0; cbn [mbind outcome_bind]; rewrite ?Eq1; cbn [mbind outcome_bind].
  all: eexists; split; [done|]; split; [done|]; apply rows_executor_yields.
Qed.

Lemma build_unary plan input s rows :
  match plan with
  | DerivedScan _ i _ | Exec.Filter i _ | Projection i _ | Compute i _ | HashAggregate i _ _ | Sort i _ | Limit i _ => i = input
  | _ => False
  end ->
  (forall s rows, meaning input = Ok (s, rows) -> built input s rows) -> meaning plan = Ok (s, rows) -> built plan s rows.
Proof.
  unfold built. intros L IH M. destruct plan; try done; subst; cbn [meaning build_executor] in *; open M;
    destruct (IH _ _ ltac:(eassumption)) as (ex & -> & <- & Y); cbn [mbind outcome_bind].
  - eexists. split; [done|]. split; [done|]. apply derived_yields; [done|]. by apply Z.leb_le.
  - rewrite Eq0. cbn [mbind outcome_bind]. eexists. split; [done|]. split; [done|]. by apply (filter_yields _ _ l).
  - unfold projection_new. rewrite Eq0, Eq1. cbn [mbind outcome_bind]. eexists. split; [done|]. split; [done|]. by apply (map_yields _ _ _ l).
  - unfold compute_new. rewrite Eq0. cbn [mbind outcome_bind]. rewrite Eq1. cbn [mbind outcome_bind]. eexists. split; [done|]. split; [done|]. by apply (map_yields _ _ _ l).
  - unfold aggregate_new. destruct aggregates as [|a aggs]; [done|]. cbn [map]. rewrite Eq1. cbn [negb].
    cbn [map] in Eq2, Eq3, Eq4. rewrite Eq2. cbn [mbind outcome_bind]. rewrite Eq3. cbn [mbind outcome_bind]. eexists. split; [done|]. split; [done|].
    by apply (compute_yields _ _ _ _ l).
  - unfold sort_new. destruct keys as [|k keys]; [done|]. eexists. split; [done|]. split; [done|]. by apply (sort_yields _ _ l).
  - eexists. split; [done|]. split; [done|]. by apply limit_yields.
Qed.

Lemma build_join plan a b s rows :
  match plan with
  | NestedLoopJoin o i _ _ | HashJoin o i _ _ _ _ | MergeJoin o i _ _ => o = a /\ i = b
  | _ => False
  end ->
  (forall s rows, meaning a = Ok (s, rows) -> built a s rows) -> (forall s rows, meaning b = Ok (s, rows) -> built b s rows) ->
  meaning plan = Ok (s, rows) -> built plan s rows.
Proof.
  unfold built. intros L IHa IHb M. destruct plan; try done; destruct L as [-> ->]; cbn [meaning build_executor] in *; open M;
    destruct (IHa _ _ ltac:(eassumption)) as (ea & -> & <- & Ya); destruct (IHb _ _ ltac:(eassumption)) as (eb & -> & <- & Yb); cbn [mbind outcome_bind].
  - rewrite Eq1. cbn [mbind outcome_bind]. destruct (nlj_yields _ _ _ _ _ _ _ Ya Yb Eq2) as (ex & -> & Y & Es). by exists ex.
  - rewrite Eq1. cbn [mbind outcome_bind]. apply andb_true_iff in Eq2 as [W1 W2].
    destruct (hash_yields _ _ _ _ _ _ _ _ _ Ya Yb W1 W2 Eq3) as (ex & -> & Y & Es). by exists ex.
  - apply andb_true_iff in Eq1 as [W1 W2], Eq2 as [O1 O2]. apply Nat.ltb_lt in Eq3, Eq4. rewrite join_rows_joined in Eq5 by done. injection Eq5 as <-.
    destruct (merge_yields _ _ _ _ _ _ Ya Yb W1 W2 O1 O2 Eq3 Eq4) as (ex & -> & Y & Es). by exists ex.
Qed.

Lemma build_index_join outer inner_table inner_index cols s rows :
  tables_ok -> (forall s rows, meaning outer = Ok (s, rows) -> built outer s rows) ->
  meaning (IndexNestedLoopJoin outer inner_table inner_index cols) = Ok (s, rows) ->
  built (IndexNestedLoopJoin outer inner_table inner_index cols) s rows.
Proof.
  unfold built. intros T IH M. cbn [meaning build_executor] in *. open M. destruct (IH _ _ ltac:(eassumption)) as (eo & -> & <- & Yo).
  cbn [mbind outcome_bind]. rewrite Eq0. cbn [mbind outcome_bind]. rewrite Eq1. cbn [mbind outcome_bind].
  destruct (T _ _ Eq0) as (abs & R). rewrite (scan_ok _ _ R) in Eq4. injection Eq4 as <-. apply Nat.eqb_eq in Eq2.
  assert (P : Forall (probe_ok (schema x) cols (index_columns (def x0))) l).
  { apply List.Forall_forall. intros o Ho. apply probe_okb_ok. by apply forallb_forall with (x := o) in Eq3. }
  destruct (inlj_yields _ _ _ _ _ _ _ R (find_index_in _ _ _ Eq1) Yo P Eq2 Eq5) as (ex & -> & Y & Es). by exists ex.
Qed.

Lemma build_means plan : tables_ok -> forall s rows, meaning plan = Ok (s, rows) -> built plan s rows.
Proof.
  intros T. induction plan; intros s rows M.
  all: first [by apply build_scan | by eapply build_index_join | by eapply build_unary; [|eassumption..] | by eapply build_join; [split; reflexivity|eassumption..]].
Qed.

Lemma volcano_ok plan s rows :
  tables_ok -> meaning plan = Ok (s, rows) -> volcano_execute storage get_table indexes_for_table subqueries correlated plan = Ok (s, rows).
Proof.
  intros T M. destruct (build_means plan T s rows M) as (ex & E1 & <- & Y). unfold volcano_execute. rewrite E1. cbn [mbind outcome_bind].
  by rewrite (drain_streams _ _ Y).
Qed.

(** ** Pushing *)

Abbreviation push := (build_push storage get_table indexes_for_table subqueries correlated).

Definition pushed (plan : PhysOp) (s : Schema) (rows : list Tuple) : Prop :=
  exists source, push plan = Ok (source, s) /\ feeds source rows.

Lemma bridge_ok plan s rows :
  tables_ok -> meaning plan = Ok (s, rows) ->
  exists source, bridge storage get_table indexes_for_table subqueries correlated plan = Ok (source, s) /\ feeds source rows.
Proof.
  intros T M. destruct (build_means plan T s rows M) as (ex & E1 & <- & Y). unfold bridge. rewrite E1. eexists. split; [done|]. by apply feeds_executor.
Qed.

Lemma push_scan table s rows : meaning (SeqScan table) = Ok (s, rows) -> pushed (SeqScan table) s rows.
Proof.
  unfold pushed. intros M. cbn [meaning build_push] in *. open M. unfold resolve_table in Eq. bind_ok Eq as s Es. bind_ok Eq as ixs Ei. injection Eq as <-.
  rewrite Es. eexists. split; [done|]. intros out. unfold scan_source. apply run_sink_same, push_items_rows. exact Eq0.
Qed.

Lemma push_unary plan input s rows :
  match plan with
  | Exec.Filter i _ | Projection i _ | Compute i _ | Limit i _ | HashAggregate i (_ :: _) _ => i = input
  | _ => False
  end ->
  (forall s rows, meaning input = Ok (s, rows) -> pushed input s rows) -> meaning plan = Ok (s, rows) -> pushed plan s rows.
Proof.
  unfold pushed. intros L IH M. destruct plan as [| | | | | | | | | | |input' group_by aggregates| |]; try done; try (destruct group_by; [done|]); subst; cbn [meaning build_push] in *; open M;
    destruct (IH _ _ ltac:(eassumption)) as (source & Ep & F).
  - rewrite Eq0. cbn [mbind outcome_bind]. rewrite Ep. eexists. split; [done|]. by apply (feeds_filter _ _ l).
  - rewrite Ep. cbn [mbind outcome_bind]. rewrite Eq0. cbn [mbind outcome_bind]. rewrite Eq1. eexists. split; [done|]. by apply (feeds_map _ _ l).
  - rewrite Eq1. cbn [mbind outcome_bind]. rewrite Ep. cbn [mbind outcome_bind]. rewrite Eq0. eexists. split; [done|]. by apply (feeds_map _ _ l).
  - rewrite Eq3. cbn [mbind outcome_bind]. rewrite Ep. cbn [mbind outcome_bind]. rewrite Eq2. eexists. split; [done|]. by apply (feeds_aggregate _ _ _ _ _ l).
  - rewrite Ep. eexists. split; [done|]. by apply feeds_limit.
Qed.

Lemma push_ok plan : tables_ok -> forall s rows, meaning plan = Ok (s, rows) -> pushed plan s rows.
Proof.
  intros T. induction plan as [| | | | | | | | | | |input IH group_by aggregates| |]; intros s rows M.
  all: try destruct group_by.
  all: first [by apply push_scan | by eapply push_unary; [|eassumption..] | by apply (bridge_ok _ _ _ T M)].
Qed.

(** ** Join strategies *)

(** The condition that a planner turns into any of the equi-joins. *)
Definition equal_columns (width lc rc : nat) : Predicate := Compare CmpEq (Column lc) (Column (width + rc)).

Lemma equal_columns_test width lc rc o i :
  length o = width -> key_wf lc o = true -> key_wf rc i = true ->
  exists test, join_predicate (Some (equal_columns width lc rc)) = Ok test /\ test o i = key_test lc rc None o i.
Proof.
  intros L Wo Wi. eexists. split; [reflexivity|]. unfold combined, key_test. rewrite (at_index_key _ _ Wo), (at_index_key _ _ Wi).
  destruct (key_at_wf _ _ Wo) as [Eo Vo], (key_at_wf _ _ Wi) as [Ei Vi].
  assert (E1 : (o ++ i) !! lc = Some (key_at lc o)) by (rewrite lookup_app_l; [done|by apply lookup_lt_Some in Eo]).
  assert (E2 : (o ++ i) !! (width + rc)%nat = Some (key_at rc i)) by (rewrite <- L, lookup_app_r, Nat.add_comm, Nat.add_sub by lia; done).
  cbn -[lookup]. unfold pure, mbind, M_bind. cbn -[lookup]. rewrite E1, E2. cbn. unfold equal_keys, eval_compare.
  rewrite compare_sql_denote by done. cbn. by destruct (key_cmp _ _) as [[]|].
Qed.

Lemma nlj_equal_columns width lc rc ra rb :
  Forall (fun o => length o = width) ra -> keys_wf lc ra = true -> keys_wf rc rb = true ->
  exists test, join_predicate (Some (equal_columns width lc rc)) = Ok test /\
    forall w, join_rows Inner w test ra rb = join_rows Inner w (key_test lc rc None) ra rb.
Proof.
  intros L Wa Wb. eexists. split; [reflexivity|]. intros w. rewrite List.Forall_forall in L.
  induction ra as [|o ra IH]; [done|]. cbn [join_rows]. apply keys_wf_cons in Wa as [Wo Wa]. rewrite IH by (done || (intros; apply L; by right)).
  assert (F : forall rows, keys_wf rc rows = true -> forall test, join_predicate (Some (equal_columns width lc rc)) = Ok test ->
    filterM (test o) rows = filterM (key_test lc rc None o) rows).
  { intros rows. induction rows as [|i rows IHr]; [done|]. intros [Wi Wr]%keys_wf_cons test Et. cbn [filterM].
    destruct (equal_columns_test width lc rc o i) as (test' & Et' & Ei); [apply L; by left|done..|]. rewrite Et in Et'. injection Et' as <-.
    by rewrite Ei, IHr. }
  by rewrite (F rb Wb _ eq_refl).
Qed.

(** C20. The join strategies are interchangeable: an equality of two columns
    whose values are in the range of their types gives the same rows in the
    same order by nested loops and by hashing, by merging when both inputs
    ascend, and by probing an index on the inner column when every outer value
    fits the type of that column ([probe_okb]; a longer text than an indexed
    CHAR(n) holds makes the probe fail, [index_join_refuses_text]). *)
Theorem join_strategies_agree a b sa ra sb rb lc rc :
  let width := length (columns sa) in
  let run := volcano_execute storage get_table indexes_for_table subqueries correlated in
  tables_ok -> meaning a = Ok (sa, ra) -> meaning b = Ok (sb, rb) ->
  (lc < width)%nat -> (rc < length (columns sb))%nat -> Forall (fun o => length o = width) ra ->
  keys_wf lc ra = true -> keys_wf rc rb = true ->
  exists rows, let out := Ok (concat_schemas sa sb false, rows) in
    run (NestedLoopJoin a b (Some (equal_columns width lc rc)) Inner) = out /\
    run (HashJoin a b lc rc Inner None) = out /\
    (sorted_on lc ra = true -> sorted_on rc rb = true -> run (MergeJoin a b lc rc) = out) /\
    (forall table index tbl ix, b = SeqScan table -> resolve table = Ok tbl -> find_index (indexes tbl) index = Ok ix ->
       index_columns (def ix) = [rc] -> forallb (probe_okb (schema tbl) [lc] [rc]) ra = true ->
       run (IndexNestedLoopJoin a table index [lc]) = out).
Proof.
  intros width run T Ma Mb Ll Lr Len Wa Wb. exists (joined lc rc rb ra). cbn zeta.
  destruct (nlj_equal_columns width lc rc ra rb Len Wa Wb) as (test & Et & Ej).
  split_and!; [| |intros Sa Sb|intros table index tbl ix -> Rt Fi Ic Po]; apply volcano_ok; try done; cbn [meaning]; rewrite Ma; cbn [mbind outcome_bind].
  - rewrite Mb. cbn [mbind outcome_bind]. rewrite Et. cbn [mbind outcome_bind]. rewrite Ej, join_rows_joined by done. done.
  - rewrite Mb. cbn [mbind outcome_bind]. rewrite Wa, Wb. cbn [andb require mbind outcome_bind]. by rewrite join_rows_joined.
  - rewrite Mb. cbn [mbind outcome_bind]. rewrite Wa, Wb, Sa, Sb. cbn [andb require mbind outcome_bind].
    destruct (Nat.ltb_spec lc (length (columns sa))); [|lia]. destruct (Nat.ltb_spec rc (length (columns sb))); [|lia].
    cbn [require mbind outcome_bind]. by rewrite join_rows_joined.
  - rewrite Rt. cbn [mbind outcome_bind]. rewrite Fi. cbn [mbind outcome_bind]. rewrite Ic. cbn [length Nat.eqb require mbind outcome_bind]. rewrite Po.
    cbn [require mbind outcome_bind]. cbn [meaning] in Mb. rewrite Rt in Mb. cbn [mbind outcome_bind] in Mb. bind_ok Mb as rows Es. injection Mb as <- <-.
    rewrite Es. cbn [mbind outcome_bind]. change (columns_test [lc] [rc]) with (key_test lc rc None). by rewrite join_rows_joined.
Qed.

(** C19. The pull model and the push model run the same queries: whenever a plan
    means a schema and a list of rows, draining the tree of executors and
    running the chain of sinks both return exactly these, in this order. *)
Theorem push_equals_volcano plan s rows :
  tables_ok -> meaning plan = Ok (s, rows) ->
  volcano_execute storage get_table indexes_for_table subqueries correlated plan = Ok (s, rows) /\
  push_execute storage get_table indexes_for_table subqueries correlated plan = Ok (s, rows).
Proof.
  intros T M. split; [by apply volcano_ok|]. destruct (push_ok plan T s rows M) as (source & E1 & F). unfold push_execute. rewrite E1.
  cbn [mbind outcome_bind]. by rewrite (feeds_collector _ _ F).
Qed.
End meaning.

(** ** On concrete tables *)

(** A catalog with the table [users] of TableSpec.v. *)
Definition users_get (name : string) : result Schema := if bool_decide (name = "users") then Ok users else Err (TableNotFound name).
Definition users_indexes (_ : Schema) : result (list (IndexHandle Reference)) := Ok (indexes users_filled).

Lemma users_tables_ok : tables_ok (engine users_filled) users_get users_indexes.
Proof.
  intros name tbl. unfold resolve_table, users_get. case_bool_decide; [|done]. intros E. exists users_rows.
  assert (S : schema users_filled = users) by (vm_compute; reflexivity).
  assert (Eq : mkTable (engine users_filled) (schema users_filled) (indexes users_filled) = users_filled) by by destruct users_filled.
  rewrite S in Eq. replace tbl with users_filled; [apply users_filled_ok|]. rewrite <- Eq. by injection E.
Qed.

(** Count the pairs of users with the same id, by name. *)
Definition pairs_by_name : PhysOp :=
  Limit (HashAggregate (HashJoin (SeqScan "users") (SeqScan "users") 0 0 Inner None) [1%nat] [SpecCountStar]) 5.

Lemma push_equals_volcano_witness :
  exists s, push_execute (engine users_filled) users_get users_indexes [] [] pairs_by_name
    = Ok (s, [[VVarchar (str [97]); VInt64 1]; [VVarchar (str [98]); VInt64 1]]).
Proof.
  eexists. apply (push_equals_volcano (engine users_filled) users_get users_indexes [] [] pairs_by_name); [apply users_tables_ok|].
  vm_compute. reflexivity.
Defined.

Lemma join_strategies_agree_witness :
  let run := volcano_execute (engine users_filled) users_get users_indexes [] [] in
  exists out, run (HashJoin (SeqScan "users") (SeqScan "users") 1 1 Inner None) = out /\
    run (MergeJoin (SeqScan "users") (SeqScan "users") 1 1) = out /\
    run (IndexNestedLoopJoin (SeqScan "users") "users" "by_name" [1%nat]) = out.
Proof.
  destruct (join_strategies_agree (engine users_filled) users_get users_indexes [] [] (SeqScan "users") (SeqScan "users")
    users [ann; bob] users [ann; bob] 1 1) as (rows & _ & Hash & Merge & Index);
    [apply users_tables_ok|vm_compute; reflexivity|vm_compute; reflexivity|cbn; lia|cbn; lia|repeat constructor|reflexivity|reflexivity|].
  eexists. split; [exact Hash|]. split; [apply Merge; reflexivity|].
  assert (S : schema users_filled = users) by (vm_compute; reflexivity).
  assert (Ic : match find_index (indexes users_filled) "by_name" with Ok ix => index_columns (def ix) = [1%nat] | _ => False end)
    by (vm_compute; reflexivity).
  destruct (find_index (indexes users_filled) "by_name") as [ix| |] eqn:Ei; [|done..].
  apply (Index "users" "by_name" (mkTable (engine users_filled) users (indexes users_filled)) ix); [done|reflexivity|exact Ei|exact Ic|reflexivity].
Defined.

(** A text that no CHAR(2) can equal: comparing says so, but the index join fails
    on it. *)
Lemma index_join_refuses_text :
  match indexes users_filled with
  | [_; ix] =>
      is_ok (refill_inner users_filled ix [0%nat] [VVarchar (str [120; 121; 122])]) = false /\
      filterM (columns_test [0%nat] (index_columns (def ix)) [VVarchar (str [120; 121; 122])]) [ann; bob] = Ok []
  | _ => False
  end.
Proof. vm_compute. repeat split; reflexivity. Qed.
