(* ===== verification/Dml.v ===== *)
(** The data changing statements (operators/insert.rs, update.rs, delete.rs): an
    UPDATE or a DELETE changes exactly the rows that its input selects, computed
    from the table as it was before the statement. *)

From Stdlib Require Import ZArith Lia List Bool.
From coqutil Require Import Byte.
From S2P Require Import Prelude Common Decimal Value KeyEnc Tuple Engine Table TableSpec Expr Aggregate Exec Build Streams.
From stdpp Require Import base list strings.
#[local] Open Scope Z_scope.

(** ** What a statement does to the rows *)

(** The calls one after the other, up to the first that fails. *)
Definition calls_fold (s : Schema) (defs : list IndexDef) (calls : list Call) (abs : rows) : result rows :=
  foldM (fun abs c => call_rows s defs c abs) abs calls.

Definition deleted (keep : Row -> bool) (abs : rows) : rows := List.filter (fun e => negb (keep e.2)) abs.

Definition updated (keep : Row -> bool) (change : Row -> list (nat * Value)) (abs : rows) : rows :=
  map (fun e => if keep e.2 then (e.1, changed (change e.2) e.2) else e) abs.

(** A change that an UPDATE can make to a row: columns of the right types, none
    of them in the primary key or in a unique index. *)
Definition set_ok (s : Schema) (defs : list IndexDef) (changes : list (nat * Value)) : Prop :=
  check_changes s changes = Ok tt /\
  Forall (fun c => (c.1 < length (columns s))%nat /\ c.1 ∉ primary_key s /\ storable c.2 = true /\
                   Forall (fun d => unique d = true -> c.1 ∉ index_columns d) defs) changes.

(** ** Facts *)

Section dml.
Context {E I : Type} `{StorageEngine E} `{StorageEngine I}.
Implicit Types (t : Table E I).

Lemma each_staged_ok {A} (f : A -> M (Table E I) unit) (call : A -> Call) (staged : list A) : forall t abs abs',
  (forall a, f a = run_call (call a)) -> represents t abs -> Forall (fun a => call_ok (schema t) (call a)) staged ->
  calls_fold (schema t) (map def (indexes t)) (map call staged) abs = Ok abs' ->
  exists t', each_staged f staged t = (Ok tt, t') /\ represents t' abs' /\ schema t' = schema t /\ map def (indexes t') = map def (indexes t).
Proof.
  induction staged as [|a staged IH]; intros t abs abs' Hf R F C; cbn [calls_fold foldM map] in C; [injection C as <-; by exists t|].
  bind_ok C as abs1 E1. apply Forall_cons in F as [Fa F]. pose proof (run_call_result t abs (call a) R Fa) as Res. rewrite E1 in Res.
  destruct Res as (t1 & E2 & R1 & S1 & D1). cbn [each_staged]. rewrite Hf, (M_Ok _ _ _ _ _ E2).
  destruct (IH t1 abs1 abs' Hf R1) as (t' & -> & R' & S' & D'); [by rewrite S1|by rewrite S1, D1|].
  exists t'. split_and!; [done|done|by rewrite S'|by rewrite D'].
Qed.

(** Reading everything first. *)
Lemma stage_ok {A} s (f : list Value -> Tuple -> result A) child rows (g : Row -> A) :
  yields child rows -> Forall (fun row => row_ok (column_types s) row /\ f (pick (primary_key s) row) row = Ok (g row)) rows ->
  in_columns s (primary_key s) -> stage s f child = Ok (map g rows).
Proof.
  intros Y F P. unfold stage. destruct (fold_now child rows (stage_row s f) [] (map g rows) Y) as (s' & E1); [|by rewrite E1].
  clear Y. change (map g rows) with ([] ++ map g rows). generalize (@nil A) as acc.
  induction F as [|row rows [R E1] F IH]; intros acc; cbn [foldM map]; [by rewrite app_nil_r|].
  assert (Es : stage_row s f acc row = Ok (acc ++ [g row])).
  { unfold stage_row. rewrite (row_length _ _ R), Nat.eqb_refl. cbn [negb].
    rewrite pick_columns_ok by (by apply (in_columns_row s)). cbn [mbind outcome_bind]. by rewrite E1. }
  rewrite Es. cbn [mbind outcome_bind]. rewrite IH. by rewrite <- app_assoc.
Qed.

Lemma rows_fit_all t abs : represents t abs -> Forall (fun e => row_ok (column_types (schema t)) e.2 /\ e.1 = pk_bytes (schema t) e.2) abs.
Proof.
  intros R. apply Forall_forall. intros [pk row] Hin. apply (rows_fit _ _ (rep_rows _ _ R)). apply kv_In_get; [apply R|done].
Qed.

Lemma selected_fit t abs keep : represents t abs -> Forall (row_ok (column_types (schema t))) (List.filter keep (map snd abs)).
Proof.
  intros R. apply Forall_forall. intros row [([pk r] & -> & Hin)%list_elem_of_fmap _]%elem_of_filter_bool.
  by apply (proj1 (Forall_forall _ _) (rows_fit_all t abs R) _ Hin).
Qed.

(** *** DELETE *)

Lemma deletes_fold s defs (pks : list (list Value)) abs :
  calls_fold s defs (map CDelete pks) abs = Ok (List.filter (fun e => negb (bool_decide (e.1 ∈ map (pk_key s) pks))) abs).
Proof.
  revert abs. induction pks as [|pk pks IH]; intros abs; cbn [map calls_fold foldM call_rows mbind outcome_bind].
  - f_equal. symmetry. induction abs as [|e abs IH]; [done|]. cbn [List.filter]. rewrite bool_decide_false by (apply not_elem_of_nil). cbn. by rewrite IH.
  - etransitivity; [apply IH|]. f_equal. unfold kv_delete. induction abs as [|e abs IHa]; [done|]. cbn [List.filter].
    destruct (decide (pk_key s pk = e.1)) as [Ek|Nk].
    + rewrite bool_decide_true by done. cbn [negb]. rewrite IHa. rewrite (bool_decide_true (e.1 ∈ _)) by (rewrite <- Ek; apply list_elem_of_here). done.
    + rewrite bool_decide_false by done. cbn [negb List.filter]. rewrite IHa. erewrite (bool_decide_ext (e.1 ∈ pk_key s pk :: map (pk_key s) pks)); [done|].
      rewrite elem_of_cons. naive_solver.
Qed.

Lemma deleted_by_key t abs keep :
  represents t abs ->
  List.filter (fun e => negb (bool_decide (e.1 ∈ map (pk_key (schema t)) (map (pick (primary_key (schema t))) (List.filter keep (map snd abs)))))) abs
  = deleted keep abs.
Proof.
  intros R. unfold deleted. apply List.filter_ext_in. intros [pk row] Hin%list_elem_of_In. f_equal. cbn [fst snd].
  pose proof (proj1 (Forall_forall _ _) (rows_fit_all t abs R) _ Hin) as [_ Epk]. cbn in Epk. rewrite map_map.
  destruct (keep row) eqn:K.
  - apply bool_decide_true. rewrite Epk. apply (list_elem_of_fmap_2 (fun r => pk_key (schema t) (pick (primary_key (schema t)) r))).
    apply elem_of_filter_bool. split; [|done]. by apply (list_elem_of_fmap_2 snd) in Hin.
  - apply bool_decide_false. intros (r & Er & [Hr Kr]%elem_of_filter_bool)%list_elem_of_fmap.
    apply list_elem_of_fmap in Hr as ([pk' r'] & -> & Hin'). cbn in *. change (pk_key _ (pick _ r')) with (pk_bytes (schema t) r') in Er.
    pose proof (proj1 (Forall_forall _ _) (rows_fit_all t abs R) _ Hin') as [_ Epk']. cbn in Epk'.
    pose proof (kv_In_get _ _ _ (rows_sorted _ _ (rep_rows _ _ R)) Hin) as G. pose proof (kv_In_get _ _ _ (rows_sorted _ _ (rep_rows _ _ R)) Hin') as G'.
    congruence.
Qed.

(** *** UPDATE *)

Lemma pick_changed cols changes row : Forall (fun c : nat * Value => c.1 ∉ cols) changes -> pick cols (changed changes row) = pick cols row.
Proof.
  intros F. revert row. induction F as [|[c v] changes Hc F IH]; intros row; [done|].
  change (changed ((c, v) :: changes) row) with (changed changes (<[c := v]> row)). rewrite IH. unfold pick.
  apply list_fmap_ext. intros i x Hx. rewrite list_lookup_insert_ne; [done|]. intros ->. by apply list_elem_of_lookup_2 in Hx.
Qed.

Lemma set_ok_pick s defs changes row :
  set_ok s defs changes ->
  pick (primary_key s) (changed changes row) = pick (primary_key s) row /\
  Forall (fun d => unique d = true -> pick (index_columns d) (changed changes row) = pick (index_columns d) row) defs.
Proof.
  intros [_ F]. split.
  - apply pick_changed. eapply Forall_impl; [exact F|]. intros c (_ & Hp & _). exact Hp.
  - apply Forall_forall. intros d Hd U. apply pick_changed. eapply Forall_impl; [exact F|]. intros c (_ & _ & _ & Fd).
    by apply (proj1 (Forall_forall _ _) Fd).
Qed.

Lemma kv_get_map {V} (f : bytes * V -> V) k (l : list (bytes * V)) :
  kv_get k (map (fun e => (e.1, f e)) l) = option_map (fun v => f (k, v)) (kv_get k l).
Proof. induction l as [|[k0 v0] l IH]; [done|]. cbn. case_bool_decide; [by subst|done]. Qed.

Lemma keys_sorted_map {V} (f : bytes * V -> V) (l : list (bytes * V)) : keys_sorted l -> keys_sorted (map (fun e => (e.1, f e)) l).
Proof.
  intros S. induction S as [|e l S IH F]; [constructor|]. cbn. constructor; [done|]. apply Forall_forall.
  intros x (e' & -> & Hin)%list_elem_of_fmap. exact (proj1 (Forall_forall _ _) F _ Hin).
Qed.

(** The rows once the statement has come to the keys [fin]. *)
Definition partly (change : Row -> list (nat * Value)) (fin : list bytes) (abs : rows) : rows :=
  map (fun e => (e.1, if bool_decide (e.1 ∈ fin) then changed (change e.2) e.2 else e.2)) abs.

Lemma partly_put change fin abs pk row :
  keys_sorted abs -> kv_get pk abs = Some row ->
  kv_put pk (changed (change row) row) (partly change fin abs) = partly change (pk :: fin) abs.
Proof.
  intros S G. apply kv_ext; [apply keys_sorted_put|..]; try by apply (keys_sorted_map (fun e => if bool_decide (e.1 ∈ _) then changed (change e.2) e.2 else e.2)).
  intros k. rewrite kv_get_put. unfold partly. rewrite !(kv_get_map (fun e => if bool_decide (e.1 ∈ _) then changed (change e.2) e.2 else e.2)). cbn [fst snd].
  destruct (decide (k = pk)) as [->|N].
  - rewrite bool_decide_true, G by done. cbn. rewrite bool_decide_true by (apply list_elem_of_here). done.
  - rewrite bool_decide_false by done. destruct (kv_get k abs) as [v|]; [|done]. cbn. erewrite (bool_decide_ext (k ∈ pk :: fin)); [done|].
    rewrite elem_of_cons. naive_solver.
Qed.

Lemma partly_no_clash s defs change fin abs pk row :
  rows_ok s abs -> Forall (unique_ok s abs) defs -> kv_get pk abs = Some row ->
  (forall k r, kv_get k abs = Some r -> k = pk \/ k ∈ fin -> set_ok s defs (change r)) ->
  no_clash s defs (partly change fin abs) (changed (change row) row) = Ok tt.
Proof.
  intros Ra U G Ok'. apply no_clash_all. apply Forall_forall. intros d Hd. destruct (unique d) eqn:Ud; [|unfold clashes; by rewrite Ud].
  destruct (set_ok_pick s defs (change row) row (Ok' _ _ G ltac:(by left))) as [Pp Pd].
  pose proof (proj1 (Forall_forall _ _) Pd _ Hd Ud) as Pi.
  destruct (existsb is_null (pick (index_columns d) row)) eqn:N; [unfold clashes; by rewrite Pi, N, andb_false_r|].
  destruct (rows_fit _ _ Ra _ _ G) as [Ro Epk].
  assert (Eb : pk_bytes s (changed (change row) row) = pk) by (unfold pk_bytes; rewrite Pp; done).
  apply clashes_false; [apply (keys_sorted_map (fun e => if bool_decide (e.1 ∈ fin) then changed (change e.2) e.2 else e.2)), Ra|done|by rewrite Pi|].
  intros k r. rewrite Eb, Pi. unfold partly. rewrite (kv_get_map (fun e => if bool_decide (e.1 ∈ fin) then changed (change e.2) e.2 else e.2)).
  destruct (kv_get k abs) as [r0|] eqn:Gk; [|done]. cbn. intros [= <-]. intros T.
  assert (Pr : pick (index_columns d) (if bool_decide (k ∈ fin) then changed (change r0) r0 else r0) = pick (index_columns d) r0).
  { case_bool_decide as Hk; [|done]. destruct (set_ok_pick s defs (change r0) r0 (Ok' _ _ Gk ltac:(by right))) as [_ Pd0].
    by apply (proj1 (Forall_forall _ _) Pd0 _ Hd). }
  rewrite Pr in T. symmetry. by apply (proj1 (Forall_forall _ _) U _ Hd Ud pk row k r0).
Qed.

Lemma updates_fold t abs change (todo : rows) : forall fin,
  represents t abs -> Forall (fun e => kv_get e.1 abs = Some e.2) todo -> NoDup (map fst todo) -> Forall (fun e => e.1 ∉ fin) todo ->
  (forall k r, kv_get k abs = Some r -> k ∈ map fst todo \/ k ∈ fin -> set_ok (schema t) (map def (indexes t)) (change r)) ->
  exists fin', calls_fold (schema t) (map def (indexes t)) (map (fun e => CUpdateColumns (pick (primary_key (schema t)) e.2) (change e.2)) todo) (partly change fin abs)
    = Ok (partly change fin' abs) /\ forall k, k ∈ fin' <-> k ∈ map fst todo \/ k ∈ fin.
Proof.
  induction todo as [|[pk row] todo IH]; intros fin R G ND Dis Ok'; [exists fin; split; [done|]; intros k; rewrite elem_of_nil; naive_solver|].
  apply Forall_cons in G as [G1 G], Dis as [D1 Dis]. cbn in ND, G1, D1. apply NoDup_cons in ND as [N1 ND].
  destruct (rows_fit _ _ (rep_rows _ _ R) _ _ G1) as [Ro Epk]. cbn [map calls_fold foldM call_rows fst snd].
  change (pk_key (schema t) (pick (primary_key (schema t)) row)) with (pk_bytes (schema t) row). rewrite <- Epk.
  pose proof (Ok' pk row G1 ltac:(left; apply list_elem_of_here)) as So. rewrite (proj1 So). cbn [mbind outcome_bind].
  unfold partly at 1. rewrite (kv_get_map (fun e => if bool_decide (e.1 ∈ fin) then changed (change e.2) e.2 else e.2)), G1. cbn [option_map fst snd].
  rewrite bool_decide_false by done. rewrite (partly_no_clash _ _ _ _ _ pk).
  - cbn [mbind outcome_bind]. rewrite partly_put by (done || apply R). destruct (IH (pk :: fin) R G ND) as (fin' & E1 & Hd).
    + apply Forall_forall. intros e He. rewrite not_elem_of_cons. split; [|by apply (proj1 (Forall_forall _ _) Dis)]. intros Ee. apply N1.
      rewrite <- Ee. by apply (list_elem_of_fmap_2 fst).
    + intros k r Gk Hk. apply (Ok' k r Gk). rewrite elem_of_cons in Hk. cbn. rewrite elem_of_cons. naive_solver.
    + exists fin'. split; [exact E1|]. intros k. rewrite Hd. cbn. rewrite !elem_of_cons. naive_solver.
  - apply R.
  - pose proof (rep_unique _ _ R) as U. apply Forall_fmap. exact U.
  - done.
  - intros k r Gk Hk. apply (Ok' k r Gk). cbn. rewrite elem_of_cons. naive_solver.
Qed.

Lemma updated_partly keep change fin abs :
  keys_sorted abs -> (forall k, k ∈ fin <-> k ∈ map fst (List.filter (fun e => keep e.2) abs)) -> partly change fin abs = updated keep change abs.
Proof.
  intros S Hf. unfold partly, updated. apply map_ext_in. intros [pk row] Hin%list_elem_of_In. cbn [fst snd].
  assert (Hk : pk ∈ fin <-> keep row = true).
  { rewrite Hf. split.
    - intros ([pk' row'] & -> & [Hin' K]%elem_of_filter_bool)%list_elem_of_fmap. cbn in *.
      pose proof (kv_In_get _ _ _ S Hin). pose proof (kv_In_get _ _ _ S Hin'). congruence.
    - intros K. apply (list_elem_of_fmap_2 fst _ (pk, row)). by apply elem_of_filter_bool. }
  destruct (keep row); [by rewrite bool_decide_true by by apply Hk|]. rewrite bool_decide_false; [done|]. intros X. by apply Hk in X.
Qed.

Lemma sorted_keys_nodup {V} (l : list (bytes * V)) : keys_sorted l -> NoDup (map fst l).
Proof.
  intros S. induction S as [|e l S IH F]; [constructor|]. cbn. constructor; [|done]. intros (e' & Ee & Hin)%list_elem_of_fmap.
  pose proof (proj1 (Forall_forall _ _) F _ Hin) as B. rewrite Ee in B. by apply blt_irrefl in B.
Qed.

Lemma filter_map_snd keep (abs : rows) : List.filter keep (map snd abs) = map snd (List.filter (fun e => keep e.2) abs).
Proof. induction abs as [|e abs IH]; [done|]. cbn. destruct (keep e.2); cbn; by rewrite IH. Qed.

Lemma count_fits {A} (l : list A) (abs : rows) : (length l <= length abs)%nat -> len abs < 2 ^ 63 -> as_signed 64 (len l) = len l.
Proof. intros L B. apply as_signed_small; [lia|]. pose proof (len_nonneg l). unfold len in *. lia. Qed.

(** ** Theorems *)

(** C23. DELETE removes exactly the rows that its input selects from the table as
    it was, from the heap and from every index, and reports how many. *)
Theorem delete_where_exact t abs child keep :
  represents t abs -> yields child (List.filter keep (map snd abs)) -> len abs < 2 ^ 63 ->
  exists t', delete_next child t = (Ok (count_row (len (List.filter keep (map snd abs)))), t') /\ represents t' (deleted keep abs) /\
    schema t' = schema t.
Proof.
  intros R Y B. set (rows := List.filter keep (map snd abs)) in *. set (s := schema t).
  assert (F : Forall (row_ok (column_types s)) rows) by by apply selected_fit.
  assert (P : in_columns s (primary_key s)) by apply (rep_schema _ _ R).
  assert (St : stage s (fun pk _ => Ok pk) child = Ok (map (pick (primary_key s)) rows)).
  { apply (stage_ok s _ child rows (pick (primary_key s))); [done| |done]. eapply Forall_impl; [exact F|]. by intros row Ro. }
  unfold delete_next. mrun. cbn [id]. fold s. rewrite St. mrun.
  pose proof (deletes_fold s (map def (indexes t)) (map (pick (primary_key s)) rows) abs) as C.
  pose proof (deleted_by_key t abs keep R) as Dk. fold s rows in Dk. rewrite Dk in C.
  destruct (each_staged_ok delete_by_pk CDelete (map (pick (primary_key s)) rows) t abs (deleted keep abs)) as (t' & E1 & R' & S' & _);
    [done|done| |done|].
  - apply Forall_fmap. eapply Forall_impl; [exact F|]. intros row Ro. by apply pick_key_ok.
  - rewrite (M_Ok _ _ _ _ _ E1). exists t'. split_and!; [|done|done]. unfold len at 1. rewrite length_map. fold (len rows).
    rewrite (count_fits rows abs); [done| |done]. unfold rows. rewrite <- (length_map snd abs). apply List.filter_length_le.
Qed.

(** C22. UPDATE with SET columns that are in no primary key and in no unique
    index ([set_ok]) changes exactly the rows that its input selects, each to
    the values that the SET expressions have on the row as it was before the
    statement, and leaves every other row and every index entry of it alone. *)
Theorem update_where_exact t abs child set_exprs keep change :
  represents t abs -> yields child (List.filter keep (map snd abs)) -> len abs < 2 ^ 63 ->
  Forall (fun row => changes_of set_exprs row = Ok (change row) /\ set_ok (schema t) (map def (indexes t)) (change row))
    (List.filter keep (map snd abs)) ->
  exists t', update_next child set_exprs t = (Ok (count_row (len (List.filter keep (map snd abs)))), t') /\
    represents t' (updated keep change abs) /\ schema t' = schema t.
Proof.
  intros R Y B Ch. set (rows := List.filter keep (map snd abs)) in *. set (s := schema t) in *.
  assert (F : Forall (row_ok (column_types s)) rows) by by apply selected_fit.
  assert (P : in_columns s (primary_key s)) by apply (rep_schema _ _ R).
  pose proof (rows_sorted _ _ (rep_rows _ _ R)) as So.
  set (g := fun row => (pick (primary_key s) row, change row)).
  assert (St : stage s (fun pk row => changes ← changes_of set_exprs row; Ok (pk, changes)) child = Ok (map g rows)).
  { apply (stage_ok s _ child rows g); [done| |done]. apply Forall_forall. intros row Hr. split; [by apply (proj1 (Forall_forall _ _) F)|].
    by rewrite (proj1 (proj1 (Forall_forall _ _) Ch _ Hr)). }
  unfold update_next. mrun. cbn [id]. fold s. rewrite St. mrun.
  set (todo := List.filter (fun e => keep e.2) abs).
  destruct (updates_fold t abs change todo []) as (fin & C & Hf); try done.
  { apply Forall_forall. intros [pk row] [Hin _]%elem_of_filter_bool. by apply kv_In_get. }
  { by apply sorted_keys_nodup, keys_sorted_filter. }
  { apply Forall_true. intros e. apply not_elem_of_nil. }
  { intros k r G [([k' r'] & -> & [Hin K]%elem_of_filter_bool)%list_elem_of_fmap|Hk%not_elem_of_nil]; [|done]. cbn in *.
    pose proof (kv_In_get _ _ _ So Hin) as G'. rewrite G in G'. injection G' as <-. apply (proj1 (Forall_forall _ _) Ch r), elem_of_filter_bool.
    split; [|done]. by apply (list_elem_of_fmap_2 snd) in Hin. }
  assert (Er : rows = map snd todo) by apply filter_map_snd.
  rewrite (updated_partly keep change fin abs) in C by (done || (intros k; rewrite Hf, elem_of_nil; naive_solver)).
  destruct (each_staged_ok (fun '(pk, changes) => update_columns pk changes) (fun '(pk, changes) => CUpdateColumns pk changes) (map g rows) t abs
    (updated keep change abs)) as (t' & E1 & R' & S' & _); [by intros []|done| | |].
  - apply Forall_fmap, Forall_forall. intros row Hr. cbn. split; [apply pick_key_ok; [by apply (proj1 (Forall_forall _ _) F)|done]|].
    pose proof (proj2 (proj1 (Forall_forall _ _) Ch _ Hr)) as [_ So']. eapply Forall_impl; [exact So'|]. naive_solver.
  - rewrite Er, !map_map. unfold partly in C. etransitivity; [|exact C]. f_equal.
    symmetry. etransitivity; [|apply map_id]. apply map_ext. by intros [pk row].
  - rewrite (M_Ok _ _ _ _ _ E1). exists t'. split_and!; [|done|done]. unfold len at 1. rewrite length_map. fold (len rows).
    rewrite (count_fits rows abs); [done| |done]. unfold rows. rewrite <- (length_map snd abs). apply List.filter_length_le.
Qed.
End dml.

(** ** On concrete tables *)

(** Users of a table by whether their id is above one. *)
Definition above_one (row : Row) : bool := match row with VInt32 n :: _ => 1 <? n | _ => false end.

Lemma delete_where_exact_witness :
  exists t', delete_next (rows_executor users [bob]) users_filled = (Ok (count_row 1), t') /\
    represents t' [(pk_bytes users ann, ann)].
Proof.
  destruct (delete_where_exact users_filled users_rows (rows_executor users [bob]) above_one) as (t' & E1 & R & _);
    [apply users_filled_ok|apply rows_executor_yields|reflexivity|].
  exists t'. split; [exact E1|exact R].
Defined.

(** Move everyone selected to the town [y]. *)
Definition to_y : list (nat * ExpressionFn) := [(2%nat, fun _ => Ok (VChar (str [121])))].

Lemma update_where_exact_witness :
  exists t', update_next (rows_executor users [bob]) to_y users_filled = (Ok (count_row 1), t') /\
    represents t' [(pk_bytes users ann, ann); (pk_bytes users bob, [VInt32 2; VVarchar (str [98]); VChar (str [121])])].
Proof.
  destruct (update_where_exact users_filled users_rows (rows_executor users [bob]) to_y above_one (fun _ => [(2%nat, VChar (str [121]))]))
    as (t' & E1 & R & _); [apply users_filled_ok|apply rows_executor_yields|reflexivity| |].
  - assert (S : schema users_filled = users) by (vm_compute; reflexivity).
    assert (D : map def (indexes users_filled) = [by_name; by_town]) by (vm_compute; reflexivity).
    rewrite S, D. apply Forall_singleton. split; [reflexivity|]. split; [reflexivity|]. apply Forall_singleton. cbn.
    assert (U : 2%nat ∉ [0%nat] /\ 2%nat ∉ [1%nat]) by (split; by intros ?%list_elem_of_singleton).
    split_and!; [lia|apply U|done|]. apply Forall_cons. split; [intros _; apply U|]. by apply Forall_singleton.
  - exists t'. split; [exact E1|exact R].
Defined.
