(* ===== verification/Page.v ===== *)
(** Pages: identifiers, the header every page starts with and its checksum
    (crates/idb-core/src/common/{config,page_id}.rs,
    crates/idb-storage/src/storage/page/{page_header,page}.rs).

    A page is its bytes.  crc32fast is a parameter; its streaming hasher is the
    hash of the concatenation of what it is fed. *)

From Stdlib Require Import ZArith Lia List Bool.
From S2P Require Import Prelude Common.
From coqutil Require Import Byte Word.LittleEndianList.
From stdpp Require Import base list strings.
#[local] Open Scope Z_scope.

Definition PAGE_SIZE : Z := 4096.
Definition MAX_PAGES : Z := 2 ^ 32 - 1 + 1.

(** [PageId] is a [u32]. *)
Abbreviation PageId := Z.
Definition INVALID_PAGE : PageId := 2 ^ 32 - 1.
Definition is_valid (p : PageId) : bool := negb (p =? INVALID_PAGE).

Inductive PageType := PInvalid | PData | PBTreeInternal | PBTreeLeaf | PFree.

Definition page_type_byte (t : PageType) : byte :=
  byte.of_Z (match t with PInvalid => 0 | PData => 1 | PBTreeInternal => 2 | PBTreeLeaf => 3 | PFree => 4 end).

Definition page_type_from_u8 (b : byte) : PageType :=
  if u8 b =? 1 then PData else if u8 b =? 2 then PBTreeInternal else if u8 b =? 3 then PBTreeLeaf
  else if u8 b =? 4 then PFree else PInvalid.

Record PageHeader := mkPageHeader { page_type : PageType; checksum : Z; lsn : Z }.

Definition HEADER_SIZE : Z := 13.
Definition OFFSET_CHECKSUM : Z := 1.
Definition OFFSET_LSN : Z := 5.

Definition page_header_new (t : PageType) : PageHeader := mkPageHeader t 0 0.

(** [buf[lo..lo + data.len()].copy_from_slice(data)] *)
Definition put_at (lo : Z) (data buf : bytes) : result bytes :=
  if (0 <=? lo) && (lo + len data <=? len buf)
  then Ok (take (Z.to_nat lo) buf ++ data ++ drop (Z.to_nat (lo + len data)) buf) else Panic.

(** The little-endian number of [n] bytes at a place. *)
Definition read_le (n : nat) (lo : Z) (buf : bytes) : result Z :=
  raw ← slice lo (lo + Z.of_nat n) buf; Ok (from_le_bytes raw).

Definition from_bytes (data : bytes) : result PageHeader :=
  if len data <? HEADER_SIZE then Panic else
  ty ← index 0 data;
  checksum ← read_le 4 OFFSET_CHECKSUM data;
  lsn ← read_le 8 OFFSET_LSN data;
  Ok (mkPageHeader (page_type_from_u8 ty) checksum lsn).

Definition write_to (h : PageHeader) (data : bytes) : result bytes :=
  if len data <? HEADER_SIZE then Panic else
  data ← put_at 0 [page_type_byte (page_type h)] data;
  data ← put_at OFFSET_CHECKSUM (to_le_bytes 4 (checksum h)) data;
  put_at OFFSET_LSN (to_le_bytes 8 (lsn h)) data.

(** A page as it is made. *)
Definition page_new : bytes := replicate (Z.to_nat PAGE_SIZE) (byte.of_Z 0).

Section checksum.
Context (crc32 : bytes -> Z).

(** The hash of the page with its checksum field as zeros. *)
Definition compute_checksum (page : bytes) : result Z :=
  before ← slice 0 OFFSET_CHECKSUM page;
  after ← slice_from (OFFSET_CHECKSUM + 4) page;
  Ok (crc32 (before ++ replicate 4 (byte.of_Z 0) ++ after)).

Definition verify_checksum (h : PageHeader) (page : bytes) : result bool :=
  c ← compute_checksum page; Ok (checksum h =? c).

(** [Page::update_checksum], which leaves pages without a header alone. *)
Definition update_checksum (page : bytes) : result bytes :=
  ty ← index 0 page;
  match page_type_from_u8 ty with
  | PInvalid => Ok page
  | _ => c ← compute_checksum page; put_at OFFSET_CHECKSUM (to_le_bytes 4 c) page
  end.

Definition page_verify_checksum (page : bytes) : result bool :=
  h ← from_bytes page; verify_checksum h page.

(** The check every node decoder makes: a stored checksum that is not zero must
    match, or the reader panics. *)
Definition check_stored (buf : bytes) : result unit :=
  stored ← read_le 4 OFFSET_CHECKSUM buf;
  if stored =? 0 then Ok tt else
  c ← compute_checksum buf;
  if stored =? c then Ok tt else Panic.

(** What every node encoder ends with. *)
Definition store_checksum (buf : bytes) : result bytes :=
  c ← compute_checksum buf;
  put_at OFFSET_CHECKSUM (to_le_bytes 4 c) buf.
End checksum.
