(* ===== verification/BNode.v ===== *)
(** B+tree nodes in memory (crates/idb-storage/src/engines/btree/node.rs).

    Positions are [nat], the counters and tombstones kept as [u16] are [Z].
    Vectors are lists; inserting past the end and removing or indexing out of
    range panic. *)

From Stdlib Require Import ZArith Lia List Bool.
From S2P Require Import Prelude Common Engine Page.
From coqutil Require Import Byte.
From stdpp Require Import base list strings sorting.
#[local] Open Scope Z_scope.

Definition MAX_TOMBSTONES : Z := 8.
Definition INTERNAL_HEADER_SIZE : Z := 25.
Definition LEAF_HEADER_SIZE : Z := 33.

(** ** Vectors *)

Definition vec_at {A} (i : nat) (l : list A) : result A := unwrap (l !! i).

Definition vec_insert {A} (i : nat) (x : A) (l : list A) : result (list A) :=
  if (i <=? length l)%nat then Ok (take i l ++ x :: drop i l) else Panic.

Definition vec_remove {A} (i : nat) (l : list A) : result (A * list A) :=
  match l !! i with Some x => Ok (x, take i l ++ drop (S i) l) | None => Panic end.

Definition vec_set {A} (i : nat) (x : A) (l : list A) : result (list A) :=
  if (i <? length l)%nat then Ok (<[i := x]> l) else Panic.

(** [slice::binary_search_by]: the size halves until one candidate is left. *)
Fixpoint search_halves (fuel : nat) (key : bytes) (l : list bytes) (base size : nat) : option (result nat) :=
  if (1 <? size)%nat then
    match fuel with
    | O => None
    | S fuel =>
        let half := (size / 2)%nat in
        let mid := (base + half)%nat in
        match l !! mid with
        | None => Some Panic
        | Some k => search_halves fuel key l (match bcmp k key with Gt => base | _ => mid end) (size - half)
        end
    end
  else Some (Ok base).

(** [inl] is the place of the key, [inr] the place where it would go.  The size
    shrinks, so the length of the list is fuel enough. *)
Definition binary_search (key : bytes) (l : list bytes) : result (nat + nat) :=
  match l with
  | [] => Ok (inr 0%nat)
  | _ =>
      match search_halves (length l) key l 0 (length l) with
      | None => Panic
      | Some r =>
          base ← r;
          k ← vec_at base l;
          match bcmp k key with
          | Eq => Ok (inl base)
          | Lt => Ok (inr (base + 1)%nat)
          | Gt => Ok (inr base)
          end
      end
  end.

(** ** Headers *)

Inductive NodeType := Internal | Leaf.

#[global] Instance NodeType_eq_dec : EqDecision NodeType.
Proof. solve_decision. Defined.

Definition node_type_byte (t : NodeType) : byte := byte.of_Z (match t with Internal => 0 | Leaf => 1 end).

Definition node_type_from_u8 (b : byte) : option NodeType :=
  if u8 b =? 0 then Some Internal else if u8 b =? 1 then Some Leaf else None.

Record NodeHeader := mkNodeHeader { node_type : NodeType; h_size : Z; h_max_size : Z }.

Definition node_header_new (t : NodeType) (max_size : Z) : NodeHeader := mkNodeHeader t 0 max_size.
Definition set_size (n : Z) (h : NodeHeader) : NodeHeader := mkNodeHeader (node_type h) n (h_max_size h).

Definition is_leaf (h : NodeHeader) : bool := bool_decide (node_type h = Leaf).
Definition h_min_size (h : NodeHeader) : Z := h_max_size h / 2.
Definition at_min_size (h : NodeHeader) : bool := h_size h <=? h_min_size h.
Definition would_overflow (h : NodeHeader) : bool := h_max_size h <=? h_size h.
Definition h_safe_for_insert (h : NodeHeader) : result bool := m ← @arith Error in_u16 (h_max_size h - 1); Ok (h_size h <? m).
Definition h_safe_for_delete (h : NodeHeader) : bool := h_min_size h <? h_size h.

(** ** Internal nodes *)

(** The key at place 0 is not used: [children[i]] holds the keys from [keys[i]]
    on and below [keys[i + 1]]. *)
Record InternalNode := mkInternal { i_header : NodeHeader; i_keys : list bytes; children : list PageId }.

Definition internal_new (max_size : Z) : InternalNode := mkInternal (node_header_new Internal max_size) [] [].

Definition init_with_child (child : PageId) (n : InternalNode) : InternalNode :=
  mkInternal (set_size 1 (i_header n)) (i_keys n ++ [[]]) (children n ++ [child]).

Definition i_key_at (i : nat) (n : InternalNode) : result bytes := vec_at i (i_keys n).
Definition child_at (i : nat) (n : InternalNode) : result PageId := vec_at i (children n).

(** The loop of [find_child_index]. *)
Fixpoint search_children (fuel : nat) (key : bytes) (keys : list bytes) (lo hi : nat) : option (result nat) :=
  if (lo <? hi)%nat then
    match fuel with
    | O => None
    | S fuel =>
        let mid := (lo + (hi - lo) / 2)%nat in
        match keys !! mid with
        | None => Some Panic
        | Some k => if bleb k key then search_children fuel key keys (mid + 1) hi
                    else search_children fuel key keys lo mid
        end
    end
  else Some (Ok (lo - 1)%nat).

(** The interval shrinks, so the number of keys is fuel enough. *)
Definition find_child_index (key : bytes) (n : InternalNode) : result nat :=
  match children n with
  | [] => Ok 0%nat
  | _ => match search_children (length (i_keys n)) key (i_keys n) 1 (length (i_keys n)) with
         | Some r => r | None => Panic end
  end.

(** The number of leading keys below a key. *)
Fixpoint count_below (key : bytes) (keys : list bytes) : nat :=
  match keys with
  | [] => 0
  | k :: rest => if bltb k key then S (count_below key rest) else 0
  end.

Definition i_find_insert_index (key : bytes) (n : InternalNode) : nat := (1 + count_below key (drop 1 (i_keys n)))%nat.

Definition insert_separator (key : bytes) (new_child : PageId) (n : InternalNode) : result InternalNode :=
  let index := i_find_insert_index key n in
  keys ← vec_insert index key (i_keys n);
  cs ← vec_insert index new_child (children n);
  size ← arith in_u16 (h_size (i_header n) + 1);
  Ok (mkInternal (set_size size (i_header n)) keys cs).

Definition drop_at {A} (i : nat) (l : list A) : list A := if (i <? length l)%nat then take i l ++ drop (S i) l else l.

Definition remove_at (index : nat) (n : InternalNode) : InternalNode :=
  mkInternal (set_size (Z.max 0 (h_size (i_header n) - 1)) (i_header n)) (drop_at index (i_keys n)) (drop_at index (children n)).

Definition set_key_at (index : nat) (key : bytes) (n : InternalNode) : result InternalNode :=
  keys ← vec_set index key (i_keys n); Ok (mkInternal (i_header n) keys (children n)).

Fixpoint position (child : PageId) (cs : list PageId) : option nat :=
  match cs with
  | [] => None
  | c :: rest => if c =? child then Some 0%nat else match position child rest with Some i => Some (S i) | None => None end
  end.

Definition find_child_position (child : PageId) (n : InternalNode) : option nat := position child (children n).

Definition i_safe_for_insert (n : InternalNode) : result bool := h_safe_for_insert (i_header n).
Definition i_safe_for_delete (n : InternalNode) : bool := h_safe_for_delete (i_header n).
Definition i_size (n : InternalNode) : Z := h_size (i_header n).
Definition i_min_size (n : InternalNode) : Z := h_min_size (i_header n).

(** ** Leaves *)

Record LeafNode := mkLeaf {
  l_header : NodeHeader;
  next_page_id : PageId;
  prev_page_id : PageId;
  l_keys : list bytes;
  l_values : list bytes;
  tombstones : list Z
}.

Definition leaf_new (max_size : Z) : LeafNode := mkLeaf (node_header_new Leaf max_size) INVALID_PAGE INVALID_PAGE [] [] [].

Definition physical_size (n : LeafNode) : nat := length (l_keys n).
(** A [usize] difference. *)
Definition logical_size (n : LeafNode) : result nat :=
  if (length (tombstones n) <=? length (l_keys n))%nat then Ok (length (l_keys n) - length (tombstones n))%nat else Panic.

Definition u16_of (n : nat) : Z := as_unsigned 16 (Z.of_nat n).

Definition is_tombstone (i : nat) (n : LeafNode) : bool := bool_decide (u16_of i ∈ tombstones n).

Definition lookup_physical (key : bytes) (n : LeafNode) : result (option nat) :=
  r ← binary_search key (l_keys n); Ok (match r with inl i => Some i | inr _ => None end).

Definition leaf_lookup (key : bytes) (n : LeafNode) : result (option nat) :=
  r ← lookup_physical key n;
  Ok (match r with Some i => if is_tombstone i n then None else Some i | None => None end).

Definition l_find_insert_index (key : bytes) (n : LeafNode) : result nat :=
  r ← binary_search key (l_keys n); Ok (match r with inl i => i | inr i => i end).

Definition remove_tombstone_at_index (i : nat) (n : LeafNode) : LeafNode :=
  mkLeaf (l_header n) (next_page_id n) (prev_page_id n) (l_keys n) (l_values n)
    (List.filter (fun t => negb (t =? Z.of_nat i)) (tombstones n)).

(** Tombstones at or above a place move up by one. *)
Fixpoint shift_up (index : nat) (ts : list Z) : result (list Z) :=
  match ts with
  | [] => Ok []
  | t :: rest =>
      t' ← (if Z.of_nat index <=? t then arith in_u16 (t + 1) else Ok t);
      rest' ← shift_up index rest; Ok (t' :: rest')
  end.

(** Tombstones above a place move down by one. *)
Definition shift_down (index : nat) (ts : list Z) : list Z :=
  map (fun t => if Z.of_nat index <? t then t - 1 else t) ts.

Definition leaf_insert (key value : bytes) (n : LeafNode) : result (bool * LeafNode) :=
  found ← lookup_physical key n;
  match found with
  | Some index =>
      if is_tombstone index n then
        values ← vec_set index value (l_values n);
        Ok (true, remove_tombstone_at_index index
                    (mkLeaf (l_header n) (next_page_id n) (prev_page_id n) (l_keys n) values (tombstones n)))
      else Ok (false, n)
  | None =>
      index ← l_find_insert_index key n;
      ts ← shift_up index (tombstones n);
      keys ← vec_insert index key (l_keys n);
      values ← vec_insert index value (l_values n);
      size ← arith in_u16 (h_size (l_header n) + 1);
      Ok (true, mkLeaf (set_size size (l_header n)) (next_page_id n) (prev_page_id n) keys values ts)
  end.

Definition add_tombstone (i : nat) (n : LeafNode) : LeafNode :=
  if is_tombstone i n then n
  else mkLeaf (l_header n) (next_page_id n) (prev_page_id n) (l_keys n) (l_values n) (tombstones n ++ [u16_of i]).

Definition process_oldest_tombstone (n : LeafNode) : result LeafNode :=
  match tombstones n with
  | [] => Ok n
  | t :: rest =>
      let oldest := Z.to_nat t in
      keys ← vec_remove oldest (l_keys n);
      values ← vec_remove oldest (l_values n);
      Ok (mkLeaf (set_size (Z.max 0 (h_size (l_header n) - 1)) (l_header n)) (next_page_id n) (prev_page_id n)
            keys.2 values.2 (shift_down oldest rest))
  end.

Definition leaf_delete (key : bytes) (max_tombstones : nat) (n : LeafNode) : result (bool * LeafNode) :=
  found ← leaf_lookup key n;
  match found with
  | None => Ok (false, n)
  | Some index =>
      if (max_tombstones =? 0)%nat then
        keys ← vec_remove index (l_keys n);
        values ← vec_remove index (l_values n);
        let ts := List.filter (fun t => negb (t =? Z.of_nat index)) (tombstones n) in
        Ok (true, mkLeaf (set_size (u16_of (length keys.2)) (l_header n)) (next_page_id n) (prev_page_id n)
                    keys.2 values.2 (shift_down index ts))
      else if (max_tombstones <=? length (tombstones n))%nat then
        n ← process_oldest_tombstone n;
        found ← leaf_lookup key n;
        Ok (true, match found with Some i => add_tombstone i n | None => n end)
      else Ok (true, add_tombstone index n)
  end.

(** The tombstones from the last one down. *)
Definition tombs_descending (ts : list Z) : list Z := reverse (merge_sort Z.le ts).

Fixpoint remove_all (ts : list Z) (keys values : list bytes) : result (list bytes * list bytes) :=
  match ts with
  | [] => Ok (keys, values)
  | t :: rest =>
      if (Z.to_nat t <? length keys)%nat then
        ks ← vec_remove (Z.to_nat t) keys; vs ← vec_remove (Z.to_nat t) values; remove_all rest ks.2 vs.2
      else remove_all rest keys values
  end.

Definition compact (n : LeafNode) : result LeafNode :=
  match tombstones n with
  | [] => Ok n
  | _ =>
      kvs ← remove_all (tombs_descending (tombstones n)) (l_keys n) (l_values n);
      Ok (mkLeaf (set_size (u16_of (length kvs.1)) (l_header n)) (next_page_id n) (prev_page_id n) kvs.1 kvs.2 [])
  end.

Definition l_min_size (n : LeafNode) : Z := h_min_size (l_header n).
Definition l_safe_for_insert (n : LeafNode) : result bool :=
  m ← @arith Error in_u16 (h_max_size (l_header n) - 1); Ok (u16_of (physical_size n) <? m).
Definition needs_split (n : LeafNode) : bool := h_max_size (l_header n) <? u16_of (physical_size n).
Definition l_safe_for_delete (n : LeafNode) : result bool := l ← logical_size n; Ok (l_min_size n <? u16_of l).
Definition l_size (n : LeafNode) : result Z := l ← logical_size n; Ok (u16_of l).
Definition has_underflowed (n : LeafNode) : bool := u16_of (physical_size n) <? l_min_size n.

Definition set_value_at (i : nat) (v : bytes) (n : LeafNode) : result LeafNode :=
  vs ← vec_set i v (l_values n);
  Ok (mkLeaf (l_header n) (next_page_id n) (prev_page_id n) (l_keys n) vs (tombstones n)).

(** The entries from a place on that are not marked. *)
Fixpoint live_from (i : nat) (dead : nat -> bool) (keys values : list bytes) : list entry :=
  match keys, values with
  | k :: ks, v :: vs => (if dead i then [] else [(k, v)]) ++ live_from (S i) dead ks vs
  | _, _ => []
  end.

Definition live_entries (n : LeafNode) : list entry := live_from 0 (fun i => is_tombstone i n) (l_keys n) (l_values n).
