(* ===== verification/BNodeSpec.v ===== *)
(** What the operations on B+tree nodes do.

    A leaf is a row of entries, each of them marked as deleted or not
    ([stores]); the calls on leaves are small changes of that row.  The two
    binary searches find what a scan from the front would. *)

From Stdlib Require Import ZArith Lia List Bool.
From S2P Require Import Prelude Common Engine Page BNode.
From coqutil Require Import Byte.
From stdpp Require Import base relations list strings sorting.
#[local] Open Scope Z_scope.

(** ** Searches *)

(** Where a key is in a sorted list, or where it would go. *)
Inductive placed (key : bytes) (l : list bytes) : nat + nat -> Prop :=
| placed_at l1 l2 : l = l1 ++ key :: l2 -> Forall (fun k => blt k key) l1 -> Forall (blt key) l2 -> placed key l (inl (length l1))
| placed_between l1 l2 : l = l1 ++ l2 -> Forall (fun k => blt k key) l1 -> Forall (blt key) l2 -> placed key l (inr (length l1)).

Lemma sorted_lookup_lt (l : list bytes) i j a b :
  StronglySorted blt l -> l !! i = Some a -> l !! j = Some b -> (i < j)%nat -> blt a b.
Proof.
  intros So. revert i j. induction So as [|x l So IH F]; intros i j Ha Hb Lt; [done|].
  destruct j as [|j]; [lia|]. cbn in Hb. destruct i as [|i]; cbn in Ha.
  - injection Ha as ->. rewrite Forall_lookup in F. eauto.
  - apply (IH i j); [done|done|lia].
Qed.

Lemma search_halves_ok key l : forall fuel base size,
  StronglySorted blt l -> (1 <= size <= S fuel)%nat -> (base + size <= length l)%nat ->
  (forall j k, l !! j = Some k -> (base + size <= j)%nat -> blt key k) ->
  (base = 0%nat \/ exists k, l !! base = Some k /\ ble k key) ->
  exists b, search_halves fuel key l base size = Some (Ok b) /\ (b < length l)%nat /\
    (forall j k, l !! j = Some k -> (b < j)%nat -> blt key k) /\ (b = 0%nat \/ exists k, l !! b = Some k /\ ble k key).
Proof.
  induction fuel as [|fuel IH]; intros base size So Sz Le Up Lo; cbn [search_halves].
  { destruct (Nat.ltb_spec 1 size); [lia|]. exists base. split_and!; [done|lia| |done]. intros j k Hj Hlt. eapply Up; [done|lia]. }
  destruct (Nat.ltb_spec 1 size) as [Gt|]; [|exists base; split_and!; [done|lia| |done]; intros j k Hj Hlt; eapply Up; [done|lia]].
  pose proof (Nat.div_lt size 2 ltac:(lia) ltac:(lia)). pose proof (Nat.Div0.div_le_mono 2 size 2 ltac:(lia)) as Hh.
  change (2 / 2)%nat with 1%nat in Hh. pose proof (Nat.Div0.div_mod size 2) as Dm. pose proof (Nat.mod_upper_bound size 2 ltac:(lia)).
  set (half := (size / 2)%nat) in *.
  destruct (lookup_lt_is_Some_2 l (base + half)%nat ltac:(lia)) as [k Hk]. rewrite Hk.
  assert (Cases : match bcmp k key with Gt => blt key k | _ => ble k key end).
  { destruct (bcmp k key) eqn:C; [by apply bcmp_eq in C as ->|by apply blt_ble|by apply bcmp_Gt]. }
  destruct (bcmp k key) eqn:C.
  1, 2: apply IH; [done|lia|lia| |eauto]; intros j k' Hj Hlt; eapply Up; [done|lia].
  apply IH; [done|lia|lia| |done]. intros j k' Hj Hlt. destruct (decide (j = base + half)%nat) as [->|]; [by simplify_eq|].
  eapply blt_trans; [exact Cases|]. eapply sorted_lookup_lt; [done|exact Hk|exact Hj|lia].
Qed.

Lemma Forall_take_lookup {A} (Q : A -> Prop) l n :
  (forall i x, l !! i = Some x -> (i < n)%nat -> Q x) -> Forall Q (take n l).
Proof. intros H. apply Forall_lookup. intros i x Hx. apply lookup_take_Some in Hx as [Hx Hi]. eauto. Qed.

Lemma Forall_drop_lookup {A} (Q : A -> Prop) l n :
  (forall i x, l !! i = Some x -> (n <= i)%nat -> Q x) -> Forall Q (drop n l).
Proof. intros H. apply Forall_lookup. intros i x Hx. rewrite lookup_drop in Hx. eapply H; [exact Hx|lia]. Qed.

Lemma binary_search_ok key l : StronglySorted blt l -> exists r, binary_search key l = Ok r /\ placed key l r.
Proof.
  intros So. unfold binary_search. destruct l as [|x l0].
  { exists (inr 0%nat). split; [done|]. by apply (placed_between key [] [] []). }
  set (l := x :: l0) in *. destruct (search_halves_ok key l (length l) 0 (length l)) as (b & E & Hb & Up & Lo);
    [done|unfold l; cbn; lia|lia| |by left|].
  { intros j k Hj Hle. apply lookup_lt_Some in Hj. lia. }
  rewrite E. cbn [mbind outcome_bind]. destruct (lookup_lt_is_Some_2 l b Hb) as [k Hk]. unfold vec_at. rewrite Hk. cbn [unwrap mbind outcome_bind].
  assert (Before : ble k key -> Forall (fun k' => blt k' key) (take b l)).
  { intros Le. apply Forall_take_lookup. intros i k' Hi Hlt. eapply blt_ble_trans; [|exact Le]. by eapply sorted_lookup_lt. }
  assert (After : Forall (blt key) (drop (S b) l)).
  { apply Forall_drop_lookup. intros i k' Hi Hlt. eapply Up; [exact Hi|lia]. }
  destruct (bcmp k key) eqn:C.
  - apply bcmp_eq in C as ->. eexists. split; [done|]. pose proof (placed_at key l (take b l) (drop (S b) l)) as H.
    rewrite length_take_le in H by lia. apply H; [by rewrite take_drop_middle|by apply Before|done].
  - eexists. split; [done|]. pose proof (placed_between key l (take (S b) l) (drop (S b) l)) as H.
    rewrite length_take_le in H by lia. rewrite Nat.add_1_r. apply H; [by rewrite take_drop| |done].
    rewrite (take_S_r _ _ _ Hk). apply Forall_app. split; [by apply Before, blt_ble|by apply Forall_singleton].
  - eexists. split; [done|]. apply bcmp_Gt in C. destruct Lo as [->|(k' & Hk' & Le)].
    + apply (placed_between key l [] l); [done|done|]. rewrite <- (drop_0 l), (drop_S l k 0 Hk). by constructor.
    + simplify_eq. by apply ble_not_lt in Le.
Qed.

(** The child that a key belongs to. *)
Lemma search_children_ok key keys : forall fuel lo hi,
  StronglySorted blt (drop 1 keys) -> (1 <= lo <= hi)%nat -> (hi <= length keys)%nat -> (hi - lo <= fuel)%nat ->
  (forall j k, keys !! j = Some k -> (1 <= j < lo)%nat -> ble k key) ->
  (forall j k, keys !! j = Some k -> (hi <= j)%nat -> blt key k) ->
  exists i, search_children fuel key keys lo hi = Some (Ok i) /\ (i < length keys)%nat /\
    (forall j k, keys !! j = Some k -> (1 <= j <= i)%nat -> ble k key) /\
    (forall j k, keys !! j = Some k -> (i < j)%nat -> blt key k).
Proof.
  induction fuel as [|fuel IH]; intros lo hi So B H Fu Below Above; cbn [search_children].
  { destruct (Nat.ltb_spec lo hi); [lia|]. exists (lo - 1)%nat. split_and!; [done|lia| |]; intros j k Hj Hb; [eapply Below|eapply Above]; eauto; lia. }
  destruct (Nat.ltb_spec lo hi).
  2: { exists (lo - 1)%nat. split_and!; [done|lia| |]; intros j k Hj Hb; [eapply Below|eapply Above]; eauto; lia. }
  pose proof (Nat.div_lt (hi - lo) 2 ltac:(lia) ltac:(lia)). set (mid := (lo + (hi - lo) / 2)%nat).
  destruct (lookup_lt_is_Some_2 keys mid ltac:(unfold mid; lia)) as [k Hk]. rewrite Hk.
  assert (Sorted : forall i j a b, keys !! i = Some a -> keys !! j = Some b -> (1 <= i < j)%nat -> blt a b).
  { intros i j a b Ha Hb Hij. apply (sorted_lookup_lt (drop 1 keys) (i - 1) (j - 1)); [done| | |lia]; rewrite lookup_drop.
    - by replace (1 + (i - 1))%nat with i by lia.
    - by replace (1 + (j - 1))%nat with j by lia. }
  destruct (bleb k key) eqn:C.
  - apply bleb_spec in C. apply IH; [done|unfold mid in *; lia|done|unfold mid in *; lia| |done].
    intros j k' Hj Hb. destruct (decide (j = mid)) as [->|]; [by simplify_eq|].
    apply blt_ble. eapply blt_ble_trans; [|exact C]. eapply Sorted; [exact Hj|exact Hk|unfold mid in *; lia].
  - assert (Gt : blt key k) by (apply blt_not_ble; intros ?%bleb_spec; congruence).
    apply IH; [done|unfold mid in *; lia|unfold mid in *; lia|unfold mid in *; lia|done|].
    intros j k' Hj Hb. destruct (decide (j = mid)) as [->|]; [by simplify_eq|].
    eapply blt_trans; [exact Gt|]. eapply Sorted; [exact Hk|exact Hj|unfold mid in *; lia].
Qed.

Lemma find_child_index_ok key n :
  children n <> [] -> i_keys n <> [] -> StronglySorted blt (drop 1 (i_keys n)) ->
  exists i, find_child_index key n = Ok i /\ (i < length (i_keys n))%nat /\
    (forall j k, i_keys n !! j = Some k -> (1 <= j <= i)%nat -> ble k key) /\
    (forall j k, i_keys n !! j = Some k -> (i < j)%nat -> blt key k).
Proof.
  intros Hc Hk So. unfold find_child_index. destruct (children n); [done|].
  assert (1 <= length (i_keys n))%nat by (destruct (i_keys n); cbn; [done|lia]).
  destruct (search_children_ok key (i_keys n) (length (i_keys n)) 1 (length (i_keys n))) as (i & E & Hi & Lo & Up);
    [done|lia|lia|lia| | |].
  - intros j k _ Hj. lia.
  - intros j k Hj%lookup_lt_Some Hb. lia.
  - rewrite E. eauto.
Qed.

(** ** Leaves as rows of marked entries *)

Abbreviation row := (list (entry * bool)).

Definition row_keys (r : row) : list bytes := map (fun s => s.1.1) r.
Definition row_values (r : row) : list bytes := map (fun s => s.1.2) r.
Definition alive (r : row) : list entry := map fst (List.filter (fun s => negb s.2) r).

Definition marks (ts : list Z) (r : row) : Prop :=
  NoDup ts /\ forall t, t ∈ ts <-> exists i e, t = Z.of_nat i /\ r !! i = Some (e, true).

Record stores (n : LeafNode) (r : row) : Prop := {
  st_keys : l_keys n = row_keys r;
  st_values : l_values n = row_values r;
  st_marks : marks (tombstones n) r;
  st_short : len r < 2 ^ 16 - 1
}.

Lemma stores_length n r : stores n r -> physical_size n = length r.
Proof. intros [K _ _ _]. unfold physical_size. rewrite K. apply length_map. Qed.

Lemma row_keys_app r1 r2 : row_keys (r1 ++ r2) = row_keys r1 ++ row_keys r2.
Proof. apply map_app. Qed.
Lemma row_values_app r1 r2 : row_values (r1 ++ r2) = row_values r1 ++ row_values r2.
Proof. apply map_app. Qed.
Lemma alive_app r1 r2 : alive (r1 ++ r2) = alive r1 ++ alive r2.
Proof. unfold alive. by rewrite List.filter_app, map_app. Qed.

Lemma alive_keys r e : e ∈ alive r -> e.1 ∈ row_keys r.
Proof.
  unfold alive. intros ([e' d] & -> & [H _]%list_elem_of_In%filter_In)%list_elem_of_fmap.
  apply list_elem_of_fmap. exists (e', d). split; [done|]. by apply list_elem_of_In.
Qed.

Lemma u16_of_small i : Z.of_nat i < 2 ^ 16 -> u16_of i = Z.of_nat i.
Proof. intros. apply as_unsigned_small. lia. Qed.

Lemma is_tombstone_ok n r i e d : stores n r -> r !! i = Some (e, d) -> is_tombstone i n = d.
Proof.
  intros [_ _ [_ Mk] Sh] Hi. pose proof (lookup_lt_Some _ _ _ Hi). unfold is_tombstone.
  rewrite u16_of_small by (unfold len in Sh; lia). destruct d.
  - apply bool_decide_eq_true. apply Mk. eauto.
  - apply bool_decide_eq_false. rewrite Mk. intros (j & e' & Hj & Hl). assert (i = j) as -> by lia. congruence.
Qed.

Lemma live_from_row dead r : forall i,
  (forall j e d, r !! j = Some (e, d) -> dead (i + j)%nat = d) -> live_from i dead (row_keys r) (row_values r) = alive r.
Proof.
  induction r as [|[[k v] d] r IH]; intros i H; [done|]. cbn [row_keys row_values map live_from fst snd]. unfold alive. cbn [List.filter].
  rewrite <- (Nat.add_0_r i) at 1. rewrite (H 0%nat (k, v) d) by done.
  change (live_from (S i) dead _ _) with (live_from (S i) dead (row_keys r) (row_values r)). rewrite IH.
  - by destruct d.
  - intros j e d' Hj. rewrite <- (H (S j) e d') by done. f_equal. lia.
Qed.

Lemma leaf_live_ok n r : stores n r -> live_entries n = alive r.
Proof.
  intros St. unfold live_entries. rewrite (st_keys _ _ St), (st_values _ _ St). apply live_from_row.
  intros j e d Hj. by apply (is_tombstone_ok n r j e d).
Qed.

(** A key of a sorted row. *)
Lemma row_split r l1 k l2 :
  row_keys r = l1 ++ k :: l2 -> exists r1 v d r2, r = r1 ++ ((k, v), d) :: r2 /\ row_keys r1 = l1 /\ row_keys r2 = l2.
Proof.
  intros E. unfold row_keys in E. apply map_eq_app in E as (r1 & rest & -> & E1 & E2).
  apply map_eq_cons in E2 as ([[k' v] d] & r2 & -> & E2 & E3). cbn in *. subst. eauto 10.
Qed.

Lemma row_split_app r l1 l2 : row_keys r = l1 ++ l2 -> exists r1 r2, r = r1 ++ r2 /\ row_keys r1 = l1 /\ row_keys r2 = l2.
Proof. intros E. apply map_eq_app in E as (r1 & r2 & -> & E1 & E2). eauto. Qed.

Lemma Forall_alive (Q : bytes -> Prop) r : Forall Q (row_keys r) -> Forall (fun e => Q e.1) (alive r).
Proof. intros F. apply Forall_forall. intros e He%alive_keys. by apply (proj1 (Forall_forall _ _) F). Qed.

(** *** Marks *)

Lemma marks_nil : marks [] [].
Proof. split; [constructor|]. intros t. split; [by intros ?%not_elem_of_nil|]. by intros (i & e & _ & ?). Qed.

Lemma lookup_app_cons {A} (r1 r2 : list A) x i :
  (r1 ++ x :: r2) !! i = if decide (i < length r1)%nat then r1 !! i else if decide (i = length r1) then Some x else r2 !! (i - length r1 - 1)%nat.
Proof.
  case_decide; [by apply lookup_app_l|]. rewrite lookup_app_r by lia. case_decide as H2.
  - by rewrite H2, Nat.sub_diag.
  - destruct (i - length r1)%nat as [|m] eqn:Em; [lia|]. cbn. f_equal. lia.
Qed.

Lemma lookup_app_case {A} (r1 r2 : list A) i :
  (r1 ++ r2) !! i = if decide (i < length r1)%nat then r1 !! i else r2 !! (i - length r1)%nat.
Proof. case_decide; [by apply lookup_app_l|]. by rewrite lookup_app_r by lia. Qed.

Lemma marks_range ts r t : marks ts r -> t ∈ ts -> 0 <= t < len r.
Proof. intros [_ Mk] (i & e & -> & Hi%lookup_lt_Some)%Mk. unfold len. lia. Qed.

(** An entry that is not marked goes in. *)
Lemma shift_up_ok ts i : Forall (fun t => 0 <= t < 2 ^ 16 - 1) ts ->
  shift_up i ts = Ok (map (fun t => if Z.of_nat i <=? t then t + 1 else t) ts).
Proof.
  induction 1 as [|t ts Ht F IH]; [done|]. cbn [shift_up map]. rewrite IH.
  destruct (Z.leb_spec (Z.of_nat i) t); cbn [mbind outcome_bind]; [|done]. by rewrite arith_bind by fits.
Qed.

Lemma marks_insert ts r1 r2 e :
  marks ts (r1 ++ r2) ->
  marks (map (fun t => if Z.of_nat (length r1) <=? t then t + 1 else t) ts) (r1 ++ (e, false) :: r2).
Proof.
  intros [Nd Mk]. split.
  { apply NoDup_fmap_2_strong; [|done]. intros a b _ _. do 2 zcase; lia. }
  intros t. rewrite list_elem_of_fmap. split.
  - intros (t0 & -> & (i & e0 & -> & Hi)%Mk). rewrite lookup_app_case in Hi. case_decide.
    + exists i, e0. destruct (Z.leb_spec (Z.of_nat (length r1)) (Z.of_nat i)); [lia|]. split; [done|].
      rewrite lookup_app_cons. by case_decide.
    + exists (S i), e0. destruct (Z.leb_spec (Z.of_nat (length r1)) (Z.of_nat i)); [|lia]. split; [lia|].
      rewrite lookup_app_cons. do 2 (case_decide; try lia). rewrite <- Hi. f_equal. lia.
  - intros (i & e0 & -> & Hi). rewrite lookup_app_cons in Hi. case_decide; [|case_decide; [congruence|]].
    + exists (Z.of_nat i). destruct (Z.leb_spec (Z.of_nat (length r1)) (Z.of_nat i)); [lia|]. split; [done|]. apply Mk.
      exists i, e0. split; [done|]. rewrite lookup_app_case. by case_decide.
    + exists (Z.of_nat (i - 1)). destruct (Z.leb_spec (Z.of_nat (length r1)) (Z.of_nat (i - 1))); [|lia]. split; [lia|]. apply Mk.
      exists (i - 1)%nat, e0. split; [done|]. rewrite lookup_app_case. case_decide; [lia|]. rewrite <- Hi. f_equal. lia.
Qed.

(** An entry comes out; its mark, if it had one, is gone. *)
Lemma marks_remove ts r1 x r2 :
  marks ts (r1 ++ x :: r2) ->
  marks (shift_down (length r1) (List.filter (fun t => negb (t =? Z.of_nat (length r1))) ts)) (r1 ++ r2).
Proof.
  intros [Nd Mk]. split.
  { apply NoDup_fmap_2_strong; [|by rewrite NoDup_ListNoDup in *; apply List.NoDup_filter].
    intros a b [_ Ha]%list_elem_of_In%filter_In [_ Hb]%list_elem_of_In%filter_In. zbool. do 2 zcase; lia. }
  intros t. unfold shift_down. rewrite list_elem_of_fmap. split.
  - intros (t0 & -> & [H N]%list_elem_of_In%filter_In). apply list_elem_of_In, Mk in H as (i & e0 & -> & Hi). zbool.
    rewrite lookup_app_cons in Hi. case_decide; [|case_decide; [lia|]].
    + exists i, e0. destruct (Z.ltb_spec (Z.of_nat (length r1)) (Z.of_nat i)); [lia|]. split; [done|].
      rewrite lookup_app_case. by case_decide.
    + exists (i - 1)%nat, e0. destruct (Z.ltb_spec (Z.of_nat (length r1)) (Z.of_nat i)); [|lia]. split; [lia|].
      rewrite lookup_app_case. case_decide; [lia|]. rewrite <- Hi. f_equal. lia.
  - intros (i & e0 & -> & Hi). rewrite lookup_app_case in Hi. case_decide.
    + exists (Z.of_nat i). destruct (Z.ltb_spec (Z.of_nat (length r1)) (Z.of_nat i)); [lia|]. split; [done|].
      apply list_elem_of_In, filter_In. split; [|destruct (Z.eqb_spec (Z.of_nat i) (Z.of_nat (length r1))); [lia|done]].
      apply list_elem_of_In, Mk. exists i, e0. split; [done|]. rewrite lookup_app_cons. by case_decide.
    + exists (Z.of_nat (S i)). destruct (Z.ltb_spec (Z.of_nat (length r1)) (Z.of_nat (S i))); [|lia]. split; [lia|].
      apply list_elem_of_In, filter_In. split; [|destruct (Z.eqb_spec (Z.of_nat (S i)) (Z.of_nat (length r1))); [lia|done]].
      apply list_elem_of_In, Mk. exists (S i), e0. split; [done|]. rewrite lookup_app_cons. do 2 (case_decide; try lia).
      rewrite <- Hi. f_equal. lia.
Qed.

(** A mark on an entry set or cleared. *)
Lemma marks_clear ts r1 e d r2 e' :
  marks ts (r1 ++ (e, d) :: r2) ->
  marks (List.filter (fun t => negb (t =? Z.of_nat (length r1))) ts) (r1 ++ (e', false) :: r2).
Proof.
  intros [Nd Mk]. split; [by rewrite NoDup_ListNoDup in *; apply List.NoDup_filter|].
  intros t. rewrite list_elem_of_In, filter_In, <- list_elem_of_In, Mk. split.
  - intros [(i & e0 & -> & Hi) N]. zbool. exists i, e0. split; [done|]. rewrite lookup_app_cons in *.
    case_decide; [done|]. case_decide; [lia|done].
  - intros (i & e0 & -> & Hi). rewrite lookup_app_cons in Hi.
    split; [exists i, e0; split; [done|]; rewrite lookup_app_cons|]; repeat case_decide; try done.
    all: destruct (Z.eqb_spec (Z.of_nat i) (Z.of_nat (length r1))); [lia|done].
Qed.

Lemma marks_set ts r1 e r2 :
  marks ts (r1 ++ (e, false) :: r2) -> marks (ts ++ [Z.of_nat (length r1)]) (r1 ++ (e, true) :: r2).
Proof.
  intros [Nd Mk].
  assert (N : Z.of_nat (length r1) ∉ ts).
  { rewrite Mk. intros (i & e0 & Hi & Hl). assert (i = length r1) as -> by lia.
    rewrite lookup_app_cons in Hl. do 2 (case_decide; try lia). congruence. }
  split.
  { apply NoDup_app. split_and!; [done| |apply NoDup_singleton]. intros x Hx ->%list_elem_of_singleton. done. }
  intros t. rewrite elem_of_app, list_elem_of_singleton, Mk. split.
  - intros [(i & e0 & -> & Hi)| ->].
    + exists i, e0. split; [done|]. rewrite lookup_app_cons in *. by repeat case_decide.
    + exists (length r1), e. split; [done|]. by rewrite list_lookup_middle.
  - intros (i & e0 & -> & Hi). rewrite lookup_app_cons in Hi. destruct (decide (i = length r1)) as [->|]; [by right|].
    left. exists i, e0. split; [done|]. rewrite lookup_app_cons. repeat case_decide; done.
Qed.

Lemma map_id_on {A} (f : A -> A) l : (forall x, x ∈ l -> f x = x) -> map f l = l.
Proof.
  induction l as [|x l IH]; intros H; cbn; [done|]. rewrite H by apply list_elem_of_here. f_equal. apply IH. intros y Hy.
  apply H. by apply elem_of_cons; right.
Qed.

Lemma filter_id_on {A} (f : A -> bool) l : (forall x, x ∈ l -> f x = true) -> List.filter f l = l.
Proof.
  induction l as [|x l IH]; intros H; cbn; [done|]. rewrite H by apply list_elem_of_here. f_equal. apply IH. intros y Hy.
  apply H. by apply elem_of_cons; right.
Qed.

(** The last entry comes out. *)
Lemma marks_remove_last ts r x :
  marks ts (r ++ [x]) -> marks (List.filter (fun t => negb (t =? Z.of_nat (length r))) ts) r.
Proof.
  intros Mk. pose proof (marks_remove ts r x [] Mk) as H. rewrite app_nil_r in H. unfold shift_down in H.
  rewrite map_id_on in H; [done|]. intros t [Ht _]%list_elem_of_In%filter_In. apply list_elem_of_In in Ht.
  pose proof (marks_range _ _ _ Mk Ht) as R. rewrite len_app in R. unfold len in R. cbn in R. zcase; lia.
Qed.

Lemma marks_unmarked ts r1 e r2 :
  marks ts (r1 ++ (e, false) :: r2) -> List.filter (fun t => negb (t =? Z.of_nat (length r1))) ts = ts.
Proof.
  intros [_ Mk]. apply filter_id_on. intros t (i & e0 & -> & Hi)%Mk.
  destruct (Z.eqb_spec (Z.of_nat i) (Z.of_nat (length r1))); [|done]. assert (i = length r1) as -> by lia.
  rewrite list_lookup_middle in Hi by done. congruence.
Qed.

Lemma length_filter_one ts (x : Z) :
  NoDup ts -> x ∈ ts -> S (length (List.filter (fun t => negb (t =? x)) ts)) = length ts.
Proof.
  induction 1 as [|t ts N Nd IH]; [by intros ?%not_elem_of_nil|]. intros [->|H]%elem_of_cons; cbn.
  - rewrite Z.eqb_refl. cbn. rewrite filter_id_on; [done|]. intros y Hy. destruct (Z.eqb_spec y t); [by subst|done].
  - destruct (Z.eqb_spec t x); [by subst|]. cbn. by rewrite IH.
Qed.

Lemma marks_count ts r : marks ts r -> (length (alive r) + length ts = length r)%nat.
Proof.
  revert ts. induction r as [|[e d] r IH] using rev_ind; intros ts Mk.
  { destruct ts as [|t ts]; [done|]. destruct Mk as [_ Mk]. destruct (proj1 (Mk t) (list_elem_of_here _ _)) as (i & e & _ & ?). done. }
  pose proof (IH _ (marks_remove_last _ _ _ Mk)) as H. rewrite alive_app, !length_app. unfold alive at 2. cbn. destruct d; cbn.
  - rewrite <- (length_filter_one ts (Z.of_nat (length r))); [lia|apply Mk|]. apply Mk. exists (length r), e.
    split; [done|]. by rewrite list_lookup_middle.
  - rewrite (marks_unmarked ts r e []) in H by done. lia.
Qed.

Lemma marks_app ts1 ts2 r1 r2 :
  marks ts1 r1 -> marks ts2 r2 -> marks (ts1 ++ map (fun t => t + Z.of_nat (length r1)) ts2) (r1 ++ r2).
Proof.
  intros M1 M2. pose proof M1 as [N1 K1]. pose proof M2 as [N2 K2]. split.
  { apply NoDup_app. split_and!; [done| |apply NoDup_fmap_2_strong; [intros; lia|done]].
    intros t Ht (t0 & -> & Ht0)%list_elem_of_fmap. pose proof (marks_range _ _ _ M1 Ht). pose proof (marks_range _ _ _ M2 Ht0).
    unfold len in *. lia. }
  intros t. rewrite elem_of_app, list_elem_of_fmap, K1. split.
  - intros [(i & e & -> & Hi)|(t0 & -> & (i & e & -> & Hi)%K2)].
    + exists i, e. split; [done|]. by apply lookup_app_l_Some.
    + exists (length r1 + i)%nat, e. split; [lia|]. rewrite lookup_app_r by lia. rewrite <- Hi. f_equal. lia.
  - intros (i & e & -> & Hi). rewrite lookup_app_case in Hi. case_decide; [left; eauto|].
    right. exists (Z.of_nat (i - length r1)). split; [lia|]. apply K2. eauto.
Qed.

Lemma marks_app_inv ts r1 r2 :
  marks ts (r1 ++ r2) ->
  marks (List.filter (fun t => t <? Z.of_nat (length r1)) ts) r1 /\
  marks (map (fun t => t - Z.of_nat (length r1)) (List.filter (fun t => negb (t <? Z.of_nat (length r1))) ts)) r2.
Proof.
  intros [Nd Mk]. split; (split; [|intros t]).
  - rewrite NoDup_ListNoDup in *. by apply List.NoDup_filter.
  - rewrite list_elem_of_In, filter_In, <- list_elem_of_In, Mk. split.
    + intros [(i & e & -> & Hi) L]. zbool. exists i, e. split; [done|]. by rewrite lookup_app_l in Hi by lia.
    + intros (i & e & -> & Hi). pose proof (lookup_lt_Some _ _ _ Hi). split; [|destruct (Z.ltb_spec (Z.of_nat i) (Z.of_nat (length r1))); [done|lia]].
      exists i, e. split; [done|]. by apply lookup_app_l_Some.
  - apply NoDup_fmap_2_strong; [intros; lia|]. rewrite NoDup_ListNoDup in *. by apply List.NoDup_filter.
  - rewrite list_elem_of_fmap. split.
    + intros (t0 & -> & [H L]%list_elem_of_In%filter_In). apply list_elem_of_In, Mk in H as (i & e & -> & Hi). zbool.
      exists (i - length r1)%nat, e. split; [lia|]. by rewrite lookup_app_r in Hi by lia.
    + intros (i & e & -> & Hi). exists (Z.of_nat (length r1 + i)). split; [lia|].
      apply list_elem_of_In, filter_In. split; [|destruct (Z.ltb_spec (Z.of_nat (length r1 + i)) (Z.of_nat (length r1))); [lia|done]].
      apply list_elem_of_In, Mk. exists (length r1 + i)%nat, e. split; [done|]. rewrite lookup_app_r by lia. rewrite <- Hi. f_equal. lia.
Qed.

(** *** Vectors *)

Lemma vec_insert_at {A} (x : A) l1 l2 i : length l1 = i -> vec_insert i x (l1 ++ l2) = Ok (l1 ++ x :: l2).
Proof.
  intros <-. unfold vec_insert. rewrite length_app. destruct (Nat.leb_spec (length l1) (length l1 + length l2)); [|lia].
  by rewrite take_app_length, drop_app_length.
Qed.

Lemma vec_remove_at {A} (x : A) l1 l2 i : length l1 = i -> vec_remove i (l1 ++ x :: l2) = Ok (x, l1 ++ l2).
Proof.
  intros <-. unfold vec_remove. rewrite list_lookup_middle by done. rewrite take_app_length.
  replace (S (length l1)) with (length l1 + 1)%nat by lia. by rewrite drop_app_add.
Qed.

Lemma vec_set_at {A} (x y : A) l1 l2 i : length l1 = i -> vec_set i x (l1 ++ y :: l2) = Ok (l1 ++ x :: l2).
Proof.
  intros <-. unfold vec_set. rewrite length_app. cbn [length]. destruct (Nat.ltb_spec (length l1) (length l1 + S (length l2))); [|lia].
  rewrite insert_app_r_alt, Nat.sub_diag by lia. done.
Qed.

(** *** The calls *)

Definition row_sorted (r : row) : Prop := StronglySorted blt (row_keys r).

Record leaf_is (lmax : Z) (n : LeafNode) (r : row) : Prop := {
  li_stores : stores n r;
  li_header : l_header n = mkNodeHeader Leaf (len r) lmax
}.

Definition same_links (n n' : LeafNode) : Prop := next_page_id n' = next_page_id n /\ prev_page_id n' = prev_page_id n.

(** Where a key is in a leaf, if anywhere, and what the lookups say. *)
Inductive leaf_place (key : bytes) (n : LeafNode) (r : row) : Prop :=
| place_at r1 v d r2 :
    r = r1 ++ ((key, v), d) :: r2 -> Forall (fun k => blt k key) (row_keys r1) -> Forall (blt key) (row_keys r2) ->
    lookup_physical key n = Ok (Some (length r1)) -> leaf_lookup key n = Ok (if d then None else Some (length r1)) ->
    leaf_place key n r
| place_between r1 r2 :
    r = r1 ++ r2 -> Forall (fun k => blt k key) (row_keys r1) -> Forall (blt key) (row_keys r2) ->
    lookup_physical key n = Ok None -> leaf_lookup key n = Ok None -> l_find_insert_index key n = Ok (length r1) ->
    leaf_place key n r.

Lemma row_keys_length r : length (row_keys r) = length r.
Proof. apply length_map. Qed.

Lemma leaf_place_ok key n r : stores n r -> row_sorted r -> leaf_place key n r.
Proof.
  intros St So. destruct (binary_search_ok key (row_keys r) So) as (p & E & Pl).
  assert (Lp : lookup_physical key n = Ok (match p with inl i => Some i | inr _ => None end)).
  { unfold lookup_physical. by rewrite (st_keys _ _ St), E. }
  assert (Fi : l_find_insert_index key n = Ok (match p with inl i => i | inr i => i end)).
  { unfold l_find_insert_index. by rewrite (st_keys _ _ St), E. }
  assert (Ll : leaf_lookup key n = Ok (match p with inl i => if is_tombstone i n then None else Some i | inr _ => None end)).
  { unfold leaf_lookup. rewrite Lp. by destruct p. }
  destruct Pl as [l1 l2 El F1 F2|l1 l2 El F1 F2].
  - destruct (row_split r l1 key l2 El) as (r1 & v & d & r2 & -> & <- & <-). rewrite row_keys_length in *.
    rewrite (is_tombstone_ok n _ (length r1) (key, v) d) in Ll by (done || by rewrite list_lookup_middle).
    by apply (place_at key n _ r1 v d r2).
  - destruct (row_split_app r l1 l2 El) as (r1 & r2 & -> & <- & <-). rewrite row_keys_length in *.
    by apply (place_between key n _ r1 r2).
Qed.

Lemma Forall_alive_below r key : Forall (fun k => blt k key) (row_keys r) -> Forall (fun e => blt e.1 key) (alive r).
Proof. apply Forall_alive. Qed.
Lemma Forall_alive_above r key : Forall (blt key) (row_keys r) -> Forall (fun e => blt key e.1) (alive r).
Proof. apply (Forall_alive (blt key)). Qed.
#[local] Hint Resolve Forall_alive_below Forall_alive_above : core.

Lemma leaf_lookup_get key n r :
  stores n r -> row_sorted r ->
  exists o, leaf_lookup key n = Ok o /\ (o = None <-> kv_get key (alive r) = None).
Proof.
  intros St So. destruct (leaf_place_ok key n r St So) as [r1 v d r2 -> F1 F2 _ E|r1 r2 -> F1 F2 _ E _]; eexists; (split; [exact E|]).
  - rewrite alive_app. change (((key, v), d) :: r2) with ([((key, v), d)] ++ r2). rewrite alive_app, kv_get_middle by auto.
    destruct d; cbn; [done|]. by rewrite bool_decide_true.
  - rewrite alive_app, kv_get_app, kv_get_below, kv_get_above by auto. done.
Qed.

(** An entry is put into a row: in a new place, or over one with its key. *)
Inductive row_put (e : entry) : row -> row -> Prop :=
| put_new r1 r2 : Forall (fun k => blt k e.1) (row_keys r1) -> Forall (blt e.1) (row_keys r2) -> row_put e (r1 ++ r2) (r1 ++ (e, false) :: r2)
| put_over r1 v d r2 : Forall (fun k => blt k e.1) (row_keys r1) -> Forall (blt e.1) (row_keys r2) ->
    row_put e (r1 ++ ((e.1, v), d) :: r2) (r1 ++ (e, false) :: r2).

Lemma kv_put_same {V} k (v : V) l : kv_put k v [(k, l)] = [(k, v)].
Proof. cbn. by rewrite bcmp_refl. Qed.

Lemma row_put_alive k v r r' : row_put (k, v) r r' -> alive r' = kv_put k v (alive r).
Proof.
  destruct 1 as [r1 r2 F1 F2|r1 v0 d r2 F1 F2]; cbn [fst] in *.
  - change (((k, v), false) :: r2) with ([((k, v), false)] ++ r2). rewrite !alive_app.
    change (alive r1 ++ alive r2) with (alive r1 ++ [] ++ alive r2). rewrite kv_put_middle by auto. done.
  - change (((k, v), false) :: r2) with ([((k, v), false)] ++ r2). change (((k, v0), d) :: r2) with ([((k, v0), d)] ++ r2).
    rewrite !alive_app, kv_put_middle by auto. do 2 f_equal. destruct d; [done|]. cbn. by rewrite bcmp_refl.
Qed.

Lemma sorted_app (l1 l2 : list bytes) :
  StronglySorted blt (l1 ++ l2) <-> StronglySorted blt l1 /\ StronglySorted blt l2 /\ (forall a b, a ∈ l1 -> b ∈ l2 -> blt a b).
Proof.
  induction l1 as [|x l1 IH]; cbn.
  - split; [intros H; split_and!; [constructor|done|by intros a b ?%not_elem_of_nil]|by intros (_ & ? & _)].
  - split.
    + intros [(H1 & H2 & H3)%IH F]%StronglySorted_inv. apply Forall_app in F as [F1 F2]. split_and!; [by constructor|done|].
      intros a b [->|Ha]%elem_of_cons Hb; [by apply (proj1 (Forall_forall _ _) F2)|eauto].
    + intros ([H1 F]%StronglySorted_inv & H2 & H3). constructor.
      * apply IH. split_and!; [done|done|]. intros a b Ha Hb. apply H3; [by apply elem_of_cons; right|done].
      * apply Forall_app. split; [done|]. apply Forall_forall. intros b Hb. apply H3; [apply list_elem_of_here|done].
Qed.

Lemma sorted_insert (l1 l2 : list bytes) k :
  StronglySorted blt (l1 ++ l2) -> Forall (fun x => blt x k) l1 -> Forall (blt k) l2 -> StronglySorted blt (l1 ++ k :: l2).
Proof.
  intros (S1 & S2 & H)%sorted_app F1 F2. apply sorted_app. split_and!; [done|by constructor|].
  intros a b Ha [->|Hb]%elem_of_cons; [by apply (proj1 (Forall_forall _ _) F1)|eauto].
Qed.

Lemma row_put_sorted e r r' : row_put e r r' -> row_sorted r -> row_sorted r'.
Proof.
  unfold row_sorted. destruct 1 as [r1 r2 F1 F2|r1 v d r2 F1 F2]; rewrite !row_keys_app; [|done].
  intros So. by apply sorted_insert.
Qed.

Lemma row_put_Forall (Q : entry -> Prop) e r r' :
  row_put e r r' -> Q e -> Forall (fun s => Q s.1) r -> Forall (fun s => Q s.1) r'.
Proof.
  destruct 1 as [r1 r2 F1 F2|r1 v d r2 F1 F2]; rewrite !Forall_app, ?Forall_cons; intros He; naive_solver.
Qed.

Lemma row_put_length e r r' : row_put e r r' -> (1 <= length r' /\ length r <= length r' <= S (length r))%nat.
Proof. destruct 1; rewrite !length_app; cbn; lia. Qed.

Lemma leaf_insert_ok lmax key value n r :
  leaf_is lmax n r -> row_sorted r -> len r + 1 < 2 ^ 16 - 1 -> kv_get key (alive r) = None ->
  exists n' r', leaf_insert key value n = Ok (true, n') /\ leaf_is lmax n' r' /\ row_put (key, value) r r' /\
    same_links n n' /\ (length (tombstones n') <= length (tombstones n))%nat.
Proof.
  intros [St Hd] So Sh No. pose proof St as [K V Mk _]. unfold leaf_insert.
  destruct (leaf_place_ok key n r St So) as [r1 v d r2 -> F1 F2 E El|r1 r2 -> F1 F2 E El Ei]; rewrite E; cbn [mbind outcome_bind].
  - destruct (leaf_lookup_get key n _ St So) as (o & E2 & Ho). rewrite El in E2. injection E2 as <-.
    destruct d; [|by apply Ho in No]. rewrite (is_tombstone_ok n _ (length r1) (key, v) true) by (done || by rewrite list_lookup_middle).
    rewrite V, row_values_app. cbn [row_values map fst snd]. rewrite vec_set_at by apply length_map.
    cbn [mbind outcome_bind]. eexists _, (r1 ++ ((key, value), false) :: r2). split; [done|]. split.
    + constructor; [constructor|]; cbn.
      * by rewrite K, !row_keys_app.
      * by rewrite row_values_app.
      * by apply (marks_clear _ r1 (key, v) true r2 (key, value)).
      * rewrite len_app, len_cons in *. lia.
      * rewrite Hd. f_equal. by rewrite !len_app, !len_cons.
    + split_and!; [by apply (put_over (key, value) r1 v true r2)|done|]. cbn. apply List.filter_length_le.
  - rewrite Ei. cbn [mbind outcome_bind]. rewrite shift_up_ok.
    2: { apply Forall_forall. intros t Ht. pose proof (marks_range _ _ _ Mk Ht). lia. }
    cbn [mbind outcome_bind]. rewrite K, V, row_keys_app, row_values_app, (vec_insert_at key) by apply row_keys_length.
    cbn [mbind outcome_bind]. rewrite (vec_insert_at value) by apply length_map. cbn [mbind outcome_bind].
    rewrite Hd. cbn [h_size]. pose proof (len_nonneg (r1 ++ r2)). rewrite arith_bind by fits.
    eexists _, (r1 ++ ((key, value), false) :: r2). split; [done|]. split.
    + constructor; [constructor|]; cbn.
      * by rewrite row_keys_app.
      * by rewrite row_values_app.
      * by apply marks_insert.
      * rewrite len_app, len_cons in *. lia.
      * unfold set_size. cbn. f_equal. rewrite !len_app, !len_cons. lia.
    + split_and!; [by apply (put_new (key, value) r1 r2)|done|]. cbn. by rewrite length_map.
Qed.

(** A marked entry is taken out for good. *)
Inductive evicts : row -> row -> Prop :=
| evicts_one r1 e r2 : evicts (r1 ++ (e, true) :: r2) (r1 ++ r2).

Lemma evicts_alive r r' : rtc evicts r r' -> alive r' = alive r.
Proof. induction 1 as [|r ? r' [r1 e r2] _ IH]; [done|]. rewrite IH. by rewrite !alive_app. Qed.

Lemma evicts_sorted r r' : rtc evicts r r' -> row_sorted r -> row_sorted r'.
Proof.
  induction 1 as [|r ? r' [r1 e r2] _ IH]; [done|]. intros So. apply IH. unfold row_sorted in *. rewrite row_keys_app in *.
  apply sorted_app in So as (S1 & [S2 _]%StronglySorted_inv & H). apply sorted_app. split_and!; [done|done|].
  intros a b Ha Hb. apply H; [done|]. by apply elem_of_cons; right.
Qed.

Lemma evicts_Forall (Q : entry -> Prop) r r' : rtc evicts r r' -> Forall (fun s => Q s.1) r -> Forall (fun s => Q s.1) r'.
Proof. induction 1 as [|r ? r' [r1 e r2] _ IH]; [done|]. rewrite Forall_app, Forall_cons. intros (? & _ & ?). apply IH. by apply Forall_app. Qed.

Lemma process_oldest_ok lmax n r t ts :
  leaf_is lmax n r -> tombstones n = t :: ts ->
  exists n' r', process_oldest_tombstone n = Ok n' /\ leaf_is lmax n' r' /\ evicts r r' /\ same_links n n' /\
    length (tombstones n') = length ts.
Proof.
  intros [St Hd] Et. pose proof St as [K V Mk Sh]. unfold process_oldest_tombstone. rewrite Et.
  pose proof Mk as [Nd Mk']. rewrite Et in Nd. apply NoDup_cons in Nd as [Nt Nd].
  destruct (proj1 (Mk' t)) as (i & e & -> & Hi); [rewrite Et; apply list_elem_of_here|]. rewrite Nat2Z.id.
  pose proof (lookup_lt_Some _ _ _ Hi) as Li. set (r1 := take i r). set (r2 := drop (S i) r).
  assert (Er : r = r1 ++ (e, true) :: r2) by (symmetry; by apply take_drop_middle).
  assert (L1 : length r1 = i) by (unfold r1; rewrite length_take; lia).
  clearbody r1 r2. subst r. rewrite K, V, row_keys_app, row_values_app. cbn [row_keys row_values map].
  rewrite (vec_remove_at e.1) by (rewrite row_keys_length; done). cbn [mbind outcome_bind snd].
  rewrite (vec_remove_at e.2) by (unfold row_values; rewrite length_map; done). cbn [mbind outcome_bind snd].
  eexists _, (r1 ++ r2). split; [done|]. split.
  - constructor; [constructor|]; cbn.
    + by rewrite row_keys_app.
    + by rewrite row_values_app.
    + apply marks_remove in Mk. rewrite L1, Et in Mk. cbn [List.filter] in Mk. rewrite Z.eqb_refl in Mk. cbn [negb] in Mk.
      rewrite filter_id_on in Mk; [done|]. intros y Hy. destruct (Z.eqb_spec y (Z.of_nat i)); [by subst|done].
    + rewrite len_app, len_cons in Sh. rewrite len_app. lia.
    + rewrite Hd. unfold set_size. cbn. f_equal. rewrite !len_app, len_cons.
      pose proof (len_nonneg r1). pose proof (len_nonneg r2). lia.
  - split_and!; [done|done|]. cbn. unfold shift_down. by rewrite length_map.
Qed.

Lemma leaf_lookup_alive key n r v :
  stores n r -> row_sorted r -> kv_get key (alive r) = Some v ->
  exists r1 r2, r = r1 ++ ((key, v), false) :: r2 /\ leaf_lookup key n = Ok (Some (length r1)) /\
    Forall (fun k => blt k key) (row_keys r1) /\ Forall (blt key) (row_keys r2).
Proof.
  intros St So G. destruct (leaf_place_ok key n r St So) as [r1 v' d r2 -> F1 F2 _ E|r1 r2 -> F1 F2 _ E _].
  - rewrite alive_app in G. change (((key, v'), d) :: r2) with ([((key, v'), d)] ++ r2) in G. rewrite alive_app, kv_get_middle in G by auto.
    destruct d; cbn in G; [done|]. rewrite bool_decide_true in G by done. injection G as ->. eauto 10.
  - rewrite alive_app, kv_get_app, kv_get_below, kv_get_above in G by auto. done.
Qed.

Lemma add_tombstone_ok lmax n r1 e r2 :
  leaf_is lmax n (r1 ++ (e, false) :: r2) ->
  leaf_is lmax (add_tombstone (length r1) n) (r1 ++ (e, true) :: r2) /\ same_links n (add_tombstone (length r1) n) /\
  length (tombstones (add_tombstone (length r1) n)) = S (length (tombstones n)).
Proof.
  intros [St Hd]. pose proof St as [K V Mk Sh]. unfold add_tombstone.
  rewrite (is_tombstone_ok n _ (length r1) e false) by (done || by rewrite list_lookup_middle).
  assert (Sh' : len r1 + 1 + len r2 < 2 ^ 16 - 1) by (rewrite len_app, len_cons in Sh; lia). pose proof (len_nonneg r2).
  rewrite u16_of_small by (unfold len in *; lia). split; [|split; [done|cbn; rewrite length_app; cbn; lia]].
  constructor; [constructor|]; cbn.
  - by rewrite K, !row_keys_app.
  - by rewrite V, !row_values_app.
  - by apply marks_set.
  - rewrite len_app, len_cons. lia.
  - rewrite Hd. f_equal. by rewrite !len_app, !len_cons.
Qed.

Lemma kv_delete_one {V} k (v : V) : kv_delete k [(k, v)] = [].
Proof. unfold kv_delete. cbn. by rewrite bool_decide_true. Qed.

Lemma alive_delete r1 key v r2 :
  Forall (fun k => blt k key) (row_keys r1) -> Forall (blt key) (row_keys r2) ->
  kv_delete key (alive (r1 ++ ((key, v), false) :: r2)) = alive r1 ++ alive r2.
Proof.
  intros F1 F2. change (((key, v), false) :: r2) with ([((key, v), false)] ++ r2). rewrite !alive_app.
  rewrite kv_delete_middle by auto. cbn [alive List.filter negb map fst snd]. by rewrite kv_delete_one.
Qed.

(** What is left of a row when a key is deleted. *)
Record row_deleted (key : bytes) (r r' : row) : Prop := {
  rd_alive : alive r' = kv_delete key (alive r);
  rd_sorted : row_sorted r';
  rd_Forall (Q : entry -> Prop) : Forall (fun s => Q s.1) r -> Forall (fun s => Q s.1) r';
  rd_length : (length r' <= length r <= S (length r'))%nat
}.

Lemma row_deleted_mark key r1 v r2 r0 :
  rtc evicts r0 (r1 ++ ((key, v), false) :: r2) -> row_sorted r0 ->
  Forall (fun k => blt k key) (row_keys r1) -> Forall (blt key) (row_keys r2) ->
  (length r0 <= S (length (r1 ++ ((key, v), false) :: r2)))%nat -> (length (r1 ++ ((key, v), false) :: r2) <= length r0)%nat ->
  row_deleted key r0 (r1 ++ ((key, v), true) :: r2).
Proof.
  intros Ev So F1 F2 L1 L2. rewrite length_app in L1, L2. cbn in L1, L2. split.
  - rewrite <- (evicts_alive _ _ Ev), alive_delete by done. by rewrite alive_app.
  - pose proof (evicts_sorted _ _ Ev So) as H. unfold row_sorted in *. by rewrite !row_keys_app in *.
  - intros Q F. pose proof (evicts_Forall Q _ _ Ev F) as H. rewrite Forall_app, Forall_cons in *. naive_solver.
  - rewrite length_app. cbn. lia.
Qed.

Lemma leaf_delete_absent key mt n r :
  stores n r -> row_sorted r -> kv_get key (alive r) = None -> leaf_delete key mt n = Ok (false, n).
Proof.
  intros St So G. destruct (leaf_lookup_get key n r St So) as (o & E & Ho). unfold leaf_delete. rewrite E.
  by rewrite (proj2 Ho G).
Qed.

Lemma leaf_delete_ok lmax key mt n r v :
  leaf_is lmax n r -> row_sorted r -> (length (tombstones n) <= mt)%nat -> kv_get key (alive r) = Some v ->
  exists n' r', leaf_delete key mt n = Ok (true, n') /\ leaf_is lmax n' r' /\ row_deleted key r r' /\ same_links n n' /\
    (length (tombstones n') <= mt)%nat.
Proof.
  intros Is So Mt G. pose proof Is as [St Hd]. destruct (leaf_lookup_alive key n r v St So G) as (r1 & r2 & -> & E & F1 & F2).
  pose proof St as [K V Mk Sh]. unfold leaf_delete. rewrite E. cbn [mbind outcome_bind].
  destruct (Nat.eqb_spec mt 0) as [->|Nz].
  { rewrite K, V, row_keys_app, row_values_app. cbn [row_keys row_values map fst snd].
    rewrite (vec_remove_at key) by (rewrite row_keys_length; done). cbn [mbind outcome_bind snd].
    rewrite (vec_remove_at v) by (unfold row_values; rewrite length_map; done). cbn [mbind outcome_bind snd].
    eexists _, (r1 ++ r2). split; [done|].
    assert (Lk : length (row_keys r1 ++ map (fun s => s.1.1) r2) = length (r1 ++ r2)).
    { rewrite !length_app, length_map. by rewrite row_keys_length. }
    assert (Sh' : len r1 + 1 + len r2 < 2 ^ 16 - 1) by (rewrite len_app, len_cons in Sh; lia).
    split; [constructor; [constructor|]; cbn|].
    - by rewrite row_keys_app.
    - by rewrite row_values_app.
    - by apply marks_remove in Mk.
    - rewrite len_app. lia.
    - rewrite Hd. unfold set_size. cbn. f_equal. rewrite Lk. apply u16_of_small. fold (len (r1 ++ r2)). rewrite len_app. lia.
    - split; [split|split; [done|]].
      + by rewrite alive_app, alive_delete.
      + unfold row_sorted in *. rewrite row_keys_app in *. apply sorted_app in So as (S1 & [S2 _]%StronglySorted_inv & H).
        apply sorted_app. split_and!; [done|done|]. intros a b Ha Hb. apply H; [done|]. by apply elem_of_cons; right.
      + intros Q. rewrite !Forall_app, Forall_cons. naive_solver.
      + rewrite !length_app. cbn. lia.
      + cbn. unfold shift_down. rewrite length_map. etransitivity; [apply List.filter_length_le|done]. }
  destruct (Nat.leb_spec mt (length (tombstones n))) as [Full|Room].
  - destruct (tombstones n) as [|t ts] eqn:Et; [cbn in *; lia|].
    destruct (process_oldest_ok lmax n _ t ts Is Et) as (n1 & r' & E1 & Is1 & Ev & Lk & Lt). rewrite E1. cbn [mbind outcome_bind].
    assert (Evs : rtc evicts (r1 ++ ((key, v), false) :: r2) r') by by apply rtc_once.
    pose proof (evicts_sorted _ _ Evs So) as So1.
    rewrite <- (evicts_alive _ _ Evs) in G. destruct (leaf_lookup_alive key n1 r' v (li_stores _ _ _ Is1) So1 G) as (q1 & q2 & Eq & E2 & G1 & G2).
    rewrite E2. cbn [mbind outcome_bind]. subst r'. destruct (add_tombstone_ok lmax n1 q1 (key, v) q2 Is1) as (Is2 & Lk2 & Lt2).
    eexists _, _. split; [done|]. split; [exact Is2|]. split_and!.
    + assert (length (r1 ++ ((key, v), false) :: r2) = S (length (q1 ++ ((key, v), false) :: q2))) as Hl.
      { inversion Ev as [a e b Ea Eb]. rewrite !length_app in *. cbn [length]. lia. }
      apply row_deleted_mark; try done; lia.
    + destruct Lk, Lk2. split; congruence.
    + cbn in Mt. lia.
  - destruct (add_tombstone_ok lmax n r1 (key, v) r2 Is) as (Is2 & Lk2 & Lt2).
    eexists _, _. split; [done|]. split; [exact Is2|]. split_and!; [by apply row_deleted_mark; [..|lia|]|done|lia].
Qed.
