(* ===== verification/BLayout.v ===== *)
(** B+tree nodes as page bytes (crates/idb-storage/src/engines/btree/page_layout.rs
    and the header page of btree/mod.rs).

    The encoders write into the buffer of a page in the order of the source and
    leave the bytes behind the last entry as they were.  A write or a read out
    of the page panics. *)

From Stdlib Require Import ZArith Lia List Bool.
From S2P Require Import Prelude Common Engine Page BNode.
From coqutil Require Import Byte Word.LittleEndianList.
From stdpp Require Import base list strings.
#[local] Open Scope Z_scope.

Section layout.
Context (crc32 : bytes -> Z).

(** ** Internal nodes *)

Fixpoint encode_children (keys : list bytes) (cs : list PageId) (offset : Z) (buf : bytes) : result (bytes * Z) :=
  match keys with
  | [] => Ok (buf, offset)
  | key :: keys =>
      child ← vec_at 0 cs;
      buf ← put_at offset (to_le_bytes 2 (as_unsigned 16 (len key))) buf;
      let offset := offset + 2 in
      buf ← put_at offset key buf;
      let offset := offset + len key in
      buf ← put_at offset (to_le_bytes 4 child) buf;
      encode_children keys (drop 1 cs) (offset + 4) buf
  end.

Definition encode_internal_node (node : InternalNode) (buf : bytes) : result (bytes * Z) :=
  if len buf <? PAGE_SIZE then Panic else
  buf ← write_to (page_header_new PBTreeInternal) buf;
  let offset := HEADER_SIZE in
  buf ← put_at offset [node_type_byte Internal] buf;
  let offset := offset + 1 in
  buf ← put_at offset (to_le_bytes 2 (h_size (i_header node))) buf;
  let offset := offset + 2 in
  buf ← put_at offset (to_le_bytes 2 (h_max_size (i_header node))) buf;
  let offset := offset + 2 in
  buf ← put_at offset (replicate 7 (byte.of_Z 0)) buf;
  '(buf, offset) ← encode_children (i_keys node) (children node) INTERNAL_HEADER_SIZE buf;
  buf ← store_checksum crc32 buf;
  Ok (buf, offset).

Fixpoint decode_children (count : nat) (buf : bytes) (offset : Z) : result (list bytes * list PageId) :=
  match count with
  | O => Ok ([], [])
  | S count =>
      key_len ← read_le 2 offset buf;
      let offset := offset + 2 in
      key ← slice offset (offset + key_len) buf;
      let offset := offset + key_len in
      child ← read_le 4 offset buf;
      '(keys, cs) ← decode_children count buf (offset + 4);
      Ok (key :: keys, child :: cs)
  end.

Definition decode_internal_node (buf : bytes) : result InternalNode :=
  check_stored crc32 buf;;
  ty ← index HEADER_SIZE buf;
  if negb (u8 ty =? u8 (node_type_byte Internal)) then Panic else
  size ← read_le 2 (HEADER_SIZE + 1) buf;
  max_size ← read_le 2 (HEADER_SIZE + 3) buf;
  '(keys, cs) ← decode_children (Z.to_nat size) buf INTERNAL_HEADER_SIZE;
  Ok (mkInternal (mkNodeHeader Internal size max_size) keys cs).

(** ** Leaves read in place *)

Fixpoint is_tombstoned_loop (count : nat) (buf : bytes) (offset target : Z) : result bool :=
  match count with
  | O => Ok false
  | S count =>
      t ← read_le 2 offset buf;
      if t =? target then Ok true else is_tombstoned_loop count buf (offset + 2) target
  end.

Definition is_tombstoned (buf : bytes) (tombstones_offset : Z) (tombstone_count : nat) (physical_index : nat) : result bool :=
  is_tombstoned_loop tombstone_count buf tombstones_offset (u16_of physical_index).

Definition TOMBSTONE_COUNT_OFFSET : Z := HEADER_SIZE + 1 + 2 + 2 + 4 + 4.

(** The loop over the entries, from a physical place on. *)
Fixpoint lookup_loop (remaining : nat) (buf key : bytes) (tombstone_count i : nat) (offset : Z) : result (option bytes) :=
  match remaining with
  | O => Ok None
  | S remaining =>
      key_len ← read_le 2 offset buf;
      let key_start := offset + 2 in
      entry_key ← slice key_start (key_start + key_len) buf;
      let val_len_offset := key_start + key_len in
      val_len ← read_le 2 val_len_offset buf;
      let val_start := val_len_offset + 2 in
      match bcmp entry_key key with
      | Eq => dead ← is_tombstoned buf LEAF_HEADER_SIZE tombstone_count i;
              if (dead : bool) then Ok None else
              v ← slice val_start (val_start + val_len) buf; Ok (Some v)
      | Gt => Ok None
      | Lt => lookup_loop remaining buf key tombstone_count (S i) (val_start + val_len)
      end
  end.

Definition lookup_in_encoded_leaf (buf key : bytes) : result (option bytes) :=
  check_stored crc32 buf;;
  ty ← index HEADER_SIZE buf;
  if negb (u8 ty =? u8 (node_type_byte Leaf)) then Panic else
  size ← read_le 2 (HEADER_SIZE + 1) buf;
  tombstone_count ← read_le 2 TOMBSTONE_COUNT_OFFSET buf;
  lookup_loop (Z.to_nat size) buf key (Z.to_nat tombstone_count) 0 (LEAF_HEADER_SIZE + tombstone_count * 2).

Record EncodedLeaf := mkEncodedLeaf {
  el_buf : bytes;
  el_size : nat;
  el_tombstone_count : nat;
  entries_offset : Z;
  el_next_page_id : PageId
}.

Definition encoded_leaf_parse (buf : bytes) : result EncodedLeaf :=
  check_stored crc32 buf;;
  ty ← index HEADER_SIZE buf;
  if negb (u8 ty =? u8 (node_type_byte Leaf)) then Panic else
  size ← read_le 2 (HEADER_SIZE + 1) buf;
  next ← read_le 4 (HEADER_SIZE + 1 + 2 + 2) buf;
  tombstone_count ← read_le 2 TOMBSTONE_COUNT_OFFSET buf;
  Ok (mkEncodedLeaf buf (Z.to_nat size) (Z.to_nat tombstone_count) (LEAF_HEADER_SIZE + tombstone_count * 2) next).

Fixpoint in_range_loop (count : nat) (buf : bytes) (offset : Z) (size : nat) : result bool :=
  match count with
  | O => Ok true
  | S count =>
      t ← read_le 2 offset buf;
      if t <? Z.of_nat size then in_range_loop count buf (offset + 2) size else Ok false
  end.

Definition tombstones_in_range (e : EncodedLeaf) : result bool :=
  in_range_loop (el_tombstone_count e) (el_buf e) LEAF_HEADER_SIZE (el_size e).

(** [EncodedLeafEntries]: the place of the next entry. *)
Record EncodedLeafEntries := mkEntries { ee_offset : Z; physical_index : nat }.

Definition encoded_live_entries (e : EncodedLeaf) : EncodedLeafEntries := mkEntries (entries_offset e) 0.

(** [next], with the entries that remain as fuel. *)
Fixpoint entries_next (remaining : nat) (e : EncodedLeaf) (it : EncodedLeafEntries) : result (option entry * EncodedLeafEntries) :=
  match remaining with
  | O => Ok (None, it)
  | S remaining =>
      let buf := el_buf e in
      let offset := ee_offset it in
      key_len ← read_le 2 offset buf;
      let key_start := offset + 2 in
      let val_len_offset := key_start + key_len in
      val_len ← read_le 2 val_len_offset buf;
      let val_start := val_len_offset + 2 in
      let it' := mkEntries (val_start + val_len) (S (physical_index it)) in
      dead ← is_tombstoned buf LEAF_HEADER_SIZE (el_tombstone_count e) (physical_index it);
      if (dead : bool) then entries_next remaining e it' else
      key ← slice key_start (key_start + key_len) buf;
      value ← slice val_start (val_start + val_len) buf;
      Ok (Some (key, value), it')
  end.

Definition encoded_next (e : EncodedLeaf) (it : EncodedLeafEntries) : result (option entry * EncodedLeafEntries) :=
  entries_next (el_size e - physical_index it) e it.

(** ** Leaves *)

Fixpoint encode_tombstones (ts : list Z) (offset : Z) (buf : bytes) : result (bytes * Z) :=
  match ts with
  | [] => Ok (buf, offset)
  | t :: ts => buf ← put_at offset (to_le_bytes 2 t) buf; encode_tombstones ts (offset + 2) buf
  end.

Fixpoint encode_entries (keys values : list bytes) (offset : Z) (buf : bytes) : result (bytes * Z) :=
  match keys with
  | [] => Ok (buf, offset)
  | key :: keys =>
      value ← vec_at 0 values;
      buf ← put_at offset (to_le_bytes 2 (as_unsigned 16 (len key))) buf;
      let offset := offset + 2 in
      buf ← put_at offset key buf;
      let offset := offset + len key in
      buf ← put_at offset (to_le_bytes 2 (as_unsigned 16 (len value))) buf;
      let offset := offset + 2 in
      buf ← put_at offset value buf;
      encode_entries keys (drop 1 values) (offset + len value) buf
  end.

Definition encode_leaf_node (node : LeafNode) (buf : bytes) : result (bytes * Z) :=
  if len buf <? PAGE_SIZE then Panic else
  buf ← write_to (page_header_new PBTreeLeaf) buf;
  let offset := HEADER_SIZE in
  buf ← put_at offset [node_type_byte Leaf] buf;
  let offset := offset + 1 in
  buf ← put_at offset (to_le_bytes 2 (as_unsigned 16 (len (l_keys node)))) buf;
  let offset := offset + 2 in
  buf ← put_at offset (to_le_bytes 2 (h_max_size (l_header node))) buf;
  let offset := offset + 2 in
  buf ← put_at offset (to_le_bytes 4 (next_page_id node)) buf;
  let offset := offset + 4 in
  buf ← put_at offset (to_le_bytes 4 (prev_page_id node)) buf;
  let offset := offset + 4 in
  let tombstone_count := Z.min (len (tombstones node)) MAX_TOMBSTONES in
  buf ← put_at offset (to_le_bytes 2 tombstone_count) buf;
  let offset := offset + 2 in
  buf ← put_at offset (replicate 5 (byte.of_Z 0)) buf;
  '(buf, offset) ← encode_tombstones (take (Z.to_nat tombstone_count) (tombstones node)) LEAF_HEADER_SIZE buf;
  '(buf, offset) ← encode_entries (l_keys node) (l_values node) offset buf;
  buf ← store_checksum crc32 buf;
  Ok (buf, offset).

Fixpoint decode_tombstones (count : nat) (buf : bytes) (offset : Z) : result (list Z) :=
  match count with
  | O => Ok []
  | S count => t ← read_le 2 offset buf; ts ← decode_tombstones count buf (offset + 2); Ok (t :: ts)
  end.

Fixpoint decode_leaf_entries (count : nat) (buf : bytes) (offset : Z) : result (list bytes * list bytes) :=
  match count with
  | O => Ok ([], [])
  | S count =>
      key_len ← read_le 2 offset buf;
      let offset := offset + 2 in
      key ← slice offset (offset + key_len) buf;
      let offset := offset + key_len in
      val_len ← read_le 2 offset buf;
      let offset := offset + 2 in
      value ← slice offset (offset + val_len) buf;
      '(keys, values) ← decode_leaf_entries count buf (offset + val_len);
      Ok (key :: keys, value :: values)
  end.

Definition decode_leaf_node (buf : bytes) : result LeafNode :=
  check_stored crc32 buf;;
  ty ← index HEADER_SIZE buf;
  if negb (u8 ty =? u8 (node_type_byte Leaf)) then Panic else
  size ← read_le 2 (HEADER_SIZE + 1) buf;
  max_size ← read_le 2 (HEADER_SIZE + 3) buf;
  next ← read_le 4 (HEADER_SIZE + 5) buf;
  prev ← read_le 4 (HEADER_SIZE + 9) buf;
  tombstone_count ← read_le 2 (HEADER_SIZE + 13) buf;
  ts ← decode_tombstones (Z.to_nat tombstone_count) buf LEAF_HEADER_SIZE;
  '(keys, values) ← decode_leaf_entries (Z.to_nat size) buf (LEAF_HEADER_SIZE + 2 * tombstone_count);
  Ok (mkLeaf (mkNodeHeader Leaf size max_size) next prev keys values ts).

(** ** Sizes *)

Definition calculate_leaf_max_size (avg_key_size avg_value_size : Z) : Z :=
  let available := PAGE_SIZE - LEAF_HEADER_SIZE - MAX_TOMBSTONES * 2 in
  as_unsigned 16 (available / (2 + avg_key_size + 2 + avg_value_size)).

Definition calculate_internal_max_size (avg_key_size : Z) : Z :=
  as_unsigned 16 ((PAGE_SIZE - INTERNAL_HEADER_SIZE) / (2 + avg_key_size + 4)).

(** ** The header page *)

Record BTreeHeaderPage := mkHeaderPage { root_page_id : PageId }.

Definition ROOT_OFFSET : Z := HEADER_SIZE.
Definition header_page_new : BTreeHeaderPage := mkHeaderPage INVALID_PAGE.
Definition is_empty (h : BTreeHeaderPage) : bool := root_page_id h =? INVALID_PAGE.

Definition header_encode (h : BTreeHeaderPage) (buf : bytes) : result bytes :=
  buf ← write_to (page_header_new PData) buf;
  buf ← put_at ROOT_OFFSET (to_le_bytes 4 (root_page_id h)) buf;
  if PAGE_SIZE <=? len buf then store_checksum crc32 buf else Ok buf.

Definition header_decode (buf : bytes) : result BTreeHeaderPage :=
  (if PAGE_SIZE <=? len buf then check_stored crc32 buf else Ok tt);;
  root ← read_le 4 ROOT_OFFSET buf;
  Ok (mkHeaderPage root).
End layout.
