(* ===== verification/BPages.v ===== *)
(** What the bytes of a B+tree page show.

    [shows b c] relates a page to the node it holds; every encoder makes a page
    that shows its node, and on such a page the decoder, the lookup in place and
    the walk over the live entries give what the node in memory gives. *)

From Stdlib Require Import ZArith Lia List Bool.
From S2P Require Import Prelude Common Engine Page BNode BLayout.
From coqutil Require Import Byte Word.LittleEndianList.
From stdpp Require Import base list strings sorting.
#[local] Open Scope Z_scope.

(** ** The parts of a page *)

Definition child_bytes (e : bytes * PageId) : bytes := to_le_bytes 2 (len e.1) ++ e.1 ++ to_le_bytes 4 e.2.
Definition leaf_entry_bytes (e : entry) : bytes := to_le_bytes 2 (len e.1) ++ e.1 ++ to_le_bytes 2 (len e.2) ++ e.2.

Definition internal_fields (n : InternalNode) : list (nat * Z) :=
  [(1%nat, 0); (2%nat, h_size (i_header n)); (2%nat, h_max_size (i_header n)); (7%nat, 0)].
Definition internal_body (n : InternalNode) : bytes := concat (map child_bytes (combine (i_keys n) (children n))).

Definition leaf_fields (n : LeafNode) : list (nat * Z) :=
  [(1%nat, 1); (2%nat, len (l_keys n)); (2%nat, h_max_size (l_header n)); (4%nat, next_page_id n); (4%nat, prev_page_id n);
   (2%nat, len (tombstones n)); (5%nat, 0)].
Definition leaf_body (n : LeafNode) : bytes :=
  concat (map (to_le_bytes 2) (tombstones n)) ++ concat (map leaf_entry_bytes (combine (l_keys n) (l_values n))).

(** The page header comes first. *)
Definition page_fields (ty c : Z) (fs : list (nat * Z)) : list (nat * Z) := (1%nat, ty) :: (4%nat, c) :: (8%nat, 0) :: fs.

(** Nodes whose fields fit their width and whose entries fit the page. *)
Record internal_fits (n : InternalNode) : Prop := {
  if_type : node_type (i_header n) = Internal;
  if_size : h_size (i_header n) = len (i_keys n);
  if_max : in_u16 (h_max_size (i_header n)) = true;
  if_children : length (children n) = length (i_keys n);
  if_ids : Forall (fun c => in_u32 c = true) (children n);
  if_room : INTERNAL_HEADER_SIZE + len (internal_body n) <= PAGE_SIZE
}.

Record leaf_fits (n : LeafNode) : Prop := {
  lf_type : node_type (l_header n) = Leaf;
  lf_size : h_size (l_header n) = len (l_keys n);
  lf_max : in_u16 (h_max_size (l_header n)) = true;
  lf_links : in_u32 (next_page_id n) = true /\ in_u32 (prev_page_id n) = true;
  lf_values : length (l_values n) = length (l_keys n);
  lf_tombs : len (tombstones n) <= MAX_TOMBSTONES /\ Forall (fun t => in_u16 t = true) (tombstones n);
  lf_room : LEAF_HEADER_SIZE + len (leaf_body n) <= PAGE_SIZE
}.

(** ** Facts on buffers *)

Definition written (pre buf : bytes) : bytes := pre ++ drop (length pre) buf.

Lemma written_nil buf : written [] buf = buf.
Proof. unfold written. cbn. by rewrite drop_0. Qed.

Lemma len_written pre buf : len pre <= len buf -> len (written pre buf) = len buf.
Proof. unfold written, len. rewrite length_app, length_drop. lia. Qed.

Lemma put_at_mid pre old post data lo :
  lo = len pre -> len old = len data -> put_at lo data (pre ++ old ++ post) = Ok (pre ++ data ++ post).
Proof.
  intros -> L. unfold put_at. pose proof (len_nonneg pre). pose proof (len_nonneg post).
  rewrite !len_app. zcase. zcase. cbn [andb]. do 2 f_equal; unfold len in *.
  - by rewrite Nat2Z.id, take_app_length.
  - f_equal. rewrite app_assoc. apply drop_app_length'. rewrite length_app. lia.
Qed.

Lemma put_at_next pre data buf lo :
  lo = len pre -> len pre + len data <= len buf -> put_at lo data (written pre buf) = Ok (written (pre ++ data) buf).
Proof.
  intros Hlo B. unfold written. set (rest := drop (length pre) buf).
  assert (L : len rest = len buf - len pre) by (unfold rest, len in *; rewrite length_drop; lia).
  pose proof (len_nonneg data). rewrite <- (take_drop (length data) rest).
  rewrite put_at_mid; [|done|].
  - unfold rest. rewrite drop_drop, <- app_assoc. by rewrite length_app.
  - unfold len in *. rewrite length_take. lia.
Qed.

Lemma read_le_mid n z (a c : bytes) lo :
  0 <= z < 2 ^ (8 * Z.of_nat n) -> lo = len a -> read_le n lo (a ++ to_le_bytes n z ++ c) = Ok z.
Proof.
  intros Hz ->. unfold read_le. rewrite slice_mid by (rewrite ?len_to_le_bytes; done). cbn [mbind outcome_bind].
  by rewrite from_to_le_bytes.
Qed.

Lemma fields_middle i fs n z post :
  fs !! i = Some (n, z) ->
  fields fs ++ post = fields (take i fs) ++ to_le_bytes n z ++ fields (drop (S i) fs) ++ post.
Proof.
  intros L. rewrite <- (take_drop_middle _ _ _ L) at 1. unfold fields at 1.
  rewrite map_app, concat_app. cbn [map concat fst snd]. by rewrite <- !app_assoc.
Qed.

Lemma read_le_fields i fs n z post lo :
  fs !! i = Some (n, z) -> 0 <= z < 2 ^ (8 * Z.of_nat n) -> lo = width (take i fs) -> read_le n lo (fields fs ++ post) = Ok z.
Proof. intros L Hz ->. rewrite (fields_middle i fs n z post L). apply read_le_mid; [done|]. by rewrite len_fields. Qed.

Lemma index_fields {E} i fs z post lo :
  fs !! i = Some (1%nat, z) -> lo = width (take i fs) -> @index E lo (fields fs ++ post) = Ok (byte.of_Z z).
Proof.
  intros L ->. rewrite (fields_middle i fs 1 z post L). apply index_app. by rewrite len_fields.
Qed.

Lemma fields_app fs gs : fields (fs ++ gs) = fields fs ++ fields gs.
Proof. unfold fields. by rewrite map_app, concat_app. Qed.

(** The next field of a row. *)
Lemma put_field fs n z data buf lo :
  lo = width fs -> data = to_le_bytes n z -> width fs + Z.of_nat n <= len buf ->
  put_at lo data (written (fields fs) buf) = Ok (written (fields (fs ++ [(n, z)])) buf).
Proof.
  intros -> -> B. rewrite fields_app. unfold fields at 3. cbn [map concat fst snd]. rewrite app_nil_r.
  apply put_at_next; rewrite ?len_fields, ?len_to_le_bytes; lia.
Qed.

(** Write the next field of a page. *)
Ltac next_field n z :=
  rewrite (put_field _ n z) by (done || (match goal with L : len _ = PAGE_SIZE |- _ => rewrite L end; by vm_compute));
  cbn [mbind outcome_bind app page_fields].

(** ** Checksums *)

Section pages.
Context (crc32 : bytes -> Z).
Hypothesis crc32_u32 : forall b, in_u32 (crc32 b) = true.

Definition sealed (ty : Z) (fs : list (nat * Z)) (body b : bytes) : Prop :=
  len b = PAGE_SIZE /\ exists rest,
    b = fields (page_fields ty (crc32 (fields (page_fields ty 0 fs) ++ body ++ rest)) fs) ++ body ++ rest.

Inductive content :=
| CHeader (root : PageId)
| CNode (n : InternalNode)
| CLeaf (n : LeafNode)
| CRaw.

Definition shows (c : content) (b : bytes) : Prop :=
  match c with
  | CHeader r => sealed 1 [(4%nat, r)] [] b /\ in_u32 r = true
  | CNode n => sealed 2 (internal_fields n) (internal_body n) b /\ internal_fits n
  | CLeaf n => sealed 3 (leaf_fields n) (leaf_body n) b /\ leaf_fits n
  | CRaw => len b = PAGE_SIZE
  end.

Lemma crc_range b : 0 <= crc32 b < 2 ^ 32.
Proof. pose proof (crc32_u32 b). unfold in_u32 in *. zbool. lia. Qed.

Lemma compute_checksum_fields ty c fs post :
  compute_checksum crc32 (fields (page_fields ty c fs) ++ post) = Ok (crc32 (fields (page_fields ty 0 fs) ++ post)).
Proof.
  unfold compute_checksum. unfold page_fields, fields. cbn [map concat fst snd]. rewrite <- !app_assoc.
  rewrite slice_prefix by done. cbn [mbind outcome_bind].
  set (rest := to_le_bytes 8 0 ++ concat _ ++ post). rewrite (app_assoc (to_le_bytes 1 ty)).
  rewrite slice_from_app by done. done.
Qed.

Lemma check_stored_sealed ty fs body b : sealed ty fs body b -> check_stored crc32 b = Ok tt.
Proof.
  intros [L [rest ->]]. unfold check_stored. pose proof (crc_range (fields (page_fields ty 0 fs) ++ body ++ rest)) as R.
  rewrite (read_le_fields 1 _ 4 (crc32 (fields (page_fields ty 0 fs) ++ body ++ rest))) by (done || (cbn; lia)).
  cbn [mbind outcome_bind]. split_if; [done|]. rewrite compute_checksum_fields. cbn [mbind outcome_bind]. by rewrite Z.eqb_refl.
Qed.

Lemma store_checksum_seals ty fs body buf :
  let pre := fields (page_fields ty 0 fs) ++ body in
  len buf = PAGE_SIZE -> len pre <= PAGE_SIZE ->
  exists b, store_checksum crc32 (written pre buf) = Ok b /\ sealed ty fs body b.
Proof.
  intros pre L B. unfold store_checksum, written. set (rest := drop (length pre) buf). unfold pre. rewrite <- app_assoc.
  rewrite compute_checksum_fields. cbn [mbind outcome_bind].
  set (c := crc32 (fields (page_fields ty 0 fs) ++ body ++ rest)).
  unfold page_fields at 1, fields at 1. cbn [map concat fst snd]. rewrite <- !app_assoc.
  rewrite (put_at_mid _ (to_le_bytes 4 0) _ (to_le_bytes 4 c)) by done. eexists. split; [done|]. split.
  - assert (Lw : len (written pre buf) = PAGE_SIZE) by (rewrite len_written; lia). rewrite <- Lw. unfold written. fold rest.
    unfold pre. rewrite <- app_assoc. unfold page_fields, fields. cbn [map concat fst snd]. rewrite !len_app, !len_to_le_bytes. lia.
  - exists rest. unfold page_fields at 1, fields at 1. cbn [map concat fst snd]. by rewrite <- !app_assoc.
Qed.

Lemma write_to_ok t buf :
  len buf = PAGE_SIZE ->
  write_to (page_header_new t) buf = Ok (written (fields (page_fields (u8 (page_type_byte t)) 0 [])) buf).
Proof.
  intros L. unfold write_to. rewrite L. cbn [Z.ltb]. change (PAGE_SIZE <? HEADER_SIZE) with false. cbn iota.
  rewrite <- (written_nil buf) at 1. change (@nil byte) with (fields []) at 1.
  rewrite (put_field [] 1 (u8 (page_type_byte t))); [|done| |rewrite L; by vm_compute].
  2: { by destruct t. }
  cbn [mbind outcome_bind app]. rewrite (put_field _ 4 0); [|done|done|rewrite L; by vm_compute].
  cbn [mbind outcome_bind app]. by rewrite (put_field _ 8 0); [|done|done|rewrite L; by vm_compute].
Qed.

(** ** Internal nodes *)

Lemma encode_children_ok keys : forall cs pre buf,
  length cs = length keys -> Forall (fun k => len k < 2 ^ 16) keys ->
  len pre + len (concat (map child_bytes (combine keys cs))) <= len buf ->
  encode_children keys cs (len pre) (written pre buf) =
    Ok (written (pre ++ concat (map child_bytes (combine keys cs))) buf, len pre + len (concat (map child_bytes (combine keys cs)))).
Proof.
  induction keys as [|k keys IH]; intros [|c cs] pre buf L F B; try done; cbn [combine map concat encode_children].
  { by rewrite app_nil_r, Z.add_0_r. }
  apply Forall_cons in F as [Fk F]. cbn [combine map concat] in B. pose proof (len_nonneg k).
  set (tail := concat (map child_bytes (combine keys cs))) in *. pose proof (len_nonneg tail).
  unfold child_bytes in B. cbn [fst snd] in B. rewrite !len_app, !len_to_le_bytes in B.
  cbn [vec_at unwrap lookup list_lookup mbind outcome_bind]. rewrite as_unsigned_small by lia.
  rewrite put_at_next by (rewrite ?len_to_le_bytes; lia). cbn [mbind outcome_bind].
  rewrite put_at_next by (rewrite ?len_app, ?len_to_le_bytes; lia). cbn [mbind outcome_bind].
  rewrite put_at_next by (rewrite ?len_app, ?len_to_le_bytes; lia). cbn [mbind outcome_bind drop].
  rewrite drop_0. set (pre' := ((pre ++ to_le_bytes 2 (len k)) ++ k) ++ to_le_bytes 4 c).
  assert (Lp : len pre' = len pre + 2 + len k + 4) by (unfold pre'; rewrite !len_app, !len_to_le_bytes; lia).
  replace (len pre + 2 + len k + 4) with (len pre') by lia.
  rewrite IH; [|by injection L|done|fold tail; lia]. fold tail. unfold pre'.
  change (child_bytes (k, c)) with (to_le_bytes 2 (len k) ++ k ++ to_le_bytes 4 c).
  f_equal. f_equal; [by rewrite <- !app_assoc|]. rewrite !len_app, !len_to_le_bytes. lia.
Qed.

Lemma decode_children_ok keys : forall cs pre post,
  length cs = length keys -> Forall (fun k => len k < 2 ^ 16) keys -> Forall (fun c => in_u32 c = true) cs ->
  decode_children (length keys) (pre ++ concat (map child_bytes (combine keys cs)) ++ post) (len pre) = Ok (keys, cs).
Proof.
  induction keys as [|k keys IH]; intros [|c cs] pre post L F G; try done; cbn [combine map concat decode_children length].
  apply Forall_cons in F as [Fk F]. apply Forall_cons in G as [Gc G]. unfold in_u32 in Gc. zbool. pose proof (len_nonneg k).
  change (child_bytes (k, c)) with (to_le_bytes 2 (len k) ++ k ++ to_le_bytes 4 c). rewrite <- !app_assoc.
  rewrite read_le_mid by (cbn; lia || done). cbn [mbind outcome_bind].
  rewrite (app_assoc pre), slice_mid by (rewrite ?len_app, ?len_to_le_bytes; lia). cbn [mbind outcome_bind].
  rewrite (app_assoc _ k), read_le_mid by (rewrite ?len_app, ?len_to_le_bytes; cbn; lia). cbn [mbind outcome_bind].
  rewrite (app_assoc _ (to_le_bytes 4 c)). set (pre' := ((pre ++ to_le_bytes 2 (len k)) ++ k) ++ to_le_bytes 4 c).
  replace (len pre + 2 + len k + 4) with (len pre') by (unfold pre'; rewrite !len_app, !len_to_le_bytes; lia).
  by rewrite IH; [|injection L|..].
Qed.

(** What an entry takes of a page. *)
Lemma len_children keys cs :
  length cs = length keys -> len (concat (map child_bytes (combine keys cs))) = Z.of_nat (sum_list (map (fun k => length k + 6)%nat keys)).
Proof.
  revert cs. induction keys as [|k keys IH]; intros [|c cs] L; try done. cbn [combine map concat sum_list sum_list_with].
  rewrite len_app, IH by (by injection L). unfold child_bytes. cbn [fst snd]. rewrite !len_app, !len_to_le_bytes.
  unfold len, sum_list. cbn. lia.
Qed.

Lemma sum_list_elem (l : list nat) x : x ∈ l -> (x <= sum_list l)%nat.
Proof. induction l as [|y l IH]; [by intros ?%not_elem_of_nil|]. intros [->|H]%elem_of_cons; cbn; [lia|]. apply IH in H. cbn in *. lia. Qed.

Lemma sum_list_length (l : list nat) : Forall (fun x => 1 <= x)%nat l -> (length l <= sum_list l)%nat.
Proof. induction 1 as [|x l H F IH]; cbn in *; lia. Qed.

Lemma Forall_combine {A B} (Q : A -> Prop) (R : B -> Prop) ks vs :
  length vs = length ks -> Forall (fun e => Q e.1 /\ R e.2) (combine ks vs) -> Forall Q ks /\ Forall R vs.
Proof.
  revert vs. induction ks as [|k ks IH]; intros [|v vs] L F; try done. cbn in F. apply Forall_cons in F as [[] F].
  destruct (IH vs ltac:(by injection L) F). by split; constructor.
Qed.

Lemma internal_keys_short n : internal_fits n -> Forall (fun k => len k < 2 ^ 16) (i_keys n).
Proof.
  intros [_ _ _ L _ R]. unfold internal_body in R. rewrite len_children in R by done.
  apply Forall_forall. intros k Hk.
  assert ((length k + 6 <= sum_list (map (fun k => length k + 6) (i_keys n)))%nat) as Hs.
  { apply sum_list_elem. apply list_elem_of_fmap. eauto. }
  unfold len, INTERNAL_HEADER_SIZE, PAGE_SIZE in *. lia.
Qed.

Lemma internal_size_u16 n : internal_fits n -> len (i_keys n) < 2 ^ 16.
Proof.
  intros [_ _ _ L _ R]. unfold internal_body in R. rewrite len_children in R by done.
  assert ((length (i_keys n) <= sum_list (map (fun k => length k + 6) (i_keys n)))%nat) as Hs.
  { generalize (i_keys n) as ks. induction ks; cbn in *; lia. }
  unfold len, INTERNAL_HEADER_SIZE, PAGE_SIZE in *. lia.
Qed.

Lemma encode_internal_ok n buf :
  internal_fits n -> len buf = PAGE_SIZE ->
  exists b off, encode_internal_node crc32 n buf = Ok (b, off) /\ shows (CNode n) b.
Proof.
  intros F L. pose proof (internal_keys_short n F) as K. pose proof (internal_size_u16 n F). pose proof F as [T Sz Mx Lc _ R].
  unfold encode_internal_node. rewrite L. change (PAGE_SIZE <? PAGE_SIZE) with false. cbn iota.
  rewrite write_to_ok by done. cbn [mbind outcome_bind].
  next_field 1%nat 0. next_field 2%nat (h_size (i_header n)). next_field 2%nat (h_max_size (i_header n)). next_field 7%nat 0.
  set (pre := fields _). change INTERNAL_HEADER_SIZE with (len pre).
  assert (Lb : len pre + len (internal_body n) <= len buf) by (rewrite L; apply R).
  rewrite encode_children_ok by done. cbn [mbind outcome_bind].
  destruct (store_checksum_seals 2 (internal_fields n) (internal_body n) buf) as (b & E & S0); [done|by rewrite len_app, L in *|].
  change (pre ++ concat _) with (fields (page_fields 2 0 (internal_fields n)) ++ internal_body n). rewrite E. cbn [mbind outcome_bind]. do 2 eexists. split; [done|]. done.
Qed.

Lemma decode_internal_ok n b : shows (CNode n) b -> decode_internal_node crc32 b = Ok n.
Proof.
  intros [S0 F]. unfold decode_internal_node. rewrite (check_stored_sealed _ _ _ _ S0). cbn [mbind outcome_bind].
  pose proof (internal_size_u16 n F). pose proof (internal_keys_short n F) as K. pose proof (len_nonneg (i_keys n)).
  destruct S0 as [_ [rest ->]]. pose proof F as [T Sz Mx Lc Ids _]. unfold in_u16 in Mx. zbool.
  set (c := crc32 _). rewrite (index_fields 3 _ 0) by done. cbn [mbind outcome_bind negb].
  change (negb _) with false. cbn iota.
  rewrite (read_le_fields 4 _ 2 (h_size (i_header n)) _ (HEADER_SIZE + 1)) by (done || (cbn; rewrite ?Sz; lia)). cbn [mbind outcome_bind].
  rewrite (read_le_fields 5 _ 2 (h_max_size (i_header n)) _ (HEADER_SIZE + 3)) by (done || (cbn; rewrite ?Sz; lia)). cbn [mbind outcome_bind].
  replace (Z.to_nat (h_size (i_header n))) with (length (i_keys n)) by (rewrite Sz; unfold len; lia).
  change INTERNAL_HEADER_SIZE with (len (fields (page_fields 2 c (internal_fields n)))).
  unfold internal_body. rewrite decode_children_ok by done. cbn [mbind outcome_bind].
  destruct n as [[ty sz mx] ks cs]. cbn in *. by rewrite T.
Qed.

(** ** Leaves *)

Lemma encode_tombstones_ok ts : forall pre buf,
  len pre + len (concat (map (to_le_bytes 2) ts)) <= len buf ->
  encode_tombstones ts (len pre) (written pre buf) =
    Ok (written (pre ++ concat (map (to_le_bytes 2) ts)) buf, len (pre ++ concat (map (to_le_bytes 2) ts))).
Proof.
  induction ts as [|t ts IH]; intros pre buf B; cbn [map concat encode_tombstones] in *; [by rewrite app_nil_r|].
  set (tail := concat (map (to_le_bytes 2) ts)) in *. pose proof (len_nonneg tail). rewrite len_app, len_to_le_bytes in B.
  rewrite put_at_next by (rewrite ?len_to_le_bytes; lia). cbn [mbind outcome_bind].
  replace (len pre + 2) with (len (pre ++ to_le_bytes 2 t)) by (rewrite len_app, len_to_le_bytes; lia).
  rewrite IH by (rewrite len_app, len_to_le_bytes; fold tail; lia). fold tail. by rewrite <- !app_assoc.
Qed.

Lemma encode_entries_ok keys : forall values pre buf,
  length values = length keys -> Forall (fun k => len k < 2 ^ 16) keys -> Forall (fun v => len v < 2 ^ 16) values ->
  len pre + len (concat (map leaf_entry_bytes (combine keys values))) <= len buf ->
  encode_entries keys values (len pre) (written pre buf) =
    Ok (written (pre ++ concat (map leaf_entry_bytes (combine keys values))) buf,
        len pre + len (concat (map leaf_entry_bytes (combine keys values)))).
Proof.
  induction keys as [|k keys IH]; intros [|v values] pre buf L F G B; try done; cbn [combine map concat encode_entries].
  { by rewrite app_nil_r, Z.add_0_r. }
  apply Forall_cons in F as [Fk F]. apply Forall_cons in G as [Gv G]. cbn [combine map concat] in B.
  pose proof (len_nonneg k). pose proof (len_nonneg v).
  set (tail := concat (map leaf_entry_bytes (combine keys values))) in *. pose proof (len_nonneg tail).
  change (leaf_entry_bytes (k, v)) with (to_le_bytes 2 (len k) ++ k ++ to_le_bytes 2 (len v) ++ v) in *.
  rewrite !len_app, !len_to_le_bytes in B.
  cbn [vec_at unwrap lookup list_lookup mbind outcome_bind]. rewrite !as_unsigned_small by lia.
  do 4 (rewrite put_at_next by (rewrite ?len_app, ?len_to_le_bytes; lia); cbn [mbind outcome_bind drop]).
  rewrite drop_0. set (pre' := (((pre ++ to_le_bytes 2 (len k)) ++ k) ++ to_le_bytes 2 (len v)) ++ v).
  assert (Lp : len pre' = len pre + 2 + len k + 2 + len v) by (unfold pre'; rewrite !len_app, !len_to_le_bytes; lia).
  replace (len pre + 2 + len k + 2 + len v) with (len pre') by lia.
  rewrite IH; [|by injection L|done|done|fold tail; lia]. fold tail. unfold pre'.
  f_equal. f_equal; [by rewrite <- !app_assoc|]. rewrite !len_app, !len_to_le_bytes. lia.
Qed.

Lemma decode_tombstones_ok ts : forall pre post,
  Forall (fun t => in_u16 t = true) ts ->
  decode_tombstones (length ts) (pre ++ concat (map (to_le_bytes 2) ts) ++ post) (len pre) = Ok ts.
Proof.
  induction ts as [|t ts IH]; intros pre post F; cbn [map concat decode_tombstones length]; [done|].
  apply Forall_cons in F as [Ft F]. unfold in_u16 in Ft. zbool. rewrite <- !app_assoc.
  rewrite read_le_mid by (cbn; lia || done). cbn [mbind outcome_bind]. rewrite (app_assoc pre).
  replace (len pre + 2) with (len (pre ++ to_le_bytes 2 t)) by (rewrite len_app, len_to_le_bytes; lia). by rewrite IH.
Qed.

(** The first entry of a list of them, read at its place. *)
Lemma entry_at k v rest pre post :
  len k < 2 ^ 16 -> len v < 2 ^ 16 ->
  let b := pre ++ (leaf_entry_bytes (k, v) ++ rest) ++ post in
  read_le 2 (len pre) b = Ok (len k) /\ @slice Error (len pre + 2) (len pre + 2 + len k) b = Ok k /\
  read_le 2 (len pre + 2 + len k) b = Ok (len v) /\
  @slice Error (len pre + 2 + len k + 2) (len pre + 2 + len k + 2 + len v) b = Ok v /\
  b = (pre ++ leaf_entry_bytes (k, v)) ++ rest ++ post /\ len (pre ++ leaf_entry_bytes (k, v)) = len pre + 2 + len k + 2 + len v.
Proof.
  intros Lk Lv b. pose proof (len_nonneg k). pose proof (len_nonneg v).
  assert (Eb : b = pre ++ to_le_bytes 2 (len k) ++ k ++ to_le_bytes 2 (len v) ++ v ++ rest ++ post).
  { unfold b, leaf_entry_bytes. cbn [fst snd]. by rewrite <- !app_assoc. }
  split_and!; rewrite ?Eb.
  - apply read_le_mid; [cbn; lia|done].
  - rewrite (app_assoc pre). apply slice_mid; rewrite len_app, len_to_le_bytes; lia.
  - rewrite (app_assoc pre), (app_assoc _ k). apply read_le_mid; [cbn; lia|]. rewrite !len_app, len_to_le_bytes. lia.
  - rewrite (app_assoc pre), (app_assoc _ k), (app_assoc _ (to_le_bytes 2 (len v))).
    apply slice_mid; rewrite !len_app, !len_to_le_bytes; lia.
  - unfold leaf_entry_bytes. cbn [fst snd]. by rewrite <- !app_assoc.
  - unfold leaf_entry_bytes. cbn [fst snd]. rewrite !len_app, !len_to_le_bytes. lia.
Qed.

Lemma decode_leaf_entries_ok keys : forall values pre post,
  length values = length keys -> Forall (fun k => len k < 2 ^ 16) keys -> Forall (fun v => len v < 2 ^ 16) values ->
  decode_leaf_entries (length keys) (pre ++ concat (map leaf_entry_bytes (combine keys values)) ++ post) (len pre) = Ok (keys, values).
Proof.
  induction keys as [|k keys IH]; intros [|v values] pre post L F G; try done; cbn [combine map concat decode_leaf_entries length].
  apply Forall_cons in F as [Fk F]. apply Forall_cons in G as [Gv G].
  destruct (entry_at k v (concat (map leaf_entry_bytes (combine keys values))) pre post Fk Gv) as (R1 & R2 & R3 & R4 & E & Lp).
  rewrite R1. cbn [mbind outcome_bind]. rewrite R2. cbn [mbind outcome_bind]. rewrite R3. cbn [mbind outcome_bind].
  rewrite R4. cbn [mbind outcome_bind]. rewrite E, <- Lp. by rewrite IH; [|injection L|..].
Qed.

Lemma len_entries keys values :
  length values = length keys ->
  len (concat (map leaf_entry_bytes (combine keys values))) = Z.of_nat (sum_list (map (fun e => length e.1 + length e.2 + 4)%nat (combine keys values))).
Proof.
  intros _. induction (combine keys values) as [|[k v] l IH]; [done|]. cbn [map concat sum_list sum_list_with].
  rewrite len_app, IH. unfold leaf_entry_bytes. cbn [fst snd]. rewrite !len_app, !len_to_le_bytes.
  unfold len, sum_list. cbn. lia.
Qed.

Lemma leaf_entries_short n :
  leaf_fits n -> len (l_keys n) < 2 ^ 16 /\ Forall (fun k => len k < 2 ^ 16) (l_keys n) /\ Forall (fun v => len v < 2 ^ 16) (l_values n).
Proof.
  intros [_ _ _ _ L _ R]. unfold leaf_body in R. rewrite len_app, len_entries in R by done.
  pose proof (len_nonneg (concat (map (to_le_bytes 2) (tombstones n)))). unfold LEAF_HEADER_SIZE, PAGE_SIZE in R.
  set (s := sum_list _) in R. assert (Hs : (s <= 4096)%nat) by lia. clear R.
  assert (Hl : (length (combine (l_keys n) (l_values n)) <= s)%nat).
  { unfold s. rewrite <- (length_map (fun e => length e.1 + length e.2 + 4)%nat). apply sum_list_length.
    apply Forall_fmap, Forall_true. cbn. lia. }
  rewrite length_combine, L, Nat.min_id in Hl. split; [unfold len; lia|]. apply Forall_combine; [done|].
  apply Forall_forall. intros e He.
  assert (length e.1 + length e.2 + 4 <= s)%nat by (apply sum_list_elem, list_elem_of_fmap; eauto). unfold len. lia.
Qed.

Lemma encode_leaf_ok n buf :
  leaf_fits n -> len buf = PAGE_SIZE -> exists b off, encode_leaf_node crc32 n buf = Ok (b, off) /\ shows (CLeaf n) b.
Proof.
  intros F L. destruct (leaf_entries_short n F) as (Hn & Hk & Hv). pose proof F as [T Sz Mx Lk Lv Tb R].
  pose proof (len_nonneg (l_keys n)). pose proof (len_nonneg (tombstones n)).
  unfold encode_leaf_node. rewrite L. change (PAGE_SIZE <? PAGE_SIZE) with false. cbn iota.
  rewrite write_to_ok by done. cbn [mbind outcome_bind]. rewrite as_unsigned_small by lia.
  rewrite Z.min_l by lia. replace (take _ (tombstones n)) with (tombstones n).
  2: { symmetry. apply take_ge. unfold len. lia. }
  next_field 1%nat 1. next_field 2%nat (len (l_keys n)). next_field 2%nat (h_max_size (l_header n)).
  next_field 4%nat (next_page_id n). next_field 4%nat (prev_page_id n). next_field 2%nat (len (tombstones n)). next_field 5%nat 0.
  set (pre := fields _). change LEAF_HEADER_SIZE with (len pre).
  assert (Lb : len pre + len (leaf_body n) <= len buf) by (rewrite L; apply R). unfold leaf_body in Lb. rewrite len_app in Lb.
  pose proof (len_nonneg (concat (map leaf_entry_bytes (combine (l_keys n) (l_values n))))).
  rewrite encode_tombstones_ok by lia. cbn [mbind outcome_bind].
  rewrite encode_entries_ok by (done || (rewrite len_app; lia)). cbn [mbind outcome_bind].
  destruct (store_checksum_seals 3 (leaf_fields n) (leaf_body n) buf) as (b & E & S0); [done| |].
  { rewrite len_app, L in *. apply R. }
  replace ((pre ++ _) ++ _) with (fields (page_fields 3 0 (leaf_fields n)) ++ leaf_body n) by apply app_assoc. rewrite E.
  cbn [mbind outcome_bind]. do 2 eexists. done.
Qed.

Lemma decode_leaf_ok n b : shows (CLeaf n) b -> decode_leaf_node crc32 b = Ok n.
Proof.
  intros [S0 F]. unfold decode_leaf_node. rewrite (check_stored_sealed _ _ _ _ S0). cbn [mbind outcome_bind].
  destruct (leaf_entries_short n F) as (Hn & Hk & Hv). pose proof (len_nonneg (l_keys n)). pose proof (len_nonneg (tombstones n)).
  destruct S0 as [_ [rest ->]]. pose proof F as [T Sz Mx [Nx Pv] Lv [Tn Tb] _]. unfold in_u16, in_u32, MAX_TOMBSTONES in *. zbool.
  set (c := crc32 _). rewrite (index_fields 3 _ 1) by done. cbn [mbind outcome_bind]. change (negb _) with false. cbn iota.
  rewrite (read_le_fields 4 _ 2 (len (l_keys n)) _ (HEADER_SIZE + 1)) by (done || (cbn; lia)). cbn [mbind outcome_bind].
  rewrite (read_le_fields 5 _ 2 (h_max_size (l_header n)) _ (HEADER_SIZE + 3)) by (done || (cbn; lia)). cbn [mbind outcome_bind].
  rewrite (read_le_fields 6 _ 4 (next_page_id n) _ (HEADER_SIZE + 5)) by (done || (cbn; lia)). cbn [mbind outcome_bind].
  rewrite (read_le_fields 7 _ 4 (prev_page_id n) _ (HEADER_SIZE + 9)) by (done || (cbn; lia)). cbn [mbind outcome_bind].
  rewrite (read_le_fields 8 _ 2 (len (tombstones n)) _ (HEADER_SIZE + 13)) by (done || (cbn; lia)). cbn [mbind outcome_bind].
  replace (Z.to_nat (len (tombstones n))) with (length (tombstones n)) by (unfold len; lia).
  replace (Z.to_nat (len (l_keys n))) with (length (l_keys n)) by (unfold len; lia).
  set (pre := fields _). change LEAF_HEADER_SIZE with (len pre). unfold leaf_body. rewrite <- app_assoc.
  rewrite decode_tombstones_ok by (eapply Forall_impl; [exact Tb|]; done). cbn [mbind outcome_bind].
  rewrite (app_assoc pre). replace (len pre + 2 * len (tombstones n)) with (len (pre ++ concat (map (to_le_bytes 2) (tombstones n)))).
  2: { rewrite len_app. f_equal. generalize (tombstones n) as ts. clear. induction ts as [|t ts IH]; [done|]. cbn [map concat].
       rewrite len_app, len_to_le_bytes, IH, len_cons. lia. }
  rewrite decode_leaf_entries_ok by done. cbn [mbind outcome_bind].
  destruct n as [[ty sz mx] nx pv ks vs ts]. cbn in *. by rewrite T, Sz.
Qed.

(** The tombstones of a page, read in place. *)
Lemma is_tombstoned_ok ts : forall pre post i,
  Forall (fun t => in_u16 t = true) ts ->
  is_tombstoned (pre ++ concat (map (to_le_bytes 2) ts) ++ post) (len pre) (length ts) i = Ok (bool_decide (u16_of i ∈ ts)).
Proof.
  unfold is_tombstoned. intros pre post i. revert pre.
  induction ts as [|t ts IH]; intros pre F; cbn [map concat is_tombstoned_loop length]; [done|].
  apply Forall_cons in F as [Ft F]. unfold in_u16 in Ft. zbool. rewrite <- !app_assoc.
  rewrite read_le_mid by (cbn; lia || done). cbn [mbind outcome_bind]. destruct (Z.eqb_spec t (u16_of i)) as [->|N].
  { by rewrite bool_decide_true by apply list_elem_of_here. }
  rewrite (app_assoc pre). replace (len pre + 2) with (len (pre ++ to_le_bytes 2 t)) by (rewrite len_app, len_to_le_bytes; lia).
  rewrite IH by done. f_equal. apply bool_decide_ext. rewrite elem_of_cons. naive_solver.
Qed.

Lemma live_from_fst i dead keys values : forall e, e ∈ live_from i dead keys values -> e.1 ∈ keys.
Proof.
  revert i values. induction keys as [|k keys IH]; intros i [|v values] e; cbn [live_from]; try by intros ?%not_elem_of_nil.
  rewrite elem_of_app, elem_of_cons. intros [He|He]; [|right; by eapply IH].
  destruct (dead i); [by apply not_elem_of_nil in He|]. apply list_elem_of_singleton in He as ->. by left.
Qed.

Lemma lookup_loop_ok key keys : forall values i pre post b tc dead,
  b = pre ++ concat (map leaf_entry_bytes (combine keys values)) ++ post ->
  length values = length keys -> Forall (fun k => len k < 2 ^ 16) keys -> Forall (fun v => len v < 2 ^ 16) values ->
  StronglySorted blt keys -> (forall j, is_tombstoned b LEAF_HEADER_SIZE tc j = Ok (dead j)) ->
  lookup_loop (length keys) b key tc i (len pre) = Ok (kv_get key (live_from i dead keys values)).
Proof.
  induction keys as [|k keys IH]; intros [|v values] i pre post b tc dead Eb L F G So D; try done.
  cbn [combine map concat lookup_loop length live_from] in *.
  apply Forall_cons in F as [Fk F]. apply Forall_cons in G as [Gv G]. apply StronglySorted_inv in So as [So Hd].
  destruct (entry_at k v (concat (map leaf_entry_bytes (combine keys values))) pre post Fk Gv) as (R1 & R2 & R3 & R4 & E & Lp).
  rewrite <- Eb in *. rewrite R1. cbn [mbind outcome_bind]. rewrite R2. cbn [mbind outcome_bind]. rewrite R3. cbn [mbind outcome_bind].
  assert (Above : ble key k -> kv_get key (live_from (S i) dead keys values) = None).
  { intros Le. apply kv_get_above. apply Forall_forall. intros e He%live_from_fst.
    eapply ble_blt_trans; [exact Le|]. by apply (proj1 (Forall_forall _ _) Hd). }
  destruct (bcmp k key) eqn:C.
  - apply bcmp_eq in C as ->. rewrite D. cbn [mbind outcome_bind]. destruct (dead i); cbn [app kv_get].
    + by rewrite Above.
    + rewrite R4. cbn [mbind outcome_bind]. by rewrite bool_decide_true.
  - rewrite <- Lp. rewrite (IH values (S i) _ post b tc dead); [|done|by injection L|done..]. f_equal.
    destruct (dead i); cbn [app kv_get]; [done|]. rewrite bool_decide_false; [done|]. intros ->. by rewrite bcmp_refl in C.
  - apply bcmp_Gt in C. f_equal. destruct (dead i); cbn [app kv_get].
    + symmetry. by apply Above, blt_ble.
    + rewrite bool_decide_false; [|intros ->; by apply blt_irrefl in C]. symmetry. by apply Above, blt_ble.
Qed.

(** Where the entries of a leaf start, and its tombstones read in place. *)
Lemma leaf_page_parts n b :
  shows (CLeaf n) b ->
  exists pre post, b = pre ++ concat (map leaf_entry_bytes (combine (l_keys n) (l_values n))) ++ post /\
    len pre = LEAF_HEADER_SIZE + len (tombstones n) * 2 /\
    (forall j, is_tombstoned b LEAF_HEADER_SIZE (length (tombstones n)) j = Ok (is_tombstone j n)).
Proof.
  intros [[_ [rest ->]] [_ _ _ _ _ [_ Tb] _]]. set (c := crc32 _). set (pre := fields _).
  exists (pre ++ concat (map (to_le_bytes 2) (tombstones n))), rest. unfold leaf_body. split; [by rewrite <- !app_assoc|]. split.
  - rewrite len_app. change (len pre) with LEAF_HEADER_SIZE. f_equal. generalize (tombstones n) as ts. clear.
    induction ts as [|t ts IH]; [done|]. cbn [map concat]. rewrite len_app, len_to_le_bytes, IH, len_cons. lia.
  - intros j. rewrite <- app_assoc. change LEAF_HEADER_SIZE with (len pre). by apply is_tombstoned_ok.
Qed.

Lemma leaf_header_reads n b :
  shows (CLeaf n) b ->
  check_stored crc32 b = Ok tt /\ @index Error HEADER_SIZE b = Ok (node_type_byte Leaf) /\
  read_le 2 (HEADER_SIZE + 1) b = Ok (len (l_keys n)) /\ read_le 4 (HEADER_SIZE + 1 + 2 + 2) b = Ok (next_page_id n) /\
  read_le 2 TOMBSTONE_COUNT_OFFSET b = Ok (len (tombstones n)).
Proof.
  intros [S0 F]. split; [by apply (check_stored_sealed _ _ _ _ S0)|].
  destruct (leaf_entries_short n F) as (Hn & Hk & Hv). pose proof (len_nonneg (l_keys n)). pose proof (len_nonneg (tombstones n)).
  destruct S0 as [_ [rest ->]]. pose proof F as [T Sz Mx [Nx Pv] Lv [Tn Tb] _]. unfold in_u16, in_u32, MAX_TOMBSTONES in *. zbool.
  set (c := crc32 _). split_and!.
  - by apply (index_fields 3 _ 1).
  - apply (read_le_fields 4); [done|cbn; lia|done].
  - apply (read_le_fields 6); [done|cbn; lia|done].
  - apply (read_le_fields 8); [done|cbn; lia|done].
Qed.

Lemma lookup_in_place n b key :
  shows (CLeaf n) b -> StronglySorted blt (l_keys n) ->
  lookup_in_encoded_leaf crc32 b key = Ok (kv_get key (live_entries n)).
Proof.
  intros S0 So. destruct (leaf_header_reads n b S0) as (H1 & H2 & H3 & _ & H5).
  destruct (leaf_page_parts n b S0) as (pre & post & Eb & Lp & D). pose proof S0 as [_ F].
  destruct (leaf_entries_short n F) as (Hn & Hk & Hv).
  unfold lookup_in_encoded_leaf. rewrite H1. cbn [mbind outcome_bind]. rewrite H2. cbn [mbind outcome_bind].
  change (negb _) with false. cbn iota. rewrite H3. cbn [mbind outcome_bind]. rewrite H5. cbn [mbind outcome_bind].
  replace (Z.to_nat (len (tombstones n))) with (length (tombstones n)) by (unfold len; lia).
  replace (Z.to_nat (len (l_keys n))) with (length (l_keys n)) by (unfold len; lia). rewrite <- Lp.
  apply (lookup_loop_ok key (l_keys n) (l_values n) 0 pre post); try done. apply F.
Qed.

Lemma internal_type_byte n b : shows (CNode n) b -> @index Error HEADER_SIZE b = Ok (node_type_byte Internal).
Proof. intros [[_ [rest ->]] _]. by apply (index_fields 3 _ 0). Qed.

Lemma leaf_type_byte n b : shows (CLeaf n) b -> @index Error HEADER_SIZE b = Ok (node_type_byte Leaf).
Proof. intros S0. apply (leaf_header_reads n b S0). Qed.

(** ** The header page *)

Lemma header_encode_ok r buf :
  in_u32 r = true -> len buf = PAGE_SIZE -> exists b, header_encode crc32 (mkHeaderPage r) buf = Ok b /\ shows (CHeader r) b.
Proof.
  intros R L. unfold header_encode. rewrite write_to_ok by done. cbn [mbind outcome_bind].
  cbn [root_page_id]. next_field 4%nat r. rewrite len_written by (rewrite L; by vm_compute). rewrite L, Z.leb_refl.
  destruct (store_checksum_seals 1 [(4%nat, r)] [] buf) as (b & E & S0); [done|by vm_compute|]. rewrite app_nil_r in E.
  exists b. split; [exact E|done].
Qed.

Lemma header_decode_ok r b : shows (CHeader r) b -> header_decode crc32 b = Ok (mkHeaderPage r).
Proof.
  intros [S0 R]. unfold header_decode. rewrite (check_stored_sealed _ _ _ _ S0). pose proof S0 as [L [rest Eb]].
  rewrite L, Z.leb_refl. cbn [mbind outcome_bind]. unfold in_u32 in R. zbool. rewrite Eb.
  by rewrite (read_le_fields 3 _ 4 r) by (done || (cbn; lia)).
Qed.

(** ** The walk over the live entries *)

(** The iterator stands before the entries with these keys and values. *)
Definition stands (e : EncodedLeaf) (dead : nat -> bool) (it : EncodedLeafEntries) (keys values : list bytes) : Prop :=
  (exists pre post, el_buf e = pre ++ concat (map leaf_entry_bytes (combine keys values)) ++ post /\ ee_offset it = len pre) /\
  (el_size e - physical_index it)%nat = length keys /\ length values = length keys /\
  Forall (fun k => len k < 2 ^ 16) keys /\ Forall (fun v => len v < 2 ^ 16) values /\
  (forall j, is_tombstoned (el_buf e) LEAF_HEADER_SIZE (el_tombstone_count e) j = Ok (dead j)).

Lemma encoded_next_ok e dead keys : forall values it,
  stands e dead it keys values ->
  match live_from (physical_index it) dead keys values with
  | [] => exists it', encoded_next e it = Ok (None, it')
  | x :: rest => exists it' keys' values', encoded_next e it = Ok (Some x, it') /\ stands e dead it' keys' values' /\
      (length keys' < length keys)%nat /\ live_from (physical_index it') dead keys' values' = rest
  end.
Proof.
  unfold encoded_next. induction keys as [|k keys IH]; intros [|v values] it ((pre & post & Eb & Eo) & Sz & L & F & G & D); try done.
  { cbn [live_from]. rewrite Sz. by eexists. }
  cbn [live_from combine map concat] in *. rewrite Sz. cbn [length entries_next].
  apply Forall_cons in F as [Fk F]. apply Forall_cons in G as [Gv G].
  destruct (entry_at k v (concat (map leaf_entry_bytes (combine keys values))) pre post Fk Gv) as (R1 & R2 & R3 & R4 & E & Lp).
  rewrite <- Eb in *. rewrite Eo, R1. cbn [mbind outcome_bind]. rewrite R3. cbn [mbind outcome_bind]. rewrite D. cbn [mbind outcome_bind].
  set (it' := mkEntries _ _).
  assert (St : stands e dead it' keys values).
  { split_and!; [|cbn in *; lia|by injection L|done..]. exists (pre ++ leaf_entry_bytes (k, v)), post. split; [done|]. cbn. by rewrite Lp. }
  destruct (dead (physical_index it)); cbn [app].
  - specialize (IH values it' St). assert (Le : (el_size e - physical_index it')%nat = length keys) by apply St.
    rewrite Le in IH. cbn [physical_index it'] in IH.
    destruct (live_from (S (physical_index it)) dead keys values) as [|x rest]; [done|].
    destruct IH as (it2 & ks & vs & H1 & H2 & H3 & H4). exists it2, ks, vs. by split_and!; [..|cbn; lia|].
  - rewrite R2. cbn [mbind outcome_bind]. rewrite R4. cbn [mbind outcome_bind]. exists it', keys, values. by split_and!; [..|lia|].
Qed.

Lemma in_range_ok ts : forall pre post size,
  Forall (fun t => in_u16 t = true) ts -> Forall (fun t => t < Z.of_nat size) ts ->
  in_range_loop (length ts) (pre ++ concat (map (to_le_bytes 2) ts) ++ post) (len pre) size = Ok true.
Proof.
  induction ts as [|t ts IH]; intros pre post size F B; cbn [map concat in_range_loop length]; [done|].
  apply Forall_cons in F as [Ft F]. apply Forall_cons in B as [Bt B]. unfold in_u16 in Ft. zbool. rewrite <- !app_assoc.
  rewrite read_le_mid by (cbn; lia || done). cbn [mbind outcome_bind]. destruct (Z.ltb_spec t (Z.of_nat size)); [|lia].
  rewrite (app_assoc pre). replace (len pre + 2) with (len (pre ++ to_le_bytes 2 t)) by (rewrite len_app, len_to_le_bytes; lia).
  by apply IH.
Qed.

Lemma encoded_leaf_parse_ok n b :
  shows (CLeaf n) b -> Forall (fun t => t < len (l_keys n)) (tombstones n) ->
  exists e, encoded_leaf_parse crc32 b = Ok e /\ el_next_page_id e = next_page_id n /\ el_size e = length (l_keys n) /\
    tombstones_in_range e = Ok true /\ stands e (fun j => is_tombstone j n) (encoded_live_entries e) (l_keys n) (l_values n).
Proof.
  intros S0 B. destruct (leaf_header_reads n b S0) as (H1 & H2 & H3 & H4 & H5). pose proof S0 as [_ F].
  destruct (leaf_page_parts n b S0) as (pre & post & Eb & Lp & D). destruct (leaf_entries_short n F) as (Hn & Hk & Hv).
  unfold encoded_leaf_parse. rewrite H1. cbn [mbind outcome_bind]. rewrite H2. cbn [mbind outcome_bind].
  change (negb _) with false. cbn iota. rewrite H3. cbn [mbind outcome_bind]. rewrite H4. cbn [mbind outcome_bind].
  rewrite H5. cbn [mbind outcome_bind].
  replace (Z.to_nat (len (tombstones n))) with (length (tombstones n)) by (unfold len; lia).
  replace (Z.to_nat (len (l_keys n))) with (length (l_keys n)) by (unfold len; lia).
  eexists. split; [done|]. cbn [el_next_page_id el_size]. split_and!; [done|done| |].
  - unfold tombstones_in_range. cbn [el_tombstone_count el_buf el_size]. destruct S0 as [[_ [rest ->]] _]. unfold leaf_body.
    rewrite <- app_assoc. set (pre0 := fields _). change LEAF_HEADER_SIZE with (len pre0). apply in_range_ok; [apply F|done].
  - split_and!; try done; [|cbn; lia|apply F]. exists pre, post. by rewrite Lp.
Qed.
End pages.
