(* ===== verification/Pool.v ===== *)
(** What the B+tree needs of the buffer pool
    (crates/idb-storage/src/buffer/{buffer_pool_manager,page_guard}.rs).

    [BufferPool] states it as an interface: the calls of the pool that the tree
    makes, and that they behave as calls on a growing array of pages as long as
    no page is asked for twice and a frame is left.  The live guards are part of
    the state of a pool; [scoped] drops what a call still holds when it returns.

    [Array] is the simplest pool that keeps the promise: the array itself. *)

From Stdlib Require Import ZArith Lia List Bool.
From S2P Require Import Prelude Common Page.
From coqutil Require Import Byte.
From stdpp Require Import base list strings.
#[local] Open Scope Z_scope.

(** [PageReadGuard] and [PageWriteGuard]. *)
Record PageGuard := mkGuard { frame_id : nat; page_id : PageId; writes : bool }.

#[global] Instance PageGuard_eq_dec : EqDecision PageGuard.
Proof. solve_decision. Defined.

Definition held (gs : list PageGuard) : list PageId := map page_id gs.
Definition without (p : PageId) (gs : list PageGuard) : list PageGuard := List.filter (fun g => negb (page_id g =? p)) gs.

Class BufferPool (P : Type) := {
  fetch_page_read : PageId -> M P PageGuard;
  fetch_page_write : PageId -> M P PageGuard;
  new_page : M P PageGuard;
  as_slice : PageGuard -> P -> result bytes;
  set_slice : PageGuard -> bytes -> M P unit;
  drop_guard : PageGuard -> M P unit;
  disk_page_count : P -> Z;
  flush_all_pages : M P unit;

  pages : P -> list bytes;
  guards : P -> list PageGuard;
  pool_size : P -> nat;
  pool_ok : P -> Prop;

  (** Where a call can leave a pool. *)
  becomes (p p' : P) (ps : list bytes) (gs : list PageGuard) : Prop :=
    pool_ok p' /\ pages p' = ps /\ guards p' = gs /\ pool_size p' = pool_size p;

  fetch_read_ok p i :
    pool_ok p -> 0 <= i < len (pages p) -> i ∉ held (guards p) -> (length (guards p) < pool_size p)%nat ->
    exists g p', fetch_page_read i p = (Ok g, p') /\ page_id g = i /\ writes g = false /\ becomes p p' (pages p) (g :: guards p);
  fetch_write_ok p i :
    pool_ok p -> 0 <= i < len (pages p) -> i ∉ held (guards p) -> (length (guards p) < pool_size p)%nat ->
    exists g p', fetch_page_write i p = (Ok g, p') /\ page_id g = i /\ writes g = true /\ becomes p p' (pages p) (g :: guards p);
  new_page_ok p :
    pool_ok p -> len (pages p) < INVALID_PAGE -> (length (guards p) < pool_size p)%nat ->
    exists g p', new_page p = (Ok g, p') /\ page_id g = len (pages p) /\ writes g = true /\
      becomes p p' (pages p ++ [page_new]) (g :: guards p);
  as_slice_ok p g b :
    pool_ok p -> g ∈ guards p -> pages p !! Z.to_nat (page_id g) = Some b -> as_slice g p = Ok b;
  set_slice_ok p g b :
    pool_ok p -> g ∈ guards p -> writes g = true -> len b = PAGE_SIZE ->
    exists p', set_slice g b p = (Ok tt, p') /\ becomes p p' (<[Z.to_nat (page_id g) := b]> (pages p)) (guards p);
  drop_guard_ok p g :
    pool_ok p -> g ∈ guards p ->
    exists p', drop_guard g p = (Ok tt, p') /\ becomes p p' (pages p) (without (page_id g) (guards p));
  flush_all_ok p :
    pool_ok p -> exists p', flush_all_pages p = (Ok tt, p') /\ becomes p p' (pages p) (guards p);
  page_count_ok p : pool_ok p -> disk_page_count p = len (pages p);
  pages_sized p : pool_ok p -> Forall (fun b => len b = PAGE_SIZE) (pages p)
}.

Section guards.
Context {P : Type} `{BufferPool P}.

Fixpoint drop_each (gs : list PageGuard) : M P unit :=
  match gs with
  | [] => mret tt
  | g :: gs => drop_guard g;; drop_each gs
  end.

(** A call drops the guards it still holds when it returns, whatever it returns. *)
Definition scoped {A} (m : M P A) : M P A := fun p =>
  let '(r, p') := m p in
  (r, (drop_each (List.filter (fun g => bool_decide (page_id g ∉ held (guards p))) (guards p')) p').2).

(** What the holder of a write guard leaves in the page. *)
Definition edit_page (g : PageGuard) (f : bytes -> result bytes) : M P unit :=
  b ← (fun p => (as_slice g p, p));
  b' ← pure (f b);
  set_slice g b'.

Definition page_of (g : PageGuard) : M P bytes := fun p => (as_slice g p, p).
End guards.

(** ** The array of pages *)

Record Array := mkArray { a_pages : list bytes; a_guards : list PageGuard; a_size : nat }.

Definition array_fetch (w : bool) (i : PageId) : M Array PageGuard := fun a =>
  if negb (len (a_pages a) <=? i) && (0 <=? i) then
    if bool_decide (i ∈ held (a_guards a)) then (Panic, a) else
    if (a_size a <=? length (a_guards a))%nat then (Err NoFreeFrames, a) else
    let g := mkGuard 0 i w in (Ok g, mkArray (a_pages a) (g :: a_guards a) (a_size a))
  else (Err (PageNotFound i), a).

Definition array_new_page : M Array PageGuard := fun a =>
  if (a_size a <=? length (a_guards a))%nat then (Err NoFreeFrames, mkArray (a_pages a ++ [page_new]) (a_guards a) (a_size a)) else
  let g := mkGuard 0 (len (a_pages a)) true in (Ok g, mkArray (a_pages a ++ [page_new]) (g :: a_guards a) (a_size a)).

Record array_ok (a : Array) : Prop := {
  array_sized : Forall (fun b => len b = PAGE_SIZE) (a_pages a);
  array_held : Forall (fun i => 0 <= i < len (a_pages a)) (held (a_guards a));
  array_once : NoDup (held (a_guards a))
}.

Definition array_as_slice (g : PageGuard) (a : Array) : result bytes :=
  if bool_decide (g ∈ a_guards a) then unwrap (a_pages a !! Z.to_nat (page_id g)) else Panic.

Definition array_set_slice (g : PageGuard) (b : bytes) : M Array unit := fun a =>
  if bool_decide (g ∈ a_guards a) && writes g
  then (Ok tt, mkArray (<[Z.to_nat (page_id g) := b]> (a_pages a)) (a_guards a) (a_size a)) else (Panic, a).

Definition array_drop (g : PageGuard) : M Array unit := fun a =>
  (Ok tt, mkArray (a_pages a) (without (page_id g) (a_guards a)) (a_size a)).

(** ** Facts *)

Lemma held_without p gs : held (without p gs) = List.filter (fun i => negb (i =? p)) (held gs).
Proof. unfold held, without. induction gs as [|g gs IH]; cbn; [done|]. split_if; cbn; by rewrite IH. Qed.

Lemma elem_of_filterb {A} (f : A -> bool) l x : x ∈ List.filter f l <-> x ∈ l /\ f x = true.
Proof. rewrite !list_elem_of_In. apply filter_In. Qed.

Lemma NoDup_filterb {A} (f : A -> bool) l : NoDup l -> NoDup (List.filter f l).
Proof. rewrite !NoDup_ListNoDup. apply List.NoDup_filter. Qed.

Lemma without_held p gs : p ∉ held gs -> without p gs = gs.
Proof.
  unfold held, without. induction gs as [|g gs IH]; cbn; [done|]. intros [N1 N2]%not_elem_of_cons.
  destruct (Z.eqb_spec (page_id g) p); [congruence|]. cbn. by rewrite IH.
Qed.

Lemma array_ok_without a p : array_ok a -> array_ok (mkArray (a_pages a) (without p (a_guards a)) (a_size a)).
Proof.
  intros [Sz Hd On]. constructor; cbn; [done| |]; rewrite held_without.
  - apply Forall_forall. intros i [Hi _]%elem_of_filterb. by apply (proj1 (Forall_forall _ _) Hd).
  - by apply NoDup_filterb.
Qed.

Lemma array_fetch_ok w a i :
  array_ok a -> 0 <= i < len (a_pages a) -> i ∉ held (a_guards a) -> (length (a_guards a) < a_size a)%nat ->
  array_fetch w i a = (Ok (mkGuard 0 i w), mkArray (a_pages a) (mkGuard 0 i w :: a_guards a) (a_size a)) /\
  array_ok (mkArray (a_pages a) (mkGuard 0 i w :: a_guards a) (a_size a)).
Proof.
  intros [Sz Hd On] B N F. unfold array_fetch. destruct (Z.leb_spec (len (a_pages a)) i), (Z.leb_spec 0 i); try lia. cbn. rewrite bool_decide_false by done.
  destruct (Nat.leb_spec (a_size a) (length (a_guards a))); [lia|]. split; [done|]. constructor; cbn; [done| |].
  - by constructor.
  - by constructor.
Qed.

#[global, program] Instance array_pool : BufferPool Array := {
  fetch_page_read := array_fetch false;
  fetch_page_write := array_fetch true;
  new_page := array_new_page;
  as_slice := array_as_slice;
  set_slice := array_set_slice;
  drop_guard := array_drop;
  disk_page_count a := len (a_pages a);
  flush_all_pages := mret tt;
  pages := a_pages; guards := a_guards; pool_size := a_size; pool_ok := array_ok
}.
Next Obligation. intros p i A B N F. destruct (array_fetch_ok false p i A B N F) as [E O]. do 2 eexists. split; [exact E|]. by split_and!. Qed.
Next Obligation. intros p i A B N F. destruct (array_fetch_ok true p i A B N F) as [E O]. do 2 eexists. split; [exact E|]. by split_and!. Qed.
Next Obligation.
  intros p [Sz Hd On] B F. unfold array_new_page. destruct (Nat.leb_spec (a_size p) (length (a_guards p))); [lia|].
  do 2 eexists. split; [done|]. split_and!; [done|done| |done|done|done]. cbn in *.
  assert (L : len (a_pages p ++ [page_new]) = len (a_pages p) + 1) by (by rewrite len_app).
  pose proof (len_nonneg (a_pages p)). constructor; cbn.
  - apply Forall_app. split; [done|]. by apply Forall_singleton.
  - constructor; [lia|]. eapply Forall_impl; [exact Hd|]. cbn. lia.
  - constructor; [|done]. intros Hi. pose proof (proj1 (Forall_forall _ _) Hd _ Hi). cbn in *. lia.
Qed.
Next Obligation. intros p g b A G L. unfold array_as_slice. by rewrite bool_decide_true, L. Qed.
Next Obligation.
  intros p g b [Sz Hd On] G W L. unfold array_set_slice. rewrite bool_decide_true, W by done. cbn. eexists. split; [done|].
  split_and!; try done. constructor; cbn; [by apply Forall_insert| |done].
  eapply Forall_impl; [exact Hd|]. unfold len. by rewrite length_insert.
Qed.
Next Obligation. intros p g A G. eexists. split; [done|]. split_and!; try done. by apply array_ok_without. Qed.
Next Obligation. intros p A. by eexists. Qed.
Next Obligation. done. Qed.
Next Obligation. by intros p []. Qed.
