(* ===== verification/BTree.v ===== *)
(** The B+tree over a buffer pool: search, insertion with splits and deletion
    with redistribution and merges (crates/idb-storage/src/engines/btree/tree.rs
    and context.rs).

    The latches of one thread are its live guards; a call that would wait for a
    page its own thread holds panics.  Guards are dropped where the source drops
    them or lets them go out of scope before it goes on; what is left at the end
    of a public call is dropped by [scoped].  The loops over the levels of the
    tree have [MAX_TREE_HEIGHT] as fuel, as in the source; the walks up the
    ancestors recurse on the write set. *)

From Stdlib Require Import ZArith Lia List Bool.
From S2P Require Import Prelude Common Engine Page BNode BLayout Pool.
From coqutil Require Import Byte.
From stdpp Require Import base list strings.
#[local] Open Scope Z_scope.

Definition MAX_TREE_HEIGHT : nat := 20.
Definition MAX_WRITE_SET_DEPTH : nat := 20.
Definition DEFAULT_AVG_KEY_SIZE : Z := 32.
Definition DEFAULT_AVG_VALUE_SIZE : Z := 64.

Record BTree := mkBTree {
  header_page_id : PageId;
  leaf_max_size : Z;
  internal_max_size : Z;
  max_tombstones : nat
}.

Definition btree_new (header : PageId) : BTree :=
  mkBTree header (calculate_leaf_max_size DEFAULT_AVG_KEY_SIZE DEFAULT_AVG_VALUE_SIZE)
    (calculate_internal_max_size DEFAULT_AVG_KEY_SIZE) 0.

Definition with_tombstones (header : PageId) (leaf_max internal_max : Z) (tombs : nat) : result BTree :=
  if leaf_max <? 2 then Panic else
  if internal_max <? 3 then Panic else Ok (mkBTree header leaf_max internal_max tombs).

Definition with_sizes (header : PageId) (leaf_max internal_max : Z) : result BTree :=
  with_tombstones header leaf_max internal_max 0.

Record SplitResult := mkSplit { new_page_id : PageId; separator_key : bytes }.

(** [Context]; the write set grows at its end, from the root down. *)
Record Context := mkContext { header_guard : option PageGuard; write_set : list PageGuard }.

Definition context_new : Context := mkContext None [].
Definition set_header (g : option PageGuard) (ctx : Context) : Context := mkContext g (write_set ctx).

Definition ctx_push (g : PageGuard) (ctx : Context) : result Context :=
  if (length (write_set ctx) <? MAX_WRITE_SET_DEPTH)%nat then Ok (mkContext (header_guard ctx) (write_set ctx ++ [g])) else Panic.

Definition ctx_pop (ctx : Context) : option (PageGuard * Context) :=
  match last (write_set ctx) with
  | Some g => Some (g, mkContext (header_guard ctx) (take (length (write_set ctx) - 1) (write_set ctx)))
  | None => None
  end.

Section tree.
Context {P : Type} `{BufferPool P} (crc32 : bytes -> Z).

Definition release_ancestors (ctx : Context) : M P Context :=
  drop_each (option_list (header_guard ctx));;
  drop_each (write_set ctx);;
  mret context_new.

(** ** Pages as nodes *)

Definition read_internal_at (g : PageGuard) : M P InternalNode := b ← page_of g; pure (decode_internal_node crc32 b).
Definition read_leaf_at (g : PageGuard) : M P LeafNode := b ← page_of g; pure (decode_leaf_node crc32 b).
Definition read_header_at (g : PageGuard) : M P BTreeHeaderPage := b ← page_of g; pure (header_decode crc32 b).

Definition write_internal (g : PageGuard) (n : InternalNode) : M P unit :=
  edit_page g (fun b => r ← encode_internal_node crc32 n b; Ok r.1).
Definition write_leaf (g : PageGuard) (n : LeafNode) : M P unit :=
  edit_page g (fun b => r ← encode_leaf_node crc32 n b; Ok r.1).
Definition write_root (g : PageGuard) (root : PageId) : M P unit :=
  edit_page g (fun b => header_encode crc32 (mkHeaderPage root) b).

(** [NodeType::from_u8(data[PageHeader::SIZE])] or an error. *)
Definition node_type_of (g : PageGuard) : M P NodeType :=
  b ← page_of g;
  ty ← pure (index HEADER_SIZE b);
  pure (ok_or (node_type_from_u8 ty) (StorageCorrupted "Invalid node type at page")).

Definition too_high {A} : M P A := pure (Err (StorageCorrupted "Tree exceeds max height")).

Definition read_leaf (i : PageId) : M P LeafNode :=
  g ← fetch_page_read i;
  ty ← node_type_of g;
  match ty with
  | Leaf => n ← read_leaf_at g; drop_guard g;; mret n
  | Internal => pure (Err (StorageCorrupted "Expected leaf at page"))
  end.

Definition read_internal (i : PageId) : M P InternalNode :=
  g ← fetch_page_read i;
  ty ← node_type_of g;
  match ty with
  | Internal => n ← read_internal_at g; drop_guard g;; mret n
  | Leaf => pure (Err (StorageCorrupted "Expected internal node at page"))
  end.

(** ** Search *)

Definition get_root_page_id (t : BTree) : M P (option PageId) :=
  g ← fetch_page_read (header_page_id t);
  h ← read_header_at g;
  drop_guard g;;
  mret (if is_empty h then None else Some (root_page_id h)).

(** Down from a node with read latches, taking the child that [pick] chooses. *)
Fixpoint descend_read (depth : nat) (pick : InternalNode -> result nat) (current : PageGuard) : M P PageGuard :=
  match depth with
  | O => too_high
  | S depth =>
      ty ← node_type_of current;
      match ty with
      | Leaf => mret current
      | Internal =>
          internal ← read_internal_at current;
          child_index ← pure (pick internal);
          child_id ← pure (child_at child_index internal);
          child ← fetch_page_read child_id;
          drop_guard current;;
          descend_read depth pick child
      end
  end.

Definition find_from_root (t : BTree) (pick : InternalNode -> result nat) : M P (option PageGuard) :=
  root ← get_root_page_id t;
  match root with
  | None => mret None
  | Some i => g ← fetch_page_read i; leaf ← descend_read MAX_TREE_HEIGHT pick g; mret (Some leaf)
  end.

Definition find_leaf_read (t : BTree) (key : bytes) : M P (option PageGuard) := find_from_root t (find_child_index key).

Definition page_of_guard (m : M P (option PageGuard)) : M P (option PageId) :=
  scoped (g ← m; mret (page_id <$> g)).

Definition find_leaf (t : BTree) (key : bytes) : M P (option PageId) := page_of_guard (find_leaf_read t key).
Definition get_first_leaf (t : BTree) : M P (option PageId) := page_of_guard (find_from_root t (fun _ => Ok 0%nat)).
Definition get_last_leaf (t : BTree) : M P (option PageId) :=
  page_of_guard (find_from_root t (fun n =>
    if (length (children n) =? 0)%nat then Panic else Ok (length (children n) - 1)%nat)).

Definition tree_get (t : BTree) (key : bytes) : M P (option bytes) := scoped (
  found ← find_leaf_read t key;
  match found with
  | None => mret None
  | Some g => b ← page_of g; pure (lookup_in_encoded_leaf crc32 b key)
  end).

Definition contains (t : BTree) (key : bytes) : M P bool := scoped (
  found ← find_leaf_read t key;
  match found with
  | None => mret false
  | Some g => b ← page_of g; r ← pure (lookup_in_encoded_leaf crc32 b key); mret (match r with Some _ => true | None => false end)
  end).

Definition tree_is_empty (t : BTree) : M P bool :=
  scoped (root ← get_root_page_id t; mret (match root with None => true | Some _ => false end)).

(** ** Insertion *)

Definition insert_into_empty_tree (t : BTree) (key value : bytes) (header : PageGuard) : M P bool :=
  guard ← new_page;
  '(_, leaf) ← pure (leaf_insert key value (leaf_new (leaf_max_size t)));
  (if (physical_size leaf =? 1)%nat then mret tt else pure Panic);;
  write_leaf guard leaf;;
  drop_guard guard;;
  h ← read_header_at header;
  (if is_empty h then mret tt else pure Panic);;
  write_root header (page_id guard);;
  mret true.

(** The tombstones below a place, and those from it on counted from there. *)
Definition split_tombstones (mid : nat) (ts : list Z) : list Z * list Z :=
  (List.filter (fun t => t <? Z.of_nat mid) ts,
   map (fun t => t - Z.of_nat mid) (List.filter (fun t => negb (t <? Z.of_nat mid)) ts)).

(** Point the leaf after a changed one back to it. *)
Definition set_prev (next prev : PageId) : M P unit :=
  if next =? INVALID_PAGE then mret tt else
  g ← fetch_page_write next;
  n ← read_leaf_at g;
  write_leaf g (mkLeaf (l_header n) (next_page_id n) prev (l_keys n) (l_values n) (tombstones n));;
  drop_guard g.

Definition split_leaf_ctx (leaf : LeafNode) (guard : PageGuard) : M P SplitResult :=
  let mid := (physical_size leaf / 2)%nat in
  (if ((0 <? mid) && (mid <? physical_size leaf))%nat then mret tt else pure Panic);;
  new ← new_page;
  let '(left_tombs, right_tombs) := split_tombstones mid (tombstones leaf) in
  let old_next := next_page_id leaf in
  let left_leaf := mkLeaf (set_size (u16_of (length (take mid (l_keys leaf)))) (l_header leaf)) (page_id new) (prev_page_id leaf)
                    (take mid (l_keys leaf)) (take mid (l_values leaf)) left_tombs in
  let right_leaf := mkLeaf (set_size (u16_of (length (drop mid (l_keys leaf)))) (node_header_new Leaf (h_max_size (l_header leaf))))
                    old_next (page_id guard) (drop mid (l_keys leaf)) (drop mid (l_values leaf)) right_tombs in
  set_prev old_next (page_id new);;
  separator ← pure (vec_at 0 (l_keys right_leaf));
  (match last (l_keys left_leaf) with
   | None => pure Panic
   | Some k => if bltb k separator then mret tt else pure Panic
   end);;
  write_leaf guard left_leaf;;
  write_leaf new right_leaf;;
  drop_guard new;;
  mret (mkSplit (page_id new) separator).

Definition split_internal_ctx (internal : InternalNode) (guard : PageGuard) : M P SplitResult :=
  let mid := (length (i_keys internal) / 2)%nat in
  (if ((0 <? mid) && (mid <? length (i_keys internal) - 1))%nat then mret tt else pure Panic);;
  separator ← pure (vec_at mid (i_keys internal));
  new ← new_page;
  let left_node := mkInternal (set_size (u16_of (length (take mid (i_keys internal)))) (i_header internal))
                     (take mid (i_keys internal)) (take mid (children internal)) in
  let right_node := mkInternal (set_size (u16_of (length (drop mid (i_keys internal)))) (node_header_new Internal (h_max_size (i_header internal))))
                      (drop mid (i_keys internal)) (drop mid (children internal)) in
  (if ((length (i_keys left_node) =? length (children left_node)) && (length (i_keys right_node) =? length (children right_node))
       && negb (length (children left_node) =? 0) && negb (length (children right_node) =? 0))%nat then mret tt else pure Panic);;
  write_internal guard left_node;;
  write_internal new right_node;;
  drop_guard new;;
  mret (mkSplit (page_id new) separator).

(** Take the header guard out of the context. *)
Definition take_header (ctx : Context) : M P PageGuard :=
  pure (ok_or (header_guard ctx) (StorageCorrupted "no header guard")).

Definition create_new_root_ctx (t : BTree) (ctx : Context) (old_root : PageId) (split : SplitResult) : M P bool :=
  guard ← new_page;
  let new_root := init_with_child old_root (internal_new (internal_max_size t)) in
  new_root ← pure (insert_separator (separator_key split) (new_page_id split) new_root);
  (if (length (children new_root) =? 2)%nat then mret tt else pure Panic);;
  write_internal guard new_root;;
  drop_guard guard;;
  header ← take_header ctx;
  h ← read_header_at header;
  (if root_page_id h =? old_root then mret tt else pure Panic);;
  write_root header (page_id guard);;
  mret true.

(** The loop of [propagate_split_up_ctx] over the write set, from its end. *)
Fixpoint propagate_split (t : BTree) (parents : list PageGuard) (ctx : Context) (split : SplitResult) : M P bool :=
  match parents with
  | parent :: rest =>
      internal ← read_internal_at parent;
      internal ← pure (insert_separator (separator_key split) (new_page_id split) internal);
      if u16_of (length (i_keys internal)) <=? h_max_size (i_header internal) then
        write_internal parent internal;;
        mret true
      else
        split ← split_internal_ctx internal parent;
        match rest with
        | [] => create_new_root_ctx t ctx (page_id parent) split
        | _ => drop_guard parent;; propagate_split t rest ctx split
        end
  | [] =>
      header ← take_header ctx;
      h ← read_header_at header;
      create_new_root_ctx t ctx (root_page_id h) split
  end.

Definition propagate_split_up_ctx (t : BTree) (ctx : Context) (split : SplitResult) : M P bool :=
  propagate_split t (reverse (write_set ctx)) ctx split.

Definition insert_into_leaf (t : BTree) (key value : bytes) (guard : PageGuard) (ctx : Context) : M P bool :=
  leaf ← read_leaf_at guard;
  found ← pure (leaf_lookup key leaf);
  match found with
  | Some _ => mret false
  | None =>
      '(_, leaf) ← pure (leaf_insert key value leaf);
      if negb (needs_split leaf) then
        release_ancestors ctx;;
        write_leaf guard leaf;;
        mret true
      else
        split ← split_leaf_ctx leaf guard;
        propagate_split_up_ctx t ctx split
  end.

(** Down with write latches; ancestors are let go above a node that [safe] says
    cannot pass a change up. *)
Fixpoint descend_write {A} (depth : nat) (safe : InternalNode -> result bool) (key : bytes)
    (at_leaf : PageGuard -> Context -> M P A) (current : PageGuard) (ctx : Context) : M P A :=
  match depth with
  | O => too_high
  | S depth =>
      ty ← node_type_of current;
      match ty with
      | Leaf => at_leaf current ctx
      | Internal =>
          internal ← read_internal_at current;
          s ← pure (safe internal);
          ctx ← (if (s : bool) then release_ancestors ctx else mret ctx);
          child_index ← pure (find_child_index key internal);
          child_id ← pure (child_at child_index internal);
          child ← fetch_page_write child_id;
          ctx ← pure (ctx_push current ctx);
          descend_write depth safe key at_leaf child ctx
      end
  end.

Definition tree_insert (t : BTree) (key value : bytes) : M P bool := scoped (
  header ← fetch_page_write (header_page_id t);
  h ← read_header_at header;
  if is_empty h then insert_into_empty_tree t key value header else
  let ctx := set_header (Some header) context_new in
  root ← fetch_page_write (root_page_id h);
  descend_write MAX_TREE_HEIGHT i_safe_for_insert key (insert_into_leaf t key value) root ctx).

(** ** Deletion *)

Definition set_leaf (n : LeafNode) (keys values : list bytes) (ts : list Z) : LeafNode :=
  mkLeaf (set_size (u16_of (length keys)) (l_header n)) (next_page_id n) (prev_page_id n) keys values ts.

Definition set_internal (n : InternalNode) (keys : list bytes) (cs : list PageId) : InternalNode :=
  mkInternal (set_size (u16_of (length keys)) (i_header n)) keys cs.

(** [while tombstones.len() > max { process_oldest_tombstone() }]: each turn takes
    one away. *)
Fixpoint trim_tombstones (fuel : nat) (max : nat) (n : LeafNode) : result LeafNode :=
  if (max <? length (tombstones n))%nat then
    match fuel with O => Panic | S fuel => n ← process_oldest_tombstone n; trim_tombstones fuel max n end
  else Ok n.

Definition trim (t : BTree) (n : LeafNode) : result LeafNode := trim_tombstones (length (tombstones n)) (max_tombstones t) n.

(** Change the separator at a place of a held parent. *)
Definition set_separator (parent : PageGuard) (i : nat) (key : bytes) : M P unit :=
  n ← read_internal_at parent;
  n ← pure (set_key_at i key n);
  write_internal parent n.

Definition redistribute_leaf_from_left_ctx (t : BTree) (parent : PageGuard) (child_index : nat) (left_id leaf_id : PageId) : M P unit :=
  g ← fetch_page_write left_id;
  left_leaf ← read_leaf_at g;
  (if (length (l_keys left_leaf) =? 0)%nat then pure Panic else mret tt);;
  let last_place := (length (l_keys left_leaf) - 1)%nat in
  let was_tomb := is_tombstone last_place left_leaf in
  '(key, keys) ← pure (vec_remove last_place (l_keys left_leaf));
  '(value, values) ← pure (vec_remove last_place (l_values left_leaf));
  let ts := if was_tomb then List.filter (fun t => negb (t =? Z.of_nat last_place)) (tombstones left_leaf) else tombstones left_leaf in
  write_leaf g (set_leaf left_leaf keys values ts);;
  drop_guard g;;
  g ← fetch_page_write leaf_id;
  leaf ← read_leaf_at g;
  ts ← pure (shift_up 0 (tombstones leaf));
  leaf ← pure (trim t (set_leaf leaf (key :: l_keys leaf) (value :: l_values leaf) (if was_tomb then ts ++ [0] else ts)));
  separator ← pure (vec_at 0 (l_keys leaf));
  write_leaf g leaf;;
  drop_guard g;;
  set_separator parent child_index separator.

Definition redistribute_leaf_from_right_ctx (t : BTree) (parent : PageGuard) (child_index : nat) (leaf_id right_id : PageId) : M P unit :=
  g ← fetch_page_write right_id;
  right_leaf ← read_leaf_at g;
  (if (length (l_keys right_leaf) =? 0)%nat then pure Panic else mret tt);;
  let was_tomb := is_tombstone 0 right_leaf in
  '(key, keys) ← pure (vec_remove 0 (l_keys right_leaf));
  '(value, values) ← pure (vec_remove 0 (l_values right_leaf));
  let ts := map (fun t => t - 1) (List.filter (fun t => 0 <? t) (tombstones right_leaf)) in
  separator ← pure (vec_at 0 keys);
  write_leaf g (set_leaf right_leaf keys values ts);;
  drop_guard g;;
  g ← fetch_page_write leaf_id;
  leaf ← read_leaf_at g;
  let new_index := length (l_keys leaf) in
  leaf ← pure (trim t (set_leaf leaf (l_keys leaf ++ [key]) (l_values leaf ++ [value])
                        (if was_tomb then tombstones leaf ++ [u16_of new_index] else tombstones leaf)));
  write_leaf g leaf;;
  drop_guard g;;
  set_separator parent (child_index + 1) separator.

(** Tombstones of the right leaf, counted behind the entries of the left one. *)
Fixpoint tombs_behind (n : nat) (ts : list Z) : result (list Z) :=
  match ts with
  | [] => Ok []
  | t :: ts => t' ← arith in_u16 (t + u16_of n); ts' ← tombs_behind n ts; Ok (t' :: ts')
  end.

Definition remove_child (parent : PageGuard) (i : nat) : M P unit :=
  n ← read_internal_at parent;
  write_internal parent (remove_at i n).

Definition merge_leaves_ctx (t : BTree) (parent : PageGuard) (right_index : nat) (left_id right_id : PageId) : M P unit :=
  g ← fetch_page_read right_id;
  right_leaf ← read_leaf_at g;
  drop_guard g;;
  g ← fetch_page_write left_id;
  left_leaf ← read_leaf_at g;
  ts ← pure (tombs_behind (length (l_keys left_leaf)) (tombstones right_leaf));
  let merged := set_leaf left_leaf (l_keys left_leaf ++ l_keys right_leaf) (l_values left_leaf ++ l_values right_leaf)
                  (tombstones left_leaf ++ ts) in
  merged ← pure (trim t (mkLeaf (l_header merged) (next_page_id right_leaf) (prev_page_id merged) (l_keys merged)
                          (l_values merged) (tombstones merged)));
  write_leaf g merged;;
  drop_guard g;;
  set_prev (next_page_id right_leaf) left_id;;
  remove_child parent right_index.

Definition redistribute_internal_from_left_ctx (parent : PageGuard) (child_index : nat) (left_id node_id : PageId) : M P unit :=
  p ← read_internal_at parent;
  old_separator ← pure (i_key_at child_index p);
  g ← fetch_page_write left_id;
  left_node ← read_internal_at g;
  (if (length (i_keys left_node) =? 0)%nat then pure Panic else mret tt);;
  let last_place := (length (i_keys left_node) - 1)%nat in
  '(key, keys) ← pure (vec_remove last_place (i_keys left_node));
  '(child, cs) ← pure (vec_remove last_place (children left_node));
  write_internal g (set_internal left_node keys cs);;
  drop_guard g;;
  g ← fetch_page_write node_id;
  node ← read_internal_at g;
  keys ← pure (vec_insert 1 old_separator (i_keys node));
  write_internal g (set_internal node keys (child :: children node));;
  drop_guard g;;
  set_separator parent child_index key.

Definition redistribute_internal_from_right_ctx (parent : PageGuard) (child_index : nat) (node_id right_id : PageId) : M P unit :=
  p ← read_internal_at parent;
  old_separator ← pure (i_key_at (child_index + 1) p);
  g ← fetch_page_write right_id;
  right_node ← read_internal_at g;
  '(key, keys) ← pure (vec_remove 1 (i_keys right_node));
  '(child, cs) ← pure (vec_remove 0 (children right_node));
  write_internal g (set_internal right_node keys cs);;
  drop_guard g;;
  g ← fetch_page_write node_id;
  node ← read_internal_at g;
  write_internal g (set_internal node (i_keys node ++ [old_separator]) (children node ++ [child]));;
  drop_guard g;;
  set_separator parent (child_index + 1) key.

Definition merge_internals_ctx (parent : PageGuard) (right_index : nat) (left_id right_id : PageId) : M P unit :=
  p ← read_internal_at parent;
  separator ← pure (i_key_at right_index p);
  g ← fetch_page_read right_id;
  right_node ← read_internal_at g;
  (if (length (i_keys right_node) =? 0)%nat then pure Panic else mret tt);;
  drop_guard g;;
  g ← fetch_page_write left_id;
  left_node ← read_internal_at g;
  write_internal g (set_internal left_node (i_keys left_node ++ separator :: drop 1 (i_keys right_node))
                      (children left_node ++ children right_node));;
  drop_guard g;;
  remove_child parent right_index.

(** [if let Some(guard) = ctx.header_guard.take()] with the header page changed. *)
Definition set_root (ctx : Context) (root : PageId) : M P Context :=
  match header_guard ctx with
  | None => mret ctx
  | Some g =>
      h ← read_header_at g;
      write_root g root;;
      drop_guard g;;
      mret (set_header None ctx)
  end.

Definition shrink_root_ctx (t : BTree) (ctx : Context) (old_root new_root : PageId) : M P Context :=
  g ← match header_guard ctx with Some g => mret g | None => fetch_page_write (header_page_id t) end;
  h ← read_header_at g;
  (if root_page_id h =? old_root then mret tt else pure Panic);;
  write_root g new_root;;
  drop_guard g;;
  mret (set_header None ctx).

(** [children.len() - 1] of a parent that was found to have the child. *)
Definition has_right_sibling (child_index : nat) (n : InternalNode) : bool := (child_index <? length (children n) - 1)%nat.

(** [rebalance_internal_ctx] recurses up the write set, given from its end. *)
Fixpoint rebalance_internal (t : BTree) (parents : list PageGuard) (header : option PageGuard) (guard : PageGuard) : M P Context :=
  let ctx := mkContext header (reverse parents) in
  node ← read_internal_at guard;
  match parents with
  | [] =>
      match header with
      | Some _ =>
          if (length (children node) =? 1)%nat then
            new_root ← pure (child_at 0 node);
            drop_guard guard;;
            shrink_root_ctx t ctx (page_id guard) new_root
          else drop_guard guard;; mret ctx
      | None => drop_guard guard;; mret ctx
      end
  | parent :: rest =>
      if (i_min_size node <=? i_size node) && (1 <? length (children node))%nat then drop_guard guard;; mret ctx else
      p ← read_internal_at parent;
      let up := mkContext header (reverse rest) in
      child_index ← pure (ok_or (find_child_position (page_id guard) p) (StorageCorrupted "Internal node not found in parent"));
      from_left ← (if (0 <? child_index)%nat then
                     left_id ← pure (child_at (child_index - 1) p);
                     left_node ← read_internal left_id;
                     mret (if i_safe_for_delete left_node then Some left_id else None)
                   else mret None);
      match from_left with
      | Some left_id =>
          drop_guard guard;;
          redistribute_internal_from_left_ctx parent child_index left_id (page_id guard);;
          drop_guard parent;; mret up
      | None =>
          from_right ← (if has_right_sibling child_index p then
                          right_id ← pure (child_at (child_index + 1) p);
                          right_node ← read_internal right_id;
                          mret (if i_safe_for_delete right_node then Some right_id else None)
                        else mret None);
          match from_right with
          | Some right_id =>
              drop_guard guard;;
              redistribute_internal_from_right_ctx parent child_index (page_id guard) right_id;;
              drop_guard parent;; mret up
          | None =>
              drop_guard guard;;
              (if (0 <? child_index)%nat then
                 left_id ← pure (child_at (child_index - 1) p);
                 merge_internals_ctx parent child_index left_id (page_id guard)
               else if has_right_sibling child_index p then
                 right_id ← pure (child_at (child_index + 1) p);
                 merge_internals_ctx parent (child_index + 1) (page_id guard) right_id
               else mret tt);;
              rebalance_internal t rest header parent
          end
      end
  end.

Definition rebalance_internal_ctx (t : BTree) (guard : PageGuard) (ctx : Context) : M P Context :=
  rebalance_internal t (reverse (write_set ctx)) (header_guard ctx) guard.

(** The loop of [remove_empty_subtree_ctx] up the write set. *)
Fixpoint remove_empty_subtree (t : BTree) (parents : list PageGuard) (header : option PageGuard) (child : PageId) (guard : PageGuard)
    : M P Context :=
  node ← read_internal_at guard;
  if (1 <? length (children node))%nat then
    child_index ← pure (ok_or (find_child_position child node) (StorageCorrupted "Degenerate child not found in parent"));
    write_internal guard (remove_at child_index node);;
    rebalance_internal t parents header guard
  else
    match parents with
    | parent :: rest => drop_guard guard;; remove_empty_subtree t rest header (page_id guard) parent
    | [] => drop_guard guard;; set_root (mkContext header []) INVALID_PAGE
    end.

(** A sibling that can spare an entry. *)
Definition spare_leaf (i : PageId) : M P (option PageId) :=
  n ← read_leaf i;
  safe ← pure (l_safe_for_delete n);
  mret (if (safe : bool) then Some i else None).

Definition rebalance_leaf_ctx (t : BTree) (leaf_id : PageId) (ctx : Context) : M P Context :=
  '(parent, ctx) ← pure (ok_or (ctx_pop ctx) (StorageCorrupted "rebalance_leaf_ctx: no parent in write_set"));
  p ← read_internal_at parent;
  child_index ← pure (ok_or (find_child_position leaf_id p) (StorageCorrupted "Leaf not found in parent"));
  from_left ← (if (0 <? child_index)%nat then left_id ← pure (child_at (child_index - 1) p); spare_leaf left_id else mret None);
  match from_left with
  | Some left_id => redistribute_leaf_from_left_ctx t parent child_index left_id leaf_id;; drop_guard parent;; mret ctx
  | None =>
      from_right ← (if has_right_sibling child_index p then right_id ← pure (child_at (child_index + 1) p); spare_leaf right_id
                    else mret None);
      match from_right with
      | Some right_id => redistribute_leaf_from_right_ctx t parent child_index leaf_id right_id;; drop_guard parent;; mret ctx
      | None =>
          if (0 <? child_index)%nat then
            left_id ← pure (child_at (child_index - 1) p);
            merge_leaves_ctx t parent child_index left_id leaf_id;;
            rebalance_internal_ctx t parent ctx
          else if has_right_sibling child_index p then
            right_id ← pure (child_at (child_index + 1) p);
            merge_leaves_ctx t parent (child_index + 1) leaf_id right_id;;
            rebalance_internal_ctx t parent ctx
          else
            g ← fetch_page_write leaf_id;
            leaf ← read_leaf_at g;
            leaf ← pure (compact leaf);
            write_leaf g leaf;;
            drop_guard g;;
            if (physical_size leaf =? 0)%nat then
              remove_empty_subtree t (reverse (write_set ctx)) (header_guard ctx) leaf_id parent
            else rebalance_internal_ctx t parent ctx
      end
  end.

Definition delete_from_leaf (t : BTree) (key : bytes) (guard : PageGuard) (ctx : Context) : M P bool :=
  leaf ← read_leaf_at guard;
  '(deleted, leaf) ← pure (leaf_delete key (max_tombstones t) leaf);
  if negb deleted then mret false else
  let underflowed := has_underflowed leaf in
  write_leaf guard leaf;;
  match write_set ctx with
  | [] => (if (physical_size leaf =? 0)%nat then set_root ctx INVALID_PAGE;; mret tt else mret tt);; mret true
  | _ =>
      if negb underflowed then release_ancestors ctx;; mret true else
      drop_guard guard;;
      ctx ← rebalance_leaf_ctx t (page_id guard) ctx;
      release_ancestors ctx;;
      mret true
  end.

Definition delete_safe (n : InternalNode) : result bool := Ok (i_safe_for_delete n && (1 <? length (children n))%nat).

Definition tree_delete (t : BTree) (key : bytes) : M P bool := scoped (
  header ← fetch_page_write (header_page_id t);
  h ← read_header_at header;
  if is_empty h then mret false else
  let ctx := set_header (Some header) context_new in
  root ← fetch_page_write (root_page_id h);
  descend_write MAX_TREE_HEIGHT delete_safe key (delete_from_leaf t key) root ctx).
End tree.
