(* ===== verification/BShape.v ===== *)
(** B+trees as trees: what the pages reachable from a root stand for.

    A [tree] has the nodes of a subtree with their page numbers; [wf] is the
    invariant that the calls keep: bounds of the keys, one height for all leaves,
    how full the nodes are.  A [frame] is a node without one of its children; the
    ancestors of a node are a path of frames, from the parent up. *)

From Stdlib Require Import ZArith Lia List Bool.
From S2P Require Import Prelude Common Engine Page BNode BNodeSpec Pool BTree.
From coqutil Require Import Byte.
From stdpp Require Import base list strings sorting.
#[local] Open Scope Z_scope.

(** How a page is held. *)
Inductive latch := Free | Reads (g : PageGuard) | Writes (g : PageGuard).

Inductive tree :=
| TLeaf (p : PageId) (n : LeafNode)
| TNode (p : PageId) (kids : list (bytes * tree)).

Abbreviation kid := (bytes * tree)%type.

Definition root (t : tree) : PageId := match t with TLeaf p _ => p | TNode p _ => p end.

Fixpoint leaves (t : tree) : list (PageId * LeafNode) :=
  match t with
  | TLeaf p n => [(p, n)]
  | TNode _ kids => concat (map (fun '(_, c) => leaves c) kids)
  end.

Definition kid_leaves (kids : list kid) : list (PageId * LeafNode) := concat (map (fun '(_, c) => leaves c) kids).

Definition leaf_contents (ls : list (PageId * LeafNode)) : list entry := concat (map (fun l => live_entries l.2) ls).
Definition contents (t : tree) : list entry := leaf_contents (leaves t).

(** ** Bounds *)

Definition within (lo : bytes) (hi : option bytes) (k : bytes) : Prop :=
  ble lo k /\ match hi with Some h => blt k h | None => True end.

(** The bounds that the next siblings give. *)
Definition upper_of (rest : list kid) (hi : option bytes) : option bytes :=
  match rest with (k, _) :: _ => Some k | [] => hi end.
Definition lower_of (rest : list kid) : bytes := match rest with (k, _) :: _ => k | [] => [] end.

(** The children between two bounds; the key of the first one is not used. *)
Fixpoint spread (Q : bytes -> option bytes -> tree -> Prop) (lo : bytes) (hi : option bytes) (kids : list kid) : Prop :=
  match kids with
  | [] => True
  | (_, t) :: rest => Q lo (upper_of rest hi) t /\ spread Q (lower_of rest) hi rest
  end.

Section shape.
Context (bt : BTree) (kmax emax : Z).

(** The sizes for which every node fits its page, and no node has one child. *)
Record sizes_ok : Prop := {
  so_leaf : 2 <= leaf_max_size bt;
  so_internal : 4 <= internal_max_size bt;
  so_tombs : Z.of_nat (max_tombstones bt) <= MAX_TOMBSTONES;
  so_key : 0 <= kmax <= emax;
  so_leaf_room : LEAF_HEADER_SIZE + 2 * MAX_TOMBSTONES + (leaf_max_size bt + Z.of_nat (max_tombstones bt)) * (emax + 4) <= PAGE_SIZE;
  so_internal_room : INTERNAL_HEADER_SIZE + internal_max_size bt * (kmax + 6) <= PAGE_SIZE
}.

Definition entry_small (e : entry) : Prop := len e.1 <= kmax /\ len e.1 + len e.2 <= emax.

Definition imax : nat := Z.to_nat (internal_max_size bt).
Definition imin : nat := Z.to_nat (internal_max_size bt / 2).

(** A leaf of the tree, with its row. *)
Record leaf_row_wf (lo : bytes) (hi : option bytes) (n : LeafNode) (r : row) : Prop := {
  lr_is : leaf_is (leaf_max_size bt) n r;
  lr_sorted : row_sorted r;
  lr_within : Forall (fun s => within lo hi s.1.1 /\ entry_small s.1) r;
  lr_tombs : (length (tombstones n) <= max_tombstones bt)%nat
}.

Definition leaf_wf (lo : bytes) (hi : option bytes) (n : LeafNode) : Prop :=
  exists r, leaf_row_wf lo hi n r /\ 1 <= len r <= leaf_max_size bt + Z.of_nat (max_tombstones bt).

Fixpoint wf (h : nat) (least : nat) (lo : bytes) (hi : option bytes) (t : tree) : Prop :=
  match h, t with
  | O, TLeaf _ n => leaf_wf lo hi n
  | S h, TNode _ kids =>
      (least <= length kids <= imax)%nat /\ Forall (fun k => len k.1 <= kmax) kids /\ spread (wf h imin) lo hi kids
  | _, _ => False
  end.

(** ** Paths *)

(** A node with a hole for one of its children; the latch that is held on it is
    kept along. *)
Record frame := mkFrame { f_page : PageId; f_left : list kid; f_key : bytes; f_right : list kid; f_latch : latch }.

Definition fill (f : frame) (t : tree) : tree := TNode (f_page f) (f_left f ++ (f_key f, t) :: f_right f).
Definition plug (path : list frame) (t : tree) : tree := fold_left (fun t f => fill f t) path t.

Fixpoint lower (path : list frame) : bytes :=
  match path with
  | [] => []
  | f :: fs => match f_left f with [] => lower fs | _ => f_key f end
  end.

Fixpoint upper (path : list frame) : option bytes :=
  match path with
  | [] => None
  | f :: fs => upper_of (f_right f) (upper fs)
  end.

Definition least_of (path : list frame) : nat := match path with [] => 2 | _ => imin end.
Definition f_size (f : frame) : nat := (length (f_left f) + S (length (f_right f)))%nat.

Fixpoint path_wf (h : nat) (path : list frame) : Prop :=
  match path with
  | [] => True
  | f :: fs =>
      (least_of fs <= f_size f <= imax)%nat /\
      Forall (fun k => len k.1 <= kmax) (f_left f) /\ len (f_key f) <= kmax /\ Forall (fun k => len k.1 <= kmax) (f_right f) /\
      spread (wf h imin) (lower fs) (Some (f_key f)) (f_left f) /\
      spread (wf h imin) (lower_of (f_right f)) (upper fs) (f_right f) /\
      path_wf (S h) fs
  end.

Fixpoint leavesL (path : list frame) : list (PageId * LeafNode) :=
  match path with [] => [] | f :: fs => leavesL fs ++ kid_leaves (f_left f) end.
Fixpoint leavesR (path : list frame) : list (PageId * LeafNode) :=
  match path with [] => [] | f :: fs => kid_leaves (f_right f) ++ leavesR fs end.

(** ** Facts *)

Lemma spread_app Q l1 l2 : forall lo hi,
  spread Q lo hi (l1 ++ l2) <->
  spread Q lo (upper_of l2 hi) l1 /\ spread Q (match l1 with [] => lo | _ => lower_of l2 end) hi l2.
Proof.
  induction l1 as [|[k t] l1 IH]; intros lo hi; cbn; [tauto|]. rewrite IH.
  replace (upper_of (l1 ++ l2) hi) with (upper_of l1 (upper_of l2 hi)) by by destruct l1 as [|[]].
  destruct l1 as [|[k1 t1] l1]; cbn; tauto.
Qed.

Lemma kid_leaves_app l1 l2 : kid_leaves (l1 ++ l2) = kid_leaves l1 ++ kid_leaves l2.
Proof. unfold kid_leaves. by rewrite map_app, concat_app. Qed.

Lemma leaf_contents_app l1 l2 : leaf_contents (l1 ++ l2) = leaf_contents l1 ++ leaf_contents l2.
Proof. unfold leaf_contents. by rewrite map_app, concat_app. Qed.

Lemma leaves_fill f t : leaves (fill f t) = kid_leaves (f_left f) ++ leaves t ++ kid_leaves (f_right f).
Proof. unfold fill. cbn [leaves]. fold (kid_leaves (f_left f ++ (f_key f, t) :: f_right f)). by rewrite kid_leaves_app. Qed.

Lemma leaves_plug path : forall t, leaves (plug path t) = leavesL path ++ leaves t ++ leavesR path.
Proof.
  induction path as [|f fs IH]; intros t; cbn; [by rewrite app_nil_r|]. change (fold_left _ fs (fill f t)) with (plug fs (fill f t)).
  rewrite IH, leaves_fill. by rewrite <- !app_assoc.
Qed.

Lemma plug_app p1 p2 t : plug (p1 ++ p2) t = plug p2 (plug p1 t).
Proof. apply fold_left_app. Qed.

Lemma within_lt lo h k : within lo (Some h) k -> blt lo h.
Proof. intros [H1 H2]. by eapply ble_blt_trans. Qed.

(** Something is between the bounds of a tree. *)
Lemma wf_lt h : forall least lo hi t, (1 <= least)%nat -> sizes_ok -> wf h least lo (Some hi) t -> blt lo hi.
Proof.
  induction h as [|h IH]; intros least lo hi [p n|p kids] L So; cbn; try done.
  - intros (r & [_ _ W _] & B). destruct W as [|s r [W _] _]; [unfold len in B; cbn in B; lia|]. by apply within_lt in W.
  - intros (B & _ & Sp). assert (Hi : (1 <= imin)%nat).
    { destruct So as [_ Hi _ _ _ _]. unfold imin. pose proof (Z.div_le_mono 4 (internal_max_size bt) 2 ltac:(lia) Hi).
      change (4 / 2) with 2 in *. lia. }
    assert (N : kids <> []) by (destruct kids; cbn in B; [lia|done]). clear B L.
    revert lo N Sp. induction kids as [|[k t] kids IHk]; intros lo N Sp; [done|]. cbn in Sp. destruct Sp as [S1 S2].
    destruct kids as [|[k1 t1] kids]; [by apply (IH imin _ _ t)|]. cbn in S1.
    transitivity k1; [by apply (IH imin _ _ t)|]. by apply IHk.
Qed.

Lemma imin_2 : sizes_ok -> (2 <= imin)%nat.
Proof.
  intros [_ Hi _ _ _ _]. unfold imin. pose proof (Z.div_le_mono 4 (internal_max_size bt) 2 ltac:(lia) Hi). change (4 / 2) with 2 in *. lia.
Qed.

Lemma imax_imin : sizes_ok -> (2 * imin <= imax <= S (2 * imin))%nat.
Proof.
  intros [_ Hi _ _ _ _]. unfold imin, imax. pose proof (Z.div_mod (internal_max_size bt) 2 ltac:(lia)).
  pose proof (Z.mod_pos_bound (internal_max_size bt) 2 ltac:(lia)). lia.
Qed.

(** The separators of a node are in order, between its bounds. *)
Lemma spread_keys h lo hi kids :
  sizes_ok -> spread (wf h imin) lo hi kids -> kids <> [] ->
  StronglySorted blt (lo :: map fst (drop 1 kids)) /\
  match hi with Some u => Forall (fun k => blt k u) (lo :: map fst (drop 1 kids)) | None => True end.
Proof.
  intros So. pose proof (imin_2 So). revert lo. induction kids as [|[k t] kids IH]; intros lo Sp N; [done|].
  cbn in Sp. destruct Sp as [S1 S2]. cbn [drop]. rewrite drop_0. destruct kids as [|[k1 t1] kids].
  - cbn. split; [by repeat constructor|]. destruct hi as [u|]; [|done]. constructor; [|done]. by apply (wf_lt h imin lo u t); [lia|..].
  - cbn in S1, S2. destruct (IH k1 S2 ltac:(done)) as [I1 I2]. cbn [drop] in I1, I2. rewrite drop_0 in I1, I2.
    assert (L : blt lo k1) by (apply (wf_lt h imin lo k1 t); [lia|done|done]). cbn [map fst] in *. split.
    + constructor; [done|]. constructor; [done|]. apply StronglySorted_inv in I1 as [_ F]. eapply Forall_impl; [exact F|].
      intros x Hx. by apply (blt_trans _ k1).
    + destruct hi as [u|]; [|done]. constructor; [|done]. apply Forall_cons in I2 as [I2 _]. by apply (blt_trans _ k1).
Qed.

Lemma wf_fill h f fs t :
  wf h imin (lower (f :: fs)) (upper (f :: fs)) t -> path_wf h (f :: fs) -> wf (S h) (least_of fs) (lower fs) (upper fs) (fill f t).
Proof.
  intros W (Sz & Fl & Fk & Fr & Sl & Sr & _). cbn. split; [|split].
  - rewrite length_app. exact Sz.
  - by rewrite Forall_app, Forall_cons.
  - apply spread_app. split; [done|]. cbn. split; [|done]. cbn in W. by destruct (f_left f).
Qed.

Lemma plug_wf path : forall h t,
  wf h (least_of path) (lower path) (upper path) t -> path_wf h path -> wf (length path + h) 2 [] None (plug path t).
Proof.
  induction path as [|f fs IH]; intros h t W Pw; [done|]. change (plug (f :: fs) t) with (plug fs (fill f t)).
  replace (length (f :: fs) + h)%nat with (length fs + S h)%nat by (cbn; lia). apply IH; [|by apply Pw]. by apply wf_fill.
Qed.

Lemma wf_unfill h fs p l1 k t l2 la :
  wf (S h) (least_of fs) (lower fs) (upper fs) (TNode p (l1 ++ (k, t) :: l2)) -> path_wf (S h) fs ->
  path_wf h (mkFrame p l1 k l2 la :: fs) /\ wf h imin (lower (mkFrame p l1 k l2 la :: fs)) (upper (mkFrame p l1 k l2 la :: fs)) t.
Proof.
  intros (Sz & F & Sp) Pw. rewrite Forall_app, Forall_cons in F. destruct F as (Fl & Fk & Fr).
  apply spread_app in Sp as [Sl [St Sr]]. rewrite length_app in Sz. cbn in *. split; [done|]. by destruct l1.
Qed.

(** ** Routing *)

Definition node_of (kids : list kid) : InternalNode :=
  mkInternal (mkNodeHeader Internal (len kids) (internal_max_size bt)) (map fst kids) (map (fun k => root k.2) kids).

Lemma lookup_kids {A B} (f : A -> B) (l1 l2 : list A) x i :
  map f (l1 ++ x :: l2) !! i = Some (f x) -> NoDup (map f (l1 ++ x :: l2)) -> i = length l1.
Proof.
  intros Hi Nd. eapply NoDup_lookup; [exact Nd|exact Hi|]. rewrite map_app. cbn. rewrite lookup_app_r by by rewrite length_map.
  by rewrite length_map, Nat.sub_diag.
Qed.

Lemma route h least lo hi p kids key :
  sizes_ok -> (1 <= least)%nat -> wf (S h) least lo hi (TNode p kids) -> within lo hi key ->
  exists l1 k t l2, kids = l1 ++ (k, t) :: l2 /\ find_child_index key (node_of kids) = Ok (length l1) /\
    child_at (length l1) (node_of kids) = Ok (root t) /\
    within (match l1 with [] => lo | _ => k end) (upper_of l2 hi) key.
Proof.
  intros So Hl (Sz & _ & Sp) [Wl Wh]. assert (N : kids <> []) by (destruct kids; cbn in Sz; [lia|done]).
  destruct (spread_keys h lo hi kids So Sp N) as [[Sk _]%StronglySorted_inv _].
  destruct (find_child_index_ok key (node_of kids)) as (i & E & Hi & Lo & Up).
  - cbn. by destruct kids.
  - cbn. by destruct kids.
  - cbn. by rewrite skipn_map.
  - cbn in Hi. rewrite length_map in Hi. destruct (lookup_lt_is_Some_2 kids i Hi) as [[k t] Hk].
    assert (Ek : kids = take i kids ++ (k, t) :: drop (S i) kids) by (symmetry; by apply take_drop_middle).
    assert (Ll : length (take i kids) = i) by (rewrite length_take; lia).
    exists (take i kids), k, t, (drop (S i) kids). rewrite Ll. split_and!; [done|done| |split].
    + unfold child_at, vec_at, node_of. cbn. by rewrite list_lookup_fmap, Hk.
    + destruct i as [|i]; [done|]. destruct kids as [|c kids]; [done|]. cbn [take]. apply (Lo (S i)); [|lia].
      cbn [node_of i_keys]. by rewrite list_lookup_fmap, Hk.
    + destruct (drop (S i) kids) as [|[k2 t2] rest] eqn:Ed; [done|]. cbn. apply (Up (S i)); [|lia].
      cbn [node_of i_keys]. rewrite list_lookup_fmap. replace (kids !! S i) with (Some (k2, t2)); [done|].
      rewrite <- (Nat.add_0_r (S i)), <- lookup_drop, Ed. done.
Qed.

(** ** Order of the contents *)

Lemma spread_within_if h lo hi kids :
  sizes_ok -> (forall lo hi t, wf h imin lo hi t -> Forall (fun e => within lo hi e.1) (contents t)) ->
  spread (wf h imin) lo hi kids -> Forall (fun e => within lo hi e.1) (leaf_contents (kid_leaves kids)).
Proof.
  intros So H. revert lo. induction kids as [|[k t] l IH]; intros lo W; [by constructor|]. pose proof W as [S1 S2].
  change (kid_leaves ((k, t) :: l)) with (leaves t ++ kid_leaves l). rewrite leaf_contents_app, Forall_app.
  destruct (spread_keys h lo hi ((k, t) :: l) So W ltac:(done)) as [Sk Bk]. cbn [drop] in Sk, Bk. rewrite drop_0 in Sk, Bk.
  apply StronglySorted_inv in Sk as [_ Sk]. split.
  - eapply Forall_impl; [by apply (H lo (upper_of l hi) t)|]. intros e [H1 H2]. split; [done|]. destruct l as [|[k1 t1] l]; [done|].
    cbn in H2. destruct hi as [u|]; [|done]. apply Forall_cons in Bk as [_ Bk]. cbn in Bk. apply Forall_cons in Bk as [Bk _].
    by eapply blt_trans.
  - destruct l as [|[k1 t1] l]; [by constructor|]. eapply Forall_impl; [by apply (IH k1)|]. intros e [H1 H2]. split; [|done].
    cbn in Sk. apply Forall_cons in Sk as [Sk _]. etransitivity; [by apply blt_ble|done].
Qed.

Lemma wf_within h : forall least lo hi t, sizes_ok -> wf h least lo hi t -> Forall (fun e => within lo hi e.1) (contents t).
Proof.
  induction h as [|h IH]; intros least lo hi [p n|p kids] So W; cbn in W; try done.
  - destruct W as (r & [[St _] _ W _] & _). unfold contents, leaf_contents. cbn. rewrite app_nil_r, (leaf_live_ok n r St).
    apply (Forall_alive (within lo hi)). unfold row_keys. apply Forall_fmap. eapply Forall_impl; [exact W|]. by intros s [? _].
  - apply (spread_within_if h); [done|eauto|apply W].
Qed.

Lemma spread_within h lo hi kids :
  sizes_ok -> spread (wf h imin) lo hi kids -> Forall (fun e => within lo hi e.1) (leaf_contents (kid_leaves kids)).
Proof. intros So. apply spread_within_if; [done|]. intros. by apply (wf_within h imin). Qed.

Lemma keys_sorted_app (a b : list entry) :
  keys_sorted (a ++ b) <-> keys_sorted a /\ keys_sorted b /\ (forall x y, x ∈ a -> y ∈ b -> blt x.1 y.1).
Proof.
  unfold keys_sorted. induction a as [|x a IH]; cbn.
  - split; [intros H; split_and!; [constructor|done|by intros ? ? ?%not_elem_of_nil]|by intros (_ & ? & _)].
  - split.
    + intros [(H1 & H2 & H3)%IH F]%StronglySorted_inv. apply Forall_app in F as [F1 F2]. split_and!; [by constructor|done|].
      intros u y [->|Hu]%elem_of_cons Hy; [by apply (proj1 (Forall_forall _ _) F2)|eauto].
    + intros ([H1 F]%StronglySorted_inv & H2 & H3). constructor.
      * apply IH. split_and!; [done|done|]. intros u y Hu Hy. apply H3; [by apply elem_of_cons; right|done].
      * apply Forall_app. split; [done|]. apply Forall_forall. intros y Hy. apply H3; [apply list_elem_of_here|done].
Qed.

Lemma row_alive_sorted r : row_sorted r -> keys_sorted (alive r).
Proof.
  unfold row_sorted, keys_sorted. induction r as [|[e d] r IH]; intros So; [constructor|]. cbn in So.
  apply StronglySorted_inv in So as [So F]. change (alive ((e, d) :: r)) with (alive ([(e, d)] ++ r)). rewrite alive_app.
  destruct d; cbn; [by apply IH|]. constructor; [by apply IH|]. by apply (Forall_alive (blt e.1)).
Qed.

(** The contents of a tree are in key order. *)
Lemma wf_sorted h : forall least lo hi t, sizes_ok -> wf h least lo hi t -> keys_sorted (contents t).
Proof.
  induction h as [|h IH]; intros least lo hi [p n|p kids] So W; cbn in W; try done.
  - destruct W as (r & [[St _] Sr _ _] & _). unfold contents, leaf_contents. cbn. rewrite app_nil_r, (leaf_live_ok n r St).
    by apply row_alive_sorted.
  - destruct W as (_ & _ & Sp). unfold contents. cbn [leaves]. change (concat _) with (kid_leaves kids).
    revert lo Sp. induction kids as [|[k t] l IHk]; intros lo Sp; [constructor|]. pose proof Sp as [S1 S2].
    change (kid_leaves ((k, t) :: l)) with (leaves t ++ kid_leaves l). rewrite leaf_contents_app. apply keys_sorted_app.
    split_and!; [by apply (IH imin lo (upper_of l hi) t)|by apply (IHk (lower_of l))|].
    intros x y Hx Hy. pose proof (proj1 (Forall_forall _ _) (wf_within h imin lo (upper_of l hi) t So S1) x Hx) as [_ Hx'].
    pose proof (proj1 (Forall_forall _ _) (spread_within h _ hi l So S2) y Hy) as [Hy' _].
    destruct l as [|[k1 t1] l]; [by apply not_elem_of_nil in Hy|]. cbn in Hx', Hy'. by eapply blt_ble_trans.
Qed.

(** What is left and right of a path. *)
Lemma path_left_below path : forall h, sizes_ok -> path_wf h path -> Forall (fun e => blt e.1 (lower path)) (leaf_contents (leavesL path)).
Proof.
  induction path as [|f fs IH]; intros h So Pw; [by constructor|]. cbn [leavesL lower]. rewrite leaf_contents_app, Forall_app.
  destruct Pw as (_ & _ & _ & _ & Sl & _ & Pw). specialize (IH (S h) So Pw).
  destruct (f_left f) as [|c l] eqn:El; [split; [done|constructor]|].
  destruct (spread_keys h _ _ (c :: l) So Sl ltac:(done)) as [_ Bk]. apply Forall_cons in Bk as [Bk _]. split.
  - eapply Forall_impl; [exact IH|]. intros e He. cbn in He. by eapply blt_trans.
  - eapply Forall_impl; [exact (spread_within h _ _ (c :: l) So Sl)|]. by intros e [_ ?].
Qed.

Lemma path_right_above path : forall h, sizes_ok -> path_wf h path ->
  Forall (fun e => match upper path with Some u => ble u e.1 | None => False end) (leaf_contents (leavesR path)).
Proof.
  induction path as [|f fs IH]; intros h So Pw; [by constructor|]. cbn [leavesR upper]. rewrite leaf_contents_app, Forall_app.
  destruct Pw as (_ & _ & _ & _ & _ & Sr & Pw). specialize (IH (S h) So Pw).
  destruct (f_right f) as [|[k t] l] eqn:El; [split; [constructor|done]|]. cbn [upper_of lower_of] in *.
  destruct (spread_keys h _ _ ((k, t) :: l) So Sr ltac:(done)) as [_ Bk]. split.
  - eapply Forall_impl; [exact (spread_within h _ _ ((k, t) :: l) So Sr)|]. by intros e [? _].
  - eapply Forall_impl; [exact IH|]. intros e He. cbn in He. destruct (upper fs) as [u|]; [|done].
    apply Forall_cons in Bk as [Bk _]. etransitivity; [by apply blt_ble|done].
Qed.

Lemma path_around path h key :
  sizes_ok -> path_wf h path -> within (lower path) (upper path) key ->
  Forall (fun e => blt e.1 key) (leaf_contents (leavesL path)) /\ Forall (fun e => blt key e.1) (leaf_contents (leavesR path)).
Proof.
  intros So Pw [Wl Wu]. split.
  - eapply Forall_impl; [by apply (path_left_below path h)|]. intros e He. cbn in He. by eapply blt_ble_trans.
  - eapply Forall_impl; [by apply (path_right_above path h)|]. intros e He. cbn in He. destruct (upper path); [|done]. by eapply blt_ble_trans.
Qed.
End shape.
