(* ===== verification/BHeap.v ===== *)
(** Reasoning about the pages a B+tree call works on.

    A [slot] is a page with what it shows and how it is held; [holds] relates a
    list of slots, in any order, to a pool.  [runs m p Q] says that [m] returns
    from [p] and what is then the case; there is a rule for each call of the pool
    and of the node codecs.  The rules work on the slot at the front. *)

From Stdlib Require Import ZArith Lia List Bool.
From S2P Require Import Prelude Common Engine Page BNode BNodeSpec BLayout BPages Pool BTree BShape.
From AAC_tactics Require Import AAC.
From coqutil Require Import Byte.
From stdpp Require Import base list strings.
#[local] Open Scope Z_scope.

(** ** Up to the order *)

#[export] Instance app_assoc_perm A : AAC.Associative (@Permutation A) app.
Proof. intros x y z. by rewrite app_assoc. Qed.
#[export] Instance app_comm_perm A : AAC.Commutative (@Permutation A) app.
Proof. intros x y. apply Permutation_app_comm. Qed.
#[export] Instance app_unit_perm A : AAC.Unit (@Permutation A) app [].
Proof. split; intros x; [done|by rewrite app_nil_r]. Qed.

#[export] Instance perm_lift A : AAC.AAC_lift (@Permutation A) (@Permutation A) := _.

Lemma cons_is_app {A} (x : A) l : x :: l = [x] ++ l.
Proof. done. Qed.

(** Lists of slots that differ in their order only. *)
Ltac perm :=
  repeat match goal with |- context [?x :: ?l] => lazymatch l with [] => fail | _ => rewrite (cons_is_app x l) end end;
  aac_reflexivity.

(** ** Slots *)

Record slot := mkSlot { s_page : PageId; s_content : content; s_latch : latch }.

Definition latch_guards (l : latch) : list PageGuard := match l with Free => [] | Reads g | Writes g => [g] end.
Definition guards_of (cs : list slot) : list PageGuard := concat (map (fun s => latch_guards (s_latch s)) cs).
Definition free (s : slot) : slot := mkSlot (s_page s) (s_content s) Free.

Definition latch_ok (i : PageId) (l : latch) : Prop :=
  match l with Free => True | Reads g => page_id g = i /\ writes g = false | Writes g => page_id g = i /\ writes g = true end.

Lemma guards_of_app a b : guards_of (a ++ b) = guards_of a ++ guards_of b.
Proof. unfold guards_of. by rewrite map_app, concat_app. Qed.

Lemma guards_of_cons s cs : guards_of (s :: cs) = latch_guards (s_latch s) ++ guards_of cs.
Proof. done. Qed.

#[export] Instance guards_of_perm : Proper ((≡ₚ) ==> (≡ₚ)) guards_of.
Proof.
  intros a b. induction 1 as [|x a b _ IH|x y l|a b c _ I1 _ I2]; [done| | |by rewrite I1].
  - by rewrite !guards_of_cons, IH.
  - rewrite !guards_of_cons, !app_assoc. f_equiv. apply Permutation_app_comm.
Qed.

#[export] Instance without_perm i : Proper ((≡ₚ) ==> (≡ₚ)) (without i).
Proof.
  intros a b. unfold without. induction 1 as [|x a b _ IH|x y l|a b c _ I1 _ I2]; cbn; [done| | |by rewrite I1].
  - by destruct (negb _); rewrite ?IH.
  - destruct (negb (page_id y =? i)), (negb (page_id x =? i)); try done. apply Permutation_swap.
Qed.

Lemma guards_of_free cs : guards_of (map free cs) = [].
Proof. by induction cs. Qed.

Lemma free_id cs : guards_of cs = [] -> map free cs = cs.
Proof.
  induction cs as [|s cs IH]; [done|]. rewrite guards_of_cons. intros [E1 E2]%app_eq_nil. cbn. rewrite IH by done. by destruct s as [i c []].
Qed.

Lemma free_pages cs : map s_page (map free cs) = map s_page cs.
Proof. rewrite map_map. by apply map_ext. Qed.

Section heap.
Context {P : Type} `{BufferPool P} (crc32 : bytes -> Z) (frames : nat).
Hypothesis crc32_u32 : forall b, in_u32 (crc32 b) = true.

Record slot_ok (ps : list bytes) (s : slot) : Prop := {
  so_page : 0 <= s_page s;
  so_shows : match ps !! Z.to_nat (s_page s) with Some b => shows crc32 (s_content s) b | None => False end;
  so_latch : latch_ok (s_page s) (s_latch s)
}.

(** The pool has [np] pages; among them are these slots, and all its guards are
    theirs. *)
Record holds (np : Z) (cs : list slot) (p : P) : Prop := {
  hd_ok : pool_ok p;
  hd_frames : pool_size p = frames;
  hd_pages : len (pages p) = np;
  hd_most : np <= INVALID_PAGE;
  hd_slots : Forall (slot_ok (pages p)) cs;
  hd_once : NoDup (map s_page cs);
  hd_guards : guards p ≡ₚ guards_of cs
}.

Definition runs {A} (m : M P A) (p : P) (Q : A -> P -> Prop) : Prop :=
  match m p with (Ok a, p') => Q a p' | _ => False end.

(** ** Facts *)

Lemma runs_bind {A B} (m : M P A) (k : A -> M P B) p Q :
  runs m p (fun a p' => runs (k a) p' Q) -> runs (m ≫= k) p Q.
Proof. unfold runs, mbind, M_bind. destruct (m p) as [[a|e|] p']; done. Qed.

Lemma runs_mono {A} (m : M P A) p (Q R : A -> P -> Prop) : runs m p Q -> (forall a p', Q a p' -> R a p') -> runs m p R.
Proof. unfold runs. destruct (m p) as [[a|e|] p']; auto. Qed.

Lemma runs_ret {A} (a : A) p (Q : A -> P -> Prop) : Q a p -> runs (mret a) p Q.
Proof. done. Qed.

Lemma runs_pure {A} (r : result A) a p (Q : A -> P -> Prop) : r = Ok a -> Q a p -> runs (pure r) p Q.
Proof. by intros ->. Qed.

Lemma runs_eq {A} (m : M P A) p Q : runs m p Q -> exists a p', m p = (Ok a, p') /\ Q a p'.
Proof. unfold runs. destruct (m p) as [[a|e|] p']; [eauto|done|done]. Qed.

Lemma holds_perm np cs cs' p : holds np cs p -> cs ≡ₚ cs' -> holds np cs' p.
Proof. intros [? ? ? ? ? ? G] E. split; try done; by rewrite <- E. Qed.

Lemma holds_forget np a cs p : holds np (a ++ cs) p -> guards_of a = [] -> holds np cs p.
Proof.
  intros [? ? ? ? Sl On G] E. split; try done.
  - by apply Forall_app in Sl as [_ ?].
  - rewrite map_app in On. by apply NoDup_app in On as (_ & _ & ?).
  - by rewrite G, guards_of_app, E.
Qed.

Lemma holds_range np s cs p : holds np (s :: cs) p -> 0 <= s_page s < np.
Proof.
  intros [? ? <- ? Sl _ _]. apply Forall_cons in Sl as [[B Sh _] _]. split; [done|].
  destruct (pages p !! Z.to_nat (s_page s)) as [b|] eqn:E; [|done]. apply lookup_lt_Some in E. unfold len. lia.
Qed.

Lemma holds_ids np cs p : holds np cs p -> Forall (fun s => 0 <= s_page s < INVALID_PAGE) cs.
Proof.
  intros Hd. apply Forall_forall. intros s Hs. apply list_elem_of_split in Hs as (a & b & ->).
  pose proof (hd_most _ _ _ Hd). apply (holds_perm _ _ (s :: a ++ b)) in Hd; [|by rewrite Permutation_middle].
  apply holds_range in Hd. lia.
Qed.

Lemma page_apart (s s' : slot) cs : NoDup (map s_page (s :: cs)) -> s' ∈ cs -> s_page s' <> s_page s.
Proof. intros [N _]%NoDup_cons Hs E. apply N. rewrite <- E. apply list_elem_of_In, in_map. by apply list_elem_of_In. Qed.

Lemma guards_of_pages cs ps g : Forall (slot_ok ps) cs -> g ∈ guards_of cs -> page_id g ∈ map s_page cs.
Proof.
  induction cs as [|s cs IH]; intros F Hg; [by apply not_elem_of_nil in Hg|]. rewrite guards_of_cons in Hg.
  apply Forall_cons in F as [[_ _ L] F]. cbn. apply elem_of_app in Hg as [Hg|Hg]; [|by apply elem_of_cons; right; apply IH].
  apply elem_of_cons. left. destruct (s_latch s); cbn in *; [by apply not_elem_of_nil in Hg| |]; apply list_elem_of_singleton in Hg as ->; apply L.
Qed.

Lemma held_of_latches np cs p : holds np cs p -> forall i, i ∈ held (guards p) -> exists s, s ∈ cs /\ s_page s = i /\ s_latch s <> Free.
Proof.
  intros Hd i Hi. unfold held in Hi. rewrite (hd_guards _ _ _ Hd) in Hi. pose proof (hd_slots _ _ _ Hd) as F. clear Hd.
  induction cs as [|s cs IH]; [by apply not_elem_of_nil in Hi|]. rewrite guards_of_cons, map_app in Hi.
  apply Forall_cons in F as [[_ _ L] F]. apply elem_of_app in Hi as [Hi|Hi].
  - exists s. split; [apply list_elem_of_here|]. destruct (s_latch s); cbn in *; [by apply not_elem_of_nil in Hi| |];
      apply list_elem_of_singleton in Hi; by destruct L as [<- _].
  - destruct (IH Hi F) as (s' & ? & ?). exists s'. split; [by apply elem_of_cons; right|done].
Qed.

(** *** The calls of the pool *)

Lemma slot_free_held np i c cs p : holds np (mkSlot i c Free :: cs) p -> i ∉ held (guards p).
Proof.
  intros Hd Hi. destruct (held_of_latches _ _ _ Hd _ Hi) as (s & Hs & E & L). apply elem_of_cons in Hs as [->|Hs]; [done|].
  by apply (page_apart (mkSlot i c Free) s cs (hd_once _ _ _ Hd) Hs).
Qed.

Lemma becomes_latched np i c l g cs p p' :
  holds np (mkSlot i c Free :: cs) p -> latch_guards l = [g] -> latch_ok i l -> becomes p p' (pages p) (g :: guards p) ->
  holds np (mkSlot i c l :: cs) p'.
Proof.
  intros [Ok Sz Np Mo Sl On Gu] Lg Lo (O & Ep & Eg & Es). split; try done; [congruence|congruence| |].
  - rewrite Ep. apply Forall_cons in Sl as [[B Sh _] Sl]. by apply Forall_cons.
  - rewrite Eg, Gu. rewrite !guards_of_cons. cbn. by rewrite Lg.
Qed.

Lemma fetch_write_runs np i c cs p (Q : PageGuard -> P -> Prop) :
  holds np (mkSlot i c Free :: cs) p -> (length (guards_of cs) < frames)%nat ->
  (forall g p', page_id g = i -> holds np (mkSlot i c (Writes g) :: cs) p' -> Q g p') -> runs (fetch_page_write i) p Q.
Proof.
  intros Hd F K. pose proof (holds_range _ _ _ _ Hd) as R. cbn in R.
  assert (G : (length (guards p) < pool_size p)%nat) by (rewrite (hd_frames _ _ _ Hd), (Permutation_length (hd_guards _ _ _ Hd)); done).
  destruct (fetch_write_ok p i (hd_ok _ _ _ Hd) ltac:(rewrite (hd_pages _ _ _ Hd); lia) (slot_free_held _ _ _ _ _ Hd) G) as (g & p' & E & Eg & Wg & B).
  unfold runs. rewrite E. apply K; [done|]. by apply (becomes_latched np i c (Writes g) g cs p).
Qed.

Lemma fetch_read_runs np i c cs p (Q : PageGuard -> P -> Prop) :
  holds np (mkSlot i c Free :: cs) p -> (length (guards_of cs) < frames)%nat ->
  (forall g p', page_id g = i -> holds np (mkSlot i c (Reads g) :: cs) p' -> Q g p') -> runs (fetch_page_read i) p Q.
Proof.
  intros Hd F K. pose proof (holds_range _ _ _ _ Hd) as R. cbn in R.
  assert (G : (length (guards p) < pool_size p)%nat) by (rewrite (hd_frames _ _ _ Hd), (Permutation_length (hd_guards _ _ _ Hd)); done).
  destruct (fetch_read_ok p i (hd_ok _ _ _ Hd) ltac:(rewrite (hd_pages _ _ _ Hd); lia) (slot_free_held _ _ _ _ _ Hd) G) as (g & p' & E & Eg & Wg & B).
  unfold runs. rewrite E. apply K; [done|]. by apply (becomes_latched np i c (Reads g) g cs p).
Qed.

Lemma new_page_runs np cs p (Q : PageGuard -> P -> Prop) :
  holds np cs p -> np < INVALID_PAGE -> (length (guards_of cs) < frames)%nat ->
  (forall g p', page_id g = np -> holds (np + 1) (mkSlot np CRaw (Writes g) :: cs) p' -> Q g p') -> runs new_page p Q.
Proof.
  intros Hd L F K.
  assert (G : (length (guards p) < pool_size p)%nat) by (rewrite (hd_frames _ _ _ Hd), (Permutation_length (hd_guards _ _ _ Hd)); done).
  destruct (new_page_ok p (hd_ok _ _ _ Hd) ltac:(by rewrite (hd_pages _ _ _ Hd)) G) as (g & p' & E & Eg & Wg & Ok' & Ep & Egs & Es).
  rewrite (hd_pages _ _ _ Hd) in Eg. unfold runs. rewrite E. apply K; [done|]. pose proof (len_nonneg (pages p)) as N.
  destruct Hd as [Ok Sz Np Mo Sl On Gu]. split; try done; [congruence|rewrite Ep, len_app, Np; done|lia| | |].
  - rewrite Ep. constructor.
    + split; cbn; [lia| |done]. rewrite lookup_app_r by (unfold len in *; lia).
      by replace (Z.to_nat np - length (pages p))%nat with 0%nat by (unfold len in *; lia).
    + eapply Forall_impl; [exact Sl|]. intros s [B Sh La]. split; [done| |done].
      destruct (pages p !! Z.to_nat (s_page s)) as [b|] eqn:Eb; [|done]. by rewrite (lookup_app_l_Some _ _ _ b).
  - apply NoDup_cons. split; [|done]. intros (s & Es' & Hs)%list_elem_of_fmap.
    pose proof (proj1 (Forall_forall _ _) Sl s Hs) as [B Sh _]. destruct (pages p !! Z.to_nat (s_page s)) as [b|] eqn:Eb; [|done].
    apply lookup_lt_Some in Eb. unfold len in *. cbn in Es'. lia.
  - rewrite Egs, Gu, guards_of_cons. done.
Qed.

Lemma drop_runs np i c l g cs p (Q : unit -> P -> Prop) :
  holds np (mkSlot i c l :: cs) p -> latch_guards l = [g] ->
  (forall p', holds np (mkSlot i c Free :: cs) p' -> Q tt p') -> runs (drop_guard g) p Q.
Proof.
  intros Hd Lg K. assert (Hg : g ∈ guards p).
  { rewrite (hd_guards _ _ _ Hd), guards_of_cons. cbn. rewrite Lg. apply list_elem_of_here. }
  destruct (drop_guard_ok p g (hd_ok _ _ _ Hd) Hg) as (p' & E & Ok' & Ep & Eg & Es). unfold runs. rewrite E. apply K.
  destruct Hd as [Ok Sz Np Mo Sl On Gu]. apply Forall_cons in Sl as [[B Sh La] Sl].
  assert (Ei : page_id g = i) by (by destruct l; cbn in *; [done| |]; injection Lg as ->; destruct La).
  split; try done; [congruence|congruence| |].
  - rewrite Ep. by constructor.
  - rewrite Eg, Gu, guards_of_cons, guards_of_cons. cbn. rewrite Lg. cbn. rewrite Ei, Z.eqb_refl. cbn. fold (without i (guards_of cs)). rewrite without_held; [done|]. intros (g' & Eg' & Hg')%list_elem_of_fmap.
    apply NoDup_cons in On as [On _]. apply On. cbn. rewrite Eg'. by apply (guards_of_pages cs (pages p)).
Qed.

Lemma page_of_runs np s cs p g (Q : bytes -> P -> Prop) :
  holds np (s :: cs) p -> g ∈ latch_guards (s_latch s) -> (forall b, shows crc32 (s_content s) b -> Q b p) -> runs (page_of g) p Q.
Proof.
  intros Hd Hg K. assert (Hp : g ∈ guards p) by (rewrite (hd_guards _ _ _ Hd), guards_of_cons; apply elem_of_app; by left).
  pose proof (hd_slots _ _ _ Hd) as Sl. apply Forall_cons in Sl as [[B Sh La] _].
  destruct (pages p !! Z.to_nat (s_page s)) as [b|] eqn:Eb; [|done]. unfold runs, page_of.
  rewrite (as_slice_ok p g b); [by apply K|by apply hd_ok in Hd|done|].
  by destruct (s_latch s); cbn in *; [apply not_elem_of_nil in Hg| |]; try (apply list_elem_of_singleton in Hg as ->; destruct La as [-> _]).
Qed.

Lemma set_slice_runs np i c c' g b cs p (Q : unit -> P -> Prop) :
  holds np (mkSlot i c (Writes g) :: cs) p -> len b = PAGE_SIZE -> shows crc32 c' b ->
  (forall p', holds np (mkSlot i c' (Writes g) :: cs) p' -> Q tt p') -> runs (set_slice g b) p Q.
Proof.
  intros Hd Lb Sb K. assert (Hp : g ∈ guards p) by (rewrite (hd_guards _ _ _ Hd), guards_of_cons; apply elem_of_app; left; apply list_elem_of_here).
  pose proof (hd_slots _ _ _ Hd) as Sl. apply Forall_cons in Sl as [[B Sh [Ei Wg]] Sl]. cbn in *.
  destruct (set_slice_ok p g b (hd_ok _ _ _ Hd) Hp Wg Lb) as (p' & E & Ok' & Ep & Eg & Es). unfold runs. rewrite E. apply K.
  pose proof (hd_once _ _ _ Hd) as On. destruct Hd as [Ok Sz Np Mo _ _ Gu].
  assert (Li : (Z.to_nat i < length (pages p))%nat) by (destruct (pages p !! Z.to_nat i) eqn:El; [by apply lookup_lt_Some in El|done]).
  split; try done; [congruence|rewrite Ep, <- Np; unfold len; by rewrite length_insert| |by rewrite Eg, Gu].
  rewrite Ep, Ei. constructor.
  - split; cbn; [done| |done]. by rewrite list_lookup_insert_eq.
  - apply Forall_forall. intros s Hs. pose proof (proj1 (Forall_forall _ _) Sl s Hs) as [B' Sh' La']. split; [done| |done].
    pose proof (page_apart (mkSlot i c (Writes g)) s cs On Hs) as Ne. cbn in Ne. rewrite list_lookup_insert_ne by lia. done.
Qed.

Lemma shows_sized c b : shows crc32 c b -> len b = PAGE_SIZE.
Proof. by destruct c as [r|n|n|]; [intros [[? _] _]..|]. Qed.

Lemma edit_runs np i c c' g f cs p (Q : unit -> P -> Prop) :
  holds np (mkSlot i c (Writes g) :: cs) p -> (forall b, len b = PAGE_SIZE -> exists b', f b = Ok b' /\ shows crc32 c' b') ->
  (forall p', holds np (mkSlot i c' (Writes g) :: cs) p' -> Q tt p') -> runs (edit_page g f) p Q.
Proof.
  intros Hd Hf K. unfold edit_page. apply runs_bind. apply (page_of_runs np _ cs p g _ Hd); [apply list_elem_of_here|]. intros b Sb.
  destruct (Hf b (shows_sized _ _ Sb)) as (b' & Eb & Sb'). apply runs_bind, (runs_pure _ b'); [done|].
  apply (set_slice_runs np i c c' g b' cs); [done|by apply (shows_sized c')|done|done].
Qed.

Lemma drop_each_runs gs : forall np ds cs p (Q : unit -> P -> Prop),
  holds np (ds ++ cs) p -> gs ≡ₚ guards_of ds ->
  (forall p', holds np (map free ds ++ cs) p' -> Q tt p') -> runs (drop_each gs) p Q.
Proof.
  induction gs as [|g gs IH]; intros np ds cs p Q Hd E K; cbn [drop_each].
  - apply runs_ret, K. symmetry in E. apply Permutation_nil_r in E. by rewrite free_id.
  - assert (Hg : g ∈ guards_of ds) by (rewrite <- E; apply list_elem_of_here).
    assert (exists a s b, ds = a ++ s :: b /\ latch_guards (s_latch s) = [g]) as (a & [i c l] & b & -> & Lg).
    { clear -Hg. induction ds as [|s ds IH]; [by apply not_elem_of_nil in Hg|]. rewrite guards_of_cons in Hg.
      apply elem_of_app in Hg as [Hg|(a & s' & b & -> & L)%IH]; [|by exists (s :: a), s', b]. exists [], s, ds. split; [done|].
      destruct (s_latch s); cbn in *; [by apply not_elem_of_nil in Hg|by apply list_elem_of_singleton in Hg as ->..]. }
    cbn in Lg. apply runs_bind. apply (drop_runs np i c l g (a ++ b ++ cs)); [|done|].
    { eapply holds_perm; [exact Hd|]. perm. }
    intros p' Hd'. apply (IH np (a ++ mkSlot i c Free :: b) cs).
    + eapply holds_perm; [exact Hd'|]. perm.
    + rewrite guards_of_app, !guards_of_cons in *. cbn in *. rewrite Lg in E. cbn in E.
      rewrite <- Permutation_middle in E. by apply Permutation_cons_inv in E.
    + intros p'' Hd''. apply K. by rewrite !map_app in *.
Qed.

Lemma flush_runs np cs p (Q : unit -> P -> Prop) :
  holds np cs p -> (forall p', holds np cs p' -> Q tt p') -> runs flush_all_pages p Q.
Proof.
  intros [Ok Sz Np Mo Sl On Gu] K. destruct (flush_all_ok p Ok) as (p' & E & Ok' & Ep & Eg & Es). unfold runs. rewrite E. apply K.
  split; try done; [congruence|congruence|by rewrite Ep|by rewrite Eg].
Qed.

(** What a call still holds is dropped at its end. *)
Lemma scoped_runs {A} np cs (m : M P A) p (Q : A -> P -> Prop) :
  holds np cs p -> guards_of cs = [] ->
  runs m p (fun a p' => exists np' cs', holds np' cs' p' /\ (forall p'', holds np' (map free cs') p'' -> Q a p'')) ->
  runs (scoped m) p Q.
Proof.
  intros Hd E R. apply runs_eq in R as (a & p' & Em & np' & cs' & Hd' & K). unfold runs, scoped. rewrite Em.
  assert (Ep : guards p = []) by (pose proof (hd_guards _ _ _ Hd) as G; rewrite E in G; by apply Permutation_nil_r in G).
  rewrite Ep. replace (List.filter _ (guards p')) with (guards p').
  2:{ symmetry. apply filter_id_on. intros g _. apply bool_decide_eq_true. apply not_elem_of_nil. }
  assert (D : runs (drop_each (guards p')) p' (fun _ p'' => holds np' (map free cs') p'')).
  { apply (drop_each_runs _ np' cs' []); [by rewrite app_nil_r|apply (hd_guards _ _ _ Hd')|]. intros p''. by rewrite app_nil_r. }
  apply runs_eq in D as (u & p'' & Ed & D). rewrite Ed. by apply K.
Qed.

(** *** Pages as nodes *)

Lemma holds_shows np s cs p : holds np (s :: cs) p -> exists b, shows crc32 (s_content s) b.
Proof.
  intros Hd. pose proof (hd_slots _ _ _ Hd) as Sl. apply Forall_cons in Sl as [[_ Sh _] _].
  destruct (pages p !! Z.to_nat (s_page s)) as [b|]; [eauto|done].
Qed.

Lemma holds_internal_fits np i n l cs p : holds np (mkSlot i (CNode n) l :: cs) p -> internal_fits n.
Proof. intros Hd. apply holds_shows in Hd as (b & _ & F). done. Qed.

Lemma holds_leaf_fits np i n l cs p : holds np (mkSlot i (CLeaf n) l :: cs) p -> leaf_fits n.
Proof. intros Hd. apply holds_shows in Hd as (b & _ & F). done. Qed.

Lemma read_internal_at_runs np i n l g cs p (Q : InternalNode -> P -> Prop) :
  holds np (mkSlot i (CNode n) l :: cs) p -> g ∈ latch_guards l -> Q n p -> runs (read_internal_at crc32 g) p Q.
Proof.
  intros Hd Hg K. apply runs_bind, (page_of_runs np _ cs p g _ Hd); [done|]. intros b Sb.
  by apply (runs_pure _ n); [apply decode_internal_ok|].
Qed.

Lemma read_leaf_at_runs np i n l g cs p (Q : LeafNode -> P -> Prop) :
  holds np (mkSlot i (CLeaf n) l :: cs) p -> g ∈ latch_guards l -> Q n p -> runs (read_leaf_at crc32 g) p Q.
Proof.
  intros Hd Hg K. apply runs_bind, (page_of_runs np _ cs p g _ Hd); [done|]. intros b Sb.
  by apply (runs_pure _ n); [apply decode_leaf_ok|].
Qed.

Lemma read_header_at_runs np i r l g cs p (Q : BTreeHeaderPage -> P -> Prop) :
  holds np (mkSlot i (CHeader r) l :: cs) p -> g ∈ latch_guards l -> Q (mkHeaderPage r) p -> runs (read_header_at crc32 g) p Q.
Proof.
  intros Hd Hg K. apply runs_bind, (page_of_runs np _ cs p g _ Hd); [done|]. intros b Sb.
  by apply (runs_pure _ (mkHeaderPage r)); [apply header_decode_ok|].
Qed.

Lemma node_type_internal_runs np i n l g cs p (Q : NodeType -> P -> Prop) :
  holds np (mkSlot i (CNode n) l :: cs) p -> g ∈ latch_guards l -> Q Internal p -> runs (node_type_of g) p Q.
Proof.
  intros Hd Hg K. apply runs_bind, (page_of_runs np _ cs p g _ Hd); [done|]. intros b Sb.
  apply runs_bind, (runs_pure _ (node_type_byte Internal)); [by apply (internal_type_byte crc32 n)|]. by apply (runs_pure _ Internal).
Qed.

Lemma node_type_leaf_runs np i n l g cs p (Q : NodeType -> P -> Prop) :
  holds np (mkSlot i (CLeaf n) l :: cs) p -> g ∈ latch_guards l -> Q Leaf p -> runs (node_type_of g) p Q.
Proof.
  intros Hd Hg K. apply runs_bind, (page_of_runs np _ cs p g _ Hd); [done|]. intros b Sb.
  apply runs_bind, (runs_pure _ (node_type_byte Leaf)); [by apply (leaf_type_byte crc32 crc32_u32 n)|]. by apply (runs_pure _ Leaf).
Qed.

Lemma write_internal_runs np i c n g cs p (Q : unit -> P -> Prop) :
  holds np (mkSlot i c (Writes g) :: cs) p -> internal_fits n ->
  (forall p', holds np (mkSlot i (CNode n) (Writes g) :: cs) p' -> Q tt p') -> runs (write_internal crc32 g n) p Q.
Proof.
  intros Hd F K. apply (edit_runs np i c (CNode n) g _ cs p); [done| |done]. intros b Lb.
  destruct (encode_internal_ok crc32 n b F Lb) as (b' & off & E & Sb). exists b'. by rewrite E.
Qed.

Lemma write_leaf_runs np i c n g cs p (Q : unit -> P -> Prop) :
  holds np (mkSlot i c (Writes g) :: cs) p -> leaf_fits n ->
  (forall p', holds np (mkSlot i (CLeaf n) (Writes g) :: cs) p' -> Q tt p') -> runs (write_leaf crc32 g n) p Q.
Proof.
  intros Hd F K. apply (edit_runs np i c (CLeaf n) g _ cs p); [done| |done]. intros b Lb.
  destruct (encode_leaf_ok crc32 n b F Lb) as (b' & off & E & Sb). exists b'. by rewrite E.
Qed.

Lemma write_root_runs np i c r g cs p (Q : unit -> P -> Prop) :
  holds np (mkSlot i c (Writes g) :: cs) p -> in_u32 r = true ->
  (forall p', holds np (mkSlot i (CHeader r) (Writes g) :: cs) p' -> Q tt p') -> runs (write_root crc32 g r) p Q.
Proof.
  intros Hd F K. apply (edit_runs np i c (CHeader r) g _ cs p); [done| |done]. intros b Lb.
  by apply header_encode_ok.
Qed.
End heap.

(** ** Bringing a slot to the front *)

(** Split the slot of page [i] off a list of slots. *)
Ltac slot_of i cs :=
  match cs with
  | mkSlot i ?c ?l :: ?r => constr:((mkSlot i c l, r))
  | ?x :: ?r => let q := slot_of i r in match q with (?s, ?r') => constr:((s, x :: r')) end
  | ?a ++ ?b => let q := slot_of i a in match q with (?s, ?r') => constr:((s, r' ++ b)) end
  | ?a ++ ?b => let q := slot_of i b in match q with (?s, ?r') => constr:((s, a ++ r')) end
  end.

Ltac front i Hd :=
  lazymatch type of Hd with
  | holds ?crc ?fr ?np ?cs ?p =>
      let q := slot_of i cs in
      lazymatch q with (?s, ?r) => apply (holds_perm crc fr np cs (s :: r) p) in Hd; [|perm] end
  end.

(** The same for a slot that is given. *)
Ltac without_slot s cs :=
  match cs with
  | s :: ?r => r
  | ?x :: ?r => let r' := without_slot s r in constr:(x :: r')
  | ?a ++ ?b => let r' := without_slot s a in constr:(r' ++ b)
  | ?a ++ ?b => let r' := without_slot s b in constr:(a ++ r')
  end.

Ltac bring s Hd :=
  lazymatch type of Hd with
  | holds ?crc ?fr ?np ?cs ?p =>
      let r := without_slot s cs in apply (holds_perm crc fr np cs (s :: r) p) in Hd; [|perm]
  end.

(** The same slots in another order. *)
Ltac reorder Hd := eapply holds_perm; [exact Hd|perm].

(** Apply a rule to the slot at the front of [Hd]. *)
Ltac rule R Hd :=
  first [eapply R; [exact Hd|..] | eapply R; [eassumption|exact Hd|..] | eapply R; [eassumption|eassumption|exact Hd|..]].
(** The same for a rule that reads the page of a guard. *)
Ltac reads R Hd := rule R Hd; [apply list_elem_of_here|].
