(* ===== verification/BSlots.v ===== *)
(** The pages of a B+tree.

    [tree_slots] lists the pages of a tree: its internal nodes and its leaves,
    linked with each other in key order.  [along] splits them along a path: the
    nodes of the path, what hangs off it, the node at its end, and the rest.
    Only the page numbers of the leaves are kept in the tree; their links are
    where they stand. *)

From Stdlib Require Import ZArith Lia List Bool.
From S2P Require Import Prelude Common Engine Page BNode BNodeSpec BLayout BPages Pool BTree BShape BHeap.
From AAC_tactics Require Import AAC.
From coqutil Require Import Byte.
From stdpp Require Import base list strings sorting.
#[local] Open Scope Z_scope.

(** ** The leaves *)

Definition relink (prev next : PageId) (n : LeafNode) : LeafNode :=
  mkLeaf (l_header n) next prev (l_keys n) (l_values n) (tombstones n).

Definition first_of (ls : list (PageId * LeafNode)) (next : PageId) : PageId := match ls with (i, _) :: _ => i | [] => next end.
Definition last_of (prev : PageId) (ls : list (PageId * LeafNode)) : PageId := match last ls with Some (i, _) => i | None => prev end.

Fixpoint link (prev : PageId) (ls : list (PageId * LeafNode)) (next : PageId) : list slot :=
  match ls with
  | [] => []
  | (i, n) :: rest => mkSlot i (CLeaf (relink prev (first_of rest next) n)) Free :: link i rest next
  end.

Definition relatch (l : latch) (f : frame) : frame := mkFrame (f_page f) (f_left f) (f_key f) (f_right f) l.

Section slots.
Context (bt : BTree).

(** ** The internal nodes *)

Fixpoint inner (t : tree) : list slot :=
  match t with
  | TLeaf _ _ => []
  | TNode p kids => mkSlot p (CNode (node_of bt kids)) Free :: concat (map (fun '(_, c) => inner c) kids)
  end.
Definition inners (kids : list kid) : list slot := concat (map (fun '(_, c) => inner c) kids).

Definition tree_slots (t : tree) : list slot := inner t ++ link INVALID_PAGE (leaves t) INVALID_PAGE.

(** ** Along a path *)

Definition own_slot (f : frame) (t : tree) : slot :=
  mkSlot (f_page f) (CNode (node_of bt (f_left f ++ (f_key f, t) :: f_right f))) (f_latch f).

Fixpoint own (path : list frame) (t : tree) : list slot :=
  match path with [] => [] | f :: fs => own_slot f t :: own fs (fill f t) end.

Fixpoint sibs (path : list frame) : list slot :=
  match path with [] => [] | f :: fs => inners (f_left f) ++ inners (f_right f) ++ sibs fs end.

Definition cur_content (path : list frame) (t : tree) : content :=
  match t with
  | TLeaf _ n => CLeaf (relink (last_of INVALID_PAGE (leavesL path)) (first_of (leavesR path) INVALID_PAGE) n)
  | TNode _ kids => CNode (node_of bt kids)
  end.

Definition cur_rest (path : list frame) (t : tree) : list slot :=
  match t with
  | TLeaf q _ => link INVALID_PAGE (leavesL path) q ++ link q (leavesR path) INVALID_PAGE
  | TNode _ kids => inners kids ++ link INVALID_PAGE (leavesL path ++ leaves t ++ leavesR path) INVALID_PAGE
  end.

Definition along (la : latch) (path : list frame) (t : tree) : list slot :=
  mkSlot (root t) (cur_content path t) la :: own path t ++ sibs path ++ cur_rest path t.

(** ** Facts *)

Lemma next_of_app a b next : first_of (a ++ b) next = first_of a (first_of b next).
Proof. by destruct a as [|[]]. Qed.

Lemma last_of_cons prev i n ls : last_of prev ((i, n) :: ls) = last_of i ls.
Proof. unfold last_of. destruct ls as [|x ls]; [done|]. change (last ((i, n) :: x :: ls)) with (last (x :: ls)).
  destruct (last (x :: ls)) eqn:E; [done|]. by apply last_None in E. Qed.

Lemma last_of_app prev a b : last_of prev (a ++ b) = last_of (last_of prev a) b.
Proof. revert prev. induction a as [|[i n] a IH]; intros prev; [done|]. cbn [app]. by rewrite !last_of_cons, IH. Qed.

Lemma link_app prev a b next : link prev (a ++ b) next = link prev a (first_of b next) ++ link (last_of prev a) b next.
Proof.
  revert prev. induction a as [|[i n] a IH]; intros prev; [done|]. cbn [app link]. by rewrite last_of_cons, IH, next_of_app.
Qed.

Lemma link_mid prev a q n b next :
  link prev (a ++ (q, n) :: b) next =
  link prev a q ++ mkSlot q (CLeaf (relink (last_of prev a) (first_of b next) n)) Free :: link q b next.
Proof. by rewrite link_app. Qed.

Lemma guards_of_link prev ls next : guards_of (link prev ls next) = [].
Proof. revert prev. by induction ls as [|[i n] ls IH]; intros prev; [|apply IH]. Qed.

Lemma inners_app a b : inners (a ++ b) = inners a ++ inners b.
Proof. unfold inners. by rewrite map_app, concat_app. Qed.

Lemma inners_cons k t l : inners ((k, t) :: l) = inner t ++ inners l.
Proof. done. Qed.

Lemma inner_node p kids : inner (TNode p kids) = mkSlot p (CNode (node_of bt kids)) Free :: inners kids.
Proof. done. Qed.

Lemma tree_rect_kids (Q : tree -> Prop) :
  (forall p n, Q (TLeaf p n)) -> (forall p kids, Forall (fun k => Q k.2) kids -> Q (TNode p kids)) -> forall t, Q t.
Proof.
  intros HL HN. fix IH 1. intros [p n|p kids]; [apply HL|]. apply HN. induction kids as [|[k t] kids IHk]; constructor; [apply IH|apply IHk].
Qed.

Lemma guards_of_inner t : guards_of (inner t) = [].
Proof.
  induction t as [|p kids IH] using tree_rect_kids; [done|]. rewrite inner_node, guards_of_cons. cbn [s_latch latch_guards app].
  induction IH as [|[k t] l Ht _ IHl]; [done|]. change (inners ((k, t) :: l)) with (inner t ++ inners l). cbn [snd] in Ht. by rewrite guards_of_app, Ht, IHl.
Qed.

Lemma guards_of_inners l : guards_of (inners l) = [].
Proof. induction l as [|[k t] l IH]; [done|]. by rewrite inners_cons, guards_of_app, guards_of_inner. Qed.

Lemma guards_of_sibs path : guards_of (sibs path) = [].
Proof. induction path as [|f fs IH]; [done|]. cbn [sibs]. by rewrite !guards_of_app, !guards_of_inners. Qed.

Lemma guards_of_rest path t : guards_of (cur_rest path t) = [].
Proof. destruct t; cbn [cur_rest]; by rewrite guards_of_app, ?guards_of_inners, !guards_of_link. Qed.

Lemma guards_of_own path : forall t, guards_of (own path t) = concat (map (fun f => latch_guards (f_latch f)) path).
Proof. induction path as [|f fs IH]; intros t; [done|]. cbn [own]. rewrite guards_of_cons, IH. done. Qed.

Lemma node_of_root l1 k t t' l2 : root t = root t' -> node_of bt (l1 ++ (k, t) :: l2) = node_of bt (l1 ++ (k, t') :: l2).
Proof. intros E. unfold node_of. rewrite !map_app. cbn. by rewrite E, !len_app. Qed.

Lemma own_root path : forall t t', root t = root t' -> own path t = own path t'.
Proof.
  induction path as [|f fs IH]; intros t t' E; [done|]. cbn [own]. f_equal; [|by apply IH]. unfold own_slot. by rewrite (node_of_root _ _ t t').
Qed.

(** The slots of a path whose last frame is latched otherwise. *)
Lemma along_relatch la l f path t X :
  along la (relatch l f :: path) t ++ X =
  mkSlot (root t) (cur_content (f :: path) t) la :: mkSlot (f_page f) (CNode (node_of bt (f_left f ++ (f_key f, t) :: f_right f))) l ::
  own path (fill f t) ++ sibs (f :: path) ++ cur_rest (f :: path) t ++ X.
Proof. unfold along. cbn [app]. rewrite <- !app_assoc. by destruct t. Qed.

Lemma along_app la path t X :
  along la path t ++ X = mkSlot (root t) (cur_content path t) la :: own path t ++ sibs path ++ cur_rest path t ++ X.
Proof. unfold along. cbn. by rewrite <- !app_assoc. Qed.

(** One step down, with the frame of the node that is left. *)
Lemma along_down f path t : along (f_latch f) path (fill f t) ≡ₚ along Free (f :: path) t.
Proof.
  unfold along. cbn [own sibs fill root cur_content cur_rest]. fold (fill f t). unfold own_slot.
  rewrite leaves_fill, inners_app, inners_cons. destruct t as [q n|q kids]; cbn [root inner leaves cur_content cur_rest leavesL leavesR].
  - replace (leavesL path ++ (kid_leaves (f_left f) ++ [(q, n)] ++ kid_leaves (f_right f)) ++ leavesR path)
      with ((leavesL path ++ kid_leaves (f_left f)) ++ (q, n) :: kid_leaves (f_right f) ++ leavesR path) by by rewrite <- !app_assoc.
    rewrite link_mid. perm.
  - fold (inners kids). rewrite <- !app_assoc. perm.
Qed.

Lemma along_top t : along Free [] t ≡ₚ tree_slots t.
Proof.
  unfold along, tree_slots. destruct t as [q n|q kids]; cbn; [done|]. rewrite app_nil_r. fold (inners kids). perm.
Qed.

Lemma free_along la path t : map free (along la path t) = map free (along Free path t).
Proof. done. Qed.

(** Without its latches a tree along a path is the tree. *)
Lemma along_plug path : forall la t, map free (along la path t) ≡ₚ tree_slots (plug path t).
Proof.
  induction path as [|f fs IH]; intros la t.
  - rewrite free_along, (along_top t). rewrite free_id; [done|]. unfold tree_slots. by rewrite guards_of_app, guards_of_inner, guards_of_link.
  - rewrite free_along, <- along_down. apply (IH (f_latch f) (fill f t)).
Qed.

Lemma inner_plug path : forall t, inner (plug path t) ≡ₚ map free (own path t) ++ sibs path ++ inner t.
Proof.
  induction path as [|f fs IH]; intros t; [done|]. change (plug (f :: fs) t) with (plug fs (fill f t)). rewrite IH. cbn [own sibs map].
  unfold fill at 2. rewrite inner_node, inners_app, inners_cons. change (free (own_slot f t)) with
    (mkSlot (f_page f) (CNode (node_of bt (f_left f ++ (f_key f, t) :: f_right f))) Free). perm.
Qed.

(** *** Nodes fit their pages *)

Context (kmax emax : Z).
Hypothesis So : sizes_ok bt kmax emax.

Lemma imax_u16 : Z.of_nat (imax bt) = internal_max_size bt /\ 4 <= internal_max_size bt <= 678.
Proof.
  destruct So as [_ Hi _ [Hk _] _ Hr]. unfold imax. change INTERNAL_HEADER_SIZE with 25 in Hr. change PAGE_SIZE with 4096 in Hr.
  split; [lia|]. nia.
Qed.

Lemma lmax_small : 2 <= leaf_max_size bt /\ leaf_max_size bt + Z.of_nat (max_tombstones bt) <= 1011.
Proof.
  destruct So as [Hl _ _ [Hk Hk'] Hr _]. change (LEAF_HEADER_SIZE + 2 * MAX_TOMBSTONES) with 49 in Hr. change PAGE_SIZE with 4096 in Hr.
  split; [lia|]. nia.
Qed.

Lemma sum_list_bound (l : list nat) m : Forall (fun x => Z.of_nat x <= m) l -> Z.of_nat (sum_list l) <= len l * m.
Proof. induction 1 as [|x l Hx _ IH]; [done|]. rewrite len_cons. cbn. lia. Qed.

Lemma node_fits kids :
  (length kids <= imax bt)%nat -> Forall (fun k => len k.1 <= kmax) kids -> Forall (fun k => in_u32 (root k.2) = true) kids ->
  internal_fits (node_of bt kids).
Proof.
  intros L Fk Fi. pose proof imax_u16 as [Ei Bi]. split; cbn.
  - done.
  - unfold len. by rewrite length_map.
  - unfold in_u16. lia.
  - by rewrite !length_map.
  - by apply Forall_fmap.
  - unfold internal_body. cbn. rewrite len_children by by rewrite !length_map.
    destruct So as [_ _ _ [Hk _] _ Hr]. etransitivity; [|exact Hr].
    assert (B : Z.of_nat (sum_list (map (fun k : bytes => length k + 6)%nat (map fst kids))) <= len kids * (kmax + 6)).
    { rewrite map_map. etransitivity; [apply (sum_list_bound _ (kmax + 6))|unfold len; by rewrite length_map].
      apply Forall_fmap. eapply Forall_impl; [exact Fk|]. intros [k t] Hx. cbn in *. unfold len in Hx. lia. }
    assert (len kids * (kmax + 6) <= internal_max_size bt * (kmax + 6)) by (unfold len; nia). lia.
Qed.

Lemma leaf_row_fits lo hi n r prev next :
  leaf_row_wf bt kmax emax lo hi n r -> len r <= leaf_max_size bt + Z.of_nat (max_tombstones bt) ->
  in_u32 prev = true -> in_u32 next = true -> leaf_fits (relink prev next n).
Proof.
  intros [[[Ek Ev Em _] Eh] _ W T] L Ip In. pose proof lmax_small as [B1 B2]. split; cbn.
  - by rewrite Eh.
  - rewrite Eh, Ek. cbn. unfold len, row_keys. by rewrite length_map.
  - rewrite Eh. cbn. unfold in_u16. lia.
  - done.
  - rewrite Ek, Ev. unfold row_keys, row_values. by rewrite !length_map.
  - split; [destruct So; unfold len; lia|]. apply Forall_forall. intros t Ht. pose proof (marks_range _ _ _ Em Ht). unfold in_u16. lia.
  - unfold leaf_body. cbn. rewrite len_app, Ek, Ev, len_entries by by unfold row_keys, row_values; rewrite !length_map.
    assert (Lt : len (concat (map (to_le_bytes 2) (tombstones n))) <= 2 * MAX_TOMBSTONES).
    { transitivity (2 * len (tombstones n)); [|destruct So; unfold len; lia]. clear. induction (tombstones n) as [|t ts IH]; [done|].
      cbn [map concat]. rewrite len_app, len_cons. change (len (to_le_bytes 2 t)) with 2. lia. }
    assert (Le : Z.of_nat (sum_list (map (fun e : bytes * bytes => length e.1 + length e.2 + 4)%nat (combine (row_keys r) (row_values r)))) <= len r * (emax + 4)).
    { replace (combine (row_keys r) (row_values r)) with (map fst r) by (clear; induction r as [|[[k v] d] r IH]; cbn; [done|by rewrite IH]).
      rewrite map_map. etransitivity; [apply (sum_list_bound _ (emax + 4))|unfold len; by rewrite length_map].
      apply Forall_fmap. eapply Forall_impl; [exact W|]. intros [[k v] d] [_ [_ Hx]]. cbn in *. unfold len in Hx. lia. }
    destruct So as [_ _ _ [Hk Hk'] Hr _].
    assert (len r * (emax + 4) <= (leaf_max_size bt + Z.of_nat (max_tombstones bt)) * (emax + 4)) by nia. lia.
Qed.
End slots.
