(* ===== verification/BWalk.v ===== *)
(** Reading a B+tree: the walk from the root to a leaf, and what [get] returns. *)

From Stdlib Require Import ZArith Lia List Bool.
From S2P Require Import Prelude Common Engine Page BNode BNodeSpec BLayout BPages Pool BTree BShape BHeap BSlots.
From AAC_tactics Require Import AAC.
From coqutil Require Import Byte.
From stdpp Require Import base list strings sorting.
#[local] Open Scope Z_scope.

(** The root that the header page names. *)
Definition root_id (o : option tree) : PageId := match o with Some t => root t | None => INVALID_PAGE end.
Definition slots_of (bt : BTree) (o : option tree) : list slot := match o with Some t => tree_slots bt t | None => [] end.
Definition contents_of (o : option tree) : list entry := match o with Some t => contents t | None => [] end.

Lemma map_length_eq {A B} (f : A -> B) l : length (map f l) = length l.
Proof. apply length_map. Qed.

Create HintDb room discriminated.
#[export] Hint Rewrite @guards_of_app @guards_of_cons @length_app @guards_of_link @guards_of_inner @guards_of_inners @guards_of_sibs
  @guards_of_rest @guards_of_own : room.

(** A frame of the pool is left. *)
Ltac room := autorewrite with room; simpl; lia.

Section walk.
Context {P : Type} `{BufferPool P} (crc32 : bytes -> Z) (frames : nat) (bt : BTree) (kmax emax : Z).
Hypothesis crc32_u32 : forall b, in_u32 (crc32 b) = true.
Hypothesis Sizes : sizes_ok bt kmax emax.

Abbreviation wf := (wf bt kmax emax).
Abbreviation path_wf := (path_wf bt kmax emax).

Definition header_slot (r : PageId) (la : latch) : slot := mkSlot (header_page_id bt) (CHeader r) la.

(** The pool between two calls. *)
Definition rests (np : Z) (o : option tree) (p : P) : Prop := holds crc32 frames np (header_slot (root_id o) Free :: slots_of bt o) p.

Definition forest_wf (h : nat) (o : option tree) : Prop := match o with Some t => wf h 2 [] None t | None => True end.

Definition unlatched (path : list frame) : Prop := Forall (fun f => f_latch f = Free) path.

(** A choice of a child that keeps [I]. *)
Definition picks (pick : InternalNode -> result nat) (I : list frame -> Prop) : Prop :=
  forall h path q kids, wf (S h) (least_of bt path) (lower path) (upper path) (TNode q kids) -> path_wf (S h) path -> I path ->
  exists l1 k c l2, kids = l1 ++ (k, c) :: l2 /\ pick (node_of bt kids) = Ok (length l1) /\ I (mkFrame q l1 k l2 Free :: path).

Lemma in_u32_page i : 0 <= i <= INVALID_PAGE -> in_u32 i = true.
Proof. change INVALID_PAGE with 4294967295. unfold in_u32. lia. Qed.

Lemma root_not_invalid np t la X p : holds crc32 frames np (along bt la [] t ++ X) p -> root t <> INVALID_PAGE.
Proof. intros Hd%holds_ids. apply Forall_cons in Hd as [Hd _]. cbn in Hd. lia. Qed.

Lemma unlatched_guards path : unlatched path -> concat (map (fun f => latch_guards (f_latch f)) path) = [].
Proof. induction 1 as [|f fs E _ IH]; [done|]. cbn. by rewrite E, IH. Qed.

Lemma child_at_mid l1 k c l2 : child_at (length l1) (node_of bt (l1 ++ (k, c) :: l2)) = Ok (root c).
Proof.
  unfold child_at, vec_at, node_of. cbn. rewrite map_app, lookup_app_r by by rewrite length_map. by rewrite length_map, Nat.sub_diag.
Qed.

Lemma descend_read_runs pick I (Hp : picks pick I) np X depth : forall h path t g p (Q : PageGuard -> P -> Prop),
  holds crc32 frames np (along bt (Reads g) path t ++ X) p ->
  wf h (least_of bt path) (lower path) (upper path) t -> path_wf h path -> unlatched path -> I path ->
  (h < depth)%nat -> (S (length (guards_of X)) < frames)%nat ->
  (forall path' q n g' p', plug path' (TLeaf q n) = plug path t -> wf 0 (least_of bt path') (lower path') (upper path') (TLeaf q n) ->
     path_wf 0 path' -> I path' -> holds crc32 frames np (along bt (Reads g') path' (TLeaf q n) ++ X) p' -> page_id g' = q -> Q g' p') ->
  runs (descend_read crc32 depth pick g) p Q.
Proof.
  induction depth as [|depth IH]; intros h path t g p Q Hd W Pw Fr Ip Lt Ro K; [lia|]. cbn [descend_read]. apply runs_bind.
  assert (Hg : page_id g = root t) by (apply hd_slots in Hd; apply Forall_cons in Hd as [[_ _ [Hd _]] _]; done).
  destruct t as [q n|q kids].
  - reads node_type_leaf_runs Hd. apply runs_ret. destruct h; [|done]. by apply (K path q n).
  - reads node_type_internal_runs Hd.
    destruct h as [|h]; [done|]. destruct (Hp h path q kids W Pw Ip) as (l1 & k & c & l2 & -> & Ek & Ic).
    set (f := mkFrame q l1 k l2 Free) in *. destruct (wf_unfill bt kmax emax h path q l1 k c l2 Free W Pw) as [Pw' W'].
    apply runs_bind. reads read_internal_at_runs Hd.
    apply runs_bind, (runs_pure _ (length l1)); [done|]. apply runs_bind, (runs_pure _ (root c)); [apply child_at_mid|].
    apply (holds_perm crc32 frames np _ (along bt Free (relatch (Reads g) f :: path) c ++ X)) in Hd.
    2:{ by rewrite <- (along_down bt (relatch (Reads g) f) path c). }
    rewrite along_relatch in Hd. cbn [f_page f_left f_key f_right f] in Hd. fold f in Hd.
    apply runs_bind. rule fetch_read_runs Hd.
    { autorewrite with room. cbn. rewrite unlatched_guards by done. cbn. lia. }
    intros g' p' Eg' Hd'. apply runs_bind. front q Hd'.
    rule drop_runs Hd'; [done|]. intros p'' Hd''.
    apply (IH h (f :: path) c g' p''); try done; [|by constructor|lia].
    change f with (relatch Free f). rewrite along_relatch. cbn [f_page f_left f_key f_right f]. fold f. reorder Hd''.
Qed.

Lemma least_of_1 path : (1 <= least_of bt path)%nat.
Proof. pose proof (imin_2 bt kmax emax Sizes). destruct path; cbn; lia. Qed.

Lemma picks_key key : picks (find_child_index key) (fun path => within (lower path) (upper path) key).
Proof.
  intros h path q kids W Pw Ip. destruct (route bt kmax emax h _ _ _ q kids key Sizes (least_of_1 path) W Ip) as (l1 & k & c & l2 & E & Ek & _ & Wk).
  exists l1, k, c, l2. split_and!; [done|done|]. cbn. by destruct l1.
Qed.

Definition leftmost (path : list frame) : Prop := Forall (fun f => f_left f = []) path.
Definition rightmost (path : list frame) : Prop := Forall (fun f => f_right f = []) path.

Lemma kids_not_nil h path q kids : wf (S h) (least_of bt path) (lower path) (upper path) (TNode q kids) -> kids <> [].
Proof. intros (Sz & _) ->. pose proof (least_of_1 path). cbn in Sz. lia. Qed.

Lemma picks_first : picks (fun _ => Ok 0%nat) leftmost.
Proof.
  intros h path q kids W Pw Ip. pose proof (kids_not_nil _ _ _ _ W). destruct kids as [|[k c] l2]; [done|].
  exists [], k, c, l2. split_and!; [done|done|]. by constructor.
Qed.

Lemma picks_last :
  picks (fun n => if (length (children n) =? 0)%nat then Panic else Ok (length (children n) - 1)%nat) rightmost.
Proof.
  intros h path q kids W Pw Ip. pose proof (kids_not_nil _ _ _ _ W). destruct (exists_last H0) as (l1 & [k c] & ->).
  exists l1, k, c, []. split_and!; [done| |by constructor]. cbn. rewrite length_map, length_app. cbn.
  rewrite (proj2 (Nat.eqb_neq _ _)) by lia. f_equal. lia.
Qed.

Lemma rests_header np o p : rests np o p -> is_empty (mkHeaderPage (root_id o)) = match o with None => true | Some _ => false end.
Proof.
  intros Hd. unfold is_empty. cbn. destruct o as [t|]; [|done]. cbn in *. apply Z.eqb_neq. apply (root_not_invalid np t Free [header_slot (root t) Free] p).
  eapply holds_perm; [exact Hd|]. rewrite along_top. cbn. perm.
Qed.

Lemma slots_of_guards o : guards_of (slots_of bt o) = [].
Proof. destruct o; [|done]. cbn [slots_of]. unfold tree_slots. by rewrite guards_of_app, guards_of_inner, guards_of_link. Qed.

Lemma get_root_runs np o p (Q : option PageId -> P -> Prop) :
  rests np o p -> (0 < frames)%nat -> (forall p', rests np o p' -> Q (root <$> o) p') -> runs (get_root_page_id crc32 bt) p Q.
Proof.
  intros Hd F K. pose proof (rests_header np o p Hd) as E. apply runs_bind. rule fetch_read_runs Hd; [by rewrite slots_of_guards|].
  intros g p' Eg Hd'. apply runs_bind. reads read_header_at_runs Hd'. apply runs_bind. rule drop_runs Hd'; [done|].
  intros p'' Hd''. apply runs_ret. rewrite E. destruct o; by apply K.
Qed.

Lemma find_from_root_runs pick I np o h p (Q : option PageGuard -> P -> Prop) :
  picks pick I -> I [] -> rests np o p -> forest_wf h o -> (h < MAX_TREE_HEIGHT)%nat -> (1 < frames)%nat ->
  (o = None -> forall p', rests np None p' -> Q None p') ->
  (forall t path q n g p', o = Some t -> plug path (TLeaf q n) = t -> wf 0 (least_of bt path) (lower path) (upper path) (TLeaf q n) ->
     path_wf 0 path -> I path -> holds crc32 frames np (along bt (Reads g) path (TLeaf q n) ++ [header_slot (root t) Free]) p' ->
     page_id g = q -> Q (Some g) p') ->
  runs (find_from_root crc32 bt pick) p Q.
Proof.
  intros Hp I0 Hd W Hh F K0 K1. apply runs_bind. apply (get_root_runs np o); [done|lia|]. clear p Hd. intros p Hd.
  destruct o as [t|]; cbn; [|by apply runs_ret, K0]. apply runs_bind.
  apply (holds_perm crc32 frames np _ (along bt Free [] t ++ [header_slot (root t) Free])) in Hd; [|rewrite along_top; cbn; perm].
  rewrite along_app in Hd. rule fetch_read_runs Hd; [room|]. intros g p' Eg Hd'.
  change (holds crc32 frames np (mkSlot (root t) (cur_content bt [] t) (Reads g) :: cur_rest bt [] t ++ [header_slot (root t) Free]) p') in Hd'.
  apply runs_bind. apply (descend_read_runs pick I Hp np [header_slot (root t) Free] MAX_TREE_HEIGHT h [] t g p'); try done; [by constructor|].
  intros path q n g' p'' E W' Pw Ip Hd'' Eq. apply runs_ret. by apply (K1 t path q n).
Qed.

Lemma contents_plug path q n : contents (plug path (TLeaf q n)) = leaf_contents (leavesL path) ++ live_entries n ++ leaf_contents (leavesR path).
Proof. unfold contents. rewrite leaves_plug, !leaf_contents_app. unfold leaf_contents at 2. cbn. by rewrite app_nil_r. Qed.

Lemma live_relink prev next n : live_entries (relink prev next n) = live_entries n.
Proof. done. Qed.

(** After a read the tree is as it was. *)
Lemma along_rests np la path t h p :
  holds crc32 frames np (map free (along bt la path t ++ [header_slot h Free])) p -> root (plug path t) = h -> rests np (Some (plug path t)) p.
Proof.
  intros Hd <-. unfold rests. eapply holds_perm; [exact Hd|]. rewrite map_app, along_plug.
  change (tree_slots bt (plug path t) ++ [header_slot (root (plug path t)) Free] ≡ₚ header_slot (root (plug path t)) Free :: tree_slots bt (plug path t)). perm.
Qed.

Lemma within_top key : within (lower []) (upper []) key.
Proof. split; [|done]. cbn. destruct key; done. Qed.

Lemma lookup_runs {A} (f : option bytes -> A) np o h key p (Q : A -> P -> Prop) :
  rests np o p -> forest_wf h o -> (h < MAX_TREE_HEIGHT)%nat -> (1 < frames)%nat ->
  (forall p', rests np o p' -> Q (f (kv_get key (contents_of o))) p') ->
  runs (scoped (found ← find_leaf_read crc32 bt key;
    match found with
    | None => mret (f None)
    | Some g => b ← page_of g; r ← pure (lookup_in_encoded_leaf crc32 b key); mret (f r)
    end)) p Q.
Proof.
  intros Hd W Hh F K. apply (scoped_runs crc32 frames np _ _ _ _ Hd); [by rewrite guards_of_cons, slots_of_guards|]. apply runs_bind.
  apply (find_from_root_runs _ _ np o h p _ (picks_key key) (within_top key) Hd W Hh F).
  - intros -> p' Hd'. apply runs_ret. exists np, (header_slot INVALID_PAGE Free :: []). split; [done|]. intros p'' Hd''. by apply K.
  - intros t path q n g p' -> E W' Pw Ip Hd' Eq. apply runs_bind. eapply page_of_runs; [exact Hd'|apply list_elem_of_here|].
    intros b Sb. apply runs_bind. cbn in Sb. destruct W' as (r & [[St _] Sr _ _] & _).
    apply (runs_pure _ (kv_get key (live_entries n))).
    { rewrite <- (live_relink (last_of INVALID_PAGE (leavesL path)) (first_of (leavesR path) INVALID_PAGE)).
      apply lookup_in_place; [done|done|]. cbn. by rewrite (st_keys _ _ St). }
    apply runs_ret. exists np, (along bt (Reads g) path (TLeaf q n) ++ [header_slot (root t) Free]). split; [done|].
    intros p'' Hd''. destruct (path_around bt kmax emax path 0 key Sizes Pw Ip) as [A1 A2].
    replace (kv_get key (live_entries n)) with (kv_get key (contents_of (Some t))).
    + apply K. rewrite <- E. by apply (along_rests np (Reads g) path (TLeaf q n) (root t)); [|rewrite E].
    + cbn. rewrite <- E, contents_plug. by apply kv_get_middle.
Qed.

Lemma tree_get_runs np o h key p (Q : option bytes -> P -> Prop) :
  rests np o p -> forest_wf h o -> (h < MAX_TREE_HEIGHT)%nat -> (1 < frames)%nat ->
  (forall p', rests np o p' -> Q (kv_get key (contents_of o)) p') -> runs (tree_get crc32 bt key) p Q.
Proof.
  intros Hd W Hh F K. pose proof (lookup_runs id np o h key p Q Hd W Hh F K) as R.
  unfold runs, tree_get, scoped, mbind, M_bind in *. destruct (find_leaf_read crc32 bt key p) as [[[g|]|e|] p']; try done.
  destruct (page_of g p') as [[b|e|] p'']; try done. unfold pure in *. by destruct (lookup_in_encoded_leaf crc32 b key).
Qed.
End walk.
