(* ===== verification/BPath.v ===== *)
(** The way down for a change: write latches are taken from the root on and let
    go above a node that cannot pass the change up.  [spine] says which nodes of
    the path are latched when a node is reached. *)

From Stdlib Require Import ZArith Lia List Bool.
From S2P Require Import Prelude Common Engine Page BNode BNodeSpec BLayout BPages Pool BTree BShape BHeap BSlots BWalk.
From AAC_tactics Require Import AAC.
From coqutil Require Import Byte.
From stdpp Require Import base list strings sorting.
#[local] Open Scope Z_scope.

(** The latched nodes above the current one: either all of them and the header,
    or up to a node at which a change must end. *)
Inductive spine (safe : frame -> Prop) : list frame -> list PageGuard -> option PageGuard -> latch -> Prop :=
| spine_root g : spine safe [] [] (Some g) (Writes g)
| spine_safe f fs g : f_latch f = Writes g -> safe f -> unlatched fs -> spine safe (f :: fs) [g] None Free
| spine_push f fs g gs hg hl : f_latch f = Writes g -> spine safe fs gs hg hl -> spine safe (f :: fs) (g :: gs) hg hl.

(** The path without its latches. *)
Definition unlatch (path : list frame) : list frame := map (relatch Free) path.

Lemma plug_root path : forall t t', root t = root t' -> root (plug path t) = root (plug path t').
Proof. induction path as [|f fs IH]; intros t t' E; [done|]. by apply (IH (fill f t) (fill f t')). Qed.

Lemma spine_held safe path gs hg hl : spine safe path gs hg hl -> gs = [] -> path = [] /\ exists g, hg = Some g /\ hl = Writes g.
Proof. destruct 1; intros E; [eauto|done|done]. Qed.

Lemma unlatch_unlatched path : unlatched (unlatch path).
Proof. unfold unlatched, unlatch. apply Forall_fmap, Forall_forall. done. Qed.

Lemma unlatch_bounds path : lower (unlatch path) = lower path /\ upper (unlatch path) = upper path.
Proof. induction path as [|f fs [IH1 IH2]]; [done|]. cbn. fold (unlatch fs). by rewrite IH1, IH2. Qed.

Lemma unlatch_leaves path : leavesL (unlatch path) = leavesL path /\ leavesR (unlatch path) = leavesR path.
Proof. induction path as [|f fs [IH1 IH2]]; [done|]. cbn. fold (unlatch fs). by rewrite IH1, IH2. Qed.

Lemma unlatch_plug path : forall t, plug (unlatch path) t = plug path t.
Proof. induction path as [|f fs IH]; intros t; [done|]. apply (IH (fill f t)). Qed.

Lemma unlatch_path_wf bt kmax emax path : forall h, path_wf bt kmax emax h path -> path_wf bt kmax emax h (unlatch path).
Proof.
  induction path as [|f fs IH]; intros h; [done|]. intros (Sz & Fl & Fk & Fr & Sl & Sr & Pw).
  destruct (unlatch_bounds fs) as [El Eu]. cbn. fold (unlatch fs). rewrite El, Eu. split_and!; try done; [destruct fs; apply Sz|apply Sz|by apply IH].
Qed.

Section path.
Context {P : Type} `{BufferPool P} (crc32 : bytes -> Z) (frames : nat) (bt : BTree) (kmax emax : Z).
Hypothesis crc32_u32 : forall b, in_u32 (crc32 b) = true.
Hypothesis Sizes : sizes_ok bt kmax emax.

Abbreviation wf := (wf bt kmax emax).
Abbreviation path_wf := (path_wf bt kmax emax).
Abbreviation holds := (holds crc32 frames).
Abbreviation header_slot := (header_slot bt).
Abbreviation own := (own bt).
Abbreviation sibs := (sibs bt).

Lemma own_guards_le path : forall t, (length (guards_of (own path t)) <= length path)%nat.
Proof.
  induction path as [|f fs IH]; intros t; [done|]. cbn [BSlots.own]. rewrite guards_of_cons, length_app. specialize (IH (fill f t)).
  cbn. destruct (f_latch f); cbn; lia.
Qed.

Lemma own_unlatch path : forall t, own (unlatch path) t = map free (own path t).
Proof. induction path as [|f fs IH]; intros t; [done|]. cbn [unlatch map BSlots.own]. fold (unlatch fs). change (fill (relatch Free f) t) with (fill f t). by rewrite IH. Qed.

Lemma sibs_unlatch path : sibs (unlatch path) = sibs path.
Proof. induction path as [|f fs IH]; [done|]. cbn [unlatch map BSlots.sibs]. fold (unlatch fs). by rewrite IH. Qed.

Lemma cur_unlatch path t : cur_content bt (unlatch path) t = cur_content bt path t /\ cur_rest bt (unlatch path) t = cur_rest bt path t.
Proof. destruct (unlatch_leaves path) as [E1 E2]. destruct t; cbn; by rewrite E1, E2. Qed.

Lemma spine_guards safe path gs hg hl r t :
  spine safe path gs hg hl -> guards_of (own path t) = gs /\ guards_of [header_slot r hl] = option_list hg.
Proof.
  intros Sp. revert t. induction Sp as [g|f fs g La _ Un|f fs g gs hg hl La Sp IH]; intros t; [done| |].
  - rewrite guards_of_own. cbn. rewrite La, unlatched_guards by done. done.
  - destruct (IH (fill f t)) as [E1 E2]. split; [|done]. cbn [BSlots.own]. rewrite guards_of_cons, E1. cbn. by rewrite La.
Qed.

Lemma release_runs safe path gs hg hl np r t X p (Q : Context -> P -> Prop) :
  spine safe path gs hg hl -> holds np (header_slot r hl :: own path t ++ X) p ->
  (forall p', holds np (header_slot r Free :: own (unlatch path) t ++ X) p' -> Q context_new p') ->
  runs (release_ancestors (mkContext hg (reverse gs))) p Q.
Proof.
  intros Sp Hd K. destruct (spine_guards safe path gs hg hl r t Sp) as [E1 E2]. apply runs_bind. cbn [header_guard write_set].
  apply (drop_each_runs crc32 frames (option_list hg) np [header_slot r hl] (own path t ++ X)); [done|by rewrite E2|]. intros p1 Hd1.
  apply runs_bind. apply (drop_each_runs crc32 frames (reverse gs) np (own path t) (header_slot r Free :: X)).
  - cbn [map app] in Hd1. change (free (header_slot r hl)) with (header_slot r Free) in Hd1. reorder Hd1.
  - rewrite E1. apply reverse_Permutation.
  - intros p2 Hd2. apply runs_ret, K. rewrite own_unlatch. reorder Hd2.
Qed.

(** A test of nodes that is right about frames. *)
Definition tests (safe : InternalNode -> result bool) (Sf : frame -> Prop) : Prop :=
  forall kids, (length kids <= imax bt)%nat -> exists b, safe (node_of bt kids) = Ok b /\ (b = true -> forall f, f_size f = length kids -> Sf f).

Lemma spine_depth Sf path gs hg hl : spine Sf path gs hg hl -> (length gs <= length path)%nat.
Proof. induction 1; cbn; lia. Qed.

(** One node further down. *)
Lemma descend_step_runs {A} safe Sf (Ts : tests safe Sf) np key h path q kids g gs hg hl (next : PageId -> Context -> M P A) p (Q : A -> P -> Prop) :
  holds np (along bt (Writes g) path (TNode q kids) ++ [header_slot (root (plug path (TNode q kids))) hl]) p ->
  wf (S h) (least_of bt path) (lower path) (upper path) (TNode q kids) -> path_wf (S h) path -> spine Sf path gs hg hl ->
  within (lower path) (upper path) key ->
  (forall f fs c gs' hg' hl' p', plug fs (fill f c) = plug path (TNode q kids) -> length fs = length path ->
     wf h (imin bt) (lower (f :: fs)) (upper (f :: fs)) c -> path_wf h (f :: fs) -> spine Sf (f :: fs) (g :: gs') hg' hl' ->
     within (lower (f :: fs)) (upper (f :: fs)) key ->
     holds np (along bt Free (f :: fs) c ++ [header_slot (root (plug (f :: fs) c)) hl']) p' ->
     runs (next (root c) (mkContext hg' (reverse gs'))) p' Q) ->
  runs (internal ← read_internal_at crc32 g; s ← pure (safe internal);
    ctx ← (if (s : bool) then release_ancestors (mkContext hg (reverse gs)) else mret (mkContext hg (reverse gs)));
    child_index ← pure (find_child_index key internal); child_id ← pure (child_at child_index internal); next child_id ctx) p Q.
Proof.
  intros Hd W Pw Sp Wi K. apply runs_bind. reads read_internal_at_runs Hd. pose proof W as ((_ & Lk) & _).
  destruct (Ts kids Lk) as (b & Eb & Hb). apply runs_bind, (runs_pure _ b); [done|].
  destruct (picks_key bt kmax emax Sizes key h path q kids W Pw Wi) as (l1 & k & c & l2 & -> & Ek & Wk). apply runs_bind.
  destruct b.
  - rewrite along_app in Hd.
    apply (holds_perm _ _ _ _ (header_slot (root (plug path (TNode q (l1 ++ (k, c) :: l2)))) hl :: own path (TNode q (l1 ++ (k, c) :: l2)) ++
      mkSlot q (CNode (node_of bt (l1 ++ (k, c) :: l2))) (Writes g) :: sibs path ++ cur_rest bt path (TNode q (l1 ++ (k, c) :: l2)))) in Hd; [|cbn [root cur_content]; perm].
    apply (release_runs Sf path gs hg hl np _ _ _ p _ Sp Hd). intros p' Hd'. apply runs_bind, (runs_pure _ (length l1)); [done|].
    apply runs_bind, (runs_pure _ (root c)); [apply child_at_mid|].
    set (f := mkFrame q l1 k l2 (Writes g)). destruct (unlatch_bounds path) as [El Eu].
    assert (Eo : plug (unlatch path) (fill f c) = plug path (TNode q (l1 ++ (k, c) :: l2))) by apply unlatch_plug.
    assert (W1 : wf (S h) (least_of bt (unlatch path)) (lower (unlatch path)) (upper (unlatch path)) (TNode q (l1 ++ (k, c) :: l2))).
    { rewrite El, Eu. by destruct path. }
    destruct (wf_unfill bt kmax emax h (unlatch path) q l1 k c l2 (Writes g) W1 (unlatch_path_wf _ _ _ _ _ Pw)) as [Pw' W'].
    apply (K f (unlatch path) c [] None Free).
    + done.
    + apply length_map.
    + done.
    + done.
    + apply spine_safe; [done|apply Hb; [done|unfold f_size; cbn; by rewrite length_app]|apply unlatch_unlatched].
    + cbn in *. rewrite El, Eu. done.
    + change (plug (f :: unlatch path) c) with (plug (unlatch path) (fill f c)). rewrite Eo. eapply holds_perm; [exact Hd'|].
      rewrite <- along_down. change (fill f c) with (TNode q (l1 ++ (k, c) :: l2)). change (f_latch f) with (Writes g).
      rewrite along_app. destruct (cur_unlatch path (TNode q (l1 ++ (k, c) :: l2))) as [-> ->]. rewrite sibs_unlatch. cbn [root cur_content]. perm.
  - apply runs_ret, runs_bind, (runs_pure _ (length l1)); [done|]. apply runs_bind, (runs_pure _ (root c)); [apply child_at_mid|].
    set (f := mkFrame q l1 k l2 (Writes g)). destruct (wf_unfill bt kmax emax h path q l1 k c l2 (Writes g) W Pw) as [Pw' W'].
    apply (K f path c gs hg hl); try done.
    + by apply spine_push.
    + eapply holds_perm; [exact Hd|]. by rewrite <- along_down.
Qed.

Lemma descend_write_runs {A} safe Sf (Ts : tests safe Sf) (at_leaf : PageGuard -> Context -> M P A) np key depth :
  forall h path t g gs hg hl p (Q : A -> P -> Prop),
  holds np (along bt (Writes g) path t ++ [header_slot (root (plug path t)) hl]) p ->
  wf h (least_of bt path) (lower path) (upper path) t -> path_wf h path -> spine Sf path gs hg hl -> within (lower path) (upper path) key ->
  (h < depth)%nat -> (length path + h < MAX_WRITE_SET_DEPTH)%nat -> (length path + h + 2 < frames)%nat ->
  (forall path' q n g' gs' hg' hl' p', plug path' (TLeaf q n) = plug path t -> length path' = (length path + h)%nat ->
     wf 0 (least_of bt path') (lower path') (upper path') (TLeaf q n) -> path_wf 0 path' -> spine Sf path' gs' hg' hl' ->
     within (lower path') (upper path') key -> holds np (along bt (Writes g') path' (TLeaf q n) ++ [header_slot (root (plug path t)) hl']) p' ->
     runs (at_leaf g' (mkContext hg' (reverse gs'))) p' Q) ->
  runs (descend_write crc32 depth safe key at_leaf g (mkContext hg (reverse gs))) p Q.
Proof.
  induction depth as [|depth IH]; intros h path t g gs hg hl p Q Hd W Pw Sp Wi Lt Ld F K; [lia|]. cbn [descend_write]. apply runs_bind.
  destruct t as [q n|q kids].
  - reads node_type_leaf_runs Hd. destruct h; [|done]. apply (K path q n g gs hg hl); done || lia.
  - reads node_type_internal_runs Hd. destruct h as [|h]; [done|].
    eapply (descend_step_runs safe Sf Ts np key h path q kids g gs hg hl); try done.
    clear Hd. intros f fs c gs' hg' hl' p1 Ep El W' Pw' Sp' Wi' Hd. rewrite along_app in Hd. apply runs_bind. rule fetch_write_runs Hd.
    { pose proof (own_guards_le (f :: fs) c) as Ol. cbn [length] in *. autorewrite with room in *. destruct hl'; cbn in *; lia. }
    intros g' p2 Eg' Hd2. pose proof (spine_depth _ _ _ _ _ Sp') as Dp. cbn [length] in Dp. apply runs_bind, (runs_pure _ (mkContext hg' (reverse (g :: gs')))).
    { unfold ctx_push. cbn [write_set header_guard]. rewrite length_reverse, reverse_cons, (proj2 (Nat.ltb_lt _ _)) by lia. done. }
    apply (IH h (f :: fs) c g' (g :: gs') hg' hl' p2); try done; [|lia|cbn; lia|cbn; lia|].
    + by rewrite along_app.
    + intros path' q' n' g2 gs2 hg2 hl2 p3 Ep' El' W2 Pw2 Sp2 Wi2 Hd3. apply (K path' q' n' g2 gs2 hg2 hl2); try done.
      * by rewrite Ep', <- Ep.
      * rewrite El'. cbn. lia.
      * by rewrite <- Ep.
Qed.
End path.

(** ** Slots without their latches *)

Create HintDb freed discriminated.

Lemma free_slot i c l : free (mkSlot i c l) = mkSlot i c Free.
Proof. done. Qed.
Lemma free_header bt r l : free (header_slot bt r l) = header_slot bt r Free.
Proof. done. Qed.
Lemma free_link prev ls next : map free (link prev ls next) = link prev ls next.
Proof. apply free_id, guards_of_link. Qed.
Lemma free_inner bt t : map free (inner bt t) = inner bt t.
Proof. apply free_id, guards_of_inner. Qed.
Lemma free_inners bt l : map free (inners bt l) = inners bt l.
Proof. apply free_id, guards_of_inners. Qed.
Lemma free_sibs bt path : map free (sibs bt path) = sibs bt path.
Proof. apply free_id, guards_of_sibs. Qed.
Lemma free_rest bt path t : map free (cur_rest bt path t) = cur_rest bt path t.
Proof. apply free_id, guards_of_rest. Qed.
Lemma free_free cs : map free (map free cs) = map free cs.
Proof. apply free_id, guards_of_free. Qed.
Lemma free_cons s cs : map free (s :: cs) = free s :: map free cs.
Proof. done. Qed.
Lemma free_nil : map free [] = [].
Proof. done. Qed.

#[export] Hint Rewrite free_slot free_header free_link free_inner free_inners free_sibs free_rest own_unlatch free_free free_cons free_nil @map_app : freed.

(** Lists of slots that agree without their latches. *)
Ltac freed := autorewrite with freed; perm.
