(* ===== verification/BInsert.v ===== *)
(** Insertion into a B+tree: a leaf that is too full is split, its parent gets a
    separator, and so on up; a new root is made when the old one was split.  The
    call leaves a well-formed tree with the entry put into its contents. *)

From Stdlib Require Import ZArith Lia List Bool.
From S2P Require Import Prelude Common Engine Page BNode BNodeSpec BLayout BPages Pool BTree BShape BHeap BSlots BWalk BPath.
From AAC_tactics Require Import AAC.
From coqutil Require Import Byte.
From stdpp Require Import base list strings sorting.
#[local] Open Scope Z_scope.

Lemma row_keys_take i r : row_keys (take i r) = take i (row_keys r).
Proof. symmetry. apply firstn_map. Qed.
Lemma row_keys_drop i r : row_keys (drop i r) = drop i (row_keys r).
Proof. symmetry. apply skipn_map. Qed.
Lemma row_values_take i r : row_values (take i r) = take i (row_values r).
Proof. symmetry. apply firstn_map. Qed.
Lemma row_values_drop i r : row_values (drop i r) = drop i (row_values r).
Proof. symmetry. apply skipn_map. Qed.

Lemma fits_relink prev next prev' next' n :
  leaf_fits (relink prev next n) -> in_u32 prev' = true -> in_u32 next' = true -> leaf_fits (relink prev' next' n).
Proof. intros [T Sz Mx _ V To Ro] H1 H2. by split. Qed.

Lemma relink_same n : relink (prev_page_id n) (next_page_id n) n = n.
Proof. by destruct n. Qed.

Lemma leaf_is_relink lmax prev next n r : leaf_is lmax (relink prev next n) r <-> leaf_is lmax n r.
Proof. split; (intros [[K V Ma Sh] Hh]; split; [by split|done]). Qed.

Section insert.
Context {P : Type} `{BufferPool P} (crc32 : bytes -> Z) (frames : nat) (bt : BTree) (kmax emax : Z).
Hypothesis crc32_u32 : forall b, in_u32 (crc32 b) = true.
Hypothesis Sizes : sizes_ok bt kmax emax.

Abbreviation wf := (wf bt kmax emax).
Abbreviation path_wf := (path_wf bt kmax emax).
Abbreviation holds := (holds crc32 frames).
Abbreviation leaf_row_wf := (leaf_row_wf bt kmax emax).
Abbreviation leaf_wf := (leaf_wf bt kmax emax).

(** ** Leaves *)

Lemma set_prev_runs np old new ls X p (Q : unit -> P -> Prop) :
  holds np (link old ls INVALID_PAGE ++ X) p -> in_u32 new = true -> (length (guards_of X) < frames)%nat ->
  (forall p', holds np (link new ls INVALID_PAGE ++ X) p' -> Q tt p') -> runs (set_prev crc32 (first_of ls INVALID_PAGE) new) p Q.
Proof.
  intros Hd Nw F K. unfold set_prev. destruct ls as [|[i n] ls]; [by apply K|]. cbn [first_of link app] in *.
  pose proof (holds_ids _ _ _ _ _ Hd) as Hi. apply Forall_cons in Hi as [Hi _]. cbn in Hi.
  destruct (Z.eqb_spec i INVALID_PAGE); [lia|]. apply runs_bind. rule fetch_write_runs Hd; [room|]. intros g p' Eg Hd'.
  apply runs_bind. reads read_leaf_at_runs Hd'. apply runs_bind. pose proof (holds_leaf_fits _ _ _ _ _ _ _ _ Hd') as Fi.
  rule write_leaf_runs Hd'; [by apply (fits_relink old (first_of ls INVALID_PAGE) new _ n Fi Nw), Fi|].
  intros p'' Hd''. rule drop_runs Hd''; [done|]. intros p3 Hd3. by apply K.
Qed.

(** The two halves of a row. *)
Lemma halves lo hi n r mid l1 l2 h1 h2 ts1 ts2 nx1 pv1 nx2 pv2 k :
  leaf_row_wf lo hi n r -> split_tombstones mid (tombstones n) = (ts1, ts2) -> (mid < length r)%nat ->
  drop mid (row_keys r) = k :: l2 -> l1 = take mid (l_keys n) ->
  h1 = mkNodeHeader Leaf (Z.of_nat mid) (leaf_max_size bt) -> h2 = mkNodeHeader Leaf (len r - Z.of_nat mid) (leaf_max_size bt) ->
  leaf_row_wf lo (Some k) (mkLeaf h1 nx1 pv1 l1 (take mid (l_values n)) ts1) (take mid r) /\
  leaf_row_wf k hi (mkLeaf h2 nx2 pv2 (drop mid (l_keys n)) (drop mid (l_values n)) ts2) (drop mid r) /\
  (forall x, last l1 = Some x -> blt x k) /\ len k <= kmax /\ within lo hi k.
Proof.
  intros [[[Ek Ev Em Sh] Eh] Sr W T] Es Lm Ed -> -> ->. unfold split_tombstones in Es. injection Es as <- <-.
  assert (Lt : length (take mid r) = mid) by (rewrite length_take; lia).
  pose proof Em as Em'. rewrite <- (take_drop mid r) in Em'. apply marks_app_inv in Em' as [M1 M2]. rewrite Lt in M1, M2.
  pose proof Sr as Sr'. unfold row_sorted in Sr'. rewrite <- (take_drop mid (row_keys r)), Ed in Sr'. apply sorted_app in Sr' as (S1 & S2 & S12).
  assert (Lr : len (take mid r) = Z.of_nat mid) by (unfold len; lia).
  assert (Ldr : len (drop mid r) = len r - Z.of_nat mid) by (unfold len; rewrite length_drop; lia).
  pose proof W as W'. rewrite <- (take_drop mid r), Forall_app in W'. destruct W' as [W1 W2].
  unfold row_keys in Ed. rewrite skipn_map in Ed.
  destruct (drop mid r) as [|[[k' v] d] rest] eqn:Er; [done|]. injection Ed as <- <-. apply Forall_cons in W2 as [[Wk0 Wk1] W2].
  assert (F1 : forall x, x ∈ take mid (row_keys r) -> blt x k') by (intros x Hx; apply (S12 x k' Hx); apply list_elem_of_here).
  split_and!.
  - split; [split; [split; cbn|by cbn; rewrite Lr]| | |].
    + by rewrite Ek, row_keys_take.
    + by rewrite Ev, row_values_take.
    + done.
    + unfold len in *. lia.
    + by unfold row_sorted; rewrite row_keys_take.
    + apply Forall_forall. intros s Hs. pose proof (proj1 (Forall_forall _ _) W1 s Hs) as [[Wa _] Wb]. split; [split; [done|]|done].
      apply F1. rewrite <- row_keys_take. unfold row_keys. apply list_elem_of_In, in_map_iff. exists s. by rewrite <- list_elem_of_In.
    + cbn. etransitivity; [apply List.filter_length_le|done].
  - split; [split; [split; cbn|by cbn; rewrite <- Ldr]| | |].
    + by rewrite Ek, <- row_keys_drop, Er.
    + by rewrite Ev, <- row_values_drop, Er.
    + done.
    + unfold len in *. cbn in *. lia.
    + done.
    + apply Forall_cons. split; [split; [split; [done|apply Wk0]|done]|].
      apply Forall_forall. intros s Hs. pose proof (proj1 (Forall_forall _ _) W2 s Hs) as [[_ Wa] Wb]. split; [split; [|done]|done].
      apply blt_ble. apply StronglySorted_inv in S2 as [_ S2]. apply (proj1 (Forall_forall _ _) S2). apply list_elem_of_In, in_map_iff.
      exists s. by rewrite <- list_elem_of_In.
    + cbn. rewrite length_map. etransitivity; [apply List.filter_length_le|done].
  - intros x Hx. apply F1. rewrite <- Ek. by apply last_Some_elem_of.
  - apply Wk1.
  - done.
Qed.

Lemma u16_of_len (n : nat) : Z.of_nat n <= 2000 -> u16_of n = Z.of_nat n.
Proof. intros L. apply u16_of_small. lia. Qed.

Lemma alive_halves n1 n2 r mid :
  stores n1 (take mid r) -> stores n2 (drop mid r) -> live_entries n1 ++ live_entries n2 = alive r.
Proof.
  intros S1 S2. rewrite (leaf_live_ok _ _ S1), (leaf_live_ok _ _ S2), <- alive_app. by rewrite take_drop.
Qed.

Lemma split_leaf_runs np q c g R X n lo hi r p (Q : SplitResult -> P -> Prop) :
  holds np (mkSlot q c (Writes g) :: link q R INVALID_PAGE ++ X) p -> np < INVALID_PAGE -> (length (guards_of X) + 2 < frames)%nat ->
  leaf_row_wf lo hi n r -> next_page_id n = first_of R INVALID_PAGE -> in_u32 (prev_page_id n) = true ->
  2 <= len r <= leaf_max_size bt + Z.of_nat (max_tombstones bt) + 1 ->
  (forall k nl nr p', leaf_wf lo (Some k) nl -> leaf_wf k hi nr -> live_entries nl ++ live_entries nr = alive r -> len k <= kmax ->
     within lo hi k ->
     holds (np + 1) (mkSlot q (CLeaf (relink (prev_page_id n) np nl)) (Writes g) ::
       mkSlot np (CLeaf (relink q (first_of R INVALID_PAGE) nr)) Free :: link np R INVALID_PAGE ++ X) p' ->
     Q (mkSplit np k) p') ->
  runs (split_leaf_ctx crc32 n g) p Q.
Proof.
  intros Hd Hn F Lw Nx Pv Lr K. unfold split_leaf_ctx. pose proof (stores_length _ _ (li_stores _ _ _ (lr_is _ _ _ _ _ _ _ Lw))) as Ps.
  pose proof (lmax_small bt kmax emax Sizes) as [B1 B2].
  assert (Hl : (2 <= length r)%nat) by (unfold len in Lr; lia). rewrite Ps.
  set (mid := (length r / 2)%nat). assert (Hm : (1 <= mid /\ 2 * mid <= length r <= 2 * mid + 1)%nat).
  { pose proof (Nat.div_mod (length r) 2 ltac:(lia)). pose proof (Nat.mod_upper_bound (length r) 2 ltac:(lia)). unfold mid. lia. }
  clearbody mid.
  apply runs_bind. rewrite (proj2 (Nat.ltb_lt 0 mid)), (proj2 (Nat.ltb_lt mid (length r))) by lia. apply runs_ret.
  apply runs_bind. apply (new_page_runs crc32 frames np _ p _ Hd Hn); [room|]. intros g' p1 Eg' Hd1.
  assert (Eg : page_id g = q) by (apply hd_slots in Hd; apply Forall_cons in Hd as [[_ _ [Hd _]] _]; done).
  destruct (split_tombstones mid (tombstones n)) as [ts1 ts2] eqn:Es. rewrite Eg, Eg', Nx.
  pose proof (holds_ids _ _ _ _ _ Hd1) as Hi. apply Forall_cons in Hi as [_ Hi]. apply Forall_cons in Hi as [Hq _]. cbn in Hq.
  pose proof (holds_range _ _ _ _ _ _ Hd1) as Hnp. cbn in Hnp.
  apply runs_bind. apply (set_prev_runs (np + 1) q np R (mkSlot q c (Writes g) :: mkSlot np CRaw (Writes g') :: X)).
  { reorder Hd1. } { apply in_u32_page. lia. } { room. }
  intros p2 Hd2. pose proof (lr_is _ _ _ _ _ _ _ Lw) as [[Ek Ev _ _] Eh].
  destruct (drop mid (row_keys r)) as [|k l2] eqn:Ed.
  { exfalso. apply (f_equal length) in Ed. rewrite length_drop in Ed. unfold row_keys in Ed. rewrite length_map in Ed. cbn in Ed. lia. }
  assert (L1 : length (take mid (l_keys n)) = mid) by (rewrite Ek, length_take; unfold row_keys; rewrite length_map; lia).
  assert (L2 : Z.of_nat (length (drop mid (l_keys n))) = len r - Z.of_nat mid) by (rewrite Ek, length_drop; unfold row_keys, len; rewrite length_map; lia).
  destruct (halves lo hi n r mid (take mid (l_keys n)) l2 (mkNodeHeader Leaf (Z.of_nat mid) (leaf_max_size bt))
    (mkNodeHeader Leaf (len r - Z.of_nat mid) (leaf_max_size bt)) ts1 ts2 np (prev_page_id n) (first_of R INVALID_PAGE) q k) as (H1 & H2 & Hlast & Hk & Hin); try done; [lia|].
  apply runs_bind, (runs_pure _ k); [unfold vec_at; cbn; by rewrite Ek, Ed|]. apply runs_bind. cbn [l_keys].
  destruct (last (take mid (l_keys n))) as [x|] eqn:El; [|apply last_None in El; rewrite El in L1; cbn in L1; lia].
  rewrite (proj2 (bltb_spec x k) (Hlast x eq_refl)). apply runs_ret.
  rewrite L1, !u16_of_len, L2, Eh by (unfold len in *; lia). unfold set_size, node_header_new. cbn [node_type h_max_size].
  apply runs_bind. front q Hd2.
  set (nl := mkLeaf (mkNodeHeader Leaf (Z.of_nat mid) (leaf_max_size bt)) np (prev_page_id n) (take mid (l_keys n)) (take mid (l_values n)) ts1) in *.
  set (nr := mkLeaf (mkNodeHeader Leaf (len r - Z.of_nat mid) (leaf_max_size bt)) (first_of R INVALID_PAGE) q (drop mid (l_keys n)) (drop mid (l_values n)) ts2) in *.
  assert (Fl : first_of R INVALID_PAGE = INVALID_PAGE \/ 0 <= first_of R INVALID_PAGE < INVALID_PAGE).
  { destruct R as [|[i m] R]; [by left|right]. pose proof (holds_ids _ _ _ _ _ Hd2) as Hi'. cbn in Hi'. clear -Hi'.
    repeat (apply Forall_cons in Hi' as [? Hi']; try (cbn in *; lia)). }
  rule write_leaf_runs Hd2.
  { apply (leaf_row_fits bt kmax emax Sizes _ _ nl (take mid r) (prev_page_id n) np H1); [unfold len in *; rewrite length_take; lia|done|apply in_u32_page; lia]. }
  intros p3 Hd3. apply runs_bind. front np Hd3. rule write_leaf_runs Hd3.
  { apply (leaf_row_fits bt kmax emax Sizes _ _ nr (drop mid r) q (first_of R INVALID_PAGE) H2);
      [unfold len in *; rewrite length_drop; lia|apply in_u32_page; lia|apply in_u32_page; change INVALID_PAGE with 4294967295 in *; lia]. }
  intros p4 Hd4. apply runs_bind. rule drop_runs Hd4; [done|]. intros p5 Hd5. apply runs_ret. apply (K k nl nr); try done.
  - exists (take mid r). split; [done|]. unfold len in *. rewrite length_take. lia.
  - exists (drop mid r). split; [done|]. unfold len in *. rewrite length_drop. lia.
  - apply (alive_halves nl nr r mid); [apply H1|apply H2].
  - change (relink (prev_page_id n) np nl) with nl. change (relink q (first_of R INVALID_PAGE) nr) with nr. reorder Hd5.
Qed.

(** ** Internal nodes *)

Lemma node_of_len kids : length (i_keys (node_of bt kids)) = length kids /\ length (children (node_of bt kids)) = length kids.
Proof. cbn. by rewrite !length_map. Qed.

Lemma split_internal_runs np q c g kids X p (Q : SplitResult -> P -> Prop) :
  holds np (mkSlot q c (Writes g) :: X) p -> np < INVALID_PAGE -> (length (guards_of X) + 1 < frames)%nat ->
  length kids = S (imax bt) -> Forall (fun k => len k.1 <= kmax) kids -> Forall (fun k => in_u32 (root k.2) = true) kids ->
  (forall l1 k t l2 p', kids = l1 ++ (k, t) :: l2 -> (imin bt <= length l1 <= imax bt)%nat -> (imin bt <= S (length l2) <= imax bt)%nat ->
     holds (np + 1) (mkSlot q (CNode (node_of bt l1)) (Writes g) :: mkSlot np (CNode (node_of bt ((k, t) :: l2))) Free :: X) p' ->
     Q (mkSplit np k) p') ->
  runs (split_internal_ctx crc32 (node_of bt kids) g) p Q.
Proof.
  intros Hd Hn F Lk Fk Fi K. unfold split_internal_ctx. destruct (node_of_len kids) as [-> _]. rewrite Lk.
  pose proof (imax_imin bt kmax emax Sizes) as Bi. pose proof (imin_2 bt kmax emax Sizes) as B2. pose proof (imax_u16 bt kmax emax Sizes) as [E16 B16].
  set (mid := (S (imax bt) / 2)%nat). assert (Hm : (2 * mid <= S (imax bt) <= 2 * mid + 1)%nat).
  { pose proof (Nat.div_mod (S (imax bt)) 2 ltac:(lia)). pose proof (Nat.mod_upper_bound (S (imax bt)) 2 ltac:(lia)). unfold mid. lia. }
  clearbody mid. apply runs_bind. rewrite (proj2 (Nat.ltb_lt 0 mid)), (proj2 (Nat.ltb_lt mid (S (imax bt) - 1))) by lia. apply runs_ret.
  destruct (drop mid kids) as [|[k t] l2] eqn:Ed; [apply (f_equal length) in Ed; rewrite length_drop in Ed; cbn in Ed; lia|].
  pose proof (take_drop mid kids) as Ek. rewrite Ed in Ek. set (l1 := take mid kids) in *.
  assert (L1 : length l1 = mid) by (unfold l1; rewrite length_take; lia).
  assert (L2 : S (length l2) = (S (imax bt) - mid)%nat) by (apply (f_equal length) in Ed; rewrite length_drop in Ed; cbn in Ed; lia).
  apply runs_bind, (runs_pure _ k).
  { unfold vec_at. cbn [node_of i_keys]. rewrite <- Ek, map_app, lookup_app_r by (rewrite length_map; lia).
    by rewrite length_map, L1, Nat.sub_diag. }
  apply runs_bind. apply (new_page_runs crc32 frames np _ p _ Hd Hn); [room|]. intros g' p1 Eg' Hd1.
  assert (Et1 : take mid (i_keys (node_of bt kids)) = map fst l1 /\ take mid (children (node_of bt kids)) = map (fun x => root x.2) l1)
    by (unfold l1; cbn; by rewrite !firstn_map).
  assert (Et2 : drop mid (i_keys (node_of bt kids)) = map fst ((k, t) :: l2) /\ drop mid (children (node_of bt kids)) = map (fun x => root x.2) ((k, t) :: l2))
    by (rewrite <- Ed; cbn [node_of i_keys children]; by rewrite !skipn_map).
  destruct Et1 as [-> ->], Et2 as [-> ->]. cbv zeta. cbn [i_keys children]. rewrite !length_map, L1. cbn [length].
  apply runs_bind. rewrite !Nat.eqb_refl, (proj2 (Nat.eqb_neq mid 0)) by lia. apply runs_ret.
  rewrite !u16_of_len by lia. unfold set_size, node_header_new. cbn [node_of i_header node_type h_max_size].
  rewrite <- Ek in Fk, Fi. rewrite Forall_app in Fk, Fi. destruct Fk as [Fk1 Fk2], Fi as [Fi1 Fi2].
  assert (N1 : mkInternal (mkNodeHeader Internal (Z.of_nat mid) (internal_max_size bt)) (map fst l1) (map (fun x => root x.2) l1) = node_of bt l1)
    by (unfold node_of, len; by rewrite L1).
  change (mkInternal (mkNodeHeader Internal (Z.of_nat (S (length l2))) (internal_max_size bt)) (map fst ((k, t) :: l2)) (map (fun x => root x.2) ((k, t) :: l2)))
    with (node_of bt ((k, t) :: l2)).
  rewrite N1, Eg'. apply runs_bind. front q Hd1. rule write_internal_runs Hd1; [apply (node_fits bt kmax emax Sizes); [lia|done|done]|].
  intros p2 Hd2. apply runs_bind. front np Hd2. rule write_internal_runs Hd2; [apply (node_fits bt kmax emax Sizes); [cbn; lia|done|done]|].
  intros p3 Hd3. apply runs_bind. rule drop_runs Hd3; [done|]. intros p4 Hd4. apply runs_ret. apply (K l1 k t l2); [done|lia|lia|]. reorder Hd4.
Qed.

(** A separator goes behind the child that was split. *)
Lemma count_below_at key (a b : list bytes) : Forall (fun k => blt k key) a -> Forall (blt key) b -> count_below key (a ++ b) = length a.
Proof.
  intros A B. induction A as [|k a Hk _ IH]; cbn.
  - destruct B as [|k b Hk _]; [done|]. cbn. unfold bltb. rewrite bool_decide_false; [done|]. intros Hc. eapply blt_irrefl. by eapply blt_trans.
  - by rewrite (proj2 (bltb_spec k key) Hk), IH.
Qed.

Lemma insert_separator_ok f fs h tl tr sep :
  path_wf h (f :: fs) -> blt (lower (f :: fs)) sep -> match upper (f :: fs) with Some u => blt sep u | None => True end ->
  insert_separator sep (root tr) (node_of bt (f_left f ++ (f_key f, tl) :: f_right f)) =
    Ok (node_of bt (f_left f ++ (f_key f, tl) :: (sep, tr) :: f_right f)).
Proof.
  intros (Sz & _ & _ & _ & Sl & Sr & _) Lo Up. unfold insert_separator, i_find_insert_index.
  assert (Fl : Forall (fun k => blt k sep) (drop 1 (map fst (f_left f ++ [(f_key f, tl)])))).
  { destruct (f_left f) as [|c l] eqn:El; [by constructor|]. destruct (spread_keys bt kmax emax h _ _ (c :: l) Sizes Sl ltac:(done)) as [_ Bk].
    apply Forall_cons in Bk as [_ Bk]. cbn [lower] in Lo. rewrite El in Lo. cbv iota in Lo. cbn [app map drop] in *. rewrite drop_0 in *. rewrite map_app. apply Forall_app. split.
    - eapply Forall_impl; [exact Bk|]. intros x Hx. cbn in Hx. by apply (blt_trans _ (f_key f)).
    - by constructor. }
  assert (Fr : Forall (blt sep) (map fst (f_right f))).
  { destruct (f_right f) as [|[k t] l] eqn:El; [by constructor|].
    destruct (spread_keys bt kmax emax h _ _ ((k, t) :: l) Sizes Sr ltac:(done)) as [Sk _]. cbn [lower_of upper] in *. rewrite El in Up.
    cbn [upper_of] in Up. cbn [drop] in Sk. rewrite drop_0 in Sk. cbn [map fst]. apply Forall_cons. split; [done|].
    apply StronglySorted_inv in Sk as [_ Sk]. eapply Forall_impl; [exact Sk|]. intros x Hx. by apply (blt_trans _ k). }
  assert (Ed : drop 1 (i_keys (node_of bt (f_left f ++ (f_key f, tl) :: f_right f))) = drop 1 (map fst (f_left f ++ [(f_key f, tl)])) ++ map fst (f_right f)).
  { cbn [node_of i_keys]. rewrite !map_app. destruct (f_left f); cbn; by rewrite ?drop_0, <- ?app_assoc. }
  rewrite Ed, (count_below_at sep _ _ Fl Fr).
  replace (1 + length (drop 1 (map fst (f_left f ++ [(f_key f, tl)]))))%nat with (S (length (f_left f)))
    by (rewrite length_drop, length_map, length_app; cbn; lia).
  pose proof (imax_u16 bt kmax emax Sizes) as [E16 B16].
  unfold node_of. rewrite !map_app. cbn [map fst snd i_keys children i_header].
  rewrite (cons_middle (f_key f)), (cons_middle (root tl)), !app_assoc.
  rewrite !vec_insert_at by (rewrite length_app, length_map; cbn; lia). cbn [mbind outcome_bind h_size].
  replace (arith in_u16 (len (f_left f ++ (f_key f, tl) :: f_right f) + 1)) with (@Ok Error Z (len (f_left f ++ (f_key f, tl) :: (sep, tr) :: f_right f))).
  - cbn [mbind outcome_bind]. by rewrite <- !app_assoc.
  - unfold f_size in Sz. unfold arith. replace (len (f_left f ++ (f_key f, tl) :: (sep, tr) :: f_right f)) with (len (f_left f ++ (f_key f, tl) :: f_right f) + 1)
      by (rewrite !len_app, !len_cons; lia).
    replace (in_u16 (len (f_left f ++ (f_key f, tl) :: f_right f) + 1)) with true; [done|].
    symmetry. unfold in_u16. rewrite len_app, len_cons. unfold len. lia.
Qed.

(** ** Up the path *)

Abbreviation header_slot := (header_slot bt).
Abbreviation inner := (inner bt).
Abbreviation own := (own bt).
Abbreviation sibs := (sibs bt).

Lemma create_new_root_runs np g ws tl tr sep X p (Q : bool -> P -> Prop) :
  holds np (header_slot (root tl) (Writes g) :: X) p -> np < INVALID_PAGE -> (length (guards_of X) + 1 < frames)%nat ->
  in_u32 (root tl) = true -> in_u32 (root tr) = true -> len sep <= kmax ->
  (forall p', holds (np + 1) (header_slot np (Writes g) :: mkSlot np (CNode (node_of bt [([], tl); (sep, tr)])) Free :: X) p' -> Q true p') ->
  runs (create_new_root_ctx crc32 bt (mkContext (Some g) ws) (root tl) (mkSplit (root tr) sep)) p Q.
Proof.
  intros Hd Hn F Il Ir Ls K. apply runs_bind. apply (new_page_runs crc32 frames np _ p _ Hd Hn); [room|]. intros g' p1 Eg' Hd1.
  apply runs_bind, (runs_pure _ (node_of bt [([], tl); (sep, tr)])); [done|]. apply runs_bind, runs_ret. apply runs_bind.
  pose proof (imax_u16 bt kmax emax Sizes) as [E16 B16]. pose proof (so_key _ _ _ Sizes) as Hk.
  rule write_internal_runs Hd1.
  { apply (node_fits bt kmax emax Sizes); [cbn; lia|constructor; [unfold len; cbn; lia|by repeat constructor]|by repeat constructor]. }
  intros p2 Hd2. apply runs_bind. rule drop_runs Hd2; [done|]. intros p3 Hd3. apply runs_bind, (runs_pure _ g); [done|].
  bring (header_slot (root tl) (Writes g)) Hd3.
  apply runs_bind. reads read_header_at_runs Hd3. cbn [root_page_id]. rewrite Z.eqb_refl. apply runs_bind, runs_ret. apply runs_bind.
  pose proof (holds_range _ _ _ _ _ _ Hd1) as Hr. cbn in Hr. rewrite Eg'.
  rule write_root_runs Hd3; [apply in_u32_page; lia|]. intros p4 Hd4. apply runs_ret. by apply K.
Qed.

(** What is left to say when a change has ended. *)
Definition settles (path : list frame) (xs : list tree) (T : tree) (cs : list slot) : Prop :=
  map free cs ++ sibs path ++ concat (map inner xs) ≡ₚ header_slot (root T) Free :: inner T /\
  leaves T = leavesL path ++ concat (map leaves xs) ++ leavesR path /\ exists h, wf h 2 [] None T.

Lemma kids_ids np i kids l cs p : holds np (mkSlot i (CNode (node_of bt kids)) l :: cs) p -> Forall (fun k => in_u32 (root k.2) = true) kids.
Proof. intros Hd. apply holds_internal_fits in Hd as [_ _ _ _ Hd _]. cbn in Hd. by apply Forall_fmap in Hd. Qed.

Lemma split_kids_ids f tl tr sep :
  Forall (fun k => in_u32 (root k.2) = true) (f_left f ++ (f_key f, tl) :: f_right f) -> in_u32 (root tr) = true ->
  Forall (fun k : kid => in_u32 (root k.2) = true) (f_left f ++ (f_key f, tl) :: (sep, tr) :: f_right f).
Proof. rewrite !Forall_app, !Forall_cons. tauto. Qed.

Lemma split_kids_small f fs h tl tr sep :
  path_wf h (f :: fs) -> len sep <= kmax -> Forall (fun k : kid => len k.1 <= kmax) (f_left f ++ (f_key f, tl) :: (sep, tr) :: f_right f).
Proof. intros (_ & Fl & Fk & Fr & _) Ls. rewrite Forall_app, !Forall_cons. done. Qed.

Lemma split_kids_spread f fs h tl tr sep :
  path_wf h (f :: fs) -> wf h (imin bt) (lower (f :: fs)) (Some sep) tl -> wf h (imin bt) sep (upper (f :: fs)) tr ->
  spread (wf h (imin bt)) (lower fs) (upper fs) (f_left f ++ (f_key f, tl) :: (sep, tr) :: f_right f).
Proof.
  intros (_ & _ & _ & _ & Sl & Sr & _) Wl Wr. apply spread_app. cbn [upper_of lower_of]. split; [done|]. cbn in *. by destruct (f_left f).
Qed.

Lemma tree_top_bounds h lo hi tl tr sep :
  wf h (imin bt) lo (Some sep) tl -> wf h (imin bt) sep hi tr -> blt lo sep /\ match hi with Some u => blt sep u | None => True end.
Proof.
  intros Wl Wr. pose proof (imin_2 bt kmax emax Sizes). split; [apply (wf_lt bt kmax emax h (imin bt) lo sep tl); [lia|done|done]|].
  destruct hi as [u|]; [|done]. apply (wf_lt bt kmax emax h (imin bt) sep u tr); [lia|done|done].
Qed.

(** A node has room for one more child. *)
Lemma settles_fits f fs h tl tr sep la hl :
  path_wf h (f :: fs) -> wf h (imin bt) (lower (f :: fs)) (Some sep) tl -> wf h (imin bt) sep (upper (f :: fs)) tr -> len sep <= kmax ->
  (S (f_size f) <= imax bt)%nat ->
  settles (f :: fs) [tl; tr] (plug fs (TNode (f_page f) (f_left f ++ (f_key f, tl) :: (sep, tr) :: f_right f)))
    (header_slot (root (plug (f :: fs) tl)) hl ::
     mkSlot (f_page f) (CNode (node_of bt (f_left f ++ (f_key f, tl) :: (sep, tr) :: f_right f))) la :: own fs (fill f tl)).
Proof.
  intros Pw Wl Wr Ls Lf. set (T1 := TNode (f_page f) (f_left f ++ (f_key f, tl) :: (sep, tr) :: f_right f)). split; [|split].
  - rewrite inner_plug. cbn [map concat BSlots.sibs]. rewrite app_nil_r. rewrite (own_root bt fs (fill f tl) T1) by done.
    replace (root (plug fs T1)) with (root (plug (f :: fs) tl)) by by apply (plug_root fs (fill f tl) T1).
    unfold T1 at 3. rewrite inner_node, inners_app, !inners_cons. cbn [free s_page s_content BWalk.header_slot].
    change (free (header_slot (root (plug (f :: fs) tl)) hl)) with (header_slot (root (plug (f :: fs) tl)) Free).
    change (mkSlot (f_page f) (CNode (node_of bt (f_left f ++ (f_key f, tl) :: (sep, tr) :: f_right f))) Free) with (free (mkSlot (f_page f) (CNode (node_of bt (f_left f ++ (f_key f, tl) :: (sep, tr) :: f_right f))) la)).
    perm.
  - rewrite leaves_plug. cbn [leavesL leavesR map concat]. unfold T1. cbn [leaves].
    change (concat _) with (kid_leaves (f_left f ++ (f_key f, tl) :: (sep, tr) :: f_right f)) at 1. rewrite kid_leaves_app.
    change (kid_leaves ((f_key f, tl) :: (sep, tr) :: f_right f)) with (leaves tl ++ leaves tr ++ kid_leaves (f_right f)).
    by rewrite app_nil_r, <- !app_assoc.
  - exists (length fs + S h)%nat. apply (plug_wf bt kmax emax); [|apply Pw]. cbn [BShape.wf T1]. split; [|split].
    + rewrite length_app. destruct Pw as (Sz & _). unfold f_size in *. cbn. lia.
    + by apply (split_kids_small f fs h).
    + by apply (split_kids_spread f fs h).
Qed.

Lemma settles_root np tl tr sep h la :
  wf h (imin bt) [] (Some sep) tl -> wf h (imin bt) sep None tr -> len sep <= kmax ->
  settles [] [tl; tr] (TNode np [([], tl); (sep, tr)])
    [header_slot np la; mkSlot np (CNode (node_of bt [([], tl); (sep, tr)])) Free].
Proof.
  intros Wl Wr Ls. pose proof (imax_imin bt kmax emax Sizes). pose proof (imin_2 bt kmax emax Sizes). pose proof (so_key _ _ _ Sizes).
  split; [|split].
  - rewrite inner_node. change (inners bt [([], tl); (sep, tr)]) with (inner tl ++ inner tr ++ []). cbn [map concat BSlots.sibs app]. done.
  - cbn. by rewrite !app_nil_r.
  - exists (S h). cbn [BShape.wf]. split; [cbn; lia|]. split; [|done]. constructor; [unfold len; cbn; lia|by constructor].
Qed.

Lemma settles_up f fs l1 k t l2 tl tr sep np la T cs :
  f_left f ++ (f_key f, tl) :: (sep, tr) :: f_right f = l1 ++ (k, t) :: l2 ->
  settles fs [TNode (f_page f) l1; TNode np ((k, t) :: l2)] T cs ->
  settles (f :: fs) [tl; tr] T (mkSlot (f_page f) (CNode (node_of bt l1)) la :: mkSlot np (CNode (node_of bt ((k, t) :: l2))) Free :: cs).
Proof.
  intros E (Pe & Le & W). split; [|split; [|done]].
  - rewrite <- Pe. cbn [map concat BSlots.sibs]. rewrite !inner_node. apply (f_equal (inners bt)) in E. rewrite !inners_app, !inners_cons in E.
    rewrite (inners_cons bt k t l2). change (free (mkSlot np ?x Free)) with (mkSlot np x Free).
    change (free (mkSlot (f_page f) (CNode (node_of bt l1)) la)) with (mkSlot (f_page f) (CNode (node_of bt l1)) Free).
    transitivity (mkSlot (f_page f) (CNode (node_of bt l1)) Free :: mkSlot np (CNode (node_of bt ((k, t) :: l2))) Free :: map free cs ++ sibs fs ++ (inners bt l1 ++ inner t ++ inners bt l2)); [rewrite <- E; perm|perm].
  - rewrite Le. cbn [map concat leavesL leavesR]. apply (f_equal kid_leaves) in E. rewrite !kid_leaves_app in E.
    change (kid_leaves ((k, t) :: l2)) with (leaves t ++ kid_leaves l2) in E.
    change (kid_leaves ((f_key f, tl) :: (sep, tr) :: f_right f)) with (leaves tl ++ leaves tr ++ kid_leaves (f_right f)) in E.
    cbn [leaves]. change (concat _) with (kid_leaves l1) at 1. change (concat (map (fun '(_, c) => leaves c) ((k, t) :: l2))) with (leaves t ++ kid_leaves l2).
    rewrite !app_nil_r, <- !app_assoc. rewrite (app_assoc (kid_leaves l1)), (app_assoc (kid_leaves l1 ++ _)). rewrite <- (app_assoc (kid_leaves l1)), <- E.
    by rewrite <- !app_assoc.
Qed.

(** The halves of a node that was split are nodes of the tree. *)
Lemma halves_wf h lo hi l1 k t l2 q q' :
  spread (wf h (imin bt)) lo hi (l1 ++ (k, t) :: l2) -> Forall (fun k : kid => len k.1 <= kmax) (l1 ++ (k, t) :: l2) ->
  (imin bt <= length l1 <= imax bt)%nat -> (imin bt <= S (length l2) <= imax bt)%nat ->
  wf (S h) (imin bt) lo (Some k) (TNode q l1) /\ wf (S h) (imin bt) k hi (TNode q' ((k, t) :: l2)) /\ len k <= kmax.
Proof.
  intros Sp Fk B1 B2. pose proof (imin_2 bt kmax emax Sizes). apply spread_app in Sp as [S1 S2]. rewrite Forall_app in Fk. destruct Fk as [F1 F2].
  assert (N : l1 <> []) by (destruct l1; cbn in B1; [lia|done]). destruct l1 as [|c l1]; [done|]. cbn [upper_of lower_of] in *.
  split; [|split].
  - cbn [BShape.wf]. done.
  - cbn [BShape.wf]. done.
  - by apply Forall_cons in F2 as [F2 _].
Qed.

Definition safe_insert (f : frame) : Prop := (S (f_size f) < imax bt)%nat.

(** The children of a node whose child was split. *)
Definition kids_split (f : frame) (tl : tree) (sep : bytes) (tr : tree) : list kid := f_left f ++ (f_key f, tl) :: (sep, tr) :: f_right f.

Lemma kids_split_length f tl sep tr : length (kids_split f tl sep tr) = S (f_size f).
Proof. unfold kids_split, f_size. rewrite length_app. cbn. lia. Qed.

(** What the parent of a split node is given to go on with. *)
Definition split_below (h : nat) (f : frame) (fs : list frame) (tl : tree) (sep : bytes) (tr : tree) : Prop :=
  path_wf h (f :: fs) /\ wf h (imin bt) (lower (f :: fs)) (Some sep) tl /\ wf h (imin bt) sep (upper (f :: fs)) tr /\ len sep <= kmax /\
  in_u32 (root tr) = true.

Lemma parent_runs {A} np f fs g h tl tr sep hd X (k : InternalNode -> M P A) p (Q : A -> P -> Prop) :
  holds np (hd :: own (f :: fs) tl ++ X) p -> f_latch f = Writes g -> split_below h f fs tl sep tr ->
  (holds np (mkSlot (f_page f) (CNode (node_of bt (f_left f ++ (f_key f, tl) :: f_right f))) (Writes g) :: hd :: own fs (fill f tl) ++ X) p ->
   Forall (fun k => in_u32 (root k.2) = true) (kids_split f tl sep tr) -> Forall (fun k => len k.1 <= kmax) (kids_split f tl sep tr) ->
   runs (k (node_of bt (kids_split f tl sep tr))) p Q) ->
  runs (internal ← read_internal_at crc32 g; internal ← pure (insert_separator sep (root tr) internal); k internal) p Q.
Proof.
  intros Hd La (Pw & Wl & Wr & Ls & Ir) K. destruct (tree_top_bounds _ _ _ _ _ _ Wl Wr) as [B1 B2].
  cbn [BSlots.own app] in Hd. unfold own_slot in Hd. rewrite La in Hd. front (f_page f) Hd. apply runs_bind. reads read_internal_at_runs Hd.
  apply runs_bind, (runs_pure _ (node_of bt (kids_split f tl sep tr))); [by apply (insert_separator_ok f fs h)|].
  apply K; [done|apply (split_kids_ids f tl tr sep (kids_ids _ _ _ _ _ _ Hd) Ir)|by apply (split_kids_small f fs h)].
Qed.

Lemma separator_written_runs np f fs g h tl tr sep hl X p (Q : bool -> P -> Prop) :
  holds np (mkSlot (f_page f) (CNode (node_of bt (f_left f ++ (f_key f, tl) :: f_right f))) (Writes g) ::
    header_slot (root (plug (f :: fs) tl)) hl :: own fs (fill f tl) ++ X) p ->
  split_below h f fs tl sep tr -> Forall (fun k => in_u32 (root k.2) = true) (kids_split f tl sep tr) -> (S (f_size f) <= imax bt)%nat ->
  (forall T cs p', holds np (cs ++ X) p' -> settles (f :: fs) [tl; tr] T cs -> Q true p') ->
  runs (write_internal crc32 g (node_of bt (kids_split f tl sep tr));; mret true) p Q.
Proof.
  intros Hd (Pw & Wl & Wr & Ls & Ir) Fi Lf K. apply runs_bind. rule write_internal_runs Hd.
  { apply (node_fits bt kmax emax Sizes); [by rewrite kids_split_length|by apply (split_kids_small f fs h)|done]. }
  intros p' Hd'. apply runs_ret. eapply K; [|by apply (settles_fits f fs h tl tr sep (Writes g) hl)]. fold (kids_split f tl sep tr). cbn [app]. reorder Hd'.
Qed.

Lemma propagate_runs ws path gs hg hl (Sp : spine safe_insert path gs hg hl) : forall np h tl tr sep X p (Q : bool -> P -> Prop),
  holds np (header_slot (root (plug path tl)) hl :: own path tl ++ X) p ->
  path_wf h path -> wf h (imin bt) (lower path) (Some sep) tl -> wf h (imin bt) sep (upper path) tr -> len sep <= kmax ->
  in_u32 (root tl) = true -> in_u32 (root tr) = true ->
  np + Z.of_nat (length path) < INVALID_PAGE -> (length (guards_of X) + length path + 3 < frames)%nat ->
  (forall np' T cs p', np <= np' <= np + Z.of_nat (length path) + 1 -> holds np' (cs ++ X) p' -> settles path [tl; tr] T cs -> Q true p') ->
  runs (propagate_split crc32 bt gs (mkContext hg ws) (mkSplit (root tr) sep)) p Q.
Proof.
  pose proof (imax_u16 bt kmax emax Sizes) as [E16 B16].
  induction Sp as [g|f fs g La Sa Un|f fs g gs hg hl La Sp IH]; intros np h tl tr sep X p Q Hd Pw Wl Wr Ls Il Ir Hn F K; cbn [propagate_split].
  - apply runs_bind, (runs_pure _ g); [done|]. apply runs_bind. reads read_header_at_runs Hd. cbn [root_page_id] in *.
    apply (create_new_root_runs np g ws tl tr sep X p); [done|cbn in Hn; lia|lia|done|done|done|]. intros p' Hd'.
    apply (K (np + 1) (TNode np [([], tl); (sep, tr)]) [header_slot np (Writes g); mkSlot np (CNode (node_of bt [([], tl); (sep, tr)])) Free]);
      [cbn; lia|done|]. by apply (settles_root np tl tr sep h).
  - apply (parent_runs np f fs g h tl tr sep _ X _ p Q Hd La); [done|]. clear Hd. intros Hd Fi Fk.
    destruct (node_of_len (kids_split f tl sep tr)) as [-> _]. unfold safe_insert in Sa. rewrite kids_split_length, u16_of_len by lia.
    cbn [node_of i_header h_max_size]. rewrite (proj2 (Z.leb_le (Z.of_nat (S (f_size f))) (internal_max_size bt))) by lia.
    apply (separator_written_runs np f fs g h tl tr sep Free X); [done|done|done|lia|]. intros T cs p'. apply (K np). lia.
  - apply (parent_runs np f fs g h tl tr sep _ X _ p Q Hd La); [done|]. clear Hd. intros Hd Fi Fk.
    pose proof Pw as ((_ & Lf) & _). destruct (node_of_len (kids_split f tl sep tr)) as [-> _]. rewrite kids_split_length, u16_of_len by lia.
    cbn [node_of i_header h_max_size]. destruct (Z.leb_spec (Z.of_nat (S (f_size f))) (internal_max_size bt)) as [Lm|Lm].
    { apply (separator_written_runs np f fs g h tl tr sep hl X); [done|done|done|lia|]. intros T cs p'. apply (K np). lia. }
    pose proof (own_guards_le bt fs (fill f tl)) as Lp.
    apply runs_bind. cbn [length] in *. eapply split_internal_runs; [exact Hd|lia| |rewrite kids_split_length; lia|done|done|].
    { rewrite guards_of_cons, guards_of_app, !length_app. destruct hl; cbn; lia. }
    intros l1 k t l2 p1 Ek B1 B2 Hd1.
    assert (Eg : page_id g = f_page f) by (apply hd_slots in Hd; apply Forall_cons in Hd as [[_ _ [Hd _]] _]; done).
    pose proof (split_kids_spread f fs h tl tr sep Pw Wl Wr) as Spr. unfold kids_split in Ek. rewrite Ek in Spr. unfold kids_split in Fk. rewrite Ek in Fk.
    destruct (halves_wf h _ _ l1 k t l2 (f_page f) np Spr Fk B1 B2) as (W1 & W2 & Lk).
    pose proof (holds_ids _ _ _ _ _ Hd1) as Hi. apply Forall_cons in Hi as [Hf Hi]. apply Forall_cons in Hi as [Hnp _]. cbn in Hf, Hnp.
    change (plug (f :: fs) tl) with (plug fs (fill f tl)) in Hd1. rewrite (plug_root fs (fill f tl) (TNode (f_page f) l1)), (own_root bt fs (fill f tl) (TNode (f_page f) l1)) in Hd1 by done.
    destruct gs as [|g' gs].
    + destruct (spine_held _ _ _ _ _ Sp eq_refl) as (-> & g0 & -> & ->). cbn [BSlots.own app] in Hd1. rewrite Eg.
      change (root (plug [] (TNode (f_page f) l1))) with (root (TNode (f_page f) l1)) in Hd1. bring (header_slot (root (TNode (f_page f) l1)) (Writes g0)) Hd1.
      apply (create_new_root_runs (np + 1) g0 ws (TNode (f_page f) l1) (TNode np ((k, t) :: l2)) k _ _ _ Hd1); [cbn in *; lia|room|apply in_u32_page; cbn; lia|apply in_u32_page; cbn; lia|done|].
      intros p2 Hd2.
      eapply (K (np + 1 + 1)); [cbn; lia| |eapply (settles_up f [] l1 k t l2 tl tr sep np (Writes g) _ _ Ek); by apply (settles_root (np + 1) _ _ k (S h) (Writes g0))].
      reorder Hd2.
    + apply runs_bind. rule drop_runs Hd1; [done|]. intros p2 Hd2.
      apply (IH (np + 1) (S h) (TNode (f_page f) l1) (TNode np ((k, t) :: l2)) k
        (mkSlot (f_page f) (CNode (node_of bt l1)) Free :: mkSlot np (CNode (node_of bt ((k, t) :: l2))) Free :: X)); try done.
      * reorder Hd2.
      * apply Pw.
      * apply in_u32_page; cbn; lia.
      * apply in_u32_page; cbn; lia.
      * lia.
      * rewrite !guards_of_cons. cbn. lia.
      * intros np' T cs p' Hnp' Hd' Se. eapply (K np'); [lia| |by apply (settles_up f fs l1 k t l2 tl tr sep np Free T cs Ek)]. reorder Hd'.
Qed.

(** ** The call *)

(** Where a call that changes the tree can end: with a tree of these contents. *)
Definition leaves_tree (np np' : Z) (more : nat) (C : list entry) (p : P) : Prop :=
  np <= np' <= np + Z.of_nat more /\
  exists T h cs, holds np' cs p /\ map free cs ≡ₚ header_slot (root T) Free :: tree_slots bt T /\ wf h 2 [] None T /\ contents T = C.

(** The leaf at the end of a path replaced. *)
Lemma leaf_replaced np np' more path q n n' cs r' p :
  holds np' cs p -> np <= np' <= np + Z.of_nat more ->
  map free cs ≡ₚ header_slot (root (plug path (TLeaf q n))) Free :: map free (along bt Free path (TLeaf q n')) ->
  path_wf 0 path -> leaf_wf (lower path) (upper path) n' -> stores n' r' ->
  leaves_tree np np' more (leaf_contents (leavesL path) ++ alive r' ++ leaf_contents (leavesR path)) p.
Proof.
  intros Hd Hn Pe Pw W St. split; [done|]. exists (plug path (TLeaf q n')), (length path + 0)%nat, cs. split_and!; [done| | |].
  - rewrite Pe, along_plug. by rewrite (plug_root path (TLeaf q n) (TLeaf q n')).
  - by apply (plug_wf bt kmax emax).
  - by rewrite contents_plug, (leaf_live_ok n' r' St).
Qed.

Lemma leaf_split_done np np' more path q m nl nr T cs sep p :
  holds np' (cs ++ mkSlot q (CLeaf (relink (last_of INVALID_PAGE (leavesL path)) m nl)) (Writes sep) ::
    mkSlot m (CLeaf (relink q (first_of (leavesR path) INVALID_PAGE) nr)) Free ::
    link INVALID_PAGE (leavesL path) q ++ link m (leavesR path) INVALID_PAGE ++ sibs path) p ->
  np <= np' <= np + Z.of_nat more -> settles path [TLeaf q nl; TLeaf m nr] T cs ->
  leaves_tree np np' more (leaf_contents (leavesL path) ++ (live_entries nl ++ live_entries nr) ++ leaf_contents (leavesR path)) p.
Proof.
  intros Hd Hn (Pe & Le & h & W). split; [done|]. do 3 eexists. split_and!; [exact Hd| |exact W|].
  - unfold tree_slots. cbn [map concat BSlots.inner] in Pe. rewrite map_app. cbn [map concat app leaves] in *.
    rewrite Le, !link_mid. cbn [app first_of link last_of last].
    transitivity ((map free cs ++ sibs path) ++ link INVALID_PAGE (leavesL path) q ++
      mkSlot q (CLeaf (relink (last_of INVALID_PAGE (leavesL path)) m nl)) Free ::
      mkSlot m (CLeaf (relink q (first_of (leavesR path) INVALID_PAGE) nr)) Free :: link m (leavesR path) INVALID_PAGE).
    + freed.
    + rewrite app_nil_r in Pe. rewrite Pe. perm.
  - unfold contents. rewrite Le, !leaf_contents_app. f_equal. f_equal. cbn. unfold leaf_contents. cbn. by rewrite app_nil_r.
Qed.

Lemma insert_leaf_written_runs np key path q n n' r' gs hg hl g p (Q : bool -> P -> Prop) :
  holds np (along bt (Writes g) path (TLeaf q n) ++ [header_slot (root (plug path (TLeaf q n))) hl]) p ->
  path_wf 0 path -> spine safe_insert path gs hg hl -> leaf_row_wf (lower path) (upper path) n' r' ->
  1 <= len r' <= leaf_max_size bt -> within (lower path) (upper path) key ->
  prev_page_id n' = last_of INVALID_PAGE (leavesL path) -> next_page_id n' = first_of (leavesR path) INVALID_PAGE ->
  (forall p', leaves_tree np np 0 (leaf_contents (leavesL path) ++ alive r' ++ leaf_contents (leavesR path)) p' -> Q true p') ->
  runs (release_ancestors (mkContext hg (reverse gs));; write_leaf crc32 g n';; mret true) p Q.
Proof.
  intros Hd Pw Sp Lw Lr Wi Pv Nx K. rewrite along_app in Hd. pose proof (holds_leaf_fits _ _ _ _ _ _ _ _ Hd) as Fi.
  apply (holds_perm _ _ _ _ (header_slot (root (plug path (TLeaf q n))) hl :: own path (TLeaf q n) ++
    mkSlot q (cur_content bt path (TLeaf q n)) (Writes g) :: sibs path ++ cur_rest bt path (TLeaf q n))) in Hd; [|cbn [root]; perm].
  apply runs_bind. eapply (release_runs crc32 frames bt safe_insert); [exact Sp|exact Hd|]. intros p1 Hd1. front q Hd1. apply runs_bind.
  pose proof Fi as [_ _ _ [Il Ip] _ _ _].
  rule write_leaf_runs Hd1.
  { rewrite <- (relink_same n'), Pv, Nx. apply (leaf_row_fits bt kmax emax Sizes (lower path) (upper path) n' r'); [done|lia|exact Ip|exact Il]. }
  intros p2 Hd2. apply runs_ret. apply K.
  apply (leaf_replaced np np 0 path q n n' _ r' p2 Hd2); [lia| |done| |apply Lw].
  - unfold along. rewrite (own_root bt path (TLeaf q n') (TLeaf q n)) by done. cbn [cur_content root cur_rest]. rewrite <- Pv, <- Nx, relink_same. freed.
  - exists r'. split; [done|lia].
Qed.

Lemma insert_into_leaf_runs np key value path q n g gs hg hl p (Q : bool -> P -> Prop) :
  holds np (along bt (Writes g) path (TLeaf q n) ++ [header_slot (root (plug path (TLeaf q n))) hl]) p ->
  wf 0 (least_of bt path) (lower path) (upper path) (TLeaf q n) -> path_wf 0 path -> spine safe_insert path gs hg hl ->
  within (lower path) (upper path) key -> entry_small kmax emax (key, value) ->
  np + Z.of_nat (length path) + 1 < INVALID_PAGE -> (length path + 6 < frames)%nat ->
  (forall np' p', kv_get key (contents (plug path (TLeaf q n))) = None ->
     leaves_tree np np' (length path + 2) (kv_put key value (contents (plug path (TLeaf q n)))) p' -> Q true p') ->
  (forall v p', kv_get key (contents (plug path (TLeaf q n))) = Some v ->
     leaves_tree np np 0 (contents (plug path (TLeaf q n))) p' -> Q false p') ->
  runs (insert_into_leaf crc32 bt key value g (mkContext hg (reverse gs))) p Q.
Proof.
  intros Hd W Pw Sp Wi Sm Hn F K1 K0. destruct W as (r & Lw & Lr). pose proof (lr_is _ _ _ _ _ _ _ Lw) as Li.
  destruct (path_around bt kmax emax path 0 key Sizes Pw Wi) as [A1 A2]. pose proof (lmax_small bt kmax emax Sizes) as [B1 B2].
  assert (Ec : contents (plug path (TLeaf q n)) = leaf_contents (leavesL path) ++ alive r ++ leaf_contents (leavesR path))
    by by rewrite contents_plug, (leaf_live_ok n r (li_stores _ _ _ Li)).
  rewrite Ec in K1, K0. rewrite kv_get_middle in K1, K0 by done. unfold insert_into_leaf. apply runs_bind. reads read_leaf_at_runs Hd.
  set (m := relink (last_of INVALID_PAGE (leavesL path)) (first_of (leavesR path) INVALID_PAGE) n) in *.
  assert (Lm : leaf_is (leaf_max_size bt) m r) by by apply leaf_is_relink.
  destruct (leaf_lookup_get key m r (li_stores _ _ _ Lm) (lr_sorted _ _ _ _ _ _ _ Lw)) as (o & Eo & Ho).
  apply runs_bind, (runs_pure _ o); [done|]. destruct o as [i|].
  - apply runs_ret. destruct (kv_get key (alive r)) as [v|] eqn:Ev; [|by destruct Ho as [_ Ho]; specialize (Ho eq_refl)].
    apply (K0 v); [done|]. eapply (leaf_replaced np np 0 path q n n); [exact Hd|lia| |done|by exists r|apply Li].
    unfold along. freed.
  - assert (Ev : kv_get key (alive r) = None) by by apply Ho.
    destruct (leaf_insert_ok _ key value m r Lm (lr_sorted _ _ _ _ _ _ _ Lw) ltac:(lia) Ev) as (n' & r' & En & Li' & Pt & [Sn Spv] & Tn).
    apply runs_bind, (runs_pure _ (true, n')); [done|]. pose proof (row_put_length _ _ _ Pt) as Lp.
    assert (Lw' : leaf_row_wf (lower path) (upper path) n' r').
    { split; [done|by apply (row_put_sorted _ _ _ Pt), Lw| |cbn in Tn; pose proof (lr_tombs _ _ _ _ _ _ _ Lw); lia].
      apply (row_put_Forall (fun e => within (lower path) (upper path) e.1 /\ entry_small kmax emax e) _ _ _ Pt); [done|apply Lw]. }
    assert (Ep : leaf_contents (leavesL path) ++ alive r' ++ leaf_contents (leavesR path) = kv_put key value (leaf_contents (leavesL path) ++ alive r ++ leaf_contents (leavesR path)))
      by by rewrite kv_put_middle, (row_put_alive key value r r').
    unfold needs_split. rewrite (stores_length _ _ (li_stores _ _ _ Li')), u16_of_len, (li_header _ _ _ Li') by (unfold len in *; lia). cbn [h_max_size].
    destruct (Z.ltb_spec (leaf_max_size bt) (Z.of_nat (length r'))) as [Sl|Sl]; cbn [negb].
    + apply runs_bind. rewrite along_app in Hd. cbn [cur_rest] in Hd.
      apply (holds_perm _ _ _ _ (mkSlot q (cur_content bt path (TLeaf q n)) (Writes g) :: link q (leavesR path) INVALID_PAGE ++
        link INVALID_PAGE (leavesL path) q ++ header_slot (root (plug path (TLeaf q n))) hl :: own path (TLeaf q n) ++ sibs path)) in Hd; [|cbn [root]; perm].
      pose proof (own_guards_le bt path (TLeaf q n)) as Og. pose proof (holds_leaf_fits _ _ _ _ _ _ _ _ Hd) as [_ _ _ [_ Ip] _ _ _].
      eapply split_leaf_runs; [exact Hd|lia| |exact Lw'|done|by rewrite Spv|unfold len in *; lia|].
      { autorewrite with room. rewrite guards_of_own in Og. destruct hl; cbn; lia. }
      intros k nl nr p1 Wl Wr Ea Lk Wk Hd1. pose proof (holds_ids _ _ _ _ _ Hd1) as Hi. apply Forall_cons in Hi as [Hq Hi]. apply Forall_cons in Hi as [Hnp _]. cbn in Hq, Hnp.
      unfold propagate_split_up_ctx. cbn [write_set]. rewrite reverse_involutive.
      rewrite (own_root bt path (TLeaf q n) (TLeaf q nl)), (plug_root path (TLeaf q n) (TLeaf q nl)) in Hd1 by done. rewrite Spv in Hd1. cbn [m relink prev_page_id] in Hd1.
      apply (propagate_runs _ path gs hg hl Sp (np + 1) 0 (TLeaf q nl) (TLeaf np nr) k
        (mkSlot q (CLeaf (relink (last_of INVALID_PAGE (leavesL path)) np nl)) (Writes g) ::
         mkSlot np (CLeaf (relink q (first_of (leavesR path) INVALID_PAGE) nr)) Free ::
         link INVALID_PAGE (leavesL path) q ++ link np (leavesR path) INVALID_PAGE ++ sibs path) p1); try done.
      * reorder Hd1.
      * apply in_u32_page; cbn; lia.
      * apply in_u32_page; cbn; lia.
      * lia.
      * autorewrite with room. cbn. lia.
      * intros np' T cs p' Hnp' Hd' Se. apply (K1 np' p' Ev). rewrite <- Ep, <- Ea. eapply leaf_split_done; [exact Hd'|lia|done].
    + eapply (insert_leaf_written_runs np key path q n n' r'); try done; [unfold len in *; lia|].
      intros p' [Hnp' L]. apply (K1 np p' Ev). split; [lia|]. by rewrite <- Ep.
Qed.

Lemma tests_insert : tests bt i_safe_for_insert safe_insert.
Proof.
  intros kids Lk. pose proof (imax_u16 bt kmax emax Sizes) as [E16 B16]. unfold i_safe_for_insert, h_safe_for_insert. cbn [node_of i_header h_max_size h_size].
  exists (len kids <? internal_max_size bt - 1). unfold arith. replace (in_u16 (internal_max_size bt - 1)) with true by (unfold in_u16; lia).
  split; [done|]. intros Hl f Ef. unfold safe_insert. rewrite Ef. apply Z.ltb_lt in Hl. unfold len in Hl. lia.
Qed.

(** Between two calls the pool stands for a map in key order. *)
Definition stands_for (np : Z) (C : list entry) (p : P) : Prop :=
  exists o h, rests crc32 frames bt np o p /\ forest_wf bt kmax emax h o /\ contents_of o = C.

Lemma leaves_tree_free {A} np np' more C p (Q : A -> P -> Prop) a :
  leaves_tree np np' more C p -> (forall p'', stands_for np' C p'' -> Q a p'') ->
  exists np1 cs, holds np1 cs p /\ (forall p'', holds np1 (map free cs) p'' -> Q a p'').
Proof.
  intros (_ & T & h & cs & Hd & Pe & W & Ec) K. exists np', cs. split; [done|]. intros p'' Hd''. apply K. exists (Some T), h.
  split_and!; [|done|done]. eapply holds_perm; [exact Hd''|]. by rewrite Pe.
Qed.

Lemma insert_empty_runs np key value g p (Q : bool -> P -> Prop) :
  holds np [header_slot INVALID_PAGE (Writes g)] p -> entry_small kmax emax (key, value) -> np < INVALID_PAGE -> (2 < frames)%nat ->
  (forall p', leaves_tree np (np + 1) 2 [(key, value)] p' -> Q true p') -> runs (insert_into_empty_tree crc32 bt key value g) p Q.
Proof.
  intros Hd Sm Hn F K. pose proof (lmax_small bt kmax emax Sizes) as [B1 B2]. apply runs_bind.
  apply (new_page_runs crc32 frames np _ p _ Hd Hn); [room|]. intros g' p1 Eg' Hd1.
  assert (Li : leaf_is (leaf_max_size bt) (leaf_new (leaf_max_size bt)) []) by (split; [split; [done|done|apply marks_nil|done]|done]).
  assert (S0 : row_sorted []) by constructor.
  destruct (leaf_insert_ok _ key value _ [] Li S0 ltac:(done) eq_refl) as (n' & r' & En & Li' & Pt & [Sn Sp] & Tn).
  assert (Er : r' = [((key, value), false)]).
  { inversion Pt as [r1 r2 _ _ E1 E2|r1 v d r2 _ _ E1 E2]; [apply app_eq_nil in E1 as [-> ->]; done|by destruct r1]. }
  subst r'. apply runs_bind, (runs_pure _ (true, n')); [done|]. rewrite (stores_length _ _ (li_stores _ _ _ Li')). apply runs_bind, runs_ret. apply runs_bind.
  assert (Lw : leaf_row_wf [] None n' [((key, value), false)]).
  { split; [done|by repeat constructor| |cbn in Tn; lia]. constructor; [|done]. split; [|done]. split; [by destruct key|done]. }
  assert (Er : relink INVALID_PAGE INVALID_PAGE n' = n') by (rewrite <- (relink_same n') at 2; by rewrite Sn, Sp).
  rule write_leaf_runs Hd1.
  { rewrite <- Er. apply (leaf_row_fits bt kmax emax Sizes [] None n' [((key, value), false)]); [done|unfold len; cbn; lia|by apply in_u32_page..]. }
  intros p2 Hd2. apply runs_bind. rule drop_runs Hd2; [done|]. intros p3 Hd3. bring (header_slot INVALID_PAGE (Writes g)) Hd3.
  apply runs_bind. reads read_header_at_runs Hd3. apply runs_bind, runs_ret. apply runs_bind. rewrite Eg'. pose proof (holds_range _ _ _ _ _ _ Hd1) as Hr. cbn in Hr.
  rule write_root_runs Hd3; [apply in_u32_page; lia|]. intros p4 Hd4. apply runs_ret, K. split; [lia|].
  exists (TLeaf np n'), 0%nat. eexists. split_and!; [exact Hd4| |exists [((key, value), false)]; split; [done|unfold len; cbn; lia]|].
  - cbn. by rewrite Er.
  - unfold contents, leaf_contents. cbn. by rewrite (leaf_live_ok _ _ (li_stores _ _ _ Li')).
Qed.

Lemma tree_insert_runs np o h key value p (Q : bool -> P -> Prop) :
  rests crc32 frames bt np o p -> forest_wf bt kmax emax h o -> (h < MAX_TREE_HEIGHT)%nat -> entry_small kmax emax (key, value) ->
  np + 22 <= INVALID_PAGE -> (26 < frames)%nat ->
  (forall np' p', kv_get key (contents_of o) = None -> np <= np' <= np + 22 -> stands_for np' (kv_put key value (contents_of o)) p' -> Q true p') ->
  (forall v p', kv_get key (contents_of o) = Some v -> stands_for np (contents_of o) p' -> Q false p') ->
  runs (tree_insert crc32 bt key value) p Q.
Proof.
  intros Hd W Hh Sm Hn F K1 K0. pose proof (rests_header crc32 frames bt np o p Hd) as Ee. unfold MAX_TREE_HEIGHT in Hh.
  apply (scoped_runs crc32 frames np _ _ _ _ Hd); [by rewrite guards_of_cons, slots_of_guards|]. apply runs_bind.
  rule fetch_write_runs Hd; [rewrite slots_of_guards; cbn; lia|]. intros g p1 Eg Hd1. apply runs_bind. reads read_header_at_runs Hd1. rewrite Ee.
  destruct o as [t|].
  - cbn [root_id root_page_id slots_of contents_of forest_wf] in *. apply runs_bind.
    apply (holds_perm _ _ _ _ (along bt Free [] t ++ [header_slot (root t) (Writes g)])) in Hd1; [|rewrite along_top; unfold BWalk.header_slot; perm].
    rewrite along_app in Hd1. rule fetch_write_runs Hd1; [room|]. intros g1 p2 Eg1 Hd2.
    apply (descend_write_runs crc32 frames bt kmax emax crc32_u32 Sizes _ _ tests_insert _ np key MAX_TREE_HEIGHT h [] t g1 [] (Some g) (Writes g)); try done;
      [apply spine_root|apply within_top|cbn; unfold MAX_TREE_HEIGHT, MAX_WRITE_SET_DEPTH; lia..|].
    intros path q n g' gs hg hl p3 Ep El W' Pw Sp Wi Hd3. change (plug [] t) with t in Ep, Hd3. rewrite <- Ep in K1, K0, Hd3. cbn [length Nat.add] in El.
    apply (insert_into_leaf_runs np key value path q n g' gs hg hl); try done; [lia|lia| |].
    + intros np' p' Ev L. eapply leaves_tree_free; [exact L|]. intros p''. destruct L as [L _]. apply K1; [done|lia].
    + intros v p' Ev L. eapply leaves_tree_free; [exact L|]. intros p''. by apply (K0 v).
  - apply (insert_empty_runs np key value g); [done|done|lia|lia|]. intros p' L. eapply leaves_tree_free; [exact L|]. intros p''. apply K1; [done|lia].
Qed.
End insert.
