(* ===== verification/BLeafMoves.v ===== *)
(** Moving entries between two neighbouring leaves: what redistribution and
    merging do to their rows. *)

From Stdlib Require Import ZArith Lia List Bool.
From S2P Require Import Prelude Common Engine Page BNode BNodeSpec BTree BShape.
From coqutil Require Import Byte.
From stdpp Require Import base relations list strings sorting.
#[local] Open Scope Z_scope.

Lemma evicts_length r r' : rtc evicts r r' -> (length r' <= length r)%nat.
Proof. induction 1 as [|r r1 r2 [a e b] _ IH]; [done|]. rewrite !length_app in *. cbn. lia. Qed.

(** The oldest tombstones go until not too many are left. *)
Lemma trim_tombstones_ok lmax max fuel : forall n r,
  leaf_is lmax n r -> (length (tombstones n) <= fuel)%nat ->
  exists n' r', trim_tombstones fuel max n = Ok n' /\ leaf_is lmax n' r' /\ rtc evicts r r' /\ same_links n n' /\
    (length (tombstones n') <= max)%nat /\ ((n' = n /\ r' = r) \/ length (tombstones n') = max).
Proof.
  induction fuel as [|fuel IH]; intros n r Li Lf; cbn [trim_tombstones]; destruct (Nat.ltb_spec max (length (tombstones n))) as [Lm|Lm].
  - lia.
  - exists n, r. by split_and!; [..|left].
  - destruct (tombstones n) as [|t ts] eqn:Et; [cbn in Lm; lia|]. destruct (process_oldest_ok lmax n r t ts Li Et) as (n1 & r1 & E1 & L1 & Ev & Sl & Lt).
    rewrite E1. cbn [mbind outcome_bind]. cbn in Lf, Lm. destruct (IH n1 r1 L1 ltac:(lia)) as (n' & r' & E & L' & Ev' & Sl' & Lt' & D).
    exists n', r'. split_and!; [done|done|by eapply rtc_l|destruct Sl, Sl'; split; congruence|done|right].
    destruct D as [[-> ->]|D]; [lia|done].
  - exists n, r. by split_and!; [..|left].
Qed.

Section moves.
Context (bt : BTree) (kmax emax : Z).

Abbreviation lmax := (leaf_max_size bt).
Abbreviation mt := (max_tombstones bt).
Abbreviation leaf_row_wf := (leaf_row_wf bt kmax emax).
Abbreviation leaf_wf := (leaf_wf bt kmax emax).

(** What trimming leaves of a row that is not empty. *)
Lemma trim_ok lo hi n r :
  leaf_is lmax n r -> row_sorted r -> Forall (fun s => within lo hi s.1.1 /\ entry_small kmax emax s.1) r -> r <> [] ->
  (mt = 0%nat -> tombstones n = []) ->
  exists n' r', trim bt n = Ok n' /\ leaf_row_wf lo hi n' r' /\ alive r' = alive r /\ same_links n n' /\ r' <> [] /\ rtc evicts r r'.
Proof.
  intros Li Sr W Nr Mt. destruct (trim_tombstones_ok lmax mt (length (tombstones n)) n r Li ltac:(lia)) as (n' & r' & E & L' & Ev & Sl & Lt & D).
  exists n', r'. split_and!; [done| |by apply evicts_alive|done| |done].
  - split; [done|by apply (evicts_sorted r)|by apply (evicts_Forall (fun e => within lo hi e.1 /\ entry_small kmax emax e) r)|done].
  - destruct D as [[-> ->]|D]; [done|]. intros ->. pose proof (marks_count _ _ (st_marks _ _ (li_stores _ _ _ L'))) as Mc. cbn in Mc.
    assert (mt = 0%nat) by lia. specialize (Mt H). apply Nr. apply (evicts_alive r []) in Ev.
    pose proof (marks_count _ _ (st_marks _ _ (li_stores _ _ _ Li))) as Mc'. rewrite Mt, <- Ev in Mc'. cbn in Mc'. by destruct r.
Qed.

(** *** An entry from the left *)

Lemma marks_unmarked_last ts r e : marks ts (r ++ [(e, false)]) -> marks ts r.
Proof. intros M. pose proof (marks_remove_last ts r (e, false) M) as M'. by rewrite (marks_unmarked ts r e [] M) in M'. Qed.

Lemma marks_front ts r e (d : bool) :
  marks ts r -> marks (map (fun t => if 0 <=? t then t + 1 else t) ts ++ if d then [0] else []) ((e, d) :: r).
Proof.
  intros M. pose proof (marks_insert ts [] r e M) as M1. cbn [app length] in M1. change (Z.of_nat 0) with 0 in M1. destruct d.
  - by apply (marks_set _ [] e r).
  - by rewrite app_nil_r.
Qed.

Lemma marks_back ts r e (d : bool) : marks ts r -> marks (ts ++ if d then [Z.of_nat (length r)] else []) (r ++ [(e, d)]).
Proof.
  intros M. pose proof (marks_app ts [] r [(e, false)] M) as M1. cbn [map] in M1. rewrite app_nil_r in M1.
  assert (M2 : marks ts (r ++ [(e, false)])).
  { apply M1. split; [constructor|]. intros t. split; [by intros ?%not_elem_of_nil|]. intros (i & e' & -> & L). by destruct i. }
  destruct d; [by apply (marks_set ts r e [])|by rewrite app_nil_r].
Qed.

Lemma marks_drop_first ts x r : marks ts (x :: r) -> marks (map (fun t => t - 1) (List.filter (fun t => 0 <? t) ts)) r.
Proof.
  intros M. pose proof (marks_remove ts [] x r M) as M'. cbn [app length] in M'. change (Z.of_nat 0) with 0 in M'.
  replace (map (fun t => t - 1) (List.filter (fun t => 0 <? t) ts)) with (shift_down 0 (List.filter (fun t => negb (t =? 0)) ts)); [done|].
  assert (F : Forall (fun t => 0 <= t) ts) by (apply Forall_forall; intros t Ht; pose proof (marks_range _ _ _ M Ht); lia).
  unfold shift_down. change (Z.of_nat 0) with 0. clear M M'. induction F as [|t ts Ht _ IH]; [done|]. cbn.
  destruct (Z.ltb_spec 0 t), (Z.eqb_spec t 0); try lia; cbn; [|done]. rewrite IH. by destruct (Z.ltb_spec 0 t); [|lia].
Qed.

(** A leaf that is given a row. *)
Lemma set_leaf_is n r keys values ts r' :
  leaf_is lmax n r -> keys = row_keys r' -> values = row_values r' -> marks ts r' -> len r' < 2 ^ 16 - 1 ->
  leaf_is lmax (set_leaf n keys values ts) r' /\ same_links n (set_leaf n keys values ts).
Proof.
  intros [_ Eh] -> -> M L. split; [|done]. split; [by split|]. cbn. rewrite Eh, row_keys_length, u16_of_small by (unfold len in L; lia). done.
Qed.

Lemma take_last_ok n r k v d :
  leaf_is lmax n (r ++ [((k, v), d)]) ->
  is_tombstone (length r) n = d /\ length (l_keys n) = S (length r) /\ vec_remove (length r) (l_keys n) = @Ok Error _ (k, row_keys r) /\
  vec_remove (length r) (l_values n) = @Ok Error _ (v, row_values r) /\
  (let n' := set_leaf n (row_keys r) (row_values r)
               (if d then List.filter (fun t => negb (t =? Z.of_nat (length r))) (tombstones n) else tombstones n) in
   leaf_is lmax n' r /\ same_links n n' /\ (length (tombstones n') <= length (tombstones n))%nat).
Proof.
  intros Li. pose proof (li_stores _ _ _ Li) as [Ek Ev M Sh].
  split; [apply (is_tombstone_ok n (r ++ [((k, v), d)]) (length r) (k, v) d (li_stores _ _ _ Li)); by rewrite lookup_app_r, Nat.sub_diag|].
  split; [rewrite Ek, row_keys_length, length_app; cbn; lia|].
  rewrite Ek, Ev, row_keys_app, row_values_app. cbn [row_keys row_values map fst snd].
  split; [rewrite (vec_remove_at k (row_keys r) []) by apply row_keys_length; by rewrite app_nil_r|].
  split; [rewrite (vec_remove_at v (row_values r) []) by (unfold row_values; apply length_map); by rewrite app_nil_r|].
  assert (L' : len r < 2 ^ 16 - 1) by (rewrite len_app in Sh; pose proof (len_nonneg [((k, v), d)]); lia).
  destruct d.
  - destruct (set_leaf_is n (r ++ [((k, v), true)]) _ _ (List.filter (fun t => negb (t =? Z.of_nat (length r))) (tombstones n)) r Li eq_refl eq_refl) as [A B]; [by apply (marks_remove_last _ _ _ M)|done|].
    split_and!; [done|done|]. cbn. apply List.filter_length_le.
  - destruct (set_leaf_is n (r ++ [((k, v), false)]) _ _ (tombstones n) r Li eq_refl eq_refl) as [A B]; [by apply (marks_unmarked_last _ _ _ M)|done|]. by split_and!.
Qed.

Lemma put_front_ok n r k v (d : bool) :
  leaf_is lmax n r -> len r + 1 < 2 ^ 16 - 1 ->
  exists ts, shift_up 0 (tombstones n) = Ok ts /\
    (let n' := set_leaf n (k :: l_keys n) (v :: l_values n) (if d then ts ++ [0] else ts) in
     leaf_is lmax n' (((k, v), d) :: r) /\ same_links n n' /\ length (tombstones n') = (length (tombstones n) + if d then 1 else 0)%nat).
Proof.
  intros Li L. pose proof (li_stores _ _ _ Li) as [Ek Ev M Sh].
  exists (map (fun t => if 0 <=? t then t + 1 else t) (tombstones n)). split.
  - apply (shift_up_ok _ 0). apply Forall_forall. intros t Ht. pose proof (marks_range _ _ _ M Ht). lia.
  - pose proof (marks_front _ _ (k, v) d M) as Mf.
    destruct (set_leaf_is n r (k :: l_keys n) (v :: l_values n) (map (fun t => if 0 <=? t then t + 1 else t) (tombstones n) ++ if d then [0] else []) (((k, v), d) :: r) Li) as [A B];
      [by rewrite Ek|by rewrite Ev|done|rewrite len_cons; lia|].
    destruct d; [|rewrite app_nil_r in *]; (split_and!; [done|done|cbn; rewrite ?length_app, length_map; cbn; lia]).
Qed.

Lemma take_first_ok n r k v d :
  leaf_is lmax n (((k, v), d) :: r) ->
  is_tombstone 0 n = d /\ length (l_keys n) = S (length r) /\ vec_remove 0 (l_keys n) = @Ok Error _ (k, row_keys r) /\
  vec_remove 0 (l_values n) = @Ok Error _ (v, row_values r) /\
  (let n' := set_leaf n (row_keys r) (row_values r) (map (fun t => t - 1) (List.filter (fun t => 0 <? t) (tombstones n))) in
   leaf_is lmax n' r /\ same_links n n' /\ (length (tombstones n') <= length (tombstones n))%nat).
Proof.
  intros Li. pose proof (li_stores _ _ _ Li) as [Ek Ev M Sh].
  split; [by apply (is_tombstone_ok n (((k, v), d) :: r) 0 (k, v) d (li_stores _ _ _ Li))|].
  split; [by rewrite Ek, row_keys_length|]. rewrite Ek, Ev. cbn [row_keys row_values map fst snd].
  split; [by apply (vec_remove_at k [])|]. split; [by apply (vec_remove_at v [])|].
  assert (L' : len r < 2 ^ 16 - 1) by (rewrite len_cons in Sh; lia).
  destruct (set_leaf_is n (((k, v), d) :: r) _ _ (map (fun t => t - 1) (List.filter (fun t => 0 <? t) (tombstones n))) r Li eq_refl eq_refl) as [A B]; [by apply (marks_drop_first _ _ _ M)|done|].
  split_and!; [done|done|]. cbn. rewrite length_map. apply List.filter_length_le.
Qed.

Lemma put_back_ok n r k v (d : bool) :
  leaf_is lmax n r -> len r + 1 < 2 ^ 16 - 1 ->
  let n' := set_leaf n (l_keys n ++ [k]) (l_values n ++ [v])
              (if d then tombstones n ++ [u16_of (length (l_keys n))] else tombstones n) in
  leaf_is lmax n' (r ++ [((k, v), d)]) /\ same_links n n' /\ length (tombstones n') = (length (tombstones n) + if d then 1 else 0)%nat.
Proof.
  intros Li L. pose proof (li_stores _ _ _ Li) as [Ek Ev M Sh]. cbv zeta.
  rewrite (f_equal (@length bytes) Ek), row_keys_length, u16_of_small by (unfold len in *; lia).
  pose proof (marks_back _ _ (k, v) d M) as Mb.
  destruct (set_leaf_is n r (l_keys n ++ [k]) (l_values n ++ [v]) (tombstones n ++ if d then [Z.of_nat (length r)] else []) (r ++ [((k, v), d)]) Li) as [A B];
    [by rewrite Ek, row_keys_app|by rewrite Ev, row_values_app|done|rewrite len_app; change (len [((k, v), d)]) with 1; lia|].
  destruct d; [|rewrite app_nil_r in *]; (split_and!; [done|done|cbn; rewrite ?length_app; cbn; lia]).
Qed.

Lemma tombs_behind_ok k ts : Forall (fun t => 0 <= t) ts -> Forall (fun t => t + Z.of_nat k < 2 ^ 16) ts ->
  tombs_behind k ts = Ok (map (fun t => t + Z.of_nat k) ts).
Proof.
  induction 1 as [|t ts Ht _ IH]; intros F; [done|]. apply Forall_cons in F as [Ft F]. cbn. rewrite u16_of_small by lia.
  unfold arith. replace (in_u16 (t + Z.of_nat k)) with true by (unfold in_u16; lia). cbn. by rewrite IH.
Qed.

Lemma merge_ok nl nr rl rr :
  leaf_is lmax nl rl -> leaf_is lmax nr rr -> len rl + len rr < 2 ^ 16 - 1 ->
  exists ts, tombs_behind (length (l_keys nl)) (tombstones nr) = Ok ts /\
    (let n' := set_leaf nl (l_keys nl ++ l_keys nr) (l_values nl ++ l_values nr) (tombstones nl ++ ts) in
     leaf_is lmax n' (rl ++ rr) /\ same_links nl n' /\ length (tombstones n') = (length (tombstones nl) + length (tombstones nr))%nat).
Proof.
  intros Ll Lr L. pose proof (li_stores _ _ _ Ll) as [Ekl Evl Ml Shl]. pose proof (li_stores _ _ _ Lr) as [Ekr Evr Mr Shr].
  exists (map (fun t => t + Z.of_nat (length rl)) (tombstones nr)). split.
  - rewrite Ekl, row_keys_length. apply tombs_behind_ok; apply Forall_forall; intros t Ht; pose proof (marks_range _ _ _ Mr Ht); [lia|]. unfold len in *. lia.
  - destruct (set_leaf_is nl rl (l_keys nl ++ l_keys nr) (l_values nl ++ l_values nr) (tombstones nl ++ map (fun t => t + Z.of_nat (length rl)) (tombstones nr)) (rl ++ rr) Ll) as [A B];
      [by rewrite Ekl, Ekr, row_keys_app|by rewrite Evl, Evr, row_values_app|by apply marks_app|rewrite len_app; lia|].
    split_and!; [done|done|]. cbn. by rewrite length_app, length_map.
Qed.
End moves.
