(* ===== verification/BDelete.v ===== *)
(** Deletion from a B+tree: a leaf that has become too small takes an entry from
    a neighbour or is merged with it, and so on up; the root goes when it has one
    child left.  The call leaves a well-formed tree without the key. *)

From Stdlib Require Import ZArith Lia List Bool.
From S2P Require Import Prelude Common Engine Page BNode BNodeSpec BLayout BPages Pool BTree BShape BHeap BSlots BWalk BPath BInsert BLeafMoves.
From AAC_tactics Require Import AAC.
From coqutil Require Import Byte.
From stdpp Require Import base relations list strings sorting.
#[local] Open Scope Z_scope.

Lemma evicts_app a b r r' : rtc evicts r r' -> rtc evicts (a ++ r ++ b) (a ++ r' ++ b).
Proof.
  induction 1 as [|r r1 r2 [r1' e r2'] _ IH]; [done|]. eapply rtc_l; [|exact IH].
  replace (a ++ (r1' ++ (e, true) :: r2') ++ b) with ((a ++ r1') ++ (e, true) :: r2' ++ b) by (by rewrite <- !app_assoc).
  replace (a ++ (r1' ++ r2') ++ b) with ((a ++ r1') ++ r2' ++ b) by (by rewrite <- !app_assoc). constructor.
Qed.

Section delete.
Context {P : Type} `{BufferPool P} (crc32 : bytes -> Z) (frames : nat) (bt : BTree) (kmax emax : Z).
Hypothesis crc32_u32 : forall b, in_u32 (crc32 b) = true.
Hypothesis Sizes : sizes_ok bt kmax emax.

Abbreviation wf := (wf bt kmax emax).
Abbreviation path_wf := (path_wf bt kmax emax).
Abbreviation holds := (holds crc32 frames).
Abbreviation leaf_row_wf := (leaf_row_wf bt kmax emax).
Abbreviation leaf_wf := (leaf_wf bt kmax emax).
Abbreviation node_of := (node_of bt).
Abbreviation lmax := (leaf_max_size bt).
Abbreviation mt := (max_tombstones bt).

(** ** Rows of neighbouring leaves *)

Definition row_in (lo : bytes) (hi : option bytes) (r : row) : Prop :=
  row_sorted r /\ Forall (fun s => within lo hi s.1.1 /\ entry_small kmax emax s.1) r.

Lemma within_up lo k hi x : within lo (Some k) x -> within lo hi k -> within lo hi x.
Proof. intros [A B] [_ C]. split; [done|]. destruct hi; [|done]. by eapply blt_trans. Qed.

Lemma within_down lo k hi x : within k hi x -> ble lo k -> within lo hi x.
Proof. intros [A B] C. split; [by etransitivity|done]. Qed.

Lemma row_in_app lo k hi ra rb : row_in lo (Some k) ra -> row_in k hi rb -> within lo hi k -> row_in lo hi (ra ++ rb).
Proof.
  intros [Sa Wa] [Sb Wb] Wk. split.
  - unfold row_sorted in *. rewrite row_keys_app. apply sorted_app. split_and!; [done|done|]. intros x y (sx & -> & Hx)%list_elem_of_fmap (sy & -> & Hy)%list_elem_of_fmap.
    pose proof (proj1 (Forall_forall _ _) Wa sx Hx) as [[_ B] _]. pose proof (proj1 (Forall_forall _ _) Wb sy Hy) as [[C _] _]. by eapply blt_ble_trans.
  - apply Forall_app. split; (eapply Forall_impl; [eassumption|]); intros s [Ws Ss]; (split; [|done]).
    + by eapply within_up.
    + eapply within_down; [done|apply Wk].
Qed.

(** The bound between two parts of a row is the first key of the second. *)
Lemma row_in_split lo hi ra k v d rb :
  row_in lo hi (ra ++ ((k, v), d) :: rb) ->
  row_in lo (Some k) ra /\ row_in k hi (((k, v), d) :: rb) /\ len k <= kmax /\ within lo hi k.
Proof.
  intros [S W]. unfold row_sorted in S. rewrite row_keys_app in S. apply sorted_app in S as (Sa & Sb & Sab). rewrite Forall_app in W. destruct W as [Wa Wb].
  assert (Hk : k ∈ row_keys (((k, v), d) :: rb)) by apply list_elem_of_here. split_and!.
  - split; [done|]. apply Forall_forall. intros s Hs. pose proof (proj1 (Forall_forall _ _) Wa s Hs) as [[A _] B]. split; [split; [done|]|done].
    apply Sab; [|done]. apply list_elem_of_fmap. eauto.
  - split; [done|]. apply Forall_forall. intros s Hs. pose proof (proj1 (Forall_forall _ _) Wb s Hs) as [[_ A] B]. split; [split; [|done]|done].
    apply elem_of_cons in Hs as [->|Hs]; [done|]. cbn in Sb. apply StronglySorted_inv in Sb as [_ Sb]. apply blt_ble.
    apply (proj1 (Forall_forall _ _) Sb). apply list_elem_of_fmap. eauto.
  - apply Forall_cons in Wb as [[_ [Wb _]] _]. done.
  - by apply Forall_cons in Wb as [[Wb _] _].
Qed.

Lemma row_in_evicts lo hi r r' : rtc evicts r r' -> row_in lo hi r -> row_in lo hi r'.
Proof.
  intros Ev [S W]. split; [by apply (evicts_sorted r)|]. by apply (evicts_Forall (fun e => within lo hi e.1 /\ entry_small kmax emax e) r).
Qed.

Lemma leaf_row_row lo hi n r : leaf_row_wf lo hi n r <-> leaf_is lmax n r /\ row_in lo hi r /\ (length (tombstones n) <= mt)%nat.
Proof. split; [intros [A B C D]; by split_and!|intros (A & [B C] & D); by split]. Qed.

(** ** Parents *)

Definition node_ok (kids : list kid) : Prop := (length kids <= imax bt)%nat /\ Forall (fun k => len k.1 <= kmax) kids.

Lemma node_of_ext a b : map fst a = map fst b -> map (fun k => root k.2) a = map (fun k => root k.2) b -> node_of a = node_of b.
Proof.
  intros E1 E2. unfold BShape.node_of. rewrite E1, E2. assert (L : length a = length b) by (apply (f_equal length) in E1; by rewrite !length_map in E1).
  unfold len. by rewrite L.
Qed.

Lemma set_separator_runs np pg L k t R g k' X p (Q : unit -> P -> Prop) :
  holds np (mkSlot pg (CNode (node_of (L ++ (k, t) :: R))) (Writes g) :: X) p -> node_ok (L ++ (k, t) :: R) -> len k' <= kmax ->
  (forall p', holds np (mkSlot pg (CNode (node_of (L ++ (k', t) :: R))) (Writes g) :: X) p' -> Q tt p') ->
  runs (set_separator crc32 g (length L) k') p Q.
Proof.
  intros Hd [Ln Fk] Lk K. pose proof (kids_ids crc32 frames bt _ _ _ _ _ _ Hd) as Fi. apply runs_bind. reads read_internal_at_runs Hd.
  apply runs_bind, (runs_pure _ (node_of (L ++ (k', t) :: R))).
  { unfold set_key_at. cbn [BShape.node_of i_keys]. rewrite !map_app. cbn [map fst snd]. rewrite (vec_set_at k') by apply length_map. cbn.
    unfold BShape.node_of, len. rewrite !map_app, !length_app. done. }
  rule write_internal_runs Hd; [|done]. rewrite Forall_app, Forall_cons in Fk, Fi.
  apply (node_fits bt kmax emax Sizes); [by rewrite length_app in *|rewrite Forall_app, Forall_cons..]; tauto.
Qed.

(** ** Entries from a neighbour *)

Lemma leaf_tombs_0 lo hi n r : leaf_row_wf lo hi n r -> mt = 0%nat -> tombstones n = [].
Proof. intros [_ _ _ T] E. rewrite E in T. by destruct (tombstones n); [|cbn in T; lia]. Qed.

Lemma row_first lo hi r : r <> [] -> row_in lo hi r -> exists k v d rest, r = ((k, v), d) :: rest.
Proof. destruct r as [|[[k v] d] rest]; [done|]. intros _ _. by exists k, v, d, rest. Qed.

Lemma leaf_write_fits lo hi n r prev next :
  leaf_row_wf lo hi n r -> len r <= lmax + Z.of_nat mt -> prev_page_id n = prev -> next_page_id n = next ->
  in_u32 prev = true -> in_u32 next = true -> leaf_fits n.
Proof. intros Lw Lr Ep En Ip In. rewrite <- (relink_same n), Ep, En. by apply (leaf_row_fits bt kmax emax Sizes lo hi n r). Qed.

(** A leaf that took an entry and lost tombstones. *)
Lemma trimmed lo hi n r :
  leaf_is lmax n r -> row_in lo hi r -> r <> [] -> (mt = 0%nat -> tombstones n = []) ->
  exists n' r', trim bt n = Ok n' /\ leaf_row_wf lo hi n' r' /\ alive r' = alive r /\ same_links n n' /\ r' <> [] /\ rtc evicts r r' /\
    (length r' <= length r)%nat.
Proof.
  intros Li [Sr W] Nr Mt. destruct (trim_ok bt kmax emax lo hi n r Li Sr W Nr Mt) as (n' & r' & E & Lw & Ea & Sl & N' & Ev).
  exists n', r'. split_and!; [done..|by apply evicts_length].
Qed.

(** Without tombstones there are none to move. *)
Lemma moved_tombs lo hi n r lo' hi' n0 r0 e (d : bool) (n' : LeafNode) :
  leaf_row_wf lo hi n r -> leaf_row_wf lo' hi' n0 r0 -> (e, d) ∈ r ->
  length (tombstones n') = (length (tombstones n0) + if d then 1 else 0)%nat -> mt = 0%nat -> tombstones n' = [].
Proof.
  intros Lw L0 He Lt E. apply nil_length_inv. rewrite Lt, (leaf_tombs_0 lo' hi' n0 r0 L0 E). destruct d; [|done]. exfalso.
  apply list_elem_of_lookup in He as (i & He). pose proof (st_marks _ _ (li_stores _ _ _ (lr_is _ _ _ _ _ _ _ Lw))) as [_ M].
  assert (Hz : Z.of_nat i ∈ tombstones n) by (apply M; eauto). rewrite (leaf_tombs_0 lo hi n r Lw E) in Hz. by apply not_elem_of_nil in Hz.
Qed.

Lemma redistribute_leaf_left_runs np pg g L kl i nl k j nj R a b c d X lo hi rl rj p (Q : unit -> P -> Prop) :
  let kids nl k nj := L ++ (kl, TLeaf i nl) :: (k, TLeaf j nj) :: R in
  holds np (mkSlot pg (CNode (node_of (kids nl k nj))) (Writes g) :: mkSlot i (CLeaf (relink a b nl)) Free ::
            mkSlot j (CLeaf (relink c d nj)) Free :: X) p -> node_ok (kids nl k nj) -> (length (guards_of X) + 2 < frames)%nat ->
  leaf_row_wf lo (Some k) nl rl -> leaf_row_wf k hi nj rj -> within lo hi k ->
  2 <= len rl <= lmax + Z.of_nat mt -> len rj < lmax ->
  (forall k' nl' nj' p', leaf_wf lo (Some k') nl' -> leaf_wf k' hi nj' -> live_entries nl' ++ live_entries nj' = alive rl ++ alive rj -> len k' <= kmax ->
     holds np (mkSlot pg (CNode (node_of (kids nl' k' nj'))) (Writes g) :: mkSlot i (CLeaf (relink a b nl')) Free ::
               mkSlot j (CLeaf (relink c d nj')) Free :: X) p' -> Q tt p') ->
  runs (redistribute_leaf_from_left_ctx crc32 bt g (S (length L)) i j) p Q.
Proof.
  intros kids Hd Nk F Ll Lj Wk Bl Bj K. pose proof (lmax_small bt kmax emax Sizes) as [B1 B2].
  apply leaf_row_row in Ll as (Il & Rl & Tl). apply leaf_row_row in Lj as (Ij & Rj & Tj).
  destruct (exists_last (l := rl) ltac:(destruct rl; [unfold len in Bl; cbn in Bl; lia|done])) as (rl' & [[kx vx] dx] & ->).
  assert (Rall : row_in lo hi (rl' ++ ((kx, vx), dx) :: rj)).
  { change (((kx, vx), dx) :: rj) with ([((kx, vx), dx)] ++ rj). rewrite app_assoc. by apply (row_in_app lo k hi). }
  destruct (row_in_split _ _ _ _ _ _ _ Rall) as (Rl' & Rj' & Lkx & Wkx). rewrite len_app in Bl. change (len [((kx, vx), dx)]) with 1 in Bl.
  destruct (take_last_ok bt (relink a b nl) rl' kx vx dx (proj2 (leaf_is_relink _ _ _ _ _) Il)) as (Ed & Elen & Ek & Ev & Il' & Sl' & Tl').
  front i Hd. pose proof (holds_leaf_fits _ _ _ _ _ _ _ _ Hd) as [_ _ _ [Ib Ia] _ _ _]. cbn in Ib, Ia.
  apply runs_bind. rule fetch_write_runs Hd; [room|]. intros g1 p1 _ Hd1. apply runs_bind. reads read_leaf_at_runs Hd1.
  cbv zeta. rewrite Elen, Nat.sub_1_r, Nat.pred_succ, Ed. cbn [Nat.eqb]. apply runs_bind, runs_ret.
  apply runs_bind, (runs_pure _ _ _ _ Ek). apply runs_bind, (runs_pure _ _ _ _ Ev).
  set (nl' := set_leaf _ (row_keys rl') _ _) in *.
  assert (Lwl : leaf_row_wf lo (Some kx) nl' rl') by (apply leaf_row_row; split_and!; [done|done|cbn in *; lia]).
  apply runs_bind. rule write_leaf_runs Hd1; [by apply (leaf_write_fits lo (Some kx) nl' rl' a b); [|lia|..]|]. intros p2 Hd2.
  apply runs_bind. rule drop_runs Hd2; [done|]. intros p3 Hd3. front j Hd3. pose proof (holds_leaf_fits _ _ _ _ _ _ _ _ Hd3) as [_ _ _ [Id Ic] _ _ _]. cbn in Id, Ic.
  apply runs_bind. rule fetch_write_runs Hd3; [room|]. intros g2 p4 _ Hd4. apply runs_bind. reads read_leaf_at_runs Hd4.
  destruct (put_front_ok bt (relink c d nj) rj kx vx dx (proj2 (leaf_is_relink _ _ _ _ _) Ij) ltac:(lia)) as (ts & Ets & Ij' & Sj' & Tj').
  apply runs_bind, (runs_pure _ _ _ _ Ets).
  destruct (trimmed kx hi _ _ Ij' Rj') as (nj' & r2 & Etr & Lwj & Eal & Slj & Nr2 & Evi & Le2).
  { done. } { apply (moved_tombs lo (Some k) nl (rl' ++ [((kx, vx), dx)]) k hi nj rj (kx, vx) dx); [by apply leaf_row_row..|apply elem_of_app; right; apply list_elem_of_here|done]. }
  apply runs_bind, (runs_pure _ _ _ _ Etr). apply leaf_row_row in Lwj as (Ij2 & Rj2 & Tj2).
  destruct (row_first kx hi r2 Nr2 Rj2) as (k' & v' & d' & rest & Er2).
  apply runs_bind, (runs_pure _ k'); [by rewrite (st_keys _ _ (li_stores _ _ _ Ij2)), Er2|].
  assert (R3 : row_in lo hi (rl' ++ r2)).
  { pose proof (evicts_app rl' [] _ _ Evi) as Ev'. rewrite !app_nil_r in Ev'. by apply (row_in_evicts lo hi _ _ Ev'). }
  rewrite Er2 in R3. destruct (row_in_split _ _ _ _ _ _ _ R3) as (Ra & Rb & Lk' & Wk').
  assert (Lwj : leaf_row_wf k' hi nj' r2) by (rewrite Er2 in *; apply leaf_row_row; by split_and!).
  assert (L2 : len r2 <= lmax + Z.of_nat mt) by (unfold len in *; cbn in Le2; lia). destruct Slj as [Sn Sp].
  apply runs_bind. rule write_leaf_runs Hd4; [by apply (leaf_write_fits k' hi nj' r2 c d)|]. intros p5 Hd5.
  apply runs_bind. rule drop_runs Hd5; [done|]. intros p6 Hd6. front pg Hd6.
  replace (S (length L)) with (length (L ++ [(kl, TLeaf i nl)])) by (rewrite length_app; cbn; lia).
  assert (Ekids : node_of (kids nl k nj) = node_of ((L ++ [(kl, TLeaf i nl)]) ++ (k, TLeaf j nj) :: R)) by (unfold kids; by rewrite <- app_assoc).
  rewrite Ekids in Hd6. apply (set_separator_runs np pg (L ++ [(kl, TLeaf i nl)]) k (TLeaf j nj) R g k' _ p6 Q Hd6); [by rewrite <- app_assoc|done|].
  intros p7 Hd7. apply (K k' nl' nj'); [| | |done|].
  - exists rl'. split; [apply leaf_row_row; by split_and!; [|done|cbn in *; lia]|lia].
  - exists r2. split; [done|]. split; [|done]. rewrite Er2, len_cons. pose proof (len_nonneg rest). lia.
  - rewrite (leaf_live_ok _ _ (li_stores _ _ _ Il')), (leaf_live_ok _ _ (li_stores _ _ _ Ij2)), Eal, <- !alive_app, <- app_assoc. done.
  - replace (node_of (kids nl' k' nj')) with (node_of ((L ++ [(kl, TLeaf i nl)]) ++ (k', TLeaf j nj) :: R)).
    2:{ unfold kids. rewrite <- app_assoc. apply node_of_ext; by rewrite !map_app. }
    change (relink a b nl') with nl'. rewrite <- (relink_same nj') in Hd7. cbn in Sn, Sp. rewrite Sn, Sp in Hd7. reorder Hd7.
Qed.

Lemma redistribute_leaf_right_runs np pg g L k j nj kr i nr R a b c d X lo hi rj rr p (Q : unit -> P -> Prop) :
  let kids nj kr nr := L ++ (k, TLeaf j nj) :: (kr, TLeaf i nr) :: R in
  holds np (mkSlot pg (CNode (node_of (kids nj kr nr))) (Writes g) :: mkSlot j (CLeaf (relink a b nj)) Free ::
            mkSlot i (CLeaf (relink c d nr)) Free :: X) p -> node_ok (kids nj kr nr) -> (length (guards_of X) + 2 < frames)%nat ->
  leaf_row_wf lo (Some kr) nj rj -> leaf_row_wf kr hi nr rr -> within lo hi kr ->
  2 <= len rr <= lmax + Z.of_nat mt -> len rj < lmax ->
  (forall k' nj' nr' p', leaf_wf lo (Some k') nj' -> leaf_wf k' hi nr' -> live_entries nj' ++ live_entries nr' = alive rj ++ alive rr -> len k' <= kmax ->
     holds np (mkSlot pg (CNode (node_of (kids nj' k' nr'))) (Writes g) :: mkSlot j (CLeaf (relink a b nj')) Free ::
               mkSlot i (CLeaf (relink c d nr')) Free :: X) p' -> Q tt p') ->
  runs (redistribute_leaf_from_right_ctx crc32 bt g (length L) j i) p Q.
Proof.
  intros kids Hd Nk F Lj Lr Wk Br Bj K. pose proof (lmax_small bt kmax emax Sizes) as [B1 B2].
  apply leaf_row_row in Lr as (Ir & Rr & Tr). apply leaf_row_row in Lj as (Ij & Rj & Tj).
  destruct rr as [|[[kx vx] dx] rr']; [unfold len in Br; cbn in Br; lia|]. rewrite len_cons in Br.
  destruct rr' as [|[[k' v'] d'] rest] eqn:Err; [unfold len in Br; cbn in Br; lia|]. rewrite <- Err in *.
  assert (Rall : row_in lo hi ((rj ++ [((kx, vx), dx)]) ++ rr')) by (rewrite <- app_assoc; by apply (row_in_app lo kr hi)).
  destruct (take_first_ok bt (relink c d nr) rr' kx vx dx (proj2 (leaf_is_relink _ _ _ _ _) Ir)) as (Ed & Elen & Ek & Ev & Ir' & Sr' & Tr').
  front i Hd. pose proof (holds_leaf_fits _ _ _ _ _ _ _ _ Hd) as [_ _ _ [Id Ic] _ _ _]. cbn in Id, Ic.
  apply runs_bind. rule fetch_write_runs Hd; [room|]. intros g1 p1 _ Hd1. apply runs_bind. reads read_leaf_at_runs Hd1.
  cbv zeta. rewrite Elen, Ed. cbn [Nat.eqb]. apply runs_bind, runs_ret. apply runs_bind, (runs_pure _ _ _ _ Ek). apply runs_bind, (runs_pure _ _ _ _ Ev).
  apply runs_bind, (runs_pure _ k'); [by rewrite Err|].
  set (nr' := set_leaf _ (row_keys rr') _ _) in *.
  assert (R0 : row_in lo hi ((rj ++ [((kx, vx), dx)]) ++ ((k', v'), d') :: rest)) by by rewrite <- Err.
  destruct (row_in_split _ _ _ _ _ _ _ R0) as (Ra & Rb & Lk' & Wk'). rewrite <- Err in Rb.
  assert (Lwr : leaf_row_wf k' hi nr' rr') by (apply leaf_row_row; split_and!; [done|done|cbn in *; lia]).
  apply runs_bind. rule write_leaf_runs Hd1; [by apply (leaf_write_fits k' hi nr' rr' c d); [|lia|..]|]. intros p2 Hd2.
  apply runs_bind. rule drop_runs Hd2; [done|]. intros p3 Hd3. front j Hd3. pose proof (holds_leaf_fits _ _ _ _ _ _ _ _ Hd3) as [_ _ _ [Ib Ia] _ _ _]. cbn in Ib, Ia.
  apply runs_bind. rule fetch_write_runs Hd3; [room|]. intros g2 p4 _ Hd4. apply runs_bind. reads read_leaf_at_runs Hd4.
  destruct (put_back_ok bt (relink a b nj) rj kx vx dx (proj2 (leaf_is_relink _ _ _ _ _) Ij) ltac:(lia)) as (Ij' & Sj' & Tj').
  destruct (trimmed lo (Some k') _ _ Ij' Ra) as (nj' & r2 & Etr & Lwj & Eal & Slj & Nr2 & Evi & Le2).
  { by destruct rj. } { apply (moved_tombs kr hi nr (((kx, vx), dx) :: rr') lo (Some kr) nj rj (kx, vx) dx); [by apply leaf_row_row..|apply list_elem_of_here|done]. }
  cbv zeta. apply runs_bind, (runs_pure _ _ _ _ Etr). destruct Slj as [Sn Sp].
  assert (L2 : len r2 <= lmax + Z.of_nat mt) by (rewrite length_app in Le2; unfold len in *; cbn in Le2; lia).
  apply runs_bind. rule write_leaf_runs Hd4; [by apply (leaf_write_fits lo (Some k') nj' r2 a b)|]. intros p5 Hd5.
  apply runs_bind. rule drop_runs Hd5; [done|]. intros p6 Hd6. front pg Hd6.
  replace (length L + 1)%nat with (length (L ++ [(k, TLeaf j nj)])) by (rewrite length_app; cbn; lia).
  assert (Ekids : node_of (kids nj kr nr) = node_of ((L ++ [(k, TLeaf j nj)]) ++ (kr, TLeaf i nr) :: R)) by (unfold kids; by rewrite <- app_assoc).
  rewrite Ekids in Hd6. apply (set_separator_runs np pg (L ++ [(k, TLeaf j nj)]) kr (TLeaf i nr) R g k' _ p6 Q Hd6); [by rewrite <- app_assoc|done|].
  intros p7 Hd7. apply (K k' nj' nr'); [| | |done|].
  - exists r2. split; [done|]. split; [|done]. destruct r2; [done|]. rewrite len_cons. pose proof (len_nonneg r2). lia.
  - exists rr'. split; [done|]. lia.
  - rewrite (leaf_live_ok _ _ (li_stores _ _ _ Ir')), (leaf_live_ok _ _ (li_stores _ _ _ (lr_is _ _ _ _ _ _ _ Lwj))), Eal, <- !alive_app, <- app_assoc. done.
  - replace (node_of (kids nj' k' nr')) with (node_of ((L ++ [(k, TLeaf j nj)]) ++ (k', TLeaf i nr) :: R)).
    2:{ unfold kids. rewrite <- app_assoc. apply node_of_ext; by rewrite !map_app. }
    change (relink c d nr') with nr'. rewrite <- (relink_same nj') in Hd7. cbn in Sn, Sp. rewrite Sn, Sp in Hd7. reorder Hd7.
Qed.

(** ** Merging *)

Lemma drop_at_mid {A} (a b : list A) x : drop_at (length a) (a ++ x :: b) = a ++ b.
Proof.
  unfold drop_at. rewrite (proj2 (Nat.ltb_lt _ _)) by (rewrite length_app; cbn; lia). f_equal.
  - by rewrite take_app_length.
  - rewrite drop_app_ge by lia. by replace (S (length a) - length a)%nat with 1%nat by lia.
Qed.

Lemma remove_child_runs np pg L k t R g X p (Q : unit -> P -> Prop) :
  holds np (mkSlot pg (CNode (node_of (L ++ (k, t) :: R))) (Writes g) :: X) p -> node_ok (L ++ (k, t) :: R) ->
  (forall p', holds np (mkSlot pg (CNode (node_of (L ++ R))) (Writes g) :: X) p' -> Q tt p') ->
  runs (remove_child crc32 g (length L)) p Q.
Proof.
  intros Hd [Ln Fk] K. pose proof (kids_ids crc32 frames bt _ _ _ _ _ _ Hd) as Fi. apply runs_bind. reads read_internal_at_runs Hd.
  replace (remove_at (length L) (node_of (L ++ (k, t) :: R))) with (node_of (L ++ R)).
  - rule write_internal_runs Hd; [|done]. rewrite Forall_app, Forall_cons in Fk, Fi. rewrite length_app in Ln. cbn in Ln.
    apply (node_fits bt kmax emax Sizes); [rewrite length_app; lia|rewrite Forall_app; tauto..].
  - unfold remove_at, BShape.node_of. cbn. rewrite !map_app. cbn. unfold set_size. cbn.
    assert (E1 : drop_at (length L) (map fst L ++ k :: map fst R) = map fst L ++ map fst R) by (rewrite <- (length_map fst L); apply drop_at_mid).
    assert (E2 : drop_at (length L) (map (fun x => root x.2) L ++ root t :: map (fun x => root x.2) R) = map (fun x => root x.2) L ++ map (fun x => root x.2) R)
      by (rewrite <- (length_map (fun x => root x.2) L); apply drop_at_mid).
    rewrite E1, E2, !len_app, len_cons. f_equal. f_equal. pose proof (len_nonneg L). pose proof (len_nonneg R). lia.
Qed.

Lemma merge_leaves_runs np pg g L kl i nl k j nr R a Rest X lo hi rl rr p (Q : unit -> P -> Prop) :
  holds np (mkSlot pg (CNode (node_of (L ++ (kl, TLeaf i nl) :: (k, TLeaf j nr) :: R))) (Writes g) ::
            mkSlot i (CLeaf (relink a j nl)) Free :: mkSlot j (CLeaf (relink i (first_of Rest INVALID_PAGE) nr)) Free ::
            link j Rest INVALID_PAGE ++ X) p ->
  node_ok (L ++ (kl, TLeaf i nl) :: (k, TLeaf j nr) :: R) -> (length (guards_of X) + 2 < frames)%nat ->
  leaf_row_wf lo (Some k) nl rl -> leaf_row_wf k hi nr rr -> within lo hi k ->
  1 <= len rl + len rr <= lmax + Z.of_nat mt ->
  (forall nm p', leaf_wf lo hi nm -> live_entries nm = alive rl ++ alive rr ->
     holds np (mkSlot pg (CNode (node_of (L ++ (kl, TLeaf i nm) :: R))) (Writes g) ::
               mkSlot i (CLeaf (relink a (first_of Rest INVALID_PAGE) nm)) Free :: link i Rest INVALID_PAGE ++ X) p' -> Q tt p') ->
  runs (merge_leaves_ctx crc32 bt g (S (length L)) i j) p Q.
Proof.
  intros Hd Nk F Ll Lr Wk Bl K. pose proof (lmax_small bt kmax emax Sizes) as [B1 B2].
  pose proof (lr_is _ _ _ _ _ _ _ Ll) as Il. pose proof (lr_is _ _ _ _ _ _ _ Lr) as Ir.
  assert (Rall : row_in lo hi (rl ++ rr)) by (apply leaf_row_row in Ll as (_ & Rl & _); apply leaf_row_row in Lr as (_ & Rr & _); by apply (row_in_app lo k hi)).
  front j Hd. apply runs_bind. rule fetch_read_runs Hd; [room|]. intros g1 p1 _ Hd1. apply runs_bind. reads read_leaf_at_runs Hd1.
  pose proof (holds_leaf_fits _ _ _ _ _ _ _ _ Hd1) as [_ _ _ [In Ii] _ _ _]. cbn in In, Ii.
  apply runs_bind. rule drop_runs Hd1; [done|]. intros p2 Hd2. front i Hd2. pose proof (holds_leaf_fits _ _ _ _ _ _ _ _ Hd2) as [_ _ _ [_ Ia] _ _ _]. cbn in Ia.
  apply runs_bind. rule fetch_write_runs Hd2; [room|]. intros g2 p3 _ Hd3. apply runs_bind. reads read_leaf_at_runs Hd3.
  set (ml := relink a j nl) in *. set (mr := relink i (first_of Rest INVALID_PAGE) nr) in *.
  destruct (merge_ok bt ml mr rl rr (proj2 (leaf_is_relink _ _ _ _ _) Il) (proj2 (leaf_is_relink _ _ _ _ _) Ir) ltac:(lia)) as (ts & Ets & Im & Sm & Tm).
  apply runs_bind, (runs_pure _ _ _ _ Ets). cbv zeta. cbn [l_header prev_page_id set_leaf l_keys l_values tombstones].
  destruct (trimmed lo hi (relink a (first_of Rest INVALID_PAGE) (set_leaf ml (l_keys ml ++ l_keys mr) (l_values ml ++ l_values mr) (tombstones ml ++ ts))) (rl ++ rr))
    as (nm & rm & Etr & Lwm & Eal & [Sn Sp] & Nrm & Evi & Le2).
  { by apply leaf_is_relink. } { done. } { intros E. apply (f_equal len) in E. rewrite len_app in E. change (len []) with 0 in E. lia. }
  { intros E. apply nil_length_inv. change (length (tombstones (set_leaf ml (l_keys ml ++ l_keys mr) (l_values ml ++ l_values mr) (tombstones ml ++ ts))) = 0%nat).
    rewrite Tm. change (tombstones ml) with (tombstones nl). change (tombstones mr) with (tombstones nr).
    by rewrite (leaf_tombs_0 _ _ _ _ Ll E), (leaf_tombs_0 _ _ _ _ Lr E). }
  apply runs_bind, (runs_pure _ nm); [exact Etr|]. cbn in Sn, Sp.
  assert (Lm : len rm <= lmax + Z.of_nat mt) by (rewrite length_app in Le2; unfold len in *; lia).
  apply runs_bind. rule write_leaf_runs Hd3; [by apply (leaf_write_fits lo hi nm rm a (first_of Rest INVALID_PAGE))|]. intros p4 Hd4.
  apply runs_bind. rule drop_runs Hd4; [done|]. intros p5 Hd5.
  assert (Hii : in_u32 i = true) by done. apply runs_bind.
  apply (set_prev_runs crc32 frames crc32_u32 np j i Rest (mkSlot pg (CNode (node_of (L ++ (kl, TLeaf i nl) :: (k, TLeaf j nr) :: R))) (Writes g) ::
    mkSlot i (CLeaf nm) Free :: mkSlot j (CLeaf mr) Free :: X)); [reorder Hd5|done|room|].
  intros p6 Hd6. front pg Hd6. replace (S (length L)) with (length (L ++ [(kl, TLeaf i nl)])) by (rewrite length_app; cbn; lia).
  change ((kl, TLeaf i nl) :: (k, TLeaf j nr) :: R) with ([(kl, TLeaf i nl)] ++ (k, TLeaf j nr) :: R) in Hd6. rewrite app_assoc in Hd6.
  eapply remove_child_runs; [exact Hd6|by rewrite <- app_assoc|]. intros p7 Hd7. apply (K nm).
  - exists rm. split; [done|]. split; [|done]. destruct rm; [done|]. rewrite len_cons. pose proof (len_nonneg rm). lia.
  - by rewrite (leaf_live_ok _ _ (li_stores _ _ _ (lr_is _ _ _ _ _ _ _ Lwm))), Eal, alive_app.
  - apply (holds_forget crc32 frames np [mkSlot j (CLeaf mr) Free]); [|done]. eapply holds_perm; [exact Hd7|].
    replace (node_of ((L ++ [(kl, TLeaf i nl)]) ++ R)) with (node_of (L ++ (kl, TLeaf i nm) :: R)) by (rewrite <- app_assoc; apply node_of_ext; by rewrite !map_app).
    rewrite <- (relink_same nm) at 2. rewrite Sn, Sp. perm.
Qed.
End delete.
