(* ===== verification/BNodeMoves.v ===== *)
(** Moving children between two neighbouring internal nodes: redistribution and
    merging, and the walk up that uses them ([rebalance_internal_ctx]). *)

From Stdlib Require Import ZArith Lia List Bool.
From S2P Require Import Prelude Common Engine Page BNode BNodeSpec BLayout BPages Pool BTree BShape BHeap BSlots BWalk BPath BInsert BLeafMoves BDelete.
From AAC_tactics Require Import AAC.
From coqutil Require Import Byte.
From stdpp Require Import base relations list strings sorting.
#[local] Open Scope Z_scope.

Section nodes.
Context {P : Type} `{BufferPool P} (crc32 : bytes -> Z) (frames : nat) (bt : BTree) (kmax emax : Z).
Hypothesis crc32_u32 : forall b, in_u32 (crc32 b) = true.
Hypothesis Sizes : sizes_ok bt kmax emax.

Abbreviation wf := (wf bt kmax emax).
Abbreviation path_wf := (path_wf bt kmax emax).
Abbreviation holds := (holds crc32 frames).
Abbreviation node_of := (node_of bt).
Abbreviation node_ok := (node_ok bt kmax).
Abbreviation header_slot := (header_slot bt).
Abbreviation own := (own bt).
Abbreviation sibs := (sibs bt).
Abbreviation inner := (inner bt).
Abbreviation inners := (inners bt).

Definition ids (kids : list kid) : Prop := Forall (fun k => in_u32 (root k.2) = true) kids.

Lemma set_internal_node kids0 kids keys cs :
  (length kids <= imax bt)%nat -> keys = map fst kids -> cs = map (fun k => root k.2) kids ->
  set_internal (node_of kids0) keys cs = node_of kids.
Proof.
  intros L -> ->. pose proof (imax_u16 bt kmax emax Sizes) as [E16 B16]. unfold set_internal, set_size, BShape.node_of. cbn.
  rewrite length_map, u16_of_len by lia. done.
Qed.

Lemma node_ok_fits kids : node_ok kids -> ids kids -> internal_fits (node_of kids).
Proof. intros [L F] I. by apply (node_fits bt kmax emax Sizes). Qed.

Lemma keys_node kids : i_keys (node_of kids) = map fst kids.
Proof. done. Qed.
Lemma children_node kids : children (node_of kids) = map (fun k => root k.2) kids.
Proof. done. Qed.

(** A key of a node. *)
Lemma key_at_mid l1 k t l2 : i_key_at (length l1) (node_of (l1 ++ (k, t) :: l2)) = Ok k.
Proof.
  unfold i_key_at, vec_at. rewrite keys_node, map_app, lookup_app_r by by rewrite length_map. by rewrite length_map, Nat.sub_diag.
Qed.

Lemma redistribute_internal_left_runs np pg g L kl i lk kx cx k j k0 c0 nk R X p (Q : unit -> P -> Prop) :
  holds np (mkSlot pg (CNode (node_of (L ++ (kl, TNode i (lk ++ [(kx, cx)])) :: (k, TNode j ((k0, c0) :: nk)) :: R))) (Writes g) ::
            mkSlot i (CNode (node_of (lk ++ [(kx, cx)]))) Free :: mkSlot j (CNode (node_of ((k0, c0) :: nk))) Free :: X) p ->
  node_ok (L ++ (kl, TNode i (lk ++ [(kx, cx)])) :: (k, TNode j ((k0, c0) :: nk)) :: R) ->
  node_ok (lk ++ [(kx, cx)]) -> node_ok ((k0, c0) :: nk) -> (S (S (length nk)) <= imax bt)%nat -> (length (guards_of X) + 2 < frames)%nat ->
  (forall p', holds np (mkSlot pg (CNode (node_of (L ++ (kl, TNode i lk) :: (kx, TNode j ((k0, cx) :: (k, c0) :: nk)) :: R))) (Writes g) ::
            mkSlot i (CNode (node_of lk)) Free :: mkSlot j (CNode (node_of ((k0, cx) :: (k, c0) :: nk))) Free :: X) p' -> Q tt p') ->
  runs (redistribute_internal_from_left_ctx crc32 g (S (length L)) i j) p Q.
Proof.
  intros Hd Np [Ll Fl] [Ln Fn] Lk F K. pose proof Np as [_ Fp]. rewrite Forall_app, !Forall_cons in Fp. destruct Fp as (_ & _ & Hk & _).
  replace (S (length L)) with (length (L ++ [(kl, TNode i (lk ++ [(kx, cx)]))])) by (rewrite length_app; cbn; lia).
  change ((kl, TNode i (lk ++ [(kx, cx)])) :: (k, TNode j ((k0, c0) :: nk)) :: R) with ([(kl, TNode i (lk ++ [(kx, cx)]))] ++ (k, TNode j ((k0, c0) :: nk)) :: R) in Hd, Np.
  rewrite app_assoc in Hd, Np. apply runs_bind. reads read_internal_at_runs Hd. apply runs_bind, (runs_pure _ k); [apply key_at_mid|].
  rewrite length_app in Ll. cbn in Ll. rewrite Forall_app in Fl. destruct Fl as [Fl Fx]. apply Forall_cons in Fx as [Fx _]. apply Forall_cons in Fn as [F0 Fn].
  front i Hd. pose proof (kids_ids crc32 frames bt _ _ _ _ _ _ Hd) as Il. rewrite Forall_app in Il. destruct Il as [Il Ix]. apply Forall_cons in Ix as [Ix _].
  apply runs_bind. rule fetch_write_runs Hd; [room|]. intros g1 p1 _ Hd1. apply runs_bind. reads read_internal_at_runs Hd1. cbv zeta.
  rewrite keys_node, children_node, !map_app, (length_app (map fst lk)), (length_map fst lk). cbn [map fst snd length]. rewrite Nat.add_1_r, Nat.sub_1_r, Nat.pred_succ. cbn [Nat.eqb].
  apply runs_bind, runs_ret. apply runs_bind, (runs_pure _ (kx, map fst lk)); [rewrite (vec_remove_at kx (map fst lk) []) by apply length_map; by rewrite app_nil_r|].
  apply runs_bind, (runs_pure _ (root cx, map (fun c => root c.2) lk)).
  { rewrite (vec_remove_at (root cx) (map (fun c => root c.2) lk) []) by by rewrite !length_map. by rewrite app_nil_r. }
  apply runs_bind.
  rewrite (set_internal_node (lk ++ [(kx, cx)]) lk) by (done || lia).
  rule write_internal_runs Hd1; [apply node_ok_fits; [split; [lia|done]|done]|]. intros p2 Hd2. apply runs_bind. rule drop_runs Hd2; [done|]. intros p3 Hd3.
  front j Hd3. pose proof (kids_ids crc32 frames bt _ _ _ _ _ _ Hd3) as Ij. apply Forall_cons in Ij as [I0 Ij].
  apply runs_bind. rule fetch_write_runs Hd3; [room|]. intros g2 p4 _ Hd4. apply runs_bind. reads read_internal_at_runs Hd4.
  apply runs_bind, (runs_pure _ (map fst ((k0, cx) :: (k, c0) :: nk))); [by apply (vec_insert_at k [k0])|]. apply runs_bind.
  rewrite (set_internal_node ((k0, c0) :: nk) ((k0, cx) :: (k, c0) :: nk)) by (done || cbn; lia).
  rule write_internal_runs Hd4; [apply node_ok_fits; [split; [cbn; lia|by repeat constructor]|by repeat constructor]|].
  intros p5 Hd5. apply runs_bind. rule drop_runs Hd5; [done|]. intros p6 Hd6. front pg Hd6.
  rule set_separator_runs Hd6; [exact Np|done|]. intros p7 Hd7. apply K.
  replace (node_of (L ++ (kl, TNode i lk) :: (kx, TNode j ((k0, cx) :: (k, c0) :: nk)) :: R))
    with (node_of ((L ++ [(kl, TNode i (lk ++ [(kx, cx)]))]) ++ (kx, TNode j ((k0, c0) :: nk)) :: R)); [reorder Hd7|].
  rewrite <- app_assoc. apply node_of_ext; by rewrite !map_app.
Qed.

Lemma redistribute_internal_right_runs np pg g L k j nk kr i k0 c0 k1 c1 rk R X p (Q : unit -> P -> Prop) :
  holds np (mkSlot pg (CNode (node_of (L ++ (k, TNode j nk) :: (kr, TNode i ((k0, c0) :: (k1, c1) :: rk)) :: R))) (Writes g) ::
            mkSlot j (CNode (node_of nk)) Free :: mkSlot i (CNode (node_of ((k0, c0) :: (k1, c1) :: rk))) Free :: X) p ->
  node_ok (L ++ (k, TNode j nk) :: (kr, TNode i ((k0, c0) :: (k1, c1) :: rk)) :: R) ->
  node_ok nk -> node_ok ((k0, c0) :: (k1, c1) :: rk) -> (S (length nk) <= imax bt)%nat -> (length (guards_of X) + 2 < frames)%nat ->
  (forall p', holds np (mkSlot pg (CNode (node_of (L ++ (k, TNode j (nk ++ [(kr, c0)])) :: (k1, TNode i ((k0, c1) :: rk)) :: R))) (Writes g) ::
            mkSlot j (CNode (node_of (nk ++ [(kr, c0)]))) Free :: mkSlot i (CNode (node_of ((k0, c1) :: rk))) Free :: X) p' -> Q tt p') ->
  runs (redistribute_internal_from_right_ctx crc32 g (length L) j i) p Q.
Proof.
  intros Hd Np [Ln Fn] [Lr Fr] Lk F K. pose proof Np as [_ Fp]. rewrite Forall_app, !Forall_cons in Fp. destruct Fp as (_ & _ & Hk & _).
  unfold redistribute_internal_from_right_ctx.
  replace (length L + 1)%nat with (length (L ++ [(k, TNode j nk)])) by (rewrite length_app; cbn; lia).
  change ((k, TNode j nk) :: (kr, TNode i ((k0, c0) :: (k1, c1) :: rk)) :: R) with ([(k, TNode j nk)] ++ (kr, TNode i ((k0, c0) :: (k1, c1) :: rk)) :: R) in Hd, Np.
  rewrite app_assoc in Hd, Np. apply runs_bind. reads read_internal_at_runs Hd. apply runs_bind, (runs_pure _ kr); [apply key_at_mid|].
  cbn [length] in Lr. rewrite !Forall_cons in Fr. destruct Fr as (F0 & F1 & Fr).
  front i Hd. pose proof (kids_ids crc32 frames bt _ _ _ _ _ _ Hd) as Ii. rewrite !Forall_cons in Ii. destruct Ii as (I0 & I1 & Ii).
  apply runs_bind. rule fetch_write_runs Hd; [room|]. intros g1 p1 _ Hd1. apply runs_bind. reads read_internal_at_runs Hd1.
  apply runs_bind, (runs_pure _ (k1, map fst ((k0, c1) :: rk))); [by apply (vec_remove_at k1 [k0])|].
  apply runs_bind, (runs_pure _ (root c0, map (fun c => root c.2) ((k0, c1) :: rk))); [by apply (vec_remove_at (root c0) [])|]. apply runs_bind.
  rewrite (set_internal_node ((k0, c0) :: (k1, c1) :: rk) ((k0, c1) :: rk)) by (done || cbn; lia).
  rule write_internal_runs Hd1; [apply node_ok_fits; [split; [cbn; lia|by repeat constructor]|by repeat constructor]|].
  intros p2 Hd2. apply runs_bind. rule drop_runs Hd2; [done|]. intros p3 Hd3. front j Hd3. pose proof (kids_ids crc32 frames bt _ _ _ _ _ _ Hd3) as Ij.
  apply runs_bind. rule fetch_write_runs Hd3; [room|]. intros g2 p4 _ Hd4. apply runs_bind. reads read_internal_at_runs Hd4. apply runs_bind.
  rewrite (set_internal_node nk (nk ++ [(kr, c0)])) by (by rewrite ?keys_node, ?children_node, ?map_app || (rewrite length_app; cbn; lia)).
  rule write_internal_runs Hd4.
  { apply node_ok_fits; [split; [rewrite length_app; cbn; lia|]|]; apply Forall_app; (split; [done|by repeat constructor]). }
  intros p5 Hd5. apply runs_bind. rule drop_runs Hd5; [done|]. intros p6 Hd6. front pg Hd6.
  rule set_separator_runs Hd6; [exact Np|done|]. intros p7 Hd7. apply K.
  replace (node_of (L ++ (k, TNode j (nk ++ [(kr, c0)])) :: (k1, TNode i ((k0, c1) :: rk)) :: R))
    with (node_of ((L ++ [(k, TNode j nk)]) ++ (k1, TNode i ((k0, c0) :: (k1, c1) :: rk)) :: R)); [reorder Hd7|].
  rewrite <- app_assoc. apply node_of_ext; by rewrite !map_app.
Qed.

Lemma merge_internals_runs np pg g L kl i lk k j k0 c0 rk R X p (Q : unit -> P -> Prop) :
  holds np (mkSlot pg (CNode (node_of (L ++ (kl, TNode i lk) :: (k, TNode j ((k0, c0) :: rk)) :: R))) (Writes g) ::
            mkSlot i (CNode (node_of lk)) Free :: mkSlot j (CNode (node_of ((k0, c0) :: rk))) Free :: X) p ->
  node_ok (L ++ (kl, TNode i lk) :: (k, TNode j ((k0, c0) :: rk)) :: R) -> node_ok lk -> node_ok ((k0, c0) :: rk) ->
  (length lk + S (length rk) <= imax bt)%nat -> (length (guards_of X) + 2 < frames)%nat ->
  (forall p', holds np (mkSlot pg (CNode (node_of (L ++ (kl, TNode i (lk ++ (k, c0) :: rk)) :: R))) (Writes g) ::
            mkSlot i (CNode (node_of (lk ++ (k, c0) :: rk))) Free :: X) p' -> Q tt p') ->
  runs (merge_internals_ctx crc32 g (S (length L)) i j) p Q.
Proof.
  intros Hd Np [Ll Fl] [Lr Fr] Lk F K. pose proof Np as [_ Fp]. rewrite Forall_app, !Forall_cons in Fp. destruct Fp as (_ & _ & Hk & _).
  replace (S (length L)) with (length (L ++ [(kl, TNode i lk)])) by (rewrite length_app; cbn; lia).
  change ((kl, TNode i lk) :: (k, TNode j ((k0, c0) :: rk)) :: R) with ([(kl, TNode i lk)] ++ (k, TNode j ((k0, c0) :: rk)) :: R) in Hd, Np.
  rewrite app_assoc in Hd, Np. apply runs_bind. reads read_internal_at_runs Hd. apply runs_bind, (runs_pure _ k); [apply key_at_mid|].
  apply Forall_cons in Fr as [F0 Fr]. front j Hd. pose proof (kids_ids crc32 frames bt _ _ _ _ _ _ Hd) as Ij. apply Forall_cons in Ij as [I0 Ij].
  apply runs_bind. rule fetch_read_runs Hd; [room|]. intros g1 p1 _ Hd1. apply runs_bind. reads read_internal_at_runs Hd1.
  apply runs_bind, runs_ret. apply runs_bind. rule drop_runs Hd1; [done|]. intros p2 Hd2. front i Hd2. pose proof (kids_ids crc32 frames bt _ _ _ _ _ _ Hd2) as Ii.
  apply runs_bind. rule fetch_write_runs Hd2; [room|]. intros g2 p3 _ Hd3. apply runs_bind. reads read_internal_at_runs Hd3. apply runs_bind.
  rewrite (set_internal_node lk (lk ++ (k, c0) :: rk)) by (by rewrite ?keys_node, ?children_node, ?map_app || (rewrite length_app; cbn; lia)).
  rule write_internal_runs Hd3.
  { apply node_ok_fits; [split; [rewrite length_app; cbn; lia|]|]; apply Forall_app; (split; [done|by repeat constructor]). }
  intros p4 Hd4. apply runs_bind. rule drop_runs Hd4; [done|]. intros p5 Hd5. front pg Hd5.
  rule remove_child_runs Hd5; [exact Np|]. intros p6 Hd6. apply K.
  apply (holds_forget crc32 frames np [mkSlot j (CNode (node_of ((k0, c0) :: rk))) Free]); [|done]. eapply holds_perm; [exact Hd6|].
  replace (node_of (L ++ (kl, TNode i (lk ++ (k, c0) :: rk)) :: R)) with (node_of ((L ++ [(kl, TNode i lk)]) ++ R)); [perm|].
  rewrite <- app_assoc. apply node_of_ext; by rewrite !map_app.
Qed.

(** ** Children of a parent one of whose nodes is too small *)

(** A node of the tree, however full. *)
Definition loose (h : nat) (lo : bytes) (hi : option bytes) (t : tree) : Prop :=
  match t with TNode _ kids => Forall (fun k => len k.1 <= kmax) kids /\ spread (wf h (imin bt)) lo hi kids | TLeaf _ _ => False end.
Definition width (t : tree) : nat := match t with TNode _ kids => length kids | TLeaf _ _ => 0 end.
Definition full (k : kid) : Prop := (imin bt <= width k.2 <= imax bt)%nat.

Lemma spread_loose h kids : forall lo hi, spread (wf (S h) (imin bt)) lo hi kids <-> spread (loose h) lo hi kids /\ Forall full kids.
Proof.
  induction kids as [|[k t] l IH]; intros lo hi; cbn [spread]; [by split|]. rewrite IH, Forall_cons. unfold full at 2. cbn [snd].
  destruct t as [q n|q nk]; cbn [loose width BShape.wf]; tauto.
Qed.

(** Two neighbours among the children of a node. *)
Lemma spread_pair h L ka ta kb tb R lo hi :
  spread (loose h) lo hi (L ++ (ka, ta) :: (kb, tb) :: R) <->
  spread (loose h) lo (Some ka) L /\ loose h (match L with [] => lo | _ => ka end) (Some kb) ta /\
  loose h kb (upper_of R hi) tb /\ spread (loose h) (lower_of R) hi R.
Proof. rewrite spread_app. cbn [spread upper_of lower_of]. tauto. Qed.

Lemma spread_one h L ka ta R lo hi :
  spread (loose h) lo hi (L ++ (ka, ta) :: R) <->
  spread (loose h) lo (Some ka) L /\ loose h (match L with [] => lo | _ => ka end) (upper_of R hi) ta /\ spread (loose h) (lower_of R) hi R.
Proof. rewrite spread_app. cbn [spread upper_of lower_of]. tauto. Qed.

Lemma spread_last (Q : bytes -> option bytes -> tree -> Prop) l k t lo hi :
  l <> [] -> spread Q lo hi (l ++ [(k, t)]) <-> spread Q lo (Some k) l /\ Q k hi t.
Proof. intros N. rewrite spread_app. cbn [spread upper_of lower_of]. destruct l; [done|]. tauto. Qed.

Lemma spread_join (Q : bytes -> option bytes -> tree -> Prop) l k t r lo hi :
  l <> [] -> spread Q lo hi (l ++ (k, t) :: r) <-> spread Q lo (Some k) l /\ spread Q k hi ((k, t) :: r).
Proof. intros N. rewrite spread_app. cbn [spread upper_of lower_of]. destruct l; [done|]. tauto. Qed.

(** The last child of a node becomes the first one of the next. *)
Lemma shift_right h L ka i ak kx cx kb j k0 c0 bk R lo hi :
  ak <> [] -> spread (loose h) lo hi (L ++ (ka, TNode i (ak ++ [(kx, cx)])) :: (kb, TNode j ((k0, c0) :: bk)) :: R) -> len kb <= kmax ->
  spread (loose h) lo hi (L ++ (ka, TNode i ak) :: (kx, TNode j ((k0, cx) :: (kb, c0) :: bk)) :: R) /\ len kx <= kmax.
Proof.
  intros N Sp Lk. apply spread_pair in Sp as (S1 & [F2 S2] & [F3 S3] & S4). apply spread_last in S2 as [S2 Sx]; [|done].
  rewrite Forall_app, Forall_cons in F2. destruct F2 as (F2 & Fx & _). rewrite Forall_cons in F3. destruct F3 as [F0 F3].
  split; [|done]. apply spread_pair. split_and!; [done| |split; [by repeat constructor|]|done].
  - by split.
  - cbn [spread upper_of lower_of] in *. tauto.
Qed.

(** The first child of a node becomes the last one of the node before. *)
Lemma shift_left h L ka i ak kb j k0 c0 k1 c1 bk R lo hi :
  ak <> [] -> spread (loose h) lo hi (L ++ (ka, TNode i ak) :: (kb, TNode j ((k0, c0) :: (k1, c1) :: bk)) :: R) -> len kb <= kmax ->
  spread (loose h) lo hi (L ++ (ka, TNode i (ak ++ [(kb, c0)])) :: (k1, TNode j ((k0, c1) :: bk)) :: R) /\ len k1 <= kmax.
Proof.
  intros N Sp Lk. apply spread_pair in Sp as (S1 & [F2 S2] & [F3 S3] & S4). rewrite !Forall_cons in F3. destruct F3 as (F0 & F1 & F3).
  cbn [spread upper_of lower_of] in S3. destruct S3 as (S0 & S3 & S5).
  split; [|done]. apply spread_pair. split_and!; [done|split|split; [by repeat constructor|]|done].
  - apply Forall_app. split; [done|by repeat constructor].
  - apply spread_last; [done|]. by split.
  - cbn [spread]. done.
Qed.

(** Two nodes become one. *)
Lemma join_nodes h L ka i ak kb j k0 c0 bk R lo hi :
  ak <> [] -> spread (loose h) lo hi (L ++ (ka, TNode i ak) :: (kb, TNode j ((k0, c0) :: bk)) :: R) -> len kb <= kmax ->
  spread (loose h) lo hi (L ++ (ka, TNode i (ak ++ (kb, c0) :: bk)) :: R).
Proof.
  intros N Sp Lk. apply spread_pair in Sp as (S1 & [F2 S2] & [F3 S3] & S4). rewrite Forall_cons in F3. destruct F3 as [F0 F3].
  apply spread_one. split_and!; [done|split|done].
  - apply Forall_app. split; [done|by constructor].
  - apply spread_join; [done|]. by split.
Qed.
End nodes.
