(* ===== verification/BRebalance.v ===== *)
(** Up the path after a deletion: a node that has become too small takes a child
    from a neighbour or is merged with it; the root goes when it has one child. *)

From Stdlib Require Import ZArith Lia List Bool.
From S2P Require Import Prelude Common Engine Page BNode BNodeSpec BLayout BPages Pool BTree BShape BHeap BSlots BWalk BPath BInsert BLeafMoves BDelete BNodeMoves.
From AAC_tactics Require Import AAC.
From coqutil Require Import Byte.
From stdpp Require Import base relations list strings sorting.
#[local] Open Scope Z_scope.

Section rebalance.
Context {P : Type} `{BufferPool P} (crc32 : bytes -> Z) (frames : nat) (bt : BTree) (kmax emax : Z).
Hypothesis crc32_u32 : forall b, in_u32 (crc32 b) = true.
Hypothesis Sizes : sizes_ok bt kmax emax.

Abbreviation wf := (wf bt kmax emax).
Abbreviation path_wf := (path_wf bt kmax emax).
Abbreviation holds := (holds crc32 frames).
Abbreviation node_of := (node_of bt).
Abbreviation node_ok := (node_ok bt kmax).
Abbreviation header_slot := (header_slot bt).
Abbreviation own := (own bt).
Abbreviation sibs := (sibs bt).
Abbreviation inner := (inner bt).
Abbreviation inners := (inners bt).
Abbreviation loose := (loose bt kmax emax).
Abbreviation full := (full bt).
Abbreviation imin := (imin bt).
Abbreviation imax := (imax bt).

Lemma read_internal_runs np i n X p (Q : InternalNode -> P -> Prop) :
  holds np (mkSlot i (CNode n) Free :: X) p -> (length (guards_of X) < frames)%nat ->
  (forall p', holds np (mkSlot i (CNode n) Free :: X) p' -> Q n p') -> runs (read_internal crc32 i) p Q.
Proof.
  intros Hd F K. apply runs_bind. rule fetch_read_runs Hd; [done|]. intros g p1 _ Hd1. apply runs_bind. reads node_type_internal_runs Hd1.
  apply runs_bind. reads read_internal_at_runs Hd1. apply runs_bind. rule drop_runs Hd1; [done|]. intros p2 Hd2. by apply runs_ret, K.
Qed.

Lemma safe_delete_node kids : i_safe_for_delete (node_of kids) = (imin <? length kids)%nat.
Proof.
  pose proof (so_internal _ _ _ Sizes). pose proof (Z.div_pos (internal_max_size bt) 2 ltac:(lia) ltac:(lia)).
  change (i_safe_for_delete (node_of kids)) with (internal_max_size bt / 2 <? Z.of_nat (length kids)). unfold BShape.imin.
  destruct (Z.ltb_spec (internal_max_size bt / 2) (Z.of_nat (length kids))), (Nat.ltb_spec (Z.to_nat (internal_max_size bt / 2)) (length kids)); done || lia.
Qed.

Lemma loose_node h lo hi l1 k t l2 : spread (loose h) lo hi (l1 ++ (k, t) :: l2) -> exists q kids, t = TNode q kids.
Proof. intros (_ & T & _)%spread_app. destruct t as [|q kids]; [done|eauto]. Qed.

Lemma inners_split l k q nk r :
  inners (l ++ (k, TNode q nk) :: r) = inners l ++ mkSlot q (CNode (node_of nk)) Free :: inners nk ++ inners r.
Proof. by rewrite inners_app, inners_cons, inner_node. Qed.

Lemma child_before l kl c k t l2 : child_at (length (l ++ [(kl, c)]) - 1) (node_of ((l ++ [(kl, c)]) ++ (k, t) :: l2)) = Ok (root c).
Proof. rewrite length_app, Nat.add_sub, <- app_assoc. apply child_at_mid. Qed.

Lemma child_after l1 k t kr c r : child_at (length l1 + 1) (node_of (l1 ++ (k, t) :: (kr, c) :: r)) = Ok (root c).
Proof.
  change ((k, t) :: (kr, c) :: r) with ([(k, t)] ++ (kr, c) :: r). rewrite app_assoc.
  replace (length l1 + 1)%nat with (length (l1 ++ [(k, t)])) by by rewrite length_app. apply child_at_mid.
Qed.

(** Whether the neighbour on the left has a child to give. *)
Lemma left_probe_runs h lo hi np l1 k t l2 X p (Q : option PageId -> P -> Prop) :
  holds np (inners l1 ++ X) p -> spread (loose h) lo hi l1 -> Forall full l1 -> (length (guards_of X) < frames)%nat ->
  (forall p', (l1 = [] \/ exists l kl i lk, l1 = l ++ [(kl, TNode i lk)] /\ length lk = imin) -> holds np (inners l1 ++ X) p' -> Q None p') ->
  (forall l kl i lk p', l1 = l ++ [(kl, TNode i lk)] -> (imin < length lk)%nat -> holds np (inners l1 ++ X) p' -> Q (Some i) p') ->
  runs (if (0 <? length l1)%nat then
          left_id ← pure (child_at (length l1 - 1) (node_of (l1 ++ (k, t) :: l2)));
          left_node ← read_internal crc32 left_id;
          mret (if i_safe_for_delete left_node then Some left_id else None)
        else mret None) p Q.
Proof.
  intros Hd Sp Fu F K0 K1. destruct l1 as [|c l] using rev_ind; [by apply runs_ret, K0; [left|]|]. destruct c as [kl c].
  rewrite (proj2 (Nat.ltb_lt 0 _)) by (rewrite length_app; cbn; lia). destruct (loose_node h lo hi l kl c [] Sp) as (i & lk & ->).
  rewrite Forall_app, Forall_cons in Fu. destruct Fu as (_ & [Fu _] & _). cbn in Fu. rewrite inners_split in Hd.
  apply runs_bind, (runs_pure _ i); [apply child_before|]. front i Hd. apply runs_bind. rule read_internal_runs Hd; [room|].
  intros p' Hd'. apply runs_ret. rewrite safe_delete_node. destruct (Nat.ltb_spec imin (length lk)).
  - apply (K1 l kl i lk); [done|done|]. rewrite inners_split. reorder Hd'.
  - apply K0; [right; exists l, kl, i, lk; split; [done|lia]|]. rewrite inners_split. reorder Hd'.
Qed.

Lemma has_right_at l1 k t l2 : has_right_sibling (length l1) (node_of (l1 ++ (k, t) :: l2)) = match l2 with [] => false | _ => true end.
Proof.
  unfold has_right_sibling. rewrite children_node, length_map, length_app. cbn.
  destruct l2; [apply Nat.ltb_ge; cbn; lia|apply Nat.ltb_lt; cbn; lia].
Qed.

Lemma right_probe_runs h lo hi np l1 k t l2 X p (Q : option PageId -> P -> Prop) :
  holds np (inners l2 ++ X) p -> spread (loose h) lo hi l2 -> Forall full l2 -> (length (guards_of X) < frames)%nat ->
  (forall p', (l2 = [] \/ exists kr i rk r, l2 = (kr, TNode i rk) :: r /\ length rk = imin) -> holds np (inners l2 ++ X) p' -> Q None p') ->
  (forall kr i rk r p', l2 = (kr, TNode i rk) :: r -> (imin < length rk)%nat -> holds np (inners l2 ++ X) p' -> Q (Some i) p') ->
  runs (if has_right_sibling (length l1) (node_of (l1 ++ (k, t) :: l2)) then
          right_id ← pure (child_at (length l1 + 1) (node_of (l1 ++ (k, t) :: l2)));
          right_node ← read_internal crc32 right_id;
          mret (if i_safe_for_delete right_node then Some right_id else None)
        else mret None) p Q.
Proof.
  intros Hd Sp Fu F K0 K1. rewrite has_right_at. destruct l2 as [|[kr c] r]; [by apply runs_ret, K0; [left|]|].
  destruct (loose_node h lo hi [] kr c r Sp) as (i & rk & ->). apply Forall_cons in Fu as [[Fu _] _]. cbn in Fu.
  rewrite inners_cons, inner_node in Hd. apply runs_bind, (runs_pure _ i); [apply child_after|]. front i Hd.
  apply runs_bind. rule read_internal_runs Hd; [room|].
  intros p' Hd'. apply runs_ret. rewrite safe_delete_node. destruct (Nat.ltb_spec imin (length rk)).
  - apply (K1 kr i rk r); [done|done|]. rewrite inners_cons, inner_node. reorder Hd'.
  - apply K0; [right; exists kr, i, rk, r; split; [done|lia]|]. rewrite inners_cons, inner_node. reorder Hd'.
Qed.

(** ** One level *)

(** The children of a parent, one of which has a child too few. *)
Record crowd (h : nat) (lo : bytes) (hi : option bytes) (l1 : list kid) (k : bytes) (q : PageId) (nk : list kid) (l2 : list kid) : Prop := {
  cr_spread : spread (loose h) lo hi (l1 ++ (k, TNode q nk) :: l2);
  cr_left : Forall full l1;
  cr_right : Forall full l2;
  cr_short : S (length nk) = imin;
  cr_node : node_ok (l1 ++ (k, TNode q nk) :: l2)
}.

(** The children of the parent when that has been set right. *)
Definition rebuilt (h : nat) (lo : bytes) (hi : option bytes) (K K' : list kid) : Prop :=
  spread (wf (S h) imin) lo hi K' /\ Forall (fun k => len k.1 <= kmax) K' /\ kid_leaves K' = kid_leaves K.

Lemma loose_small h lo hi l1 k q nk l2 : spread (loose h) lo hi (l1 ++ (k, TNode q nk) :: l2) -> Forall (fun x => len x.1 <= kmax) nk.
Proof. intros (_ & [F _] & _)%spread_app. done. Qed.

Lemma kid_leaves_cons k t l : kid_leaves ((k, t) :: l) = leaves t ++ kid_leaves l.
Proof. done. Qed.

Lemma kid_leaves_two l1 k1 q1 n1 k2 q2 n2 l2 :
  kid_leaves (l1 ++ (k1, TNode q1 n1) :: (k2, TNode q2 n2) :: l2) = kid_leaves l1 ++ (kid_leaves n1 ++ kid_leaves n2) ++ kid_leaves l2.
Proof. rewrite kid_leaves_app. f_equal. rewrite <- app_assoc. done. Qed.

Lemma inners_two l1 k1 q1 n1 k2 q2 n2 l2 :
  inners (l1 ++ (k1, TNode q1 n1) :: (k2, TNode q2 n2) :: l2) ≡ₚ
  mkSlot q1 (CNode (node_of n1)) Free :: mkSlot q2 (CNode (node_of n2)) Free :: (inners n1 ++ inners n2) ++ inners l1 ++ inners l2.
Proof. rewrite inners_app, !inners_cons, !inner_node. perm. Qed.

Lemma not_nil {A} (l : list A) : (1 <= length l)%nat -> l <> [].
Proof. destruct l; cbn; [lia|done]. Qed.

Lemma move_left_runs h lo hi np pg g l kl i lk k q nk l2 X p (Q : unit -> P -> Prop) :
  holds np (mkSlot pg (CNode (node_of ((l ++ [(kl, TNode i lk)]) ++ (k, TNode q nk) :: l2))) (Writes g) ::
            inners ((l ++ [(kl, TNode i lk)]) ++ (k, TNode q nk) :: l2) ++ X) p ->
  crowd h lo hi (l ++ [(kl, TNode i lk)]) k q nk l2 -> (imin < length lk)%nat -> (length (guards_of X) + 2 < frames)%nat ->
  (forall K' p', rebuilt h lo hi ((l ++ [(kl, TNode i lk)]) ++ (k, TNode q nk) :: l2) K' ->
     length K' = length ((l ++ [(kl, TNode i lk)]) ++ (k, TNode q nk) :: l2) ->
     holds np (mkSlot pg (CNode (node_of K')) (Writes g) :: inners K' ++ X) p' -> Q tt p') ->
  runs (redistribute_internal_from_left_ctx crc32 g (length (l ++ [(kl, TNode i lk)])) i q) p Q.
Proof.
  intros Hd [Sp Fl Fr Sh No] Ll F K. pose proof (imin_2 bt kmax emax Sizes). pose proof (imax_imin bt kmax emax Sizes).
  rewrite <- app_assoc in *. cbn [app] in *. rewrite Forall_app, Forall_cons in Fl. destruct Fl as (Fl & [_ Fi] & _). cbn in Fi.
  pose proof (loose_small h lo hi _ _ _ _ _ Sp) as Flk. destruct (exists_last (not_nil lk ltac:(lia))) as (lk' & [kx cx] & ->).
  assert (Fnk : Forall (fun x => len x.1 <= kmax) nk).
  { apply (loose_small h lo hi (l ++ [(kl, TNode i (lk' ++ [(kx, cx)]))]) k q nk l2). by rewrite <- app_assoc. }
  rewrite length_app in Ll, Fi. cbn in Ll, Fi. destruct nk as [|[k0 c0] nk]; [cbn in Sh; lia|]. cbn in Sh.
  assert (Hk : len k <= kmax) by (destruct No as [_ No]; rewrite Forall_app, !Forall_cons in No; tauto).
  destruct (shift_right bt kmax emax h l kl i lk' kx cx k q k0 c0 nk l2 lo hi (not_nil lk' ltac:(lia)) Sp Hk) as [Sp' Hx].
  apply (holds_perm _ _ _ _ (mkSlot pg (CNode (node_of (l ++ (kl, TNode i (lk' ++ [(kx, cx)])) :: (k, TNode q ((k0, c0) :: nk)) :: l2))) (Writes g) ::
    mkSlot i (CNode (node_of (lk' ++ [(kx, cx)]))) Free :: mkSlot q (CNode (node_of ((k0, c0) :: nk))) Free ::
    ((inners (lk' ++ [(kx, cx)]) ++ inners ((k0, c0) :: nk)) ++ inners l ++ inners l2) ++ X)) in Hd; [|rewrite inners_two; perm].
  replace (length (l ++ [(kl, TNode i (lk' ++ [(kx, cx)]))])) with (S (length l)) by (rewrite length_app; cbn; lia).
  rule redistribute_internal_left_runs Hd; [done|split; [rewrite length_app; cbn; lia|done]|split; [cbn; lia|done]|lia|room|].
  intros p' Hd'. apply (K (l ++ (kl, TNode i lk') :: (kx, TNode q ((k0, cx) :: (k, c0) :: nk)) :: l2)).
  - split_and!.
    + apply spread_loose. split; [done|]. rewrite Forall_app, !Forall_cons. split_and!; [done|split; cbn; lia|split; cbn; lia|done].
    + destruct No as [_ No]. rewrite Forall_app, !Forall_cons in *. tauto.
    + rewrite !kid_leaves_two, (kid_leaves_app lk'), !kid_leaves_cons, <- !app_assoc. done.
  - by rewrite !length_app.
  - eapply holds_perm; [exact Hd'|]. rewrite inners_two, (inners_app bt lk'). rewrite !inners_cons. change (inners []) with (@nil slot). perm.
Qed.

Lemma move_right_runs h lo hi np pg g l1 k q nk kr i rk r X p (Q : unit -> P -> Prop) :
  holds np (mkSlot pg (CNode (node_of (l1 ++ (k, TNode q nk) :: (kr, TNode i rk) :: r))) (Writes g) ::
            inners (l1 ++ (k, TNode q nk) :: (kr, TNode i rk) :: r) ++ X) p ->
  crowd h lo hi l1 k q nk ((kr, TNode i rk) :: r) -> (imin < length rk)%nat -> (length (guards_of X) + 2 < frames)%nat ->
  (forall K' p', rebuilt h lo hi (l1 ++ (k, TNode q nk) :: (kr, TNode i rk) :: r) K' ->
     length K' = length (l1 ++ (k, TNode q nk) :: (kr, TNode i rk) :: r) ->
     holds np (mkSlot pg (CNode (node_of K')) (Writes g) :: inners K' ++ X) p' -> Q tt p') ->
  runs (redistribute_internal_from_right_ctx crc32 g (length l1) q i) p Q.
Proof.
  intros Hd [Sp Fl Fr Sh No] Ll F K. pose proof (imin_2 bt kmax emax Sizes). pose proof (imax_imin bt kmax emax Sizes).
  rewrite Forall_cons in Fr. destruct Fr as ([_ Fi] & Fr). cbn in Fi.
  pose proof (loose_small h lo hi _ _ _ _ _ Sp) as Fnk.
  assert (Frk : Forall (fun x => len x.1 <= kmax) rk).
  { apply (loose_small h lo hi (l1 ++ [(k, TNode q nk)]) kr i rk r). by rewrite <- app_assoc. }
  destruct rk as [|[k0 c0] [|[k1 c1] rk]]; [cbn in Ll; lia|cbn in Ll; lia|]. cbn in Ll, Fi.
  assert (Hk : len kr <= kmax) by (destruct No as [_ No]; rewrite Forall_app, !Forall_cons in No; tauto).
  destruct (shift_left bt kmax emax h l1 k q nk kr i k0 c0 k1 c1 rk r lo hi (not_nil nk ltac:(lia)) Sp Hk) as [Sp' Hx].
  apply (holds_perm _ _ _ _ (mkSlot pg (CNode (node_of (l1 ++ (k, TNode q nk) :: (kr, TNode i ((k0, c0) :: (k1, c1) :: rk)) :: r))) (Writes g) ::
    mkSlot q (CNode (node_of nk)) Free :: mkSlot i (CNode (node_of ((k0, c0) :: (k1, c1) :: rk))) Free ::
    ((inners nk ++ inners ((k0, c0) :: (k1, c1) :: rk)) ++ inners l1 ++ inners r) ++ X)) in Hd; [|rewrite inners_two; perm].
  rule redistribute_internal_right_runs Hd; [done|split; [lia|done]|split; [cbn; lia|done]|lia|room|].
  intros p' Hd'. apply (K (l1 ++ (k, TNode q (nk ++ [(kr, c0)])) :: (k1, TNode i ((k0, c1) :: rk)) :: r)).
  - split_and!.
    + apply spread_loose. split; [done|]. rewrite Forall_app, !Forall_cons. split_and!; [done|split; cbn; rewrite length_app; cbn; lia|split; cbn; lia|done].
    + destruct No as [_ No]. rewrite Forall_app, !Forall_cons in *. tauto.
    + rewrite !kid_leaves_two, (kid_leaves_app nk), !kid_leaves_cons, <- !app_assoc. done.
  - by rewrite !length_app.
  - eapply holds_perm; [exact Hd'|]. rewrite inners_two, (inners_app bt nk). rewrite !inners_cons. change (inners []) with (@nil slot). perm.
Qed.

(** Two nodes of the parent are made one. *)
Lemma merge_runs h lo hi np pg g l ka i ak kb j bk r X p (Q : unit -> P -> Prop) :
  holds np (mkSlot pg (CNode (node_of (l ++ (ka, TNode i ak) :: (kb, TNode j bk) :: r))) (Writes g) ::
            inners (l ++ (ka, TNode i ak) :: (kb, TNode j bk) :: r) ++ X) p ->
  spread (loose h) lo hi (l ++ (ka, TNode i ak) :: (kb, TNode j bk) :: r) -> Forall full l -> Forall full r ->
  node_ok (l ++ (ka, TNode i ak) :: (kb, TNode j bk) :: r) -> (imin <= length ak + length bk <= 2 * imin)%nat -> ak <> [] -> bk <> [] ->
  (length (guards_of X) + 2 < frames)%nat ->
  (forall K' p', rebuilt h lo hi (l ++ (ka, TNode i ak) :: (kb, TNode j bk) :: r) K' ->
     S (length K') = length (l ++ (ka, TNode i ak) :: (kb, TNode j bk) :: r) ->
     holds np (mkSlot pg (CNode (node_of K')) (Writes g) :: inners K' ++ X) p' -> Q tt p') ->
  runs (merge_internals_ctx crc32 g (S (length l)) i j) p Q.
Proof.
  intros Hd Sp Fl Fr No Lb Na Nb F K. pose proof (imax_imin bt kmax emax Sizes).
  pose proof (loose_small h lo hi _ _ _ _ _ Sp) as Fa.
  assert (Fb : Forall (fun x => len x.1 <= kmax) bk).
  { apply (loose_small h lo hi (l ++ [(ka, TNode i ak)]) kb j bk r). by rewrite <- app_assoc. }
  destruct bk as [|[k0 c0] bk]; [done|]. cbn in Lb.
  assert (Hk : len kb <= kmax) by (destruct No as [_ No]; rewrite Forall_app, !Forall_cons in No; tauto).
  pose proof (join_nodes bt kmax emax h l ka i ak kb j k0 c0 bk r lo hi Na Sp Hk) as Sp'.
  apply (holds_perm _ _ _ _ (mkSlot pg (CNode (node_of (l ++ (ka, TNode i ak) :: (kb, TNode j ((k0, c0) :: bk)) :: r))) (Writes g) ::
    mkSlot i (CNode (node_of ak)) Free :: mkSlot j (CNode (node_of ((k0, c0) :: bk))) Free ::
    ((inners ak ++ inners ((k0, c0) :: bk)) ++ inners l ++ inners r) ++ X)) in Hd; [|rewrite inners_two; perm].
  rule merge_internals_runs Hd; [done|split; [lia|done]|split; [cbn; lia|done]|lia|room|].
  intros p' Hd'. apply (K (l ++ (ka, TNode i (ak ++ (kb, c0) :: bk)) :: r)).
  - split_and!.
    + apply spread_loose. split; [done|]. rewrite Forall_app, !Forall_cons. split_and!; [done|split; cbn; rewrite length_app; cbn; lia|done].
    + destruct No as [_ No]. rewrite Forall_app, !Forall_cons in *. tauto.
    + rewrite kid_leaves_two, kid_leaves_app. f_equal. change (kid_leaves ((ka, TNode i (ak ++ (kb, c0) :: bk)) :: r)) with (kid_leaves (ak ++ (kb, c0) :: bk) ++ kid_leaves r).
      by rewrite kid_leaves_app.
  - rewrite !length_app. cbn. lia.
  - eapply holds_perm; [exact Hd'|]. rewrite inners_split, (inners_app bt ak). rewrite !inners_cons. perm.
Qed.

Lemma position_mid q l1 k t l2 :
  root t = q -> Forall (fun x => root x.2 <> q) l1 -> find_child_position q (node_of (l1 ++ (k, t) :: l2)) = Some (length l1).
Proof.
  intros E F. unfold find_child_position. rewrite children_node, map_app. induction F as [|[k1 t1] l Hx _ IH]; cbn in *.
  - by rewrite E, Z.eqb_refl.
  - destruct (Z.eqb_spec (root t1) q); [done|]. by rewrite IH.
Qed.

Lemma inners_apart h lo hi np s l1 X p :
  holds np (s :: inners l1 ++ X) p -> spread (loose h) lo hi l1 -> Forall (fun x => root x.2 <> s_page s) l1.
Proof.
  intros Hd. apply hd_once in Hd. revert lo. induction l1 as [|[k t] l IH]; intros lo Sp; [done|]. destruct Sp as [St Sp].
  destruct t as [|i nk]; [done|]. rewrite inners_cons, inner_node in Hd. constructor.
  - apply (page_apart s (mkSlot i (CNode (node_of nk)) Free) _ Hd). apply list_elem_of_here.
  - eapply IH; [|done]. rewrite <- app_assoc in Hd. cbn in Hd. apply NoDup_cons in Hd as [N Hd]. apply NoDup_cons in Hd as [_ Hd]. rewrite map_app in Hd. apply NoDup_app in Hd as (_ & _ & Hd).
    cbn. apply NoDup_cons. split; [|done]. intros Hs. apply N. apply elem_of_cons. right. rewrite map_app. apply elem_of_app. by right.
Qed.

(** The small node of a parent is set right. *)
Lemma level_runs {A} h lo hi np pg g' g l1 k q nk l2 X (fin1 fin2 : M P A) err p (Q : A -> P -> Prop) :
  holds np (mkSlot pg (CNode (node_of (l1 ++ (k, TNode q nk) :: l2))) (Writes g') :: mkSlot q (CNode (node_of nk)) (Writes g) ::
            inners nk ++ inners l1 ++ inners l2 ++ X) p ->
  crowd h lo hi l1 k q nk l2 -> (2 <= length (l1 ++ (k, TNode q nk) :: l2))%nat -> (length (guards_of X) + 4 < frames)%nat ->
  (forall K' p', rebuilt h lo hi (l1 ++ (k, TNode q nk) :: l2) K' -> length K' = length (l1 ++ (k, TNode q nk) :: l2) ->
     holds np (mkSlot pg (CNode (node_of K')) (Writes g') :: inners K' ++ X) p' -> runs fin1 p' Q) ->
  (forall K' p', rebuilt h lo hi (l1 ++ (k, TNode q nk) :: l2) K' -> S (length K') = length (l1 ++ (k, TNode q nk) :: l2) ->
     holds np (mkSlot pg (CNode (node_of K')) (Writes g') :: inners K' ++ X) p' -> runs fin2 p' Q) ->
  runs (
      p ← read_internal_at crc32 g';
      child_index ← pure (ok_or (find_child_position (page_id g) p) err);
      from_left ← (if (0 <? child_index)%nat then
                     left_id ← pure (child_at (child_index - 1) p);
                     left_node ← read_internal crc32 left_id;
                     mret (if i_safe_for_delete left_node then Some left_id else None)
                   else mret None);
      match from_left with
      | Some left_id =>
          drop_guard g;; redistribute_internal_from_left_ctx crc32 g' child_index left_id (page_id g);; fin1
      | None =>
          from_right ← (if has_right_sibling child_index p then
                          right_id ← pure (child_at (child_index + 1) p);
                          right_node ← read_internal crc32 right_id;
                          mret (if i_safe_for_delete right_node then Some right_id else None)
                        else mret None);
          match from_right with
          | Some right_id =>
              drop_guard g;; redistribute_internal_from_right_ctx crc32 g' child_index (page_id g) right_id;; fin1
          | None =>
              drop_guard g;;
              (if (0 <? child_index)%nat then
                 left_id ← pure (child_at (child_index - 1) p);
                 merge_internals_ctx crc32 g' child_index left_id (page_id g)
               else if has_right_sibling child_index p then
                 right_id ← pure (child_at (child_index + 1) p);
                 merge_internals_ctx crc32 g' (child_index + 1) (page_id g) right_id
               else mret tt);;
              fin2
          end
      end) p Q.
Proof.
  intros Hd Cr Ln F K1 K2. pose proof (imin_2 bt kmax emax Sizes). pose proof (cr_spread _ _ _ _ _ _ _ _ Cr) as Sp.
  pose proof Sp as Sp0. apply spread_app in Sp0 as (Sl & _ & Sr).
  assert (Eg : page_id g = q) by (apply hd_slots in Hd; apply Forall_cons in Hd as [_ Hd]; apply Forall_cons in Hd as [[_ _ [Hd _]] _]; done).
  assert (Ap : Forall (fun x => root x.2 <> q) l1).
  { apply (inners_apart h lo (upper_of ((k, TNode q nk) :: l2) hi) np (mkSlot q (CNode (node_of nk)) (Writes g)) l1
      (mkSlot pg (CNode (node_of (l1 ++ (k, TNode q nk) :: l2))) (Writes g') :: inners nk ++ inners l2 ++ X) p); [reorder Hd|done]. }
  apply runs_bind. reads read_internal_at_runs Hd. rewrite Eg. apply runs_bind, (runs_pure _ (length l1)); [by rewrite position_mid|].
  apply runs_bind. eapply (left_probe_runs h lo _ np l1 k (TNode q nk) l2
    (mkSlot pg (CNode (node_of (l1 ++ (k, TNode q nk) :: l2))) (Writes g') :: mkSlot q (CNode (node_of nk)) (Writes g) :: inners nk ++ inners l2 ++ X));
    [reorder Hd|exact Sl|apply Cr|room| |]; clear Hd; [intros p1 Dl Hd|intros l kl i lk p1 -> Ll Hd].
  - apply runs_bind. eapply (right_probe_runs h _ hi np l1 k (TNode q nk) l2
    (mkSlot pg (CNode (node_of (l1 ++ (k, TNode q nk) :: l2))) (Writes g') :: mkSlot q (CNode (node_of nk)) (Writes g) :: inners nk ++ inners l1 ++ X));
    [reorder Hd|exact Sr|apply Cr|room| |]; clear Hd; [intros p2 Dr Hd|intros kr i rk r p2 -> Lr Hd].
    + front q Hd. apply runs_bind. rule drop_runs Hd; [done|]. clear Hd. intros p3 Hd. apply runs_bind.
      destruct Dl as [->|(l & kl & i & lk & -> & Ll)].
      * change (0 <? length (@nil kid))%nat with false. cbv iota. rewrite (has_right_at [] k (TNode q nk) l2). destruct Dr as [->|(kr & i & rk & r & -> & Lr)]; [cbn in Ln; lia|].
        apply runs_bind, (runs_pure _ i); [apply (child_after [])|]. destruct Cr as [_ Fl Fr Sh No]. apply Forall_cons in Fr as [_ Fr].
        apply (merge_runs h lo hi np pg g' [] k q nk kr i rk r X p3); try done; [|lia|by apply not_nil; lia|by apply not_nil; lia|lia].
        eapply holds_perm; [exact Hd|]. cbn [app]. rewrite !inners_cons, !inner_node. change (inners []) with (@nil slot). perm.
      * rewrite (proj2 (Nat.ltb_lt 0 _)) by (rewrite length_app; cbn; lia). apply runs_bind, (runs_pure _ i); [apply child_before|].
        destruct Cr as [_ Fl Fr Sh No]. apply Forall_app in Fl as [Fl _]. rewrite <- app_assoc in *. cbn [app] in *.
        replace (length (l ++ [(kl, TNode i lk)])) with (S (length l)) by (rewrite length_app; cbn; lia).
        apply (merge_runs h lo hi np pg g' l kl i lk k q nk l2 X p3); try done; [|lia|by apply not_nil; lia|by apply not_nil; lia|lia].
        eapply holds_perm; [exact Hd|]. rewrite inners_two, inners_app, inners_cons, inner_node. change (inners []) with (@nil slot). perm.
    + front q Hd. apply runs_bind. rule drop_runs Hd; [done|]. clear Hd. intros p3 Hd. apply runs_bind.
      apply (move_right_runs h lo hi np pg g' l1 k q nk kr i rk r X p3); [|done|done|lia|exact K1].
      eapply holds_perm; [exact Hd|]. rewrite inners_two, inners_cons, inner_node. perm.
  - front q Hd. apply runs_bind. rule drop_runs Hd; [done|]. clear Hd. intros p2 Hd. apply runs_bind.
    apply (move_left_runs h lo hi np pg g' l kl i lk k q nk l2 X p2); [|done|done|lia|exact K1].
    eapply holds_perm; [exact Hd|]. rewrite (inners_app bt (l ++ [(kl, TNode i lk)])), (inners_app bt l), !inners_cons, !inner_node. change (inners []) with (@nil slot). perm.
Qed.
End rebalance.
