(* ===== verification/BClose.v ===== *)
(** [rebalance_internal_ctx] as a whole: from a parent that lost a child up to
    where the change ends, with the latches that are still held. *)

From Stdlib Require Import ZArith Lia List Bool.
From S2P Require Import Prelude Common Engine Page BNode BNodeSpec BLayout BPages Pool BTree BShape BHeap BSlots BWalk BPath BInsert BLeafMoves BDelete BNodeMoves BRebalance.
From AAC_tactics Require Import AAC.
From coqutil Require Import Byte.
From stdpp Require Import base relations list strings sorting.
#[local] Open Scope Z_scope.

Section close.
Context {P : Type} `{BufferPool P} (crc32 : bytes -> Z) (frames : nat) (bt : BTree) (kmax emax : Z).
Hypothesis crc32_u32 : forall b, in_u32 (crc32 b) = true.
Hypothesis Sizes : sizes_ok bt kmax emax.

Abbreviation wf := (wf bt kmax emax).
Abbreviation path_wf := (path_wf bt kmax emax).
Abbreviation holds := (holds crc32 frames).
Abbreviation node_of := (node_of bt).
Abbreviation node_ok := (node_ok bt kmax).
Abbreviation header_slot := (header_slot bt).
Abbreviation own := (own bt).
Abbreviation sibs := (sibs bt).
Abbreviation inner := (inner bt).
Abbreviation inners := (inners bt).
Abbreviation imin := (imin bt).
Abbreviation imax := (imax bt).

Definition safe_delete (f : frame) : Prop := (imin < f_size f)%nat.

(** A change has ended: the pages are those of a tree, and the context has the
    latches that are left. *)
Definition closes (ls : list (PageId * LeafNode)) (T : tree) (cs : list slot) (ctx : Context) : Prop :=
  map free cs ≡ₚ header_slot (root T) Free :: inner T /\ leaves T = ls /\ (exists h, wf h 2 [] None T) /\
  guards_of cs ≡ₚ option_list (header_guard ctx) ++ write_set ctx.

(** The children of the node at the end of a path. *)
Definition hole_ok (h : nat) (path : list frame) (kids : list kid) : Prop :=
  node_ok kids /\ spread (wf h imin) (lower path) (upper path) kids.

(** The latches above the node, when it may or must be the last one to change. *)
Inductive above (path : list frame) : list PageGuard -> option PageGuard -> latch -> nat -> Prop :=
| above_spine gs hg hl : spine safe_delete path gs hg hl -> above path gs hg hl (pred (least_of bt path))
| above_stop : unlatched path -> above path [] None Free (least_of bt path).

Lemma above_guards path gs hg hl m r t :
  above path gs hg hl m -> guards_of (own path t) = gs /\ guards_of [header_slot r hl] = option_list hg.
Proof.
  intros [gs0 hg0 hl0 Sp|Un]; [by apply (spine_guards bt safe_delete)|]. split; [|done]. by rewrite guards_of_own, unlatched_guards.
Qed.

(** A node that has children enough is where the change ends. *)
Lemma closes_here h path gs hg hl m q kids r :
  above path gs hg hl m -> path_wf (S h) path -> hole_ok h path kids -> (least_of bt path <= length kids)%nat ->
  r = root (plug path (TNode q kids)) ->
  closes (leavesL path ++ kid_leaves kids ++ leavesR path) (plug path (TNode q kids))
    (header_slot r hl :: mkSlot q (CNode (node_of kids)) Free :: own path (TNode q kids) ++ sibs path ++ inners kids)
    (mkContext hg (reverse gs)).
Proof.
  intros Ab Pw [[No1 No2] Sp] Le ->. destruct (above_guards path gs hg hl m (root (plug path (TNode q kids))) (TNode q kids) Ab) as [E1 E2].
  split_and!.
  - rewrite inner_plug, inner_node. freed.
  - by rewrite leaves_plug.
  - exists (length path + S h)%nat. apply (plug_wf bt kmax emax); [|done]. cbn [BShape.wf]. by split_and!.
  - rewrite guards_of_cons, guards_of_cons, !guards_of_app, E1, guards_of_sibs, guards_of_inners. cbn [header_guard write_set].
    rewrite guards_of_cons in E2. cbn [guards_of map concat] in E2. rewrite app_nil_r in E2. rewrite E2. cbn. rewrite !app_nil_r. by rewrite reverse_Permutation.
Qed.

Lemma wf_least h lo hi t : wf h imin lo hi t -> wf h 2 lo hi t.
Proof.
  pose proof (imin_2 bt kmax emax Sizes). destruct h, t; cbn [BShape.wf]; try done. intros ([? ?] & ? & ?). split_and!; [lia|done..].
Qed.

(** The root has one child left. *)
Lemma shrink_runs np g0 g q k c X ws h p (Q : Context -> P -> Prop) :
  holds np (header_slot q (Writes g0) :: mkSlot q (CNode (node_of [(k, c)])) Free :: inners [(k, c)] ++ X) p ->
  page_id g = q -> wf h imin [] None c ->
  (forall T cs ctx p', holds np (cs ++ X) p' -> closes (leaves c) T cs ctx -> Q ctx p') ->
  ws = [] -> runs (shrink_root_ctx crc32 bt (mkContext (Some g0) ws) (page_id g) (root c)) p Q.
Proof.
  intros Hd Eg W K ->. unfold shrink_root_ctx. cbn [header_guard]. apply runs_bind, runs_ret. apply runs_bind. reads read_header_at_runs Hd. cbn [root_page_id].
  rewrite Eg, Z.eqb_refl. apply runs_bind, runs_ret. apply runs_bind.
  assert (Ic : in_u32 (root c) = true).
  { front q Hd. apply kids_ids in Hd. by apply Forall_cons in Hd as [Hd _]. }
  rule write_root_runs Hd; [done|]. intros p1 Hd1. apply runs_bind. rule drop_runs Hd1; [done|]. intros p2 Hd2. apply runs_ret.
  apply (K c (header_slot (root c) Free :: inner c)).
  - apply (holds_forget crc32 frames np [mkSlot q (CNode (node_of [(k, c)])) Free]); [|done]. eapply holds_perm; [exact Hd2|].
    rewrite inners_cons. change (inners []) with (@nil slot). unfold BWalk.header_slot. perm.
  - split_and!; [freed|done|exists h; by apply wf_least|]. rewrite guards_of_cons, guards_of_inner. done.
Qed.

(** The pool when a node below a path has lost a child. *)
Definition lacks (np : Z) (path : list frame) (q : PageId) (kids : list kid) (g : PageGuard) (hl : latch) (X : list slot) (p : P) : Prop :=
  holds np (header_slot (root (plug path (TNode q kids))) hl :: mkSlot q (CNode (node_of kids)) (Writes g) ::
            own path (TNode q kids) ++ sibs path ++ inners kids ++ X) p.

(** ... and when the change has ended. *)
Definition ended (np : Z) (ls : list (PageId * LeafNode)) (X : list slot) (Q : Context -> P -> Prop) : Prop :=
  forall T cs ctx p', holds np (cs ++ X) p' -> closes ls T cs ctx -> Q ctx p'.

(** Nothing more to do: let the node go. *)
Lemma let_go_runs np h path gs hg hl m q kids g X p (Q : Context -> P -> Prop) :
  lacks np path q kids g hl X p -> above path gs hg hl m -> path_wf (S h) path -> hole_ok h path kids -> (least_of bt path <= length kids)%nat ->
  ended np (leavesL path ++ kid_leaves kids ++ leavesR path) X Q -> runs (drop_guard g;; mret (mkContext hg (reverse gs))) p Q.
Proof.
  intros Hd Ab Pw Ho Le K. unfold lacks in Hd. front q Hd. apply runs_bind. rule drop_runs Hd; [done|]. intros p1 Hd1. apply runs_ret.
  eapply K; [|exact (closes_here h path gs hg hl m q kids _ Ab Pw Ho Le eq_refl)]. cbn [app]. rewrite <- !app_assoc. reorder Hd1.
Qed.

Lemma rebalance_stop_runs np h path q kids g X p (Q : Context -> P -> Prop) :
  lacks np path q kids g Free X p -> unlatched path -> path_wf (S h) path -> hole_ok h path kids -> (least_of bt path <= length kids)%nat ->
  ended np (leavesL path ++ kid_leaves kids ++ leavesR path) X Q -> runs (rebalance_internal crc32 bt [] None g) p Q.
Proof.
  intros Hd Un Pw Ho Le K. cbn [rebalance_internal]. apply runs_bind. pose proof Hd as Hd0. unfold lacks in Hd. front q Hd.
  reads read_internal_at_runs Hd. eapply (let_go_runs np h path [] None Free); try done. by apply above_stop.
Qed.

Lemma rebalance_root_runs np h q kids g g0 X p (Q : Context -> P -> Prop) :
  lacks np [] q kids g (Writes g0) X p -> hole_ok h [] kids -> (1 <= length kids)%nat ->
  ended np (kid_leaves kids) X Q -> runs (rebalance_internal crc32 bt [] (Some g0) g) p Q.
Proof.
  intros Hd Ho Le K. cbn [rebalance_internal]. apply runs_bind. pose proof Hd as Hd0. unfold lacks in Hd. front q Hd.
  assert (Eg : page_id g = q) by (apply hd_slots in Hd; apply Forall_cons in Hd as [[_ _ [Hd _]] _]; done).
  reads read_internal_at_runs Hd. rewrite children_node, length_map. destruct (Nat.eqb_spec (length kids) 1) as [E|E].
  - destruct kids as [|[k c] [|]]; [done| |done]. apply runs_bind, (runs_pure _ (root c)); [done|]. apply runs_bind.
    rule drop_runs Hd; [done|]. intros p1 Hd1. change (plug [] (TNode q [(k, c)])) with (TNode q [(k, c)]) in Hd1. cbn [BSlots.own BSlots.sibs app root] in Hd1.
    destruct Ho as [_ [Wc _]]. apply (shrink_runs np g0 g q k c X [] h p1 Q); [reorder Hd1|done|exact Wc| |done].
    intros T cs ctx p' Hd' (Pe & Le' & W & Gu). apply (K T cs ctx p' Hd'). split_and!; [done| |done|done]. rewrite Le'. cbn. by rewrite app_nil_r.
  - eapply (let_go_runs np h [] [] (Some g0) (Writes g0)); try done; [apply above_spine, spine_root|cbn; lia|]. cbn [leavesL leavesR app]. by rewrite app_nil_r.
Qed.

(** The children of a parent whose node at the path lacks one. *)
Lemma frame_crowd h f fs q kids :
  path_wf (S h) (f :: fs) -> hole_ok h (f :: fs) kids -> S (length kids) = imin ->
  crowd bt kmax emax h (lower fs) (upper fs) (f_left f) (f_key f) q kids (f_right f).
Proof.
  intros (Sz & Fl & Fk & Fr & Sl & Sr & _) [[N1 N2] Sp] Sh. apply spread_loose in Sl as [Sl Al]. apply spread_loose in Sr as [Sr Ar]. split; try done.
  - apply spread_one. split_and!; [done|split; [done|]|done]. cbn [lower upper] in Sp. by destruct (f_left f).
  - split; [rewrite length_app; apply Sz|]. by rewrite Forall_app, Forall_cons.
Qed.

Lemma frame_rebuilt h f fs q kids K' :
  path_wf (S h) (f :: fs) -> rebuilt bt kmax emax h (lower fs) (upper fs) (f_left f ++ (f_key f, TNode q kids) :: f_right f) K' ->
  (length K' <= f_size f)%nat ->
  hole_ok (S h) fs K' /\ leavesL fs ++ kid_leaves K' ++ leavesR fs = leavesL (f :: fs) ++ kid_leaves kids ++ leavesR (f :: fs).
Proof.
  intros (Sz & _) (Sp & Fk & Ek) Lk. split; [split; [split; [lia|done]|done]|]. rewrite Ek, kid_leaves_app, kid_leaves_cons. cbn [leavesL leavesR].
  rewrite <- !app_assoc. done.
Qed.

Lemma rebalance_up_runs np h f fs g' gs hg hl m q kids g X p (Q : Context -> P -> Prop) :
  lacks np (f :: fs) q kids g hl X p -> f_latch f = Writes g' -> above fs gs hg hl m -> (m < f_size f)%nat ->
  path_wf (S h) (f :: fs) -> hole_ok h (f :: fs) kids -> (imin <= S (length kids))%nat -> (2 <= f_size f)%nat ->
  above (f :: fs) (g' :: gs) hg hl (pred imin) ->
  (length (guards_of X) + length fs + 6 < frames)%nat ->
  ended np (leavesL (f :: fs) ++ kid_leaves kids ++ leavesR (f :: fs)) X Q ->
  (forall kids' p', lacks np fs (f_page f) kids' g' hl X p' -> hole_ok (S h) fs kids' -> S (length kids') = f_size f ->
     ended np (leavesL fs ++ kid_leaves kids' ++ leavesR fs) X Q -> runs (rebalance_internal crc32 bt gs hg g') p' Q) ->
  runs (rebalance_internal crc32 bt (g' :: gs) hg g) p Q.
Proof.
  intros Hd La Ab Lm Pw Ho Le L2 Ab' F K Rec. cbn [rebalance_internal]. pose proof Hd as Hd0. unfold lacks in Hd. front q Hd. apply runs_bind.
  reads read_internal_at_runs Hd. pose proof (imax_u16 bt kmax emax Sizes) as [E16 B16]. pose proof (imin_2 bt kmax emax Sizes).
  change (i_size (node_of kids)) with (Z.of_nat (length kids)). change (i_min_size (node_of kids)) with (internal_max_size bt / 2).
  rewrite children_node, length_map.
  assert (Ei : internal_max_size bt / 2 = Z.of_nat imin) by (unfold BShape.imin; pose proof (Z.div_pos (internal_max_size bt) 2 ltac:(lia) ltac:(lia)); lia).
  rewrite Ei. destruct (Z.leb_spec (Z.of_nat imin) (Z.of_nat (length kids))) as [Li|Li].
  { rewrite (proj2 (Nat.ltb_lt 1 _)) by lia. cbn [andb]. eapply (let_go_runs np h (f :: fs) (g' :: gs) hg hl); try done. cbn. lia. }
  cbn [andb]. pose proof (own_guards_le bt fs (fill f (TNode q kids))) as Og.
  change (plug (f :: fs) (TNode q kids)) with (plug fs (fill f (TNode q kids))) in Hd. cbn [BSlots.own BSlots.sibs] in Hd. unfold own_slot in Hd. rewrite La in Hd.
  apply (holds_perm _ _ _ _ (mkSlot (f_page f) (CNode (node_of (f_left f ++ (f_key f, TNode q kids) :: f_right f))) (Writes g') ::
    mkSlot q (CNode (node_of kids)) (Writes g) :: inners kids ++ inners (f_left f) ++ inners (f_right f) ++
    header_slot (root (plug fs (fill f (TNode q kids)))) hl :: own fs (fill f (TNode q kids)) ++ sibs fs ++ X)) in Hd; [|perm].
  assert (Lf : length (f_left f ++ (f_key f, TNode q kids) :: f_right f) = f_size f) by (rewrite length_app; done).
  eapply (level_runs crc32 frames bt kmax emax crc32_u32 Sizes h (lower fs) (upper fs) np (f_page f) g' g); [exact Hd|apply frame_crowd; done || lia|lia| | |].
  - rewrite guards_of_cons, !guards_of_app, guards_of_sibs, !length_app. cbn [s_latch BWalk.header_slot]. destruct hl; cbn; lia.
  - intros K' p1 Rb El Hd1. destruct (frame_rebuilt h f fs q kids K' Pw Rb ltac:(lia)) as [Ho' Els]. rewrite Lf in El.
    rewrite (own_root bt fs (fill f (TNode q kids)) (TNode (f_page f) K')), (plug_root fs (fill f (TNode q kids)) (TNode (f_page f) K')) in Hd1 by done.
    eapply (let_go_runs np (S h) fs gs hg hl m (f_page f) K' g' X); [|done|apply Pw|done|rewrite El; apply Pw|by rewrite Els].
    unfold lacks. reorder Hd1.
  - intros K' p1 Rb El Hd1. destruct (frame_rebuilt h f fs q kids K' Pw Rb ltac:(lia)) as [Ho' Els]. rewrite Lf in El.
    rewrite (own_root bt fs (fill f (TNode q kids)) (TNode (f_page f) K')), (plug_root fs (fill f (TNode q kids)) (TNode (f_page f) K')) in Hd1 by done.
    apply (Rec K' p1); [unfold lacks; reorder Hd1|done|done|by rewrite Els].
Qed.

Lemma rebalance_internal_runs path gs hg hl m : above path gs hg hl m -> forall np h q kids g X p (Q : Context -> P -> Prop),
  lacks np path q kids g hl X p -> path_wf (S h) path -> hole_ok h path kids -> (m <= length kids)%nat ->
  (length (guards_of X) + length path + 6 < frames)%nat ->
  ended np (leavesL path ++ kid_leaves kids ++ leavesR path) X Q -> runs (rebalance_internal crc32 bt gs hg g) p Q.
Proof.
  pose proof (imin_2 bt kmax emax Sizes) as I2.
  intros Ab. destruct Ab as [gs hg hl Sp|Un]; [|intros; by eapply rebalance_stop_runs].
  induction Sp as [g0|f fs g' La Sa Un|f fs g' gs hg hl La Sp IH]; intros np h q kids g X p Q Hd Pw Ho Le F K.
  - eapply rebalance_root_runs; [exact Hd|exact Ho|cbn in Le; lia|]. cbn [leavesL leavesR app] in K. by rewrite app_nil_r in K.
  - unfold safe_delete in Sa. eapply (rebalance_up_runs np h f fs g' [] None Free (least_of bt fs)); try done.
    + by apply above_stop.
    + destruct fs; cbn; lia.
    + cbn in Le. lia.
    + lia.
    + apply (above_spine (f :: fs)). by apply spine_safe.
    + cbn in F. lia.
    + intros kids' p' Hd' Ho' Lk K'. eapply rebalance_stop_runs; [exact Hd'|done|apply Pw|done| |done]. destruct fs; cbn; lia.
  - pose proof Pw as ((Lf & _) & _). eapply (rebalance_up_runs np h f fs g' gs hg hl (pred (least_of bt fs))); try done.
    + by apply above_spine.
    + destruct fs; cbn in *; lia.
    + cbn in Le. lia.
    + destruct fs; cbn in *; lia.
    + apply (above_spine (f :: fs)). by apply spine_push.
    + cbn in F. lia.
    + intros kids' p' Hd' Ho' Lk K'. eapply (IH np (S h)); [exact Hd'|apply Pw|done|lia|cbn in F; lia|done].
Qed.
End close.
