(* ===== verification/BRemove.v ===== *)
(** The leaf level of a deletion: a leaf with too few entries takes one from a
    neighbour or is merged with it ([rebalance_leaf_ctx]). *)

From Stdlib Require Import ZArith Lia List Bool.
From S2P Require Import Prelude Common Engine Page BNode BNodeSpec BLayout BPages Pool BTree BShape BHeap BSlots BWalk BPath BInsert BLeafMoves BDelete BNodeMoves BRebalance BClose.
From AAC_tactics Require Import AAC.
From coqutil Require Import Byte.
From stdpp Require Import base relations list strings sorting.
#[local] Open Scope Z_scope.

Lemma link_two prev a i ni j nj b next :
  link prev (a ++ (i, ni) :: (j, nj) :: b) next =
  link prev a i ++ mkSlot i (CLeaf (relink (last_of prev a) j ni)) Free :: mkSlot j (CLeaf (relink i (first_of b next) nj)) Free :: link j b next.
Proof. by rewrite link_mid. Qed.

Section remove.
Context {P : Type} `{BufferPool P} (crc32 : bytes -> Z) (frames : nat) (bt : BTree) (kmax emax : Z).
Hypothesis crc32_u32 : forall b, in_u32 (crc32 b) = true.
Hypothesis Sizes : sizes_ok bt kmax emax.

Abbreviation wf := (wf bt kmax emax).
Abbreviation path_wf := (path_wf bt kmax emax).
Abbreviation holds := (holds crc32 frames).
Abbreviation node_of := (node_of bt).
Abbreviation node_ok := (node_ok bt kmax).
Abbreviation header_slot := (header_slot bt).
Abbreviation own := (own bt).
Abbreviation sibs := (sibs bt).
Abbreviation inner := (inner bt).
Abbreviation inners := (inners bt).
Abbreviation imin := (imin bt).
Abbreviation imax := (imax bt).
Abbreviation lmax := (leaf_max_size bt).
Abbreviation mt := (max_tombstones bt).
Abbreviation leaf_row_wf := (leaf_row_wf bt kmax emax).
Abbreviation leaf_wf := (leaf_wf bt kmax emax).

(** The leaves among which the children of a parent stand. *)
Definition chain (A : list (PageId * LeafNode)) (kids : list kid) (B : list (PageId * LeafNode)) : list slot :=
  link INVALID_PAGE (A ++ kid_leaves kids ++ B) INVALID_PAGE.

Lemma guards_of_chain A kids B : guards_of (chain A kids B) = [].
Proof. apply guards_of_link. Qed.

Lemma chain_mid A l k q n r B :
  chain A (l ++ (k, TLeaf q n) :: r) B =
  link INVALID_PAGE (A ++ kid_leaves l) q ++
  mkSlot q (CLeaf (relink (last_of INVALID_PAGE (A ++ kid_leaves l)) (first_of (kid_leaves r ++ B) INVALID_PAGE) n)) Free ::
  link q (kid_leaves r ++ B) INVALID_PAGE.
Proof. unfold chain. rewrite <- link_mid. f_equal. rewrite kid_leaves_app, kid_leaves_cons. cbn [leaves]. by rewrite <- !app_assoc. Qed.

Lemma chain_two A l ka i ni kb j nj r B :
  chain A (l ++ (ka, TLeaf i ni) :: (kb, TLeaf j nj) :: r) B =
  link INVALID_PAGE (A ++ kid_leaves l) i ++
  mkSlot i (CLeaf (relink (last_of INVALID_PAGE (A ++ kid_leaves l)) j ni)) Free ::
  mkSlot j (CLeaf (relink i (first_of (kid_leaves r ++ B) INVALID_PAGE) nj)) Free :: link j (kid_leaves r ++ B) INVALID_PAGE.
Proof. unfold chain. rewrite <- link_two. f_equal. rewrite kid_leaves_app, !kid_leaves_cons. cbn [leaves]. by rewrite <- !app_assoc. Qed.

(** ** Whether a neighbour can spare an entry *)

Lemma safe_delete_leaf n r :
  leaf_is lmax n r -> len r <= lmax + Z.of_nat mt -> l_safe_for_delete n = Ok (lmax / 2 <? len (alive r)).
Proof.
  intros [[Ek Ev M Sh] Eh] L. pose proof (lmax_small bt kmax emax Sizes) as [B1 B2]. pose proof (marks_count _ _ M) as Mc.
  unfold l_safe_for_delete, logical_size, l_min_size, h_min_size. rewrite Ek, row_keys_length, Eh. rewrite (proj2 (Nat.leb_le _ _)) by lia. cbn.
  rewrite u16_of_len by (unfold len in L; lia). do 2 f_equal. unfold len. lia.
Qed.

Lemma read_leaf_runs np i n X p (Q : LeafNode -> P -> Prop) :
  holds np (mkSlot i (CLeaf n) Free :: X) p -> (length (guards_of X) < frames)%nat ->
  (forall p', holds np (mkSlot i (CLeaf n) Free :: X) p' -> Q n p') -> runs (read_leaf crc32 i) p Q.
Proof.
  intros Hd F K. apply runs_bind. rule fetch_read_runs Hd; [done|]. intros g p1 _ Hd1. apply runs_bind. reads node_type_leaf_runs Hd1.
  apply runs_bind. reads read_leaf_at_runs Hd1. apply runs_bind. rule drop_runs Hd1; [done|]. intros p2 Hd2. by apply runs_ret, K.
Qed.

Lemma spare_leaf_runs np A l k i n r B X lo hi rw p (Q : option PageId -> P -> Prop) :
  holds np (chain A (l ++ (k, TLeaf i n) :: r) B ++ X) p -> (length (guards_of X) < frames)%nat ->
  leaf_row_wf lo hi n rw -> len rw <= lmax + Z.of_nat mt ->
  (forall p', holds np (chain A (l ++ (k, TLeaf i n) :: r) B ++ X) p' -> Q (if lmax / 2 <? len (alive rw) then Some i else None) p') ->
  runs (spare_leaf crc32 i) p Q.
Proof.
  intros Hd F Lw Lr K. rewrite chain_mid in *. front i Hd. apply runs_bind. rule read_leaf_runs Hd; [room|]. intros p1 Hd1.
  apply runs_bind, (runs_pure _ (lmax / 2 <? len (alive rw))).
  { apply safe_delete_leaf; [|done]. apply leaf_is_relink, Lw. }
  apply runs_ret, K. reorder Hd1.
Qed.

(** ** The leaf level *)

(** A parent of leaves, one of which has too few entries left. *)
Record short_leaf (lo : bytes) (hi : option bytes) (key : bytes) (l1 : list kid) (k : bytes) (q : PageId) (n : LeafNode) (r : row) (l2 : list kid) : Prop := {
  sl_left : spread (wf 0 imin) lo (Some k) l1;
  sl_leaf : leaf_row_wf (match l1 with [] => lo | _ => k end) (upper_of l2 hi) n r;
  sl_right : spread (wf 0 imin) (lower_of l2) hi l2;
  sl_key : within (match l1 with [] => lo | _ => k end) (upper_of l2 hi) key;
  sl_short : len r < lmax / 2;
  sl_node : node_ok (l1 ++ (k, TLeaf q n) :: l2)
}.

(** The children of the parent when that has been set right. *)
Definition refilled (lo : bytes) (hi : option bytes) (K K' : list kid) : Prop :=
  spread (wf 0 imin) lo hi K' /\ Forall (fun k => len k.1 <= kmax) K' /\ leaf_contents (kid_leaves K') = leaf_contents (kid_leaves K).

Lemma leaf_contents_two l k1 q1 n1 k2 q2 n2 r :
  leaf_contents (kid_leaves (l ++ (k1, TLeaf q1 n1) :: (k2, TLeaf q2 n2) :: r)) =
  leaf_contents (kid_leaves l) ++ (live_entries n1 ++ live_entries n2) ++ leaf_contents (kid_leaves r).
Proof.
  rewrite kid_leaves_app, !kid_leaves_cons, !leaf_contents_app. unfold leaf_contents at 2 3. cbn. by rewrite !app_nil_r, <- app_assoc.
Qed.

Lemma spread_leaves l ka i ni kb j nj r lo hi :
  spread (wf 0 imin) lo hi (l ++ (ka, TLeaf i ni) :: (kb, TLeaf j nj) :: r) <->
  spread (wf 0 imin) lo (Some ka) l /\ leaf_wf (match l with [] => lo | _ => ka end) (Some kb) ni /\
  leaf_wf kb (upper_of r hi) nj /\ spread (wf 0 imin) (lower_of r) hi r.
Proof. rewrite spread_app. cbn [spread upper_of lower_of BShape.wf]. tauto. Qed.

Lemma half_lmax : 1 <= lmax / 2 /\ 2 * (lmax / 2) <= lmax.
Proof.
  pose proof (lmax_small bt kmax emax Sizes) as [B1 B2]. pose proof (Z.div_le_mono 2 lmax 2 ltac:(lia) B1). change (2 / 2) with 1 in *.
  pose proof (Z.mul_div_le lmax 2 ltac:(lia)). lia.
Qed.

Lemma alive_le r : len (alive r) <= len r.
Proof. unfold alive, len. rewrite length_map. pose proof (List.filter_length_le (fun s : entry * bool => negb s.2) r). lia. Qed.

Lemma leaf_wf_lt lo k n : leaf_wf lo (Some k) n -> blt lo k.
Proof. intros W. by apply (wf_lt bt kmax emax 0 1 lo k (TLeaf 0 n)). Qed.

Lemma give_left_runs lo hi key np pg g A l kl i nl k q n r l2 rl B X p (Q : unit -> P -> Prop) :
  holds np (mkSlot pg (CNode (node_of ((l ++ [(kl, TLeaf i nl)]) ++ (k, TLeaf q n) :: l2))) (Writes g) ::
            chain A ((l ++ [(kl, TLeaf i nl)]) ++ (k, TLeaf q n) :: l2) B ++ X) p ->
  short_leaf lo hi key (l ++ [(kl, TLeaf i nl)]) k q n r l2 -> (length (guards_of X) + 2 < frames)%nat ->
  leaf_row_wf (match l with [] => lo | _ => kl end) (Some k) nl rl -> len rl <= lmax + Z.of_nat mt -> lmax / 2 < len (alive rl) ->
  (forall K' p', refilled lo hi ((l ++ [(kl, TLeaf i nl)]) ++ (k, TLeaf q n) :: l2) K' ->
     length K' = length ((l ++ [(kl, TLeaf i nl)]) ++ (k, TLeaf q n) :: l2) ->
     holds np (mkSlot pg (CNode (node_of K')) (Writes g) :: chain A K' B ++ X) p' -> Q tt p') ->
  runs (redistribute_leaf_from_left_ctx crc32 bt g (length (l ++ [(kl, TLeaf i nl)])) i q) p Q.
Proof.
  intros Hd [Sl Sf Sr Sk Sh No] F Ll Lr Al K. pose proof half_lmax as [H1 H2]. pose proof (alive_le rl).
  rewrite <- app_assoc in *. cbn [app] in *. apply spread_app in Sl as [Sl [Wl _]]. cbn [upper_of lower_of BShape.wf] in Sl, Wl.
  replace (length (l ++ [(kl, TLeaf i nl)])) with (S (length l)) by (rewrite length_app; cbn; lia).
  replace (match l ++ [(kl, TLeaf i nl)] with [] => lo | _ => k end) with k in Sf, Sk by by destruct l.
  rewrite chain_two in Hd.
  apply (holds_perm _ _ _ _ (mkSlot pg (CNode (node_of (l ++ (kl, TLeaf i nl) :: (k, TLeaf q n) :: l2))) (Writes g) ::
    mkSlot i (CLeaf (relink (last_of INVALID_PAGE (A ++ kid_leaves l)) q nl)) Free ::
    mkSlot q (CLeaf (relink i (first_of (kid_leaves l2 ++ B) INVALID_PAGE) n)) Free ::
    link INVALID_PAGE (A ++ kid_leaves l) i ++ link q (kid_leaves l2 ++ B) INVALID_PAGE ++ X)) in Hd; [|perm].
  rule redistribute_leaf_left_runs Hd; [exact No|room|exact Ll|exact Sf| |lia|lia|].
  { split; [apply blt_ble; by apply (leaf_wf_lt _ k nl)|]. destruct Sk as [Sk1 Sk2]. destruct (upper_of l2 hi); [|done]. by eapply ble_blt_trans. }
  intros k' nl' n' p1 Wl' Wn' Ea Lk Hd1. apply (K (l ++ (kl, TLeaf i nl') :: (k', TLeaf q n') :: l2)).
  - split_and!.
    + by apply spread_leaves.
    + destruct No as [_ No]. rewrite Forall_app, !Forall_cons in *. tauto.
    + rewrite !leaf_contents_two, Ea. by rewrite (leaf_live_ok nl rl), (leaf_live_ok n r) by (apply Ll || apply Sf).
  - by rewrite !length_app.
  - rewrite chain_two. reorder Hd1.
Qed.

Lemma give_right_runs lo hi key np pg g A l1 k q n r kr i nr l2 rr B X p (Q : unit -> P -> Prop) :
  holds np (mkSlot pg (CNode (node_of (l1 ++ (k, TLeaf q n) :: (kr, TLeaf i nr) :: l2))) (Writes g) ::
            chain A (l1 ++ (k, TLeaf q n) :: (kr, TLeaf i nr) :: l2) B ++ X) p ->
  short_leaf lo hi key l1 k q n r ((kr, TLeaf i nr) :: l2) -> (length (guards_of X) + 2 < frames)%nat ->
  leaf_row_wf kr (upper_of l2 hi) nr rr -> len rr <= lmax + Z.of_nat mt -> lmax / 2 < len (alive rr) ->
  (forall K' p', refilled lo hi (l1 ++ (k, TLeaf q n) :: (kr, TLeaf i nr) :: l2) K' ->
     length K' = length (l1 ++ (k, TLeaf q n) :: (kr, TLeaf i nr) :: l2) ->
     holds np (mkSlot pg (CNode (node_of K')) (Writes g) :: chain A K' B ++ X) p' -> Q tt p') ->
  runs (redistribute_leaf_from_right_ctx crc32 bt g (length l1) q i) p Q.
Proof.
  intros Hd [Sl Sf Sr Sk Sh No] F Lw Lr Al K. pose proof half_lmax as [H1 H2]. pose proof (alive_le rr). cbn [upper_of lower_of spread BShape.wf] in *.
  rewrite chain_two in Hd. destruct Sr as [Wr Sr].
  apply (holds_perm _ _ _ _ (mkSlot pg (CNode (node_of (l1 ++ (k, TLeaf q n) :: (kr, TLeaf i nr) :: l2))) (Writes g) ::
    mkSlot q (CLeaf (relink (last_of INVALID_PAGE (A ++ kid_leaves l1)) i n)) Free ::
    mkSlot i (CLeaf (relink q (first_of (kid_leaves l2 ++ B) INVALID_PAGE) nr)) Free ::
    link INVALID_PAGE (A ++ kid_leaves l1) q ++ link i (kid_leaves l2 ++ B) INVALID_PAGE ++ X)) in Hd; [|perm].
  rule redistribute_leaf_right_runs Hd; [exact No|room|exact Sf|exact Lw| |lia|lia|].
  { destruct Sk as [Sk1 Sk2]. split; [apply blt_ble; by eapply ble_blt_trans|]. destruct (upper_of l2 hi) as [u|]; [|done]. by apply (leaf_wf_lt kr u nr). }
  intros k' n' nr' p1 Wn' Wr' Ea Lk Hd1. apply (K (l1 ++ (k, TLeaf q n') :: (k', TLeaf i nr') :: l2)).
  - split_and!.
    + by apply spread_leaves.
    + destruct No as [_ No]. rewrite Forall_app, !Forall_cons in *. tauto.
    + rewrite !leaf_contents_two, Ea. by rewrite (leaf_live_ok nr rr), (leaf_live_ok n r) by (apply Lw || apply Sf).
  - by rewrite !length_app.
  - rewrite chain_two. reorder Hd1.
Qed.

Lemma fuse_runs lo hi np pg g A l ka i na kb j nb r ra rb B X p (Q : unit -> P -> Prop) :
  holds np (mkSlot pg (CNode (node_of (l ++ (ka, TLeaf i na) :: (kb, TLeaf j nb) :: r))) (Writes g) ::
            chain A (l ++ (ka, TLeaf i na) :: (kb, TLeaf j nb) :: r) B ++ X) p ->
  spread (wf 0 imin) lo (Some ka) l -> spread (wf 0 imin) (lower_of r) hi r -> node_ok (l ++ (ka, TLeaf i na) :: (kb, TLeaf j nb) :: r) ->
  leaf_row_wf (match l with [] => lo | _ => ka end) (Some kb) na ra -> leaf_row_wf kb (upper_of r hi) nb rb ->
  within (match l with [] => lo | _ => ka end) (upper_of r hi) kb -> 1 <= len ra + len rb <= lmax + Z.of_nat mt ->
  (length (guards_of X) + 2 < frames)%nat ->
  (forall K' p', refilled lo hi (l ++ (ka, TLeaf i na) :: (kb, TLeaf j nb) :: r) K' ->
     S (length K') = length (l ++ (ka, TLeaf i na) :: (kb, TLeaf j nb) :: r) ->
     holds np (mkSlot pg (CNode (node_of K')) (Writes g) :: chain A K' B ++ X) p' -> Q tt p') ->
  runs (merge_leaves_ctx crc32 bt g (S (length l)) i j) p Q.
Proof.
  intros Hd Sl Sr No La Lb Wk Ls F K. rewrite chain_two in Hd.
  apply (holds_perm _ _ _ _ (mkSlot pg (CNode (node_of (l ++ (ka, TLeaf i na) :: (kb, TLeaf j nb) :: r))) (Writes g) ::
    mkSlot i (CLeaf (relink (last_of INVALID_PAGE (A ++ kid_leaves l)) j na)) Free ::
    mkSlot j (CLeaf (relink i (first_of (kid_leaves r ++ B) INVALID_PAGE) nb)) Free :: link j (kid_leaves r ++ B) INVALID_PAGE ++
    link INVALID_PAGE (A ++ kid_leaves l) i ++ X)) in Hd; [|perm].
  rule merge_leaves_runs Hd; [exact No|room|exact La|exact Lb|exact Wk|lia|].
  intros nm p1 Wm Ea Hd1. apply (K (l ++ (ka, TLeaf i nm) :: r)).
  - split_and!.
    + apply spread_app. cbn [spread upper_of lower_of BShape.wf]. done.
    + destruct No as [_ No]. rewrite Forall_app, !Forall_cons in *. tauto.
    + rewrite leaf_contents_two, kid_leaves_app, kid_leaves_cons, !leaf_contents_app. f_equal. f_equal. unfold leaf_contents. cbn.
      by rewrite app_nil_r, Ea, (leaf_live_ok na ra), (leaf_live_ok nb rb) by (apply La || apply Lb).
  - rewrite !length_app. cbn. lia.
  - rewrite chain_mid. reorder Hd1.
Qed.

(** A neighbour that cannot spare an entry. *)
Definition lean (lo : bytes) (hi : option bytes) (n : LeafNode) (r : row) : Prop :=
  leaf_row_wf lo hi n r /\ 1 <= len r <= lmax / 2 + Z.of_nat mt.

Lemma leaf_lean lo hi n r : leaf_row_wf lo hi n r -> 1 <= len r -> len (alive r) <= lmax / 2 -> lean lo hi n r.
Proof.
  intros Lw L1 La. split; [done|]. pose proof (lr_is _ _ _ _ _ _ _ Lw) as [[_ _ M _] _]. pose proof (marks_count _ _ M). pose proof (lr_tombs _ _ _ _ _ _ _ Lw).
  unfold len in *. lia.
Qed.

Lemma left_leaf_runs lo np A l1 k q n l2 B X p (Q : option PageId -> P -> Prop) :
  holds np (chain A (l1 ++ (k, TLeaf q n) :: l2) B ++ X) p -> spread (wf 0 imin) lo (Some k) l1 -> (length (guards_of X) < frames)%nat ->
  (forall p', (l1 = [] \/ exists l kl i nl rl, l1 = l ++ [(kl, TLeaf i nl)] /\ lean (match l with [] => lo | _ => kl end) (Some k) nl rl) ->
     holds np (chain A (l1 ++ (k, TLeaf q n) :: l2) B ++ X) p' -> Q None p') ->
  (forall l kl i nl rl p', l1 = l ++ [(kl, TLeaf i nl)] -> leaf_row_wf (match l with [] => lo | _ => kl end) (Some k) nl rl ->
     len rl <= lmax + Z.of_nat mt -> lmax / 2 < len (alive rl) -> holds np (chain A (l1 ++ (k, TLeaf q n) :: l2) B ++ X) p' -> Q (Some i) p') ->
  runs (if (0 <? length l1)%nat then left_id ← pure (child_at (length l1 - 1) (node_of (l1 ++ (k, TLeaf q n) :: l2))); spare_leaf crc32 left_id
        else mret None) p Q.
Proof.
  intros Hd Sp F K0 K1. destruct l1 as [|[kl c] l _] using rev_ind; [apply runs_ret, K0; auto|].
  apply spread_app in Sp as [Sp [Wc _]]. destruct c as [i nl|]; [|done]. destruct Wc as (rl & Lw & L1 & L2). cbn [upper_of] in Lw.
  rewrite (proj2 (Nat.ltb_lt _ _)) by (rewrite length_app; cbn; lia). apply runs_bind, (runs_pure _ i); [apply child_before|].
  revert Hd. rewrite <- app_assoc in K0, K1 |- *. cbn [app] in *. intros Hd. eapply spare_leaf_runs; [exact Hd|done|exact Lw|done|]. intros p1 Hd1.
  destruct (Z.ltb_spec (lmax / 2) (len (alive rl))); [by apply (K1 l kl i nl rl)|]. apply K0; [|done]. right. exists l, kl, i, nl, rl. split; [done|].
  by apply leaf_lean.
Qed.

Lemma right_leaf_runs hi np A l1 k q n l2 B X p (Q : option PageId -> P -> Prop) :
  holds np (chain A (l1 ++ (k, TLeaf q n) :: l2) B ++ X) p -> spread (wf 0 imin) (lower_of l2) hi l2 -> (length (guards_of X) < frames)%nat ->
  (forall p', (l2 = [] \/ exists kr i nr rr r, l2 = (kr, TLeaf i nr) :: r /\ lean kr (upper_of r hi) nr rr) ->
     holds np (chain A (l1 ++ (k, TLeaf q n) :: l2) B ++ X) p' -> Q None p') ->
  (forall kr i nr rr r p', l2 = (kr, TLeaf i nr) :: r -> leaf_row_wf kr (upper_of r hi) nr rr ->
     len rr <= lmax + Z.of_nat mt -> lmax / 2 < len (alive rr) -> holds np (chain A (l1 ++ (k, TLeaf q n) :: l2) B ++ X) p' -> Q (Some i) p') ->
  runs (if has_right_sibling (length l1) (node_of (l1 ++ (k, TLeaf q n) :: l2)) then
          right_id ← pure (child_at (length l1 + 1) (node_of (l1 ++ (k, TLeaf q n) :: l2))); spare_leaf crc32 right_id
        else mret None) p Q.
Proof.
  intros Hd Sp F K0 K1. rewrite has_right_at. destruct l2 as [|[kr c] r]; [apply runs_ret, K0; auto|].
  destruct Sp as [Wc Sp]. destruct c as [i nr|]; [|done]. destruct Wc as (rr & Lw & L1 & L2). cbn [lower_of] in Lw.
  apply runs_bind, (runs_pure _ i); [apply child_after|].
  revert Hd K0 K1. change ((k, TLeaf q n) :: (kr, TLeaf i nr) :: r) with ([(k, TLeaf q n)] ++ (kr, TLeaf i nr) :: r). rewrite app_assoc. intros Hd K0 K1.
  eapply spare_leaf_runs; [exact Hd|done|exact Lw|done|]. intros p1 Hd1.
  destruct (Z.ltb_spec (lmax / 2) (len (alive rr))); [by apply (K1 kr i nr rr r)|]. apply K0; [|done]. right. exists kr, i, nr, rr, r. split; [done|].
  by apply leaf_lean.
Qed.

Lemma chain_apart np A l1 k q n l2 B X p :
  holds np (chain A (l1 ++ (k, TLeaf q n) :: l2) B ++ X) p -> Forall (fun x => exists i m, x.2 = TLeaf i m) l1 -> Forall (fun x => root x.2 <> q) l1.
Proof.
  intros Hd F. rewrite chain_mid in Hd. front q Hd. apply hd_once in Hd. apply Forall_forall. intros [kx x] Hx.
  pose proof (proj1 (Forall_forall _ _) F _ Hx) as (i & m & E). cbn in E. subst x. apply list_elem_of_split in Hx as (a & b & ->).
  rewrite kid_leaves_app, kid_leaves_cons in Hd. cbn [leaves app] in Hd. rewrite app_assoc, link_mid in Hd.
  eapply page_apart with (s' := mkSlot i _ Free) in Hd; [exact Hd|]. rewrite !elem_of_app, elem_of_cons. eauto 10.
Qed.

Lemma spread_all_leaves lo hi l : spread (wf 0 imin) lo hi l -> Forall (fun x => exists i m, x.2 = TLeaf i m) l.
Proof. revert lo. induction l as [|[k [i m|]] l IH]; intros lo; [done| |by intros [? _]]. intros [_ Sp]. constructor; [by exists i, m|by eapply IH]. Qed.

(** The two neighbours have nothing to give: merge with one of them. *)
Lemma fuse_left_runs lo hi key np pg g A l kl i nl rl k q n r l2 B X p (Q : unit -> P -> Prop) :
  holds np (mkSlot pg (CNode (node_of ((l ++ [(kl, TLeaf i nl)]) ++ (k, TLeaf q n) :: l2))) (Writes g) ::
            chain A ((l ++ [(kl, TLeaf i nl)]) ++ (k, TLeaf q n) :: l2) B ++ X) p ->
  short_leaf lo hi key (l ++ [(kl, TLeaf i nl)]) k q n r l2 -> lean (match l with [] => lo | _ => kl end) (Some k) nl rl ->
  (length (guards_of X) + 2 < frames)%nat ->
  (forall K' p', refilled lo hi ((l ++ [(kl, TLeaf i nl)]) ++ (k, TLeaf q n) :: l2) K' ->
     S (length K') = length ((l ++ [(kl, TLeaf i nl)]) ++ (k, TLeaf q n) :: l2) ->
     holds np (mkSlot pg (CNode (node_of K')) (Writes g) :: chain A K' B ++ X) p' -> Q tt p') ->
  runs (merge_leaves_ctx crc32 bt g (length (l ++ [(kl, TLeaf i nl)])) i q) p Q.
Proof.
  intros Hd [Sl Sf Sr Sk Sh No] [Ll Lr] F K. pose proof half_lmax as [H1 H2]. assert (0 <= len r) by (unfold len; lia).
  rewrite <- app_assoc in *. cbn [app] in *. apply spread_app in Sl as [Sl [Wl _]]. cbn [upper_of lower_of BShape.wf] in Sl, Wl.
  replace (length (l ++ [(kl, TLeaf i nl)])) with (S (length l)) by (rewrite length_app; cbn; lia).
  replace (match l ++ [(kl, TLeaf i nl)] with [] => lo | _ => k end) with k in Sf, Sk by by destruct l.
  apply (fuse_runs lo hi np pg g A l kl i nl k q n l2 rl r B X p Q); try done; [|lia].
  split; [apply blt_ble; by apply (leaf_wf_lt _ k nl)|]. destruct Sk as [Sk1 Sk2]. destruct (upper_of l2 hi); [|done]. by eapply ble_blt_trans.
Qed.

Lemma fuse_right_runs lo hi key np pg g A k q n r kr i nr rr l2 B X p (Q : unit -> P -> Prop) :
  holds np (mkSlot pg (CNode (node_of ((k, TLeaf q n) :: (kr, TLeaf i nr) :: l2))) (Writes g) ::
            chain A ((k, TLeaf q n) :: (kr, TLeaf i nr) :: l2) B ++ X) p ->
  short_leaf lo hi key [] k q n r ((kr, TLeaf i nr) :: l2) -> lean kr (upper_of l2 hi) nr rr -> (length (guards_of X) + 2 < frames)%nat ->
  (forall K' p', refilled lo hi ((k, TLeaf q n) :: (kr, TLeaf i nr) :: l2) K' -> S (length K') = length ((k, TLeaf q n) :: (kr, TLeaf i nr) :: l2) ->
     holds np (mkSlot pg (CNode (node_of K')) (Writes g) :: chain A K' B ++ X) p' -> Q tt p') ->
  runs (merge_leaves_ctx crc32 bt g 1 q i) p Q.
Proof.
  intros Hd [Sl Sf [Wr Sr] Sk Sh No] [Lw Lr] F K. pose proof half_lmax as [H1 H2]. assert (0 <= len r) by (unfold len; lia).
  apply (fuse_runs lo hi np pg g A [] k q n kr i nr l2 r rr B X p Q); try done; [|lia].
  destruct Sk as [Sk1 Sk2]. cbn [upper_of lower_of BShape.wf] in *. split; [apply blt_ble; by eapply ble_blt_trans|]. destruct (upper_of l2 hi) as [u|]; [|done].
  by apply (leaf_wf_lt kr u nr).
Qed.

Lemma leaf_level_runs {T} lo hi key np pg g A l1 k q n r l2 B X (fin1 fin2 fin3 : M P T) err p (Q : T -> P -> Prop) :
  holds np (mkSlot pg (CNode (node_of (l1 ++ (k, TLeaf q n) :: l2))) (Writes g) :: chain A (l1 ++ (k, TLeaf q n) :: l2) B ++ X) p ->
  short_leaf lo hi key l1 k q n r l2 -> (2 <= length (l1 ++ (k, TLeaf q n) :: l2))%nat -> (length (guards_of X) + 2 < frames)%nat ->
  (forall K' p', refilled lo hi (l1 ++ (k, TLeaf q n) :: l2) K' -> length K' = length (l1 ++ (k, TLeaf q n) :: l2) ->
     holds np (mkSlot pg (CNode (node_of K')) (Writes g) :: chain A K' B ++ X) p' -> runs fin1 p' Q) ->
  (forall K' p', refilled lo hi (l1 ++ (k, TLeaf q n) :: l2) K' -> S (length K') = length (l1 ++ (k, TLeaf q n) :: l2) ->
     holds np (mkSlot pg (CNode (node_of K')) (Writes g) :: chain A K' B ++ X) p' -> runs fin2 p' Q) ->
  runs (
    p ← read_internal_at crc32 g;
    child_index ← pure (ok_or (find_child_position q p) err);
    from_left ← (if (0 <? child_index)%nat then left_id ← pure (child_at (child_index - 1) p); spare_leaf crc32 left_id else mret None);
    match from_left with
    | Some left_id => redistribute_leaf_from_left_ctx crc32 bt g child_index left_id q;; fin1
    | None =>
        from_right ← (if has_right_sibling child_index p then right_id ← pure (child_at (child_index + 1) p); spare_leaf crc32 right_id
                      else mret None);
        match from_right with
        | Some right_id => redistribute_leaf_from_right_ctx crc32 bt g child_index q right_id;; fin1
        | None =>
            if (0 <? child_index)%nat then
              left_id ← pure (child_at (child_index - 1) p);
              merge_leaves_ctx crc32 bt g child_index left_id q;;
              fin2
            else if has_right_sibling child_index p then
              right_id ← pure (child_at (child_index + 1) p);
              merge_leaves_ctx crc32 bt g (child_index + 1) q right_id;;
              fin2
            else fin3
        end
    end) p Q.
Proof.
  intros Hd Sh Ln F K1 K2. pose proof (sl_left _ _ _ _ _ _ _ _ _ Sh) as Sl. pose proof (sl_right _ _ _ _ _ _ _ _ _ Sh) as Sr.
  assert (Ap : Forall (fun x => root x.2 <> q) l1).
  { eapply (chain_apart np A l1 k q n l2 B (mkSlot pg (CNode (node_of (l1 ++ (k, TLeaf q n) :: l2))) (Writes g) :: X) p); [reorder Hd|by eapply spread_all_leaves]. }
  apply runs_bind. reads read_internal_at_runs Hd. apply runs_bind, (runs_pure _ (length l1)); [by rewrite position_mid|].
  apply runs_bind. eapply (left_leaf_runs lo np A l1 k q n l2 B (mkSlot pg (CNode (node_of (l1 ++ (k, TLeaf q n) :: l2))) (Writes g) :: X));
    [reorder Hd|exact Sl|room| |]; clear Hd; [intros p1 Dl Hd|intros l kl i nl rl p1 -> Ll Lr La Hd].
  - apply runs_bind. eapply (right_leaf_runs hi np A l1 k q n l2 B (mkSlot pg (CNode (node_of (l1 ++ (k, TLeaf q n) :: l2))) (Writes g) :: X));
      [reorder Hd|exact Sr|room| |]; clear Hd; [intros p2 Dr Hd|intros kr i nr rr l p2 -> Lw Lr La Hd]; front pg Hd.
    + destruct Dl as [->|(l & kl & i & nl & rl & -> & Ll)].
      * change (0 <? length (@nil kid))%nat with false. cbv iota. rewrite (has_right_at bt [] k (TLeaf q n) l2).
        destruct Dr as [->|(kr & i & nr & rr & l & -> & Lr)]; [cbn in Ln; lia|].
        apply runs_bind, (runs_pure _ i); [apply (child_after bt [])|]. apply runs_bind.
        by apply (fuse_right_runs lo hi key np pg g A k q n r kr i nr rr l B X p2).
      * rewrite (proj2 (Nat.ltb_lt 0 _)) by (rewrite length_app; cbn; lia). apply runs_bind, (runs_pure _ i); [apply child_before|]. apply runs_bind.
        by apply (fuse_left_runs lo hi key np pg g A l kl i nl rl k q n r l2 B X p2).
    + apply runs_bind. by apply (give_right_runs lo hi key np pg g A l1 k q n r kr i nr l rr B X p2).
  - apply runs_bind. front pg Hd. by apply (give_left_runs lo hi key np pg g A l kl i nl k q n r l2 rl B X p1).
Qed.
End remove.
