(* ===== verification/BErase.v ===== *)
(** [delete] as a whole: what it does to the map that the tree stands for. *)

From Stdlib Require Import ZArith Lia List Bool.
From S2P Require Import Prelude Common Engine Page BNode BNodeSpec BLayout BPages Pool BTree BShape BHeap BSlots BWalk BPath BInsert BLeafMoves BDelete BNodeMoves BRebalance BClose BRemove.
From AAC_tactics Require Import AAC.
From coqutil Require Import Byte.
From stdpp Require Import base relations list strings sorting.
#[local] Open Scope Z_scope.

Section erase.
Context {P : Type} `{BufferPool P} (crc32 : bytes -> Z) (frames : nat) (bt : BTree) (kmax emax : Z).
Hypothesis crc32_u32 : forall b, in_u32 (crc32 b) = true.
Hypothesis Sizes : sizes_ok bt kmax emax.

Abbreviation wf := (wf bt kmax emax).
Abbreviation path_wf := (path_wf bt kmax emax).
Abbreviation holds := (holds crc32 frames).
Abbreviation node_of := (node_of bt).
Abbreviation header_slot := (header_slot bt).
Abbreviation own := (own bt).
Abbreviation sibs := (sibs bt).
Abbreviation inners := (inners bt).
Abbreviation imin := (imin bt).
Abbreviation imax := (imax bt).
Abbreviation lmax := (leaf_max_size bt).
Abbreviation mt := (max_tombstones bt).
Abbreviation leaf_row_wf := (leaf_row_wf bt kmax emax).
Abbreviation closes := (closes bt kmax emax).
Abbreviation safe_delete := (safe_delete bt).
Abbreviation stands_for := (stands_for crc32 frames bt kmax emax).

(** What a change of the tree leaves, before the last latches go: the tree, and
    pages that are no part of it any more. *)
Definition leaves_forest (np : Z) (C : list entry) (p : P) : Prop :=
  exists o h cs lost, holds np cs p /\ map free cs ≡ₚ map free lost ++ header_slot (root_id o) Free :: slots_of bt o /\
    forest_wf bt kmax emax h o /\ contents_of o = C.

Lemma leaves_forest_free {A} np C p (Q : A -> P -> Prop) a :
  leaves_forest np C p -> (forall p'', stands_for np C p'' -> Q a p'') ->
  exists np1 cs, holds np1 cs p /\ (forall p'', holds np1 (map free cs) p'' -> Q a p'').
Proof.
  intros (o & h & cs & lost & Hd & Pe & W & Ec) K. exists np, cs. split; [done|]. intros p'' Hd''. apply K. exists o, h.
  split_and!; [|done|done]. apply (holds_forget crc32 frames np (map free lost)); [|apply guards_of_free]. eapply holds_perm; [exact Hd''|]. by rewrite Pe.
Qed.

Lemma spine_parent f fs gs hg hl :
  spine safe_delete (f :: fs) gs hg hl -> path_wf 0 (f :: fs) ->
  exists g' gs' m, gs = g' :: gs' /\ f_latch f = Writes g' /\ above bt fs gs' hg hl m /\ (m < f_size f)%nat /\ (2 <= f_size f)%nat.
Proof.
  pose proof (imin_2 bt kmax emax Sizes) as I2. intros Sp ((Lf & _) & _).
  inversion Sp as [|f0 fs0 g La Sa Un|f0 fs0 g gs0 hg0 hl0 La Sp0]; subst; [exists g, [], (least_of bt fs)|exists g, gs0, (pred (least_of bt fs))].
  - unfold BClose.safe_delete in Sa. split_and!; [done|done|by apply above_stop|destruct fs; cbn in *; lia|lia].
  - split_and!; [done|done|by apply above_spine|destruct fs; cbn in *; lia..].
Qed.

Lemma inners_leaves l : Forall (fun x => exists i m, x.2 = TLeaf i m) l -> inners l = [].
Proof. induction 1 as [|[k x] l (i & m & E) _ IH]; [done|]. cbn in E. subst. rewrite inners_cons, IH. done. Qed.

Lemma pop_context hg (g : PageGuard) gs : ctx_pop (mkContext hg (reverse (g :: gs))) = Some (g, mkContext hg (reverse gs)).
Proof.
  unfold ctx_pop. cbn [write_set header_guard]. rewrite reverse_cons, last_snoc, length_app. cbn [length].
  by rewrite Nat.add_sub, take_app_length.
Qed.

Lemma frame_short f fs key q n r :
  path_wf 0 (f :: fs) -> leaf_row_wf (lower (f :: fs)) (upper (f :: fs)) n r -> within (lower (f :: fs)) (upper (f :: fs)) key ->
  len r < lmax / 2 -> short_leaf bt kmax emax (lower fs) (upper fs) key (f_left f) (f_key f) q n r (f_right f).
Proof.
  intros (Sz & Fl & Fk & Fr & Sl & Sr & _) Lw Wi Sh. split; try done. split; [rewrite length_app; apply Sz|]. by rewrite Forall_app, Forall_cons.
Qed.

Lemma rebalance_leaf_runs np key f fs q n r gs hg hl p (Q : Context -> P -> Prop) :
  holds np (along bt Free (f :: fs) (TLeaf q n) ++ [header_slot (root (plug (f :: fs) (TLeaf q n))) hl]) p ->
  path_wf 0 (f :: fs) -> spine safe_delete (f :: fs) gs hg hl -> leaf_row_wf (lower (f :: fs)) (upper (f :: fs)) n r ->
  within (lower (f :: fs)) (upper (f :: fs)) key -> len r < lmax / 2 -> (length fs + 8 < frames)%nat ->
  (forall T cs ctx p', holds np (cs ++ link INVALID_PAGE (leaves T) INVALID_PAGE) p' -> closes (leaves T) T cs ctx ->
     contents T = leaf_contents (leavesL (f :: fs)) ++ alive r ++ leaf_contents (leavesR (f :: fs)) -> Q ctx p') ->
  runs (rebalance_leaf_ctx crc32 bt q (mkContext hg (reverse gs))) p Q.
Proof.
  intros Hd Pw Sp Lw Wi Sh F K. destruct (spine_parent f fs gs hg hl Sp Pw) as (g' & gs' & m & -> & La & Ab & Lm & L2).
  pose proof Pw as (Sz & Fl & Fk & Fr & Sl & Sr & Pw'). unfold rebalance_leaf_ctx. apply runs_bind, (runs_pure _ (g', mkContext hg (reverse gs'))).
  { by rewrite pop_context. }
  assert (Lf : length (f_left f ++ (f_key f, TLeaf q n) :: f_right f) = f_size f) by (rewrite length_app; done).
  assert (Fin : forall K' , refilled bt kmax emax (lower fs) (upper fs) (f_left f ++ (f_key f, TLeaf q n) :: f_right f) K' -> (length K' <= f_size f)%nat ->
    hole_ok bt kmax emax 0 fs K' /\ ended crc32 frames bt kmax emax np (leavesL fs ++ kid_leaves K' ++ leavesR fs) (chain (leavesL fs) K' (leavesR fs)) Q).
  { intros K' (Rs & Rf & Rc) Lk. split; [split; [split; [lia|done]|done]|]. intros T cs ctx p' Hd' Cl. pose proof Cl as (_ & El & _).
    apply (K T cs ctx p'); [by rewrite El|by rewrite El|]. unfold contents. rewrite El, !leaf_contents_app, Rc, kid_leaves_app, kid_leaves_cons.
    cbn [leavesL leavesR leaves]. rewrite !leaf_contents_app, <- !app_assoc. f_equal. f_equal. f_equal. unfold leaf_contents. cbn.
    by rewrite app_nil_r, (leaf_live_ok n r (li_stores _ _ _ (lr_is _ _ _ _ _ _ _ Lw))). }
  assert (Back : forall K' p', refilled bt kmax emax (lower fs) (upper fs) (f_left f ++ (f_key f, TLeaf q n) :: f_right f) K' ->
    holds np (mkSlot (f_page f) (CNode (node_of K')) (Writes g') :: chain (leavesL fs) K' (leavesR fs) ++
      header_slot (root (plug fs (fill f (TLeaf q n)))) hl :: own fs (fill f (TLeaf q n)) ++ sibs fs) p' ->
    lacks crc32 frames bt np fs (f_page f) K' g' hl (chain (leavesL fs) K' (leavesR fs)) p').
  { intros K' p' (Rs & _) Hd'. unfold lacks. rewrite (inners_leaves K') by by eapply spread_all_leaves.
    rewrite (own_root bt fs (TNode (f_page f) K') (fill f (TLeaf q n))), (plug_root fs (TNode (f_page f) K') (fill f (TLeaf q n))) by done. reorder Hd'. }
  eapply (leaf_level_runs crc32 frames bt kmax emax crc32_u32 Sizes (lower fs) (upper fs) key np (f_page f) g' (leavesL fs) (f_left f) (f_key f) q n r (f_right f)
    (leavesR fs) (header_slot (root (plug fs (fill f (TLeaf q n)))) hl :: own fs (fill f (TLeaf q n)) ++ sibs fs)).
  - rewrite along_app in Hd. cbn [BSlots.own BSlots.sibs root cur_content cur_rest leavesL leavesR] in Hd. unfold own_slot in Hd. rewrite La in Hd.
    rewrite (inners_leaves (f_left f)), (inners_leaves (f_right f)) in Hd by by eapply spread_all_leaves.
    rewrite chain_mid. eapply holds_perm; [exact Hd|]. change (plug (f :: fs) (TLeaf q n)) with (plug fs (fill f (TLeaf q n))). perm.
  - by apply frame_short.
  - lia.
  - pose proof (own_guards_le bt fs (fill f (TLeaf q n))) as Og. rewrite guards_of_cons, guards_of_app, guards_of_sibs, !length_app. destruct hl; cbn; lia.
  - intros K' p' Rf El Hd'. destruct (Fin K' Rf ltac:(lia)) as [Ho En].
    eapply (let_go_runs crc32 frames bt kmax emax np 0 fs gs' hg hl m (f_page f) K' g'); try done; [by apply Back|]. rewrite El, Lf. apply Sz.
  - intros K' p' Rf El Hd'. destruct (Fin K' Rf ltac:(lia)) as [Ho En]. unfold rebalance_internal_ctx. cbn [write_set header_guard]. rewrite reverse_involutive.
    eapply (rebalance_internal_runs crc32 frames bt kmax emax crc32_u32 Sizes fs gs' hg hl m Ab np 0 (f_page f) K' g'); try done; [by apply Back|lia|].
    rewrite guards_of_chain. cbn. lia.
Qed.

(** ** After the change *)

Lemma drop_each_app (a b : list PageGuard) : forall p (Q : unit -> P -> Prop),
  runs (drop_each (a ++ b)) p Q -> runs (drop_each a) p (fun _ p' => runs (drop_each b) p' Q).
Proof.
  induction a as [|g a IH]; intros p Q R; [by apply runs_ret|]. cbn [app drop_each] in *. unfold runs, mbind, M_bind in *.
  destruct (drop_guard g p) as [[u|e|] p']; try done. by apply IH.
Qed.

Lemma release_all_runs np cs X ctx p (Q : Context -> P -> Prop) :
  holds np (cs ++ X) p -> guards_of cs ≡ₚ option_list (header_guard ctx) ++ write_set ctx ->
  (forall p', holds np (map free cs ++ X) p' -> Q context_new p') -> runs (release_ancestors ctx) p Q.
Proof.
  intros Hd Gu K. apply runs_bind, (runs_mono _ _ (fun _ p' => runs (drop_each (write_set ctx)) p' (fun _ p'' => Q context_new p''))).
  - apply drop_each_app. eapply drop_each_runs; [exact Hd|by rewrite Gu|]. done.
  - intros [] p' R. apply runs_bind. eapply runs_mono; [exact R|]. intros [] p'' HQ. by apply runs_ret.
Qed.

Lemma closes_forest np T cs ctx p :
  holds np (map free cs ++ link INVALID_PAGE (leaves T) INVALID_PAGE) p -> closes (leaves T) T cs ctx -> leaves_forest np (contents T) p.
Proof.
  intros Hd (Pe & _ & (h & W) & _). exists (Some T), h. eexists _, []. split_and!; [exact Hd| |exact W|done]. cbn [slots_of root_id map app]. unfold tree_slots.
  rewrite map_app, free_free, free_link, Pe. perm.
Qed.

Lemma leaf_forest np path q n n' r' cs p :
  holds np cs p -> map free cs ≡ₚ header_slot (root (plug path (TLeaf q n))) Free :: map free (along bt Free path (TLeaf q n')) ->
  path_wf 0 path -> leaf_wf bt kmax emax (lower path) (upper path) n' -> stores n' r' ->
  leaves_forest np (leaf_contents (leavesL path) ++ alive r' ++ leaf_contents (leavesR path)) p.
Proof.
  intros Hd Pe Pw W St. destruct (leaf_replaced crc32 frames bt kmax emax np np 0 path q n n' cs r' p) as (_ & T & h & cs' & Hd' & Pe' & W' & Ec); try done; [lia|].
  exists (Some T), h, cs', []. by split_and!.
Qed.

(** The only leaf is empty: so is the tree. *)
Lemma last_leaf_runs np q n c g g0 p (Q : bool -> P -> Prop) :
  holds np (mkSlot q c (Writes g) :: [header_slot q (Writes g0)]) p -> alive n = [] ->
  (forall p', leaves_forest np (alive n) p' -> Q true p') ->
  runs ((set_root crc32 (mkContext (Some g0) []) INVALID_PAGE;; mret tt);; mret true) p Q.
Proof.
  intros Hd E K. bring (header_slot q (Writes g0)) Hd. apply runs_bind, runs_bind. cbn [set_root header_guard]. apply runs_bind.
  reads read_header_at_runs Hd. apply runs_bind. rule write_root_runs Hd; [done|]. intros p1 Hd1. apply runs_bind. rule drop_runs Hd1; [done|].
  intros p2 Hd2. apply runs_ret, runs_ret, runs_ret, K. exists None, 0%nat. eexists _, [mkSlot q c (Writes g)].
  split_and!; [exact Hd2| |done|by rewrite E]. apply Permutation_swap.
Qed.

Lemma tests_delete : tests bt delete_safe safe_delete.
Proof.
  intros kids Lk. eexists. split; [done|]. rewrite (safe_delete_node bt kmax emax Sizes). intros [Hl _]%andb_true_iff f Ef. apply Nat.ltb_lt in Hl.
  unfold BClose.safe_delete. by rewrite Ef.
Qed.

(** The leaf has lost an entry. *)
Lemma erased_runs np key path q n n' r' g gs hg hl p (Q : bool -> P -> Prop) :
  holds np (along bt (Writes g) path (TLeaf q n') ++ [header_slot (root (plug path (TLeaf q n))) hl]) p ->
  path_wf 0 path -> spine safe_delete path gs hg hl -> leaf_row_wf (lower path) (upper path) n' r' -> len r' <= lmax + Z.of_nat mt ->
  within (lower path) (upper path) key -> (length path + 8 < frames)%nat ->
  (forall p', leaves_forest np (leaf_contents (leavesL path) ++ alive r' ++ leaf_contents (leavesR path)) p' -> Q true p') ->
  runs (match reverse gs with
  | [] => (if (length r' =? 0)%nat then set_root crc32 (mkContext hg (reverse gs)) INVALID_PAGE;; mret tt else mret tt);; mret true
  | _ =>
      if negb (len r' <? lmax / 2) then release_ancestors (mkContext hg (reverse gs));; mret true else
      drop_guard g;;
      ctx ← rebalance_leaf_ctx crc32 bt (page_id g) (mkContext hg (reverse gs));
      release_ancestors ctx;;
      mret true
  end) p Q.
Proof.
  intros Hd Pw Sp Lw Lr Wi F K. pose proof (half_lmax bt kmax emax Sizes) as [H1 H2].
  assert (St : stores n' r') by apply Lw. destruct gs as [|g1 gs1].
  - destruct (spine_held _ _ _ _ _ Sp eq_refl) as (-> & g0 & -> & ->). change (reverse []) with (@nil PageGuard). cbv iota beta.
    destruct (Nat.eqb_spec (length r') 0) as [E|E].
    + destruct r'; [|done]. eapply (last_leaf_runs np q []); [exact Hd|done|]. exact K.
    + apply runs_bind, runs_ret, runs_ret, K. eapply (leaf_forest np [] q n n'); [exact Hd| |done| |done].
      * unfold along. freed.
      * exists r'. split; [done|]. unfold len in *. lia.
  - destruct (reverse (g1 :: gs1)) as [|g2 gs2] eqn:Er; [by apply (f_equal length) in Er; rewrite length_reverse in Er|]. rewrite <- Er. clear g2 gs2 Er.
    destruct (Z.ltb_spec (len r') (lmax / 2)) as [Sh|Sh]; cbn [negb].
    + destruct path as [|f fs]; [inversion Sp|]. assert (Eg : page_id g = q).
      { rewrite along_app in Hd. apply hd_slots in Hd. apply Forall_cons in Hd as [[_ _ [Hd _]] _]. done. }
      rewrite Eg. rewrite along_app in Hd. apply runs_bind. rule drop_runs Hd; [done|]. clear Hd. intros p1 Hd. apply runs_bind.
      apply (rebalance_leaf_runs np key f fs q n' r' (g1 :: gs1) hg hl); try done.
      * rewrite along_app, (plug_root (f :: fs) (TLeaf q n') (TLeaf q n)) by done. reorder Hd.
      * cbn in F. lia.
      * intros T cs ctx p2 Hd2 Cl Ec. apply runs_bind. eapply release_all_runs; [exact Hd2|apply Cl|]. intros p3 Hd3. apply runs_ret, K. rewrite <- Ec.
        by eapply closes_forest.
    + rewrite along_app in Hd. apply (holds_perm _ _ _ _ (header_slot (root (plug path (TLeaf q n))) hl :: own path (TLeaf q n') ++
        mkSlot q (cur_content bt path (TLeaf q n')) (Writes g) :: sibs path ++ cur_rest bt path (TLeaf q n'))) in Hd; [|cbn [root]; perm].
      apply runs_bind. eapply (release_runs crc32 frames bt safe_delete); [exact Sp|exact Hd|]. intros p1 Hd1. apply runs_ret, K.
      eapply (leaf_forest np path q n n'); [exact Hd1| |done| |done].
      * unfold along. cbn [root]. freed.
      * exists r'. split; [done|lia].
Qed.

Lemma delete_from_leaf_runs np key path q n g gs hg hl p (Q : bool -> P -> Prop) :
  holds np (along bt (Writes g) path (TLeaf q n) ++ [header_slot (root (plug path (TLeaf q n))) hl]) p ->
  wf 0 (least_of bt path) (lower path) (upper path) (TLeaf q n) -> path_wf 0 path -> spine safe_delete path gs hg hl ->
  within (lower path) (upper path) key -> (length path + 8 < frames)%nat ->
  (forall v p', kv_get key (contents (plug path (TLeaf q n))) = Some v ->
     leaves_forest np (kv_delete key (contents (plug path (TLeaf q n)))) p' -> Q true p') ->
  (forall p', kv_get key (contents (plug path (TLeaf q n))) = None -> leaves_forest np (contents (plug path (TLeaf q n))) p' -> Q false p') ->
  runs (delete_from_leaf crc32 bt key g (mkContext hg (reverse gs))) p Q.
Proof.
  intros Hd W Pw Sp Wi F K1 K0. destruct W as (r & Lw & Lr). pose proof (lr_is _ _ _ _ _ _ _ Lw) as Li.
  destruct (path_around bt kmax emax path 0 key Sizes Pw Wi) as [A1 A2]. pose proof (lmax_small bt kmax emax Sizes) as [B1 B2].
  assert (Ec : contents (plug path (TLeaf q n)) = leaf_contents (leavesL path) ++ alive r ++ leaf_contents (leavesR path))
    by by rewrite contents_plug, (leaf_live_ok n r (li_stores _ _ _ Li)).
  rewrite Ec in K1, K0. rewrite kv_get_middle in K1, K0 by done. rewrite kv_delete_middle in K1 by done. unfold delete_from_leaf.
  pose proof Hd as Hd0. rewrite along_app in Hd. apply runs_bind. reads read_leaf_at_runs Hd.
  set (m := relink (last_of INVALID_PAGE (leavesL path)) (first_of (leavesR path) INVALID_PAGE) n) in *.
  assert (Lm : leaf_is lmax m r) by by apply leaf_is_relink.
  destruct (kv_get key (alive r)) as [v|] eqn:Ev.
  - destruct (leaf_delete_ok lmax key mt m r v Lm (lr_sorted _ _ _ _ _ _ _ Lw) (lr_tombs _ _ _ _ _ _ _ Lw) Ev) as (n' & r' & En & Li' & Rd & [Sn Sv] & Tn).
    apply runs_bind, (runs_pure _ (true, n')); [done|]. cbn [negb]. pose proof (rd_length _ _ _ Rd) as Ln.
    assert (Lw' : leaf_row_wf (lower path) (upper path) n' r').
    { split; [done|apply Rd| |done]. apply (rd_Forall _ _ _ Rd (fun e => within (lower path) (upper path) e.1 /\ entry_small kmax emax e)), Lw. }
    assert (Er : relink (last_of INVALID_PAGE (leavesL path)) (first_of (leavesR path) INVALID_PAGE) n' = n').
    { rewrite <- (relink_same n') at 2. by rewrite Sn, Sv. }
    pose proof (holds_leaf_fits _ _ _ _ _ _ _ _ Hd) as [_ _ _ [Il Ip] _ _ _]. apply runs_bind. rule write_leaf_runs Hd.
    { rewrite <- Er. apply (leaf_row_fits bt kmax emax Sizes (lower path) (upper path) n' r'); [done|unfold len in *; lia|exact Ip|exact Il]. }
    clear Hd Hd0. intros p1 Hd. cbn [write_set].
    unfold has_underflowed, physical_size, l_min_size, h_min_size. pose proof (stores_length _ _ (li_stores _ _ _ Li')) as El. unfold physical_size in El. rewrite El.
    rewrite u16_of_len, (li_header _ _ _ Li') by (unfold len in *; lia). cbn [h_max_size].
    apply (erased_runs np key path q n n' r' g gs hg hl p1); try done; [|unfold len in *; lia|].
    + rewrite along_app. cbn [root cur_content cur_rest]. rewrite Er, (own_root bt path (TLeaf q n') (TLeaf q n)) by done. exact Hd.
    + intros p' L. apply (K1 v p' eq_refl). by rewrite <- (rd_alive _ _ _ Rd).
  - apply runs_bind, (runs_pure _ (false, m)); [by apply (leaf_delete_absent key mt m r); [apply Lm|apply Lw|]|]. cbn [negb]. apply runs_ret, (K0 p eq_refl).
    eapply (leaf_forest np path q n n); [exact Hd0| |done|by exists r|apply Li]. unfold along. freed.
Qed.

Lemma tree_delete_runs np o h key p (Q : bool -> P -> Prop) :
  rests crc32 frames bt np o p -> forest_wf bt kmax emax h o -> (h < MAX_TREE_HEIGHT)%nat -> (28 < frames)%nat ->
  (forall v p', kv_get key (contents_of o) = Some v -> stands_for np (kv_delete key (contents_of o)) p' -> Q true p') ->
  (forall p', kv_get key (contents_of o) = None -> stands_for np (contents_of o) p' -> Q false p') ->
  runs (tree_delete crc32 bt key) p Q.
Proof.
  intros Hd W Hh F K1 K0. pose proof (rests_header crc32 frames bt np o p Hd) as Ee. unfold MAX_TREE_HEIGHT in Hh.
  apply (scoped_runs crc32 frames np _ _ _ _ Hd); [by rewrite guards_of_cons, slots_of_guards|]. apply runs_bind.
  rule fetch_write_runs Hd; [rewrite slots_of_guards; cbn; lia|]. intros g p1 Eg Hd1. apply runs_bind. reads read_header_at_runs Hd1. rewrite Ee.
  destruct o as [t|].
  - cbn [root_id root_page_id slots_of contents_of forest_wf] in *. apply runs_bind.
    apply (holds_perm _ _ _ _ (along bt Free [] t ++ [header_slot (root t) (Writes g)])) in Hd1; [|rewrite along_top; unfold BWalk.header_slot; perm].
    rewrite along_app in Hd1. rule fetch_write_runs Hd1; [room|]. intros g1 p2 Eg1 Hd2.
    apply (descend_write_runs crc32 frames bt kmax emax crc32_u32 Sizes _ _ tests_delete _ np key MAX_TREE_HEIGHT h [] t g1 [] (Some g) (Writes g)); try done;
      [apply spine_root|apply within_top|cbn; unfold MAX_TREE_HEIGHT, MAX_WRITE_SET_DEPTH; lia..|].
    intros path q n g' gs hg hl p3 Ep El W' Pw Sp Wi Hd3. change (plug [] t) with t in Ep, Hd3. rewrite <- Ep in K1, K0, Hd3. cbn [length Nat.add] in El.
    apply (delete_from_leaf_runs np key path q n g' gs hg hl); try done; [lia| |].
    + intros v p' Ev L. eapply leaves_forest_free; [exact L|]. intros p''. by apply (K1 v).
    + intros p' Ev L. eapply leaves_forest_free; [exact L|]. intros p''. by apply K0.
  - apply runs_ret. eexists np, _. split; [exact Hd1|]. intros p'' Hd''. apply (K0 p'' eq_refl). exists None, h. by split_and!.
Qed.

End erase.
