(* ===== verification/BScan.v ===== *)
(** Range scans of the B+tree and the storage engine over it
    (crates/idb-storage/src/engines/btree/{iterator,engine}.rs and the scans of
    tree.rs).

    A scan loads a page at a time; [BTreeScanIterator] is its state between two
    calls of [next], whose loop loads at most [MAX_SCAN_PAGES] pages. *)

From Stdlib Require Import ZArith Lia List Bool.
From S2P Require Import Prelude Common Engine Page BNode BLayout Pool BTree.
From coqutil Require Import Byte.
From stdpp Require Import base list strings.
#[local] Open Scope Z_scope.

Definition MAX_SCAN_PAGES : nat := Z.to_nat 10000.

Record BTreeScanIterator := mkScan {
  current_page_id : PageId;
  buffer : list entry;
  start_bound : Bound;
  end_bound : Bound;
  first_page : bool;
  pages_visited : nat;
  done : bool
}.

Definition scan_new (start : PageId) (lo hi : Bound) : BTreeScanIterator :=
  mkScan start [] lo hi true 0 (start =? INVALID_PAGE).

Definition finish (it : BTreeScanIterator) : BTreeScanIterator :=
  mkScan (current_page_id it) (buffer it) (start_bound it) (end_bound it) (first_page it) (pages_visited it) true.

Definition before_start (lo : Bound) (key : bytes) : bool :=
  match lo with Included s => bltb key s | Excluded s => bleb key s | Unbounded => false end.
Definition past_end (hi : Bound) (key : bytes) : bool :=
  match hi with Included e => bltb e key | Excluded e => bleb e key | Unbounded => false end.

(** The loop over the live entries of a page: what is collected, and whether the
    end of the range was met. *)
Fixpoint collect_page (fuel : nat) (e : EncodedLeaf) (pos : EncodedLeafEntries) (first : bool) (lo hi : Bound)
    : result (list entry * bool) :=
  match fuel with
  | O => Panic
  | S fuel =>
      '(item, pos) ← encoded_next e pos;
      match item with
      | None => Ok ([], false)
      | Some (key, value) =>
          if first && before_start lo key then collect_page fuel e pos first lo hi else
          if past_end hi key then Ok ([], true) else
          '(rest, hit) ← collect_page fuel e pos first lo hi;
          Ok ((key, value) :: rest, hit)
      end
  end.

Section scan.
Context {P : Type} `{BufferPool P} (crc32 : bytes -> Z).

(** [load_next_page], with the iterator as it leaves it. *)
Definition load_next_page (it : BTreeScanIterator) : M P BTreeScanIterator := scoped (
  (if (current_page_id it =? INVALID_PAGE) || done it then pure Panic else mret tt);;
  if (MAX_SCAN_PAGES <=? pages_visited it)%nat then pure (Err (StorageCorrupted "Scan exceeded 10000 pages")) else
  g ← fetch_page_read (current_page_id it);
  ty ← node_type_of g;
  match ty with
  | Internal => pure (Err (StorageCorrupted "Expected leaf at page, got internal"))
  | Leaf =>
      b ← page_of g;
      leaf ← pure (encoded_leaf_parse crc32 b);
      ok ← pure (tombstones_in_range leaf);
      if negb ok then pure (Err (StorageCorrupted "Leaf has an out-of-range tombstone index")) else
      page_count ← gets disk_page_count;
      let next := el_next_page_id leaf in
      if negb (next =? INVALID_PAGE) && (page_count <=? next) then pure (Err (StorageCorrupted "Leaf next_page_id out of range")) else
      '(entries, hit_end_bound) ← pure (collect_page (S (el_size leaf)) leaf (encoded_live_entries leaf)
                                          (first_page it) (start_bound it) (end_bound it));
      drop_guard g;;
      mret (mkScan (if (hit_end_bound : bool) then INVALID_PAGE else next) entries (start_bound it) (end_bound it) false
              (S (pages_visited it)) (done it))
  end).

(** [next]: every turn of the loop but the last loads a page, and after
    [MAX_SCAN_PAGES] of them loading fails.  The buffer is kept in order. *)
Fixpoint scan_loop (fuel : nat) (it : BTreeScanIterator) : M P (option (result entry) * BTreeScanIterator) :=
  match buffer it with
  | e :: rest => mret (Some (Ok e), mkScan (current_page_id it) rest (start_bound it) (end_bound it) (first_page it) (pages_visited it) (done it))
  | [] =>
      if done it then mret (None, it) else
      if current_page_id it =? INVALID_PAGE then mret (None, finish it) else
      match fuel with
      | O => pure Panic
      | S fuel => fun p =>
          match load_next_page it p with
          | (Ok it', p') => scan_loop fuel it' p'
          | (Err e, p') => (Ok (Some (Err e), finish it), p')
          | (Panic, p') => (Panic, p')
          end
      end
  end.

Definition scan_next (it : BTreeScanIterator) : M P (option (result entry) * BTreeScanIterator) :=
  scan_loop (S MAX_SCAN_PAGES - pages_visited it) it.

(** [BTree::scan] *)
Definition tree_scan (t : BTree) (lo hi : Bound) : M P BTreeScanIterator :=
  start ← match lo with
          | Unbounded => get_first_leaf crc32 t
          | Included key | Excluded key => find_leaf crc32 t key
          end;
  mret (scan_new (default INVALID_PAGE start) lo hi).

(** A consumer that takes everything the iterator has; [n] bounds the calls. *)
Fixpoint scan_collect (n : nat) (it : BTreeScanIterator) : M P (list (result entry)) :=
  match n with
  | O => pure Panic
  | S n =>
      '(item, it') ← scan_next it;
      match item with
      | None => mret []
      | Some r => rest ← scan_collect n it'; mret (r :: rest)
      end
  end.

Fixpoint count_loop (fuel : nat) (current : PageId) (count : nat) : M P nat :=
  match fuel with
  | O => mret count
  | S fuel =>
      if current =? INVALID_PAGE then mret count else
      leaf ← read_leaf crc32 current;
      count_loop fuel (next_page_id leaf) (S count)
  end.

(** [count_leaves], which stops at ten thousand. *)
Definition count_leaves (t : BTree) : M P nat := scoped (
  first ← get_first_leaf crc32 t;
  match first with None => mret 0%nat | Some i => count_loop (Z.to_nat 10000) i 0 end).
End scan.

(** ** The engine *)

Record BTreeEngine (P : Type) := mkEngine {
  bpm : P;
  e_header_page_id : PageId;
  e_leaf_max_size : Z;
  e_internal_max_size : Z;
  e_max_tombstones : nat;
  key_count : Z;
  data_size : Z
}.
Arguments mkEngine {P}.
Arguments bpm {P}.
Arguments e_header_page_id {P}.
Arguments e_leaf_max_size {P}.
Arguments e_internal_max_size {P}.
Arguments e_max_tombstones {P}.
Arguments key_count {P}.
Arguments data_size {P}.

Definition set_bpm {P} (p : P) (e : BTreeEngine P) : BTreeEngine P :=
  mkEngine p (e_header_page_id e) (e_leaf_max_size e) (e_internal_max_size e) (e_max_tombstones e) (key_count e) (data_size e).

(** [fetch_add] and [fetch_sub] wrap around. *)
Definition add_counts {P} (keys size : Z) (e : BTreeEngine P) : BTreeEngine P :=
  mkEngine (bpm e) (e_header_page_id e) (e_leaf_max_size e) (e_internal_max_size e) (e_max_tombstones e)
    (as_unsigned 64 (key_count e + keys)) (as_unsigned 64 (data_size e + size)).

Definition LEAF_BUDGET : Z := PAGE_SIZE - LEAF_HEADER_SIZE - MAX_TOMBSTONES * 2 - 4.

Record StorageStatus := mkStatus { st_keys : Z; st_size : Z; disk_size : Z; live_disk_size : Z; st_tombstones : Z }.

Section engine.
Context {P : Type} `{BufferPool P} (crc32 : bytes -> Z).

Definition on_pool {A} (m : M P A) : M (BTreeEngine P) A := zoom bpm set_bpm m.

Definition engine_build (p : P) (leaf_max internal_max : Z) (tombs : nat) : result (BTreeEngine P) :=
  match scoped (g ← new_page; edit_page g (fun b => header_encode crc32 header_page_new b);; mret (page_id g)) p with
  | (Ok header, p') => Ok (mkEngine p' header leaf_max internal_max tombs 0 0)
  | (Err e, _) => Err e
  | (Panic, _) => Panic
  end.

Definition btree_engine_with_sizes (p : P) (leaf_max internal_max : Z) (tombs : nat) : result (BTreeEngine P) :=
  engine_build p leaf_max internal_max tombs.

(** Page 0 looks like a header when one of its first 16 bytes is set. *)
Definition open_existing (p : P) (leaf_max internal_max : Z) : result (BTreeEngine P) :=
  let '(r, p') := scoped (g ← fetch_page_read 0; b ← page_of g; mret (existsb (fun x => negb (u8 x =? 0)) (take 16 b))) p in
  match r with
  | Ok true => Ok (mkEngine p' 0 leaf_max internal_max 0 0 0)
  | Ok false | Err _ => engine_build p' leaf_max internal_max 0
  | Panic => Panic
  end.

Definition btree_engine_new (p : P) : result (BTreeEngine P) :=
  let leaf_max := calculate_leaf_max_size DEFAULT_AVG_KEY_SIZE DEFAULT_AVG_VALUE_SIZE in
  let internal_max := calculate_internal_max_size DEFAULT_AVG_KEY_SIZE in
  if 0 <? disk_page_count p then open_existing p leaf_max internal_max else engine_build p leaf_max internal_max 0.

(** [tree()] *)
Definition engine_tree (e : BTreeEngine P) : result BTree :=
  if (0 <? e_max_tombstones e)%nat
  then with_tombstones (e_header_page_id e) (e_leaf_max_size e) (e_internal_max_size e) (e_max_tombstones e)
  else with_sizes (e_header_page_id e) (e_leaf_max_size e) (e_internal_max_size e).

Definition the_tree : M (BTreeEngine P) BTree := e ← gets id; pure (engine_tree e).

Definition btree_get (key : bytes) : M (BTreeEngine P) (option bytes) := t ← the_tree; on_pool (tree_get crc32 t key).

Definition btree_put (key value : bytes) : M (BTreeEngine P) unit :=
  if LEAF_BUDGET <? len key + len value then pure (Err (ValueTooLarge (len value))) else
  t ← the_tree;
  inserted ← on_pool (tree_insert crc32 t key value);
  if (inserted : bool) then modify (add_counts 1 (len key + len value)) else
  old ← on_pool (tree_get crc32 t key);
  let old_value_size := match old with Some v => len v | None => 0 end in
  on_pool (tree_delete crc32 t key);;
  reinserted ← on_pool (tree_insert crc32 t key value);
  (if (reinserted : bool) then mret tt else pure Panic);;
  modify (add_counts 0 (- old_value_size));;
  modify (add_counts 0 (len value)).

Definition btree_delete (key : bytes) : M (BTreeEngine P) unit :=
  t ← the_tree;
  old ← on_pool (tree_get crc32 t key);
  let entry_size := match old with Some v => len key + len v | None => 0 end in
  deleted ← on_pool (tree_delete crc32 t key);
  if (deleted : bool) then modify (add_counts (-1) (- entry_size)) else mret tt.

(** [scan_range] and a consumer of all of it; an error of the descent is the one
    item of the scan. *)
Definition btree_scan_range (n : nat) (lo hi : Bound) : M (BTreeEngine P) (list (result entry)) := fun e =>
  match (t ← the_tree; on_pool (tree_scan crc32 t lo hi)) e with
  | (Ok it, e') => on_pool (scan_collect crc32 n it) e'
  | (Err err, e') => (Ok [Err err], e')
  | (Panic, e') => (Panic, e')
  end.

Definition btree_status (e : BTreeEngine P) : StorageStatus :=
  let d := disk_page_count (bpm e) * PAGE_SIZE in mkStatus (key_count e) (data_size e) d d 0.

Definition btree_flush : M (BTreeEngine P) unit := on_pool flush_all_pages.
End engine.
