(* ===== verification/BRange.v ===== *)
(** Range scans of the B+tree: an iterator yields the entries of the map in the
    range, in key order, and the tree is left as it was. *)

From Stdlib Require Import ZArith Lia List Bool.
From S2P Require Import Prelude Common Engine Page BNode BNodeSpec BLayout BPages Pool BTree BShape BHeap BSlots BWalk BPath BScan.
From AAC_tactics Require Import AAC.
From coqutil Require Import Byte.
From stdpp Require Import base list strings sorting.
#[local] Open Scope Z_scope.

(** The entries up to the end of a range, and whether one past it was met. *)
Fixpoint upto (hi : Bound) (l : list entry) : list entry * bool :=
  match l with
  | [] => ([], false)
  | e :: l => if past_end hi e.1 then ([], true) else let '(r, hit) := upto hi l in (e :: r, hit)
  end.

Definition started (first : bool) (lo : Bound) (e : entry) : bool := negb (first && before_start lo e.1).
Definition in_end (hi : Bound) (e : entry) : bool := negb (past_end hi e.1).

(** What an iterator that is to read these leaves has still to yield. *)
Definition ahead (first : bool) (lo hi : Bound) (ls : list (PageId * LeafNode)) : list entry :=
  match ls with
  | [] => []
  | (_, n) :: ls => List.filter (in_end hi) (List.filter (started first lo) (live_entries n) ++ leaf_contents ls)
  end.

Definition yields (it : BTreeScanIterator) (ls : list (PageId * LeafNode)) : list entry :=
  buffer it ++ ahead (first_page it) (start_bound it) (end_bound it) ls.

(** A pool whose iterator has these leaves of a tree to read. *)
Definition scans (t : tree) (it : BTreeScanIterator) (ls : list (PageId * LeafNode)) : Prop :=
  (exists pre, leaves t = pre ++ ls) /\ current_page_id it = first_of ls INVALID_PAGE /\ (pages_visited it + length ls <= MAX_SCAN_PAGES)%nat /\
  (done it = true -> ls = []).

Lemma past_end_below hi k : past_end hi k = negb (below hi k).
Proof.
  destruct hi as [b|b|]; cbn; [| |done]; unfold bltb, bleb; [destruct (decide (blt b k)) as [B|B]|destruct (decide (ble b k)) as [B|B]].
  - rewrite bool_decide_true by done. by rewrite bool_decide_false by by apply blt_not_ble.
  - rewrite bool_decide_false by done. by rewrite bool_decide_true by by apply ble_not_lt.
  - rewrite bool_decide_true by done. by rewrite bool_decide_false by by apply ble_not_lt.
  - rewrite bool_decide_false by done. by rewrite bool_decide_true by by apply blt_not_ble.
Qed.

Lemma before_start_above lo k : before_start lo k = negb (above lo k).
Proof. destruct lo as [b|b|]; [apply (past_end_below (Included k) b)|apply (past_end_below (Excluded k) b)|done]. Qed.

Lemma past_end_mono hi a b : blt a b -> past_end hi a = true -> past_end hi b = true.
Proof.
  intros Hab. destruct hi as [e|e|]; cbn; [| |done]; rewrite ?bltb_spec, ?bleb_spec; intros Ha.
  - by eapply blt_trans.
  - apply blt_ble. by eapply ble_blt_trans.
Qed.

Lemma in_end_none hi (e : entry) (l : list entry) : Forall (fun x => blt e.1 x.1) l -> past_end hi e.1 = true -> List.filter (in_end hi) l = [].
Proof. intros F E. induction F as [|x l Hx _ IH]; [done|]. cbn. unfold in_end at 1. by rewrite (past_end_mono hi e.1 x.1). Qed.

Lemma upto_filter hi l l' : keys_sorted (l ++ l') ->
  (upto hi l).1 = List.filter (in_end hi) l /\ ((upto hi l).2 = true -> List.filter (in_end hi) l' = []).
Proof.
  induction l as [|e l IH]; intros So; [done|]. inversion So as [|? ? So' Fo]; subst. cbn [upto]. unfold in_end at 1. cbn [List.filter].
  change (in_end hi e) with (negb (past_end hi e.1)). destruct (past_end hi e.1) eqn:E; cbn [negb fst snd].
  - apply Forall_app in Fo as [F1 F2]. by rewrite !(in_end_none hi e).
  - destruct (IH So') as [IH1 IH2]. destruct (upto hi l) as [r hit]. cbn [fst snd] in *. by rewrite IH1.
Qed.

Lemma collect_page_ok e dead first lo hi fuel : forall keys values pos,
  stands e dead pos keys values -> (length keys < fuel)%nat ->
  collect_page fuel e pos first lo hi = Ok (upto hi (List.filter (started first lo) (live_from (physical_index pos) dead keys values))).
Proof.
  induction fuel as [|fuel IH]; intros keys values pos St L; [lia|]. pose proof (encoded_next_ok e dead keys values pos St) as N. cbn [collect_page].
  destruct (live_from (physical_index pos) dead keys values) as [|[k v] rest].
  - destruct N as (it' & ->). done.
  - destruct N as (it' & ks & vs & -> & St' & Ls & Er). cbn [mbind outcome_bind]. unfold started at 1. cbn [List.filter fst].
    change (started first lo (k, v)) with (negb (first && before_start lo k)). rewrite (IH ks vs it' St') by lia. rewrite Er.
    destruct (first && before_start lo k); cbn [negb]; [done|]. cbn [upto fst]. destruct (past_end hi k); [done|].
    cbn [mbind outcome_bind]. by destruct (upto hi _).
Qed.

Lemma filter_all {A} (f : A -> bool) l : Forall (fun x => f x = true) l -> List.filter f l = l.
Proof. induction 1 as [|x l E _ IH]; [done|]. cbn. by rewrite E, IH. Qed.

Lemma filter_empty {A} (f : A -> bool) l : Forall (fun x => f x = false) l -> List.filter f l = [].
Proof. induction 1 as [|x l E _ IH]; [done|]. cbn. by rewrite E, IH. Qed.

Lemma ahead_later lo hi ls : ahead false lo hi ls = List.filter (in_end hi) (leaf_contents ls).
Proof. destruct ls as [|[i n] ls]; [done|]. cbn [ahead]. by rewrite (filter_all (started false lo)) by by apply Forall_forall. Qed.

Lemma ahead_page first lo hi i n post es hit :
  keys_sorted (leaf_contents ((i, n) :: post)) -> upto hi (List.filter (started first lo) (live_entries n)) = (es, hit) ->
  ahead first lo hi ((i, n) :: post) = es ++ ahead false lo hi (if hit then [] else post).
Proof.
  intros So Eu. cbn [ahead]. rewrite List.filter_app, ahead_later.
  assert (So' : keys_sorted (List.filter (started first lo) (live_entries n) ++ leaf_contents post)).
  { change (leaf_contents ((i, n) :: post)) with (live_entries n ++ leaf_contents post) in So. apply keys_sorted_app in So as (S1 & S2 & S3). apply keys_sorted_app.
    split_and!; [by apply keys_sorted_filter|done|]. intros x y Hx Hy. apply elem_of_filterb in Hx as [Hx _]. by apply S3. }
  apply (upto_filter hi) in So' as [E1 E2]. rewrite Eu in E1, E2. cbn [fst snd] in *. rewrite <- E1. f_equal. destruct hit; [by apply E2|done].
Qed.

Section range.
Context {P : Type} `{BufferPool P} (crc32 : bytes -> Z) (frames : nat) (bt : BTree) (kmax emax : Z).
Hypothesis crc32_u32 : forall b, in_u32 (crc32 b) = true.
Hypothesis Sizes : sizes_ok bt kmax emax.

Abbreviation wf := (wf bt kmax emax).
Abbreviation holds := (holds crc32 frames).
Abbreviation rests := (rests crc32 frames bt).

Lemma leaves_wf h : forall least lo hi t q n, wf h least lo hi t -> (q, n) ∈ leaves t -> exists lo' hi', leaf_wf bt kmax emax lo' hi' n.
Proof.
  induction h as [|h IH]; intros least lo hi [q' n'|q' kids] q n W E; try done.
  - cbn in E. apply list_elem_of_singleton in E. injection E as -> ->. eauto.
  - destruct W as (_ & _ & Sp). cbn [leaves] in E. clear least. revert lo Sp E. induction kids as [|[k c] kids IHk]; intros lo Sp E; [by apply not_elem_of_nil in E|].
    destruct Sp as [Wc Sp]. apply elem_of_app in E as [E|E]; [by eapply IH|by eapply IHk].
Qed.

Lemma link_next_range np a i n post X p :
  holds np (X ++ link INVALID_PAGE (a ++ (i, n) :: post) INVALID_PAGE) p ->
  first_of post INVALID_PAGE <> INVALID_PAGE -> first_of post INVALID_PAGE < np.
Proof.
  intros Hd N. destruct post as [|[j m] post]; [done|]. rewrite link_mid in Hd. cbn [first_of link] in *. front j Hd. apply holds_range in Hd. cbn in Hd. lia.
Qed.

Lemma load_next_runs np t h it i n post p (Q : BTreeScanIterator -> P -> Prop) :
  rests np (Some t) p -> wf h 2 [] None t -> (0 < frames)%nat -> scans t it ((i, n) :: post) ->
  (forall es hit p', rests np (Some t) p' ->
     upto (end_bound it) (List.filter (started (first_page it) (start_bound it)) (live_entries n)) = (es, hit) ->
     Q (mkScan (if (hit : bool) then INVALID_PAGE else first_of post INVALID_PAGE) es (start_bound it) (end_bound it) false (S (pages_visited it)) (done it)) p') ->
  runs (load_next_page crc32 it) p Q.
Proof.
  intros Hd W F ([pre Ep] & Ec & Lp & Dn) K. cbn [first_of length] in Ec, Lp.
  apply (scoped_runs crc32 frames np _ _ _ _ Hd); [by rewrite guards_of_cons, slots_of_guards|].
  assert (Dn' : done it = false) by (destruct (done it); [by specialize (Dn eq_refl)|done]).
  assert (Hl : (i, n) ∈ leaves t) by (rewrite Ep; apply elem_of_app; right; apply list_elem_of_here).
  destruct (leaves_wf h _ _ _ _ i n W Hl) as (lo' & hi' & r & [[[Ek Ev M Sh] _] _ _ _] & _).
  unfold BWalk.rests in Hd. cbn [slots_of] in Hd. unfold tree_slots in Hd. rewrite app_comm_cons in Hd. rewrite Ep in Hd.
  pose proof (link_next_range np pre i n post _ p Hd) as Nr. rewrite link_mid in Hd. front i Hd. pose proof (holds_ids _ _ _ _ _ Hd) as Hi.
  apply Forall_cons in Hi as [Hi _]. cbn [s_page] in Hi. rewrite Dn' in K |- *. rewrite Ec. destruct (Z.eqb_spec i INVALID_PAGE); [lia|]. cbn [orb].
  apply runs_bind, runs_ret. rewrite (proj2 (Nat.leb_gt _ _)) by lia. apply runs_bind. rule fetch_read_runs Hd; [room|]. intros g p1 Eg Hd1.
  apply runs_bind. reads node_type_leaf_runs Hd1. apply runs_bind. eapply page_of_runs; [exact Hd1|apply list_elem_of_here|]. intros b Sb. cbn [s_content] in Sb.
  set (m := relink (last_of INVALID_PAGE pre) (first_of post INVALID_PAGE) n) in *.
  destruct (encoded_leaf_parse_ok crc32 crc32_u32 m b Sb) as (e & E1 & E2 & E3 & E4 & E5).
  { cbn. rewrite Ek. apply Forall_forall. intros x Hx. pose proof (marks_range _ _ _ M Hx). unfold len in *. rewrite row_keys_length. lia. }
  apply runs_bind, (runs_pure _ e); [done|]. apply runs_bind, (runs_pure _ true); [done|]. cbn [negb].
  apply runs_bind. unfold runs at 1, gets. rewrite page_count_ok by apply Hd1. rewrite (hd_pages _ _ _ _ _ Hd1), E2. cbn [next_page_id relink m].
  replace (negb (first_of post INVALID_PAGE =? INVALID_PAGE) && (np <=? first_of post INVALID_PAGE)) with false.
  2: { destruct (Z.eqb_spec (first_of post INVALID_PAGE) INVALID_PAGE); [done|]. specialize (Nr ltac:(done)). cbn [negb andb]. symmetry. apply Z.leb_gt. lia. }
  rewrite (collect_page_ok e _ _ _ _ _ _ _ _ E5) by (rewrite E3; lia). change (live_from _ _ _ _) with (live_entries n).
  destruct (upto _ _) as [es hit] eqn:Eu. apply runs_bind, (runs_pure _ (es, hit)); [done|]. apply runs_bind. rule drop_runs Hd1; [done|]. intros p2 Hd2.
  apply runs_ret. eexists np, _. split; [exact Hd2|]. intros p3 Hd3. apply (K es hit); [|done]. unfold BWalk.rests. eapply holds_perm; [exact Hd3|].
  cbn [slots_of]. unfold tree_slots. rewrite Ep, link_mid. rewrite free_cons, free_id by (autorewrite with room; done). unfold m. rewrite free_slot. perm.
Qed.

Lemma scan_loop_runs np t h fuel : forall ls it p (Q : option (result entry) * BTreeScanIterator -> P -> Prop),
  rests np (Some t) p -> wf h 2 [] None t -> (0 < frames)%nat -> scans t it ls -> (length ls < fuel)%nat ->
  (yields it ls = [] -> forall it' p', rests np (Some t) p' -> Q (None, it') p') ->
  (forall e ys it' ls' p', yields it ls = e :: ys -> yields it' ls' = ys -> scans t it' ls' -> rests np (Some t) p' -> Q (Some (Ok e), it') p') ->
  runs (scan_loop crc32 fuel it) p Q.
Proof.
  induction fuel as [|fuel IH]; intros ls it p Q Hd W F Sc L K0 K1; [lia|]. cbn [scan_loop]. unfold yields in *.
  destruct (buffer it) as [|e rest] eqn:Eb.
  2: { apply runs_ret. eapply (K1 e _ _ ls); [done|done| |done]. exact Sc. }
  cbn [app] in *. pose proof Sc as ([pre Ep] & Ec & Lp & Dn). destruct (done it) eqn:Ed.
  { apply runs_ret. apply K0; [|done]. by rewrite (Dn eq_refl). }
  destruct ls as [|[i n] post].
  { rewrite Ec, Z.eqb_refl. apply runs_ret. by apply K0. }
  assert (Ni : i <> INVALID_PAGE).
  { unfold BWalk.rests in Hd. cbn [slots_of] in Hd. unfold tree_slots in Hd. rewrite Ep, link_mid in Hd. front i Hd. apply holds_ids in Hd. apply Forall_cons in Hd as [Hd _].
    cbn in Hd. lia. }
  rewrite Ec. cbn [first_of]. destruct (Z.eqb_spec i INVALID_PAGE); [done|].
  assert (So : keys_sorted (leaf_contents ((i, n) :: post))).
  { pose proof (wf_sorted bt kmax emax h _ _ _ _ Sizes W) as So. unfold contents in So. rewrite Ep, leaf_contents_app in So. by apply keys_sorted_app in So as (_ & So & _). }
  assert (R : runs (load_next_page crc32 it) p (fun it' p' => exists es hit, rests np (Some t) p' /\
     upto (end_bound it) (List.filter (started (first_page it) (start_bound it)) (live_entries n)) = (es, hit) /\
     it' = mkScan (if (hit : bool) then INVALID_PAGE else first_of post INVALID_PAGE) es (start_bound it) (end_bound it) false (S (pages_visited it)) (done it))).
  { apply (load_next_runs np t h it i n post p _ Hd W F Sc). intros es hit p' Hd' Eu. by exists es, hit. }
  apply runs_eq in R as (it' & p' & E & es & hit & Hd' & Eu & Ei).
  unfold runs. rewrite E. pose proof (ahead_page _ _ _ i n post es hit So Eu) as Ea. rewrite Ea in K0, K1.
  apply (IH (if hit then [] else post)); try done.
  - rewrite Ei. split_and!; cbn in *.
    + destruct hit; [exists (leaves t); by rewrite app_nil_r|]. exists (pre ++ [(i, n)]). by rewrite <- app_assoc.
    + by destruct hit.
    + destruct hit; cbn; lia.
    + by rewrite Ed.
  - cbn in L. destruct hit; cbn; lia.
  - intros Ey. apply K0. rewrite <- Ey, Ei. done.
  - intros e ys it2 ls2 p2 Ey. apply (K1 e ys it2 ls2 p2). rewrite <- Ey, Ei. done.
Qed.

Lemma scan_collect_runs np t h n : forall ls it p (Q : list (result entry) -> P -> Prop),
  rests np (Some t) p -> wf h 2 [] None t -> (0 < frames)%nat -> scans t it ls -> (length (yields it ls) < n)%nat ->
  (forall p', rests np (Some t) p' -> Q (map Ok (yields it ls)) p') -> runs (scan_collect crc32 n it) p Q.
Proof.
  induction n as [|n IH]; intros ls it p Q Hd W F Sc L K; [lia|]. cbn [scan_collect]. apply runs_bind. pose proof Sc as (_ & _ & Lp & _).
  apply (scan_loop_runs np t h _ ls); try done; [lia| |].
  - intros Ey it' p' Hd'. apply runs_ret. rewrite Ey in K. by apply K.
  - intros e ys it' ls' p' Ey Ey' Sc' Hd'. rewrite Ey in K, L. apply runs_bind. apply (IH ls' it' p'); try done; [rewrite Ey'; cbn in L; lia|].
    intros p2 Hd2. apply runs_ret. rewrite Ey'. by apply K.
Qed.

(** Where a scan starts. *)
Lemma start_runs pick I np o h p (Q : option PageId -> P -> Prop) :
  picks bt kmax emax pick I -> I [] -> rests np o p -> forest_wf bt kmax emax h o -> (h < MAX_TREE_HEIGHT)%nat -> (1 < frames)%nat ->
  (o = None -> forall p', rests np None p' -> Q None p') ->
  (forall t path q n p', o = Some t -> plug path (TLeaf q n) = t -> path_wf bt kmax emax 0 path -> I path -> rests np (Some t) p' -> Q (Some q) p') ->
  runs (page_of_guard (find_from_root crc32 bt pick)) p Q.
Proof.
  intros Hp I0 Hd W Hh F K0 K1. apply (scoped_runs crc32 frames np _ _ _ _ Hd); [by rewrite guards_of_cons, slots_of_guards|]. apply runs_bind.
  apply (find_from_root_runs crc32 frames bt kmax emax crc32_u32 pick I np o h p _ Hp I0 Hd W Hh F).
  - intros -> p' Hd'. apply runs_ret. eexists np, _. split; [exact Hd'|]. intros p'' Hd''. by apply K0.
  - intros t path q n g p' -> E W' Pw Ip Hd' Eq. apply runs_ret. cbn. rewrite Eq. eexists np, _. split; [exact Hd'|]. intros p'' Hd''.
    apply (K1 t path q n); try done. rewrite <- E. by apply (along_rests crc32 frames bt np (Reads g) path (TLeaf q n) (root t)); [|rewrite E].
Qed.

Lemma scan_split lo hi (a b c : list entry) :
  Forall (fun e => above lo e.1 = false) a -> Forall (fun e => above lo e.1 = true) c ->
  List.filter (in_end hi) (List.filter (started true lo) b ++ c) = kv_scan lo hi (a ++ b ++ c).
Proof.
  intros Fa Fc. assert (E : forall l, kv_scan lo hi l = List.filter (in_end hi) (List.filter (started true lo) l)).
  { induction l as [|e l IH]; [done|]. unfold kv_scan in *. cbn [List.filter]. unfold started, in_end at 1. cbn [andb].
    rewrite before_start_above, negb_involutive, IH. destruct (above lo e.1); [|done]. cbn [List.filter andb]. unfold in_end at 2.
    by rewrite past_end_below, negb_involutive. }
  rewrite E, !List.filter_app. rewrite (filter_empty (started true lo) a), (filter_all (started true lo) c); [done| |].
  - eapply Forall_impl; [exact Fc|]. intros e He. unfold started. by rewrite before_start_above, He.
  - eapply Forall_impl; [exact Fa|]. intros e He. unfold started. by rewrite before_start_above, He.
Qed.

Lemma leftmost_leaves path : leftmost path -> leavesL path = [].
Proof. induction 1 as [|f fs E _ IH]; [done|]. cbn. by rewrite E, IH. Qed.

Lemma tree_scan_runs np o h lo hi p (Q : BTreeScanIterator -> P -> Prop) :
  rests np o p -> forest_wf bt kmax emax h o -> (h < MAX_TREE_HEIGHT)%nat -> (1 < frames)%nat ->
  (o = None -> forall p', rests np None p' -> Q (scan_new INVALID_PAGE lo hi) p') ->
  (forall t q n post p', o = Some t -> (exists pre, leaves t = pre ++ (q, n) :: post) ->
     yields (scan_new q lo hi) ((q, n) :: post) = kv_scan lo hi (contents t) -> rests np (Some t) p' -> Q (scan_new q lo hi) p') ->
  runs (tree_scan crc32 bt lo hi) p Q.
Proof.
  intros Hd W Hh F K0 K1. apply runs_bind.
  assert (Go : forall pick I, picks bt kmax emax pick I -> I [] ->
    (forall path, path_wf bt kmax emax 0 path -> I path -> Forall (fun e : entry => above lo e.1 = false) (leaf_contents (leavesL path)) /\
       Forall (fun e : entry => above lo e.1 = true) (leaf_contents (leavesR path))) ->
    runs (page_of_guard (find_from_root crc32 bt pick)) p (fun s p' => runs (mret (scan_new (default INVALID_PAGE s) lo hi)) p' Q)).
  { intros pick I Hp I0 HI. apply (start_runs pick I np o h p _ Hp I0 Hd W Hh F).
    - intros E p' Hd'. apply runs_ret. by apply K0.
    - intros t path q n p' E Ep Pw Ip Hd'. apply runs_ret. destruct (HI path Pw Ip) as [H1 H2]. apply (K1 t q n (leavesR path)); try done.
      + exists (leavesL path). by rewrite <- Ep, leaves_plug.
      + rewrite <- Ep, contents_plug. unfold yields. cbn [buffer scan_new first_page start_bound end_bound app ahead]. by apply scan_split. }
  destruct lo as [key|key|].
  - apply (Go _ _ (picks_key bt kmax emax Sizes key) (within_top key)). intros path Pw Ip. destruct (path_around bt kmax emax path 0 key Sizes Pw Ip) as [A1 A2].
    split; [eapply Forall_impl; [exact A1|]|eapply Forall_impl; [exact A2|]]; intros e He; cbn in *.
    + apply bool_decide_false. by apply blt_not_ble.
    + by apply bleb_spec, blt_ble.
  - apply (Go _ _ (picks_key bt kmax emax Sizes key) (within_top key)). intros path Pw Ip. destruct (path_around bt kmax emax path 0 key Sizes Pw Ip) as [A1 A2].
    split; [eapply Forall_impl; [exact A1|]|eapply Forall_impl; [exact A2|]]; intros e He; cbn in *.
    + apply bool_decide_false. intros Hb. by apply (blt_irrefl key), (blt_trans _ e.1).
    + by apply bltb_spec.
  - apply (Go _ _ (picks_first bt kmax emax Sizes)); [by constructor|]. intros path Pw Ip. rewrite leftmost_leaves by done. split; [done|]. by apply Forall_forall.
Qed.

(** A scan and a consumer of all of it. *)
Lemma range_runs np o h n lo hi p (Q : list (result entry) -> P -> Prop) :
  rests np o p -> forest_wf bt kmax emax h o -> (h < MAX_TREE_HEIGHT)%nat -> (1 < frames)%nat ->
  (forall t, o = Some t -> (length (leaves t) <= MAX_SCAN_PAGES)%nat) -> (length (kv_scan lo hi (contents_of o)) < n)%nat ->
  (forall p', rests np o p' -> Q (map Ok (kv_scan lo hi (contents_of o))) p') ->
  runs (it ← tree_scan crc32 bt lo hi; scan_collect crc32 n it) p Q.
Proof.
  intros Hd W Hh F Lm Ln K. apply runs_bind, (tree_scan_runs np o h lo hi p _ Hd W Hh F).
  - intros -> p' Hd'. destruct n; [cbn in Ln; lia|]. apply runs_ret. by apply K.
  - intros t q m post p' -> [pre Ep] Ey Hd'. specialize (Lm t eq_refl). rewrite Ep, length_app in Lm.
    assert (Hq : 0 <= q < INVALID_PAGE).
    { unfold BWalk.rests in Hd'. cbn [slots_of] in Hd'. unfold tree_slots in Hd'. rewrite Ep, link_mid in Hd'. front q Hd'. apply holds_ids in Hd'.
      by apply Forall_cons in Hd' as [Hd' _]. }
    apply (scan_collect_runs np t h n ((q, m) :: post)); try done; [lia| |by rewrite Ey|by rewrite Ey].
    split_and!; [by exists pre|done|cbn in *; lia|]. cbn. intros E%Z.eqb_eq. lia.
Qed.
End range.
