(* ===== verification/BEngine.v ===== *)
(** The B+tree engine: how high a tree grows, and what any sequence of calls
    makes of the map that the engine stands for. *)

From Stdlib Require Import ZArith Lia List Bool.
From S2P Require Import Prelude Common Engine Page BNode BNodeSpec BLayout BPages Pool BTree BShape BHeap BSlots BWalk BPath BInsert BErase BScan BRange.
From coqutil Require Import Byte.
From stdpp Require Import base list list_numbers strings sorting.
#[local] Open Scope Z_scope.

(** ** Calls *)

Section calls.
Context {P : Type} `{BufferPool P} (crc32 : bytes -> Z).

Definition run_btree_call (c : Call) : M (BTreeEngine P) unit :=
  match c with
  | CallPut k v => btree_put crc32 k v
  | CallDelete k => btree_delete crc32 k
  | CallFlush => btree_flush
  end.

Fixpoint run_btree_calls (cs : list Call) : M (BTreeEngine P) unit :=
  match cs with [] => mret tt | c :: rest => run_btree_call c;; run_btree_calls rest end.
End calls.

(** The map after some calls. *)
Definition map_after (cs : list Call) : list entry := fold_left (fun es c => call_store c es) cs [].

Definition call_small (kmax emax : Z) (c : Call) : Prop :=
  match c with CallPut k v => entry_small kmax emax (k, v) | _ => True end.

(** ** Height *)

Section height.
Context {P : Type} `{BufferPool P} (crc32 : bytes -> Z) (frames : nat) (bt : BTree) (kmax emax : Z).
Hypothesis crc32_u32 : forall b, in_u32 (crc32 b) = true.
Hypothesis Sizes : sizes_ok bt kmax emax.

Lemma kids_many h (IH : forall lo hi t, wf bt kmax emax h (imin bt) lo hi t -> (imin bt ^ h <= length (leaves t))%nat) lo hi kids :
  spread (wf bt kmax emax h (imin bt)) lo hi kids -> (length kids * imin bt ^ h <= length (kid_leaves kids))%nat.
Proof.
  revert lo. induction kids as [|[k t] kids IHk]; intros lo; [done|]. intros [W Sp]. specialize (IHk _ Sp). specialize (IH _ _ _ W).
  change (kid_leaves ((k, t) :: kids)) with (leaves t ++ kid_leaves kids). rewrite length_app. cbn [length]. lia.
Qed.

Lemma leaves_many h : forall lo hi t, wf bt kmax emax h (imin bt) lo hi t -> (imin bt ^ h <= length (leaves t))%nat.
Proof.
  induction h as [|h IH]; intros lo hi [q n|q kids] W; try done. destruct W as ((L & _) & _ & Sp).
  change (leaves (TNode q kids)) with (kid_leaves kids). apply (kids_many h IH) in Sp. cbn [Nat.pow]. nia.
Qed.

Lemma root_leaves_many h lo hi t : wf bt kmax emax (S h) 2 lo hi t -> (2 * imin bt ^ h <= length (leaves t))%nat.
Proof.
  destruct t as [|q kids]; [done|]. intros ((L & _) & _ & Sp). change (leaves (TNode q kids)) with (kid_leaves kids).
  apply (kids_many h (leaves_many h)) in Sp. nia.
Qed.

Lemma holds_few np cs p : holds crc32 frames np cs p -> len cs <= np.
Proof.
  intros Hd. assert (Hr : Forall (fun s => 0 <= s_page s < np) cs).
  { apply Forall_forall. intros s Hs. apply list_elem_of_split in Hs as (a & b & ->). apply (holds_perm _ _ _ _ (s :: a ++ b)) in Hd; [|by rewrite Permutation_middle].
    by apply holds_range in Hd. }
  pose proof (hd_once _ _ _ _ _ Hd) as On. pose proof (hd_pages _ _ _ _ _ Hd) as Hp. pose proof (len_nonneg (pages p)).
  assert (Hs : map s_page cs ⊆+ seqZ 0 np).
  { apply NoDup_submseteq; [done|]. intros i Hi. apply list_elem_of_fmap in Hi as (s & -> & Hi). apply elem_of_seqZ.
    pose proof (proj1 (Forall_forall _ _) Hr _ Hi) as B. cbn in B. lia. }
  apply submseteq_length in Hs. rewrite length_map, length_seqZ in Hs. unfold len. lia.
Qed.

Lemma rests_leaves np t p : rests crc32 frames bt np (Some t) p -> len (leaves t) < np.
Proof.
  intros Hd%holds_few. cbn [slots_of] in Hd. unfold tree_slots in Hd. rewrite len_cons, len_app in Hd. pose proof (len_nonneg (inner bt t)).
  assert (E : forall ls prev next, length (link prev ls next) = length ls) by (induction ls as [|[i n] ls IH]; intros; cbn; [done|by rewrite IH]).
  unfold len in *. rewrite E in Hd. lia.
Qed.

Lemma low_tree np o h p :
  rests crc32 frames bt np o p -> forest_wf bt kmax emax h o -> np <= 2 * Z.of_nat (imin bt) ^ 19 -> exists h', forest_wf bt kmax emax h' o /\ (h' < MAX_TREE_HEIGHT)%nat.
Proof.
  intros Hd W B. destruct o as [t|]; [|by exists 0%nat; split; [|unfold MAX_TREE_HEIGHT; lia]]. exists h. split; [done|]. unfold MAX_TREE_HEIGHT.
  destruct (Nat.lt_ge_cases h 20) as [|Hh]; [done|exfalso]. destruct h as [|h]; [lia|]. apply root_leaves_many in W. apply rests_leaves in Hd.
  pose proof (imin_2 bt kmax emax Sizes). pose proof (Nat.pow_le_mono_r (imin bt) 19 h ltac:(lia) ltac:(lia)) as Le.
  change 19 with (Z.of_nat 19) in B. rewrite <- Nat2Z.inj_pow in B. unfold len in Hd. lia.
Qed.
End height.

(** ** The engine *)

Lemma kv_put_delete {V} k (v : V) l : keys_sorted l -> kv_put k v (kv_delete k l) = kv_put k v l.
Proof.
  intros So. apply kv_ext; [by apply keys_sorted_put, keys_sorted_delete|by apply keys_sorted_put|]. intros k'.
  rewrite !kv_get_put, kv_get_delete. by case_bool_decide.
Qed.

Section engine.
Context {P : Type} `{BufferPool P} (crc32 : bytes -> Z) (frames : nat) (bt : BTree) (kmax emax : Z).
Hypothesis crc32_u32 : forall b, in_u32 (crc32 b) = true.
Hypothesis Sizes : sizes_ok bt kmax emax.

Abbreviation stands_for := (stands_for crc32 frames bt kmax emax).

(** An engine over a pool that stands for a map, with what its counters say. *)
Record engine_in (np : Z) (C : list entry) (keys size : Z) (e : BTreeEngine P) : Prop := {
  ei_pool : stands_for np C (bpm e);
  ei_tree : mkBTree (e_header_page_id e) (e_leaf_max_size e) (e_internal_max_size e) (e_max_tombstones e) = bt;
  ei_keys : key_count e = as_unsigned 64 keys;
  ei_size : data_size e = as_unsigned 64 size
}.

Definition engine_at (np : Z) (C : list entry) (e : BTreeEngine P) : Prop := engine_in np C (len C) (data_len C) e.

(** The pages for which no tree reaches [MAX_TREE_HEIGHT]. *)
Definition pages_ok (np : Z) : Prop := np <= INVALID_PAGE /\ np <= 2 * Z.of_nat (imin bt) ^ 19.

Lemma stands_low np C p :
  stands_for np C p -> pages_ok np ->
  exists o h, rests crc32 frames bt np o p /\ forest_wf bt kmax emax h o /\ contents_of o = C /\ (h < MAX_TREE_HEIGHT)%nat.
Proof.
  intros (o & h & Hd & W & E) [_ B]. destruct (low_tree crc32 frames bt kmax emax Sizes np o h p Hd W B) as (h' & W' & Hh). by exists o, h'.
Qed.

Lemma stands_sorted np C p : stands_for np C p -> keys_sorted C.
Proof. intros (o & h & _ & W & <-). destruct o as [t|]; [by apply (wf_sorted bt kmax emax h 2 [] None)|constructor]. Qed.

Lemma get_stands np C key p (Q : option bytes -> P -> Prop) :
  stands_for np C p -> pages_ok np -> (1 < frames)%nat -> (forall p', stands_for np C p' -> Q (kv_get key C) p') -> runs (tree_get crc32 bt key) p Q.
Proof.
  intros St B F K. destruct (stands_low np C p St B) as (o & h & Hd & W & <- & Hh).
  apply (tree_get_runs crc32 frames bt kmax emax crc32_u32 Sizes np o h); try done. intros p' Hd'. apply K. by exists o, h.
Qed.

Lemma insert_stands np C key value p (Q : bool -> P -> Prop) :
  stands_for np C p -> pages_ok np -> np + 22 <= INVALID_PAGE -> entry_small kmax emax (key, value) -> (26 < frames)%nat ->
  (forall np' p', kv_get key C = None -> np <= np' <= np + 22 -> stands_for np' (kv_put key value C) p' -> Q true p') ->
  (forall v p', kv_get key C = Some v -> stands_for np C p' -> Q false p') -> runs (tree_insert crc32 bt key value) p Q.
Proof.
  intros St B Hn Sm F K1 K0. destruct (stands_low np C p St B) as (o & h & Hd & W & <- & Hh).
  by apply (tree_insert_runs crc32 frames bt kmax emax crc32_u32 Sizes np o h).
Qed.

Lemma delete_stands np C key p (Q : bool -> P -> Prop) :
  stands_for np C p -> pages_ok np -> (28 < frames)%nat ->
  (forall v p', kv_get key C = Some v -> stands_for np (kv_delete key C) p' -> Q true p') ->
  (forall p', kv_get key C = None -> stands_for np C p' -> Q false p') -> runs (tree_delete crc32 bt key) p Q.
Proof.
  intros St B F K1 K0. destruct (stands_low np C p St B) as (o & h & Hd & W & <- & Hh).
  by apply (tree_delete_runs crc32 frames bt kmax emax crc32_u32 Sizes np o h).
Qed.

Lemma on_pool_runs {A} (m : M P A) e (Q : A -> BTreeEngine P -> Prop) :
  runs m (bpm e) (fun a p' => Q a (set_bpm p' e)) -> runs (on_pool m) e Q.
Proof. unfold runs, on_pool, zoom. by destruct (m (bpm e)) as [[a|err|] p']. Qed.

Lemma the_tree_runs np C keys size e (Q : BTree -> BTreeEngine P -> Prop) : engine_in np C keys size e -> Q bt e -> runs the_tree e Q.
Proof.
  intros [_ Et _ _] K. apply runs_bind. unfold runs at 1, gets. apply (runs_pure _ bt); [|done].
  pose proof (so_leaf _ _ _ Sizes) as H1. pose proof (so_internal _ _ _ Sizes) as H2. rewrite <- Et in H1, H2. cbn in H1, H2. unfold engine_tree, with_sizes, with_tombstones, id.
  destruct (Z.ltb_spec (e_leaf_max_size e) 2); [lia|]. destruct (Z.ltb_spec (e_internal_max_size e) 3); [lia|].
  rewrite <- Et. by destruct (e_max_tombstones e).
Qed.

Lemma modify_runs {T} (f : T -> T) s (Q : unit -> T -> Prop) : Q tt (f s) -> runs (modify f) s Q.
Proof. done. Qed.

Lemma add_counts_in np C keys size dk dd e : engine_in np C keys size e -> engine_in np C (keys + dk) (size + dd) (add_counts dk dd e).
Proof. intros [St Et Ek Ed]. split; cbn; [done|done|by rewrite Ek, as_unsigned_add|by rewrite Ed, as_unsigned_add]. Qed.

Lemma set_bpm_in np C np' C' keys size p' e : engine_in np C keys size e -> stands_for np' C' p' -> engine_in np' C' keys size (set_bpm p' e).
Proof. intros [_ Et Ek Ed] St. by split. Qed.

Lemma in_at np C keys size e : engine_in np C keys size e -> keys = len C -> size = data_len C -> engine_at np C e.
Proof. by intros Ei -> ->. Qed.

Lemma small_budget k v : entry_small kmax emax (k, v) -> (LEAF_BUDGET <? len k + len v) = false.
Proof.
  intros [_ Sm]. cbn in Sm. apply Z.ltb_ge. pose proof (so_leaf_room _ _ _ Sizes). pose proof (so_leaf _ _ _ Sizes). pose proof (so_key _ _ _ Sizes).
  unfold LEAF_BUDGET. nia.
Qed.

Lemma put_runs np C k v e (Q : unit -> BTreeEngine P -> Prop) :
  engine_at np C e -> pages_ok np -> np + 22 <= INVALID_PAGE -> entry_small kmax emax (k, v) -> (28 < frames)%nat ->
  (forall np' e', np <= np' <= np + 22 -> engine_at np' (kv_put k v C) e' -> Q tt e') -> runs (btree_put crc32 k v) e Q.
Proof.
  intros Ea B Hn Sm F K. unfold btree_put. rewrite small_budget by done. pose proof (stands_sorted _ _ _ (ei_pool _ _ _ _ _ Ea)) as So.
  destruct (data_len_put k v C So) as [Dp Lp]. apply runs_bind, (the_tree_runs _ _ _ _ _ _ Ea), runs_bind, on_pool_runs.
  apply (insert_stands np C k v); try done; [apply Ea|lia| |].
  - intros np' p1 G Hnp St1. rewrite G in Dp, Lp. apply modify_runs, (K np'); [done|].
    apply (in_at _ _ _ _ _ (add_counts_in _ _ _ _ _ _ _ (set_bpm_in _ _ _ _ _ _ _ _ Ea St1))); lia.
  - intros o p1 G St1. rewrite G in Dp, Lp. apply runs_bind, on_pool_runs. apply (get_stands np C k); try done; [lia|]. intros p2 St2. rewrite G. cbn zeta iota.
    apply runs_bind, on_pool_runs. apply (delete_stands np C k); try done; [|by rewrite G]. intros o' p3 _ St3. apply runs_bind, on_pool_runs.
    apply (insert_stands np (kv_delete k C) k v); try done; [lia| |by rewrite kv_get_delete, bool_decide_true].
    intros np' p4 _ Hnp St4. rewrite kv_put_delete in St4 by done. apply runs_bind, runs_ret, runs_bind, modify_runs, modify_runs, (K np'); [done|].
    apply (in_at _ _ _ _ _ (add_counts_in _ _ _ _ _ _ _ (add_counts_in _ _ _ _ _ _ _ (set_bpm_in _ _ _ _ _ _ p4 _ Ea St4)))); lia.
Qed.

Lemma delete_runs np C k e (Q : unit -> BTreeEngine P -> Prop) :
  engine_at np C e -> pages_ok np -> (28 < frames)%nat -> (forall e', engine_at np (kv_delete k C) e' -> Q tt e') -> runs (btree_delete crc32 k) e Q.
Proof.
  intros Ea B F K. pose proof (stands_sorted _ _ _ (ei_pool _ _ _ _ _ Ea)) as So. destruct (data_len_delete k C So) as [Dp Lp].
  apply runs_bind, (the_tree_runs _ _ _ _ _ _ Ea), runs_bind, on_pool_runs. apply (get_stands np C k); try done; [apply Ea|lia|]. intros p1 St1.
  apply runs_bind, on_pool_runs. apply (delete_stands np C k); try done.
  - intros o p2 G St2. rewrite G in *. apply modify_runs, K.
    apply (in_at _ _ _ _ _ (add_counts_in _ _ _ _ _ _ _ (set_bpm_in _ _ _ _ _ _ p2 _ Ea St2))); lia.
  - intros p2 G St2. rewrite G in *. apply runs_ret, K. assert (Ec : kv_delete k C = C).
    { apply kv_ext; [by apply keys_sorted_delete|done|]. intros k'. rewrite kv_get_delete. case_bool_decide; [by subst|done]. }
    rewrite Ec. apply (in_at _ _ _ _ _ (set_bpm_in _ _ _ _ _ _ p2 _ Ea St2)); done.
Qed.

Lemma flush_engine_runs np C e (Q : unit -> BTreeEngine P -> Prop) : engine_at np C e -> (forall e', engine_at np C e' -> Q tt e') -> runs btree_flush e Q.
Proof.
  intros Ea K. apply on_pool_runs. destruct (ei_pool _ _ _ _ _ Ea) as (o & h & Hd & W & E). eapply flush_runs; [exact Hd|]. intros p' Hd'.
  apply K, (set_bpm_in _ _ _ _ _ _ _ _ Ea). by exists o, h.
Qed.

Lemma calls_runs cs : forall np C e (Q : unit -> BTreeEngine P -> Prop),
  engine_at np C e -> Forall (call_small kmax emax) cs -> pages_ok (np + 22 * len cs) -> (28 < frames)%nat ->
  (forall np' e', np <= np' <= np + 22 * len cs -> engine_at np' (fold_left (fun es c => call_store c es) cs C) e' -> Q tt e') ->
  runs (run_btree_calls crc32 cs) e Q.
Proof.
  induction cs as [|c cs IH]; intros np C e Q Ea Sm B F K; cbn [run_btree_calls fold_left].
  { apply runs_ret, (K np); [unfold len; cbn [length]; lia|done]. }
  apply Forall_cons in Sm as [Sc Sm]. rewrite len_cons in B, K. pose proof (len_nonneg cs). destruct B as [B1 B2].
  apply runs_bind. destruct c as [k v|k|]; cbn [run_btree_call call_store] in *.
  - apply (put_runs np C k v); try done; [split; lia|lia|]. intros np1 e1 Hn Ea1. apply (IH np1 (kv_put k v C)); try done; [split; lia|].
    intros np' e' Hn'. apply K. lia.
  - apply (delete_runs np C k); try done; [split; lia|]. intros e1 Ea1. apply (IH np (kv_delete k C)); try done; [split; lia|].
    intros np' e' Hn'. apply K. lia.
  - apply (flush_engine_runs np C); try done. intros e1 Ea1. apply (IH np C); try done; [split; lia|]. intros np' e' Hn'. apply K. lia.
Qed.

Lemma get_runs np C keys size k e : engine_in np C keys size e -> pages_ok np -> (1 < frames)%nat -> runs (btree_get crc32 k) e (fun r e' => r = kv_get k C).
Proof.
  intros Ea B F. apply runs_bind, (the_tree_runs _ _ _ _ _ _ Ea), on_pool_runs. by apply (get_stands np C k); [apply Ea| | |].
Qed.

Lemma scan_runs np C keys size n lo hi e :
  engine_in np C keys size e -> pages_ok np -> (1 < frames)%nat -> np <= Z.of_nat MAX_SCAN_PAGES -> (length C < n)%nat ->
  runs (btree_scan_range crc32 n lo hi) e (fun r e' => r = map Ok (kv_scan lo hi C)).
Proof.
  intros Ea B F Hn Ln. destruct (stands_low np C _ (ei_pool _ _ _ _ _ Ea) B) as (o & h & Hd & W & E & Hh).
  assert (R : runs (it ← tree_scan crc32 bt lo hi; scan_collect crc32 n it) (bpm e) (fun r _ => r = map Ok (kv_scan lo hi C))).
  { rewrite <- E. apply (range_runs crc32 frames bt kmax emax crc32_u32 Sizes np o h n lo hi); try done.
    - intros t ->. apply rests_leaves in Hd. unfold len in Hd. lia.
    - rewrite E. eapply Nat.le_lt_trans; [|exact Ln]. apply List.filter_length_le. }
  destruct (runs_eq _ _ _ (the_tree_runs _ _ _ _ e (fun t e' => t = bt /\ e' = e) Ea ltac:(done))) as (t0 & e1 & Et & -> & ->).
  unfold runs, btree_scan_range, mbind, M_bind in *. rewrite Et. unfold on_pool, zoom.
  destruct (tree_scan crc32 bt lo hi (bpm e)) as [[it|err|] p1]; try done. cbn [set_bpm bpm].
  by destruct (scan_collect crc32 n it p1) as [[r|err|] p2].
Qed.
End engine.

(** ** From an empty pool *)

Definition fresh {P} `{BufferPool P} (p : P) : Prop := pool_ok p /\ pages p = [] /\ guards p = [].

Lemma btree_build_ok {P} `{BufferPool P} crc32 lm im mt kmax emax (p : P) :
  (forall b, in_u32 (crc32 b) = true) -> fresh p -> (0 < pool_size p)%nat ->
  exists e, engine_build crc32 p lm im mt = Ok e /\ engine_at crc32 (pool_size p) (mkBTree 0 lm im mt) kmax emax 1 [] e.
Proof.
  intros Hc (Ok_ & Ep & Eg) F. assert (Hd : holds crc32 (pool_size p) 0 [] p).
  { split; try done; [by rewrite Ep|constructor|by rewrite Eg]. }
  set (m := scoped (g ← new_page; edit_page g (fun b => header_encode crc32 header_page_new b);; mret (page_id g))).
  assert (R : runs m p (fun i p' => i = 0 /\ stands_for crc32 (pool_size p) (mkBTree 0 lm im mt) kmax emax 1 [] p')).
  { apply (scoped_runs crc32 (pool_size p) 0 [] _ p _ Hd eq_refl). apply runs_bind. eapply new_page_runs; [exact Hd|done|done|]. intros g p1 Eg1 Hd1. apply runs_bind.
    eapply (edit_runs crc32 (pool_size p)) with (c' := CHeader INVALID_PAGE); [exact Hd1|intros b Lb; by apply header_encode_ok|]. intros p2 Hd2. apply runs_ret.
    eexists 1, _. split; [exact Hd2|]. intros p3 Hd3. split; [done|]. by exists None, 0%nat. }
  apply runs_eq in R as (i & p' & E & -> & St). unfold engine_build. fold m. rewrite E. eexists. split; [done|]. by split.
Qed.

Lemma map_after_small kmax emax cs :
  0 <= kmax <= emax -> Forall (call_small kmax emax) cs -> keys_sorted (map_after cs) /\ len (map_after cs) <= len cs /\ 0 <= data_len (map_after cs) <= emax * len cs.
Proof.
  intros Hk. unfold map_after. induction cs as [|c cs IH] using rev_ind; intros F; [cbn; split_and!; [constructor|done|done|unfold len; cbn; lia]|].
  apply Forall_app in F as [F Fc]. apply Forall_cons in Fc as [Fc _]. destruct (IH F) as (So & L & D). rewrite fold_left_app, len_app. cbn [fold_left].
  set (C := fold_left _ cs []) in *. pose proof (len_nonneg cs). change (len [c]) with 1.
  assert (N : 0 <= data_len (call_store c C)).
  { induction (call_store c C) as [|x l IHl]; [done|]. cbn [data_len]. unfold entry_bytes_len. pose proof (len_nonneg x.1). pose proof (len_nonneg x.2). lia. }
  destruct c as [k v|k|]; cbn [call_store call_small] in *.
  - destruct (data_len_put k v C So) as [Dp Lp]. destruct Fc as [Fk Fv]. cbn in Fk, Fv. pose proof (len_nonneg k). pose proof (len_nonneg v).
    split_and!; [by apply keys_sorted_put|destruct (kv_get k C); lia|done|]. rewrite Dp. destruct (kv_get k C) as [o|]; [pose proof (len_nonneg o)|]; nia.
  - destruct (data_len_delete k C So) as [Dp Lp]. pose proof (len_nonneg k).
    split_and!; [by apply keys_sorted_delete|destruct (kv_get k C); lia|done|]. rewrite Dp. destruct (kv_get k C) as [o|]; [pose proof (len_nonneg o)|]; nia.
  - split_and!; [done|lia|done|nia].
Qed.

(** The page of a header is not all zeros at its start. *)
Lemma header_marked crc32 r b : shows crc32 (CHeader r) b -> existsb (fun x => negb (u8 x =? 0)) (take 16 b) = true.
Proof. intros [[_ [rest ->]] _]. reflexivity. Qed.

Lemma btree_reopen_ok {P} `{BufferPool P} crc32 frames lm im kmax emax np C (p : P) :
  stands_for crc32 frames (mkBTree 0 lm im 0) kmax emax np C p -> (0 < frames)%nat ->
  0 < disk_page_count p /\ exists e, open_existing crc32 p lm im = Ok e /\ engine_in crc32 frames (mkBTree 0 lm im 0) kmax emax np C 0 0 e.
Proof.
  intros (o & h & Hd & W & E) F. pose proof (holds_range _ _ _ _ _ _ Hd) as Hr. cbn in Hr. split.
  { rewrite page_count_ok by apply Hd. rewrite (hd_pages _ _ _ _ _ Hd). lia. }
  set (m := scoped (g ← fetch_page_read 0; b ← page_of g; mret (existsb (fun x => negb (u8 x =? 0)) (take 16 b)))).
  assert (R : runs m p (fun x p' => x = true /\ stands_for crc32 frames (mkBTree 0 lm im 0) kmax emax np C p')).
  { apply (scoped_runs crc32 frames np _ _ p _ Hd); [by rewrite guards_of_cons, slots_of_guards|]. apply runs_bind.
    eapply fetch_read_runs; [exact Hd|by rewrite slots_of_guards|]. intros g p1 Eg Hd1. apply runs_bind.
    eapply page_of_runs; [exact Hd1|apply list_elem_of_here|]. intros b Sb. apply runs_ret. eexists np, _. split; [exact Hd1|]. intros p2 Hd2.
    split; [by eapply header_marked|]. exists o, h. split_and!; [|done|done]. eapply holds_perm; [exact Hd2|].
    rewrite free_cons, free_slot, free_id by by rewrite slots_of_guards. done. }
  apply runs_eq in R as (x & p' & Em & -> & St). unfold open_existing. fold m. rewrite Em. eexists. split; [done|]. by split.
Qed.

Section claims.
Context {P : Type} `{BufferPool P} (crc32 : bytes -> Z) (p : P) (leaf_max internal_max : Z) (tombs : nat) (kmax emax : Z) (cs : list Call).

(** What the pool and the calls have to be. *)
Record setting : Prop := {
  se_crc : forall b, in_u32 (crc32 b) = true;
  se_fresh : fresh p;
  se_frames : (28 < pool_size p)%nat;
  se_sizes : sizes_ok (mkBTree 0 leaf_max internal_max tombs) kmax emax;
  se_small : Forall (call_small kmax emax) cs;
  se_pages : 1 + 22 * len cs <= INVALID_PAGE;
  se_low : 1 + 22 * len cs <= 2 * (internal_max / 2) ^ 19
}.

Lemma setting_pages np : setting -> np <= 1 + 22 * len cs -> pages_ok (mkBTree 0 leaf_max internal_max tombs) np.
Proof.
  intros [_ _ _ Sz _ Hp Hl] L. pose proof (so_internal _ _ _ Sz) as Hi. cbn in Hi. split; [lia|]. unfold imin. cbn [internal_max_size].
  rewrite Z2Nat.id by (apply Z.div_pos; lia). lia.
Qed.

Lemma calls_at : setting ->
  exists e0 e np, btree_engine_with_sizes crc32 p leaf_max internal_max tombs = Ok e0 /\ run_btree_calls crc32 cs e0 = (Ok tt, e) /\
    1 <= np <= 1 + 22 * len cs /\ engine_at crc32 (pool_size p) (mkBTree 0 leaf_max internal_max tombs) kmax emax np (map_after cs) e.
Proof.
  intros Se. pose proof Se as [Hc Fr Hf Sz Sm Hp Hl].
  destruct (btree_build_ok crc32 leaf_max internal_max tombs kmax emax p Hc Fr ltac:(lia)) as (e0 & E0 & Ea).
  assert (R : runs (run_btree_calls crc32 cs) e0 (fun _ e => exists np, 1 <= np <= 1 + 22 * len cs /\
    engine_at crc32 (pool_size p) (mkBTree 0 leaf_max internal_max tombs) kmax emax np (map_after cs) e)).
  { apply (calls_runs crc32 (pool_size p) _ kmax emax Hc Sz cs 1 [] e0 _ Ea Sm); [by apply setting_pages|done|]. intros np e Hn Ea'. by exists np. }
  apply runs_eq in R as ([] & e & E & np & Hn & Ea'). by exists e0, e, np.
Qed.

Lemma at_pages np C e : engine_at crc32 (pool_size p) (mkBTree 0 leaf_max internal_max tombs) kmax emax np C e -> disk_page_count (bpm e) = np.
Proof. intros [(o & h & Hd & _) _ _ _]. rewrite page_count_ok by apply Hd. apply Hd. Qed.
End claims.

Lemma reads_ok {P} `{BufferPool P} crc32 frames bt kmax emax np C keys size (e : BTreeEngine P) :
  (forall b, in_u32 (crc32 b) = true) -> sizes_ok bt kmax emax -> engine_in crc32 frames bt kmax emax np C keys size e -> pages_ok bt np -> (1 < frames)%nat ->
  (forall k, exists e', btree_get crc32 k e = (Ok (kv_get k C), e')) /\
  (forall lo hi n, disk_page_count (bpm e) <= Z.of_nat MAX_SCAN_PAGES -> (length C < n)%nat ->
     exists e', btree_scan_range crc32 n lo hi e = (Ok (map Ok (kv_scan lo hi C)), e')).
Proof.
  intros Hc Sz Ei Hp Hf. split.
  - intros k. pose proof (get_runs crc32 frames bt kmax emax Hc Sz np C keys size k e Ei Hp Hf) as R. apply runs_eq in R as (r & e' & E & ->). by exists e'.
  - intros lo hi n Hs Ln. assert (Hn : np <= Z.of_nat MAX_SCAN_PAGES).
    { destruct (ei_pool _ _ _ _ _ _ _ _ _ _ Ei) as (o & h & Hd & _). rewrite page_count_ok, (hd_pages _ _ _ _ _ Hd) in Hs by apply Hd. done. }
    pose proof (scan_runs crc32 frames bt kmax emax Hc Sz np C keys size n lo hi e Ei Hp Hf Hn Ln) as R. apply runs_eq in R as (r & e' & E & ->). by exists e'.
Qed.

(** ** Examples *)

Definition small_pool : Array := mkArray [] [] 40.
Definition sample (n : Z) : bytes := [byte.of_Z n].
Definition sample_crc (b : bytes) : Z := len b mod 2 ^ 32.
Definition sample_calls : list Call :=
  map (fun n => CallPut (sample n) (sample (100 + n))) (seqZ 1 12) ++ map (fun n => CallDelete (sample n)) (seqZ 3 8) ++ [CallFlush; CallPut (sample 2) (sample 7)].

Lemma sample_setting tombs : (tombs <= 2)%nat -> setting sample_crc small_pool 4 4 tombs 8 16 sample_calls.
Proof.
  intros Ht. split; [|by split_and!; [split; constructor|..]|cbn; lia| | |by vm_compute|by vm_compute].
  - intros b. unfold sample_crc. pose proof (Z.mod_pos_bound (len b) (2 ^ 32) ltac:(lia)). unfold in_u32. lia.
  - split; cbn; unfold MAX_TOMBSTONES, LEAF_HEADER_SIZE, INTERNAL_HEADER_SIZE, PAGE_SIZE, HEADER_SIZE; lia.
  - repeat constructor; by vm_compute.
Qed.

(** Nodes are limited by their number of entries only: two entries that each fit
    a leaf do not fit one together, and the second put panics. *)
Lemma large_entries_panic :
  (e ← btree_engine_new sample_crc small_pool;
   (run_btree_calls sample_crc [CallPut (sample 1) (replicate 3000 Byte.x01); CallPut (sample 2) (replicate 3000 Byte.x01)] e).1) = Panic.
Proof. vm_compute. reflexivity. Qed.

(** With more tombstones than a page has room for, deleted keys come back: nineteen
    keys less twelve are eleven. *)
Lemma tombstones_beyond_page_lost :
  (e ← btree_engine_with_sizes sample_crc small_pool 20 20 12;
   let '(_, e) := run_btree_calls sample_crc (map (fun n => CallPut (sample n) (sample n)) (seqZ 1 19) ++ map (fun n => CallDelete (sample n)) (seqZ 1 12)) e in
   length <$> (btree_scan_range sample_crc 50 Unbounded Unbounded e).1) = Ok 11%nat.
Proof. vm_compute. reflexivity. Qed.

(** ** Theorems *)





(** C13. A closed and reopened engine holds the same map: an engine of the
    default sizes in a [setting] as above, created over an empty pool, used,
    and opened again over the pool that it left, gives the map that the calls
    made, by point reads, and by range scans as long as the file has at most
    [MAX_SCAN_PAGES] pages; only its counters start again from zero. *)
Theorem btree_reopen_reads {P} `{BufferPool P} crc32 (p : P) kmax emax cs :
  let leaf_max := calculate_leaf_max_size DEFAULT_AVG_KEY_SIZE DEFAULT_AVG_VALUE_SIZE in
  let internal_max := calculate_internal_max_size DEFAULT_AVG_KEY_SIZE in
  setting crc32 p leaf_max internal_max 0 kmax emax cs ->
  exists e0 e e1, btree_engine_new crc32 p = Ok e0 /\ run_btree_calls crc32 cs e0 = (Ok tt, e) /\ btree_engine_new crc32 (bpm e) = Ok e1 /\
    (forall k, exists e', btree_get crc32 k e1 = (Ok (kv_get k (map_after cs)), e')) /\
    (forall lo hi n, disk_page_count (bpm e1) <= Z.of_nat MAX_SCAN_PAGES -> (length (map_after cs) < n)%nat ->
       exists e', btree_scan_range crc32 n lo hi e1 = (Ok (map Ok (kv_scan lo hi (map_after cs))), e')) /\
    key_count e1 = 0 /\ data_size e1 = 0.
Proof.
  intros leaf_max internal_max Se. destruct (calls_at crc32 p leaf_max internal_max 0 kmax emax cs Se) as (e0 & e & np & E0 & E & Hn & Ea).
  pose proof Se as [Hc (Po & Pp & _) Hf Sz Sm Hp _]. pose proof (setting_pages _ _ _ _ _ _ _ _ np Se ltac:(lia)) as Hpg.
  destruct (btree_reopen_ok crc32 (pool_size p) leaf_max internal_max kmax emax np _ (bpm e) (ei_pool _ _ _ _ _ _ _ _ _ _ Ea) ltac:(lia)) as (Hd & e1 & E1 & Ei).
  destruct (reads_ok crc32 (pool_size p) _ kmax emax np _ _ _ e1 Hc Sz Ei Hpg ltac:(lia)) as [Rg Rs].
  exists e0, e, e1. unfold btree_engine_new. rewrite (page_count_ok p Po), Pp, (proj2 (Z.ltb_lt _ _) Hd). split_and!; try done; apply Ei.
Qed.

Lemma btree_reopen_reads_witness :
  exists e0 e e1, btree_engine_new sample_crc small_pool = Ok e0 /\ run_btree_calls sample_crc sample_calls e0 = (Ok tt, e) /\
    btree_engine_new sample_crc (bpm e) = Ok e1 /\
    (forall k, exists e', btree_get sample_crc k e1 = (Ok (kv_get k (map_after sample_calls)), e')) /\
    (forall lo hi n, disk_page_count (bpm e1) <= Z.of_nat MAX_SCAN_PAGES -> (length (map_after sample_calls) < n)%nat ->
       exists e', btree_scan_range sample_crc n lo hi e1 = (Ok (map Ok (kv_scan lo hi (map_after sample_calls))), e')) /\
    key_count e1 = 0 /\ data_size e1 = 0.
Proof.
  apply (btree_reopen_reads sample_crc small_pool 32 96 sample_calls).
  destruct (sample_setting 0 ltac:(lia)) as [H1 H2 H3 _ _ H4 _].
  split; [done..| | |done|by vm_compute]; [split; vm_compute; (reflexivity || intuition discriminate)|]. repeat constructor; by vm_compute.
Defined.
